(* ===== verification/_CoqProject ===== *)
-Q . S2P
Prelude.v
Ordered.v
Bitfield.v
Json.v
Canonical.v
Crypt.v
Content.v
Diff.v
Crdt.v
Bencode.v
Feed.v
Checkpoint.v
Choke.v
Sched.v
Swarm.v
Xor8.v
Search.v
Text.v
Peer.v
AddrText.v
Peers.v
Dht.v
SelfEnc.v
Verify.v
Bundle.v
Manifest.v
Wire.v
Conn.v
Handshake.v
Server.v
Session.v
Client.v
XiteFields.v
Propagation.v
Chain.v
Policy.v
Store.v
StoreInv.v
StoreFlight.v
StoreRun.v
StoreQuota.v
StoreCheck.v
Transfer.v
Pretty.v
Files.v
Xite.v
XiteSign.v
