(* ===== verification/Prelude.v ===== *)
(** * EpixNet: a verification library

    EpixNet is a peer-to-peer network of signed sites ("xites"). A xite is a
    tree of files described by signed [content.json] manifests; files travel as
    BLAKE3-addressed objects over the EDX protocol, are kept in a local object
    store, and are found through a DHT, gossip and trackers; names resolve over
    a blockchain RPC. This library models the parts of the Rust code under
    [src/crates] that carry that logic, as executable definitions, and proves
    what makes them correct. Only code under [src] is defined here; third-party
    crates (hashes, ciphers, curves, codecs, [bao_tree], [redb], the HTTP client)
    are parameters or the operations of a class, with what the code relies on as
    named hypotheses, and every theorem that has hypotheses comes with a witness
    at a concrete instance.

    ** Files

    Shared ground.
    - [Prelude]: bytes, machine words, list and option lemmas, result type,
      tactics and hint databases.
    - [Ordered]: [Ord], stable sorting, [dedup], [BTreeMap]; [Json]:
      [serde_json::Value]; [Text]: [str] methods, integer parsing, doubles.

    Content and signatures.
    - [Canonical] ([epix-content/canonical.rs]): the signed dump.
    - [Crypt] ([epix-crypt]): keys, recoverable signatures, ECIES; the
      primitives are the class [Crypto].
    - [Content], [Verify] ([epix-content/lib.rs], [verify.rs]): signing a
      content.json and everything checked before one is accepted.
    - [Diff] ([diff.rs]), [Crdt] ([record.rs], [merge.rs]): patches between
      versions, and signed OR-Set merge files.
    - [Manifest], [Bundle], [Policy] ([epix-blob/manifest.rs], [bundle.rs],
      [policy.rs]): the EDX fields of a manifest, packing of small files, the
      owner's order and distribution rules.
    - [Pretty] ([canonical.rs]): the indented form a content.json is stored in.
    - [Files] ([epix-xite/storage.rs], [epix-core/error.rs]): a file system with
      refused calls, torn and unsynced writes, and the xite storage over it.
    - [Xite], [XiteSign] ([epix-xite/xite.rs]): loading, staging, adopting and
      revoking contents; signing.
    - [SelfEnc] ([epix-selfenc]): encrypted shards. [Bencode] ([epix-bt]).
    - [XiteFields] ([epix-xite]): piecefields, hashfields, piece maps.

    Objects and transfer.
    - [Bitfield] ([epix-blob/bitfield.rs]): which chunk groups are present.
    - [Store], [StoreInv], [StoreFlight], [StoreRun], [StoreQuota],
      [StoreCheck] ([epix-blob/store.rs], [verified.rs]): the object store, its
      invariant, decodes in flight, histories with power cuts, quota, and
      concrete runs.
    - [Sched], [Swarm] ([epix-edx/sched.rs]): fetch policy and fetch loop;
      [Choke] ([choke.rs]): who is served.
    - [Wire] ([epix-edx/msg.rs], [frame.rs]): messages and frames; [Conn]
      ([conn.rs]): streams multiplexed over one connection, its lanes, caps and
      shutdown; [Handshake] ([noise.rs]): hellos and channel binding.
    - [Server] ([epix-edx/server.rs]): the request handlers; [Session]
      ([epix-protocol/server.rs]): the accept and serve loops around them; [Client]
      ([epix-edx/fetch.rs]): the requests a node makes; [Transfer]: a range fetch from store to store.

    Finding peers and names.
    - [Peer], [AddrText] ([epix-core/peer.rs]), [Peers] ([epix-peer]): addresses,
      their text, the registry and peer selection.
    - [Dht] ([epix-dht], [epix-dht-net/service.rs]); [Propagation]
      ([epix-propagation]): update notifications; [Chain] ([epix-chain]).

    Derived data.
    - [Feed], [Checkpoint] ([epix-feed]): segments, spine, index, adapter,
      reactions, checkpoints, rollups.
    - [Search], [Xor8] ([epix-search]): inverted index and term filters.

    ** How the parts meet

    [Verify] decides with [Content] and [Crypt] whose manifest counts;
    [Manifest] reads from it the object ids that [Swarm] fetches, in the order
    [Policy] and [Sched] give. What arrives goes through the verified decode of
    [Store], which keeps [Bitfield]s; [Bundle] explains where a small file lies
    in its object. [Peers] picks whom to ask, from addresses [Dht] and gossip
    report in the forms of [Peer] and [AddrText]; [Propagation] says what to ask
    for again. A frame goes through [Wire] and [Conn] to a handler of [Server],
    which [Session] lets in once [Handshake] has named the peer, and [Client] puts
    what comes back into [Store]. The owner's side starts at [XiteSign]: it hashes
    the disk of [Files] into a manifest ([Manifest], [Bundle], [SelfEnc]), signs it
    with [Content] and stores it as [Pretty] prints it; [Xite] is where the same
    bytes are adopted by a peer. [Crdt], [Feed], [Search] and [Checkpoint] work on the files so
    obtained. The interfaces are classes ([Crypto], [Bao]) and section
    parameters, so each client's theorems hold of any implementation with the
    stated laws.

    ** What the theorems show

    - Acceptance is exact and authority flows downwards: [Verify], [Content],
      [Crdt.verify_record_spec], [SelfEnc], [Manifest.merkle_binds],
      [Chain.merkle_binding]; signatures bind the whole value.
    - Convergence: the merge of [Crdt] is a semilattice that only grows; the live
      view, checkpoints and rollups are functions of the record set;
      [Search.index_refines] and [Propagation.catch_up] refine simple
      specifications; [Bundle.assign_stable].
    - Crash safety: in every reachable state of the store, power cuts included,
      its invariant holds, reads are authentic, reported inserts survive,
      compaction loses nothing, quotas are met.
    - Liveness and termination: the fetch loop ends within a stated number of
      batches; a DHT lookup ends and converges; peer selection reaches every
      candidate.
    - Privacy: while Tor is required no chain request leaves except through the
      proxy ([Chain.no_clearnet_egress]); a private file's path and hash are in
      neither table of a signed manifest ([XiteSign.sign_publishes]).
    - The protocol: streams are FIFO, bounded and never leave a caller waiting
      ([Conn]); identity is proved for this channel and role ([Handshake]); every
      request gets one terminal reply that fits its frame, within what the choker
      granted ([Server], [Session]); the client believes only what it verified
      ([Client]); the two together move a range from store to store ([Transfer]).
    - Files: a commit leaves the old content or the new at every instant, nothing
      outside the xite's directory changes ([Files]); what a signing puts out is
      what is on disk, and a peer adopts it ([XiteSign.sign_publishes]); a content
      is adopted only when it verifies, and a revocation takes exactly the files it
      may ([Xite.adoption_exact]).
    - Round trips: diffs, shards, manifests, address text, piecefields, wire
      bitfields, Bencode, ECIES.
    - Findings: [Swarm.fetch_strands_groups], [Verify.size_limit_wraps],
      [Crypt.ecies_decrypt_panics], [Manifest.identical_bundles_merge],
      [StoreCheck.stale_tail_read], [StoreCheck.edited_extern_read],
      [StoreCheck.retired_under_decode], [Chain.forged_record_accepted],
      [Chain.name_lookup_depends_on_history], [Peers.limit_one_returns_two],
      [Peers.limit_zero_returns_all], [AddrText.placeholder_roundtrips],
      [Conn.abandoned_request_leaks], [Server.cancelled_slice_repeats],
      [Server.fragmented_bitfield_refused], [Server.grown_item_refused],
      [Files.backslash_lost], [XiteSign.leftover_signed],
      [XiteSign.last_optional_stays] exhibit
      behaviour the code does not mean to have.

    ** Modelling choices

    Integers keep their width: plain additions wrap as in a release build,
    saturating ones saturate, and indexing or subtraction that would panic is an
    [option] or an error. Exceptions, each said in its file: slab numbers and
    sums of sizes in [Store] and the i64 clock sums of [Peers] are unbounded.
    Text is its UTF-8 bytes. A [BTreeMap] is a sorted association list, a
    [HashMap] a [gmap] whose iteration order, where the code depends on it, is a
    parameter.

    Fuel. Recursion that is not structural runs on a fuel computed from the
    input, and the theorems do not suppose it suffices: the [Bencode] decoder has
    two units per input byte and [SelfEnc]'s chunking one; [Diff.walk] one per
    line of the two files; [Xor8]'s peeling one per slot and three per key;
    [Swarm]'s refill one per free slot, and its runs are bounded by
    [fetch_terminates]; the DHT lookup one per identifier it can learn
    ([lookup_correct]); eviction loops one per object; Merkle levels
    ([Manifest.merkle_loop], [XiteFields.merkle_up]) one per node;
    [XiteFields.split_run] one per 65535 pieces.

    The store's disk. Every effect on it can be the last before a power cut, and
    an append can be torn; index transactions are atomic and fail only with the
    power. Truncating the file back after a torn append is taken to succeed;
    stamps written with [Durability::None] are kept; [seal_damaged] is modelled
    and shown unreachable under the invariant. Histories leave out
    materializing or revalidating an object while a decode of it is in flight,
    and bytes written through an open handle after its file was renamed away are
    not tracked.

    The xite's disk. A path maps to a directory or a file with its bytes, whether
    they are synced, and its time; each system call may be refused, a write may be
    cut off, and a power cut loses what was not synced. The calls made while rules
    are looked up are not counted one by one: any of them may fail ([glitch]). A
    regular expression is a function of the text, its matches a list of pieces of
    it; parsing JSON, hashing and drawing random bytes are parameters.

    The network. Peers and the chain RPC are adversarial functions of what was
    sent to them, the clock is an input. Operations of [Chain] run one at a time;
    the fetch loop takes the outcome of every race as an input, so a theorem
    about every run is about every schedule.

    ** Not modelled

    Sockets, TLS, Noise and QUIC sessions, the pacing of links by an f64 token
    bucket, Tor, I2P and Reticulum drivers, the HTTP and WebSocket user
    interface, SQL databases, the browser shell, mobile bindings and build
    scripts: their code is calls into libraries whose state it does not own. The
    node runtime ([epix-runtime], [epix-node]) and the UI state ([epix-ui])
    compose the modelled parts behind locks and tasks. Floating-point scoring
    ([epix-blob/responsibility.rs]) is a threshold on doubles. Of [xite.rs], the
    registration of local files with the object store is left out.

    ** State and plan

    Modelled: the content layer with its files and signing, the object store, the
    protocol from frame to transfer, the fetch loop, the DHT, the registry, the
    chain client, feeds and search. What could come next: the registration of
    local files with the store ([edx_register]), the transfer bookkeeping of the
    runtime ([epix-runtime/xfer.rs]), and the protocol registry and
    advertisements ([epix-protocol]). *)
From Stdlib Require Import ZArith Lia String Strings.Byte.
From stdpp Require Import base list sorting strings gmap.

#[global] Open Scope Z_scope.

(** ** Bytes and machine words *)

Abbreviation byte := Init.Byte.byte.
(** Rust [Vec<u8>], [&[u8]] and also [String]/[&str] (their UTF-8 bytes). *)
Abbreviation bytes := (list byte).

(** Literals: [bstr "EDX1"] is the byte string of an ASCII literal. *)
Definition bstr (s : string) : bytes := list_byte_of_string s.

Definition byte_val (b : byte) : Z := Z.of_N (Byte.to_N b).
Definition byte_of (z : Z) : byte :=
  match Byte.of_N (Z.to_N (z mod 256)) with Some b => b | None => x00 end.

Definition u64_max : Z := 2 ^ 64 - 1.
Definition u32_max : Z := 2 ^ 32 - 1.
Definition i64_max : Z := 2 ^ 63 - 1.
Definition i64_min : Z := - 2 ^ 63.
Definition is_u64 (x : Z) : Prop := 0 <= x <= u64_max.
Definition is_u32 (x : Z) : Prop := 0 <= x <= u32_max.
Definition wrap64 (x : Z) : Z := x mod 2 ^ 64.
Definition wrap32 (x : Z) : Z := x mod 2 ^ 32.
Definition sat_add64 (x y : Z) : Z := Z.min (x + y) u64_max.
Definition sat_sub (x y : Z) : Z := Z.max 0 (x - y).
Definition sat_mul64 (x y : Z) : Z := Z.min (x * y) u64_max.
Definition sat_add32 (x y : Z) : Z := Z.min (x + y) u32_max.
(** [u64::div_ceil] with a positive divisor. *)
Definition div_ceil (x y : Z) : Z := (x + y - 1) / y.

#[global] Instance byte_eq_dec : EqDecision byte := Byte.byte_eq_dec.

Lemma byte_val_range b : 0 <= byte_val b < 256.
Proof. unfold byte_val. pose proof (Byte.to_N_bounded b). lia. Qed.

Lemma byte_of_val b : byte_of (byte_val b) = b.
Proof.
  unfold byte_of. rewrite Z.mod_small by apply byte_val_range.
  unfold byte_val. rewrite N2Z.id, Byte.of_to_N. done.
Qed.

Lemma byte_val_of z : byte_val (byte_of z) = z mod 256.
Proof.
  unfold byte_of. pose proof (Z.mod_pos_bound z 256 ltac:(lia)) as Hb.
  destruct (Byte.of_N _) as [b|] eqn:E.
  - apply Byte.to_of_N in E. unfold byte_val. rewrite E. lia.
  - apply Byte.of_N_None_iff in E. lia.
Qed.

Lemma byte_val_inj a b : byte_val a = byte_val b → a = b.
Proof. intros H. rewrite <- (byte_of_val a), <- (byte_of_val b), H. done. Qed.

#[global] Instance byte_countable : Countable byte :=
  inj_countable Byte.to_N Byte.of_N Byte.of_to_N.

(** ** Little- and big-endian words: [to_le_bytes], [from_le_bytes], ... *)

Fixpoint le_bytes (n : nat) (x : Z) : bytes :=
  match n with
  | O => []
  | S n => byte_of x :: le_bytes n (x / 256)
  end.

Fixpoint le_val (bs : bytes) : Z :=
  match bs with
  | [] => 0
  | b :: bs => byte_val b + 256 * le_val bs
  end.

Definition be_bytes (n : nat) (x : Z) : bytes := rev (le_bytes n x).
Definition be_val (bs : bytes) : Z := le_val (rev bs).

Abbreviation le32 := (le_bytes 4).
Abbreviation le64 := (le_bytes 8).

Lemma length_le_bytes n x : length (le_bytes n x) = n.
Proof. revert x; induction n; intros x; simpl; auto. Qed.

Lemma length_be_bytes n x : length (be_bytes n x) = n.
Proof. unfold be_bytes. rewrite length_rev. apply length_le_bytes. Qed.

Lemma le_val_range bs : 0 <= le_val bs < 256 ^ Z.of_nat (length bs).
Proof.
  induction bs as [|b bs IH]; [done|].
  cbn [le_val length]. rewrite Nat2Z.inj_succ, Z.pow_succ_r by lia.
  pose proof (byte_val_range b). lia.
Qed.

Lemma le_val_bytes n x : le_val (le_bytes n x) = x mod 256 ^ Z.of_nat n.
Proof.
  revert x; induction n as [|n IH]; intros x.
  - simpl. rewrite Z.mod_1_r. done.
  - cbn [le_bytes le_val]. rewrite IH, byte_val_of, Nat2Z.inj_succ, Z.pow_succ_r by lia.
    pose proof (Z.pow_pos_nonneg 256 (Z.of_nat n) ltac:(lia) ltac:(lia)).
    rewrite Z.rem_mul_r by lia. lia.
Qed.

Lemma le_bytes_val bs : le_bytes (length bs) (le_val bs) = bs.
Proof.
  induction bs as [|b bs IH]; [done|].
  cbn [length le_bytes le_val]. pose proof (byte_val_range b). f_equal.
  - apply byte_val_inj. rewrite byte_val_of.
    replace (byte_val b + 256 * le_val bs) with (byte_val b + le_val bs * 256) by lia.
    rewrite Z_mod_plus_full, Z.mod_small; lia.
  - replace ((byte_val b + 256 * le_val bs) / 256) with (le_val bs); [done|].
    replace (byte_val b + 256 * le_val bs) with (byte_val b + le_val bs * 256) by lia.
    rewrite Z_div_plus_full, Z.div_small; lia.
Qed.

Lemma le_roundtrip n x : 0 <= x < 256 ^ Z.of_nat n → le_val (le_bytes n x) = x.
Proof. intros. rewrite le_val_bytes. apply Z.mod_small. done. Qed.

Lemma le64_roundtrip x : is_u64 x → le_val (le64 x) = x.
Proof. unfold is_u64, u64_max. intros. apply le_roundtrip. simpl. lia. Qed.

Lemma le32_roundtrip x : is_u32 x → le_val (le32 x) = x.
Proof. unfold is_u32, u32_max. intros. apply le_roundtrip. simpl. lia. Qed.

Lemma le64_inj x y : is_u64 x → is_u64 y → le64 x = le64 y → x = y.
Proof. intros Hx Hy H. rewrite <- (le64_roundtrip x), <- (le64_roundtrip y), H; done. Qed.

Lemma le32_inj x y : is_u32 x → is_u32 y → le32 x = le32 y → x = y.
Proof. intros Hx Hy H. rewrite <- (le32_roundtrip x), <- (le32_roundtrip y), H; done. Qed.

Lemma app_inj_length {A} (a1 a2 b1 b2 : list A) :
  length a1 = length b1 → a1 ++ a2 = b1 ++ b2 → a1 = b1 ∧ a2 = b2.
Proof. intros Hl H. by apply app_inj_1 in H. Qed.

(** Split a fixed-width prefix off both sides of an equation of byte strings. *)
Ltac split_prefix H :=
  let H1 := fresh "Hpre" in
  apply app_inj_length in H as [H1 H];
  [| rewrite ?length_le_bytes; done ].

Create HintDb bytes.
Create Rewrite HintDb bytes.
#[export] Hint Rewrite length_le_bytes length_be_bytes : bytes.
#[export] Hint Resolve byte_val_range le_val_range : bytes.

(** ** Decimal numbers: [to_string] of the integer types *)

Definition is_digit (b : byte) : bool := (48 <=? byte_val b) && (byte_val b <=? 57).
Definition digit_val (b : byte) : Z := byte_val b - 48.

Fixpoint dec_rev (fuel : nat) (z : Z) : bytes :=
  match fuel with
  | O => []
  | S fuel => byte_of (48 + z mod 10) :: (if z <? 10 then [] else dec_rev fuel (z / 10))
  end.

(** [u64::to_string]; [2 ^ fuel] exceeds [z], so the fuel never runs out. *)
Definition dec_nat (z : Z) : bytes := rev (dec_rev (S (Z.to_nat (Z.log2 z))) z).
(** [i64::to_string]. *)
Definition dec (z : Z) : bytes := if z <? 0 then bstr "-" ++ dec_nat (- z) else dec_nat z.
(** The number a digit string spells, most significant digit first. *)
Definition dec_val (bs : bytes) : Z := foldl (λ acc b, acc * 10 + digit_val b) 0 bs.

Example dec_0 : dec 0 = bstr "0". Proof. reflexivity. Qed.
Example dec_neg : dec (-1050) = bstr "-1050". Proof. reflexivity. Qed.

Lemma byte_of_digit z : is_digit (byte_of (48 + z mod 10)) = true ∧
  digit_val (byte_of (48 + z mod 10)) = z mod 10.
Proof.
  pose proof (Z.mod_pos_bound z 10 ltac:(lia)). unfold is_digit, digit_val.
  rewrite byte_val_of, Z.mod_small by lia. lia.
Qed.

Lemma dec_val_snoc l b : dec_val (l ++ [b]) = dec_val l * 10 + digit_val b.
Proof. unfold dec_val. by rewrite foldl_app. Qed.

Lemma dec_rev_spec fuel z : 0 <= z < 2 ^ Z.of_nat fuel →
  Forall (λ b, is_digit b = true) (dec_rev fuel z) ∧ dec_val (rev (dec_rev fuel z)) = z ∧
  (0 < z → ∃ l b, rev (dec_rev fuel z) = b :: l ∧ digit_val b ≠ 0).
Proof.
  revert z; induction fuel as [|fuel IH]; intros z Hz.
  { assert (z = 0) as -> by (simpl in Hz; lia). split_and!; [constructor|done|lia]. }
  rewrite Nat2Z.inj_succ, Z.pow_succ_r in Hz by lia.
  destruct (byte_of_digit z) as [Hd Hv]. pose proof (Z.div_mod z 10 ltac:(lia)) as Hdm.
  pose proof (Z.mod_pos_bound z 10 ltac:(lia)). cbn [dec_rev]. destruct (z <? 10) eqn:E.
  - split_and!; [by repeat constructor| |].
    + unfold dec_val. simpl. rewrite Hv, Z.mod_small; lia.
    + intros Hp. exists [], (byte_of (48 + z mod 10)). split; [done|].
      rewrite Hv, Z.mod_small; lia.
  - destruct (IH (z / 10)) as (IH1 & IH2 & IH3).
    { split; [apply Z.div_pos; lia|]. apply Z.div_lt_upper_bound; lia. }
    cbn [rev]. split_and!; [by constructor| |].
    + rewrite dec_val_snoc, IH2, Hv. lia.
    + intros _. destruct IH3 as (l & b & -> & Hb); [apply Z.div_str_pos; lia|].
      exists (l ++ [byte_of (48 + z mod 10)]), b. done.
Qed.

Lemma dec_fuel z : 0 <= z → 0 <= z < 2 ^ Z.of_nat (S (Z.to_nat (Z.log2 z))).
Proof.
  intros Hz. split; [done|]. rewrite Nat2Z.inj_succ, Z2Nat.id by apply Z.log2_nonneg.
  destruct (decide (z = 0)) as [->|]; [by vm_compute|]. apply Z.log2_spec. lia.
Qed.

Lemma dec_nat_digits z : 0 <= z → Forall (λ b, is_digit b = true) (dec_nat z).
Proof. intros Hz. apply Forall_rev, (dec_rev_spec _ _ (dec_fuel z Hz)). Qed.

Lemma dec_nat_val z : 0 <= z → dec_val (dec_nat z) = z.
Proof. intros Hz. apply (dec_rev_spec _ _ (dec_fuel z Hz)). Qed.

Lemma dec_nat_cons z : 0 <= z → ∃ b l, dec_nat z = b :: l ∧ is_digit b = true.
Proof.
  intros Hz. pose proof (dec_nat_digits z Hz) as Hd. destruct (dec_nat z) as [|b l] eqn:E.
  - assert (length (dec_nat z) = O) as Hl by (by rewrite E).
    unfold dec_nat in Hl. rewrite length_rev in Hl. simpl in Hl. done.
  - exists b, l. split; [done|]. by apply Forall_cons in Hd as [? _].
Qed.

(** No leading zero except for zero itself. *)
Lemma dec_nat_head z b l : 0 < z → dec_nat z = b :: l → digit_val b ≠ 0.
Proof.
  intros Hz Heq. destruct (dec_rev_spec _ _ (dec_fuel z ltac:(lia))) as (_ & _ & H3).
  destruct (H3 Hz) as (l' & b' & Hr & Hb). unfold dec_nat in Heq. congruence.
Qed.

(** A maximal run of digits is determined by the string it starts. *)
Definition no_digit (r : bytes) : Prop := match r with b :: _ => is_digit b = false | [] => True end.

Lemma digits_split l1 l2 r1 r2 :
  Forall (λ b, is_digit b = true) l1 → Forall (λ b, is_digit b = true) l2 →
  no_digit r1 → no_digit r2 → l1 ++ r1 = l2 ++ r2 → l1 = l2 ∧ r1 = r2.
Proof.
  intros H1. revert l2. induction H1 as [|b l1 Hb H1 IH]; intros l2 H2 N1 N2 Heq.
  - destruct H2 as [|c l2 Hc]; [done|]. simpl in Heq. subst r1. simpl in N1. congruence.
  - destruct H2 as [|c l2 Hc H2]; simpl in Heq.
    + subst r2. simpl in N2. congruence.
    + injection Heq as -> Heq. by destruct (IH _ H2 N1 N2 Heq) as [-> ->].
Qed.

Lemma dec_nat_inj x y r1 r2 : 0 <= x → 0 <= y → no_digit r1 → no_digit r2 →
  dec_nat x ++ r1 = dec_nat y ++ r2 → x = y ∧ r1 = r2.
Proof.
  intros Hx Hy N1 N2 Heq.
  apply digits_split in Heq as [Heq ->]; auto using dec_nat_digits.
  split; [|done]. by rewrite <- (dec_nat_val x), <- (dec_nat_val y), Heq.
Qed.

Lemma dec_inj x y r1 r2 : no_digit r1 → no_digit r2 →
  dec x ++ r1 = dec y ++ r2 → x = y ∧ r1 = r2.
Proof.
  intros N1 N2. unfold dec.
  assert (∀ z b l, 0 <= z → dec_nat z = b :: l → b ≠ x2d) as Hm.
  { intros z b l Hz Hb ->. destruct (dec_nat_cons z Hz) as (b' & l' & Hb' & Hd).
    rewrite Hb in Hb'. injection Hb' as <- _. done. }
  destruct (Z.ltb_spec x 0), (Z.ltb_spec y 0); intros Heq.
  - injection Heq as Heq. apply dec_nat_inj in Heq as [? ->]; auto; [split; [lia|done]|lia|lia].
  - destruct (dec_nat_cons y) as (b & l & Hb & _); [lia|]. rewrite Hb in Heq.
    injection Heq as <- _. by destruct (Hm y _ _ ltac:(lia) Hb).
  - destruct (dec_nat_cons x) as (b & l & Hb & _); [lia|]. rewrite Hb in Heq.
    injection Heq as -> _. by destruct (Hm x _ _ ltac:(lia) Hb).
  - apply dec_nat_inj in Heq as [? ->]; auto; lia.
Qed.

Lemma dec_head z : ∃ b l, dec z = b :: l ∧ (is_digit b = true ∨ b = x2d).
Proof.
  unfold dec. destruct (Z.ltb_spec z 0).
  - eexists x2d, _. split; [reflexivity|auto].
  - destruct (dec_nat_cons z) as (b & l & -> & ?); [lia|]. eauto.
Qed.

(** ** [Result] and panicking slices *)

Inductive result (E A : Type) :=
  | Ok (a : A)
  | Err (e : E).
Arguments Ok {E A} a.
Arguments Err {E A} e.

#[global] Instance result_ret {E} : MRet (result E) := λ A a, Ok a.
#[global] Instance result_bind {E} : MBind (result E) := λ A B f r,
  match r with Ok a => f a | Err e => Err e end.
#[global] Instance result_fmap {E} : FMap (result E) := λ A B f r,
  match r with Ok a => Ok (f a) | Err e => Err e end.

(** [Option::ok_or]. *)
Definition ok_or {E A} (o : option A) (e : E) : result E A :=
  match o with Some a => Ok a | None => Err e end.
Definition map_err {E F A} (f : E → F) (r : result E A) : result F A :=
  match r with Ok a => Ok a | Err e => Err (f e) end.
Definition is_ok {E A} (r : result E A) : bool := match r with Ok _ => true | Err _ => false end.
(** [Result::ok]. *)
Definition ok {E A} (r : result E A) : option A := match r with Ok a => Some a | Err _ => None end.

Definition blen {A} (l : list A) : Z := Z.of_nat (length l).

Lemma blen_app {A} (x y : list A) : blen (x ++ y) = blen x + blen y.
Proof. unfold blen. rewrite length_app. lia. Qed.

Lemma blen_cons {A} (x : A) l : blen (x :: l) = 1 + blen l.
Proof. unfold blen. simpl. lia. Qed.

Lemma blen_nonneg {A} (l : list A) : 0 <= blen l.
Proof. unfold blen. lia. Qed.

Lemma blen_le_bytes n x : blen (le_bytes n x) = Z.of_nat n.
Proof. unfold blen. by rewrite length_le_bytes. Qed.

(** [&bs[lo..hi]]; [None] is the panic of an out-of-range slice. *)
Definition slice {A} (l : list A) (lo hi : Z) : option (list A) :=
  if (0 <=? lo) && (lo <=? hi) && (hi <=? blen l)
  then Some (firstn (Z.to_nat (hi - lo)) (skipn (Z.to_nat lo) l)) else None.
(** [bs[i]] and [bs.get(i)]. *)
Definition index {A} (l : list A) (i : Z) : option A :=
  if i <? 0 then None else nth_error l (Z.to_nat i).

Lemma nth_error_lookup {A} (l : list A) i : nth_error l i = l !! i.
Proof. revert i; induction l; intros [|i]; cbn; auto. Qed.

Lemma index_lookup {A} (l : list A) i : 0 <= i → index l i = l !! Z.to_nat i.
Proof. intros Hi. unfold index. rewrite (proj2 (Z.ltb_ge _ _)) by done. apply nth_error_lookup. Qed.

Lemma index_Some {A} (l : list A) i x : index l i = Some x → 0 <= i ∧ l !! Z.to_nat i = Some x.
Proof. unfold index. destruct (Z.ltb_spec i 0); [done|]. by rewrite nth_error_lookup. Qed.

Lemma slice_app {A} (a b c : list A) lo hi :
  lo = blen a → hi = blen a + blen b → slice (a ++ b ++ c) lo hi = Some b.
Proof.
  intros -> ->. unfold slice, blen. rewrite !length_app.
  rewrite !(proj2 (Z.leb_le _ _)) by lia. cbn [andb]. f_equal.
  rewrite Nat2Z.id, drop_app_length. apply take_app_length'. lia.
Qed.

Lemma slice_app0 {A} (b c : list A) hi : hi = blen b → slice (b ++ c) 0 hi = Some b.
Proof. intros ->. by apply (slice_app [] b c). Qed.

Lemma blen_slice {A} (l x : list A) lo hi : slice l lo hi = Some x → blen x = hi - lo.
Proof.
  unfold slice. destruct (Z.leb_spec 0 lo), (Z.leb_spec lo hi), (Z.leb_spec hi (blen l)); try done.
  intros [= <-]. unfold blen in *. rewrite length_take, length_drop. lia.
Qed.

Lemma index_app {A} (a : list A) x c i : i = blen a → index (a ++ x :: c) i = Some x.
Proof.
  intros ->. unfold index, blen. destruct (Z.ltb_spec (Z.of_nat (length a)) 0); [lia|].
  rewrite Nat2Z.id, nth_error_app2, Nat.sub_diag; [done|lia].
Qed.

(** [u8 ^ u8] stays a byte. *)
Lemma lxor_byte a b : 0 <= a < 256 → 0 <= b < 256 → 0 <= Z.lxor a b < 256.
Proof.
  intros Ha Hb. split; [apply Z.lxor_nonneg; lia|]. change 256 with (2 ^ 8).
  destruct (Z.eq_dec (Z.lxor a b) 0) as [->|Hne]; [done|].
  apply Z.log2_lt_pow2; [assert (0 <= Z.lxor a b) by (apply Z.lxor_nonneg; lia); lia|].
  pose proof (Z.log2_lxor a b ltac:(lia) ltac:(lia)).
  assert (∀ x, 0 <= x < 256 → Z.log2 x < 8) as Hlog.
  { intros x Hx. destruct (Z.eq_dec x 0) as [->|]; [done|]. apply Z.log2_lt_pow2; [lia|]. change (2 ^ 8) with 256. lia. }
  pose proof (Hlog a Ha). pose proof (Hlog b Hb). lia.
Qed.
