(* ===== verification/Ordered.v ===== *)
(** * Ordered types, stable sorting and [BTreeMap]

    The parts of Rust's [std] the modelled code leans on for determinism:
    the [Ord] trait, [sort]/[sort_by] (stable), [dedup], and [BTreeMap] and
    [BTreeSet] as key-sorted association lists. *)
From S2P Require Import Prelude.
From Stdlib Require Import ZArith Lia.
From stdpp Require Import base list sorting.

#[local] Obligation Tactic := idtac.

(** ** The [Ord] trait *)

Class Ord (A : Type) := {
  cmp : A → A → comparison;
  cmp_eq_iff : ∀ a b, cmp a b = Eq ↔ a = b;
  cmp_opp : ∀ a b, cmp b a = CompOpp (cmp a b);
  cmp_lt_trans : ∀ a b c, cmp a b = Lt → cmp b c = Lt → cmp a c = Lt
}.

Definition olt `{Ord A} (a b : A) : Prop := cmp a b = Lt.
Definition ole `{Ord A} (a b : A) : Prop := cmp a b ≠ Gt.
Definition oltb `{Ord A} (a b : A) : bool :=
  match cmp a b with Lt => true | _ => false end.
Definition oleb `{Ord A} (a b : A) : bool :=
  match cmp a b with Gt => false | _ => true end.
(** [Ordering::then]. *)
Definition then_ (c d : comparison) : comparison :=
  match c with Eq => d | _ => c end.

Section ord_facts.
Context `{Ord A}.
Implicit Types a b c : A.

Lemma cmp_refl a : cmp a a = Eq.
Proof. by apply cmp_eq_iff. Qed.

Lemma cmp_gt_lt a b : cmp a b = Gt ↔ cmp b a = Lt.
Proof. rewrite (cmp_opp a b). by destruct (cmp a b). Qed.

#[global] Instance olt_dec : RelDecision olt.
Proof. intros a b. unfold olt. destruct (cmp a b); [right|left|right]; congruence. Defined.

#[global] Instance ole_dec : RelDecision ole.
Proof. intros a b. unfold ole. destruct (cmp a b); [left|left|right]; congruence. Defined.

Lemma olt_irrefl a : ¬ olt a a.
Proof. unfold olt. by rewrite cmp_refl. Qed.

#[global] Instance olt_trans : Transitive olt.
Proof. intros a b c. apply cmp_lt_trans. Qed.

Lemma ole_spec a b : ole a b ↔ olt a b ∨ a = b.
Proof.
  unfold ole, olt. rewrite <- cmp_eq_iff. destruct (cmp a b); intuition congruence.
Qed.

Lemma olt_ole a b : olt a b → ole a b.
Proof. rewrite ole_spec. auto. Qed.

Lemma ole_refl a : ole a a.
Proof. rewrite ole_spec. auto. Qed.

#[global] Instance ole_trans : Transitive ole.
Proof.
  intros a b c. rewrite !ole_spec. intros [|<-] [|<-]; auto.
  left. by transitivity b.
Qed.

Lemma ole_total a b : ole a b ∨ ole b a.
Proof. unfold ole. rewrite (cmp_opp a b). destruct (cmp a b); simpl; intuition congruence. Qed.

Lemma ole_antisym a b : ole a b → ole b a → a = b.
Proof.
  rewrite !ole_spec. intros [h|] [h'|]; auto.
  exfalso. apply (olt_irrefl a). by transitivity b.
Qed.

Lemma olt_not_ole a b : olt a b ↔ ¬ ole b a.
Proof.
  unfold olt, ole. rewrite (cmp_opp a b). destruct (cmp a b); simpl; intuition congruence.
Qed.

Lemma olt_ole_trans a b c : olt a b → ole b c → olt a c.
Proof. rewrite ole_spec. intros h [h'|<-]; auto. by transitivity b. Qed.

Lemma oltb_spec a b : oltb a b = true ↔ olt a b.
Proof. unfold oltb, olt. destruct (cmp a b); intuition congruence. Qed.

Lemma oleb_spec a b : oleb a b = true ↔ ole a b.
Proof. unfold oleb, ole. destruct (cmp a b); intuition congruence. Qed.

#[global] Instance ord_eq_dec : EqDecision A | 100.
Proof.
  intros a b. destruct (cmp a b) eqn:E.
  - left. by apply cmp_eq_iff.
  - right. intros ->. by rewrite cmp_refl in E.
  - right. intros ->. by rewrite cmp_refl in E.
Defined.
End ord_facts.

#[export] Hint Resolve ole_refl olt_ole : core.

#[global] Program Instance Z_ord : Ord Z := { cmp := Z.compare }.
Next Obligation. apply Z.compare_eq_iff. Qed.
Next Obligation. intros. apply Z.compare_antisym. Qed.
Next Obligation. intros a b c. rewrite !Z.compare_lt_iff. lia. Qed.

#[global] Program Instance byte_ord : Ord byte := { cmp a b := cmp (byte_val a) (byte_val b) }.
Next Obligation.
  intros a b. rewrite cmp_eq_iff. split; [apply byte_val_inj|by intros ->].
Qed.
Next Obligation. intros. apply cmp_opp. Qed.
Next Obligation. intros a b c. apply cmp_lt_trans. Qed.

Definition bool_cmp (a b : bool) : comparison :=
  match a, b with
  | false, true => Lt | true, false => Gt | _, _ => Eq
  end.

#[global] Program Instance bool_ord : Ord bool := { cmp := bool_cmp }.
Next Obligation. by intros [] []; simpl; split. Qed.
Next Obligation. by intros [] []. Qed.
Next Obligation. by intros [] [] []. Qed.

Section list_ord.
Context `{Ord A}.

Fixpoint list_cmp (l k : list A) : comparison :=
  match l, k with
  | [], [] => Eq
  | [], _ :: _ => Lt
  | _ :: _, [] => Gt
  | a :: l, b :: k => then_ (cmp a b) (list_cmp l k)
  end.

#[global] Program Instance list_ord : Ord (list A) := { cmp := list_cmp }.
Next Obligation.
  induction a as [|x l IH]; intros [|y k]; simpl; try (split; congruence).
  destruct (cmp x y) eqn:E; simpl.
  - apply cmp_eq_iff in E as ->. rewrite IH. split; congruence.
  - split; [done|]. intros [= -> _]. by rewrite cmp_refl in E.
  - split; [done|]. intros [= -> _]. by rewrite cmp_refl in E.
Qed.
Next Obligation.
  induction a as [|x l IH]; intros [|y k]; simpl; auto.
  rewrite (cmp_opp x y). destruct (cmp x y); simpl; auto.
Qed.
Next Obligation.
  induction a as [|x l IH]; intros [|y k] [|z m]; simpl; try congruence.
  destruct (cmp x y) eqn:E1; simpl; try congruence.
  - apply cmp_eq_iff in E1 as ->. destruct (cmp y z); simpl; try congruence. apply IH.
  - destruct (cmp y z) eqn:E2; simpl; try congruence.
    + apply cmp_eq_iff in E2 as ->. by rewrite E1.
    + by rewrite (cmp_lt_trans _ _ _ E1 E2).
Qed.
End list_ord.

Section pair_ord.
Context `{Ord A, Ord B}.

#[global] Program Instance pair_ord : Ord (A * B) := {
  cmp p q := then_ (cmp p.1 q.1) (cmp p.2 q.2)
}.
Next Obligation.
  intros [a b] [c d]. simpl. destruct (cmp a c) eqn:E; simpl.
  - apply cmp_eq_iff in E as ->. rewrite cmp_eq_iff. split; congruence.
  - split; [done|]. intros [= -> _]. by rewrite cmp_refl in E.
  - split; [done|]. intros [= -> _]. by rewrite cmp_refl in E.
Qed.
Next Obligation.
  intros [a b] [c d]. simpl. rewrite (cmp_opp a c), (cmp_opp b d).
  by destruct (cmp a c), (cmp b d).
Qed.
Next Obligation.
  intros [a b] [c d] [e f]. simpl.
  destruct (cmp a c) eqn:E1; simpl; try congruence.
  - apply cmp_eq_iff in E1 as ->. destruct (cmp c e); simpl; try congruence.
    apply cmp_lt_trans.
  - destruct (cmp c e) eqn:E2; simpl; try congruence.
    + apply cmp_eq_iff in E2 as ->. by rewrite E1.
    + by rewrite (cmp_lt_trans _ _ _ E1 E2).
Qed.
End pair_ord.

Section option_ord.
Context `{Ord A}.

Definition option_cmp (a b : option A) : comparison :=
  match a, b with
  | None, None => Eq | None, Some _ => Lt | Some _, None => Gt
  | Some x, Some y => cmp x y
  end.

#[global] Program Instance option_ord : Ord (option A) := { cmp := option_cmp }.
Next Obligation.
  intros [x|] [y|]; simpl; try (split; congruence). rewrite cmp_eq_iff. split; congruence.
Qed.
Next Obligation. intros [x|] [y|]; auto. apply cmp_opp. Qed.
Next Obligation. intros [x|] [y|] [z|]; simpl; try congruence. apply cmp_lt_trans. Qed.
End option_ord.

(** ** Stable sorting: [sort_by], [sort], [dedup], [min_by_key]

    [slice::sort_by] is specified as a stable sort; its result is therefore
    unique and is computed here by insertion, which keeps an element before
    every later element it is not greater than. *)

Section sort.
Context {A : Type} (c : A → A → comparison).

Fixpoint sort_insert (x : A) (l : list A) : list A :=
  match l with
  | [] => [x]
  | y :: l' => match c x y with Gt => y :: sort_insert x l' | _ => x :: l end
  end.

Definition sort_by (l : list A) : list A := foldr sort_insert [] l.

Lemma sort_insert_perm x l : sort_insert x l ≡ₚ x :: l.
Proof.
  induction l as [|y l IH]; simpl; auto. destruct (c x y); auto.
  rewrite IH. apply Permutation_swap.
Qed.

Lemma sort_by_perm l : sort_by l ≡ₚ l.
Proof. induction l as [|x l IH]; simpl; auto. by rewrite sort_insert_perm, IH. Qed.

Lemma elem_of_sort_by x l : x ∈ sort_by l ↔ x ∈ l.
Proof. by rewrite sort_by_perm. Qed.

Lemma length_sort_by l : length (sort_by l) = length l.
Proof. by rewrite sort_by_perm. Qed.

(** A total preorder makes the result sorted. *)
Definition cle (x y : A) : Prop := c x y ≠ Gt.
Context (Hanti : ∀ x y, c y x = CompOpp (c x y)).
Context (Htrans : ∀ x y z, cle x y → cle y z → cle x z).

Lemma cle_refl x : cle x x.
Proof using Hanti. unfold cle. pose proof (Hanti x x). by destruct (c x x). Qed.

Lemma cle_head x y l : Forall (cle x) l → y ∈ x :: l → cle x y.
Proof using Hanti.
  intros Hall [->|Hy]%elem_of_cons; [apply cle_refl|].
  rewrite Forall_forall in Hall. auto.
Qed.

Lemma sort_insert_sorted x l : StronglySorted cle l → StronglySorted cle (sort_insert x l).
Proof using Hanti Htrans.
  induction 1 as [|y l Hs IH Hall]; simpl; [repeat constructor|].
  destruct (c x y) eqn:E.
  - constructor; [by constructor|]. constructor; [unfold cle; by rewrite E|].
    eapply Forall_impl; [exact Hall|]. intros z. apply Htrans. unfold cle; by rewrite E.
  - constructor; [by constructor|]. constructor; [unfold cle; by rewrite E|].
    eapply Forall_impl; [exact Hall|]. intros z. apply Htrans. unfold cle; by rewrite E.
  - constructor; auto. rewrite sort_insert_perm. constructor; auto.
    unfold cle. by rewrite Hanti, E.
Qed.

Lemma sort_by_sorted l : StronglySorted cle (sort_by l).
Proof using Hanti Htrans. induction l; simpl; [constructor|by apply sort_insert_sorted]. Qed.

Lemma sort_insert_head x l : Forall (cle x) l → sort_insert x l = x :: l.
Proof.
  destruct l as [|y l]; simpl; auto. intros [Hx _]%Forall_cons.
  unfold cle in Hx. by destruct (c x y).
Qed.

Lemma sort_by_id l : StronglySorted cle l → sort_by l = l.
Proof. induction 1; simpl; auto. rewrite IHStronglySorted. by apply sort_insert_head. Qed.

(** Antisymmetry makes the result independent of the input's order. *)
Lemma sort_by_perm_eq l k :
  (∀ x y, x ∈ l → y ∈ l → c x y = Eq → x = y) →
  l ≡ₚ k → sort_by l = sort_by k.
Proof using Hanti Htrans.
  intros Heq Hp.
  assert (sort_by l ≡ₚ sort_by k) as Hpp by (rewrite !sort_by_perm; done).
  assert (∀ x y, x ∈ sort_by l → y ∈ sort_by l → c x y = Eq → x = y) as Heq'.
  { intros x y Hx Hy. rewrite elem_of_sort_by in Hx, Hy. by apply Heq. }
  pose proof (sort_by_sorted l) as S1. pose proof (sort_by_sorted k) as S2.
  revert Hpp Heq' S1 S2. clear Hp Heq.
  generalize (sort_by l), (sort_by k). clear l k.
  induction l as [|x l IH]; intros k Hp Heq Hl Hk.
  { by apply Permutation_nil_l in Hp as ->. }
  destruct k as [|y k]; [by apply Permutation_nil_r in Hp|].
  inversion Hl as [|? ? Hl' Hxl]; inversion Hk as [|? ? Hk' Hyk]; subst.
  assert (x = y) as ->.
  { assert (y ∈ x :: l) as Hy by (rewrite Hp; left).
    assert (x ∈ y :: k) as Hx by (rewrite <- Hp; left).
    apply Heq; [left|done|].
    pose proof (cle_head _ _ _ Hxl Hy). pose proof (cle_head _ _ _ Hyk Hx) as Q.
    unfold cle in *. rewrite (Hanti x y) in Q. by destruct (c x y). }
  apply Permutation_cons_inv in Hp. f_equal. apply IH; auto.
  - intros u v Hu Hv. apply Heq; by right.
Qed.
End sort.

(** [Vec::dedup]: drop consecutive repeats. *)
Fixpoint dedup `{EqDecision A} (l : list A) : list A :=
  match l with
  | [] => []
  | x :: l' => match l' with
               | [] => [x]
               | y :: _ => if decide (x = y) then dedup l' else x :: dedup l'
               end
  end.

(** [Iterator::min_by] keeps the first minimum, [max_by] the last maximum. *)
Fixpoint min_by {A} (c : A → A → comparison) (l : list A) : option A :=
  match l with
  | [] => None
  | x :: l => match min_by c l with
              | None => Some x
              | Some m => Some (match c m x with Lt => m | _ => x end)
              end
  end.

Fixpoint max_by {A} (c : A → A → comparison) (l : list A) : option A :=
  match l with
  | [] => None
  | x :: l => match max_by c l with
              | None => Some x
              | Some m => Some (match c x m with Gt => x | _ => m end)
              end
  end.

Lemma length_dedup `{EqDecision A} (l : list A) : (length (dedup l) <= length l)%nat.
Proof.
  induction l as [|x l IH]; [done|]. destruct l as [|y l]; [done|].
  change (dedup (x :: y :: l)) with (if decide (x = y) then dedup (y :: l) else x :: dedup (y :: l)).
  case_decide; cbn [length] in *; lia.
Qed.

Lemma elem_of_dedup `{EqDecision A} (x : A) l : x ∈ dedup l ↔ x ∈ l.
Proof.
  induction l as [|a l IH]; [done|]. simpl. destruct l as [|b l]; [done|].
  case_decide as Hd.
  - subst. rewrite IH, !elem_of_cons. tauto.
  - rewrite !elem_of_cons, IH, elem_of_cons. done.
Qed.

Lemma min_by_elem {A} c (l : list A) m : min_by c l = Some m → m ∈ l.
Proof.
  revert m; induction l as [|x l IH]; intros m; simpl; [done|].
  destruct (min_by c l) as [m'|]; intros [= <-]; [|left].
  destruct (c m' x); [left|right; auto|left].
Qed.

Lemma max_by_elem {A} c (l : list A) m : max_by c l = Some m → m ∈ l.
Proof.
  revert m; induction l as [|x l IH]; intros m; simpl; [done|].
  destruct (max_by c l) as [m'|]; intros [= <-]; [|left].
  destruct (c x m'); [right; auto|right; auto|left].
Qed.

Lemma min_by_None {A} c (l : list A) : min_by c l = None ↔ l = [].
Proof. destruct l; simpl; [done|]. by destruct (min_by c l). Qed.

Lemma max_by_None {A} c (l : list A) : max_by c l = None ↔ l = [].
Proof. destruct l; simpl; [done|]. by destruct (max_by c l). Qed.

Section extremes.
Context {A : Type} (c : A → A → comparison).
Context (Hanti : ∀ x y, c y x = CompOpp (c x y)).
Context (Htrans : ∀ x y z, cle c x y → cle c y z → cle c x z).

Lemma min_by_le l m x : min_by c l = Some m → x ∈ l → cle c m x.
Proof using Hanti Htrans.
  revert m; induction l as [|a l IH]; intros m Hm Hx; [by apply elem_of_nil in Hx|].
  simpl in Hm. destruct (min_by c l) as [m'|] eqn:E; injection Hm as <-.
  - apply elem_of_cons in Hx as [->|Hx].
    + unfold cle. destruct (c m' a) eqn:Q; [|by rewrite Q|]; apply cle_refl, Hanti.
    + specialize (IH _ eq_refl Hx). destruct (c m' a) eqn:Q; auto;
        (eapply Htrans; [|exact IH]); unfold cle; by rewrite Hanti, Q.
  - apply min_by_None in E as ->. apply list_elem_of_singleton in Hx as ->.
    by apply cle_refl.
Qed.

Lemma max_by_ge l m x : max_by c l = Some m → x ∈ l → cle c x m.
Proof using Hanti Htrans.
  revert m; induction l as [|a l IH]; intros m Hm Hx; [by apply elem_of_nil in Hx|].
  simpl in Hm. destruct (max_by c l) as [m'|] eqn:E; injection Hm as <-.
  - apply elem_of_cons in Hx as [->|Hx].
    + unfold cle. destruct (c a m') eqn:Q; [by rewrite Q|by rewrite Q|]. apply cle_refl, Hanti.
    + specialize (IH _ eq_refl Hx). destruct (c a m') eqn:Q; auto.
      eapply Htrans; [exact IH|]. unfold cle. by rewrite Hanti, Q.
  - apply max_by_None in E as ->. apply list_elem_of_singleton in Hx as ->.
    by apply cle_refl.
Qed.
End extremes.

(** ** [sort] on an [Ord] type *)

Definition sort `{Ord A} (l : list A) : list A := sort_by cmp l.

Section sort_ord.
Context `{Ord A}.
Implicit Types l k : list A.

Lemma sort_perm l : sort l ≡ₚ l.
Proof. apply sort_by_perm. Qed.

Lemma sort_sorted l : StronglySorted ole (sort l).
Proof. apply sort_by_sorted; [apply cmp_opp|apply ole_trans]. Qed.

Lemma sort_perm_eq l k : l ≡ₚ k → sort l = sort k.
Proof.
  apply sort_by_perm_eq; [apply cmp_opp|apply ole_trans|].
  intros x y _ _. apply cmp_eq_iff.
Qed.

Lemma dedup_sorted {E : EqDecision A} l : StronglySorted ole l → StronglySorted olt (@dedup A E l).
Proof.
  induction 1 as [|x l Hs IH Hall]; [constructor|]. simpl.
  destruct l as [|y l]; [repeat constructor|]. case_decide as Hd; [done|].
  constructor; [done|]. apply Forall_forall. intros z Hz.
  apply (proj1 (elem_of_dedup _ _)) in Hz.
  apply Forall_cons in Hall as [Hxy _]. inversion Hs as [|? ? _ Hy]; subst.
  apply elem_of_cons in Hz as [->|Hz].
  - apply ole_spec in Hxy as [|]; done.
  - rewrite Forall_forall in Hy. apply ole_spec in Hxy as [|]; [|done].
    eapply olt_ole_trans; [done|]. by apply Hy.
Qed.

Lemma olt_sorted_ext l k :
  StronglySorted olt l → StronglySorted olt k → (∀ x, x ∈ l ↔ x ∈ k) → l = k.
Proof.
  intros Hl. revert k. induction Hl as [|x l Hl IH Hx]; intros k Hk Heq.
  { destruct k as [|y k]; [done|]. exfalso. apply (not_elem_of_nil y), Heq. left. }
  destruct Hk as [|y k Hk Hy].
  { exfalso. apply (not_elem_of_nil x), Heq. left. }
  rewrite Forall_forall in Hx, Hy.
  assert (x = y) as ->.
  { pose proof (proj1 (Heq x) ltac:(left)) as [->|Hin]%elem_of_cons; [done|].
    pose proof (proj2 (Heq y) ltac:(left)) as [->|Hin']%elem_of_cons; [done|].
    exfalso. apply (olt_irrefl x). transitivity y; auto. }
  f_equal. apply IH; [done|]. intros z. specialize (Heq z).
  rewrite !elem_of_cons in Heq. split; intros Hz.
  - destruct (proj1 Heq (or_intror Hz)) as [->|]; [|done].
    exfalso. by apply (olt_irrefl y), Hx.
  - destruct (proj2 Heq (or_intror Hz)) as [->|]; [|done].
    exfalso. by apply (olt_irrefl y), Hy.
Qed.

(** [sort] then [dedup] depends only on the set of elements. *)
Lemma sort_dedup_ext {E : EqDecision A} l k :
  (∀ x, x ∈ l ↔ x ∈ k) → @dedup A E (sort l) = @dedup A E (sort k).
Proof.
  intros Heq. apply olt_sorted_ext; try apply dedup_sorted, sort_sorted.
  intros x. by rewrite !elem_of_dedup, !sort_perm.
Qed.
End sort_ord.

(** ** [BTreeMap]: key-sorted association lists *)

Abbreviation btree K V := (list (K * V)).

Section btree.
Context {K : Type} `{OK : Ord K} {V : Type}.
Implicit Types (m : btree K V) (k : K) (v : V).

Fixpoint bt_get m k : option V :=
  match m with
  | [] => None
  | (k', v) :: m => match cmp k k' with
                    | Lt => None | Eq => Some v | Gt => bt_get m k end
  end.

Fixpoint bt_insert k v m : btree K V :=
  match m with
  | [] => [(k, v)]
  | (k', v') :: m' => match cmp k k' with
                      | Lt => (k, v) :: m
                      | Eq => (k, v) :: m'
                      | Gt => (k', v') :: bt_insert k v m' end
  end.

Fixpoint bt_remove k m : btree K V :=
  match m with
  | [] => []
  | (k', v') :: m' => match cmp k k' with
                      | Lt => m
                      | Eq => m'
                      | Gt => (k', v') :: bt_remove k m' end
  end.

Definition bt_contains m k : bool := bool_decide (is_Some (bt_get m k)).
(** [entry(k).or_insert(v)]: keep an existing value. *)
Definition bt_or_insert k v m : btree K V :=
  match bt_get m k with Some _ => m | None => bt_insert k v m end.
(** [entry(k).and_modify(f).or_insert(v)]. *)
Definition bt_upsert (f : V → V) k v m : btree K V :=
  match bt_get m k with Some w => bt_insert k (f w) m | None => bt_insert k v m end.
Definition bt_keys m : list K := m.*1.
Definition bt_values m : list V := m.*2.

Definition bt_wf m : Prop := StronglySorted olt (bt_keys m).

Lemma bt_wf_nil : bt_wf [].
Proof. constructor. Qed.

Lemma bt_wf_cons k v m : bt_wf ((k, v) :: m) ↔ Forall (λ p, olt k p.1) m ∧ bt_wf m.
Proof.
  unfold bt_wf, bt_keys. simpl. split.
  - intros Hs. inversion Hs as [|? ? Hm Hk]; subst. by rewrite Forall_fmap in Hk.
  - intros [Hk Hm]. constructor; [done|]. by rewrite Forall_fmap.
Qed.

Lemma bt_get_lt k m : Forall (λ p, olt k p.1) m → bt_get m k = None.
Proof. destruct 1 as [|[k' v'] m Hk]; simpl; [done|]. simpl in Hk. by rewrite Hk. Qed.

Lemma bt_get_elem m k v : bt_wf m → bt_get m k = Some v ↔ (k, v) ∈ m.
Proof.
  induction m as [|[k' v'] m IH]; intros Hwf; simpl.
  { split; [done|by intros ?%elem_of_nil]. }
  apply bt_wf_cons in Hwf as [Hk Hm]. rewrite elem_of_cons.
  destruct (cmp k k') eqn:E.
  - apply cmp_eq_iff in E as ->. split; [intros [= ->]; auto|].
    intros [[= ->]|Hin]; [done|]. rewrite Forall_forall in Hk.
    specialize (Hk _ Hin). by apply olt_irrefl in Hk.
  - split; [done|]. intros [[= -> ->]|Hin]; [by rewrite cmp_refl in E|].
    rewrite Forall_forall in Hk. specialize (Hk _ Hin). simpl in Hk.
    exfalso. apply (olt_irrefl k). by transitivity k'.
  - rewrite IH by done. split; [auto|]. intros [[= -> ->]|]; [by rewrite cmp_refl in E|done].
Qed.

Lemma bt_get_insert m k v k' :
  bt_get (bt_insert k v m) k' = if decide (k' = k) then Some v else bt_get m k'.
Proof.
  induction m as [|[k0 v0] m IH]; simpl.
  - case_decide as D; [subst; by rewrite cmp_refl|].
    destruct (cmp k' k) eqn:E; [by apply cmp_eq_iff in E|done|done].
  - destruct (cmp k k0) eqn:E; simpl.
    + apply cmp_eq_iff in E as ->. case_decide as D; [subst; by rewrite cmp_refl|].
      destruct (cmp k' k0) eqn:E'; [by apply cmp_eq_iff in E'|done|done].
    + case_decide as D; [subst; by rewrite cmp_refl|].
      destruct (cmp k' k) eqn:E'; [by apply cmp_eq_iff in E'| |done].
      by rewrite (cmp_lt_trans _ _ _ E' E).
    + rewrite IH. case_decide as D; [subst; by rewrite E|done].
Qed.

Lemma bt_insert_elem m k v p : p ∈ bt_insert k v m → p = (k, v) ∨ p ∈ m.
Proof.
  induction m as [|[k0 v0] m IH]; simpl.
  - intros ->%list_elem_of_singleton. auto.
  - destruct (cmp k k0); rewrite !elem_of_cons; naive_solver.
Qed.

Lemma bt_insert_wf m k v : bt_wf m → bt_wf (bt_insert k v m).
Proof.
  induction m as [|[k0 v0] m IH]; simpl; intros Hwf.
  - apply bt_wf_cons. split; [constructor|apply bt_wf_nil].
  - apply bt_wf_cons in Hwf as [Hk Hm]. destruct (cmp k k0) eqn:E; apply bt_wf_cons.
    + apply cmp_eq_iff in E as ->. done.
    + split; [|by apply bt_wf_cons]. constructor; [done|].
      eapply Forall_impl; [done|]. intros p Hp. simpl. by transitivity k0.
    + split; [|by apply IH]. apply Forall_forall. intros p [->|Hp]%bt_insert_elem.
      * by apply cmp_gt_lt.
      * rewrite Forall_forall in Hk. auto.
Qed.

Lemma bt_remove_elem m k p : p ∈ bt_remove k m → p ∈ m.
Proof.
  induction m as [|[k0 v0] m IH]; simpl; [done|].
  destruct (cmp k k0); rewrite ?elem_of_cons; naive_solver.
Qed.

Lemma bt_remove_wf m k : bt_wf m → bt_wf (bt_remove k m).
Proof.
  induction m as [|[k0 v0] m IH]; simpl; intros Hwf; [done|].
  pose proof Hwf as Hwf'. apply bt_wf_cons in Hwf as [Hk Hm].
  destruct (cmp k k0); [done|done|]. apply bt_wf_cons. split; [|by apply IH].
  apply Forall_forall. intros p Hp%bt_remove_elem. rewrite Forall_forall in Hk. auto.
Qed.

Lemma bt_get_remove m k k' : bt_wf m →
  bt_get (bt_remove k m) k' = if decide (k' = k) then None else bt_get m k'.
Proof.
  induction m as [|[k0 v0] m IH]; simpl; intros Hwf; [by case_decide|].
  apply bt_wf_cons in Hwf as [Hk Hm]. destruct (cmp k k0) eqn:E; simpl.
  - apply cmp_eq_iff in E as ->. case_decide as D; [subst; by apply bt_get_lt|].
    destruct (cmp k' k0) eqn:E'; [by apply cmp_eq_iff in E'| |done].
    apply bt_get_lt. eapply Forall_impl; [done|]. intros p Hp. simpl. by transitivity k0.
  - case_decide as D; [subst; by rewrite E|done].
  - rewrite IH by done. case_decide as D; [subst; by rewrite E|done].
Qed.

(** Two well-formed maps with the same lookups are the same tree. *)
Lemma bt_ext m1 m2 : bt_wf m1 → bt_wf m2 → (∀ k, bt_get m1 k = bt_get m2 k) → m1 = m2.
Proof.
  revert m2. induction m1 as [|[k v] m1 IH]; intros m2 H1 H2 Heq.
  - destruct m2 as [|[k v] m2]; [done|]. specialize (Heq k). simpl in Heq.
    by rewrite cmp_refl in Heq.
  - destruct m2 as [|[k2 v2] m2].
    { specialize (Heq k). simpl in Heq. by rewrite cmp_refl in Heq. }
    apply bt_wf_cons in H1 as [Hk1 H1], H2 as [Hk2 H2].
    assert (k = k2) as ->.
    { pose proof (Heq k) as Qk. pose proof (Heq k2) as Qk2. simpl in Qk, Qk2.
      rewrite cmp_refl in Qk, Qk2. destruct (cmp k k2) eqn:E.
      - by apply cmp_eq_iff.
      - done.
      - apply cmp_gt_lt in E. by rewrite E in Qk2. }
    assert (v = v2) as ->.
    { specialize (Heq k2). simpl in Heq. rewrite cmp_refl in Heq. congruence. }
    f_equal. apply IH; auto. intros k. specialize (Heq k). simpl in Heq.
    destruct (cmp k k2) eqn:E; [|  |done].
    + apply cmp_eq_iff in E as ->. by rewrite !bt_get_lt.
    + rewrite !bt_get_lt; [done| |]; (eapply Forall_impl; [done|]);
        intros p Hp; simpl in *; by transitivity k2.
Qed.

Lemma bt_or_insert_wf m k v : bt_wf m → bt_wf (bt_or_insert k v m).
Proof. unfold bt_or_insert. destruct (bt_get m k); auto using bt_insert_wf. Qed.

Lemma bt_get_or_insert m k v k' :
  bt_get (bt_or_insert k v m) k' =
    match bt_get m k' with
    | Some w => Some w
    | None => if decide (k' = k) then Some v else None
    end.
Proof.
  unfold bt_or_insert. destruct (bt_get m k) as [w|] eqn:E.
  - destruct (bt_get m k') eqn:E'; [done|]. case_decide; [congruence|done].
  - rewrite bt_get_insert. case_decide as D; [subst; by rewrite E|].
    by destruct (bt_get m k').
Qed.

Lemma bt_get_upsert f m k v k' :
  bt_get (bt_upsert f k v m) k' =
    if decide (k' = k) then Some (match bt_get m k with Some w => f w | None => v end)
    else bt_get m k'.
Proof. unfold bt_upsert. destruct (bt_get m k) eqn:E; by rewrite bt_get_insert. Qed.

Lemma bt_upsert_wf f m k v : bt_wf m → bt_wf (bt_upsert f k v m).
Proof. unfold bt_upsert. destruct (bt_get m k); auto using bt_insert_wf. Qed.
End btree.

(** Mapping the values of a map. *)
Definition bt_map {K V W} (f : V → W) (m : btree K V) : btree K W := map (λ p, (p.1, f p.2)) m.

Lemma bt_get_map `{Ord K} {V W} (f : V → W) (m : btree K V) k :
  bt_get (bt_map f m) k = f <$> bt_get m k.
Proof. induction m as [|[k' v] m IH]; simpl; [done|]. by destruct (cmp k k'). Qed.

Lemma bt_map_wf `{Ord K} {V W} (f : V → W) (m : btree K V) : bt_wf m → bt_wf (bt_map f m).
Proof.
  unfold bt_wf. intros Hm. assert (bt_keys (bt_map f m) = bt_keys m) as ->; [|done].
  clear. induction m as [|p m IH]; [done|]. exact (f_equal (cons p.1) IH).
Qed.

(** Keeping the entries whose value passes [p]. *)
Definition bt_filter {K V} (p : V → bool) (m : btree K V) : btree K V := List.filter (λ e, p e.2) m.

Lemma bt_filter_wf `{Ord K} {V} (p : V → bool) (m : btree K V) : bt_wf m → bt_wf (bt_filter p m).
Proof.
  induction m as [|[k v] m IH]; [done|]. intros [Hk Hm]%bt_wf_cons. unfold bt_filter in *. cbn [List.filter].
  destruct (p (k, v).2); [|by apply IH]. apply bt_wf_cons. split; [|by apply IH].
  rewrite Forall_forall in Hk |- *. intros e He. apply Hk.
  apply list_elem_of_In in He. apply List.filter_In in He as [He _]. by apply list_elem_of_In.
Qed.

Lemma bt_get_filter `{Ord K} {V} (p : V → bool) (m : btree K V) k : bt_wf m →
  bt_get (bt_filter p m) k = match bt_get m k with Some v => if p v then Some v else None | None => None end.
Proof.
  induction m as [|[k' v] m IH]; [done|]. intros [Hk Hm]%bt_wf_cons. unfold bt_filter in *. cbn.
  destruct (p v) eqn:Ep; cbn.
  - destruct (cmp k k'); [by rewrite Ep|done|by apply IH].
  - rewrite IH by done. destruct (cmp k k') eqn:E; [|..|done].
    + apply cmp_eq_iff in E as ->. rewrite bt_get_lt by done. by rewrite Ep.
    + rewrite bt_get_lt; [done|]. eapply Forall_impl; [exact Hk|]. intros e He. cbn in *. by transitivity k'.
Qed.

Lemma bt_values_filter {K V} (p : V → bool) (m : btree K V) :
  bt_values (bt_filter p m) = List.filter p (bt_values m).
Proof.
  unfold bt_values, bt_filter. induction m as [|[k v] m IH]; [done|]. cbn.
  destruct (p v); cbn; [f_equal|]; exact IH.
Qed.

Lemma NoDup_bfilter {A} (p : A → bool) l : NoDup l → NoDup (List.filter p l).
Proof. intros Hl. by apply NoDup_ListNoDup, List.NoDup_filter, NoDup_ListNoDup. Qed.

Lemma olt_sorted_nodup `{Ord A} (l : list A) : StronglySorted olt l → NoDup l.
Proof.
  induction 1 as [|x l _ IH Hx]; constructor; [|done]. intros Hin. rewrite Forall_forall in Hx. by apply (olt_irrefl x), Hx.
Qed.

Lemma bt_keys_nodup `{Ord K} {V} (m : btree K V) : bt_wf m → NoDup (bt_keys m).
Proof. apply olt_sorted_nodup. Qed.

Lemma elem_of_bt_keys `{Ord K} {V} (m : btree K V) k : bt_wf m → k ∈ bt_keys m ↔ is_Some (bt_get m k).
Proof.
  intros Hm. unfold bt_keys. rewrite list_elem_of_fmap. split.
  - intros ([k' v] & -> & Hin). exists v. by apply bt_get_elem.
  - intros [v Hv]. exists (k, v). split; [done|]. by apply bt_get_elem.
Qed.

Lemma bt_contains_spec `{Ord K} {V} (m : btree K V) k : bt_contains m k = true ↔ is_Some (bt_get m k).
Proof. unfold bt_contains. apply bool_decide_eq_true. Qed.

Lemma elem_of_bfilter {A} (p : A → bool) l x : x ∈ List.filter p l ↔ x ∈ l ∧ p x = true.
Proof. by rewrite !list_elem_of_In, List.filter_In. Qed.

Lemma NoDup_map_bfilter {A B} (f : A → B) (p : A → bool) l : NoDup (map f l) → NoDup (map f (List.filter p l)).
Proof.
  induction l as [|x l IH]; [done|]. cbn [map List.filter]. intros [Hx Hn]%NoDup_cons.
  case_match; [|by apply IH]. cbn [map]. apply NoDup_cons. split; [|by apply IH].
  intros (y & Hy & [Hin _]%elem_of_bfilter)%list_elem_of_fmap. apply Hx, list_elem_of_fmap. by exists y.
Qed.

Lemma blen_bfilter {A} (p : A → bool) (l : list A) : (blen (List.filter p l) <= blen l)%Z.
Proof. unfold blen. pose proof (List.filter_length_le p l). lia. Qed.

Lemma bfilter_true {A} (p : A → bool) l : forallb p l = true → List.filter p l = l.
Proof.
  induction l as [|x l IH]; cbn; [done|]. intros [-> Hl]%andb_true_iff. by rewrite IH.
Qed.

Lemma filter_perm {A} (p q : A → bool) l k :
  (∀ x, p x = q x) → l ≡ₚ k → List.filter p l ≡ₚ List.filter q k.
Proof.
  intros Hpq Hp. assert (List.filter p l = List.filter q l) as ->.
  { clear Hp. induction l as [|x l IH]; simpl; [done|]. by rewrite Hpq, IH. }
  induction Hp; simpl; repeat case_match; eauto using Permutation.
Qed.

Lemma existsb_perm {A} (p : A → bool) l k : l ≡ₚ k → existsb p l = existsb p k.
Proof.
  induction 1; simpl; [done|congruence| |congruence].
  by destruct (p x), (p y).
Qed.

(** Every maximum of a list under an order whose [Eq] is equality is the one
    [max_by] returns, whatever the order of the list. *)
Lemma max_by_perm {A} (c : A → A → comparison) l k :
  (∀ x y, c y x = CompOpp (c x y)) → (∀ x y z, cle c x y → cle c y z → cle c x z) →
  (∀ x y, x ∈ l → y ∈ l → c x y = Eq → x = y) → l ≡ₚ k → max_by c l = max_by c k.
Proof.
  intros Ha Ht Heq Hp. destruct (max_by c l) as [m|] eqn:E1, (max_by c k) as [m'|] eqn:E2.
  - f_equal. pose proof (max_by_elem _ _ _ E1) as I1. pose proof (max_by_elem _ _ _ E2) as I2.
    rewrite <- Hp in I2. apply Heq; auto.
    pose proof (max_by_ge c Ha Ht _ _ _ E1 I2) as G1. rewrite Hp in I1.
    pose proof (max_by_ge c Ha Ht _ _ _ E2 I1) as G2. unfold cle in *.
    rewrite (Ha m m') in G1. by destruct (c m m').
  - apply max_by_None in E2 as ->. apply Permutation_nil_r in Hp. by subst.
  - apply max_by_None in E1 as ->. apply Permutation_nil_l in Hp. by subst.
  - done.
Qed.

Create HintDb btree.
#[export] Hint Resolve bt_wf_nil bt_insert_wf bt_remove_wf bt_or_insert_wf bt_upsert_wf : btree.

(** ** [slice::binary_search_by]

    The loop of the standard library: [base] is the last index known not to
    compare [Greater] (or 0), [size] the length of the window under it. *)

Section binary_search.
Context {A : Type} (f : A → comparison) (l : list A).

Definition probe (i : nat) : comparison :=
  match l !! i with Some x => f x | None => Gt end.

Fixpoint bs_loop (fuel base size : nat) : nat :=
  match fuel with
  | O => base
  | S fuel =>
      if (size <=? 1)%nat then base
      else let half := (size / 2)%nat in
           let mid := (base + half)%nat in
           bs_loop fuel (match probe mid with Gt => base | _ => mid end) (size - half)
  end.

(** [Some i] is [Ok(i)], [None] is [Err(_)]. *)
Definition binary_search_by : option nat :=
  if (length l =? 0)%nat then None
  else let base := bs_loop (length l) 0 (length l) in
       match probe base with Eq => Some base | _ => None end.

(** [f] is [Less] on a prefix, then [Equal], then [Greater]. *)
Definition partitioned : Prop := ∀ i j x y,
  (i <= j)%nat → l !! i = Some x → l !! j = Some y →
  (f x = Gt → f y = Gt) ∧ (f y = Lt → f x = Lt) .

Lemma bs_loop_spec fuel base size :
  partitioned → (size <= fuel)%nat → (0 < size)%nat → (base + size <= length l)%nat →
  (∀ i, (i < base)%nat → probe i ≠ Gt) →
  (base = O ∨ probe base ≠ Gt) →
  (∀ i, (base + size <= i)%nat → probe i = Gt) →
  let b := bs_loop fuel base size in
  (b < length l)%nat ∧ (b = O ∨ probe b ≠ Gt) ∧ (∀ i, (b < i)%nat → probe i = Gt).
Proof.
  intros Hp. revert base size. induction fuel as [|fuel IH]; intros base size Hs H0 Hl Hlo Hb Hhi.
  { lia. }
  cbn [bs_loop]. destruct (Nat.leb_spec size 1) as [Hle|Hgt].
  { split_and!; [lia|done|]. intros i Hi. apply Hhi. lia. }
  assert (size / 2 < size)%nat by (apply Nat.div_lt; lia).
  assert (0 < size / 2)%nat by (apply Nat.div_str_pos; lia).
  pose proof (Nat.Div0.mul_div_le size 2).
  assert (base + size / 2 < length l)%nat as Hmid by lia.
  destruct (lookup_lt_is_Some_2 _ _ Hmid) as [x Hx].
  assert (probe (base + size / 2) = f x) as Hpx by (unfold probe; by rewrite Hx).
  destruct (decide (probe (base + size / 2) = Gt)) as [Hg|Hg].
  - rewrite Hg. apply IH; auto; try lia. intros i Hi.
    unfold probe. destruct (l !! i) as [y|] eqn:Hy; [|done].
    apply (proj1 (Hp (base + size / 2)%nat i x y ltac:(lia) Hx Hy)). congruence.
  - assert (match probe (base + size / 2) with Gt => base | _ => (base + size / 2)%nat end
      = (base + size / 2)%nat) as -> by (by destruct (probe (base + size / 2))).
    apply IH; auto; try lia.
    + intros i Hi. unfold probe. destruct (l !! i) as [y|] eqn:Hy; [|apply lookup_ge_None in Hy; lia].
      intros Hf. apply Hg. rewrite Hpx. by apply (proj1 (Hp i (base + size / 2)%nat y x ltac:(lia) Hy Hx)).
    + intros i Hi. apply Hhi. lia.
Qed.

(** On a partitioned slice the search succeeds exactly when some element
    compares [Equal], and the index it returns is one. *)
Lemma binary_search_by_spec :
  partitioned →
  match binary_search_by with
  | Some i => ∃ x, l !! i = Some x ∧ f x = Eq
  | None => ∀ x, x ∈ l → f x ≠ Eq
  end.
Proof.
  intros Hp. unfold binary_search_by. destruct (Nat.eqb_spec (length l) 0) as [Hz|Hz].
  { apply nil_length_inv in Hz. rewrite Hz. intros x Hx. by apply elem_of_nil in Hx. }
  pose proof (bs_loop_spec (length l) 0 (length l) Hp ltac:(lia) ltac:(lia) ltac:(lia)
    ltac:(lia) ltac:(auto)) as Hs.
  destruct Hs as (Hb & Hok & Hgt).
  { intros i Hi. unfold probe. by rewrite lookup_ge_None_2. }
  set (b := bs_loop _ _ _) in *. destruct (lookup_lt_is_Some_2 _ _ Hb) as [x Hx].
  destruct (probe b) eqn:E.
  - exists x. split; [done|]. unfold probe in E. by rewrite Hx in E.
  - intros y Hy Hf. apply list_elem_of_lookup in Hy as [j Hj].
    unfold probe in E. rewrite Hx in E.
    destruct (decide (j <= b)%nat).
    + pose proof (proj2 (Hp j b y x ltac:(lia) Hj Hx) E). congruence.
    + specialize (Hgt j ltac:(lia)). unfold probe in Hgt. rewrite Hj in Hgt. congruence.
  - intros y Hy Hf. apply list_elem_of_lookup in Hy as [j Hj].
    destruct Hok as [Hb0|]; [|done]. destruct (decide (j = b)) as [->|].
    + rewrite Hj in Hx. injection Hx as ->. unfold probe in E. rewrite Hj in E. congruence.
    + specialize (Hgt j ltac:(lia)). unfold probe in Hgt. rewrite Hj in Hgt. congruence.
Qed.
End binary_search.
