(* ===== verification/Bitfield.v ===== *)
(** * Chunk-group bitfields ([crates/epix-blob/src/bitfield.rs])

    [GroupBits] records which 16 KiB groups of an object are present, as a
    sorted list of non-empty, non-overlapping, non-adjacent index ranges.
    The abstract meaning of a field is the set of indices it holds ([has]);
    every operation is specified against that set, well-formed fields are
    canonical for it ([wf_canonical]), and the wire form round-trips. *)
From S2P Require Import Prelude Ordered.
From Stdlib Require Import ZArith Lia.
From stdpp Require Import base list.
#[local] Open Scope Z_scope.

(** A half-open range [start..end] of group indices. *)
Abbreviation range := (Z * Z)%type.

Definition GROUP_BYTES : Z := 16384.
Definition CHUNKS_PER_GROUP : Z := GROUP_BYTES / 1024.
Definition CHUNK_BYTES : Z := GROUP_BYTES / CHUNKS_PER_GROUP.
Definition MAX_GROUPS : Z := Z.shiftl 1 26.
Definition MAX_WIRE_RUNS : Z := Z.shiftl 1 17.

Definition group_count (size : Z) : Z := div_ceil size GROUP_BYTES.

Definition groups_for_bytes (b : range) : range :=
  if b.2 <=? b.1 then (0, 0)
  else (b.1 / GROUP_BYTES, div_ceil b.2 GROUP_BYTES).

Definition bytes_of_group (g size : Z) : range :=
  (Z.min (g * GROUP_BYTES) size, Z.min ((g + 1) * GROUP_BYTES) size).

(** ** The range list *)

Definition in_range (r : range) (g : Z) : Prop := r.1 <= g < r.2.
Definition has (rs : list range) (g : Z) : Prop := Exists (λ r, in_range r g) rs.

(** Sorted, non-empty, separated by at least one absent group, from [lo] on. *)
Fixpoint wf_from (lo : Z) (rs : list range) : Prop :=
  match rs with
  | [] => True
  | (s, e) :: rs => lo <= s ∧ s < e ∧ wf_from (e + 1) rs
  end.

(** Where the next run may start. *)
Fixpoint next_from (lo : Z) (rs : list range) : Z :=
  match rs with [] => lo | (_, e) :: rs => next_from (e + 1) rs end.

Lemma has_nil g : has [] g ↔ False.
Proof. unfold has. by rewrite Exists_nil. Qed.

Lemma has_cons s e rs g : has ((s, e) :: rs) g ↔ s <= g < e ∨ has rs g.
Proof. unfold has. by rewrite Exists_cons. Qed.

Lemma has_app rs1 rs2 g : has (rs1 ++ rs2) g ↔ has rs1 g ∨ has rs2 g.
Proof. unfold has. by rewrite Exists_app. Qed.

Create Rewrite HintDb bits.
#[export] Hint Rewrite has_nil has_cons has_app : bits.

Lemma wf_from_le lo lo' rs : wf_from lo rs → lo' <= lo → wf_from lo' rs.
Proof. destruct rs as [|[s e] rs]; simpl; [done|]. intuition lia. Qed.

Lemma wf_from_has lo rs g : wf_from lo rs → has rs g → lo <= g.
Proof.
  revert lo; induction rs as [|[s e] rs IH]; intros lo; simpl.
  - by rewrite has_nil.
  - intros (H1 & H2 & Hwf). rewrite has_cons. intros [?|Hg]; [lia|].
    specialize (IH _ Hwf Hg). lia.
Qed.

Lemma wf_from_app lo rs1 rs2 :
  wf_from lo (rs1 ++ rs2) ↔ wf_from lo rs1 ∧ wf_from (next_from lo rs1) rs2.
Proof.
  revert lo; induction rs1 as [|[s e] rs1 IH]; intros lo; simpl; [tauto|].
  rewrite IH. tauto.
Qed.

Lemma next_from_ge lo rs : wf_from lo rs → lo <= next_from lo rs.
Proof.
  revert lo; induction rs as [|[s e] rs IH]; intros lo; simpl; [lia|].
  intros (? & ? & Hwf). apply IH in Hwf. lia.
Qed.

Lemma next_from_has lo rs g : wf_from lo rs → has rs g → g + 1 < next_from lo rs.
Proof.
  revert lo; induction rs as [|[s e] rs IH]; intros lo; simpl; [by rewrite has_nil|].
  intros (? & ? & Hwf). rewrite has_cons. intros [?|Hg].
  - apply next_from_ge in Hwf. lia.
  - by apply (IH (e + 1)).
Qed.

Lemma next_from_app lo rs1 rs2 :
  next_from lo (rs1 ++ rs2) = next_from (next_from lo rs1) rs2.
Proof. revert lo; induction rs1 as [|[s e] rs1 IH]; intros lo; simpl; auto. Qed.

(** A well-formed list is determined by its set of groups. *)
Lemma wf_from_ext lo1 lo2 rs1 rs2 :
  wf_from lo1 rs1 → wf_from lo2 rs2 → (∀ g, has rs1 g ↔ has rs2 g) → rs1 = rs2.
Proof.
  revert lo1 lo2 rs2. induction rs1 as [|[s e] rs1 IH]; intros lo1 lo2 rs2 W1 W2 Heq.
  { destruct rs2 as [|[s e] rs2]; [done|]. destruct W2 as (? & ? & ?). exfalso.
    apply (has_nil s), Heq, has_cons. left; lia. }
  destruct rs2 as [|[s' e'] rs2].
  { destruct W1 as (? & ? & ?). exfalso. apply (has_nil s), Heq, has_cons. left; lia. }
  destruct W1 as (_ & Hse & W1), W2 as (_ & Hse' & W2).
  assert (∀ g, has rs1 g → e < g) as Q1 by (intros g Hg; apply (wf_from_has _ _ _ W1) in Hg; lia).
  assert (∀ g, has rs2 g → e' < g) as Q2 by (intros g Hg; apply (wf_from_has _ _ _ W2) in Hg; lia).
  setoid_rewrite has_cons in Heq.
  assert (s = s') as <-.
  { destruct (proj1 (Heq s) ltac:(left; lia)) as [?|Hg%Q2];
      destruct (proj2 (Heq s') ltac:(left; lia)) as [?|Hg'%Q1]; lia. }
  assert (e = e') as <-.
  { destruct (Z.lt_trichotomy e e') as [Hlt|[?|Hlt]]; [|done|].
    - destruct (proj2 (Heq e) ltac:(left; lia)) as [?|Hg%Q1]; lia.
    - destruct (proj1 (Heq e') ltac:(left; lia)) as [?|Hg%Q2]; lia. }
  f_equal. apply (IH _ _ _ W1 W2). intros g. specialize (Heq g). split; intros Hg.
  - pose proof (Q1 _ Hg). destruct (proj1 Heq (or_intror Hg)); [lia|done].
  - pose proof (Q2 _ Hg). destruct (proj2 Heq (or_intror Hg)); [lia|done].
Qed.

(** ** [GroupBits] *)

Module GroupBits.

Record t := mk { runs : list range }.

Definition new : t := mk [].

Definition complete (size : Z) : t :=
  let n := group_count size in
  if 0 <? n then mk [(0, n)] else new.

Definition contains_cmp (group : Z) (r : range) : comparison :=
  if r.2 <=? group then Lt else if group <? r.1 then Gt else Eq.

Definition contains (b : t) (group : Z) : bool :=
  match binary_search_by (contains_cmp group) (runs b) with Some _ => true | None => false end.

Definition contains_all (b : t) (groups : range) : bool :=
  if groups.2 <=? groups.1 then true
  else existsb (λ r : range, (r.1 <=? groups.1) && (groups.2 <=? r.2)) (runs b).

(** [if let Some(last) = self.runs.last_mut() { last.end = end }] *)
Fixpoint set_last_end (rs : list range) (e : Z) : list range :=
  match rs with
  | [] => []
  | [(s, _)] => [(s, e)]
  | r :: rs => r :: set_last_end rs e
  end.

(** One turn of [add]'s coalescing loop over [(new, merged, placed)]. *)
Definition add_step (st : list range * range * bool) (r : range) : list range * range * bool :=
  let '(new, merged, placed) := st in
  if (r.2 <? merged.1) || (merged.2 <? r.1) then
    let '(new, placed) :=
      if (merged.2 <? r.1) && negb placed then (new ++ [merged], true) else (new, placed) in
    (new ++ [r], merged, placed)
  else (new, (Z.min merged.1 r.1, Z.max merged.2 r.2), placed).

Definition add_finish (st : list range * range * bool) : list range :=
  let '(new, merged, placed) := st in if placed then new else new ++ [merged].

Definition add (b : t) (groups : range) : t :=
  if groups.2 <=? groups.1 then b
  else
    let coalesce := mk (add_finish (foldl add_step ([], groups, false) (runs b))) in
    match last (runs b) with
    | Some tail =>
        if groups.1 =? tail.2 then mk (set_last_end (runs b) groups.2)
        else if tail.2 <? groups.1 then mk (runs b ++ [groups])
        else coalesce
    | None => mk (runs b ++ [groups])
    end.

Definition remove_run (groups r : range) : list range :=
  if (r.2 <=? groups.1) || (groups.2 <=? r.1) then [r]
  else (if r.1 <? groups.1 then [(r.1, groups.1)] else [])
       ++ (if groups.2 <? r.2 then [(groups.2, r.2)] else []).

Definition remove (b : t) (groups : range) : t :=
  if groups.2 <=? groups.1 then b
  else mk (flat_map (remove_run groups) (runs b)).

Definition ranges (b : t) : list range := runs b.

Definition count (b : t) : Z := foldr (λ r n, r.2 - r.1 + n) 0 (runs b).

Definition is_empty (b : t) : bool := match runs b with [] => true | _ => false end.

Definition is_complete (b : t) (size : Z) : bool :=
  let n := group_count size in
  (n =? 0) || bool_decide (runs b = [(0, n)]).

Fixpoint gaps_loop (rs : list range) (cursor hi : Z) (out : list range) : Z * list range :=
  match rs with
  | [] => (cursor, out)
  | (s, e) :: rs =>
      if e <=? cursor then gaps_loop rs cursor hi out
      else if hi <=? s then (cursor, out)
      else
        let out := if cursor <? s then out ++ [(cursor, Z.min s hi)] else out in
        let cursor := Z.max cursor e in
        if hi <=? cursor then (cursor, out) else gaps_loop rs cursor hi out
  end.

Definition gaps (b : t) (within : range) : list range :=
  let '(cursor, out) := gaps_loop (runs b) within.1 within.2 [] in
  if cursor <? within.2 then out ++ [(cursor, within.2)] else out.

Definition added_in (b other : t) : t := foldl remove other (runs b).

Fixpoint wire_pairs (cursor : Z) (rs : list range) : list Z :=
  match rs with
  | [] => []
  | (s, e) :: rs => (s - cursor) :: (e - s) :: wire_pairs e rs
  end.

Definition to_wire (b : t) : list Z :=
  match wire_pairs 0 (runs b) with
  | [] => []
  | x :: out => if x =? 0 then out else 0 :: x :: out
  end.

(** The decoding loop; [cursor.checked_add(run)?] fails past [u64::MAX]. *)
Fixpoint from_wire_loop (wire : list Z) (acc : list range) (cursor : Z) (present : bool) : option t :=
  match wire with
  | [] => Some (mk acc)
  | run :: wire =>
      let e := cursor + run in
      if u64_max <? e then None
      else if MAX_GROUPS <? e then None
      else
        let acc :=
          if present && (0 <? run) then
            if bool_decide (option_map snd (last acc) = Some cursor)
            then set_last_end acc e else acc ++ [(cursor, e)]
          else acc in
        from_wire_loop wire acc e (negb present)
  end.

Definition from_wire (wire : list Z) : option t :=
  if MAX_WIRE_RUNS <? Z.of_nat (length wire) then None
  else from_wire_loop wire [] 0 true.

(** ** Chunk ranges

    [bao_tree::ChunkRanges] is a third-party set of chunk numbers; it enters
    as a type with the three operations the code uses. *)
Section chunks.
Context {CR : Type} (cr_empty : CR) (cr_of : range → CR) (cr_union : CR → CR → CR).

Definition to_chunk_ranges (b : t) : CR :=
  foldl (λ out r, cr_union out (cr_of (r.1 * CHUNKS_PER_GROUP, r.2 * CHUNKS_PER_GROUP)))
    cr_empty (runs b).

Definition to_chunk_ranges_clamped (b : t) (size : Z) : CR :=
  let chunks := div_ceil size CHUNK_BYTES in
  foldl (λ out r,
    let start := Z.min (r.1 * CHUNKS_PER_GROUP) chunks in
    let end_ := Z.min (r.2 * CHUNKS_PER_GROUP) chunks in
    if start <? end_ then cr_union out (cr_of (start, end_)) else out)
    cr_empty (runs b).
End chunks.

(** ** Invariant and meaning *)

Definition wf (b : t) : Prop := wf_from 0 (runs b).
Definition mem (b : t) (g : Z) : Prop := has (runs b) g.

Example add_ex :
  runs (add (add (add new (0, 4)) (10, 12)) (4, 9)) = [(0, 9); (10, 12)].
Proof. reflexivity. Qed.
Example wire_ex : to_wire (mk [(2, 5); (7, 8)]) = [0; 2; 3; 2; 1].
Proof. reflexivity. Qed.
Example wire_ex' : from_wire [0; 2; 3; 2; 1] = Some (mk [(2, 5); (7, 8)]).
Proof. reflexivity. Qed.

Lemma wf_new : wf new.
Proof. done. Qed.

Lemma set_last_end_snoc rs s e e' : set_last_end (rs ++ [(s, e)]) e' = rs ++ [(s, e')].
Proof.
  induction rs as [|r rs IH]; [done|]. cbn [app set_last_end].
  rewrite IH. destruct r. by destruct rs.
Qed.

Lemma group_count_nonneg size : 0 <= size → 0 <= group_count size.
Proof. intros. unfold group_count, div_ceil, GROUP_BYTES. apply Z.div_pos; lia. Qed.

(** [add] on the coalescing path: once [merged] is placed, the remaining runs
    lie beyond it and are copied; before that, [merged] absorbs what it
    touches. *)
Lemma add_loop_placed new m lo rs :
  wf_from lo rs → m.2 < lo → foldl add_step (new, m, true) rs = (new ++ rs, m, true).
Proof.
  revert new lo; induction rs as [|[s e] rs IH]; intros new lo; [by rewrite app_nil_r|].
  cbn [wf_from foldl]. intros (? & ? & Hwf) Hm. unfold add_step at 2. simpl.
  replace (m.2 <? s) with true by lia. rewrite orb_true_r. simpl.
  rewrite (IH _ (e + 1)); [|done|lia]. by rewrite <- app_assoc.
Qed.

Lemma add_loop_open new s e lo rs :
  wf_from lo rs → s < e →
  ∃ k, add_finish (foldl add_step (new, (s, e), false) rs) = new ++ k ∧
       wf_from (Z.min lo s) k ∧ ∀ g, has k g ↔ s <= g < e ∨ has rs g.
Proof.
  revert new s e lo; induction rs as [|[s' e'] rs IH]; intros new s e lo Hwf Hse.
  { exists [(s, e)]. simpl. split_and!; [done|lia|done|done|]. intros g. by rewrite has_cons. }
  destruct Hwf as (Hlo & Hse' & Hwf). cbn [foldl]. unfold add_step at 2. simpl.
  destruct (e' <? s) eqn:E1; [|destruct (e <? s') eqn:E2]; simpl.
  - replace (e <? s') with false by lia. simpl.
    destruct (IH (new ++ [(s', e')]) s e (e' + 1) Hwf Hse) as (k & -> & Hk & Hm).
    exists ((s', e') :: k). rewrite <- app_assoc. split; [done|]. split.
    + simpl. split_and!; [lia|done|]. eapply wf_from_le; [done|lia].
    + intros g. rewrite !has_cons, Hm. tauto.
  - rewrite (add_loop_placed _ _ (e' + 1)); [|done|simpl; lia]. simpl.
    exists ((s, e) :: (s', e') :: rs). rewrite <- !app_assoc. split; [done|].
    split; [simpl; split_and!; auto; lia|]. intros g. by rewrite !has_cons.
  - destruct (IH new (Z.min s s') (Z.max e e') (e' + 1) Hwf ltac:(lia)) as (k & -> & Hk & Hm).
    exists k. split; [done|]. split; [eapply wf_from_le; [done|lia]|].
    intros g. rewrite Hm, has_cons. assert (Z.min s s' <= g < Z.max e e' ↔ s <= g < e ∨ s' <= g < e') by lia.
    tauto.
Qed.

Lemma add_spec b r :
  wf b → 0 <= r.1 → wf (add b r) ∧ ∀ g, mem (add b r) g ↔ mem b g ∨ in_range r g.
Proof.
  destruct b as [rs], r as [s e]. unfold wf, mem, add, in_range. simpl. intros Hwf Hs.
  destruct (e <=? s) eqn:E; [split; [done|]; intros g; simpl; intuition lia|].
  destruct (last rs) as [[s' e']|] eqn:El.
  - apply last_Some in El as [l ->]. apply wf_from_app in Hwf as [Hl Ht]. simpl in Ht.
    simpl. destruct (s =? e') eqn:E1; [|destruct (e' <? s) eqn:E2]; simpl.
    + rewrite set_last_end_snoc, wf_from_app. simpl. split; [split; [done|]; lia|].
      intros g. autorewrite with bits. intuition lia.
    + rewrite !wf_from_app, next_from_app. simpl. split; [intuition lia|].
      intros g. autorewrite with bits. tauto.
    + destruct (add_loop_open [] s e 0 (l ++ [(s', e')])) as (k & -> & Hk & Hm); [|lia|].
      { apply wf_from_app. simpl. tauto. }
      split; [eapply wf_from_le; [done|lia]|]. intros g. simpl. rewrite Hm. tauto.
  - apply last_None in El as ->. simpl. split; [lia|]. intros g.
    autorewrite with bits. tauto.
Qed.

Lemma has_remove_run s e r g :
  r.1 < r.2 → has (remove_run (s, e) r) g ↔ in_range r g ∧ ¬ (s <= g < e).
Proof.
  destruct r as [a b]. unfold remove_run, in_range. simpl. intros.
  repeat case_match; simpl; autorewrite with bits; lia.
Qed.

Lemma remove_loop_spec lo s e rs :
  wf_from lo rs → s < e →
  wf_from lo (flat_map (remove_run (s, e)) rs) ∧
  ∀ g, has (flat_map (remove_run (s, e)) rs) g ↔ has rs g ∧ ¬ (s <= g < e).
Proof.
  intros Hwf Hse. revert lo Hwf. induction rs as [|[a b] rs IH]; intros lo.
  { intros _. split; [done|]. intros g. autorewrite with bits. tauto. }
  intros (? & ? & Hwf). destruct (IH _ Hwf) as [IH1 IH2]. cbn [flat_map]. split.
  - rewrite wf_from_app. split; [|eapply wf_from_le; [exact IH1|]];
      unfold remove_run; simpl; repeat case_match; simpl; lia.
  - intros g. rewrite has_app, IH2, has_cons, has_remove_run by done.
    unfold in_range. simpl. tauto.
Qed.

Lemma remove_spec b r :
  wf b → wf (remove b r) ∧ ∀ g, mem (remove b r) g ↔ mem b g ∧ ¬ in_range r g.
Proof.
  destruct b as [rs], r as [s e]. unfold wf, mem, remove, in_range. simpl. intros Hwf.
  destruct (e <=? s) eqn:E; [split; [done|]; intros g; simpl; intuition lia|].
  apply remove_loop_spec; [done|lia].
Qed.

Lemma wf_canonical b1 b2 : wf b1 → wf b2 → (∀ g, mem b1 g ↔ mem b2 g) → b1 = b2.
Proof.
  destruct b1, b2. unfold wf, mem. simpl. intros. f_equal. by eapply wf_from_ext.
Qed.

Lemma complete_spec size :
  0 <= size → wf (complete size) ∧ ∀ g, mem (complete size) g ↔ 0 <= g < group_count size.
Proof.
  intros. pose proof (group_count_nonneg size ltac:(done)). unfold complete, wf, mem.
  destruct (0 <? group_count size) eqn:E; simpl.
  - split; [lia|]. intros g. autorewrite with bits. tauto.
  - split; [done|]. intros g. autorewrite with bits. lia.
Qed.

Lemma is_complete_spec b size : wf b → 0 <= size →
  is_complete b size = true ↔ group_count size = 0 ∨ b = complete size.
Proof.
  intros Hwf Hs. unfold is_complete. rewrite orb_true_iff, bool_decide_eq_true, Z.eqb_eq.
  pose proof (group_count_nonneg size Hs). unfold complete. destruct b as [rs]. simpl.
  destruct (0 <? group_count size) eqn:E; [split; intros [|Hq]; auto; right; congruence|].
  split; [|]; intros _; left; lia.
Qed.

Lemma contains_spec b g : wf b → contains b g = true ↔ mem b g.
Proof.
  destruct b as [rs]. unfold wf, mem, contains. simpl. intros Hwf.
  assert (partitioned (contains_cmp g) rs) as Hp.
  { intros i j [s e] [s' e'] Hij Hi Hj. unfold contains_cmp. simpl.
    destruct (decide (i = j)) as [->|Hne]; [simplify_eq; tauto|].
    apply list_elem_of_split_length in Hi as (l1 & l2 & -> & ->).
    apply wf_from_app in Hwf as [_ (_ & Hse & Hwf)].
    rewrite lookup_app_r in Hj by lia.
    destruct (j - length l1)%nat as [|n] eqn:Hn; [lia|]. simpl in Hj.
    apply list_elem_of_split_length in Hj as (l3 & l4 & -> & _).
    apply wf_from_app in Hwf as [Hl3 (Hn3 & Hse' & _)].
    apply next_from_ge in Hl3. simpl in *.
    repeat case_match; split; intros; try done; lia. }
  pose proof (binary_search_by_spec _ _ Hp) as Hb. unfold has. rewrite Exists_exists.
  assert (∀ r, contains_cmp g r = Eq ↔ in_range r g) as Hin.
  { intros [s e]. unfold contains_cmp, in_range. simpl. repeat case_match; split; intros; try done; lia. }
  destruct (binary_search_by _ _).
  - destruct Hb as (x & Hx & Hf). split; [|done]. intros _. exists x.
    split; [by eapply list_elem_of_lookup_2|]. by apply Hin.
  - split; [done|]. intros (r & Hr & Hg). exfalso. apply (Hb _ Hr). by apply Hin.
Qed.

(** A range inside the set lies in a single run: runs are never adjacent. *)
Lemma has_all_one_run lo rs s e :
  wf_from lo rs → s < e → (∀ g, s <= g < e → has rs g) → ∃ r, r ∈ rs ∧ r.1 <= s ∧ e <= r.2.
Proof.
  revert lo; induction rs as [|[a b] rs IH]; intros lo.
  { intros _ Hse Hall. specialize (Hall s ltac:(lia)). by rewrite has_nil in Hall. }
  intros (? & ? & Hwf) Hse Hall.
  assert (∀ g, has rs g → b < g) as Q by (intros g Hg; apply (wf_from_has _ _ _ Hwf) in Hg; lia).
  setoid_rewrite has_cons in Hall. destruct (Hall s ltac:(lia)) as [Hs|Hs].
  - exists (a, b). split; [left|]. simpl. split; [lia|].
    destruct (decide (e <= b)); [done|]. destruct (Hall b ltac:(lia)) as [?|?%Q]; lia.
  - apply Q in Hs. destruct (IH _ Hwf Hse) as (r & ? & ?); [|exists r; split; [by right|done]].
    intros g Hg. destruct (Hall g Hg); [lia|done].
Qed.

Lemma contains_all_spec b r : wf b → contains_all b r = true ↔ ∀ g, in_range r g → mem b g.
Proof.
  destruct b as [rs], r as [s e]. unfold wf, contains_all, in_range, mem. simpl. intros Hwf.
  destruct (e <=? s) eqn:E; [split; [|done]; intros; lia|].
  rewrite existsb_exists. split.
  - intros ([a b] & Hin & Hab) g Hg. unfold has. apply Exists_exists. exists (a, b).
    split; [by apply list_elem_of_In|]. unfold in_range. simpl in *. lia.
  - intros Hall. destruct (has_all_one_run 0 rs s e Hwf ltac:(lia) Hall) as (r & Hr & ? & ?).
    exists r. split; [by apply list_elem_of_In|]. lia.
Qed.

(** [gaps]: the loop's output and its cursor describe the absent groups below
    the cursor; the final push completes them. *)
Lemma gaps_loop_spec lo rs c hi out :
  wf_from lo rs → wf_from 0 out → next_from 0 out <= c → c <= hi →
  let '(c', out') := gaps_loop rs c hi out in
  let res := if c' <? hi then out' ++ [(c', hi)] else out' in
  wf_from 0 res ∧ ∀ g, has res g ↔ has out g ∨ (c <= g < hi ∧ ¬ has rs g).
Proof.
  revert lo c out; induction rs as [|[s e] rs IH]; intros lo c out Hwf Ho Hn Hc.
  { simpl. destruct (c <? hi) eqn:E.
    - split; [apply wf_from_app; simpl; split_and!; auto; lia|].
      intros g. autorewrite with bits. intuition lia.
    - split; [done|]. intros g. autorewrite with bits. intuition lia. }
  destruct Hwf as (Hlo & Hse & Hwf).
  assert (∀ g, has rs g → e < g) as Q by (intros g Hg; apply (wf_from_has _ _ _ Hwf) in Hg; lia).
  cbn [gaps_loop]. destruct (e <=? c) eqn:E1.
  { specialize (IH (e + 1) c out Hwf Ho Hn Hc).
    destruct (gaps_loop rs c hi out) as [c' out']. destruct IH as [IH1 IH2]. split; [done|].
    intros g. rewrite IH2, has_cons. intuition lia. }
  destruct (hi <=? s) eqn:E2.
  { destruct (c <? hi) eqn:E.
    - split; [apply wf_from_app; simpl; split_and!; auto; lia|].
      intros g. rewrite has_app, !has_cons, has_nil. pose proof (Q g). intuition lia.
    - split; [done|]. intros g. rewrite has_cons. intuition lia. }
  set (out1 := if c <? s then out ++ [(c, Z.min s hi)] else out).
  assert (wf_from 0 out1 ∧ next_from 0 out1 <= Z.max c e ∧
    ∀ g, has out1 g ↔ has out g ∨ c <= g < s) as (Ho1 & Hn1 & Hm1).
  { unfold out1. destruct (c <? s) eqn:E.
    - rewrite wf_from_app, next_from_app. simpl. split_and!; auto; try lia.
      intros g. autorewrite with bits. intuition lia.
    - split_and!; auto; [lia|]. intros g. intuition lia. }
  destruct (hi <=? Z.max c e) eqn:E3.
  { replace (Z.max c e <? hi) with false by lia. split; [done|]. intros g.
    rewrite Hm1, has_cons. pose proof (Q g). intuition lia. }
  specialize (IH (e + 1) (Z.max c e) out1 Hwf Ho1 Hn1 ltac:(lia)).
  destruct (gaps_loop rs (Z.max c e) hi out1) as [c' out']. destruct IH as [IH1 IH2].
  split; [done|]. intros g. rewrite IH2, Hm1, has_cons. pose proof (Q g).
  destruct (Z.lt_ge_cases g s), (Z.lt_ge_cases g e); intuition lia.
Qed.

Lemma gaps_spec b r :
  wf b → 0 <= r.1 → r.1 <= r.2 →
  wf_from 0 (gaps b r) ∧ ∀ g, has (gaps b r) g ↔ in_range r g ∧ ¬ mem b g.
Proof.
  destruct b as [rs], r as [s e]. unfold wf, mem, gaps, in_range. simpl. intros Hwf Hs Hse.
  pose proof (gaps_loop_spec 0 rs s e [] Hwf I Hs Hse) as Hg.
  destruct (gaps_loop rs s e []) as [c' out']. destruct Hg as [Hg1 Hg2].
  split; [done|]. intros g. rewrite Hg2, has_nil. tauto.
Qed.

Lemma added_in_spec b other :
  wf other → wf (added_in b other) ∧ ∀ g, mem (added_in b other) g ↔ mem other g ∧ ¬ mem b g.
Proof.
  unfold added_in, mem at 2 3. intros Hwf. destruct b as [rs]. simpl.
  revert other Hwf. induction rs as [|r rs IH]; intros other Hwf; simpl.
  { split; [done|]. intros g. rewrite has_nil. tauto. }
  destruct (remove_spec other r Hwf) as [H1 H2]. destruct (IH _ H1) as [H3 H4].
  split; [done|]. intros g. rewrite H4. unfold mem in H2. rewrite H2. unfold mem.
  destruct r as [s e]. rewrite has_cons. unfold in_range. simpl. tauto.
Qed.

(** ** The wire form *)

(** What a wire run list denotes: the groups under its odd-numbered runs. *)
Fixpoint wire_has (wire : list Z) (cursor : Z) (present : bool) (g : Z) : Prop :=
  match wire with
  | [] => False
  | run :: wire =>
      (present = true ∧ cursor <= g < cursor + run) ∨ wire_has wire (cursor + run) (negb present) g
  end.

(** Everything [b] holds is below [n]. *)
Definition bounded (n : Z) (b : t) : Prop := Forall (λ r, r.2 <= n) (runs b).

Lemma from_wire_pairs lo c acc rs :
  0 <= c → c <= lo → Forall (λ r, r.2 < lo) acc → wf_from lo rs →
  Forall (λ r, r.2 <= MAX_GROUPS) rs →
  from_wire_loop (wire_pairs c rs) acc c false = Some (mk (acc ++ rs)).
Proof.
  assert (MAX_GROUPS < u64_max) as HM by done.
  revert lo c acc; induction rs as [|[s e] rs IH]; intros lo c acc H0 Hc Hacc Hwf Hb.
  { simpl. by rewrite app_nil_r. }
  destruct Hwf as (? & ? & Hwf). apply Forall_cons in Hb as [He Hb]. simpl in He.
  cbn [wire_pairs from_wire_loop negb andb].
  replace (c + (s - c)) with s by lia. replace (s + (e - s)) with e by lia.
  replace (u64_max <? s) with false by lia. replace (MAX_GROUPS <? s) with false by lia.
  replace (u64_max <? e) with false by lia. replace (MAX_GROUPS <? e) with false by lia.
  replace (0 <? e - s) with true by lia.
  rewrite bool_decide_eq_false_2.
  2:{ destruct (last acc) as [r|] eqn:El; simpl; [|done]. intros [= Hr].
      apply last_Some_elem_of in El. rewrite Forall_forall in Hacc. apply Hacc in El. lia. }
  rewrite (IH (e + 1)); try done; try lia.
  - by rewrite <- app_assoc.
  - apply Forall_app. split; [|repeat constructor; simpl; lia].
    eapply Forall_impl; [exact Hacc|]. simpl. lia.
Qed.

Lemma wire_pairs_length c rs : length (wire_pairs c rs) = (2 * length rs)%nat.
Proof. revert c; induction rs as [|[s e] rs IH]; intros c; [done|]. cbn [wire_pairs length]. rewrite IH. lia. Qed.

Lemma wire_roundtrip b :
  wf b → bounded MAX_GROUPS b → 2 * Z.of_nat (length (runs b)) + 1 <= MAX_WIRE_RUNS →
  from_wire (to_wire b) = Some b.
Proof.
  destruct b as [rs]. unfold wf, bounded. cbn [runs]. intros Hwf Hb Hlen.
  pose proof (wire_pairs_length 0 rs) as Hwl. unfold to_wire. cbn [runs].
  pose proof (from_wire_pairs 0 0 [] rs ltac:(lia) ltac:(lia) ltac:(constructor) Hwf Hb) as Hp.
  cbn [app] in Hp. destruct (wire_pairs 0 rs) as [|x out] eqn:E; [done|].
  cbn [length] in Hwl. unfold from_wire. destruct (x =? 0) eqn:Ex.
  - destruct (Z.ltb_spec MAX_WIRE_RUNS (Z.of_nat (length out))); [lia|]. rewrite <- Hp.
    apply Z.eqb_eq in Ex as ->. done.
  - cbn [length]. destruct (Z.ltb_spec MAX_WIRE_RUNS (Z.of_nat (S (S (length out))))); [lia|done].
Qed.

(** What the decoder keeps true of [(acc, cursor)]. *)
Definition wire_inv (acc : list range) (c : Z) : Prop :=
  wf_from 0 acc ∧ Forall (λ r, r.2 <= c) acc ∧ 0 <= c <= MAX_GROUPS.

Lemma wire_inv_push acc c run :
  wire_inv acc c → 0 < run → c + run <= MAX_GROUPS →
  let acc' := if bool_decide (option_map snd (last acc) = Some c)
              then set_last_end acc (c + run) else acc ++ [(c, c + run)] in
  wire_inv acc' (c + run) ∧ ∀ g, has acc' g ↔ has acc g ∨ c <= g < c + run.
Proof.
  intros (Hwf & Hle & Hc) Hr Hm.
  assert (Forall (λ r : range, r.2 <= c + run) acc) as Hle'.
  { eapply Forall_impl; [exact Hle|]. simpl. lia. }
  destruct (last acc) as [[s e]|] eqn:El; cbn [option_map snd].
  - apply last_Some in El as [l ->]. apply wf_from_app in Hwf as [Hl (Hs & Hse & _)].
    apply Forall_app in Hle as [Hle He], Hle' as [Hle' _].
    apply Forall_cons in He as [He _]. simpl in He.
    case_bool_decide as D.
    + injection D as ->. rewrite set_last_end_snoc. split; [split_and!|].
      * apply wf_from_app. simpl. split_and!; auto; lia.
      * apply Forall_app. split; [done|]. repeat constructor; simpl; lia.
      * lia.
      * lia.
      * intros g. autorewrite with bits. intuition lia.
    + assert (e ≠ c) by congruence. split; [split_and!|].
      * rewrite !wf_from_app, next_from_app. simpl. split_and!; auto; lia.
      * rewrite !Forall_app. split_and!; auto; repeat constructor; simpl; lia.
      * lia.
      * lia.
      * intros g. autorewrite with bits. intuition lia.
  - apply last_None in El as ->. rewrite bool_decide_eq_false_2 by done. simpl.
    split; [split_and!|]; simpl; try lia.
    + repeat constructor. simpl. lia.
    + intros g. autorewrite with bits. intuition lia.
Qed.

Lemma from_wire_loop_spec wire acc c p b :
  Forall is_u64 wire → wire_inv acc c → from_wire_loop wire acc c p = Some b →
  wf b ∧ bounded MAX_GROUPS b ∧ ∀ g, mem b g ↔ has acc g ∨ wire_has wire c p g.
Proof.
  revert acc c p; induction wire as [|run wire IH]; intros acc c p Hu Hinv; cbn [from_wire_loop].
  { intros [= <-]. destruct Hinv as (? & Hle & ?). unfold wf, bounded, mem. simpl.
    split_and!; [done| |intros; tauto]. eapply Forall_impl; [exact Hle|]. simpl. lia. }
  apply Forall_cons in Hu as [Hr Hu]. unfold is_u64 in Hr. cbn [wire_has].
  destruct (u64_max <? c + run) eqn:E1; [done|]. destruct (MAX_GROUPS <? c + run) eqn:E2; [done|].
  destruct (p && (0 <? run)) eqn:Ep; intros Hl.
  - apply andb_true_iff in Ep as [-> Hrun].
    destruct (wire_inv_push acc c run Hinv ltac:(lia) ltac:(lia)) as [Hi Hm].
    destruct (IH _ _ _ Hu Hi Hl) as (W & B & M). split_and!; auto.
    intros g. rewrite M, Hm. tauto.
  - assert (wire_inv acc (c + run)) as Hi.
    { destruct Hinv as (? & Hle & ?). split_and!; auto; try lia.
      eapply Forall_impl; [exact Hle|]. simpl. lia. }
    destruct (IH _ _ _ Hu Hi Hl) as (W & B & M). split_and!; auto.
    intros g. rewrite M. destruct p; simpl in Ep; [intuition lia|]. intuition congruence.
Qed.

Lemma from_wire_spec wire b :
  Forall is_u64 wire → from_wire wire = Some b →
  wf b ∧ bounded MAX_GROUPS b ∧ ∀ g, mem b g ↔ wire_has wire 0 true g.
Proof.
  intros Hu. unfold from_wire. destruct (_ <? _); [done|]. intros Hl.
  destruct (from_wire_loop_spec wire [] 0 true b Hu) as (W & B & M); [|done|].
  - repeat split; simpl; auto; by compute.
  - split_and!; auto. intros g. rewrite M, has_nil. tauto.
Qed.

(** ** Counting and geometry *)

Lemma count_spec b :
  wf b → ∃ l, NoDup l ∧ (∀ g, g ∈ l ↔ mem b g) ∧ Z.of_nat (length l) = count b.
Proof.
  destruct b as [rs]. unfold wf, mem, count. simpl. generalize 0 at 1.
  induction rs as [|[s e] rs IH]; intros lo Hwf.
  { exists []. split; [constructor|]. split; [|done]. intros g. rewrite has_nil. split; [apply not_elem_of_nil|done]. }
  destruct Hwf as (? & ? & Hwf). destruct (IH _ Hwf) as (l & Hnd & Hl & Hc).
  exists (seqZ s (e - s) ++ l). split_and!.
  - apply NoDup_app. split; [apply NoDup_seqZ|]. split; [|done].
    intros g [? ?]%elem_of_seqZ Hg%Hl. apply (wf_from_has _ _ _ Hwf) in Hg. lia.
  - intros g. rewrite elem_of_app, elem_of_seqZ, Hl, has_cons. intuition lia.
  - simpl. rewrite length_app, length_seqZ. lia.
Qed.

Lemma group_of_byte x g : g * GROUP_BYTES <= x < (g + 1) * GROUP_BYTES ↔ x / GROUP_BYTES = g.
Proof.
  unfold GROUP_BYTES. pose proof (Z.div_mod x 16384 ltac:(lia)).
  pose proof (Z.mod_pos_bound x 16384 ltac:(lia)). split; intros; nia.
Qed.

Lemma groups_for_bytes_spec r g :
  0 <= r.1 →
  in_range (groups_for_bytes r) g ↔ ∃ x, in_range r x ∧ x / GROUP_BYTES = g.
Proof.
  destruct r as [s e]. unfold groups_for_bytes, in_range, div_ceil. simpl. intros Hs.
  destruct (e <=? s) eqn:E; simpl; [split; [lia|intros (x & ? & _); lia]|].
  assert ((e + GROUP_BYTES - 1) / GROUP_BYTES = (e - 1) / GROUP_BYTES + 1) as ->.
  { replace (e + GROUP_BYTES - 1) with (e - 1 + 1 * GROUP_BYTES) by (unfold GROUP_BYTES; lia).
    by rewrite Z.div_add by (unfold GROUP_BYTES; lia). }
  split.
  - intros [H1 H2]. exists (Z.max s (g * GROUP_BYTES)). rewrite <- group_of_byte.
    pose proof (proj2 (group_of_byte s _) eq_refl).
    pose proof (proj2 (group_of_byte (e - 1) _) eq_refl).
    unfold GROUP_BYTES in *. nia.
  - intros (x & Hx & <-). split.
    + apply Z.div_le_mono; [by compute|lia].
    + apply Z.lt_succ_r, Z.div_le_mono; [by compute|lia].
Qed.

Section chunk_facts.
Context {CR : Type} (cr_empty : CR) (cr_of : range → CR) (cr_union : CR → CR → CR).
Context (cr_has : CR → Z → Prop).
Context (cr_empty_has : ∀ c, cr_has cr_empty c ↔ False).
Context (cr_of_has : ∀ r c, cr_has (cr_of r) c ↔ in_range r c).
Context (cr_union_has : ∀ x y c, cr_has (cr_union x y) c ↔ cr_has x c ∨ cr_has y c).

Lemma in_group_chunks s e c :
  s * CHUNKS_PER_GROUP <= c < e * CHUNKS_PER_GROUP ↔ s <= c / CHUNKS_PER_GROUP < e.
Proof.
  assert (CHUNKS_PER_GROUP = 16) as -> by done.
  pose proof (Z.div_mod c 16 ltac:(lia)). pose proof (Z.mod_pos_bound c 16 ltac:(lia)).
  split; intros; nia.
Qed.

Lemma to_chunk_ranges_has b c :
  cr_has (to_chunk_ranges cr_empty cr_of cr_union b) c ↔ mem b (c / CHUNKS_PER_GROUP).
Proof using cr_empty_has cr_of_has cr_union_has.
  destruct b as [rs]. unfold to_chunk_ranges, mem. simpl.
  transitivity (cr_has cr_empty c ∨ has rs (c / CHUNKS_PER_GROUP));
    [|rewrite cr_empty_has; tauto].
  generalize cr_empty. clear cr_empty_has. induction rs as [|[s e] rs IH]; intros out; simpl.
  { rewrite has_nil. tauto. }
  rewrite IH, cr_union_has, cr_of_has, has_cons. unfold in_range. simpl.
  rewrite in_group_chunks. tauto.
Qed.

Lemma to_chunk_ranges_clamped_has b size c :
  cr_has (to_chunk_ranges_clamped cr_empty cr_of cr_union b size) c ↔
  mem b (c / CHUNKS_PER_GROUP) ∧ c < div_ceil size CHUNK_BYTES.
Proof using cr_empty_has cr_of_has cr_union_has.
  destruct b as [rs]. unfold to_chunk_ranges_clamped, mem. simpl.
  transitivity (cr_has cr_empty c ∨ has rs (c / CHUNKS_PER_GROUP) ∧ c < div_ceil size CHUNK_BYTES);
    [|rewrite cr_empty_has; tauto].
  generalize cr_empty. clear cr_empty_has. induction rs as [|[s e] rs IH]; intros out; simpl.
  { rewrite has_nil. tauto. }
  rewrite IH, has_cons, <- in_group_chunks.
  destruct (_ <? _) eqn:E; [rewrite cr_union_has, cr_of_has; unfold in_range; simpl|]; intuition lia.
Qed.
End chunk_facts.

(** ** Headline theorems *)

(** [add] and [remove] keep a field well formed (sorted, non-empty,
    non-adjacent runs) and act on the set of groups as union and difference;
    [added_in] is the set difference a peer is told about. *)
Theorem update_correct b b' r :
  wf b → wf b' → 0 <= r.1 →
  wf (add b r) ∧ wf (remove b r) ∧ wf (added_in b b') ∧
  (∀ g, mem (add b r) g ↔ mem b g ∨ in_range r g) ∧
  (∀ g, mem (remove b r) g ↔ mem b g ∧ ¬ in_range r g) ∧
  (∀ g, mem (added_in b b') g ↔ mem b' g ∧ ¬ mem b g).
Proof.
  intros H1 H2 Hr. destruct (add_spec b r H1 Hr), (remove_spec b r H1), (added_in_spec b b' H2).
  tauto.
Qed.

(** Every query reads the set of groups: the binary search of [contains],
    the single-run test of [contains_all], completeness against an object
    size, [count] as a cardinality and [gaps] as the absent part of a window;
    two well-formed fields with the same groups are equal. *)
Theorem queries_correct b b' g r size :
  wf b → wf b' → 0 <= size → 0 <= r.1 <= r.2 →
  (contains b g = true ↔ mem b g) ∧
  (contains_all b r = true ↔ ∀ g, in_range r g → mem b g) ∧
  (is_complete b size = true ↔ group_count size = 0 ∨ ∀ g, mem b g ↔ 0 <= g < group_count size) ∧
  (∀ g, has (gaps b r) g ↔ in_range r g ∧ ¬ mem b g) ∧
  (∃ l, NoDup l ∧ (∀ g, g ∈ l ↔ mem b g) ∧ Z.of_nat (length l) = count b) ∧
  ((∀ g, mem b g ↔ mem b' g) → b = b').
Proof.
  intros W W' Hs [Hr1 Hr2]. split_and!.
  - by apply contains_spec.
  - by apply contains_all_spec.
  - rewrite is_complete_spec by done. destruct (complete_spec size Hs) as [Wc Hc]. split.
    + intros [Hz| ->]; auto.
    + intros [Hz|Heq]; auto. right. apply wf_canonical; auto. intros x. by rewrite Heq, Hc.
  - by apply gaps_spec.
  - by apply count_spec.
  - by apply wf_canonical.
Qed.

(** The wire form round-trips every well-formed field within the limits,
    and whatever the decoder accepts from a peer is well formed, stays below
    [MAX_GROUPS] and holds exactly the groups under the odd-numbered runs. *)
Theorem wire_correct b wire b' :
  wf b → bounded MAX_GROUPS b → 2 * Z.of_nat (length (runs b)) + 1 <= MAX_WIRE_RUNS →
  Forall is_u64 wire → from_wire wire = Some b' →
  from_wire (to_wire b) = Some b ∧
  wf b' ∧ bounded MAX_GROUPS b' ∧ (∀ g, mem b' g ↔ wire_has wire 0 true g).
Proof.
  intros. split; [by apply wire_roundtrip|by apply from_wire_spec].
Qed.

(** Byte ranges and chunk ranges agree with groups: a byte range needs
    exactly the groups its bytes fall in, and the (clamped) bao chunk ranges
    of a field are the chunks of its groups (below the object's last chunk). *)
Theorem geometry_correct {CR : Type} (e : CR) of_ un (in_cr : CR → Z → Prop) b r size c g :
  0 <= r.1 →
  (∀ c, in_cr e c ↔ False) → (∀ r c, in_cr (of_ r) c ↔ in_range r c) →
  (∀ x y c, in_cr (un x y) c ↔ in_cr x c ∨ in_cr y c) →
  (in_range (groups_for_bytes r) g ↔ ∃ x, in_range r x ∧ x / GROUP_BYTES = g) ∧
  (in_cr (to_chunk_ranges e of_ un b) c ↔ mem b (c / CHUNKS_PER_GROUP)) ∧
  (in_cr (to_chunk_ranges_clamped e of_ un b size) c ↔
     mem b (c / CHUNKS_PER_GROUP) ∧ c < div_ceil size CHUNK_BYTES).
Proof.
  intros. split_and!.
  - by apply groups_for_bytes_spec.
  - by apply to_chunk_ranges_has.
  - by apply to_chunk_ranges_clamped_has.
Qed.

Lemma update_correct_witness :
  wf (add (mk [(0, 4)]) (6, 8)) ∧
  (mem (add (mk [(0, 4)]) (6, 8)) 7 ↔ mem (mk [(0, 4)]) 7 ∨ in_range (6, 8) 7).
Proof.
  destruct (update_correct (mk [(0, 4)]) new (6, 8)) as (W & _ & _ & A & _).
  - by vm_compute.
  - by vm_compute.
  - by vm_compute.
  - split; [exact W|exact (A 7)].
Defined.

Lemma queries_correct_witness : contains (mk [(0, 4); (6, 8)]) 7 = true ↔ mem (mk [(0, 4); (6, 8)]) 7.
Proof.
  refine (proj1 (queries_correct (mk [(0, 4); (6, 8)]) new 7 (0, 9) 100 _ _ _ _)); by vm_compute.
Defined.

Lemma wire_correct_witness : from_wire (to_wire (mk [(2, 5); (7, 8)])) = Some (mk [(2, 5); (7, 8)]).
Proof.
  refine (proj1 (wire_correct (mk [(2, 5); (7, 8)]) [3; 0; 2] (mk [(0, 5)]) _ _ _ _ _)).
  - by vm_compute.
  - repeat constructor; by vm_compute.
  - by vm_compute.
  - repeat constructor; by vm_compute.
  - reflexivity.
Defined.

Lemma geometry_correct_witness :
  to_chunk_ranges_clamped (λ _ : Z, False) (λ r c, in_range r c) (λ x y c, x c ∨ y c)
    (mk [(0, 2)]) 20000 19 ↔ mem (mk [(0, 2)]) 1 ∧ 19 < 20.
Proof.
  refine (proj2 (proj2 (geometry_correct (λ _ : Z, False) (λ r c, in_range r c)
    (λ x y c, x c ∨ y c) (λ s c, s c) (mk [(0, 2)]) (0, 1) 20000 19 0 _ _ _ _))); try done.
Defined.
End GroupBits.
