(* ===== verification/Json.v ===== *)
(** * JSON values ([serde_json::Value] as the modelled code uses it)

    Objects are [BTreeMap]s (the workspace builds serde_json without
    [preserve_order]); a number is an integer of the [i64]/[u64] range or a
    float, kept as its 64 bits. *)
From S2P Require Import Prelude Ordered.
From Stdlib Require Import ZArith Lia.
From stdpp Require Import base list.
#[local] Open Scope Z_scope.

#[local] Unset Elimination Schemes.
Inductive json :=
  | JNull
  | JBool (b : bool)
  | JInt (z : Z)
  | JFloat (bits : Z)
  | JStr (s : bytes)
  | JArr (items : list json)
  | JObj (fields : list (bytes * json)).
#[local] Set Elimination Schemes.

Section json_ind.
Context (P : json → Prop).
Context (Hnull : P JNull) (Hbool : ∀ b, P (JBool b)) (Hint : ∀ z, P (JInt z))
  (Hfloat : ∀ f, P (JFloat f)) (Hstr : ∀ s, P (JStr s))
  (Harr : ∀ l, Forall P l → P (JArr l))
  (Hobj : ∀ m, Forall (λ p, P p.2) m → P (JObj m)).

Fixpoint json_ind (v : json) : P v :=
  match v with
  | JNull => Hnull
  | JBool b => Hbool b
  | JInt z => Hint z
  | JFloat f => Hfloat f
  | JStr s => Hstr s
  | JArr l => Harr l ((fix go l : Forall P l :=
      match l with
      | [] => @Forall_nil_2 _ _
      | v :: l => @Forall_cons_2 _ _ v l (json_ind v) (go l)
      end) l)
  | JObj m => Hobj m ((fix go m : Forall (λ p, P p.2) m :=
      match m with
      | [] => @Forall_nil_2 _ _
      | p :: m => @Forall_cons_2 _ (λ p, P p.2) p m (json_ind p.2) (go m)
      end) m)
  end.
End json_ind.

#[global] Instance json_eq_dec : EqDecision json.
Proof.
  refine (fix go v w : Decision (v = w) :=
    match v, w with
    | JNull, JNull => left eq_refl
    | JBool a, JBool b => cast_if (decide (a = b))
    | JInt a, JInt b => cast_if (decide (a = b))
    | JFloat a, JFloat b => cast_if (decide (a = b))
    | JStr a, JStr b => cast_if (decide (a = b))
    | JArr l, JArr k => cast_if (@list_eq_dec _ go l k)
    | JObj l, JObj k => cast_if (@list_eq_dec _ (@prod_eq_dec _ _ _ go) l k)
    | _, _ => right _
    end); clear go; abstract congruence.
Defined.

(** ** Accessors *)

Definition as_bool (v : json) : option bool := match v with JBool b => Some b | _ => None end.
Definition as_str (v : json) : option bytes := match v with JStr s => Some s | _ => None end.
Definition as_array (v : json) : option (list json) := match v with JArr l => Some l | _ => None end.
Definition as_object (v : json) : option (btree bytes json) := match v with JObj m => Some m | _ => None end.
Definition as_i64 (v : json) : option Z :=
  match v with JInt z => if (i64_min <=? z) && (z <=? i64_max) then Some z else None | _ => None end.
Definition as_u64 (v : json) : option Z :=
  match v with JInt z => if (0 <=? z) && (z <=? u64_max) then Some z else None | _ => None end.
(** [Value::get(&str)]: only objects have fields. *)
Definition jget (v : json) (k : bytes) : option json :=
  match v with JObj m => bt_get m k | _ => None end.

(** Fields [k] of [v] read at a type, as [v.get(k).and_then(as_..)]. *)
Definition get_str (v : json) (k : bytes) : option bytes := v' ← jget v k; as_str v'.
Definition get_i64 (v : json) (k : bytes) : option Z := v' ← jget v k; as_i64 v'.
Definition get_u64 (v : json) (k : bytes) : option Z := v' ← jget v k; as_u64 v'.
Definition get_bool (v : json) (k : bytes) : option bool := v' ← jget v k; as_bool v'.
Definition get_array (v : json) (k : bytes) : option (list json) := v' ← jget v k; as_array v'.
Definition get_object (v : json) (k : bytes) : option (btree bytes json) := v' ← jget v k; as_object v'.

(** ** Well-formed values: sorted keys and integers in range, at every depth *)

Inductive json_wf : json → Prop :=
  | wf_null : json_wf JNull
  | wf_bool b : json_wf (JBool b)
  | wf_int z : i64_min <= z <= u64_max → json_wf (JInt z)
  | wf_float f : json_wf (JFloat f)
  | wf_str s : json_wf (JStr s)
  | wf_arr l : Forall json_wf l → json_wf (JArr l)
  | wf_obj m : bt_wf m → Forall (λ p, json_wf p.2) m → json_wf (JObj m).

Lemma json_wf_remove m k : json_wf (JObj m) → json_wf (JObj (bt_remove k m)).
Proof.
  inversion 1 as [| | | | | |? Hm Hall]; subst. constructor; [by apply bt_remove_wf|].
  apply Forall_forall. intros p Hp%bt_remove_elem. rewrite Forall_forall in Hall. auto.
Qed.
