(* ===== verification/Canonical.v ===== *)
(** * Canonical JSON ([crates/epix-content/src/canonical.rs])

    [dumps_sorted] is the string every content signature covers. The main
    result is that it is injective on the values content files hold (sorted
    keys, UTF-8 strings, no floats), so a signature binds the whole value. *)
From S2P Require Import Prelude Ordered Json.
From Stdlib Require Import ZArith Lia Strings.Byte.
From stdpp Require Import base list strings.
#[local] Open Scope Z_scope.

(** ** [str::chars]: UTF-8 decoding into scalar values *)

Definition cont (b : byte) : Z := Z.land (byte_val b) 63.

Fixpoint chars (s : bytes) : list Z :=
  match s with
  | [] => []
  | b0 :: s1 =>
      let v := byte_val b0 in
      if v <? 128 then v :: chars s1
      else match s1 with
      | [] => []
      | b1 :: s2 =>
          if v <? 224 then (Z.land v 31 * 64 + cont b1) :: chars s2
          else match s2 with
          | [] => []
          | b2 :: s3 =>
              if v <? 240 then (Z.land v 15 * 4096 + cont b1 * 64 + cont b2) :: chars s3
              else match s3 with
              | [] => []
              | b3 :: s4 =>
                  (Z.land v 7 * 262144 + cont b1 * 4096 + cont b2 * 64 + cont b3) :: chars s4
              end
          end
      end
  end.

(** The UTF-8 encoding of a scalar value ([String::push]). *)
Definition utf8 (c : Z) : bytes :=
  if c <? 128 then [byte_of c]
  else if c <? 2048 then [byte_of (192 + c / 64); byte_of (128 + c mod 64)]
  else if c <? 65536 then
    [byte_of (224 + c / 4096); byte_of (128 + c / 64 mod 64); byte_of (128 + c mod 64)]
  else [byte_of (240 + c / 262144); byte_of (128 + c / 4096 mod 64);
        byte_of (128 + c / 64 mod 64); byte_of (128 + c mod 64)].

Definition is_scalar (c : Z) : bool :=
  ((0 <=? c) && (c <? 55296)) || ((57344 <=? c) && (c <? 1114112)).

(** The invariant of Rust's [str]: the bytes are the encoding of scalars. *)
Definition is_str (s : bytes) : bool :=
  bool_decide (flat_map utf8 (chars s) = s) && forallb is_scalar (chars s).

Example chars_ex : chars (flat_map utf8 [104; 233; 8364; 128512]) = [104; 233; 8364; 128512].
Proof. reflexivity. Qed.

Lemma is_str_chars s : is_str s = true →
  flat_map utf8 (chars s) = s ∧ Forall (λ c, is_scalar c = true) (chars s).
Proof.
  unfold is_str. rewrite andb_true_iff, bool_decide_eq_true, forallb_forall.
  intros [H1 H2]. split; [done|]. apply Forall_forall. intros c Hc. apply H2. by apply list_elem_of_In.
Qed.

Lemma is_str_inj s t : is_str s = true → is_str t = true → chars s = chars t → s = t.
Proof. intros [Hs _]%is_str_chars [Ht _]%is_str_chars Heq. congruence. Qed.

(** ** Escaping *)

Definition hex_digit (n : Z) : byte := byte_of (if n <? 10 then 48 + n else 87 + n).
Definition unhex (b : byte) : Z := if byte_val b <? 58 then byte_val b - 48 else byte_val b - 87.

(** [format!("{v:04x}")] for [v <= 0xffff]. *)
Definition hex4 (v : Z) : bytes :=
  [hex_digit (v / 4096 mod 16); hex_digit (v / 256 mod 16);
   hex_digit (v / 16 mod 16); hex_digit (v mod 16)].
Definition unhex4 (a b c d : byte) : Z :=
  unhex a * 4096 + unhex b * 256 + unhex c * 16 + unhex d.

Definition write_py_char (c : Z) : bytes :=
  if c =? 34 then bstr "\" ++ [x22]
  else if c =? 92 then bstr "\\"
  else if c =? 10 then bstr "\n"
  else if c =? 13 then bstr "\r"
  else if c =? 9 then bstr "\t"
  else if c =? 8 then bstr "\b"
  else if c =? 12 then bstr "\f"
  else if (c <? 32) || (126 <? c) then
    if 65535 <? c then
      let v := c - 65536 in
      let hi := 55296 + Z.shiftr v 10 in
      let lo := 56320 + Z.land v 1023 in
      bstr "\u" ++ hex4 hi ++ bstr "\u" ++ hex4 lo
    else bstr "\u" ++ hex4 c
  else utf8 c.

Definition write_py_string (s : bytes) : bytes :=
  [x22] ++ flat_map write_py_char (chars s) ++ [x22].

(** ** [write_value] *)

(** Items separated by [", "]. *)
Fixpoint join (l : list bytes) : bytes :=
  match l with
  | [] => []
  | x :: l => x ++ match l with [] => [] | _ => bstr ", " ++ join l end
  end.

Section dumps.
(** serde_json's float formatting, a third-party algorithm. *)
Context (float_to_string : Z → bytes).

Fixpoint write_value (v : json) : bytes :=
  match v with
  | JNull => bstr "null"
  | JBool true => bstr "true"
  | JBool false => bstr "false"
  | JInt n => dec n
  | JFloat f => float_to_string f
  | JStr s => write_py_string s
  | JArr items => bstr "[" ++ join (map write_value items) ++ bstr "]"
  | JObj m =>
      let entries := sort_by (λ p q, cmp p.1 q.1) (map (λ p, (p.1, write_value p.2)) m) in
      bstr "{" ++ join (map (λ p, write_py_string p.1 ++ bstr ": " ++ p.2) entries) ++ bstr "}"
  end.

Definition dumps_sorted (v : json) : bytes := write_value v.
End dumps.

Example dumps_ex :
  dumps_sorted (λ _, []) (JObj [(bstr "a", JArr [JInt 2; JNull]); (bstr "b", JStr [xc3; xa9; x0a])])
  = bstr "{" ++ [x22] ++ bstr "a" ++ [x22] ++ bstr ": [2, null], " ++ [x22] ++ bstr "b" ++ [x22] ++
    bstr ": " ++ [x22] ++ bstr "\u00e9\n" ++ [x22] ++ bstr "}".
Proof. reflexivity. Qed.

(** ** The escape of a character is a prefix code *)

Lemma unhex_digit n : 0 <= n < 16 → unhex (hex_digit n) = n.
Proof.
  intros Hn. unfold unhex, hex_digit. destruct (Z.ltb_spec n 10);
    rewrite byte_val_of, Z.mod_small by lia;
    match goal with |- context [?x <? 58] => destruct (Z.ltb_spec x 58) end; lia.
Qed.

Lemma unhex4_hex4 v : 0 <= v < 65536 →
  unhex4 (hex_digit (v / 4096 mod 16)) (hex_digit (v / 256 mod 16))
         (hex_digit (v / 16 mod 16)) (hex_digit (v mod 16)) = v.
Proof.
  intros Hv. unfold unhex4. rewrite !unhex_digit by (apply Z.mod_pos_bound; lia).
  pose proof (Z.div_mod v 16 ltac:(done)). pose proof (Z.div_mod (v / 16) 16 ltac:(done)).
  pose proof (Z.div_mod (v / 256) 16 ltac:(done)).
  assert (v / 16 / 16 = v / 256) by (by rewrite Z.div_div).
  assert (v / 256 / 16 = v / 4096) by (by rewrite Z.div_div).
  assert (v / 4096 mod 16 = v / 4096).
  { apply Z.mod_small. split; [apply Z.div_pos; lia|]. apply Z.div_lt_upper_bound; lia. }
  lia.
Qed.

(** Read one escaped character back; a bare quote ends the string. *)
Definition unescape (s : bytes) : option (Z * bytes) :=
  match s with
  | x22 :: _ => None
  | x5c :: x75 :: a :: b :: c :: d :: r =>
      let v := unhex4 a b c d in
      if (55296 <=? v) && (v <? 56320) then
        match r with
        | x5c :: x75 :: a :: b :: c :: d :: r =>
            Some (65536 + (v - 55296) * 1024 + (unhex4 a b c d - 56320), r)
        | _ => None
        end
      else Some (v, r)
  | x5c :: x22 :: r => Some (34, r)
  | x5c :: x5c :: r => Some (92, r)
  | x5c :: x6e :: r => Some (10, r)
  | x5c :: x72 :: r => Some (13, r)
  | x5c :: x74 :: r => Some (9, r)
  | x5c :: x62 :: r => Some (8, r)
  | x5c :: x66 :: r => Some (12, r)
  | b :: r => Some (byte_val b, r)
  | [] => None
  end.

Lemma unescape_plain b r : b ≠ x22 → b ≠ x5c → unescape (b :: r) = Some (byte_val b, r).
Proof. intros H1 H2. destruct b; done. Qed.

Lemma unescape_char c r : is_scalar c = true → unescape (write_py_char c ++ r) = Some (c, r).
Proof.
  intros Hc. unfold is_scalar in Hc. unfold write_py_char.
  repeat match goal with
  | |- context [c =? ?k] => destruct (Z.eqb_spec c k) as [->|]; [reflexivity|]
  end.
  destruct ((c <? 32) || (126 <? c)) eqn:E.
  - destruct (Z.ltb_spec 65535 c) as [Ha|Ha].
    + set (hi := 55296 + Z.shiftr (c - 65536) 10).
      set (lo := 56320 + Z.land (c - 65536) 1023).
      assert (Z.shiftr (c - 65536) 10 = (c - 65536) / 1024) as Hs by (by rewrite Z.shiftr_div_pow2).
      assert (Z.land (c - 65536) 1023 = (c - 65536) mod 1024) as Hl
        by (by rewrite (Z.land_ones _ 10)).
      pose proof (Z.div_mod (c - 65536) 1024 ltac:(lia)).
      pose proof (Z.mod_pos_bound (c - 65536) 1024 ltac:(lia)).
      assert (55296 <= hi < 56320) by lia. assert (56320 <= lo < 57344) by lia.
      unfold hex4. cbn -[unhex4 hex_digit Z.div Z.modulo]. rewrite !unhex4_hex4 by lia.
      replace ((55296 <=? hi) && (hi <? 56320)) with true by lia. do 2 f_equal. lia.
    + unfold hex4. cbn -[unhex4 hex_digit Z.div Z.modulo]. rewrite !unhex4_hex4 by lia.
      replace ((55296 <=? c) && (c <? 56320)) with false by lia. done.
  - assert (byte_val (byte_of c) = c) as Hb by (rewrite byte_val_of, Z.mod_small; lia).
    unfold utf8. replace (c <? 128) with true by lia. cbn [app].
    rewrite unescape_plain; [by rewrite Hb| |]; intros Hx; rewrite Hx in Hb; by compute in Hb.
Qed.

Lemma write_py_string_inj s t r1 r2 :
  is_str s = true → is_str t = true →
  write_py_string s ++ r1 = write_py_string t ++ r2 → s = t ∧ r1 = r2.
Proof.
  intros Hs Ht. unfold write_py_string. rewrite <- !app_assoc. intros [= Heq].
  cut (chars s = chars t ∧ r1 = r2).
  { intros [Hc ->]. split; [by apply is_str_inj|done]. }
  destruct (is_str_chars _ Hs) as [_ Fs], (is_str_chars _ Ht) as [_ Ft].
  revert Heq Fs Ft. generalize (chars s), (chars t). clear.
  induction l as [|c l IH]; intros [|d k] Heq Fs Ft; cbn [flat_map app] in Heq.
  - by injection Heq.
  - apply Forall_cons in Ft as [Hd _]. apply (f_equal unescape) in Heq.
    rewrite <- app_assoc, unescape_char in Heq by done. done.
  - apply Forall_cons in Fs as [Hd _]. apply (f_equal unescape) in Heq.
    rewrite <- app_assoc, unescape_char in Heq by done. done.
  - apply Forall_cons in Fs as [Hc Fs], Ft as [Hd Ft]. apply (f_equal unescape) in Heq.
    rewrite <- !app_assoc, !unescape_char in Heq by done. injection Heq as -> Heq.
    by destruct (IH _ Heq Fs Ft) as [-> ->].
Qed.

(** ** The dump is a prefix code on delimited contexts *)

(** What a content file may hold: no floats, and strings that are strings. *)
Fixpoint signable (v : json) : bool :=
  match v with
  | JFloat _ => false
  | JStr s => is_str s
  | JArr l => forallb signable l
  | JObj m => forallb (λ p, is_str p.1 && signable p.2) m
  | _ => true
  end.

(** A dumped value is followed by nothing, a comma or a closing bracket. *)
Definition delim (r : bytes) : Prop :=
  match r with [] => True | b :: _ => b = x2c ∨ b = x5d ∨ b = x7d end.

Lemma delim_no_digit r : delim r → no_digit r.
Proof. destruct r as [|b r]; simpl; [done|]. by intros [->|[->| ->]]. Qed.

(** The first byte of a dump tells the constructor. *)
Definition head_kind (b : byte) : Z :=
  if bool_decide (b = x6e) then 0
  else if bool_decide (b = x74) || bool_decide (b = x66) then 1
  else if is_digit b || bool_decide (b = x2d) then 2
  else if bool_decide (b = x22) then 4
  else if bool_decide (b = x5b) then 5
  else if bool_decide (b = x7b) then 6
  else 7.
Definition json_kind (v : json) : Z :=
  match v with
  | JNull => 0 | JBool _ => 1 | JInt _ => 2 | JFloat _ => 3
  | JStr _ => 4 | JArr _ => 5 | JObj _ => 6
  end.

Lemma forallb_Forall {A} (p : A → bool) l : forallb p l = true ↔ Forall (λ x, p x = true) l.
Proof. rewrite forallb_forall, Forall_forall. by setoid_rewrite list_elem_of_In. Qed.

Section separated.
Context {A : Type} (f : A → bytes) (Q : A → Prop) (cl : byte).
Context (Hcl : cl = x5d ∨ cl = x7d).
Context (Hhead : ∀ x, Q x → ∃ b t, f x = b :: t ∧ b ≠ cl).

Lemma join_inj l1 l2 r1 r2 :
  Forall (λ x, ∀ y s1 s2, Q y → delim s1 → delim s2 →
    f x ++ s1 = f y ++ s2 → x = y ∧ s1 = s2) l1 →
  Forall Q l1 → Forall Q l2 →
  join (map f l1) ++ cl :: r1 = join (map f l2) ++ cl :: r2 → l1 = l2 ∧ r1 = r2.
Proof using Hcl Hhead.
  intros Hinj. revert l2. induction Hinj as [|x l1 Hx Hinj IH]; intros l2 Q1 Q2 Heq.
  - destruct Q2 as [|y l2 Hy Q2]; [by injection Heq|]. exfalso. simpl in Heq.
    destruct (Hhead _ Hy) as (b & t & Hb & Hne). rewrite Hb in Heq. simpl in Heq. congruence.
  - apply Forall_cons in Q1 as [Hq Q1]. destruct Q2 as [|y l2 Hy Q2].
    { exfalso. simpl in Heq. destruct (Hhead _ Hq) as (b & t & Hb & Hne).
      rewrite Hb in Heq. simpl in Heq. congruence. }
    cbn [map join] in Heq. rewrite <- !app_assoc in Heq. apply Hx in Heq as [-> Heq]; [|done| |].
    + destruct l1 as [|x1 l1], l2 as [|y1 l2]; simpl in Heq.
      * by injection Heq as ->.
      * exfalso. destruct Hcl; subst cl; done.
      * exfalso. destruct Hcl; subst cl; done.
      * injection Heq as Heq. destruct (IH (y1 :: l2) Q1 Q2 Heq) as [-> ->]. done.
    + destruct l1; simpl; [|by left]. destruct Hcl; auto.
    + destruct l2; simpl; [|by left]. destruct Hcl; auto.
Qed.
End separated.

Section dumps_facts.
Context (float_to_string : Z → bytes).
Local Abbreviation dump := (write_value float_to_string).

(** On a well-formed object the explicit key sort changes nothing. *)
Lemma sort_entries_id m : bt_wf m →
  sort_by (λ p q : bytes * bytes, cmp p.1 q.1) (map (λ p, (p.1, dump p.2)) m)
  = map (λ p, (p.1, dump p.2)) m.
Proof.
  intros Hwf. apply sort_by_id. induction m as [|[k v] m IH]; [constructor|].
  apply bt_wf_cons in Hwf as [Hk Hwf]. cbn [map]. constructor; [by apply IH|].
  apply Forall_fmap. eapply Forall_impl; [exact Hk|]. intros p Hp. by apply olt_ole.
Qed.

Definition dump_entry (p : bytes * json) : bytes :=
  write_py_string p.1 ++ bstr ": " ++ dump p.2.

Lemma dump_obj m : bt_wf m →
  dump (JObj m) = bstr "{" ++ join (map dump_entry m) ++ bstr "}".
Proof. intros Hwf. cbn [write_value]. rewrite sort_entries_id by done. by rewrite map_map. Qed.

Lemma dump_head v : signable v = true → ∃ b t, dump v = b :: t ∧ head_kind b = json_kind v.
Proof.
  destruct v as [| [] |z|f|s|l|m]; intros Hs; try done; try (eexists _, _; split; [reflexivity|done]).
  cbn [write_value]. destruct (dec_head z) as (b & l & -> & Hb). exists b, l. split; [done|].
  destruct Hb as [Hb| ->]; [|done]. destruct b; done.
Qed.

Lemma dump_inj v1 : ∀ v2 r1 r2,
  json_wf v1 → json_wf v2 → signable v1 = true → signable v2 = true →
  delim r1 → delim r2 → dump v1 ++ r1 = dump v2 ++ r2 → v1 = v2 ∧ r1 = r2.
Proof.
  induction v1 as [| b | z | f | s | l IH | m IH] using json_ind;
    intros v2 r1 r2 W1 W2 S1 S2 D1 D2 Heq.
  all: match type of Heq with dump ?a ++ _ = _ =>
    destruct (dump_head a S1) as (h1 & t1 & E1 & K1);
    destruct (dump_head v2 S2) as (h2 & t2 & E2 & K2);
    assert (json_kind a = json_kind v2) as HK;
    [rewrite <- K1, <- K2; rewrite E1, E2 in Heq; injection Heq; intros; congruence|];
    clear h1 t1 E1 K1 h2 t2 E2 K2; destruct v2; try done; clear HK end.
  - by apply app_inv_head in Heq as ->.
  - destruct b, b0; simpl in Heq; try done; injection Heq as ->; done.
  - cbn [write_value] in Heq. apply dec_inj in Heq as [-> ->]; auto using delim_no_digit.
  - cbn [write_value] in Heq. apply write_py_string_inj in Heq as [-> ->]; auto.
  - cbn [write_value] in Heq. rewrite <- !app_assoc in Heq. injection Heq as Heq.
    inversion W1 as [| | | | |? Wl|]; inversion W2 as [| | | | |? Wl'|]; subst.
    cbn [signable] in S1, S2. apply forallb_Forall in S1, S2.
    apply (join_inj dump (λ v, json_wf v ∧ signable v = true) x5d) in Heq as [-> ->]; auto.
    + intros x [_ Hx]. destruct (dump_head x Hx) as (b & t & Hb & Hk). exists b, t.
      split; [done|]. intros ->. destruct x; done.
    + rewrite Forall_forall in IH, Wl, S1 |- *. intros x Hx y s1 s2 [??]. auto.
    + apply Forall_and. auto.
    + apply Forall_and. auto.
  - inversion W1 as [| | | | | |? Wm Wl]; inversion W2 as [| | | | | |? Wm' Wl']; subst.
    rewrite !dump_obj in Heq by done.
    rewrite <- !app_assoc in Heq. injection Heq as Heq.
    cbn [signable] in S1, S2. apply forallb_Forall in S1, S2.
    apply (join_inj dump_entry
      (λ p, json_wf p.2 ∧ is_str p.1 && signable p.2 = true) x7d) in Heq as [-> ->]; auto.
    + intros [k v] _. eexists x22, _. split; [reflexivity|done].
    + rewrite Forall_forall in IH, Wl, S1 |- *. intros [k v] Hx [k' v'] s1 s2 [Hw Hq] Hd1 Hd2.
      specialize (IH _ Hx). specialize (Wl _ Hx). specialize (S1 _ Hx). cbn [fst snd] in *.
      apply andb_true_iff in S1 as [? ?], Hq as [? ?]. unfold dump_entry. cbn [fst snd].
      rewrite <- !app_assoc. intros E%write_py_string_inj; auto. destruct E as [-> E].
      injection E as E. by apply IH in E as [-> ->].
    + apply Forall_and. auto.
    + apply Forall_and. auto.
Qed.

Lemma dumps_sorted_inj v1 v2 :
  json_wf v1 → json_wf v2 → signable v1 = true → signable v2 = true →
  dumps_sorted float_to_string v1 = dumps_sorted float_to_string v2 → v1 = v2.
Proof.
  unfold dumps_sorted. intros W1 W2 S1 S2 Heq.
  apply (dump_inj v1 v2 [] []); auto; [done|done|]. by rewrite !app_nil_r.
Qed.
End dumps_facts.
