(* ===== verification/Crypt.v ===== *)
(** * Keys, signatures and ECIES ([crates/epix-crypt])

    The cryptographic primitives (curve, hashes, AES, text codecs) are crates
    outside the repository; they enter as the operations of the class
    [Crypto].  What is modelled is what the repository itself writes: the
    signed-message framing, the recoverable-signature layout, WIF, child
    derivation, and the ECIES wire blob with its slicing. *)
From S2P Require Import Prelude.
From Stdlib Require Import ZArith Lia Strings.Byte.
From stdpp Require Import base list strings.
#[local] Open Scope Z_scope.

(** Errors are strings, as in the source. *)
Abbreviation res := (result bytes).

Class Crypto := {
  scalar : Type;
  point : Type;
  scalar_reduce : bytes → scalar;          (* [Scalar::reduce] of a [U256] *)
  scalar_add : scalar → scalar → scalar;
  scalar_bytes : scalar → bytes;           (* [to_bytes], 32 big-endian *)
  mul_base : scalar → point;               (* [GENERATOR * s] *)
  mul : scalar → point → point;
  sec1 : bool → point → bytes;             (* [to_sec1_point(compress)] *)
  from_sec1 : bytes → res point;
  point_x : point → option bytes;
  sha256 : bytes → bytes;
  sha512 : bytes → bytes;
  keccak256 : bytes → bytes;
  hmac_sha256 : bytes → bytes → bytes;     (* key, message *)
  hmac_sha512 : bytes → bytes → bytes;
  aes_cbc_encrypt : bytes → bytes → bytes → res bytes;  (* data, key, iv *)
  aes_cbc_decrypt : bytes → bytes → bytes → res bytes;
  base64_encode : bytes → bytes;
  base64_decode : bytes → res bytes;
  hex_decode : bytes → res bytes;
  bs58_check_encode : bytes → bytes;
  bs58_check_decode : bytes → res bytes;
  bech32_encode : bytes → bytes → res bytes; (* hrp, payload *)
  bech32_decode : bytes → res (bytes * bytes);
  signing_key : bytes → res scalar;        (* [SigningKey::from_slice] *)
  sign_prehash : scalar → bytes → Z * bytes;  (* recovery id, r ‖ s *)
  parse_sig : bytes → res bytes;           (* [Signature::from_slice] *)
  recover_prehash : bytes → bytes → Z → res point
}.

Section crypt.
Context `{Crypto}.

Definition EPIX_HRP : bytes := bstr "epix".

(** ** Addresses and keys *)

Definition compressed_pubkey (s : scalar) : bytes := sec1 true (mul_base s).
Definition uncompressed_pubkey (s : scalar) : bytes := sec1 false (mul_base s).

Definition public_key_to_address (public_key : bytes) : res bytes :=
  xy ← (if (length public_key =? 65)%nat && bool_decide (head public_key = Some x04)
        then Ok (tail public_key)
        else if (length public_key =? 64)%nat then Ok public_key
        else Err (bstr "invalid public key length " ++ dec (blen public_key)));
  let full := keccak256 xy in
  let addr20 := skipn (length full - 20) full in
  map_err (λ e, bstr "bech32: " ++ e) (bech32_encode EPIX_HRP addr20).

Definition pubkey_to_address (pubkey : bytes) : res bytes :=
  pk ← from_sec1 pubkey; public_key_to_address (sec1 false pk).

Definition private_to_wif (priv32 : bytes) : bytes := bs58_check_encode (x80 :: priv32).

Definition wif_to_private (wif : bytes) : res bytes :=
  d ← map_err (λ e, bstr "base58check: " ++ e) (bs58_check_decode wif);
  if negb (bool_decide (head d = Some x80)) then
    Err (bstr "Invalid network (expected mainnet 0x80)")
  else if negb (length d =? 33)%nat then
    Err (bstr "unexpected wif payload len " ++ dec (blen d))
  else Ok (tail d).

Definition priv_bytes (privatekey : bytes) : res bytes :=
  if (length privatekey =? 64)%nat
  then map_err (λ e, bstr "priv hex: " ++ e) (hex_decode privatekey)
  else wif_to_private privatekey.

Definition priv_to_scalar (privatekey : bytes) : res scalar :=
  b ← priv_bytes privatekey; Ok (scalar_reduce b).

Definition private_to_compressed_pubkey (privatekey : bytes) : res bytes :=
  s ← priv_to_scalar privatekey; Ok (compressed_pubkey s).

Definition privatekey_to_address (privatekey : bytes) : res bytes :=
  s ← priv_to_scalar privatekey; public_key_to_address (uncompressed_pubkey s).

(** [derive_child]; [h[..32]] and [h[32..]] split a 64-byte HMAC. *)
Definition derive_child (seed : bytes) (child : Z) : bytes :=
  let h := hmac_sha512 (bstr "Bitcoin seed") seed in
  let s1 := scalar_reduce (firstn 32 h) in
  let pub1 := compressed_pubkey s1 in
  let chain := skipn 32 h in
  let h2 := hmac_sha512 chain (pub1 ++ be_bytes 4 child) in
  let s2 := scalar_reduce (firstn 32 h2) in
  scalar_bytes (scalar_add s1 s2).

Definition hd_privatekey (seed_hex : bytes) (child : Z) : res bytes :=
  seed ← map_err (λ e, bstr "seed hex: " ++ e) (hex_decode seed_hex);
  Ok (private_to_wif (derive_child seed (child mod 100000000))).

(** ** Signatures *)

Definition bitcoin_varint (n : Z) : bytes :=
  if n <? 253 then [byte_of n]
  else if n <? 65536 then xfd :: le_bytes 2 n
  else if n <? 4294967296 then xfe :: le_bytes 4 n
  else xff :: le_bytes 8 n.

Definition MAGIC : bytes := x18 :: bstr "Bitcoin Signed Message:" ++ [x0a].

(** What [digest_dbl] hashes. *)
Definition dbl_message (data : bytes) : bytes := MAGIC ++ bitcoin_varint (blen data) ++ data.

Definition digest_dbl (data : bytes) : bytes := sha256 (sha256 (dbl_message data)).
Definition digest_keccak (data : bytes) : bytes := keccak256 data.

Definition sign_digest (digest privatekey : bytes) : res bytes :=
  b ← priv_bytes privatekey;
  sk ← map_err (λ e, bstr "signingkey: " ++ e) (signing_key b);
  let '(recid, sig) := sign_prehash sk digest in
  Ok (base64_encode (byte_of (27 + recid) :: sig)).

Definition sign (data privatekey : bytes) : res bytes := sign_digest (digest_dbl data) privatekey.
Definition sign_keccak (data privatekey : bytes) : res bytes :=
  sign_digest (digest_keccak data) privatekey.

(** [RecoveryId::from_byte]: the k256 crate accepts the ids below 4. *)
Definition recovery_id (recid : Z) : res Z :=
  if recid <? 4 then Ok recid else Err (bstr "bad recovery id").

Definition recover_address (digest sig_b64 : bytes) : res bytes :=
  raw ← map_err (λ e, bstr "b64: " ++ e) (base64_decode sig_b64);
  match raw with
  | b0 :: rs =>
      if negb (length raw =? 65)%nat then
        Err (bstr "expected 65-byte recoverable sig, got " ++ dec (blen raw))
      else
        let recid := (byte_val b0 - 27) mod 256 in
        let recid := if 4 <=? recid then recid - 4 else recid in
        rid ← recovery_id recid;
        signature ← map_err (λ e, bstr "sig parse: " ++ e) (parse_sig rs);
        vk ← map_err (λ e, bstr "recover: " ++ e) (recover_prehash digest signature rid);
        public_key_to_address (sec1 false vk)
  | [] => Err (bstr "expected 65-byte recoverable sig, got 0")
  end.

Definition get_sign_address_64 (data sig : bytes) : res bytes := recover_address (digest_dbl data) sig.
Definition get_sign_address_keccak (data sig : bytes) : res bytes :=
  recover_address (digest_keccak data) sig.

Definition verify (data address sig : bytes) : bool :=
  match get_sign_address_64 data sig with Ok a => bool_decide (a = address) | Err _ => false end.
Definition verify_keccak (data address sig : bytes) : bool :=
  match get_sign_address_keccak data sig with Ok a => bool_decide (a = address) | Err _ => false end.

Definition address_to_hash160 (addr : bytes) : res bytes :=
  p ← map_err (λ e, bstr "bech32: " ++ e) (bech32_decode addr);
  if negb (bool_decide (p.1 = EPIX_HRP)) then Err (bstr "not an epix bech32 address")
  else if (length p.2 =? 20)%nat then Ok p.2 else Err (bstr "address payload not 20 bytes").

Definition is_valid_address (addr : bytes) : bool := is_ok (address_to_hash160 addr).

(** ** ECIES

    [None] is a panic: an out-of-range slice or index. Fresh randomness is
    an argument. *)

Definition NID_SECP256K1 : Z := 714.

Definition ecdh (s : scalar) (pubkey : bytes) : res bytes :=
  pk ← map_err (λ e, bstr "bad public key: " ++ e) (from_sec1 pubkey);
  ok_or (point_x (mul s pk)) (bstr "shared point at infinity").

Definition encode_pubkey (uncompressed : bytes) : option bytes :=
  x ← slice uncompressed 1 33;
  y ← slice uncompressed 33 65;
  Some (be_bytes 2 NID_SECP256K1 ++ be_bytes 2 (blen x) ++ x ++ be_bytes 2 (blen y) ++ y).

Definition ecies_encrypt (rand32 rand16 : bytes) (data pubkey : bytes) : option (res (bytes * bytes)) :=
  let ephemeral := scalar_reduce rand32 in
  match ecdh ephemeral pubkey with
  | Err e => Some (Err e)
  | Ok shared_x =>
      let key := sha512 shared_x in
      let k_enc := firstn 32 key in
      let k_mac := skipn 32 key in
      let iv := rand16 in
      match aes_cbc_encrypt data k_enc iv with
      | Err e => Some (Err e)
      | Ok ciphertext =>
          ephem_pub ← encode_pubkey (uncompressed_pubkey ephemeral);
          let blob := iv ++ ephem_pub ++ ciphertext in
          Some (Ok (blob ++ hmac_sha256 k_mac blob, k_enc))
      end
  end.

Definition u16_be (l : bytes) (i : Z) : option Z :=
  a ← index l i; b ← index l (i + 1); Some (be_val [a; b]).

Definition ecies_decrypt (blob privatekey : bytes) : option (res bytes) :=
  if blen blob <? 16 + 6 + 32 then Some (Err (bstr "ciphertext too short")) else
  match priv_to_scalar privatekey with
  | Err e => Some (Err e)
  | Ok s =>
      iv ← slice blob 0 16;
      region ← slice blob 16 (blen blob);
      nid ← u16_be region 0;
      if negb (nid =? NID_SECP256K1) then Some (Err (bstr "wrong curve")) else
      xlen ← u16_be region 2;
      x ← slice region 4 (4 + xlen);
      ylen ← u16_be region (4 + xlen);
      y ← slice region (6 + xlen) (6 + xlen + ylen);
      let pubkey_len := 6 + xlen + ylen in
      ciphertext ← slice blob (16 + pubkey_len) (blen blob - 32);
      tag ← slice blob (blen blob - 32) (blen blob);
      match ecdh s (x04 :: x ++ y) with
      | Err e => Some (Err e)
      | Ok shared_x =>
          let key := sha512 shared_x in
          let k_enc := firstn 32 key in
          let k_mac := skipn 32 key in
          body ← slice blob 0 (blen blob - 32);
          if bool_decide (hmac_sha256 k_mac body = tag)
          then Some (aes_cbc_decrypt ciphertext k_enc iv)
          else Some (Err (bstr "MAC verification failed"))
      end
  end.
End crypt.

(** ** What is relied on from the primitives *)

Class CryptoLaws `{C : Crypto} := {
  base64_law x : base64_decode (base64_encode x) = Ok x;
  bs58_law x : bs58_check_decode (bs58_check_encode x) = Ok x;
  (** Signing yields a parsable 64-byte signature from which the signer's
      public point is recovered. *)
  signing_law b sk d : signing_key b = Ok sk →
    let '(recid, rs) := sign_prehash sk d in
    0 <= recid < 4 ∧ length rs = 64%nat ∧ parse_sig rs = Ok rs ∧
    recover_prehash d rs recid = Ok (mul_base (scalar_reduce b));
  (** Diffie-Hellman: both sides compute the same point. *)
  ecdh_law a b : mul a (mul_base b) = mul b (mul_base a);
  (** An uncompressed encoding of 65 bytes (any point but infinity) starts
      with 04 and decodes to its point. *)
  sec1_law s : length (uncompressed_pubkey s) = 65%nat →
    head (uncompressed_pubkey s) = Some x04 ∧
    from_sec1 (uncompressed_pubkey s) = Ok (mul_base s);
  aes_law d k iv : length k = 32%nat → length iv = 16%nat →
    ∃ c, aes_cbc_encrypt d k iv = Ok c ∧ aes_cbc_decrypt c k iv = Ok d;
  sha512_length x : length (sha512 x) = 64%nat;
  hmac_length k x : length (hmac_sha256 k x) = 32%nat
}.

(** ** Message framing *)

Lemma varint_split n m r1 r2 :
  is_u64 n → is_u64 m → bitcoin_varint n ++ r1 = bitcoin_varint m ++ r2 → n = m ∧ r1 = r2.
Proof.
  unfold is_u64, u64_max, bitcoin_varint. intros Hn Hm.
  assert (∀ k x y a b, 0 <= x < 256 ^ Z.of_nat k → 0 <= y < 256 ^ Z.of_nat k →
    le_bytes k x ++ a = le_bytes k y ++ b → x = y ∧ a = b) as Hle.
  { intros k x y a b Hx Hy Heq. apply app_inj_length in Heq as [Hq ->]; [|by rewrite !length_le_bytes].
    split; [|done]. by rewrite <- (le_roundtrip k x), <- (le_roundtrip k y), Hq. }
  assert (∀ x b, 0 <= x < 256 → byte_of x = b → x = byte_val b) as Hb.
  { intros x b Hx <-. by rewrite byte_val_of, Z.mod_small. }
  repeat match goal with |- context [?x <? ?y] => destruct (Z.ltb_spec x y) end;
    cbn [app]; intros Heq; try discriminate Heq;
    try (exfalso; injection Heq; intros _ E;
         first [apply Hb in E; [|lia]; compute in E; lia
               |symmetry in E; apply Hb in E; [|lia]; compute in E; lia]);
    try (apply (f_equal tail) in Heq; cbn [tail] in Heq; apply Hle in Heq; [done|simpl; lia..]).
  injection Heq as Heq ->. apply Hb in Heq; [|lia].
  rewrite byte_val_of, Z.mod_small in Heq by lia. done.
Qed.

Lemma dbl_message_split d1 d2 r1 r2 :
  is_u64 (blen d1) → is_u64 (blen d2) →
  dbl_message d1 ++ r1 = dbl_message d2 ++ r2 → d1 = d2 ∧ r1 = r2.
Proof.
  unfold dbl_message. rewrite <- !app_assoc. intros H1 H2 Heq%app_inv_head.
  apply varint_split in Heq as [Hl Heq]; [|done|done].
  apply app_inj_length in Heq; [done|]. unfold blen in Hl. lia.
Qed.

Section crypt_facts.
Context `{C : Crypto} {L : CryptoLaws}.

Lemma wif_roundtrip p : length p = 32%nat → wif_to_private (private_to_wif p) = Ok p.
Proof using L.
  intros Hp. unfold wif_to_private, private_to_wif. rewrite bs58_law. cbn [map_err mbind result_bind].
  rewrite bool_decide_eq_true_2 by done. cbn [negb length]. by rewrite Hp.
Qed.

Lemma wif_to_private_length w p : wif_to_private w = Ok p → length p = 32%nat.
Proof.
  unfold wif_to_private. destruct (bs58_check_decode w) as [d|e]; [|done]. cbn.
  destruct (bool_decide _); [|done]. destruct (Nat.eqb_spec (length d) 33) as [Hd|]; [|done].
  cbn. intros [= <-]. destruct d; simpl in *; lia.
Qed.

(** Signing then recovering over any digest gives the signer's address. *)
Lemma recover_sign_digest d pk sig :
  sign_digest d pk = Ok sig → recover_address d sig = privatekey_to_address pk.
Proof using L.
  unfold sign_digest, privatekey_to_address, priv_to_scalar.
  destruct (priv_bytes pk) as [b|]; [|done]. cbn.
  destruct (signing_key b) as [sk|] eqn:Hk; [|done]. cbn.
  pose proof (signing_law b sk d Hk) as Hlaw. destruct (sign_prehash sk d) as [recid rs].
  destruct Hlaw as (Hid & Hlen & Hparse & Hrec). intros [= <-].
  unfold recover_address. rewrite base64_law. cbn [map_err mbind result_bind length].
  rewrite Hlen. cbn [Nat.eqb negb]. rewrite byte_val_of, (Z.mod_small (27 + recid)) by lia.
  replace ((27 + recid - 27) mod 256) with recid by (rewrite Z.mod_small; lia).
  replace (4 <=? recid) with false by lia. unfold recovery_id.
  replace (recid <? 4) with true by lia. cbn [mbind result_bind].
  rewrite Hparse. cbn. rewrite Hrec. done.
Qed.
End crypt_facts.

(** ** ECIES *)

Section ecies_facts.
Context `{C : Crypto} {L : CryptoLaws}.

(** The layout of an encoded ephemeral key: the two coordinates, framed. *)
Lemma encode_pubkey_layout s : length (uncompressed_pubkey s) = 65%nat →
  ∃ x y, uncompressed_pubkey s = x04 :: x ++ y ∧ length x = 32%nat ∧ length y = 32%nat ∧
    encode_pubkey (uncompressed_pubkey s) =
      Some ([x02; xca] ++ [x00; x20] ++ x ++ [x00; x20] ++ y).
Proof using L.
  intros Hl. destruct (sec1_law s Hl) as [Hh _].
  destruct (uncompressed_pubkey s) as [|b p]; [done|]. injection Hh as ->.
  assert (∃ x y, p = x ++ y ∧ length x = 32%nat ∧ length y = 32%nat) as (x & y & -> & Hx & Hy).
  { exists (firstn 32 p), (skipn 32 p). rewrite firstn_skipn, length_firstn, length_skipn.
    simpl in Hl. split_and!; [done|lia|lia]. }
  exists x, y. split_and!; auto. unfold encode_pubkey.
  change (x04 :: x ++ y) with ([x04] ++ x ++ y).
  rewrite (slice_app [x04] x y 1 33) by (unfold blen; simpl; lia).
  replace ([x04] ++ x ++ y) with (([x04] ++ x) ++ y ++ []) by (by rewrite app_nil_r, <- app_assoc).
  rewrite (slice_app ([x04] ++ x) y [] 33 65) by (unfold blen; simpl; lia).
  cbn [mbind option_bind]. unfold blen. rewrite Hx, Hy. done.
Qed.

(** [ecies_decrypt] on a well-framed blob: every slice is in range, and the
    outcome is decided by the key agreement and the MAC. *)
Lemma ecies_decrypt_framed pk s iv x y ct tag :
  priv_to_scalar pk = Ok s →
  length iv = 16%nat → length x = 32%nat → length y = 32%nat → length tag = 32%nat →
  let body := iv ++ [x02; xca] ++ [x00; x20] ++ x ++ [x00; x20] ++ y ++ ct in
  ecies_decrypt (body ++ tag) pk =
  Some (sh ← ecdh s (x04 :: x ++ y);
        if bool_decide (hmac_sha256 (skipn 32 (sha512 sh)) body = tag)
        then aes_cbc_decrypt ct (firstn 32 (sha512 sh)) iv
        else Err (bstr "MAC verification failed")).
Proof.
  intros Hpk Hiv Hx Hy Ht body. unfold ecies_decrypt.
  assert (blen (body ++ tag) = blen ct + 118) as Hlen.
  { unfold body, blen. rewrite !length_app. cbn [length]. lia. }
  destruct (Z.ltb_spec (blen (body ++ tag)) (16 + 6 + 32)); [unfold blen in *; lia|].
  rewrite Hpk, Hlen. set (region := [x02; xca] ++ [x00; x20] ++ x ++ [x00; x20] ++ y ++ ct ++ tag).
  assert (body ++ tag = iv ++ region) as Hbody by (unfold body, region; by rewrite <- !app_assoc).
  rewrite Hbody.
  assert (slice (iv ++ region) 0 16 = Some iv) as -> by (apply (slice_app []); unfold blen; simpl; lia).
  cbn [mbind option_bind].
  assert (slice (iv ++ region) 16 (blen ct + 118) = Some region) as ->.
  { rewrite <- (app_nil_r region) at 1. rewrite Hbody in Hlen.
    apply slice_app; unfold blen in *; rewrite ?length_app in Hlen; lia. }
  cbn [mbind option_bind].
  change (u16_be region 0) with (Some 714). change (u16_be region 2) with (Some 32).
  cbn [mbind option_bind Z.eqb negb NID_SECP256K1]. unfold NID_SECP256K1. cbn [Z.eqb Pos.eqb negb].
  assert (slice region 4 (4 + 32) = Some x) as ->.
  { unfold region. rewrite (app_assoc [x02; xca]). apply slice_app; unfold blen; simpl; lia. }
  cbn [mbind option_bind].
  assert (u16_be region (4 + 32) = Some 32) as ->.
  { unfold u16_be, region. rewrite (app_assoc [x02; xca]), (app_assoc _ x).
    set (a := ([x02; xca] ++ [x00; x20]) ++ x).
    assert (blen a = 36) as Ha by (unfold a, blen; rewrite !length_app; simpl; lia).
    assert (index (a ++ [x00; x20] ++ y ++ ct ++ tag) (4 + 32) = Some x00) as ->
      by (apply index_app; lia).
    assert (index (a ++ [x00; x20] ++ y ++ ct ++ tag) (4 + 32 + 1) = Some x20) as ->; [|done].
    change ([x00; x20] ++ ?z) with ([x00] ++ [x20] ++ z). rewrite app_assoc.
    apply index_app. unfold blen in *. rewrite length_app. simpl. lia. }
  cbn [mbind option_bind].
  assert (slice region (6 + 32) (6 + 32 + 32) = Some y) as ->.
  { unfold region. rewrite (app_assoc [x02; xca]), (app_assoc _ x), (app_assoc _ [x00; x20]).
    apply slice_app; unfold blen; rewrite !length_app; simpl; lia. }
  cbn [mbind option_bind].
  assert (slice (iv ++ region) (16 + (6 + 32 + 32)) (blen ct + 118 - 32) = Some ct) as ->.
  { unfold region. rewrite (app_assoc iv), (app_assoc _ [x00; x20]), (app_assoc _ x),
      (app_assoc _ [x00; x20]), (app_assoc _ y).
    apply slice_app; unfold blen; rewrite !length_app; simpl; lia. }
  cbn [mbind option_bind]. rewrite <- Hbody.
  assert (slice (body ++ tag) (blen ct + 118 - 32) (blen ct + 118) = Some tag) as ->.
  { rewrite <- (app_nil_r tag) at 1.
    apply slice_app; unfold blen in *; rewrite length_app in Hlen; lia. }
  cbn [mbind option_bind]. destruct (ecdh s (x04 :: x ++ y)) as [sh|e]; [|done].
  cbn [mbind result_bind].
  assert (slice (body ++ tag) 0 (blen ct + 118 - 32) = Some body) as ->.
  { apply (slice_app [] body tag); unfold blen in *; simpl; rewrite length_app in Hlen; lia. }
  cbn [mbind option_bind]. by case_bool_decide.
Qed.
End ecies_facts.

(** ** Headline theorems *)

(** What is signed is framed unambiguously: the Bitcoin-style message of
    one payload is never a prefix of another's, so the double hash commits to
    the payload and its length. *)
Theorem message_framing d1 d2 r1 r2 :
  is_u64 (blen d1) → is_u64 (blen d2) →
  dbl_message d1 ++ r1 = dbl_message d2 ++ r2 → d1 = d2 ∧ r1 = r2.
Proof. apply dbl_message_split. Qed.

(** A signature made with a private key verifies, in both hash formats,
    against the address of that key and against no other address; the WIF
    text of a key decodes to the key. *)
Theorem sign_then_verify `{C : Crypto} `{L : !CryptoLaws} data pk sig sigk addr a p :
  sign data pk = Ok sig → sign_keccak data pk = Ok sigk →
  privatekey_to_address pk = Ok addr → length p = 32%nat →
  verify data a sig = bool_decide (a = addr) ∧
  verify_keccak data a sigk = bool_decide (a = addr) ∧
  wif_to_private (private_to_wif p) = Ok p.
Proof.
  intros Hs Hk Ha Hp. apply recover_sign_digest in Hs, Hk.
  unfold verify, verify_keccak, get_sign_address_64, get_sign_address_keccak.
  rewrite Hs, Hk, Ha. split_and!; [| |by apply wif_roundtrip];
    apply bool_decide_ext; split; congruence.
Qed.

(** What [ecies_encrypt] produces for a public key, [ecies_decrypt] opens
    with the matching private key, without a panic on any slice; a blob whose
    MAC does not match is refused. *)
Theorem ecies_roundtrip `{C : Crypto} `{L : !CryptoLaws} r32 r16 data pubkey pk b sx :
  priv_to_scalar pk = Ok b →
  from_sec1 pubkey = Ok (mul_base b) →
  length r16 = 16%nat →
  length (uncompressed_pubkey (scalar_reduce r32)) = 65%nat →
  point_x (mul (scalar_reduce r32) (mul_base b)) = Some sx →
  ∃ body tag, ecies_encrypt r32 r16 data pubkey = Some (Ok (body ++ tag, firstn 32 (sha512 sx))) ∧
    ecies_decrypt (body ++ tag) pk = Some (Ok data) ∧
    ∀ tag', length tag' = 32%nat → tag' ≠ tag →
      ecies_decrypt (body ++ tag') pk = Some (Err (bstr "MAC verification failed")).
Proof.
  intros Hpk Hpub Hr16 Hlen Hx.
  destruct (encode_pubkey_layout _ Hlen) as (x & y & Hu & Hlx & Hly & Henc).
  destruct (aes_law data (firstn 32 (sha512 sx)) r16) as (ct & He & Hd);
    [rewrite length_firstn, sha512_length; lia|done|].
  assert (ecdh b (x04 :: x ++ y) = Ok sx) as Hdh.
  { unfold ecdh. destruct (sec1_law _ Hlen) as [_ Hf]. rewrite <- Hu, Hf.
    cbn. by rewrite ecdh_law, Hx. }
  set (body := r16 ++ [x02; xca] ++ [x00; x20] ++ x ++ [x00; x20] ++ y ++ ct).
  set (tag := hmac_sha256 (skipn 32 (sha512 sx)) body).
  exists body, tag. split; [|split].
  - unfold ecies_encrypt. assert (ecdh (scalar_reduce r32) pubkey = Ok sx) as ->.
    { unfold ecdh. rewrite Hpub. cbn. by rewrite Hx. }
    rewrite He, Henc. cbn [mbind option_bind].
    assert (r16 ++ ([x02; xca] ++ [x00; x20] ++ x ++ [x00; x20] ++ y) ++ ct = body) as ->; [|done].
    unfold body. by rewrite <- !app_assoc.
  - unfold body. rewrite (ecies_decrypt_framed pk b) by (done || apply hmac_length).
    rewrite Hdh. cbn [mbind result_bind]. rewrite bool_decide_eq_true_2 by done. by rewrite Hd.
  - intros tag' Ht Hne. unfold body. rewrite (ecies_decrypt_framed pk b) by done.
    rewrite Hdh. cbn [mbind result_bind]. rewrite bool_decide_eq_false_2; [done|].
    intros Heq. by apply Hne.
Qed.

(** [ecies_decrypt] is not total on peer-supplied blobs: one whose framed
    X length runs past its end passes the length and curve checks and then
    panics on the slice, whatever the (valid) key. *)
Theorem ecies_decrypt_panics `{C : Crypto} pk s iv rest :
  priv_to_scalar pk = Ok s → length iv = 16%nat → 34 <= blen rest < 65535 →
  ecies_decrypt (iv ++ [x02; xca; xff; xff] ++ rest) pk = None.
Proof.
  intros Hpk Hiv Hr. unfold ecies_decrypt.
  set (region := [x02; xca; xff; xff] ++ rest).
  assert (blen region = blen rest + 4) as Hreg by (unfold region, blen; rewrite length_app; simpl; lia).
  assert (blen (iv ++ region) = blen rest + 20) as Hlen.
  { unfold blen in *. rewrite length_app. lia. }
  destruct (Z.ltb_spec (blen (iv ++ region)) (16 + 6 + 32)); [lia|]. rewrite Hpk, Hlen.
  assert (slice (iv ++ region) 0 16 = Some iv) as ->
    by (apply (slice_app []); unfold blen in *; simpl; lia).
  cbn [mbind option_bind].
  assert (slice (iv ++ region) 16 (blen rest + 20) = Some region) as ->.
  { rewrite <- (app_nil_r region) at 1. apply slice_app; unfold blen in *; lia. }
  cbn [mbind option_bind].
  change (u16_be region 0) with (Some 714). change (u16_be region 2) with (Some 65535).
  cbn [mbind option_bind]. change (negb (714 =? NID_SECP256K1)) with false. cbv iota.
  assert (slice region 4 (4 + 65535) = None) as ->; [|done].
  unfold slice. replace (4 + 65535 <=? blen region) with false by lia. by rewrite andb_false_r.
Qed.

(** ** A concrete instance, for the witnesses *)

Definition toy_word (l : bytes) : Z := be_val (firstn 32 l) mod 256 ^ 32.

#[local] Instance toy_crypto : Crypto := {|
  scalar := Z; point := Z;
  scalar_reduce := toy_word;
  scalar_add a b := (a + b) mod 256 ^ 32;
  scalar_bytes s := be_bytes 32 s;
  mul_base s := s mod 256 ^ 32;
  mul a p := a * p mod 256 ^ 32;
  sec1 c p := if c then x02 :: be_bytes 32 p else x04 :: be_bytes 32 p ++ be_bytes 32 0;
  from_sec1 l := match l with _ :: l => Ok (toy_word l) | [] => Err [] end;
  point_x p := Some (be_bytes 32 p);
  sha256 l := be_bytes 32 (le_val l);
  sha512 l := be_bytes 64 (le_val l);
  keccak256 l := be_bytes 32 (le_val l);
  hmac_sha256 k l := be_bytes 32 (le_val (k ++ l));
  hmac_sha512 k l := be_bytes 64 (le_val (k ++ l));
  aes_cbc_encrypt d k iv := Ok d;
  aes_cbc_decrypt d k iv := Ok d;
  base64_encode l := l; base64_decode l := Ok l;
  hex_decode l := Ok l; bs58_check_encode l := l; bs58_check_decode l := Ok l;
  bech32_encode h l := Ok (h ++ l); bech32_decode l := Err [];
  signing_key l := Ok (toy_word l);
  sign_prehash s d := (0, be_bytes 32 s ++ be_bytes 32 0);
  parse_sig l := Ok l;
  recover_prehash d l i := Ok (toy_word l)
|}.

Lemma toy_word_bytes z l : toy_word (be_bytes 32 z ++ l) = z mod 256 ^ 32.
Proof.
  unfold toy_word. rewrite take_app_length' by (by rewrite length_be_bytes).
  unfold be_val, be_bytes. rewrite rev_involutive, le_val_bytes.
  by rewrite Z.mod_mod by done.
Qed.

Lemma toy_word_mod l : toy_word l mod 256 ^ 32 = toy_word l.
Proof. unfold toy_word. by rewrite Z.mod_mod by done. Qed.

#[local] Instance toy_laws : CryptoLaws.
Proof.
  split.
  - done.
  - done.
  - intros b sk d [= <-]. simpl. split_and!; try done; f_equal. apply toy_word_bytes.
  - intros a b. simpl. rewrite !Z.mul_mod_idemp_r by done. f_equal. lia.
  - intros s _. split; [done|].
    change (@Ok bytes Z (toy_word (be_bytes 32 (s mod 256 ^ 32) ++ be_bytes 32 0)) = Ok (s mod 256 ^ 32)).
    f_equal. rewrite toy_word_bytes. by rewrite Z.mod_mod by done.
  - intros d k iv _ _. by exists d.
  - intros x. apply length_be_bytes.
  - intros k x. apply length_be_bytes.
Qed.

Definition toy_key : bytes := x80 :: repeat x01 32.
Definition toy_addr : bytes := bstr "epix" ++ repeat x01 20.

Lemma message_framing_witness : bstr "hi" = bstr "hi" ∧ [x01] = [x01].
Proof.
  apply (message_framing (bstr "hi") (bstr "hi") [x01] [x01]); [by vm_compute|by vm_compute|reflexivity].
Defined.

Lemma sign_then_verify_witness : ∃ sig, verify (bstr "hi") toy_addr sig = true.
Proof.
  destruct (sign (bstr "hi") toy_key) as [sig|] eqn:Hs; [|exfalso; by vm_compute in Hs].
  exists sig.
  destruct (sign_then_verify (bstr "hi") toy_key sig sig toy_addr toy_addr (repeat x00 32)) as [-> _].
  - exact Hs.
  - rewrite <- Hs. reflexivity.
  - vm_compute. reflexivity.
  - reflexivity.
  - by apply bool_decide_eq_true_2.
Defined.

Lemma ecies_roundtrip_witness : ∃ blob key,
  ecies_encrypt (repeat x02 32) (repeat x03 16) (bstr "hi") (x04 :: repeat x01 64) = Some (Ok (blob, key)) ∧
  ecies_decrypt blob toy_key = Some (Ok (bstr "hi")).
Proof.
  destruct (ecies_roundtrip (C := toy_crypto) (repeat x02 32) (repeat x03 16) (bstr "hi") (x04 :: repeat x01 64) toy_key
    (toy_word (repeat x01 32)) (be_bytes 32 (toy_word (repeat x02 32) * toy_word (repeat x01 32) mod 256 ^ 32)))
    as (body & tag & He & Hd & _).
  - vm_compute. reflexivity.
  - vm_compute. reflexivity.
  - reflexivity.
  - vm_compute. reflexivity.
  - vm_compute. reflexivity.
  - eauto.
Defined.

Lemma ecies_decrypt_panics_witness :
  ecies_decrypt (repeat x00 16 ++ [x02; xca; xff; xff] ++ repeat x00 34) toy_key = None.
Proof.
  apply (ecies_decrypt_panics (C := toy_crypto) toy_key (toy_word (repeat x01 32))); [vm_compute; reflexivity|done|by vm_compute].
Defined.
