(* ===== verification/Content.v ===== *)
(** * Content signatures ([crates/epix-content/src/lib.rs])

    A content.json is signed over its canonical dump without [sign] and
    [signs]. Two main results: signing then verifying succeeds and changes
    nothing that is signed; and equal payloads mean equal contents, field by
    field, so a signature covers every other field. *)
From S2P Require Import Prelude Ordered Json Canonical Crypt.
From Stdlib Require Import ZArith Lia Strings.Byte.
From stdpp Require Import base list strings.
#[local] Open Scope Z_scope.

(** [epix_core::Error], as far as this component raises it. *)
Inductive Error := ECrypt (msg : bytes) | EProtocol (msg : bytes).

Section content.
Context `{C : Crypto} (float_to_string : Z → bytes).

Definition strip_signs (content : json) : json :=
  match content with
  | JObj m => JObj (bt_remove (bstr "signs") (bt_remove (bstr "sign") m))
  | c => c
  end.

Definition signed_data (content : json) : bytes :=
  dumps_sorted float_to_string (strip_signs content).

Definition verify_signer (content : json) (address : bytes) : bool :=
  match (signs ← jget content (bstr "signs"); v ← jget signs address; as_str v) with
  | Some sig => verify (signed_data content) address sig
  | None => false
  end.

Definition verify_all (content : json) : list (bytes * bool) :=
  let data := signed_data content in
  match (signs ← jget content (bstr "signs"); as_object signs) with
  | Some signs =>
      map (λ p, (p.1, match as_str p.2 with Some s => verify data p.1 s | None => false end)) signs
  | None => []
  end.

(** [sign] mutates its argument: the new content comes first. *)
Definition sign_content (content : json) (privatekey : bytes) : json * result Error bytes :=
  let data := signed_data content in
  match privatekey_to_address privatekey with
  | Err _ => (content, Err (ECrypt (bstr "that is not a valid private key")))
  | Ok address =>
      match sign data privatekey with
      | Err e => (content, Err (ECrypt e))
      | Ok sig =>
          match content with
          | JObj m =>
              let m := bt_remove (bstr "sign") m in
              let signs := bt_insert address (JStr sig) [] in
              (JObj (bt_insert (bstr "signs") (JObj signs) m), Ok sig)
          | _ => (content, Err (EProtocol (bstr "content is not a JSON object")))
          end
      end
  end.

Definition is_object (v : json) : Prop := ∃ m, v = JObj m ∧ bt_wf m.

Lemma jget_strip content k :
  is_object content →
  jget (strip_signs content) k =
    if decide (k = bstr "sign" ∨ k = bstr "signs") then None else jget content k.
Proof.
  intros (m & -> & Hwf). simpl.
  rewrite !bt_get_remove by auto using bt_remove_wf.
  repeat case_decide; naive_solver.
Qed.

Lemma strip_signs_insert m v : bt_wf m →
  strip_signs (JObj (bt_insert (bstr "signs") v (bt_remove (bstr "sign") m))) = strip_signs (JObj m).
Proof.
  intros Hwf. simpl. f_equal. apply bt_ext; auto 6 using bt_remove_wf, bt_insert_wf.
  intros k. rewrite !bt_get_remove, bt_get_insert, bt_get_remove by
    auto 6 using bt_remove_wf, bt_insert_wf.
  repeat case_decide; done.
Qed.

Lemma sign_content_ok content pk c' sig :
  is_object content → sign_content content pk = (c', Ok sig) →
  ∃ m addr, content = JObj m ∧ privatekey_to_address pk = Ok addr ∧
    sign (signed_data content) pk = Ok sig ∧
    c' = JObj (bt_insert (bstr "signs") (JObj [(addr, JStr sig)]) (bt_remove (bstr "sign") m)).
Proof.
  intros (m & -> & Hwf). unfold sign_content.
  destruct (privatekey_to_address pk) as [addr|e]; [|done].
  destruct (sign _ pk) as [sg|e] eqn:Hs; [|done]. intros [= <- <-]. eauto 6.
Qed.
End content.

(** Signing a content.json and verifying it agree: the stored signature
    verifies for the signing key's address and for no other, the signed
    payload is unchanged, every other field is kept, the stale [sign] field
    is gone, and [verify_all] lists exactly the one valid signer. *)
Theorem sign_verify_content `{C : Crypto} `{L : !CryptoLaws} fts content pk c' sig a :
  is_object content → sign_content fts content pk = (c', Ok sig) →
  ∃ addr, privatekey_to_address pk = Ok addr ∧
    verify_signer fts c' a = bool_decide (a = addr) ∧
    verify_all fts c' = [(addr, true)] ∧
    signed_data fts c' = signed_data fts content ∧
    jget c' (bstr "sign") = None ∧
    ∀ k, k ≠ bstr "sign" → k ≠ bstr "signs" → jget c' k = jget content k.
Proof.
  intros Ho Hs. destruct (sign_content_ok _ _ _ _ _ Ho Hs) as (m & addr & -> & Ha & Hsig & ->).
  assert (bt_wf m) as Hwf by (destruct Ho as (? & [= ->] & ?); done).
  assert (∀ v, signed_data fts (JObj (bt_insert (bstr "signs") v (bt_remove (bstr "sign") m)))
    = signed_data fts (JObj m)) as Hsd.
  { intros v. unfold signed_data. by rewrite strip_signs_insert. }
  assert (verify (signed_data fts (JObj m)) addr sig = true) as Hv.
  { apply recover_sign_digest in Hsig. unfold verify, get_sign_address_64.
    rewrite Hsig, Ha. by apply bool_decide_eq_true_2. }
  exists addr. split_and!; auto.
  - unfold verify_signer. rewrite Hsd. cbn [jget]. rewrite bt_get_insert, decide_True by done.
    cbn [mbind option_bind jget bt_get]. destruct (cmp a addr) eqn:E; cbn.
    + apply cmp_eq_iff in E as ->. by rewrite bool_decide_eq_true_2.
    + rewrite bool_decide_eq_false_2; [done|]. intros ->. by rewrite cmp_refl in E.
    + rewrite bool_decide_eq_false_2; [done|]. intros ->. by rewrite cmp_refl in E.
  - unfold verify_all. rewrite Hsd. cbn [jget]. rewrite bt_get_insert, decide_True by done.
    cbn [mbind option_bind as_object map fst snd as_str]. by rewrite Hv.
  - cbn [jget]. rewrite bt_get_insert, decide_False by done. rewrite bt_get_remove by done.
    by rewrite decide_True.
  - intros k H1 H2. cbn [jget]. rewrite bt_get_insert, decide_False by done.
    rewrite bt_get_remove by done. by rewrite decide_False.
Qed.

(** The canonical payload binds the content: two objects a node may hold
    (sorted keys, valid strings, no floats) with the same signed payload agree
    on every field but [sign] and [signs], at every depth. *)
Theorem signed_data_binds fts c1 c2 :
  is_object c1 → is_object c2 → json_wf c1 → json_wf c2 →
  signable c1 = true → signable c2 = true →
  signed_data fts c1 = signed_data fts c2 →
  ∀ k, k ≠ bstr "sign" → k ≠ bstr "signs" → jget c1 k = jget c2 k.
Proof.
  intros O1 O2 W1 W2 S1 S2 Heq k Hk1 Hk2.
  assert (∀ c, is_object c → json_wf c → signable c = true →
    json_wf (strip_signs c) ∧ signable (strip_signs c) = true) as Hstrip.
  { intros c (m & -> & Hm) W S. split; [by apply json_wf_remove, json_wf_remove|].
    cbn [signable strip_signs] in *. rewrite forallb_forall in S |- *. intros p Hp.
    apply S. apply list_elem_of_In. apply list_elem_of_In in Hp.
    by apply bt_remove_elem, bt_remove_elem in Hp. }
  destruct (Hstrip c1), (Hstrip c2); auto.
  apply dumps_sorted_inj in Heq; auto.
  pose proof (jget_strip c1 k O1) as E1. pose proof (jget_strip c2 k O2) as E2.
  rewrite decide_False in E1, E2 by tauto. congruence.
Qed.

Lemma sign_verify_content_witness : ∃ c' sig addr,
  sign_content (C := toy_crypto) (λ _, []) (JObj [(bstr "a", JInt 1); (bstr "sign", JNull)]) toy_key = (c', Ok sig) ∧
  verify_signer (C := toy_crypto) (λ _, []) c' addr = true.
Proof.
  destruct (sign_content (C := toy_crypto) (λ _, [])
    (JObj [(bstr "a", JInt 1); (bstr "sign", JNull)]) toy_key) as [c' [sig|e]] eqn:Hs;
    [|exfalso; by vm_compute in Hs].
  exists c', sig, toy_addr. split; [done|].
  destruct (sign_verify_content (C := toy_crypto) (L := toy_laws) (λ _, [])
    (JObj [(bstr "a", JInt 1); (bstr "sign", JNull)]) toy_key c' sig toy_addr) as (addr & Ha & Hv & _).
  - eexists. split; [done|]. repeat constructor.
  - exact Hs.
  - rewrite Hv. apply bool_decide_eq_true_2. vm_compute in Ha. injection Ha as <-. reflexivity.
Defined.

Lemma signed_data_binds_witness :
  jget (JObj [(bstr "a", JInt 1)]) (bstr "a") =
  jget (JObj [(bstr "a", JInt 1); (bstr "sign", JNull)]) (bstr "a").
Proof.
  apply (signed_data_binds (λ _, []) (JObj [(bstr "a", JInt 1)])
    (JObj [(bstr "a", JInt 1); (bstr "sign", JNull)])).
  - eexists. split; [done|]. repeat constructor.
  - eexists. split; [done|]. repeat constructor.
  - constructor; repeat constructor; by vm_compute.
  - constructor; repeat constructor; by vm_compute.
  - reflexivity.
  - reflexivity.
  - reflexivity.
  - by vm_compute.
  - by vm_compute.
Defined.
