(* ===== verification/Diff.v ===== *)
(** * Line diffs ([crates/epix-content/src/diff.rs])

    [diff] walks a longest-common-subsequence table over the lines of two
    files and emits copy/skip/insert actions; [patch] replays them. The main
    result is that patching the old file with the diff rebuilds the new one,
    for every pair of files and whatever the table holds. *)
From S2P Require Import Prelude Ordered Json Canonical.
From Stdlib Require Import ZArith Lia Strings.Byte.
From stdpp Require Import base list strings.
#[local] Open Scope Z_scope.

Inductive DiffAction :=
  | Equal (n : Z)
  | Remove (n : Z)
  | Insert (lines : list bytes).

(** ** Lines *)

(** [cur] is [data[start..i]]; a line ends after its newline. *)
Fixpoint split_loop (data cur : bytes) : list bytes :=
  match data with
  | [] => match cur with [] => [] | _ => [cur] end
  | b :: data => if bool_decide (b = x0a) then (cur ++ [b]) :: split_loop data []
                 else split_loop data (cur ++ [b])
  end.
Definition split_keepends (data : bytes) : list bytes := split_loop data [].

(** ** The table *)

(** Row [i] from row [i + 1], computed from the last column backwards. *)
Fixpoint lcs_row (o : bytes) (news : list bytes) (below : list Z) : list Z :=
  match news, below with
  | n :: news, d :: below =>
      let row := lcs_row o news below in
      (if bool_decide (o = n) then hd 0 below + 1 else Z.max d (hd 0 row)) :: row
  | _, _ => [0]
  end.

Fixpoint lcs_table (olds news : list bytes) : list (list Z) :=
  match olds with
  | [] => [repeat 0 (S (length news))]
  | o :: olds => let t := lcs_table olds news in lcs_row o news (hd [] t) :: t
  end.

Definition lcs_at (t : list (list Z)) (i j : nat) : Z := nth j (nth i t []) 0.

(** ** Emitting actions: each push extends the last action when it can *)

Definition push_equal (actions : list DiffAction) (n : Z) : list DiffAction :=
  if n =? 0 then actions
  else match last actions with
       | Some (Equal m) => removelast actions ++ [Equal (m + n)]
       | _ => actions ++ [Equal n]
       end.

Definition push_remove (actions : list DiffAction) (n : Z) : list DiffAction :=
  if n =? 0 then actions
  else match last actions with
       | Some (Remove m) => removelast actions ++ [Remove (m + n)]
       | _ => actions ++ [Remove n]
       end.

Definition push_insert (actions : list DiffAction) (line : bytes) : list DiffAction :=
  match last actions with
  | Some (Insert lines) => removelast actions ++ [Insert (lines ++ [line])]
  | _ => actions ++ [Insert [line]]
  end.

Section walk.
Context (olds news : list bytes) (t : list (list Z)) (limit : option Z).

Definition over (inserted : Z) : bool :=
  match limit with Some l => l <? inserted | None => false end.

(** The three [while] loops; at most [n + m] turns are taken. *)
Fixpoint walk (fuel i j : nat) (actions : list DiffAction) (inserted : Z) : option (list DiffAction) :=
  match fuel with
  | O => Some actions
  | S fuel =>
      match olds !! i, news !! j with
      | Some o, Some n =>
          if bool_decide (o = n) then walk fuel (S i) (S j) (push_equal actions (blen o)) inserted
          else if lcs_at t i (S j) <=? lcs_at t (S i) j
          then walk fuel (S i) j (push_remove actions (blen o)) inserted
          else let inserted := inserted + blen n in
               if over inserted then None
               else walk fuel i (S j) (push_insert actions n) inserted
      | Some o, None => walk fuel (S i) j (push_remove actions (blen o)) inserted
      | None, Some n =>
          let inserted := inserted + blen n in
          if over inserted then None
          else walk fuel i (S j) (push_insert actions n) inserted
      | None, None => Some actions
      end
  end.
End walk.

Definition diff (old new : bytes) (limit : option Z) : option (list DiffAction) :=
  let olds := split_keepends old in
  let news := split_keepends new in
  walk olds news (lcs_table olds news) limit (length olds + length news) 0 0 [] 0.

(** ** [patch] *)

(** [cursor.checked_add(n).filter(|&e| e <= old.len())]. *)
Definition advance (old : bytes) (cursor n : Z) : option Z :=
  let e := cursor + n in
  if u64_max <? e then None else if e <=? blen old then Some e else None.

Definition patch_step (old : bytes) (st : bytes * Z) (a : DiffAction) : result bytes (bytes * Z) :=
  let '(out, cursor) := st in
  match a with
  | Equal n =>
      e ← ok_or (advance old cursor n) (bstr "diff: equal past end");
      Ok (out ++ default [] (slice old cursor e), e)
  | Remove n =>
      e ← ok_or (advance old cursor n) (bstr "diff: remove past end");
      Ok (out, e)
  | Insert lines => Ok (out ++ concat lines, cursor)
  end.

Fixpoint patch_loop (old : bytes) (st : bytes * Z) (actions : list DiffAction) : result bytes (bytes * Z) :=
  match actions with
  | [] => Ok st
  | a :: actions => st ← patch_step old st a; patch_loop old st actions
  end.

Definition patch (old : bytes) (actions : list DiffAction) : result bytes bytes :=
  st ← patch_loop old ([], 0) actions; Ok st.1.

Example diff_ex : diff (bstr "abc") (bstr "abc") None = Some [Equal 3].
Proof. reflexivity. Qed.

(** ** The wire form *)

Section wire.
(** [String::from_utf8_lossy]: the identity on valid UTF-8. *)
Context (from_utf8_lossy : bytes → bytes).

Definition to_value (a : DiffAction) : json :=
  match a with
  | Equal n => JArr [JStr (bstr "="); JInt n]
  | Remove n => JArr [JStr (bstr "-"); JInt n]
  | Insert lines => JArr [JStr (bstr "+"); JArr (map (λ l, JStr (from_utf8_lossy l)) lines)]
  end.

Definition from_value (v : json) : option DiffAction :=
  arr ← as_array v;
  tag ← (x ← head arr; as_str x);
  if bool_decide (tag = bstr "=") then x ← arr !! 1%nat; n ← as_u64 x; Some (Equal n)
  else if bool_decide (tag = bstr "-") then x ← arr !! 1%nat; n ← as_u64 x; Some (Remove n)
  else if bool_decide (tag = bstr "+") then
    x ← arr !! 1%nat; ls ← as_array x;
    Some (Insert (map (λ l, match l with JStr s => s | _ => [] end) ls))
  else None.

Definition actions_to_value (actions : list DiffAction) : json := JArr (map to_value actions).
Definition actions_from_value (v : json) : option (list DiffAction) :=
  l ← as_array v; mapM from_value l.
End wire.

(** ** Lines partition the file *)

Lemma split_loop_concat data cur : concat (split_loop data cur) = cur ++ data.
Proof.
  revert cur; induction data as [|b data IH]; intros cur; simpl.
  - destruct cur; simpl; by rewrite ?app_nil_r.
  - case_bool_decide; simpl; rewrite IH; by rewrite <- ?app_assoc.
Qed.

Lemma split_keepends_concat data : concat (split_keepends data) = data.
Proof. apply split_loop_concat. Qed.

(** ** Replaying what was pushed *)

Definition act_ok (a : DiffAction) : Prop :=
  match a with Equal n | Remove n => 0 <= n | Insert _ => True end.

Definition act_inserted (a : DiffAction) : Z :=
  match a with Insert lines => blen (concat lines) | _ => 0 end.
Definition inserted_bytes (actions : list DiffAction) : Z :=
  foldr (λ a n, act_inserted a + n) 0 actions.

Lemma inserted_bytes_app l k : inserted_bytes (l ++ k) = inserted_bytes l + inserted_bytes k.
Proof. unfold inserted_bytes. induction l as [|a l IH]; simpl; lia. Qed.

Lemma patch_loop_app old st l k :
  patch_loop old st (l ++ k) = (st' ← patch_loop old st l; patch_loop old st' k).
Proof.
  revert st; induction l as [|a l IH]; intros st; simpl; [done|].
  destruct (patch_step old st a); simpl; auto.
Qed.

Lemma last_cases {A} (l : list A) :
  match last l with Some x => l = removelast l ++ [x] | None => l = [] end.
Proof.
  destruct (last l) as [x|] eqn:E; [|by apply last_None].
  apply last_Some in E as [k ->]. by rewrite removelast_last.
Qed.

Lemma slice_split {A} (l : list A) a b c :
  0 <= a <= b → b <= c <= blen l →
  default [] (slice l a c) = default [] (slice l a b) ++ default [] (slice l b c).
Proof.
  intros H1 H2. unfold slice. rewrite !(proj2 (Z.leb_le _ _)) by lia. simpl.
  replace (Z.to_nat (c - a)) with (Z.to_nat (b - a) + Z.to_nat (c - b))%nat by lia.
  replace (Z.to_nat b) with (Z.to_nat a + Z.to_nat (b - a))%nat by lia.
  rewrite <- drop_drop. generalize (drop (Z.to_nat a) l). intros k.
  generalize (Z.to_nat (b - a)), (Z.to_nat (c - b)). intros n m.
  revert k. induction n as [|n IH]; intros k; [done|]. destruct k; simpl; [by rewrite take_nil|].
  by rewrite IH.
Qed.

Section replay.
Context (old : bytes) (Hold : blen old <= u64_max).

(** Replaying [acts] leaves the patcher at [(out, c)]. *)
Definition replays (acts : list DiffAction) (out : bytes) (c : Z) : Prop :=
  Forall act_ok acts ∧ patch_loop old ([], 0) acts = Ok (out, c) ∧ 0 <= c <= blen old.

Lemma advance_ok c n : 0 <= c → 0 <= n → c + n <= blen old → advance old c n = Some (c + n).
Proof using Hold.
  intros. unfold advance. destruct (Z.ltb_spec u64_max (c + n)); [lia|].
  by rewrite (proj2 (Z.leb_le _ _)).
Qed.

(** The state reached before the last action starts at a valid cursor. *)
Lemma patch_cursor acts st out c :
  Forall act_ok acts → 0 <= st.2 <= blen old → patch_loop old st acts = Ok (out, c) → 0 <= c <= blen old.
Proof using.
  intros Ha. revert st. induction Ha as [|a acts Ha _ IH]; intros [o c0] Hc; simpl; [naive_solver|].
  destruct a as [n|n|ls]; simpl in *; [| |apply IH; done].
  all: unfold advance; destruct (_ <? _); [done|]; destruct (Z.leb_spec (c0 + n) (blen old)); [|done].
  all: simpl; apply IH; simpl; lia.
Qed.

Lemma replays_snoc_inv acts a out c :
  replays (acts ++ [a]) out c →
  ∃ out0 c0, replays acts out0 c0 ∧ act_ok a ∧ patch_step old (out0, c0) a = Ok (out, c).
Proof using.
  intros (Hf & Hl & Hc). apply Forall_app in Hf as [Hf Ha]. apply Forall_cons in Ha as [Ha _].
  rewrite patch_loop_app in Hl. destruct (patch_loop old ([], 0) acts) as [[o c0]|] eqn:E; [|done].
  exists o, c0. split; [|split; [done|]].
  - split; [done|]. split; [done|].
    apply (patch_cursor acts ([], 0) o c0 Hf); [unfold blen; simpl; lia|done].
  - cbn [mbind result_bind patch_loop] in Hl.
    destruct (patch_step old (o, c0) a); [|done]. cbn in Hl. congruence.
Qed.

Lemma replays_snoc acts a out0 c0 out c :
  replays acts out0 c0 → act_ok a → patch_step old (out0, c0) a = Ok (out, c) → 0 <= c <= blen old →
  replays (acts ++ [a]) out c.
Proof using.
  intros (Hf & Hl & Hc0) Ha Hs Hc. split_and!; auto; try lia.
  - apply Forall_app. auto.
  - rewrite patch_loop_app, Hl. cbn [mbind result_bind patch_loop]. by rewrite Hs.
Qed.

Lemma push_equal_ok acts out c n :
  replays acts out c → 0 <= n → c + n <= blen old →
  replays (push_equal acts n) (out ++ default [] (slice old c (c + n))) (c + n).
Proof using Hold.
  intros Hr Hn Hc. pose proof Hr as (_ & _ & Hc0). unfold push_equal.
  assert (∀ l o k m, replays l o k → 0 <= m → k + m <= blen old →
    replays (l ++ [Equal m]) (o ++ default [] (slice old k (k + m))) (k + m)) as Hpush.
  { intros l o k m Hl Hm Hk. pose proof Hl as (_ & _ & ?).
    eapply replays_snoc; [exact Hl|done| |lia]. cbn. by rewrite advance_ok by lia. }
  destruct (Z.eqb_spec n 0) as [->|Hne].
  { rewrite Z.add_0_r. unfold slice. rewrite !(proj2 (Z.leb_le _ _)) by lia.
    rewrite Z.sub_diag. simpl. by rewrite app_nil_r. }
  pose proof (last_cases acts) as Hlast.
  destruct (last acts) as [[m|m|ls]|]; [|by apply Hpush..].
  rewrite Hlast in Hr. apply replays_snoc_inv in Hr as (o & k & Hr & Hm & Hs).
  pose proof Hr as (_ & _ & Hk). cbn in Hm, Hs. unfold advance in Hs.
  destruct (_ <? _) in Hs; [done|]. destruct (Z.leb_spec (k + m) (blen old)); [|done].
  cbn in Hs. injection Hs as <- <-. rewrite <- app_assoc, <- slice_split by lia.
  rewrite <- !Z.add_assoc. apply Hpush; [done|lia..].
Qed.

Lemma push_remove_ok acts out c n :
  replays acts out c → 0 <= n → c + n <= blen old → replays (push_remove acts n) out (c + n).
Proof using Hold.
  intros Hr Hn Hc. pose proof Hr as (_ & _ & Hc0). unfold push_remove.
  assert (∀ l o k m, replays l o k → 0 <= m → k + m <= blen old →
    replays (l ++ [Remove m]) o (k + m)) as Hpush.
  { intros l o k m Hl Hm Hk. pose proof Hl as (_ & _ & ?).
    eapply replays_snoc; [exact Hl|done| |lia]. cbn. by rewrite advance_ok by lia. }
  destruct (Z.eqb_spec n 0) as [->|Hne]; [by rewrite Z.add_0_r|].
  pose proof (last_cases acts) as Hlast.
  destruct (last acts) as [[m|m|ls]|]; [by apply Hpush| |by apply Hpush..].
  rewrite Hlast in Hr. apply replays_snoc_inv in Hr as (o & k & Hr & Hm & Hs).
  pose proof Hr as (_ & _ & Hk). cbn in Hm, Hs. unfold advance in Hs.
  destruct (_ <? _) in Hs; [done|]. destruct (Z.leb_spec (k + m) (blen old)); [|done].
  cbn in Hs. injection Hs as <- <-. rewrite <- Z.add_assoc. apply Hpush; [done|lia..].
Qed.

Lemma push_insert_ok acts out c line :
  replays acts out c → replays (push_insert acts line) (out ++ line) c.
Proof using.
  intros Hr. pose proof Hr as (_ & _ & Hc). unfold push_insert.
  pose proof (last_cases acts) as Hlast. destruct (last acts) as [[m|m|ls]|].
  1, 2, 4: eapply replays_snoc; [exact Hr|done| |done]; cbn; by rewrite app_nil_r.
  rewrite Hlast in Hr. apply replays_snoc_inv in Hr as (o & k & Hr & _ & Hs).
  cbn in Hs. injection Hs as <- <-. eapply replays_snoc; [exact Hr|done| |done]. cbn.
  by rewrite concat_app, <- app_assoc; cbn; rewrite app_nil_r.
Qed.
End replay.

(** ** Inserted bytes and the limit *)

Lemma act_inserted_nonneg a : 0 <= act_inserted a.
Proof. destruct a; simpl; unfold blen; lia. Qed.

Lemma push_equal_inserted acts n : inserted_bytes (push_equal acts n) = inserted_bytes acts.
Proof.
  unfold push_equal. destruct (n =? 0); [done|]. pose proof (last_cases acts) as Hl.
  destruct (last acts) as [[m|m|ls]|]; rewrite inserted_bytes_app; simpl; try lia.
  rewrite Hl at 2. rewrite inserted_bytes_app. simpl. lia.
Qed.

Lemma push_remove_inserted acts n : inserted_bytes (push_remove acts n) = inserted_bytes acts.
Proof.
  unfold push_remove. destruct (n =? 0); [done|]. pose proof (last_cases acts) as Hl.
  destruct (last acts) as [[m|m|ls]|]; rewrite inserted_bytes_app; simpl; try lia.
  rewrite Hl at 2. rewrite inserted_bytes_app. simpl. lia.
Qed.

Lemma push_insert_inserted acts l : inserted_bytes (push_insert acts l) = inserted_bytes acts + blen l.
Proof.
  unfold push_insert. pose proof (last_cases acts) as Hl.
  destruct (last acts) as [[m|m|ls]|]; rewrite inserted_bytes_app; simpl; rewrite ?app_nil_r; try lia.
  rewrite Hl at 2. rewrite inserted_bytes_app. simpl. rewrite concat_app. simpl.
  unfold blen. rewrite !length_app. simpl. lia.
Qed.

Lemma over_mono limit x y : over limit x = true → x <= y → over limit y = true.
Proof. destruct limit; simpl; [lia|done]. Qed.

(** One more line consumed on either side. *)
Lemma concat_take_S (l : list bytes) i x :
  l !! i = Some x → concat (take (S i) l) = concat (take i l) ++ x.
Proof.
  intros H. rewrite (take_S_r _ _ _ H), concat_app. simpl. by rewrite app_nil_r.
Qed.

Section walk_facts.
Context (olds news : list bytes) (t : list (list Z)).
Local Abbreviation old := (concat olds).
Context (Hold : blen old <= u64_max).

Lemma old_line i x : olds !! i = Some x →
  blen (concat (take (S i) olds)) = blen (concat (take i olds)) + blen x ∧
  blen (concat (take i olds)) + blen x <= blen old ∧
  default [] (slice old (blen (concat (take i olds))) (blen (concat (take i olds)) + blen x)) = x.
Proof using.
  intros Hx. assert (old = concat (take i olds) ++ x ++ concat (drop (S i) olds)) as Hsplit.
  { rewrite <- (take_drop_middle _ _ _ Hx) at 1. by rewrite concat_app. }
  split_and!.
  - rewrite (concat_take_S _ _ _ Hx). unfold blen. rewrite length_app. lia.
  - rewrite Hsplit. unfold blen. rewrite !length_app. lia.
  - rewrite Hsplit at 1. by erewrite slice_app.
Qed.

Lemma walk_replays fuel i j acts :
  replays old acts (concat (take j news)) (blen (concat (take i olds))) →
  (i <= length olds)%nat → (j <= length news)%nat →
  (length olds + length news <= fuel + i + j)%nat →
  ∃ acts', walk olds news t None fuel i j acts (inserted_bytes acts) = Some acts' ∧
    replays old acts' (concat news) (blen old).
Proof using Hold.
  revert i j acts; induction fuel as [|fuel IH]; intros i j acts Hr Hi Hj Hf.
  { assert (i = length olds) as -> by lia. assert (j = length news) as -> by lia.
    rewrite !take_ge in Hr by lia. by exists acts. }
  assert (∀ o, olds !! i = Some o → ∃ acts',
    walk olds news t None fuel (S i) j (push_remove acts (blen o)) (inserted_bytes acts) = Some acts' ∧
    replays old acts' (concat news) (blen old)) as Krem.
  { intros o Ho. destruct (old_line _ _ Ho) as (Hs & Hle & _). pose proof (lookup_lt_Some _ _ _ Ho).
    rewrite <- (push_remove_inserted acts (blen o)). apply IH; try lia. rewrite Hs.
    apply push_remove_ok; auto. unfold blen; lia. }
  assert (∀ n, news !! j = Some n → ∃ acts',
    walk olds news t None fuel i (S j) (push_insert acts n) (inserted_bytes acts + blen n) = Some acts' ∧
    replays old acts' (concat news) (blen old)) as Kins.
  { intros n Hn. pose proof (lookup_lt_Some _ _ _ Hn).
    rewrite <- push_insert_inserted. apply IH; try lia.
    rewrite (concat_take_S _ _ _ Hn). by apply push_insert_ok. }
  cbn [walk over]. destruct (olds !! i) as [o|] eqn:Ho, (news !! j) as [n|] eqn:Hn.
  - case_bool_decide as Heq; [subst n|by destruct (_ <=? _); auto].
    destruct (old_line _ _ Ho) as (Hs & Hle & Hsl).
    pose proof (lookup_lt_Some _ _ _ Ho). pose proof (lookup_lt_Some _ _ _ Hn).
    rewrite <- (push_equal_inserted acts (blen o)). apply IH; try lia.
    rewrite Hs, (concat_take_S _ _ _ Hn).
    pose proof (push_equal_ok old Hold acts _ _ (blen o) Hr) as Hp. rewrite Hsl in Hp.
    apply Hp; [unfold blen; lia|done].
  - by apply Krem.
  - by apply Kins.
  - apply lookup_ge_None in Ho, Hn. rewrite !take_ge in Hr by lia. by exists acts.
Qed.
End walk_facts.

Section walk_limit.
Context (olds news : list bytes) (t : list (list Z)).

Lemma walk_mono fuel i j acts acts' :
  walk olds news t None fuel i j acts (inserted_bytes acts) = Some acts' →
  inserted_bytes acts <= inserted_bytes acts'.
Proof.
  revert i j acts; induction fuel as [|fuel IH]; intros i j acts; [intros [= <-]; lia|].
  assert (∀ n, 0 <= blen (A := byte) n) as Hb by (intros; unfold blen; lia).
  cbn [walk over]. destruct (olds !! i) as [o|], (news !! j) as [n|].
  - case_bool_decide; [|destruct (_ <=? _)].
    + rewrite <- (push_equal_inserted acts (blen o)). apply IH.
    + rewrite <- (push_remove_inserted acts (blen o)). apply IH.
    + rewrite <- push_insert_inserted. intros Hq%IH. rewrite push_insert_inserted in Hq. specialize (Hb n). lia.
  - rewrite <- (push_remove_inserted acts (blen o)). apply IH.
  - rewrite <- push_insert_inserted. intros Hq%IH. rewrite push_insert_inserted in Hq. specialize (Hb n). lia.
  - intros [= <-]; lia.
Qed.

(** Under a limit the walk gives the unlimited result or nothing. *)
Lemma walk_limit limit fuel i j acts acts' :
  walk olds news t None fuel i j acts (inserted_bytes acts) = Some acts' →
  over limit (inserted_bytes acts) = false →
  walk olds news t limit fuel i j acts (inserted_bytes acts) =
    if over limit (inserted_bytes acts') then None else Some acts'.
Proof.
  revert i j acts; induction fuel as [|fuel IH]; intros i j acts.
  { intros [= <-] Ho. cbn. by rewrite Ho. }
  assert (∀ n, walk olds news t None fuel i (S j) (push_insert acts n) (inserted_bytes acts + blen n)
      = Some acts' →
    (if over limit (inserted_bytes acts + blen n) then None
     else walk olds news t limit fuel i (S j) (push_insert acts n) (inserted_bytes acts + blen n)) =
    if over limit (inserted_bytes acts') then None else Some acts') as Kins.
  { intros n. rewrite <- push_insert_inserted. intros Hw.
    destruct (over limit (inserted_bytes (push_insert acts n))) eqn:E; [|by apply IH].
    apply walk_mono in Hw. by rewrite (over_mono _ _ _ E Hw). }
  cbn [walk over]. destruct (olds !! i) as [o|], (news !! j) as [n|].
  - case_bool_decide; [|destruct (_ <=? _)].
    + rewrite <- (push_equal_inserted acts (blen o)). apply IH.
    + rewrite <- (push_remove_inserted acts (blen o)). apply IH.
    + intros Hw _. by apply Kins.
  - rewrite <- (push_remove_inserted acts (blen o)). apply IH.
  - intros Hw _. by apply Kins.
  - intros [= <-] Ho. by rewrite Ho.
Qed.
End walk_limit.

(** C31: [diff] followed by [patch] rebuilds the new file, for every pair of
    files. Without a limit a diff is always produced; with one, it is the same
    diff or [None], and [None] exactly when the bytes it would insert exceed
    the limit. *)
Theorem patch_diff old new :
  blen old <= u64_max →
  ∃ actions, diff old new None = Some actions ∧
    patch old actions = Ok new ∧
    ∀ l, 0 <= l →
      diff old new (Some l) = if l <? inserted_bytes actions then None else Some actions.
Proof.
  intros Hold. unfold diff, patch.
  set (olds := split_keepends old). set (news := split_keepends new).
  assert (concat olds = old) as Ho by apply split_keepends_concat.
  assert (concat news = new) as Hn by apply split_keepends_concat.
  destruct (walk_replays olds news (lcs_table olds news) ltac:(by rewrite Ho)
    (length olds + length news) 0 0 []) as (acts & Hw & Hr).
  - split; [constructor|]. split; [done|]. unfold blen. simpl. lia.
  - lia.
  - lia.
  - lia.
  - exists acts. rewrite Ho, Hn in Hr. destruct Hr as (_ & Hp & _).
    split; [exact Hw|]. split; [by rewrite Hp|]. intros l Hl.
    apply (walk_limit olds news _ (Some l)) in Hw; [exact Hw|]. simpl. lia.
Qed.

(** ** The table holds longest common subsequences *)

(** Reference recursion. *)
Fixpoint lcs (olds : list bytes) : list bytes → Z :=
  match olds with
  | [] => λ _, 0
  | o :: olds' => fix go news :=
      match news with
      | [] => 0
      | n :: news' => if bool_decide (o = n) then lcs olds' news' + 1
                      else Z.max (lcs olds' news) (go news')
      end
  end.

Lemma lcs_nil_r olds : lcs olds [] = 0.
Proof. by destruct olds. Qed.

(** Row [i] of the table: one entry per suffix of the new lines. *)
Fixpoint suffix_row (olds news : list bytes) : list Z :=
  lcs olds news :: match news with [] => [] | _ :: news => suffix_row olds news end.

Lemma suffix_row_hd olds news : hd 0 (suffix_row olds news) = lcs olds news.
Proof. by destruct news. Qed.

Lemma lcs_row_spec o olds news :
  lcs_row o news (suffix_row olds news) = suffix_row (o :: olds) news.
Proof.
  induction news as [|n news IH]; [done|].
  change (suffix_row olds (n :: news)) with (lcs olds (n :: news) :: suffix_row olds news).
  cbn [lcs_row]. rewrite IH, !suffix_row_hd. done.
Qed.

Lemma lcs_table_hd olds news : hd [] (lcs_table olds news) = suffix_row olds news.
Proof.
  induction olds as [|o olds IH]; simpl.
  - induction news as [|n news IH]; [done|]. simpl. f_equal. exact IH.
  - by rewrite IH, lcs_row_spec.
Qed.

Lemma suffix_row_nth olds news j : (j <= length news)%nat →
  nth j (suffix_row olds news) 0 = lcs olds (drop j news).
Proof.
  revert j; induction news as [|n news IH]; intros j Hj; [by assert (j = O) as -> by (simpl in Hj; lia)|].
  destruct j as [|j]; [done|]. simpl in *. apply IH. lia.
Qed.

Lemma lcs_table_nth olds news i j : (i <= length olds)%nat → (j <= length news)%nat →
  lcs_at (lcs_table olds news) i j = lcs (drop i olds) (drop j news).
Proof.
  intros Hi Hj. unfold lcs_at. rewrite <- suffix_row_nth by done. f_equal.
  revert i Hi; induction olds as [|o olds IH]; intros i Hi.
  - assert (i = O) as -> by (simpl in Hi; lia). apply (lcs_table_hd [] news).
  - destruct i as [|i]; [apply (lcs_table_hd (o :: olds) news)|]. simpl in *. apply IH. lia.
Qed.

Lemma sublist_tail {A} (x : A) s l : x :: s `sublist_of` l → s `sublist_of` l.
Proof. intros H. eapply sublist_cons_l in H as (? & ? & -> & H). by apply sublist_inserts_l, sublist_cons. Qed.

(** No common subsequence is longer than the table says... *)
Lemma lcs_upper s olds news : s `sublist_of` olds → s `sublist_of` news → blen s <= lcs olds news.
Proof.
  unfold blen. revert s news; induction olds as [|o olds IH]; intros s news H1.
  { apply sublist_nil_r in H1 as ->. done. }
  revert s H1; induction news as [|n news IHn]; intros s H1 H2.
  { apply sublist_nil_r in H2 as ->. done. }
  cbn [lcs]. case_bool_decide as Heq.
  - destruct s as [|x s]; [specialize (IH [] news (sublist_nil_l _) (sublist_nil_l _)); simpl in *; lia|].
    assert (s `sublist_of` olds) by (apply sublist_cons_r in H1 as [?|(? & [= -> ->] & ?)]; eauto using sublist_tail).
    assert (s `sublist_of` news) by (apply sublist_cons_r in H2 as [?|(? & [= -> ->] & ?)]; eauto using sublist_tail).
    specialize (IH s news ltac:(done) ltac:(done)). simpl. lia.
  - pose proof H1 as H1'. pose proof H2 as H2'.
    apply sublist_cons_r in H1 as [H1|(s1 & -> & H1)].
    + specialize (IH s (n :: news) H1 H2). lia.
    + apply sublist_cons_r in H2 as [H2|(s2 & [= <- <-] & H2)]; [|done].
      specialize (IHn _ H1' H2). cbn [lcs] in IHn. lia.
Qed.

(** ... and one has that length. *)
Lemma lcs_reached olds news : ∃ s, s `sublist_of` olds ∧ s `sublist_of` news ∧ blen s = lcs olds news.
Proof.
  unfold blen. revert news; induction olds as [|o olds IH]; intros news.
  { exists []. split_and!; auto using sublist_nil_l. }
  induction news as [|n news (s' & A1 & A2 & A3)].
  { exists []. split_and!; auto using sublist_nil_l. }
  cbn [lcs]. case_bool_decide as Heq.
  - subst n. destruct (IH news) as (s & H1 & H2 & H3). exists (o :: s).
    split_and!; [by constructor|by constructor|]. simpl. lia.
  - destruct (IH (n :: news)) as (s & H1 & H2 & H3).
    destruct (Z.le_ge_cases (lcs (o :: olds) news) (lcs olds (n :: news))) as [Hle|Hle]; cbn [lcs] in Hle.
    + exists s. split_and!; [by constructor|done|]. lia.
    + exists s'. cbn [lcs] in A3. split_and!; [done|by constructor|]. lia.
Qed.

Definition inserted_lines (actions : list DiffAction) : Z :=
  foldr (λ a n, (match a with Insert ls => blen ls | _ => 0 end) + n) 0 actions.

Lemma inserted_lines_app l k : inserted_lines (l ++ k) = inserted_lines l + inserted_lines k.
Proof. unfold inserted_lines. induction l as [|a l IH]; simpl; lia. Qed.

Lemma push_lines acts n l :
  inserted_lines (push_equal acts n) = inserted_lines acts ∧
  inserted_lines (push_remove acts n) = inserted_lines acts ∧
  inserted_lines (push_insert acts l) = inserted_lines acts + 1.
Proof.
  unfold push_equal, push_remove, push_insert. pose proof (last_cases acts) as Hl. split_and!.
  - destruct (n =? 0); [done|].
    destruct (last acts) as [[m|m|ls]|]; rewrite inserted_lines_app; simpl; try lia.
    rewrite Hl at 2. rewrite inserted_lines_app. simpl. lia.
  - destruct (n =? 0); [done|].
    destruct (last acts) as [[m|m|ls]|]; rewrite inserted_lines_app; simpl; try lia.
    rewrite Hl at 2. rewrite inserted_lines_app. simpl. lia.
  - destruct (last acts) as [[m|m|ls]|]; rewrite inserted_lines_app; simpl; unfold blen; simpl; try lia.
    rewrite Hl at 2. rewrite inserted_lines_app, length_app. simpl. unfold blen. lia.
Qed.

Lemma walk_lines olds news fuel i j acts ins acts' :
  (i <= length olds)%nat → (j <= length news)%nat → (length olds + length news <= fuel + i + j)%nat →
  walk olds news (lcs_table olds news) None fuel i j acts ins = Some acts' →
  inserted_lines acts' = inserted_lines acts + (blen news - Z.of_nat j) - lcs (drop i olds) (drop j news).
Proof.
  revert i j acts ins; induction fuel as [|fuel IH]; intros i j acts ins Hi Hj Hf.
  { intros [= <-]. assert (j = length news) as -> by lia. rewrite drop_all, lcs_nil_r. unfold blen. lia. }
  cbn [walk over]. destruct (olds !! i) as [o|] eqn:Ho, (news !! j) as [n|] eqn:Hn.
  - pose proof (lookup_lt_Some _ _ _ Ho). pose proof (lookup_lt_Some _ _ _ Hn).
    destruct (push_lines acts (blen o) n) as (P1 & P2 & P3). rewrite !lcs_table_nth by lia.
    assert (lcs (drop i olds) (drop j news) = if bool_decide (o = n)
      then lcs (drop (S i) olds) (drop (S j) news) + 1
      else Z.max (lcs (drop (S i) olds) (drop j news)) (lcs (drop i olds) (drop (S j) news))) as ->
      by (by rewrite (drop_S olds o i Ho), (drop_S news n j Hn)).
    case_bool_decide; [intros Hw%IH; lia|].
    destruct (Z.leb_spec (lcs (drop i olds) (drop (S j) news)) (lcs (drop (S i) olds) (drop j news)));
      intros Hw%IH; lia.
  - pose proof (lookup_lt_Some _ _ _ Ho). destruct (push_lines acts (blen o) []) as (P1 & P2 & P3).
    apply lookup_ge_None in Hn. intros Hw%IH; [|lia..].
    rewrite !(drop_ge news), !lcs_nil_r in * by lia. lia.
  - pose proof (lookup_lt_Some _ _ _ Hn). destruct (push_lines acts 0 n) as (P1 & P2 & P3).
    apply lookup_ge_None in Ho. intros Hw%IH; [|lia..].
    rewrite !(drop_ge olds) in * by lia. simpl in *. lia.
  - apply lookup_ge_None in Ho, Hn. intros [= <-]. rewrite (drop_ge olds) by lia. simpl.
    unfold blen. lia.
Qed.

(** C39: the diff is minimal: it sends exactly the lines of the new file
    outside a longest common subsequence of the two line lists. *)
Theorem diff_minimal old new actions :
  diff old new None = Some actions →
  ∃ s, s `sublist_of` split_keepends old ∧ s `sublist_of` split_keepends new ∧
    inserted_lines actions = blen (split_keepends new) - blen s ∧
    ∀ s', s' `sublist_of` split_keepends old → s' `sublist_of` split_keepends new → blen s' <= blen s.
Proof.
  unfold diff. intros Hw%walk_lines; [|lia..].
  destruct (lcs_reached (split_keepends old) (split_keepends new)) as (s & H1 & H2 & H3).
  exists s. split_and!; auto.
  - rewrite Hw, H3, !drop_0. unfold blen. simpl. lia.
  - intros s' Hs1 Hs2. rewrite H3. by apply lcs_upper.
Qed.

(** ** Peer-supplied diffs *)

Definition consumed (actions : list DiffAction) : Z :=
  foldr (λ a n, (match a with Equal k | Remove k => k | Insert _ => 0 end) + n) 0 actions.
Definition copied (actions : list DiffAction) : Z :=
  foldr (λ a n, (match a with Equal k => k | _ => 0 end) + n) 0 actions.

Lemma consumed_nonneg acts : Forall act_ok acts → 0 <= consumed acts.
Proof. induction 1 as [|a acts Ha _ IH]; simpl; [lia|]. destruct a; simpl in *; lia. Qed.

Lemma slice_length {A} (l : list A) a b : 0 <= a <= b → b <= blen l → blen (default [] (slice l a b)) = b - a.
Proof.
  intros. unfold slice. rewrite !(proj2 (Z.leb_le _ _)) by lia. simpl. unfold blen in *.
  rewrite length_take, length_drop. lia.
Qed.

Lemma patch_loop_bounds old acts out c :
  blen old <= u64_max → Forall act_ok acts → 0 <= c <= blen old →
  match patch_loop old (out, c) acts with
  | Ok (out', c') => c + consumed acts <= blen old ∧ c' = c + consumed acts ∧
      blen out' = blen out + copied acts + inserted_bytes acts
  | Err _ => blen old < c + consumed acts
  end.
Proof.
  intros Hold Ha. revert out c; induction Ha as [|a acts Ha Hacts IH]; intros out c Hc; simpl; [lia|].
  pose proof (consumed_nonneg acts Hacts).
  assert (∀ x y : bytes, blen (x ++ y) = blen x + blen y) as Happ by (intros; unfold blen; rewrite length_app; lia).
  destruct a as [n|n|ls]; cbn [patch_step act_ok act_inserted] in *.
  1, 2: unfold advance; destruct (Z.ltb_spec u64_max (c + n)); [simpl; lia|];
    destruct (Z.leb_spec (c + n) (blen old)); [|simpl; lia];
    cbn [ok_or mbind result_bind].
  - specialize (IH (out ++ default [] (slice old c (c + n))) (c + n) ltac:(lia)).
    destruct (patch_loop _ _ _) as [[o' c']|]; [|lia]. rewrite Happ, slice_length in IH by lia. lia.
  - specialize (IH out (c + n) ltac:(lia)). destruct (patch_loop _ _ _) as [[o' c']|]; lia.
  - cbn [mbind result_bind]. specialize (IH (out ++ concat ls) c Hc).
    destruct (patch_loop _ _ _) as [[o' c']|]; [|lia]. rewrite Happ in IH. lia.
Qed.

(** [patch] on any (peer-supplied) action list succeeds exactly when the
    copied and skipped bytes fit in the old file, never reading past its end;
    the output has the copied plus the inserted length. Actions survive the
    wire form when their lines are valid UTF-8. *)
Theorem patch_untrusted lossy old actions :
  blen old <= u64_max →
  Forall (λ a, match a with
    | Equal n | Remove n => is_u64 n
    | Insert ls => Forall (λ l, is_str l = true) ls end) actions →
  (∀ s, is_str s = true → lossy s = s) →
  is_ok (patch old actions) = (consumed actions <=? blen old) ∧
  (∀ out, patch old actions = Ok out → blen out = copied actions + inserted_bytes actions) ∧
  actions_from_value (actions_to_value lossy actions) = Some actions.
Proof.
  intros Hold Ha Hl.
  assert (Forall act_ok actions) as Hok.
  { eapply Forall_impl; [exact Ha|]. unfold is_u64. intros [n|n|ls]; simpl; lia || done. }
  pose proof (patch_loop_bounds old actions [] 0 Hold Hok ltac:(unfold blen; lia)) as Hb.
  unfold patch. split_and!.
  - destruct (patch_loop old ([], 0) actions) as [[o c]|e]; simpl in *; lia.
  - intros out. destruct (patch_loop old ([], 0) actions) as [[o c]|e]; [|done]. simpl in *.
    intros [= <-]. unfold blen in *. simpl in *. lia.
  - unfold actions_from_value, actions_to_value. cbn [as_array mbind option_bind].
    clear Hb Hok. induction Ha as [|a acts Ha _ IH]; [done|]. cbn [map mapM].
    assert (from_value (to_value lossy a) = Some a) as ->; [|cbn; by rewrite IH].
    unfold is_u64 in Ha. destruct a as [n|n|ls]; unfold from_value; simpl.
    1, 2: rewrite (proj2 (andb_true_iff _ _)); [done|]; rewrite !Z.leb_le; lia.
    do 2 f_equal. rewrite map_map. induction Ha as [|l ls Hs _ IHl]; [done|]. simpl.
    by rewrite Hl, IHl.
Qed.

Lemma patch_diff_witness : ∃ actions, diff (bstr "ab") (bstr "cb") None = Some actions ∧
  patch (bstr "ab") actions = Ok (bstr "cb").
Proof.
  destruct (patch_diff (bstr "ab") (bstr "cb")) as (a & H1 & H2 & _); [by vm_compute|]. eauto.
Defined.

Lemma diff_minimal_witness : ∃ s : list bytes,
  s `sublist_of` split_keepends (bstr "ab") ∧ s `sublist_of` split_keepends (bstr "ab").
Proof.
  destruct (diff_minimal (bstr "ab") (bstr "ab") [Equal 2]) as (s & H1 & H2 & _); [reflexivity|]. eauto.
Defined.

Lemma patch_untrusted_witness :
  is_ok (patch (bstr "ab") [Equal 1; Insert [bstr "x"]; Remove 2]) = (3 <=? 2).
Proof.
  refine (proj1 (patch_untrusted (λ s, s) (bstr "ab") [Equal 1; Insert [bstr "x"]; Remove 2] _ _ _)).
  - by vm_compute.
  - repeat constructor; by vm_compute.
  - done.
Defined.
