(* ===== verification/Crdt.v ===== *)
(** * Signed OR-Set merge files ([crates/epix-content/src/record.rs], [merge.rs])

    Records are JSON objects signed one by one. [merge_orset] unions the
    verified records of two containers, keyed by signature; [live_records]
    folds the versions of each post to one winner. The theorems say the merge
    is grow-only, idempotent, commutative and associative, that it holds only
    verified records, and that the live view is a function of the set of
    records, hides tombstones and shows one version per post. *)
From S2P Require Import Prelude Ordered Json Canonical Crypt.
From Stdlib Require Import ZArith Lia Strings.Byte.
From stdpp Require Import base list sorting strings.
#[local] Open Scope Z_scope.

Definition CLOCK_SKEW_BOUND_MS : Z := 5 * 60 * 1000.

Inductive RecordError :=
  | NotObject
  | MissingField (name : bytes)
  | TombstoneHasBody
  | NegativeClock
  | ClockTooFarFuture
  | UnauthorizedAuthor
  | BadSignature.

(** ** [record.rs] *)

Section record.
Context `{C : Crypto} (float_to_string : Z → bytes).

Definition strip_sign (record : json) : json :=
  match record with JObj m => JObj (bt_remove (bstr "sign") m) | r => r end.

Definition record_signed_data (record : json) : bytes :=
  dumps_sorted float_to_string (strip_sign record).

(** The top 53 bits of the first eight digest bytes. *)
Definition truncate53 (input : bytes) : Z := Z.shiftr (be_val (firstn 8 (sha256 input))) 11.

Definition derive_post_id (author nonce : bytes) (date_added : Z) : Z :=
  truncate53 (author ++ bstr ":" ++ nonce ++ bstr ":" ++ dec date_added).

Definition derive_post_id_keyed (author key : bytes) : Z := truncate53 (author ++ bstr "|" ++ key).

Definition missing {A} (o : option A) (name : bytes) : result RecordError A := ok_or o (MissingField name).

(** The fields a record is checked to have, in the source's order. *)
Definition record_fields (record : json) : result RecordError (bytes * bytes * Z) :=
  _ ← ok_or (as_object record) NotObject;
  author ← missing (get_str record (bstr "author")) (bstr "author");
  sig ← missing (get_str record (bstr "sign")) (bstr "sign");
  clock ← missing (get_i64 record (bstr "clock")) (bstr "clock");
  _ ← missing (get_i64 record (bstr "post_id")) (bstr "post_id");
  _ ← (match get_str record (bstr "nonce"), get_str record (bstr "key") with
       | None, None => Err (MissingField (bstr "nonce-or-key")) | _, _ => Ok tt end);
  _ ← missing (get_i64 record (bstr "date_added")) (bstr "date_added");
  Ok (author, sig, clock).

Definition flag (record : json) (name : bytes) : bool := default false (get_bool record name).

Definition signature_ok (record : json) (author sig : bytes) (valid_signers : list bytes) : bool :=
  let payload := record_signed_data record in
  if flag record (bstr "moderated") && flag record (bstr "deleted")
  then existsb (λ s, verify payload s sig || verify_keccak payload s sig) valid_signers
  else verify payload author sig || verify_keccak payload author sig.

Definition verify_record (record : json) (valid_signers : list bytes) (now_ms : Z)
    : result RecordError unit :=
  '(author, sig, clock) ← record_fields record;
  if flag record (bstr "deleted") &&
     negb (bool_decide (default [] (get_str record (bstr "body")) = []))
  then Err TombstoneHasBody
  else if clock <? 0 then Err NegativeClock
  else if now_ms + CLOCK_SKEW_BOUND_MS <? clock then Err ClockTooFarFuture
  else if negb (existsb (λ s, bool_decide (s = author)) valid_signers) then Err UnauthorizedAuthor
  else if signature_ok record author sig valid_signers then Ok tt
  else Err BadSignature.
End record.

(** ** [merge.rs] *)

Definition RECORD_FORMAT : bytes := bstr "epix-orset-1".

Definition records_of (container : json) : list json := default [] (get_array container (bstr "post")).

Definition declared_merge_files (content : json) : list bytes :=
  match get_object content (bstr "files_merged") with Some m => bt_keys m | None => [] end.

Definition make_container (records : list json) : json :=
  JObj (bt_insert (bstr "post") (JArr records)
       (bt_insert (bstr "record_format") (JStr RECORD_FORMAT) [])).

Definition sign_of (r : json) : bytes := default [] (get_str r (bstr "sign")).
Definition post_id_of (r : json) : option Z := get_i64 r (bstr "post_id").
Definition clock_of (r : json) : Z := default 0 (get_i64 r (bstr "clock")).
Definition supersedes_of (r : json) : Z := default 0 (get_i64 r (bstr "supersedes")).
Definition is_deleted (r : json) : bool := default false (get_bool r (bstr "deleted")).

Definition record_cmp (a b : json) : comparison :=
  then_ (then_ (cmp (post_id_of a) (post_id_of b)) (cmp (clock_of a) (clock_of b)))
        (cmp (sign_of a) (sign_of b)).

Definition sort_records (records : list json) : list json := sort_by record_cmp records.

Section merge.
Context `{C : Crypto} (float_to_string : Z → bytes).

Definition merge_orset_step (valid_signers : list bytes) (now_ms : Z)
    (by_sign : btree bytes json) (r : json) : btree bytes json :=
  if negb (is_ok (verify_record float_to_string r valid_signers now_ms)) then by_sign
  else let sig := sign_of r in
       if bool_decide (sig = []) then by_sign else bt_or_insert sig r by_sign.

Definition merge_orset (local inbound : json) (valid_signers : list bytes) (now_ms : Z) : json :=
  let by_sign := foldl (merge_orset_step valid_signers now_ms) []
                   (records_of local ++ records_of inbound) in
  make_container (sort_records (bt_values by_sign)).
End merge.

Definition merge_local_step (by_sign : btree bytes json) (r : json) : btree bytes json :=
  let sig := sign_of r in
  if negb (bool_decide (sig = [])) then bt_or_insert sig r by_sign else by_sign.

Definition merge_local (local incoming : json) : json :=
  let by_sign := foldl merge_local_step [] (records_of local ++ records_of incoming) in
  make_container (sort_records (bt_values by_sign)).

Definition dominates (b a : json) : bool :=
  negb (bool_decide (sign_of b = sign_of a)) && (clock_of a <=? supersedes_of b).

Definition frontier (versions : list json) : list json :=
  List.filter (λ a, negb (existsb (λ b, dominates b a) versions)) versions.

Definition winner_cmp (a b : json) : comparison :=
  then_ (then_ (cmp (is_deleted a) (is_deleted b)) (cmp (clock_of a) (clock_of b)))
        (cmp (sign_of a) (sign_of b)).

Definition display_winner (versions : list json) : option json :=
  max_by winner_cmp (frontier versions).

Definition group_step (groups : btree Z (list json)) (r : json) : btree Z (list json) :=
  match post_id_of r with
  | Some pid => bt_upsert (λ vs, vs ++ [r]) pid [r] groups
  | None => groups
  end.

Definition live_records (container : json) : list json :=
  let groups := foldl group_step [] (records_of container) in
  omap (λ g : Z * list json,
          match display_winner g.2 with
          | Some w => if is_deleted w then None else Some w
          | None => None
          end) groups.

(** ** The union by signature *)

Definition record_key (r : json) : option Z * Z * bytes := (post_id_of r, clock_of r, sign_of r).

Lemma record_cmp_key a b : record_cmp a b = cmp (record_key a) (record_key b).
Proof. done. Qed.

Lemma records_of_make_container l : records_of (make_container l) = l.
Proof. done. Qed.

Section union.
Context (keep : json → bool).

Definition union_step (m : btree bytes json) (r : json) : btree bytes json :=
  if keep r && negb (bool_decide (sign_of r = [])) then bt_or_insert (sign_of r) r m else m.

Definition union_map (l : list json) : btree bytes json := foldl union_step [] l.
Definition union_records (l : list json) : list json := sort_records (bt_values (union_map l)).

(** The first kept record with signature [k]. *)
Definition first_kept (l : list json) (k : bytes) : option json :=
  List.find (λ r, keep r && negb (bool_decide (sign_of r = [])) && bool_decide (sign_of r = k)) l.

Lemma first_kept_app l1 l2 k :
  first_kept (l1 ++ l2) k = match first_kept l1 k with Some r => Some r | None => first_kept l2 k end.
Proof.
  unfold first_kept. induction l1 as [|r l1 IH]; simpl; [done|]. by destruct (_ && _).
Qed.

Lemma first_kept_Some l k r : first_kept l k = Some r →
  r ∈ l ∧ keep r = true ∧ sign_of r ≠ [] ∧ sign_of r = k.
Proof.
  intros [Hin Hk]%List.find_some. rewrite !andb_true_iff, negb_true_iff, bool_decide_eq_true,
    bool_decide_eq_false in Hk. split; [by apply list_elem_of_In|]. tauto.
Qed.

Lemma first_kept_is_Some l r : r ∈ l → keep r = true → sign_of r ≠ [] →
  is_Some (first_kept l (sign_of r)).
Proof.
  intros Hin Hk Hs. destruct (first_kept l (sign_of r)) eqn:E; [by eexists|].
  unfold first_kept in E. eapply List.find_none in E; [|by apply list_elem_of_In].
  rewrite Hk, bool_decide_eq_false_2, bool_decide_eq_true_2 in E by done. done.
Qed.

Lemma union_fold_wf m l : bt_wf m → bt_wf (foldl union_step m l).
Proof.
  revert m; induction l as [|r l IH]; intros m Hm; simpl; [done|]. apply IH.
  unfold union_step. destruct (_ && _); auto with btree.
Qed.

Lemma union_fold_get m l k :
  bt_get (foldl union_step m l) k =
    match bt_get m k with Some r => Some r | None => first_kept l k end.
Proof.
  revert m; induction l as [|r l IH]; intros m; simpl; [by destruct (bt_get m k)|].
  rewrite IH. unfold union_step, first_kept at 2. simpl.
  destruct (keep r && negb (bool_decide (sign_of r = []))) eqn:E; simpl; [|done].
  rewrite bt_get_or_insert. destruct (bt_get m k); [done|].
  case_decide as D; [by rewrite bool_decide_eq_true_2 by congruence|].
  by rewrite (bool_decide_eq_false_2 (sign_of r = k)) by congruence.
Qed.

Lemma union_map_wf l : bt_wf (union_map l).
Proof. apply union_fold_wf, bt_wf_nil. Qed.

Lemma union_map_get l k : bt_get (union_map l) k = first_kept l k.
Proof. apply (union_fold_get []). Qed.

Lemma union_map_ext l1 l2 : (∀ k, first_kept l1 k = first_kept l2 k) → union_map l1 = union_map l2.
Proof. intros Heq. apply bt_ext; auto using union_map_wf. intros k. by rewrite !union_map_get. Qed.

Lemma elem_of_union_records l r : r ∈ union_records l ↔ first_kept l (sign_of r) = Some r.
Proof.
  unfold union_records, sort_records, bt_values. rewrite elem_of_sort_by, list_elem_of_fmap.
  split.
  - intros ([k v] & -> & Hin). apply bt_get_elem in Hin; [|apply union_map_wf].
    rewrite union_map_get in Hin. pose proof (first_kept_Some _ _ _ Hin) as (_ & _ & _ & Hk).
    simpl in *. by rewrite Hk.
  - intros Hf. exists (sign_of r, r). split; [done|].
    apply bt_get_elem; [apply union_map_wf|]. by rewrite union_map_get.
Qed.

(** A union read back as a list of records has the same lookups. *)
Lemma first_kept_union l k : first_kept (union_records l) k = first_kept l k.
Proof.
  destruct (first_kept l k) as [r|] eqn:E.
  - pose proof (first_kept_Some _ _ _ E) as (_ & Hk & Hs & Hsk).
    assert (r ∈ union_records l) as Hin by (apply elem_of_union_records; by rewrite Hsk).
    destruct (first_kept_is_Some _ _ Hin Hk Hs) as [r' E']. rewrite Hsk in E'.
    rewrite E'. pose proof (first_kept_Some _ _ _ E') as (Hin' & _ & _ & Hsk').
    apply elem_of_union_records in Hin'. rewrite Hsk' in Hin'. congruence.
  - destruct (first_kept (union_records l) k) as [r|] eqn:E'; [|done].
    pose proof (first_kept_Some _ _ _ E') as (Hin' & _ & _ & Hsk').
    apply elem_of_union_records in Hin'. rewrite Hsk' in Hin'. congruence.
Qed.

Lemma union_records_ext l1 l2 :
  (∀ k, first_kept l1 k = first_kept l2 k) → union_records l1 = union_records l2.
Proof. intros Heq. unfold union_records. by rewrite (union_map_ext l1 l2). Qed.

Lemma union_absorb_l l1 l2 : union_records (union_records l1 ++ l2) = union_records (l1 ++ l2).
Proof. apply union_records_ext. intros k. by rewrite !first_kept_app, first_kept_union. Qed.

Lemma union_absorb_r l1 l2 : union_records (l1 ++ union_records l2) = union_records (l1 ++ l2).
Proof. apply union_records_ext. intros k. by rewrite !first_kept_app, first_kept_union. Qed.

Lemma union_twice l : union_records (l ++ l) = union_records l.
Proof.
  apply union_records_ext. intros k. rewrite first_kept_app. by destruct (first_kept l k).
Qed.

(** A signature names one kept record among [l]. *)
Definition sign_unique (l : list json) : Prop := ∀ r1 r2, r1 ∈ l → r2 ∈ l →
  keep r1 = true → keep r2 = true → sign_of r1 ≠ [] → sign_of r1 = sign_of r2 → r1 = r2.

Lemma first_kept_unique l r : sign_unique l → r ∈ l → keep r = true → sign_of r ≠ [] →
  first_kept l (sign_of r) = Some r.
Proof.
  intros Hu Hin Hk Hs. destruct (first_kept_is_Some _ _ Hin Hk Hs) as [r' E].
  rewrite E. pose proof (first_kept_Some _ _ _ E) as (? & ? & ? & ?).
  f_equal. symmetry. apply Hu; auto.
Qed.

Lemma union_comm l1 l2 : sign_unique (l1 ++ l2) → union_records (l1 ++ l2) = union_records (l2 ++ l1).
Proof.
  intros Hu. assert (∀ r, r ∈ l2 ++ l1 ↔ r ∈ l1 ++ l2) as Hin by (intros r; rewrite !elem_of_app; tauto).
  assert (sign_unique (l2 ++ l1)) as Hu' by (intros r1 r2; rewrite !Hin; apply Hu).
  apply union_records_ext. intros k.
  destruct (first_kept (l1 ++ l2) k) as [r|] eqn:E.
  - pose proof (first_kept_Some _ _ _ E) as (Hr & Hk & Hs & <-).
    symmetry. apply first_kept_unique; auto. by apply Hin.
  - destruct (first_kept (l2 ++ l1) k) as [r|] eqn:E'; [|done].
    pose proof (first_kept_Some _ _ _ E') as (Hr & Hk & Hs & <-).
    rewrite first_kept_unique in E; [done|auto|by apply Hin|done|done].
Qed.

Lemma union_records_sorted l : StronglySorted (cle record_cmp) (union_records l).
Proof.
  apply sort_by_sorted.
  - intros x y. rewrite !record_cmp_key. apply cmp_opp.
  - intros x y z. unfold cle. rewrite !record_cmp_key. apply ole_trans.
Qed.
End union.

Section merge_facts.
Context `{C : Crypto} (fts : Z → bytes) (signers : list bytes) (now : Z).

Definition verified (r : json) : bool := is_ok (verify_record fts r signers now).

Lemma merge_orset_union a b :
  merge_orset fts a b signers now =
  make_container (union_records verified (records_of a ++ records_of b)).
Proof.
  unfold merge_orset, union_records, union_map.
  assert (∀ l m, foldl (merge_orset_step fts signers now) m l = foldl (union_step verified) m l) as ->;
    [|done].
  induction l as [|r l IH]; intros m; simpl; [done|]. rewrite IH. f_equal.
  unfold merge_orset_step, union_step, verified. destruct (is_ok _); simpl; [|done].
  by case_bool_decide.
Qed.

Lemma merge_local_union a b :
  merge_local a b = make_container (union_records (λ _, true) (records_of a ++ records_of b)).
Proof. done. Qed.
End merge_facts.

(** ** Headline theorems on merging *)

(** C2: what [merge_orset] outputs. Every record of the result verifies and
    comes from one of the inputs; every verified signature of either input is
    represented; a merge never loses a record of an earlier merge result (a
    blank or partial peer container cannot wipe anything); the output is
    sorted by (post id, clock, signature). *)
Theorem merge_grow_only `{C : Crypto} fts signers now a b c :
  let M x y := merge_orset fts x y signers now in
  (∀ r, r ∈ records_of (M a b) →
     (r ∈ records_of a ∨ r ∈ records_of b) ∧ verify_record fts r signers now = Ok tt ∧ sign_of r ≠ []) ∧
  (∀ r, r ∈ records_of a ∨ r ∈ records_of b → verify_record fts r signers now = Ok tt → sign_of r ≠ [] →
     ∃ r', r' ∈ records_of (M a b) ∧ sign_of r' = sign_of r) ∧
  (∀ r, r ∈ records_of (M a b) → r ∈ records_of (M (M a b) c)) ∧
  (records_of c = [] → M (M a b) c = M a b) ∧
  StronglySorted (cle record_cmp) (records_of (M a b)).
Proof.
  intros M. unfold M. rewrite !merge_orset_union, !records_of_make_container.
  assert (∀ r, verified fts signers now r = true ↔ verify_record fts r signers now = Ok tt) as Hv.
  { intros r. unfold verified. destruct (verify_record fts r signers now) as [[]|]; simpl; split; done. }
  split_and!.
  - intros r Hr%elem_of_union_records. apply first_kept_Some in Hr as (Hin & Hk & Hs & _).
    rewrite elem_of_app in Hin. split_and!; auto. by apply Hv.
  - intros r Hin Hk%Hv Hs. rewrite <- elem_of_app in Hin.
    destruct (first_kept_is_Some _ _ _ Hin Hk Hs) as [r' Hr'].
    pose proof (first_kept_Some _ _ _ _ Hr') as (_ & _ & _ & Hsr).
    exists r'. split; [|done]. apply elem_of_union_records. by rewrite Hsr.
  - intros r Hr%elem_of_union_records. apply elem_of_union_records.
    rewrite first_kept_app, first_kept_union, Hr. done.
  - intros Hc. rewrite Hc, app_nil_r. f_equal. apply union_records_ext. intros k. apply first_kept_union.
  - apply union_records_sorted.
Qed.


(** The author's own write merges without verification: every signed
    record on disk or in the write survives by signature, so a blank or
    partial page view wipes nothing, and merging again changes nothing. *)
Theorem merge_local_keeps local incoming :
  (∀ r, r ∈ records_of local ∨ r ∈ records_of incoming → sign_of r ≠ [] →
     ∃ r', r' ∈ records_of (merge_local local incoming) ∧ sign_of r' = sign_of r) ∧
  (∀ r, r ∈ records_of (merge_local local incoming) → r ∈ records_of local ∨ r ∈ records_of incoming) ∧
  (∀ c, records_of c = [] →
     merge_local (merge_local local incoming) c = merge_local local incoming) ∧
  merge_local (merge_local local incoming) incoming = merge_local local incoming.
Proof.
  rewrite !merge_local_union, !records_of_make_container. split_and!.
  - intros r Hin Hs. rewrite <- elem_of_app in Hin.
    destruct (first_kept_is_Some (λ _, true) _ _ Hin eq_refl Hs) as [r' Hr'].
    pose proof (first_kept_Some _ _ _ _ Hr') as (_ & _ & _ & Hsr).
    exists r'. split; [|done]. apply elem_of_union_records. by rewrite Hsr.
  - intros r Hr%elem_of_union_records. apply first_kept_Some in Hr as (Hin & _).
    by rewrite elem_of_app in Hin.
  - intros c Hc. rewrite merge_local_union, records_of_make_container, Hc, app_nil_r.
    f_equal. apply union_records_ext. intros k. apply first_kept_union.
  - f_equal. rewrite union_absorb_l. apply union_records_ext. intros k.
    rewrite !first_kept_app. destruct (first_kept _ (records_of local) k); [done|].
    by destruct (first_kept _ (records_of incoming) k).
Qed.

(** ** Headline theorem on verification *)

Lemma ok_or_Ok {E A} (o : option A) (e : E) a : ok_or o e = Ok a ↔ o = Some a.
Proof. destruct o; simpl; split; congruence. Qed.

Lemma record_fields_Ok r author sig clock :
  record_fields r = Ok (author, sig, clock) ↔
  ∃ m pid date,
    r = JObj m ∧ get_str r (bstr "author") = Some author ∧ get_str r (bstr "sign") = Some sig ∧
    get_i64 r (bstr "clock") = Some clock ∧ get_i64 r (bstr "post_id") = Some pid ∧
    (is_Some (get_str r (bstr "nonce")) ∨ is_Some (get_str r (bstr "key"))) ∧
    get_i64 r (bstr "date_added") = Some date.
Proof.
  unfold record_fields, missing.
  destruct r as [| | | | | |m]; try (split; [done|by intros (? & ? & ? & ? & _)]).
  cbn [as_object ok_or mbind result_bind]. set (r := JObj m).
  destruct (get_str r (bstr "author")) as [a|]; cbn [ok_or mbind result_bind]; [|split; naive_solver].
  destruct (get_str r (bstr "sign")) as [s|]; cbn [ok_or mbind result_bind]; [|split; naive_solver].
  destruct (get_i64 r (bstr "clock")) as [c|]; cbn [ok_or mbind result_bind]; [|split; naive_solver].
  destruct (get_i64 r (bstr "post_id")) as [p|]; cbn [ok_or mbind result_bind]; [|split; naive_solver].
  destruct (get_i64 r (bstr "date_added")) as [d|];
    destruct (get_str r (bstr "nonce")), (get_str r (bstr "key")); cbn [ok_or mbind result_bind];
    (split; [intros [=]; subst; eauto 12|
             intros (? & ? & ? & ? & ? & ? & ? & ? & [[? ?]|[? ?]] & ?); congruence]).
Qed.

Section signature.
Context `{C : Crypto} (fts : Z → bytes) (signers : list bytes).

(** The signer a record may carry: its author, or for a moderated tombstone
    any authorised signer. *)
Definition may_sign (r : json) (author signer : bytes) : Prop :=
  signer = author ∨
  (flag r (bstr "moderated") = true ∧ flag r (bstr "deleted") = true ∧ signer ∈ signers).

Definition signed_by (r : json) (signer sig : bytes) : Prop :=
  verify (record_signed_data fts r) signer sig = true ∨
  verify_keccak (record_signed_data fts r) signer sig = true.

Lemma signature_ok_spec r author sig : author ∈ signers →
  signature_ok fts r author sig signers = true ↔
  ∃ signer, may_sign r author signer ∧ signed_by r signer sig.
Proof.
  intros Hin. unfold signature_ok, may_sign, signed_by.
  destruct (flag r (bstr "moderated") && flag r (bstr "deleted")) eqn:E.
  - apply andb_true_iff in E as [E1 E2]. rewrite existsb_exists. setoid_rewrite orb_true_iff.
    setoid_rewrite <- list_elem_of_In. split; [naive_solver|].
    intros (s & [->|(_ & _ & Hs)] & Hv); eauto.
  - rewrite orb_true_iff. split; [eauto|]. intros (s & [->|(E1 & E2 & _)] & Hv); [done|].
    by rewrite E1, E2 in E.
Qed.
End signature.

(** C3: [verify_record] accepts exactly the records with the identity fields,
    a clock between 0 and the skew bound, an authorised author, an empty body
    when deleted, and a signature that recovers to the author - or, for a
    moderated tombstone only, to some authorised signer. *)
Theorem verify_record_spec `{C : Crypto} fts r signers now :
  verify_record fts r signers now = Ok tt ↔
  ∃ m author sig clock pid date,
    r = JObj m ∧ get_str r (bstr "author") = Some author ∧ get_str r (bstr "sign") = Some sig ∧
    get_i64 r (bstr "clock") = Some clock ∧ get_i64 r (bstr "post_id") = Some pid ∧
    (is_Some (get_str r (bstr "nonce")) ∨ is_Some (get_str r (bstr "key"))) ∧
    get_i64 r (bstr "date_added") = Some date ∧
    0 <= clock <= now + CLOCK_SKEW_BOUND_MS ∧ author ∈ signers ∧
    (flag r (bstr "deleted") = true → default [] (get_str r (bstr "body")) = []) ∧
    ∃ signer, may_sign signers r author signer ∧ signed_by fts r signer sig.
Proof.
  assert (∀ author, existsb (λ s, bool_decide (s = author)) signers = true ↔ author ∈ signers) as Hauth.
  { intros author. rewrite existsb_exists. setoid_rewrite <- list_elem_of_In.
    setoid_rewrite bool_decide_eq_true. naive_solver. }
  unfold verify_record. destruct (record_fields r) as [[[author sig] clock]|e] eqn:Hf.
  2:{ split; [done|]. intros (m & a & s & c & p & d & H1 & H2 & H3 & H4 & H5 & H6 & H7 & _).
      assert (record_fields r = Ok (a, s, c)) as Hq by (apply record_fields_Ok; eauto 12). congruence. }
  cbn [mbind result_bind]. pose proof (proj1 (record_fields_Ok r author sig clock) Hf)
    as (m & pid & date & H1 & H2 & H3 & H4 & H5 & H6 & H7).
  transitivity (0 <= clock <= now + CLOCK_SKEW_BOUND_MS ∧ author ∈ signers ∧
    (flag r (bstr "deleted") = true → default [] (get_str r (bstr "body")) = []) ∧
    signature_ok fts r author sig signers = true).
  - rewrite <- Hauth. destruct (flag r (bstr "deleted")) eqn:Hd; cbn [andb negb].
    + case_bool_decide; cbn [negb]; [|naive_solver].
      destruct (Z.ltb_spec clock 0); [split; [done|lia]|].
      destruct (Z.ltb_spec (now + CLOCK_SKEW_BOUND_MS) clock); [split; [done|lia]|].
      destruct (existsb _ _); cbn [negb]; [|naive_solver].
      destruct (signature_ok _ _ _ _ _); [|naive_solver]. split; [|done]. intros _.
      split_and!; auto; lia.
    + destruct (Z.ltb_spec clock 0); [split; [done|lia]|].
      destruct (Z.ltb_spec (now + CLOCK_SKEW_BOUND_MS) clock); [split; [done|lia]|].
      destruct (existsb _ _); cbn [negb]; [|naive_solver].
      destruct (signature_ok _ _ _ _ _); [|naive_solver]. split; [|done]. intros _.
      split_and!; auto; try lia; done.
  - split.
    + intros (Hc & Ha & Hb & Hs). rewrite signature_ok_spec in Hs by done.
      exists m, author, sig, clock, pid, date. split_and!; auto; lia.
    + intros (m' & a & s & c & p & d & _ & G2 & G3 & G4 & _ & _ & _ & Hc & Ha & Hb & Hs).
      assert (a = author) as -> by congruence. assert (s = sig) as -> by congruence.
      assert (c = clock) as -> by congruence. split_and!; auto; try lia.
      by apply signature_ok_spec.
Qed.

(** ** The live view *)

Definition versions_of (records : list json) (pid : Z) : list json :=
  List.filter (λ r, bool_decide (post_id_of r = Some pid)) records.

Lemma elem_of_versions l pid r : r ∈ versions_of l pid ↔ r ∈ l ∧ post_id_of r = Some pid.
Proof.
  unfold versions_of. rewrite !list_elem_of_In, List.filter_In, bool_decide_eq_true. done.
Qed.

Definition groups_of (records : list json) : btree Z (list json) := foldl group_step [] records.

Lemma groups_wf l : bt_wf (groups_of l).
Proof.
  unfold groups_of. assert (∀ m, bt_wf m → bt_wf (foldl group_step m l)) as H; [|auto with btree].
  induction l as [|r l IH]; intros m Hm; simpl; [done|]. apply IH. unfold group_step.
  destruct (post_id_of r); auto with btree.
Qed.

Lemma groups_get l pid :
  bt_get (groups_of l) pid = match versions_of l pid with [] => None | vs => Some vs end.
Proof.
  unfold groups_of. assert (∀ m, bt_get (foldl group_step m l) pid =
    match versions_of l pid with [] => bt_get m pid
    | vs => Some (default [] (bt_get m pid) ++ vs) end) as H; [|by rewrite H].
  induction l as [|r l IH]; intros m; simpl; [done|]. rewrite IH. unfold group_step.
  destruct (post_id_of r) as [p|]; simpl; [|done]. rewrite bt_get_upsert.
  case_bool_decide as D; case_decide as D'; try congruence.
  injection D as ->. destruct (bt_get m pid); simpl; destruct (versions_of l pid); simpl;
      by rewrite <- ?app_assoc.
Qed.

Definition winner_key (r : json) : bool * Z * bytes := (is_deleted r, clock_of r, sign_of r).

Lemma winner_cmp_key a b : winner_cmp a b = cmp (winner_key a) (winner_key b).
Proof. done. Qed.

Lemma winner_opp x y : winner_cmp y x = CompOpp (winner_cmp x y).
Proof. rewrite !winner_cmp_key. apply cmp_opp. Qed.

Lemma winner_trans x y z : cle winner_cmp x y → cle winner_cmp y z → cle winner_cmp x z.
Proof. unfold cle. rewrite !winner_cmp_key. apply ole_trans. Qed.

Lemma elem_of_frontier vs r :
  r ∈ frontier vs ↔ r ∈ vs ∧ ∀ b, b ∈ vs → sign_of b ≠ sign_of r → supersedes_of b < clock_of r.
Proof.
  unfold frontier. rewrite !list_elem_of_In, List.filter_In, negb_true_iff.
  rewrite <- not_true_iff_false, existsb_exists. setoid_rewrite <- list_elem_of_In.
  unfold dominates. setoid_rewrite andb_true_iff. setoid_rewrite negb_true_iff.
  setoid_rewrite bool_decide_eq_false. setoid_rewrite Z.leb_le. split; intros [Hr Hd]; split; auto.
  - intros b Hb Hs. destruct (Z.lt_ge_cases (supersedes_of b) (clock_of r)); [done|].
    exfalso. eauto.
  - intros (b & Hb & Hs & Hc). specialize (Hd b Hb Hs). lia.
Qed.

Lemma display_winner_spec vs w : display_winner vs = Some w →
  w ∈ frontier vs ∧ ∀ r, r ∈ frontier vs → ole (winner_key r) (winner_key w).
Proof.
  intros Hw. split; [by eapply max_by_elem|]. intros r Hr. unfold ole.
  rewrite <- winner_cmp_key. by apply (max_by_ge _ winner_opp winner_trans _ _ _ Hw).
Qed.

(** The version with the highest clock is dominated by none, when versions
    only supersede versions with a smaller clock than their own. *)
Lemma frontier_inhabited vs :
  vs ≠ [] → (∀ r, r ∈ vs → supersedes_of r < clock_of r) → frontier vs ≠ [].
Proof.
  intros Hne Hclk.
  destruct (max_by (λ a b, cmp (clock_of a) (clock_of b)) vs) as [m|] eqn:E;
    [|by apply max_by_None in E].
  assert (m ∈ frontier vs) as Hm; [|intros Hf; rewrite Hf in Hm; by apply elem_of_nil in Hm].
  apply elem_of_frontier. split; [by eapply max_by_elem|]. intros b Hb _.
  assert (cle (λ a b, cmp (clock_of a) (clock_of b)) b m) as Hle.
  { apply (max_by_ge _) with (l := vs); [intros; apply cmp_opp|intros x y z; apply ole_trans|done|done]. }
  specialize (Hclk b Hb). change (clock_of b <= clock_of m) in Hle. lia.
Qed.

Lemma display_winner_None vs : display_winner vs = None ↔ frontier vs = [].
Proof. apply max_by_None. Qed.

Lemma live_records_elem c r :
  r ∈ live_records c ↔
  ∃ pid, display_winner (versions_of (records_of c) pid) = Some r ∧ is_deleted r = false.
Proof.
  unfold live_records. change (foldl group_step [] (records_of c)) with (groups_of (records_of c)).
  rewrite list_elem_of_omap. split.
  - intros ([pid vs] & Hin & Hw). simpl in Hw. exists pid.
    apply bt_get_elem in Hin; [|apply groups_wf]. rewrite groups_get in Hin.
    assert (versions_of (records_of c) pid = vs) as -> by (destruct (versions_of _ pid); congruence).
    destruct (display_winner vs) as [w|]; [|done]. destruct (is_deleted w) eqn:Ed; [done|].
    by injection Hw as ->.
  - intros (pid & Hw & Hd). exists (pid, versions_of (records_of c) pid). simpl.
    rewrite Hw, Hd. split; [|done]. apply bt_get_elem; [apply groups_wf|]. rewrite groups_get.
    destruct (versions_of (records_of c) pid); [done|done].
Qed.

(** The live view shows, per post, the maximal undominated version and
    nothing else: at most one record per post id, never a tombstone, and no
    record of a post whose undominated versions include a tombstone. When
    versions supersede only older clocks, every post has a winner, so a post
    disappears only by deletion. *)
Theorem live_records_correct c pid :
  let vs := versions_of (records_of c) pid in
  (∀ r, r ∈ live_records c → ∃ p, post_id_of r = Some p ∧ r ∈ records_of c ∧ is_deleted r = false) ∧
  (∀ r r', r ∈ live_records c → r' ∈ live_records c → post_id_of r = post_id_of r' → r = r') ∧
  (∀ r, r ∈ live_records c ∧ post_id_of r = Some pid ↔
     display_winner vs = Some r ∧ is_deleted r = false) ∧
  (∀ t r, t ∈ frontier vs → is_deleted t = true → r ∈ live_records c → post_id_of r ≠ Some pid) ∧
  (vs ≠ [] → (∀ r, r ∈ vs → supersedes_of r < clock_of r) →
     ∃ w, display_winner vs = Some w ∧
       (w ∈ live_records c ∨ (is_deleted w = true ∧ ∀ r, r ∈ live_records c → post_id_of r ≠ Some pid))).
Proof.
  intros vs.
  assert (∀ r p, display_winner (versions_of (records_of c) p) = Some r →
    post_id_of r = Some p ∧ r ∈ records_of c) as Hpid.
  { intros r p [[Hf _]%elem_of_frontier _]%display_winner_spec. apply elem_of_versions in Hf. tauto. }
  assert (∀ r, r ∈ live_records c ∧ post_id_of r = Some pid ↔
     display_winner vs = Some r ∧ is_deleted r = false) as Hlive.
  { intros r. rewrite live_records_elem. split.
    - intros [(p & Hw & Hd) Hp]. destruct (Hpid _ _ Hw) as [Hp' _].
      assert (p = pid) as -> by congruence. done.
    - intros [Hw Hd]. split; [eauto|]. by apply Hpid in Hw as [? _]. }
  split_and!; [| |exact Hlive| |].
  - intros r (p & Hw & Hd)%live_records_elem. apply Hpid in Hw as [? ?]. eauto.
  - intros r r' (p & Hw & _)%live_records_elem (p' & Hw' & _)%live_records_elem Heq.
    destruct (Hpid _ _ Hw), (Hpid _ _ Hw'). assert (p = p') as -> by congruence. congruence.
  - intros t r Ht Hdel Hr Hp. destruct (proj1 (Hlive r) (conj Hr Hp)) as [Hw Hd].
    apply display_winner_spec in Hw as [_ Hmax]. specialize (Hmax t Ht).
    unfold ole in Hmax. rewrite <- winner_cmp_key in Hmax. unfold winner_cmp in Hmax.
    rewrite Hdel, Hd in Hmax. done.
  - intros Hne Hclk. destruct (display_winner vs) as [w|] eqn:Hw.
    2:{ apply display_winner_None in Hw. by apply frontier_inhabited in Hw. }
    exists w. split; [done|]. destruct (is_deleted w) eqn:Hd; [right|left].
    + split; [done|]. intros r Hr Hp. destruct (proj1 (Hlive r) (conj Hr Hp)). congruence.
    + apply (Hlive w). auto.
Qed.

(** The live view is a function of the set of records: containers holding
    the same records in any order show the same live list. *)
Theorem live_records_perm c c' :
  records_of c ≡ₚ records_of c' →
  (∀ r r', r ∈ records_of c → r' ∈ records_of c → sign_of r = sign_of r' → r = r') →
  live_records c = live_records c'.
Proof.
  intros Hp Hu. unfold live_records.
  change (foldl group_step [] ?l) with (groups_of l).
  assert (∀ g : btree Z (list json), omap (λ g : Z * list json,
    match display_winner g.2 with Some w => if is_deleted w then None else Some w | None => None end) g
    = omap (λ g : Z * option json,
        match g.2 with Some w => if is_deleted w then None else Some w | None => None end)
        (bt_map display_winner g)) as Hmap.
  { induction g as [|[p vs] g IH]; [done|]. cbn. rewrite IH. done. }
  rewrite !Hmap. f_equal. apply bt_ext; auto using bt_map_wf, groups_wf. intros pid.
  rewrite !bt_get_map, !groups_get.
  assert (versions_of (records_of c) pid ≡ₚ versions_of (records_of c') pid) as Hv by (by apply filter_perm).
  assert (display_winner (versions_of (records_of c) pid) =
    display_winner (versions_of (records_of c') pid)) as Hw.
  { apply max_by_perm; [apply winner_opp|apply winner_trans| |].
    - intros x y [Hx _]%elem_of_frontier [Hy _]%elem_of_frontier Heq.
      apply elem_of_versions in Hx as [Hx _], Hy as [Hy _]. apply Hu; auto.
      rewrite winner_cmp_key in Heq. by apply cmp_eq_iff in Heq as [= _ _ ?].
    - apply filter_perm; [|done]. intros x. f_equal. by apply existsb_perm. }
  destruct (versions_of (records_of c) pid) as [|v vs], (versions_of (records_of c') pid) as [|v' vs'].
  - done.
  - by apply Permutation_length in Hv.
  - by apply Permutation_length in Hv.
  - cbn [fmap option_fmap option_map]. by rewrite Hw.
Qed.

(** Two versions that each claim to supersede the other (their
    [supersedes] reaches the other's clock) dominate each other, and the post
    then has no display winner although it has versions: [display_winner]
    returns [None] on a non-empty input and the post vanishes without a
    tombstone. Nothing in [verify_record] bounds [supersedes]. *)
Theorem mutual_supersede_vanishes r1 r2 pid :
  post_id_of r1 = Some pid → post_id_of r2 = Some pid → sign_of r1 ≠ sign_of r2 →
  clock_of r2 <= supersedes_of r1 → clock_of r1 <= supersedes_of r2 →
  display_winner [r1; r2] = None ∧ live_records (make_container [r1; r2]) = [].
Proof.
  intros H1 H2 Hs C1 C2.
  assert (dominates r1 r2 = true) as D12.
  { unfold dominates. rewrite bool_decide_eq_false_2 by done. simpl. lia. }
  assert (dominates r2 r1 = true) as D21.
  { unfold dominates. rewrite bool_decide_eq_false_2 by congruence. simpl. lia. }
  assert (display_winner [r1; r2] = None) as Hw.
  { apply display_winner_None. unfold frontier. cbn [List.filter existsb].
    by rewrite D12, D21, !orb_true_r. }
  split; [done|]. unfold live_records. rewrite records_of_make_container.
  assert (foldl group_step [] [r1; r2] = [(pid, [r1; r2])]) as ->.
  { cbn [foldl]. unfold group_step. rewrite H1, H2.
    unfold bt_upsert. cbn [bt_get bt_insert]. rewrite cmp_refl. done. }
  cbn [omap list_omap snd]. by rewrite Hw.
Qed.

(** ** Witnesses *)

Definition rec_ex (clock supersedes : Z) (sig : bytes) : json :=
  JObj [(bstr "clock", JInt clock); (bstr "post_id", JInt 7); (bstr "sign", JStr sig);
        (bstr "supersedes", JInt supersedes)].


Lemma live_records_perm_witness :
  live_records (make_container [rec_ex 1 0 (bstr "a"); rec_ex 2 1 (bstr "b")]) =
  live_records (make_container [rec_ex 2 1 (bstr "b"); rec_ex 1 0 (bstr "a")]).
Proof.
  apply live_records_perm.
  - rewrite !records_of_make_container. apply Permutation_swap.
  - rewrite !records_of_make_container.
    intros r r' [->|[->|[]%elem_of_nil]%elem_of_cons]%elem_of_cons
      [->|[->|[]%elem_of_nil]%elem_of_cons]%elem_of_cons; done.
Defined.

Lemma mutual_supersede_vanishes_witness :
  live_records (make_container [rec_ex 5 5 (bstr "a"); rec_ex 5 5 (bstr "b")]) = [].
Proof.
  refine (proj2 (mutual_supersede_vanishes (rec_ex 5 5 (bstr "a")) (rec_ex 5 5 (bstr "b")) 7 _ _ _ _ _));
    by vm_compute.
Defined.
