(* ===== verification/Bencode.v ===== *)
(** * Bencode ([crates/epix-bt/src/bencode.rs])

    The decoder walks the buffer with an offset; it is modelled over the pair
    (offset, unread bytes). Recursion is bounded by a fuel that the input's
    length pays for ([decode_total]). *)
From S2P Require Import Prelude Ordered Json Canonical.
From Stdlib Require Import ZArith Lia Strings.Byte.
From stdpp Require Import base list sorting strings.
#[local] Open Scope Z_scope.

#[local] Unset Elimination Schemes.
Inductive bvalue :=
  | BInt (i : Z)
  | BBytes (b : bytes)
  | BList (l : list bvalue)
  | BDict (d : list (bytes * bvalue)).
#[local] Set Elimination Schemes.

Section bvalue_ind.
Context (P : bvalue → Prop).
Context (Hint : ∀ i, P (BInt i)) (Hbytes : ∀ b, P (BBytes b))
  (Hlist : ∀ l, Forall P l → P (BList l)) (Hdict : ∀ d, Forall (λ p, P p.2) d → P (BDict d)).

Fixpoint bvalue_ind (v : bvalue) : P v :=
  match v with
  | BInt i => Hint i
  | BBytes b => Hbytes b
  | BList l => Hlist l ((fix go l : Forall P l :=
      match l with
      | [] => @Forall_nil_2 _ _
      | v :: l => @Forall_cons_2 _ _ v l (bvalue_ind v) (go l)
      end) l)
  | BDict d => Hdict d ((fix go d : Forall (λ p, P p.2) d :=
      match d with
      | [] => @Forall_nil_2 _ _
      | p :: d => @Forall_cons_2 _ (λ p, P p.2) p d (bvalue_ind p.2) (go d)
      end) d)
  end.
End bvalue_ind.

Inductive BencodeError :=
  | Eof | BadInt | BadLen | Unexpected (b : byte) (pos : Z) | Trailing | BadDictKey.

Abbreviation bres := (result BencodeError).

Definition bget (v : bvalue) (key : bytes) : option bvalue :=
  match v with BDict d => bt_get d key | _ => None end.

(** ** Number parsing ([str::parse]) *)

Definition all_digits (s : bytes) : bool := forallb is_digit s.

(** [parse::<usize>]: an optional plus sign, digits, no overflow. *)
Definition parse_u64 (s : bytes) : option Z :=
  let ds := match s with x2b :: ds => ds | _ => s end in
  if bool_decide (ds = []) || negb (all_digits ds) then None
  else if dec_val ds <=? u64_max then Some (dec_val ds) else None.

(** [parse::<i64>]: an optional sign. *)
Definition parse_i64 (s : bytes) : option Z :=
  match s with
  | x2d :: ds =>
      if bool_decide (ds = []) || negb (all_digits ds) then None
      else if dec_val ds <=? - i64_min then Some (- dec_val ds) else None
  | _ =>
      let ds := match s with x2b :: ds => ds | _ => s end in
      if bool_decide (ds = []) || negb (all_digits ds) then None
      else if dec_val ds <=? i64_max then Some (dec_val ds) else None
  end.

(** ** The parser *)

(** Offset and unread bytes. *)
Abbreviation pstate := (Z * bytes)%type.

Fixpoint take_until (stop : byte) (rest : bytes) : option (bytes * bytes) :=
  match rest with
  | [] => None
  | b :: rest => if bool_decide (b = stop) then Some ([], rest)
                 else '(s, r) ← take_until stop rest; Some (b :: s, r)
  end.

Definition integer (st : pstate) : bres (bvalue * pstate) :=
  let '(pos, rest) := st in
  match take_until x65 rest with
  | None => Err Eof
  | Some (s, rest) =>
      if bool_decide (s = []) || bool_decide (s = bstr "-0")
         || (bool_decide (head s = Some x30) && (1 <? blen s))
         || (bool_decide (firstn 2 s = bstr "-0") && (2 <? blen s))
      then Err BadInt
      else match parse_i64 s with
           | None => Err BadInt
           | Some n => Ok (BInt n, (pos + blen s + 1, rest))
           end
  end.

(** The length digits of a byte string, up to its colon. *)
Fixpoint scan_len (rest : bytes) : bres (bytes * bytes) :=
  match rest with
  | [] => Err Eof
  | b :: rest =>
      if bool_decide (b = x3a) then Ok ([], rest)
      else if negb (is_digit b) then Err BadLen
      else '(s, r) ← scan_len rest; Ok (b :: s, r)
  end.

Definition byte_string (st : pstate) : bres (bytes * pstate) :=
  let '(pos, rest) := st in
  '(s, rest) ← scan_len rest;
  match parse_u64 s with
  | None => Err BadLen
  | Some len =>
      let pos := pos + blen s + 1 in
      if u64_max <? pos + len then Err BadLen
      else if blen rest <? len then Err Eof
      else Ok (firstn (Z.to_nat len) rest, (pos + len, skipn (Z.to_nat len) rest))
  end.

(** The byte span of the [info] value, when the top dict is tracked. *)
Abbreviation span := (option (Z * Z)).

(** [None] is running out of fuel; [decode_total] excludes it. *)
Fixpoint value (fuel : nat) (st : pstate) : option (bres (bvalue * pstate)) :=
  match fuel with
  | O => None
  | S fuel =>
      let '(pos, rest) := st in
      match rest with
      | [] => Some (Err Eof)
      | b :: rest' =>
          if bool_decide (b = x69) then Some (integer (pos + 1, rest'))
          else if bool_decide (b = x6c) then
            r ← list_loop fuel (pos + 1, rest') [];
            Some ('(l, st) ← r; Ok (BList l, st))
          else if bool_decide (b = x64) then
            r ← dict_loop fuel (pos + 1, rest') [] None None;
            Some ('(d, st, _) ← r; Ok (BDict d, st))
          else if is_digit b then Some ('(bs, st) ← byte_string st; Ok (BBytes bs, st))
          else Some (Err (Unexpected b pos))
      end
  end
with list_loop (fuel : nat) (st : pstate) (out : list bvalue) : option (bres (list bvalue * pstate)) :=
  match fuel with
  | O => None
  | S fuel =>
      let '(pos, rest) := st in
      match rest with
      | [] => Some (Err Eof)
      | b :: rest' =>
          if bool_decide (b = x65) then Some (Ok (out, (pos + 1, rest')))
          else r ← value fuel st;
               match r with
               | Err e => Some (Err e)
               | Ok (v, st) => list_loop fuel st (out ++ [v])
               end
      end
  end
with dict_loop (fuel : nat) (st : pstate) (out : btree bytes bvalue) (last_key : option bytes) (info : span)
    : option (bres (btree bytes bvalue * pstate * span)) :=
  match fuel with
  | O => None
  | S fuel =>
      let '(pos, rest) := st in
      match rest with
      | [] => Some (Err Eof)
      | b :: rest' =>
          if bool_decide (b = x65) then Some (Ok (out, (pos + 1, rest'), info))
          else if negb (is_digit b) then Some (Err BadDictKey)
          else match byte_string st with
          | Err e => Some (Err e)
          | Ok (key, st) =>
              if match last_key with Some prev => oleb key prev | None => false end
              then Some (Err BadDictKey)
              else
                r ← value fuel st;
                match r with
                | Err e => Some (Err e)
                | Ok (v, st') =>
                    let info := if bool_decide (key = bstr "info") then Some (st.1, st'.1) else info in
                    dict_loop fuel st' (bt_insert key v out) (Some key) info
                end
          end
      end
  end.

(** Enough for any input of this length. *)
Definition fuel_for (rest : bytes) : nat := 2 * length rest + 2.

Definition decode (input : bytes) : option (bres bvalue) :=
  r ← value (fuel_for input) (0, input);
  Some ('(v, st) ← r; if bool_decide (st.2 = []) then Ok v else Err Trailing).

Definition decode_prefix (input : bytes) : option (bres (bvalue * Z)) :=
  r ← value (fuel_for input) (0, input);
  Some ('(v, st) ← r; Ok (v, st.1)).

(** [value_tracking_info]: the span is recorded for the top dict only. *)
Definition decode_torrent (input : bytes) : option (bres (bvalue * span)) :=
  match input with
  | x64 :: rest =>
      r ← dict_loop (fuel_for input) (1, rest) [] None None;
      Some ('(d, st, info) ← r; Ok (BDict d, info))
  | _ =>
      r ← value (fuel_for input) (0, input);
      Some ('(v, st) ← r; Ok (v, None))
  end.

(** ** The encoder *)

Definition encode_bytes (b : bytes) : bytes := dec (blen b) ++ bstr ":" ++ b.

Fixpoint encode (v : bvalue) : bytes :=
  match v with
  | BInt i => bstr "i" ++ dec i ++ bstr "e"
  | BBytes b => encode_bytes b
  | BList l => bstr "l" ++ concat (map encode l) ++ bstr "e"
  | BDict d => bstr "d" ++ concat (map (λ p, encode_bytes p.1 ++ encode p.2) d) ++ bstr "e"
  end.

Example decode_ex : decode (bstr "d3:cow3:moo4:spami3ee") =
  Some (Ok (BDict [(bstr "cow", BBytes (bstr "moo")); (bstr "spam", BInt 3)])).
Proof. reflexivity. Qed.
Example decode_bad : decode (bstr "i-0e") = Some (Err BadInt) ∧ decode (bstr "d1:b0:1:a0:e") = Some (Err BadDictKey).
Proof. split; reflexivity. Qed.

(** ** Reading is local: what a parser consumed decides its result *)

(** The parser [f] consumed [used] and would do so in any other context at an
    offset that is not larger. *)
Definition consumes {A} (f : pstate → bres (A * pstate)) (p : Z) (rest : bytes) (a : A) (st : pstate) : Prop :=
  ∃ used, rest = used ++ st.2 ∧ used ≠ [] ∧ st.1 = p + blen used ∧
    ∀ p0 r0, p0 <= p → f (p0, used ++ r0) = Ok (a, (p0 + blen used, r0)).

Lemma take_until_Some stop rest s r : take_until stop rest = Some (s, r) →
  rest = s ++ stop :: r ∧ ∀ r0, take_until stop (s ++ stop :: r0) = Some (s, r0).
Proof.
  revert s r; induction rest as [|b rest IH]; intros s r; simpl; [done|].
  case_bool_decide as D.
  - intros [= <- <-]. subst b. split; [done|]. intros r0. simpl. by rewrite bool_decide_eq_true_2.
  - destruct (take_until stop rest) as [[s' r']|]; [|done]. intros [= <- <-].
    destruct (IH s' r' eq_refl) as [-> H]. split; [done|]. intros r0. simpl.
    rewrite bool_decide_eq_false_2 by done. by rewrite H.
Qed.

Lemma take_until_notin stop s r : Forall (λ b, b ≠ stop) s → take_until stop (s ++ stop :: r) = Some (s, r).
Proof.
  induction 1 as [|b s Hb _ IH]; simpl; [by rewrite bool_decide_eq_true_2|].
  rewrite bool_decide_eq_false_2 by done. by rewrite IH.
Qed.

Lemma scan_len_Ok rest s r : scan_len rest = Ok (s, r) →
  rest = s ++ x3a :: r ∧ ∀ r0, scan_len (s ++ x3a :: r0) = Ok (s, r0).
Proof.
  revert s r; induction rest as [|b rest IH]; intros s r; simpl; [done|].
  case_bool_decide as D.
  - intros [= <- <-]. subst b. done.
  - destruct (is_digit b) eqn:Eb; [|done]. simpl.
    destruct (scan_len rest) as [[s' r']|]; [|done]. intros [= <- <-].
    destruct (IH s' r' eq_refl) as [-> H]. split; [done|]. intros r0. simpl.
    rewrite bool_decide_eq_false_2 by done. rewrite Eb. simpl. by rewrite H.
Qed.

Lemma scan_len_digits s r : Forall (λ b, is_digit b = true) s → scan_len (s ++ x3a :: r) = Ok (s, r).
Proof.
  induction 1 as [|b s Hb _ IH]; simpl; [done|].
  rewrite bool_decide_eq_false_2; [|by intros ->]. rewrite Hb. simpl. by rewrite IH.
Qed.

Lemma byte_string_local p rest bs st : byte_string (p, rest) = Ok (bs, st) →
  consumes byte_string p rest bs st.
Proof.
  unfold byte_string. destruct (scan_len rest) as [[s r]|] eqn:E; [|done]. cbn.
  apply scan_len_Ok in E as [-> Hs]. destruct (parse_u64 s) as [len|] eqn:Hp; [|done].
  assert (0 <= len) as Hl0.
  { unfold parse_u64 in Hp. destruct (_ || _) eqn:Eq in Hp; [done|].
    destruct (_ <=? _) in Hp; [|done]. injection Hp as <-.
    assert (∀ ds a, all_digits ds = true → 0 <= a → 0 <= foldl (λ acc b, acc * 10 + digit_val b) a ds) as Hf.
    { induction ds as [|d ds IH]; intros a; cbn; [done|]. intros [Hd Hds]%andb_true_iff Ha.
      apply IH; [done|]. unfold is_digit in Hd. unfold digit_val. lia. }
    unfold dec_val. apply Hf; [|lia].
    apply orb_false_iff in Eq as [_ Eq]. by apply negb_false_iff in Eq. }
  destruct (Z.ltb_spec u64_max (p + blen s + 1 + len)) as [|Hov]; [done|].
  destruct (Z.ltb_spec (blen r) len) as [|Hlen]; [done|]. intros [= <- <-]. unfold consumes. simpl.
  exists (s ++ [x3a] ++ firstn (Z.to_nat len) r).
  assert (blen (firstn (Z.to_nat len) r) = len) as Hfl.
  { unfold blen in *. rewrite length_firstn. lia. }
  rewrite !blen_app, Hfl. split_and!.
  - rewrite <- !app_assoc. simpl. by rewrite firstn_skipn.
  - by destruct s.
  - unfold blen. simpl. lia.
  - intros p0 r0 Hp0. rewrite <- !app_assoc. simpl. rewrite Hs. cbn. rewrite Hp.
    destruct (Z.ltb_spec u64_max (p0 + blen s + 1 + len)); [lia|].
    rewrite blen_app, Hfl. pose proof (blen_nonneg r0).
    destruct (Z.ltb_spec (len + blen r0) len); [lia|].
    unfold blen in Hfl. rewrite take_app_length', drop_app_length' by lia.
    do 3 f_equal. unfold blen; simpl; lia.
Qed.

Lemma integer_local p rest v st : integer (p, rest) = Ok (v, st) →
  ∃ used, rest = used ++ st.2 ∧ st.1 = p + blen used ∧
    ∀ p0 r0, integer (p0, used ++ r0) = Ok (v, (p0 + blen used, r0)).
Proof.
  unfold integer. destruct (take_until x65 rest) as [[s r]|] eqn:E; [|done].
  apply take_until_Some in E as [-> Hs]. destruct (_ || _) eqn:Ec; [done|].
  destruct (parse_i64 s) as [n|] eqn:Hp; [|done]. intros [= <- <-]. cbn [fst snd].
  exists (s ++ [x65]). rewrite blen_app. split_and!.
  - by rewrite <- app_assoc.
  - unfold blen; simpl; lia.
  - intros p0 r0. rewrite <- app_assoc. cbn [app]. rewrite Hs, Ec, Hp. do 3 f_equal. unfold blen; simpl; lia.
Qed.

Definition value_local_at (fuel : nat) : Prop := ∀ p rest v st,
  value fuel (p, rest) = Some (Ok (v, st)) →
  ∃ used, rest = used ++ st.2 ∧ used ≠ [] ∧ st.1 = p + blen used ∧
    ∀ fuel0 p0 r0, (fuel <= fuel0)%nat → p0 <= p →
      value fuel0 (p0, used ++ r0) = Some (Ok (v, (p0 + blen used, r0))).
Definition list_local_at (fuel : nat) : Prop := ∀ p rest out l st,
  list_loop fuel (p, rest) out = Some (Ok (l, st)) →
  ∃ used, rest = used ++ st.2 ∧ used ≠ [] ∧ st.1 = p + blen used ∧
    ∀ fuel0 p0 r0, (fuel <= fuel0)%nat → p0 <= p →
      list_loop fuel0 (p0, used ++ r0) out = Some (Ok (l, (p0 + blen used, r0))).
Definition dict_local_at (fuel : nat) : Prop := ∀ p rest out lk info d st info',
  dict_loop fuel (p, rest) out lk info = Some (Ok (d, st, info')) →
  ∃ used, rest = used ++ st.2 ∧ used ≠ [] ∧ st.1 = p + blen used ∧
    ∀ fuel0 p0 r0 info0, (fuel <= fuel0)%nat → p0 <= p → ∃ info0',
      dict_loop fuel0 (p0, used ++ r0) out lk info0 = Some (Ok (d, (p0 + blen used, r0), info0')).

Lemma list_local_step fuel : value_local_at fuel → list_local_at fuel → list_local_at (S fuel).
Proof.
  intros HV HL p rest out l st. cbn [list_loop]. destruct rest as [|b rest]; [done|].
  case_bool_decide as Db.
  - intros [= <- <-]. exists [b]. split_and!; [done|done|done|].
    intros [|fuel0] p0 r0 Hf Hp; [lia|]. cbn [list_loop app]. by rewrite bool_decide_eq_true_2.
  - destruct (value fuel (p, b :: rest)) as [[[v st1]|e]|] eqn:Ev; cbn [mbind option_bind]; try done.
    intros Hl. destruct (HV _ _ _ _ Ev) as (u1 & E1 & N1 & P1 & L1). destruct st1 as [p1 r1].
    destruct (HL _ _ _ _ _ Hl) as (u2 & E2 & N2 & P2 & L2). cbn [fst snd] in *.
    exists (u1 ++ u2). rewrite blen_app. split_and!.
    + by rewrite E1, E2, app_assoc.
    + by destruct u1.
    + lia.
    + intros [|fuel0] p0 r0 Hf Hp; [lia|]. destruct u1 as [|b' u1]; [done|].
      injection E1 as <- E1. cbn [list_loop app]. rewrite bool_decide_eq_false_2 by done.
      rewrite <- app_assoc. change (b :: u1 ++ u2 ++ r0) with ((b :: u1) ++ u2 ++ r0).
      rewrite L1 by lia. cbn [mbind option_bind]. rewrite L2 by lia. do 3 f_equal. f_equal. lia.
Qed.

Lemma dict_local_step fuel : value_local_at fuel → dict_local_at fuel → dict_local_at (S fuel).
Proof.
  intros HV HD p rest out lk info d st info'. cbn [dict_loop]. destruct rest as [|b rest]; [done|].
  case_bool_decide as Db.
  - intros [= <- <- <-]. exists [b]. split_and!; [done|done|done|].
    intros [|fuel0] p0 r0 info0 Hf Hp; [lia|]. cbn [dict_loop app].
    rewrite bool_decide_eq_true_2 by done. by exists info0.
  - destruct (is_digit b) eqn:Ed; [|done]. cbn [negb].
    destruct (byte_string (p, b :: rest)) as [[key st1]|] eqn:Eb; [|done].
    destruct (match lk with Some prev => oleb key prev | None => false end) eqn:Ek; [done|].
    destruct (byte_string_local _ _ _ _ Eb) as (u0 & E0 & N0 & P0 & L0). destruct st1 as [p1 r1].
    destruct (value fuel (p1, r1)) as [[[v st2]|e]|] eqn:Ev; cbn [mbind option_bind]; try done.
    intros Hl. destruct (HV _ _ _ _ Ev) as (u1 & E1 & N1 & P1 & L1). destruct st2 as [p2 r2].
    destruct (HD _ _ _ _ _ _ _ _ Hl) as (u2 & E2 & N2 & P2 & L2). cbn [fst snd] in *.
    exists (u0 ++ u1 ++ u2). rewrite !blen_app. split_and!.
    + by rewrite E0, E1, E2, <- !app_assoc.
    + by destruct u0.
    + lia.
    + intros [|fuel0] p0 r0 info0 Hf Hp; [lia|]. destruct u0 as [|b' u0]; [done|].
      injection E0 as <- E0. cbn [dict_loop app]. rewrite bool_decide_eq_false_2 by done.
      rewrite Ed. cbn [negb]. rewrite <- !app_assoc.
      change (b :: u0 ++ u1 ++ u2 ++ r0) with ((b :: u0) ++ u1 ++ u2 ++ r0).
      rewrite L0 by lia. rewrite Ek, L1 by lia. cbn [mbind option_bind].
      match goal with |- context [dict_loop fuel0 _ _ _ ?i] => destruct (L2 fuel0 (p0 + blen (b :: u0) + blen u1) r0 i) as [i' ->]; [lia|lia|] end.
      exists i'. do 4 f_equal. f_equal. lia.
Qed.

Lemma value_local_step fuel : list_local_at fuel → dict_local_at fuel → value_local_at (S fuel).
Proof.
  intros HL HD p rest v st. cbn [value]. destruct rest as [|b rest]; [done|].
  case_bool_decide as Di; [|case_bool_decide as Dl; [|case_bool_decide as Dd; [|destruct (is_digit b) eqn:Eg]]].
  - intros [= Hi]. destruct (integer_local _ _ _ _ Hi) as (u & E & P & L).
    exists (b :: u). rewrite blen_cons. split_and!; [by rewrite E|done|lia|].
    intros [|fuel0] p0 r0 Hf Hp; [lia|]. cbn [value app]. rewrite bool_decide_eq_true_2 by done.
    rewrite L. do 4 f_equal. lia.
  - destruct (list_loop fuel (p + 1, rest) []) as [[[l st1]|e]|] eqn:El; cbn; try done.
    intros [= <- <-]. destruct (HL _ _ _ _ _ El) as (u & E & N & P & L).
    exists (b :: u). rewrite blen_cons. split_and!; [by rewrite E|done|lia|].
    intros [|fuel0] p0 r0 Hf Hp; [lia|]. cbn [value app]. rewrite bool_decide_eq_false_2 by done.
    rewrite bool_decide_eq_true_2 by done. rewrite L by lia. cbn. do 4 f_equal. lia.
  - destruct (dict_loop fuel (p + 1, rest) [] None None) as [[[[d st1] i]|e]|] eqn:El; cbn; try done.
    intros [= <- <-]. destruct (HD _ _ _ _ _ _ _ _ El) as (u & E & N & P & L).
    exists (b :: u). rewrite blen_cons. split_and!; [by rewrite E|done|lia|].
    intros [|fuel0] p0 r0 Hf Hp; [lia|]. cbn [value app]. rewrite !bool_decide_eq_false_2 by done.
    rewrite bool_decide_eq_true_2 by done. destruct (L fuel0 (p0 + 1) r0 None) as [i' ->]; [lia|lia|].
    cbn. do 4 f_equal. lia.
  - destruct (byte_string (p, b :: rest)) as [[bs st1]|] eqn:Eb; cbn; [|done]. intros [= <- <-].
    destruct (byte_string_local _ _ _ _ Eb) as (u & E & N & P & L).
    exists u. split_and!; auto. intros [|fuel0] p0 r0 Hf Hp; [lia|].
    destruct u as [|b' u]; [done|]. injection E as <- E. cbn [value app].
    rewrite !bool_decide_eq_false_2 by done. rewrite Eg.
    change (b :: u ++ r0) with ((b :: u) ++ r0). by rewrite L by lia.
  - done.
Qed.

Lemma parse_local fuel : value_local_at fuel ∧ list_local_at fuel ∧ dict_local_at fuel.
Proof.
  induction fuel as [|fuel (HV & HL & HD)]; [split_and!; by repeat intro|].
  split_and!; [by apply value_local_step|by apply list_local_step|by apply dict_local_step].
Qed.

(** ** Termination: twice the input length is enough fuel *)

Lemma parse_total fuel p rest :
  ((2 * length rest + 1 <= fuel)%nat → is_Some (value fuel (p, rest))) ∧
  ((2 * length rest + 2 <= fuel)%nat → ∀ out, is_Some (list_loop fuel (p, rest) out)) ∧
  ((2 * length rest + 2 <= fuel)%nat → ∀ out lk info, is_Some (dict_loop fuel (p, rest) out lk info)).
Proof.
  revert p rest; induction fuel as [|fuel IH]; intros p rest; [split_and!; lia|]. split_and!.
  - intros Hf. cbn [value]. destruct rest as [|b rest]; [by eexists|]. simpl in Hf.
    destruct (IH (p + 1) rest) as (_ & IL & ID).
    case_bool_decide; [by eexists|]. case_bool_decide.
    { destruct (IL ltac:(lia) []) as [r ->]. by eexists. }
    case_bool_decide.
    { destruct (ID ltac:(lia) [] None None) as [r ->]. by eexists. }
    by case_match; eexists.
  - intros Hf out. cbn [list_loop]. destruct rest as [|b rest]; [by eexists|].
    case_bool_decide; [by eexists|]. destruct (IH p (b :: rest)) as (IV & _ & _).
    destruct (IV ltac:(simpl in *; lia)) as [r Hr]. rewrite Hr. cbn [mbind option_bind].
    destruct r as [[v [p' r']]|]; [|by eexists].
    destruct (proj1 (parse_local fuel) _ _ _ _ Hr) as (u & E & N & _). destruct u as [|b' u]; [done|].
    simpl in E. injection E as <- ->. apply IH. simpl in Hf. rewrite length_app in Hf. lia.
  - intros Hf out lk info. cbn [dict_loop]. destruct rest as [|b rest]; [by eexists|].
    case_bool_decide; [by eexists|]. destruct (negb (is_digit b)); [by eexists|].
    destruct (byte_string (p, b :: rest)) as [[key [p1 r1]]|] eqn:Eb; [|by eexists].
    destruct (match lk with Some prev => oleb key prev | None => false end); [by eexists|].
    destruct (byte_string_local _ _ _ _ Eb) as (u0 & E0 & N0 & _). destruct u0 as [|b0 u0]; [done|].
    simpl in E0. injection E0 as <- ->. simpl in Hf. rewrite length_app in Hf.
    destruct (IH p1 r1) as (IV & _ & _). destruct (IV ltac:(lia)) as [r Hr]. rewrite Hr.
    cbn [mbind option_bind]. destruct r as [[v [p' r']]|]; [|by eexists].
    destruct (proj1 (parse_local fuel) _ _ _ _ Hr) as (u & E & N & _). simpl in E. subst r1.
    apply IH. rewrite length_app in Hf. lia.
Qed.

(** ** Decoding what was encoded *)

Inductive bwf : bvalue → Prop :=
  | bwf_int i : i64_min <= i <= i64_max → bwf (BInt i)
  | bwf_bytes b : bwf (BBytes b)
  | bwf_list l : Forall bwf l → bwf (BList l)
  | bwf_dict d : bt_wf d → Forall (λ p, bwf p.2) d → bwf (BDict d).

Lemma all_digits_Forall s : all_digits s = true ↔ Forall (λ b, is_digit b = true) s.
Proof. apply forallb_Forall. Qed.

Lemma digit_not_sign b : is_digit b = true → b ≠ x2b ∧ b ≠ x2d.
Proof. intros Hd. split; intros ->; done. Qed.

Lemma parse_u64_dec n : is_u64 n → parse_u64 (dec_nat n) = Some n.
Proof.
  intros [Hn Hm]. destruct (dec_nat_cons n Hn) as (b & l & E & Hb). unfold parse_u64. rewrite E.
  destruct (digit_not_sign b Hb) as [Hp _].
  replace (match b :: l with x2b :: ds => ds | _ => b :: l end) with (b :: l) by (destruct b; done).
  rewrite <- E, bool_decide_eq_false_2 by congruence.
  rewrite (proj2 (all_digits_Forall _) (dec_nat_digits n Hn)), dec_nat_val by done. cbn [negb orb].
  by rewrite (proj2 (Z.leb_le _ _)).
Qed.

Lemma parse_i64_dec i : i64_min <= i <= i64_max → parse_i64 (dec i) = Some i.
Proof.
  intros Hi. unfold dec. destruct (Z.ltb_spec i 0).
  - change (bstr "-" ++ dec_nat (- i)) with (x2d :: dec_nat (- i)).
    unfold parse_i64. destruct (dec_nat_cons (- i)) as (b & l & E & Hb); [lia|].
    rewrite bool_decide_eq_false_2 by congruence.
    rewrite (proj2 (all_digits_Forall _) (dec_nat_digits (- i) ltac:(lia))), dec_nat_val by lia.
    cbn [negb orb]. rewrite (proj2 (Z.leb_le _ _)) by lia. f_equal. lia.
  - destruct (dec_nat_cons i) as (b & l & E & Hb); [lia|]. unfold parse_i64. rewrite E.
    destruct (digit_not_sign b Hb) as [Hp Hm].
    transitivity (if bool_decide (b :: l = []) || negb (all_digits (b :: l)) then None
      else if dec_val (b :: l) <=? i64_max then Some (dec_val (b :: l)) else None); [destruct b; done|].
    rewrite <- E, bool_decide_eq_false_2 by congruence.
    rewrite (proj2 (all_digits_Forall _) (dec_nat_digits i ltac:(lia))), dec_nat_val by lia.
    cbn [negb orb]. by rewrite (proj2 (Z.leb_le _ _)) by lia.
Qed.

Lemma byte_string_encode p b r :
  0 <= p → p + blen (encode_bytes b) <= u64_max →
  byte_string (p, encode_bytes b ++ r) = Ok (b, (p + blen (encode_bytes b), r)).
Proof.
  intros Hp0 Hp. pose proof (blen_nonneg b). unfold encode_bytes in *.
  assert (dec (blen b) = dec_nat (blen b)) as Hd by (unfold dec; by rewrite (proj2 (Z.ltb_ge _ _))).
  rewrite Hd in *. rewrite !blen_app in *. pose proof (blen_nonneg (dec_nat (blen b))).
  change (blen (bstr ":")) with 1 in *. rewrite <- !app_assoc. unfold byte_string. cbn [app].
  change (bstr ":" ++ b ++ r) with (x3a :: b ++ r).
  rewrite scan_len_digits by (by apply dec_nat_digits). cbn [mbind result_bind].
  rewrite parse_u64_dec by (split; lia).
  destruct (Z.ltb_spec u64_max (p + blen (dec_nat (blen b)) + 1 + blen b)); [lia|].
  pose proof (blen_nonneg r). rewrite blen_app.
  destruct (Z.ltb_spec (blen b + blen r) (blen b)); [lia|]. replace (Z.to_nat (blen b)) with (length b) by (unfold blen; lia).
  rewrite take_app_length, drop_app_length. do 3 f_equal. lia.
Qed.

(** The checks against leading zeros and [-0] pass on a printed integer. *)
Lemma integer_encode p i r : i64_min <= i <= i64_max →
  integer (p, dec i ++ x65 :: r) = Ok (BInt i, (p + blen (dec i) + 1, r)).
Proof.
  intros Hi. unfold integer. rewrite take_until_notin.
  2:{ assert (∀ z, 0 <= z → Forall (λ b, b ≠ x65) (dec_nat z)) as Hz.
      { intros z Hz. eapply Forall_impl; [apply dec_nat_digits; lia|]. intros b Hb ->. done. }
      unfold dec. destruct (Z.ltb_spec i 0); [constructor; [done|]|]; apply Hz; lia. }
  rewrite parse_i64_dec by done.
  assert (∀ z b l, 0 < z → dec_nat z = b :: l → b ≠ x30) as Hnz.
  { intros z b l Hz E ->. by apply (dec_nat_head z x30 l Hz E). }
  replace (_ || _) with false; [done|]. symmetry. rewrite !orb_false_iff, !andb_false_iff.
  destruct (Z.ltb_spec i 0) as [Hneg|Hpos].
  - assert (dec i = x2d :: dec_nat (- i)) as E by (unfold dec; by rewrite (proj2 (Z.ltb_lt _ _))).
    destruct (dec_nat_cons (- i)) as (b & l & E' & Hb); [lia|].
    pose proof (Hnz (- i) b l ltac:(lia) E') as Hb0. rewrite E, E'.
    split_and!; [by apply bool_decide_eq_false_2| |left; by apply bool_decide_eq_false_2|left];
      apply bool_decide_eq_false_2; cbn; congruence.
  - assert (dec i = dec_nat i) as E by (unfold dec; by rewrite (proj2 (Z.ltb_ge _ _))).
    destruct (dec_nat_cons i) as (b & l & E' & Hb); [lia|]. destruct (digit_not_sign b Hb) as [_ Hm].
    rewrite E. destruct (decide (i = 0)) as [->|Hi0].
    { split_and!; try (by apply bool_decide_eq_false_2). by right. left. by apply bool_decide_eq_false_2. }
    pose proof (Hnz i b l ltac:(lia) E') as Hb0. rewrite E'.
    split_and!; [by apply bool_decide_eq_false_2| |left|left];
      apply bool_decide_eq_false_2; cbn; congruence.
Qed.

(** ** Round trip *)

Definition parses (v : bvalue) : Prop := ∀ fuel p r,
  (2 * length (encode v) + 1 <= fuel)%nat → 0 <= p → p + blen (encode v) <= u64_max →
  value fuel (p, encode v ++ r) = Some (Ok (v, (p + blen (encode v), r))).

(** No encoded value starts with the terminator [e]. *)
Lemma encode_head v : ∃ b l, encode v = b :: l ∧ b ≠ x65.
Proof.
  destruct v as [i|b|l|d]; try (eexists _, _; split; [reflexivity|done]).
  cbn [encode]. unfold encode_bytes. destruct (dec_head (blen b)) as (c & l & -> & Hc).
  eexists _, _. split; [reflexivity|]. destruct Hc as [Hc| ->]; [|done]. by intros ->.
Qed.

Lemma encode_bytes_head b : ∃ c l, encode_bytes b = c :: l ∧ is_digit c = true.
Proof.
  unfold encode_bytes. assert (dec (blen b) = dec_nat (blen b)) as ->.
  { unfold dec. pose proof (blen_nonneg b). by rewrite (proj2 (Z.ltb_ge _ _)). }
  destruct (dec_nat_cons (blen b)) as (c & l & -> & Hc); [apply blen_nonneg|]. by eexists _, _.
Qed.

Lemma list_loop_encode l : Forall parses l → ∀ fuel p r out,
  (2 * length (concat (map encode l)) + 2 <= fuel)%nat → 0 <= p →
  p + blen (concat (map encode l)) + 1 <= u64_max →
  list_loop fuel (p, concat (map encode l) ++ x65 :: r) out =
    Some (Ok (out ++ l, (p + blen (concat (map encode l)) + 1, r))).
Proof.
  induction 1 as [|v l Hv _ IH]; intros [|fuel] p r out Hf Hp Hm; try lia.
  { cbn. rewrite app_nil_r. do 3 f_equal. f_equal. unfold blen. simpl. lia. }
  cbn [map concat] in *. rewrite blen_app in *. rewrite length_app in Hf.
  pose proof (blen_nonneg (encode v)). pose proof (blen_nonneg (concat (map encode l))).
  destruct (encode_head v) as (b & t & E & Hb). assert (length (encode v) = S (length t)) by (by rewrite E).
  rewrite <- app_assoc. cbn [list_loop].
  assert (∀ k, ∃ t', encode v ++ k = b :: t') as Hk by (intros k; exists (t ++ k); by rewrite E).
  destruct (Hk (concat (map encode l) ++ x65 :: r)) as [t' Ht']. rewrite Ht' at 1.
  rewrite bool_decide_eq_false_2 by done. rewrite Hv by lia. cbn [mbind option_bind].
  rewrite IH by lia. rewrite <- app_assoc. do 3 f_equal. f_equal. lia.
Qed.

Definition encode_pair (p : bytes * bvalue) : bytes := encode_bytes p.1 ++ encode p.2.

(** Inserting a key past every key appends. *)
Lemma bt_insert_last {V} (d : btree bytes V) k v :
  Forall (λ p, olt p.1 k) d → bt_insert k v d = d ++ [(k, v)].
Proof.
  induction 1 as [|[k' v'] d Hk _ IH]; [done|]. cbn [bt_insert app]. simpl in Hk.
  unfold olt in Hk. apply cmp_gt_lt in Hk. rewrite Hk. by rewrite IH.
Qed.

Lemma dict_loop_encode d : Forall (λ p, parses p.2) d → ∀ fuel p r out lk info,
  (2 * length (concat (map encode_pair d)) + 2 <= fuel)%nat → 0 <= p →
  p + blen (concat (map encode_pair d)) + 1 <= u64_max →
  bt_wf (out ++ d) → lk = last (bt_keys out) →
  ∃ info', dict_loop fuel (p, concat (map encode_pair d) ++ x65 :: r) out lk info =
    Some (Ok (out ++ d, (p + blen (concat (map encode_pair d)) + 1, r), info')).
Proof.
  induction 1 as [|[k v] d Hv _ IH]; intros [|fuel] p r out lk info Hf Hp Hm Hwf Hlk; try lia.
  { cbn. exists info. rewrite app_nil_r. do 4 f_equal. f_equal. unfold blen. simpl. lia. }
  cbn [map concat] in *.
  assert (encode_pair (k, v) = encode_bytes k ++ encode v) as Hkv by done. rewrite Hkv in *. clear Hkv. rewrite !blen_app in *. rewrite !length_app in Hf.
  pose proof (blen_nonneg (encode v)). pose proof (blen_nonneg (concat (map encode_pair d))).
  pose proof (blen_nonneg (encode_bytes k)).
  destruct (encode_bytes_head k) as (b & t & E & Hb).
  assert (length (encode_bytes k) = S (length t)) by (by rewrite E).
  assert (Forall (λ p, olt p.1 k) out ∧ match lk with Some prev => oleb k prev | None => false end = false)
    as [Hall Hle].
  { unfold bt_wf, bt_keys in Hwf. rewrite fmap_app in Hwf. apply StronglySorted_app in Hwf as (Hx & _ & _).
    assert (Forall (λ p, olt p.1 k) out) as Hall.
    { apply Forall_forall. intros q Hq. apply Hx; [by apply list_elem_of_fmap_2|left]. }
    split; [done|]. subst lk. destruct (last (bt_keys out)) as [prev|] eqn:El; [|done].
    apply last_Some_elem_of in El. apply list_elem_of_fmap in El as (q & -> & Hq).
    rewrite Forall_forall in Hall. specialize (Hall q Hq). apply not_true_iff_false.
    rewrite oleb_spec. by apply olt_not_ole. }
  rewrite <- !app_assoc.
  remember (encode_bytes k ++ encode v ++ concat (map encode_pair d) ++ x65 :: r) as rest eqn:Hrest.
  cbn [dict_loop]. destruct rest as [|b' rest]; [by rewrite E in Hrest|].
  assert (b' = b) as -> by (rewrite E in Hrest; by injection Hrest).
  rewrite bool_decide_eq_false_2; [|by intros ->]. rewrite Hb. cbn [negb].
  rewrite Hrest, byte_string_encode by lia. rewrite Hle. simpl in Hv. rewrite Hv by lia.
  cbn [mbind option_bind]. rewrite bt_insert_last by done.
  match goal with |- context [dict_loop _ _ _ _ ?i] =>
    destruct (IH fuel (p + blen (encode_bytes k) + blen (encode v)) r (out ++ [(k, v)]) (Some k) i)
      as [i' Hi'] end.
  - lia.
  - lia.
  - lia.
  - by rewrite <- app_assoc.
  - unfold bt_keys. rewrite fmap_app. cbn. by rewrite last_snoc.
  - exists i'. rewrite Hi', <- app_assoc. do 4 f_equal. f_equal. lia.
Qed.

Lemma encode_parses v : bwf v → parses v.
Proof.
  induction v as [i|b|l IH|d IH]; intros Hwf [|fuel] p r Hf Hp Hm; try lia; cbn [encode value] in *.
  - inversion Hwf; subst. rewrite <- !app_assoc. cbn [app].
    change (bstr "i" ++ dec i ++ bstr "e" ++ r) with (x69 :: dec i ++ x65 :: r).
    cbv beta iota. rewrite bool_decide_eq_true_2 by done. rewrite integer_encode by done.
    do 4 f_equal. rewrite !blen_app. unfold blen; simpl; lia.
  - destruct (encode_bytes_head b) as (c & t & E & Hc).
    remember (encode_bytes b ++ r) as rest eqn:Hrest. destruct rest as [|c' rest]; [by rewrite E in Hrest|].
    assert (c' = c) as -> by (rewrite E in Hrest; by injection Hrest).
    rewrite !bool_decide_eq_false_2 by (by intros ->). rewrite Hc.
    by rewrite Hrest, byte_string_encode by done.
  - inversion Hwf as [| |? Hl|]; subst. rewrite !blen_app, !length_app in *.
    change (length (bstr "l")) with 1%nat in *. change (blen (bstr "l")) with 1 in *.
    change (length (bstr "e")) with 1%nat in *. change (blen (bstr "e")) with 1 in *.
    pose proof (blen_nonneg (concat (map encode l))).
    rewrite <- !app_assoc. change (bstr "l" ++ ?z) with (x6c :: z).
    change (bstr "e" ++ r) with (x65 :: r). cbv beta iota. rewrite bool_decide_eq_false_2 by done.
    rewrite bool_decide_eq_true_2 by done. rewrite list_loop_encode; [..|lia|lia|lia].
    + cbn. do 4 f_equal. lia.
    + rewrite Forall_forall in IH, Hl |- *. auto.
  - inversion Hwf as [| | |? Hb Hl]; subst. rewrite !blen_app, !length_app in *.
    change (map (λ p, encode_bytes p.1 ++ encode p.2) d) with (map encode_pair d) in *.
    change (length (bstr "d")) with 1%nat in *. change (blen (bstr "d")) with 1 in *.
    change (length (bstr "e")) with 1%nat in *. change (blen (bstr "e")) with 1 in *.
    pose proof (blen_nonneg (concat (map encode_pair d))).
    rewrite <- !app_assoc. change (bstr "d" ++ ?z) with (x64 :: z).
    change (bstr "e" ++ r) with (x65 :: r). cbv beta iota. rewrite !bool_decide_eq_false_2 by done.
    rewrite bool_decide_eq_true_2 by done.
    destruct (dict_loop_encode d) with (fuel := fuel) (p := p + 1) (r := r) (out := [] : btree bytes bvalue)
      (lk := None : option bytes) (info := None : span) as [i' ->]; try lia; try done.
    + rewrite Forall_forall in IH, Hl |- *. auto.
    + cbn. do 4 f_equal. lia.
Qed.

(** ** More fuel never changes a result *)

Lemma parse_mono fuel :
  (∀ st r, value fuel st = Some r → value (S fuel) st = Some r) ∧
  (∀ st out r, list_loop fuel st out = Some r → list_loop (S fuel) st out = Some r) ∧
  (∀ st out lk i r, dict_loop fuel st out lk i = Some r → dict_loop (S fuel) st out lk i = Some r).
Proof.
  induction fuel as [|fuel (IV & IL & ID)]; [by split_and!|]. split_and!.
  - intros [p [|b rest]] r; [done|]. remember (S fuel) as f eqn:Ef. rewrite Ef at 1. cbn [value].
    case_bool_decide; [done|]. case_bool_decide.
    { destruct (list_loop fuel (p + 1, rest) []) as [x|] eqn:E; [|done].
      apply IL in E. by rewrite E. }
    case_bool_decide; [|done].
    destruct (dict_loop fuel (p + 1, rest) [] None None) as [x|] eqn:E; [|done].
    apply ID in E. by rewrite E.
  - intros [p [|b rest]] out r; [done|]. remember (S fuel) as f eqn:Ef. rewrite Ef at 1. cbn [list_loop].
    case_bool_decide; [done|]. destruct (value fuel (p, b :: rest)) as [x|] eqn:E; [|done].
    apply IV in E. rewrite E. cbn [mbind option_bind].
    destruct x as [[v st]|]; [|done]. apply IL.
  - intros [p [|b rest]] out lk i r; [done|]. remember (S fuel) as f eqn:Ef. rewrite Ef at 1. cbn [dict_loop].
    case_bool_decide; [done|]. destruct (negb (is_digit b)); [done|].
    destruct (byte_string (p, b :: rest)) as [[key st]|]; [|done].
    destruct (match lk with Some prev => oleb key prev | None => false end); [done|].
    destruct (value fuel st) as [x|] eqn:E; [|done]. apply IV in E. rewrite E.
    cbn [mbind option_bind]. destruct x as [[v st']|]; [|done]. apply ID.
Qed.

Lemma value_mono fuel fuel' st r : (fuel <= fuel')%nat → value fuel st = Some r → value fuel' st = Some r.
Proof. induction 1; [done|]. intros H'. by apply parse_mono, IHle. Qed.

(** A slice that parsed inside a larger buffer decodes on its own. *)
Lemma decode_slice fuel p used post w : 0 <= p →
  value fuel (p, used ++ post) = Some (Ok (w, (p + blen used, post))) → decode used = Some (Ok w).
Proof.
  intros Hp Hv. destruct (proj1 (parse_local fuel) _ _ _ _ Hv) as (u & E & _ & _ & L).
  simpl in E. apply app_inv_tail in E as <-.
  pose proof (L (fuel + fuel_for used)%nat 0 [] ltac:(clear; lia) Hp) as Hbig. rewrite app_nil_r in Hbig.
  destruct (proj1 (parse_total (fuel_for used) 0 used) ltac:(unfold fuel_for; lia)) as [r Hr].
  pose proof (value_mono (fuel_for used) (fuel + fuel_for used)%nat _ _ ltac:(lia) Hr) as Hr'.
  unfold decode. rewrite Hr. cbn [mbind option_bind]. rewrite Hbig in Hr'. by injection Hr' as <-.
Qed.

(** ** Decoded values are well formed *)

Lemma integer_wf p rest v st : integer (p, rest) = Ok (v, st) → bwf v.
Proof.
  unfold integer. destruct (take_until x65 rest) as [[s r]|]; [|done]. destruct (_ || _); [done|].
  destruct (parse_i64 s) as [n|] eqn:Hp; [|done]. intros [= <- <-]. constructor.
  assert (∀ ds, all_digits ds = true → 0 <= dec_val ds) as Hnn.
  { intros ds. unfold dec_val. assert (∀ a, 0 <= a → all_digits ds = true →
      0 <= foldl (λ acc b, acc * 10 + digit_val b) a ds) as Hf; [|by apply Hf].
    induction ds as [|d ds IH]; intros a Ha; cbn; [done|]. intros [Hd Hds]%andb_true_iff.
    apply IH; [|done]. unfold is_digit in Hd. unfold digit_val. lia. }
  assert (i64_min = -9223372036854775808) as Hmin by done.
  assert (i64_max = 9223372036854775807) as Hmax by done.
  assert (∀ ds m k, (if bool_decide (ds = []) || negb (all_digits ds) then None
      else if dec_val ds <=? m then Some k else None) = Some n → n = k ∧ 0 <= dec_val ds <= m) as Hcase.
  { intros ds m k. destruct (_ || _) eqn:E; [done|]. apply orb_false_iff in E as [_ E].
    apply negb_false_iff in E. destruct (Z.leb_spec (dec_val ds) m); [|done]. intros [= ->].
    split; [done|]. split; [by apply Hnn|done]. }
  unfold parse_i64 in Hp. destruct s as [|c s]; [done|].
  destruct (decide (c = x2d)) as [->|Hc].
  - apply Hcase in Hp as [-> ?]. lia.
  - assert (n = dec_val (match c :: s with x2b :: ds => ds | _ => c :: s end) ∧ 0 <= n <= i64_max) as [_ ?]; [|lia].
    destruct c; try done; apply Hcase in Hp as [-> ?]; done.
Qed.

Definition dict_inv (out : btree bytes bvalue) (lk : option bytes) : Prop :=
  bt_wf out ∧ Forall (λ p, bwf p.2) out ∧
  match lk with Some prev => Forall (λ p, ole p.1 prev) out | None => out = [] end.

Lemma dict_inv_insert out lk k v :
  dict_inv out lk → bwf v → match lk with Some prev => oleb k prev | None => false end = false →
  dict_inv (bt_insert k v out) (Some k).
Proof.
  intros (Hw & Hb & Hk) Hv Hlt. split_and!; [by apply bt_insert_wf|..].
  - apply Forall_forall. intros q [->|Hq]%bt_insert_elem; [done|]. rewrite Forall_forall in Hb. auto.
  - apply Forall_forall. intros q [->|Hq]%bt_insert_elem; [apply ole_refl|].
    destruct lk as [prev|]; [|subst out; by apply elem_of_nil in Hq].
    rewrite Forall_forall in Hk. specialize (Hk q Hq). apply not_true_iff_false in Hlt.
    rewrite oleb_spec in Hlt. apply olt_not_ole in Hlt. etransitivity; [exact Hk|]. by apply olt_ole.
Qed.

Lemma parse_wf fuel :
  (∀ st v st', value fuel st = Some (Ok (v, st')) → bwf v) ∧
  (∀ st out l st', Forall bwf out → list_loop fuel st out = Some (Ok (l, st')) → Forall bwf l) ∧
  (∀ st out lk i d st' i', dict_inv out lk → dict_loop fuel st out lk i = Some (Ok (d, st', i')) →
     bt_wf d ∧ Forall (λ p, bwf p.2) d).
Proof.
  induction fuel as [|fuel (IV & IL & ID)]; [by split_and!|]. split_and!.
  - intros [p [|b rest]] v st'; [done|]. cbn [value]. case_bool_decide.
    { intros [= Hi]. by eapply integer_wf. }
    case_bool_decide.
    { destruct (list_loop fuel (p + 1, rest) []) as [[[l st1]|]|] eqn:E; cbn; try done.
      intros [= <- _]. constructor. eapply IL; [|exact E]. constructor. }
    case_bool_decide.
    { destruct (dict_loop fuel (p + 1, rest) [] None None) as [[[[d st1] i]|]|] eqn:E; cbn; try done.
      intros [= <- _]. apply ID in E as [? ?]; [by constructor|]. split_and!; [constructor|constructor|done]. }
    destruct (is_digit b); [|done]. destruct (byte_string (p, b :: rest)) as [[bs st1]|]; cbn; [|done].
    intros [= <- _]. constructor.
  - intros [p [|b rest]] out l st' Hout; [done|]. cbn [list_loop]. case_bool_decide; [by intros [= <- _]|].
    destruct (value fuel (p, b :: rest)) as [[[v st1]|]|] eqn:E; cbn; try done. apply IL.
    apply Forall_app. split; [done|]. repeat constructor. by eapply IV.
  - intros [p [|b rest]] out lk i d st' i' Hinv; [done|]. cbn [dict_loop].
    case_bool_decide; [intros [= <- _ _]; destruct Hinv as (? & ? & _); done|].
    destruct (negb (is_digit b)); [done|].
    destruct (byte_string (p, b :: rest)) as [[key st1]|]; [|done].
    destruct (match lk with Some prev => oleb key prev | None => false end) eqn:Ek; [done|].
    destruct (value fuel st1) as [[[v st2]|]|] eqn:E; cbn; try done.
    apply ID. eapply dict_inv_insert; eauto.
Qed.

(** ** The span of the info dictionary *)

(** The recorded span starts and ends where the [info] value was read. *)
Definition info_ok (buf : bytes) (out : btree bytes bvalue) (info : span) : Prop :=
  ∀ s e, info = Some (s, e) → ∃ w pre used post f,
    buf = pre ++ used ++ post ∧ s = blen pre ∧ e = s + blen used ∧ used ≠ [] ∧
    bt_get out (bstr "info") = Some w ∧ value f (s, used ++ post) = Some (Ok (w, (s + blen used, post))).

Lemma dict_loop_info buf fuel p rest out lk info d st info' :
  (∃ pre, buf = pre ++ rest ∧ p = blen pre) → info_ok buf out info →
  dict_loop fuel (p, rest) out lk info = Some (Ok (d, st, info')) → info_ok buf d info'.
Proof.
  revert p rest out lk info; induction fuel as [|fuel IH]; intros p rest out lk info (pre & Hbuf & Hp) Hok; [done|].
  cbn [dict_loop]. destruct rest as [|b rest]; [done|].
  case_bool_decide; [by intros [= <- _ <-]|]. destruct (negb (is_digit b)); [done|].
  destruct (byte_string (p, b :: rest)) as [[key [p1 r1]]|] eqn:Eb; [|done].
  destruct (match lk with Some prev => oleb key prev | None => false end); [done|].
  destruct (value fuel (p1, r1)) as [[[v [p2 r2]]|]|] eqn:E; cbn [mbind option_bind]; try done.
  destruct (byte_string_local _ _ _ _ Eb) as (u0 & E0 & _ & P0 & _).
  destruct (proj1 (parse_local fuel) _ _ _ _ E) as (u & E1 & N1 & P1 & L1). cbn [fst snd] in *.
  apply IH.
  { exists (pre ++ u0 ++ u). rewrite !blen_app. split; [|lia]. by rewrite Hbuf, E0, E1, <- !app_assoc. }
  intros s e. case_bool_decide as Dk.
  - intros [= <- <-]. exists v, (pre ++ u0), u, r2, fuel. rewrite blen_app. split_and!; try lia; try done.
    + by rewrite Hbuf, E0, E1, <- !app_assoc.
    + rewrite bt_get_insert, decide_True by done. done.
    + rewrite <- E1, E. do 4 f_equal. lia.
  - intros Hi. destruct (Hok s e Hi) as (w & pr & us & po & f & H1 & H2 & H3 & H4 & H5 & H6).
    exists w, pr, us, po, f. split_and!; auto. rewrite bt_get_insert, decide_False by congruence. done.
Qed.

(** Decoding inverts encoding: every well-formed value (integers in i64,
    sorted dictionaries, addressable size) is decoded back from its encoding,
    and as a prefix of any longer buffer together with its exact length. *)
Theorem decode_encode v r :
  bwf v → blen (encode v) <= u64_max →
  decode (encode v) = Some (Ok v) ∧ decode_prefix (encode v ++ r) = Some (Ok (v, blen (encode v))).
Proof.
  intros Hwf Hm. unfold decode, decode_prefix. split.
  - rewrite <- (app_nil_r (encode v)) at 2.
    by rewrite (encode_parses v Hwf) by (unfold fuel_for; lia).
  - rewrite (encode_parses v Hwf) by (unfold fuel_for; rewrite ?length_app; lia). done.
Qed.

(** The decoder is total on arbitrary bytes (a result or an error, never
    out of fuel), every value it accepts is well formed - so its re-encoding
    is canonical and decodes to it - and the [info] span [decode_torrent]
    reports lies in the buffer and holds exactly the bytes that decode to the
    dictionary's [info] value, the input of the info-hash. *)
Theorem decode_sound input :
  is_Some (decode input) ∧ is_Some (decode_prefix input) ∧ is_Some (decode_torrent input) ∧
  (∀ v, decode input = Some (Ok v) → bwf v) ∧
  (∀ v s e, decode_torrent input = Some (Ok (v, Some (s, e))) →
     0 <= s < e ∧ e <= blen input ∧
     ∃ w, bget v (bstr "info") = Some w ∧
       match slice input s e with Some bs => decode bs = Some (Ok w) | None => False end).
Proof.
  assert (is_Some (value (fuel_for input) (0, input))) as [r Hr] by
    (apply parse_total; unfold fuel_for; lia).
  split_and!.
  - unfold decode. rewrite Hr. by eexists.
  - unfold decode_prefix. rewrite Hr. by eexists.
  - assert (∀ rest, input = x64 :: rest → is_Some (dict_loop (fuel_for input) (1, rest) [] None None)) as Hd.
    { intros rest ->. apply parse_total. unfold fuel_for. simpl. lia. }
    unfold decode_torrent. destruct input as [|c rest]; [rewrite Hr; by eexists|].
    destruct (decide (c = x64)) as [->|Hc].
    + destruct (Hd rest eq_refl) as [x ->]. by eexists.
    + destruct c; try done; rewrite Hr; by eexists.
  - unfold decode. rewrite Hr. cbn [mbind option_bind]. intros v.
    destruct r as [[w st]|]; cbn; [|done]. case_bool_decide; [|done]. intros [= ->].
    by eapply parse_wf.
  - intros v s e. unfold decode_torrent.
    assert (∀ rest, input = x64 :: rest →
      (r ← dict_loop (fuel_for input) (1, rest) [] None None;
       Some ('(d, st, info) ← r; Ok (BDict d, info))) = Some (Ok (v, Some (s, e))) →
      0 <= s < e ∧ e <= blen input ∧ ∃ w, bget v (bstr "info") = Some w ∧
       match slice input s e with Some bs => decode bs = Some (Ok w) | None => False end) as Hd.
    { intros rest Hin. destruct (dict_loop _ _ _ _ _) as [[[[d st] i]|]|] eqn:E; cbn; try done.
      intros [= <- ->]. eapply (dict_loop_info input) in E; [|exists [x64]; by rewrite Hin|by intros ? ?].
      destruct (E s e eq_refl) as (w & pre & used & post & f & H1 & H2 & H3 & H4 & H5 & H6).
      assert (0 < blen used) by (destruct used; [done|rewrite blen_cons; pose proof (blen_nonneg used); lia]).
      pose proof (blen_nonneg pre). pose proof (blen_nonneg post).
      split_and!; try lia.
      - rewrite H1, !blen_app. lia.
      - exists w. split; [done|]. rewrite H1, (slice_app pre used post) by lia.
        eapply decode_slice; [|exact H6]. lia. }
    destruct input as [|c rest]; [rewrite Hr; destruct r as [[? ?]|]; done|].
    destruct (decide (c = x64)) as [->|Hc]; [by apply (Hd rest)|].
    destruct c; try done; rewrite Hr; destruct r as [[? ?]|]; done.
Qed.

(** The comment on [integer] says leading zeros are rejected, and
    [byte_string] checks digits only: a plus sign ([i+5e]) and zero-padded
    signs and lengths are accepted by [str::parse], so the decoder accepts
    inputs that are not what it would encode. *)
Theorem decode_not_canonical :
  decode (bstr "i+05e") = Some (Ok (BInt 5)) ∧ encode (BInt 5) ≠ bstr "i+05e" ∧
  decode (bstr "03:abc") = Some (Ok (BBytes (bstr "abc"))) ∧ encode (BBytes (bstr "abc")) ≠ bstr "03:abc".
Proof. by split_and!. Qed.

Lemma decode_encode_witness :
  decode (encode (BDict [(bstr "a", BList [BInt (-1); BBytes []])])) =
    Some (Ok (BDict [(bstr "a", BList [BInt (-1); BBytes []])])).
Proof.
  refine (proj1 (decode_encode (BDict [(bstr "a", BList [BInt (-1); BBytes []])]) [] _ _)).
  - repeat constructor; by vm_compute.
  - by vm_compute.
Defined.
