(* ===== verification/Feed.v ===== *)
(** * Feeds: records, segments, spine, index, adapter ([crates/epix-feed])

    A feed is a set of signed records plus artifacts that are pure functions
    of that set. This file models the record view and its canonical order
    ([lib.rs]), sealed segments and the spine ([segment.rs]), the target index
    ([index.rs]) and the schema adapter ([adapter.rs]). BLAKE3 ([ObjId::of])
    is the parameter [hash]. *)
From S2P Require Import Prelude Ordered Json.
From Stdlib Require Import ZArith Lia Strings.Byte.
From stdpp Require Import base list sorting strings.
#[local] Open Scope Z_scope.

(** An [ObjId]: a content address. *)
Abbreviation ObjId := bytes.

Inductive Kind :=
  | Post
  | Comment
  | Reaction (kind : bytes) (active : bool)
  | Tombstone.

Record Rec := mkRec {
  canonical : bytes;
  id : bytes;
  author : bytes;
  target : bytes;
  clock : Z;
  kind : Kind
}.

#[global] Instance Kind_eq_dec : EqDecision Kind.
Proof. solve_decision. Defined.
#[global] Instance Rec_eq_dec : EqDecision Rec.
Proof. solve_decision. Defined.

Definition is_reaction (k : Kind) : bool := match k with Reaction _ _ => true | _ => false end.
Definition is_tombstone (k : Kind) : bool := match k with Tombstone => true | _ => false end.
Definition is_comment (k : Kind) : bool := match k with Comment => true | _ => false end.

Definition SEP : bytes := [x1f].

Definition lineage (r : Rec) : bytes :=
  let kind_tag := match kind r with
    | Post => bstr "post" | Comment => bstr "comment" | Reaction k _ => k | Tombstone => bstr "tomb" end in
  author r ++ SEP ++ target r ++ SEP ++ kind_tag.

Definition identity (r : Rec) : bytes :=
  match kind r with
  | Reaction _ _ => lineage r
  | _ => author r ++ SEP ++ id r
  end.

(** A spine is its list of links. *)
Record SpineLink := mkLink { link_boundary : Z; segment_root : ObjId; link_root : ObjId }.
Abbreviation Spine := (list SpineLink).

(** A location: segment root, offset, length, ordered as the derive does. *)
Abbreviation Loc := (ObjId * Z * Z)%type.
Abbreviation TargetIndex := (btree bytes (list Loc)).

Section feed.
Context (hash : bytes → ObjId).

Definition addr (r : Rec) : ObjId := hash (canonical r).

Definition order_key (r : Rec) : Z * bytes * bytes * ObjId := (clock r, id r, author r, addr r).

Definition rec_cmp (a b : Rec) : comparison := cmp (order_key a) (order_key b).

Definition canonical_order (records : list Rec) : list Rec := sort_by rec_cmp records.

(** ** [segment.rs] *)

Definition SEG_MAGIC : bytes := bstr "EDXSEG1".

Record Segment := mkSegment {
  boundary : Z;
  records : list Rec;
  seg_bytes : bytes;
  seg_root : ObjId
}.

Definition framed (b : bytes) : bytes := le32 (blen b) ++ b.

Definition seal (recs : list Rec) (bound : Z) : Segment :=
  let selected := canonical_order (List.filter (λ r, clock r <=? bound) recs) in
  let bs := SEG_MAGIC ++ le64 bound ++ le32 (blen selected) ++
            concat (map (λ r, framed (canonical r)) selected) in
  mkSegment bound selected bs (hash bs).

(** The loop of [record_extents]: [off] is where the next prefix starts. *)
Fixpoint extents_from (off : Z) (recs : list Rec) : list (ObjId * Z * Z) :=
  match recs with
  | [] => []
  | r :: recs =>
      let off := off + 4 in
      (addr r, off, wrap32 (blen (canonical r))) :: extents_from (off + blen (canonical r)) recs
  end.

Definition record_extents (seg : Segment) : list (ObjId * Z * Z) :=
  extents_from (blen SEG_MAGIC + 8 + 4) (records seg).

Inductive SpineError := NonMonotoneBoundary (have got : Z).

Definition head_of (s : Spine) : ObjId :=
  match last s with Some l => link_root l | None => repeat x00 32 end.

Definition spine_append (s : Spine) (seg : Segment) : result SpineError Spine :=
  match last s with
  | Some l =>
      if boundary seg <=? link_boundary l then Err (NonMonotoneBoundary (link_boundary l) (boundary seg))
      else Ok (s ++ [mkLink (boundary seg) (seg_root seg)
                 (hash (head_of s ++ seg_root seg ++ le64 (boundary seg)))])
  | None =>
      Ok (s ++ [mkLink (boundary seg) (seg_root seg)
                 (hash (head_of s ++ seg_root seg ++ le64 (boundary seg)))])
  end.

#[global] Instance SpineLink_eq_dec : EqDecision SpineLink.
Proof. solve_decision. Defined.

Definition is_extension_of (s base : Spine) : bool :=
  if (length s <? length base)%nat then false
  else forallb (λ p, bool_decide (p.1 = p.2)) (combine base s).

(** ** [index.rs] *)

Definition index_key (r : Rec) : bytes := match target r with [] => id r | t => t end.

Definition index_push (seg_root : ObjId) (m : TargetIndex) (p : Rec * (ObjId * Z * Z)) : TargetIndex :=
  let '(r, (_, off, len)) := p in
  bt_upsert (λ locs, locs ++ [(seg_root, off, len)]) (index_key r) [(seg_root, off, len)] m.

(** [get_mut(key)] then sort and dedup in place. *)
Definition index_tidy (m : TargetIndex) (key : bytes) : TargetIndex :=
  match bt_get m key with Some locs => bt_insert key (dedup (Ordered.sort locs)) m | None => m end.

Definition add_segment (m : TargetIndex) (seg : Segment) : TargetIndex :=
  let m := foldl (index_push (seg_root seg)) m (combine (records seg) (record_extents seg)) in
  let touched := dedup (Ordered.sort (map index_key (records seg))) in
  foldl index_tidy m touched.

Definition locations (m : TargetIndex) (t : bytes) : list Loc := default [] (bt_get m t).

Definition index_serialize (m : TargetIndex) : bytes :=
  bstr "EDXIDX1" ++ le32 (blen m) ++
  concat (map (λ p : bytes * list Loc, framed p.1 ++ le32 (blen p.2) ++
    concat (map (λ l : Loc, l.1.1 ++ le64 l.1.2 ++ le32 l.2) p.2)) m).

Definition index_root (m : TargetIndex) : ObjId := hash (index_serialize m).
End feed.

(** ** [adapter.rs] *)

Record FieldMap := mkFieldMap { map_id : bytes; map_author : bytes; map_clock : bytes; map_target : option bytes }.
Record KindSpec := mkKindSpec {
  kind_default : bytes; reaction_kind_field : option bytes; active_field : option bytes }.

Record FeedDescriptor := mkDesc {
  desc_name : bytes;
  record_format : bytes;
  files : bytes;
  record_key : bytes;
  desc_map : FieldMap;
  desc_kind : KindSpec;
  desc_scale : Z;
  deleted_field : bytes;
  moderated_field : bytes
}.

Definition clock_scale (unit : bytes) : option Z :=
  if bool_decide (unit = bstr "ms") then Some 1
  else if bool_decide (unit = bstr "s") then Some 1000 else None.

Definition DEFAULT_RECORD_FORMAT : bytes := bstr "epix-orset-1".

Definition parse_descriptor (name : bytes) (obj : json) (common : option json) : option FeedDescriptor :=
  map_obj ← jget obj (bstr "map");
  tgt ← (match jget map_obj (bstr "target") with
         | Some JNull | None => Some None
         | Some v => s ← as_str v; Some (Some s) end);
  mid ← get_str map_obj (bstr "id");
  mauthor ← get_str map_obj (bstr "author");
  mclock ← get_str map_obj (bstr "clock");
  kind_obj ← jget obj (bstr "kind");
  kdefault ← get_str kind_obj (bstr "default");
  fl ← get_str obj (bstr "files");
  rk ← get_str obj (bstr "record_key");
  scale ← clock_scale (default (bstr "ms") (get_str obj (bstr "clock_unit")));
  let common_field key dflt := default dflt (c ← common; get_str c key) in
  Some (mkDesc name
    (default DEFAULT_RECORD_FORMAT (get_str obj (bstr "record_format")))
    fl rk (mkFieldMap mid mauthor mclock tgt)
    (mkKindSpec kdefault (get_str kind_obj (bstr "reaction_kind_field")) (get_str kind_obj (bstr "active_field")))
    scale
    (common_field (bstr "deleted_field") (bstr "deleted"))
    (common_field (bstr "moderated_field") (bstr "moderated"))).

Inductive Skip := SkipNotObject | SkipMissingField (f : bytes) | BadClock.

Definition scalar_key (v : json) : option bytes :=
  match v with
  | JStr s => Some s
  | JInt _ => i ← as_i64 v; Some (dec i)
  | _ => None
  end.

Definition record_from_value (desc : FeedDescriptor) (record : json) (canonical_bytes : bytes)
    : result Skip Rec :=
  _ ← ok_or (as_object record) SkipNotObject;
  rid ← ok_or (v ← jget record (map_id (desc_map desc)); scalar_key v) (SkipMissingField (bstr "id"));
  rauthor ← ok_or (get_str record (map_author (desc_map desc))) (SkipMissingField (bstr "author"));
  clock_i ← ok_or (get_i64 record (map_clock (desc_map desc))) BadClock;
  if clock_i <? 0 then Err BadClock else
  let c := clock_i * desc_scale desc in
  if u64_max <? c then Err BadClock else
  let tgt := match map_target (desc_map desc) with
    | None => []
    | Some field => default [] (v ← jget record field; scalar_key v) end in
  let deleted := default false (get_bool record (deleted_field desc)) in
  if deleted then Ok (mkRec canonical_bytes rid rauthor rid c Tombstone)
  else if bool_decide (kind_default (desc_kind desc) = bstr "reaction") then
    rk ← ok_or (f ← reaction_kind_field (desc_kind desc); get_str record f) (SkipMissingField (bstr "reaction_kind"));
    let active := default true (f ← active_field (desc_kind desc); get_bool record f) in
    Ok (mkRec canonical_bytes rid rauthor tgt c (Reaction rk active))
  else if bool_decide (kind_default (desc_kind desc) = bstr "post")
  then Ok (mkRec canonical_bytes rid rauthor tgt c Post)
  else Ok (mkRec canonical_bytes rid rauthor tgt c Comment).

(** ** Facts about the order and segments *)

Lemma blen_framed b : blen (framed b) = 4 + blen b.
Proof. unfold framed. by rewrite blen_app, blen_le_bytes. Qed.

Section feed_facts.
Context (hash : bytes → ObjId).

(** Two records with the same order key are the same record: the content
    address pins the canonical bytes, from which the fields are derived. *)
Definition key_unique (recs : list Rec) : Prop := ∀ r1 r2, r1 ∈ recs → r2 ∈ recs →
  order_key hash r1 = order_key hash r2 → r1 = r2.

Lemma rec_cmp_opp x y : rec_cmp hash y x = CompOpp (rec_cmp hash x y).
Proof. apply cmp_opp. Qed.

Lemma rec_cmp_trans x y z : cle (rec_cmp hash) x y → cle (rec_cmp hash) y z → cle (rec_cmp hash) x z.
Proof. apply ole_trans. Qed.

Lemma canonical_order_perm l k : key_unique l → l ≡ₚ k → canonical_order hash l = canonical_order hash k.
Proof.
  intros Hu. apply sort_by_perm_eq; [apply rec_cmp_opp|apply rec_cmp_trans|].
  intros x y Hx Hy Heq%cmp_eq_iff. by apply Hu.
Qed.

Lemma key_unique_filter p l : key_unique l → key_unique (List.filter p l).
Proof. intros Hu r1 r2 [H1 _]%elem_of_bfilter [H2 _]%elem_of_bfilter. auto. Qed.

Lemma seal_perm l k b : key_unique l → l ≡ₚ k → seal hash l b = seal hash k b.
Proof.
  intros Hu Hp. unfold seal. rewrite (canonical_order_perm _ (List.filter (λ r, clock r <=? b) k)); [done| |].
  - by apply key_unique_filter.
  - by apply filter_perm.
Qed.

Lemma seal_records l b r : r ∈ records (seal hash l b) ↔ r ∈ l ∧ clock r <= b.
Proof.
  unfold seal, canonical_order. cbn [records]. rewrite elem_of_sort_by, elem_of_bfilter, Z.leb_le. done.
Qed.

Lemma extents_from_lookup off recs i r :
  recs !! i = Some r →
  extents_from hash off recs !! i = Some (addr hash r,
    off + 4 + blen (concat (map (λ r, framed (canonical r)) (take i recs))), wrap32 (blen (canonical r))).
Proof.
  revert off i; induction recs as [|r0 recs IH]; intros off i; [done|].
  destruct i as [|i]; cbn [extents_from lookup list_lookup take map concat].
  - intros [= ->]. do 3 f_equal. unfold blen at 1. simpl. lia.
  - intros Hr. rewrite (IH _ _ Hr), blen_app, blen_framed. do 3 f_equal. lia.
Qed.

Lemma extents_from_length off recs : length (extents_from hash off recs) = length recs.
Proof. revert off; induction recs as [|r recs IH]; intros off; simpl; auto. Qed.

(** The bytes an extent points at are the record's signed bytes. *)
Lemma extent_slice l b i r :
  records (seal hash l b) !! i = Some r → blen (canonical r) <= u32_max →
  ∃ off, record_extents hash (seal hash l b) !! i = Some (addr hash r, off, blen (canonical r)) ∧
    slice (seg_bytes (seal hash l b)) off (off + blen (canonical r)) = Some (canonical r).
Proof.
  intros Hr Hlen. unfold record_extents. rewrite (extents_from_lookup _ _ _ _ Hr).
  eexists. split.
  - do 3 f_equal. unfold wrap32. rewrite Z.mod_small; [done|]. unfold blen, u32_max in *. lia.
  - unfold seal in *. cbn [records seg_bytes] in *. set (sel := canonical_order _ _) in *.
    set (body := λ l : list Rec, concat (map (λ r, framed (canonical r)) l)).
    assert (body sel = body (take i sel) ++ framed (canonical r) ++ body (drop (S i) sel)) as Hbody.
    { unfold body. rewrite <- (take_drop_middle _ _ _ Hr) at 1. by rewrite map_app, concat_app. }
    change (concat (map (λ r0, framed (canonical r0)) ?z)) with (body z).
    rewrite Hbody. unfold framed. rewrite <- !app_assoc.
    rewrite (app_assoc SEG_MAGIC), (app_assoc (SEG_MAGIC ++ _)),
      (app_assoc ((SEG_MAGIC ++ _) ++ _)), (app_assoc (((SEG_MAGIC ++ _) ++ _) ++ _)).
    apply slice_app; rewrite !blen_app, ?blen_le_bytes; lia.
Qed.

(** ** The spine *)

Definition spine_sorted (s : Spine) : Prop :=
  ∀ i j a b, (i < j)%nat → s !! i = Some a → s !! j = Some b → link_boundary a < link_boundary b.

Lemma is_extension_of_spec s base : is_extension_of s base = true ↔ ∃ k, s = base ++ k.
Proof.
  unfold is_extension_of. destruct (Nat.ltb_spec (length s) (length base)) as [Hlt|Hge].
  { split; [done|]. intros [k ->]. rewrite length_app in Hlt. lia. }
  revert s Hge; induction base as [|l base IH]; intros s Hge; simpl.
  - split; [by exists s|done].
  - destruct s as [|l' s]; simpl in *; [lia|].
    rewrite andb_true_iff, bool_decide_eq_true, IH by lia. split.
    + intros [-> [k ->]]. by exists k.
    + intros [k [= -> ->]]. eauto.
Qed.

Lemma spine_append_spec s seg s' : spine_append hash s seg = Ok s' →
  ∃ l, s' = s ++ [l] ∧ link_boundary l = boundary seg ∧ segment_root l = seg_root seg ∧
    link_root l = hash (head_of s ++ seg_root seg ++ le64 (boundary seg)) ∧
    match last s with Some p => link_boundary p < boundary seg | None => True end.
Proof.
  unfold spine_append. destruct (last s) as [p|].
  - destruct (Z.leb_spec (boundary seg) (link_boundary p)); [done|]. intros [= <-]. eexists. by split_and!.
  - intros [= <-]. eexists. by split_and!.
Qed.

Lemma spine_append_sorted s seg s' : spine_sorted s → spine_append hash s seg = Ok s' → spine_sorted s'.
Proof.
  intros Hs (l & -> & Hl & _ & _ & Hlast)%spine_append_spec i j a b Hij Ha Hb.
  apply lookup_snoc_Some in Hb as [[Hj Hb]|[-> <-]].
  - rewrite lookup_app_l in Ha by lia. eauto.
  - rewrite lookup_app_l in Ha by lia. rewrite Hl.
    pose proof (last_lookup s) as Hp. destruct (last s) as [p|].
    + destruct (decide (i = pred (length s))) as [->|]; [congruence|].
      specialize (Hs i (pred (length s)) a p ltac:(lia) Ha (eq_sym Hp)). lia.
    + symmetry in Hp. apply lookup_ge_None in Hp. apply lookup_lt_Some in Ha. lia.
Qed.
End feed_facts.

(** ** The index *)

Section index_facts.
Context (hash : bytes → ObjId).

(** The locations pushed for [key]. *)
Definition pushes (seg_root : ObjId) (ps : list (Rec * (ObjId * Z * Z))) (key : bytes) : list Loc :=
  omap (λ p : Rec * (ObjId * Z * Z),
    if decide (index_key p.1 = key) then Some (seg_root, p.2.1.2, p.2.2) else None) ps.

Lemma index_push_get root m ps key :
  default [] (bt_get (foldl (index_push root) m ps) key) = default [] (bt_get m key) ++ pushes root ps key.
Proof.
  revert m; induction ps as [|[r [[a off] len]] ps IH]; intros m; cbn [foldl]; [by rewrite app_nil_r|].
  rewrite IH. unfold index_push at 1. rewrite bt_get_upsert. unfold pushes. cbn.
  destruct (decide (index_key r = key)) as [->|Hne].
  - rewrite decide_True by done. destruct (bt_get m key); cbn; [|done]. by rewrite <- app_assoc.
  - by rewrite decide_False by congruence.
Qed.

Lemma index_push_wf root m ps : bt_wf m → bt_wf (foldl (index_push root) m ps).
Proof.
  revert m; induction ps as [|[r [[a off] len]] ps IH]; intros m Hm; simpl; [done|].
  apply IH. unfold index_push. auto with btree.
Qed.

Definition no_empty (m : TargetIndex) : Prop := ∀ k l, bt_get m k = Some l → l ≠ [].

Lemma index_push_no_empty root m ps : no_empty m → no_empty (foldl (index_push root) m ps).
Proof.
  revert m; induction ps as [|[r [[a off] len]] ps IH]; intros m Hm; simpl; [done|].
  apply IH. intros k l. unfold index_push. rewrite bt_get_upsert. case_decide; [|apply Hm].
  intros [= <-]. destruct (bt_get m (index_key r)) as [l0|]; [|done]. by destruct l0.
Qed.

Definition sorted_locs (l : list Loc) : Prop := StronglySorted olt l.

Lemma tidy_sorted (l : list Loc) : sorted_locs (dedup (Ordered.sort l)).
Proof. apply dedup_sorted, sort_sorted. Qed.

Lemma index_tidy_get keys m key :
  bt_wf m →
  bt_wf (foldl index_tidy m keys) ∧
  (∀ x, x ∈ default [] (bt_get (foldl index_tidy m keys) key) ↔ x ∈ default [] (bt_get m key)) ∧
  (is_Some (bt_get (foldl index_tidy m keys) key) ↔ is_Some (bt_get m key)) ∧
  (key ∈ keys ∨ sorted_locs (default [] (bt_get m key)) →
     sorted_locs (default [] (bt_get (foldl index_tidy m keys) key))).
Proof.
  revert m; induction keys as [|k keys IH]; intros m Hm; cbn [foldl].
  { split_and!; try done. by intros [?%elem_of_nil|]. }
  assert (bt_wf (index_tidy m k)) as Hm' by (unfold index_tidy; destruct (bt_get m k); auto with btree).
  assert ((∀ x, x ∈ default [] (bt_get (index_tidy m k) key) ↔ x ∈ default [] (bt_get m key)) ∧
    (is_Some (bt_get (index_tidy m k) key) ↔ is_Some (bt_get m key)) ∧
    (key = k ∨ sorted_locs (default [] (bt_get m key)) →
     sorted_locs (default [] (bt_get (index_tidy m k) key)))) as (H1 & H2 & H3).
  { unfold index_tidy. destruct (bt_get m k) as [locs|] eqn:E.
    - rewrite bt_get_insert. case_decide as D; [subst; rewrite E; cbn|split_and!; try done; naive_solver].
      split_and!.
      + intros x. by rewrite elem_of_dedup, sort_perm.
      + split; by eexists.
      + intros _. apply tidy_sorted.
    - split_and!; try done. intros [->|]; [|done]. rewrite E. constructor. }
  destruct (IH _ Hm') as (I0 & I1 & I2 & I3). split_and!; [done|..].
  - intros x. by rewrite I1.
  - by rewrite I2.
  - intros [[->|Hin]%elem_of_cons|Hs]; apply I3; auto.
Qed.

(** Canonical indexes: sorted keys, and every entry strictly sorted and
    non-empty. *)
Definition index_wf (m : TargetIndex) : Prop :=
  bt_wf m ∧ ∀ k l, bt_get m k = Some l → sorted_locs l ∧ l ≠ [].

Lemma pushes_elem root recs es key x : length es = length recs →
  x ∈ pushes root (combine recs es) key ↔
  ∃ i r a off len, recs !! i = Some r ∧ es !! i = Some (a, off, len) ∧ index_key r = key ∧ x = (root, off, len).
Proof.
  intros Hl. unfold pushes. rewrite list_elem_of_omap. split.
  - intros ([r [[a off] len]] & Hin & Hx). cbn in Hx. case_decide; [|done]. injection Hx as <-.
    apply list_elem_of_lookup in Hin as [i Hi].
    exists i, r, a, off, len. revert recs es i Hl Hi. induction recs as [|r0 recs IH]; intros [|e es] i Hl Hi; try done.
    destruct i as [|i]; [by injection Hi as -> ->|]. apply (IH es i); [by injection Hl|exact Hi].
  - intros (i & r & a & off & len & Hr & He & Hk & ->). exists (r, (a, off, len)). cbn.
    split; [|by rewrite decide_True]. apply list_elem_of_lookup. exists i. revert recs es i Hl Hr He.
    induction recs as [|r0 recs IH]; intros [|e es] i Hl Hr He; try done.
    destruct i as [|i]; [injection Hr as ->; injection He as ->; done|].
    apply (IH es i); [by injection Hl|exact Hr|exact He].
Qed.

(** What a segment contributes to a target. *)
Definition seg_loc (seg : Segment) (key : bytes) (x : Loc) : Prop :=
  ∃ i r a off len, records seg !! i = Some r ∧ record_extents hash seg !! i = Some (a, off, len) ∧
    index_key r = key ∧ x = (seg_root seg, off, len).

Lemma add_segment_spec m seg :
  index_wf m →
  index_wf (add_segment hash m seg) ∧
  ∀ key x, x ∈ locations (add_segment hash m seg) key ↔ x ∈ locations m key ∨ seg_loc seg key x.
Proof.
  intros [Hwf Hs]. unfold add_segment, locations.
  set (m1 := foldl (index_push (seg_root seg)) m (combine (records seg) (record_extents hash seg))).
  set (touched := dedup (Ordered.sort (map index_key (records seg)))).
  assert (bt_wf m1) as Hwf1 by (by apply index_push_wf).
  assert (∀ key, default [] (bt_get m1 key) = default [] (bt_get m key) ++
    pushes (seg_root seg) (combine (records seg) (record_extents hash seg)) key) as Hget
    by (intros; apply index_push_get).
  assert (∀ key x, x ∈ pushes (seg_root seg) (combine (records seg) (record_extents hash seg)) key ↔
    seg_loc seg key x) as Hpush by (intros; apply pushes_elem, extents_from_length).
  assert (∀ key, (∃ x, seg_loc seg key x) → key ∈ touched) as Htouched.
  { intros key (x & i & r & a & off & len & Hr & _ & <- & _). unfold touched.
    rewrite elem_of_dedup, sort_perm. apply list_elem_of_lookup_2 in Hr. by apply (list_elem_of_fmap_2 index_key). }
  assert (∀ key, key ∈ touched ∨ default [] (bt_get m1 key) = default [] (bt_get m key)) as Hcase.
  { intros key. destruct (pushes (seg_root seg) (combine (records seg) (record_extents hash seg)) key) as [|y ys] eqn:E.
    - right. by rewrite Hget, E, app_nil_r.
    - left. apply Htouched. exists y. apply Hpush. rewrite E. left. }
  split; [split|].
  - apply (index_tidy_get touched m1 []); auto.
  - intros key l Hl. destruct (index_tidy_get touched m1 key Hwf1) as (_ & I1 & I2 & I3).
    rewrite Hl in I1, I2, I3. cbn in I1, I3. split.
    + apply I3. destruct (Hcase key) as [|Heq]; [by left|right]. rewrite Heq.
      destruct (bt_get m key) as [l'|] eqn:E; [by apply (Hs key)|constructor].
    + intros ->. destruct (proj1 I2 ltac:(by eexists)) as [l1 Hl1]. rewrite Hl1 in I1. cbn in I1.
      destruct l1 as [|y l1]; [|apply (not_elem_of_nil y), I1; left].
      by apply (index_push_no_empty _ _ _ (λ k l, λ Hk, proj2 (Hs k l Hk))) in Hl1.
  - intros key x. destruct (index_tidy_get touched m1 key Hwf1) as (_ & I1 & _ & _).
    by rewrite I1, Hget, elem_of_app, Hpush.
Qed.
End index_facts.

(** ** Headline theorems *)

Section index_fold.
Context (hash : bytes → ObjId).

Definition build_index (segs : list Segment) : TargetIndex := foldl (add_segment hash) [] segs.

Lemma build_index_spec segs :
  index_wf (build_index segs) ∧
  ∀ key x, x ∈ locations (build_index segs) key ↔ ∃ seg, seg ∈ segs ∧ seg_loc hash seg key x.
Proof.
  unfold build_index. assert (∀ m, index_wf m →
    index_wf (foldl (add_segment hash) m segs) ∧
    ∀ key x, x ∈ locations (foldl (add_segment hash) m segs) key ↔
      x ∈ locations m key ∨ ∃ seg, seg ∈ segs ∧ seg_loc hash seg key x) as H.
  { induction segs as [|seg segs IH]; intros m Hm; simpl.
    - split; [done|]. intros key x. split; [auto|]. intros [|(seg & Hs & _)]; [done|]. by apply elem_of_nil in Hs.
    - destruct (add_segment_spec hash m seg Hm) as [Hm' Hl]. destruct (IH _ Hm') as [H1 H2].
      split; [done|]. intros key x. rewrite H2, Hl. setoid_rewrite elem_of_cons. naive_solver. }
  destruct (H []) as [H1 H2]; [split; [apply bt_wf_nil|done]|]. split; [done|].
  intros key x. rewrite H2. unfold locations. cbn. split; [|auto].
  by intros [Hx%elem_of_nil|].
Qed.

(** Two well-formed indexes with the same locations are the same map. *)
Lemma index_ext m1 m2 : index_wf m1 → index_wf m2 →
  (∀ key x, x ∈ locations m1 key ↔ x ∈ locations m2 key) → m1 = m2.
Proof.
  intros [W1 S1] [W2 S2] Heq. apply bt_ext; auto. intros k. specialize (Heq k).
  unfold locations in Heq. destruct (bt_get m1 k) as [l1|] eqn:E1, (bt_get m2 k) as [l2|] eqn:E2; [|..].
  - f_equal. destruct (S1 k l1 E1), (S2 k l2 E2). by apply olt_sorted_ext.
  - destruct (S1 k l1 E1) as [_ Hne]. destruct l1 as [|y l1]; [done|]. exfalso.
    apply (not_elem_of_nil y), Heq. left.
  - destruct (S2 k l2 E2) as [_ Hne]. destruct l2 as [|y l2]; [done|]. exfalso.
    apply (not_elem_of_nil y), Heq. left.
  - done.
Qed.
End index_fold.

(** Sealing is arithmetic anyone can run: it depends only on the set of
    records (not their arrival order), selects exactly the records up to the
    boundary in canonical order, and every extent of the sealed bytes slices
    out the signed bytes of its record, at its content address. *)
Theorem seal_correct hash l k b :
  key_unique hash l → l ≡ₚ k → Forall (λ r, blen (canonical r) <= u32_max) l →
  seal hash l b = seal hash k b ∧
  (∀ r, r ∈ records (seal hash l b) ↔ r ∈ l ∧ clock r <= b) ∧
  StronglySorted (cle (rec_cmp hash)) (records (seal hash l b)) ∧
  (∀ i r, records (seal hash l b) !! i = Some r →
     ∃ off, record_extents hash (seal hash l b) !! i = Some (addr hash r, off, blen (canonical r)) ∧
       slice (seg_bytes (seal hash l b)) off (off + blen (canonical r)) = Some (canonical r)).
Proof.
  intros Hu Hp Hlen. split_and!.
  - by apply seal_perm.
  - intros r. apply seal_records.
  - apply sort_by_sorted; [apply rec_cmp_opp|apply rec_cmp_trans].
  - intros i r Hr. apply extent_slice; [done|]. rewrite Forall_forall in Hlen.
    apply Hlen. apply list_elem_of_lookup_2 in Hr. by apply seal_records in Hr as [? _].
Qed.

(** The spine only grows: an append succeeds exactly for a larger
    boundary, keeps boundaries strictly increasing, extends the old spine and
    is not extended by it; extension is a partial order. *)
Theorem spine_monotone hash (s s' : Spine) seg :
  spine_sorted s → spine_append hash s seg = Ok s' →
  spine_sorted s' ∧ is_extension_of s' s = true ∧ is_extension_of s s' = false ∧
  (∀ seg', boundary seg' <= boundary seg → ∃ e, spine_append hash s' seg' = Err e) ∧
  (∀ a, is_extension_of a a = true) ∧
  (∀ a b c, is_extension_of a b = true → is_extension_of b c = true → is_extension_of a c = true) ∧
  (∀ a b, is_extension_of a b = true → is_extension_of b a = true → a = b).
Proof.
  intros Hs Ha. pose proof (spine_append_sorted _ _ _ _ Hs Ha) as Hs'.
  destruct (spine_append_spec _ _ _ _ Ha) as (l & -> & Hb & _ & _ & _). split_and!; [done|..].
  - apply is_extension_of_spec. eauto.
  - apply not_true_iff_false. rewrite is_extension_of_spec. intros [k Hk].
    apply (f_equal length) in Hk. rewrite !length_app in Hk. simpl in Hk. lia.
  - intros seg' Hle. unfold spine_append. rewrite last_snoc, Hb.
    rewrite (proj2 (Z.leb_le _ _)) by done. by eexists.
  - intros a. apply is_extension_of_spec. exists []. by rewrite app_nil_r.
  - intros a b c. rewrite !is_extension_of_spec. intros [k ->] [k' ->]. exists (k' ++ k). by rewrite app_assoc.
  - intros a b. rewrite !is_extension_of_spec. intros [k ->] [k' Hk].
    apply (f_equal length) in Hk. rewrite !length_app in Hk. destruct k; [by rewrite app_nil_r|simpl in Hk; lia].
Qed.

(** The target index is sound and complete: a location is listed under a
    target exactly when some folded segment holds a record of that target at
    that extent, listings are strictly sorted (no duplicates), and the index
    (hence its root) does not depend on the order the segments were folded in. *)
Theorem index_correct hash segs segs' :
  segs ≡ₚ segs' →
  (∀ key x, x ∈ locations (build_index hash segs) key ↔ ∃ seg, seg ∈ segs ∧ seg_loc hash seg key x) ∧
  (∀ key, sorted_locs (locations (build_index hash segs) key)) ∧
  build_index hash segs = build_index hash segs' ∧
  index_root hash (build_index hash segs) = index_root hash (build_index hash segs').
Proof.
  intros Hp. destruct (build_index_spec hash segs) as [W1 L1], (build_index_spec hash segs') as [W2 L2].
  assert (build_index hash segs = build_index hash segs') as Heq.
  { apply index_ext; auto. intros key x. rewrite L1, L2. by setoid_rewrite Hp. }
  split_and!; [done| |done|by rewrite Heq].
  intros key. unfold locations. destruct W1 as [_ Hs]. destruct (bt_get _ key) as [l|] eqn:E; [|constructor].
  by apply (Hs key).
Qed.

(** The adapter keeps the signed bytes verbatim, scales the clock without
    wrapping, and maps a deleted record to a tombstone on its own id whatever
    the feed's kind; a record with a missing field or an out-of-range clock is
    skipped, never mis-keyed. *)
Theorem record_from_value_correct desc v cb r :
  desc_scale desc = 1 ∨ desc_scale desc = 1000 →
  record_from_value desc v cb = Ok r →
  canonical r = cb ∧ is_u64 (clock r) ∧
  (∃ c, get_i64 v (map_clock (desc_map desc)) = Some c ∧ 0 <= c ∧ clock r = c * desc_scale desc) ∧
  get_str v (map_author (desc_map desc)) = Some (author r) ∧
  (x ← jget v (map_id (desc_map desc)); scalar_key x) = Some (id r) ∧
  (get_bool v (deleted_field desc) = Some true ↔ kind r = Tombstone) ∧
  (kind r = Tombstone → target r = id r) ∧
  (is_reaction (kind r) = true → kind_default (desc_kind desc) = bstr "reaction").
Proof.
  intros Hscale. unfold record_from_value. destruct (as_object v); [|done]. cbn [ok_or mbind result_bind].
  destruct (jget v _ ≫= scalar_key) as [rid|]; [|done]. cbn [ok_or mbind result_bind].
  destruct (get_str v (map_author _)) as [ra|]; [|done]. cbn [ok_or mbind result_bind].
  destruct (get_i64 v (map_clock _)) as [c|]; [|done]. cbn [ok_or mbind result_bind].
  destruct (Z.ltb_spec c 0); [done|]. destruct (Z.ltb_spec u64_max (c * desc_scale desc)); [done|].
  assert (is_u64 (c * desc_scale desc)) by (unfold is_u64; lia).
  destruct (get_bool v (deleted_field desc)) as [[]|]; cbn [default].
  - intros [= <-]. cbn. split_and!; eauto; done.
  - case_bool_decide; [destruct (reaction_kind_field (desc_kind desc) ≫= get_str v); [|done]|case_bool_decide];
      intros [= <-]; cbn; split_and!; eauto; done.
  - case_bool_decide; [destruct (reaction_kind_field (desc_kind desc) ≫= get_str v); [|done]|case_bool_decide];
      intros [= <-]; cbn; split_and!; eauto; done.
Qed.

(** ** Witnesses *)

Definition rec_a : Rec := mkRec (bstr "A") (bstr "a") (bstr "alice") [] 1 Post.
Definition rec_b : Rec := mkRec (bstr "B") (bstr "b") (bstr "bob") (bstr "a") 2 Comment.

Lemma key_unique_ab : key_unique (λ b, b) [rec_a; rec_b].
Proof.
  intros r1 r2 [->|[->|[]%elem_of_nil]%elem_of_cons]%elem_of_cons
    [->|[->|[]%elem_of_nil]%elem_of_cons]%elem_of_cons; done.
Qed.

Lemma seal_correct_witness : seal (λ b, b) [rec_a; rec_b] 5 = seal (λ b, b) [rec_b; rec_a] 5.
Proof.
  refine (proj1 (seal_correct (λ b, b) [rec_a; rec_b] [rec_b; rec_a] 5 _ _ _)).
  - apply key_unique_ab.
  - apply Permutation_swap.
  - repeat constructor; by vm_compute.
Defined.

Lemma spine_monotone_witness : is_extension_of
  [mkLink 5 (bstr "r") ((λ b, b) (repeat x00 32 ++ bstr "r" ++ le64 5))] [] = true.
Proof.
  refine (proj1 (proj2 (spine_monotone (λ b, b) [] _ (mkSegment 5 [] [] (bstr "r")) _ _))).
  - intros i j a b _ Ha. by rewrite lookup_nil in Ha.
  - reflexivity.
Defined.

Lemma index_correct_witness :
  build_index (λ b, b) [seal (λ b, b) [rec_a] 5; seal (λ b, b) [rec_b] 5] =
  build_index (λ b, b) [seal (λ b, b) [rec_b] 5; seal (λ b, b) [rec_a] 5].
Proof.
  refine (proj1 (proj2 (proj2 (index_correct (λ b, b) [seal (λ b, b) [rec_a] 5; seal (λ b, b) [rec_b] 5]
    [seal (λ b, b) [rec_b] 5; seal (λ b, b) [rec_a] 5] _)))).
  apply Permutation_swap.
Defined.

Definition desc_ex : FeedDescriptor :=
  mkDesc (bstr "c") DEFAULT_RECORD_FORMAT [] [] (mkFieldMap (bstr "id") (bstr "by") (bstr "at") None)
    (mkKindSpec (bstr "post") None None) 1000 (bstr "deleted") (bstr "moderated").

Lemma record_from_value_correct_witness : ∃ r,
  record_from_value desc_ex (JObj [(bstr "at", JInt 3); (bstr "by", JStr (bstr "bob")); (bstr "id", JInt 7)])
    (bstr "raw") = Ok r ∧ canonical r = bstr "raw".
Proof.
  eexists. split; [reflexivity|].
  refine (proj1 (record_from_value_correct desc_ex
    (JObj [(bstr "at", JInt 3); (bstr "by", JStr (bstr "bob")); (bstr "id", JInt 7)]) (bstr "raw") _ _ _)).
  - by right.
  - reflexivity.
Defined.
