(* ===== verification/Checkpoint.v ===== *)
(** * Feed state: reactions, checkpoints, rollups
    ([crates/epix-feed/src/reactions.rs], [checkpoint.rs], [rollup.rs])

    All three fold the record set to one winner per key by the greatest order
    key. The fold is treated once ([win_fold]); the theorems then say the
    derived state is a function of the set of records, that tombstones are
    sticky, and when the three counts agree. *)
From S2P Require Import Prelude Ordered Json Feed.
From Stdlib Require Import ZArith Lia Strings.Byte.
From stdpp Require Import base list sorting strings.
#[local] Open Scope Z_scope.

(** [entry(key).and_modify(if r > cur then cur = r).or_insert(r)]. *)
Section win_fold.
Context (hash : bytes → ObjId) (key : Rec → bytes).

Definition later (r cur : Rec) : bool := oltb (order_key hash cur) (order_key hash r).

Definition win_step (m : btree bytes Rec) (r : Rec) : btree bytes Rec :=
  bt_upsert (λ cur, if later r cur then r else cur) (key r) r m.

Definition win_fold (l : list Rec) : btree bytes Rec := foldl win_step [] l.
End win_fold.

Section state.
Context (hash : bytes → ObjId).

(** ** [reactions.rs]

    The maps there are [HashMap]s; nothing below depends on their iteration
    order, so they are modelled by the sorted map. *)

Definition fold_step (t : bytes) (m : btree bytes Rec) (r : Rec) : btree bytes Rec :=
  if negb (bool_decide (target r = t)) then m
  else if negb (is_reaction (kind r)) then m
  else win_step hash lineage m r.

Definition fold_lineages (recs : list Rec) (t : bytes) : btree bytes Rec := foldl (fold_step t) [] recs.

Definition tally (counts : btree bytes Z) (r : Rec) : btree bytes Z :=
  match kind r with
  | Reaction k true => bt_upsert (λ n, n + 1) k 1 counts
  | _ => counts
  end.

Definition reaction_count (recs : list Rec) (t : bytes) : btree bytes Z :=
  foldl tally [] (bt_values (fold_lineages recs t)).

Definition counts_of (counts : btree bytes Z) (k : bytes) : Z := default 0 (bt_get counts k).
Definition counts_total (counts : btree bytes Z) : Z := foldr Z.add 0 (bt_values counts).

Definition is_active (recs : list Rec) (a t k : bytes) : bool :=
  match bt_get (fold_lineages recs t) (a ++ SEP ++ t ++ SEP ++ k) with
  | Some r => match kind r with Reaction _ true => true | _ => false end
  | None => false
  end.

(** ** [checkpoint.rs] *)

Record Checkpoint := mkCheckpoint {
  ck_boundary : Z;
  live : list Rec;
  reaction_counts : btree bytes (btree bytes Z);
  tombstones : list (bytes * bytes);
  history_root : ObjId;
  ck_root : ObjId
}.

(** A [BTreeSet] is its sorted list. *)
Definition tombstoned_ids (recs : list Rec) : list (bytes * bytes) :=
  dedup (Ordered.sort (map (λ r, (author r, target r)) (List.filter (λ r, is_tombstone (kind r)) recs))).

Definition live_step (tombs : list (bytes * bytes)) (m : btree bytes Rec) (r : Rec) : btree bytes Rec :=
  if is_reaction (kind r) || is_tombstone (kind r) then m
  else if bool_decide ((author r, id r) ∈ tombs) then m
  else win_step hash identity m r.

Definition live_records (recs : list Rec) (tombs : list (bytes * bytes)) : list Rec :=
  canonical_order hash (bt_values (foldl (live_step tombs) [] recs)).

Definition reaction_step (m : btree bytes Rec) (r : Rec) : btree bytes Rec :=
  if negb (is_reaction (kind r)) then m else win_step hash lineage m r.

Definition target_tally (counts : btree bytes (btree bytes Z)) (r : Rec) : btree bytes (btree bytes Z) :=
  match kind r with
  | Reaction k true => bt_upsert (bt_upsert (λ n, n + 1) k 1) (target r) [(k, 1)] counts
  | _ => counts
  end.

Definition all_counts (recs : list Rec) : btree bytes (btree bytes Z) :=
  foldl target_tally [] (bt_values (foldl reaction_step [] recs)).

Definition state_bytes (lv : list Rec) (reactions : btree bytes (btree bytes Z)) (tombs : list (bytes * bytes)) : bytes :=
  le32 (blen lv) ++ concat (map (addr hash) lv) ++
  le32 (blen reactions) ++
  concat (map (λ p : bytes * btree bytes Z, framed p.1 ++ le32 (blen p.2) ++
    concat (map (λ q : bytes * Z, framed q.1 ++ le64 q.2) p.2)) reactions) ++
  le32 (blen tombs) ++
  concat (map (λ p : bytes * bytes, framed p.1 ++ framed p.2) tombs).

Definition state_digest lv reactions tombs : ObjId := hash (state_bytes lv reactions tombs).

Definition compute_history_root (prev : ObjId) (b : Z) lv reactions tombs : ObjId :=
  hash (bstr "EDXHIST1" ++ prev ++ le64 b ++ state_digest lv reactions tombs).

Definition compute_root (b : Z) (hroot : ObjId) lv reactions tombs : ObjId :=
  hash (bstr "EDXCKPT1" ++ le64 b ++ hroot ++ state_digest lv reactions tombs).

Definition compute (recs : list Rec) (b : Z) (prev_history : ObjId) : Checkpoint :=
  let in_scope := if forallb (λ r, clock r <=? b) recs then recs
                  else List.filter (λ r, clock r <=? b) recs in
  let tombs := tombstoned_ids in_scope in
  let lv := live_records in_scope tombs in
  let counts := all_counts in_scope in
  let hroot := compute_history_root prev_history b lv counts tombs in
  mkCheckpoint b lv counts tombs hroot (compute_root b hroot lv counts tombs).

Definition extends (c prev : Checkpoint) : bool :=
  if ck_boundary c <=? ck_boundary prev then false
  else bool_decide (compute_history_root (history_root prev) (ck_boundary c) (live c)
                      (reaction_counts c) (tombstones c) = history_root c).

(** ** [rollup.rs] *)

Record ItemSummary := mkSummary { comment_count : Z; reactions : btree bytes Z; newest_clock : Z }.

Definition summarize (recs : list Rec) (lv : list Rec) (item : bytes) : ItemSummary :=
  mkSummary
    (blen (List.filter (λ r, bool_decide (target r = item) && is_comment (kind r)) lv))
    (reaction_count recs item)
    (foldr Z.max 0 (map clock (List.filter (λ r, bool_decide (target r = item)) recs))).

Definition rollup_compute (items : list bytes) (recs : list Rec) : btree bytes ItemSummary :=
  let tombs := tombstoned_ids recs in
  let lv := live_records recs tombs in
  foldl (λ m item, bt_insert item (summarize recs lv item) m) [] items.

Definition rollup_serialize (m : btree bytes ItemSummary) : bytes :=
  bstr "EDXROLL1" ++ le32 (blen m) ++
  concat (map (λ p : bytes * ItemSummary,
    framed p.1 ++ le64 (comment_count p.2) ++ le64 (newest_clock p.2) ++
    le32 (blen (reactions p.2)) ++
    concat (map (λ q : bytes * Z, framed q.1 ++ le64 q.2) (Ordered.sort (reactions p.2)))) m).

Definition rollup_root (m : btree bytes ItemSummary) : ObjId := hash (rollup_serialize m).
End state.

(** ** The fold: one winner per key *)

Section win_facts.
Context (hash : bytes → ObjId) (key : Rec → bytes).

(** The winner among a list, in arrival order. *)
Definition best_step (o : option Rec) (r : Rec) : option Rec :=
  match o with Some cur => Some (if later hash r cur then r else cur) | None => Some r end.
Definition best (l : list Rec) : option Rec := foldl best_step None l.

Definition with_key (k : bytes) (l : list Rec) : list Rec := List.filter (λ r, bool_decide (key r = k)) l.

Lemma win_fold_get l k : bt_get (win_fold hash key l) k = best (with_key k l).
Proof.
  unfold win_fold, best. assert (∀ m, bt_get (foldl (win_step hash key) m l) k =
    foldl best_step (bt_get m k) (with_key k l)) as H; [|apply H].
  induction l as [|r l IH]; intros m; cbn [foldl]; [done|]. rewrite IH. unfold win_step at 1, with_key.
  cbn [List.filter]. rewrite bt_get_upsert. case_decide as D.
  - rewrite bool_decide_eq_true_2 by done. subst. cbn [foldl]. f_equal.
    unfold best_step. by destruct (bt_get m (key r)).
  - by rewrite bool_decide_eq_false_2 by congruence.
Qed.

Lemma win_fold_wf l : bt_wf (win_fold hash key l).
Proof.
  unfold win_fold. assert (∀ m, bt_wf m → bt_wf (foldl (win_step hash key) m l)) as H; [|auto with btree].
  induction l as [|r l IH]; intros m Hm; cbn [foldl]; [done|]. apply IH. unfold win_step. auto with btree.
Qed.

Lemma best_spec l :
  match best l with
  | Some w => w ∈ l ∧ ∀ r, r ∈ l → ole (order_key hash r) (order_key hash w)
  | None => l = []
  end.
Proof.
  unfold best. induction l as [|r l IH] using rev_ind; [done|]. rewrite foldl_app. cbn [foldl].
  destruct (foldl best_step None l) as [cur|]; cbn [best_step].
  - destruct IH as [Hin Hmax]. unfold later. destruct (oltb _ _) eqn:E.
    + apply oltb_spec in E. split; [apply elem_of_app; right; left|].
      intros x [Hx| ->%list_elem_of_singleton]%elem_of_app; [|apply ole_refl].
      etransitivity; [by apply Hmax|]. by apply olt_ole.
    + split; [apply elem_of_app; by left|]. intros x [Hx| ->%list_elem_of_singleton]%elem_of_app; [auto|].
      apply not_true_iff_false in E. rewrite oltb_spec in E.
      destruct (ole_total (order_key hash r) (order_key hash cur)) as [|Hc]; [done|].
      apply ole_spec in Hc as [|Heq]; [done|]. rewrite Heq. apply ole_refl.
  - subst l. split; [left|]. intros x ->%list_elem_of_singleton. apply ole_refl.
Qed.

Lemma best_perm l l' : key_unique hash l → l ≡ₚ l' → best l = best l'.
Proof.
  intros Hu Hp. pose proof (best_spec l) as H1. pose proof (best_spec l') as H2.
  destruct (best l) as [w|], (best l') as [w'|]; [..|done].
  - destruct H1 as [I1 M1], H2 as [I2 M2]. f_equal. rewrite <- Hp in I2. apply Hu; auto.
    apply ole_antisym; [|by apply M1]. apply M2. by rewrite <- Hp.
  - destruct H1 as [I1 _]. subst l'. rewrite Hp in I1. by apply elem_of_nil in I1.
  - destruct H2 as [I2 _]. subst l. rewrite <- Hp in I2. by apply elem_of_nil in I2.
Qed.

Lemma win_fold_perm l l' : key_unique hash l → l ≡ₚ l' → win_fold hash key l = win_fold hash key l'.
Proof.
  intros Hu Hp. apply bt_ext; auto using win_fold_wf. intros k. rewrite !win_fold_get.
  apply best_perm; [by apply key_unique_filter|by apply filter_perm].
Qed.

Lemma elem_of_winners l w : key_unique hash l →
  w ∈ bt_values (win_fold hash key l) ↔
  w ∈ l ∧ ∀ r, r ∈ l → key r = key w → ole (order_key hash r) (order_key hash w).
Proof.
  intros Hu. unfold bt_values. rewrite list_elem_of_fmap. split.
  - intros ([k v] & -> & Hin). apply bt_get_elem in Hin; [|apply win_fold_wf].
    rewrite win_fold_get in Hin. pose proof (best_spec (with_key k l)) as Hb. rewrite Hin in Hb.
    destruct Hb as [Hv Hm]. apply elem_of_bfilter in Hv as [Hv Hk%bool_decide_eq_true]. cbn.
    split; [done|]. intros r Hr Hkr. apply Hm, elem_of_bfilter. split; [done|].
    apply bool_decide_eq_true. congruence.
  - intros [Hw Hm]. exists (key w, w). split; [done|]. apply bt_get_elem; [apply win_fold_wf|].
    rewrite win_fold_get. pose proof (best_spec (with_key (key w) l)) as Hb.
    destruct (best (with_key (key w) l)) as [v|].
    + destruct Hb as [Hv Hmv]. apply elem_of_bfilter in Hv as [Hv Hk%bool_decide_eq_true]. f_equal.
      apply Hu; auto. apply ole_antisym; [by apply Hm|]. apply Hmv, elem_of_bfilter.
      split; [done|]. by apply bool_decide_eq_true.
    + exfalso. apply (not_elem_of_nil w). rewrite <- Hb. apply elem_of_bfilter.
      split; [done|]. by apply bool_decide_eq_true.
Qed.
End win_facts.

(** The folds of the source are this fold over a filtered list. *)
Section folds.
Context (hash : bytes → ObjId).

Lemma foldl_filter {A B} (f : A → B → A) (p : B → bool) m l :
  foldl (λ m r, if p r then f m r else m) m l = foldl f m (List.filter p l).
Proof. revert m; induction l as [|r l IH]; intros m; cbn; [done|]. rewrite IH. by destruct (p r). Qed.

Definition on_target (t : bytes) (r : Rec) : bool := bool_decide (target r = t).
Definition reacts (r : Rec) : bool := is_reaction (kind r).
Definition showable (tombs : list (bytes * bytes)) (r : Rec) : bool :=
  negb (is_reaction (kind r) || is_tombstone (kind r)) && negb (bool_decide ((author r, id r) ∈ tombs)).

Lemma fold_lineages_eq recs t :
  fold_lineages hash recs t = win_fold hash lineage (List.filter (λ r, on_target t r && reacts r) recs).
Proof.
  unfold fold_lineages, win_fold. rewrite <- foldl_filter. generalize (@nil (bytes * Rec)).
  induction recs as [|r recs IH]; intros m; cbn [foldl]; [done|]. rewrite IH. f_equal.
  unfold fold_step, on_target, reacts. destruct (bool_decide _); cbn; [|done]. by destruct (is_reaction _).
Qed.

Lemma live_fold_eq recs tombs :
  foldl (live_step hash tombs) [] recs = win_fold hash identity (List.filter (showable tombs) recs).
Proof.
  unfold win_fold. rewrite <- foldl_filter. generalize (@nil (bytes * Rec)).
  induction recs as [|r recs IH]; intros m; cbn [foldl]; [done|]. rewrite IH. f_equal.
  unfold live_step, showable. destruct (_ || _); cbn; [done|]. by destruct (bool_decide _).
Qed.

Lemma reaction_fold_eq recs :
  foldl (reaction_step hash) [] recs = win_fold hash lineage (List.filter reacts recs).
Proof.
  unfold win_fold. rewrite <- foldl_filter. generalize (@nil (bytes * Rec)).
  induction recs as [|r recs IH]; intros m; cbn [foldl]; [done|]. rewrite IH. f_equal.
  unfold reaction_step, reacts. by destruct (is_reaction _).
Qed.
End folds.

(** ** Determinism and the live set *)

Section state_facts.
Context (hash : bytes → ObjId).

Definition in_scope (recs : list Rec) (b : Z) : list Rec := List.filter (λ r, clock r <=? b) recs.

Lemma compute_scope recs b prev :
  compute hash recs b prev =
  let l := in_scope recs b in
  let tombs := tombstoned_ids l in
  let lv := live_records hash l tombs in
  let counts := all_counts hash l in
  let hroot := compute_history_root hash prev b lv counts tombs in
  mkCheckpoint b lv counts tombs hroot (compute_root hash b hroot lv counts tombs).
Proof.
  unfold compute, in_scope. destruct (forallb _ recs) eqn:E; [|done]. by rewrite bfilter_true.
Qed.

Lemma tombstoned_ids_spec l p :
  p ∈ tombstoned_ids l ↔ ∃ t, t ∈ l ∧ kind t = Tombstone ∧ p = (author t, target t).
Proof.
  unfold tombstoned_ids. rewrite elem_of_dedup, sort_perm, list_elem_of_fmap. split.
  - intros (t & -> & [Ht Hk]%elem_of_bfilter). exists t. destruct (kind t); done.
  - intros (t & Ht & Hk & ->). exists t. split; [done|]. apply elem_of_bfilter. by rewrite Hk.
Qed.

Lemma tombstoned_ids_ext l k : (∀ r, r ∈ l ↔ r ∈ k) → tombstoned_ids l = tombstoned_ids k.
Proof.
  intros Heq. unfold tombstoned_ids. apply sort_dedup_ext. intros p. rewrite !list_elem_of_fmap.
  setoid_rewrite elem_of_bfilter. by setoid_rewrite Heq.
Qed.

Lemma live_set_perm l k tombs : key_unique hash l → l ≡ₚ k →
  live_records hash l tombs = live_records hash k tombs.
Proof.
  intros Hu Hp. unfold live_records. rewrite !live_fold_eq.
  rewrite (win_fold_perm _ _ _ (List.filter (showable tombs) k)); [done|by apply key_unique_filter|].
  by apply filter_perm.
Qed.

Lemma all_counts_perm l k : key_unique hash l → l ≡ₚ k → all_counts hash l = all_counts hash k.
Proof.
  intros Hu Hp. unfold all_counts. rewrite !reaction_fold_eq.
  rewrite (win_fold_perm _ _ _ (List.filter reacts k)); [done|by apply key_unique_filter|by apply filter_perm].
Qed.

Lemma reaction_count_perm l k t : key_unique hash l → l ≡ₚ k → reaction_count hash l t = reaction_count hash k t.
Proof.
  intros Hu Hp. unfold reaction_count. rewrite !fold_lineages_eq.
  rewrite (win_fold_perm _ _ _ (List.filter (λ r, on_target t r && reacts r) k));
    [done|by apply key_unique_filter|by apply filter_perm].
Qed.

Lemma elem_of_live l tombs r : key_unique hash l →
  r ∈ live_records hash l tombs ↔
  r ∈ l ∧ showable tombs r = true ∧
  ∀ r', r' ∈ l → showable tombs r' = true → identity r' = identity r →
    ole (order_key hash r') (order_key hash r).
Proof.
  intros Hu. unfold live_records, canonical_order. rewrite elem_of_sort_by, live_fold_eq.
  rewrite elem_of_winners by (by apply key_unique_filter). rewrite elem_of_bfilter.
  setoid_rewrite elem_of_bfilter. naive_solver.
Qed.

Lemma rollup_get items recs item :
  bt_wf (rollup_compute hash items recs) ∧
  bt_get (rollup_compute hash items recs) item =
    if decide (item ∈ items)
    then Some (summarize hash recs (live_records hash recs (tombstoned_ids recs)) item) else None.
Proof.
  unfold rollup_compute. set (f := summarize hash recs _).
  assert (∀ m, bt_wf m → bt_wf (foldl (λ m item, bt_insert item (f item) m) m items) ∧
    bt_get (foldl (λ m item, bt_insert item (f item) m) m items) item =
      if decide (item ∈ items) then Some (f item) else bt_get m item) as H; [|apply H, bt_wf_nil].
  induction items as [|i items IH]; intros m Hm; cbn [foldl]; [done|].
  destruct (IH (bt_insert i (f i) m) ltac:(auto with btree)) as [H1 H2]. split; [done|].
  rewrite H2, bt_get_insert. destruct (decide (item ∈ items)) as [Hi|Hi].
  - rewrite decide_True; [done|by right].
  - case_decide as D; [subst; rewrite decide_True by left; done|].
    rewrite decide_False; [done|]. intros [?|?]%elem_of_cons; done.
Qed.

Lemma foldr_max_perm l k : l ≡ₚ k → foldr Z.max 0 l = foldr Z.max 0 k.
Proof. induction 1; simpl; lia. Qed.
End state_facts.

(** The derived state is a function of the record set, not of arrival
    order: checkpoints (hence their roots) and rollups (hence theirs) computed
    by nodes holding the same records are identical. *)
Theorem derived_state_deterministic hash recs recs' b prev items items' :
  key_unique hash recs → recs ≡ₚ recs' → items ≡ₚ items' →
  compute hash recs b prev = compute hash recs' b prev ∧
  rollup_compute hash items recs = rollup_compute hash items' recs' ∧
  rollup_root hash (rollup_compute hash items recs) = rollup_root hash (rollup_compute hash items' recs').
Proof.
  intros Hu Hp Hi.
  assert (rollup_compute hash items recs = rollup_compute hash items' recs') as Hr.
  { apply bt_ext; [by apply (rollup_get hash items recs [])|by apply (rollup_get hash items' recs' [])|].
    intros item. rewrite (proj2 (rollup_get hash items recs item)), (proj2 (rollup_get hash items' recs' item)).
    destruct (decide (item ∈ items)) as [Hin|Hin], (decide (item ∈ items')) as [Hin'|Hin']; try done;
      [|by rewrite Hi in Hin|by rewrite <- Hi in Hin'].
    rewrite (tombstoned_ids_ext recs recs') by (intros; by rewrite Hp).
    rewrite (live_set_perm hash recs recs') by done. f_equal. unfold summarize.
    rewrite (reaction_count_perm hash recs recs') by done. f_equal.
    apply foldr_max_perm. apply Permutation_map. by apply filter_perm. }
  split_and!; [|done|by rewrite Hr].
  rewrite !compute_scope. cbv zeta.
  assert (in_scope recs b ≡ₚ in_scope recs' b) as Hs by (by apply filter_perm).
  assert (key_unique hash (in_scope recs b)) as Hus by (by apply key_unique_filter).
  rewrite (tombstoned_ids_ext (in_scope recs b) (in_scope recs' b)) by (intros; by rewrite Hs).
  rewrite (live_set_perm hash (in_scope recs b) (in_scope recs' b)) by done.
  by rewrite (all_counts_perm hash (in_scope recs b) (in_scope recs' b)).
Qed.

(** The live set of a checkpoint holds exactly the latest post or comment
    of each (author, id) among the records in scope that no tombstone of the
    same author names; and tombstones are sticky: no checkpoint over a larger
    record set, at a later boundary, shows an item a tombstone in scope has
    deleted, and every tombstone stays in its tombstone set. *)
Theorem live_set_correct hash recs recs' b b' prev prev' :
  key_unique hash recs → key_unique hash recs' → (∀ r, r ∈ recs → r ∈ recs') → b <= b' →
  let scope := in_scope recs b in
  let tombs := tombstoned_ids scope in
  (∀ r, r ∈ live (compute hash recs b prev) ↔
     r ∈ recs ∧ clock r <= b ∧ showable tombs r = true ∧
     ∀ r', r' ∈ scope → showable tombs r' = true → identity r' = identity r →
       ole (order_key hash r') (order_key hash r)) ∧
  (∀ p, p ∈ tombstones (compute hash recs b prev) → p ∈ tombstones (compute hash recs' b' prev')) ∧
  (∀ t r, t ∈ recs → clock t <= b → kind t = Tombstone →
     r ∈ live (compute hash recs' b' prev') → (author r, id r) ≠ (author t, target t)).
Proof.
  intros Hu Hu' Hsub Hb scope tombs.
  assert (∀ l c r, r ∈ in_scope l c ↔ r ∈ l ∧ clock r <= c) as Hin.
  { intros l c r. unfold in_scope. by rewrite elem_of_bfilter, Z.leb_le. }
  rewrite !compute_scope. cbv zeta. cbn [live tombstones]. split_and!.
  - intros r. rewrite elem_of_live by (by apply key_unique_filter). rewrite Hin. unfold scope, tombs. tauto.
  - intros p (t & Ht & Hk & ->)%tombstoned_ids_spec. apply tombstoned_ids_spec. exists t.
    split_and!; auto. rewrite Hin in *. destruct Ht. split; [auto|lia].
  - intros t r Ht Hc Hk Hr Heq. apply elem_of_live in Hr as (_ & Hs & _); [|by apply key_unique_filter].
    unfold showable in Hs. rewrite bool_decide_eq_true_2, andb_false_r in Hs; [done|].
    apply tombstoned_ids_spec. exists t. split_and!; auto. apply Hin. split; [auto|lia].
Qed.

(** ** Counts *)

Section counts.
Context (hash : bytes → ObjId).

Definition is_active_kind (k : bytes) (r : Rec) : bool :=
  match kind r with Reaction k' true => bool_decide (k' = k) | _ => false end.

Lemma tally_spec l m k :
  counts_of (foldl tally m l) k = counts_of m k + blen (List.filter (is_active_kind k) l).
Proof.
  revert m; induction l as [|r l IH]; intros m; cbn [foldl List.filter]; [unfold blen; simpl; lia|].
  rewrite IH. unfold tally at 1, is_active_kind at 2.
  destruct (kind r) as [| |k' []|]; try done.
  unfold counts_of. rewrite bt_get_upsert. case_decide as D.
  - subst. rewrite bool_decide_eq_true_2, blen_cons by done. destruct (bt_get m k'); cbn; lia.
  - rewrite bool_decide_eq_false_2 by congruence. lia.
Qed.

Lemma target_tally_spec l m t k :
  counts_of (default [] (bt_get (foldl target_tally m l) t)) k =
  counts_of (default [] (bt_get m t)) k +
  blen (List.filter (is_active_kind k) (List.filter (on_target t) l)).
Proof.
  revert m; induction l as [|r l IH]; intros m; cbn [foldl List.filter]; [unfold blen; simpl; lia|].
  rewrite IH. unfold target_tally at 1, on_target at 2.
  assert (is_active_kind k r = false →
    blen (List.filter (is_active_kind k) (if bool_decide (target r = t) then r :: List.filter (on_target t) l
      else List.filter (on_target t) l)) = blen (List.filter (is_active_kind k) (List.filter (on_target t) l))) as Hno.
  { intros Hk. case_bool_decide; [|done]. cbn [List.filter]. by rewrite Hk. }
  unfold is_active_kind at 1 in Hno.
  destruct (kind r) as [| |k' []|] eqn:Ek; try (by rewrite Hno). clear Hno.
  rewrite bt_get_upsert. case_decide as D.
  - subst t. rewrite bool_decide_eq_true_2 by done. cbn [List.filter default].
    unfold is_active_kind at 2. rewrite Ek. unfold counts_of.
    destruct (bt_get m (target r)) as [inner|]; cbn [default]; unfold Datatypes.id.
    + rewrite bt_get_upsert. case_decide; [subst; rewrite bool_decide_eq_true_2, blen_cons by done|
        rewrite bool_decide_eq_false_2 by congruence; lia].
      destruct (bt_get inner k'); cbn; lia.
    + cbn [bt_get]. destruct (cmp k k') eqn:E.
      * apply cmp_eq_iff in E as ->. rewrite bool_decide_eq_true_2, blen_cons by done. cbn. lia.
      * rewrite bool_decide_eq_false_2; [cbn; lia|]. intros ->. by rewrite cmp_refl in E.
      * rewrite bool_decide_eq_false_2; [cbn; lia|]. intros ->. by rewrite cmp_refl in E.
  - rewrite bool_decide_eq_false_2 by congruence. done.
Qed.

(** The separator does not occur in an author or a target. *)
Definition no_sep (r : Rec) : Prop := x1f ∉ author r ∧ x1f ∉ target r.

Lemma sep_split (a a' b b' : bytes) : x1f ∉ a → x1f ∉ a' → a ++ SEP ++ b = a' ++ SEP ++ b' → a = a' ∧ b = b'.
Proof.
  unfold SEP. revert a'; induction a as [|c a IH]; intros [|c' a'] Ha Ha' Heq; cbn in *.
  - by injection Heq.
  - injection Heq as <- _. exfalso. apply Ha'. left.
  - injection Heq as -> _. exfalso. apply Ha. left.
  - injection Heq as -> Heq. rewrite not_elem_of_cons in Ha, Ha'.
    destruct (IH a') as [-> ->]; naive_solver.
Qed.

Lemma lineage_target r r' : no_sep r → no_sep r' → lineage r = lineage r' → target r = target r'.
Proof.
  intros [A T] [A' T']. unfold lineage. intros [_ Heq]%sep_split; [|done|done].
  by apply sep_split in Heq as [-> _].
Qed.

(** Without separators in the fields, the one-pass fold restricted to a
    target is the fold of that target's reactions. *)
Lemma winners_on_target l t : Forall no_sep (List.filter reacts l) →
  List.filter (on_target t) (bt_values (win_fold hash lineage (List.filter reacts l))) =
  bt_values (win_fold hash lineage (List.filter (λ r, on_target t r && reacts r) l)).
Proof.
  intros Hsep. rewrite <- bt_values_filter. f_equal. apply bt_ext; auto using win_fold_wf, bt_filter_wf.
  intros k. rewrite bt_get_filter by apply win_fold_wf. rewrite !win_fold_get.
  set (R := with_key lineage k (List.filter reacts l)).
  assert (with_key lineage k (List.filter (λ r, on_target t r && reacts r) l) = List.filter (on_target t) R) as ->.
  { unfold R, with_key. clear. induction l as [|r l IH]; [done|]. cbn.
    destruct (reacts r) eqn:E1, (on_target t r) eqn:E2; cbn; rewrite ?E2; cbn;
      destruct (bool_decide (lineage r = k)) eqn:E3; cbn; rewrite ?E2; try rewrite IH; done. }
  assert (∀ r r', r ∈ R → r' ∈ R → target r = target r') as Hsame.
  { intros r r' [Hr Hk%bool_decide_eq_true]%elem_of_bfilter [Hr' Hk'%bool_decide_eq_true]%elem_of_bfilter.
    rewrite Forall_forall in Hsep. apply lineage_target; [by apply Hsep|by apply Hsep|congruence]. }
  pose proof (best_spec hash R) as Hb. destruct (best hash R) as [w|] eqn:Ew; [|by rewrite Hb].
  destruct Hb as [Hw _]. destruct (on_target t w) eqn:Et.
  - assert (List.filter (on_target t) R = R) as ->; [|done]. apply bfilter_true, forallb_forall.
    intros r Hr%list_elem_of_In. unfold on_target in *. apply bool_decide_eq_true in Et.
    apply bool_decide_eq_true. rewrite <- Et. by apply Hsame.
  - assert (List.filter (on_target t) R = []) as ->; [|done].
    destruct (List.filter (on_target t) R) as [|r rs] eqn:Ef; [done|].
    assert (r ∈ List.filter (on_target t) R) as Hr by (rewrite Ef; left).
    apply elem_of_bfilter in Hr as [Hr Ht]. unfold on_target in *.
    apply bool_decide_eq_true in Ht. apply bool_decide_eq_false in Et.
    exfalso. apply Et. rewrite <- Ht. by apply Hsame.
Qed.
End counts.

(** The counts are exact: a target's count of a reaction kind is the
    number of lineages (author, target, kind) whose latest record is active,
    in the per-target fold; and the one-pass fold of the checkpoint gives the
    same count for every target, when no author or target contains the unit
    separator the lineage keys are joined with. *)
Theorem counts_agree hash recs t k :
  Forall no_sep (List.filter reacts recs) →
  counts_of (reaction_count hash recs t) k =
    blen (List.filter (is_active_kind k) (bt_values (fold_lineages hash recs t))) ∧
  counts_of (default [] (bt_get (all_counts hash recs) t)) k = counts_of (reaction_count hash recs t) k.
Proof.
  intros Hsep. unfold reaction_count. rewrite tally_spec. split; [done|].
  unfold all_counts. rewrite target_tally_spec, reaction_fold_eq, fold_lineages_eq. cbn.
  by rewrite winners_on_target.
Qed.

Definition sep_like_1 : Rec :=
  mkRec (bstr "1") (bstr "r1") (bstr "mallory") (bstr "x" ++ SEP ++ bstr "y") 1 (Reaction (bstr "z") true).
Definition sep_like_2 : Rec :=
  mkRec (bstr "2") (bstr "r2") (bstr "mallory") (bstr "x") 2 (Reaction (bstr "y" ++ SEP ++ bstr "z") true).

(** The checkpoint's comment that its one-pass fold leaves the counts
    unchanged fails when a target or kind contains the separator: two
    reactions on different targets share a lineage key, and the checkpoint
    counts one of them while the per-target fold (and the rollup) count both. *)
Theorem counts_disagree :
  let recs := [sep_like_1; sep_like_2] in
  let h := λ b : bytes, b in
  target sep_like_1 ≠ target sep_like_2 ∧
  counts_of (reaction_count h recs (target sep_like_1)) (bstr "z") = 1 ∧
  counts_of (default [] (bt_get (reaction_counts (compute h recs 9 [])) (target sep_like_1))) (bstr "z") = 0.
Proof. by vm_compute. Qed.

(** ** The state digest commits to the state *)

Lemma framed_split a b r s : blen a <= u32_max → blen b <= u32_max →
  framed a ++ r = framed b ++ s → a = b ∧ r = s.
Proof.
  unfold framed. rewrite <- !app_assoc. intros Ha Hb Heq. split_prefix Heq.
  apply le32_inj in Hpre; [|split; [apply blen_nonneg|done]..].
  apply app_inj_length in Heq; [done|]. unfold blen in Hpre. lia.
Qed.

(** A count followed by that many self-delimiting items is self-delimiting. *)
Lemma counted_split {A} (f : A → bytes) (Q : A → Prop) l k r s :
  (∀ x y r s, Q x → Q y → f x ++ r = f y ++ s → x = y ∧ r = s) →
  Forall Q l → Forall Q k → blen l <= u32_max → blen k <= u32_max →
  le32 (blen l) ++ concat (map f l) ++ r = le32 (blen k) ++ concat (map f k) ++ s → l = k ∧ r = s.
Proof.
  intros Hf Hl Hk Bl Bk Heq. split_prefix Heq. apply le32_inj in Hpre; [|split; [apply blen_nonneg|done]..].
  assert (length l = length k) as Hlen by (unfold blen in Hpre; lia). clear Bl Bk Hpre.
  revert k Hk Heq Hlen. induction Hl as [|x l Hx _ IH]; intros k Hk Heq Hlen.
  - by destruct Hk.
  - destruct Hk as [|y k Hy Hk]; [done|]. cbn [map concat] in Heq. rewrite <- !app_assoc in Heq.
    apply Hf in Heq as [-> Heq]; [|done|done]. injection Hlen as Hlen.
    by destruct (IH k Hk Heq Hlen) as [-> ->].
Qed.

Lemma le64_split x y r s : is_u64 x → is_u64 y → le64 x ++ r = le64 y ++ s → x = y ∧ r = s.
Proof. intros Hx Hy Heq. split_prefix Heq. by apply le64_inj in Hpre. Qed.

Definition short (b : bytes) : Prop := blen b <= u32_max.
Definition count_ok (q : bytes * Z) : Prop := short q.1 ∧ is_u64 q.2.
Definition counts_ok (p : bytes * btree bytes Z) : Prop := short p.1 ∧ blen p.2 <= u32_max ∧ Forall count_ok p.2.
Definition state_ok (lv : list Rec) (rs : btree bytes (btree bytes Z)) (ts : list (bytes * bytes)) : Prop :=
  blen lv <= u32_max ∧ (blen rs <= u32_max ∧ Forall counts_ok rs) ∧
  (blen ts <= u32_max ∧ Forall (λ p, short p.1 ∧ short p.2) ts).

(** The state digest and both roots commit to the whole state: two states
    within the u32 limits with the same digested bytes have the same live
    addresses in order, the same counts and the same tombstones, so two
    checkpoints with equal roots differ only through a hash collision. *)
Theorem state_bytes_injective hash lv rs ts lv' rs' ts' :
  (∀ b, length (hash b) = 32%nat) →
  state_ok lv rs ts → state_ok lv' rs' ts' →
  state_bytes hash lv rs ts = state_bytes hash lv' rs' ts' →
  map (addr hash) lv = map (addr hash) lv' ∧ rs = rs' ∧ ts = ts'.
Proof.
  intros Hh (L1 & (L2 & R) & L3 & T) (L1' & (L2' & R') & L3' & T'). unfold state_bytes. intros Heq.
  assert (∀ l, blen l = blen (map (addr hash) l)) as Hmap by (intros; unfold blen; by rewrite length_map).
  assert (∀ l, concat (map (addr hash) l) = concat (map (λ x, x) (map (addr hash) l))) as Hc
    by (intros; by rewrite map_id).
  rewrite (Hmap lv), (Hmap lv'), (Hc lv), (Hc lv') in Heq.
  apply (counted_split (λ x, x) (λ x, length x = 32%nat)) in Heq as [-> Heq]; [..|by rewrite <- Hmap|by rewrite <- Hmap].
  2:{ intros x y r s Hx Hy He. apply app_inj_length in He; [done|congruence]. }
  2, 3: apply Forall_fmap, Forall_true; intros; apply Hh.
  apply (counted_split _ counts_ok) in Heq as [-> Heq]; try done.
  2:{ intros [k c] [k' c'] r s (S1 & B1 & C1) (S2 & B2 & C2). cbn [fst snd] in *. rewrite <- !app_assoc. intros Hm.
      apply framed_split in Hm as [-> Hm]; [|done|done].
      apply (counted_split _ count_ok) in Hm as [-> ->]; try done.
      intros [q v] [q' v'] r0 s0 [A1 V1] [A2 V2]. cbn [fst snd] in *. rewrite <- !app_assoc. intros Hq.
      apply framed_split in Hq as [-> Hq]; [|done|done]. by apply le64_split in Hq as [-> ->]. }
  split_and!; [done..|].
  assert (∀ l, concat (map (λ p : bytes * bytes, framed p.1 ++ framed p.2) l) =
    concat (map (λ p : bytes * bytes, framed p.1 ++ framed p.2) l) ++ []) as Hn by (intros; by rewrite app_nil_r).
  rewrite (Hn ts), (Hn ts') in Heq.
  apply (counted_split _ (λ p, short p.1 ∧ short p.2)) in Heq as [-> _]; try done.
  intros [a b] [a' b'] r s [A1 B1] [A2 B2]. cbn [fst snd] in *. rewrite <- !app_assoc. intros He.
  apply framed_split in He as [-> He]; [|done|done]. by apply framed_split in He as [-> ->].
Qed.

(** ** Witnesses *)

Lemma derived_state_deterministic_witness :
  compute (λ b, b) [rec_a; rec_b] 5 [] = compute (λ b, b) [rec_b; rec_a] 5 [].
Proof.
  refine (proj1 (derived_state_deterministic (λ b, b) [rec_a; rec_b] [rec_b; rec_a] 5 []
    [bstr "a"; bstr "b"] [bstr "b"; bstr "a"] _ _ _)).
  - apply key_unique_ab.
  - apply Permutation_swap.
  - apply Permutation_swap.
Defined.

Lemma live_set_correct_witness : rec_a ∈ live (compute (λ b, b) [rec_a; rec_b] 5 []).
Proof.
  refine (proj2 (proj1 (live_set_correct (λ b, b) [rec_a; rec_b] [rec_a; rec_b] 5 5 [] [] _ _ _ _) rec_a) _).
  - apply key_unique_ab.
  - apply key_unique_ab.
  - done.
  - lia.
  - split_and!; [left|by vm_compute|by vm_compute|].
    intros r' [->|[->|[]%elem_of_nil]%elem_of_cons]%elem_of_cons _ Hid; [apply ole_refl|].
    discriminate Hid.
Defined.

Definition like (a : bytes) (n : Z) (on : bool) : Rec :=
  mkRec (a ++ [byte_of n]) a a (bstr "a") n (Reaction (bstr "up") on).

Lemma counts_agree_witness :
  counts_of (default [] (bt_get (all_counts (λ b, b) [like (bstr "u") 1 true; like (bstr "v") 2 true;
    like (bstr "v") 3 false]) (bstr "a"))) (bstr "up") = 1.
Proof.
  rewrite (proj2 (counts_agree (λ b, b) [like (bstr "u") 1 true; like (bstr "v") 2 true;
    like (bstr "v") 3 false] (bstr "a") (bstr "up")
    ltac:(by apply (bool_decide_unpack _); vm_compute))).
  reflexivity.
Defined.

Lemma state_bytes_injective_witness :
  map (addr (λ _, repeat x00 32)) [rec_a] = map (addr (λ _, repeat x00 32)) [rec_a].
Proof.
  assert (state_ok [rec_a] [(bstr "a", [(bstr "up", 1)])] [(bstr "u", bstr "a")]) as Hok.
  { split; [by vm_compute|]. split; split; [by vm_compute| |by vm_compute|].
    - apply Forall_singleton. split; [by vm_compute|]. split; [by vm_compute|].
      apply Forall_singleton. by split; [vm_compute|split; vm_compute].
    - apply Forall_singleton. by split; vm_compute. }
  refine (proj1 (state_bytes_injective (λ _, repeat x00 32) [rec_a] [(bstr "a", [(bstr "up", 1)])]
    [(bstr "u", bstr "a")] [rec_a] [(bstr "a", [(bstr "up", 1)])] [(bstr "u", bstr "a")] _ Hok Hok _)).
  - intros b. reflexivity.
  - reflexivity.
Defined.
