(* ===== verification/Choke.v ===== *)
(** * Upload choker ([crates/epix-edx/src/choke.rs])

    Who is sent bulk data, and in what priority: per-peer accounts in a bounded
    table, ranked unchoke slots with an overlay reserve and an optimistic
    rotation, a free first-paint budget per peer and a per-second bucket under
    the global cap. The hash maps are [gmap]s; where the code depends on their
    iteration order (the victim of an eviction tie) the order is a parameter.
    Counters are u64 as a release build keeps them (wrapping additions). *)
From S2P Require Import Prelude Ordered.
From Stdlib Require Import ZArith Lia Strings.Byte.
From stdpp Require Import base list sorting gmap strings.
#[local] Open Scope Z_scope.

#[export] Instance byte_countable : Countable byte :=
  inj_countable Byte.to_N Byte.of_N Byte.of_to_N.

(** ** State *)

Definition FIRST_PAINT_FREE_BYTES : Z := Z.shiftl 6 30.
Definition FIRST_PAINT_WINDOW_SECS : Z := 600.
Definition MAX_TRACKED_PEERS : nat := Z.to_nat 4096.
Definition PEER_IDLE_EVICT_SECS : Z := 24 * 3600.
Definition UNCHOKE_SLOTS : nat := 16.
Definition OVERLAY_RESERVED_SLOTS : nat := 4.
Definition OPTIMISTIC_ROTATE_SECS : Z := 30.
Definition ACTIVE_WINDOW_SECS : Z := 60.
Definition PAUSED_RETRY_SECS : Z := 60.

Inductive Reach := Clearnet | Overlay.

#[export] Instance Reach_eq_dec : EqDecision Reach.
Proof. solve_decision. Defined.

Record PeerAccount := mkAccount {
  served_to_us : Z;
  served_by_us : Z;
  free_spent : Z;
  free_window_start : Z;
  last_seen : Z;
  reach : Reach;
  conns : Z;
  last_activity : option Z
}.

#[export] Instance PeerAccount_eq_dec : EqDecision PeerAccount.
Proof. solve_decision. Defined.

Definition set_seen (now : Z) (a : PeerAccount) : PeerAccount :=
  mkAccount (served_to_us a) (served_by_us a) (free_spent a) (free_window_start a) now
    (reach a) (conns a) (last_activity a).
Definition set_reach (r : Reach) (a : PeerAccount) : PeerAccount :=
  mkAccount (served_to_us a) (served_by_us a) (free_spent a) (free_window_start a) (last_seen a)
    r (conns a) (last_activity a).
Definition set_conns (n : Z) (a : PeerAccount) : PeerAccount :=
  mkAccount (served_to_us a) (served_by_us a) (free_spent a) (free_window_start a) (last_seen a)
    (reach a) n (last_activity a).
Definition set_active (now : Z) (a : PeerAccount) : PeerAccount :=
  mkAccount (served_to_us a) (served_by_us a) (free_spent a) (free_window_start a) (last_seen a)
    (reach a) (conns a) (Some now).
Definition set_free (spent start : Z) (a : PeerAccount) : PeerAccount :=
  mkAccount (served_to_us a) (served_by_us a) spent start (last_seen a)
    (reach a) (conns a) (last_activity a).
Definition add_served_to_us (n : Z) (a : PeerAccount) : PeerAccount :=
  mkAccount (wrap64 (served_to_us a + n)) (served_by_us a) (free_spent a) (free_window_start a) (last_seen a)
    (reach a) (conns a) (last_activity a).
Definition add_served_by_us (n now : Z) (a : PeerAccount) : PeerAccount :=
  mkAccount (served_to_us a) (wrap64 (served_by_us a + n)) (free_spent a) (free_window_start a) now
    (reach a) (conns a) (last_activity a).

Record Choker := mkChoker {
  peers : gmap bytes PeerAccount;
  global_cap_bps : Z;
  foreground_yield_num : Z;
  second_bytes : Z;
  second_ts : Z;
  paused : bool;
  unchoked : gset bytes;
  unchoked_epoch : Z;
  dirty : bool
}.

Inductive ServeDecision := Serve | FirstPaint | Choked | Throttled.

Definition new (cap : Z) : Choker := mkChoker ∅ cap 64 0 0 false ∅ 0 true.

Definition with_peers (f : gmap bytes PeerAccount → gmap bytes PeerAccount) (c : Choker) : Choker :=
  mkChoker (f (peers c)) (global_cap_bps c) (foreground_yield_num c) (second_bytes c) (second_ts c)
    (paused c) (unchoked c) (unchoked_epoch c) (dirty c).
Definition set_dirty (c : Choker) : Choker :=
  mkChoker (peers c) (global_cap_bps c) (foreground_yield_num c) (second_bytes c) (second_ts c)
    (paused c) (unchoked c) (unchoked_epoch c) true.
Definition set_bucket (b ts : Z) (c : Choker) : Choker :=
  mkChoker (peers c) (global_cap_bps c) (foreground_yield_num c) b ts
    (paused c) (unchoked c) (unchoked_epoch c) (dirty c).
Definition set_paused (p : bool) (c : Choker) : Choker :=
  mkChoker (peers c) (global_cap_bps c) (foreground_yield_num c) (second_bytes c) (second_ts c)
    p (unchoked c) (unchoked_epoch c) (dirty c).

(** ** Accounts *)

Section choke.
Context (hash_iter : gmap bytes PeerAccount → list (bytes * PeerAccount)).

Definition idle_cmp (x y : bytes * PeerAccount) : comparison :=
  then_ (cmp (served_to_us x.2) (served_to_us y.2)) (cmp (last_seen x.2) (last_seen y.2)).

Definition unconnected (x : bytes * PeerAccount) : bool := conns x.2 =? 0.

(** The [while] loop; every iteration removes an entry, so the size of the
    table is fuel enough. *)
Fixpoint evict_loop (fuel : nat) (m : gmap bytes PeerAccount) : gmap bytes PeerAccount :=
  match fuel with
  | O => m
  | S fuel =>
    if (MAX_TRACKED_PEERS <=? size m)%nat then
      match min_by idle_cmp (List.filter unconnected (hash_iter m)) with
      | Some worst => evict_loop fuel (delete worst.1 m)
      | None => m
      end
    else m
  end.

Definition keeps (now : Z) (a : PeerAccount) : bool :=
  (0 <? conns a) || (sat_sub now (last_seen a) <? PEER_IDLE_EVICT_SECS).

Definition evict (now : Z) (m : gmap bytes PeerAccount) : gmap bytes PeerAccount :=
  let m := filter (λ x, keeps now x.2 = true) m in
  evict_loop (size m) m.

Definition new_account (now : Z) : PeerAccount := mkAccount 0 0 0 now 0 Clearnet 0 None.

(** [touch] returns a mutable borrow of the account; here [f] is what the
    caller does with it. *)
Definition touch (pk : bytes) (now : Z) (f : PeerAccount → PeerAccount) (c : Choker) : Choker :=
  let c := match peers c !! pk with
           | Some _ => c
           | None =>
             set_dirty (if (MAX_TRACKED_PEERS <=? size (peers c))%nat then with_peers (evict now) c else c)
           end in
  with_peers (λ m, <[pk := f (set_seen now (default (new_account now) (m !! pk)))]> m) c.

Definition note_peer (pk : bytes) (r : Reach) (now : Z) (c : Choker) : Choker :=
  set_dirty (touch pk now (set_reach r) c).

Definition note_connected (pk : bytes) (r : Reach) (now : Z) (c : Choker) : Choker :=
  set_dirty (touch pk now (λ a, set_conns (sat_add32 (conns a) 1) (set_reach r a)) c).

Definition note_disconnected (pk : bytes) (now : Z) (c : Choker) : Choker :=
  set_dirty (touch pk now (λ a, set_conns (sat_sub (conns a) 1) a) c).

Definition credit_peer (pk : bytes) (n now : Z) (c : Choker) : Choker :=
  set_dirty (touch pk now (λ a, set_active now (add_served_to_us n a)) c).

(** ** The unchoke set *)

Definition recently (now : Z) (a : PeerAccount) : bool :=
  match last_activity a with Some t => sat_sub now t <=? ACTIVE_WINDOW_SECS | None => false end.

Definition active (now : Z) (a : PeerAccount) : bool := (0 <? conns a) && recently now a.

Definition rank_cmp (x y : bytes * PeerAccount) : comparison :=
  then_ (cmp (served_to_us y.2) (served_to_us x.2))
    (then_ (cmp (served_by_us x.2) (served_by_us y.2)) (cmp x.1 y.1)).

Definition ranked (c : Choker) (now : Z) : list (bytes * PeerAccount) :=
  sort_by rank_cmp (List.filter (λ x, active now x.2) (hash_iter (peers c))).

Fixpoint fill_overlay (slots : nat) (l : list (bytes * PeerAccount)) (u : gset bytes) : gset bytes :=
  match l with
  | [] => u
  | x :: l => match slots with O => u | S slots => fill_overlay slots l ({[x.1]} ∪ u) end
  end.

Fixpoint fill_general (slots : nat) (l : list (bytes * PeerAccount)) (u : gset bytes) : gset bytes :=
  match l with
  | [] => u
  | x :: l =>
    match slots with
    | O => u
    | S slots' => if decide (x.1 ∈ u) then fill_general slots l u else fill_general slots' l ({[x.1]} ∪ u)
    end
  end.

Definition is_overlay (x : bytes * PeerAccount) : bool := bool_decide (reach x.2 = Overlay).

Definition connected (c : Choker) : list bytes :=
  Ordered.sort (map fst (List.filter (λ x, 0 <? conns x.2) (hash_iter (peers c)))).

Definition rebuild_unchoked (epoch now : Z) (c : Choker) : Choker :=
  let r := ranked c now in
  let u := fill_overlay OVERLAY_RESERVED_SLOTS (List.filter is_overlay r) ∅ in
  let u := fill_general (UNCHOKE_SLOTS - OVERLAY_RESERVED_SLOTS) r u in
  let u := match index (connected c) (epoch mod blen (connected c)) with
           | Some pk => {[pk]} ∪ u
           | None => u
           end in
  mkChoker (peers c) (global_cap_bps c) (foreground_yield_num c) (second_bytes c) (second_ts c)
    (paused c) u epoch false.

Definition is_unchoked (pk : bytes) (now : Z) (c : Choker) : bool * Choker :=
  let epoch := now / OPTIMISTIC_ROTATE_SECS in
  let c := if dirty c || negb (epoch =? unchoked_epoch c) then rebuild_unchoked epoch now c else c in
  (bool_decide (pk ∈ unchoked c), c).

(** ** Serving *)

Definition effective_cap (foreground : bool) (c : Choker) : Z :=
  if foreground then sat_mul64 (global_cap_bps c) (foreground_yield_num c) / 256 else global_cap_bps c.

(** The request is activity; the cached set is dropped only when this makes
    the peer eligible. *)
Definition note_request (pk : bytes) (now : Z) (c : Choker) : Choker :=
  let c := touch pk now (λ a, a) c in
  let was_active := match peers c !! pk with Some a => recently now a | None => false end in
  let c := with_peers (alter (set_active now) pk) c in
  if was_active then c else set_dirty c.

Definition roll_second (now : Z) (c : Choker) : Choker :=
  if now =? second_ts c then c else set_bucket 0 now c.

(** The free budget's window, rolled if it is over. *)
Definition roll_window (now : Z) (a : PeerAccount) : PeerAccount :=
  if FIRST_PAINT_WINDOW_SECS <=? sat_sub now (free_window_start a) then set_free 0 now a else a.

Definition reciprocity (pk : bytes) (n : Z) (first_paint : bool) (now : Z) (c : Choker) : ServeDecision * Choker :=
  let '(ok, c) := is_unchoked pk now c in
  if negb ok then (Choked, c) else
  let c := if first_paint then set_bucket (wrap64 (second_bytes c + n)) (second_ts c) c else c in
  (Serve, with_peers (alter (add_served_by_us n now) pk) c).

Definition serve_decision (pk : bytes) (n : Z) (first_paint foreground : bool) (now : Z) (c : Choker)
  : ServeDecision * Choker :=
  if paused c then (Throttled, c) else
  let c := roll_second now (note_request pk now c) in
  if first_paint then
    if effective_cap foreground c <? wrap64 (second_bytes c + n) then (Throttled, c) else
    let c := touch pk now (roll_window now) c in
    match peers c !! pk with
    | Some a =>
      if wrap64 (free_spent a + n) <=? FIRST_PAINT_FREE_BYTES then
        let c := with_peers (alter (set_free (wrap64 (free_spent a + n)) (free_window_start a)) pk) c in
        (FirstPaint, set_bucket (wrap64 (second_bytes c + n)) (second_ts c) c)
      else reciprocity pk n first_paint now c
    | None => reciprocity pk n first_paint now c
    end
  else reciprocity pk n first_paint now c.

Definition retry_after_secs (c : Choker) (d : ServeDecision) (now : Z) : Z :=
  match d with
  | Choked => OPTIMISTIC_ROTATE_SECS - now mod OPTIMISTIC_ROTATE_SECS
  | Throttled => if paused c then PAUSED_RETRY_SECS else 1
  | Serve | FirstPaint => 0
  end.

Definition served_to (c : Choker) (pk : bytes) : Z := default 0 (served_by_us <$> peers c !! pk).
Definition credit_of (c : Choker) (pk : bytes) : Z := default 0 (served_to_us <$> peers c !! pk).
End choke.

(** ** The account table *)

Section table.
Context (hash_iter : gmap bytes PeerAccount → list (bytes * PeerAccount)).
Context (hash_iter_perm : ∀ m, hash_iter m ≡ₚ map_to_list m).

Lemma elem_of_hash_iter m x : x ∈ hash_iter m ↔ m !! x.1 = Some x.2.
Proof. rewrite hash_iter_perm. destruct x. by rewrite elem_of_map_to_list. Qed.

(** Accounts with a live connection. *)
Definition n_connected (m : gmap bytes PeerAccount) : nat := size (filter (λ x, 0 < conns x.2) m).

Lemma evict_loop_spec fuel m :
  evict_loop hash_iter fuel m ⊆ m ∧
  (∀ pk a, m !! pk = Some a → conns a ≠ 0 → evict_loop hash_iter fuel m !! pk = Some a) ∧
  ((size m <= fuel)%nat → (size (evict_loop hash_iter fuel m) < MAX_TRACKED_PEERS)%nat ∨
     ∀ pk a, evict_loop hash_iter fuel m !! pk = Some a → conns a ≠ 0).
Proof.
  revert m; induction fuel as [|fuel IH]; intros m; cbn [evict_loop].
  - split_and!; [done|done|]. intros Hs. left. vm_compute Nat.lt. unfold MAX_TRACKED_PEERS. lia.
  - destruct (Nat.leb_spec MAX_TRACKED_PEERS (size m)); [|split_and!; [done|done|by left]].
    destruct (min_by _ _) as [[w aw]|] eqn:E.
    + apply min_by_elem, elem_of_bfilter in E as [Hin Hw]. apply elem_of_hash_iter in Hin.
      unfold unconnected in Hw. cbn [fst snd] in *. apply Z.eqb_eq in Hw.
      destruct (IH (delete w m)) as (S1 & K1 & F1). split_and!.
      * etransitivity; [done|apply delete_subseteq].
      * intros pk a Ha Hc. apply K1; [|done]. rewrite lookup_delete_ne; [done|]. intros ->. congruence.
      * intros Hs. apply F1. pose proof (map_size_delete w m) as Hd. rewrite Hin in Hd. cbn in Hd.
        lia.
    + split_and!; [done|done|]. intros _. right. intros pk a Ha Hc.
      apply min_by_None in E. apply (not_elem_of_nil (pk, a)). rewrite <- E. apply elem_of_bfilter.
      split; [by apply elem_of_hash_iter|]. unfold unconnected. by apply Z.eqb_eq.
Qed.

Lemma size_connected m m' : m' ⊆ m → (∀ pk a, m' !! pk = Some a → 0 < conns a) → (size m' <= n_connected m)%nat.
Proof.
  intros Hs Hc. unfold n_connected. apply map_subseteq_size. apply map_subseteq_spec. intros pk a Ha.
  apply map_lookup_filter_Some. split; [by eapply lookup_weaken|]. by apply (Hc pk).
Qed.

Lemma evict_spec now m :
  evict hash_iter now m ⊆ m ∧
  (∀ pk a, m !! pk = Some a → 0 < conns a → evict hash_iter now m !! pk = Some a) ∧
  ((∀ pk a, m !! pk = Some a → 0 <= conns a) → (n_connected m < MAX_TRACKED_PEERS)%nat →
    (size (evict hash_iter now m) < MAX_TRACKED_PEERS)%nat).
Proof.
  unfold evict. set (m' := filter _ m). destruct (evict_loop_spec (size m') m') as (S & K & F).
  assert (m' ⊆ m) as Hm by apply map_filter_subseteq. split_and!.
  - by etransitivity.
  - intros pk a Ha Hc. apply K; [|lia]. apply map_lookup_filter_Some. split; [done|].
    unfold keeps. cbn. by rewrite (proj2 (Z.ltb_lt _ _) Hc).
  - intros Hnn Hn. destruct F as [F|F]; [done..|]. eapply Nat.le_lt_trans; [|exact Hn].
    apply size_connected; [by etransitivity|]. intros pk a Ha.
    assert (conns a ≠ 0) by by apply (F pk). assert (0 <= conns a); [|lia].
    apply (Hnn pk). eapply lookup_weaken; [done|]. by etransitivity.
Qed.

(** A full table makes room before a new account. *)
Definition roomy (pk : bytes) (now : Z) (m : gmap bytes PeerAccount) : gmap bytes PeerAccount :=
  match m !! pk with
  | Some _ => m
  | None => if (MAX_TRACKED_PEERS <=? size m)%nat then evict hash_iter now m else m
  end.

Lemma touch_peers pk now f c :
  peers (touch hash_iter pk now f c) =
  <[pk := f (set_seen now (default (new_account now) (peers c !! pk)))]> (roomy pk now (peers c)).
Proof.
  unfold touch, roomy. destruct (peers c !! pk) eqn:E; cbn; [by rewrite E|].
  destruct (_ <=? _)%nat; cbn; [|by rewrite E].
  destruct (evict hash_iter now (peers c) !! pk) eqn:E'; [|done].
  destruct (evict_spec now (peers c)) as (S & _). eapply lookup_weaken in E'; [|exact S]. congruence.
Qed.

Lemma free_bytes_eq : FIRST_PAINT_FREE_BYTES = 6442450944.
Proof. reflexivity. Qed.

(** Per-account invariant, and the table's: bounded, and its connection
    counts are those of the history [h]. *)
Definition acct_ok (a : PeerAccount) : Prop :=
  0 <= free_spent a <= FIRST_PAINT_FREE_BYTES ∧ 0 <= conns a.

Definition table_ok (m : gmap bytes PeerAccount) (h : bytes → Z) : Prop :=
  (size m <= MAX_TRACKED_PEERS)%nat ∧
  ∀ pk, match m !! pk with Some a => acct_ok a ∧ conns a = h pk | None => h pk = 0 end.

Lemma table_nonneg m h : table_ok m h → ∀ pk a, m !! pk = Some a → 0 <= conns a.
Proof. intros [_ Ht] pk a Ha. specialize (Ht pk). rewrite Ha in Ht. destruct Ht as [[_ ?] _]. done. Qed.

Lemma roomy_ok pk now m h : table_ok m h → (m !! pk = None → (n_connected m < MAX_TRACKED_PEERS)%nat) →
  table_ok (roomy pk now m) h ∧ (m !! pk = None → (size (roomy pk now m) < MAX_TRACKED_PEERS)%nat).
Proof.
  intros Ht Hn. pose proof (table_nonneg _ _ Ht) as Hnn. unfold roomy.
  destruct (m !! pk) eqn:E; [done|]. destruct (Nat.leb_spec MAX_TRACKED_PEERS (size m)); [|done].
  destruct (evict_spec now m) as (S & K & F). specialize (F Hnn (Hn eq_refl)). split; [|done].
  split; [lia|]. intros k. destruct Ht as [_ Ht]. specialize (Ht k).
  destruct (evict hash_iter now m !! k) eqn:Ek.
  - eapply lookup_weaken in Ek; [|done]. by rewrite Ek in Ht.
  - destruct (m !! k) as [a|] eqn:Ea; [|done]. destruct Ht as [[_ ?] <-].
    destruct (decide (conns a = 0)) as [|Hc]; [done|]. rewrite (K k a) in Ek; [done|done|lia].
Qed.

Lemma touch_ok pk now f c h h' : table_ok (peers c) h →
  (peers c !! pk = None → (n_connected (peers c) < MAX_TRACKED_PEERS)%nat) →
  (∀ k, k ≠ pk → h' k = h k) →
  (∀ a, acct_ok a → conns a = h pk → acct_ok (f a) ∧ conns (f a) = h' pk) →
  table_ok (peers (touch hash_iter pk now f c)) h'.
Proof.
  intros Ht Hn Hh Hf. rewrite touch_peers. destruct (roomy_ok pk now _ _ Ht Hn) as [[R1 R2] R3]. split.
  - rewrite map_size_insert. destruct (roomy pk now (peers c) !! pk) eqn:E; cbn; [lia|].
    specialize (R3 ltac:(unfold roomy in E; destruct (peers c !! pk) eqn:E2; congruence)). lia.
  - intros k. destruct (decide (k = pk)) as [->|Hk].
    + rewrite lookup_insert, decide_True by done. apply Hf.
      * destruct Ht as [_ Ht]. specialize (Ht pk). destruct (peers c !! pk) as [a|]; cbn.
        { destruct Ht as [? _]. done. }
        unfold acct_ok. cbn [free_spent conns set_seen new_account]. rewrite free_bytes_eq. lia.
      * destruct Ht as [_ Ht]. specialize (Ht pk). destruct (peers c !! pk) as [a|]; cbn; [apply Ht|done].
    + rewrite lookup_insert_ne by done. rewrite Hh by done. apply R2.
Qed.

Lemma touch_self pk now f c :
  peers (touch hash_iter pk now f c) !! pk = Some (f (set_seen now (default (new_account now) (peers c !! pk)))).
Proof. by rewrite touch_peers, lookup_insert_eq. Qed.

(** No operation on one peer evicts or changes another that is connected. *)
Lemma touch_other pk now f c k a : k ≠ pk → peers c !! k = Some a → 0 < conns a →
  peers (touch hash_iter pk now f c) !! k = Some a.
Proof.
  intros Hk Ha Hc. rewrite touch_peers, lookup_insert_ne by done. unfold roomy.
  destruct (peers c !! pk); [done|]. destruct (_ <=? _)%nat; [|done]. by apply evict_spec.
Qed.

Lemma alter_ok pk f m h : table_ok m h → (∀ a, acct_ok a → acct_ok (f a) ∧ conns (f a) = conns a) →
  table_ok (alter f pk m) h.
Proof.
  intros [Hs Ht] Hf. split.
  { destruct (m !! pk) as [a|] eqn:E; [|by rewrite alter_id by congruence].
    assert (alter f pk m = <[pk := f a]> m) as -> by (apply map_eq; intros k; destruct (decide (k = pk)) as [->|]; simplify_map_eq; done). by rewrite map_size_insert, E. } intros k. specialize (Ht k).
  destruct (decide (k = pk)) as [->|Hk]; [|by rewrite lookup_alter_ne].
  rewrite lookup_alter, decide_True by done. destruct (m !! pk) as [a|]; cbn; [|done].
  destruct Ht as [Ha <-]. by apply Hf.
Qed.
End table.

(** ** Reachable states *)

Section reachable.
Context (hash_iter : gmap bytes PeerAccount → list (bytes * PeerAccount)).
Context (cap : Z).

Inductive op :=
| NotePeer (pk : bytes) (r : Reach)
| NoteConnected (pk : bytes) (r : Reach)
| NoteDisconnected (pk : bytes)
| CreditPeer (pk : bytes) (n : Z)
| SetPaused (p : bool)
| Decide (pk : bytes) (n : Z) (first_paint foreground : bool).

Definition run (o : op) (now : Z) (c : Choker) : Choker :=
  match o with
  | NotePeer pk r => note_peer hash_iter pk r now c
  | NoteConnected pk r => note_connected hash_iter pk r now c
  | NoteDisconnected pk => note_disconnected hash_iter pk now c
  | CreditPeer pk n => credit_peer hash_iter pk n now c
  | SetPaused p => set_paused p c
  | Decide pk n fp fg => (serve_decision hash_iter pk n fp fg now c).2
  end.

(** The connections the server has opened and not yet closed, per peer. *)
Definition delta (o : op) (h : bytes → Z) : bytes → Z :=
  match o with
  | NoteConnected pk _ => λ k, if decide (k = pk) then h k + 1 else h k
  | NoteDisconnected pk => λ k, if decide (k = pk) then h k - 1 else h k
  | _ => h
  end.

(** What the server guarantees when it calls: fewer live peers than the table
    holds, disconnections paired with connections, requests that fit a u64. *)
Definition admissible (c : Choker) (h : bytes → Z) (o : op) : Prop :=
  (n_connected (peers c) < MAX_TRACKED_PEERS)%nat ∧
  match o with
  | NoteConnected pk _ => h pk < u32_max
  | NoteDisconnected pk => 0 < h pk
  | Decide _ n _ _ => 0 <= n ∧ cap + n <= u64_max ∧ FIRST_PAINT_FREE_BYTES + n <= u64_max
  | _ => True
  end.

Inductive reachable : Choker → (bytes → Z) → Prop :=
| reachable_new : reachable (new cap) (λ _, 0)
| reachable_step c h o now : reachable c h → admissible c h o → reachable (run o now c) (delta o h).

Definition bucket_ok (c : Choker) : Prop :=
  global_cap_bps c = cap ∧ foreground_yield_num c = 64 ∧ 0 <= second_bytes c <= cap.

Context (hash_iter_perm : ∀ m, hash_iter m ≡ₚ map_to_list m) (Hcap : 0 <= cap <= u64_max).

Lemma touch_bucket pk now f c : bucket_ok (touch hash_iter pk now f c) ↔ bucket_ok c.
Proof. unfold touch. destruct (peers c !! pk); [done|]. by destruct (_ <=? _)%nat. Qed.

Lemma effective_cap_le fg c : bucket_ok c → 0 <= effective_cap fg c <= cap.
Proof.
  intros (E1 & E2 & _). unfold effective_cap, sat_mul64. rewrite E1, E2. destruct fg; [|lia].
  split; [apply Z.div_pos; lia|]. apply Z.div_le_upper_bound; lia.
Qed.

Lemma is_unchoked_frame pk now c : let c' := (is_unchoked hash_iter pk now c).2 in
  peers c' = peers c ∧ (bucket_ok c' ↔ bucket_ok c) ∧ second_bytes c' = second_bytes c ∧
  second_ts c' = second_ts c ∧ paused c' = paused c.
Proof. unfold is_unchoked. cbn [fst snd]. by destruct (_ || _). Qed.

Lemma wrap64_small x : 0 <= x <= u64_max → wrap64 x = x.
Proof. unfold wrap64, u64_max. intros. apply Z.mod_small. lia. Qed.

Lemma note_request_frame pk now c :
  (bucket_ok (note_request hash_iter pk now c) ↔ bucket_ok c) ∧
  peers (note_request hash_iter pk now c) =
    alter (set_active now) pk (peers (touch hash_iter pk now (λ a, a) c)).
Proof.
  unfold note_request. set (c1 := touch _ _ _ _ _). assert (bucket_ok c1 ↔ bucket_ok c) by apply touch_bucket.
  destruct (match peers c1 !! pk with Some a => recently now a | None => false end); done.
Qed.

Lemma roll_second_ok now c : bucket_ok c → bucket_ok (roll_second now c).
Proof. intros (E1 & E2 & E3). unfold roll_second. destruct (now =? second_ts c); [done|]. split_and!; cbn; lia. Qed.

Lemma peers_roll_second now c : peers (roll_second now c) = peers c.
Proof. unfold roll_second. by destruct (now =? second_ts c). Qed.

Lemma reciprocity_ok pk n fp now c h : table_ok (peers c) h → bucket_ok c →
  (fp = true → second_bytes c + n <= cap) → 0 <= n →
  table_ok (peers (reciprocity hash_iter pk n fp now c).2) h ∧ bucket_ok (reciprocity hash_iter pk n fp now c).2.
Proof.
  intros Ht Hb Hn Hn0. unfold reciprocity. pose proof (is_unchoked_frame pk now c) as (F1 & F2 & F3 & F4 & F5).
  destruct (is_unchoked hash_iter pk now c) as [ok c']. cbn [snd] in *. rewrite <- F1 in Ht. apply F2 in Hb.
  destruct ok; cbn [negb snd]; [|done]. split.
  - apply alter_ok; [by destruct fp|]. intros a Ha. done.
  - destruct Hb as (E1 & E2 & E3). destruct fp; [|done]. specialize (Hn eq_refl).
    split_and!; cbn; [done|done|rewrite wrap64_small by lia; lia..].
Qed.

(** The state in which a request is judged: activity noted, bucket rolled. *)
Definition noted (pk : bytes) (now : Z) (c : Choker) : Choker := roll_second now (note_request hash_iter pk now c).

Lemma noted_ok pk now c h : table_ok (peers c) h → bucket_ok c →
  (n_connected (peers c) < MAX_TRACKED_PEERS)%nat →
  table_ok (peers (noted pk now c)) h ∧ bucket_ok (noted pk now c) ∧
  peers (noted pk now c) !! pk =
    Some (set_active now (set_seen now (default (new_account now) (peers c !! pk)))).
Proof.
  intros Ht Hb Hn. unfold noted. destruct (note_request_frame pk now c) as [F1 F2].
  rewrite peers_roll_second, F2. split_and!.
  - apply alter_ok; [|done]. by apply (touch_ok _ hash_iter_perm _ _ _ _ h).
  - by apply roll_second_ok, F1.
  - rewrite lookup_alter_eq, touch_self by done. done.
Qed.

Lemma roll_window_ok now a : acct_ok a → acct_ok (roll_window now a) ∧ conns (roll_window now a) = conns a.
Proof.
  intros [[? ?] ?]. unfold roll_window. destruct (_ <=? _); [|done].
  split; [split; cbn [free_spent conns set_free]; [rewrite free_bytes_eq; lia|done]|done].
Qed.

Lemma serve_ok pk n fp fg now c h : table_ok (peers c) h → bucket_ok c →
  admissible c h (Decide pk n fp fg) →
  table_ok (peers (serve_decision hash_iter pk n fp fg now c).2) h ∧
  bucket_ok (serve_decision hash_iter pk n fp fg now c).2.
Proof.
  intros Ht Hb (Hn & Hn0 & Hcn & Hfn). unfold serve_decision. destruct (paused c); [done|].
  fold (noted pk now c). destruct (noted_ok pk now c h Ht Hb Hn) as (T1 & B1 & P1).
  destruct fp; [|by apply reciprocity_ok]. pose proof (effective_cap_le fg _ B1) as Hcap'.
  assert (0 <= second_bytes (noted pk now c)) by apply B1. assert (second_bytes (noted pk now c) <= cap) by apply B1.
  rewrite wrap64_small by lia. destruct (Z.ltb_spec (effective_cap fg (noted pk now c)) (second_bytes (noted pk now c) + n)); [done|].
  set (c1 := noted pk now c) in *. set (c2 := touch hash_iter pk now (roll_window now) c1).
  assert (bucket_ok c2) as B2 by by apply touch_bucket.
  assert (table_ok (peers c2) h) as T2.
  { apply (touch_ok _ hash_iter_perm _ _ _ _ h); [done|congruence|done|]. intros a Ha Hh.
    destruct (roll_window_ok now a Ha) as [? ->]. done. }
  assert (second_bytes c2 = second_bytes c1) as Hs.
  { unfold c2, touch. by rewrite P1. }
  destruct (peers c2 !! pk) as [a|] eqn:Ea; [|by unfold c2 in Ea; rewrite (touch_self _ hash_iter_perm) in Ea].
  assert (acct_ok a) as [[A1 A2] A3] by (destruct T2 as [_ T2]; specialize (T2 pk); rewrite Ea in T2; apply T2).
  rewrite wrap64_small by lia. destruct (Z.leb_spec (free_spent a + n) FIRST_PAINT_FREE_BYTES).
  - split.
    + cbn [snd peers set_bucket with_peers]. apply alter_ok; [done|]. intros a' [_ Ha'].
      split; [|done]. split; [cbn [free_spent set_free]; lia|done].
    + destruct B2 as (E1 & E2 & E3). split_and!; cbn [snd set_bucket with_peers global_cap_bps foreground_yield_num second_bytes];
        [done|done|rewrite Hs, wrap64_small by lia; lia..].
  - apply reciprocity_ok; [done|done|intros _; rewrite Hs; lia|done].
Qed.

Lemma step_ok c h o now : table_ok (peers c) h → bucket_ok c → admissible c h o →
  table_ok (peers (run o now c)) (delta o h) ∧ bucket_ok (run o now c).
Proof.
  intros Ht Hb Ha. assert (n_connected (peers c) < MAX_TRACKED_PEERS)%nat as Hn by apply Ha.
  destruct o as [pk r|pk r|pk|pk n|p|pk n fp fg]; cbn [run delta]; [..|done|by apply serve_ok].
  all: split; [|by apply (touch_bucket pk now)].
  all: apply (touch_ok _ hash_iter_perm _ _ _ _ h); [done|done| |].
  all: try (intros k Hk; by rewrite ?decide_False by done).
  all: intros a Hok Hc; destruct Ha as [_ Ha]; rewrite ?decide_True by done;
    unfold acct_ok, sat_add32, sat_sub in *; cbn [conns free_spent set_conns set_reach set_active add_served_to_us]; lia.
Qed.

Lemma reachable_ok c h : reachable c h → table_ok (peers c) h ∧ bucket_ok c.
Proof.
  induction 1 as [|c h o now _ [Ht Hb] Ha]; [|by apply step_ok].
  split; [split; [cbn; rewrite map_size_empty; lia|]|split_and!; cbn; lia].
  intros pk. cbn. by rewrite lookup_empty.
Qed.

(** The peer an operation is about. *)
Definition subject (o : op) : option bytes :=
  match o with
  | NotePeer pk _ | NoteConnected pk _ | NoteDisconnected pk | CreditPeer pk _ | Decide pk _ _ _ => Some pk
  | SetPaused _ => None
  end.

Lemma step_other c o now k a : Some k ≠ subject o → peers c !! k = Some a → 0 < conns a →
  peers (run o now c) !! k = Some a.
Proof.
  intros Hk Ha Hc. destruct o as [pk r|pk r|pk|pk n|p|pk n fp fg]; cbn [run subject] in *; try done;
    try (assert (k ≠ pk) by congruence; by apply touch_other).
  assert (k ≠ pk) as Hne by congruence. unfold serve_decision. destruct (paused c); [done|].
  fold (noted pk now c). set (c1 := noted pk now c).
  assert (peers c1 !! k = Some a) as H1.
  { unfold c1, noted. rewrite peers_roll_second, (proj2 (note_request_frame pk now c)), lookup_alter_ne by done.
    by apply touch_other. }
  assert (∀ c0, peers c0 !! k = Some a → peers (reciprocity hash_iter pk n fp now c0).2 !! k = Some a) as Hr.
  { intros c0 H0. unfold reciprocity. pose proof (is_unchoked_frame pk now c0) as (F1 & _).
    destruct (is_unchoked hash_iter pk now c0) as [ok c']. cbn [snd] in *. rewrite <- F1 in H0.
    destruct ok; cbn [negb snd]; [|done]. destruct fp; cbn; by rewrite lookup_alter_ne. }
  destruct fp; [|by apply Hr]. destruct (_ <? _); [done|]. set (c2 := touch _ _ _ _ c1).
  assert (peers c2 !! k = Some a) as H2 by by apply touch_other.
  destruct (peers c2 !! pk); [|by apply Hr]. destruct (_ <=? _); [|by apply Hr]. cbn. by rewrite lookup_alter_ne.
Qed.
End reachable.

(** Along any admissible history of calls, in any order: the account
    table never exceeds its cap, every account's connection count is exactly
    the connections opened and not yet closed, no peer's free budget and no
    second's first-paint bytes exceed their limits; and a call about one peer
    never evicts or changes the account of another that is connected. *)
Theorem choker_invariant hash_iter cap c h :
  (∀ m, hash_iter m ≡ₚ map_to_list m) → 0 <= cap <= u64_max → reachable hash_iter cap c h →
  (size (peers c) <= MAX_TRACKED_PEERS)%nat ∧
  (∀ pk, default 0 (conns <$> peers c !! pk) = h pk) ∧
  0 <= second_bytes c <= cap ∧
  (∀ pk a, peers c !! pk = Some a → 0 <= free_spent a <= FIRST_PAINT_FREE_BYTES) ∧
  (∀ o now k a, admissible cap c h o → Some k ≠ subject o → peers c !! k = Some a → 0 < conns a →
    peers (run hash_iter o now c) !! k = Some a).
Proof.
  intros Hp Hcap Hr. destruct (reachable_ok hash_iter cap Hp Hcap c h Hr) as [[Hs Ht] (_ & _ & Hb)].
  split_and!; [done| |apply Hb..| |].
  - intros pk. specialize (Ht pk). destruct (peers c !! pk); cbn; [by destruct Ht|done].
  - intros pk a Ha. specialize (Ht pk). rewrite Ha in Ht. apply Ht.
  - intros o now k a _. by apply step_other.
Qed.

(** ** The unchoke set *)

Lemma fill_overlay_spec n l u pk :
  pk ∈ fill_overlay n l u ↔ pk ∈ u ∨ pk ∈ map fst (take n l).
Proof.
  revert n u; induction l as [|x l IH]; intros [|n] u; cbn [fill_overlay take map]; try set_solver.
  rewrite IH. set_solver.
Qed.

Lemma size_add (pk : bytes) (u : gset bytes) : (size ({[pk]} ∪ u) <= S (size u))%nat.
Proof. rewrite size_union_alt, size_singleton. pose proof (subseteq_size (u ∖ {[pk]}) u ltac:(set_solver)). lia. Qed.

Lemma fill_overlay_size n l u : (size (fill_overlay n l u) <= n + size u)%nat.
Proof.
  revert n u; induction l as [|x l IH]; intros [|n] u; cbn [fill_overlay]; try lia.
  etransitivity; [apply IH|]. pose proof (size_add x.1 u). lia.
Qed.

Lemma fill_general_spec n l u :
  u ⊆ fill_general n l u ∧ (∀ pk, pk ∈ fill_general n l u → pk ∈ u ∨ pk ∈ map fst l) ∧
  (∀ pk, pk ∈ map fst (take n l) → pk ∈ fill_general n l u) ∧
  (size (fill_general n l u) <= n + size u)%nat.
Proof.
  revert n u; induction l as [|x l IH]; intros [|n] u; cbn [fill_general take map].
  1-3: split_and!; [done|by left|set_solver|lia].
  destruct (decide (x.1 ∈ u)).
  - destruct (IH (S n) u) as (I1 & I2 & I3 & I4). split_and!; [done|set_solver| |done].
    intros pk [->|Hp]%elem_of_cons; [set_solver|]. apply I3. destruct l; [by destruct n|].
    cbn [take map] in *. destruct n; [by apply elem_of_nil in Hp|]. cbn [take map] in Hp.
    apply elem_of_cons in Hp as [->|Hp]; [by left|]. right. 
    apply list_elem_of_fmap in Hp as (y & -> & Hy). apply list_elem_of_fmap. exists y. split; [done|].
    apply elem_of_take in Hy as (i & Hi & ?). apply elem_of_take. exists i. split; [done|lia].
  - destruct (IH n ({[x.1]} ∪ u)) as (I1 & I2 & I3 & I4). split_and!; [set_solver|set_solver| |].
    + intros pk [->|Hp]%elem_of_cons; [set_solver|by apply I3].
    + pose proof (size_add x.1 u). lia.
Qed.

(** Among any [n] consecutive epochs one selects index [i < n]. *)
Lemma rotation n e0 i : 0 <= i < n → ∃ e, e0 <= e < e0 + n ∧ e mod n = i.
Proof.
  intros Hi. exists (e0 + (i - e0) mod n). pose proof (Z.mod_pos_bound (i - e0) n ltac:(lia)).
  split; [lia|]. rewrite Z.add_mod_idemp_r by lia. replace (e0 + (i - e0)) with i by lia. apply Z.mod_small. lia.
Qed.
Section unchoke.
Context (hash_iter : gmap bytes PeerAccount → list (bytes * PeerAccount)).
Context (hash_iter_perm : ∀ m, hash_iter m ≡ₚ map_to_list m).

(** The ranking is the lexicographic order of these keys. *)
Definition rank_key (x : bytes * PeerAccount) : Z * (Z * bytes) := (- served_to_us x.2, (served_by_us x.2, x.1)).

Lemma rank_cmp_key x y : rank_cmp x y = cmp (rank_key x) (rank_key y).
Proof. unfold rank_cmp, rank_key. cbn. by rewrite Z.compare_opp. Qed.

(** Ranked before: contributed more, or as much and served less, or the smaller key. *)
Definition outranks (x y : bytes * PeerAccount) : Prop := olt (rank_key x) (rank_key y).

Lemma ranked_sorted c now : StronglySorted (λ x y, ole (rank_key x) (rank_key y)) (ranked hash_iter c now).
Proof.
  assert (∀ x y, cle rank_cmp x y ↔ ole (rank_key x) (rank_key y)) as Heq
    by (intros; unfold cle, ole; by rewrite rank_cmp_key).
  assert (∀ l, StronglySorted (cle rank_cmp) l → StronglySorted (λ x y, ole (rank_key x) (rank_key y)) l) as Himp.
  { induction 1 as [|x l _ IH Hx]; constructor; [done|]. eapply Forall_impl; [exact Hx|]. intros y. apply Heq. }
  apply Himp, sort_by_sorted.
  - intros x y. rewrite !rank_cmp_key. apply cmp_opp.
  - intros x y z. rewrite !Heq. by etransitivity.
Qed.

Lemma elem_of_ranked c now x :
  x ∈ ranked hash_iter c now ↔ peers c !! x.1 = Some x.2 ∧ active now x.2 = true.
Proof. unfold ranked. rewrite elem_of_sort_by, elem_of_bfilter. by rewrite elem_of_hash_iter. Qed.

Lemma ranked_keys_nodup c now : NoDup (map fst (ranked hash_iter c now)).
Proof.
  assert (map fst (ranked hash_iter c now) ≡ₚ
    map fst (List.filter (λ x, active now x.2) (map_to_list (peers c)))) as ->.
  { apply Permutation_map. unfold ranked. rewrite sort_by_perm. by apply filter_perm. }
  pose proof (NoDup_fst_map_to_list (peers c)) as Hn. induction (map_to_list (peers c)) as [|x l IH]; [apply NoDup_nil_2|].
  cbn in *. apply NoDup_cons in Hn as [Hx Hn]. destruct (active now x.2); cbn; [|by apply IH].
  apply NoDup_cons. split; [|by apply IH].
  rewrite list_elem_of_fmap in *. intros (y & Hy & [? _]%elem_of_bfilter). apply Hx. by exists y.
Qed.

Lemma elem_of_connected c pk :
  pk ∈ connected hash_iter c ↔ ∃ a, peers c !! pk = Some a ∧ 0 < conns a.
Proof.
  unfold connected. rewrite sort_perm, list_elem_of_fmap. split.
  - intros ([k a] & -> & [Hin Hc]%elem_of_bfilter). apply elem_of_hash_iter in Hin; [|done].
    exists a. split; [done|]. by apply Z.ltb_lt.
  - intros (a & Ha & Hc). exists (pk, a). split; [done|]. apply elem_of_bfilter.
    split; [by apply elem_of_hash_iter|by apply Z.ltb_lt].
Qed.

End unchoke.

(** The unchoke set. The twelve best-ranked active peers and the four
    best-ranked active overlay peers always hold a slot, where the ranking is
    by contribution, then least served, then key; every member is connected;
    the set holds at most seventeen peers; and the optimistic slot visits every
    connected peer: among as many consecutive rotations as there are connected
    peers, one unchokes it, whatever its credit. *)
Theorem unchoked_set_correct hash_iter c now :
  (∀ m, hash_iter m ≡ₚ map_to_list m) →
  let R := ranked hash_iter c now in
  let u := λ epoch, unchoked (rebuild_unchoked hash_iter epoch now c) in
  (∀ x, x ∈ R ↔ peers c !! x.1 = Some x.2 ∧ active now x.2 = true) ∧ NoDup (map fst R) ∧
  StronglySorted (λ x y, ole (rank_key x) (rank_key y)) R ∧
  (∀ epoch x, x ∈ take 12 R → x.1 ∈ u epoch) ∧
  (∀ epoch x, x ∈ take 4 (List.filter is_overlay R) → x.1 ∈ u epoch) ∧
  (∀ epoch pk, pk ∈ u epoch → ∃ a, peers c !! pk = Some a ∧ 0 < conns a) ∧
  (∀ epoch, (size (u epoch) <= 17)%nat) ∧
  (∀ pk a e0, peers c !! pk = Some a → 0 < conns a →
    ∃ e, e0 <= e < e0 + blen (connected hash_iter c) ∧ pk ∈ u e).
Proof.
  intros Hp R u. unfold u, rebuild_unchoked. cbn [unchoked]. fold R.
  set (uo := fill_overlay OVERLAY_RESERVED_SLOTS (List.filter is_overlay R) ∅).
  destruct (fill_general_spec (UNCHOKE_SLOTS - OVERLAY_RESERVED_SLOTS)%nat R uo) as (G1 & G2 & G3 & G4).
  set (ug := fill_general _ R uo) in *.
  set (final := λ epoch, match index (connected hash_iter c) (epoch mod blen (connected hash_iter c)) with
    | Some pk => {[pk]} ∪ ug | None => ug end).
  assert (∀ e, ug ⊆ final e) as Hf by (intros e; unfold final; destruct (index _ _); set_solver).
  split_and!.
  - intros x. by apply elem_of_ranked.
  - by apply ranked_keys_nodup.
  - by apply ranked_sorted.
  - intros e x Hx. apply (Hf e), G3, list_elem_of_fmap. by exists x.
  - intros e x Hx. apply (Hf e), G1, fill_overlay_spec. right. apply list_elem_of_fmap. by exists x.
  - intros e pk Hin. apply (elem_of_connected hash_iter Hp). revert Hin. fold (final e). unfold final.
    assert (pk ∈ ug → pk ∈ connected hash_iter c) as Hug.
    { intros Hin. assert (pk ∈ map fst R) as Hr.
      { apply G2 in Hin as [Hin|?]; [|done]. apply fill_overlay_spec in Hin as [Hin|Hin]; [set_solver|].
        apply list_elem_of_fmap in Hin as (x & -> & Hx). apply list_elem_of_fmap. exists x. split; [done|].
        apply elem_of_take in Hx as (i & Hi & _). apply list_elem_of_lookup_2, elem_of_bfilter in Hi. apply Hi. }
      apply list_elem_of_fmap in Hr as (x & -> & Hx). apply elem_of_ranked in Hx as [Hx Ha]; [|done].
      apply (elem_of_connected hash_iter Hp). exists x.2. split; [done|]. unfold active in Ha.
      apply andb_true_iff in Ha as [Ha _]. by apply Z.ltb_lt. }
    destruct (index _ _) as [k|] eqn:E; [|exact Hug]. apply index_Some in E as [_ E].
    intros [->%elem_of_singleton|Hin]%elem_of_union; [exact (list_elem_of_lookup_2 _ _ _ E)|by apply Hug].
  - intros e. fold (final e). pose proof (fill_overlay_size OVERLAY_RESERVED_SLOTS (List.filter is_overlay R) ∅) as Ho.
    fold uo in Ho. rewrite size_empty in Ho. unfold UNCHOKE_SLOTS, OVERLAY_RESERVED_SLOTS in *. unfold final.
    destruct (index _ _) as [k|]; [pose proof (size_add k ug)|]; lia.
  - intros pk a e0 Ha Hc. assert (pk ∈ connected hash_iter c) as Hin by (apply (elem_of_connected hash_iter Hp); by exists a).
    apply list_elem_of_lookup in Hin as [i Hi]. pose proof (lookup_lt_Some _ _ _ Hi) as Hl.
    destruct (rotation (blen (connected hash_iter c)) e0 (Z.of_nat i)) as (e & He & Hm); [unfold blen; lia|].
    exists e. split; [done|]. rewrite Hm. rewrite index_lookup, Nat2Z.id, Hi by lia. set_solver.
Qed.

(** ** Decisions *)

Section decisions.
Context (hash_iter : gmap bytes PeerAccount → list (bytes * PeerAccount)).
Context (hash_iter_perm : ∀ m, hash_iter m ≡ₚ map_to_list m).

(** Bytes already charged to the second [now] is in. *)
Definition spent (now : Z) (c : Choker) : Z := if now =? second_ts c then second_bytes c else 0.

Lemma touch_frame pk now f c : let c' := touch hash_iter pk now f c in
  second_bytes c' = second_bytes c ∧ second_ts c' = second_ts c ∧ paused c' = paused c ∧
  global_cap_bps c' = global_cap_bps c ∧ foreground_yield_num c' = foreground_yield_num c.
Proof. unfold touch. destruct (peers c !! pk); [done|]. by destruct (_ <=? _)%nat. Qed.

Lemma noted_frame pk now c : let c' := noted hash_iter pk now c in
  second_bytes c' = spent now c ∧ paused c' = paused c ∧ ∀ fg, effective_cap fg c' = effective_cap fg c.
Proof.
  unfold noted, note_request, roll_second, spent, effective_cap.
  destruct (touch_frame pk now (λ a, a) c) as (F1 & F2 & F3 & F4 & F5).
  set (c1 := touch hash_iter pk now (λ a, a) c) in *.
  destruct (match peers c1 !! pk with Some a => recently now a | None => false end);
    cbn [second_ts set_dirty with_peers]; rewrite F2; destruct (now =? second_ts c);
    cbn [second_bytes paused global_cap_bps foreground_yield_num set_bucket set_dirty with_peers];
    rewrite ?F1, F3, F4, F5; done.
Qed.

Lemma served_to_noted pk now c : served_to (noted hash_iter pk now c) pk = served_to c pk.
Proof.
  unfold served_to, noted. rewrite peers_roll_second, (proj2 (note_request_frame hash_iter 0 pk now c)).
  rewrite lookup_alter_eq, touch_self by done. by destruct (peers c !! pk).
Qed.

(** The choke's answer, once the peer has an account. *)
Definition choke_outcome (pk : bytes) (n : Z) (fp : bool) (now : Z) (c : Choker) (d : ServeDecision) (c' : Choker) : Prop :=
  unchoked_epoch c' = now / OPTIMISTIC_ROTATE_SECS ∧ dirty c' = false ∧ paused c' = paused c ∧
  (d = Choked ∧ pk ∉ unchoked c' ∧ served_to c' pk = served_to c pk ∧ second_bytes c' = second_bytes c ∨
   d = Serve ∧ pk ∈ unchoked c' ∧ served_to c' pk = wrap64 (served_to c pk + n) ∧
     second_bytes c' = if fp then wrap64 (second_bytes c + n) else second_bytes c).

Lemma reciprocity_spec pk n fp now c : is_Some (peers c !! pk) →
  choke_outcome pk n fp now c (reciprocity hash_iter pk n fp now c).1 (reciprocity hash_iter pk n fp now c).2.
Proof.
  intros [a Ha]. unfold reciprocity, choke_outcome.
  assert (unchoked_epoch (is_unchoked hash_iter pk now c).2 = now / OPTIMISTIC_ROTATE_SECS ∧
    dirty (is_unchoked hash_iter pk now c).2 = false) as [Hep Hd].
  { unfold is_unchoked. cbn [snd]. destruct (dirty c) eqn:D; [done|]. cbn [orb].
    destruct (Z.eqb_spec (now / OPTIMISTIC_ROTATE_SECS) (unchoked_epoch c)); done. }
  destruct (is_unchoked_frame hash_iter 0 pk now c) as (F1 & _ & F3 & F4 & F5).
  assert ((is_unchoked hash_iter pk now c).1 = bool_decide (pk ∈ unchoked (is_unchoked hash_iter pk now c).2)) as Hok by done.
  destruct (is_unchoked hash_iter pk now c) as [ok c']. cbn [fst snd] in *.
  unfold served_to. rewrite <- F1 in Ha |- *. case_bool_decide as Hin; subst ok; cbn [negb fst snd].
  - destruct fp; split_and!; try done; right; cbn [peers unchoked second_bytes with_peers set_bucket];
      rewrite lookup_alter_eq, Ha; cbn; rewrite ?F3; done.
  - split_and!; try done. left. done.
Qed.

Lemma retry_bounds c d now :
  (d = Choked ∨ d = Throttled → 0 < retry_after_secs c d now <= 60) ∧
  (d = Choked → (now + retry_after_secs c d now) mod OPTIMISTIC_ROTATE_SECS = 0).
Proof.
  unfold retry_after_secs, OPTIMISTIC_ROTATE_SECS, PAUSED_RETRY_SECS. pose proof (Z.mod_pos_bound now 30).
  split.
  - intros [->| ->]; [lia|]. destruct (paused c); lia.
  - intros ->. rewrite Z.add_sub_assoc, Zminus_mod_idemp_r. replace (now + 30 - now) with 30 by lia. done.
Qed.

(** The free budget's branch of a first-paint request. *)
Lemma paint_account pk now c1 a1 : peers c1 !! pk = Some a1 → 0 <= free_spent a1 →
  let c2 := touch hash_iter pk now (roll_window now) c1 in
  ∃ a2, peers c2 !! pk = Some a2 ∧ 0 <= free_spent a2 <= free_spent a1 ∧ served_by_us a2 = served_by_us a1 ∧
    served_to c2 pk = served_to c1 pk.
Proof.
  intros Ha H0 c2. unfold served_to, c2. rewrite (touch_self _ hash_iter_perm), Ha. cbn.
  eexists. split; [done|]. unfold roll_window. destruct (_ <=? _); cbn; split_and!; done || lia.
Qed.
End decisions.

(** What each decision promises, against the state before and after. *)
Definition decision_ok (pk : bytes) (n : Z) (fp fg : bool) (now : Z) (c : Choker) (d : ServeDecision) (c' : Choker) : Prop :=
  let over := effective_cap fg c <? spent now c + n in
  match d with
  | Throttled => paused c = true ∧ c' = c ∨
      paused c = false ∧ fp = true ∧ over = true ∧ second_bytes c' = spent now c ∧ served_to c' pk = served_to c pk
  | FirstPaint => paused c = false ∧ fp = true ∧ over = false ∧ second_bytes c' = spent now c + n ∧
      served_to c' pk = served_to c pk ∧ ∃ a, peers c' !! pk = Some a ∧ n <= free_spent a <= FIRST_PAINT_FREE_BYTES
  | Choked => paused c = false ∧ (fp = true → over = false) ∧ pk ∉ unchoked c' ∧
      unchoked_epoch c' = now / OPTIMISTIC_ROTATE_SECS ∧
      second_bytes c' = spent now c ∧ served_to c' pk = served_to c pk
  | Serve => paused c = false ∧ (fp = true → over = false) ∧ pk ∈ unchoked c' ∧
      unchoked_epoch c' = now / OPTIMISTIC_ROTATE_SECS ∧
      second_bytes c' = spent now c + (if fp then n else 0) ∧ served_to c' pk = wrap64 (served_to c pk + n)
  end.

Lemma choke_decides hash_iter pk n fp fg now c c0 :
  paused c = false → is_Some (peers c0 !! pk) → second_bytes c0 = spent now c → served_to c0 pk = served_to c pk →
  (fp = true → (effective_cap fg c <? spent now c + n) = false ∧ 0 <= spent now c + n <= u64_max) →
  let r := reciprocity hash_iter pk n fp now c0 in decision_ok pk n fp fg now c r.1 r.2.
Proof.
  intros Hpz H0 Hs Ht Hov r.
  destruct (reciprocity_spec hash_iter pk n fp now c0 H0) as (E1 & _ & _ & [(D & U & S & B)|(D & U & S & B)]);
    fold r in E1, D, U, S, B; unfold decision_ok; rewrite D.
  - split_and!; [done|apply Hov|done|done|congruence|congruence].
  - split_and!; [done|apply Hov|done|done| |congruence]. rewrite B, Hs. destruct fp; [|lia].
    apply wrap64_small, Hov. done.
Qed.

(** The decision for one request, on every branch. Paused: refused, and
    nothing changes. First paint: refused exactly when it would push this
    second past the cap (or its foreground quarter), served free while the
    peer's window budget lasts. Everything else is served exactly when the peer
    holds a slot of the current rotation; a bulk request is never throttled.
    Bytes are charged exactly when served, and every refusal comes with a retry
    delay of at most a minute, for a choked peer the next rotation. *)
Theorem serve_decision_correct hash_iter cap c h pk n fp fg now :
  (∀ m, hash_iter m ≡ₚ map_to_list m) → 0 <= cap <= u64_max → reachable hash_iter cap c h →
  admissible cap c h (Decide pk n fp fg) →
  let d := (serve_decision hash_iter pk n fp fg now c).1 in
  let c' := (serve_decision hash_iter pk n fp fg now c).2 in
  decision_ok pk n fp fg now c d c' ∧
  (d = Choked ∨ d = Throttled → 0 < retry_after_secs c' d now <= 60) ∧
  (d = Choked → (now + retry_after_secs c' d now) mod OPTIMISTIC_ROTATE_SECS = 0).
Proof.
  intros Hp Hcap Hr Ha. destruct (serve_decision hash_iter pk n fp fg now c) as [d c'] eqn:E.
  cbn [fst snd]. split; [|apply retry_bounds]. destruct (reachable_ok hash_iter cap Hp Hcap c h Hr) as [Ht Hb].
  destruct (noted_ok hash_iter cap Hp Hcap pk now c h Ht Hb (proj1 Ha)) as (T1 & B1 & P1).
  destruct (noted_frame hash_iter pk now c) as (N1 & N2 & N3). pose proof (served_to_noted hash_iter Hp pk now c) as N4.
  destruct Ha as (_ & Hn0 & Hcn & Hfn). assert (0 <= spent now c <= cap) as Hspent by (rewrite <- N1; apply B1).
  unfold serve_decision in E. destruct (paused c) eqn:Epc; [apply pair_eq in E as [<- <-]; by left|].
  fold (noted hash_iter pk now c) in E. set (c1 := noted hash_iter pk now c) in *.
  rewrite N1, N3, wrap64_small in E by lia. destruct fp.
  2:{ pose proof (choke_decides hash_iter pk n false fg now c c1 Epc) as Hc. rewrite E in Hc. apply Hc; eauto; done. }
  destruct (effective_cap fg c <? spent now c + n) eqn:Eov.
  { apply pair_eq in E as [<- <-]. right. by rewrite Eov. }
  pose proof T1 as [_ T1']. specialize (T1' pk). rewrite P1 in T1'. destruct T1' as [[F1 _] _].
  destruct (paint_account hash_iter Hp pk now c1 _ P1 (proj1 F1)) as (a2 & P2 & F2 & S2 & S3).
  destruct (touch_frame hash_iter pk now (roll_window now) c1) as (G1 & _ & G3 & _).
  set (c2 := touch hash_iter pk now (roll_window now) c1) in *. rewrite P2, wrap64_small in E by lia.
  destruct (Z.leb_spec (free_spent a2 + n) FIRST_PAINT_FREE_BYTES).
  - apply pair_eq in E as [<- <-]. cbn [decision_ok second_bytes set_bucket peers with_peers]. rewrite Eov, G1, N1.
    rewrite wrap64_small by lia. split_and!; [done..| |].
    + rewrite <- N4, <- S3. unfold served_to. cbn [peers set_bucket with_peers]. rewrite lookup_alter_eq, P2. done.
    + rewrite lookup_alter_eq, P2. cbn. eexists. split; [done|]. cbn [free_spent set_free]. lia.
  - pose proof (choke_decides hash_iter pk n true fg now c c2 Epc) as Hc. rewrite E in Hc. apply Hc.
    + by rewrite P2.
    + by rewrite G1.
    + by rewrite S3.
    + intros _. split; [done|lia].
Qed.

(** Fourteen clearnet peers, each connected and each having asked for a byte:
    two fewer than [UNCHOKE_SLOTS]. *)
Definition crowd : Choker :=
  foldl (λ c k, (serve_decision map_to_list [byte_of k] 1 false false 0
      (note_connected map_to_list [byte_of k] Clearnet 0 c)).2)
    (new 1000) [1; 2; 3; 4; 5; 6; 7; 8; 9; 10; 11; 12; 13; 14].

(** The comment on [UNCHOKE_SLOTS] ("with fewer competing peers than slots,
    nobody is ever choked") fails: clearnet peers cannot use the four overlay
    slots, so two of fourteen competing for sixteen are refused. *)
Theorem choked_below_capacity :
  (length (ranked map_to_list crowd 0) < UNCHOKE_SLOTS)%nat ∧
  (serve_decision map_to_list [byte_of 12] 1 false false 0 crowd).1 = Choked ∧
  (serve_decision map_to_list [byte_of 13] 1 false false 0 crowd).1 = Choked.
Proof. split_and!; vm_compute; [lia|reflexivity..]. Qed.

(** ** Witnesses *)

Lemma one_connected : reachable map_to_list 1000 (run map_to_list (NoteConnected (bstr "a") Overlay) 5 (new 1000))
  (delta (NoteConnected (bstr "a") Overlay) (λ _, 0)).
Proof.
  constructor; [constructor|]. split; [|by vm_compute]. by apply Nat.ltb_lt; vm_compute.
Qed.

Lemma choker_invariant_witness :
  default 0 (conns <$> peers (note_connected map_to_list (bstr "a") Overlay 5 (new 1000)) !! bstr "a") = 1.
Proof.
  refine (proj1 (proj2 (choker_invariant map_to_list 1000 _ _ (λ _, reflexivity _) _ one_connected)) (bstr "a")).
  unfold u64_max. lia.
Defined.

Lemma unchoked_set_correct_witness :
  bstr "a" ∈ unchoked (rebuild_unchoked map_to_list 7 5
    (credit_peer map_to_list (bstr "a") 1 5 (note_connected map_to_list (bstr "a") Overlay 5 (new 1000)))).
Proof.
  refine (proj1 (proj2 (proj2 (proj2 (proj2 (unchoked_set_correct map_to_list
    (credit_peer map_to_list (bstr "a") 1 5 (note_connected map_to_list (bstr "a") Overlay 5 (new 1000))) 5
    (λ _, reflexivity _)))))) 7 (bstr "a", mkAccount 1 0 0 5 5 Overlay 1 (Some 5)) _).
  apply (bool_decide_unpack _). by vm_compute.
Defined.

Definition met : Choker := run map_to_list (NoteConnected (bstr "a") Overlay) 5 (new 1000).

Lemma serve_decision_correct_witness :
  let r := serve_decision map_to_list (bstr "a") 600 true false 6 met in
  r.1 = FirstPaint ∧ decision_ok (bstr "a") 600 true false 6 met r.1 r.2.
Proof.
  split; [by vm_compute|].
  refine (proj1 (serve_decision_correct map_to_list 1000 met _ (bstr "a") 600 true false 6
    (λ _, reflexivity _) _ one_connected _)).
  - unfold u64_max. lia.
  - split; [by apply Nat.ltb_lt; vm_compute|]. rewrite free_bytes_eq. unfold u64_max. lia.
Defined.
