(* ===== verification/Sched.v ===== *)
(** * Fetch scheduling policy ([crates/epix-edx/src/sched.rs], first half)

    The pure decisions of the multi-peer fetch: the per-class constants and
    windows, the latency priors, the two scheduling orders, how an order is cut
    into request-sized byte ranges and split by holder, and the cursor over the
    order. Durations are nanoseconds. The fetch loop itself is in [Swarm.v]. *)
From S2P Require Import Prelude Ordered Bitfield.
From Stdlib Require Import ZArith Lia.
From stdpp Require Import base list sorting list_numbers.
#[local] Open Scope Z_scope.

Definition secs (n : Z) : Z := n * 1000000000.
Definition millis (n : Z) : Z := n * 1000000.

Definition MAX_DUPLICATES : nat := 2.
Definition PRIMARY_BUDGET_DIVISOR : Z := 2.
Definition GROUPS_PER_REQUEST : Z := 64.
Definition GROUPS_PER_REQUEST_OVERLAY : Z := 32.
Definition STALL_CLEARNET : Z := secs 4.
Definition STALL_OVERLAY : Z := secs 12.
Definition MAX_BATCH_WAIT : Z := secs 90.
Definition PIPELINE_DEPTH : Z := 2.
Definition PIPELINE_DEPTH_OVERLAY : Z := 6.
Definition PEER_FAIL_LIMIT : Z := 3.
Definition BUSY_COOLDOWN : Z := secs 15.
Definition BUSY_RETRY_MIN : Z := secs 1.
Definition BUSY_RETRY_MAX : Z := secs 120.
Definition BUSY_LIMIT : Z := 8.
Definition MAX_CONCURRENT_SERVES : Z := 8.
Definition LINK_REQUEST_LIMIT : Z := MAX_CONCURRENT_SERVES + 2.
Definition LINK_SATURATION_RETRY : Z := millis 250.
Definition LINK_SATURATION_PATIENCE : Z := 240.
Definition JOIN_WAIT_TICK : Z := secs 2.
Definition JOIN_WAIT_PATIENCE : Z := 60.

Inductive Class := Clearnet | I2p | Tor.

#[export] Instance Class_eq_dec : EqDecision Class.
Proof. solve_decision. Defined.

Definition class_latency (c : Class) : Z :=
  match c with Clearnet => millis 30 | I2p => millis 300 | Tor => millis 500 end.

Definition groups_per_request (c : Class) : Z :=
  match c with Clearnet => GROUPS_PER_REQUEST | I2p | Tor => GROUPS_PER_REQUEST_OVERLAY end.

Definition pipeline_depth (c : Class) : Z :=
  match c with Clearnet => PIPELINE_DEPTH | I2p | Tor => PIPELINE_DEPTH_OVERLAY end.

Definition stall_timeout (c : Class) : Z :=
  match c with Clearnet => STALL_CLEARNET | I2p | Tor => STALL_OVERLAY end.

(** A peer's connection is known by the number of the link it is a handle
    on; several peers may share one. *)
Record PeerHandle := mkPeer { conn : nat; class : Class; bits : GroupBits.t; label : bytes }.

Definition batch_groups_for (peers : list PeerHandle) : Z :=
  match map (λ p, groups_per_request (class p)) peers with
  | [] => GROUPS_PER_REQUEST
  | x :: l => foldr Z.max x l
  end.

Record Deadline := mkDeadline { ms : Z; max_wait : Z }.
Definition tight : Deadline := mkDeadline 250 (secs 60).
Definition background : Deadline := mkDeadline 0 (secs 120).
Definition prefetch : Deadline := mkDeadline 500 (secs 120).
Definition is_streaming (d : Deadline) : bool := 0 <? ms d.

Definition stall_window (c : Class) (inflight : Z) : Z := stall_timeout c * Z.max inflight 1.

Definition link_queue_depth (c : Class) (queued_bytes : Z) : Z :=
  Z.min (div_ceil queued_bytes (groups_per_request c * GROUP_BYTES)) u32_max.

Definition window_queue_depth (d : Deadline) (own_load : Z) (c : Class) (link_bytes : Z) : Z :=
  if is_streaming d then own_load else Z.max own_load (link_queue_depth c link_bytes).

(** ** Latency priors *)

(** The map holds an entry for each of the three classes from the start. *)
Abbreviation ClassStats := (Class → Z).
Definition class_stats_default : ClassStats := λ c, class_latency c * 2.

Definition class_observe (c : Class) (sample : Z) (s : ClassStats) : ClassStats :=
  λ c', if decide (c' = c) then (s c * 3 + sample) / 4 else s c'.

Definition faster_or_equal (s : ClassStats) (c : Class) : list Class :=
  sort_by (λ a b, cmp (s a) (s b)) (List.filter (λ c', s c' <=? s c) [Clearnet; I2p; Tor]).

Abbreviation PeerStats := (btree bytes Z).

Definition peer_observe (lbl : bytes) (elapsed groups : Z) (s : PeerStats) : PeerStats :=
  if groups =? 0 then s else
  let sample := elapsed / wrap32 groups in
  bt_insert lbl (match bt_get s lbl with Some prior => (prior * 3 + sample) / 4 | None => sample end) s.

(** ** Scheduling orders *)

Definition group_run (r : range) : list Z := seqZ r.1 (r.2 - r.1).
Definition groups_in (b : GroupBits.t) : list Z := concat (map group_run (GroupBits.ranges b)).

Definition holds (g : Z) (p : PeerHandle) : bool := GroupBits.contains (bits p) g.
Definition holders (peers : list PeerHandle) (g : Z) : Z := blen (List.filter (holds g) peers).

Definition rarest_first_order (needed : GroupBits.t) (peers : list PeerHandle) : list Z :=
  map snd (Ordered.sort (List.filter (λ c, 0 <? c.1) (map (λ g, (holders peers g, g)) (groups_in needed)))).

Definition sequential_order (needed : GroupBits.t) (peers : list PeerHandle) : list Z :=
  Ordered.sort (List.filter (λ g, existsb (holds g) peers) (groups_in needed)).

Definition initial_order (d : Deadline) (needed : GroupBits.t) (peers : list PeerHandle) : list Z :=
  if is_streaming d then sequential_order needed peers else rarest_first_order needed peers.

(** ** Cutting an order into requests *)

(** The inner [while]: extend the run that ends at [last]. *)
Fixpoint extend_run (max start last : Z) (l : list Z) : Z * list Z :=
  match l with
  | g :: l' => if (g =? last + 1) && (last + 1 - start <? max) then extend_run max start g l' else (last, l)
  | [] => (last, [])
  end.

Definition run_bytes (size start last : Z) : range :=
  ((bytes_of_group start size).1, (bytes_of_group last size).2).

(** The outer [while] consumes at least one group, so the length is fuel
    enough. *)
Fixpoint batches_loop (fuel : nat) (groups : list Z) (size max : Z) : list range :=
  match fuel, groups with
  | S fuel, g :: l =>
    let '(last, rest) := extend_run max g g l in
    run_bytes size g last :: batches_loop fuel rest size max
  | _, _ => []
  end.

Definition batch_into_ranges (groups : list Z) (size max : Z) : list range :=
  batches_loop (length groups) groups size max.

Definition holder_ids (peers : list PeerHandle) (g : Z) : list nat :=
  List.filter (λ k, match peers !! k with Some p => holds g p | None => false end) (seq 0 (length peers)).

(** Extend the run while some one peer holds all of it. *)
Fixpoint extend_held (peers : list PeerHandle) (max start last : Z) (ids : list nat) (l : list Z) : Z * list Z :=
  match l with
  | g :: l' =>
    if (g =? last + 1) && (last + 1 - start <? max) then
      match List.filter (λ k, match peers !! k with Some p => holds g p | None => false end) ids with
      | [] => (last, l)
      | next => extend_held peers max start g next l'
      end
    else (last, l)
  | [] => (last, [])
  end.

Fixpoint split_loop (fuel : nat) (groups : list Z) (peers : list PeerHandle) (size max : Z) : list range :=
  match fuel, groups with
  | S fuel, g :: l =>
    match holder_ids peers g with
    | [] => split_loop fuel l peers size max
    | ids =>
      let '(last, rest) := extend_held peers max g g ids l in
      run_bytes size g last :: split_loop fuel rest peers size max
    end
  | _, _ => []
  end.

Definition split_by_holder (groups : list Z) (peers : list PeerHandle) (size max : Z) : list range :=
  split_loop (length groups) groups peers size max.

Definition groups_of (batch : range) : list Z := group_run (groups_for_bytes batch).

Definition bytes_of (size : Z) (groups : list Z) : Z :=
  foldr (λ g n, (bytes_of_group g size).2 - (bytes_of_group g size).1 + n) 0 groups.

(** ** The cursor over the order *)

Fixpoint advance_cursor (remaining : GroupBits.t) (l : list Z) : nat :=
  match l with
  | g :: l => if GroupBits.contains remaining g then O else S (advance_cursor remaining l)
  | [] => O
  end.

(** [window] bounds how many are collected. *)
Fixpoint collect (remaining inflight : GroupBits.t) (window : nat) (l : list Z) : list Z :=
  match l, window with
  | _, O => []
  | [], _ => []
  | g :: l, S w =>
    if GroupBits.contains remaining g && negb (GroupBits.contains inflight g)
    then g :: collect remaining inflight w l else collect remaining inflight window l
  end.

Definition next_unassigned (full_order : list Z) (cursor : nat) (remaining inflight : GroupBits.t) (window : nat)
  : nat * list Z :=
  let cursor := (cursor + advance_cursor remaining (drop cursor full_order))%nat in
  (cursor, collect remaining inflight window (drop cursor full_order)).

(** Groups an object still needs: every group of its size the store lacks. *)
Definition needed_groups (have : GroupBits.t) (size : Z) : GroupBits.t :=
  let n := group_count size in
  let all := if 0 <? n then GroupBits.add GroupBits.new (0, n) else GroupBits.new in
  GroupBits.added_in have all.

(** ** The orders *)

Lemma elem_of_group_run r g : g ∈ group_run r ↔ in_range r g.
Proof. unfold group_run, in_range. rewrite elem_of_seqZ. lia. Qed.

Lemma elem_of_groups_in b g : g ∈ groups_in b ↔ GroupBits.mem b g.
Proof.
  unfold groups_in, GroupBits.mem, has, GroupBits.ranges. induction (GroupBits.runs b) as [|r l IH]; cbn.
  - rewrite elem_of_nil, Exists_nil. done.
  - by rewrite elem_of_app, Exists_cons, elem_of_group_run, IH.
Qed.

Lemma seqZ_sorted m n : StronglySorted Z.lt (seqZ m n).
Proof.
  destruct (Z.le_gt_cases n 0) as [|Hn]; [rewrite seqZ_nil by done; constructor|].
  rewrite <- (Z2Nat.id n) by lia. revert m. induction (Z.to_nat n) as [|k IH]; intros m; [constructor|].
  rewrite seqZ_cons by lia. constructor.
  - replace (Z.pred (Z.of_nat (S k))) with (Z.of_nat k) by lia. apply IH.
  - apply Forall_forall. intros x [??]%elem_of_seqZ. lia.
Qed.

Lemma groups_in_sorted b : GroupBits.wf b → StronglySorted Z.lt (groups_in b).
Proof.
  unfold GroupBits.wf, groups_in, GroupBits.ranges. generalize 0. induction (GroupBits.runs b) as [|[s e] l IH]; intros lo Hw; cbn; [constructor|].
  destruct Hw as (Hlo & Hse & Hw). apply StronglySorted_app. split_and!; [|apply seqZ_sorted|by eapply IH].
  intros x y [??]%elem_of_group_run Hy. cbn [fst snd] in *.
  assert (has l y) as Hin.
  { clear -Hy. induction l as [|r l IH]; cbn in Hy; [by apply elem_of_nil in Hy|].
    unfold has. rewrite Exists_cons. apply elem_of_app in Hy as [?%elem_of_group_run|?]; [by left|right; by apply IH]. }
  pose proof (wf_from_has _ _ _ Hw Hin). lia.
Qed.

Lemma sorted_NoDup l : StronglySorted Z.lt l → NoDup l.
Proof.
  induction 1 as [|x l _ IH Hx]; constructor; [|done]. intros Hin. rewrite Forall_forall in Hx.
  specialize (Hx _ Hin). lia.
Qed.

Lemma holders_pos peers g : 0 < holders peers g ↔ ∃ p, p ∈ peers ∧ holds g p = true.
Proof.
  unfold holders, blen. split.
  - intros H. destruct (List.filter (holds g) peers) as [|p l] eqn:E; [cbn in H; lia|]. exists p.
    apply elem_of_bfilter. rewrite E. left.
  - intros (p & Hp). apply elem_of_bfilter in Hp. destruct (List.filter (holds g) peers); [by apply elem_of_nil in Hp|]. cbn. lia.
Qed.

Lemma existsb_holds peers g : existsb (holds g) peers = true ↔ ∃ p, p ∈ peers ∧ holds g p = true.
Proof. rewrite existsb_exists. by setoid_rewrite list_elem_of_In. Qed.

Lemma tagged_sorted {B} `{Ord B} (f : Z → B) (l : list (B * Z)) :
  Forall (λ c, c.1 = f c.2) l → StronglySorted ole l → StronglySorted (λ a b, ole (f a, a) (f b, b)) (map snd l).
Proof.
  induction l as [|[n g] l IH]; intros Ht Hs; cbn; [constructor|].
  apply Forall_cons in Ht as [Hn Ht]. cbn in Hn. subst n. inversion_clear Hs as [|? ? Hs' Hh]. constructor; [by apply IH|].
  apply Forall_fmap. rewrite Forall_forall in *. intros [n' g'] Hin. cbn. specialize (Ht _ Hin). cbn in Ht. subst n'.
  by apply Hh.
Qed.

Lemma rarest_spec needed peers g :
  g ∈ rarest_first_order needed peers ↔ GroupBits.mem needed g ∧ ∃ p, p ∈ peers ∧ holds g p = true.
Proof.
  unfold rarest_first_order. rewrite list_elem_of_fmap. rewrite <- holders_pos, <- elem_of_groups_in. split.
  - intros ([n g'] & -> & Hin). rewrite sort_perm, elem_of_bfilter, list_elem_of_fmap in Hin.
    destruct Hin as ((x & [= -> ->] & Hx) & Hn). cbn in *. split; [done|]. by apply Z.ltb_lt.
  - intros [Hg Hn]. exists (holders peers g, g). split; [done|].
    rewrite sort_perm, elem_of_bfilter, list_elem_of_fmap. split; [by exists g|]. by apply Z.ltb_lt.
Qed.

Lemma rarest_tagged needed peers :
  Forall (λ c, c.1 = holders peers c.2)
    (Ordered.sort (List.filter (λ c, 0 <? c.1) (map (λ g, (holders peers g, g)) (groups_in needed)))).
Proof.
  apply Forall_forall. intros c. rewrite sort_perm, elem_of_bfilter, list_elem_of_fmap. by intros ((g & -> & _) & _).
Qed.

Lemma rarest_NoDup needed peers : GroupBits.wf needed → NoDup (rarest_first_order needed peers).
Proof.
  intros Hw. unfold rarest_first_order.
  assert (map snd (Ordered.sort (List.filter (λ c, 0 <? c.1) (map (λ g, (holders peers g, g)) (groups_in needed)))) ≡ₚ
    List.filter (λ g, 0 <? holders peers g) (groups_in needed)) as ->.
  { rewrite (Permutation_map snd (sort_perm _)). apply reflexive_eq.
    induction (groups_in needed) as [|g l IH]; [done|]. cbn. destruct (0 <? holders peers g); cbn; by rewrite IH. }
  apply NoDup_ListNoDup, List.NoDup_filter, NoDup_ListNoDup, sorted_NoDup, groups_in_sorted, Hw.
Qed.

Lemma sequential_spec needed peers g :
  g ∈ sequential_order needed peers ↔ GroupBits.mem needed g ∧ ∃ p, p ∈ peers ∧ holds g p = true.
Proof. unfold sequential_order. by rewrite sort_perm, elem_of_bfilter, elem_of_groups_in, existsb_holds. Qed.

Lemma sequential_sorted needed peers : GroupBits.wf needed → StronglySorted Z.lt (sequential_order needed peers).
Proof.
  intros Hw. unfold sequential_order. pose proof (groups_in_sorted _ Hw) as Hs.
  assert (StronglySorted Z.lt (List.filter (λ g, existsb (holds g) peers) (groups_in needed))) as Hf.
  { induction Hs as [|x l _ IH Hx]; cbn; [constructor|]. destruct (existsb _ _); [|done]. constructor; [done|].
    rewrite Forall_forall in *. intros y [Hy _]%elem_of_bfilter. auto. }
  unfold Ordered.sort. rewrite sort_by_id; [done|]. clear -Hf. induction Hf as [|x l _ IH Hx]; constructor; [done|].
  eapply Forall_impl; [exact Hx|]. intros y Hxy Hc. cbn in Hc. by apply Z.compare_gt_iff in Hc; lia.
Qed.

(** Both scheduling orders list exactly the needed groups that some peer
    holds, each once: rarest first by number of holders, then index; play order
    by index. Neither drops an obtainable group nor schedules an unobtainable
    one, so a fetch can only end short on groups nobody has. *)
Theorem orders_correct needed peers :
  GroupBits.wf needed → Forall (λ p, GroupBits.wf (bits p)) peers →
  let obtainable := λ g, GroupBits.mem needed g ∧ ∃ p, p ∈ peers ∧ GroupBits.mem (bits p) g in
  let R := rarest_first_order needed peers in
  let S := sequential_order needed peers in
  (∀ g, g ∈ R ↔ obtainable g) ∧ NoDup R ∧
  StronglySorted (λ a b, ole (holders peers a, a) (holders peers b, b)) R ∧
  (∀ g, g ∈ S ↔ obtainable g) ∧ StronglySorted Z.lt S ∧ R ≡ₚ S.
Proof.
  intros Hw Hp obtainable R S.
  assert (∀ g, (∃ p, p ∈ peers ∧ holds g p = true) ↔ ∃ p, p ∈ peers ∧ GroupBits.mem (bits p) g) as Hh.
  { intros g. rewrite Forall_forall in Hp. split; intros (p & Hin & Hb); exists p; (split; [done|]);
      apply GroupBits.contains_spec; auto. }
  split_and!.
  - intros g. unfold R, obtainable. by rewrite rarest_spec, Hh.
  - by apply rarest_NoDup.
  - apply (tagged_sorted (holders peers)); [apply rarest_tagged|apply sort_sorted].
  - intros g. unfold S, obtainable. by rewrite sequential_spec, Hh.
  - by apply sequential_sorted.
  - apply NoDup_Permutation; [by apply rarest_NoDup|by apply sorted_NoDup, sequential_sorted|].
    intros g. unfold R, S. by rewrite rarest_spec, sequential_spec.
Qed.

(** ** The cuts *)

Lemma seqZ_last a b l : a <= b → seqZ a (b - a) ++ b :: l = seqZ a (b + 1 - a) ++ l.
Proof.
  intros Hab. replace (b + 1 - a) with ((b - a) + 1) by lia. rewrite seqZ_app by lia.
  rewrite <- app_assoc. f_equal. replace (a + (b - a)) with b by lia. done.
Qed.

Lemma groups_of_run size a b : 0 <= a <= b → b < group_count size →
  groups_of (run_bytes size a b) = seqZ a (b + 1 - a) ∧ (run_bytes size a b).1 < (run_bytes size a b).2 <= size.
Proof.
  intros Ha Hb. unfold group_count, div_ceil in Hb. unfold groups_of, run_bytes, bytes_of_group, groups_for_bytes, div_ceil.
  cbn [fst snd]. assert (b * GROUP_BYTES < size).
  { assert (b + 1 <= (size + GROUP_BYTES - 1) / GROUP_BYTES) as Hl by lia. unfold GROUP_BYTES in *.
    apply Z.mul_le_mono_nonneg_r with (p := 16384) in Hl; [|lia].
    pose proof (Z.mul_div_le (size + 16384 - 1) 16384 ltac:(lia)). lia. }
  assert (a * GROUP_BYTES <= b * GROUP_BYTES) by (unfold GROUP_BYTES; lia).
  rewrite (Z.min_l (a * GROUP_BYTES)) by lia.
  assert (a * GROUP_BYTES < Z.min ((b + 1) * GROUP_BYTES) size) by (unfold GROUP_BYTES in *; lia).
  split; [|lia]. rewrite (proj2 (Z.leb_gt _ _)) by done. unfold group_run. cbn [fst snd].
  rewrite Z.div_mul by done. f_equal.
  enough ((Z.min ((b + 1) * GROUP_BYTES) size + GROUP_BYTES - 1) / GROUP_BYTES = b + 1) by lia.
  symmetry. apply (Z.div_unique _ _ _ (Z.min ((b + 1) * GROUP_BYTES) size - b * GROUP_BYTES - 1));
    unfold GROUP_BYTES in *; lia.
Qed.

Lemma seqZ_step last e : last < e → seqZ (last + 1) (e - last) = last + 1 :: seqZ (last + 1 + 1) (e - (last + 1)).
Proof. intros He. rewrite (seqZ_cons (last + 1)) by lia. f_equal. f_equal; lia. Qed.

Lemma extend_run_spec max start last l : let '(e, rest) := extend_run max start last l in
  last <= e ∧ l = seqZ (last + 1) (e - last) ++ rest ∧ (last + 1 - start <= max → e + 1 - start <= max).
Proof.
  revert last; induction l as [|g l IH]; intros last; cbn [extend_run].
  - split_and!; [lia| |done]. by rewrite seqZ_nil by lia.
  - destruct ((g =? last + 1) && (last + 1 - start <? max)) eqn:E.
    + apply andb_true_iff in E as [->%Z.eqb_eq Hm%Z.ltb_lt]. specialize (IH (last + 1)).
      destruct (extend_run max start (last + 1) l) as [e rest]. destruct IH as (H1 & -> & H3).
      split_and!; [lia|by rewrite (seqZ_step last) by lia|lia].
    + split_and!; [lia| |done]. by rewrite seqZ_nil by lia.
Qed.

Lemma extend_held_spec peers max start last ids l : ids ≠ [] →
  let '(e, rest) := extend_held peers max start last ids l in
  last <= e ∧ l = seqZ (last + 1) (e - last) ++ rest ∧ (last + 1 - start <= max → e + 1 - start <= max) ∧
  ∃ k, k ∈ ids ∧ ∀ g, last < g <= e → ∃ p, peers !! k = Some p ∧ holds g p = true.
Proof.
  assert (∀ ids : list nat, ids ≠ [] → ∃ k, k ∈ ids) as Hne by (intros [|k ?] ?; [done|exists k; left]).
  revert last ids; induction l as [|g l IH]; intros last ids Hids; cbn [extend_held].
  - split_and!; [lia|by rewrite seqZ_nil by lia|done|]. destruct (Hne ids Hids) as [k ?]. exists k. split; [done|lia].
  - assert (∀ r, last <= last ∧ g :: l = seqZ (last + 1) (last - last) ++ g :: l ∧ (r → r) ∧
      ∃ k, k ∈ ids ∧ ∀ g, last < g <= last → ∃ p, peers !! k = Some p ∧ holds g p = true) as Hstop.
    { intros r. split_and!; [lia|by rewrite seqZ_nil by lia|done|]. destruct (Hne ids Hids) as [k ?]. exists k. split; [done|lia]. }
    destruct ((g =? last + 1) && (last + 1 - start <? max)) eqn:E; [|apply Hstop].
    destruct (List.filter _ ids) as [|k0 next] eqn:Ef; [apply Hstop|].
    apply andb_true_iff in E as [->%Z.eqb_eq Hm%Z.ltb_lt]. specialize (IH (last + 1) (k0 :: next) ltac:(done)).
    destruct (extend_held peers max start (last + 1) (k0 :: next) l) as [e rest].
    destruct IH as (H1 & -> & H3 & k & Hk & Hh). split_and!; [lia|by rewrite (seqZ_step last) by lia|lia|].
    rewrite <- Ef in Hk. apply elem_of_bfilter in Hk as [Hk Hp]. exists k. split; [done|].
    intros x Hx. destruct (decide (x = last + 1)) as [->|]; [|apply Hh; lia].
    destruct (peers !! k) as [p|]; [|done]. by exists p.
Qed.

Lemma holder_ids_spec peers g k : k ∈ holder_ids peers g ↔ ∃ p, peers !! k = Some p ∧ holds g p = true.
Proof.
  unfold holder_ids. rewrite elem_of_bfilter, elem_of_seq. split.
  - intros [_ H]. destruct (peers !! k) as [p|]; [|done]. by exists p.
  - intros (p & Hk & Hh). rewrite Hk. split; [|done]. apply lookup_lt_Some in Hk. lia.
Qed.

(** A request: a non-empty run of at most [max] groups inside the object. *)
Definition request_ok (size max : Z) (r : range) : Prop :=
  0 < blen (groups_of r) <= max ∧ 0 <= r.1 < r.2 ∧ r.2 <= size.

(** The byte range of groups [a] to [b] of the object. *)
Definition cut (size max : Z) (r : range) : Prop :=
  ∃ a b, r = run_bytes size a b ∧ 0 <= a <= b ∧ b < group_count size ∧ b + 1 - a <= max.

Lemma cut_request size max r : cut size max r → request_ok size max r.
Proof.
  intros (a & b & -> & Ha & Hb & Hm). destruct (groups_of_run size a b Ha Hb) as [Hg Hr]. unfold request_ok. rewrite Hg.
  unfold blen. rewrite length_seqZ. split; [lia|]. split; [|lia]. split; [|lia].
  unfold run_bytes, bytes_of_group in *. cbn [fst snd] in *. unfold GROUP_BYTES in *. lia.
Qed.

Lemma Forall_in_run (P : Z → Prop) last n rest g : Forall P (g :: seqZ (last + 1) n ++ rest) → last = g →
  0 <= n → P (last + n) ∧ Forall P rest.
Proof.
  intros HF -> Hn. apply Forall_cons in HF as [Hg HF]. apply Forall_app in HF as [Hs Hr]. split; [|done].
  destruct (decide (n = 0)) as [->|]; [by rewrite Z.add_0_r|]. rewrite Forall_forall in Hs. apply Hs, elem_of_seqZ. lia.
Qed.

Lemma batches_loop_spec fuel groups size max :
  (length groups <= fuel)%nat → 1 <= max → Forall (λ g, 0 <= g < group_count size) groups →
  concat (map groups_of (batches_loop fuel groups size max)) = groups ∧
  Forall (cut size max) (batches_loop fuel groups size max).
Proof.
  intros Hf Hm. revert groups Hf; induction fuel as [|fuel IH]; intros [|g l] Hf HF; cbn [batches_loop]; try by split.
  { cbn in Hf. lia. }
  pose proof (extend_run_spec max g g l) as Hx. destruct (extend_run max g g l) as [e rest].
  destruct Hx as (H1 & Hl & H3). rewrite Hl in HF. apply Forall_in_run in HF as HF'; [|done|lia].
  apply Forall_cons in HF as [Hg _]. destruct HF' as [He Hr]. replace (g + (e - g)) with e in He by lia.
  cbn in Hf. rewrite Hl, length_app in Hf. destruct (IH rest) as [I1 I2]; [lia|done|]. cbn [map concat]. split.
  - rewrite I1, (proj1 (groups_of_run size g e ltac:(lia) ltac:(lia))), Hl by done.
    rewrite (seqZ_cons g) by lia. cbn. f_equal. f_equal. f_equal; lia.
  - constructor; [|done]. exists g, e. split_and!; [done|lia..].
Qed.

(** The common holder of a request. *)
Definition one_holder (peers : list PeerHandle) (r : range) : Prop :=
  ∃ p, p ∈ peers ∧ Forall (λ g, holds g p = true) (groups_of r).

Lemma split_loop_spec fuel groups peers size max :
  (length groups <= fuel)%nat → 1 <= max → Forall (λ g, 0 <= g < group_count size) groups →
  concat (map groups_of (split_loop fuel groups peers size max)) = List.filter (λ g, existsb (holds g) peers) groups ∧
  Forall (λ r, cut size max r ∧ one_holder peers r) (split_loop fuel groups peers size max).
Proof.
  intros Hf Hm. revert groups Hf; induction fuel as [|fuel IH]; intros [|g l] Hf HF; cbn [split_loop]; try by split.
  { cbn in Hf. lia. }
  cbn in Hf. apply Forall_cons in HF as HF0. destruct HF0 as [Hg HFl]. cbn [List.filter].
  destruct (holder_ids peers g) as [|k0 ids0] eqn:Ei.
  { assert (existsb (holds g) peers = false) as ->; [|by apply IH; [lia|]].
    apply not_true_iff_false. intros (p & Hp & Hh)%existsb_holds. apply list_elem_of_lookup in Hp as [k Hk].
    apply (not_elem_of_nil k). rewrite <- Ei. apply holder_ids_spec. by exists p. }
  rewrite <- Ei. assert (holder_ids peers g ≠ []) as Hids by (by rewrite Ei).
  pose proof (extend_held_spec peers max g g _ l Hids) as Hx. destruct (extend_held peers max g g _ l) as [e rest].
  destruct Hx as (H1 & Hl & H3 & k & Hk & Hh). apply holder_ids_spec in Hk as (p & Hkp & Hpg).
  assert (∀ x, g <= x <= e → holds x p = true) as Hall.
  { intros x Hx. destruct (decide (x = g)) as [->|]; [done|]. destruct (Hh x) as (p' & Hp' & ?); [lia|]. congruence. }
  assert (p ∈ peers) as Hin by by eapply list_elem_of_lookup_2.
  rewrite Hl in HF. apply Forall_in_run in HF as [He Hr]; [|done|lia]. replace (g + (e - g)) with e in He by lia.
  rewrite Hl, length_app in Hf. destruct (IH rest) as [I1 I2]; [lia|done|]. cbn [map concat].
  destruct (groups_of_run size g e) as [Hgo _]; [lia..|]. split.
  - rewrite I1, Hgo. rewrite (proj2 (existsb_holds peers g)) by by exists p. rewrite Hl, List.filter_app, (seqZ_cons g) by lia.
    cbn. f_equal. f_equal.
    replace (Z.succ g) with (g + 1) by lia. replace (Z.pred (e + 1 - g)) with (e - g) by lia.
    symmetry. apply bfilter_true, forallb_forall. intros x [Hx1 Hx2]%list_elem_of_In%elem_of_seqZ.
    apply existsb_holds. exists p. split; [done|]. apply Hall. lia.
  - constructor; [|done]. split; [exists g, e; split_and!; [done|lia..]|]. exists p. split; [done|]. rewrite Hgo.
    apply Forall_forall. intros x [??]%elem_of_seqZ. apply Hall. lia.
Qed.

(** Cutting an order into requests loses nothing and repeats nothing: the
    groups of the cut ranges, in order, are exactly the order's; the split by
    holder keeps exactly the groups some peer holds, and each of its ranges
    has one peer holding all of it; every range is a non-empty run of at most
    [max] groups inside the object. *)
Theorem batches_correct groups peers size max :
  1 <= max → Forall (λ g, 0 <= g < group_count size) groups →
  concat (map groups_of (batch_into_ranges groups size max)) = groups ∧
  Forall (request_ok size max) (batch_into_ranges groups size max) ∧
  concat (map groups_of (split_by_holder groups peers size max)) =
    List.filter (λ g, existsb (holds g) peers) groups ∧
  Forall (λ r, request_ok size max r ∧ one_holder peers r) (split_by_holder groups peers size max).
Proof.
  intros Hm HF. destruct (batches_loop_spec (length groups) groups size max) as [B1 B2]; [done..|].
  destruct (split_loop_spec (length groups) groups peers size max) as [S1 S2]; [done..|]. split_and!; [done| |done|].
  - eapply Forall_impl; [exact B2|]. apply cut_request.
  - eapply Forall_impl; [exact S2|]. intros r [Hr Hh]. split; [by apply cut_request|done].
Qed.

(** ** Witnesses *)

Definition low_peer : PeerHandle := mkPeer 0 Clearnet (GroupBits.mk [(0, 3)]) [Byte.x61].
Definition high_peer : PeerHandle := mkPeer 1 Tor (GroupBits.mk [(2, 6)]) [Byte.x62].

Lemma orders_correct_witness :
  rarest_first_order (GroupBits.mk [(0, 6)]) [low_peer; high_peer] = [0; 1; 3; 4; 5; 2] ∧
  rarest_first_order (GroupBits.mk [(0, 6)]) [low_peer; high_peer] ≡ₚ
  sequential_order (GroupBits.mk [(0, 6)]) [low_peer; high_peer].
Proof.
  split; [reflexivity|].
  refine (proj2 (proj2 (proj2 (proj2 (proj2 (orders_correct (GroupBits.mk [(0, 6)]) [low_peer; high_peer] _ _)))))).
  - unfold GroupBits.wf. cbn. lia.
  - repeat constructor; unfold GroupBits.wf; cbn; lia.
Defined.

Lemma batches_correct_witness :
  split_by_holder [0; 1; 2; 3; 7] [low_peer; high_peer] (8 * GROUP_BYTES) 64 = [(0, 3 * GROUP_BYTES); (3 * GROUP_BYTES, 4 * GROUP_BYTES)] ∧
  concat (map groups_of (split_by_holder [0; 1; 2; 3; 7] [low_peer; high_peer] (8 * GROUP_BYTES) 64)) = [0; 1; 2; 3].
Proof.
  split; [reflexivity|].
  refine (proj1 (proj2 (proj2 (batches_correct [0; 1; 2; 3; 7] [low_peer; high_peer] (8 * GROUP_BYTES) 64 _ _)))).
  - lia.
  - change (group_count (8 * GROUP_BYTES)) with 8. repeat constructor; lia.
Defined.
