(* ===== verification/Swarm.v ===== *)
(** * The fetch loop ([crates/epix-edx/src/sched.rs], second half)

    The sliding window of one fetch: ledgers per peer, the batches in flight,
    peer picking, the outcome of racing a batch, and the loop that refills the
    window and folds outcomes back. The six parallel ledger vectors of [Window]
    are one list of rows, indexed by roster slot as there. The clock, the
    results of the network races and the queue other fetches put on a link are
    inputs of each step, so a theorem about every run is about every schedule. *)
From S2P Require Import Prelude Ordered Bitfield Sched.
From Stdlib Require Import ZArith Lia.
From stdpp Require Import base list sorting list_numbers.
#[local] Open Scope Z_scope.

(** ** State *)

Record Slot := mkSlot {
  load : Z; fails : Z; depth : Z; busy : Z; cooldown : option Z; probed : bool
}.

(** A batch future: its request, the groups it reserved, the peer it was
    booked onto, the queue depth its windows scale by. *)
Record Batch := mkBatch { b_range : range; b_groups : list Z; b_primary : nat; b_queued : Z }.

Record Window := mkWindow { slots : list Slot; inflight : GroupBits.t; futs : list Batch }.

Record FetchReport := mkReport {
  groups_fetched : Z; requests_issued : Z; duplicates_issued : Z; by_peer : btree bytes Z
}.

(** The locals of [fetch_growable], the roster, and the swarm's priors. *)
Record Fetch := mkFetch {
  win : Window;
  remaining : GroupBits.t;
  full_order : list Z;
  cursor : nat;
  batch_groups : Z;
  roster : list PeerHandle;
  stats : ClassStats;
  peer_stats : PeerStats;
  report : FetchReport;
  joining : bool;
  sat_waits : Z;
  join_waits : Z
}.

Definition set_win (w : Window) (s : Fetch) : Fetch :=
  mkFetch w (remaining s) (full_order s) (cursor s) (batch_groups s) (roster s) (stats s) (peer_stats s)
    (report s) (joining s) (sat_waits s) (join_waits s).
Definition set_cursor (c : nat) (s : Fetch) : Fetch :=
  mkFetch (win s) (remaining s) (full_order s) c (batch_groups s) (roster s) (stats s) (peer_stats s)
    (report s) (joining s) (sat_waits s) (join_waits s).
Definition set_report (r : FetchReport) (s : Fetch) : Fetch :=
  mkFetch (win s) (remaining s) (full_order s) (cursor s) (batch_groups s) (roster s) (stats s) (peer_stats s)
    r (joining s) (sat_waits s) (join_waits s).
Definition set_waits (sat join : Z) (s : Fetch) : Fetch :=
  mkFetch (win s) (remaining s) (full_order s) (cursor s) (batch_groups s) (roster s) (stats s) (peer_stats s)
    (report s) (joining s) sat join.
Definition set_joining (j : bool) (s : Fetch) : Fetch :=
  mkFetch (win s) (remaining s) (full_order s) (cursor s) (batch_groups s) (roster s) (stats s) (peer_stats s)
    (report s) j (sat_waits s) (join_waits s).

Definition upd_slot (i : nat) (f : Slot → Slot) (w : Window) : Window :=
  mkWindow (alter f i (slots w)) (inflight w) (futs w).

Definition set_load (n : Z) (x : Slot) : Slot := mkSlot n (fails x) (depth x) (busy x) (cooldown x) (probed x).
Definition set_fails (n : Z) (x : Slot) : Slot := mkSlot (load x) n (depth x) (busy x) (cooldown x) (probed x).
Definition set_busy (n : Z) (x : Slot) : Slot := mkSlot (load x) (fails x) (depth x) n (cooldown x) (probed x).
Definition set_cooldown (t : option Z) (x : Slot) : Slot := mkSlot (load x) (fails x) (depth x) (busy x) t (probed x).
Definition set_probed (x : Slot) : Slot := mkSlot (load x) (fails x) (depth x) (busy x) (cooldown x) true.

Definition new_slot (c : Class) : Slot := mkSlot 0 0 (pipeline_depth c) 0 None false.

Definition window_new (peers : list PeerHandle) : Window :=
  mkWindow (map (λ p, new_slot (class p)) peers) GroupBits.new [].

Definition grow (c : Class) (w : Window) : Window :=
  mkWindow (slots w ++ [new_slot c]) (inflight w) (futs w).

(** ** Who may be handed work *)

Definition cooled (now : Z) (t : option Z) : bool := match t with Some t => t <=? now | None => true end.

Definition schedulable (now : Z) (x : Slot) : bool := (fails x <? PEER_FAIL_LIMIT) && cooled now (cooldown x).

Definition free_slots (now : Z) (w : Window) : Z :=
  foldr Z.add 0 (map (λ x, sat_sub (depth x) (load x)) (List.filter (schedulable now) (slots w))).

(** A link's queue: what other fetches have on it ([ext]: requests and bytes)
    plus this fetch's batches in flight, whose charges are refunded when the
    batch future goes. *)
Section fetch.
Context (size : Z) (deadline : Deadline).

Definition on_link (s : Fetch) (c : nat) (b : Batch) : bool :=
  match roster s !! b_primary b with Some p => bool_decide (conn p = c) | None => false end.

Definition queued_requests (ext : nat → Z * Z) (s : Fetch) (c : nat) : Z :=
  (ext c).1 + blen (List.filter (on_link s c) (futs (win s))).

Definition queued_bytes (ext : nat → Z * Z) (s : Fetch) (c : nat) : Z :=
  (ext c).2 + foldr Z.add 0 (map (λ b, bytes_of size (b_groups b)) (List.filter (on_link s c) (futs (win s)))).

Definition link_full (ext : nat → Z * Z) (s : Fetch) (p : PeerHandle) : bool :=
  LINK_REQUEST_LIMIT <=? queued_requests ext s (conn p).

Definition awaiting_link_room (ext : nat → Z * Z) (now : Z) (s : Fetch) : bool :=
  existsb (λ xp : Slot * PeerHandle,
      schedulable now xp.1 && (load xp.1 <? depth xp.1) && link_full ext s xp.2)
    (zip (slots (win s)) (roster s)).

Definition opt_min (a b : option Z) : option Z :=
  match a, b with Some a, Some b => Some (Z.min a b) | Some a, None => Some a | None, b => b end.

Definition cooling (now : Z) (x : Slot) : bool :=
  (fails x <? PEER_FAIL_LIMIT) && match cooldown x with Some t => now <? t | None => false end.

Definition next_retry (now : Z) (w : Window) : option Z :=
  foldr opt_min None (map cooldown (List.filter (cooling now) (slots w))).

(** The candidates for [groups]: index, ledger row and handle. *)
Definition candidate : Type := nat * (Slot * PeerHandle).

Definition eligible (ext : nat → Z * Z) (now : Z) (groups : list Z) (s : Fetch) (c : candidate) : bool :=
  let '(_, (x, p)) := c in
  (fails x <? PEER_FAIL_LIMIT) && cooled now (cooldown x) && (load x <? pipeline_depth (class p)) &&
  (is_streaming deadline || negb (link_full ext s p)) && forallb (λ g, holds g p) groups.

Definition pick_key (s : Fetch) (c : candidate) : Z * Z * Z :=
  let '(_, (x, p)) := c in
  if is_streaming deadline
  then (fails x, default (stats s (class p)) (bt_get (peer_stats s) (label p)), load x)
  else (fails x, load x, stats s (class p)).

Definition candidates (s : Fetch) : list candidate :=
  let rows := zip (slots (win s)) (roster s) in zip (seq 0 (length rows)) rows.

Definition pick_peer (ext : nat → Z * Z) (now : Z) (groups : list Z) (s : Fetch) : option nat :=
  fst <$> min_by (λ a b, cmp (pick_key s a) (pick_key s b)) (List.filter (eligible ext now groups s) (candidates s)).

(** ** Booking *)

Definition bump_requests (r : FetchReport) : FetchReport :=
  mkReport (groups_fetched r) (requests_issued r + 1) (duplicates_issued r) (by_peer r).

Definition reserve (b : GroupBits.t) (groups : list Z) : GroupBits.t :=
  foldl (λ b g, GroupBits.add b (g, g + 1)) b groups.
Definition unreserve (b : GroupBits.t) (groups : list Z) : GroupBits.t :=
  foldl (λ b g, GroupBits.remove b (g, g + 1)) b groups.

(** Trim to the picked peer's own request size. *)
Definition trim (p : PeerHandle) (batch : range) (groups : list Z) : range * list Z :=
  let max := Z.to_nat (groups_per_request (class p)) in
  if (max <? length groups)%nat then
    let groups := take max groups in
    ((batch.1, (bytes_of_group (List.last groups 0) size).2), groups)
  else (batch, groups).

Definition schedule (ext : nat → Z * Z) (batch : range) (groups : list Z) (idx : nat) (s : Fetch) : Fetch :=
  match roster s !! idx with
  | None => s
  | Some p =>
    let '(batch, groups) := trim p batch groups in
    let w := upd_slot idx (λ x, set_load (load x + 1) x) (win s) in
    let own := match slots w !! idx with Some x => load x | None => 0 end in
    let bytes := queued_bytes ext s (conn p) + bytes_of size groups in
    let b := mkBatch batch groups idx (window_queue_depth deadline own (class p) bytes) in
    set_report (bump_requests (report s))
      (set_win (mkWindow (slots w) (reserve (inflight w) groups) (futs w ++ [b])) s)
  end.

Definition assign_split (ext : nat → Z * Z) (now : Z) (bgroups : list Z) (s : Fetch) : bool * Fetch :=
  foldl (λ st sub,
      let sgroups := groups_of sub in
      match pick_peer ext now sgroups st.2 with
      | Some idx => (true, schedule ext sub sgroups idx st.2)
      | None => st
      end)
    (false, s) (split_by_holder bgroups (roster s) size (batch_groups s)).

Definition assign (ext : nat → Z * Z) (now : Z) (batch : range) (s : Fetch) : bool * Fetch :=
  let bgroups := groups_of batch in
  match pick_peer ext now bgroups s with
  | Some idx => (true, schedule ext batch bgroups idx s)
  | None => assign_split ext now bgroups s
  end.

Definition assign_all (ext : nat → Z * Z) (now : Z) (batches : list range) (s : Fetch) : bool * Fetch :=
  foldl (λ st batch, let '(ok, s) := assign ext now batch st.2 in (st.1 || ok, s)) (false, s) batches.

(** One turn of the refill loop; [false] when it breaks. *)
Definition refill_turn (ext : nat → Z * Z) (now : Z) (s : Fetch) : bool * Fetch :=
  let free := free_slots now (win s) in
  if free =? 0 then (false, s) else
  let '(c, order) := next_unassigned (full_order s) (cursor s) (remaining s) (inflight (win s))
                       (Z.to_nat (free * batch_groups s)) in
  let s := set_cursor c s in
  match order with
  | [] => (false, s)
  | _ => assign_all ext now (batch_into_ranges order size (batch_groups s)) s
  end.

(** Every turn that goes around takes a free slot, so their number is fuel
    enough ([refill_fuel]). *)
Fixpoint refill_loop (fuel : nat) (ext : nat → Z * Z) (now : Z) (s : Fetch) : Fetch :=
  match fuel with
  | O => s
  | S fuel => let '(again, s) := refill_turn ext now s in if again then refill_loop fuel ext now s else s
  end.

Definition refill (ext : nat → Z * Z) (now : Z) (s : Fetch) : Fetch :=
  refill_loop (S (Z.to_nat (free_slots now (win s)))) ext now s.

(** ** Outcomes *)

Record BatchOutcome := mkOutcome {
  groups : list Z; landed : list Z; primary : nat; winner : option nat; duplicates : Z;
  elapsed : option Z; failed_peer : option nat; busy_peer : option nat; retry_after : option Z
}.

Definition won (gs : list Z) (prim w : nat) (dups el : Z) : BatchOutcome :=
  mkOutcome gs gs prim (Some w) dups (Some el) None None None.

(** [present]: what the store holds when the batch gives up. *)
Definition batch_failed (present : GroupBits.t) (gs : list Z) (prim : nat) (dups : Z) : BatchOutcome :=
  mkOutcome gs (List.filter (GroupBits.contains present) gs) prim None dups None (Some prim) None None.

Definition batch_busy (present : GroupBits.t) (gs : list Z) (prim : nat) (dups : Z) (retry : option Z) : BatchOutcome :=
  let o := batch_failed present gs prim dups in
  mkOutcome gs (landed o) prim None dups None None (Some prim) retry.

Definition batch_cap (queued : Z) : Z := Z.min (max_wait deadline) MAX_BATCH_WAIT * Z.max queued 1.
Definition batch_stall (c : Class) (queued : Z) : Z :=
  Z.min (stall_window c queued) (batch_cap queued / PRIMARY_BUDGET_DIVISOR).

(** How the primary's part of the race ends, and what the duplicated race
    brings: the winner, if any. *)
Inductive PrimaryEnd := PDone (el : Z) | PError (quota : bool) (retry : option Z) | PStalled | PCap.

Definition race_targets (s : Fetch) (prim : nat) (p : PeerHandle) (gs : list Z) : list nat :=
  take MAX_DUPLICATES (List.filter (λ i, match roster s !! i with
    | Some q => negb (i =? prim)%nat && negb (bool_decide (label q = label p)) &&
        bool_decide (class q ∈ faster_or_equal (stats s) (class p)) && forallb (λ g, holds g q) gs
    | None => false end) (seq 0 (length (roster s)))).

(** Nobody delivered: a strike for the primary, or a cooldown if it refused. *)
Definition refused (b : Batch) (quota : bool) (retry : option Z) (dups : Z) (present : GroupBits.t) : BatchOutcome :=
  if quota then batch_busy present (b_groups b) (b_primary b) dups retry
  else batch_failed present (b_groups b) (b_primary b) dups.

(** Peer [w] delivered in the duplicated race. *)
Definition rescued (b : Batch) (w : nat) (el : Z) (quota : bool) (retry : option Z) (dups : Z) : BatchOutcome :=
  let o := won (b_groups b) (b_primary b) w dups el in
  if (w =? b_primary b)%nat then o
  else if quota then mkOutcome (groups o) (landed o) (primary o) (winner o) dups (elapsed o) None (Some (b_primary b)) retry
  else mkOutcome (groups o) (landed o) (primary o) (winner o) dups (elapsed o) (Some (b_primary b)) None None.

(** [left]: what is left of the cap; [won_by]: the first racer to answer in
    it and when ([None]: all failed, all stalled, or the cap ran out). *)
Definition duplicate_race (s : Fetch) (b : Batch) (p : PeerHandle) (quota : bool) (retry : option Z) (left : Z)
    (won_by : option (nat * Z)) (present : GroupBits.t) : BatchOutcome :=
  let targets := race_targets s (b_primary b) p (b_groups b) in
  if bool_decide (targets = []) || (left =? 0) then refused b quota retry 0 present
  else match won_by with
       | Some (w, el) => rescued b w el quota retry (blen targets)
       | None => refused b quota retry (blen targets) present
       end.

Definition race_batch (s : Fetch) (b : Batch) (p : PeerHandle) (pend : PrimaryEnd) (left : Z)
    (won_by : option (nat * Z)) (present : GroupBits.t) : BatchOutcome :=
  match pend with
  | PDone el => won (b_groups b) (b_primary b) (b_primary b) 0 el
  | PCap => batch_failed present (b_groups b) (b_primary b) 0
  | PError quota retry => duplicate_race s b p quota retry left won_by present
  | PStalled => duplicate_race s b p false None left won_by present
  end.

(** Who can win the duplicated race: a target, or the primary while it is
    still pending. *)
Definition race_winner_ok (s : Fetch) (b : Batch) (p : PeerHandle) (pend : PrimaryEnd) (won_by : option (nat * Z)) : Prop :=
  match won_by with
  | Some (w, el) => w ∈ race_targets s (b_primary b) p (b_groups b) ∨ (w = b_primary b ∧ pend = PStalled)
  | None => True
  end.

Definition release (o : BatchOutcome) (w : Window) : Window :=
  let w := upd_slot (primary o) (λ x, set_load (sat_sub (load x) 1) x) w in
  mkWindow (slots w) (unreserve (inflight w) (groups o)) (futs w).

Definition clamp (lo hi x : Z) : Z := Z.max lo (Z.min hi x).

Definition note_busy (p : nat) (retry : option Z) (now : Z) (w : Window) : Window :=
  upd_slot p (λ x,
    let x := set_busy (sat_add32 (busy x) 1) x in
    if BUSY_LIMIT <=? busy x then set_fails PEER_FAIL_LIMIT x
    else
      let wait := match retry with Some d => clamp BUSY_RETRY_MIN BUSY_RETRY_MAX d | None => BUSY_COOLDOWN end in
      set_cooldown (Some (now + wait)) x) w.

Definition all_others_exhausted (p : nat) (l : list Slot) : bool :=
  forallb (λ jx : nat * Slot, (jx.1 =? p)%nat || (PEER_FAIL_LIMIT <=? fails jx.2)) (zip (seq 0 (length l)) l).

Definition note_failed (p : nat) (peers : list PeerHandle) (now : Z) (w : Window) : Window :=
  let w := upd_slot p (λ x, set_fails (sat_add32 (fails x) 1) x) w in
  match slots w !! p, peers !! p with
  | Some x, Some h =>
    if (PEER_FAIL_LIMIT <=? fails x) && negb (probed x) && all_others_exhausted p (slots w)
    then upd_slot p (λ x, set_cooldown (Some (now + stall_timeout (class h)))
                           (set_fails (PEER_FAIL_LIMIT - 1) (set_probed x))) w
    else w
  | _, _ => w
  end.

Definition note_delivered (p : nat) (w : Window) : Window :=
  upd_slot p (λ x, set_cooldown None (set_busy 0 (set_fails 0 x))) w.

Definition observe_outcome (o : BatchOutcome) (s : Fetch) : Fetch :=
  match winner o, elapsed o with
  | Some w, Some el =>
    match roster s !! w with
    | Some p => mkFetch (win s) (remaining s) (full_order s) (cursor s) (batch_groups s) (roster s)
        (class_observe (class p) el (stats s)) (peer_observe (label p) el (blen (landed o)) (peer_stats s))
        (report s) (joining s) (sat_waits s) (join_waits s)
    | None => s
    end
  | _, _ => s
  end.

Definition report_outcome (o : BatchOutcome) (peers : list PeerHandle) (r : FetchReport) : FetchReport :=
  mkReport (groups_fetched r + blen (landed o)) (requests_issued r) (duplicates_issued r + duplicates o)
    (match winner o with
     | Some w => match peers !! w with
                 | Some p => bt_upsert (λ n, n + blen (landed o)) (label p) (blen (landed o)) (by_peer r)
                 | None => by_peer r
                 end
     | None => by_peer r
     end).

Definition apply_ledger (o : BatchOutcome) (peers : list PeerHandle) (now : Z) (w : Window) : Window :=
  let w := match busy_peer o with Some p => note_busy p (retry_after o) now w | None => w end in
  let w := match failed_peer o with Some p => note_failed p peers now w | None => w end in
  match winner o with Some p => note_delivered p w | None => w end.

Definition apply_outcome (o : BatchOutcome) (now : Z) (s : Fetch) : Fetch :=
  let s := observe_outcome o s in
  mkFetch (apply_ledger o (roster s) now (win s)) (unreserve (remaining s) (landed o))
    (full_order s) (cursor s) (batch_groups s) (roster s) (stats s) (peer_stats s)
    (report_outcome o (roster s) (report s)) (joining s) (sat_waits s) (join_waits s).

(** ** Joining and idling *)

Definition admit_joiner (closed : bool) (h : PeerHandle) (s : Fetch) : Fetch :=
  if closed then s else
  let fresh := List.filter (λ g, holds g h && negb (existsb (holds g) (roster s))) (groups_in (remaining s)) in
  mkFetch (grow (class h) (win s)) (remaining s) (full_order s ++ fresh) (cursor s)
    (Z.max (batch_groups s) (groups_per_request (class h))) (roster s ++ [h]) (stats s) (peer_stats s)
    (report s) (joining s) (sat_waits s) (join_waits s).

(** [idle_step] up to its wait: [None] aborts, otherwise the counters and the
    instant to wait for. *)
Definition idle_wait (ext : nat → Z * Z) (now : Z) (s : Fetch) : option (Z * Fetch) :=
  if is_streaming deadline then None else
  let '(saturated, sat) :=
    if (sat_waits s <? LINK_SATURATION_PATIENCE) && awaiting_link_room ext now s
    then (Some (now + LINK_SATURATION_RETRY), sat_waits s + 1) else (None, sat_waits s) in
  match opt_min (next_retry now (win s)) saturated with
  | Some until => Some (until, set_waits sat (join_waits s) s)
  | None =>
    if negb (joining s) then None
    else if JOIN_WAIT_PATIENCE <=? join_waits s then None
    else Some (now + JOIN_WAIT_TICK, set_waits sat (join_waits s + 1) s)
  end.

Definition fetch_start (needed : GroupBits.t) (peers : list PeerHandle) (st : ClassStats) (ps : PeerStats) (frozen : bool) : Fetch :=
  mkFetch (window_new peers) needed (initial_order deadline needed peers) 0 (batch_groups_for peers) peers st ps
    (mkReport 0 0 0 []) (negb frozen) 0 0.

(** A batch future resolves: it leaves the set, its slot and groups are given
    back, its outcome is folded in. *)
Definition finish (k : nat) (o : BatchOutcome) (now : Z) (s : Fetch) : Fetch :=
  let w := mkWindow (slots (win s)) (inflight (win s)) (delete k (futs (win s))) in
  set_waits 0 0 (apply_outcome o now (set_win (release o w) s)).
End fetch.

(** ** Reserving groups *)

Lemma reserve_spec b gs : GroupBits.wf b → Forall (λ g, 0 <= g) gs →
  GroupBits.wf (reserve b gs) ∧ ∀ g, GroupBits.mem (reserve b gs) g ↔ GroupBits.mem b g ∨ g ∈ gs.
Proof.
  unfold reserve. revert b; induction gs as [|x gs IH]; intros b Hw Hg; cbn [foldl].
  - split; [done|]. intros g. rewrite elem_of_nil. tauto.
  - apply Forall_cons in Hg as [Hx Hg]. destruct (GroupBits.add_spec b (x, x + 1) Hw Hx) as [W1 M1].
    destruct (IH _ W1 Hg) as [W2 M2]. split; [done|]. intros g. rewrite M2, M1, elem_of_cons.
    unfold in_range. cbn [fst snd]. assert (x <= g < x + 1 ↔ g = x) by lia. tauto.
Qed.

Lemma unreserve_spec b gs : GroupBits.wf b →
  GroupBits.wf (unreserve b gs) ∧ ∀ g, GroupBits.mem (unreserve b gs) g ↔ GroupBits.mem b g ∧ g ∉ gs.
Proof.
  unfold unreserve. revert b; induction gs as [|x gs IH]; intros b Hw; cbn [foldl].
  - split; [done|]. intros g. rewrite elem_of_nil. tauto.
  - destruct (GroupBits.remove_spec b (x, x + 1) Hw) as [W1 M1]. destruct (IH _ W1) as [W2 M2].
    split; [done|]. intros g. rewrite M2, M1, elem_of_cons. unfold in_range. cbn [fst snd].
    assert (x <= g < x + 1 ↔ g = x) by lia. tauto.
Qed.

(** ** Picking *)

Lemma elem_of_candidates s i x p :
  (i, (x, p)) ∈ candidates s ↔ slots (win s) !! i = Some x ∧ roster s !! i = Some p.
Proof.
  unfold candidates. set (rows := zip (slots (win s)) (roster s)).
  assert (∀ k, rows !! k = Some (x, p) ↔ slots (win s) !! k = Some x ∧ roster s !! k = Some p) as Hr.
  { intros k. unfold rows. rewrite lookup_zip_with_Some. split.
    - intros (a & b & [= -> ->] & ? & ?). done.
    - intros [??]. by exists x, p. }
  rewrite list_elem_of_lookup. rewrite <- Hr. split.
  - intros [k Hk]. apply lookup_zip_with_Some in Hk as (j & y & [= -> ->] & Hj & Hy).
    apply lookup_seq in Hj as [-> _]. done.
  - intros Hi. exists i. apply lookup_zip_with_Some. exists i, (x, p). split_and!; [done| |done].
    apply lookup_seq. split; [done|]. by eapply lookup_lt_Some.
Qed.

Section facts.
Context (size : Z) (deadline : Deadline).

Lemma pick_peer_spec ext now gs s idx : pick_peer deadline ext now gs s = Some idx →
  ∃ x p, slots (win s) !! idx = Some x ∧ roster s !! idx = Some p ∧ schedulable now x = true ∧
    load x < pipeline_depth (class p) ∧ Forall (λ g, holds g p = true) gs.
Proof.
  unfold pick_peer. destruct (min_by _ _) as [[i [x p]]|] eqn:E; [|done]. intros [= <-].
  apply min_by_elem, elem_of_bfilter in E as [Hin He]. apply elem_of_candidates in Hin as [Hx Hp].
  exists x, p. unfold eligible in He. rewrite !andb_true_iff in He. destruct He as ((((H1 & H2) & H3) & _) & H5).
  split_and!; [done|done|unfold schedulable; by rewrite H1, H2|by apply Z.ltb_lt|]. apply Forall_forall. intros g Hg.
  rewrite forallb_forall in H5. by apply H5, list_elem_of_In.
Qed.

(** Nothing is picked only when nobody is eligible. *)
Lemma pick_peer_None ext now gs s : pick_peer deadline ext now gs s = None →
  ∀ c, c ∈ candidates s → eligible deadline ext now gs s c = false.
Proof.
  unfold pick_peer. destruct (min_by _ _) eqn:E; [done|]. intros _ c Hc. apply min_by_None in E.
  destruct (eligible _ _ _ _ _ c) eqn:He; [|done]. exfalso. apply (not_elem_of_nil c). rewrite <- E.
  by apply elem_of_bfilter.
Qed.

(** ** The invariant *)

Definition reserved (w : Window) : list Z := concat (map b_groups (futs w)).

Definition on_peer (i : nat) (b : Batch) : bool := (b_primary b =? i)%nat.

(** A batch in flight: a non-empty run of needed groups that its peer holds,
    no larger than that peer's request size. *)
Definition batch_ok (s : Fetch) (b : Batch) : Prop :=
  b_groups b ≠ [] ∧ groups_of (b_range b) = b_groups b ∧ Forall (GroupBits.mem (remaining s)) (b_groups b) ∧
  ∃ p, roster s !! b_primary b = Some p ∧ Forall (λ g, holds g p = true) (b_groups b) ∧
    blen (b_groups b) <= groups_per_request (class p).

Record fetch_ok (needed : GroupBits.t) (s : Fetch) : Prop := {
  ok_rows : Forall2 (λ x p, depth x = pipeline_depth (class p) ∧ 0 <= fails x ∧ 0 <= busy x) (slots (win s)) (roster s);
  ok_bits : Forall (λ p, GroupBits.wf (bits p)) (roster s);
  ok_wf : GroupBits.wf (remaining s) ∧ GroupBits.wf (inflight (win s));
  ok_inflight : ∀ g, GroupBits.mem (inflight (win s)) g ↔ g ∈ reserved (win s);
  ok_nodup : NoDup (reserved (win s));
  ok_batches : Forall (batch_ok s) (futs (win s));
  ok_load : ∀ i x, slots (win s) !! i = Some x →
    load x = blen (List.filter (on_peer i) (futs (win s))) ∧ load x <= depth x;
  ok_order : NoDup (full_order s) ∧ Forall (λ g, GroupBits.mem needed g ∧ ∃ p, p ∈ roster s ∧ holds g p = true) (full_order s);
  ok_range : ∀ g, GroupBits.mem needed g → 0 <= g < group_count size;
  ok_left : ∀ g, GroupBits.mem (remaining s) g → GroupBits.mem needed g;
  ok_count : groups_fetched (report s) + blen (groups_in (remaining s)) = blen (groups_in needed);
  ok_cut : 1 <= batch_groups s
}.

Lemma seqZ_take n a m : take n (seqZ a m) = seqZ a (Z.min (Z.of_nat n) m).
Proof.
  revert a m; induction n as [|n IH]; intros a m.
  - by rewrite (seqZ_nil a (Z.min _ _)) by lia.
  - destruct (Z.le_gt_cases m 0) as [Hm|Hm]; [by rewrite !seqZ_nil by lia|].
    rewrite seqZ_cons by lia. cbn [take]. rewrite (seqZ_cons a (Z.min _ _)), IH by lia. f_equal. f_equal. lia.
Qed.

Lemma last_seqZ a n : 0 < n → List.last (seqZ a n) 0 = a + n - 1.
Proof.
  intros Hn. replace n with ((n - 1) + 1) at 1 by lia. rewrite seqZ_app by lia.
  rewrite (seqZ_cons (a + (n - 1))) by lia. rewrite (seqZ_nil (Z.succ _)) by lia.
  rewrite List.last_last. lia.
Qed.

Lemma groups_per_request_pos c : 1 <= groups_per_request c.
Proof. destruct c; unfold groups_per_request, GROUPS_PER_REQUEST, GROUPS_PER_REQUEST_OVERLAY; lia. Qed.

Lemma trim_spec p m batch : cut size m batch →
  let '(batch', gs) := trim size p batch (groups_of batch) in
  groups_of batch' = gs ∧ gs ≠ [] ∧ blen gs <= groups_per_request (class p) ∧
  gs `prefix_of` groups_of batch ∧ NoDup gs.
Proof.
  intros (a & b & -> & Hab & Hb & _). destruct (groups_of_run size a b Hab Hb) as [Hg _]. rewrite Hg. clear m.
  pose proof (groups_per_request_pos (class p)) as Hpos. unfold trim. set (m := groups_per_request (class p)) in *.
  rewrite length_seqZ. destruct (Nat.ltb_spec (Z.to_nat m) (Z.to_nat (b + 1 - a))) as [Hlt|Hge].
  - assert (take (Z.to_nat m) (seqZ a (b + 1 - a)) = seqZ a m) as Ht by (rewrite seqZ_take; f_equal; lia).
    rewrite Ht. rewrite last_seqZ by lia.
    change ((run_bytes size a b).1, (bytes_of_group (a + m - 1) size).2) with (run_bytes size a (a + m - 1)).
    rewrite (proj1 (groups_of_run size a (a + m - 1) ltac:(lia) ltac:(lia))).
    replace (a + m - 1 + 1 - a) with m by lia. split_and!.
    + done.
    + rewrite seqZ_cons by lia. done.
    + unfold blen. rewrite length_seqZ. lia.
    + exists (drop (Z.to_nat m) (seqZ a (b + 1 - a))). by rewrite <- Ht, take_drop.
    + apply sorted_NoDup, seqZ_sorted.
  - split_and!; [done| | |done|apply sorted_NoDup, seqZ_sorted].
    + rewrite seqZ_cons by lia. done.
    + unfold blen. rewrite length_seqZ. lia.
Qed.

(** ** Booking preserves the invariant *)

(** What booking may change of a ledger row: the load, never of an exhausted peer. *)
Definition same_row (x y : Slot) : Prop :=
  fails y = fails x ∧ busy y = busy x ∧ depth y = depth x ∧ cooldown y = cooldown x ∧ probed y = probed x ∧
  load x <= load y ∧ (PEER_FAIL_LIMIT <= fails x → load y = load x).

Record booked (now : Z) (gs : list Z) (s s' : Fetch) : Prop := {
  bk_roster : roster s' = roster s;
  bk_remaining : remaining s' = remaining s;
  bk_order : full_order s' = full_order s;
  bk_cut : batch_groups s' = batch_groups s;
  bk_joining : joining s' = joining s;
  bk_waits : sat_waits s' = sat_waits s ∧ join_waits s' = join_waits s;
  bk_fetched : groups_fetched (report s') = groups_fetched (report s);
  bk_rows : Forall2 same_row (slots (win s)) (slots (win s'));
  bk_free : 0 <= free_slots now (win s') <= free_slots now (win s);
  bk_inflight : ∀ g, GroupBits.mem (inflight (win s')) g → GroupBits.mem (inflight (win s)) g ∨ g ∈ gs
}.

Lemma same_row_refl x : same_row x x.
Proof. unfold same_row. split_and!; done || lia. Qed.

Lemma same_row_trans x y z : same_row x y → same_row y z → same_row x z.
Proof. unfold same_row. 
  intros (? & ? & ? & ? & ? & ? & Ha) (? & ? & ? & ? & ? & ? & Hb). split_and!; try congruence; try lia.
Qed.

Lemma free_slots_nonneg now w : 0 <= free_slots now w.
Proof.
  unfold free_slots. induction (List.filter (schedulable now) (slots w)) as [|x l IH]; cbn [map foldr]; [done|].
  assert (0 <= sat_sub (depth x) (load x)) by (unfold sat_sub; lia). lia.
Qed.

Lemma booked_refl now s : booked now [] s s.
Proof.
  split; try done.
  - apply Forall_Forall2_diag, Forall_true. apply same_row_refl.
  - pose proof (free_slots_nonneg now (win s)). lia.
  - by left.
Qed.

Lemma booked_trans now gs1 gs2 s1 s2 s3 : booked now gs1 s1 s2 → booked now gs2 s2 s3 → booked now (gs1 ++ gs2) s1 s3.
Proof.
  intros [A1 A2 A3 A4 A5 [A6 A6'] A7 A8 A9 A10] [B1 B2 B3 B4 B5 [B6 B6'] B7 B8 B9 B10].
  split; try congruence; try (split; congruence); try lia.
  - clear -A8 B8. revert B8. generalize (slots (win s3)). induction A8; intros k Hk; inversion_clear Hk; constructor;
      eauto using same_row_trans.
  - intros g [?%A10|?]%B10; rewrite elem_of_app; tauto.
Qed.

Lemma booked_weaken now gs gs' s s' : booked now gs s s' → (∀ g, g ∈ gs → g ∈ gs') → booked now gs' s s'.
Proof. intros [] Hs. split; try done. intros g Hg. destruct (bk_inflight0 g Hg); auto. Qed.

(** The slots a booking leaves. *)
Lemma free_slots_alter now l i x : l !! i = Some x → schedulable now x = true → 0 <= load x < depth x →
  foldr Z.add 0 (map (λ x, sat_sub (depth x) (load x))
    (List.filter (schedulable now) (alter (λ x, set_load (load x + 1) x) i l))) + 1 =
  foldr Z.add 0 (map (λ x, sat_sub (depth x) (load x)) (List.filter (schedulable now) l)).
Proof.
  revert i; induction l as [|y l IH]; intros [|i] Hi Hs Hl; try done; cbn in Hi.
  - injection Hi as ->. cbn [alter list_alter List.filter]. assert (schedulable now (set_load (load x + 1) x) = true) as -> by done.
    rewrite Hs. cbn [map foldr load depth set_load].
    assert (sat_sub (depth x) (load x + 1) + 1 = sat_sub (depth x) (load x)) by (unfold sat_sub; lia). lia.
  - cbn [alter list_alter List.filter]. specialize (IH i Hi Hs Hl). destruct (schedulable now y); cbn [map foldr]; [|exact IH].
    rewrite <- Z.add_assoc. exact (f_equal (Z.add (sat_sub (depth y) (load y))) IH).
Qed.

Lemma reserved_snoc w b : reserved (mkWindow (slots w) (inflight w) (futs w ++ [b])) = reserved w ++ b_groups b.
Proof. unfold reserved. cbn [futs]. rewrite map_app, concat_app. cbn. by rewrite app_nil_r. Qed.

Lemma schedule_ok needed ext now m batch idx x p s :
  fetch_ok needed s → cut size m batch →
  Forall (λ g, GroupBits.mem (remaining s) g ∧ ¬ GroupBits.mem (inflight (win s)) g) (groups_of batch) →
  slots (win s) !! idx = Some x → roster s !! idx = Some p → schedulable now x = true →
  load x < pipeline_depth (class p) → Forall (λ g, holds g p = true) (groups_of batch) →
  let s' := schedule size deadline ext batch (groups_of batch) idx s in
  fetch_ok needed s' ∧ booked now (groups_of batch) s s' ∧ free_slots now (win s') < free_slots now (win s).
Proof.
  intros Hok Hcut Hg Hx Hp Hs Hl Hh. cbn zeta. unfold schedule. rewrite Hp.
  pose proof (trim_spec p m batch Hcut) as Ht. destruct (trim size p batch (groups_of batch)) as [batch' gs].
  destruct Ht as (T1 & T2 & T3 & T4 & T5). set (b := mkBatch batch' gs idx _).
  assert (∀ g, g ∈ gs → g ∈ groups_of batch) as Hsub by (intros g ?; by eapply elem_of_prefix).
  assert (0 <= load x < depth x) as Hld.
  { destruct Hok as [R _ _ _ _ _ L _ _ _ _ _]. rewrite Forall2_lookup in R. specialize (R idx). rewrite Hx, Hp in R.
    inversion_clear R as [? ? [D _]|]. destruct (L _ _ Hx) as [-> _]. rewrite D. split; [apply blen_nonneg|].
    by rewrite (proj1 (L _ _ Hx)) in Hl. }
  pose proof (free_slots_alter now _ _ _ Hx Hs Hld) as Hfree.
  rewrite Forall_forall in Hg, Hh. destruct Hok as [R B [W1 W2] I N F L [O1 O2] G Le C Cu].
  assert (Forall (λ g, 0 <= g) gs) as Hpos.
  { apply Forall_forall. intros g [Hm _]%Hsub%Hg. by apply G, Le. }
  destruct (reserve_spec (inflight (win s)) gs W2 Hpos) as [W3 M3].
  assert (∀ g, g ∈ reserved (win s) ++ gs ↔ g ∈ reserved (win s) ∨ g ∈ gs) as Happ by (intros; apply elem_of_app).
  split; [|split].
  - split; cbn [win roster set_report set_win slots inflight futs remaining report full_order batch_groups upd_slot]; try done.
    + apply Forall2_alter_l; [done|]. intros y q _ _ Hy. exact Hy.
    + intros g. rewrite M3, I. unfold reserved. cbn [futs]. rewrite map_app, concat_app. cbn. by rewrite app_nil_r, elem_of_app.
    + unfold reserved. cbn [futs]. rewrite map_app, concat_app. cbn. rewrite app_nil_r. apply NoDup_app. split_and!; [done| |done].
      intros g Hr Hgs. apply Hsub, Hg in Hgs as [_ Hn]. by apply Hn, I.
    + apply Forall_app. split; [done|]. apply Forall_singleton. unfold batch_ok. cbn. split_and!; try done.
      * apply Forall_forall. intros g ?%Hsub%Hg. tauto.
      * exists p. split_and!; [done| |done]. apply Forall_forall. intros g ?%Hsub. by apply Hh.
    + intros j y Hy. rewrite List.filter_app, blen_app.
      assert (List.filter (on_peer j) [b] = if (idx =? j)%nat then [b] else []) as -> by done.
      destruct (decide (j = idx)) as [->|Hj].
      * rewrite list_lookup_alter_eq, Hx in Hy. injection Hy as <-. cbn [load depth set_load]. rewrite Nat.eqb_refl.
        rewrite <- (proj1 (L _ _ Hx)). split; [done|lia].
      * rewrite list_lookup_alter_ne in Hy by done. rewrite (proj2 (Nat.eqb_neq _ _)) by done.
        rewrite Z.add_0_r. by apply L.
  - split; cbn [win roster set_report set_win slots inflight futs remaining report full_order batch_groups upd_slot]; try done.
    + apply Forall2_same_length_lookup_2; [by rewrite length_alter|]. intros j y z Hy Hz.
      destruct (decide (j = idx)) as [->|Hj].
      * rewrite list_lookup_alter_eq, Hx in Hz. rewrite Hx in Hy. injection Hy as <-. injection Hz as <-.
        split_and!; cbn; try done; [lia|]. intros Hf. unfold schedulable in Hs.
        rewrite (proj2 (Z.ltb_ge _ _)) in Hs by done. done.
      * rewrite list_lookup_alter_ne in Hz by done. replace z with y by congruence. apply same_row_refl.
    + split; [apply free_slots_nonneg|]. unfold free_slots at 1 2. cbn [slots]. lia.
    + intros g. rewrite M3. intros [?|?%Hsub]; auto.
  - unfold free_slots. cbn [win set_report set_win slots upd_slot]. lia.
Qed.

(** Groups that may be booked: needed and not in flight. *)
Definition open_groups (s : Fetch) (gs : list Z) : Prop :=
  NoDup gs ∧ Forall (λ g, GroupBits.mem (remaining s) g ∧ ¬ GroupBits.mem (inflight (win s)) g) gs.

Definition books (needed : GroupBits.t) (now : Z) (gs : list Z) (st st' : bool * Fetch) : Prop :=
  fetch_ok needed st'.2 ∧ booked now gs st.2 st'.2 ∧
  (st'.1 = true → st.1 = true ∨ free_slots now (win st'.2) < free_slots now (win st.2)) ∧
  (st.1 = true → st'.1 = true).

Lemma open_after now gs1 gs2 s s' : booked now gs1 s s' → open_groups s (gs1 ++ gs2) → open_groups s' gs2.
Proof.
  intros B [(_ & Hd & N)%NoDup_app [_ HF]%Forall_app]. split; [done|]. rewrite Forall_forall in *.
  intros g Hg. rewrite (bk_remaining _ _ _ _ B). destruct (HF g Hg) as [Hr Hn]. split; [done|].
  intros Hi. destruct (bk_inflight _ _ _ _ B g Hi) as [|Hg1]; [done|]. by apply (Hd g).
Qed.

Lemma open_sub s gs gs' : open_groups s gs → NoDup gs' → (∀ g, g ∈ gs' → g ∈ gs) → open_groups s gs'.
Proof. intros [_ HF] N Hs. split; [done|]. rewrite Forall_forall in *. auto. Qed.

(** Folding a step that books (part of) one range books (part of) them all. *)
Lemma fold_books needed now (step : bool * Fetch → range → bool * Fetch) (P : Fetch → Prop) :
  (∀ st r, fetch_ok needed st.2 → P st.2 → (∃ m, cut size m r) → open_groups st.2 (groups_of r) →
     books needed now (groups_of r) st (step st r)) →
  (∀ gs s s', booked now gs s s' → P s → P s') →
  ∀ rs st, fetch_ok needed st.2 → P st.2 → Forall (λ r, ∃ m, cut size m r) rs →
  open_groups st.2 (concat (map groups_of rs)) →
  books needed now (concat (map groups_of rs)) st (foldl step st rs).
Proof.
  intros Hstep HP. induction rs as [|r rs IH]; intros st Hok Hp HF Ho; cbn [foldl map concat].
  - split_and!; [done|apply booked_refl|auto|auto].
  - apply Forall_cons in HF as [Hr HF]. cbn [map concat] in Ho.
    assert (open_groups st.2 (groups_of r)) as Hor.
    { destruct Ho as [N HFo]. apply NoDup_app in N as (N & _ & _). apply Forall_app in HFo as [? _]. done. }
    destruct (Hstep st r Hok Hp Hr Hor) as (A1 & A2 & A3 & A4).
    destruct (IH (step st r) A1 (HP _ _ _ A2 Hp) HF (open_after _ _ _ _ _ A2 Ho)) as (B1 & B2 & B3 & B4).
    split_and!; [done|by eapply booked_trans| |auto]. intros Hb. pose proof (bk_free _ _ _ _ A2). pose proof (bk_free _ _ _ _ B2).
    destruct (B3 Hb) as [Ha|]; [|right; lia]. destruct (A3 Ha); [by left|right; lia].
Qed.

Lemma pick_books needed ext now r s : fetch_ok needed s → (∃ m, cut size m r) → open_groups s (groups_of r) →
  ∀ idx, pick_peer deadline ext now (groups_of r) s = Some idx →
  fetch_ok needed (schedule size deadline ext r (groups_of r) idx s) ∧
  booked now (groups_of r) s (schedule size deadline ext r (groups_of r) idx s) ∧
  free_slots now (win (schedule size deadline ext r (groups_of r) idx s)) < free_slots now (win s).
Proof.
  intros Hok [m Hm] [_ Ho] idx Hp. apply pick_peer_spec in Hp as (x & p & Hx & Hr & Hs & Hl & Hh).
  by eapply schedule_ok.
Qed.

Lemma assign_split_books needed ext now gs s : fetch_ok needed s → open_groups s gs →
  books needed now gs (false, s) (assign_split size deadline ext now gs s).
Proof.
  intros Hok Ho. unfold assign_split.
  assert (Forall (λ g, 0 <= g < group_count size) gs) as Hr.
  { destruct Ho as [_ HF]. eapply Forall_impl; [exact HF|]. intros g [Hg _].
    apply (ok_range _ _ Hok), (ok_left _ _ Hok), Hg. }
  destruct (split_loop_spec (length gs) gs (roster s) size (batch_groups s)) as [S1 S2];
    [done|apply (ok_cut _ _ Hok)|done|]. fold (split_by_holder gs (roster s) size (batch_groups s)) in S1, S2.
  set (rs := split_by_holder gs (roster s) size (batch_groups s)) in *.
  assert (∀ g, g ∈ concat (map groups_of rs) → g ∈ gs) as Hsub by (rewrite S1; by intros g [? _]%elem_of_bfilter).
  assert (books needed now (concat (map groups_of rs)) (false, s)
    (foldl (λ st sub, match pick_peer deadline ext now (groups_of sub) st.2 with
      | Some idx => (true, schedule size deadline ext sub (groups_of sub) idx st.2) | None => st end) (false, s) rs))
    as (B1 & B2 & B3 & B4).
  { apply (fold_books needed now _ (λ _, True)); [|done|done|done| |].
    - intros st r Hst _ Hc Hor. destruct (pick_peer deadline ext now (groups_of r) st.2) as [idx|] eqn:E.
      + destruct (pick_books needed ext now r st.2 Hst Hc Hor idx E) as (A1 & A2 & A3). split_and!; auto.
      + split_and!; auto. eapply booked_weaken; [apply booked_refl|]. by intros g ?%elem_of_nil.
    - eapply Forall_impl; [exact S2|]. intros r [Hc _]. by eexists.
    - apply (open_sub s gs); [done| |done]. rewrite S1. apply NoDup_ListNoDup, List.NoDup_filter, NoDup_ListNoDup, Ho. }
  split_and!; [done| |done|done]. eapply booked_weaken; [exact B2|]. done.
Qed.

Lemma assign_all_books needed ext now rs s : fetch_ok needed s → Forall (λ r, ∃ m, cut size m r) rs →
  open_groups s (concat (map groups_of rs)) →
  books needed now (concat (map groups_of rs)) (false, s) (assign_all size deadline ext now rs s).
Proof.
  intros Hok HF Ho. unfold assign_all. apply (fold_books needed now _ (λ _, True)); try done.
  intros st r Hst _ Hc Hor. unfold assign.
  destruct (pick_peer deadline ext now (groups_of r) st.2) as [idx|] eqn:E.
  - destruct (pick_books needed ext now r st.2 Hst Hc Hor idx E) as (A1 & A2 & A3). rewrite orb_true_r.
    split_and!; auto.
  - destruct (assign_split_books needed ext now (groups_of r) st.2 Hst Hor) as (A1 & A2 & A3 & A4).
    destruct (assign_split size deadline ext now (groups_of r) st.2) as [ok s']. split_and!; cbn in *; auto.
    + destruct st.1; [by left|]. intros Hb. destruct (A3 Hb); [done|by right].
    + by intros ->.
Qed.

Lemma collect_spec rem infl n l : NoDup l → NoDup (collect rem infl n l) ∧
  ∀ g, g ∈ collect rem infl n l → g ∈ l ∧ GroupBits.contains rem g = true ∧ GroupBits.contains infl g = false.
Proof.
  revert n; induction l as [|x l IH]; intros [|n] Hn; cbn [collect]; try (split; [constructor|by intros g ?%elem_of_nil]).
  apply NoDup_cons in Hn as [Hx Hn]. destruct (GroupBits.contains rem x && negb (GroupBits.contains infl x)) eqn:E.
  - destruct (IH n Hn) as [I1 I2]. apply andb_true_iff in E as [E1 E2%negb_true_iff]. split.
    + apply NoDup_cons. split; [|done]. by intros [? _]%I2.
    + intros g [->|Hg]%elem_of_cons; [split_and!; [left|done..]|]. destruct (I2 g Hg) as (? & ? & ?). split_and!; [by right|done..].
  - destruct (IH (S n) Hn) as [I1 I2]. split; [done|]. intros g (? & ? & ?)%I2. split_and!; [by right|done..].
Qed.

Lemma set_cursor_ok needed c s : fetch_ok needed s → fetch_ok needed (set_cursor c s).
Proof. by intros []. Qed.

Lemma set_cursor_booked now c s : booked now [] s (set_cursor c s).
Proof. destruct (booked_refl now s). by split. Qed.

Lemma refill_turn_ok needed ext now s : fetch_ok needed s →
  let r := refill_turn size deadline ext now s in
  fetch_ok needed r.2 ∧ (∃ gs, booked now gs s r.2) ∧ (r.1 = true → free_slots now (win r.2) < free_slots now (win s)).
Proof.
  intros Hok. cbn zeta. unfold refill_turn. destruct (free_slots now (win s) =? 0).
  { split_and!; [done|exists []; apply booked_refl|done]. }
  destruct (next_unassigned _ _ _ _ _) as [c order] eqn:E. unfold next_unassigned in E. apply pair_eq in E as [Hc E]. rewrite Hc in E.
  pose proof (set_cursor_ok needed c s Hok) as Hok'. pose proof (set_cursor_booked now c s) as B0.
  assert (open_groups (set_cursor c s) order) as Ho.
  { destruct (ok_order _ _ Hok) as [N _]. destruct (ok_wf _ _ Hok) as [W1 W2].
    destruct (collect_spec (remaining s) (inflight (win s)) (Z.to_nat (free_slots now (win s) * batch_groups s))
      (drop c (full_order s))) as [C1 C2].
    { apply (sublist_NoDup _ (full_order s)); [done|]. apply sublist_drop. }
    rewrite E in C1, C2. split; [done|]. apply Forall_forall. intros g (_ & G1 & G2)%C2. cbn. split.
    - by apply GroupBits.contains_spec.
    - intros Hm. apply GroupBits.contains_spec in Hm; [congruence|done]. }
  destruct order as [|g0 order0]; [split_and!; [done|by exists []|done]|]. set (order := g0 :: order0) in *.
  assert (1 <= batch_groups s) as Hcut by apply (ok_cut _ _ Hok).
  destruct (batches_loop_spec (length order) order size (batch_groups s)) as [S1 S2]; [done|done| |].
  { destruct Ho as [_ HF]. eapply Forall_impl; [exact HF|]. intros g [Hg _].
    apply (ok_range _ _ Hok), (ok_left _ _ Hok), Hg. }
  fold (batch_into_ranges order size (batch_groups s)) in S1, S2. set (rs := batch_into_ranges order size (batch_groups s)) in *.
  destruct (assign_all_books needed ext now rs (set_cursor c s) Hok') as (A1 & A2 & A3 & A4).
  { eapply Forall_impl; [exact S2|]. intros r Hr. by eexists. }
  { by rewrite S1. }
  change (batch_groups (set_cursor c s)) with (batch_groups s). fold rs. split_and!; [done| |].
  - eexists. by eapply booked_trans.
  - intros Hb. by destruct (A3 Hb).
Qed.

Lemma refill_loop_ok needed fuel ext now s : fetch_ok needed s →
  fetch_ok needed (refill_loop size deadline fuel ext now s) ∧
  ∃ gs, booked now gs s (refill_loop size deadline fuel ext now s).
Proof.
  revert s; induction fuel as [|fuel IH]; intros s Hok; cbn [refill_loop]; [split; [done|exists []; apply booked_refl]|].
  destruct (refill_turn_ok needed ext now s Hok) as (A1 & [gs A2] & A3).
  destruct (refill_turn size deadline ext now s) as [again s']. cbn [fst snd] in *.
  destruct again; [|split; [done|by exists gs]]. destruct (IH s' A1) as [B1 [gs' B2]]. split; [done|].
  eexists. by eapply booked_trans.
Qed.

(** The refill loop ends by itself: more fuel than free slots changes nothing. *)
Lemma refill_fuel needed fuel k ext now s : fetch_ok needed s → (Z.to_nat (free_slots now (win s)) < fuel)%nat →
  refill_loop size deadline (fuel + k) ext now s = refill_loop size deadline fuel ext now s.
Proof.
  revert s; induction fuel as [|fuel IH]; intros s Hok Hf; [lia|]. cbn [refill_loop Nat.add].
  destruct (refill_turn_ok needed ext now s Hok) as (A1 & [gs A2] & A3).
  destruct (refill_turn size deadline ext now s) as [again s']. cbn [fst snd] in *.
  destruct again; [|done]. apply IH; [done|]. specialize (A3 eq_refl). pose proof (free_slots_nonneg now (win s')). lia.
Qed.

Lemma refill_ok needed ext now s : fetch_ok needed s →
  fetch_ok needed (refill size deadline ext now s) ∧ ∃ gs, booked now gs s (refill size deadline ext now s).
Proof. apply refill_loop_ok. Qed.

(** ** Outcomes *)

(** What any race may answer for batch [b]. *)
Record outcome_ok (n : nat) (b : Batch) (o : BatchOutcome) : Prop := {
  oc_groups : groups o = b_groups b;
  oc_primary : primary o = b_primary b;
  oc_landed : ∀ g, g ∈ landed o → g ∈ b_groups b;
  oc_nodup : NoDup (b_groups b) → NoDup (landed o);
  oc_won : ∀ w, winner o = Some w → landed o = b_groups b ∧ (w < n)%nat;
  oc_blame : ∀ i, failed_peer o = Some i ∨ busy_peer o = Some i → i = b_primary b;
  oc_lost : winner o = None → failed_peer o = Some (b_primary b) ∨ busy_peer o = Some (b_primary b);
  oc_one : failed_peer o = None ∨ busy_peer o = None;
  oc_rescue : ∀ w, winner o = Some w → w ≠ b_primary b →
    failed_peer o = Some (b_primary b) ∨ busy_peer o = Some (b_primary b)
}.

Lemma race_targets_spec s prim p gs i : i ∈ race_targets s prim p gs → i ≠ prim ∧
  ∃ q, roster s !! i = Some q ∧ label q ≠ label p ∧ stats s (class q) <= stats s (class p) ∧
    Forall (λ g, holds g q = true) gs.
Proof.
  unfold race_targets. intros Hi. apply elem_of_take in Hi as (j & Hj & _).
  apply list_elem_of_lookup_2, elem_of_bfilter in Hj as [_ Hj]. destruct (roster s !! i) as [q|]; [|done].
  rewrite !andb_true_iff, !negb_true_iff in Hj. destruct Hj as (((H1 & H2) & H3) & H4).
  split; [by apply Nat.eqb_neq|]. exists q. split_and!; [done|by apply bool_decide_eq_false in H2| |].
  - apply bool_decide_eq_true in H3. unfold faster_or_equal in H3.
    apply elem_of_sort_by, elem_of_bfilter in H3 as [_ H3]. by apply Z.leb_le.
  - apply Forall_forall. intros g Hg. rewrite forallb_forall in H4. by apply H4, list_elem_of_In.
Qed.

Lemma refused_ok n b quota retry dups present : outcome_ok n b (refused b quota retry dups present).
Proof.
  unfold refused. assert (∀ g, g ∈ List.filter (GroupBits.contains present) (b_groups b) → g ∈ b_groups b)
    as Hsub by (by intros g [? _]%elem_of_bfilter).
  assert (NoDup (b_groups b) → NoDup (List.filter (GroupBits.contains present) (b_groups b))) as Hnd
    by (intros N; by apply NoDup_ListNoDup, List.NoDup_filter, NoDup_ListNoDup).
  destruct quota; split; cbn; try done; auto; intros i [?|?]; congruence.
Qed.

Lemma rescued_ok n b w el quota retry dups : (w < n)%nat → outcome_ok n b (rescued b w el quota retry dups).
Proof.
  intros Hw. unfold rescued. destruct (Nat.eqb_spec w (b_primary b)); [|destruct quota]; split; cbn; try done; auto;
    try (intros ? [= <-]; done); try (intros ? [?|?]; congruence).
Qed.

Lemma race_outcome_ok s b p pend left won_by present :
  roster s !! b_primary b = Some p → race_winner_ok s b p pend won_by →
  outcome_ok (length (roster s)) b (race_batch s b p pend left won_by present).
Proof.
  intros Hp Hw. apply lookup_lt_Some in Hp as Hlt.
  assert (∀ quota retry, outcome_ok (length (roster s)) b (duplicate_race s b p quota retry left won_by present)) as Hdup.
  { intros quota retry. unfold duplicate_race. destruct (_ || _); [apply refused_ok|].
    destruct won_by as [[w el]|]; [|apply refused_ok]. apply rescued_ok.
    destruct Hw as [(_ & q & Hq & _)%race_targets_spec|[-> _]]; [by eapply lookup_lt_Some|done]. }
  destruct pend; [|apply Hdup..|apply (refused_ok _ b false None)].
  pose proof (rescued_ok (length (roster s)) b (b_primary b) el false None 0 Hlt) as H.
  unfold rescued in H. by rewrite Nat.eqb_refl in H.
Qed.

(** ** Folding an outcome back preserves the invariant *)

Definition row_kept (x y : Slot) : Prop :=
  load y = load x ∧ depth y = depth x ∧ (0 <= fails x → 0 <= fails y) ∧ (0 <= busy x → 0 <= busy y).

Lemma row_kept_trans x y z : row_kept x y → row_kept y z → row_kept x z.
Proof. unfold row_kept. intros (?&?&?&?) (?&?&?&?). split_and!; try congruence; auto. Qed.

Lemma upd_slot_rows i f w : (∀ x, row_kept x (f x)) → Forall2 row_kept (slots w) (slots (upd_slot i f w)).
Proof.
  intros Hf. apply Forall2_same_length_lookup_2; [by cbn; rewrite length_alter|]. intros j x y Hx Hy. cbn in Hy.
  rewrite list_lookup_alter in Hy. case_decide as D; [subst j; rewrite Hx in Hy; injection Hy as <-; apply Hf|].
  replace y with x by congruence. split_and!; auto.
Qed.

Lemma Forall2_trans {A} (R : A → A → Prop) (l k m : list A) :
  (∀ x y z, R x y → R y z → R x z) → Forall2 R l k → Forall2 R k m → Forall2 R l m.
Proof. intros Ht H1. revert m. induction H1; intros m H2; inversion_clear H2; constructor; eauto. Qed.

Lemma note_busy_rows p r now w : Forall2 row_kept (slots w) (slots (note_busy p r now w)).
Proof.
  apply upd_slot_rows. intros x. unfold row_kept, sat_add32, PEER_FAIL_LIMIT.
  cbn [busy set_busy]. destruct (_ <=? _); cbn; split_and!; try done; intros; unfold u32_max; lia.
Qed.

Lemma note_failed_rows p peers now w : Forall2 row_kept (slots w) (slots (note_failed p peers now w)).
Proof.
  unfold note_failed. set (w1 := upd_slot p (λ x, set_fails (sat_add32 (fails x) 1) x) w).
  assert (Forall2 row_kept (slots w) (slots w1)) as H1.
  { apply upd_slot_rows. intros x. unfold row_kept, sat_add32. cbn. split_and!; try done; intros; unfold u32_max; lia. }
  destruct (slots w1 !! p), (peers !! p); try done. destruct (_ && _); [|done].
  eapply Forall2_trans; [apply row_kept_trans|exact H1|]. apply upd_slot_rows.
  intros x. unfold row_kept, PEER_FAIL_LIMIT. cbn. split_and!; done || lia.
Qed.

Lemma note_delivered_rows p w : Forall2 row_kept (slots w) (slots (note_delivered p w)).
Proof. apply upd_slot_rows. intros x. unfold row_kept. cbn. split_and!; done || lia. Qed.

Lemma apply_ledger_rows o peers now w : Forall2 row_kept (slots w) (slots (apply_ledger o peers now w)).
Proof.
  unfold apply_ledger.
  set (w1 := match busy_peer o with Some p => note_busy p (retry_after o) now w | None => w end).
  set (w2 := match failed_peer o with Some p => note_failed p peers now w1 | None => w1 end).
  assert (∀ w, Forall2 row_kept (slots w) (slots w)) as Hr.
  { intros w0. apply Forall_Forall2_diag, Forall_true. intros x. split_and!; auto. }
  eapply Forall2_trans; [apply row_kept_trans|..].
  - eapply Forall2_trans; [apply row_kept_trans|..].
    + assert (Forall2 row_kept (slots w) (slots w1)) as H1; [|exact H1].
      unfold w1. destruct (busy_peer o); [apply note_busy_rows|apply Hr].
    + assert (Forall2 row_kept (slots w1) (slots w2)) as H2; [|exact H2].
      unfold w2. destruct (failed_peer o); [apply note_failed_rows|apply Hr].
  - destruct (winner o); [apply note_delivered_rows|apply Hr].
Qed.

Lemma note_failed_inflight p peers now w : inflight (note_failed p peers now w) = inflight w.
Proof.
  unfold note_failed. destruct (slots (upd_slot _ _ w) !! p), (peers !! p); try done. by destruct (_ && _).
Qed.

Lemma note_failed_futs p peers now w : futs (note_failed p peers now w) = futs w.
Proof.
  unfold note_failed. destruct (slots (upd_slot _ _ w) !! p), (peers !! p); try done. by destruct (_ && _).
Qed.

Lemma apply_ledger_rest o peers now w :
  inflight (apply_ledger o peers now w) = inflight w ∧ futs (apply_ledger o peers now w) = futs w.
Proof.
  unfold apply_ledger. destruct (winner o), (failed_peer o) as [p|], (busy_peer o);
    cbn [note_delivered note_busy upd_slot inflight futs]; by rewrite ?note_failed_inflight, ?note_failed_futs.
Qed.

(** The number of groups of a bitfield goes down by what is taken out. *)
Lemma groups_in_unreserve b l : GroupBits.wf b → NoDup l → (∀ g, g ∈ l → GroupBits.mem b g) →
  blen (groups_in (unreserve b l)) + blen l = blen (groups_in b).
Proof.
  intros Hw Hn Hm. destruct (unreserve_spec b l Hw) as [W M].
  assert (groups_in b ≡ₚ l ++ groups_in (unreserve b l)) as Hp.
  { apply NoDup_Permutation.
    - by apply sorted_NoDup, groups_in_sorted.
    - apply NoDup_app. split_and!; [done| |by apply sorted_NoDup, groups_in_sorted].
      intros g Hg Hg'. apply elem_of_groups_in, M in Hg'. tauto.
    - intros g. rewrite elem_of_app, !elem_of_groups_in, M. destruct (decide (g ∈ l)); [|tauto].
      split; [by left|]. intros _. by apply Hm. }
  unfold blen. rewrite Hp, length_app. lia.
Qed.

Lemma delete_split (k : nat) (l : list Batch) b : l !! k = Some b →
  ∃ l1 l2, l = l1 ++ b :: l2 ∧ delete k l = l1 ++ l2.
Proof.
  intros Hk. exists (take k l), (drop (S k) l). split; [symmetry; by apply take_drop_middle|apply delete_take_drop].
Qed.

Lemma Forall2_carry {A B} (R : A → A → Prop) (Q : A → B → Prop) l l' k :
  (∀ x y p, Q x p → R x y → Q y p) → Forall2 Q l k → Forall2 R l l' → Forall2 Q l' k.
Proof. intros Hc H1. revert l'. induction H1; intros m' H2; inversion_clear H2; constructor; eauto. Qed.

Lemma finish_ok needed k b o now s : fetch_ok needed s → futs (win s) !! k = Some b →
  outcome_ok (length (roster s)) b o → fetch_ok needed (finish k o now s).
Proof.
  intros [R B [W1 W2] I N F L O G Le C Cu] Hk [Og Op Ol On Ow _ _ _ _].
  destruct (delete_split k _ b Hk) as (f1 & f2 & Hf & Hd).
  unfold finish, apply_outcome, release.
  set (w0 := mkWindow _ _ _). set (s1 := observe_outcome o (set_win w0 s)).
  assert (roster s1 = roster s ∧ remaining s1 = remaining s ∧ full_order s1 = full_order s ∧ win s1 = w0 ∧
    report s1 = report s ∧ batch_groups s1 = batch_groups s) as (E1 & E2 & E3 & E4 & E5 & E6).
  { unfold s1, observe_outcome. by destruct (winner o) as [wi|], (elapsed o); cbn [roster set_win]; try destruct (roster s !! wi). }
  assert (reserved (win s) ≡ₚ reserved w0 ++ b_groups b) as Hres.
  { unfold reserved. rewrite Hf. cbn [futs w0 upd_slot]. rewrite Hd, !map_app, !concat_app. cbn [map concat].
    rewrite <- !app_assoc. apply Permutation_app_head, Permutation_app_comm. }
  rewrite Hres in N. apply NoDup_app in N as (N1 & N2 & N3).
  apply Forall_lookup_1 with (i := k) (x := b) in F as Hb; [|done]. destruct Hb as (_ & _ & Hbr & _).
  rewrite Forall_forall in Hbr.
  destruct (unreserve_spec (inflight (win s)) (b_groups b) W2) as [W3 M3].
  destruct (unreserve_spec (remaining s) (landed o) W1) as [W4 M4].
  destruct (apply_ledger_rest o (roster s1) now w0) as [A1 A2].
  pose proof (apply_ledger_rows o (roster s1) now w0) as A3.
  assert (∀ l, reserved (apply_ledger o l now w0) = reserved w0) as Hr0.
  { intros l. unfold reserved. by rewrite (proj2 (apply_ledger_rest o l now w0)). }
  assert (inflight w0 = unreserve (inflight (win s)) (b_groups b)) as Hi0 by (cbn [w0 inflight upd_slot]; by rewrite Og).
  assert (∀ g, g ∈ reserved w0 → g ∉ landed o) as Hrl by (intros g Hg Hl; by apply (N2 g Hg), Ol).
  split; cbn [win set_waits remaining full_order roster report batch_groups]; rewrite ?E4, ?A1, ?A2, ?E1, ?E2, ?E3, ?E6, ?Hr0; try done.
  - eapply Forall2_carry; [| |rewrite <- E1; exact A3].
    + intros x y p (D & F0 & B0) (_ & D' & F' & B'). split_and!; [congruence|auto..].
    + cbn [slots w0 upd_slot]. apply Forall2_alter_l; [done|]. intros x y _ _ Hx. exact Hx.
  - by rewrite Hi0.
  - intros g. rewrite Hi0, M3, I, Hres, elem_of_app. split; [tauto|]. intros Hg. split; [by left|]. by apply N2.
  - cbn [futs w0 upd_slot]. rewrite Hd. rewrite Hf in F. apply Forall_app in F as [F1 [_ F2]%Forall_cons].
    rewrite Forall_forall. intros b' Hb'.
    assert (batch_ok s b') as (G1 & G2 & G3 & G4).
    { apply elem_of_app in Hb'. rewrite Forall_forall in F1, F2. destruct Hb'; auto. }
    split_and!; [done|done| |done].
    rewrite Forall_forall in *. intros g Hg. cbn [remaining set_waits]. apply M4. split; [by apply G3|].
    apply Hrl. unfold reserved. cbn [futs w0 upd_slot]. rewrite Hd. apply list_elem_of_In, in_concat.
    exists (b_groups b'). split; [|by apply list_elem_of_In]. apply in_map, list_elem_of_In, Hb'.
  - intros i x Hx. rewrite E1 in A3. destruct (Forall2_lookup_r _ _ _ _ _ A3 Hx) as (y & Hy & Hl & Hdp & _).
    cbn [slots futs w0 upd_slot] in Hy |- *. rewrite Hd, Op in *. rewrite list_lookup_alter in Hy.
    rewrite List.filter_app, blen_app. rewrite Hl, Hdp.
    assert (∀ j z, slots (win s) !! j = Some z → load z = blen (List.filter (on_peer j) f1) +
      (if (b_primary b =? j)%nat then 1 else 0) + blen (List.filter (on_peer j) f2) ∧ load z <= depth z) as Lz.
    { intros j z Hz. destruct (L _ _ Hz) as [-> Hle]. rewrite Hf, List.filter_app, blen_app in Hle |- *.
      assert (List.filter (on_peer j) (b :: f2) = if (b_primary b =? j)%nat then b :: List.filter (on_peer j) f2
        else List.filter (on_peer j) f2) as Hc by done.
      rewrite Hc in *. destruct (b_primary b =? j)%nat; rewrite ?blen_cons in *; lia. }
    case_decide as D.
    + subst i. destruct (slots (win s) !! b_primary b) as [z|] eqn:Ez; [|done]. injection Hy as <-.
      destruct (Lz _ _ Ez) as [Lz1 Lz2]. rewrite Nat.eqb_refl in Lz1. cbn [load depth set_load]. unfold sat_sub.
      pose proof (blen_nonneg (List.filter (on_peer (b_primary b)) f1)). pose proof (blen_nonneg (List.filter (on_peer (b_primary b)) f2)). lia.
    + destruct (Lz _ _ Hy) as [Lz1 Lz2]. rewrite (proj2 (Nat.eqb_neq _ _)) in Lz1 by done. lia.
  - intros g [Hg _]%M4. by apply Le.
  - rewrite E5. cbn [report_outcome groups_fetched].
    pose proof (groups_in_unreserve (remaining s) (landed o) W1 (On N3)) as Hcount.
    rewrite <- C. rewrite <- Hcount; [lia|]. intros g ?%Ol. by apply Hbr.
Qed.

Lemma admit_ok needed closed h s : fetch_ok needed s → GroupBits.wf (bits h) → fetch_ok needed (admit_joiner closed h s).
Proof.
  intros [R B [W1 W2] I N F L [O1 O2] G Le C Cu] Hh. unfold admit_joiner. destruct closed; [by split|].
  set (fresh := List.filter _ _). pose proof (Forall2_length _ _ _ R) as Hlen.
  assert (∀ g, g ∈ fresh → GroupBits.mem needed g ∧ holds g h = true ∧ existsb (holds g) (roster s) = false) as Hf.
  { intros g [Hg Hb]%elem_of_bfilter. apply elem_of_groups_in in Hg.
    apply andb_true_iff in Hb as [? ?%negb_true_iff]. auto. }
  split; cbn [win remaining full_order batch_groups roster report grow slots inflight futs]; try done.
  - apply Forall2_app; [done|]. repeat constructor; cbn; lia.
  - apply Forall_app. split; [done|]. by apply Forall_singleton.
  - rewrite Forall_forall in *. intros b Hb. destruct (F b Hb) as (F1 & F2 & F3 & p & Hp & F4).
    split_and!; try done. exists p. split; [|done]. cbn. by apply lookup_app_l_Some.
  - intros i x Hx. apply lookup_app_Some in Hx as [Hx|[Hge Hx]]; [by apply L|].
    apply list_lookup_singleton_Some in Hx as [Hz <-]. assert (i = length (slots (win s))) as -> by lia.
    assert (List.filter (on_peer (length (slots (win s)))) (futs (win s)) = []) as ->.
    { destruct (List.filter _ (futs (win s))) as [|b l] eqn:E; [done|].
      assert (b ∈ b :: l) as Hb by left. rewrite <- E in Hb. apply elem_of_bfilter in Hb as [Hb Ho].
      unfold on_peer in Ho. apply Nat.eqb_eq in Ho. rewrite Forall_forall in F.
      destruct (F b Hb) as (_ & _ & _ & p & Hp & _). apply lookup_lt_Some in Hp. lia. }
    cbn. split; [done|]. destruct (class h); cbn; unfold PIPELINE_DEPTH, PIPELINE_DEPTH_OVERLAY; lia.
  - split.
    + apply NoDup_app. split_and!; [done| |].
      * intros g Hg Hfr. destruct (Hf g Hfr) as (_ & _ & Hno). rewrite Forall_forall in O2.
        destruct (O2 g Hg) as (_ & Hex). apply existsb_holds in Hex. congruence.
      * apply NoDup_ListNoDup, List.NoDup_filter, NoDup_ListNoDup, sorted_NoDup, groups_in_sorted, W1.
    + apply Forall_app. rewrite !Forall_forall. split.
      * intros g Hg. rewrite Forall_forall in O2. destruct (O2 g Hg) as (? & p & ? & ?). split; [done|].
        exists p. split; [|done]. apply elem_of_app. by left.
      * intros g Hg. destruct (Hf g Hg) as (? & ? & _). split; [done|]. exists h. split; [|done].
        apply elem_of_app. right. left.
  - pose proof (groups_per_request_pos (class h)). lia.
Qed.

Lemma batch_groups_for_pos peers : 1 <= batch_groups_for peers.
Proof.
  unfold batch_groups_for. destruct peers as [|p peers]; [vm_compute; congruence|]. cbn [map].
  pose proof (groups_per_request_pos (class p)). induction (map (λ p, groups_per_request (class p)) peers); cbn; lia.
Qed.

Lemma start_ok needed peers st ps frozen : GroupBits.wf needed → Forall (λ p, GroupBits.wf (bits p)) peers →
  (∀ g, GroupBits.mem needed g → 0 <= g < group_count size) →
  fetch_ok needed (fetch_start deadline needed peers st ps frozen).
Proof.
  intros Hw Hp Hr. split; cbn [win fetch_start window_new remaining full_order batch_groups roster report slots inflight futs]; try done.
  - induction peers as [|p l IH]; cbn; constructor; [cbn; lia|]. apply IH. by inversion Hp.
  - intros g. unfold reserved. cbn. rewrite elem_of_nil. unfold GroupBits.mem, GroupBits.new, has. cbn. by rewrite Exists_nil.
  - constructor.
  - intros i x Hx. apply list_lookup_fmap_Some in Hx as (p & -> & _). cbn. split; [done|].
    destruct (class p); cbn; unfold PIPELINE_DEPTH, PIPELINE_DEPTH_OVERLAY; lia.
  - unfold initial_order. destruct (is_streaming deadline); split.
    + by apply sorted_NoDup, sequential_sorted.
    + apply Forall_forall. intros g. by rewrite sequential_spec.
    + by apply rarest_NoDup.
    + apply Forall_forall. intros g. by rewrite rarest_spec.
  - apply batch_groups_for_pos.
Qed.
End facts.

(** ** Runs *)

Section runs.
Context (size : Z) (deadline : Deadline).

(** One turn of the loop, from one reading of the clock to a later one. The
    network decides which batch resolves and how ([k], [pend], [won_by],
    [present], raced against a roster read at or before that moment); other
    fetches decide what is queued on a shared link ([ext]). *)
Inductive turn := TBatch | TJoin | TClose | TTick.

#[export] Instance turn_eq_dec : EqDecision turn.
Proof. solve_decision. Defined.

Inductive fstep : turn → Z * Fetch → Z * Fetch → Prop :=
| step_batch clk now t ext s k b p sr pend left won_by present :
    clk <= now <= t →
    let s1 := refill size deadline ext now s in
    futs (win s1) !! k = Some b → roster sr `prefix_of` roster s1 → roster sr !! b_primary b = Some p →
    race_winner_ok sr b p pend won_by →
    let s' := finish k (race_batch sr b p pend left won_by present) t s1 in
    GroupBits.is_empty (remaining s') = false →
    fstep TBatch (clk, s) (t, s')
| step_join clk now t ext s closed h :
    clk <= now <= t → let s1 := refill size deadline ext now s in
    futs (win s1) ≠ [] → joining s1 = true → GroupBits.wf (bits h) →
    fstep TJoin (clk, s) (t, admit_joiner closed h (set_waits 0 0 s1))
| step_close clk now t ext s :
    clk <= now <= t → let s1 := refill size deadline ext now s in
    futs (win s1) ≠ [] → joining s1 = true →
    fstep TClose (clk, s) (t, set_joining false (set_waits 0 0 s1))
| step_tick clk now t ext s until s2 :
    clk <= now <= t → let s1 := refill size deadline ext now s in
    futs (win s1) = [] → idle_wait deadline ext now s1 = Some (until, s2) → until <= t →
    fstep TTick (clk, s) (t, s2)
| step_idle_join clk now t ext s until s2 closed h :
    clk <= now <= t → let s1 := refill size deadline ext now s in
    futs (win s1) = [] → idle_wait deadline ext now s1 = Some (until, s2) → joining s1 = true → GroupBits.wf (bits h) →
    fstep TJoin (clk, s) (t, admit_joiner closed h (set_waits (sat_waits s2) 0 s2))
| step_idle_close clk now t ext s until s2 :
    clk <= now <= t → let s1 := refill size deadline ext now s in
    futs (win s1) = [] → idle_wait deadline ext now s1 = Some (until, s2) → joining s1 = true →
    fstep TClose (clk, s) (t, set_joining false s2).

Lemma set_waits_ok needed a b s : fetch_ok size needed s → fetch_ok size needed (set_waits a b s).
Proof. by intros []. Qed.

Lemma set_joining_ok needed j s : fetch_ok size needed s → fetch_ok size needed (set_joining j s).
Proof. by intros []. Qed.

(** An idle wait only counts. *)
Lemma idle_wait_counts ext now s until s2 : idle_wait deadline ext now s = Some (until, s2) →
  ∃ a b, s2 = set_waits a b s.
Proof.
  unfold idle_wait. destruct (is_streaming deadline); [done|]. destruct (_ && _); cbn zeta.
  - destruct (opt_min _ _); [intros [= _ <-]; eauto|]. repeat (destruct (negb _) || destruct (_ <=? _)); try done.
    intros [= _ <-]; eauto.
  - destruct (opt_min _ _); [intros [= _ <-]; eauto|]. destruct (negb (joining s)); [done|].
    destruct (_ <=? _); [done|]. intros [= _ <-]; eauto.
Qed.

Lemma outcome_mono n m b o : (n <= m)%nat → outcome_ok n b o → outcome_ok m b o.
Proof.
  intros Hn []. split; auto. intros w Hw. destruct (oc_won0 w Hw). split; [done|lia].
Qed.

Lemma fstep_ok needed l c c' : fstep l c c' → fetch_ok size needed c.2 → fetch_ok size needed c'.2.
Proof.
  destruct 1 as [clk now t ext s k b p sr pend left won_by present Hc s1 Hk Hpre Hp Hw s' He
    |clk now t ext s closed h Hc s1 Hk Hj Hh|clk now t ext s Hc s1 Hk Hj|clk now t ext s until s2 Hc s1 Hk Hi Hu
    |clk now t ext s until s2 closed h Hc s1 Hk Hi Hj Hh|clk now t ext s until s2 Hc s1 Hk Hi Hj]; cbn [snd]; intros Hok;
    destruct (refill_ok size deadline needed ext now s Hok) as [H1 _]; fold s1 in H1.
  - apply (finish_ok size _ k b); [done|done|]. eapply outcome_mono; [by apply prefix_length|]. by apply race_outcome_ok.
  - by apply admit_ok, Hh; apply set_waits_ok.
  - by apply set_joining_ok, set_waits_ok.
  - destruct (idle_wait_counts _ _ _ _ _ Hi) as (a & c & ->). by apply set_waits_ok.
  - destruct (idle_wait_counts _ _ _ _ _ Hi) as (a & c & ->). by apply admit_ok, Hh; apply set_waits_ok, set_waits_ok.
  - destruct (idle_wait_counts _ _ _ _ _ Hi) as (a & c & ->). by apply set_joining_ok, set_waits_ok.
Qed.
End runs.

(** ** Termination *)

Definition zsum {A} (f : A → Z) (l : list A) : Z := foldr (λ x n, f x + n) 0 l.

(** Patience left with a peer: strikes and refusals until it is exhausted. *)
Definition weight (x : Slot) : Z :=
  if PEER_FAIL_LIMIT <=? fails x then 0
  else 1 + (PEER_FAIL_LIMIT - 1 - fails x) + Z.max 0 (BUSY_LIMIT - busy x).
(** Batches still in flight on an exhausted peer. *)
Definition stranded (x : Slot) : Z := if PEER_FAIL_LIMIT <=? fails x then load x else 0.
(** The one probe a peer may get. *)
Definition unprobed (x : Slot) : Z := if probed x then 0 else 1.

Definition peers_n (s : Fetch) : Z := blen (slots (win s)).
Definition left (s : Fetch) : Z := blen (groups_in (remaining s)).

(** How many more batches can resolve: groups left, then probes, then
    patience, then batches on exhausted peers, most significant first. *)
Definition batches_left (s : Fetch) : Z :=
  let l := slots (win s) in let n := peers_n s in
  ((left s * (n + 1) + zsum unprobed l) * (11 * n + 1) + zsum weight l) * (6 * n + 1) + zsum stranded l.

(** How many waits can follow one another with nothing in flight. *)
Definition waits_left (clk : Z) (s : Fetch) : Z :=
  (LINK_SATURATION_PATIENCE - sat_waits s) + (JOIN_WAIT_PATIENCE - join_waits s) +
  blen (List.filter (cooling clk) (slots (win s))).

Definition turns_left (clk : Z) (s : Fetch) : Z :=
  (2 * batches_left s + if joining s then 1 else 0) * (301 + peers_n s) + waits_left clk s.

Lemma zsum_nonneg {A} (f : A → Z) l : Forall (λ x, 0 <= f x) l → 0 <= zsum f l.
Proof. unfold zsum. induction 1; cbn [foldr]; lia. Qed.

Lemma zsum_le {A} (f : A → Z) c l : Forall (λ x, f x <= c) l → zsum f l <= c * blen l.
Proof. unfold zsum. induction 1; [unfold blen; cbn; lia|]. rewrite blen_cons. cbn [foldr]. nia. Qed.

Lemma zsum_same {A} (f : A → Z) l k : Forall2 (λ x y, f y = f x) l k → zsum f k = zsum f l.
Proof. unfold zsum. induction 1; cbn [foldr]; lia. Qed.

Lemma zsum_app {A} (f : A → Z) l k : zsum f (l ++ k) = zsum f l + zsum f k.
Proof. unfold zsum. induction l; cbn [foldr app]; lia. Qed.

(** Lists that differ in one row. *)
Lemma zsum_change {A} (f : A → Z) l i (x y : A) : l !! i = Some x → zsum f (<[i:=y]> l) = zsum f l - f x + f y.
Proof.
  intros Hi. rewrite insert_take_drop by by eapply lookup_lt_Some.
  rewrite <- (take_drop_middle l i x Hi) at 3. rewrite !zsum_app. unfold zsum. cbn [foldr]. lia.
Qed.

Section measure.
Context (size : Z).

Lemma rows_facts needed s x : fetch_ok size needed s → x ∈ slots (win s) →
  0 <= fails x ∧ 0 <= busy x ∧ 0 <= load x <= 6.
Proof.
  intros Hok Hx. apply list_elem_of_lookup in Hx as [i Hi]. pose proof (ok_rows _ _ _ Hok) as R.
  destruct (Forall2_lookup_l _ _ _ _ _ R Hi) as (p & _ & D & ? & ?). destruct (ok_load _ _ _ Hok i x Hi) as [L1 L2].
  split_and!; try done; [rewrite L1; apply blen_nonneg|]. rewrite D in L2.
  destruct (class p); cbn in L2; unfold PIPELINE_DEPTH, PIPELINE_DEPTH_OVERLAY in L2; lia.
Qed.

Lemma digits needed s : fetch_ok size needed s → let l := slots (win s) in let n := peers_n s in
  0 <= n ∧ 0 <= left s ∧ 0 <= zsum unprobed l <= n ∧ 0 <= zsum weight l <= 11 * n ∧ 0 <= zsum stranded l <= 6 * n.
Proof.
  intros Hok l n. assert (∀ x, x ∈ l → 0 <= fails x ∧ 0 <= busy x ∧ 0 <= load x <= 6) as Hf by (intros; by eapply rows_facts).
  assert (0 <= n) by apply blen_nonneg.
  assert (∀ f c, (∀ x, x ∈ l → 0 <= f x <= c) → 0 <= zsum f l <= c * n) as Hz.
  { intros f c Hc. split; [apply zsum_nonneg|apply zsum_le]; apply Forall_forall; intros x Hx; by apply Hc. }
  split_and!; try done; [apply blen_nonneg|..].
  all: match goal with |- context [zsum unprobed] => destruct (Hz unprobed 1); [|lia] | |- context [zsum weight] => destruct (Hz weight 11); [|lia]
    | |- context [zsum stranded] => destruct (Hz stranded 6); [|lia] end.
  all: intros x Hx; specialize (Hf x Hx); unfold unprobed, weight, stranded, PEER_FAIL_LIMIT, BUSY_LIMIT.
  1, 2: destruct (probed x); lia.
  all: destruct (Z.leb_spec 3 (fails x)); lia.
Qed.

(** Mixed radix: a smaller digit outweighs everything after it. *)
Lemma radix_lt b x x' d d' : 0 <= d → 0 <= d' < b → x' < x → x' * b + d' < x * b + d.
Proof. nia. Qed.

Lemma batches_left_lt needed s s' : fetch_ok size needed s → fetch_ok size needed s' → peers_n s' = peers_n s →
  let l := slots (win s) in let l' := slots (win s') in
  left s' < left s ∨ left s' = left s ∧ (zsum unprobed l' < zsum unprobed l ∨ zsum unprobed l' = zsum unprobed l ∧
    (zsum weight l' < zsum weight l ∨ zsum weight l' = zsum weight l ∧ zsum stranded l' < zsum stranded l)) →
  batches_left s' < batches_left s.
Proof.
  intros H1 H2 Hn l l'. destruct (digits needed s H1) as (A0 & A1 & A2 & A3 & A4).
  destruct (digits needed s' H2) as (B0 & B1 & B2 & B3 & B4). unfold batches_left. fold l l' in A2, A3, A4, B2, B3, B4 |- *.
  rewrite Hn in *. set (n := peers_n s) in *. intros H.
  destruct (decide ((left s' * (n + 1) + zsum unprobed l') * (11 * n + 1) + zsum weight l' <
    (left s * (n + 1) + zsum unprobed l) * (11 * n + 1) + zsum weight l)) as [Hlt|Hge].
  { apply radix_lt; [apply A4|lia|done]. }
  destruct (decide (left s' * (n + 1) + zsum unprobed l' < left s * (n + 1) + zsum unprobed l)) as [Hlt|Hge'].
  { exfalso. apply Hge. apply radix_lt; [apply A3|lia|done]. }
  destruct H as [Hlt|(E1 & H)]; [exfalso; apply Hge'; apply radix_lt; [apply A2|lia|done]|].
  destruct H as [Hlt|(E2 & H)]; [exfalso; apply Hge'; rewrite E1; lia|].
  destruct H as [Hlt|(E3 & H)]; [exfalso; apply Hge; rewrite E1, E2; lia|]. rewrite E1, E2, E3. lia.
Qed.

Lemma same_rows_measure s s' : Forall2 same_row (slots (win s)) (slots (win s')) → remaining s' = remaining s →
  peers_n s' = peers_n s ∧ batches_left s' = batches_left s ∧
  ∀ clk, blen (List.filter (cooling clk) (slots (win s'))) = blen (List.filter (cooling clk) (slots (win s))).
Proof.
  intros Hr Hrem. assert (peers_n s' = peers_n s) as Hn by (unfold peers_n, blen; by rewrite (Forall2_length _ _ _ Hr)).
  assert (∀ f : Slot → Z, (∀ x y, same_row x y → f y = f x) → zsum f (slots (win s')) = zsum f (slots (win s))) as Hz.
  { intros f Hf. apply zsum_same. eapply Forall2_impl; [exact Hr|]. auto. }
  split_and!; [done| |].
  - unfold batches_left, left. rewrite Hn, Hrem. rewrite !Hz; [done|..]; intros x y (F & B & _ & _ & P & _ & Lx);
      unfold unprobed, weight, stranded; rewrite ?F, ?B, ?P; try done. destruct (Z.leb_spec PEER_FAIL_LIMIT (fails x)); auto.
  - intros clk. clear -Hr. induction Hr as [|x y l k (F & _ & _ & C & _) _ IH]; [done|]. cbn [List.filter].
    assert (cooling clk y = cooling clk x) as -> by (unfold cooling; by rewrite F, C).
    destruct (cooling clk x); rewrite ?blen_cons; lia.
Qed.

Lemma alter_insert_list {A} (f : A → A) i (l : list A) x : l !! i = Some x → alter f i l = <[i:=f x]> l.
Proof.
  intros Hi. apply list_eq. intros j. rewrite list_lookup_alter, list_lookup_insert.
  pose proof (lookup_lt_Some _ _ _ Hi). case_decide as D; [|rewrite decide_False; [done|tauto]].
  subst j. rewrite decide_True by done. by rewrite Hi.
Qed.

(** A row that took a strike or a refusal: a probe was spent, or patience, or
    the peer was exhausted already. *)
Definition charged (x y : Slot) : Prop :=
  load y = load x ∧
  (unprobed y < unprobed x ∨ unprobed y = unprobed x ∧
    (weight y < weight x ∨ weight y = weight x ∧ PEER_FAIL_LIMIT <= fails x ∧ PEER_FAIL_LIMIT <= fails y)).

Lemma note_busy_charged p r now w x : slots w !! p = Some x → 0 <= fails x → 0 <= busy x →
  ∃ y, slots (note_busy p r now w) = <[p:=y]> (slots w) ∧ charged x y.
Proof.
  intros Hx Hf Hb. eexists. split; [by apply alter_insert_list|]. cbn beta zeta.
  split; [by destruct (_ <=? _)|]. right. unfold unprobed, weight, sat_add32, BUSY_LIMIT, PEER_FAIL_LIMIT, u32_max in *. cbn [busy set_busy].
  destruct (Z.leb_spec 8 (Z.min (busy x + 1) (2 ^ 32 - 1))); cbn [fails probed busy set_fails set_busy set_cooldown];
    (split; [done|]); repeat (match goal with |- context [Z.leb ?a ?b] => destruct (Z.leb_spec a b) end); lia.
Qed.

Lemma note_failed_charged p peers now w x : slots w !! p = Some x → 0 <= fails x → 0 <= busy x →
  ∃ y, slots (note_failed p peers now w) = <[p:=y]> (slots w) ∧ charged x y.
Proof.
  intros Hx Hf Hb. unfold note_failed. set (f := λ x, set_fails (sat_add32 (fails x) 1) x).
  assert (slots (upd_slot p f w) = <[p:=f x]> (slots w)) as Hs by by apply alter_insert_list.
  assert (slots (upd_slot p f w) !! p = Some (f x)) as Hl.
  { rewrite Hs, list_lookup_insert, decide_True; [done|]. split; [done|by eapply lookup_lt_Some]. }
  assert (probed x = true ∨ fails (f x) < PEER_FAIL_LIMIT ∨ True → charged x (f x)) as Hplain.
  { intros _. split; [done|]. right. unfold f, unprobed, weight, sat_add32, PEER_FAIL_LIMIT, u32_max in *.
    cbn [fails probed busy set_fails]. split; [done|].
    repeat (match goal with |- context [Z.leb ?a ?b] => destruct (Z.leb_spec a b) end); lia. }
  rewrite Hl. destruct (peers !! p) as [h|]; [|exists (f x); split; [done|tauto]].
  destruct (_ && _) eqn:E; [|exists (f x); split; [done|tauto]].
  apply andb_true_iff in E as [[_ Hp%negb_true_iff]%andb_true_iff _]. eexists. split.
  - unfold upd_slot at 1. cbn [slots]. rewrite (alter_insert_list _ _ _ _ Hl), Hs. by rewrite list_insert_insert_eq.
  - split; [done|]. left. unfold unprobed. cbn [probed set_probed set_fails set_cooldown]. cbn in Hp. by rewrite Hp.
Qed.

Lemma release_row b o s x : primary o = b_primary b → slots (win s) !! b_primary b = Some x → ∀ k,
  let w := release o (mkWindow (slots (win s)) (inflight (win s)) (delete k (futs (win s)))) in
  slots w = <[b_primary b := set_load (sat_sub (load x) 1) x]> (slots (win s)) ∧
  slots w !! b_primary b = Some (set_load (sat_sub (load x) 1) x).
Proof.
  intros Hp Hx k w. assert (slots w = <[b_primary b := set_load (sat_sub (load x) 1) x]> (slots (win s))) as Hs.
  { unfold w, release, upd_slot. cbn [slots]. rewrite Hp. exact (alter_insert_list _ _ _ _ Hx). }
  split; [done|]. rewrite Hs, list_lookup_insert, decide_True; [done|]. split; [done|by eapply lookup_lt_Some].
Qed.

Lemma length_ledger o peers now w : length (slots (apply_ledger o peers now w)) = length (slots w).
Proof. symmetry. eapply Forall2_length, apply_ledger_rows. Qed.

Lemma finish_fields k o t s : let s' := finish k o t s in
  let w := release o (mkWindow (slots (win s)) (inflight (win s)) (delete k (futs (win s)))) in
  slots (win s') = slots (apply_ledger o (roster s) t w) ∧ remaining s' = unreserve (remaining s) (landed o) ∧
  joining s' = joining s ∧ sat_waits s' = 0 ∧ join_waits s' = 0.
Proof.
  unfold finish, apply_outcome, observe_outcome. set (w := release o _).
  by destruct (winner o) as [wi|], (elapsed o); cbn [roster set_win]; try destruct (roster s !! wi).
Qed.

Lemma finish_peers k o t s : peers_n (finish k o t s) = peers_n s.
Proof.
  unfold peers_n, blen. destruct (finish_fields k o t s) as [-> _]. rewrite length_ledger.
  unfold release, upd_slot. cbn [slots]. by rewrite length_alter.
Qed.

(** Every resolved batch makes progress in the measure. *)
Lemma finish_decreases needed k b o t s : fetch_ok size needed s → futs (win s) !! k = Some b →
  outcome_ok (length (roster s)) b o → batches_left (finish k o t s) < batches_left s.
Proof.
  intros Hok Hk Ho. pose proof (finish_ok size needed k b o t s Hok Hk Ho) as Hok'.
  apply (batches_left_lt needed); [done|done|apply finish_peers|].
  destruct (finish_fields k o t s) as (Fs & Fr & _). destruct (ok_wf _ _ _ Hok) as [W _].
  pose proof (ok_batches _ _ _ Hok) as F. apply Forall_lookup_1 with (i := k) (x := b) in F; [|done].
  destruct F as (Hne & _ & Hbr & p & Hp & _). rewrite Forall_forall in Hbr.
  assert (NoDup (b_groups b)) as Hnd.
  { pose proof (ok_nodup _ _ _ Hok) as N. destruct (delete_split k _ b Hk) as (f1 & f2 & Hf & _).
    unfold reserved in N. rewrite Hf, map_app, concat_app in N. cbn [map concat] in N.
    apply NoDup_app in N as (_ & _ & N). by apply NoDup_app in N as [? _]. }
  pose proof (groups_in_unreserve (remaining s) (landed o) W (oc_nodup _ _ _ Ho Hnd)) as Hcount.
  rewrite <- Fr in Hcount. fold (left (finish k o t s)) (left s) in Hcount.
  specialize (Hcount ltac:(intros g ?%(oc_landed _ _ _ Ho); by apply Hbr)).
  destruct (landed o) as [|g0 rest] eqn:El; [|left; rewrite blen_cons in Hcount; pose proof (blen_nonneg rest); lia].
  right. split; [unfold blen in Hcount at 1; cbn in Hcount; lia|].
  assert (winner o = None) as Hw.
  { destruct (winner o) as [w|] eqn:E; [|done]. destruct (oc_won _ _ _ Ho w E) as [Hl _]. congruence. }
  pose proof (ok_rows _ _ _ Hok) as R. destruct (Forall2_lookup_r _ _ _ _ _ R Hp) as (x & Hx & _ & Hf0 & Hb0).
  destruct (release_row b o s x (oc_primary _ _ _ Ho) Hx k) as [Rs Rl].
  set (w := release o _) in *. set (x0 := set_load (sat_sub (load x) 1) x) in *.
  assert (0 < load x) as Hload.
  { destruct (ok_load _ _ _ Hok _ _ Hx) as [-> _]. assert (b ∈ List.filter (on_peer (b_primary b)) (futs (win s))) as Hin.
    { apply elem_of_bfilter. split; [by eapply list_elem_of_lookup_2|]. apply Nat.eqb_refl. }
    destruct (List.filter _ _); [by apply elem_of_nil in Hin|]. unfold blen; cbn; lia. }
  assert (∃ y, slots (apply_ledger o (roster s) t w) = <[b_primary b:=y]> (slots w) ∧ charged x0 y) as (y & Hy & Hc).
  { unfold apply_ledger. rewrite Hw. destruct (oc_one _ _ _ Ho) as [E|E]; rewrite E; destruct (oc_lost _ _ _ Ho Hw) as [E'|E'];
      try congruence; rewrite E'; [apply note_busy_charged|apply note_failed_charged]; done. }
  rewrite Fs, Hy, Rs, list_insert_insert_eq. rewrite !(zsum_change _ _ _ _ _ Hx).
  destruct Hc as [Hl Hc]. assert (unprobed x0 = unprobed x ∧ weight x0 = weight x ∧ fails x0 = fails x) as (U & We & Fa) by done.
  rewrite U, We, Fa in Hc. destruct Hc as [Hc|(Hu & [Hc|(Hwe & Hfx & Hfy)])]; [left; lia|right; split; [lia|left; lia]|].
  right. split; [lia|]. right. split; [lia|]. unfold stranded. rewrite !(proj2 (Z.leb_le _ _)) by done.
  rewrite Hl. cbn [x0 load set_load]. unfold sat_sub. lia.
Qed.
End measure.

(** A run: the turns of the loop in order. *)
Inductive frun (size : Z) (deadline : Deadline) : list turn → Z * Fetch → Z * Fetch → Prop :=
| frun_nil c : frun size deadline [] c c
| frun_cons l ls c c' c'' :
    fstep size deadline l c c' → frun size deadline ls c' c'' → frun size deadline (l :: ls) c c''.

Section termination.
Context (size : Z) (deadline : Deadline).

Definition counters_ok (s : Fetch) : Prop :=
  0 <= sat_waits s <= LINK_SATURATION_PATIENCE ∧ 0 <= join_waits s <= JOIN_WAIT_PATIENCE.

Lemma filter_le {A} (p q : A → bool) l : (∀ x, p x = true → q x = true) →
  blen (List.filter p l) <= blen (List.filter q l).
Proof.
  intros H. induction l as [|x l IH]; [done|]. cbn [List.filter]. destruct (p x) eqn:E; [rewrite (H x E), !blen_cons; lia|].
  destruct (q x); rewrite ?blen_cons; lia.
Qed.

Lemma filter_lt {A} (p q : A → bool) l x : (∀ x, p x = true → q x = true) → x ∈ l → p x = false → q x = true →
  blen (List.filter p l) < blen (List.filter q l).
Proof.
  intros H Hx Hp Hq. induction Hx as [x l|x y l Hx IH]; cbn [List.filter].
  - rewrite Hp, Hq, blen_cons. pose proof (filter_le p q l H). lia.
  - specialize (IH Hp Hq). destruct (p y) eqn:E; [rewrite (H y E), !blen_cons; lia|]. destruct (q y); rewrite ?blen_cons; lia.
Qed.

Lemma cooling_later clk clk' x : clk <= clk' → cooling clk' x = true → cooling clk x = true.
Proof.
  unfold cooling. intros Hc. rewrite !andb_true_iff. intros [Hf Ht]. split; [done|].
  destruct (cooldown x); [|done]. apply Z.ltb_lt in Ht. apply Z.ltb_lt. lia.
Qed.

Lemma next_retry_spec now w a : next_retry now w = Some a → ∃ x, x ∈ slots w ∧ cooling now x = true ∧ cooldown x = Some a.
Proof.
  unfold next_retry. intros H. assert (∃ x, x ∈ List.filter (cooling now) (slots w) ∧ cooldown x = Some a) as (x & Hx & Hc).
  { revert a H. induction (List.filter (cooling now) (slots w)) as [|x l IH]; intros a H; [done|]. cbn [map foldr] in H.
    destruct (cooldown x) as [c|] eqn:E, (foldr opt_min None (map cooldown l)) as [m|]; cbn in H; try done; injection H as <-.
    - destruct (Z.min_spec c m) as [[_ ->]|[_ ->]]; [exists x; split; [left|done]|].
      destruct (IH m eq_refl) as (y & ? & ?). exists y. split; [by right|done].
    - exists x. split; [left|done].
    - destruct (IH m eq_refl) as (y & ? & ?). exists y. split; [by right|done]. }
  apply elem_of_bfilter in Hx as [? ?]. by exists x.
Qed.

(** A wait costs a saturation tick, a joiner tick or a cooldown. *)
Lemma tick_decreases ext now s until s2 t : counters_ok s → now <= t → idle_wait deadline ext now s = Some (until, s2) →
  until <= t → waits_left t s2 < waits_left now s ∧ counters_ok s2.
Proof.
  intros [C1 C2] Hnt Hi Hu. pose proof (filter_le (cooling t) (cooling now) (slots (win s)) (λ x, cooling_later now t x Hnt)) as Hle.
  unfold idle_wait in Hi. destruct (is_streaming deadline); [done|]. unfold waits_left, counters_ok.
  destruct ((sat_waits s <? LINK_SATURATION_PATIENCE) && awaiting_link_room ext now s) eqn:E.
  - apply andb_true_iff in E as [E%Z.ltb_lt _].
    assert (s2 = set_waits (sat_waits s + 1) (join_waits s) s) as ->.
    { destruct (next_retry now (win s)); cbn in Hi; by injection Hi. }
    cbn [win set_waits sat_waits join_waits]. lia.
  - destruct (next_retry now (win s)) as [a|] eqn:En; cbn [opt_min] in Hi.
    + injection Hi as <- <-. cbn [win set_waits sat_waits join_waits].
      destruct (next_retry_spec _ _ _ En) as (x & Hx & Hcx & Hca).
      assert (blen (List.filter (cooling t) (slots (win s))) < blen (List.filter (cooling now) (slots (win s)))); [|lia].
      apply (filter_lt _ _ _ x); [by intros y; apply cooling_later|done| |done]. unfold cooling. rewrite Hca.
      rewrite (proj2 (Z.ltb_ge t a)) by done. apply andb_false_r.
    + destruct (negb (joining s)); [done|]. destruct (Z.leb_spec JOIN_WAIT_PATIENCE (join_waits s)); [done|].
      injection Hi as _ <-. cbn [win set_waits sat_waits join_waits]. lia.
Qed.

Lemma refill_measure needed ext now clk s : fetch_ok size needed s → clk <= now →
  let s1 := refill size deadline ext now s in
  peers_n s1 = peers_n s ∧ batches_left s1 = batches_left s ∧ joining s1 = joining s ∧
  waits_left now s1 <= waits_left clk s ∧ (counters_ok s → counters_ok s1) ∧ 0 <= batches_left s1 ∧
  blen (List.filter (cooling now) (slots (win s1))) <= peers_n s1.
Proof.
  intros Hok Hc s1. destruct (refill_ok size deadline needed ext now s Hok) as [Hok1 [gs Hb]]. fold s1 in Hok1, Hb.
  destruct (same_rows_measure s s1 (bk_rows _ _ _ _ Hb) (bk_remaining _ _ _ _ Hb)) as (M1 & M2 & M3).
  destruct (bk_waits _ _ _ _ Hb) as [W1 W2]. split_and!; [done|done|apply (bk_joining _ _ _ _ Hb)| | | |].
  - unfold waits_left. rewrite M3, W1, W2. pose proof (filter_le (cooling now) (cooling clk) (slots (win s)) (λ x, cooling_later clk now x Hc)). lia.
  - unfold counters_ok. by rewrite W1, W2.
  - destruct (digits size needed s1 Hok1) as (D0 & D1 & D2 & D3 & D4). unfold batches_left.
    repeat (apply Z.add_nonneg_nonneg || apply Z.mul_nonneg_nonneg); lia.
  - unfold peers_n. etransitivity; [apply (filter_le _ (λ _, true)); done|]. by rewrite bfilter_true by by apply forallb_forall.
Qed.

Lemma turns_lt b b' j K w w' : b' + 1 <= b → 0 <= w → 0 < K → w' < 2 * K → (2 * b' + j) * K + w' < (2 * b + j) * K + w.
Proof.
  intros Hb Hw HK Hk. replace ((2 * b + j) * K) with ((2 * (b - 1) + j) * K + 2 * K) by ring.
  assert ((2 * b' + j) * K <= (2 * (b - 1) + j) * K) by (apply Z.mul_le_mono_nonneg_r; lia). lia.
Qed.

Lemma turn_decreases needed l clk s clk' s' : fstep size deadline l (clk, s) (clk', s') → l ≠ TJoin →
  fetch_ok size needed s → counters_ok s →
  turns_left clk' s' < turns_left clk s ∧ counters_ok s' ∧ peers_n s' = peers_n s ∧
  batches_left s' + (if bool_decide (l = TBatch) then 1 else 0) <= batches_left s.
Proof.
  intros Hstep Hl Hok Hcn. inversion Hstep as
    [? now t ext ? k b p sr pend lf won_by present Hc s1 Hk Hpre Hp Hw s2 He
    |? now t ext ? closed h Hc s1 Hk Hj Hh|? now t ext ? Hc s1 Hk Hj|? now t ext ? until s2 Hc s1 Hk Hi Hu
    |? now t ext ? until s2 closed h Hc s1 Hk Hi Hj Hh|? now t ext ? until s2 Hc s1 Hk Hi Hj]; subst; try done;
    destruct (refill_measure needed ext now clk s Hok ltac:(lia)) as (M1 & M2 & M3 & M4 & M5 & M6 & M7);
    fold s1 in M1, M2, M3, M4, M5, M6, M7; specialize (M5 Hcn);
    assert (fetch_ok size needed s1) as Hok1 by apply (refill_ok size deadline needed ext now s Hok).
  - pose proof (finish_decreases size needed k b (race_batch sr b p pend lf won_by present) clk' s1 Hok1 Hk) as Hd.
    specialize (Hd ltac:(eapply outcome_mono; [by apply prefix_length|]; by apply race_outcome_ok)).
    destruct (finish_fields k (race_batch sr b p pend lf won_by present) clk' s1) as (_ & _ & Fj & Fw1 & Fw2).
    pose proof (finish_peers k (race_batch sr b p pend lf won_by present) clk' s1) as Fp.
    assert (0 <= batches_left s2 ∧ blen (List.filter (cooling clk') (slots (win s2))) <= peers_n s2) as [B1 B2].
    { assert (fetch_ok size needed s2) as Hok2 by exact (fstep_ok size deadline needed _ _ _ Hstep Hok).
      destruct (refill_measure needed ext clk' clk' s2 Hok2 ltac:(lia)) as (R1 & R2 & _ & _ & _ & R6 & _).
      rewrite R2 in R6. split; [done|]. unfold peers_n. etransitivity; [apply (filter_le _ (λ _, true)); done|].
      by rewrite bfilter_true by by apply forallb_forall. }
    fold s2 in Hd, Fj, Fw1, Fw2, Fp. split_and!.
    + unfold turns_left, waits_left. rewrite Fj, Fw1, Fw2, Fp, M1, M3. unfold counters_ok in Hcn.
      rewrite Fp, M1 in B2. unfold waits_left in M4. rewrite M2 in Hd.
      pose proof (blen_nonneg (List.filter (cooling clk) (slots (win s)))).
      assert (0 <= peers_n s) by apply blen_nonneg. unfold LINK_SATURATION_PATIENCE, JOIN_WAIT_PATIENCE in *.
      apply turns_lt; lia.
    + unfold counters_ok, LINK_SATURATION_PATIENCE, JOIN_WAIT_PATIENCE. rewrite Fw1, Fw2. lia.
    + congruence.
    + rewrite bool_decide_eq_true_2 by done. lia.
  - (* the join channel closed while batches were in flight *)
    assert (0 <= peers_n s) by apply blen_nonneg. unfold counters_ok in Hcn.
    rewrite bool_decide_eq_false_2 by done. split_and!; [|unfold counters_ok; cbn; unfold LINK_SATURATION_PATIENCE, JOIN_WAIT_PATIENCE; lia|done|change (batches_left s1 + 0 <= batches_left s); lia].
    assert (blen (List.filter (cooling clk') (slots (win s1))) <= peers_n s1) as M8.
    { unfold peers_n. etransitivity; [apply (filter_le _ (λ _, true)); done|]. by rewrite bfilter_true by by apply forallb_forall. }
    pose proof (blen_nonneg (List.filter (cooling clk) (slots (win s)))). rewrite M3 in Hj. unfold turns_left. rewrite Hj.
    change (joining (set_joining false (set_waits 0 0 s1))) with false.
    change (batches_left (set_joining false (set_waits 0 0 s1))) with (batches_left s1).
    change (peers_n (set_joining false (set_waits 0 0 s1))) with (peers_n s1). rewrite M1, M2.
    unfold waits_left. cbn [sat_waits join_waits set_joining set_waits win]. rewrite M1 in M8.
    unfold LINK_SATURATION_PATIENCE, JOIN_WAIT_PATIENCE in *. lia.
  - (* a tick *)
    destruct (idle_wait_counts _ _ _ _ _ _ Hi) as (a & c & Hs').
    destruct (tick_decreases ext now s1 until s' clk' M5 (proj2 Hc) Hi Hu) as [T1 T2].
    rewrite bool_decide_eq_false_2 by done. rewrite Hs' in T1, T2 |- *.
    split_and!; [|done|done|change (batches_left s1 + 0 <= batches_left s); lia].
    unfold turns_left. change (batches_left (set_waits a c s1)) with (batches_left s1).
    change (peers_n (set_waits a c s1)) with (peers_n s1). change (joining (set_waits a c s1)) with (joining s1).
    rewrite M1, M2, M3. lia.
  - (* the join channel closed during an idle wait *)
    destruct (idle_wait_counts _ _ _ _ _ _ Hi) as (a & c & Hs2).
    destruct (tick_decreases ext now s1 until s2 (Z.max now until) M5 ltac:(lia) Hi ltac:(lia)) as [_ T1].
    rewrite bool_decide_eq_false_2 by done. rewrite Hs2 in T1 |- *.
    split_and!; [|done|done|change (batches_left s1 + 0 <= batches_left s); lia].
    assert (blen (List.filter (cooling clk') (slots (win s1))) <= peers_n s1) as M8.
    { unfold peers_n. etransitivity; [apply (filter_le _ (λ _, true)); done|]. by rewrite bfilter_true by by apply forallb_forall. }
    pose proof (blen_nonneg (List.filter (cooling clk) (slots (win s)))). rewrite M3 in Hj.
    unfold turns_left, counters_ok in *. rewrite Hj.
    change (joining (set_joining false (set_waits a c s1))) with false.
    change (batches_left (set_joining false (set_waits a c s1))) with (batches_left s1).
    change (peers_n (set_joining false (set_waits a c s1))) with (peers_n s1). rewrite M1, M2.
    unfold waits_left. cbn [sat_waits join_waits set_joining set_waits win] in *. rewrite M1 in M8.
    assert (0 <= peers_n s) by apply blen_nonneg.
    unfold LINK_SATURATION_PATIENCE, JOIN_WAIT_PATIENCE in *. lia.
Qed.

Lemma turns_left_nonneg needed clk s : fetch_ok size needed s → counters_ok s → 0 <= batches_left s ∧ 0 <= turns_left clk s.
Proof.
  intros Hok Hc. destruct (refill_measure needed (λ _, (0, 0)) clk clk s Hok ltac:(lia)) as (M1 & M2 & _ & _ & _ & M6 & _).
  rewrite M2 in M6. split; [done|]. unfold turns_left, waits_left, counters_ok in *.
  assert (0 <= peers_n s) by apply blen_nonneg. pose proof (blen_nonneg (List.filter (cooling clk) (slots (win s)))).
  apply Z.add_nonneg_nonneg; [|lia]. apply Z.mul_nonneg_nonneg; [destruct (joining s); lia|lia].
Qed.

Lemma frun_bounds needed ls c c' : frun size deadline ls c c' → TJoin ∉ ls → fetch_ok size needed c.2 → counters_ok c.2 →
  Z.of_nat (length ls) <= turns_left c.1 c.2 ∧
  blen (List.filter (λ l, bool_decide (l = TBatch)) ls) <= batches_left c.2.
Proof.
  induction 1 as [[clk s]|l ls [clk s] [clk' s'] c'' Hs Hr IH]; intros Hj Hok Hc; cbn [fst snd] in *.
  - destruct (turns_left_nonneg needed clk s Hok Hc). unfold blen. cbn. lia.
  - apply not_elem_of_cons in Hj as [Hl Hj]. destruct (turn_decreases needed l clk s clk' s' Hs (not_eq_sym Hl) Hok Hc) as (D1 & D2 & _ & D3).
    destruct (IH Hj (fstep_ok size deadline needed _ _ _ Hs Hok) D2) as [I1 I2]. cbn [length List.filter].
    split; [lia|]. destruct (bool_decide (l = TBatch)); rewrite ?blen_cons; lia.
Qed.
End termination.

(** ** Properties *)

Lemma frun_ok size deadline needed ls c c' :
  frun size deadline ls c c' → fetch_ok size needed c.2 → fetch_ok size needed c'.2.
Proof. induction 1; intros; [done|]. eauto using fstep_ok. Qed.

(** C7: the window's books are exact along every run, with any interleaving of
    resolved batches, joining peers, idle waits and other fetches on the links:
    the groups in flight are exactly those of the batches in flight, no group
    is in two batches, every batch is a run of still-needed groups that its peer
    holds and no larger than that peer's request size, a peer's load is its
    number of batches and never exceeds its pipeline depth, and every group is
    either fetched, and counted once, or still to fetch. *)
Theorem fetch_invariant size deadline needed peers st ps frozen ls clk c :
  GroupBits.wf needed → Forall (λ p, GroupBits.wf (bits p)) peers →
  (∀ g, GroupBits.mem needed g → 0 <= g < group_count size) →
  frun size deadline ls (clk, fetch_start deadline needed peers st ps frozen) c →
  fetch_ok size needed c.2.
Proof. intros Hw Hp Hr Hrun. eapply frun_ok; [exact Hrun|]. by apply start_ok. Qed.

(** C8: a fetch whose peer set does not grow ends: with [n] peers and [m]
    groups to fetch, whatever the network and the clock do, at most
    [(m (n+1) + n) (11 n + 1) + 11 n] times [6 n + 1] batches resolve, and with
    the idle waits the loop turns a bounded number of times. *)
Theorem fetch_terminates size deadline needed peers st ps frozen ls clk c :
  GroupBits.wf needed → Forall (λ p, GroupBits.wf (bits p)) peers →
  (∀ g, GroupBits.mem needed g → 0 <= g < group_count size) →
  frun size deadline ls (clk, fetch_start deadline needed peers st ps frozen) c → TJoin ∉ ls →
  let n := blen peers in let m := blen (groups_in needed) in
  let batches := ((m * (n + 1) + n) * (11 * n + 1) + 11 * n) * (6 * n + 1) in
  blen (List.filter (λ l, bool_decide (l = TBatch)) ls) <= batches ∧
  Z.of_nat (length ls) <= (2 * batches + 1) * (301 + n) + 300.
Proof.
  intros Hw Hp Hr Hrun Hj n m batches. pose proof (start_ok size deadline needed peers st ps frozen Hw Hp Hr) as Hok.
  destruct (frun_bounds size deadline needed ls _ _ Hrun Hj Hok) as [B1 B2].
  { unfold counters_ok, LINK_SATURATION_PATIENCE, JOIN_WAIT_PATIENCE. cbn. lia. }
  cbn [fst snd] in *. set (s := fetch_start deadline needed peers st ps frozen) in *.
  assert (slots (win s) = map (λ p, new_slot (class p)) peers) as Hs by done.
  assert (peers_n s = n) as Hn by (unfold peers_n, n, blen; by rewrite Hs, length_map).
  assert (∀ f c, (∀ p, f (new_slot (class p)) = c) → zsum f (slots (win s)) = c * n) as Hz.
  { intros f k Hf. rewrite Hs. unfold n. clear -Hf. induction peers as [|p l IH]; [unfold blen; cbn; lia|].
    rewrite blen_cons. unfold zsum in *. cbn [map foldr]. rewrite IH, Hf. lia. }
  assert (batches_left s = batches) as Hb.
  { unfold batches_left, left. rewrite Hn, (Hz unprobed 1), (Hz weight 11), (Hz stranded 0) by done.
    change (remaining s) with needed. fold m. unfold batches. lia. }
  rewrite Hb in B2. split; [done|]. etransitivity; [exact B1|]. unfold turns_left, waits_left. rewrite Hb, Hn.
  assert (List.filter (cooling clk) (slots (win s)) = []) as ->.
  { rewrite Hs. clear. by induction peers. }
  change (sat_waits s) with 0. change (join_waits s) with 0. unfold blen at 1. cbn [length].
  unfold LINK_SATURATION_PATIENCE, JOIN_WAIT_PATIENCE. assert (0 <= n) by apply blen_nonneg.
  assert ((if joining s then 1 else 0) <= 1) by by destruct (joining s). nia.
Qed.

(** Whatever happens in a batch's race, its outcome names the batch's own
    groups and peer; a delivery lands all of them, and a failure keeps only
    groups the store holds; a lost race costs the peer it was booked onto
    exactly a strike or a cooldown, and so does one rescued by another peer; at
    most two others are raced, never the same peer or a slower class. *)
Theorem race_outcome_correct s b p pend lft won_by present :
  roster s !! b_primary b = Some p → race_winner_ok s b p pend won_by →
  let o := race_batch s b p pend lft won_by present in
  outcome_ok (length (roster s)) b o ∧ 0 <= duplicates o <= 2 ∧
  (∀ i, i ∈ race_targets s (b_primary b) p (b_groups b) → i ≠ b_primary b ∧
     ∃ q, roster s !! i = Some q ∧ label q ≠ label p ∧ stats s (class q) <= stats s (class p) ∧
       Forall (λ g, holds g q = true) (b_groups b)) ∧
  (winner o = None → ∀ g, g ∈ landed o ↔ g ∈ b_groups b ∧ GroupBits.contains present g = true).
Proof.
  intros Hp Hw o. assert (blen (race_targets s (b_primary b) p (b_groups b)) <= 2) as Ht.
  { unfold race_targets, blen, MAX_DUPLICATES. rewrite length_take. lia. }
  pose proof (blen_nonneg (race_targets s (b_primary b) p (b_groups b))) as Ht0.
  split_and!; [by apply race_outcome_ok| | |apply race_targets_spec|].
  1, 2: unfold o, race_batch, duplicate_race, refused, rescued; cbn zeta;
    repeat case_match; cbn [duplicates batch_failed batch_busy won]; lia.
  unfold o, race_batch, duplicate_race, refused, rescued. repeat case_match; cbn; try done;
    intros _ g; apply elem_of_bfilter.
Qed.

(** ** A live peer left idle *)

(** One turn in which batch [k] of the window ends its race with [pend] and
    nothing else happens; [None] when there is no such batch. *)
Definition resolve (size : Z) (d : Deadline) (k : nat) (pend : PrimaryEnd) (s : Fetch) : option Fetch :=
  let s1 := refill size d (λ _, (0, 0)) 0 s in
  b ← futs (win s1) !! k; p ← roster s1 !! b_primary b;
  let s' := finish k (race_batch s1 b p pend 0 None GroupBits.new) 0 s1 in
  if GroupBits.is_empty (remaining s') then None else Some s'.

Lemma resolve_step size d k pend s s' : resolve size d k pend s = Some s' → fstep size d TBatch (0, s) (0, s').
Proof.
  unfold resolve. set (s1 := refill size d (λ _, (0, 0)) 0 s).
  destruct (futs (win s1) !! k) as [b|] eqn:Eb; [|done]. cbn [mbind option_bind].
  destruct (roster s1 !! b_primary b) as [p|] eqn:Ep; [|done]. cbn [mbind option_bind].
  destruct (GroupBits.is_empty _) eqn:Ee; [done|]. intros [= <-].
  by eapply (step_batch _ _ 0 0 0 (λ _, (0, 0)) s k b p s1).
Qed.

Lemma resolve_run size d script s s' :
  foldl (λ o x, s ← o; resolve size d x.1 x.2 s) (Some s) script = Some s' →
  frun size d (map (λ _, TBatch) script) (0, s) (0, s').
Proof.
  revert s; induction script as [|[k pend] script IH]; intros s H; cbn [foldl map] in *; [injection H as <-; constructor|].
  cbn [mbind option_bind fst snd] in H. destruct (resolve size d k pend s) as [s1|] eqn:E.
  - econstructor; [by eapply resolve_step|by apply IH].
  - exfalso. clear -H. induction script as [|x script IH]; [done|]. by apply IH.
Qed.

Definition left_half : PeerHandle := mkPeer 0 Clearnet (GroupBits.mk [(0, 200)]) [Byte.x61].
Definition right_half : PeerHandle := mkPeer 1 Clearnet (GroupBits.mk [(200, 300)]) [Byte.x62].
Definition halves : Fetch :=
  fetch_start background (GroupBits.complete (300 * GROUP_BYTES)) [left_half; right_half]
    class_stats_default [] true.

(** The batches of the left half fail until its peer is exhausted; the right
    half's first batch arrives. *)
Definition failing_script : list (nat * PrimaryEnd) :=
  [(0%nat, PError false None); (0%nat, PError false None); (1%nat, PError false None);
   (1%nat, PError false None); (0%nat, PDone (secs 1))].

(** A fetch can end with groups left that a connected, healthy, idle peer
    holds: [refill] looks only at the first free slots' worth of unassigned
    groups in the order, and when those are held by an exhausted peer alone it
    books nothing and the background fetch aborts, with the other peer's slots
    free and its groups never looked at. *)
Theorem fetch_strands_groups : ∃ s,
  frun (300 * GROUP_BYTES) background (map (λ _, TBatch) failing_script) (0, halves) (0, s) ∧
  let s1 := refill (300 * GROUP_BYTES) background (λ _, (0, 0)) 0 s in
  futs (win s1) = [] ∧ idle_wait background (λ _, (0, 0)) 0 s1 = None ∧
  (fails <$> slots (win s1) !! 1%nat) = Some 0 ∧ (schedulable 0 <$> slots (win s1) !! 1%nat) = Some true ∧
  GroupBits.contains (remaining s1) 256 = true ∧ holds 256 right_half = true.
Proof.
  assert (∃ s, foldl (λ o x, s ← o; resolve (300 * GROUP_BYTES) background x.1 x.2 s) (Some halves) failing_script = Some s) as [s Hs].
  { eexists. vm_compute. reflexivity. }
  exists s. split; [by apply resolve_run|].
  assert (Some s = foldl (λ o x, s ← o; resolve (300 * GROUP_BYTES) background x.1 x.2 s) (Some halves) failing_script) as He by done.
  vm_compute in He. injection He as ->. split_and!; by vm_compute.
Qed.

(** ** Witnesses *)

Lemma halves_wf : GroupBits.wf (GroupBits.complete (300 * GROUP_BYTES)) ∧
  Forall (λ p, GroupBits.wf (bits p)) [left_half; right_half] ∧
  ∀ g, GroupBits.mem (GroupBits.complete (300 * GROUP_BYTES)) g → 0 <= g < group_count (300 * GROUP_BYTES).
Proof.
  destruct (GroupBits.complete_spec (300 * GROUP_BYTES)) as [W M]; [unfold GROUP_BYTES; lia|].
  split_and!; [done| |intros g; by rewrite M]. repeat constructor; unfold GroupBits.wf; cbn; lia.
Qed.

Lemma fetch_invariant_witness : ∃ s,
  resolve (300 * GROUP_BYTES) background 2 (PDone 5) halves = Some s ∧ groups_fetched (report s) = 56 ∧
  fetch_ok (300 * GROUP_BYTES) (GroupBits.complete (300 * GROUP_BYTES)) s.
Proof.
  eexists. split; [vm_compute; reflexivity|]. split; [reflexivity|].
  destruct halves_wf as (W & P & R).
  refine (fetch_invariant (300 * GROUP_BYTES) background _ [left_half; right_half] class_stats_default [] true
    [TBatch] 0 (0, _) W P R _).
  eapply frun_cons; [|apply frun_nil]. apply (resolve_step _ _ 2 (PDone 5)). vm_compute. reflexivity.
Defined.

Lemma fetch_terminates_witness :
  blen (List.filter (λ l, bool_decide (l = TBatch)) [TBatch]) <= 269984.
Proof.
  destruct halves_wf as (W & P & R).
  refine (proj1 (fetch_terminates (300 * GROUP_BYTES) background _ [left_half; right_half] class_stats_default [] true
    [TBatch] 0 (0, default halves (resolve (300 * GROUP_BYTES) background 2 (PDone 5) halves)) W P R _ _)).
  - eapply frun_cons; [|apply frun_nil]. apply (resolve_step _ _ 2 (PDone 5)). vm_compute. reflexivity.
  - apply not_elem_of_cons. split; [done|apply not_elem_of_nil].
Defined.

Lemma race_outcome_correct_witness :
  outcome_ok 2 (mkBatch (0, 16384) [0] 0 1)
    (race_batch halves (mkBatch (0, 16384) [0] 0 1) left_half (PError true (Some (secs 7))) 5 None (GroupBits.mk [(0, 1)])).
Proof.
  refine (proj1 (race_outcome_correct halves (mkBatch (0, 16384) [0] 0 1) left_half (PError true (Some (secs 7))) 5 None
    (GroupBits.mk [(0, 1)]) _ _)).
  - reflexivity.
  - done.
Defined.
