(* ===== verification/Xor8.v ===== *)
(** * Skip filters ([crates/epix-search/src/xor8.rs])

    The xor filter of a segment's term hashes: seeded mixing, the three slots
    of a key, peeling, fingerprint assignment, the membership query and the
    frozen serialization. Indexing that panics in Rust is an option here, so
    the theorems also say it never does. The one floating-point step (how many
    slots to allot) is a parameter. *)
From S2P Require Import Prelude Ordered.
From Stdlib Require Import ZArith Lia Strings.Byte.
From stdpp Require Import base list sorting gmap.
#[local] Open Scope Z_scope.

Definition SEEDS : list Z := [
  0x2545F4914F6CDD1D; 0x9E3779B97F4A7C15; 0xD1B54A32D192ED03;
  0xA0761D6478BD642F; 0xE7037ED1A0B428DB; 0x8EBC6AF09C88C6E3;
  0x58971E0C1D33A6D1; 0x4CF5AD432745937F; 0xFF51AFD7ED558CCD;
  0xC4CEB9FE1A85EC53; 0x165667B19E3779F9; 0x27D4EB2F165667C5;
  0x1111111111111111; 0x2222222222222223; 0x3333333333333335;
  0x4444444444444447; 0x5555555555555559; 0x666666666666666B;
  0x777777777777777D; 0x888888888888888F; 0x9999999999999991;
  0xAAAAAAAAAAAAAAA3; 0xBBBBBBBBBBBBBBB5; 0xCCCCCCCCCCCCCCC7;
  0xDDDDDDDDDDDDDDD9; 0xEEEEEEEEEEEEEEEB; 0xFFFFFFFFFFFFFFFD;
  0x0123456789ABCDEF; 0xFEDCBA9876543210; 0x0F0F0F0F0F0F0F0F;
  0xF0F0F0F0F0F0F0F0; 0xACE1ACE1ACE1ACE1 ].

Record Xor8 := mkXor8 { seed : Z; block_length : Z; fingerprints : list Z; match_all : bool }.

Definition wmul (a b : Z) : Z := wrap64 (a * b).

Definition mix (key sd : Z) : Z :=
  let h := wrap64 (key + sd) in
  let h := wmul (Z.lxor h (Z.shiftr h 33)) 0xff51afd7ed558ccd in
  let h := wmul (Z.lxor h (Z.shiftr h 33)) 0xc4ceb9fe1a85ec53 in
  Z.lxor h (Z.shiftr h 33).

Definition reduce (hash n : Z) : Z := Z.shiftr (hash * n) 32.

Definition fingerprint (hash : Z) : Z := Z.lxor hash (Z.shiftr hash 32) mod 256.

(** The slots of a key, one in each of the three blocks; u32 additions. *)
Definition subhashes (bl hash : Z) : list Z :=
  [ reduce (wrap32 hash) bl;
    wrap32 (reduce (wrap32 (Z.shiftr hash 16)) bl + bl);
    wrap32 (reduce (wrap32 (Z.shiftr hash 32)) bl + wrap32 (2 * bl)) ].

(** ** Construction *)

Abbreviation sets_t := (list (Z * Z)).

Definition bump (i : Z) (sets : sets_t) (slot : Z) : sets_t :=
  alter (λ e, (Z.lxor e.1 i, wrap32 (e.2 + 1))) (Z.to_nat slot) sets.

Fixpoint slot_sets_loop (bl i : Z) (hashed : list Z) (sets : sets_t) : sets_t :=
  match hashed with
  | [] => sets
  | h :: hashed => slot_sets_loop bl (i + 1) hashed (foldl (bump i) sets (subhashes bl h))
  end.

Definition slot_sets (bl capacity : Z) (hashed : list Z) : sets_t :=
  slot_sets_loop bl 0 hashed (repeat (0, 0) (Z.to_nat capacity)).

(** One key out of one slot; the slot joins the queue when one key is left. *)
Definition unbump (i : Z) (st : sets_t * list Z) (slot : Z) : sets_t * list Z :=
  let '(sets, queue) := st in
  let sets := alter (λ e, (Z.lxor e.1 i, wrap32 (e.2 - 1))) (Z.to_nat slot) sets in
  match sets !! Z.to_nat slot with
  | Some (_, 1) => (sets, slot :: queue)
  | _ => (sets, queue)
  end.

(** The queue is popped from where it is pushed: its head here. [fuel]
    bounds the pops; [peel_fuel] is enough. *)
Fixpoint peel_loop (bl : Z) (hashed : list Z) (fuel : nat) (sets : sets_t) (queue : list Z) (stack : list (Z * Z))
  : list (Z * Z) * list Z :=
  match fuel, queue with
  | S fuel, slot :: queue =>
    match sets !! Z.to_nat slot with
    | Some (key_idx, 1) =>
      let '(sets, queue) := foldl (unbump key_idx) (sets, queue) (subhashes bl (default 0 (index hashed key_idx))) in
      peel_loop bl hashed fuel sets queue (stack ++ [(key_idx, slot)])
    | _ => peel_loop bl hashed fuel sets queue stack
    end
  | _, _ => (stack, queue)
  end.

Definition singles (sets : sets_t) : list Z :=
  List.filter (λ s, match sets !! Z.to_nat s with Some (_, 1) => true | _ => false end)
    (map Z.of_nat (seq 0 (length sets))).

Definition peel_fuel (sets : sets_t) (n : nat) : nat := length sets + 3 * n.

Definition peel (bl : Z) (hashed : list Z) (sets : sets_t) : list (Z * Z) :=
  (peel_loop bl hashed (peel_fuel sets (length hashed)) sets (rev (singles sets)) []).1.

Definition slot_fp (fp : list Z) (s : Z) : Z := default 0 (index fp s).

Definition assign_step (bl : Z) (hashed : list Z) (e : Z * Z) (fp : list Z) : list Z :=
  let '(key_idx, slot) := e in
  let h := default 0 (index hashed key_idx) in
  let f := foldl (λ acc s, Z.lxor acc (if slot =? s then 0 else slot_fp fp s)) (fingerprint h) (subhashes bl h) in
  <[Z.to_nat slot := f]> fp.

(** The stack from its end: the last key peeled is assigned first. *)
Definition assign_fingerprints (bl capacity : Z) (hashed : list Z) (stack : list (Z * Z)) : list Z :=
  foldr (assign_step bl hashed) (repeat 0 (Z.to_nat capacity)) stack.

Definition try_build (keys : list Z) (sd bl capacity : Z) : option (list Z) :=
  let hashed := map (λ k, mix k sd) keys in
  let stack := peel bl hashed (slot_sets bl capacity hashed) in
  if negb (length stack =? length keys)%nat then None
  else Some (assign_fingerprints bl capacity hashed stack).

Fixpoint first_seed (seeds keys : list Z) (bl capacity : Z) : option (Z * list Z) :=
  match seeds with
  | [] => None
  | sd :: seeds =>
    match try_build keys sd bl capacity with
    | Some fp => Some (sd, fp)
    | None => first_seed seeds keys bl capacity
    end
  end.

Section build.
(** [(1.23 * size as f64).ceil() as usize]. *)
Context (slots_for : Z → Z).

Definition capacity_of (size : Z) : Z :=
  let capacity := Z.max (32 + slots_for size) 3 in
  capacity + (3 - capacity mod 3) mod 3.

Definition build (keys : list Z) : Xor8 :=
  let ks := dedup (Ordered.sort keys) in
  let capacity := capacity_of (blen ks) in
  let bl := wrap32 (capacity / 3) in
  match first_seed SEEDS ks bl capacity with
  | Some (sd, fp) => mkXor8 sd bl fp false
  | None => mkXor8 0 0 [] true
  end.
End build.

(** ** Query and wire form *)

(** [None] is the panic of an index out of bounds. *)
Definition contains (x : Xor8) (key : Z) : option bool :=
  if match_all x then Some true else
  let h := mix key (seed x) in
  match subhashes (block_length x) h with
  | [h0; h1; h2] =>
    a ← index (fingerprints x) h0; b ← index (fingerprints x) h1; c ← index (fingerprints x) h2;
    Some (fingerprint h =? Z.lxor (Z.lxor a b) c)
  | _ => None
  end.

Definition to_bytes (x : Xor8) : bytes :=
  if match_all x then repeat x00 16
  else le64 (seed x) ++ le32 (block_length x) ++ le32 (wrap32 (blen (fingerprints x))) ++ map byte_of (fingerprints x).

Definition from_bytes (bs : bytes) : option Xor8 :=
  if blen bs <? 16 then None else
  sd ← le_val <$> slice bs 0 8;
  bl ← le_val <$> slice bs 8 12;
  len ← le_val <$> slice bs 12 16;
  if negb (blen bs =? 16 + len) then None
  else if bl =? 0 then (if negb (len =? 0) then None else Some (mkXor8 sd 0 [] true))
  else if negb (len =? 3 * bl) then None
  else rest ← slice bs 16 (blen bs); Some (mkXor8 sd bl (map byte_val rest) false).

(** ** Slots *)

Definition in_u32 (x : Z) : Prop := 0 <= x < 2 ^ 32.

Lemma wrap32_in_u32 x : in_u32 (wrap32 x).
Proof. unfold in_u32, wrap32. apply Z.mod_pos_bound. done. Qed.

Lemma reduce_range h n : in_u32 h → 0 < n → 0 <= reduce h n < n.
Proof.
  unfold in_u32, reduce. intros Hh Hn. rewrite Z.shiftr_div_pow2 by done. split.
  - apply Z.div_pos; [nia|done].
  - apply Z.div_lt_upper_bound; [done|]. nia.
Qed.

(** The three slots lie in three disjoint blocks. *)
Lemma subhashes_spec bl h :
  0 < bl → 3 * bl <= u32_max →
  ∃ a b c, subhashes bl h = [a; b; c] ∧ 0 <= a < bl ∧ bl <= b < 2 * bl ∧ 2 * bl <= c < 3 * bl.
Proof.
  intros Hbl Hmax. unfold subhashes, u32_max in *.
  pose proof (reduce_range (wrap32 h) bl (wrap32_in_u32 _) Hbl).
  pose proof (reduce_range (wrap32 (Z.shiftr h 16)) bl (wrap32_in_u32 _) Hbl).
  pose proof (reduce_range (wrap32 (Z.shiftr h 32)) bl (wrap32_in_u32 _) Hbl).
  assert (∀ x, 0 <= x < 2 ^ 32 → wrap32 x = x) as W by (intros; by apply Z.mod_small).
  eexists _, _, _. split; [reflexivity|].
  rewrite (W (2 * bl)) by lia. rewrite !(W (_ + _)) by lia. lia.
Qed.

Lemma subhashes_range bl h s :
  0 < bl → 3 * bl <= u32_max → s ∈ subhashes bl h → 0 <= s < 3 * bl.
Proof.
  intros Hbl Hmax Hs. destruct (subhashes_spec bl h Hbl Hmax) as (a & b & c & E & ? & ? & ?).
  rewrite E, !elem_of_cons, elem_of_nil in Hs. lia.
Qed.

(** ** Counting touches

    A touch is a key index and one of its slots. [sets] holds, per slot, the
    xor of the indices touching it and their number. *)

Abbreviation touches := (list (Z * Z)).

Fixpoint cnt (s : Z) (T : touches) : Z :=
  match T with
  | [] => 0
  | e :: T => (if e.2 =? s then 1 else 0) + cnt s T
  end.

Fixpoint xr (s : Z) (T : touches) : Z :=
  match T with
  | [] => 0
  | e :: T => Z.lxor (if e.2 =? s then e.1 else 0) (xr s T)
  end.

Lemma cnt_nonneg s T : 0 <= cnt s T.
Proof. induction T as [|e T IH]; cbn [cnt]; [done|]. case_match; lia. Qed.

Lemma cnt_app s T U : cnt s (T ++ U) = cnt s T + cnt s U.
Proof. induction T as [|e T IH]; cbn [cnt app]; lia. Qed.

Lemma cnt_perm s T U : T ≡ₚ U → cnt s T = cnt s U.
Proof. induction 1; cbn [cnt]; lia. Qed.

Lemma xr_perm s T U : T ≡ₚ U → xr s T = xr s U.
Proof.
  induction 1 as [|e T U _ IH|e f T|]; cbn [xr]; [done|congruence| |congruence].
  rewrite <- !Z.lxor_assoc. f_equal. apply Z.lxor_comm.
Qed.

Lemma cnt_zero s T : cnt s T = 0 → ∀ k, (k, s) ∉ T.
Proof.
  induction T as [|e T IH]; cbn [cnt]; intros Hc k; [apply not_elem_of_nil|].
  pose proof (cnt_nonneg s T). destruct (Z.eqb_spec e.2 s) as [He|He]; [lia|].
  intros [E|Hin]%elem_of_cons; [by rewrite <- E in He|]. by apply (IH ltac:(lia) k).
Qed.

Lemma cnt_zero_xr s T : cnt s T = 0 → xr s T = 0.
Proof.
  induction T as [|e T IH]; cbn [cnt xr]; intros Hc; [done|].
  pose proof (cnt_nonneg s T). destruct (Z.eqb_spec e.2 s); [lia|]. rewrite IH by lia. done.
Qed.

(** A slot touched once holds exactly the index of its key. *)
Lemma cnt_one s T :
  cnt s T = 1 → (xr s T, s) ∈ T ∧ ∀ k, (k, s) ∈ T → k = xr s T.
Proof.
  induction T as [|[k0 s0] T IH]; cbn [cnt xr]; intros Hc; [done|].
  pose proof (cnt_nonneg s T). cbn [fst snd] in *. destruct (Z.eqb_spec s0 s) as [->|He].
  - assert (cnt s T = 0) as H0 by lia. rewrite (cnt_zero_xr s T H0), Z.lxor_0_r. split.
    + apply list_elem_of_here.
    + intros k [E|Hin]%elem_of_cons; [congruence|]. by destruct (cnt_zero s T H0 k).
  - rewrite Z.lxor_0_l. destruct (IH ltac:(lia)) as [Hin Hall]. split; [by right|].
    intros k [E|Hk]%elem_of_cons; [congruence|]. by apply Hall.
Qed.

(** ** The slot table represents the touches of the keys still to peel *)

Definition table (cap : Z) (sets : sets_t) (T : touches) : Prop :=
  length sets = Z.to_nat cap ∧
  ∀ s, 0 <= s < cap → sets !! Z.to_nat s = Some (xr s T, wrap32 (cnt s T)).

Lemma table_perm cap sets T U : T ≡ₚ U → table cap sets T → table cap sets U.
Proof.
  intros Hp [Hl Ht]. split; [done|]. intros s Hs.
  rewrite (Ht s Hs), (xr_perm s T U Hp), (cnt_perm s T U Hp). done.
Qed.

Lemma wrap32_add a b : wrap32 (wrap32 a + b) = wrap32 (a + b).
Proof. unfold wrap32. apply Zplus_mod_idemp_l. Qed.

Lemma lookup_alter_slot (f : Z * Z → Z * Z) (sets : sets_t) x s :
  0 <= x → 0 <= s →
  alter f (Z.to_nat x) sets !! Z.to_nat s = (if x =? s then f <$> sets !! Z.to_nat s else sets !! Z.to_nat s).
Proof.
  intros Hx Hs. rewrite list_lookup_alter. destruct (Z.eqb_spec x s) as [->|Hne].
  - by rewrite decide_True.
  - rewrite decide_False by lia. done.
Qed.

Lemma bump_table cap sets T i x :
  0 <= x < cap → table cap sets T → table cap (bump i sets x) ((i, x) :: T).
Proof.
  intros Hx [Hl Ht]. split; [by unfold bump; rewrite length_alter|]. intros s Hs.
  unfold bump. rewrite lookup_alter_slot by lia. cbn [xr cnt fst snd].
  rewrite (Ht s Hs). destruct (Z.eqb_spec x s) as [->|Hne]; cbn [fmap option_fmap option_map fst snd].
  - rewrite wrap32_add, Z.lxor_comm, (Z.add_comm 1). done.
  - by rewrite Z.lxor_0_l.
Qed.

Lemma bumps_table cap i : ∀ xs sets T,
  Forall (λ x, 0 <= x < cap) xs → table cap sets T →
  table cap (foldl (bump i) sets xs) (map (pair i) xs ++ T).
Proof.
  induction xs as [|x xs IH]; intros sets T Hx Ht; [done|]. apply Forall_cons in Hx as [Hx Hxs].
  cbn [foldl map app]. eapply table_perm; [|apply IH; [done|by apply bump_table]].
  symmetry. apply Permutation_middle.
Qed.

(** ** Peeling *)

Lemma lookup_repeat {A} (x : A) n i : (i < n)%nat → repeat x n !! i = Some x.
Proof. revert i. induction n as [|n IH]; intros [|i] Hi; cbn; [lia..|done|]. apply IH. lia. Qed.

Section peeling.
Context (bl : Z) (hashed : list Z).
Context (Hbl : 0 < bl) (Hmax : 3 * bl <= u32_max).

(** The slots of key number [k], and the touches of a list of keys. *)
Definition slots (k : Z) : list Z := subhashes bl (default 0 (index hashed k)).

Fixpoint touched (rem : list Z) : touches :=
  match rem with
  | [] => []
  | k :: rem => map (pair k) (slots k) ++ touched rem
  end.

Lemma slots_spec k : ∃ a b c, slots k = [a; b; c] ∧ 0 <= a < bl ∧ bl <= b < 2 * bl ∧ 2 * bl <= c < 3 * bl.
Proof. unfold slots. exact (subhashes_spec bl _ Hbl Hmax). Qed.

Lemma slots_range k : Forall (λ s, 0 <= s < 3 * bl) (slots k).
Proof. apply Forall_forall. intros s Hs. eapply subhashes_range; eassumption. Qed.

Lemma slots_nodup k : NoDup (slots k).
Proof.
  destruct (slots_spec k) as (a & b & c & -> & ? & ? & ?).
  repeat constructor; rewrite ?elem_of_cons, ?elem_of_nil; lia.
Qed.

Lemma cnt_map s k xs : NoDup xs → cnt s (map (pair k) xs) = if bool_decide (s ∈ xs) then 1 else 0.
Proof.
  induction 1 as [|x xs Hx _ IH]; cbn [map cnt snd]; [done|]. rewrite IH.
  destruct (Z.eqb_spec x s) as [->|Hne].
  - rewrite (bool_decide_false (s ∈ xs)) by done. by rewrite bool_decide_true by set_solver.
  - case_bool_decide; [rewrite bool_decide_true by set_solver|rewrite bool_decide_false by set_solver]; done.
Qed.

Lemma touched_app r r' : touched (r ++ r') = touched r ++ touched r'.
Proof. induction r as [|k r IH]; [done|]. cbn [touched app]. by rewrite IH, app_assoc. Qed.

Lemma touched_perm r r' : r ≡ₚ r' → touched r ≡ₚ touched r'.
Proof.
  induction 1 as [|k r r' _ IH|k k' r|r1 r2 r3 _ IH1 _ IH2]; cbn [touched]; [done|by rewrite IH| |by rewrite IH1].
  rewrite !app_assoc. apply Permutation_app; [apply Permutation_app_comm|done].
Qed.

Lemma cnt_touched s rem : cnt s (touched rem) <= blen rem.
Proof.
  induction rem as [|k rem IH]; [done|]. cbn [touched].
  rewrite cnt_app, cnt_map, blen_cons by apply slots_nodup. case_match; lia.
Qed.

Lemma elem_of_touched k s rem : (k, s) ∈ touched rem ↔ k ∈ rem ∧ s ∈ slots k.
Proof.
  induction rem as [|k' rem IH]; cbn [touched]; [set_solver|].
  rewrite elem_of_app, IH, elem_of_cons, list_elem_of_fmap. naive_solver.
Qed.

(** Phase 1 records every key in its three slots. *)
Lemma slot_sets_table : table (3 * bl) (slot_sets bl (3 * bl) hashed) (touched (seqZ 0 (blen hashed))).
Proof.
  assert (∀ hs pre sets, hashed = pre ++ hs → table (3 * bl) sets (touched (seqZ 0 (blen pre))) →
    table (3 * bl) (slot_sets_loop bl (blen pre) hs sets) (touched (seqZ 0 (blen hashed)))) as Hloop.
  { induction hs as [|h hs IH]; intros pre sets E Ht; cbn [slot_sets_loop]; [by rewrite E, app_nil_r|].
    replace (blen pre + 1) with (blen (pre ++ [h])) by (rewrite blen_app; done).
    apply IH; [by rewrite <- app_assoc|].
    assert (subhashes bl h = slots (blen pre)) as -> by (unfold slots; by rewrite E, index_app).
    assert (blen (pre ++ [h]) = Z.of_nat (S (length pre))) as -> by (rewrite blen_app; unfold blen; cbn [length]; lia).
    rewrite seqZ_S, touched_app.
    eapply table_perm; [apply Permutation_app_comm|]. cbn [touched]. rewrite app_nil_r.
    apply bumps_table; [apply slots_range|]. done. }
  apply (Hloop hashed [] _ eq_refl). split; [by rewrite repeat_length|].
  intros s Hs. rewrite lookup_repeat by lia. done.
Qed.

(** Slot [s] of the table reads one key. *)
Definition single (T : touches) (s : Z) : Prop := wrap32 (cnt s T) = 1.

Lemma unbump_table sets q T i x :
  0 <= x < 3 * bl → table (3 * bl) sets ((i, x) :: T) →
  let st := unbump i (sets, q) x in
  table (3 * bl) st.1 T ∧ q ⊆ st.2 ∧ st.2 ⊆ x :: q ∧
  (single T x → x ∈ st.2) ∧ (length st.2 <= S (length q))%nat.
Proof.
  intros Hx [Hl Ht]. unfold unbump. set (sets' := alter _ _ sets).
  assert (table (3 * bl) sets' T) as Ht'.
  { split; [by unfold sets'; rewrite length_alter|]. intros s Hs. specialize (Ht s Hs).
    unfold sets'. rewrite lookup_alter_slot by lia. rewrite Ht. cbn [xr cnt fst snd].
    destruct (Z.eqb_spec x s) as [->|Hne]; cbn [fmap option_fmap option_map fst snd]; [|by rewrite Z.lxor_0_l].
    rewrite (Z.lxor_comm i), Z.lxor_assoc, Z.lxor_nilpotent, Z.lxor_0_r.
    replace (wrap32 (wrap32 (1 + cnt s T) - 1)) with (wrap32 (cnt s T)); [done|].
    unfold Z.sub. rewrite wrap32_add. f_equal. lia. }
  rewrite (proj2 Ht' x Hx). unfold single.
  destruct (decide (wrap32 (cnt x T) = 1)) as [E|E].
  - rewrite E. cbn [fst snd]. split_and!; [done|set_solver|set_solver|set_solver|done].
  - assert (∀ A (a b : A), match wrap32 (cnt x T) with 1 => a | _ => b end = b) as Hm.
    { intros A a b. by destruct (wrap32 (cnt x T)) as [|[]|]. }
    rewrite Hm. cbn [fst snd]. split_and!; [done|set_solver|set_solver|done|lia].
Qed.

Lemma unbumps_table i : ∀ xs sets q T,
  Forall (λ x, 0 <= x < 3 * bl) xs → NoDup xs → table (3 * bl) sets (map (pair i) xs ++ T) →
  let st := foldl (unbump i) (sets, q) xs in
  table (3 * bl) st.1 T ∧ q ⊆ st.2 ∧ st.2 ⊆ xs ++ q ∧
  (∀ x, x ∈ xs → single T x → x ∈ st.2) ∧ (length st.2 <= length xs + length q)%nat.
Proof.
  induction xs as [|x xs IH]; intros sets q T Hx Hnd Ht; cbn [foldl].
  { cbn. split_and!; [done|set_solver|set_solver|set_solver|lia]. }
  apply Forall_cons in Hx as [Hx Hxs]. apply NoDup_cons in Hnd as [Hnx Hnd].
  destruct (unbump_table sets q (map (pair i) xs ++ T) i x Hx Ht) as (Ht1 & Hq1 & Hs1 & Hx1 & Hl1).
  destruct (unbump i (sets, q) x) as [sets1 q1]. cbn [fst snd] in *.
  destruct (IH sets1 q1 T Hxs Hnd Ht1) as (Ht2 & Hq2 & Hs2 & Hx2 & Hl2). cbn [length].
  split_and!; [done|set_solver|set_solver| |lia].
  intros y [->|Hy]%elem_of_cons Hy1; [|by apply Hx2]. apply Hq2, Hx1. unfold single in *.
  rewrite cnt_app, cnt_map, bool_decide_false by done. done.
Qed.

(** The stack [st] peels down to [rem]: each slot belongs to its key and to no
    key that was still there. *)
Fixpoint peeled (st : list (Z * Z)) (rem : list Z) : Prop :=
  match st with
  | [] => True
  | e :: st => e.2 ∈ slots e.1 ∧ (∀ k, k ∈ map fst st ++ rem → e.2 ∉ slots k) ∧ peeled st rem
  end.

Lemma peeled_snoc st k s rem :
  peeled st (k :: rem) → s ∈ slots k → (∀ k', k' ∈ rem → s ∉ slots k') → peeled (st ++ [(k, s)]) rem.
Proof.
  induction st as [|e st IH]; cbn [peeled app map fst snd].
  - intros _ Hs Hrem. split_and!; [done| |done]. intros k' Hk'. by apply Hrem.
  - intros (He & Hall & Hst) Hs Hrem. split_and!; [done| |by apply IH].
    intros k' Hk'. apply Hall. rewrite map_app in Hk'. set_solver.
Qed.

(** A key that shares no slot with any other remaining key can be peeled. *)
Lemma single_key rem s :
  NoDup rem → cnt s (touched rem) = 1 →
  ∃ rem', rem ≡ₚ xr s (touched rem) :: rem' ∧ s ∈ slots (xr s (touched rem)) ∧
          ∀ k, k ∈ rem' → s ∉ slots k.
Proof.
  intros Hnd [Hin Hall]%cnt_one. apply elem_of_touched in Hin as [Hin Hs].
  apply list_elem_of_split in Hin as (l1 & l2 & E). exists (l1 ++ l2).
  assert (rem ≡ₚ xr s (touched rem) :: l1 ++ l2) as Hp by (rewrite E at 1; symmetry; apply Permutation_middle).
  split_and!; [done..|]. intros k Hk Hks.
  assert (k = xr s (touched rem)) as -> by (apply Hall, elem_of_touched; split; [rewrite Hp; set_solver|done]).
  rewrite Hp in Hnd. by apply NoDup_cons in Hnd as [? _].
Qed.

Lemma single_iff rem s : blen rem < 2 ^ 32 → single (touched rem) s ↔ cnt s (touched rem) = 1.
Proof.
  intros Hr. unfold single, wrap32. pose proof (cnt_nonneg s (touched rem)). pose proof (cnt_touched s rem).
  rewrite Z.mod_small by lia. done.
Qed.

Lemma cnt_one_range rem s : cnt s (touched rem) = 1 → 0 <= s < 3 * bl.
Proof.
  intros [Hin _]%cnt_one. apply elem_of_touched in Hin as [_ Hs].
  pose proof (slots_range (xr s (touched rem))) as Hf. rewrite Forall_forall in Hf. by apply Hf.
Qed.

Lemma peel_loop_spec (Hn : blen hashed < 2 ^ 32) : ∀ fuel sets q stack rem,
  table (3 * bl) sets (touched rem) → Forall (λ s, 0 <= s < 3 * bl) q →
  (∀ s, cnt s (touched rem) = 1 → s ∈ q) →
  (length q + 3 * length rem <= fuel)%nat →
  map fst stack ++ rem ≡ₚ seqZ 0 (blen hashed) → peeled stack rem →
  ∃ st' rem', peel_loop bl hashed fuel sets q stack = (st', []) ∧
    map fst st' ++ rem' ≡ₚ seqZ 0 (blen hashed) ∧ peeled st' rem' ∧ ∀ s, cnt s (touched rem') ≠ 1.
Proof.
  induction fuel as [|fuel IH]; intros sets q stack rem Ht Hq Hone Hf Hp Hst.
  { destruct q; [|cbn [length] in Hf; lia]. exists stack, rem. cbn.
    split_and!; [done..|]. intros s Hs%Hone. by apply elem_of_nil in Hs. }
  destruct q as [|s q]; cbn [peel_loop].
  { exists stack, rem. split_and!; [done..|]. intros s Hs%Hone. by apply elem_of_nil in Hs. }
  apply Forall_cons in Hq as [Hs Hq].
  assert (NoDup rem ∧ blen rem < 2 ^ 32) as [Hnd Hr].
  { split; [assert (NoDup (map fst stack ++ rem)) as Hnd by (rewrite Hp; apply NoDup_seqZ); by apply NoDup_app in Hnd as (_ & _ & ?)|].
    apply Permutation_length in Hp. rewrite length_app, length_seqZ in Hp. unfold blen in *. lia. }
  rewrite (proj2 Ht s Hs).
  destruct (decide (wrap32 (cnt s (touched rem)) = 1)) as [E|E].
  - rewrite E. apply (single_iff rem s Hr) in E.
    destruct (single_key rem s Hnd E) as (rem' & Hrem & Hsk & Hother). set (k := xr s (touched rem)) in *.
    fold (slots k). assert (length rem = S (length rem')) as Hlen by (by rewrite Hrem).
    destruct (unbumps_table k (slots k) sets q (touched rem') (slots_range k) (slots_nodup k)) as (Ht1 & Hq1 & Hq2 & Hk1 & Hl1).
    { eapply table_perm; [|exact Ht]. by rewrite (touched_perm _ _ Hrem). }
    destruct (foldl (unbump k) (sets, q) (slots k)) as [sets1 q1]. cbn [fst snd] in *.
    destruct (slots_spec k) as (a & b & c & Eabc & _).
    apply (IH sets1 q1 _ rem'); [done| | | | |].
    + apply Forall_forall. intros x Hx%Hq2%elem_of_app. pose proof (slots_range k) as Hsr.
      rewrite Forall_forall in Hsr, Hq. naive_solver.
    + intros x Hx. destruct (decide (x ∈ slots k)) as [Hxk|Hxk].
      { apply Hk1; [done|]. apply single_iff; [|done]. unfold blen in *. lia. }
      apply Hq1. assert (x ∈ s :: q) as [->|Hxq]%elem_of_cons; [|done|done].
      apply Hone. rewrite (cnt_perm x _ _ (touched_perm _ _ Hrem)). cbn [touched].
      rewrite cnt_app, cnt_map, bool_decide_false by (apply slots_nodup || done). done.
    + rewrite Eabc in Hl1. cbn [length] in *. lia.
    + rewrite map_app, <- app_assoc. cbn [map fst app]. by rewrite <- Hrem.
    + apply (peeled_snoc stack k s); [|done|done].
      clear -Hst Hrem. induction stack as [|e st IHs]; cbn [peeled] in *; [done|].
      destruct Hst as (H1 & H2 & H3). split_and!; [done| |by apply IHs]. intros k' Hk'. apply H2.
      by rewrite Hrem.
  - assert (∀ A (a b : A), match wrap32 (cnt s (touched rem)) with 1 => a | _ => b end = b) as Hm.
    { intros A a b. by destruct (wrap32 _) as [|[]|]. }
    rewrite Hm. apply (IH sets q stack rem); [done|done| |cbn [length] in Hf; lia|done|done].
    intros x Hx. assert (x ∈ s :: q) as [->|Hxq]%elem_of_cons by (by apply Hone); [|done].
    by apply (single_iff rem s Hr) in Hx.
Qed.

Lemma singles_spec sets T s :
  table (3 * bl) sets T → s ∈ singles sets ↔ 0 <= s < 3 * bl ∧ single T s.
Proof.
  intros [Hl Ht]. unfold singles. rewrite elem_of_bfilter, list_elem_of_fmap. split.
  - intros [(i & -> & Hi%elem_of_seq) E]. assert (0 <= Z.of_nat i < 3 * bl) as Hr by lia. split; [done|].
    rewrite (Ht _ Hr) in E. unfold single. by destruct (wrap32 _) as [|[]|].
  - intros [Hr Hs]. split; [exists (Z.to_nat s); split; [lia|apply elem_of_seq; lia]|].
    rewrite (Ht s Hr). unfold single in Hs. by rewrite Hs.
Qed.

(** Phase 2 ends with an empty queue, and with the keys it could not peel: no
    slot is touched by exactly one of them. *)
Lemma peel_spec (Hn : blen hashed < 2 ^ 32) :
  ∃ rem, map fst (peel bl hashed (slot_sets bl (3 * bl) hashed)) ++ rem ≡ₚ seqZ 0 (blen hashed) ∧
    peeled (peel bl hashed (slot_sets bl (3 * bl) hashed)) rem ∧ ∀ s, cnt s (touched rem) ≠ 1.
Proof.
  pose proof slot_sets_table as Ht. unfold peel. set (sets := slot_sets bl (3 * bl) hashed) in *.
  destruct (peel_loop_spec Hn (peel_fuel sets (length hashed)) sets (rev (singles sets)) []
    (seqZ 0 (blen hashed))) as (st & rem & E & Hp & Hst & Hrem); [done|..].
  - apply Forall_forall. intros s Hs. rewrite list_elem_of_In, <- in_rev, <- list_elem_of_In in Hs.
    by apply (singles_spec sets _ s Ht) in Hs as [? _].
  - intros s Hs. rewrite list_elem_of_In, <- in_rev, <- list_elem_of_In. apply (singles_spec sets _ s Ht). split; [by eapply cnt_one_range|].
    apply single_iff; [|done]. unfold blen. rewrite length_seqZ. unfold blen in Hn. lia.
  - rewrite rev_length, length_seqZ. unfold peel_fuel, blen. rewrite Nat2Z.id.
    pose proof (List.filter_length_le (λ s, match sets !! Z.to_nat s with Some (_, 1) => true | _ => false end)
      (map Z.of_nat (seq 0 (length sets)))) as Hle. unfold singles. rewrite length_map, length_seq in Hle. lia.
  - done.
  - done.
  - rewrite E. exists rem. done.
Qed.

(** ** Fingerprint assignment *)

Definition slot_xor (fp : list Z) (h : Z) : Z := foldl (λ acc s, Z.lxor acc (slot_fp fp s)) 0 (subhashes bl h).

Lemma slot_fp_insert fp x f s :
  0 <= x → (Z.to_nat x < length fp)%nat → 0 <= s →
  slot_fp (<[Z.to_nat x := f]> fp) s = if x =? s then f else slot_fp fp s.
Proof.
  intros Hx Hl Hs. unfold slot_fp. rewrite !index_lookup by done. destruct (Z.eqb_spec x s) as [->|Hne].
  - rewrite list_lookup_insert_eq by done. done.
  - rewrite list_lookup_insert_ne by lia. done.
Qed.

Lemma slot_xor_frame fp x f h :
  0 <= x → (Z.to_nat x < length fp)%nat → x ∉ subhashes bl h →
  slot_xor (<[Z.to_nat x := f]> fp) h = slot_xor fp h.
Proof.
  intros Hx Hl. unfold slot_xor. destruct (subhashes_spec bl h Hbl Hmax) as (a & b & c & -> & ? & ? & ?).
  intros Hni. cbn [foldl]. rewrite !slot_fp_insert by (done || lia).
  rewrite (proj2 (Z.eqb_neq x a)), (proj2 (Z.eqb_neq x b)), (proj2 (Z.eqb_neq x c)); [done|set_solver..].
Qed.

Ltac lxor_norm := apply Z.bits_inj'; intros ? ?; rewrite ?Z.lxor_spec, ?Z.bits_0; repeat destruct (Z.testbit _ _); reflexivity.

Lemma slot_xor_assign fp k slot :
  slot ∈ slots k → (length fp = Z.to_nat (3 * bl)) →
  slot_xor (assign_step bl hashed (k, slot) fp) (default 0 (index hashed k)) = fingerprint (default 0 (index hashed k)).
Proof.
  unfold slots, slot_xor, assign_step. set (h := default 0 (index hashed k)).
  destruct (subhashes_spec bl h Hbl Hmax) as (a & b & c & -> & ? & ? & ?). intros Hs Hl.
  rewrite !elem_of_cons, elem_of_nil in Hs. cbn [foldl]. rewrite !slot_fp_insert by lia.
  destruct Hs as [->|[->|[->|[]]]]; rewrite Z.eqb_refl; repeat (rewrite (proj2 (Z.eqb_neq _ _)) by lia);
  generalize (fingerprint h); intros f; lxor_norm.
Qed.
End peeling.

(** A filter that [build] can return and [from_bytes] can accept. *)
Definition well_formed (x : Xor8) : Prop :=
  if match_all x then fingerprints x = [] ∧ block_length x = 0
  else is_u64 (seed x) ∧ 0 < block_length x ∧ 3 * block_length x <= u32_max ∧
       blen (fingerprints x) = 3 * block_length x ∧ Forall (λ f, 0 <= f < 256) (fingerprints x).

Lemma fingerprint_range h : 0 <= fingerprint h < 256.
Proof. apply Z.mod_pos_bound. done. Qed.

Lemma slot_fp_range fp s : Forall (λ f, 0 <= f < 256) fp → 0 <= slot_fp fp s < 256.
Proof.
  intros Hf. unfold slot_fp. destruct (index fp s) as [f|] eqn:E; [|done].
  apply index_Some in E as [_ E]. rewrite Forall_lookup in Hf. cbn. by eapply Hf.
Qed.

Lemma foldl_lxor_range (g : Z → Z) xs acc :
  (∀ s, 0 <= g s < 256) → 0 <= acc < 256 → 0 <= foldl (λ acc s, Z.lxor acc (g s)) acc xs < 256.
Proof.
  intros Hg. revert acc. induction xs as [|x xs IH]; intros acc Ha; cbn [foldl]; [done|].
  by apply IH, lxor_byte.
Qed.

Section assign.
Context (bl : Z) (hashed : list Z).
Context (Hbl : 0 < bl) (Hmax : 3 * bl <= u32_max).

Lemma assign_fingerprints_shape stack :
  length (assign_fingerprints bl (3 * bl) hashed stack) = Z.to_nat (3 * bl) ∧
  Forall (λ f, 0 <= f < 256) (assign_fingerprints bl (3 * bl) hashed stack).
Proof.
  induction stack as [|[k slot] stack [Hl Hf]]; cbn [assign_fingerprints foldr].
  - split; [apply repeat_length|]. apply Forall_forall. intros f Hin.
    apply list_elem_of_In, repeat_spec in Hin as ->. done.
  - fold (assign_fingerprints bl (3 * bl) hashed stack). unfold assign_step.
    split; [by rewrite length_insert|]. apply Forall_insert; [done|].
    apply foldl_lxor_range; [|apply fingerprint_range]. intros s. case_match; [done|by apply slot_fp_range].
Qed.

(** Assigned in reverse peel order, every key's slots xor to its fingerprint. *)
Lemma assign_fingerprints_spec stack :
  peeled bl hashed stack [] →
  ∀ k, k ∈ map fst stack →
  slot_xor bl (assign_fingerprints bl (3 * bl) hashed stack) (default 0 (index hashed k)) =
  fingerprint (default 0 (index hashed k)).
Proof.
  induction stack as [|[k0 slot] stack IH]; cbn [peeled map fst snd]; [set_solver|].
  intros (Hs & Hlater & Hst) k Hk. cbn [assign_fingerprints foldr].
  fold (assign_fingerprints bl (3 * bl) hashed stack).
  pose proof (assign_fingerprints_shape stack) as [Hl _].
  assert (0 <= slot < 3 * bl) as Hr by (eapply subhashes_range; eassumption).
  apply elem_of_cons in Hk as [->|Hk].
  - by apply slot_xor_assign.
  - unfold assign_step. rewrite slot_xor_frame; [by apply IH|done..|lia|lia|].
    apply (Hlater k). rewrite app_nil_r. done.
Qed.
End assign.

(** [try_build] fills every slot, and every key of the list checks out. *)
Lemma try_build_spec keys sd bl fp :
  0 < bl → 3 * bl <= u32_max → blen keys <= u32_max →
  try_build keys sd bl (3 * bl) = Some fp →
  blen fp = 3 * bl ∧ Forall (λ f, 0 <= f < 256) fp ∧
  ∀ k, k ∈ keys → slot_xor bl fp (mix k sd) = fingerprint (mix k sd).
Proof.
  intros Hbl Hmax Hn. unfold try_build. set (hashed := map _ keys).
  destruct (length _ =? length keys)%nat eqn:El; [|done]. intros [= <-]. apply Nat.eqb_eq in El.
  assert (blen hashed = blen keys) as Hh by (unfold blen, hashed; by rewrite length_map).
  destruct (peel_spec bl hashed Hbl Hmax) as (rem & Hp & Hst & _); [unfold u32_max in Hn; lia|].
  set (stack := peel bl hashed _) in *.
  pose proof (assign_fingerprints_shape bl hashed stack) as [Hl Hf].
  split_and!; [unfold blen; lia|done|]. intros k [i Hi]%list_elem_of_lookup_1.
  assert (hashed !! i = Some (mix k sd)) as Hhi by (unfold hashed; by rewrite list_lookup_fmap, Hi).
  assert (rem = []) as ->.
  { apply Permutation_length in Hp. rewrite length_app, length_map, length_seqZ, El, Hh in Hp.
    unfold blen in Hp. destruct rem; [done|cbn [length] in Hp; lia]. }
  assert (default 0 (index hashed (Z.of_nat i)) = mix k sd) as Hidx.
  { rewrite index_lookup, Nat2Z.id, Hhi by lia. done. }
  rewrite <- Hidx. apply assign_fingerprints_spec; [done..|].
  rewrite app_nil_r in Hp. rewrite Hp, elem_of_seqZ. apply lookup_lt_Some in Hhi. unfold blen. lia.
Qed.

Lemma first_seed_spec seeds keys bl cap sd fp :
  first_seed seeds keys bl cap = Some (sd, fp) → sd ∈ seeds ∧ try_build keys sd bl cap = Some fp.
Proof.
  induction seeds as [|sd' seeds IH]; cbn [first_seed]; [done|].
  destruct (try_build keys sd' bl cap) eqn:E.
  - intros [= <- <-]. split; [apply list_elem_of_here|done].
  - intros [? ?]%IH. split; [by apply list_elem_of_further|done].
Qed.

Lemma SEEDS_u64 : Forall is_u64 SEEDS.
Proof. apply Forall_forall. intros s Hs. assert (forallb (λ s, (0 <=? s) && (s <=? u64_max)) SEEDS = true) as H by (vm_compute; reflexivity).
  rewrite forallb_forall in H. apply list_elem_of_In, H in Hs. unfold is_u64. lia. Qed.

Lemma index_slot_fp fp s : 0 <= s < blen fp → index fp s = Some (slot_fp fp s).
Proof.
  intros Hs. unfold slot_fp. rewrite index_lookup by lia.
  destruct (lookup_lt_is_Some_2 fp (Z.to_nat s)) as [f ->]; [unfold blen in Hs; lia|done].
Qed.

(** No index of [contains] is out of bounds on a well-formed filter. *)
Lemma xor_contains_spec x key :
  well_formed x →
  contains x key = Some (match_all x || (fingerprint (mix key (seed x)) =? slot_xor (block_length x) (fingerprints x) (mix key (seed x)))).
Proof.
  unfold well_formed, contains. destruct (match_all x); [done|]. intros (_ & Hbl & Hmax & Hl & _).
  unfold slot_xor. destruct (subhashes_spec (block_length x) (mix key (seed x)) Hbl Hmax) as (a & b & c & -> & ? & ? & ?).
  rewrite !index_slot_fp by lia. cbn [mbind option_bind foldl orb]. rewrite Z.lxor_0_l. done.
Qed.

Lemma capacity_of_multiple slots_for size : capacity_of slots_for size = 3 * (capacity_of slots_for size / 3) ∧ 3 <= capacity_of slots_for size.
Proof.
  unfold capacity_of. set (c := Z.max _ 3). assert (3 <= c) by lia.
  pose proof (Z.mod_pos_bound c 3 ltac:(lia)). pose proof (Z.div_mod c 3 ltac:(lia)).
  pose proof (Z.mod_pos_bound (3 - c mod 3) 3 ltac:(lia)). pose proof (Z.div_mod (3 - c mod 3) 3 ltac:(lia)).
  split; [|lia]. set (d := (3 - c mod 3) mod 3) in *.
  assert ((c + d) mod 3 = 0) by (unfold d; rewrite Zplus_mod_idemp_r; replace (c + (3 - c mod 3)) with ((c / 3 + 1) * 3) by lia; apply Z_mod_mult).
  pose proof (Z.div_mod (c + d) 3 ltac:(lia)). lia.
Qed.

Lemma build_spec slots_for keys :
  blen keys <= u32_max → capacity_of slots_for (blen (dedup (Ordered.sort keys))) <= u32_max →
  well_formed (build slots_for keys) ∧ (match_all (build slots_for keys) = true → seed (build slots_for keys) = 0) ∧
  ∀ k, k ∈ keys → contains (build slots_for keys) k = Some true.
Proof.
  intros Hn Hcap. unfold build. set (ks := dedup (Ordered.sort keys)) in *.
  destruct (capacity_of_multiple slots_for (blen ks)) as [H3 Hge]. set (cap := capacity_of slots_for (blen ks)) in *.
  assert (wrap32 (cap / 3) = cap / 3) as -> by (apply Z.mod_small; unfold u32_max in Hcap; lia).
  set (bl := cap / 3) in *.
  assert (blen ks <= blen keys) as Hks.
  { unfold ks, blen. rewrite <- (Permutation_length (sort_perm keys)). apply inj_le. apply length_dedup. }
  destruct (first_seed SEEDS ks bl cap) as [[sd fp]|] eqn:E; [|by split_and!]. rewrite H3 in E.
  apply first_seed_spec in E as [Hsd E].
  apply try_build_spec in E as (Hl & Hf & Hk); [|lia..].
  assert (well_formed (mkXor8 sd bl fp false)) as Hwf.
  { unfold well_formed. cbn. pose proof SEEDS_u64 as Hs. rewrite Forall_forall in Hs. split_and!; [by apply Hs|lia|lia|done|done]. }
  split_and!; [done|done|]. intros k Hin. rewrite xor_contains_spec by done. cbn [match_all orb seed block_length fingerprints].
  rewrite Hk, Z.eqb_refl; [done|]. unfold ks. by rewrite elem_of_dedup, sort_perm.
Qed.

Lemma from_bytes_to_bytes x :
  well_formed x → (match_all x = true → seed x = 0) → from_bytes (to_bytes x) = Some x.
Proof.
  destruct x as [sd bl fp ma]. unfold well_formed, to_bytes, from_bytes.
  cbn [match_all seed block_length fingerprints]. destruct ma.
  { intros [-> ->] Hs. rewrite (Hs eq_refl). vm_compute. reflexivity. }
  intros (Hsd & Hbl & Hmax & Hl & Hf) _.
  assert (wrap32 (blen fp) = 3 * bl) as -> by (rewrite Hl; apply Z.mod_small; unfold u32_max in Hmax; lia).
  assert (blen (map byte_of fp) = 3 * bl) as Hm by (unfold blen; by rewrite length_map).
  rewrite !blen_app, !blen_le_bytes, Hm. rewrite (proj2 (Z.ltb_ge _ 16)) by lia.
  rewrite (slice_app0 (le64 sd)) by (by rewrite ?blen_le_bytes). cbn [fmap option_fmap option_map].
  cbn [mbind option_bind]. rewrite le64_roundtrip by done.
  rewrite (slice_app (le64 sd) (le32 bl) _ 8 12) by (rewrite ?blen_le_bytes; lia). cbn [fmap option_fmap option_map mbind option_bind].
  rewrite app_assoc. rewrite (slice_app (le64 sd ++ le32 bl) (le32 (3 * bl)) _ 12 16) by (rewrite ?blen_app, ?blen_le_bytes; lia).
  cbn [fmap option_fmap option_map mbind option_bind]. rewrite !le32_roundtrip by (unfold is_u32; lia).
  rewrite (proj2 (Z.eqb_eq _ (16 + 3 * bl))) by lia. cbn [negb]. rewrite (proj2 (Z.eqb_neq bl 0)) by lia.
  rewrite Z.eqb_refl. cbn [negb]. rewrite app_assoc, <- (app_nil_r (map byte_of fp)).
  rewrite (slice_app ((le64 sd ++ le32 bl) ++ le32 (3 * bl)) (map byte_of fp) [])
    by (rewrite ?blen_app, ?blen_le_bytes, ?Hm; lia).
  cbn [mbind option_bind]. do 2 f_equal. rewrite map_map.
  erewrite map_ext_in; [apply map_id|]. intros f Hin%list_elem_of_In. rewrite Forall_forall in Hf.
  rewrite byte_val_of. by apply Z.mod_small, Hf.
Qed.

Lemma from_bytes_well_formed bs x : from_bytes bs = Some x → well_formed x.
Proof.
  unfold from_bytes. destruct (blen bs <? 16) eqn:E16; [done|].
  destruct (slice bs 0 8) as [b1|] eqn:E1; [|done]. destruct (slice bs 8 12) as [b2|] eqn:E2; [|done].
  destruct (slice bs 12 16) as [b3|] eqn:E3; [|done]. cbn [fmap option_fmap option_map mbind option_bind].
  destruct (Z.eqb_spec (blen bs) (16 + le_val b3)) as [Hlen|]; [|done]. cbn [negb].
  destruct (Z.eqb_spec (le_val b2) 0) as [H0|H0].
  { destruct (le_val b3 =? 0); [|done]. intros [= <-]. done. }
  destruct (Z.eqb_spec (le_val b3) (3 * le_val b2)) as [H3|]; [|done]. cbn [negb].
  destruct (slice bs 16 (blen bs)) as [rest|] eqn:E4; [|done]. intros [= <-]. unfold well_formed. cbn.
  pose proof (le_val_range b1). pose proof (le_val_range b2). pose proof (le_val_range b3).
  apply blen_slice in E1, E2, E3, E4.
  assert (length b1 = 8%nat) as L1 by (unfold blen in E1; lia). assert (length b2 = 4%nat) as L2 by (unfold blen in E2; lia).
  assert (length b3 = 4%nat) as L3 by (unfold blen in E3; lia). rewrite L1, L2, L3 in *.
  split_and!.
  - unfold is_u64, u64_max. change (256 ^ Z.of_nat 8) with (2 ^ 64) in *. lia.
  - lia.
  - unfold u32_max. change (256 ^ Z.of_nat 4) with (2 ^ 32) in *. lia.
  - unfold blen in *. rewrite length_map. lia.
  - apply Forall_forall. intros f (b & -> & _)%list_elem_of_fmap. apply byte_val_range.
Qed.

(** ** Properties *)

(** A skip filter never hides a member: after a trip through its frozen
    wire form the built filter is unchanged, and it answers "maybe present"
    for every key it was built over, whichever seed was used and also when
    none of the 32 seeds works. *)
Theorem no_false_negatives (slots_for : Z → Z) (keys : list Z) :
  blen keys <= u32_max →
  capacity_of slots_for (blen (dedup (Ordered.sort keys))) <= u32_max →
  from_bytes (to_bytes (build slots_for keys)) = Some (build slots_for keys) ∧
  ∀ k, k ∈ keys → contains (build slots_for keys) k = Some true.
Proof.
  intros Hn Hcap. destruct (build_spec slots_for keys Hn Hcap) as (Hwf & Hs & Hk).
  split; [by apply from_bytes_to_bytes|done].
Qed.

(** A filter decoded from any bytes answers every query without an index
    out of bounds, and the filter a node builds depends on the set of keys
    only: not on their order or on duplicates. *)
Theorem filter_total_deterministic :
  (∀ bs x key, from_bytes bs = Some x → ∃ b, contains x key = Some b) ∧
  (∀ slots_for keys keys', (∀ k, k ∈ keys ↔ k ∈ keys') → build slots_for keys = build slots_for keys').
Proof.
  split.
  - intros bs x key Hx. eexists. by apply xor_contains_spec, (from_bytes_well_formed bs).
  - intros slots_for keys keys' Hk. unfold build. rewrite (sort_dedup_ext keys keys' Hk). done.
Qed.

Lemma no_false_negatives_witness :
  let slots n := (123 * n + 99) / 100 in
  contains (build slots [5; 7; 5; 2 ^ 63]) 7 = Some true ∧
  from_bytes (to_bytes (build slots [5; 7; 5; 2 ^ 63])) = Some (build slots [5; 7; 5; 2 ^ 63]).
Proof.
  destruct (no_false_negatives (λ n, (123 * n + 99) / 100) [5; 7; 5; 2 ^ 63]) as [Hw Hk];
    [vm_compute; discriminate..|].
  split; [apply Hk; right; left|exact Hw].
Defined.
