(* ===== verification/Search.v ===== *)
(** * Published search index ([crates/epix-search/src/lib.rs], [index.rs])

    The frozen tokenizer, term hashes, and the sharded inverted index from
    terms to record pointers. The tokenizer is specified by the maximal
    alphanumeric runs of the text; the index refines the set of (text,
    pointer) pairs it was built from. BLAKE3 is a parameter.

    Text is its UTF-8 bytes: every byte of a non-ASCII character is a
    separator, exactly as the character is. *)
From S2P Require Import Prelude Ordered.
From Stdlib Require Import ZArith Lia Strings.Byte Strings.String.
From stdpp Require Import base list sorting strings gmap.
#[local] Open Scope Z_scope.

(** ** [tokenize] *)

Definition is_ascii_alphanumeric (b : byte) : bool :=
  let c := byte_val b in
  ((48 <=? c) && (c <=? 57)) || ((65 <=? c) && (c <=? 90)) || ((97 <=? c) && (c <=? 122)).

Definition to_ascii_lowercase (b : byte) : byte :=
  let c := byte_val b in if (65 <=? c) && (c <=? 90) then byte_of (c + 32) else b.

Definition flush (st : bytes * list bytes) : bytes * list bytes :=
  let '(cur, out) := st in
  if (2 <=? blen cur) && (blen cur <=? 40) then ([], out ++ [cur]) else ([], out).

Definition token_step (st : bytes * list bytes) (ch : byte) : bytes * list bytes :=
  if is_ascii_alphanumeric ch then (st.1 ++ [to_ascii_lowercase ch], st.2) else flush st.

Definition tokenize (text : bytes) : list bytes :=
  dedup (Ordered.sort (flush (foldl token_step ([], []) text)).2).

Record Pointer := mkPointer { segment_root : bytes; offset : Z; len : Z }.

Definition pointer_key (p : Pointer) : bytes * (Z * Z) := (segment_root p, (offset p, len p)).

(** The derived [Ord]: field by field. *)
#[global] Program Instance Pointer_ord : Ord Pointer := { cmp a b := cmp (pointer_key a) (pointer_key b) }.
Next Obligation.
  intros [s o l] [s' o' l']. rewrite cmp_eq_iff. unfold pointer_key. cbn. split; [|congruence]. by intros [= -> -> ->].
Qed.
Next Obligation. intros a b. apply cmp_opp. Qed.
Next Obligation. intros a b c. apply cmp_lt_trans. Qed.

#[global] Instance Pointer_eq_dec : EqDecision Pointer.
Proof. solve_decision. Defined.

Definition SHARD_COUNT : Z := 256.

(** ** [Shard] *)

Abbreviation Shard := (btree Z (list Pointer)).

Definition shard_add (s : Shard) (term : Z) (ptr : Pointer) : Shard :=
  bt_upsert (λ l, l ++ [ptr]) term [ptr] s.

Definition shard_finalize (s : Shard) : Shard := bt_map (λ l, dedup (Ordered.sort l)) s.

Definition postings_for (s : Shard) (term : Z) : list Pointer := default [] (bt_get s term).

Definition pointer_bytes (p : Pointer) : bytes := segment_root p ++ le64 (offset p) ++ le32 (len p).

Definition shard_to_bytes (s : Shard) : bytes :=
  bstr "EDXSHRD1" ++ le32 (blen s) ++
  concat (map (λ e : Z * list Pointer, le64 e.1 ++ le32 (blen e.2) ++ concat (map pointer_bytes e.2)) s).

Section index.
Context (blake3 : bytes → bytes).

Definition shard_root (s : Shard) : bytes := blake3 (shard_to_bytes s).

Definition term_hash (term : bytes) : Z := le_val (firstn 8 (blake3 term)).

(** ** [InvertedIndex] *)

Abbreviation InvertedIndex := (btree Z Shard).

Definition index_tok (ptr : Pointer) (idx : InvertedIndex) (tok : bytes) : InvertedIndex :=
  let th := term_hash tok in
  let shard := th mod SHARD_COUNT in
  bt_upsert (λ s, shard_add s th ptr) shard (shard_add [] th ptr) idx.

Definition add_record (idx : InvertedIndex) (text : bytes) (ptr : Pointer) : InvertedIndex :=
  foldl (index_tok ptr) idx (tokenize text).

Definition finalize (idx : InvertedIndex) : InvertedIndex := bt_map shard_finalize idx.

Definition shard_of (term : bytes) : Z := term_hash term mod SHARD_COUNT.

Definition query (idx : InvertedIndex) (term : bytes) : list Pointer :=
  let th := term_hash term in
  default [] ((λ s, postings_for s th) <$> bt_get idx (th mod SHARD_COUNT)).

Definition query_all (idx : InvertedIndex) (terms : list bytes) : list Pointer :=
  match terms with
  | [] => []
  | first :: rest =>
    foldl (λ acc t, List.filter (λ p, bool_decide (p ∈ query idx t)) acc) (query idx first) rest
  end.

Definition get_shard (idx : InvertedIndex) (shard : Z) : option Shard := bt_get idx shard.

Definition meta_root (idx : InvertedIndex) : bytes :=
  blake3 (bstr "EDXMETA1" ++ le64 SHARD_COUNT ++ le32 (blen idx) ++
    concat (map (λ e : Z * Shard, le64 e.1 ++ shard_root e.2) idx)).
End index.

Example tokenize_test : tokenize (bstr "Hello, WORLD! hello x foo-bar1") =
  [bstr "bar1"; bstr "foo"; bstr "hello"; bstr "world"].
Proof. vm_compute. reflexivity. Qed.

(** ** The tokenizer against maximal runs *)

Definition sep_start (l : bytes) : Prop :=
  match l with [] => True | b :: _ => is_ascii_alphanumeric b = false end.
Definition sep_end (l : bytes) : Prop := ∀ l' b, l = l' ++ [b] → is_ascii_alphanumeric b = false.
Definition alnum (l : bytes) : Prop := Forall (λ b, is_ascii_alphanumeric b = true) l.

(** [run] is a maximal alphanumeric run of [pre ++ run ++ post]. *)
Definition maximal_run (pre run post : bytes) : Prop := sep_end pre ∧ alnum run ∧ sep_start post.
Definition token_sized (run : bytes) : Prop := 2 <= blen run <= 40.

Lemma maximal_suffix_inj p1 r1 p2 r2 :
  p1 ++ r1 = p2 ++ r2 → sep_end p1 → sep_end p2 → alnum r1 → alnum r2 → p1 = p2 ∧ r1 = r2.
Proof.
  assert (∀ k r p, sep_end (p ++ k) → alnum (k ++ r) → k = []) as Haux.
  { intros k r p Hs Ha. destruct k as [|b k] using rev_ind; [done|].
    specialize (Hs (p ++ k) b). rewrite app_assoc in Hs. specialize (Hs eq_refl).
    unfold alnum in Ha. rewrite !Forall_app, Forall_singleton in Ha. destruct Ha as [[_ Hb] _]. congruence. }
  intros E H1 H2 A1 A2. apply app_eq_inv in E as [(k & -> & ->)|(k & -> & ->)].
  - assert (k = []) as -> by (by eapply (Haux k r1 p2)). by rewrite app_nil_r.
  - assert (k = []) as -> by (by eapply (Haux k r2 p1)). by rewrite app_nil_r.
Qed.

(** The loop's state after [text]: the open run, and the tokens of the runs
    already closed by a separator. *)
Definition scanned (text : bytes) (st : bytes * list bytes) : Prop :=
  (∃ pre run, text = pre ++ run ∧ sep_end pre ∧ alnum run ∧ st.1 = map to_ascii_lowercase run) ∧
  ∀ t, t ∈ st.2 ↔ ∃ pre run post, text = pre ++ run ++ post ∧ post ≠ [] ∧ maximal_run pre run post ∧
    token_sized run ∧ t = map to_ascii_lowercase run.

Lemma sep_end_snoc l b : is_ascii_alphanumeric b = false → sep_end (l ++ [b]).
Proof. intros Hb l' b' E. apply app_inj_tail in E as [_ <-]. done. Qed.

Lemma flush_snd cur out t :
  t ∈ (flush (cur, out)).2 ↔ t ∈ out ∨ (token_sized cur ∧ t = cur).
Proof.
  unfold flush, token_sized. destruct (Z.leb_spec 2 (blen cur)), (Z.leb_spec (blen cur) 40); cbn [andb snd];
    rewrite ?elem_of_app, ?list_elem_of_singleton; intuition (subst; auto; lia).
Qed.

Lemma flush_fst st : (flush st).1 = [].
Proof. destruct st as [cur out]. unfold flush. by destruct (_ && _). Qed.

Lemma token_sized_map f run : token_sized (map f run) ↔ token_sized run.
Proof. unfold token_sized, blen. by rewrite length_map. Qed.

Lemma scanned_step text st ch : scanned text st → scanned (text ++ [ch]) (token_step st ch).
Proof.
  destruct st as [cur out]. intros [(pre & run & -> & Hp & Ha & Hc) Ho]. cbn [fst snd] in *. unfold token_step.
  destruct (is_ascii_alphanumeric ch) eqn:Ech.
  - split; cbn [fst snd].
    + exists pre, (run ++ [ch]). rewrite app_assoc, map_app, Hc. split_and!; [done|done| |done].
      apply Forall_app. split; [done|]. by apply Forall_singleton.
    + intros t. rewrite Ho. split; intros (p & r & q & E & Hq & (H1 & H2 & H3) & Hr & Ht).
      * exists p, r, (q ++ [ch]). rewrite E, !app_assoc. split_and!; [done|by destruct q|split_and!; [done..|by destruct q]|done|done].
      * destruct q as [|b q _] using rev_ind; [done|]. rewrite !app_assoc in E. apply app_inj_tail in E as [E <-].
        exists p, r, q. rewrite <- app_assoc in E. destruct q as [|b q]; [cbn in H3; congruence|].
        split_and!; [done|done|split_and!; done|done|done].
  - split.
    + exists ((pre ++ run) ++ [ch]), []. rewrite app_nil_r, flush_fst. split_and!; [done|by apply sep_end_snoc|constructor|done].
    + intros t. rewrite flush_snd, Ho, Hc, token_sized_map. split.
      * intros [(p & r & q & E & Hq & (H1 & H2 & H3) & Hr & Ht)|[Hs ->]].
        -- exists p, r, (q ++ [ch]). rewrite E, !app_assoc. split_and!; [done|by destruct q|split_and!; [done..|by destruct q]|done|done].
        -- exists pre, run, [ch]. rewrite app_assoc. split_and!; [done|done|split_and!; done|done|done].
      * intros (p & r & q & E & Hq & (H1 & H2 & H3) & Hr & Ht).
        destruct q as [|b q _] using rev_ind; [done|]. rewrite !app_assoc in E. apply app_inj_tail in E as [E <-].
        destruct q as [|b q].
        -- right. rewrite app_nil_r in E. apply maximal_suffix_inj in E as [-> ->]; done.
        -- left. exists p, r, (b :: q). rewrite <- app_assoc in E. split_and!; [done|done|split_and!; done|done|done].
Qed.

Lemma scanned_all text : scanned text (foldl token_step ([], []) text).
Proof.
  induction text as [|ch text IH] using rev_ind.
  - split; [exists [], []; split_and!; [done|by intros [] ?|constructor|done]|]. intros t. cbn. split; [by intros ?%elem_of_nil|].
    intros (p & r & q & E & Hq & _). by destruct p, r, q.
  - rewrite foldl_app. cbn [foldl]. by apply scanned_step.
Qed.

(** The tokens are the lower-cased maximal runs of 2 to 40 bytes. *)
Lemma elem_of_tokenize text t :
  t ∈ tokenize text ↔ ∃ pre run post, text = pre ++ run ++ post ∧ maximal_run pre run post ∧
    token_sized run ∧ t = map to_ascii_lowercase run.
Proof.
  unfold tokenize. rewrite elem_of_dedup, sort_perm. destruct (scanned_all text) as [(pre & run & E & Hp & Ha & Hc) Ho].
  destruct (foldl _ _ text) as [cur out]. cbn [fst snd] in *. rewrite flush_snd, Ho, Hc, token_sized_map. split.
  - intros [(p & r & q & ? & _ & ?)|[Hs ->]]; [by exists p, r, q|]. exists pre, run, [].
    rewrite app_nil_r. by split_and!.
  - intros (p & r & q & E' & Hm & Hr & ->). destruct q as [|b q].
    + right. rewrite E, app_nil_r in E'. destruct Hm as (H1 & H2 & _).
      apply maximal_suffix_inj in E' as [-> ->]; done.
    + left. exists p, r, (b :: q). done.
Qed.

Lemma tokenize_sorted text : StronglySorted olt (tokenize text).
Proof. apply dedup_sorted, sort_sorted. Qed.

(** ** The index against its corpus *)

Section index_facts.
Context (blake3 : bytes → bytes).
Abbreviation InvertedIndex := (btree Z Shard).
Implicit Types (idx : InvertedIndex) (p : Pointer).

(** The posting list of a term hash, before or after [finalize]. *)
Definition plist idx (th : Z) : list Pointer :=
  default [] ((λ s, postings_for s th) <$> bt_get idx (th mod SHARD_COUNT)).

(** Shards are sorted maps, hold their own hashes only, and no empty list. *)
Definition shard_wf (k : Z) (s : Shard) : Prop :=
  bt_wf s ∧ s ≠ [] ∧ ∀ th l, bt_get s th = Some l → th mod SHARD_COUNT = k ∧ l ≠ [].
Definition index_wf idx : Prop := bt_wf idx ∧ ∀ k s, bt_get idx k = Some s → shard_wf k s.

Lemma shard_add_wf k s th p :
  shard_wf k s ∨ s = [] → th mod SHARD_COUNT = k → shard_wf k (shard_add s th p).
Proof.
  intros Hs Hk. assert (bt_wf s) as Hwf by (destruct Hs as [Hs| ->]; [apply Hs|apply bt_wf_nil]). split_and!.
  - by apply bt_upsert_wf.
  - unfold shard_add. intros E. assert (bt_get (bt_upsert (λ l, l ++ [p]) th [p] s) th = None) as Hn by (by rewrite E).
    rewrite bt_get_upsert, decide_True in Hn by done. done.
  - intros th' l. unfold shard_add. rewrite bt_get_upsert. case_decide as Hd.
    + subst th'. intros [= <-]. split; [done|]. destruct (bt_get s th); [by destruct l|done].
    + destruct Hs as [Hs| ->]; [apply Hs|done].
Qed.

Lemma index_tok_wf p idx tok : index_wf idx → index_wf (index_tok blake3 p idx tok).
Proof.
  intros [Hb Hs]. split; [by apply bt_upsert_wf|]. intros k s. unfold index_tok. rewrite bt_get_upsert. case_decide as Hd.
  - intros [= <-]. destruct (bt_get idx _) as [s0|] eqn:E; apply shard_add_wf; subst k; auto.
  - apply Hs.
Qed.

Lemma postings_shard_add s th th' p :
  postings_for (shard_add s th p) th' = postings_for s th' ++ (if decide (th' = th) then [p] else []).
Proof.
  unfold postings_for, shard_add. rewrite bt_get_upsert.
  repeat case_decide; try congruence; [subst; by destruct (bt_get s th)|by rewrite app_nil_r].
Qed.

Lemma plist_index_tok p idx tok th :
  plist (index_tok blake3 p idx tok) th = plist idx th ++ (if decide (th = term_hash blake3 tok) then [p] else []).
Proof.
  unfold plist, index_tok. rewrite bt_get_upsert. case_decide as Hd.
  - cbn [fmap option_fmap option_map]. rewrite Hd. destruct (bt_get idx _) as [s|]; cbn [fmap option_fmap option_map];
      cbn [default from_option]; unfold Datatypes.id; rewrite postings_shard_add; done.
  - case_decide; [congruence|]. by rewrite app_nil_r.
Qed.

Lemma add_record_wf idx text p : index_wf idx → index_wf (add_record blake3 idx text p).
Proof. unfold add_record. generalize (tokenize text). intros l. revert idx. induction l as [|t l IH]; cbn; auto using index_tok_wf. Qed.

Lemma elem_of_add_record idx text p th q :
  q ∈ plist (add_record blake3 idx text p) th ↔
  q ∈ plist idx th ∨ (q = p ∧ ∃ tok, tok ∈ tokenize text ∧ term_hash blake3 tok = th).
Proof.
  unfold add_record. generalize (tokenize text). intros l. revert idx.
  induction l as [|t l IH]; intros idx; cbn [foldl]; [set_solver|].
  rewrite IH, plist_index_tok, elem_of_app. case_decide as Hd; [subst|]; set_solver.
Qed.

(** Filing a whole corpus of (text, pointer) records. *)
Definition file_all (corpus : list (bytes * Pointer)) : InvertedIndex :=
  foldl (λ idx r, add_record blake3 idx r.1 r.2) [] corpus.

(** What the index promises: a term leads to the records that contain a token
    with its hash. *)
Definition matches (corpus : list (bytes * Pointer)) (term : bytes) (p : Pointer) : Prop :=
  ∃ text tok, (text, p) ∈ corpus ∧ tok ∈ tokenize text ∧ term_hash blake3 tok = term_hash blake3 term.

Lemma file_all_spec corpus :
  index_wf (file_all corpus) ∧
  ∀ th q, q ∈ plist (file_all corpus) th ↔ ∃ text tok, (text, q) ∈ corpus ∧ tok ∈ tokenize text ∧ term_hash blake3 tok = th.
Proof.
  unfold file_all. induction corpus as [|[text p] corpus [IHw IH]] using rev_ind.
  - split; [split; [apply bt_wf_nil|done]|]. intros th q. unfold plist. cbn. set_solver.
  - rewrite foldl_app. cbn [foldl fst snd]. split; [by apply add_record_wf|]. intros th q.
    rewrite elem_of_add_record, IH. split.
    + intros [(x & t & Hx & Ht)|(-> & t & Ht)]; [exists x, t|exists text, t]; set_solver.
    + intros (x & t & [Hx|Hx%list_elem_of_singleton]%elem_of_app & Ht); [left; eauto|].
      injection Hx as -> ->. right. eauto.
Qed.

Lemma plist_finalize idx th : plist (finalize idx) th = dedup (Ordered.sort (plist idx th)).
Proof.
  unfold plist, finalize. rewrite bt_get_map. destruct (bt_get idx _) as [s|]; [|done].
  cbn [fmap option_fmap option_map default from_option]. unfold postings_for, shard_finalize, Datatypes.id.
  rewrite bt_get_map. by destruct (bt_get s th).
Qed.

Lemma elem_of_query_all idx terms p : terms ≠ [] →
  p ∈ query_all blake3 idx terms ↔ ∀ t, t ∈ terms → p ∈ query blake3 idx t.
Proof.
  destruct terms as [|t0 terms]; [done|]. intros _. cbn [query_all].
  assert (∀ terms acc, p ∈ foldl (λ acc t, List.filter (λ p, bool_decide (p ∈ query blake3 idx t)) acc) acc terms ↔
    p ∈ acc ∧ ∀ t, t ∈ terms → p ∈ query blake3 idx t) as Hf.
  { clear. induction terms as [|t terms IH]; intros acc; cbn [foldl]; [set_solver|].
    rewrite IH, elem_of_bfilter, bool_decide_eq_true. set_solver. }
  rewrite Hf. set_solver.
Qed.

Lemma dedup_sort_nil (l : list Pointer) : dedup (Ordered.sort l) = [] ↔ l = [].
Proof.
  split; [|by intros ->]. intros E. destruct l as [|x l]; [done|].
  assert (x ∈ dedup (Ordered.sort (x :: l))) as Hx by (rewrite elem_of_dedup, sort_perm; left).
  rewrite E in Hx. by apply elem_of_nil in Hx.
Qed.

(** A well-formed index has an entry exactly where its list is not empty. *)
Lemma shard_get_plist idx k s th : index_wf idx → bt_get idx k = Some s → th mod SHARD_COUNT = k →
  bt_get s th = if decide (plist idx th = []) then None else Some (plist idx th).
Proof.
  intros [_ Hw] Hs <-. unfold plist. rewrite Hs. cbn [fmap option_fmap option_map default from_option].
  unfold postings_for, Datatypes.id. destruct (bt_get s th) as [l|] eqn:E; cbn; [|by rewrite decide_True].
  apply (Hw _ _ Hs) in E as [_ E]. by rewrite decide_False.
Qed.

Lemma shard_has_list idx k s : index_wf idx → bt_get idx k = Some s → ∃ th, th mod SHARD_COUNT = k ∧ plist idx th ≠ [].
Proof.
  intros Hi Hs. destruct (proj2 Hi _ _ Hs) as (Hb & Hne & Hall). destruct s as [|[th l] s]; [done|].
  assert (bt_get ((th, l) :: s) th = Some l) as E by (cbn; by rewrite Z.compare_refl).
  destruct (Hall _ _ E) as [Hk Hl]. exists th. split; [done|].
  rewrite (shard_get_plist idx k _ th Hi Hs Hk) in E. by case_decide.
Qed.

Lemma finalize_ext idx1 idx2 :
  index_wf idx1 → index_wf idx2 → (∀ th p, p ∈ plist idx1 th ↔ p ∈ plist idx2 th) → finalize idx1 = finalize idx2.
Proof.
  intros H1 H2 Heq. assert (∀ th, plist idx1 th = [] ↔ plist idx2 th = []) as Hnil.
  { intros th. split; intros E; apply elem_of_nil_inv; intros p Hp%Heq; rewrite E in Hp; by apply elem_of_nil in Hp. }
  assert (∀ i1 i2, index_wf i1 → index_wf i2 → (∀ th, plist i1 th = [] ↔ plist i2 th = []) →
    ∀ k s, bt_get i1 k = Some s → is_Some (bt_get i2 k)) as Hsome.
  { intros i1 i2 Hi1 Hi2 Hn k s Hs. destruct (shard_has_list i1 k s Hi1 Hs) as (th & Hk & Hl).
    rewrite Hn in Hl. unfold plist in Hl. rewrite Hk in Hl. by destruct (bt_get i2 k). }
  apply bt_ext; [apply bt_map_wf, H1|apply bt_map_wf, H2|]. intros k. unfold finalize. rewrite !bt_get_map.
  destruct (bt_get idx1 k) as [s1|] eqn:E1.
  - destruct (Hsome _ _ H1 H2 Hnil k s1 E1) as [s2 E2]. rewrite E2. cbn [fmap option_fmap option_map]. f_equal.
    pose proof (proj2 H1 _ _ E1) as (B1 & _ & A1). pose proof (proj2 H2 _ _ E2) as (B2 & _ & A2).
    apply bt_ext; [by apply bt_map_wf..|]. intros th. unfold shard_finalize. rewrite !bt_get_map.
    destruct (decide (th mod SHARD_COUNT = k)) as [Hk|Hk].
    + rewrite (shard_get_plist idx1 k s1 th), (shard_get_plist idx2 k s2 th) by done.
      repeat case_decide; cbn [fmap option_fmap option_map]; [done|naive_solver..|].
      f_equal. apply sort_dedup_ext, Heq.
    + destruct (bt_get s1 th) as [l|] eqn:F1; [by apply A1 in F1 as [? _]|].
      destruct (bt_get s2 th) as [l|] eqn:F2; [by apply A2 in F2 as [? _]|]. done.
  - destruct (bt_get idx2 k) as [s2|] eqn:E2; [|done].
    destruct (Hsome idx2 idx1 H2 H1 ltac:(intros; symmetry; apply Hnil) k s2 E2) as [? E]. congruence.
Qed.
End index_facts.

(** ** Properties *)

(** The tokenizer computes exactly the lower-cased maximal alphanumeric
    runs of 2 to 40 bytes of the text, each once, in increasing order. *)
Theorem tokenize_correct (text : bytes) :
  StronglySorted olt (tokenize text) ∧
  ∀ t, t ∈ tokenize text ↔ ∃ pre run post, text = pre ++ run ++ post ∧ maximal_run pre run post ∧
    token_sized run ∧ t = map to_ascii_lowercase run.
Proof. split; [apply tokenize_sorted|]. intros t. apply elem_of_tokenize. Qed.

(** C38: the sharded index refines the relation between terms and records it
    was built from. A query on the finalized index returns, sorted and without
    duplicates, exactly the pointers of the records with a token of the term's
    hash; a multi-term query returns exactly their intersection; and two nodes
    that file the same set of records, in any order and with any repetitions,
    hold the same shards, hence commit to the same meta root. *)
Theorem index_refines (blake3 : bytes → bytes) (corpus : list (bytes * Pointer)) :
  let idx := finalize (file_all blake3 corpus) in
  (∀ term, StronglySorted olt (query blake3 idx term) ∧
    ∀ p, p ∈ query blake3 idx term ↔ matches blake3 corpus term p) ∧
  (∀ terms p, terms ≠ [] → p ∈ query_all blake3 idx terms ↔ ∀ t, t ∈ terms → matches blake3 corpus t p) ∧
  (∀ corpus', (∀ r, r ∈ corpus ↔ r ∈ corpus') → finalize (file_all blake3 corpus') = idx).
Proof.
  destruct (file_all_spec blake3 corpus) as [Hwf Hspec]. set (idx := finalize _).
  assert (∀ term, query blake3 idx term = plist idx (term_hash blake3 term)) as Hq by done.
  assert (∀ term p, p ∈ query blake3 idx term ↔ matches blake3 corpus term p) as Hm.
  { intros term p. rewrite Hq. unfold idx. by rewrite plist_finalize, elem_of_dedup, sort_perm, Hspec. }
  split_and!.
  - intros term. split; [|apply Hm]. rewrite Hq. unfold idx. rewrite plist_finalize. apply dedup_sorted, sort_sorted.
  - intros terms p Hne. rewrite elem_of_query_all by done. by setoid_rewrite Hm.
  - intros corpus' Hc. destruct (file_all_spec blake3 corpus') as [Hwf' Hspec'].
    apply finalize_ext; [done..|]. intros th p. rewrite Hspec, Hspec'. by setoid_rewrite Hc.
Qed.
