(* ===== verification/Text.v ===== *)
(** * Text and floating-point helpers

    Rust's [str] methods on UTF-8 byte strings where the pattern is an ASCII
    character or a string (an ASCII byte never occurs inside a longer
    character, so splitting bytes splits characters), and IEEE 754 doubles
    through the Standard Library's [SpecFloat]. *)
From S2P Require Import Prelude Ordered Json.
From Stdlib Require Import ZArith Lia Strings.Byte Strings.String Floats.SpecFloat.
From stdpp Require Import base list sorting strings gmap.
#[local] Open Scope Z_scope.

(** ** [str] *)

(** [s.split(sep)]: at least one piece. *)
Fixpoint split_on (sep : byte) (s : bytes) : list bytes :=
  match s with
  | [] => [[]]
  | b :: s =>
    if decide (b = sep) then [] :: split_on sep s
    else match split_on sep s with
         | p :: ps => (b :: p) :: ps
         | [] => [[b]]
         end
  end.

(** [parts.str_join(sep)]. *)
Fixpoint str_join (sep : bytes) (parts : list bytes) : bytes :=
  match parts with
  | [] => []
  | [p] => p
  | p :: ps => p ++ sep ++ str_join sep ps
  end.

Definition str_strip_prefix (pre s : bytes) : option bytes :=
  if bool_decide (take (length pre) s = pre) then Some (drop (length pre) s) else None.
Definition starts_with (pre s : bytes) : bool := bool_decide (take (length pre) s = pre).

Definition str_strip_suffix (s suffix : bytes) : option bytes :=
  let n := (length s - length suffix)%nat in
  if bool_decide (drop n s = suffix) then Some (take n s) else None.
Definition ends_with (s suffix : bytes) : bool := bool_decide (is_Some (str_strip_suffix s suffix)).

Definition contains_byte (c : byte) (s : bytes) : bool := existsb (λ b, bool_decide (b = c)) s.
Definition count_byte (c : byte) (s : bytes) : Z := blen (List.filter (λ b, bool_decide (b = c)) s).
Definition replace_byte (c d : byte) (s : bytes) : bytes := map (λ b, if bool_decide (b = c) then d else b) s.

Fixpoint trim_start (c : byte) (s : bytes) : bytes :=
  match s with
  | b :: s' => if decide (b = c) then trim_start c s' else s
  | [] => []
  end.
Definition trim_end (c : byte) (s : bytes) : bytes := rev (trim_start c (rev s)).

(** [s.rsplit_once(sep)]: the text before and after the last separator. *)
Definition rsplit_once (sep : byte) (s : bytes) : option (bytes * bytes) :=
  match rev (split_on sep s) with
  | (last :: _ :: _) as ps => Some (str_join [sep] (rev (tail ps)), last)
  | _ => None
  end.

(** [s.rfind(c)] as the pieces [s[..=i]] and [s[i+1..]]. *)
Definition cut_after_last (sep : byte) (s : bytes) : option (bytes * bytes) :=
  (λ p : bytes * bytes, (p.1 ++ [sep], p.2)) <$> rsplit_once sep s.

(** [str::parse] of an unsigned type with [bound] values: an optional plus
    sign, digits, no overflow. *)
Definition parse_uint (bound : Z) (s : bytes) : option Z :=
  let s := match s with b :: s' => if bool_decide (b = x2b) then s' else s | [] => s end in
  match s with
  | [] => None
  | _ => if forallb is_digit s then let v := dec_val s in if v <? bound then Some v else None else None
  end.
Definition parse_u64 : bytes → option Z := parse_uint (2 ^ 64).

Lemma split_on_nonempty sep s : split_on sep s ≠ [].
Proof. destruct s as [|b s]; [done|]. cbn. case_decide; [done|]. by destruct (split_on sep s). Qed.

Lemma split_on_no_sep sep s p : p ∈ split_on sep s → sep ∉ p.
Proof.
  revert p. induction s as [|b s IH]; intros p; cbn [split_on].
  { intros ->%list_elem_of_singleton. apply not_elem_of_nil. }
  case_decide as Hb.
  - intros [->|Hp]%elem_of_cons; [apply not_elem_of_nil|by apply IH].
  - destruct (split_on sep s) as [|q qs].
    + intros ->%list_elem_of_singleton. rewrite list_elem_of_singleton. congruence.
    + intros [->|Hp]%elem_of_cons.
      * rewrite elem_of_cons. intros [?|Hin]; [congruence|]. apply (IH q); [left|done].
      * apply IH. by right.
Qed.

Lemma str_join_split sep s : str_join [sep] (split_on sep s) = s.
Proof.
  induction s as [|b s IH]; [done|]. cbn [split_on]. case_decide as Hb.
  - subst. pose proof (split_on_nonempty sep s). destruct (split_on sep s) as [|p ps] eqn:E; [done|].
    change (str_join [sep] ([] :: p :: ps)) with ([] ++ [sep] ++ str_join [sep] (p :: ps)). by rewrite IH.
  - destruct (split_on sep s) as [|p ps] eqn:E; [by destruct (split_on_nonempty sep s)|].
    destruct ps as [|q ps]; [cbn in *; by rewrite IH|].
    change (str_join [sep] ((b :: p) :: q :: ps)) with (b :: (p ++ [sep] ++ str_join [sep] (q :: ps))).
    change (str_join [sep] (p :: q :: ps)) with (p ++ [sep] ++ str_join [sep] (q :: ps)) in IH. by rewrite IH.
Qed.

Lemma split_on_app sep p s : sep ∉ p → split_on sep (p ++ sep :: s) = p :: split_on sep s.
Proof.
  induction p as [|b p IH]; intros Hp; cbn [app split_on].
  - by rewrite decide_True.
  - rewrite decide_False by set_solver. by rewrite IH by set_solver.
Qed.

Lemma split_on_single sep p : sep ∉ p → split_on sep p = [p].
Proof. induction p as [|b p IH]; intros Hp; cbn [split_on]; [done|]. rewrite decide_False by set_solver. by rewrite IH by set_solver. Qed.

Lemma split_str_join sep ps : ps ≠ [] → Forall (λ p, sep ∉ p) ps → split_on sep (str_join [sep] ps) = ps.
Proof.
  intros Hne HF. induction HF as [|p ps Hp HF IH]; [done|]. destruct ps as [|q ps]; [by apply split_on_single|].
  change (str_join [sep] (p :: q :: ps)) with (p ++ sep :: str_join [sep] (q :: ps)).
  rewrite split_on_app by done. by rewrite IH.
Qed.

Lemma str_join_snoc sep ps p : ps ≠ [] → str_join [sep] (ps ++ [p]) = str_join [sep] ps ++ sep :: p.
Proof.
  induction ps as [|q ps IH]; [done|]. intros _. destruct ps as [|r ps]; [done|].
  change (str_join [sep] ((q :: r :: ps) ++ [p])) with (q ++ sep :: str_join [sep] ((r :: ps) ++ [p])).
  rewrite IH by done. change (str_join [sep] (q :: r :: ps)) with (q ++ sep :: str_join [sep] (r :: ps)). by rewrite <- app_assoc.
Qed.

Lemma rsplit_once_spec sep s :
  match rsplit_once sep s with Some (a, b) => s = a ++ sep :: b ∧ sep ∉ b | None => sep ∉ s end.
Proof.
  unfold rsplit_once. pose proof (str_join_split sep s) as Hj. pose proof (split_on_no_sep sep s) as Hn. pose proof (split_on_nonempty sep s) as Hne.
  rewrite <- (rev_involutive (split_on sep s)) in Hj, Hn, Hne. destruct (rev (split_on sep s)) as [|b [|a ps]]; [done| |].
  - cbn in Hj. subst b. apply Hn. left.
  - cbn [tail]. change (rev (b :: a :: ps)) with (rev (a :: ps) ++ [b]) in *. split; [|apply Hn, elem_of_app; right; left].
    rewrite <- Hj. apply str_join_snoc. cbn [rev]. intros H. by apply app_eq_nil in H as [_ ?].
Qed.

(** ** [f64] *)

Abbreviation f64 := spec_float.

(** [f64::from_bits]. *)
Definition f64_of_bits (bits : Z) : f64 :=
  let s := Z.testbit bits 63 in
  let e := Z.land (Z.shiftr bits 52) 0x7ff in
  let m := Z.land bits (2 ^ 52 - 1) in
  if e =? 0x7ff then (if m =? 0 then S754_infinity s else S754_nan)
  else if e =? 0 then (if m =? 0 then S754_zero s else S754_finite s (Z.to_pos m) (-1074))
  else S754_finite s (Z.to_pos (2 ^ 52 + m)) (e - 1075).

(** [z as f64]: rounded to nearest, ties to even. *)
Definition f64_of_Z (z : Z) : f64 := binary_normalize 53 1024 z 0 false.

Definition f64_lt (a b : f64) : bool := SFltb a b.
Definition f64_le (a b : f64) : bool := SFleb a b.

(** [Value::as_f64]. *)
Definition as_f64 (v : json) : option f64 :=
  match v with JInt z => Some (f64_of_Z z) | JFloat bits => Some (f64_of_bits bits) | _ => None end.

Example f64_half : f64_lt (f64_of_bits 0x3fe0000000000000) (f64_of_Z 1) = true ∧ f64_le (f64_of_Z 0) (f64_of_bits 0x8000000000000000) = true.
Proof. split; vm_compute; reflexivity. Qed.

(** [i64] addition in a release build. *)
Definition wrap_i64 (x : Z) : Z := (x + 2 ^ 63) mod 2 ^ 64 - 2 ^ 63.
