(* ===== verification/Peer.v ===== *)
(** * Peer addresses ([crates/epix-core/src/peer.rs])

    The transport-agnostic peer endpoint, its classification, and its compact
    wire form. Octets are bytes, ports are u16 integers. Base32 and Unicode
    case mapping are parameters; textual parsing and printing are in
    [AddrText]. *)
From S2P Require Import Prelude Ordered Json Text.
From Stdlib Require Import ZArith Lia Strings.Byte Strings.String.
From stdpp Require Import base list sorting strings gmap.
#[local] Open Scope Z_scope.

Inductive IpType := Ipv4 | Ipv6 | IpOnion | IpI2p | IpRns.

Definition pex_field (t : IpType) : option bytes :=
  match t with
  | Ipv4 => Some (bstr "peers")
  | Ipv6 => Some (bstr "peers_ipv6")
  | IpOnion => Some (bstr "peers_onion")
  | IpI2p => Some (bstr "peers_i2p")
  | IpRns => Some (bstr "peers_rns")
  end.

(** [std::net::SocketAddr]: octets, port, and for IPv6 flow label and scope. *)
Inductive SocketAddr :=
  | V4 (octets : bytes) (port : Z)
  | V6 (octets : bytes) (port flowinfo scope_id : Z).

Inductive PeerAddr :=
  | Ip (addr : SocketAddr)
  | Onion (host : bytes) (port : Z)
  | I2p (dest : bytes) (port : Z)
  | Rns (hash : bytes).

#[global] Instance SocketAddr_eq_dec : EqDecision SocketAddr.
Proof. solve_decision. Defined.
#[global] Instance PeerAddr_eq_dec : EqDecision PeerAddr.
Proof. solve_decision. Defined.

Definition sock_port (a : SocketAddr) : Z := match a with V4 _ p => p | V6 _ p _ _ => p end.

(** [a.octets()[i]]. *)
Definition octet (l : bytes) (i : nat) : Z := from_option byte_val 0 (l !! i).
(** [ip.segments()[0]]. *)
Definition segment0 (l : bytes) : Z := octet l 0 * 256 + octet l 1.

Definition scheme (p : PeerAddr) : bytes :=
  match p with Ip _ => bstr "tcp" | Onion _ _ => bstr "onion" | I2p _ _ => bstr "i2p" | Rns _ => bstr "rns" end.

Definition is_overlay (p : PeerAddr) : bool :=
  match p with Onion _ _ | I2p _ _ | Rns _ => true | Ip _ => false end.

Definition is_wellformed (p : PeerAddr) : bool :=
  match p with
  | Ip sa => negb (sock_port sa =? 1)
  | Onion host port => negb (blen host =? 0) && negb (port =? 0)
  | I2p dest _ => negb (blen dest =? 0)
  | Rns hash => negb (bool_decide (hash = repeat x00 16))
  end.

(** [route_all]: the process-wide Tor-always flag. Seconds. *)
Definition connect_timeout (route_all : bool) (p : PeerAddr) : Z := if is_overlay p || route_all then 45 else 15.
Definition file_timeout (route_all : bool) (p : PeerAddr) : Z := if is_overlay p || route_all then 180 else 60.

Definition i2p_dest (p : PeerAddr) : option bytes :=
  match p with I2p dest _ => Some (dest ++ bstr ".i2p") | _ => None end.

Definition ip_type (p : PeerAddr) : IpType :=
  match p with
  | Ip (V4 _ _) => Ipv4
  | Ip (V6 _ _ _ _) => Ipv6
  | Onion _ _ => IpOnion
  | I2p _ _ => IpI2p
  | Rns _ => IpRns
  end.

(** [Ipv4Addr::is_private], [is_loopback] and [is_link_local] of [std]. *)
Definition v4_is_private (o : bytes) : bool :=
  (octet o 0 =? 10) || ((octet o 0 =? 172) && (16 <=? octet o 1) && (octet o 1 <=? 31)) ||
  ((octet o 0 =? 192) && (octet o 1 =? 168)).
Definition v4_is_loopback (o : bytes) : bool := octet o 0 =? 127.
Definition v4_is_link_local (o : bytes) : bool := (octet o 0 =? 169) && (octet o 1 =? 254).
Definition v6_is_loopback (o : bytes) : bool := bool_decide (o = repeat x00 15 ++ [x01]).

Definition is_private (p : PeerAddr) : bool :=
  match p with
  | Ip (V4 o _) =>
    v4_is_private o || v4_is_loopback o || v4_is_link_local o ||
    ((octet o 0 =? 100) && (Z.land (octet o 1) 0xc0 =? 0x40))
  | Ip (V6 o _ _ _) =>
    v6_is_loopback o || (Z.land (segment0 o) 0xfe00 =? 0xfc00) || (Z.land (segment0 o) 0xffc0 =? 0xfe80)
  | _ => false
  end.

(** ** The compact wire form *)

Abbreviation le16 := (le_bytes 2).

Section pack.
Context (b32_encode : bytes → bytes) (b32_decode : bytes → option bytes).
Context (to_uppercase to_lowercase : bytes → bytes).

Definition pack (p : PeerAddr) : option bytes :=
  match p with
  | Ip (V4 o port) => Some (o ++ le16 port)
  | Ip (V6 o port _ _) => Some (o ++ le16 port)
  | Onion host port => raw ← b32_decode (to_uppercase host); Some (raw ++ le16 port)
  | I2p dest port =>
    let b32 := default dest (str_strip_suffix dest (bstr ".b32")) in
    raw ← b32_decode (to_uppercase b32);
    if negb (blen raw =? 32) then None else Some (raw ++ le16 port)
  | Rns hash => Some hash
  end.

Definition unpack_ip (packed : bytes) : option PeerAddr :=
  if blen packed =? 6 then Some (Ip (V4 (take 4 packed) (le_val (drop 4 packed))))
  else if blen packed =? 18 then Some (Ip (V6 (take 16 packed) (le_val (drop 16 packed)) 0 0))
  else None.

Definition unpack_onion (packed : bytes) : option PeerAddr :=
  if blen packed <? 3 then None else
  let n := (length packed - 2)%nat in
  Some (Onion (to_lowercase (b32_encode (take n packed))) (le_val (drop n packed))).

Definition unpack_rns (packed : bytes) : option PeerAddr :=
  if negb (blen packed =? 16) then None else Some (Rns packed).

Definition unpack_i2p (packed : bytes) : option PeerAddr :=
  if negb (blen packed =? 34) then None else
  Some (I2p (to_lowercase (b32_encode (take 32 packed)) ++ bstr ".b32") (le_val (drop 32 packed))).

(** The decoder the PEX field of a type selects. *)
Definition unpack (t : IpType) (packed : bytes) : option PeerAddr :=
  match t with
  | Ipv4 | Ipv6 => unpack_ip packed
  | IpOnion => unpack_onion packed
  | IpI2p => unpack_i2p packed
  | IpRns => unpack_rns packed
  end.
End pack.

(** ** Facts *)

Definition is_u16 (x : Z) : Prop := 0 <= x < 2 ^ 16.

(** The shape Rust's types give every address. *)
Definition addr_typed (p : PeerAddr) : Prop :=
  match p with
  | Ip (V4 o port) => length o = 4%nat ∧ is_u16 port
  | Ip (V6 o port f s) => length o = 16%nat ∧ is_u16 port
  | Onion _ port | I2p _ port => is_u16 port
  | Rns h => length h = 16%nat
  end.

Lemma le16_roundtrip x : is_u16 x → le_val (le16 x) = x.
Proof. intros Hx. by apply le_roundtrip. Qed.

Lemma take_le16 (l : bytes) n x : length l = n → take n (l ++ le16 x) = l.
Proof. intros <-. by rewrite take_app_length. Qed.

Lemma drop_le16 (l : bytes) n x : length l = n → is_u16 x → le_val (drop n (l ++ le16 x)) = x.
Proof. intros <- Hx. rewrite drop_app_length. by apply le16_roundtrip. Qed.

Lemma le16_val l : length l = 2%nat → le16 (le_val l) = l.
Proof. intros Hl. rewrite <- Hl at 1. apply le_bytes_val. Qed.

Lemma le_val_u16 l : length l = 2%nat → is_u16 (le_val l).
Proof. intros Hl. pose proof (le_val_range l) as H. rewrite Hl in H. exact H. Qed.

Lemma str_strip_suffix_app l s : str_strip_suffix (l ++ s) s = Some l.
Proof.
  unfold str_strip_suffix. rewrite length_app, Nat.add_sub, drop_app_length, take_app_length. by rewrite bool_decide_true.
Qed.

(** ** Properties *)

(** The compact form carries every address: whatever bytes a peer packs
    into an exchange field, an address that unpacks from them is well typed and
    packs back to the same bytes, so unpacking never merges two peers; and a
    clearnet or mesh address survives the trip out and back (IPv6 flow label
    and scope, which the wire does not carry, come back as zero). *)
Theorem pack_unpack (b32_encode : bytes → bytes) (b32_decode : bytes → option bytes) (to_uppercase to_lowercase : bytes → bytes) :
  (∀ raw, b32_decode (to_uppercase (to_lowercase (b32_encode raw))) = Some raw) →
  (∀ t packed p, unpack b32_encode to_lowercase t packed = Some p →
    addr_typed p ∧ pack b32_decode to_uppercase p = Some packed) ∧
  (∀ p packed, addr_typed p → (match p with Onion _ _ | I2p _ _ => False | _ => True end) →
    pack b32_decode to_uppercase p = Some packed →
    unpack b32_encode to_lowercase (ip_type p) packed =
      Some (match p with Ip (V6 o port _ _) => Ip (V6 o port 0 0) | _ => p end)).
Proof.
  intros Hb32. split.
  - intros t packed p. assert (∀ n, blen packed = Z.of_nat n → length packed = n) as Hlen by (unfold blen; lia).
    assert (∀ n, length packed = (n + 2)%nat → length (take n packed) = n ∧ length (drop n packed) = 2%nat) as Hcut.
    { intros n Hn. rewrite length_take, length_drop. lia. }
    assert (∀ n, length packed = (n + 2)%nat → take n packed ++ le16 (le_val (drop n packed)) = packed) as Hjoin.
    { intros n Hn. rewrite le16_val by apply (Hcut n Hn). apply take_drop. }
    assert (unpack_ip packed = Some p → addr_typed p ∧ pack b32_decode to_uppercase p = Some packed) as Hip.
    { unfold unpack_ip. destruct (Z.eqb_spec (blen packed) 6) as [E|_].
      - apply (Hlen 6%nat) in E. intros [= <-]. split; [split; [apply (Hcut 4%nat E)|apply le_val_u16, (Hcut 4%nat E)]|].
        cbn [pack]. by rewrite (Hjoin 4%nat E).
      - destruct (Z.eqb_spec (blen packed) 18) as [E|_]; [|done].
        apply (Hlen 18%nat) in E. intros [= <-]. split; [split; [apply (Hcut 16%nat E)|apply le_val_u16, (Hcut 16%nat E)]|].
        cbn [pack]. by rewrite (Hjoin 16%nat E). }
    destruct t; cbn [unpack]; [exact Hip|exact Hip|..].
    + unfold unpack_onion. destruct (Z.ltb_spec (blen packed) 3) as [_|E]; [done|]. intros [= <-].
      assert (length packed = ((length packed - 2) + 2)%nat) as E' by (unfold blen in E; lia).
      split; [apply le_val_u16, (Hcut _ E')|]. cbn [pack]. rewrite Hb32. cbn [mbind option_bind]. by rewrite (Hjoin _ E').
    + unfold unpack_i2p. destruct (Z.eqb_spec (blen packed) 34) as [E|_]; [|done]. apply (Hlen 34%nat) in E. intros [= <-].
      split; [apply le_val_u16, (Hcut 32%nat E)|]. cbn [pack]. rewrite str_strip_suffix_app. cbn [default from_option].
      unfold Datatypes.id. rewrite Hb32. cbn [mbind option_bind].
      assert (blen (take 32 packed) = 32) as -> by (unfold blen; by rewrite (proj1 (Hcut 32%nat E))).
      by rewrite (Hjoin 32%nat E).
    + unfold unpack_rns. destruct (Z.eqb_spec (blen packed) 16) as [E|_]; [|done]. intros [= <-]. split; [by apply Hlen|done].
  - intros p packed Ht Hk Hpk.
    assert (∀ o n port, length o = n → blen (o ++ le16 port) = Z.of_nat n + 2) as Hl
      by (intros o n port <-; by rewrite blen_app, blen_le_bytes).
    destruct p as [[o port|o port f s]| | |h]; [..|done|done|]; cbn [pack addr_typed ip_type unpack] in *; apply (inj Some) in Hpk as <-.
    + destruct Ht as [Ho Hp]. unfold unpack_ip. rewrite (Hl _ _ _ Ho). change (Z.of_nat 4 + 2 =? 6) with true. cbv iota.
      by rewrite (take_le16 o 4), (drop_le16 o 4).
    + destruct Ht as [Ho Hp]. unfold unpack_ip. rewrite (Hl _ _ _ Ho). change (Z.of_nat 16 + 2 =? 6) with false.
      change (Z.of_nat 16 + 2 =? 18) with true. cbv iota. by rewrite (take_le16 o 16), (drop_le16 o 16).
    + unfold unpack_rns, blen. by rewrite Ht.
Qed.

Lemma pack_unpack_witness :
  pack (λ x, Some x) (λ x, x) (Onion [x61; x62] 515) = Some [x61; x62; x03; x02].
Proof.
  apply (proj1 (pack_unpack (λ x, x) (λ x, Some x) (λ x, x) (λ x, x) (λ raw, eq_refl)) IpOnion).
  vm_compute. reflexivity.
Defined.
