(* ===== verification/AddrText.v ===== *)
(** * The text form of peer addresses ([crates/epix-core/src/peer.rs])

    [PeerAddr]'s [Display] and [parse]: the key of the peer registry and the
    form addresses take in [peers.json] and in URLs. The textual grammar of
    socket addresses is the standard library's and is written out here ([std]'s
    address parser, and its printer with the compression of the longest run of
    zero groups). Hexadecimal conversion of mesh hashes is a third-party crate
    and a parameter. *)
From Stdlib Require Import ZArith Lia Strings.Byte Strings.String.
From stdpp Require Import base list sorting strings gmap.
From S2P Require Import Prelude Ordered Json Canonical Text Peer.
#[local] Open Scope Z_scope.

(** ** Numbers *)

(** [char::to_digit(radix)]. *)
Definition to_digit (radix : Z) (b : byte) : option Z :=
  let v := byte_val b in
  let d := if (48 <=? v) && (v <=? 57) then v - 48
           else if (97 <=? v) && (v <=? 102) then v - 87
           else if (65 <=? v) && (v <=? 70) then v - 55 else 16 in
  if d <? radix then Some d else None.

(** The value, the count and the rest of a leading run of digits. *)
Fixpoint read_digits (radix acc count : Z) (s : bytes) : Z * Z * bytes :=
  match s with
  | b :: s' =>
    match to_digit radix b with
    | Some d => read_digits radix (acc * radix + d) (count + 1) s'
    | None => (acc, count, s)
    end
  | [] => (acc, count, [])
  end.

Definition read_number (radix : Z) (max_digits : option Z) (allow_zero_prefix : bool) (max : Z) (s : bytes) : option (Z * bytes) :=
  let '(v, n, r) := read_digits radix 0 0 s in
  if n =? 0 then None
  else if match max_digits with Some m => m <? n | None => false end then None
  else if negb allow_zero_prefix && bool_decide (head s = Some x30) && (1 <? n) then None
  else if max <? v then None else Some (v, r).

(** [str::parse::<u16>]. *)
Definition parse_u16 : bytes → option Z := parse_uint (2 ^ 16).

(** ** Socket addresses in text *)

Definition read_given (c : byte) (s : bytes) : option bytes :=
  match s with b :: s' => if bool_decide (b = c) then Some s' else None | [] => None end.

Definition read_separator {A} (sep : byte) (index : nat) (inner : bytes → option (A * bytes)) (s : bytes) : option (A * bytes) :=
  match index with O => inner s | S _ => s ← read_given sep s; inner s end.

Definition read_octet : bytes → option (Z * bytes) := read_number 10 (Some 3) false 255.

Definition read_ipv4_addr (s : bytes) : option (bytes * bytes) :=
  '(a, s) ← read_separator x2e 0 read_octet s;
  '(b, s) ← read_separator x2e 1 read_octet s;
  '(c, s) ← read_separator x2e 2 read_octet s;
  '(d, s) ← read_separator x2e 3 read_octet s;
  Some (map byte_of [a; b; c; d], s).

Definition read_group : bytes → option (Z * bytes) := read_number 16 (Some 4) true 65535.

(** Up to [k] groups from position [i] on; a dotted quad may stand for the last
    two. The groups read, whether they ended with a quad, and the rest. *)
Fixpoint read_groups (k i : nat) (s : bytes) : list Z * bool * bytes :=
  match k with
  | O => ([], false, s)
  | S k' =>
    let v4 := match k' with O => None | S _ => read_separator x3a i read_ipv4_addr s end in
    match v4 with
    | Some (o, s') => ([octet o 0 * 256 + octet o 1; octet o 2 * 256 + octet o 3], true, s')
    | None =>
      match read_separator x3a i read_group s with
      | Some (g, s') => let '(gs, quad, r) := read_groups k' (S i) s' in (g :: gs, quad, r)
      | None => ([], false, s)
      end
    end
  end.

Definition segments_octets (gs : list Z) : bytes := concat (map (be_bytes 2) gs).

Definition read_ipv6_segments (s : bytes) : option (list Z * bytes) :=
  let '(head, head_ipv4, s1) := read_groups 8 0 s in
  if decide (length head = 8%nat) then Some (head, s1)
  else if (head_ipv4 : bool) then None
  else
    s2 ← read_given x3a s1; s2 ← read_given x3a s2;
    let limit := (8 - (length head + 1))%nat in
    let '(tail, _, s3) := read_groups limit 0 s2 in
    Some (head ++ repeat 0 (8 - length head - length tail) ++ tail, s3).

Definition read_port (s : bytes) : option (Z * bytes) := s ← read_given x3a s; read_number 10 None true (2 ^ 16 - 1) s.

Definition read_scope_id (s : bytes) : option (Z * bytes) := s ← read_given x25 s; read_number 10 None true u32_max s.

Definition read_socket_addr_v4 (s : bytes) : option (SocketAddr * bytes) :=
  '(o, s) ← read_ipv4_addr s;
  '(port, s) ← read_port s;
  Some (V4 o port, s).

Definition read_socket_addr_v6 (s : bytes) : option (SocketAddr * bytes) :=
  s ← read_given x5b s;
  '(gs, s) ← read_ipv6_segments s;
  let '(scope_id, s) := default (0, s) (read_scope_id s) in
  s ← read_given x5d s;
  '(port, s) ← read_port s;
  Some (V6 (segments_octets gs) port 0 scope_id, s).

(** [s.parse::<SocketAddr>()]: the whole text is one address. *)
Definition parse_socket_addr (s : bytes) : option SocketAddr :=
  '(a, r) ← match read_socket_addr_v4 s with Some x => Some x | None => read_socket_addr_v6 s end;
  match r with [] => Some a | _ => None end.

(** [{:x}] of a u16. *)
Definition lower_hex (g : Z) : bytes :=
  if g <? 16 then [hex_digit g]
  else if g <? 256 then [hex_digit (g / 16); hex_digit (g mod 16)]
  else if g <? 4096 then [hex_digit (g / 256); hex_digit (g / 16 mod 16); hex_digit (g mod 16)]
  else [hex_digit (g / 4096); hex_digit (g / 256 mod 16); hex_digit (g / 16 mod 16); hex_digit (g mod 16)].

Definition fmt_ipv4 (o : bytes) : bytes := str_join [x2e] (map (λ b, dec_nat (byte_val b)) o).

(** [Ipv6Addr::segments]. *)
Definition segments (o : bytes) : list Z := map (λ i, octet o (2 * i) * 256 + octet o (2 * i + 1)) (seq 0 8).

(** The first longest run of zero groups, as (start, length): the loop state is
    the longest run so far and the current one. *)
Fixpoint zero_span (i : nat) (longest current : nat * nat) (gs : list Z) : nat * nat :=
  match gs with
  | [] => longest
  | g :: gs' =>
    if g =? 0 then
      let start := if decide (current.2 = O) then i else current.1 in
      let current := (start, S current.2) in
      zero_span (S i) (if decide (longest.2 < current.2)%nat then current else longest) current gs'
    else zero_span (S i) longest (O, O) gs'
  end.

Definition fmt_groups (gs : list Z) : bytes := str_join [x3a] (map lower_hex gs).

(** [Ipv6Addr]'s [Display]. *)
Definition fmt_ipv6 (o : bytes) : bytes :=
  let gs := segments o in
  if decide (take 6 gs = [0; 0; 0; 0; 0; 0xffff]) then bstr "::ffff:" ++ fmt_ipv4 (drop 12 o)
  else
    let '(start, len) := zero_span 0 (O, O) (O, O) gs in
    if decide (1 < len)%nat then fmt_groups (take start gs) ++ bstr "::" ++ fmt_groups (drop (start + len) gs)
    else fmt_groups gs.

(** [SocketAddr]'s [Display]. *)
Definition fmt_socket_addr (a : SocketAddr) : bytes :=
  match a with
  | V4 o port => fmt_ipv4 o ++ bstr ":" ++ dec_nat port
  | V6 o port _ scope_id =>
    bstr "[" ++ fmt_ipv6 o ++ (if scope_id =? 0 then [] else bstr "%" ++ dec_nat scope_id) ++ bstr "]:" ++ dec_nat port
  end.

(** ** [PeerAddr::parse] and [Display] *)

Section text.
Context (hex_encode : bytes → bytes) (hex_decode : bytes → option bytes).

Definition to_string (p : PeerAddr) : bytes :=
  match p with
  | Ip a => fmt_socket_addr a
  | Onion host port => host ++ bstr ".onion:" ++ dec_nat port
  | I2p dest port => dest ++ bstr ".i2p:" ++ dec_nat port
  | Rns h => bstr "rns:" ++ hex_encode h
  end.

(** The [<host>.onion:<port>] and [<host>.i2p:<port>] shapes: [None] when the
    text is neither, [Some None] when it is one of them and malformed. *)
Definition parse_overlay (s : bytes) : option (option PeerAddr) :=
  '(host, port) ← rsplit_once x3a s;
  match str_strip_suffix host (bstr ".onion") with
  | Some onion_host =>
    Some (port ← parse_u16 port; if negb (blen onion_host =? 0) then Some (Onion onion_host port) else None)
  | None =>
    dest ← str_strip_suffix host (bstr ".i2p");
    Some (port ← parse_u16 port; if negb (blen dest =? 0) then Some (I2p dest port) else None)
  end.

(** [None] is [Error::InvalidPeer]. *)
Definition parse (s : bytes) : option PeerAddr :=
  match str_strip_prefix (bstr "rns:") s with
  | Some hash_hex => h ← hex_decode hash_hex; if blen h =? 16 then Some (Rns h) else None
  | None =>
    match str_strip_suffix s (bstr ".i2p") with
    | Some host => if blen host =? 0 then None else Some (I2p host 0)
    | None =>
      match parse_overlay s with
      | Some r => r
      | None => Ip <$> parse_socket_addr s
      end
    end
  end.
End text.

Example fmt_v6_ex : fmt_ipv6 (repeat x00 15 ++ [x01]) = bstr "::1".
Proof. vm_compute. reflexivity. Qed.
Example fmt_v6_ex2 : fmt_ipv6 ([x20;x01;x0d;xb8] ++ repeat x00 4 ++ [x00;x01] ++ repeat x00 4 ++ [x00;x02]) = bstr "2001:db8::1:0:0:2".
Proof. vm_compute. reflexivity. Qed.
Example parse_v6_ex : parse_socket_addr (bstr "[2001:db8::1:0:0:2%7]:080") = Some (V6 ([x20;x01;x0d;xb8] ++ repeat x00 4 ++ [x00;x01] ++ repeat x00 4 ++ [x00;x02]) 80 0 7).
Proof. vm_compute. reflexivity. Qed.
Example parse_v6_ex2 : parse_socket_addr (bstr "[::ffff:1.2.3.4]:80") = Some (V6 (repeat x00 10 ++ [xff;xff;x01;x02;x03;x04]) 80 0 0).
Proof. vm_compute. reflexivity. Qed.
Example parse_v4_ex : parse_socket_addr (bstr "1.2.3.04:80") = None.
Proof. vm_compute. reflexivity. Qed.

(** ** Numbers: printing then reading *)

(** No digit of [radix] follows. *)
Definition stops (radix : Z) (r : bytes) : Prop := match r with b :: _ => to_digit radix b = None | [] => True end.

Lemma read_digits_stop radix acc n r : stops radix r → read_digits radix acc n r = (acc, n, r).
Proof. destruct r as [|b r]; [done|]. cbn. by intros ->. Qed.

Lemma read_digits_app radix l ds acc n r : Forall2 (λ b d, to_digit radix b = Some d) l ds → stops radix r →
  read_digits radix acc n (l ++ r) = (foldl (λ a d, a * radix + d) acc ds, n + blen l, r).
Proof.
  intros HF Hr. revert acc n. induction HF as [|b d l ds Hb HF IH]; intros acc n; cbn [app foldl].
  - rewrite read_digits_stop by done. unfold blen. cbn. do 2 f_equal. lia.
  - cbn [read_digits]. rewrite Hb, IH. rewrite blen_cons. do 2 f_equal. lia.
Qed.

Lemma is_digit_to_digit b : is_digit b = true → to_digit 10 b = Some (digit_val b).
Proof.
  unfold is_digit, to_digit, digit_val. intros H. rewrite H. cbv zeta. apply andb_true_iff in H as [H1%Z.leb_le H2%Z.leb_le].
  by replace (byte_val b - 48 <? 10) with true by lia.
Qed.

Lemma not_digit_to_digit b : is_digit b = false → to_digit 10 b = None.
Proof.
  unfold is_digit, to_digit. intros ->. cbv zeta.
  destruct ((97 <=? byte_val b) && (byte_val b <=? 102)) eqn:E1; [|destruct ((65 <=? byte_val b) && (byte_val b <=? 70)) eqn:E2; [|done]].
  - apply andb_true_iff in E1 as [H1%Z.leb_le _]. by replace (byte_val b - 87 <? 10) with false by lia.
  - apply andb_true_iff in E2 as [H1%Z.leb_le _]. by replace (byte_val b - 55 <? 10) with false by lia.
Qed.

Lemma no_digit_stops r : no_digit r → stops 10 r.
Proof. destruct r; [done|]. apply not_digit_to_digit. Qed.

Lemma foldl_digits l : foldl (λ a d, a * 10 + d) 0 (map digit_val l) = dec_val l.
Proof. unfold dec_val. generalize 0. induction l as [|b l IH]; intros a; [done|]. cbn. apply IH. Qed.

(** A decimal number reads back, whatever the limit on its digits. *)
Lemma read_number_dec m zp max z r : 0 <= z <= max → no_digit r →
  match m with Some m => blen (dec_nat z) <= m | None => True end →
  read_number 10 m zp max (dec_nat z ++ r) = Some (z, r).
Proof.
  intros Hz Hr Hm. unfold read_number. pose proof (dec_nat_digits z (proj1 Hz)) as Hd.
  rewrite (read_digits_app _ (dec_nat z) (map digit_val (dec_nat z))); [|rewrite Forall2_fmap_r; clear -Hd; induction Hd; constructor; auto using is_digit_to_digit|by apply no_digit_stops].
  rewrite foldl_digits, dec_nat_val by lia. destruct (dec_nat_cons z (proj1 Hz)) as (b & l & Hb & _).
  replace (0 + blen (dec_nat z) =? 0) with false by (rewrite Hb, blen_cons; pose proof (blen_nonneg l); lia).
  replace (match m with Some m => m <? 0 + blen (dec_nat z) | None => false end) with false by (destruct m; [lia|done]).
  replace (max <? z) with false by lia. destruct (negb zp && _ && _) eqn:E; [|done]. exfalso.
  apply andb_true_iff in E as [[_ E]%andb_true_iff E2]. rewrite Hb in E. apply bool_decide_eq_true in E as [= ->].
  assert (0 < z) as Hpos.
  { destruct (decide (z = 0)) as [->|]; [|lia]. by vm_compute in E2. }
  by apply (dec_nat_head z x30 l).
Qed.

Lemma octet_digits b : blen (dec_nat (byte_val b)) <= 3.
Proof. by destruct b; vm_compute. Qed.

Lemma read_octet_dec b r : no_digit r → read_octet (dec_nat (byte_val b) ++ r) = Some (byte_val b, r).
Proof. intros Hr. apply read_number_dec; [pose proof (byte_val_range b); lia|done|apply octet_digits]. Qed.

Lemma parse_u16_dec z : is_u16 z → parse_u16 (dec_nat z) = Some z.
Proof.
  intros [Hz1 Hz2]. unfold parse_u16, parse_uint. destruct (dec_nat_cons z Hz1) as (b & l & Hb & Hd).
  assert (b ≠ x2b) as Hp by (intros ->; done).
  pose proof (dec_nat_digits z Hz1) as HF. pose proof (dec_nat_val z Hz1) as Hv. rewrite Hb in *. rewrite bool_decide_false by done.
  assert (forallb is_digit (b :: l) = true) as -> by (apply forallb_forall; intros x Hx; by apply (Forall_forall _ _) with (x := x) in HF; [|apply list_elem_of_In]).
  cbv zeta. rewrite Hv. by replace (z <? 2 ^ 16) with true by lia.
Qed.

(** ** Dotted quads *)

Lemma fmt_ipv4_read o r : length o = 4%nat → no_digit r → read_ipv4_addr (fmt_ipv4 o ++ r) = Some (o, r).
Proof.
  intros Ho Hr. destruct o as [|a [|b [|c [|d [|]]]]]; try done. unfold fmt_ipv4. cbn [map str_join].
  change [x2e] with ([x2e] : bytes). rewrite <- !app_assoc. unfold read_ipv4_addr. cbn [read_separator].
  do 3 (rewrite read_octet_dec by done; cbn [mbind option_bind app read_given]; rewrite bool_decide_true by done; cbn [mbind option_bind]).
  rewrite read_octet_dec by done. cbn [mbind option_bind map]. by rewrite !byte_of_val.
Qed.

(** ** Groups *)

Lemma to_digit_hex n : 0 <= n < 16 → to_digit 16 (hex_digit n) = Some n.
Proof.
  intros Hn. assert (n ∈ seqZ 0 16) as Hin by (apply elem_of_seqZ; lia). revert Hin. clear Hn.
  change (seqZ 0 16) with [0;1;2;3;4;5;6;7;8;9;10;11;12;13;14;15]. rewrite !elem_of_cons, elem_of_nil.
  intros H. by repeat destruct H as [->|H].
Qed.

Lemma lower_hex_digits g : 0 <= g < 65536 →
  ∃ ds, Forall2 (λ b d, to_digit 16 b = Some d) (lower_hex g) ds ∧ foldl (λ a d, a * 16 + d) 0 ds = g ∧ 1 <= blen (lower_hex g) <= 4.
Proof.
  intros Hg. unfold lower_hex.
  destruct (Z.ltb_spec g 16); [exists [g]|destruct (Z.ltb_spec g 256); [exists [g / 16; g mod 16]|destruct (Z.ltb_spec g 4096);
    [exists [g / 256; g / 16 mod 16; g mod 16]|exists [g / 4096; g / 256 mod 16; g / 16 mod 16; g mod 16]]]];
  (split; [repeat constructor; apply to_digit_hex; Z.div_mod_to_equations; lia|split; [cbn [foldl]; Z.div_mod_to_equations; lia|by vm_compute]]).
Qed.

Lemma read_group_hex g r : 0 <= g < 65536 → stops 16 r → read_group (lower_hex g ++ r) = Some (g, r).
Proof.
  intros Hg Hr. destruct (lower_hex_digits g Hg) as (ds & HF & Hv & Hl). unfold read_group, read_number.
  rewrite (read_digits_app _ _ ds) by done. rewrite Hv. replace (0 + blen (lower_hex g) =? 0) with false by lia.
  replace (4 <? 0 + blen (lower_hex g)) with false by lia. cbn [negb andb]. by replace (65535 <? g) with false by lia.
Qed.

(** What follows a list of groups: the end of the address, its scope, or the
    compressed zeros. *)
Definition ends_groups (r : bytes) : Prop :=
  match r with
  | b :: r' => b = x5d ∨ b = x25 ∨ (b = x3a ∧ head r' = Some x3a)
  | [] => False
  end.

Lemma ends_groups_stops r : ends_groups r → stops 16 r ∧ stops 10 r ∧ head r ≠ Some x2e.
Proof. destruct r as [|b r]; [done|]. by intros [->|[->|[-> _]]]. Qed.

Lemma read_number_none radix m zp max r : stops radix r → read_number radix m zp max r = None.
Proof. intros Hr. unfold read_number. by rewrite read_digits_stop. Qed.

Lemma read_ipv4_none r : stops 10 r → read_ipv4_addr r = None.
Proof. intros Hr. unfold read_ipv4_addr. cbn [read_separator]. unfold read_octet. by rewrite read_number_none. Qed.

Lemma read_digits_no_dot l r radix a n : x2e ∉ l → stops radix r → head r ≠ Some x2e →
  head (read_digits radix a n (l ++ r)).2 ≠ Some x2e.
Proof.
  revert a n. induction l as [|b l IH]; intros a n Hl Hr Hh; cbn [app].
  - by rewrite read_digits_stop.
  - apply not_elem_of_cons in Hl as [Hb Hl]. cbn [read_digits]. destruct (to_digit radix b); [by apply IH|]. cbn. congruence.
Qed.

(** A dotted quad needs a dot. *)
Lemma read_ipv4_no_dot l r : x2e ∉ l → stops 10 r → head r ≠ Some x2e → read_ipv4_addr (l ++ r) = None.
Proof.
  intros Hl Hr Hh. unfold read_ipv4_addr. cbn [read_separator]. destruct (read_octet (l ++ r)) as [[v s]|] eqn:E; [|done].
  cbn [mbind option_bind]. assert (head s ≠ Some x2e) as Hs.
  { unfold read_octet, read_number in E. pose proof (read_digits_no_dot l r 10 0 0 Hl Hr Hh) as H.
    destruct (read_digits 10 0 0 (l ++ r)) as [[w n] s']. cbn in H. by repeat case_match; simplify_eq. }
  destruct s as [|b s]; [done|]. cbn [read_given]. rewrite bool_decide_false; [done|]. intros ->. by apply Hs.
Qed.

Lemma lower_hex_no g c : 0 <= g < 65536 → to_digit 16 c = None → c ∉ lower_hex g.
Proof.
  intros Hg Hc Hin. destruct (lower_hex_digits g Hg) as (ds & HF & _). apply list_elem_of_lookup in Hin as [i Hi].
  destruct (Forall2_lookup_l _ _ _ _ _ HF Hi) as (d & _ & Hd). congruence.
Qed.

Definition is_group (g : Z) : Prop := 0 <= g < 65536.
Definition colons (gs : list Z) : bytes := concat (map (λ g, x3a :: lower_hex g) gs).

Lemma fmt_groups_cons g gs : fmt_groups (g :: gs) = lower_hex g ++ colons gs.
Proof.
  revert g. induction gs as [|g' gs IH]; intros g; [unfold fmt_groups, colons; cbn; by rewrite app_nil_r|].
  unfold fmt_groups in *. change (str_join [x3a] (map lower_hex (g :: g' :: gs))) with (lower_hex g ++ x3a :: str_join [x3a] (map lower_hex (g' :: gs))).
  by rewrite IH.
Qed.

Lemma colons_stops gs r : Forall is_group gs → ends_groups r → stops 16 (colons gs ++ r) ∧ stops 10 (colons gs ++ r) ∧ head (colons gs ++ r) ≠ Some x2e.
Proof. intros Hgs Hr. destruct gs as [|g gs]; [by apply ends_groups_stops|]. by repeat split. Qed.

Lemma read_groups_end k i r : ends_groups r → read_groups k i r = ([], false, r).
Proof.
  intros Hr. destruct k as [|k]; [done|]. cbn [read_groups]. pose proof (ends_groups_stops r Hr) as (H16 & H10 & _).
  assert (∀ A (f : bytes → option (A * bytes)), (∀ s, stops 16 s → stops 10 s → f s = None) → read_separator x3a i f r = None) as Hsep.
  { intros A f Hf. destruct i as [|i]; cbn [read_separator]; [by apply Hf|]. destruct r as [|b r]; [done|]. cbn [read_given].
    case_bool_decide as Hb; [|done]. cbn [mbind option_bind]. subst b. destruct Hr as [?|[?|[_ Hr]]]; [done..|].
    destruct r as [|c r]; [done|]. injection Hr as ->. by apply Hf. }
  rewrite (Hsep _ read_ipv4_addr) by (intros; by apply read_ipv4_none).
  rewrite (Hsep _ read_group) by (intros; by apply read_number_none). by destruct k.
Qed.

Lemma read_groups_colons gs k i r : Forall is_group gs → (length gs <= k)%nat → ends_groups r →
  read_groups k (S i) (colons gs ++ r) = (gs, false, r).
Proof.
  intros Hgs. revert k i. induction Hgs as [|g gs Hg Hgs IH]; intros k i Hk Hr; [by apply read_groups_end|].
  destruct k as [|k]; cbn [length] in Hk; [lia|]. pose proof (colons_stops gs r Hgs Hr) as (H16 & H10 & Hd).
  change (colons (g :: gs) ++ r) with (x3a :: (lower_hex g ++ colons gs) ++ r). rewrite <- app_assoc. cbn [read_groups read_separator read_given].
  rewrite bool_decide_true by done. cbn [mbind option_bind].
  rewrite read_ipv4_no_dot by (try done; by apply lower_hex_no). rewrite read_group_hex by done.
  rewrite IH by (done || lia). by destruct k.
Qed.

Lemma read_groups_fmt gs k r : Forall is_group gs → (length gs <= k)%nat → ends_groups r →
  read_groups k 0 (fmt_groups gs ++ r) = (gs, false, r).
Proof.
  intros Hgs Hk Hr. destruct gs as [|g gs]; [by apply read_groups_end|]. apply Forall_cons in Hgs as [Hg Hgs].
  destruct k as [|k]; cbn [length] in Hk; [lia|]. pose proof (colons_stops gs r Hgs Hr) as (H16 & H10 & Hd).
  rewrite fmt_groups_cons, <- app_assoc. cbn [read_groups read_separator].
  rewrite read_ipv4_no_dot by (try done; by apply lower_hex_no). rewrite read_group_hex by done.
  rewrite read_groups_colons by (done || lia). by destruct k.
Qed.

(** ** IPv6 *)

Lemma segments_group o : Forall is_group (segments o).
Proof.
  unfold segments. apply Forall_fmap, Forall_true. intros i. unfold is_group, octet, compose.
  assert (∀ j, 0 <= from_option byte_val 0 (o !! j) < 256) as H by (intros j; destruct (o !! j) as [b|]; cbn; [pose proof (byte_val_range b)|]; lia).
  pose proof (H (2 * i)%nat). pose proof (H (2 * i + 1)%nat). lia.
Qed.

Lemma be_pair a b : be_bytes 2 (byte_val a * 256 + byte_val b) = [a; b].
Proof.
  unfold be_bytes. replace (byte_val a * 256 + byte_val b) with (le_val [b; a]) by (cbn [le_val]; lia).
  change 2%nat with (length [b; a]). by rewrite le_bytes_val.
Qed.

Lemma segments_roundtrip o : length o = 16%nat → segments_octets (segments o) = o.
Proof. intros Ho. do 17 (destruct o as [|? o]; try done). unfold segments_octets, segments. cbn -[be_bytes Z.mul Z.add]. by rewrite !be_pair. Qed.

(** A run of groups that are all zero. *)
Definition zero_run (gs : list Z) (p : nat * nat) : Prop :=
  (p.1 + p.2 <= length gs)%nat ∧ ∀ j, (p.1 <= j < p.1 + p.2)%nat → gs !! j = Some 0.

Lemma zero_span_run pre gs longest current :
  zero_run (pre ++ gs) longest → zero_run pre current → (current.2 ≠ O → current.1 + current.2 = length pre)%nat →
  zero_run (pre ++ gs) (zero_span (length pre) longest current gs).
Proof.
  revert pre longest current. induction gs as [|g gs IH]; intros pre longest current Hl [Hc1 Hc2] Hc; [done|].
  cbn [zero_span]. replace (pre ++ g :: gs) with ((pre ++ [g]) ++ gs) in * by by rewrite <- app_assoc.
  assert (S (length pre) = length (pre ++ [g])) as Hlen by (rewrite length_app; cbn; lia). rewrite Hlen.
  destruct (Z.eqb_spec g 0) as [->|Hg]; [|apply IH; cbn [fst snd]; try done; (split; cbn [fst snd]; lia)].
  set (c := ((if decide (current.2 = O) then length pre else current.1), S current.2)).
  assert (zero_run (pre ++ [0]) c) as Hr.
  { unfold c. split; cbn [fst snd]; [case_decide; lia|]. intros j Hj. destruct (decide (j = length pre)) as [->|Hne].
    - by rewrite lookup_app_r, Nat.sub_diag by lia.
    - rewrite lookup_app_l; [apply Hc2|]; case_decide; lia. }
  apply IH; [|done|unfold c; cbn [fst snd]; case_decide; lia].
  case_decide; [|done]. destruct Hr as [Hr1 Hr2]. split; [rewrite length_app; lia|]. intros j Hj. by apply lookup_app_l_Some, Hr2.
Qed.

Lemma repeat_lookup {A} (x : A) n j : (j < n)%nat → repeat x n !! j = Some x.
Proof. revert j. induction n as [|n IH]; intros [|j] Hj; [lia..|done|]. apply IH. lia. Qed.

Lemma zero_run_split gs st n : zero_run gs (st, n) → gs = take st gs ++ repeat 0 n ++ drop (st + n) gs.
Proof.
  intros [H1 H2]. cbn [fst snd] in *. rewrite <- (take_drop st gs) at 1. f_equal. rewrite <- (take_drop n (drop st gs)), drop_drop. f_equal.
  apply list_eq. intros j. destruct (decide (j < n)%nat) as [Hj|Hj].
  - rewrite lookup_take, decide_True, lookup_drop by done. rewrite H2 by lia. symmetry. by apply repeat_lookup.
  - rewrite lookup_take_ge by lia. symmetry. apply lookup_ge_None. rewrite repeat_length. lia.
Qed.

(** What the reader of an address in brackets meets after the groups. *)
Definition ends_ipv6 (r : bytes) : Prop := match r with b :: _ => b = x5d ∨ b = x25 | [] => False end.

Lemma ends_ipv6_groups r : ends_ipv6 r → ends_groups r.
Proof. destruct r; [done|]. intros [->| ->]; [by left|by right; left]. Qed.

Lemma read_compressed a b n r : Forall is_group a → Forall is_group b → (1 < n)%nat → (length a + n + length b = 8)%nat → ends_ipv6 r →
  read_ipv6_segments (fmt_groups a ++ bstr "::" ++ fmt_groups b ++ r) = Some (a ++ repeat 0 n ++ b, r).
Proof.
  intros Ha Hb Hn Hlen Hr. unfold read_ipv6_segments. rewrite read_groups_fmt; [|done|lia|by right; right].
  rewrite decide_False by lia. change (bstr "::" ++ fmt_groups b ++ r) with (x3a :: x3a :: (fmt_groups b ++ r)).
  cbn [read_given]. rewrite !bool_decide_true by done. cbn [mbind option_bind read_given]. rewrite !bool_decide_true by done. cbn [mbind option_bind].
  rewrite read_groups_fmt; [|done|lia|by apply ends_ipv6_groups]. by replace (8 - length a - length b)%nat with n by lia.
Qed.

(** A group and a dotted quad. *)
Lemma read_groups_quad k g q r : is_group g → length q = 4%nat → no_digit r →
  read_groups (S (S (S k))) 0 (lower_hex g ++ x3a :: (fmt_ipv4 q ++ r)) =
    ([g; octet q 0 * 256 + octet q 1; octet q 2 * 256 + octet q 3], true, r).
Proof.
  intros Hg Hq Hr. remember (S (S k)) as k1 eqn:Hk. cbn [read_groups read_separator]. rewrite Hk at 1.
  rewrite read_ipv4_no_dot by (try done; by apply lower_hex_no). rewrite read_group_hex by done.
  subst k1. remember (S k) as k2 eqn:Hk. cbn [read_groups read_separator read_given]. rewrite Hk at 1.
  rewrite bool_decide_true by done. cbn [mbind option_bind]. by rewrite fmt_ipv4_read.
Qed.

Lemma read_mapped o r : length o = 16%nat → take 6 (segments o) = [0; 0; 0; 0; 0; 0xffff] → ends_ipv6 r →
  read_ipv6_segments (bstr "::ffff:" ++ fmt_ipv4 (drop 12 o) ++ r) = Some (segments o, r).
Proof.
  intros Ho Hs Hr. assert (length (drop 12 o) = 4%nat) as H4 by (rewrite length_drop; lia).
  assert (segments o = take 6 (segments o) ++ [octet (drop 12 o) 0 * 256 + octet (drop 12 o) 1; octet (drop 12 o) 2 * 256 + octet (drop 12 o) 3]) as ->.
  { do 17 (destruct o as [|? o]; try done). }
  rewrite Hs. generalize dependent (drop 12 o). intros q Hq. clear -Hr Hq.
  assert (no_digit r) as Hnd by (destruct r; [done|]; by destruct Hr as [->| ->]).
  change (bstr "::ffff:" ++ fmt_ipv4 q ++ r) with (x3a :: x3a :: lower_hex 0xffff ++ x3a :: (fmt_ipv4 q ++ r)).
  assert (is_group 0xffff) as Hg by done. revert Hg. generalize 0xffff. intros g Hg.
  unfold read_ipv6_segments. rewrite (read_groups_end 8 0) by (right; right; done).
  rewrite decide_False by done. cbn [mbind option_bind read_given]. rewrite !bool_decide_true by done. cbn [mbind option_bind read_given].
  rewrite !bool_decide_true by done.
  cbn [mbind option_bind]. change (8 - (length (@nil Z) + 1))%nat with (S (S (S 4))). by rewrite read_groups_quad.
Qed.

Lemma read_fmt_ipv6 o r : length o = 16%nat → ends_ipv6 r → read_ipv6_segments (fmt_ipv6 o ++ r) = Some (segments o, r).
Proof.
  intros Ho Hr. unfold fmt_ipv6. case_decide as Hm; [rewrite <- app_assoc; by apply read_mapped|].
  pose proof (segments_group o) as Hg. assert (length (segments o) = 8%nat) as H8 by done.
  assert (zero_run (segments o) (zero_span 0 (O, O) (O, O) (segments o))) as Hz by (apply (zero_span_run []); [split; cbn; lia..|done]).
  destruct (zero_span 0 (O, O) (O, O) (segments o)) as [st n]. case_decide as Hn.
  - pose proof (zero_run_split _ _ _ Hz) as Heq. rewrite Heq at 3. rewrite <- !app_assoc.
    apply read_compressed; [by apply Forall_take|by apply Forall_drop|done| |done].
    destruct Hz as [Hz _]. cbn [fst snd] in Hz. rewrite length_take, length_drop. lia.
  - unfold read_ipv6_segments. rewrite read_groups_fmt; [|done|lia|by apply ends_ipv6_groups]. by rewrite decide_True.
Qed.

(** ** Socket addresses *)

Definition sock_ok (a : SocketAddr) : Prop :=
  match a with V4 _ _ => True | V6 _ _ flowinfo scope_id => flowinfo = 0 ∧ is_u32 scope_id end.

Lemma read_port_dec port : is_u16 port → read_port (x3a :: dec_nat port) = Some (port, []).
Proof.
  intros Hp. unfold read_port. cbn [read_given]. rewrite bool_decide_true by done. cbn [mbind option_bind].
  rewrite <- (app_nil_r (dec_nat port)). apply read_number_dec; [unfold is_u16 in Hp; lia|done..].
Qed.

Lemma parse_fmt_socket_addr a : addr_typed (Ip a) → sock_ok a → parse_socket_addr (fmt_socket_addr a) = Some a.
Proof.
  destruct a as [o port|o port f s]; cbn [addr_typed sock_ok]; intros [Ho Hp]; unfold parse_socket_addr, fmt_socket_addr.
  - intros _. change (bstr ":" ++ dec_nat port) with (x3a :: dec_nat port). unfold read_socket_addr_v4.
    rewrite fmt_ipv4_read by done. cbn [mbind option_bind]. rewrite read_port_dec by done. done.
  - intros [-> Hs]. change (bstr "[" ++ ?x) with (x5b :: x). unfold read_socket_addr_v4. rewrite read_ipv4_none by done. cbn [mbind option_bind].
    unfold read_socket_addr_v6. cbn [read_given]. rewrite bool_decide_true by done. cbn [mbind option_bind].
    change (bstr "]:" ++ dec_nat port) with (x5d :: x3a :: dec_nat port). destruct (Z.eqb_spec s 0) as [->|Hs0].
    + rewrite read_fmt_ipv6 by (done || by left). cbn [mbind option_bind app]. unfold read_scope_id. cbn [read_given].
      rewrite bool_decide_false by done. cbn [mbind option_bind default from_option read_given]. rewrite bool_decide_true by done.
      cbn [mbind option_bind]. rewrite read_port_dec by done. cbn [mbind option_bind]. by rewrite segments_roundtrip.
    + rewrite read_fmt_ipv6 by (done || by right). cbn [mbind option_bind app]. change (bstr "%" ++ dec_nat s) with (x25 :: dec_nat s).
      unfold read_scope_id. cbn [app read_given]. rewrite bool_decide_true by done. cbn [mbind option_bind].
      rewrite read_number_dec by (exact Hs || done). cbn [default from_option]. unfold Datatypes.id. cbn [read_given]. rewrite bool_decide_true by done.
      cbn [mbind option_bind]. rewrite read_port_dec by done. cbn [mbind option_bind]. by rewrite segments_roundtrip.
Qed.

(** ** Prefixes and suffixes *)

Lemma strip_suffix_last l t c e : c ≠ e → str_strip_suffix (l ++ [c]) (t ++ [e]) = None.
Proof.
  intros Hne. unfold str_strip_suffix. rewrite bool_decide_false; [done|]. intros Heq.
  assert (last (drop (length (l ++ [c]) - length (t ++ [e])) (l ++ [c])) = Some e) as Hl by (rewrite Heq; apply last_snoc).
  rewrite !length_app in Hl. cbn [length] in Hl. rewrite drop_app_le in Hl by lia. rewrite last_snoc in Hl. congruence.
Qed.

Lemma dec_nat_snoc z : 0 <= z → ∃ l c, dec_nat z = l ++ [c] ∧ is_digit c = true.
Proof.
  intros Hz. pose proof (dec_nat_digits z Hz) as HF. destruct (dec_nat_cons z Hz) as (b & l & Hb & _).
  destruct (exists_last (l := dec_nat z)) as (l' & c & Hc); [by rewrite Hb|]. exists l', c. split; [done|].
  rewrite Hc in HF. by apply Forall_app in HF as [_ [Hd _]%Forall_cons].
Qed.

(** A text that ends in a number ends in no word. *)
Lemma strip_suffix_dec x z t e : 0 <= z → is_digit e = false → str_strip_suffix (x ++ dec_nat z) (t ++ [e]) = None.
Proof.
  intros Hz He. destruct (dec_nat_snoc z Hz) as (l & c & -> & Hc). rewrite app_assoc. apply strip_suffix_last. congruence.
Qed.

Lemma dec_nat_not_in c z : 0 <= z → is_digit c = false → c ∉ dec_nat z.
Proof. intros Hz Hc Hin. pose proof (dec_nat_digits z Hz) as HF. eapply Forall_forall in HF; [|exact Hin]. cbv beta in HF. congruence. Qed.

Lemma rsplit_once_app sep a b : sep ∉ b → rsplit_once sep (a ++ sep :: b) = Some (a, b).
Proof.
  intros Hb. pose proof (rsplit_once_spec sep (a ++ sep :: b)) as H. destruct (rsplit_once sep (a ++ sep :: b)) as [[a' b']|]; [|set_solver].
  destruct H as [Heq Hb']. enough (rev b ++ sep :: rev a = rev b' ++ sep :: rev a') as H.
  - assert (∀ x y u v : bytes, sep ∉ x → sep ∉ y → x ++ sep :: u = y ++ sep :: v → x = y ∧ u = v) as Hu.
    { clear. intros x. induction x as [|c x IH]; intros [|d y] u v Hx Hy; cbn; [by intros [= ->]|set_solver..|].
      intros [= -> Heq]. apply IH in Heq as [-> ->]; [done|set_solver..]. }
    assert (∀ x : bytes, sep ∉ x → sep ∉ rev x) as Hr by (intros x Hx H'; apply Hx; rewrite list_elem_of_In, <- in_rev, <- list_elem_of_In in H'; done).
    apply Hu in H as [H1 H2]; [|by apply Hr..]. apply (f_equal (@rev byte)) in H1, H2. rewrite !rev_involutive in H1, H2. by subst.
  - apply (f_equal (@rev byte)) in Heq. rewrite !rev_app_distr in Heq. cbn [rev] in Heq. by rewrite <- !app_assoc in Heq.
Qed.

(** ** Parsing yields typed addresses *)

Lemma read_digits_nonneg radix acc n s : 0 <= radix → 0 <= acc → 0 <= (read_digits radix acc n s).1.1.
Proof.
  intros Hr. revert acc n. induction s as [|b s IH]; intros acc n Ha; [done|]. cbn [read_digits].
  destruct (to_digit radix b) as [d|] eqn:E; [|done]. apply IH. enough (0 <= d) by nia.
  unfold to_digit in E. repeat case_match; simplify_eq;
    match goal with H : (_ && _) = true |- _ => apply andb_true_iff in H as [?%Z.leb_le ?%Z.leb_le]; lia | _ => lia end.
Qed.

Lemma read_number_bound radix m zp max s v r : 0 <= radix → read_number radix m zp max s = Some (v, r) → 0 <= v <= max.
Proof.
  unfold read_number. intros Hr. pose proof (read_digits_nonneg radix 0 0 s Hr ltac:(lia)) as H0.
  destruct (read_digits radix 0 0 s) as [[w n] t]. cbn in H0. destruct (n =? 0); [done|]. destruct (match m with Some _ => _ | None => _ end); [done|].
  destruct (negb zp && _ && _); [done|]. destruct (Z.ltb_spec max w); [done|]. intros [= <- <-]. lia.
Qed.

Lemma read_ipv4_length s o r : read_ipv4_addr s = Some (o, r) → length o = 4%nat.
Proof. unfold read_ipv4_addr. intros H. repeat (apply bind_Some in H as ([? ?] & _ & H); cbn beta iota in H). by injection H as <- _. Qed.

Lemma read_groups_length k i s : (length (read_groups k i s).1.1 <= k)%nat.
Proof.
  revert i s. induction k as [|k IH]; intros i s; [done|]. cbn [read_groups].
  destruct (match k with O => None | S _ => _ end) as [[o s']|] eqn:E; [destruct k; [done|cbn; lia]|].
  destruct (read_separator x3a i read_group s) as [[g s']|]; [|cbn; lia].
  specialize (IH (S i) s'). destruct (read_groups k (S i) s') as [[gs q] r]. cbn in *. lia.
Qed.

Lemma read_ipv6_length s gs r : read_ipv6_segments s = Some (gs, r) → length gs = 8%nat.
Proof.
  unfold read_ipv6_segments. destruct (read_groups 8 0 s) as [[hd quad] s1] eqn:E1. pose proof (read_groups_length 8 0 s) as H1. rewrite E1 in H1. cbn in H1.
  case_decide as Hd; [by intros [= <- _]|]. destruct quad; [done|]. intros H.
  apply bind_Some in H as (s2 & _ & H). apply bind_Some in H as (s3 & _ & H). cbv zeta in H.
  destruct (read_groups (8 - (length hd + 1)) 0 s3) as [[tl q] r'] eqn:E2. pose proof (read_groups_length (8 - (length hd + 1)) 0 s3) as H2. rewrite E2 in H2.
  cbn in H2. injection H as <- _. rewrite !length_app, repeat_length. lia.
Qed.

Lemma segments_octets_length gs : length (segments_octets gs) = (2 * length gs)%nat.
Proof. unfold segments_octets. induction gs as [|g gs IH]; [done|]. cbn [map concat length]. rewrite length_app, length_be_bytes, IH. lia. Qed.

Lemma read_port_bound s port r : read_port s = Some (port, r) → is_u16 port.
Proof.
  unfold read_port. intros (s' & _ & H)%bind_Some. apply read_number_bound in H; [|lia]. unfold is_u16. lia.
Qed.

Lemma parse_socket_addr_typed s a : parse_socket_addr s = Some a → addr_typed (Ip a) ∧ sock_ok a.
Proof.
  unfold parse_socket_addr. intros ([a' r] & H & Hr)%bind_Some. destruct r; [|done]. injection Hr as ->.
  destruct (read_socket_addr_v4 s) as [x|] eqn:E4.
  - injection H as ->. unfold read_socket_addr_v4 in E4. apply bind_Some in E4 as ([o s1] & Ho & E4). cbn beta iota in E4.
    apply bind_Some in E4 as ([port s2] & Hp & E4). cbn beta iota in E4. injection E4 as <- _.
    split; [split; [by eapply read_ipv4_length|by eapply read_port_bound]|done].
  - clear E4. unfold read_socket_addr_v6 in H. apply bind_Some in H as (s1 & _ & H). apply bind_Some in H as ([gs s2] & Hg & H). cbn beta iota in H.
    destruct (default (0, s2) (read_scope_id s2)) as [sc s3] eqn:Es. apply bind_Some in H as (s4 & _ & H).
    apply bind_Some in H as ([port s5] & Hp & H). cbn beta iota in H. injection H as <- _.
    split; [split; [rewrite segments_octets_length; by rewrite (read_ipv6_length _ _ _ Hg)|by eapply read_port_bound]|split; [done|]].
    destruct (read_scope_id s2) as [[sc' s']|] eqn:Eq; cbn in Es; injection Es as <- <-; [|done].
    unfold read_scope_id in Eq. apply bind_Some in Eq as (? & _ & Eq). by apply read_number_bound in Eq.
Qed.

Lemma parse_u16_bound s v : parse_u16 s = Some v → is_u16 v.
Proof.
  unfold parse_u16, parse_uint. set (t := match s with b :: s' => _ | [] => s end). clearbody t. destruct t as [|b t]; [done|].
  destruct (forallb is_digit (b :: t)) eqn:Ed; [|done]. cbv zeta. destruct (Z.ltb_spec (dec_val (b :: t)) (2 ^ 16)); [|done]. intros [= <-].
  split; [|done]. clear -Ed. unfold dec_val. assert (0 <= 0) as Ha by lia. revert Ha. generalize 0 at 2 4.
  revert Ed. generalize (b :: t). intros l. induction l as [|c l IH]; intros Hd a Ha; [done|]. cbn in Hd. apply andb_true_iff in Hd as [Hc Hd]. cbn [foldl].
  apply IH; [done|]. unfold is_digit in Hc. apply andb_true_iff in Hc as [?%Z.leb_le _]. unfold digit_val. lia.
Qed.

(** ** Properties *)

(** The addresses the text form carries: typed, no IPv6 flow label, and for an
    overlay host a name that is not empty and not itself spelled like a mesh
    address. *)
Definition printable (p : PeerAddr) : Prop :=
  addr_typed p ∧
  match p with
  | Ip a => sock_ok a
  | Onion host _ | I2p host _ => host ≠ [] ∧ str_strip_prefix (bstr "rns:") host = None
  | Rns _ => True
  end.

Lemma strip_prefix_rns host rest : str_strip_prefix (bstr "rns:") host = None → head rest = Some x2e →
  str_strip_prefix (bstr "rns:") (host ++ rest) = None.
Proof.
  intros Hn Hr. destruct rest as [|? rest]; [done|]. injection Hr as ->. revert Hn. unfold str_strip_prefix.
  destruct host as [|a [|b [|c [|d host]]]]; [intros _; by rewrite bool_decide_false..|].
  intros Hn. by destruct (bool_decide _) eqn:E in Hn |- *.
Qed.

Lemma parse_overlay_spec host port : is_u16 port → host ≠ [] →
  parse_overlay (host ++ bstr ".onion:" ++ dec_nat port) = Some (Some (Onion host port)) ∧
  parse_overlay (host ++ bstr ".i2p:" ++ dec_nat port) = Some (Some (I2p host port)).
Proof.
  intros Hp Hh. pose proof (dec_nat_not_in x3a port (proj1 Hp) eq_refl) as Hc. unfold parse_overlay.
  assert (blen host =? 0 = false) as Hb by (destruct host; [done|]; rewrite blen_cons; pose proof (blen_nonneg host); lia).
  split.
  - change (bstr ".onion:" ++ dec_nat port) with (bstr ".onion" ++ x3a :: dec_nat port). rewrite app_assoc, rsplit_once_app by done.
    cbn [mbind option_bind]. by rewrite str_strip_suffix_app, parse_u16_dec, Hb by done.
  - change (bstr ".i2p:" ++ dec_nat port) with (bstr ".i2p" ++ x3a :: dec_nat port). rewrite app_assoc, rsplit_once_app by done.
    cbn [mbind option_bind]. assert (str_strip_suffix (host ++ bstr ".i2p") (bstr ".onion") = None) as ->.
    { change (bstr ".i2p") with (bstr ".i2" ++ ["p"%byte]). rewrite app_assoc. by apply (strip_suffix_last _ (bstr ".onio")). }
    rewrite str_strip_suffix_app. cbn [mbind option_bind]. by rewrite parse_u16_dec, Hb by done.
Qed.

(** The text of a socket address: it ends in the port, whose separator is the
    last colon, and it starts with a digit or a bracket. *)
Lemma fmt_socket_addr_shape a : addr_typed (Ip a) →
  ∃ h port c, fmt_socket_addr a = h ++ x3a :: dec_nat port ∧ 0 <= port ∧ last h = Some c ∧ (is_digit c = true ∨ c = x5d) ∧
    ∃ b, head (fmt_socket_addr a) = Some b ∧ (is_digit b = true ∨ b = x5b).
Proof.
  destruct a as [o port|o port f s]; intros [Ho Hp]; unfold fmt_socket_addr.
  - exists (fmt_ipv4 o), port. do 5 (destruct o as [|? o]; try done). unfold fmt_ipv4. cbn [map str_join].
    destruct (dec_nat_snoc (byte_val b2)) as (l & c & Hl & Hc); [pose proof (byte_val_range b2); lia|].
    destruct (dec_nat_cons (byte_val b)) as (d & l' & Hd & Hdd); [pose proof (byte_val_range b); lia|].
    exists c. rewrite Hl, Hd. split_and!; [done|apply Hp| |by left|exists d; split; [done|by left]].
    rewrite !app_assoc. apply last_snoc.
  - exists (bstr "[" ++ fmt_ipv6 o ++ (if s =? 0 then [] else bstr "%" ++ dec_nat s) ++ bstr "]"), port, x5d.
    split_and!; [by rewrite <- !app_assoc|apply Hp| |by right|exists x5b; split; [done|by right]].
    rewrite !app_assoc. apply last_snoc.
Qed.

Lemma last_strip_suffix h c t e : last h = Some c → c ≠ e → str_strip_suffix h (t ++ [e]) = None.
Proof. intros (l & ->)%last_Some Hne. by apply strip_suffix_last. Qed.

Section roundtrip.
Context (hex_encode : bytes → bytes) (hex_decode : bytes → option bytes).
Hypothesis hex_roundtrip : ∀ h, hex_decode (hex_encode h) = Some h.

Lemma parse_printed p : printable p → parse hex_decode (to_string hex_encode p) = Some p.
Proof.
  intros [Ht Hok]. destruct p as [a|host port|dest port|h]; cbn [to_string].
  - destruct (fmt_socket_addr_shape a Ht) as (h & port & c & Hf & Hp & Hl & Hc & b & Hb & Hbb). unfold parse.
    assert (str_strip_prefix (bstr "rns:") (fmt_socket_addr a) = None) as ->.
    { unfold str_strip_prefix. rewrite bool_decide_false; [done|]. intros Heq. destruct (fmt_socket_addr a) as [|b' r]; [done|].
      injection Hb as ->. injection Heq as -> _. by destruct Hbb. }
    assert (str_strip_suffix (fmt_socket_addr a) (bstr ".i2p") = None) as ->.
    { rewrite Hf. change (h ++ x3a :: dec_nat port) with (h ++ [x3a] ++ dec_nat port). rewrite app_assoc. by apply (strip_suffix_dec _ _ (bstr ".i2")). }
    assert (parse_overlay (fmt_socket_addr a) = None) as ->.
    { unfold parse_overlay. rewrite Hf, rsplit_once_app by (by apply dec_nat_not_in). cbn [mbind option_bind].
      assert (str_strip_suffix h (bstr ".onion") = None) as -> by (apply (last_strip_suffix h c (bstr ".onio") "n"%byte); [done|intros ->; by destruct Hc]).
      assert (str_strip_suffix h (bstr ".i2p") = None) as -> by (apply (last_strip_suffix h c (bstr ".i2") "p"%byte); [done|intros ->; by destruct Hc]).
      done. }
    by rewrite parse_fmt_socket_addr.
  - destruct Hok as [Hne Hn]. unfold parse. rewrite strip_prefix_rns by done.
    assert (str_strip_suffix (host ++ bstr ".onion:" ++ dec_nat port) (bstr ".i2p") = None) as ->
      by (rewrite app_assoc; apply (strip_suffix_dec _ _ (bstr ".i2")); [apply Ht|done]).
    by rewrite (proj1 (parse_overlay_spec host port Ht Hne)).
  - destruct Hok as [Hne Hn]. unfold parse. rewrite strip_prefix_rns by done.
    assert (str_strip_suffix (dest ++ bstr ".i2p:" ++ dec_nat port) (bstr ".i2p") = None) as ->
      by (rewrite app_assoc; apply (strip_suffix_dec _ _ (bstr ".i2")); [apply Ht|done]).
    by rewrite (proj2 (parse_overlay_spec dest port Ht Hne)).
  - unfold parse, str_strip_prefix. rewrite bool_decide_true by done. change (drop _ _) with (hex_encode h). rewrite hex_roundtrip.
    cbn [mbind option_bind addr_typed] in *. unfold blen. by rewrite Ht.
Qed.

Lemma parse_yields_printable s p : parse hex_decode s = Some p → printable p.
Proof.
  unfold parse. destruct (str_strip_prefix (bstr "rns:") s) as [hx|] eqn:En.
  { intros (h & _ & H)%bind_Some. destruct (Z.eqb_spec (blen h) 16) as [E|]; [|done]. injection H as <-. split; [|done]. cbn. unfold blen in E. lia. }
  assert (∀ a b, s = a ++ b → str_strip_prefix (bstr "rns:") a = None) as Hpre.
  { intros a b ->. revert En. unfold str_strip_prefix. destruct (decide (take 4 a = bstr "rns:")) as [Ha|Ha].
    - rewrite bool_decide_true; [done|]. change (length (bstr "rns:")) with 4%nat. rewrite take_app_le; [done|].
      assert (length (take 4 a) = 4%nat) as Hl by (by rewrite Ha). rewrite length_take in Hl. lia.
    - intros _. by rewrite bool_decide_false. }
  assert (∀ l x t, str_strip_suffix l x = Some t → ∃ u, l = t ++ u) as Hsuf.
  { intros l x t. unfold str_strip_suffix. case_bool_decide; [|done]. intros [= <-]. eexists. symmetry. apply take_drop. }
  assert (∀ h : bytes, negb (blen h =? 0) = true → h ≠ []) as Hne by (intros h Hh ->; done).
  destruct (str_strip_suffix s (bstr ".i2p")) as [host|] eqn:Ei.
  { destruct (Hsuf _ _ _ Ei) as [u Hu]. destruct (blen host =? 0) eqn:E0; [done|]. intros [= <-]. split; [done|]. split; [apply Hne; by rewrite E0|by eapply Hpre]. }
  unfold parse_overlay. pose proof (rsplit_once_spec x3a s) as Hsp. destruct (rsplit_once x3a s) as [[host port]|]; cbn [mbind option_bind].
  2:{ intros (a & Ha & ->)%fmap_Some. exact (parse_socket_addr_typed _ _ Ha). }
  destruct Hsp as [-> _]. destruct (str_strip_suffix host (bstr ".onion")) as [oh|] eqn:Eo.
  { destruct (Hsuf _ _ _ Eo) as [u ->]. intros (v & Hv & H)%bind_Some. destruct (negb (blen oh =? 0)) eqn:E0; [|done]. injection H as <-.
    split; [by eapply parse_u16_bound|]. split; [by apply Hne|]. eapply Hpre. by rewrite <- app_assoc. }
  destruct (str_strip_suffix host (bstr ".i2p")) as [oh|] eqn:E2; cbn [mbind option_bind].
  { destruct (Hsuf _ _ _ E2) as [u ->]. intros (v & Hv & H)%bind_Some. destruct (negb (blen oh =? 0)) eqn:E0; [|done]. injection H as <-.
    split; [by eapply parse_u16_bound|]. split; [by apply Hne|]. eapply Hpre. by rewrite <- app_assoc. }
  intros (a & Ha & ->)%fmap_Some. exact (parse_socket_addr_typed _ _ Ha).
Qed.
End roundtrip.



(** Some placeholder shapes do survive the trip: an onion host with port zero
    and the all-zero mesh hash print and parse back, though neither is
    well formed. *)
Lemma placeholder_roundtrips :
  is_wellformed (Onion (bstr "abc") 0) = false ∧ is_wellformed (Rns (repeat x00 16)) = false ∧
  ∀ p, p = Onion (bstr "abc") 0 ∨ p = Rns (repeat x00 16) → parse Some (to_string (λ x, x) p) = Some p.
Proof. split_and!; [vm_compute; reflexivity..|]. by intros p [->| ->]; vm_compute. Qed.
