(* ===== verification/Peers.v ===== *)
(** * The peer registry ([crates/epix-peer/src/lib.rs])

    What a node knows of each peer of a xite, how successes, failures and
    health probes move it, and which peers a sync pass, a data fetch or the
    health prober is handed.

    The registry is the code's hash map from an address's text to its peer; the
    order a hash map iterates in is unspecified, so the operations that list
    peers take that order ([values]) as a parameter, of which only the fact that
    it lists every entry once is used. The jitter of the probe cooldown comes
    from the standard library's hasher, whose function is not documented: a
    parameter too. Counters wrap at their width where the code's plain additions
    would. *)
From Stdlib Require Import ZArith Lia Strings.Byte Strings.String.
From stdpp Require Import base list sorting strings gmap.
From S2P Require Import Prelude Ordered Json Text Peer AddrText.
#[local] Open Scope Z_scope.

(** ** Networks *)

Record DialableNets := { clearnet : bool; onion : bool; i2p : bool; rns : bool }.

Definition all_nets : DialableNets := {| clearnet := true; onion := true; i2p := true; rns := true |}.

Definition can_dial (n : DialableNets) (addr : PeerAddr) : bool :=
  match addr with Ip _ => n.(clearnet) | Onion _ _ => n.(onion) | I2p _ _ => n.(i2p) | Rns _ => n.(rns) end.

Definition BENCHED_FANOUT : nat := 2.
Definition DATA_HISTORY_SECS : Z := 6 * 3600.

(** [i64::saturating_sub]. *)
Definition i64_sat_sub (x y : Z) : Z := Z.max i64_min (Z.min i64_max (x - y)).
(** Plain additions at their width. *)
Definition wrap_i32 (x : Z) : Z := (x + 2 ^ 31) mod 2 ^ 32 - 2 ^ 31.
Definition wrap_usize (x : Z) : Z := x mod 2 ^ 64.

(** ** A peer *)

Record Peer := {
  addr : PeerAddr;
  reputation : Z;
  time_found : Z;
  time_response : Z;
  time_data : Z;
  connection_errors : Z;
  retry_after : Z;
  probe_after : Z;
  benched_since : Z;
  probe_failures : Z;
  connected : bool;
  bytes_recv : Z;
  bytes_sent : Z;
}.

#[global] Instance Peer_eq_dec : EqDecision Peer.
Proof. solve_decision. Defined.

Definition peer_new (addr : PeerAddr) (now : Z) : Peer := {|
  addr := addr; reputation := 0; time_found := now; time_response := 0; time_data := 0;
  connection_errors := 0; retry_after := 0; probe_after := 0; benched_since := 0; probe_failures := 0;
  connected := false; bytes_recv := 0; bytes_sent := 0 |}.

Definition durability_bucket (p : Peer) (now : Z) : Z :=
  let DAY := 24 * 3600 in
  if p.(time_found) <=? 0 then 0
  else
    let d := i64_sat_sub now p.(time_found) in
    if 30 * DAY <=? d then 3 else if 7 * DAY <=? d then 2 else if DAY <=? d then 1 else 0.

Definition is_onion (p : Peer) : bool := match p.(addr) with Onion _ _ => true | _ => false end.

Definition is_connectable (p : Peer) : bool :=
  match p.(addr) with
  | Ip sa => negb (sock_port sa =? 0)
  | Onion _ port => negb (port =? 0)
  | I2p _ _ | Rns _ => true
  end.

Definition is_local (p : Peer) : bool :=
  match p.(addr) with
  | Ip (V4 o _) => v4_is_private o || v4_is_loopback o || v4_is_link_local o
  | Ip (V6 o _ _ _) => v6_is_loopback o
  | _ => false
  end.

Definition has_recent_data (p : Peer) (now : Z) : bool :=
  negb (p.(time_data) =? 0) && (i64_sat_sub now p.(time_data) <? DATA_HISTORY_SECS).

Definition failure_streak (p : Peer) : Z := sat_add32 p.(connection_errors) p.(probe_failures).

Section jitter.
(** The hash of an address's text and an attempt count, as [DefaultHasher]
    finishes it. *)
Context (hash : bytes → Z → Z) (hex_encode : bytes → bytes).

(** The base of the probe cooldown, before jitter. *)
Definition probe_base (a : PeerAddr) (failures : Z) : Z :=
  let '(cap, max_shift) := match a with Onion _ _ => (7200, 8) | _ => (600, 5) end in
  let shift := Z.min (sat_sub failures 1) max_shift in
  Z.min (Z.shiftl 30 shift) cap.

Definition probe_cooldown_secs (a : PeerAddr) (failures : Z) : Z :=
  let base := probe_base a failures in
  base + hash (to_string hex_encode a) failures mod (base / 4 + 1).

Definition note_connect_ok (now : Z) (p : Peer) : Peer := {|
  addr := p.(addr); reputation := wrap_i32 (p.(reputation) + 1); time_found := p.(time_found);
  time_response := now; time_data := p.(time_data); connection_errors := 0; retry_after := 0; probe_after := 0;
  benched_since := 0; probe_failures := 0; connected := true; bytes_recv := p.(bytes_recv); bytes_sent := p.(bytes_sent) |}.

(** The dial backoff after [n] consecutive failures. *)
Definition dial_backoff (n : Z) : Z := Z.min (Z.shiftl 15 (Z.min n 8)) 3600.

Definition note_connect_fail (now : Z) (p : Peer) : Peer :=
  let errors := wrap32 (p.(connection_errors) + 1) in
  {| addr := p.(addr); reputation := wrap_i32 (p.(reputation) - 1); time_found := p.(time_found);
     time_response := p.(time_response); time_data := p.(time_data); connection_errors := errors;
     retry_after := now + dial_backoff errors;
     probe_after := now + probe_cooldown_secs p.(addr) (sat_add32 errors p.(probe_failures));
     benched_since := if p.(benched_since) =? 0 then now else p.(benched_since);
     probe_failures := p.(probe_failures); connected := false; bytes_recv := p.(bytes_recv); bytes_sent := p.(bytes_sent) |}.

Definition note_probe_ok (now : Z) (p : Peer) : Peer := {|
  addr := p.(addr); reputation := p.(reputation); time_found := p.(time_found);
  time_response := p.(time_response); time_data := p.(time_data); connection_errors := p.(connection_errors);
  retry_after := 0; probe_after := now + probe_cooldown_secs p.(addr) p.(connection_errors);
  benched_since := p.(benched_since); probe_failures := 0; connected := p.(connected);
  bytes_recv := p.(bytes_recv); bytes_sent := p.(bytes_sent) |}.

Definition note_probe_fail (now : Z) (p : Peer) : Peer :=
  let failures := sat_add32 p.(probe_failures) 1 in
  let streak := sat_add32 p.(connection_errors) failures in
  {| addr := p.(addr); reputation := p.(reputation); time_found := p.(time_found);
     time_response := p.(time_response); time_data := p.(time_data); connection_errors := p.(connection_errors);
     retry_after := now + dial_backoff streak; probe_after := now + probe_cooldown_secs p.(addr) streak;
     benched_since := if p.(benched_since) =? 0 then now else p.(benched_since);
     probe_failures := failures; connected := p.(connected); bytes_recv := p.(bytes_recv); bytes_sent := p.(bytes_sent) |}.
End jitter.

Definition note_file_ok (now : Z) (p : Peer) : Peer := {|
  addr := p.(addr); reputation := wrap_i32 (p.(reputation) + 1); time_found := p.(time_found);
  time_response := now; time_data := p.(time_data); connection_errors := p.(connection_errors); retry_after := p.(retry_after);
  probe_after := p.(probe_after); benched_since := p.(benched_since); probe_failures := p.(probe_failures);
  connected := p.(connected); bytes_recv := p.(bytes_recv); bytes_sent := p.(bytes_sent) |}.

Definition note_file_fail (p : Peer) : Peer := {|
  addr := p.(addr); reputation := wrap_i32 (p.(reputation) - 1); time_found := p.(time_found);
  time_response := p.(time_response); time_data := p.(time_data); connection_errors := p.(connection_errors); retry_after := p.(retry_after);
  probe_after := p.(probe_after); benched_since := p.(benched_since); probe_failures := p.(probe_failures);
  connected := p.(connected); bytes_recv := p.(bytes_recv); bytes_sent := p.(bytes_sent) |}.

Definition note_data_served (now : Z) (p : Peer) : Peer := {|
  addr := p.(addr); reputation := p.(reputation); time_found := p.(time_found);
  time_response := p.(time_response); time_data := now; connection_errors := p.(connection_errors); retry_after := p.(retry_after);
  probe_after := p.(probe_after); benched_since := p.(benched_since); probe_failures := p.(probe_failures);
  connected := p.(connected); bytes_recv := p.(bytes_recv); bytes_sent := p.(bytes_sent) |}.

(** ** The registry *)

Record PeerCounts := { c_total : Z; c_connected : Z; c_connectable : Z; c_onion : Z; c_local : Z }.

Record ProbeCandidate := { pc_addr : PeerAddr; pc_failures : Z; pc_benched_secs : Z; pc_probe_after : Z }.

Abbreviation Peers := (gmap bytes Peer).

Section registry.
Context (hex_encode : bytes → bytes).

Definition key (p : Peer) : bytes := to_string hex_encode p.(addr).

Definition restore (peer : Peer) (m : Peers) : bool * Peers :=
  if decide (is_Some (m !! key peer)) then (false, m) else (true, <[key peer := peer]> m).

Definition add (a : PeerAddr) (now : Z) (m : Peers) : bool * Peers := restore (peer_new a now) m.

Definition add_many (addrs : list PeerAddr) (now : Z) (m : Peers) : Z * Peers :=
  foldl (λ '(n, m) a, let '(new, m) := add a now m in (if (new : bool) then n + 1 else n, m)) (0, m) addrs.

Definition get (a : PeerAddr) (m : Peers) : option Peer := m !! to_string hex_encode a.
(** [get_mut] and a change through the reference. *)
Definition update (a : PeerAddr) (f : Peer → Peer) (m : Peers) : Peers := alter f (to_string hex_encode a) m.

Definition mark_connected (now : Z) (p : Peer) : Peer := {|
  addr := p.(addr); reputation := p.(reputation); time_found := p.(time_found);
  time_response := now; time_data := p.(time_data); connection_errors := 0; retry_after := p.(retry_after);
  probe_after := p.(probe_after); benched_since := p.(benched_since); probe_failures := p.(probe_failures);
  connected := true; bytes_recv := p.(bytes_recv); bytes_sent := p.(bytes_sent) |}.

Definition mark_disconnected (p : Peer) : Peer := {|
  addr := p.(addr); reputation := p.(reputation); time_found := p.(time_found);
  time_response := p.(time_response); time_data := p.(time_data); connection_errors := p.(connection_errors); retry_after := p.(retry_after);
  probe_after := p.(probe_after); benched_since := p.(benched_since); probe_failures := p.(probe_failures);
  connected := false; bytes_recv := p.(bytes_recv); bytes_sent := p.(bytes_sent) |}.

Definition set_connected (a : PeerAddr) (on : bool) (now : Z) (m : Peers) : Peers :=
  update a (if on then mark_connected now else mark_disconnected) m.

Definition sync_connected (live : gset bytes) (now : Z) (m : Peers) : Peers :=
  (λ p, if decide (key p ∈ live) then mark_connected now p else mark_disconnected p) <$> m.

Definition retain (keep : Peer → bool) (m : Peers) : Z * Peers :=
  let m' := filter (λ e, keep e.2 = true) m in
  (Z.of_nat (size m) - Z.of_nat (size m'), m').

Definition MAX_ERRORS : Z := 6.
Definition RESPONSE_GRACE_SECS : Z := 4 * 3600.

Definition evict_keeps (now : Z) (p : Peer) : bool :=
  if p.(connected) || (p.(connection_errors) <? MAX_ERRORS) then true
  else negb (p.(time_response) =? 0) && (now - p.(time_response) <? RESPONSE_GRACE_SECS).

Definition evict_dead (now : Z) (m : Peers) : Z * Peers := retain (evict_keeps now) m.

Definition record_transfer (a : PeerAddr) (recv sent : Z) (m : Peers) : Peers :=
  update a (λ p, {|
    addr := p.(addr); reputation := p.(reputation); time_found := p.(time_found);
    time_response := p.(time_response); time_data := p.(time_data); connection_errors := p.(connection_errors); retry_after := p.(retry_after);
    probe_after := p.(probe_after); benched_since := p.(benched_since); probe_failures := p.(probe_failures);
    connected := p.(connected); bytes_recv := wrap64 (p.(bytes_recv) + recv); bytes_sent := wrap64 (p.(bytes_sent) + sent) |}) m.

(** ** Selection *)

(** The order the map iterates in. *)
Context (values : Peers → list Peer).

Definition connectables (m : Peers) : list Peer := List.filter is_connectable (values m).

Definition connectable (limit : nat) (m : Peers) : list PeerAddr :=
  map addr (take limit (sort_by (λ a b, Z.compare b.(reputation) a.(reputation)) (connectables m))).

Definition soonest_due (peers : list Peer) : list Peer :=
  take BENCHED_FANOUT (sort_by (λ a b, Z.compare a.(retry_after) b.(retry_after)) peers).

Definition due (nets : DialableNets) (now : Z) (p : Peer) : bool := can_dial nets p.(addr) && (p.(retry_after) <=? now).

(** The candidates: the due ones, or the soonest due of those dialable, or of all. *)
Definition candidates (nets : DialableNets) (now : Z) (connectable : list Peer) : list Peer :=
  match List.filter (due nets now) connectable with
  | [] =>
    match soonest_due (List.filter (λ p, can_dial nets p.(addr)) connectable) with
    | [] => soonest_due connectable
    | peers => peers
    end
  | peers => peers
  end.

(** [prefer_overlay] is the process-wide Tor-always flag. *)
Definition net_rank (prefer_overlay : bool) (p : Peer) : Z := if bool_decide (is_overlay p.(addr) = prefer_overlay) then 0 else 1.
Definition data_rank (prefer_data : bool) (now : Z) (p : Peer) : Z := if prefer_data && has_recent_data p now then 0 else 1.

Definition rank_cmp (prefer_overlay prefer_data : bool) (now : Z) (a b : Peer) : comparison :=
  then_ (Z.compare (data_rank prefer_data now a) (data_rank prefer_data now b))
  (then_ (Z.compare b.(reputation) a.(reputation))
  (then_ (Z.compare (net_rank prefer_overlay a) (net_rank prefer_overlay b))
  (then_ (Z.compare a.(connection_errors) b.(connection_errors))
  (then_ (Z.compare (durability_bucket b now) (durability_bucket a now))
         (Z.compare b.(time_response) a.(time_response)))))).

Definition explore_window (limit keep : Z) (rest : list Peer) : Z := Z.max (Z.min (wrap_usize (limit - keep)) (blen rest)) 1.

(** The sample of a ranked list: half follows the ranking, the rest rotates
    with the minute. [None] is the panic of a remainder by zero. *)
Definition sample (limit now : Z) (peers : list Peer) : option (list PeerAddr) :=
  if blen peers <=? limit then Some (map addr peers)
  else
    let keep := Z.max (limit / 2) 1 in
    let out := map addr (take (Z.to_nat keep) peers) in
    let rest := drop (Z.to_nat keep) peers in
    let window := explore_window limit keep rest in
    if blen rest =? 0 then None
    else
      let offset := wrap_usize (Z.max now 0 / 60 * window) mod blen rest in
      explored ← mapM (λ i, index rest ((offset + Z.of_nat i) mod blen rest)) (seq 0 (Z.to_nat window));
      Some (out ++ map addr explored).

Definition ranked (prefer_overlay : bool) (nets : DialableNets) (now : Z) (prefer_data : bool) (m : Peers) : list Peer :=
  sort_by (rank_cmp prefer_overlay prefer_data now) (candidates nets now (connectables m)).

Definition select_dialable (prefer_overlay : bool) (limit : Z) (nets : DialableNets) (now : Z) (prefer_data : bool) (m : Peers) : option (list PeerAddr) :=
  sample limit now (ranked prefer_overlay nets now prefer_data m).

Definition connectable_dialable (prefer_overlay : bool) (limit : Z) (nets : DialableNets) (now : Z) (m : Peers) : option (list PeerAddr) :=
  select_dialable prefer_overlay limit nets now false m.
Definition connectable_for_data (prefer_overlay : bool) (limit : Z) (nets : DialableNets) (now : Z) (m : Peers) : option (list PeerAddr) :=
  select_dialable prefer_overlay limit nets now true m.

Definition probe_due (nets : DialableNets) (now : Z) (p : Peer) : bool :=
  negb p.(connected) && (0 <? p.(connection_errors)) && is_connectable p && can_dial nets p.(addr) && (p.(probe_after) <=? now).

Definition probe_candidates (nets : DialableNets) (now : Z) (limit : nat) (m : Peers) : list ProbeCandidate :=
  map (λ p, {| pc_addr := p.(addr); pc_failures := failure_streak p; pc_benched_secs := Z.max (now - p.(benched_since)) 0; pc_probe_after := p.(probe_after) |})
    (take limit (sort_by (λ a b, Z.compare a.(probe_after) b.(probe_after)) (List.filter (probe_due nets now) (values m)))).

Definition count_peers (f : Peer → bool) (m : Peers) : Z := blen (List.filter f (values m)).

Definition counts (m : Peers) : PeerCounts := {|
  c_total := Z.of_nat (size m); c_connected := count_peers connected m; c_connectable := count_peers is_connectable m;
  c_onion := count_peers is_onion m; c_local := count_peers is_local m |}.
End registry.

(** ** Ranking *)

(** A comparator given by a key is a total preorder. *)
Section by_key.
Context {A K} `{Ord K} (f : A → K).

Lemma key_cmp_anti (x y : A) : cmp (f y) (f x) = CompOpp (cmp (f x) (f y)).
Proof. apply cmp_opp. Qed.

Lemma key_cmp_trans (x y z : A) : cle (λ a b, cmp (f a) (f b)) x y → cle (λ a b, cmp (f a) (f b)) y z → cle (λ a b, cmp (f a) (f b)) x z.
Proof. apply (ole_trans (f x) (f y) (f z)). Qed.

Lemma sort_by_key_sorted l : StronglySorted (λ a b, ole (f a) (f b)) (sort_by (λ a b, cmp (f a) (f b)) l).
Proof. apply (sort_by_sorted _ key_cmp_anti key_cmp_trans). Qed.

(** The head of the sorted list beats the tail. *)
Lemma sort_by_key_take n l p q :
  p ∈ take n (sort_by (λ a b, cmp (f a) (f b)) l) → q ∈ drop n (sort_by (λ a b, cmp (f a) (f b)) l) → ole (f p) (f q).
Proof.
  pose proof (sort_by_key_sorted l) as Hs. rewrite <- (take_drop n (sort_by _ l)) in Hs.
  intros Hp Hq. by eapply StronglySorted_app_1_elem_of in Hs.
Qed.
End by_key.

(** What the ranking sorts by, smallest first. *)
Definition rank_key (prefer_overlay prefer_data : bool) (now : Z) (p : Peer) : list Z :=
  [data_rank prefer_data now p; - p.(reputation); net_rank prefer_overlay p; p.(connection_errors); - durability_bucket p now; - p.(time_response)].

Lemma rank_cmp_by_key po pd now a b : rank_cmp po pd now a b = cmp (rank_key po pd now a) (rank_key po pd now b).
Proof.
  assert (∀ x y, (y ?= x) = (- x ?= - y)) as Hopp by (intros x y; rewrite <- Z.compare_opp; done).
  unfold rank_cmp, rank_key. cbn [cmp list_ord list_cmp Z_ord].
  rewrite (Hopp a.(reputation)), (Hopp (durability_bucket a now)), (Hopp a.(time_response)).
  by destruct (- time_response a ?= - time_response b); cbn [then_].
Qed.

Lemma sort_by_ext {A} (c d : A → A → comparison) l : (∀ x y, c x y = d x y) → sort_by c l = sort_by d l.
Proof.
  intros Hcd. induction l as [|x l IH]; [done|]. cbn [sort_by foldr]. fold (sort_by c l) (sort_by d l). rewrite IH. generalize (sort_by d l). clear IH.
  intros k. induction k as [|y k IH]; [done|]. cbn [sort_insert]. rewrite Hcd. destruct (d x y); congruence.
Qed.

Section selection.
Context (hex_encode : bytes → bytes) (values : Peers → list Peer).
(** The iteration lists every entry once. *)
Hypothesis values_spec : ∀ m : Peers, values m ≡ₚ (map_to_list m).*2.

(** Entries are stored under their address. *)
Definition registry_wf (m : Peers) : Prop := ∀ k p, m !! k = Some p → k = key hex_encode p.

Lemma elem_of_values m p : p ∈ values m ↔ ∃ k, m !! k = Some p.
Proof using values_spec.
  rewrite values_spec, list_elem_of_fmap. split.
  - intros ([k q] & -> & Hin). exists k. by apply elem_of_map_to_list in Hin.
  - intros [k Hk]. exists (k, p). split; [done|]. by apply elem_of_map_to_list.
Qed.

Lemma values_addrs_nodup m : registry_wf m → NoDup (map addr (values m)).
Proof using values_spec.
  intros Hwf. assert (map addr (values m) ≡ₚ map addr (map_to_list m).*2) as -> by (by apply Permutation_map).
  enough (NoDup (map (to_string hex_encode) (map addr (map_to_list m).*2))) as H by (by apply (NoDup_fmap_1 (to_string hex_encode))).
  assert (map (to_string hex_encode) (map addr (map_to_list m).*2) = (map_to_list m).*1) as ->; [|apply NoDup_fst_map_to_list].
  rewrite map_map. assert (∀ l : list (bytes * Peer), (∀ k p, (k, p) ∈ l → k = key hex_encode p) → map (key hex_encode) l.*2 = l.*1) as Hl.
  { clear. intros l Hl. induction l as [|[k p] l IH]; [done|]. cbn. rewrite <- (Hl k p) by left. f_equal. apply IH. intros ? ? ?. apply Hl. by right. }
  apply Hl. intros k p Hin. apply Hwf. by apply elem_of_map_to_list.
Qed.

End selection.

(** ** Candidates *)

Definition dialable (nets : DialableNets) (p : Peer) : bool := can_dial nets p.(addr).

Lemma elem_of_soonest_due p l : p ∈ soonest_due l → p ∈ l.
Proof. intros (i & Hi%list_elem_of_lookup_2 & _)%elem_of_take. by rewrite elem_of_sort_by in Hi. Qed.

Lemma length_soonest_due l : length (soonest_due l) = min 2 (length l).
Proof. unfold soonest_due. by rewrite length_take, length_sort_by. Qed.

Lemma soonest_due_nil l : soonest_due l = [] → l = [].
Proof. intros H. apply (f_equal length) in H. rewrite length_soonest_due in H. destruct l; [done|cbn in H; lia]. Qed.

(** Nobody left out is due before somebody taken. *)
Lemma soonest_due_first l p q : p ∈ soonest_due l → q ∈ l → q ∉ soonest_due l → p.(retry_after) <= q.(retry_after).
Proof.
  unfold soonest_due. intros Hp Hq Hn. change (λ a b : Peer, a.(retry_after) ?= b.(retry_after)) with (λ a b : Peer, cmp a.(retry_after) b.(retry_after)) in *.
  assert (q ∈ drop BENCHED_FANOUT (sort_by (λ a b : Peer, cmp a.(retry_after) b.(retry_after)) l)) as Hd.
  { rewrite <- (elem_of_sort_by (λ a b : Peer, cmp a.(retry_after) b.(retry_after))) in Hq.
    rewrite <- (take_drop BENCHED_FANOUT (sort_by _ l)) in Hq. by apply elem_of_app in Hq as [Hq|Hq]. }
  pose proof (sort_by_key_take (λ a : Peer, a.(retry_after)) _ _ _ _ Hp Hd) as H. exact H.
Qed.

Lemma NoDup_map_sublist {A B} (f : A → B) l k : sublist l k → NoDup (map f k) → NoDup (map f l).
Proof.
  intros Hs Hnd. eapply sublist_NoDup; [exact Hnd|]. clear Hnd. induction Hs; cbn; [apply sublist_nil|by apply sublist_skip|by apply sublist_cons].
Qed.

Lemma nodup_soonest_due l : NoDup (map addr l) → NoDup (map addr (soonest_due l)).
Proof.
  intros H. eapply NoDup_map_sublist; [apply sublist_take|].
  assert (map addr (sort_by (λ a b : Peer, Z.compare a.(retry_after) b.(retry_after)) l) ≡ₚ map addr l) as -> by (apply Permutation_map, sort_by_perm). done.
Qed.

Lemma candidates_spec nets now l :
  (∀ p, p ∈ candidates nets now l → p ∈ l) ∧ (NoDup (map addr l) → NoDup (map addr (candidates nets now l))) ∧
  (candidates nets now l = [] → l = []) ∧
  ((∃ p, p ∈ l ∧ due nets now p = true) → candidates nets now l = List.filter (due nets now) l) ∧
  ((∀ p, p ∈ l → due nets now p = false) →
    candidates nets now l = soonest_due (if existsb (dialable nets) l then List.filter (dialable nets) l else l)).
Proof.
  unfold candidates. change (λ p : Peer, can_dial nets p.(addr)) with (dialable nets).
  assert (List.filter (dialable nets) l = [] ↔ existsb (dialable nets) l = false) as Hd.
  { clear. induction l as [|p l IH]; [done|]. cbn. by destruct (dialable nets p). }
  destruct (List.filter (due nets now) l) as [|p0 due'] eqn:Ed.
  - assert (¬ ∃ p, p ∈ l ∧ due nets now p = true) as Hno.
    { intros (p & Hp & Hdue). assert (p ∈ List.filter (due nets now) l) as H by (by apply elem_of_bfilter). rewrite Ed in H. by apply elem_of_nil in H. }
    destruct (soonest_due (List.filter (dialable nets) l)) as [|q rest] eqn:Es.
    + apply soonest_due_nil in Es as Ef. apply Hd in Ef. rewrite Ef. split_and!; [intros p; apply elem_of_soonest_due|apply nodup_soonest_due|apply soonest_due_nil| |done].
      intros H. by destruct Hno.
    + assert (existsb (dialable nets) l = true) as Ef by (destruct (existsb (dialable nets) l); [done|]; by rewrite (proj2 Hd) in Es).
      rewrite Ef, <- Es. split_and!; [|intros Hl; by apply nodup_soonest_due, NoDup_map_bfilter|by rewrite Es|intros H; by destruct Hno|done].
      intros p Hp%elem_of_soonest_due. by apply elem_of_bfilter in Hp as [? _].
  - rewrite <- Ed. split_and!.
    + intros p Hp. by apply elem_of_bfilter in Hp as [? _].
    + apply NoDup_map_bfilter.
    + by rewrite Ed.
    + done.
    + intros Hno. assert (p0 ∈ List.filter (due nets now) l) as H by (rewrite Ed; left). apply elem_of_bfilter in H as [Hin Hdue]. by rewrite Hno in Hdue.
Qed.

(** ** The sample *)

(** How many candidates follow the ranking and how many are explored. *)
Definition keep_of (limit : Z) : Z := Z.max (limit / 2) 1.

(** Distinct positions of a rotation. *)
Lemma rotate_inj n s i j : 0 < n → 0 <= i < n → 0 <= j < n → (s + i) mod n = (s + j) mod n → i = j.
Proof.
  intros Hn Hi Hj Heq. assert ((i - j) mod n = 0) as Hm.
  { replace (i - j) with ((s + i) - (s + j)) by lia. rewrite Zminus_mod, Heq, Z.sub_diag. by apply Zmod_0_l. }
  apply Z.mod_divide in Hm as [k Hk]; [|lia]. assert (k = 0) by nia. lia.
Qed.

Lemma explored_spec (rest : list Peer) (offset : Z) (w : nat) : (w <= length rest)%nat → (0 < w)%nat → 0 <= offset →
  ∃ xs, mapM (λ i, index rest ((offset + Z.of_nat i) mod blen rest)) (seq 0 w) = Some xs ∧ length xs = w ∧
    (∀ p, p ∈ xs → p ∈ rest) ∧ (NoDup (map addr rest) → NoDup (map addr xs)) ∧
    (∀ i p, (i < w)%nat → index rest ((offset + Z.of_nat i) mod blen rest) = Some p → p ∈ xs).
Proof.
  intros Hw Hw0 Ho. assert (0 < blen rest) as Hn by (unfold blen; lia).
  assert (∀ i, 0 <= (offset + Z.of_nat i) mod blen rest < blen rest) as Hb by (intros i; by apply Z.mod_pos_bound).
  assert (is_Some (mapM (λ i, index rest ((offset + Z.of_nat i) mod blen rest)) (seq 0 w))) as [xs Hxs].
  { apply mapM_is_Some, Forall_true. intros i. unfold compose. cbv beta. rewrite index_lookup by apply Hb. apply lookup_lt_is_Some. pose proof (Hb i). unfold blen in *. lia. }
  exists xs. split; [done|]. apply mapM_Some in Hxs. pose proof (Forall2_length _ _ _ Hxs) as Hlen. rewrite length_seq in Hlen.
  assert (∀ k p, xs !! k = Some p → (k < w)%nat ∧ rest !! Z.to_nat ((offset + Z.of_nat k) mod blen rest) = Some p) as Hk.
  { intros k p Hp. destruct (Forall2_lookup_r _ _ _ _ _ Hxs Hp) as (i & Hi & Hidx). apply lookup_seq in Hi as [-> Hi]. split; [done|].
    by rewrite index_lookup in Hidx by apply Hb. }
  split_and!; [done| | |].
  - intros p [k Hp]%list_elem_of_lookup. apply Hk in Hp as [_ Hp]. by apply list_elem_of_lookup_2 in Hp.
  - intros Hnd. apply NoDup_alt. intros i j a Hi Hj. apply list_lookup_fmap_Some in Hi as (p & -> & Hi), Hj as (q & Heq & Hj).
    apply Hk in Hi as [Hiw Hi], Hj as [Hjw Hj]. pose proof (Hb i). pose proof (Hb j).
    assert (Z.to_nat ((offset + Z.of_nat i) mod blen rest) = Z.to_nat ((offset + Z.of_nat j) mod blen rest)) as E.
    { eapply NoDup_lookup; [exact Hnd| |]; apply list_lookup_fmap_Some; [exists p|exists q]; done. }
    assert (Z.of_nat i = Z.of_nat j) as Hij by (apply (rotate_inj (blen rest) offset); unfold blen in *; lia). lia.
  - intros i p Hi Hp. destruct (lookup_lt_is_Some_2 xs i ltac:(lia)) as [q Hq]. pose proof (Hk _ _ Hq) as [_ Hq'].
    rewrite index_lookup in Hp by apply Hb. rewrite Hp in Hq'. injection Hq' as ->. by apply list_elem_of_lookup_2 in Hq.
Qed.

Lemma explore_window_eq limit rest : 2 <= limit <= u64_max → limit - keep_of limit < blen rest →
  explore_window limit (keep_of limit) rest = limit - keep_of limit ∧ 1 <= limit - keep_of limit.
Proof.
  unfold explore_window, keep_of, wrap_usize, u64_max. intros Hl Hr.
  assert (1 <= limit / 2 < limit) as Hh by (split; Z.div_mod_to_equations; lia). rewrite (Z.max_l (limit / 2)) by lia.
  rewrite Z.mod_small by lia. rewrite (Z.max_l (limit / 2)) in Hr by lia. lia.
Qed.

(** The sample when the candidates outnumber the limit. *)
Lemma sample_rotates limit now R : 2 <= limit <= u64_max → limit < blen R →
  let keep := keep_of limit in
  let rest := drop (Z.to_nat keep) R in
  let w := Z.to_nat (limit - keep) in
  let offset := wrap_usize (Z.max now 0 / 60 * (limit - keep)) mod blen rest in
  (0 < w < length rest)%nat ∧ 0 <= offset ∧ blen rest = blen R - keep ∧
  sample limit now R = xs ← mapM (λ i, index rest ((offset + Z.of_nat i) mod blen rest)) (seq 0 w); Some (map addr (take (Z.to_nat keep) R) ++ map addr xs).
Proof.
  intros Hl HR. cbv zeta. assert (1 <= keep_of limit <= limit / 2) as Hk.
  { unfold keep_of. assert (1 <= limit / 2) by (Z.div_mod_to_equations; lia). lia. }
  assert (limit / 2 < limit) as Hh by (Z.div_mod_to_equations; lia).
  assert (blen (drop (Z.to_nat (keep_of limit)) R) = blen R - keep_of limit) as Hlen by (unfold blen in *; rewrite length_drop; lia).
  destruct (explore_window_eq limit (drop (Z.to_nat (keep_of limit)) R) Hl) as [Hw Hw1]; [lia|].
  split_and!; [lia|unfold blen in *; lia|apply Z.mod_pos_bound; lia|done|].
  unfold sample. replace (blen R <=? limit) with false by lia. cbv zeta. fold (keep_of limit). rewrite Hw.
  by replace (blen (drop (Z.to_nat (keep_of limit)) R) =? 0) with false by lia.
Qed.

Lemma sample_spec limit now R : 2 <= limit <= u64_max → NoDup (map addr R) →
  ∃ out, sample limit now R = Some out ∧ NoDup out ∧ (∀ a, a ∈ out → ∃ p, p ∈ R ∧ p.(addr) = a) ∧
    blen out = Z.min limit (blen R) ∧ take (Z.to_nat (limit / 2)) out = map addr (take (Z.to_nat (limit / 2)) R).
Proof.
  intros Hl Hnd. destruct (Z.leb_spec (blen R) limit) as [HR|HR].
  - exists (map addr R). unfold sample. replace (blen R <=? limit) with true by lia. split_and!; [done|done| | |].
    + intros a (p & -> & Hp)%list_elem_of_fmap. by exists p.
    + unfold blen in *. rewrite length_map. lia.
    + apply firstn_map.
  - destruct (sample_rotates limit now R Hl HR) as ([Hw0 Hw] & Ho & Hlen & ->).
    destruct (explored_spec _ _ _ (Nat.lt_le_incl _ _ Hw) Hw0 Ho) as (xs & -> & Hxl & Hxin & Hxnd & _). cbn [mbind option_bind].
    assert (keep_of limit = limit / 2 ∧ 0 <= limit / 2 <= limit) as [Hk Hh] by (unfold keep_of; Z.div_mod_to_equations; lia).
    rewrite Hk in *. exists (map addr (take (Z.to_nat (limit / 2)) R) ++ map addr xs).
    assert (length (map addr (take (Z.to_nat (limit / 2)) R)) = Z.to_nat (limit / 2)) as Htl by (rewrite length_map, length_take; unfold blen in *; lia).
    rewrite <- (take_drop (Z.to_nat (limit / 2)) R), map_app in Hnd. apply NoDup_app in Hnd as (Hnd1 & Hdis & Hnd2).
    split_and!; [done| | | |].
    + apply NoDup_app. split_and!; [done| |by apply Hxnd]. intros a Ha Hx. apply (Hdis a Ha).
      apply list_elem_of_fmap in Hx as (p & -> & Hp). apply list_elem_of_fmap. exists p. split; [done|]. by apply Hxin.
    + intros a [(p & -> & Hp)%list_elem_of_fmap|(p & -> & Hp)%list_elem_of_fmap]%elem_of_app; exists p; (split; [|done]).
      * apply elem_of_take in Hp as (i & Hi & _). by apply list_elem_of_lookup_2 in Hi.
      * rewrite <- (take_drop (Z.to_nat (limit / 2)) R). apply elem_of_app. right. by apply Hxin.
    + rewrite blen_app. unfold blen in *. rewrite Htl, length_map, Hxl. lia.
    + rewrite <- Htl at 1. by rewrite take_app_length.
Qed.

(** How many consecutive minutes reach every candidate. *)
Definition passes (limit : Z) (n : Z) : Z :=
  if n <=? limit then 1 else div_ceil (n - keep_of limit) (limit - keep_of limit).

Lemma sample_covers limit now R p : 2 <= limit <= u64_max → 0 <= now →
  (now / 60 + passes limit (blen R)) * limit <= u64_max → NoDup (map addr R) → p ∈ R →
  ∃ k out, 0 <= k < passes limit (blen R) ∧ sample limit (now + 60 * k) R = Some out ∧ p.(addr) ∈ out.
Proof.
  intros Hl Hnow Hov Hnd Hp. unfold passes in *. destruct (Z.leb_spec (blen R) limit) as [HR|HR].
  { exists 0, (map addr R). split; [lia|]. split; [|by apply list_elem_of_fmap_2]. unfold sample. by replace (blen R <=? limit) with true by lia. }
  set (w := limit - keep_of limit) in *. set (n := blen R - keep_of limit) in *.
  assert (1 <= keep_of limit <= limit / 2 ∧ limit / 2 < limit) as [Hk Hh] by (unfold keep_of; Z.div_mod_to_equations; lia).
  assert (1 <= w < n ∧ w < limit) as [Hwn Hwl] by lia. assert (1 <= div_ceil n w) as HK by (unfold div_ceil; Z.div_mod_to_equations; nia).
  rewrite <- (take_drop (Z.to_nat (keep_of limit)) R) in Hp. apply elem_of_app in Hp as [Hp|Hp].
  { destruct (sample_rotates limit (now + 60 * 0) R Hl HR) as ([Hw0 Hw] & Ho & _ & Hs).
    destruct (explored_spec _ _ _ (Nat.lt_le_incl _ _ Hw) Hw0 Ho) as (xs & Hx & _). rewrite Hx in Hs.
    exists 0, (map addr (take (Z.to_nat (keep_of limit)) R) ++ map addr xs). split; [lia|]. split; [done|]. apply elem_of_app. left. by apply list_elem_of_fmap_2. }
  apply list_elem_of_lookup in Hp as [j Hj]. set (s := now / 60 * w).
  set (d := (Z.of_nat j - s) mod n). assert (0 <= d < n) as Hd by (apply Z.mod_pos_bound; lia).
  assert (0 <= d / w < div_ceil n w) as Hkb by (unfold div_ceil; Z.div_mod_to_equations; nia).
  destruct (sample_rotates limit (now + 60 * (d / w)) R Hl HR) as ([Hw0 Hw] & Ho & Hlen & Hs).
  destruct (explored_spec _ _ _ (Nat.lt_le_incl _ _ Hw) Hw0 Ho) as (xs & Hx & _ & _ & _ & Hin). rewrite Hx in Hs. fold w in Hs, Hin.
  exists (d / w), (map addr (take (Z.to_nat (keep_of limit)) R) ++ map addr xs). split; [done|]. split; [done|].
  apply elem_of_app. right. apply list_elem_of_fmap_2, (Hin (Z.to_nat (d mod w))).
  { pose proof (Z.mod_pos_bound d w ltac:(lia)). lia. }
  assert ((wrap_usize (Z.max (now + 60 * (d / w)) 0 / 60 * w) mod blen (drop (Z.to_nat (keep_of limit)) R) + Z.of_nat (Z.to_nat (d mod w))) mod blen (drop (Z.to_nat (keep_of limit)) R) = Z.of_nat j) as ->.
  { rewrite Hlen. fold n. rewrite Z2Nat.id by (apply Z.mod_pos_bound; lia). rewrite Zplus_mod_idemp_l.
    rewrite Z.max_l by lia. replace (now + 60 * (d / w)) with (now + d / w * 60) by lia. rewrite Z.div_add by lia.
    unfold wrap_usize. rewrite (Z.mod_small _ (2 ^ 64)).
    2:{ assert (0 <= now / 60) as H60 by (apply Z.div_pos; lia). unfold u64_max in Hov. clear -H60 Hov Hkb Hwn Hwl. clearbody d w n.
        assert ((now / 60 + d / w) * w <= (now / 60 + div_ceil n w) * limit) by (apply Z.mul_le_mono_nonneg; lia). nia. }
    replace ((now / 60 + d / w) * w + d mod w) with (s + d) by (unfold s; pose proof (Z.div_mod d w ltac:(lia)); lia).
    unfold d. rewrite Zplus_mod_idemp_r. replace (s + (Z.of_nat j - s)) with (Z.of_nat j) by lia. apply Z.mod_small.
    apply lookup_lt_Some in Hj. unfold n. unfold blen in *. lia. }
  rewrite index_lookup by lia. by rewrite Nat2Z.id.
Qed.

(** ** Properties of selection *)

Section select.
Context (hex_encode : bytes → bytes) (values : Peers → list Peer).
Hypothesis values_spec : ∀ m : Peers, values m ≡ₚ (map_to_list m).*2.

Lemma elem_of_ranking po nets now pd m p : p ∈ ranked values po nets now pd m ↔ p ∈ candidates nets now (connectables values m).
Proof. apply elem_of_sort_by. Qed.

Lemma elem_of_connectables m p : p ∈ connectables values m ↔ (∃ k, m !! k = Some p) ∧ is_connectable p = true.
Proof using values_spec. unfold connectables. by rewrite elem_of_bfilter, elem_of_values. Qed.

Lemma nodup_ranked po nets now pd m : registry_wf hex_encode m → NoDup (map addr (ranked values po nets now pd m)).
Proof using values_spec.
  intros Hwf. assert (map addr (ranked values po nets now pd m) ≡ₚ map addr (candidates nets now (connectables values m))) as -> by (apply Permutation_map, sort_by_perm).
  apply candidates_spec. by eapply NoDup_map_bfilter, values_addrs_nodup.
Qed.

(** Nobody in the first part of the ranking is outranked by somebody after it. *)
Lemma ranked_order po nets now pd m n p q : p ∈ take n (ranked values po nets now pd m) → q ∈ drop n (ranked values po nets now pd m) →
  ole (rank_key po pd now p) (rank_key po pd now q).
Proof.
  unfold ranked. rewrite (sort_by_ext _ (λ a b, cmp (rank_key po pd now a) (rank_key po pd now b))) by (intros; apply rank_cmp_by_key).
  apply sort_by_key_take.
Qed.
End select.

Lemma get_of_value hex_encode m k p : registry_wf hex_encode m → m !! k = Some p → get hex_encode p.(addr) m = Some p.
Proof. intros Hwf Hk. rewrite (Hwf _ _ Hk) in Hk. exact Hk. Qed.

Lemma existsb_due (f : Peer → bool) l : (∃ q, q ∈ l ∧ f q = true) ↔ existsb f l = true.
Proof. rewrite existsb_exists. split; intros (q & Hq & Hf); exists q; (split; [by apply list_elem_of_In|done]). Qed.

Lemma candidates_members nets now l p : p ∈ candidates nets now l →
  ((∃ q, q ∈ l ∧ due nets now q = true) → due nets now p = true) ∧
  ((∃ q, q ∈ l ∧ dialable nets q = true) → dialable nets p = true).
Proof.
  destruct (candidates_spec nets now l) as (_ & _ & _ & Hdue & Hnone). intros Hp.
  destruct (existsb (due nets now) l) eqn:Ed.
  - apply existsb_due in Ed. rewrite Hdue in Hp by done. apply elem_of_bfilter in Hp as [_ Hp]. split; [done|]. intros _.
    unfold due in Hp. by apply andb_true_iff in Hp as [? _].
  - rewrite Hnone in Hp.
    + split; [intros H%existsb_due; congruence|]. intros Hq%existsb_due. rewrite Hq in Hp. apply elem_of_soonest_due, elem_of_bfilter in Hp as [_ ?]. done.
    + intros q Hq. destruct (due nets now q) eqn:E; [|done]. assert (existsb (due nets now) l = true) as H by (apply existsb_due; by exists q). congruence.
Qed.


(** Nobody starves: whatever the sample's limit (two or more), while the ranking
    of the candidates stands every one of them, last-ranked included, is handed
    out within as many consecutive minutes as the tail has windows, [passes]. *)
Theorem selection_covers (hex_encode : bytes → bytes) (values : Peers → list Peer) po limit nets now pd m p :
  (∀ m, values m ≡ₚ (map_to_list m).*2) → registry_wf hex_encode m → 2 <= limit <= u64_max → 0 <= now →
  let n := blen (ranked values po nets now pd m) in
  (now / 60 + passes limit n) * limit <= u64_max →
  (∀ k, 0 <= k < passes limit n → ranked values po nets (now + 60 * k) pd m = ranked values po nets now pd m) →
  p ∈ connectables values m → due nets now p = true →
  ∃ k out, 0 <= k < passes limit n ∧ select_dialable values po limit nets (now + 60 * k) pd m = Some out ∧ p.(addr) ∈ out.
Proof.
  intros Hvalues Hwf Hl Hnow n Hov Hsame Hp Hdue.
  assert (p ∈ ranked values po nets now pd m) as Hr.
  { apply elem_of_ranking. destruct (candidates_spec nets now (connectables values m)) as (_ & _ & _ & Hd & _).
    rewrite Hd by (by exists p). by apply elem_of_bfilter. }
  destruct (sample_covers limit now _ p Hl Hnow Hov (nodup_ranked hex_encode values Hvalues po nets now pd m Hwf) Hr) as (k & out & Hk & Hs & Hin).
  exists k, out. split; [done|]. split; [|done]. unfold select_dialable. by rewrite Hsame.
Qed.

(** ** A peer's history *)

(** What the paths report about a peer. *)
Inductive note :=
  | ConnectOk | ConnectFail | ProbeOk | ProbeFail | FileOk | FileFail | DataServed | LinkUp | LinkDown.

Section history.
Context (hash : bytes → Z → Z) (hex_encode : bytes → bytes).

Definition apply_note (now : Z) (n : note) (p : Peer) : Peer :=
  match n with
  | ConnectOk => note_connect_ok now p
  | ConnectFail => note_connect_fail hash hex_encode now p
  | ProbeOk => note_probe_ok hash hex_encode now p
  | ProbeFail => note_probe_fail hash hex_encode now p
  | FileOk => note_file_ok now p
  | FileFail => note_file_fail p
  | DataServed => note_data_served now p
  | LinkUp => mark_connected now p
  | LinkDown => mark_disconnected p
  end.

(** A history, newest report first. *)
Definition replay (p : Peer) (h : list (Z * note)) : Peer := foldr (λ e p, apply_note e.1 e.2 p) p h.

(** Dials failed in a row since the last one that worked. *)
Fixpoint dial_streak (h : list (Z * note)) : Z :=
  match h with
  | [] => 0
  | (_, (ConnectOk | LinkUp)) :: _ => 0
  | (_, ConnectFail) :: h => 1 + dial_streak h
  | _ :: h => dial_streak h
  end.

(** When the peer last answered. *)
Fixpoint last_response (h : list (Z * note)) : option Z :=
  match h with
  | [] => None
  | (t, (ConnectOk | FileOk | LinkUp)) :: _ => Some t
  | _ :: h => last_response h
  end.

Lemma dial_streak_bound h : 0 <= dial_streak h <= blen h.
Proof. induction h as [|[t n] h IH]; [done|]. rewrite blen_cons. pose proof (blen_nonneg h). destruct n; cbn [dial_streak]; lia. Qed.

Lemma dial_backoff_bound n : 0 <= n → 15 <= dial_backoff n <= 3600 ∧ (8 <= n → dial_backoff n = 3600) ∧ (n <= 7 → dial_backoff n = 15 * 2 ^ n).
Proof.
  intros Hn. unfold dial_backoff. rewrite Z.shiftl_mul_pow2 by lia. destruct (Z.le_gt_cases 8 n) as [H8|H8].
  - rewrite (Z.min_r n 8) by lia. change (Z.min (15 * 2 ^ 8) 3600) with 3600. lia.
  - rewrite (Z.min_l n 8) by lia. assert (2 ^ n <= 2 ^ 7) as H7 by (apply Z.pow_le_mono_r; lia). change (2 ^ 7) with 128 in H7.
    pose proof (Z.pow_pos_nonneg 2 n ltac:(lia) Hn). lia.
Qed.

(** The ceiling of the probe cooldown: ten minutes, two hours for an onion, and
    a quarter more of jitter. *)
Definition cooldown_cap (a : PeerAddr) : Z := match a with Onion _ _ => 9000 | _ => 750 end.

Lemma probe_base_bound a failures : 30 <= probe_base a failures <= match a with Onion _ _ => 7200 | _ => 600 end.
Proof.
  unfold probe_base. destruct (match a with Onion _ _ => (7200, 8) | _ => (600, 5) end) as [cap sh] eqn:E.
  assert (0 <= sat_sub failures 1) by (unfold sat_sub; lia). set (s := Z.min (sat_sub failures 1) sh).
  assert (0 <= s) as Hs by (destruct a; injection E as <- <-; unfold s; lia). rewrite Z.shiftl_mul_pow2 by done.
  pose proof (Z.pow_pos_nonneg 2 s ltac:(lia) Hs). destruct a; injection E as <- <-; lia.
Qed.

Lemma probe_cooldown_bound a failures : probe_base a failures <= probe_cooldown_secs hash hex_encode a failures <= cooldown_cap a.
Proof.
  unfold probe_cooldown_secs, cooldown_cap. pose proof (probe_base_bound a failures) as Hb. cbv zeta.
  assert (0 < probe_base a failures / 4 + 1) as Hq by (Z.div_mod_to_equations; lia).
  pose proof (Z.mod_pos_bound (hash (to_string hex_encode a) failures) _ Hq) as Hm.
  assert (probe_base a failures / 4 <= match a with Onion _ _ => 1800 | _ => 150 end) as Hd by (destruct a; Z.div_mod_to_equations; lia).
  destruct a; lia.
Qed.

Lemma replay_addr p h : (replay p h).(addr) = p.(addr).
Proof. induction h as [|[t []] h IH]; [done|..]; exact IH. Qed.

Lemma replay_errors a t0 h : blen h <= u32_max → (replay (peer_new a t0) h).(connection_errors) = dial_streak h.
Proof.
  induction h as [|[t n] h IH]; [done|]. rewrite blen_cons. pose proof (blen_nonneg h). intros Hl. specialize (IH ltac:(lia)).
  change (replay (peer_new a t0) ((t, n) :: h)) with (apply_note t n (replay (peer_new a t0) h)).
  destruct n; cbn [apply_note dial_streak]; try exact IH; try done. cbn. rewrite IH. pose proof (dial_streak_bound h).
  unfold wrap32, u32_max in *. rewrite Z.mod_small by lia. lia.
Qed.

Lemma replay_response a t0 h : (replay (peer_new a t0) h).(time_response) = default 0 (last_response h).
Proof. induction h as [|[t []] h IH]; [done|..]; (exact IH || done). Qed.

(** The stamps never reach past a bound after the last report. *)
Lemma replay_stamps p now h : p.(retry_after) <= now + 3600 → p.(probe_after) <= now + cooldown_cap p.(addr) →
  0 <= p.(connection_errors) → 0 <= p.(probe_failures) → Forall (λ e, 0 < e.1 <= now) h →
  (replay p h).(retry_after) <= now + 3600 ∧ (replay p h).(probe_after) <= now + cooldown_cap p.(addr) ∧
  0 <= (replay p h).(connection_errors) ∧ 0 <= (replay p h).(probe_failures).
Proof.
  intros Hr Hp He Hf. induction 1 as [|[t n] h Ht _ IH]; [done|]. destruct IH as (IH1 & IH2 & IH3 & IH4). cbn [fst] in Ht.
  change (replay p ((t, n) :: h)) with (apply_note t n (replay p h)). pose proof (replay_addr p h) as Ha.
  set (q := replay p h) in *. clearbody q.
  assert (∀ k, t + probe_cooldown_secs hash hex_encode q.(addr) k <= now + cooldown_cap p.(addr)) as Hc.
  { intros k. rewrite Ha. pose proof (probe_cooldown_bound p.(addr) k). lia. }
  assert (∀ k, 0 <= k → t + dial_backoff k <= now + 3600) as Hb by (intros k Hk; pose proof (dial_backoff_bound k Hk); lia).
  assert (0 <= wrap32 (connection_errors q + 1)) as Hw by (apply Z.mod_pos_bound; lia).
  assert (∀ x y, 0 <= x → 0 <= y → 0 <= sat_add32 x y) as Hs by (intros; unfold sat_add32, u32_max; lia).
  assert (0 < cooldown_cap p.(addr)) by (unfold cooldown_cap; by destruct p.(addr)).
  destruct n; cbn [apply_note]; (split_and!; cbn [retry_after probe_after connection_errors probe_failures note_connect_ok note_connect_fail note_probe_ok note_probe_fail note_file_ok note_file_fail note_data_served mark_connected mark_disconnected];
    first [done | lia | apply Hc | apply Hb; auto with lia | auto with lia]).
Qed.
End history.

(** What a peer's history earns it. Over any history of reports up to [now], a
    peer's error count is exactly the dials that failed in a row since the last
    one that worked, and its answer stamp the time of its last answer. A failed
    dial benches it for 15 seconds doubled per failure in a row and never more
    than an hour; whatever mix of dials and probes failed, it is back in
    selection within an hour of the last report and due for a probe within the
    cooldown's ceiling. And the registry only evicts a peer it holds no
    connection to, whose last six dials or more all failed, and which has not
    answered for four hours. *)
Theorem history_earned (hash : bytes → Z → Z) (hex_encode : bytes → bytes) a t0 h now :
  Forall (λ e, 0 < e.1 <= now) h → blen h <= u32_max → 0 <= now →
  let p := replay hash hex_encode (peer_new a t0) h in
  p.(connection_errors) = dial_streak h ∧ p.(time_response) = default 0 (last_response h) ∧
  p.(retry_after) <= now + 3600 ∧ p.(probe_after) <= now + cooldown_cap a ∧
  (∀ t h', h = (t, ConnectFail) :: h' →
    p.(retry_after) = t + Z.min (15 * 2 ^ Z.min (dial_streak h) 8) 3600 ∧ t + 30 <= p.(probe_after)) ∧
  (evict_keeps now p = false → p.(connected) = false ∧ 6 <= dial_streak h ∧ ∀ t, last_response h = Some t → 4 * 3600 <= now - t).
Proof.
  intros Hh Hlen Hnow. cbv zeta. pose proof (replay_errors hash hex_encode a t0 h Hlen) as He. pose proof (replay_response hash hex_encode a t0 h) as Hr.
  assert (0 < cooldown_cap a) as Hcap by (unfold cooldown_cap; by destruct a).
  destruct (replay_stamps hash hex_encode (peer_new a t0) now h) as (H1 & H2 & _); [cbn; lia..|done|].
  split_and!; [done|done|done|done| |].
  - intros t h' ->. pose proof (dial_streak_bound ((t, ConnectFail) :: h')) as Hb.
    change (replay hash hex_encode (peer_new a t0) ((t, ConnectFail) :: h')) with (note_connect_fail hash hex_encode t (replay hash hex_encode (peer_new a t0) h')) in *.
    cbn [note_connect_fail connection_errors retry_after probe_after] in *. rewrite He. unfold dial_backoff.
    rewrite Z.shiftl_mul_pow2 by lia. split; [done|]. rewrite replay_addr.
    match goal with |- context [probe_cooldown_secs _ _ ?x ?y] => pose proof (probe_cooldown_bound hash hex_encode x y); pose proof (probe_base_bound x y) end. lia.
  - unfold evict_keeps, MAX_ERRORS, RESPONSE_GRACE_SECS. rewrite He, Hr. destruct (connected _); [done|]. cbn [orb].
    destruct (Z.ltb_spec (dial_streak h) 6) as [|H6]; [done|]. intros Hk. split_and!; [done|done|]. intros t Ht. rewrite Ht in Hk. cbn [default from_option] in Hk. unfold Datatypes.id in Hk.
    assert (t ≠ 0) as Ht0.
    { clear -Ht Hh. induction Hh as [|[u n] h Hu Hh IH]; [done|]. cbn in Hu, Ht. destruct n; try (by apply IH); injection Ht as <-; lia. }
    replace (t =? 0) with false in Hk by lia. cbn [negb andb] in Hk. lia.
Qed.

(** ** A concrete registry *)

Definition toy_values (m : Peers) : list Peer := (map_to_list m).*2.
Definition toy_peer (n : Z) : Peer := peer_new (Ip (V4 [x0a; x00; x00; byte_of n] 15441)) 0.
Definition toy_registry : Peers := foldr (λ n m, (restore (λ h, h) (toy_peer n) m).2) ∅ [1; 2; 3; 4; 5].

Lemma restore_wf hex_encode p m : registry_wf hex_encode m → registry_wf hex_encode (restore hex_encode p m).2.
Proof.
  intros Hm. unfold restore. case_decide; [done|]. intros k q. cbn [snd]. intros [[<- <-]|[_ Hk]]%lookup_insert_Some; [done|]. by apply Hm.
Qed.

Lemma toy_registry_wf : registry_wf (λ h, h) toy_registry.
Proof. unfold toy_registry. cbn [foldr]. do 5 apply restore_wf. intros k p Hk. by rewrite lookup_empty in Hk. Qed.

Lemma toy_connectable : toy_peer 5 ∈ connectables toy_values toy_registry ∧ due all_nets 600 (toy_peer 5) = true.
Proof. split; [|done]. apply list_elem_of_In. vm_compute. tauto. Qed.


Lemma toy_passes : passes 2 (blen (ranked toy_values false all_nets 600 false toy_registry)) = 4.
Proof. vm_compute. reflexivity. Qed.

Lemma toy_ranking_stands k : 0 <= k < 4 →
  ranked toy_values false all_nets (600 + 60 * k) false toy_registry = ranked toy_values false all_nets 600 false toy_registry.
Proof.
  intros Hk. assert (k ∈ [0; 1; 2; 3]) as Hin by (rewrite !elem_of_cons, elem_of_nil; lia).
  clear Hk. rewrite !elem_of_cons, elem_of_nil in Hin. destruct Hin as [->|[->|[->|[->|[]]]]]; vm_compute; reflexivity.
Qed.

Lemma selection_covers_witness :
  ∃ k out, 0 <= k < 4 ∧ select_dialable toy_values false 2 all_nets (600 + 60 * k) false toy_registry = Some out ∧ addr (toy_peer 5) ∈ out.
Proof.
  pose proof (selection_covers (λ h, h) toy_values false 2 all_nets 600 false toy_registry (toy_peer 5)) as H.
  cbv zeta in H. rewrite toy_passes in H. apply H; [intros m; reflexivity|apply toy_registry_wf|vm_compute; split; congruence|lia|vm_compute; congruence|apply toy_ranking_stands|apply toy_connectable|apply toy_connectable].
Defined.

Definition toy_history : list (Z * note) :=
  [(20000, ConnectFail); (19000, ConnectFail); (18000, ProbeFail); (17000, ConnectFail); (16000, ConnectFail); (15000, ConnectFail); (14000, ConnectFail); (100, ConnectOk)].

Lemma history_earned_witness :
  (replay (λ _ n, n) (λ h, h) (peer_new (Onion (bstr "abc") 80) 50) toy_history).(connection_errors) = 6 ∧
  evict_keeps 20000 (replay (λ _ n, n) (λ h, h) (peer_new (Onion (bstr "abc") 80) 50) toy_history) = false.
Proof.
  split; [|vm_compute; reflexivity].
  refine (proj1 (history_earned (λ _ n, n) (λ h, h) (Onion (bstr "abc") 80) 50 toy_history 20000 _ _ _)); [|vm_compute; congruence|lia].
  unfold toy_history. rewrite !Forall_cons. cbn [fst]. split_and!; (lia || constructor).
Defined.

(** ** Behaviour at the smallest limits *)

(** A limit of one yields two addresses when there are more candidates: one
    follows the ranking and one is explored. *)
Lemma limit_one_returns_two :
  ∃ out, select_dialable toy_values false 1 all_nets 600 false toy_registry = Some out ∧ blen out = 2.
Proof. eexists. split; vm_compute; reflexivity. Qed.

(** A limit of zero wraps the number to explore: the whole registry comes back,
    and with a single candidate the remainder by zero panics. *)
Lemma limit_zero_returns_all :
  (∃ out, select_dialable toy_values false 0 all_nets 600 false toy_registry = Some out ∧ blen out = 5) ∧
  select_dialable toy_values false 0 all_nets 600 false {[ key (λ h, h) (toy_peer 1) := toy_peer 1 ]} = None.
Proof. split; [eexists; split; vm_compute; reflexivity|vm_compute; reflexivity]. Qed.
