(* ===== verification/Dht.v ===== *)
(** * The peer-discovery DHT ([crates/epix-dht/src], [crates/epix-dht-net/src/service.rs])

    Identifiers and the XOR metric, the k-bucket routing table, the expiring
    peer store, the node that serves requests and drives iterative lookups, and
    the network service in front of it. The network is an oracle that answers
    each request of each lookup round in an arbitrary way; the clock is read
    once per operation; SHA-256, the printed form of an address and the reply
    encoding are parameters. A HashMap is a [gmap]. *)
From S2P Require Import Prelude Ordered Peer.
From Stdlib Require Import ZArith Lia Strings.Byte Strings.String.
From stdpp Require Import base list sorting strings gmap.
#[local] Open Scope Z_scope.

(** ** [id.rs] *)

Definition ID_LEN : Z := 32.
Definition BITS : Z := ID_LEN * 8.

(** [[u8; 32]]: 32 bytes. *)
Abbreviation NodeId := bytes.
Definition id_wf (i : NodeId) : Prop := length i = 32%nat.

Definition byte_xor (a b : byte) : byte := byte_of (Z.lxor (byte_val a) (byte_val b)).

Definition distance (a b : NodeId) : bytes := zip_with byte_xor a b.

(** [u8::leading_zeros]. *)
Definition leading_zeros (b : byte) : Z := if byte_val b =? 0 then 8 else 7 - Z.log2 (byte_val b).

Fixpoint bucket_scan (i : Z) (d : bytes) : option Z :=
  match d with
  | [] => None
  | b :: d => if negb (byte_val b =? 0) then Some (BITS - 1 - (i * 8 + leading_zeros b)) else bucket_scan (i + 1) d
  end.

Definition bucket_index (self other : NodeId) : option Z := bucket_scan 0 (distance self other).

Record Contact := mkContact { id : NodeId; addr : PeerAddr }.

#[global] Instance Contact_eq_dec : EqDecision Contact.
Proof. solve_decision. Defined.

(** ** [routing.rs] *)

Definition K : Z := 8.

Record RoutingTable := mkRouting { local : NodeId; buckets : list (list Contact) }.

Definition routing_new (l : NodeId) : RoutingTable := mkRouting l (repeat [] (Z.to_nat BITS)).

Definition bucket_insert (c : Contact) (bucket : list Contact) : list Contact :=
  match list_find (λ d, id d = id c) bucket with
  | Some (pos, existing) => delete pos bucket ++ [existing]
  | None => if blen bucket <? K then bucket ++ [c] else bucket
  end.

Definition rt_insert (rt : RoutingTable) (c : Contact) : RoutingTable :=
  match bucket_index (local rt) (id c) with
  | Some idx => mkRouting (local rt) (alter (bucket_insert c) (Z.to_nat idx) (buckets rt))
  | None => rt
  end.

(** Nearer to [target] first. *)
Definition dist_cmp (target : NodeId) (a b : Contact) : comparison :=
  cmp (distance target (id a)) (distance target (id b)).

Definition rt_closest (rt : RoutingTable) (target : NodeId) (count : Z) : list Contact :=
  take (Z.to_nat count) (sort_by (dist_cmp target) (concat (buckets rt))).

Definition rt_len (rt : RoutingTable) : Z := foldr Z.add 0 (map blen (buckets rt)).

(** ** [store.rs] *)

Definition MAX_PEERS_PER_KEY : Z := 128.

Record PeerStore := mkStore { entries : gmap bytes (list (PeerAddr * Z)); ttl : Z }.

Definition store_new (t : Z) : PeerStore := mkStore ∅ t.

(** [t.elapsed() < ttl], the clock reading [now]. *)
Definition fresh (now ttl : Z) (e : PeerAddr * Z) : bool := sat_sub now e.2 <? ttl.

(** Index of the first entry with the least timestamp. *)
Definition oldest (l : list (PeerAddr * Z)) : option nat :=
  fst <$> min_by (λ a b : nat * (PeerAddr * Z), Z.compare a.2.2 b.2.2) (imap pair l).

Definition make_room (now ttl : Z) (l : list (PeerAddr * Z)) : list (PeerAddr * Z) :=
  if MAX_PEERS_PER_KEY <=? blen l then
    let l := List.filter (fresh now ttl) l in
    if MAX_PEERS_PER_KEY <=? blen l then
      match oldest l with Some i => delete i l | None => l end
    else l
  else l.

Definition add_to_list (now ttl : Z) (peer : PeerAddr) (l : list (PeerAddr * Z)) : list (PeerAddr * Z) :=
  match list_find (λ e, e.1 = peer) l with
  | Some (i, e) => <[i := (e.1, now)]> l
  | None => make_room now ttl l ++ [(peer, now)]
  end.

Definition store_add (now : Z) (s : PeerStore) (key : NodeId) (peer : PeerAddr) : PeerStore :=
  mkStore (<[key := add_to_list now (ttl s) peer (default [] (entries s !! key))]> (entries s)) (ttl s).

Definition store_get (now : Z) (s : PeerStore) (key : NodeId) : list PeerAddr :=
  default [] ((λ l, map fst (List.filter (fresh now (ttl s)) l)) <$> entries s !! key).

Definition expire (now : Z) (s : PeerStore) : PeerStore :=
  mkStore (filter (λ e, e.2 ≠ []) (List.filter (fresh now (ttl s)) <$> entries s)) (ttl s).

(** ** [rpc.rs] *)

Inductive Request :=
  | Ping
  | FindNode (target : NodeId)
  | GetPeers (key : NodeId)
  | Announce (key : NodeId) (peer : PeerAddr).

Inductive Response :=
  | Pong
  | Nodes (nodes : list Contact)
  | Peers (peers : list PeerAddr) (nodes : list Contact)
  | Ack.

(** ** [node.rs] *)

Definition ALPHA : Z := 3.

Record Node := mkNode { node_id : NodeId; routing : RoutingTable; store : PeerStore }.

Definition node_new (i : NodeId) : Node := mkNode i (routing_new i) (store_new (30 * 60)).

Definition add_contact (n : Node) (c : Contact) : Node :=
  mkNode (node_id n) (rt_insert (routing n) c) (store n).

Definition handle (now : Z) (n : Node) (from : Contact) (req : Request) : Response * Node :=
  let n := add_contact n from in
  match req with
  | Ping => (Pong, n)
  | FindNode target => (Nodes (rt_closest (routing n) target K), n)
  | GetPeers key => (Peers (store_get now (store n) key) (rt_closest (routing n) key K), n)
  | Announce key peer => (Ack, mkNode (node_id n) (routing n) (store_add now (store n) key peer))
  end.

Record Lookup := mkLookup {
  shortlist : list Contact; queried : gset bytes; peers : list PeerAddr; lk_routing : RoutingTable }.

Definition next_batch (s : Lookup) : list Contact :=
  take (Z.to_nat ALPHA) (List.filter (λ c, negb (bool_decide (id c ∈ queried s))) (shortlist s)).

Definition add_node (self : NodeId) (shortlist : list Contact) (n : Contact) : list Contact :=
  if negb (bool_decide (id n = self)) && negb (existsb (λ c, bool_decide (id c = id n)) shortlist)
  then shortlist ++ [n] else shortlist.

Definition response_nodes (r : result bytes Response) : list Contact :=
  match r with Ok (Nodes nodes) | Ok (Peers _ nodes) => nodes | _ => [] end.

Definition response_peers (r : result bytes Response) : list PeerAddr :=
  match r with Ok (Peers p _) => p | _ => [] end.

Definition absorb (self : NodeId) (s : Lookup) (reply : Contact * result bytes Response) : Lookup :=
  let '(c, res) := reply in
  mkLookup (foldl (add_node self) (shortlist s) (response_nodes res)) ({[id c]} ∪ queried s)
    (peers s ++ response_peers res) (rt_insert (lk_routing s) c).

Section lookup.
Context (self target : NodeId) (want_peers : bool).
(** The answer to a request in a round. *)
Context (rpc : nat → Contact → Request → result bytes Response).

Definition lookup_req : Request := if want_peers then GetPeers target else FindNode target.

Definition lookup_round (round : nat) (s : Lookup) (batch : list Contact) : Lookup :=
  let s := foldl (absorb self) s (map (λ c, (c, rpc round c lookup_req)) batch) in
  mkLookup (take (Z.to_nat K) (sort_by (dist_cmp target) (shortlist s))) (queried s) (peers s) (lk_routing s).

(** [None] only when the fuel runs out. *)
Fixpoint lookup_loop (fuel round : nat) (s : Lookup) : option Lookup :=
  match fuel with
  | O => None
  | S fuel =>
    match next_batch s with
    | [] => Some s
    | batch => lookup_loop fuel (S round) (lookup_round round s batch)
    end
  end.
End lookup.

Definition lookup_start (n : Node) (target : NodeId) : Lookup :=
  mkLookup (rt_closest (routing n) target K) ∅ [] (routing n).

Definition iterative (fuel : nat) (n : Node) (target : NodeId)
    (rpc : nat → Contact → Request → result bytes Response) (want_peers : bool)
    : option (list Contact * list PeerAddr * Node) :=
  s ← lookup_loop (node_id n) target want_peers rpc fuel 0 (lookup_start n target);
  Some (shortlist s, peers s, mkNode (node_id n) (lk_routing s) (store n)).

Definition find_node (fuel : nat) (n : Node) (target : NodeId)
    (rpc : nat → Contact → Request → result bytes Response) : option (list Contact * Node) :=
  r ← iterative fuel n target rpc false; Some (r.1.1, r.2).

Definition get_peers (to_string : PeerAddr → bytes) (fuel : nat) (n : Node) (key : NodeId)
    (rpc : nat → Contact → Request → result bytes Response) : option (list PeerAddr * Node) :=
  r ← iterative fuel n key rpc true;
  Some (dedup (sort_by (λ a b, cmp (to_string a) (to_string b)) r.1.2), r.2).

(** The requests sent, with the node each goes to. *)
Definition announce_all (fuel : nat) (now : Z) (n : Node) (key : NodeId) (self_peers : list PeerAddr)
    (rpc : nat → Contact → Request → result bytes Response) : option (list (Contact * Request) * Node) :=
  match self_peers with
  | [] => Some ([], n)
  | _ =>
    let n := mkNode (node_id n) (routing n) (foldl (λ s p, store_add now s key p) (store n) self_peers) in
    r ← find_node fuel n key rpc;
    Some (concat (map (λ c, map (λ p, (c, Announce key p)) self_peers) r.1), r.2)
  end.

Definition announce (fuel : nat) (now : Z) (n : Node) (key : NodeId) (self_peer : PeerAddr)
    (rpc : nat → Contact → Request → result bytes Response) : option (list (Contact * Request) * Node) :=
  announce_all fuel now n key [self_peer] rpc.

Definition bootstrap (fuel : nat) (n : Node) (seeds : list Contact)
    (rpc : nat → Contact → Request → result bytes Response) : option Node :=
  r ← find_node fuel (foldl add_contact n seeds) (node_id n) rpc; Some r.2.

(** ** [service.rs] *)

Definition MAX_HOST_LEN : Z := 64.
Definition MAX_REPLY_LEN : Z := 60 * 1024.

Definition usable_addr (a : PeerAddr) : bool :=
  if negb (is_wellformed a) then false else
  match a with Onion host _ => blen host <=? MAX_HOST_LEN | I2p dest _ => blen dest <=? MAX_HOST_LEN | _ => true end.

(** [SocketAddr::new(conn.ip(), port)]: flow label and scope are zero. *)
Definition rewrite_claimed_addr (claimed conn : PeerAddr) : PeerAddr :=
  match claimed, conn with
  | Ip claimed_sock, Ip conn_sock =>
    Ip (match conn_sock with
        | V4 o _ => V4 o (sock_port claimed_sock)
        | V6 o _ _ _ => V6 o (sock_port claimed_sock) 0 0
        end)
  | _, _ => claimed
  end.

(** [Vec::pop]: the list without its last element, or [None] when empty. *)
Definition pop {A} (l : list A) : option (list A) := match l with [] => None | _ => Some (removelast l) end.

Definition drop_farthest (resp : Response) : option Response :=
  match resp with
  | Nodes nodes => Nodes <$> pop nodes
  | Peers peers nodes =>
    match pop nodes with
    | Some nodes => Some (Peers peers nodes)
    | None => (λ peers, Peers peers nodes) <$> pop peers
    end
  | Pong | Ack => None
  end.

Definition entries_of (resp : Response) : nat :=
  match resp with Nodes n => length n | Peers p n => length p + length n | _ => 0 end.

Section service.
Context (encode_response : Response → NodeId → bytes).

Fixpoint bounded_loop (me : NodeId) (fuel : nat) (resp : Response) : bytes :=
  let bytes := encode_response resp me in
  if blen bytes <=? MAX_REPLY_LEN then bytes else
  match fuel, drop_farthest resp with
  | S fuel, Some resp => bounded_loop me fuel resp
  | _, _ => bytes
  end.

(** Every drop sheds an entry, so the number of entries bounds the loop. *)
Definition encode_bounded (me : NodeId) (resp : Response) : bytes := bounded_loop me (entries_of resp) resp.

Definition answer (now : Z) (n : Node) (peer : PeerAddr) (from : Contact) (req : Request) : Response * Node :=
  let from := mkContact (id from) (rewrite_claimed_addr (addr from) peer) in
  let req := match req with
             | Announce key claimed => Announce key (rewrite_claimed_addr claimed peer)
             | _ => req
             end in
  handle now n from req.

(** [decoded] is what [pc::decode_request] made of the payload. *)
Definition handle_edx (now : Z) (n : Node) (peer : PeerAddr) (decoded : option (Contact * Request)) : result bytes bytes * Node :=
  match decoded with
  | None => (Err (bstr "malformed kad request"), n)
  | Some (from, req) =>
    if negb (usable_addr (addr from)) then (Err (bstr "unusable contact address"), n)
    else if (match req with Announce _ claimed => negb (usable_addr claimed) | _ => false end)
    then (Err (bstr "unusable announced address"), n)
    else let '(resp, n) := answer now n peer from req in (Ok (encode_bounded (node_id n) resp), n)
  end.
End service.

(** ** The XOR metric *)

Lemma le_val_app a b : le_val (a ++ b) = le_val a + 256 ^ blen a * le_val b.
Proof.
  induction a as [|x a IH]; [unfold blen; cbn [app le_val length Z.of_nat]; lia|].
  cbn [app le_val]. rewrite IH, blen_cons, Z.pow_add_r by (lia || apply blen_nonneg). lia.
Qed.

Lemma be_val_cons b l : be_val (b :: l) = byte_val b * 256 ^ blen l + be_val l.
Proof.
  unfold be_val. cbn [rev]. rewrite le_val_app. cbn [le_val]. unfold blen. rewrite length_rev. lia.
Qed.

Lemma be_val_range l : 0 <= be_val l < 256 ^ blen l.
Proof. unfold be_val. pose proof (le_val_range (rev l)) as H. rewrite length_rev in H. exact H. Qed.

Lemma byte_xor_val a b : byte_val (byte_xor a b) = Z.lxor (byte_val a) (byte_val b).
Proof.
  unfold byte_xor. rewrite byte_val_of. apply Z.mod_small, lxor_byte; apply byte_val_range.
Qed.

Lemma byte_xor_comm a b : byte_xor a b = byte_xor b a.
Proof. unfold byte_xor. by rewrite Z.lxor_comm. Qed.

Lemma byte_xor_zero a b : byte_val (byte_xor a b) = 0 ↔ a = b.
Proof.
  rewrite byte_xor_val, Z.lxor_eq_0_iff. split; [apply byte_val_inj|by intros ->].
Qed.

Lemma byte_xor_cancel a b c : byte_xor a b = byte_xor a c → b = c.
Proof.
  intros E%(f_equal byte_val). rewrite !byte_xor_val in E. apply byte_val_inj.
  apply (f_equal (Z.lxor (byte_val a))) in E. rewrite <- !Z.lxor_assoc, Z.lxor_nilpotent, !Z.lxor_0_l in E. done.
Qed.

Lemma lxor_le_add x y : 0 <= x → 0 <= y → Z.lxor x y <= x + y.
Proof. intros Hx Hy. pose proof (Z.add_lxor_2land x y). assert (0 <= Z.land x y) by (apply Z.land_nonneg; lia). lia. Qed.

Lemma byte_xor_triangle a b c :
  byte_val (byte_xor a c) <= byte_val (byte_xor a b) + byte_val (byte_xor b c).
Proof.
  rewrite !byte_xor_val. pose proof (byte_val_range a). pose proof (byte_val_range b). pose proof (byte_val_range c).
  assert (Z.lxor (byte_val a) (byte_val c) = Z.lxor (Z.lxor (byte_val a) (byte_val b)) (Z.lxor (byte_val b) (byte_val c))) as ->.
  { rewrite Z.lxor_assoc, <- (Z.lxor_assoc (byte_val b)), Z.lxor_nilpotent, Z.lxor_0_l. done. }
  apply lxor_le_add; apply Z.lxor_nonneg; lia.
Qed.

Lemma distance_length a b n : length a = n → length b = n → length (distance a b) = n.
Proof. intros. unfold distance. rewrite length_zip_with. lia. Qed.

Lemma distance_comm a b : distance a b = distance b a.
Proof. revert b. induction a as [|x a IH]; intros [|y b]; cbn; [done..|]. by rewrite byte_xor_comm, IH. Qed.

Lemma distance_zero a b : length a = length b → be_val (distance a b) = 0 ↔ a = b.
Proof.
  revert b. induction a as [|x a IH]; intros [|y b] Hl; [done..|]. injection Hl as Hl.
  change (distance (x :: a) (y :: b)) with (byte_xor x y :: distance a b). rewrite be_val_cons.
  pose proof (be_val_range (distance a b)). pose proof (byte_val_range (byte_xor x y)).
  assert (0 < 256 ^ blen (distance a b)) by (apply Z.pow_pos_nonneg; [done|apply blen_nonneg]).
  specialize (IH b Hl). pose proof (byte_xor_zero x y). split.
  - intros E. assert (byte_val (byte_xor x y) = 0) by nia. f_equal; [tauto|]. apply IH. nia.
  - intros [= -> ->]. rewrite (proj2 (byte_xor_zero y y) eq_refl), (proj2 IH eq_refl). done.
Qed.

Lemma distance_inj a b c : length a = length b → length a = length c → distance a b = distance a c → b = c.
Proof.
  revert b c. induction a as [|x a IH]; intros [|y b] [|z c] Hb Hc; try done.
  injection Hb as Hb. injection Hc as Hc. intros [= E1 E2]. f_equal; [by eapply byte_xor_cancel|by eapply IH].
Qed.

Lemma distance_triangle a b c : length a = length b → length b = length c →
  be_val (distance a c) <= be_val (distance a b) + be_val (distance b c).
Proof.
  revert b c. induction a as [|x a IH]; intros [|y b] [|z c] Hb Hc; try done.
  injection Hb as Hb. injection Hc as Hc.
  change (distance (x :: a) (z :: c)) with (byte_xor x z :: distance a c).
  change (distance (x :: a) (y :: b)) with (byte_xor x y :: distance a b).
  change (distance (y :: b) (z :: c)) with (byte_xor y z :: distance b c). rewrite !be_val_cons.
  assert (blen (distance a c) = blen (distance a b) ∧ blen (distance b c) = blen (distance a b)) as [-> ->].
  { unfold blen. rewrite (distance_length a c (length a)), (distance_length a b (length a)), (distance_length b c (length a)) by congruence. done. }
  specialize (IH b c Hb Hc). pose proof (byte_xor_triangle x y z).
  assert (0 < 256 ^ blen (distance a b)) by (apply Z.pow_pos_nonneg; [done|apply blen_nonneg]). nia.
Qed.

(** Big-endian byte order is numeric order. *)
Lemma be_cmp a b : length a = length b → cmp a b = Z.compare (be_val a) (be_val b).
Proof.
  revert b. induction a as [|x a IH]; intros [|y b] Hl; try done. injection Hl as Hl.
  change (cmp (x :: a) (y :: b)) with (then_ (Z.compare (byte_val x) (byte_val y)) (cmp a b)).
  rewrite !be_val_cons, IH by done. assert (blen b = blen a) as -> by (unfold blen; lia).
  pose proof (be_val_range a). pose proof (be_val_range b) as Hb. assert (blen b = blen a) as E by (unfold blen; lia). rewrite E in Hb.
  set (m := 256 ^ blen a) in *. destruct (Z.compare_spec (byte_val x) (byte_val y)); cbn [then_].
  - rewrite H0. destruct (Z.compare_spec (be_val a) (be_val b)), (Z.compare_spec (byte_val y * m + be_val a) (byte_val y * m + be_val b)); lia || done.
  - symmetry. apply Z.compare_lt_iff. nia.
  - symmetry. apply Z.compare_gt_iff. nia.
Qed.

Lemma bucket_scan_spec i d : i + blen d = 32 →
  bucket_scan i d = if be_val d =? 0 then None else Some (Z.log2 (be_val d)).
Proof.
  revert i. induction d as [|b d IH]; intros i Hi; [done|]. rewrite blen_cons in Hi. cbn [bucket_scan].
  rewrite be_val_cons. pose proof (be_val_range d). pose proof (byte_val_range b). pose proof (blen_nonneg d).
  destruct (Z.eqb_spec (byte_val b) 0) as [E|E]; cbn [negb].
  - rewrite IH by lia. by rewrite E, Z.mul_0_l, Z.add_0_l.
  - set (m := 256 ^ blen d) in *. assert (0 < m) by (apply Z.pow_pos_nonneg; lia).
    rewrite (proj2 (Z.eqb_neq _ 0)) by nia. f_equal. unfold leading_zeros, BITS, ID_LEN.
    rewrite (proj2 (Z.eqb_neq _ 0)) by done. assert (blen d = 31 - i) as Hd by lia.
    assert (m = 2 ^ (8 * blen d)) as Hm by (unfold m; change 256 with (2 ^ 8); rewrite <- Z.pow_mul_r by lia; done).
    assert (Z.log2 (byte_val b * m + be_val d) = Z.log2 (byte_val b) + 8 * blen d) as ->; [|lia].
    apply Z.log2_unique; [pose proof (Z.log2_nonneg (byte_val b)); lia|].
    pose proof (Z.log2_spec (byte_val b) ltac:(lia)) as [L1 L2]. pose proof (Z.log2_nonneg (byte_val b)).
    rewrite <- Z.add_succ_l, !Z.pow_add_r, <- Hm by lia.
    assert (byte_val b + 1 <= 2 ^ Z.succ (Z.log2 (byte_val b))) by lia. nia.
Qed.

(** ** The routing table *)

Lemma StronglySorted_app_le {A} (R : A → A → Prop) (l k : list A) x y :
  StronglySorted R (l ++ k) → x ∈ l → y ∈ k → R x y.
Proof.
  induction l as [|z l IH]; [by intros _ ?%elem_of_nil|]. cbn [app]. intros Hs Hx Hy.
  apply StronglySorted_inv in Hs as [Hs Hz]. apply elem_of_cons in Hx as [->|Hx]; [|by apply IH].
  rewrite Forall_forall in Hz. apply Hz. set_solver.
Qed.

Lemma StronglySorted_app_l {A} (R : A → A → Prop) (l k : list A) : StronglySorted R (l ++ k) → StronglySorted R l.
Proof.
  induction l as [|z l IH]; [constructor|]. cbn [app]. intros [Hs Hz]%StronglySorted_inv. constructor; [by apply IH|].
  by apply Forall_app in Hz as [? _].
Qed.

(** [near t a b]: [a] is at most as far from [t] as [b]. *)
Definition near (t : NodeId) (a b : Contact) : Prop := cle (dist_cmp t) a b.

(** The [n] nearest to [t] among [all]: sorted, drawn from it, as many as
    there are up to [n], and nothing left out is nearer. *)
Definition nearest (t : NodeId) (n : nat) (all got : list Contact) : Prop :=
  StronglySorted (near t) got ∧
  ∃ rest, got ++ rest ≡ₚ all ∧ length got = Nat.min n (length all) ∧ ∀ a b, a ∈ got → b ∈ rest → near t a b.

Lemma near_opp t a b : dist_cmp t b a = CompOpp (dist_cmp t a b).
Proof. apply cmp_opp. Qed.

Lemma near_trans t a b c : near t a b → near t b c → near t a c.
Proof. apply ole_trans. Qed.

Lemma near_total t a b : near t a b ∨ near t b a.
Proof. unfold near, cle. rewrite (near_opp t a b). destruct (dist_cmp t a b); auto. Qed.

Lemma take_sort_nearest t n all : nearest t n all (take n (sort_by (dist_cmp t) all)).
Proof.
  pose proof (sort_by_sorted (dist_cmp t) (near_opp t) (near_trans t) all) as Hs.
  rewrite <- (take_drop n (sort_by (dist_cmp t) all)) in Hs. split.
  - by eapply StronglySorted_app_l.
  - exists (drop n (sort_by (dist_cmp t) all)). split_and!.
    + by rewrite take_drop, sort_by_perm.
    + by rewrite length_take, length_sort_by.
    + intros a b Ha Hb. by eapply StronglySorted_app_le.
Qed.

(** An id lives in the bucket of its index; buckets hold at most [K] ids. *)
Definition bucket_wf (l : NodeId) (i : nat) (b : list Contact) : Prop :=
  blen b <= K ∧ NoDup (map id b) ∧ Forall (λ c, id_wf (id c) ∧ bucket_index l (id c) = Some (Z.of_nat i)) b.
Definition rt_wf (rt : RoutingTable) : Prop :=
  id_wf (local rt) ∧ length (buckets rt) = Z.to_nat BITS ∧
  ∀ i b, buckets rt !! i = Some b → bucket_wf (local rt) i b.

Definition known (rt : RoutingTable) (c : Contact) : Prop := c ∈ concat (buckets rt).

Lemma bucket_insert_cases c b :
  (bucket_insert c b ≡ₚ b ∧ ((∃ d, d ∈ b ∧ id d = id c) ∨ K <= blen b)) ∨
  (bucket_insert c b = b ++ [c] ∧ blen b < K ∧ id c ∉ map id b).
Proof.
  unfold bucket_insert. destruct (list_find _ b) as [[pos e]|] eqn:E.
  - left. apply list_find_Some in E as (Hp & He & _). split.
    + rewrite Permutation_app_comm. cbn [app]. symmetry. by apply delete_Permutation.
    + left. exists e. split; [by eapply list_elem_of_lookup_2|done].
  - rewrite list_find_None in E. destruct (Z.ltb_spec (blen b) K); [right|left; auto]. split_and!; [done..|].
    intros (d & Hd & Hin)%list_elem_of_fmap. rewrite Forall_forall in E. by apply (E d Hin).
Qed.

Lemma bucket_insert_wf l i c b :
  bucket_wf l i b → id_wf (id c) → bucket_index l (id c) = Some (Z.of_nat i) → bucket_wf l i (bucket_insert c b).
Proof.
  intros (Hk & Hn & Hf) Hc Hi. destruct (bucket_insert_cases c b) as [[Hp _]|(-> & Hlt & Hni)]; unfold bucket_wf.
  - unfold blen in *. by rewrite Hp.
  - rewrite blen_app, map_app, Forall_app, Forall_singleton. split_and!; [unfold blen in *; cbn; lia| |done..].
    apply NoDup_app. split_and!; [done| |apply NoDup_singleton]. cbn. set_solver.
Qed.

Lemma bucket_index_range a b i : id_wf a → id_wf b → bucket_index a b = Some i → 0 <= i < BITS.
Proof.
  intros Ha Hb. unfold bucket_index. assert (blen (distance a b) = 32) as Hl by (unfold blen; by rewrite (distance_length a b 32)).
  rewrite bucket_scan_spec by lia. pose proof (be_val_range (distance a b)) as Hr. rewrite Hl in Hr.
  destruct (Z.eqb_spec (be_val (distance a b)) 0); [done|]. intros [= <-]. split; [apply Z.log2_nonneg|].
  apply Z.log2_lt_pow2; [lia|]. change (2 ^ BITS) with (256 ^ 32). lia.
Qed.

Lemma rt_new_wf l : id_wf l → rt_wf (routing_new l).
Proof.
  intros Hl. split_and!; [done|apply repeat_length|]. intros i b Hb.
  apply list_elem_of_lookup_2, list_elem_of_In, repeat_spec in Hb as ->. split_and!; [done|constructor|constructor].
Qed.

Lemma rt_insert_wf rt c : rt_wf rt → id_wf (id c) → rt_wf (rt_insert rt c).
Proof.
  intros (Hl & Hn & Hb) Hc. unfold rt_insert. destruct (bucket_index _ _) as [i|] eqn:E; [|done].
  pose proof (bucket_index_range _ _ _ Hl Hc E) as Hi. split_and!; [done|cbn; by rewrite length_alter|].
  cbn [buckets local]. intros j b. rewrite list_lookup_alter. case_decide as Hj; [subst j|apply Hb].
  destruct (buckets rt !! Z.to_nat i) as [b0|] eqn:E0; [|done]. intros [= <-].
  apply bucket_insert_wf; [by apply Hb|done|]. by rewrite Z2Nat.id by lia.
Qed.

Lemma elem_of_concat_lookup {A} (bs : list (list A)) x : x ∈ concat bs ↔ ∃ i b, bs !! i = Some b ∧ x ∈ b.
Proof.
  rewrite list_elem_of_In, in_concat. split.
  - intros (b & Hb & Hx). apply list_elem_of_In, list_elem_of_lookup in Hb as [i Hi]. exists i, b. by rewrite list_elem_of_In.
  - intros (i & b & Hb & Hx). exists b. rewrite <- !list_elem_of_In. split; [by eapply list_elem_of_lookup_2|done].
Qed.

(** Learning a contact forgets nobody; it adds the contact unless its id is
    known, is the node's own, or its bucket is full. *)
Lemma known_rt_insert rt c d : rt_wf rt → id_wf (id c) →
  known (rt_insert rt c) d ↔
  known rt d ∨ (d = c ∧ ∃ i b, bucket_index (local rt) (id c) = Some i ∧ buckets rt !! Z.to_nat i = Some b ∧
                 blen b < K ∧ id c ∉ map id b).
Proof.
  intros (Hl & Hn & Hb) Hc. unfold known, rt_insert. destruct (bucket_index _ _) as [i|] eqn:E; [|set_solver].
  pose proof (bucket_index_range _ _ _ Hl Hc E) as Hi. cbn [buckets].
  destruct (lookup_lt_is_Some_2 (buckets rt) (Z.to_nat i)) as [b Eb]; [rewrite Hn; unfold BITS, ID_LEN in *; lia|].
  rewrite !elem_of_concat_lookup. setoid_rewrite list_lookup_alter.
  assert (d ∈ bucket_insert c b ↔ d ∈ b ∨ (d = c ∧ blen b < K ∧ id c ∉ map id b)) as Hins.
  { destruct (bucket_insert_cases c b) as [[Hp Hfull]|(-> & Hlt & Hni)].
    - rewrite Hp. split; [auto|]. intros [?|(_ & Hlt & Hni)]; [done|].
      destruct Hfull as [(e & He & Hid)|Hfull]; [|lia]. destruct Hni. apply list_elem_of_fmap. by exists e.
    - rewrite elem_of_app, list_elem_of_singleton. naive_solver. }
  split.
  - intros (j & b' & Hj & Hd). case_decide as Hji.
    + subst j. rewrite Eb in Hj. injection Hj as <-. apply Hins in Hd as [Hd|(-> & ? & ?)]; [left; by exists (Z.to_nat i), b|].
      right. split; [done|]. by exists i, b.
    + left. by exists j, b'.
  - intros [(j & b' & Hj & Hd)|(-> & i' & b' & [= <-] & Hb' & ? & ?)].
    + destruct (decide (j = Z.to_nat i)) as [->|Hji].
      * exists (Z.to_nat i), (bucket_insert c b). rewrite decide_True, Eb by done. split; [done|]. apply Hins. left. congruence.
      * exists j, b'. rewrite decide_False by done. done.
    + exists (Z.to_nat i), (bucket_insert c b). rewrite decide_True, Eb by done. split; [done|]. apply Hins. right.
      rewrite Eb in Hb'. injection Hb' as <-. done.
Qed.

Lemma concat_nodup_ids l bs off :
  (∀ i b, bs !! i = Some b → NoDup (map id b) ∧ Forall (λ c, bucket_index l (id c) = Some (Z.of_nat (off + i))) b) →
  NoDup (map id (concat bs)).
Proof.
  revert off. induction bs as [|b bs IH]; intros off Hb; [constructor|]. cbn [concat]. rewrite map_app.
  destruct (Hb 0%nat b eq_refl) as [Hn Hf]. apply NoDup_app. split_and!; [done| |].
  - intros x (c & -> & Hc)%list_elem_of_fmap (d & Hd & Hdin)%list_elem_of_fmap.
    apply elem_of_concat_lookup in Hdin as (i & b' & Hi & Hdb). destruct (Hb (S i) b' Hi) as [_ Hf'].
    rewrite Forall_forall in Hf, Hf'. specialize (Hf c Hc). specialize (Hf' d Hdb). rewrite Hd in Hf.
    rewrite Hf' in Hf. injection Hf. lia.
  - apply (IH (S off)). intros i b' Hi. replace (S off + i)%nat with (off + S i)%nat by lia. by apply (Hb (S i)).
Qed.

Lemma known_nodup rt : rt_wf rt → NoDup (map id (concat (buckets rt))).
Proof.
  intros (Hl & Hn & Hb). apply (concat_nodup_ids (local rt) _ 0). intros i b Hi.
  destruct (Hb i b Hi) as (_ & ? & Hf). split; [done|]. eapply Forall_impl; [exact Hf|]. by intros c [_ ?].
Qed.

Lemma known_wf rt c : rt_wf rt → known rt c → id_wf (id c) ∧ id c ≠ local rt.
Proof.
  intros (Hl & Hn & Hb) (i & b & Hi & Hc)%elem_of_concat_lookup. destruct (Hb i b Hi) as (_ & _ & Hf).
  rewrite Forall_forall in Hf. destruct (Hf c Hc) as [Hw Hx]. split; [done|]. intros E. rewrite E in Hx.
  unfold bucket_index in Hx. rewrite bucket_scan_spec in Hx by (unfold blen; by rewrite (distance_length _ _ 32)).
  by rewrite (proj2 (distance_zero (local rt) (local rt) eq_refl) eq_refl) in Hx.
Qed.

(** ** Iterative lookups *)

Lemma elem_of_take' {A} n (l : list A) x : x ∈ take n l → x ∈ l.
Proof. intros Hx. rewrite <- (take_drop n l). set_solver. Qed.

Lemma not_all_elem `{EqDecision A} (l k : list A) : ¬ (∀ x, x ∈ l → x ∈ k) → ∃ x, x ∈ l ∧ x ∉ k.
Proof.
  induction l as [|y l IH]; intros Hs; [destruct Hs; intros x Hx; by apply elem_of_nil in Hx|].
  destruct (decide (y ∈ k)); [|exists y; split; [left|done]].
  destruct IH as (x & ? & ?); [|exists x; split; [by right|done]].
  intros Hl. apply Hs. intros x [->|?]%elem_of_cons; auto.
Qed.

Lemma NoDup_map_take {A B} (f : A → B) n (l : list A) : NoDup (map f l) → NoDup (map f (take n l)).
Proof. intros Hn. rewrite <- (take_drop n l), map_app in Hn. by apply NoDup_app in Hn as [? _]. Qed.

Definition same_id (l : list Contact) (c : Contact) : Prop := ∃ d, d ∈ l ∧ id d = id c.

Lemma add_node_spec self l n :
  NoDup (map id l) → self ∉ map id l →
  ∃ ext, add_node self l n = l ++ ext ∧ ext ⊆ [n] ∧ NoDup (map id (l ++ ext)) ∧ self ∉ map id (l ++ ext) ∧
    (id n ≠ self → same_id (l ++ ext) n).
Proof.
  intros Hn Hs. unfold add_node. case_bool_decide as Hself; cbn [negb andb].
  { exists []. rewrite app_nil_r. split_and!; [done|set_solver|done..]. }
  destruct (existsb _ l) eqn:E; cbn [negb].
  - exists []. rewrite app_nil_r. split_and!; [done|set_solver|done|done|]. intros _.
    apply existsb_exists in E as (d & Hd & Hid). exists d. rewrite list_elem_of_In. split; [done|].
    by apply bool_decide_eq_true in Hid.
  - exists [n]. assert (id n ∉ map id l) as Hni.
    { intros (d & Hd & Hin)%list_elem_of_fmap. apply list_elem_of_In in Hin. assert (existsb (λ c, bool_decide (id c = id n)) l = true) as E'; [|congruence].
      apply existsb_exists. exists d. split; [done|]. by apply bool_decide_eq_true. }
    rewrite map_app. split_and!; [done|done| |set_solver|].
    + apply NoDup_app. split_and!; [done|set_solver|apply NoDup_singleton].
    + intros _. exists n. split; [set_solver|done].
Qed.

Lemma add_nodes_spec self ns l :
  NoDup (map id l) → self ∉ map id l →
  ∃ ext, foldl (add_node self) l ns = l ++ ext ∧ ext ⊆ ns ∧ NoDup (map id (l ++ ext)) ∧ self ∉ map id (l ++ ext) ∧
    (∀ n, n ∈ ns → id n ≠ self → same_id (l ++ ext) n).
Proof.
  revert l. induction ns as [|n ns IH]; intros l Hn Hs; cbn [foldl].
  { exists []. rewrite app_nil_r. split_and!; [done..|]. intros n Hin. by apply elem_of_nil in Hin. }
  destruct (add_node_spec self l n Hn Hs) as (e1 & -> & He1 & Hn1 & Hs1 & Hin1).
  destruct (IH (l ++ e1) Hn1 Hs1) as (e2 & -> & He2 & Hn2 & Hs2 & Hin2). exists (e1 ++ e2).
  rewrite <- app_assoc in *. split_and!; [done|set_solver|done|done|].
  intros m [->|Hm]%elem_of_cons Hne; [|by apply Hin2]. destruct (Hin1 Hne) as (d & Hd & Hid). exists d.
  split; [|done]. set_solver.
Qed.

Section lookup_facts.
Context (self target : NodeId) (want_peers : bool).
Context (rpc : nat → Contact → Request → result bytes Response).
Context (rt0 : RoutingTable) (init : list Contact).

Abbreviation req := (lookup_req target want_peers).

(** The calls made, in order: the round and the node asked. *)
Abbreviation calls := (list (nat * Contact)).
Definition reply (a : nat * Contact) : result bytes Response := rpc a.1 a.2 req.
(** Every contact met so far. *)
Definition seen (asked : calls) : list Contact := init ++ concat (map (λ a, response_nodes (reply a)) asked).

(** The nearest contacts met are on the shortlist. *)
Definition covers (l met : list Contact) : Prop :=
  ∀ c, c ∈ met → id c ≠ self → same_id l c ∨ (length l = Z.to_nat K ∧ ∀ d, d ∈ l → near target d c).

Record lookup_inv (s : Lookup) (asked : calls) : Prop := {
  li_nodup : NoDup (map id (shortlist s));
  li_self : self ∉ map id (shortlist s);
  li_sorted : StronglySorted (near target) (shortlist s);
  li_len : (length (shortlist s) <= Z.to_nat K)%nat;
  li_met : shortlist s ⊆ seen asked;
  li_covers : covers (shortlist s) (seen asked);
  li_queried : queried s = list_to_set (map (λ a, id a.2) asked);
  li_once : NoDup (map (λ a, id a.2) asked);
  li_asked : map snd asked ⊆ seen asked;
  li_peers : peers s = concat (map (λ a, response_peers (reply a)) asked);
  li_routing : lk_routing s = foldl rt_insert rt0 (map snd asked)
}.

Lemma absorb_fold round batch s :
  foldl (absorb self) s (map (λ c, (c, rpc round c req)) batch) =
  mkLookup (foldl (add_node self) (shortlist s) (concat (map (λ c, response_nodes (rpc round c req)) batch)))
    (list_to_set (map id batch) ∪ queried s)
    (peers s ++ concat (map (λ c, response_peers (rpc round c req)) batch))
    (foldl rt_insert (lk_routing s) batch).
Proof.
  revert s. induction batch as [|c batch IH]; intros [l q p r]; cbn [map foldl concat list_to_set].
  - rewrite app_nil_r, (left_id_L ∅ (∪)). done.
  - rewrite IH. cbn [absorb shortlist queried peers lk_routing]. rewrite foldl_app, app_assoc. f_equal.
    rewrite !(assoc_L (∪)). f_equal. apply (comm_L (∪)).
Qed.

(** Sorting and cutting to [K] keeps the nearest contacts met. *)
Lemma covers_cut l ext met met' :
  NoDup (map id (l ++ ext)) → covers l met →
  (∀ c, c ∈ met' → c ∈ met ∨ (id c ≠ self → same_id (l ++ ext) c)) →
  covers (take (Z.to_nat K) (sort_by (dist_cmp target) (l ++ ext))) met'.
Proof.
  intros Hn Hl Hmet'. destruct (take_sort_nearest target (Z.to_nat K) (l ++ ext)) as [_ (rest & Hp & Hlen & Hnear)].
  set (got := take _ _) in *.
  assert (∀ c, same_id (l ++ ext) c → same_id got c ∨ (length got = Z.to_nat K ∧ ∀ d, d ∈ got → near target d c)) as Hsame.
  { intros c (d & Hd & Hid). rewrite <- Hp in Hd. apply elem_of_app in Hd as [Hd|Hd]; [left; by exists d|].
    right. split.
    - apply Permutation_length in Hp. rewrite length_app in Hp. destruct rest; [by apply elem_of_nil in Hd|cbn [length] in Hp; lia].
    - intros e He. specialize (Hnear e d He Hd). unfold near, cle, dist_cmp in *. by rewrite <- Hid. }
  intros c Hc Hne. destruct (Hmet' c Hc) as [Hm|Hm]; [|by apply Hsame, Hm].
  destruct (Hl c Hm Hne) as [(d & Hd & Hid)|[HK Hall]]; [apply Hsame; exists d; split; [set_solver|done]|].
  right. assert (length got = Z.to_nat K) as HgK by (rewrite Hlen, length_app; lia). split; [done|].
  intros e He. destruct (decide (Forall (λ x, x ∈ got) l)) as [Hsub|Hsub].
  all: rewrite Forall_forall in Hsub.
  - assert (l ≡ₚ got) as Hlg.
    { apply submseteq_length_Permutation; [|lia]. apply NoDup_submseteq; [|exact Hsub].
      rewrite map_app in Hn. apply NoDup_app in Hn as (Hn & _). by apply NoDup_fmap_1 in Hn. }
    rewrite <- Hlg in He. by apply Hall.
  - assert (∃ x, x ∈ l ∧ x ∉ got) as (x & Hx & Hxg).
    { by apply not_all_elem. }
    assert (x ∈ rest) as Hxr.
    { assert (x ∈ got ++ rest) as Hxx by (rewrite Hp; apply elem_of_app; by left). apply elem_of_app in Hxx as [Hg|Hr]; [by destruct (Hxg Hg)|exact Hr]. }
    eapply near_trans; [by apply Hnear|by apply Hall].
Qed.

Lemma next_batch_spec s :
  next_batch s ⊆ shortlist s ∧ (NoDup (map id (shortlist s)) → NoDup (map id (next_batch s))) ∧
  (∀ c, c ∈ next_batch s → id c ∉ queried s) ∧
  (next_batch s = [] → ∀ c, c ∈ shortlist s → id c ∈ queried s).
Proof.
  unfold next_batch. set (fl := List.filter _ _). assert (∀ c, c ∈ fl ↔ c ∈ shortlist s ∧ id c ∉ queried s) as Hfl.
  { intros c. unfold fl. rewrite elem_of_bfilter. by rewrite negb_true_iff, bool_decide_eq_false. }
  split_and!.
  - intros c Hc. apply Hfl. revert Hc. apply elem_of_take'.
  - intros Hn. by apply NoDup_map_take, NoDup_map_bfilter.
  - intros c Hc. apply Hfl. revert Hc. apply elem_of_take'.
  - intros E c Hc. destruct (decide (id c ∈ queried s)) as [|Hq]; [done|]. assert (c ∈ fl) as Hin by by apply Hfl.
    destruct fl as [|e fl]; [by apply elem_of_nil in Hin|]. done.
Qed.


Definition calls_of (round : nat) (batch : list Contact) : calls := map (pair round) batch.

Lemma seen_app asked a : seen (asked ++ a) = seen asked ++ concat (map (λ x, response_nodes (reply x)) a).
Proof. unfold seen. by rewrite map_app, concat_app, app_assoc. Qed.

Lemma calls_of_map {B} (f : nat * Contact → B) round batch : map f (calls_of round batch) = map (λ c, f (round, c)) batch.
Proof. unfold calls_of. by rewrite map_map. Qed.

Lemma covers_mono l m m' : m' ⊆ m → covers l m → covers l m'.
Proof. intros Hs Hc c Hin. apply Hc. by apply Hs. Qed.

Lemma lookup_round_inv round s asked :
  lookup_inv s asked →
  lookup_inv (lookup_round self target want_peers rpc round s (next_batch s)) (asked ++ calls_of round (next_batch s)).
Proof.
  intros [Hn Hself Hs Hlen Hmet Hcov Hq Honce Hasked Hp Hr]. destruct (next_batch_spec s) as (Hsub & Hnd & Hfresh & _).
  set (batch := next_batch s) in *. unfold lookup_round. rewrite absorb_fold. cbn [shortlist queried peers lk_routing].
  set (ns := concat (map (λ c, response_nodes (rpc round c req)) batch)).
  assert (concat (map (λ x, response_nodes (reply x)) (calls_of round batch)) = ns) as Hns by by rewrite calls_of_map.
  destruct (add_nodes_spec self ns (shortlist s) Hn Hself) as (ext & -> & Hext & Hn' & Hself' & Hin).
  destruct (take_sort_nearest target (Z.to_nat K) (shortlist s ++ ext)) as [Hsorted (rest & Hperm & Hl & _)].
  set (got := take _ _) in *.
  assert (got ⊆ shortlist s ++ ext) as Hgot by (intros c Hc; rewrite <- Hperm; apply elem_of_app; by left).
  split; cbn [shortlist queried peers lk_routing].
  - apply NoDup_map_take. assert (map id (sort_by (dist_cmp target) (shortlist s ++ ext)) ≡ₚ map id (shortlist s ++ ext)) as -> by by rewrite sort_by_perm.
    done.
  - intros (c & Hc & Hc')%list_elem_of_fmap. apply Hself', list_elem_of_fmap. exists c. split; [done|by apply Hgot].
  - exact Hsorted.
  - rewrite Hl. lia.
  - rewrite seen_app, Hns. intros c Hc%Hgot. set_solver.
  - rewrite seen_app, Hns. eapply covers_cut; [exact Hn'|exact Hcov|].
    intros c [Hc|Hc]%elem_of_app; [by left|]. right. by apply Hin.
  - rewrite Hq, map_app, calls_of_map, list_to_set_app_L. cbn [snd]. apply (comm_L (∪)).
  - rewrite map_app, calls_of_map. cbn [snd]. apply NoDup_app. split_and!; [done| |by apply Hnd].
    intros x Hx (c & -> & Hc)%list_elem_of_fmap. apply (Hfresh c Hc). rewrite Hq. by apply elem_of_list_to_set.
  - rewrite map_app, calls_of_map, seen_app. cbn [snd]. rewrite map_id. intros c [Hc|Hc]%elem_of_app; set_solver.
  - rewrite Hp, map_app, concat_app, calls_of_map. done.
  - rewrite Hr, map_app, foldl_app, calls_of_map. cbn [snd]. by rewrite map_id.
Qed.

(** A fresh call per turn: [length univ] turns are enough when every id the
    network can mention is in [univ]. *)
Lemma lookup_loop_spec (univ : list NodeId) :
  (∀ c, c ∈ init → id c ∈ univ) → (∀ r c q d, d ∈ response_nodes (rpc r c q) → id d ∈ univ) →
  ∀ fuel round s asked, lookup_inv s asked → (length univ < fuel + length asked)%nat →
  ∃ s' asked', lookup_loop self target want_peers rpc fuel round s = Some s' ∧ lookup_inv s' asked' ∧
    ∀ c, c ∈ shortlist s' → id c ∈ map (λ a, id a.2) asked'.
Proof.
  intros Hi Hr.
  assert (∀ asked c, c ∈ seen asked → id c ∈ univ) as Huniv.
  { intros asked c [Hc|Hc]%elem_of_app; [by apply Hi|]. apply elem_of_concat_lookup in Hc as (i & b & Hb & Hc).
    apply list_lookup_fmap_Some in Hb as (a & -> & _). by eapply Hr. }
  induction fuel as [|fuel IH]; intros round s asked Hinv Hf.
  { exfalso. assert (length (map (λ a : nat * Contact, id a.2) asked) <= length univ)%nat as Hle; [|rewrite length_map in Hle; lia].
    apply submseteq_length, NoDup_submseteq; [apply (li_once _ _ Hinv)|]. intros x (a & -> & Ha)%list_elem_of_fmap.
    apply (Huniv asked), (li_asked _ _ Hinv), list_elem_of_fmap. by exists a. }
  cbn [lookup_loop]. destruct (next_batch s) as [|c batch] eqn:E.
  - exists s, asked. split_and!; [done|done|]. intros c Hc. destruct (next_batch_spec s) as (_ & _ & _ & Hall).
    specialize (Hall E c Hc). rewrite (li_queried _ _ Hinv) in Hall. by apply elem_of_list_to_set in Hall.
  - rewrite <- E. apply (IH _ _ (asked ++ calls_of round (next_batch s))); [by apply lookup_round_inv|].
    rewrite length_app. unfold calls_of. rewrite length_map, E. cbn [length]. lia.
Qed.

Lemma lookup_start_inv s :
  s = mkLookup init ∅ [] rt0 →
  NoDup (map id init) → self ∉ map id init → StronglySorted (near target) init → (length init <= Z.to_nat K)%nat →
  lookup_inv s [].
Proof.
  intros -> Hn Hs Hso Hl. assert (seen [] = init) as E by (unfold seen; cbn; apply app_nil_r).
  split; cbn [shortlist queried peers lk_routing map concat foldl]; rewrite ?E; try done.
  - intros c Hc _. left. by exists c.
  - apply NoDup_nil_2.
  - set_solver.
Qed.
End lookup_facts.

(** ** The peer store *)

Definition plist_wf (l : list (PeerAddr * Z)) : Prop := blen l <= MAX_PEERS_PER_KEY ∧ NoDup (map fst l).
Definition store_wf (s : PeerStore) : Prop := ∀ k l, entries s !! k = Some l → plist_wf l.

Lemma oldest_spec l i : oldest l = Some i → ∃ e, l !! i = Some e ∧ ∀ e', e' ∈ l → e.2 <= e'.2.
Proof.
  unfold oldest. destruct (min_by _ _) as [[j e]|] eqn:E; [|done]. intros [= <-]. exists e.
  pose proof (min_by_elem _ _ _ E) as Hin. apply list_elem_of_lookup in Hin as [j' Hj].
  rewrite list_lookup_imap in Hj. destruct (l !! j') as [x|] eqn:Ex; [|done]. injection Hj as <- <-. split; [done|].
  intros e' [k Hk]%list_elem_of_lookup. assert ((k, e') ∈ imap pair l) as Hin'.
  { apply list_elem_of_lookup. exists k. by rewrite list_lookup_imap, Hk. }
  pose proof (min_by_le (λ a b : nat * (PeerAddr * Z), Z.compare a.2.2 b.2.2)
    ltac:(intros; apply Z.compare_antisym) ltac:(intros [? [? x1]] [? [? x2]] [? [? x3]]; unfold cle; cbn; rewrite !Z.compare_le_iff; lia)
    _ _ _ E Hin') as Hle. unfold cle in Hle. cbn in Hle. by apply Z.compare_le_iff in Hle.
Qed.

Lemma make_room_spec now t l : plist_wf l →
  NoDup (map fst (make_room now t l)) ∧ blen (make_room now t l) < MAX_PEERS_PER_KEY ∧ make_room now t l ⊆ l ∧
  ∀ e, e ∈ l → fresh now t e = true → e ∈ make_room now t l ∨
    (blen l = MAX_PEERS_PER_KEY ∧ ∀ e', e' ∈ l → fresh now t e' = true ∧ e.2 <= e'.2).
Proof.
  intros [Hl Hn]. unfold make_room. destruct (Z.leb_spec MAX_PEERS_PER_KEY (blen l)) as [Hfull|Hr]; [|split_and!; auto].
  pose proof (NoDup_map_bfilter fst (fresh now t) l Hn) as Hn'. pose proof (blen_bfilter (fresh now t) l) as Hle.
  assert (∀ e, e ∈ List.filter (fresh now t) l ↔ e ∈ l ∧ fresh now t e = true) as Hf by (intros; apply elem_of_bfilter).
  set (fl := List.filter (fresh now t) l) in *.
  destruct (Z.leb_spec MAX_PEERS_PER_KEY (blen fl)) as [Hfull'|Hr].
  - assert (fl ≡ₚ l) as Hpl.
    { apply submseteq_length_Permutation; [|unfold blen in *; lia].
      apply NoDup_submseteq; [by apply NoDup_fmap_1 in Hn'|]. intros e He. by apply Hf. }
    destruct (oldest fl) as [i|] eqn:Eo.
    + destruct (oldest_spec fl i Eo) as (o & Ho & Hmin). pose proof (delete_Permutation fl i o Ho) as Hp.
      split_and!.
      * assert (map fst fl ≡ₚ fst o :: map fst (delete i fl)) as Hpm by by rewrite Hp at 1.
        rewrite Hpm in Hn'. by apply NoDup_cons in Hn' as [_ ?].
      * assert (blen fl = 1 + blen (delete i fl)) by (unfold blen; rewrite Hp at 1; cbn [length]; lia). lia.
      * intros e He. apply Hf. rewrite Hp. by right.
      * intros e He Hfr. rewrite <- Hpl, Hp in He. apply elem_of_cons in He as [->|?]; [right|by left].
        split; [lia|]. intros e' He'. rewrite <- Hpl in He'. split; [by apply Hf|by apply Hmin].
    + unfold oldest in Eo. destruct (min_by _ (imap pair fl)) as [x|] eqn:Em; [done|].
      apply min_by_None in Em. destruct fl; [done|]. discriminate Em.
  - split_and!; [done|lia|intros e He; by apply Hf|]. intros e He Hfr. left. by apply Hf.
Qed.

Lemma list_insert_fst (l : list (PeerAddr * Z)) i e now :
  l !! i = Some e → map fst (<[i := (e.1, now)]> l) = map fst l.
Proof.
  intros Hi. assert (map fst (<[i := (e.1, now)]> l) = <[i := e.1]> (map fst l)) as -> by exact (list_fmap_insert fst l i (e.1, now)).
  apply list_insert_id. by rewrite list_lookup_fmap, Hi.
Qed.

Lemma add_to_list_wf now t p l : plist_wf l → plist_wf (add_to_list now t p l).
Proof.
  intros Hl. unfold add_to_list. destruct (list_find _ l) as [[i e]|] eqn:E.
  - apply list_find_Some in E as (Hi & _ & _). destruct Hl. split; [unfold blen in *; by rewrite length_insert|].
    by rewrite (list_insert_fst _ _ _ _ Hi).
  - rewrite list_find_None in E. destruct (make_room_spec now t l Hl) as (Hn & Hlt & Hsub & _). split.
    + rewrite blen_app. unfold blen in *. cbn. lia.
    + rewrite map_app. apply NoDup_app. split_and!; [done| |apply NoDup_singleton].
      intros x (e & -> & He%Hsub)%list_elem_of_fmap. cbn. rewrite list_elem_of_singleton.
      rewrite Forall_forall in E. by apply E.
Qed.

Lemma add_to_list_in now t p l : (p, now) ∈ add_to_list now t p l.
Proof.
  unfold add_to_list. destruct (list_find _ l) as [[i e]|] eqn:E; [|set_solver].
  apply list_find_Some in E as (Hi & <- & _). eapply list_elem_of_lookup_2.
  apply list_lookup_insert_eq. by eapply lookup_lt_Some.
Qed.

Lemma add_to_list_keeps now t p l e : plist_wf l → e ∈ l → e.1 ≠ p → fresh now t e = true →
  e ∈ add_to_list now t p l ∨ (blen l = MAX_PEERS_PER_KEY ∧ ∀ e', e' ∈ l → fresh now t e' = true ∧ e.2 <= e'.2).
Proof.
  intros Hl He Hp Hf. unfold add_to_list. destruct (list_find _ l) as [[i e0]|] eqn:E.
  - left. apply list_find_Some in E as (Hi & H0 & _). apply list_elem_of_lookup in He as [j Hj].
    apply list_elem_of_lookup. exists j. rewrite list_lookup_insert_ne; [done|]. intros ->. congruence.
  - destruct (make_room_spec now t l Hl) as (_ & _ & _ & Hk). destruct (Hk e He Hf); [left; set_solver|by right].
Qed.

Lemma add_to_list_sub now t p l e : e ∈ add_to_list now t p l → e = (p, now) ∨ e ∈ l.
Proof.
  unfold add_to_list. destruct (list_find _ l) as [[i e0]|] eqn:E.
  - apply list_find_Some in E as (Hi & <- & _). intros [j Hj]%list_elem_of_lookup.
    rewrite list_lookup_insert in Hj. case_decide; [|right; by eapply list_elem_of_lookup_2].
    left. naive_solver.
  - intros [He|He]%elem_of_app; [|left; by apply list_elem_of_singleton].
    right. revert He. unfold make_room. repeat case_match; try done; intros He.
    + assert (∀ (k : list (PeerAddr * Z)) x, x ∈ delete n k → x ∈ k) as Hd.
      { intros k x Hx. apply list_elem_of_lookup in Hx as [j Hj]. rewrite list_lookup_delete in Hj.
        case_decide; eapply list_elem_of_lookup_2; exact Hj. }
      apply Hd, elem_of_bfilter in He as [? _]. done.
    + by apply elem_of_bfilter in He as [? _].
    + by apply elem_of_bfilter in He as [? _].
Qed.

Lemma fresh_mono now now' t e : now <= now' → fresh now' t e = true → fresh now t e = true.
Proof. unfold fresh, sat_sub. lia. Qed.

Lemma elem_of_store_get now s key p :
  p ∈ store_get now s key ↔ ∃ l t, entries s !! key = Some l ∧ (p, t) ∈ l ∧ fresh now (ttl s) (p, t) = true.
Proof.
  unfold store_get. destruct (entries s !! key) as [l|]; cbn [fmap option_fmap option_map default from_option].
  - unfold Datatypes.id. rewrite list_elem_of_fmap. split.
    + intros ([q t] & -> & [Hin Hf]%elem_of_bfilter). by exists l, t.
    + intros (l' & t & [= <-] & Hin & Hf). exists (p, t). split; [done|]. by apply elem_of_bfilter.
  - split; [by intros ?%elem_of_nil|]. by intros (? & ? & ? & _).
Qed.

Lemma bfilter_bfilter {A} (p q : A → bool) l : (∀ x, p x = true → q x = true) → List.filter p (List.filter q l) = List.filter p l.
Proof.
  intros Hpq. induction l as [|x l IH]; [done|]. cbn [List.filter]. destruct (q x) eqn:Eq; cbn [List.filter]; rewrite IH; [done|].
  destruct (p x) eqn:Ep; [|done]. by rewrite (Hpq x Ep) in Eq.
Qed.

Lemma store_get_expire now now' s key : now <= now' → store_get now' (expire now s) key = store_get now' s key.
Proof.
  intros Hn. unfold store_get, expire. cbn [entries ttl]. rewrite map_lookup_filter, lookup_fmap.
  destruct (entries s !! key) as [l|]; [|done].
  cbn [fmap option_fmap option_map]. rewrite <- (bfilter_bfilter (fresh now' (ttl s)) (fresh now (ttl s)) l) by (intros e; by apply fresh_mono).
  cbn [mbind option_bind]. destruct (decide (List.filter (fresh now (ttl s)) l = [])) as [E|E].
  - case_guard as D; [cbn in D; congruence|]. by rewrite E.
  - case_guard as D; [done|]. cbn in D. by destruct D.
Qed.

(** ** Properties *)

(** The identifier distance is the XOR metric: read as a 256-bit number it
    is zero only between equal ids, symmetric, satisfies the triangle
    inequality and is unidirectional; the order on its bytes is the numeric
    order; and the bucket index of another id is the position of the highest
    differing bit, [None] exactly for the id itself. *)
Theorem metric_correct (a b c : NodeId) :
  id_wf a → id_wf b → id_wf c →
  (be_val (distance a b) = 0 ↔ a = b) ∧ distance a b = distance b a ∧
  be_val (distance a c) <= be_val (distance a b) + be_val (distance b c) ∧
  (distance a b = distance a c → b = c) ∧
  cmp (distance a b) (distance a c) = Z.compare (be_val (distance a b)) (be_val (distance a c)) ∧
  bucket_index a b = (if decide (a = b) then None else Some (Z.log2 (be_val (distance a b)))).
Proof.
  unfold id_wf. intros Ha Hb Hc. split_and!.
  - apply distance_zero. congruence.
  - apply distance_comm.
  - apply distance_triangle; congruence.
  - apply distance_inj; congruence.
  - apply be_cmp. by rewrite !(distance_length _ _ 32).
  - unfold bucket_index. rewrite bucket_scan_spec by (unfold blen; by rewrite (distance_length _ _ 32)).
    pose proof (distance_zero a b ltac:(congruence)). destruct (Z.eqb_spec (be_val (distance a b)) 0); case_decide; tauto || done.
Qed.

Lemma metric_correct_witness :
  bucket_index (repeat x00 32) (repeat x00 31 ++ [x05]) = Some 2.
Proof.
  destruct (metric_correct (repeat x00 32) (repeat x00 31 ++ [x05]) (repeat x00 32)) as (_ & _ & _ & _ & _ & E); [reflexivity..|].
  rewrite E. vm_compute. reflexivity.
Defined.

(** The routing table stays well formed under every insertion: each contact
    sits in the bucket of its index, no id twice, at most eight per bucket,
    never the node itself. Learning a contact forgets nobody, and learns it
    unless its id is known, is the node's own, or its bucket is full. [closest]
    returns exactly the nearest known contacts to the target, nearest first. *)
Theorem routing_correct (rt : RoutingTable) :
  rt_wf rt →
  rt_wf (routing_new (local rt)) ∧
  (∀ c, id_wf (id c) → rt_wf (rt_insert rt c) ∧ ∀ d, known (rt_insert rt c) d ↔
    known rt d ∨ (d = c ∧ ∃ i b, bucket_index (local rt) (id c) = Some i ∧ buckets rt !! Z.to_nat i = Some b ∧
      blen b < K ∧ id c ∉ map id b)) ∧
  NoDup (map id (concat (buckets rt))) ∧ (∀ c, known rt c → id c ≠ local rt) ∧
  ∀ target count, nearest target (Z.to_nat count) (concat (buckets rt)) (rt_closest rt target count).
Proof.
  intros Hwf. split_and!.
  - by apply rt_new_wf, Hwf.
  - intros c Hc. split; [by apply rt_insert_wf|]. intros d. by apply known_rt_insert.
  - by apply known_nodup.
  - intros c Hc. by apply (known_wf rt c).
  - intros target count. apply take_sort_nearest.
Qed.

Lemma routing_correct_witness :
  let rt := rt_insert (routing_new (repeat x00 32)) (mkContact (repeat x01 32) (Rns [])) in
  rt_wf rt ∧ known rt (mkContact (repeat x01 32) (Rns [])).
Proof.
  destruct (routing_correct (routing_new (repeat x00 32)) (rt_new_wf (repeat x00 32) eq_refl)) as (_ & Hi & _).
  destruct (Hi (mkContact (repeat x01 32) (Rns [])) eq_refl) as [Hw Hk]. split; [exact Hw|].
  apply Hk. right. split; [reflexivity|]. exists 248, []. vm_compute. split_and!; [reflexivity..|].
  intros H. inversion H.
Defined.

(** The peer store. Every list stays within 128 distinct peers whatever is
    announced. An announced peer is listed from then on until its lifetime
    ends, other keys are untouched, nothing else appears, and a live peer is
    dropped only from a list full of live peers in which it is the least
    recently announced. Expiring entries never changes an answer. *)
Theorem store_correct (s : PeerStore) (now : Z) (key : NodeId) (peer : PeerAddr) :
  store_wf s → 0 < ttl s →
  store_wf (store_add now s key peer) ∧
  peer ∈ store_get now (store_add now s key peer) key ∧
  (∀ now' k, k ≠ key → store_get now' (store_add now s key peer) k = store_get now' s k) ∧
  (∀ p, p ∈ store_get now (store_add now s key peer) key → p = peer ∨ p ∈ store_get now s key) ∧
  (∀ l e, entries s !! key = Some l → e ∈ l → fresh now (ttl s) e = true →
    e.1 ∈ store_get now (store_add now s key peer) key ∨
    (blen l = MAX_PEERS_PER_KEY ∧ ∀ e', e' ∈ l → fresh now (ttl s) e' = true ∧ e.2 <= e'.2)) ∧
  (∀ now' k, now <= now' → store_get now' (expire now s) k = store_get now' s k).
Proof.
  intros Hwf Httl. set (l0 := default [] (entries s !! key)).
  assert (plist_wf l0) as Hl0 by (unfold l0; destruct (entries s !! key) eqn:E; [by apply (Hwf key)|by split; [|constructor]]).
  assert (entries (store_add now s key peer) !! key = Some (add_to_list now (ttl s) peer l0)) as Hkey by apply lookup_insert_eq.
  assert (fresh now (ttl s) (peer, now) = true) as Hfr by (unfold fresh, sat_sub; cbn; lia).
  split_and!.
  - intros k l. unfold store_add. cbn [entries]. rewrite lookup_insert. case_decide; [intros [= <-]; by apply add_to_list_wf|apply Hwf].
  - apply elem_of_store_get. eexists _, now. split; [exact Hkey|]. split; [apply add_to_list_in|exact Hfr].
  - intros now' k Hk. unfold store_get, store_add. cbn [entries ttl]. by rewrite lookup_insert_ne.
  - intros p (l & t & Hl & Hin & Hf)%elem_of_store_get. rewrite Hkey in Hl. injection Hl as <-.
    apply add_to_list_sub in Hin as [[= -> ->]|Hin]; [by left|]. right. apply elem_of_store_get.
    unfold l0 in Hin. destruct (entries s !! key) as [l|]; [by exists l, t|by apply elem_of_nil in Hin].
  - intros l e Hl He Hf. assert (l0 = l) as El by (unfold l0; by rewrite Hl). rewrite El in *.
    destruct (decide (e.1 = peer)) as [->|Hne].
    { left. apply elem_of_store_get. eexists _, now. split; [exact Hkey|]. split; [apply add_to_list_in|exact Hfr]. }
    destruct (add_to_list_keeps now (ttl s) peer l e Hl0 He Hne Hf) as [Hin|]; [left|by right].
    apply elem_of_store_get. destruct e as [p t]. by eexists _, t.
  - intros now' k Hn. by apply store_get_expire.
Qed.

Lemma store_correct_witness :
  Rns [] ∈ store_get 7 (store_add 7 (store_new 60) [x01] (Rns [])) [x01].
Proof.
  destruct (store_correct (store_new 60) 7 [x01] (Rns [])) as (_ & H & _); [intros k l H; discriminate H|reflexivity|exact H].
Defined.

Definition node_wf (n : Node) : Prop := rt_wf (routing n) ∧ local (routing n) = node_id n.

(** Every id the node knows or the network can mention is in [univ]. *)
Definition network_within (univ : list NodeId) (n : Node) (rpc : nat → Contact → Request → result bytes Response) : Prop :=
  (∀ c, known (routing n) c → id c ∈ univ) ∧ (∀ r c q d, d ∈ response_nodes (rpc r c q) → id d ∈ univ).

(** What a lookup returns, in terms of the calls it made. *)
Definition lookup_result (n : Node) (target : NodeId) (rpc : nat → Contact → Request → result bytes Response) (want_peers : bool)
    (asked : list (nat * Contact)) (res : list Contact * list PeerAddr * Node) : Prop :=
  let met := seen target want_peers rpc (rt_closest (routing n) target K) asked in
  let answer a := rpc a.1 a.2 (lookup_req target want_peers) in
  let '(got, found, n') := res in
  StronglySorted (near target) got ∧ NoDup (map id got) ∧ (length got <= Z.to_nat K)%nat ∧
  (∀ c, c ∈ got → c ∈ met ∧ id c ≠ node_id n ∧ id c ∈ map (λ a, id a.2) asked) ∧
  (∀ c, c ∈ met → id c ≠ node_id n → same_id got c ∨ (length got = Z.to_nat K ∧ ∀ d, d ∈ got → near target d c)) ∧
  NoDup (map (λ a, id a.2) asked) ∧
  found = concat (map (λ a, response_peers (answer a)) asked) ∧
  n' = mkNode (node_id n) (foldl rt_insert (routing n) (map snd asked)) (store n).

Lemma iterative_spec univ n target rpc want_peers fuel :
  node_wf n → network_within univ n rpc → (length univ < fuel)%nat →
  ∃ asked res, iterative fuel n target rpc want_peers = Some res ∧ lookup_result n target rpc want_peers asked res.
Proof.
  intros [Hwf Hloc] [Hk Hr] Hf.
  destruct (take_sort_nearest target (Z.to_nat K) (concat (buckets (routing n)))) as [Hs (rest & Hp & Hl & _)].
  fold (rt_closest (routing n) target K) in Hs, Hp, Hl. set (init := rt_closest (routing n) target K) in *.
  assert (∀ c, c ∈ init → known (routing n) c) as Hknown by (intros c Hc; unfold known; rewrite <- Hp; apply elem_of_app; by left).
  assert (lookup_inv (node_id n) target want_peers rpc (routing n) init (lookup_start n target) []) as Hinv.
  { apply lookup_start_inv; [done| | |exact Hs|rewrite Hl; lia].
    - pose proof (known_nodup _ Hwf) as Hn. rewrite <- Hp, map_app in Hn. by apply NoDup_app in Hn as [? _].
    - intros (c & Hc & Hin)%list_elem_of_fmap. destruct (known_wf _ c Hwf (Hknown c Hin)) as [_ Hne]. congruence. }
  destruct (lookup_loop_spec (node_id n) target want_peers rpc (routing n) init univ) with (fuel := fuel) (round := 0%nat)
    (s := lookup_start n target) (asked := @nil (nat * Contact)) as (s' & asked & E & [I1 I2 I3 I4 I5 I6 I7 I8 I9 I10 I11] & Hall).
  - intros c Hc. by apply Hk, Hknown.
  - exact Hr.
  - exact Hinv.
  - cbn [length]. lia.
  - exists asked. unfold iterative. rewrite E. cbn [mbind option_bind]. eexists. split; [done|].
    unfold lookup_result. fold init. split_and!; [done..| |done|done|done|by rewrite I11].
    intros c Hc. split_and!; [by apply I5| |by apply Hall]. intros Heq. apply I2, list_elem_of_fmap. by exists c.
Qed.

(** An iterative lookup. Whatever the queried nodes answer, it ends within
    one round per id the network can mention, asks no id twice, and returns at
    most eight distinct contacts, nearest first, never the node itself, every
    one of which was asked; no contact it ever met is nearer than those it
    returns; the peers found are those answered, in order, and every node asked
    is offered to the routing table. *)
Theorem lookup_correct (univ : list NodeId) (n : Node) (target : NodeId)
    (rpc : nat → Contact → Request → result bytes Response) (want_peers : bool) (fuel : nat) :
  node_wf n → network_within univ n rpc → (length univ < fuel)%nat →
  ∃ asked res, iterative fuel n target rpc want_peers = Some res ∧ lookup_result n target rpc want_peers asked res.
Proof. apply iterative_spec. Qed.

(** Lookups converge. If some node is nearest to the target of all the
    network mentions, and every other node of the network, when asked, names a contact nearer
    than itself, then a lookup from a node that knows anyone finds the nearest
    node, and lists it first. *)
Theorem lookup_converges (univ : list NodeId) (n : Node) (target : NodeId)
    (rpc : nat → Contact → Request → result bytes Response) (want_peers : bool) (fuel : nat) (best : NodeId) :
  node_wf n → network_within univ n rpc → (length univ < fuel)%nat →
  concat (buckets (routing n)) ≠ [] →
  (∀ r c, id c ∈ univ → id c ≠ best → ∃ d, d ∈ response_nodes (rpc r c (lookup_req target want_peers)) ∧ id d ≠ node_id n ∧ ¬ near target c d) →
  ∃ c rest found n', iterative fuel n target rpc want_peers = Some (c :: rest, found, n') ∧ id c = best.
Proof.
  intros Hn Hu Hf Hne Hbest. destruct (iterative_spec univ n target rpc want_peers fuel Hn Hu Hf) as (asked & [[got found] n'] & E & Hres).
  unfold lookup_result in Hres. destruct Hres as (Hs & _ & _ & Hgot & Hcov & _).
  destruct got as [|c rest].
  - exfalso. destruct (take_sort_nearest target (Z.to_nat K) (concat (buckets (routing n)))) as [_ (rest & Hp & Hl & _)].
    fold (rt_closest (routing n) target K) in *. destruct (rt_closest (routing n) target K) as [|c init] eqn:Ei.
    + destruct (concat (buckets (routing n))); [done|]. cbn [length] in Hl. unfold K in Hl. lia.
    + assert (known (routing n) c) as Hkc by (unfold known; rewrite <- Hp; apply list_elem_of_here).
      destruct (Hcov c) as [(d & Hd & _)|[Hk _]]; [|destruct (known_wf _ c (proj1 Hn) Hkc) as [_ ?]; by rewrite <- (proj2 Hn)| |].
      * unfold seen. apply elem_of_app. left. apply list_elem_of_here.
      * by apply elem_of_nil in Hd.
      * done.
  - exists c, rest, found, n'. split; [done|]. destruct (decide (id c = best)) as [|Hneq]; [done|]. exfalso.
    destruct (Hgot c (list_elem_of_here _ _)) as (Hmet & _ & Hasked).
    assert (id c ∈ univ) as Hcu.
    { apply elem_of_app in Hmet as [Hmet|Hmet].
      - apply (proj1 Hu). unfold known. apply elem_of_take' in Hmet. by rewrite sort_by_perm in Hmet.
      - apply elem_of_concat_lookup in Hmet as (i & b & Hb & Hin). apply list_lookup_fmap_Some in Hb as (a & -> & _).
        by eapply (proj2 Hu). } apply list_elem_of_fmap in Hasked as ([r c'] & Hid & Ha).
    cbn [snd] in Hid. destruct (Hbest r c') as (d & Hd & Hself & Hnear); [congruence..|].
    assert (∀ e, near target c' e ↔ near target c e) as Hcc by (intros e; unfold near, cle, dist_cmp; by rewrite Hid).
    apply Hnear, Hcc. apply StronglySorted_inv in Hs as [_ Hhead]. rewrite Forall_forall in Hhead.
    destruct (Hcov d) as [(e & He & Hide)|[_ Hall]]; [|done| |apply Hall, list_elem_of_here].
    + unfold seen. apply elem_of_app. right. apply elem_of_concat_lookup. apply list_elem_of_lookup in Ha as [i Hi].
      exists i. eexists. split; [|exact Hd]. by rewrite list_lookup_fmap, Hi.
    + assert (near target c e) as Hce by (apply elem_of_cons in He as [->|He]; [apply ole_refl|by apply Hhead]).
      unfold near, cle, dist_cmp in *. by rewrite <- Hide.
Qed.

(** A network of two nodes, for the witnesses. *)
Definition two_contacts : Contact * Contact :=
  (mkContact (repeat x01 32) (Rns (repeat x01 16)), mkContact (repeat x02 32) (Rns (repeat x02 16))).
Definition two_node : Node := add_contact (node_new (repeat x00 32)) two_contacts.1.
Definition two_rpc (r : nat) (c : Contact) (q : Request) : result bytes Response := Ok (Nodes [two_contacts.2]).

Lemma two_node_ok : node_wf two_node ∧ network_within [repeat x01 32; repeat x02 32] two_node two_rpc.
Proof.
  split; [split; [|reflexivity]|split].
  - apply rt_insert_wf; [by apply rt_new_wf|reflexivity].
  - intros c Hc. apply known_rt_insert in Hc as [Hc|[-> _]]; [|left|by apply rt_new_wf|reflexivity].
    unfold known in Hc. replace (concat _) with (@nil Contact) in Hc by (vm_compute; reflexivity). by apply elem_of_nil in Hc.
  - intros r c q d Hd. apply list_elem_of_singleton in Hd as ->. right. left.
Qed.

Lemma lookup_correct_witness :
  ∃ asked res, iterative 3 two_node (repeat x03 32) two_rpc true = Some res ∧
    lookup_result two_node (repeat x03 32) two_rpc true asked res.
Proof.
  apply (lookup_correct [repeat x01 32; repeat x02 32]); [apply two_node_ok|apply two_node_ok|cbn; lia].
Defined.

Lemma lookup_converges_witness :
  ∃ c rest found n', iterative 3 two_node (repeat x03 32) two_rpc false = Some (c :: rest, found, n') ∧ id c = repeat x02 32.
Proof.
  apply (lookup_converges [repeat x01 32; repeat x02 32]); [apply two_node_ok|apply two_node_ok|cbn; lia|vm_compute; discriminate|].
  intros r c Hc Hne. exists two_contacts.2. split; [left|]. split; [vm_compute; discriminate|].
  unfold near, cle, dist_cmp. rewrite !elem_of_cons, elem_of_nil in Hc. destruct Hc as [->|[?|[]]]; [|done].
  vm_compute. intros H. by apply H.
Defined.

(** ** The network service *)

Lemma usable_rewritten claimed conn : usable_addr claimed = true → usable_addr (rewrite_claimed_addr claimed conn) = true.
Proof. destruct claimed as [s| | |], conn as [[]| | |]; done. Qed.

Definition store_usable (s : PeerStore) : Prop := ∀ k l e, entries s !! k = Some l → e ∈ l → usable_addr e.1 = true.
Definition node_usable (n : Node) : Prop :=
  (∀ c, known (routing n) c → usable_addr (addr c) = true) ∧ store_usable (store n).

Lemma store_add_usable now s key p : store_usable s → usable_addr p = true → store_usable (store_add now s key p).
Proof.
  intros Hs Hp k l e. unfold store_add. cbn [entries]. rewrite lookup_insert. case_decide; [|apply Hs].
  intros [= <-] He. apply add_to_list_sub in He as [->|He]; [done|].
  destruct (entries s !! key) as [l0|] eqn:E; [by apply (Hs key l0)|by apply elem_of_nil in He].
Qed.

Lemma store_add_wf now s key p : store_wf s → store_wf (store_add now s key p).
Proof.
  intros Hs k l. unfold store_add. cbn [entries]. rewrite lookup_insert. case_decide; [|apply Hs]. intros [= <-].
  apply add_to_list_wf. destruct (entries s !! key) eqn:E; [by apply (Hs key)|by split; [|constructor]].
Qed.

Lemma pop_length {A} (l l' : list A) : pop l = Some l' → length l = S (length l').
Proof.
  unfold pop. destruct l as [|x l]; [done|]. intros E. apply (inj Some) in E as <-. destruct (exists_last (l := x :: l)) as (k & y & ->); [done|].
  rewrite removelast_last, length_app. cbn. lia.
Qed.

Lemma drop_farthest_entries r r' : drop_farthest r = Some r' → entries_of r = S (entries_of r').
Proof.
  destruct r as [|nodes|ps nodes|]; cbn [drop_farthest]; [done| | |done].
  - destruct (pop nodes) eqn:E; [|done]. intros [= <-]. by apply pop_length.
  - destruct (pop nodes) eqn:E.
    + intros [= <-]. apply pop_length in E. cbn. lia.
    + destruct (pop ps) eqn:E'; [|done]. intros [= <-]. apply pop_length in E'. cbn. lia.
Qed.

Lemma drop_farthest_None r : drop_farthest r = None → entries_of r = 0%nat.
Proof. destruct r as [|[]|[] []|]; done. Qed.

(** The reply fits, or there is nothing left to shed. *)
Lemma encode_bounded_spec enc me r :
  blen (encode_bounded enc me r) <= MAX_REPLY_LEN ∨ ∃ r', entries_of r' = 0%nat ∧ encode_bounded enc me r = enc r' me.
Proof.
  unfold encode_bounded. remember (entries_of r) as fuel eqn:Ef. revert r Ef.
  induction fuel as [|fuel IH]; intros r Ef; cbn [bounded_loop]; destruct (Z.leb_spec (blen (enc r me)) MAX_REPLY_LEN); auto.
  - right. by exists r.
  - destruct (drop_farthest r) as [r'|] eqn:E.
    + apply IH. apply drop_farthest_entries in E. lia.
    + apply drop_farthest_None in E. lia.
Qed.


