(* ===== verification/SelfEnc.v ===== *)
(** * Self-encryption of shards ([crates/epix-selfenc/src/lib.rs])

    Splitting a file into chunks, encrypting each under a content-derived or
    random key, reassembling from untrusted shards, and the sealed data-map.
    BLAKE3, its key derivation and the AEAD cipher are parameters; the random
    nonce of a sealed data-map is an argument. *)
From S2P Require Import Prelude Ordered.
From Stdlib Require Import ZArith Lia Strings.Byte Strings.String.
From stdpp Require Import base list sorting strings gmap.
#[local] Open Scope Z_scope.

Inductive Mode := SaltedConvergent | RandomKey.

Definition KDF_CONTEXT : bytes := bstr "epixnet-selfenc-v1".
Definition CHUNK_SIZE : Z := 1024 * 1024.

(** [[u8; 32]]. *)
Abbreviation Hash := bytes.

Record ChunkRef := mkChunk { plain_hash : Hash; cipher_addr : Hash; clen : Z }.
Record Encrypted := mkEncrypted {
  enc_mode : Mode; chunks : list ChunkRef; shards : list (Hash * bytes); file_key : option Hash }.

Inductive SelfEncError :=
  | MissingShard (a : Hash)
  | CorruptShard (a : Hash)
  | DecryptFailed (i : Z)
  | PlaintextHashMismatch (i : Z)
  | DatamapDecryptFailed
  | MalformedDatamap.

(** [slice::chunks(n)]. The data's length bounds the number of chunks. *)
Fixpoint chunks_of (n : nat) (fuel : nat) (data : bytes) : list bytes :=
  match fuel, data with
  | S fuel, _ :: _ => take n data :: chunks_of n fuel (drop n data)
  | _, _ => []
  end.

Definition split (data : bytes) : list bytes :=
  match data with
  | [] => [[]]
  | _ => chunks_of (Z.to_nat CHUNK_SIZE) (length data) data
  end.

Definition NONCE_CHUNK : byte := x01.

Definition nonce_for (tag : byte) (index : Z) : bytes := tag :: le64 index ++ repeat x00 15.

Definition zero_hash : Hash := repeat x00 32.

Section selfenc.
Context (b3 : bytes → Hash) (derive_key : bytes → bytes → Hash).
(** The AEAD: key, nonce, text. *)
Context (seal : Hash → bytes → bytes → bytes) (unseal : Hash → bytes → bytes → option bytes).

Definition convergent_key (salt : bytes) (own prev1 prev2 : Hash) (i : Z) : Hash :=
  derive_key KDF_CONTEXT (salt ++ own ++ prev1 ++ prev2 ++ le64 i).

Definition random_key (key : bytes) (i : Z) : Hash := derive_key KDF_CONTEXT (key ++ le64 i).

(** One chunk: its data-map entry and its shard. *)
Definition encrypt_chunk (key : Hash) (i : Z) (chunk : bytes) : ChunkRef * (Hash * bytes) :=
  let ct := seal key (nonce_for NONCE_CHUNK i) chunk in
  (mkChunk (b3 chunk) (b3 ct) (wrap32 (blen chunk)), (b3 ct, ct)).

(** [prev1] and [prev2] are the hashes of the two chunks before. *)
Fixpoint convergent_loop (salt : bytes) (i : Z) (prev1 prev2 : Hash) (plain : list bytes) : list (ChunkRef * (Hash * bytes)) :=
  match plain with
  | [] => []
  | c :: plain => encrypt_chunk (convergent_key salt (b3 c) prev1 prev2 i) i c :: convergent_loop salt (i + 1) (b3 c) prev1 plain
  end.

Fixpoint random_loop (key : Hash) (i : Z) (plain : list bytes) : list (ChunkRef * (Hash * bytes)) :=
  match plain with
  | [] => []
  | c :: plain => encrypt_chunk (random_key key i) i c :: random_loop key (i + 1) plain
  end.

Definition encrypt_convergent (data salt : bytes) : Encrypted :=
  let out := convergent_loop salt 0 zero_hash zero_hash (split data) in
  mkEncrypted SaltedConvergent (map fst out) (map snd out) None.

Definition encrypt_random_key (data : bytes) (key : Hash) : Encrypted :=
  let out := random_loop key 0 (split data) in
  mkEncrypted RandomKey (map fst out) (map snd out) (Some key).

Section decrypt.
Context (mode : Mode) (key_material : bytes) (fetch : Hash → option bytes).

Definition decrypt_chunk (i : Z) (prev1 prev2 : Hash) (chunk : ChunkRef) : result SelfEncError bytes :=
  match fetch (cipher_addr chunk) with
  | None => Err (MissingShard (cipher_addr chunk))
  | Some ct =>
    if negb (bool_decide (b3 ct = cipher_addr chunk)) then Err (CorruptShard (cipher_addr chunk)) else
    let key := match mode with
               | SaltedConvergent => convergent_key key_material (plain_hash chunk) prev1 prev2 i
               | RandomKey => random_key key_material i
               end in
    match unseal key (nonce_for NONCE_CHUNK i) ct with
    | None => Err (DecryptFailed i)
    | Some pt => if negb (bool_decide (b3 pt = plain_hash chunk)) then Err (PlaintextHashMismatch i) else Ok pt
    end
  end.

Fixpoint decrypt_loop (i : Z) (prev1 prev2 : Hash) (cs : list ChunkRef) : result SelfEncError bytes :=
  match cs with
  | [] => Ok []
  | c :: cs =>
    pt ← decrypt_chunk i prev1 prev2 c;
    rest ← decrypt_loop (i + 1) (plain_hash c) prev1 cs;
    Ok (pt ++ rest)
  end.

Definition decrypt (cs : list ChunkRef) : result SelfEncError bytes := decrypt_loop 0 zero_hash zero_hash cs.
End decrypt.

(** ** The data-map *)

Definition mode_byte (m : Mode) : byte := match m with SaltedConvergent => x00 | RandomKey => x01 end.

Definition chunk_bytes (c : ChunkRef) : bytes := plain_hash c ++ cipher_addr c ++ le32 (clen c).

Definition serialize_datamap (cs : list ChunkRef) (m : Mode) : bytes :=
  mode_byte m :: le32 (wrap32 (blen cs)) ++ concat (map chunk_bytes cs).

Definition body_len_matches (count body_len : Z) : bool := body_len =? count * 68.

Definition read_chunk (e : bytes) : ChunkRef := mkChunk (take 32 e) (take 32 (drop 32 e)) (le_val (drop 64 e)).

Fixpoint read_chunks (count : nat) (body : bytes) : list ChunkRef :=
  match count with
  | O => []
  | S count => read_chunk (take 68 body) :: read_chunks count (drop 68 body)
  end.

Definition deserialize_datamap (bs : bytes) : result SelfEncError (list ChunkRef * Mode) :=
  if blen bs <? 5 then Err MalformedDatamap else
  match bs with
  | [] => Err MalformedDatamap
  | b :: rest =>
    m ← (match b with x00 => Ok SaltedConvergent | x01 => Ok RandomKey | _ => Err MalformedDatamap end);
    let count := le_val (take 4 rest) in
    let body := drop 4 rest in
    if negb (body_len_matches count (blen body)) then Err MalformedDatamap
    else Ok (read_chunks (Z.to_nat count) body, m)
  end.

Definition datamap_key (viewing_key : Hash) : Hash := derive_key KDF_CONTEXT (viewing_key ++ bstr "datamap").

(** [nonce]: 24 fresh random bytes. *)
Definition seal_datamap (cs : list ChunkRef) (m : Mode) (viewing_key : Hash) (nonce : bytes) : Hash * bytes :=
  let sealed := nonce ++ seal (datamap_key viewing_key) nonce (serialize_datamap cs m) in
  (b3 sealed, sealed).

Definition open_datamap (sealed : bytes) (viewing_key : Hash) : result SelfEncError (list ChunkRef * Mode) :=
  if blen sealed <? 24 then Err DatamapDecryptFailed else
  match unseal (datamap_key viewing_key) (take 24 sealed) (drop 24 sealed) with
  | None => Err DatamapDecryptFailed
  | Some plain => deserialize_datamap plain
  end.
End selfenc.

(** ** Splitting *)

Lemma chunks_of_concat n fuel data : (0 < n)%nat → (length data <= fuel)%nat → concat (chunks_of n fuel data) = data.
Proof.
  intros Hn. revert data. induction fuel as [|fuel IH]; intros [|b data] Hf; [done|cbn [length] in Hf; lia|done|].
  cbn [chunks_of concat]. rewrite IH; [apply take_drop|]. rewrite length_drop. cbn [length] in *. lia.
Qed.

Lemma chunks_of_sizes n fuel data : (0 < n)%nat → Forall (λ c, (1 <= length c <= n)%nat) (chunks_of n fuel data).
Proof.
  intros Hn. revert data. induction fuel as [|fuel IH]; intros [|b data]; cbn [chunks_of]; [constructor..|].
  constructor; [|apply IH]. rewrite length_take. cbn [length]. lia.
Qed.

Lemma chunk_size_pos : (0 < Z.to_nat CHUNK_SIZE)%nat.
Proof. unfold CHUNK_SIZE. lia. Qed.

Lemma split_concat data : concat (split data) = data.
Proof.
  destruct data as [|b data]; [done|]. unfold split. apply chunks_of_concat; [apply chunk_size_pos|done].
Qed.

Section selfenc_facts.
Context (b3 : bytes → Hash) (derive_key : bytes → bytes → Hash).
Context (seal : Hash → bytes → bytes → bytes) (unseal : Hash → bytes → bytes → option bytes).

(** The documented law of the cipher. *)
Definition aead_law : Prop := ∀ k n pt, unseal k n (seal k n pt) = Some pt.

(** [fetch] serves every shard of an encrypted file. *)
Definition serves (fetch : Hash → option bytes) (sh : list (Hash * bytes)) : Prop :=
  ∀ a ct, (a, ct) ∈ sh → fetch a = Some ct.

Abbreviation enc_chunk := (encrypt_chunk b3 seal).

Lemma decrypt_encrypt_chunk mode km fetch key i p1 p2 c :
  aead_law → fetch (enc_chunk key i c).2.1 = Some (enc_chunk key i c).2.2 →
  key = (match mode with SaltedConvergent => convergent_key derive_key km (b3 c) p1 p2 i | RandomKey => random_key derive_key km i end) →
  decrypt_chunk b3 derive_key unseal mode km fetch i p1 p2 (enc_chunk key i c).1 = Ok c.
Proof.
  intros Hlaw Hf ->. unfold encrypt_chunk in *. cbn [fst snd] in *. unfold decrypt_chunk. cbn [cipher_addr plain_hash].
  rewrite Hf, bool_decide_true by done. cbn [negb]. rewrite Hlaw, bool_decide_true by done. done.
Qed.

Lemma convergent_decrypts salt fetch : aead_law → ∀ plain i p1 p2,
  serves fetch (map snd (convergent_loop b3 derive_key seal salt i p1 p2 plain)) →
  decrypt_loop b3 derive_key unseal SaltedConvergent salt fetch i p1 p2
    (map fst (convergent_loop b3 derive_key seal salt i p1 p2 plain)) = Ok (concat plain).
Proof.
  intros Hlaw. induction plain as [|c plain IH]; intros i p1 p2 Hs; [done|].
  cbn [convergent_loop map decrypt_loop concat] in *. rewrite (decrypt_encrypt_chunk SaltedConvergent); [|done| |done].
  - cbn [mbind result_bind]. assert (plain_hash (enc_chunk (convergent_key derive_key salt (b3 c) p1 p2 i) i c).1 = b3 c) as -> by done.
    rewrite IH; [done|]. intros a ct Hin. apply Hs. by right.
  - apply Hs. left.
Qed.

Lemma random_decrypts key fetch : aead_law → ∀ plain i p1 p2,
  serves fetch (map snd (random_loop b3 derive_key seal key i plain)) →
  decrypt_loop b3 derive_key unseal RandomKey key fetch i p1 p2 (map fst (random_loop b3 derive_key seal key i plain)) = Ok (concat plain).
Proof.
  intros Hlaw. induction plain as [|c plain IH]; intros i p1 p2 Hs; [done|].
  cbn [random_loop map decrypt_loop concat] in *. rewrite (decrypt_encrypt_chunk RandomKey); [|done| |done].
  - cbn [mbind result_bind]. rewrite IH; [done|]. intros a ct Hin. apply Hs. by right.
  - apply Hs. left.
Qed.

Lemma convergent_hashes salt i p1 p2 plain :
  map plain_hash (map fst (convergent_loop b3 derive_key seal salt i p1 p2 plain)) = map b3 plain.
Proof. revert i p1 p2. induction plain as [|c plain IH]; intros; cbn; [done|]. by rewrite IH. Qed.

Lemma random_hashes key i plain :
  map plain_hash (map fst (random_loop b3 derive_key seal key i plain)) = map b3 plain.
Proof. revert i. induction plain as [|c plain IH]; intros; cbn; [done|]. by rewrite IH. Qed.

(** What a successful decryption guarantees, whatever the shards. *)
Lemma decrypt_pieces mode km fetch : ∀ cs i p1 p2 out,
  decrypt_loop b3 derive_key unseal mode km fetch i p1 p2 cs = Ok out →
  ∃ pieces, out = concat pieces ∧ map b3 pieces = map plain_hash cs ∧
    Forall (λ c, ∃ ct, fetch (cipher_addr c) = Some ct ∧ b3 ct = cipher_addr c) cs.
Proof.
  induction cs as [|c cs IH]; intros i p1 p2 out; cbn [decrypt_loop].
  { intros [= <-]. by exists []. }
  unfold decrypt_chunk. destruct (fetch (cipher_addr c)) as [ct|] eqn:Ef; [|done].
  case_bool_decide as Hc; cbn [negb]; [|done]. destruct (unseal _ _ ct) as [pt|]; [|done].
  case_bool_decide as Hp; cbn [negb mbind result_bind]; [|done].
  destruct (decrypt_loop _ _ _ _ _ _ _ _ _ cs) as [rest|] eqn:E; [|done]. intros [= <-].
  destruct (IH _ _ _ _ E) as (pieces & -> & Hm & Hall). exists (pt :: pieces). cbn. split_and!; [done|by rewrite Hp, Hm|].
  constructor; [by exists ct|done].
Qed.

Lemma map_inj_on {A B} (f : A → B) (l k : list A) :
  (∀ x y, x ∈ l → f y = f x → y = x) → map f k = map f l → k = l.
Proof.
  revert k. induction l as [|x l IH]; intros [|y k] Hf E; try done. injection E as E1 E2. f_equal.
  - apply Hf; [left|done].
  - apply IH; [|done]. intros a b Ha. apply Hf. by right.
Qed.
End selfenc_facts.

(** ** The data-map format *)

Definition chunk_wf (c : ChunkRef) : Prop := length (plain_hash c) = 32%nat ∧ length (cipher_addr c) = 32%nat ∧ is_u32 (clen c).

Lemma length_chunk_bytes c : chunk_wf c → length (chunk_bytes c) = 68%nat.
Proof. intros (H1 & H2 & _). unfold chunk_bytes. rewrite !length_app, length_le_bytes. lia. Qed.

Lemma read_chunk_bytes c : chunk_wf c → read_chunk (chunk_bytes c) = c.
Proof.
  intros (H1 & H2 & H3). destruct c as [p a l]. unfold read_chunk, chunk_bytes. cbn [plain_hash cipher_addr clen] in *. f_equal.
  - by rewrite take_app_length'.
  - rewrite drop_app_length' by done. by rewrite take_app_length'.
  - rewrite app_assoc, drop_app_length' by (rewrite length_app; lia). by apply le32_roundtrip.
Qed.

Lemma chunk_bytes_read e : length e = 68%nat → chunk_wf (read_chunk e) ∧ chunk_bytes (read_chunk e) = e.
Proof.
  intros He. unfold chunk_wf, read_chunk, chunk_bytes. cbn [plain_hash cipher_addr clen].
  assert (length (drop 64 e) = 4%nat) as Hd by (rewrite length_drop; lia). split.
  - rewrite !length_take, length_drop. split_and!; [lia|lia|]. pose proof (le_val_range (drop 64 e)) as Hr.
    rewrite Hd in Hr. unfold is_u32, u32_max. change (256 ^ Z.of_nat 4) with (2 ^ 32) in Hr. lia.
  - assert (le32 (le_val (drop 64 e)) = drop 64 e) as -> by (rewrite <- Hd at 1; apply le_bytes_val).
    rewrite <- (take_drop 32 e) at 4. f_equal. rewrite <- (take_drop 32 (drop 32 e)) at 2. f_equal. by rewrite drop_drop.
Qed.

Lemma read_chunks_bytes cs : Forall chunk_wf cs → read_chunks (length cs) (concat (map chunk_bytes cs)) = cs.
Proof.
  induction 1 as [|c cs Hc _ IH]; [done|]. cbn [length read_chunks map concat].
  rewrite take_app_length', drop_app_length', read_chunk_bytes, IH by (by rewrite ?length_chunk_bytes). done.
Qed.

Lemma chunk_bytes_read_all n body : length body = (n * 68)%nat →
  length (read_chunks n body) = n ∧ Forall chunk_wf (read_chunks n body) ∧ concat (map chunk_bytes (read_chunks n body)) = body.
Proof.
  revert body. induction n as [|n IH]; intros body Hb; cbn [read_chunks].
  { destruct body; [|done]. by split_and!; [|constructor|]. }
  destruct (IH (drop 68 body)) as (L & F & C); [rewrite length_drop; lia|].
  destruct (chunk_bytes_read (take 68 body)) as [W B]; [rewrite length_take; lia|].
  cbn [length map concat]. rewrite L, C, B. split_and!; [done|by constructor|apply take_drop].
Qed.

(** The format is canonical: what decodes is what encodes. *)
Lemma deserialize_spec bs cs m :
  deserialize_datamap bs = Ok (cs, m) ↔ Forall chunk_wf cs ∧ is_u32 (blen cs) ∧ bs = serialize_datamap cs m.
Proof.
  split.
  - unfold deserialize_datamap. destruct (Z.ltb_spec (blen bs) 5) as [|Hl]; [done|]. destruct bs as [|b rest]; [done|].
    destruct (match b with x00 => _ | x01 => _ | _ => _ end) as [m'|] eqn:Em; [|done]. cbn [mbind result_bind].
    unfold body_len_matches. destruct (Z.eqb_spec (blen (drop 4 rest)) (le_val (take 4 rest) * 68)) as [Hb|]; [|done]. cbn [negb].
    intros E. apply (f_equal (λ r, match r with Ok x => Some x | Err _ => None end)) in E. apply (inj Some), pair_eq in E as [<- <-].
    rewrite blen_cons in Hl. assert (length (take 4 rest) = 4%nat) as Ht by (rewrite length_take; unfold blen in Hl; lia).
    pose proof (le_val_range (take 4 rest)) as Hr. rewrite Ht in Hr. change (256 ^ Z.of_nat 4) with (2 ^ 32) in Hr.
    set (count := le_val (take 4 rest)) in *.
    destruct (chunk_bytes_read_all (Z.to_nat count) (drop 4 rest)) as (L & F & C); [unfold blen in Hb; lia|].
    assert (blen (read_chunks (Z.to_nat count) (drop 4 rest)) = count) as Hc by (unfold blen; lia).
    split_and!; [done|unfold is_u32, u32_max; lia|]. unfold serialize_datamap. rewrite Hc, C.
    assert (wrap32 count = count) as -> by (apply Z.mod_small; lia).
    assert (le32 count = take 4 rest) as -> by (unfold count; rewrite <- Ht at 1; apply le_bytes_val). rewrite take_drop.
    f_equal. by destruct b; try done; injection Em as <-.
  - intros (HF & Hn & ->). unfold deserialize_datamap, serialize_datamap.
    assert (wrap32 (blen cs) = blen cs) as -> by (apply Z.mod_small; unfold is_u32, u32_max in Hn; lia).
    rewrite (proj2 (Z.ltb_ge _ 5)) by (rewrite blen_cons, blen_app, blen_le_bytes; pose proof (blen_nonneg (concat (map chunk_bytes cs))); lia).
    rewrite take_app_length', drop_app_length' by done. rewrite le32_roundtrip by done.
    assert (blen (concat (map chunk_bytes cs)) = blen cs * 68) as Hb.
    { clear Hn. induction HF as [|c cs Hc _ IH]; [done|]. cbn [map concat]. rewrite blen_app, blen_cons, IH.
      unfold blen at 1. rewrite length_chunk_bytes by done. lia. }
    unfold body_len_matches. rewrite Hb, Z.eqb_refl. cbn [negb].
    assert (Z.to_nat (blen cs) = length cs) as -> by (unfold blen; lia). rewrite read_chunks_bytes by done. by destruct m.
Qed.

(** ** Properties *)

(** C36: self-encryption loses nothing and trusts nobody. With a correct cipher,
    a reader with the key material reassembles exactly the file from its
    shards, in either mode, and the shards and data-map have one entry per
    chunk of the file. And whatever a shard store answers, a decryption that
    succeeds used only shards that hash to their addresses and returns chunks
    that hash to the data-map's entries: for a file whose chunks have no second
    preimage, it returns that file or an error. *)
Theorem selfenc_correct (b3 : bytes → Hash) (derive_key : bytes → bytes → Hash)
    (seal : Hash → bytes → bytes → bytes) (unseal : Hash → bytes → bytes → option bytes) (data km : bytes) :
  aead_law seal unseal →
  let conv := encrypt_convergent b3 derive_key seal data km in
  let rand := encrypt_random_key b3 derive_key seal data km in
  (∀ fetch, serves fetch (shards conv) → decrypt b3 derive_key unseal SaltedConvergent km fetch (chunks conv) = Ok data) ∧
  (∀ fetch, serves fetch (shards rand) → decrypt b3 derive_key unseal RandomKey km fetch (chunks rand) = Ok data) ∧
  (∀ mode key fetch cs out, decrypt b3 derive_key unseal mode key fetch cs = Ok out →
    ∃ pieces, out = concat pieces ∧ map b3 pieces = map plain_hash cs ∧
      Forall (λ c, ∃ ct, fetch (cipher_addr c) = Some ct ∧ b3 ct = cipher_addr c) cs) ∧
  ((∀ x y, x ∈ split data → b3 y = b3 x → y = x) → ∀ mode key fetch out,
    (decrypt b3 derive_key unseal mode key fetch (chunks conv) = Ok out → out = data) ∧
    (decrypt b3 derive_key unseal mode key fetch (chunks rand) = Ok out → out = data)).
Proof.
  intros Hlaw conv rand. unfold conv, rand, encrypt_convergent, encrypt_random_key, decrypt. cbn [chunks shards]. split_and!.
  - intros fetch Hs. rewrite convergent_decrypts by done. by rewrite split_concat.
  - intros fetch Hs. rewrite random_decrypts by done. by rewrite split_concat.
  - intros mode key fetch cs out. apply decrypt_pieces.
  - intros Hinj mode key fetch out.
    split; intros (pieces & -> & Hm & _)%decrypt_pieces; rewrite ?convergent_hashes, ?random_hashes in Hm;
      apply (map_inj_on b3) in Hm as ->; try done; apply split_concat.
Qed.

Definition toy_shards (e : Encrypted) (a : Hash) : option bytes :=
  snd <$> find (λ s : Hash * bytes, bool_decide (s.1 = a)) (shards e).

Lemma selfenc_correct_witness :
  let enc := encrypt_convergent (λ b, b) (λ _ m, m) (λ k n pt, x2a :: pt) [x01; x02; x03] [x07] in
  decrypt (λ b, b) (λ _ m, m) (λ k n ct, Some (tail ct)) SaltedConvergent [x07] (toy_shards enc) (chunks enc) = Ok [x01; x02; x03].
Proof.
  refine (proj1 (selfenc_correct (λ b, b) (λ _ m, m) (λ k n pt, x2a :: pt) (λ k n ct, Some (tail ct)) [x01; x02; x03] [x07] _) _ _).
  - intros k n pt. reflexivity.
  - intros a ct Hin. apply list_elem_of_In in Hin. vm_compute in Hin. destruct Hin as [E|[]].
    apply pair_eq in E as [<- <-]. vm_compute. reflexivity.
Defined.

(** The sealed data-map opens to exactly what was sealed, with any 24-byte
    nonce, and its inner format is canonical: the decoder accepts precisely the
    encodings of well-formed maps, whatever bytes it is given, and anything
    shorter, longer or of an unknown mode is refused. *)
Theorem datamap_canonical (b3 : bytes → Hash) (derive_key : bytes → bytes → Hash)
    (seal : Hash → bytes → bytes → bytes) (unseal : Hash → bytes → bytes → option bytes) (viewing_key nonce : bytes) :
  aead_law seal unseal → length nonce = 24%nat →
  (∀ cs m, Forall chunk_wf cs → is_u32 (blen cs) →
    let '(root, sealed) := seal_datamap b3 derive_key seal cs m viewing_key nonce in
    root = b3 sealed ∧ open_datamap derive_key unseal sealed viewing_key = Ok (cs, m)) ∧
  (∀ bs cs m, deserialize_datamap bs = Ok (cs, m) ↔ Forall chunk_wf cs ∧ is_u32 (blen cs) ∧ bs = serialize_datamap cs m).
Proof.
  intros Hlaw Hn. split; [|apply deserialize_spec]. intros cs m Hcs Hlen. unfold seal_datamap. split; [done|].
  unfold open_datamap. rewrite (proj2 (Z.ltb_ge _ 24)).
  - rewrite take_app_length', drop_app_length', Hlaw by done. by apply deserialize_spec.
  - rewrite blen_app. pose proof (blen_nonneg (seal (datamap_key derive_key viewing_key) nonce (serialize_datamap cs m))).
    assert (blen nonce = 24) by (unfold blen; by rewrite Hn). lia.
Qed.

Lemma datamap_canonical_witness :
  open_datamap (λ _ m, m) (λ k n ct, Some ct)
    (seal_datamap (λ b, b) (λ _ m, m) (λ k n pt, pt) [mkChunk (repeat x01 32) (repeat x02 32) 7] RandomKey [x09] (repeat x00 24)).2 [x09]
  = Ok ([mkChunk (repeat x01 32) (repeat x02 32) 7], RandomKey).
Proof.
  refine (proj2 (proj1 (datamap_canonical (λ b, b) (λ _ m, m) (λ k n pt, pt) (λ k n ct, Some ct) [x09] (repeat x00 24) _ _)
    [mkChunk (repeat x01 32) (repeat x02 32) 7] RandomKey _ _)).
  - intros k n pt. reflexivity.
  - reflexivity.
  - apply Forall_singleton. unfold chunk_wf, is_u32, u32_max. cbn. lia.
  - unfold is_u32, u32_max, blen. cbn. lia.
Defined.
