(* ===== verification/Verify.v ===== *)
(** * content.json verification ([crates/epix-content/src/verify.rs])

    Who may sign a file, which rules govern it, and everything that is checked
    before a content.json is accepted: signatures, delegated signer lists,
    certificates, archiving, paths, sizes and merge files. The xite around a
    file is a record of lookups; the regex engine and the JSON parser are
    parameters; sums of sizes wrap as in a release build. *)
From S2P Require Import Prelude Ordered Json Canonical Crypt Content Text.
From Stdlib Require Import ZArith Lia Strings.Byte Floats.SpecFloat.
From stdpp Require Import base list sorting strings gmap.
#[local] Open Scope Z_scope.

(** [VerifyError]: the message sent back on the wire. *)
Abbreviation VerifyError := bytes (only parsing).

Record VerifyContext := mkCtx {
  xite_address : bytes;
  loaded_content : bytes → option json;
  size_limit_bytes : Z;
  resolve_xid : bytes → list bytes;
  read_file : bytes → option bytes
}.

Definition root_path : bytes := bstr "content.json".

Section verify.
Context `{C : Crypto} (float_to_string : Z → bytes).
(** [regex::Regex::new(pattern)] then [is_match]; [None] on a bad pattern. *)
Context (regex_is_match : bytes → bytes → option bool).
(** [serde_json::from_slice]. *)
Context (from_slice : bytes → option json).

Definition regex_full_match (pattern text : bytes) : bool :=
  default false (regex_is_match (bstr "^(?:" ++ pattern ++ bstr ")$") text).
Definition regex_prefix_match (pattern text : bytes) : bool :=
  default false (regex_is_match (bstr "^(?:" ++ pattern ++ bstr ")") text).

(** ** Paths *)

(** [data/xite/content.json] gives [data/xite/]. *)
Definition dirname (path : bytes) : bytes :=
  match cut_after_last x2f path with Some (d, _) => trim_start x2f d | None => [] end.

Definition parent_content_path (inner_path : bytes) : bytes :=
  match rsplit_once x2f (trim_end x2f (dirname inner_path)) with
  | Some (up, _) => up ++ bstr "/content.json"
  | None => root_path
  end.

Definition user_dir_segment (parent : json) (inner_path : bytes) : option bytes :=
  let parent_inner := default root_path (get_str parent (bstr "inner_path")) in
  let rest := default inner_path (str_strip_prefix (dirname parent_inner) inner_path) in
  s ← head (split_on x2f (trim_start x2f rest));
  if bool_decide (s = []) then None else Some s.

Definition is_control (c : Z) : bool := ((0 <=? c) && (c <=? 31)) || ((127 <=? c) && (c <=? 159)).
Definition forbidden_char (c : Z) : bool :=
  is_control c || existsb (Z.eqb c) (map byte_val (bstr "\:*?<>|")) || (c =? 34).

Definition reserved_name (segment : bytes) : bool :=
  let base := default segment (head (split_on x2e segment)) in
  existsb (λ n : bytes, bool_decide (base = n))
    [bstr "CON"; bstr "PRN"; bstr "AUX"; bstr "NUL"; bstr "CONOUT$"; bstr "CONIN$"] ||
  ((blen base =? 4) && (starts_with (bstr "COM") base || starts_with (bstr "LPT") base) &&
   match index base 3 with
   | Some b => (48 <=? byte_val b) && (byte_val b <=? 57) && negb (byte_val b =? 48)
   | None => false
   end).

Definition is_valid_relative_path (path : bytes) : bool :=
  if bool_decide (path = []) || starts_with (bstr "/") path then false
  else if existsb (λ s, bool_decide (s = bstr "..") || bool_decide (s = bstr ".")) (split_on x2f path) then false
  else if existsb forbidden_char (chars path) then false
  else negb (existsb reserved_name (split_on x2f path)).

(** ** Rules *)

Definition str_list (v : option (list json)) : list bytes := omap as_str (default [] v).

Definition resolved_signers (ctx : VerifyContext) (signers : list bytes) : list bytes :=
  let signers := signers ++ concat (map (resolve_xid ctx) (List.filter (contains_byte x2e) signers)) in
  if bool_decide (xite_address ctx ∈ signers) then signers else signers ++ [xite_address ctx].

(** [valid_signers] of the root file. *)
Definition root_signers (content : json) (ctx : VerifyContext) : list bytes :=
  let src := default content (loaded_content ctx root_path) in
  resolved_signers ctx (str_list (get_array src (bstr "signers"))).

(** A larger number wins, a longer string wins, objects merge per key, lists
    append, anything else keeps the current value. *)
Fixpoint merge_rule_value (val cur : json) : json :=
  match val, cur with
  | JStr v, JStr c => if blen c <? blen v then JStr v else cur
  | JArr v, JArr c => JArr (c ++ v)
  | JObj v, JObj c =>
    JObj ((fix go (v : list (bytes * json)) (c : btree bytes json) : btree bytes json :=
      match v with
      | [] => c
      | (k, vv) :: v =>
        go v (match bt_get c k with
              | Some cv => bt_insert k (merge_rule_value vv cv) c
              | None => bt_insert k vv c
              end)
      end) v c)
  | (JInt _ | JFloat _), (JInt _ | JFloat _) =>
    if f64_lt (default (S754_zero false) (as_f64 cur)) (default (S754_zero false) (as_f64 val)) then val else cur
  | _, _ => cur
  end.

Definition merge_entry (obj : btree bytes json) (e : bytes * json) : btree bytes json :=
  match bt_get obj e.1 with
  | None => bt_insert e.1 e.2 obj
  | Some cur => bt_insert e.1 (merge_rule_value e.2 cur) obj
  end.

Definition zeroed : json := JObj [(bstr "max_size", JInt 0); (bstr "max_size_optional", JInt 0)].

Definition apply_permission_rule (user_urn : bytes) (obj : btree bytes json) (r : bytes * json) : btree bytes json :=
  if negb (regex_prefix_match r.1 user_urn) then obj else
  match as_object (match r.2 with JNull => zeroed | extra => extra end) with
  | None => obj
  | Some extra => foldl merge_entry obj extra
  end.

Definition user_content_rules (parent : json) (inner_path : bytes) (content : json) : option json :=
  user_contents ← jget parent (bstr "user_contents");
  user_address ← user_dir_segment parent inner_path;
  let cert_user_id := default (bstr "n-a") (get_str content (bstr "cert_user_id")) in
  let cert_auth_type := default (bstr "n-a") (get_str content (bstr "cert_auth_type")) in
  let user_urn := cert_auth_type ++ bstr "/" ++ cert_user_id in
  let rules := default (JObj [])
    (p ← get_object user_contents (bstr "permissions");
     match bt_get p user_address with Some r => Some r | None => bt_get p cert_user_id end) in
  let banned := bool_decide (rules = JBool false) in
  let obj := match rules with JObj m => m | _ => [] end in
  let obj := match get_object user_contents (bstr "permission_rules") with
             | Some prules => foldl (apply_permission_rule user_urn) obj prules
             | None => obj
             end in
  let obj := bt_insert (bstr "cert_signers") (default (JObj []) (jget user_contents (bstr "cert_signers"))) obj in
  let obj := match jget user_contents (bstr "cert_signers_pattern") with
             | Some pat => bt_insert (bstr "cert_signers_pattern") pat obj
             | None => obj
             end in
  let signers := default [] (v ← bt_get obj (bstr "signers"); as_array v) in
  let signers := if banned then signers else signers ++ [JStr user_address] in
  let obj := bt_insert (bstr "signers") (JArr signers) obj in
  let obj := bt_insert (bstr "user_address") (JStr user_address) obj in
  Some (JObj (bt_insert (bstr "includes_allowed") (JBool false) obj)).

(** The content.json of the directory of the first [cut] segments. *)
Definition ancestor_path (parts : list bytes) (cut : nat) : bytes :=
  let parent_dir := str_join (bstr "/") (take cut parts) in
  if bool_decide (parent_dir = []) then root_path else parent_dir ++ bstr "/content.json".

(** [cut] counts down: nearest ancestor first. *)
Fixpoint rules_walk (parts : list bytes) (inner_path : bytes) (content : json) (ctx : VerifyContext) (cuts : nat) : option json :=
  match cuts with
  | O => None
  | S cut =>
    match loaded_content ctx (ancestor_path parts cut) with
    | None => rules_walk parts inner_path content ctx cut
    | Some parent =>
      let relative := str_join (bstr "/") (drop cut parts) in
      match get_object parent (bstr "includes") with
      | Some includes => bt_get includes relative
      | None =>
        match jget parent (bstr "user_contents") with
        | Some _ => user_content_rules parent inner_path content
        | None => rules_walk parts inner_path content ctx cut
        end
      end
    end
  end.

Definition get_rules (inner_path : bytes) (content : json) (ctx : VerifyContext) : option json :=
  if bool_decide (inner_path = root_path)
  then Some (JObj [(bstr "signers", JArr (map JStr (root_signers content ctx)))])
  else let parts := split_on x2f inner_path in rules_walk parts inner_path content ctx (length parts - 1).

Definition valid_signers (inner_path : bytes) (content : json) (ctx : VerifyContext) : list bytes :=
  if bool_decide (inner_path = root_path) then root_signers content ctx
  else resolved_signers ctx (str_list (rules ← get_rules inner_path content ctx; get_array rules (bstr "signers"))).

Definition signs_required : Z := 1.

Definition looks_like_name (s : bytes) : bool :=
  contains_byte x2e s && negb (contains_byte x40 s) && negb (contains_byte x2f s).

Definition user_content_xid_names (parent : json) (inner_path : bytes) : list bytes :=
  let dir := match user_dir_segment parent inner_path with Some d => [d] | None => [] end in
  let granted := match jget parent (bstr "user_contents") with
    | None => []
    | Some uc => concat (map (λ node, concat (map (λ entry, str_list (get_array entry (bstr "signers")))
        (bt_values (default [] (get_object uc node))))) [bstr "permissions"; bstr "permission_rules"])
    end in
  dedup (Ordered.sort (List.filter looks_like_name (dir ++ granted))).

(** ** Certificates *)

Definition verify_cert_sign (user_address auth_type user_name issuer_address sig : bytes) : bool :=
  verify (user_address ++ bstr "#" ++ auth_type ++ bstr "/" ++ user_name) issuer_address sig.

Definition cert_issuers (rules : json) (domain : bytes) : list bytes :=
  match (m ← jget rules (bstr "cert_signers"); v ← jget m domain; as_array v) with
  | Some a => omap as_str a
  | None =>
    match get_str rules (bstr "cert_signers_pattern") with
    | Some pat => if regex_full_match pat domain then [domain] else []
    | None => []
    end
  end.

Definition verify_cert (inner_path : bytes) (content : json) (ctx : VerifyContext) : result VerifyError bool :=
  match get_rules inner_path content ctx with
  | None => Err (bstr "No rules for this file")
  | Some rules =>
    let has_signers := match get_object rules (bstr "cert_signers") with Some m => negb (blen m =? 0) | None => false end in
    let has_pattern := bool_decide (is_Some (get_str rules (bstr "cert_signers_pattern"))) in
    if negb has_signers && negb has_pattern then Ok true else
    match get_str content (bstr "cert_user_id") with
    | None => Err (bstr "Missing cert_user_id")
    | Some cert_user_id =>
      if negb (count_byte x40 cert_user_id =? 1) then Err (bstr "Invalid domain in cert_user_id") else
      match rsplit_once x40 cert_user_id with
      | None => Err (bstr "Invalid domain in cert_user_id")
      | Some (name, domain) =>
        match cert_issuers rules domain with
        | [] => Err (bstr "Invalid cert signer: " ++ domain)
        | (cert_address :: _) as issuers =>
          if bool_decide (bstr "chain" ∈ issuers) then Ok true else
          Ok (verify_cert_sign (default [] (get_str rules (bstr "user_address")))
                (default [] (get_str content (bstr "cert_auth_type"))) name cert_address
                (default [] (get_str content (bstr "cert_sign"))))
        end
      end
    end
  end.

(** ** Content rules *)

Definition keys_of (content : json) (node : bytes) : list bytes := bt_keys (default [] (get_object content node)).

Definition file_sizes (content : json) (node : bytes) : list Z :=
  List.filter (λ s, 0 <=? s) (omap (λ f, get_i64 f (bstr "size")) (bt_values (default [] (get_object content node)))).

(** [Iterator::sum] of [i64]. *)
Definition sum_file_sizes (content : json) (node : bytes) : Z :=
  foldl (λ acc s, wrap_i64 (acc + s)) 0 (file_sizes content node).

(** The first item that fails, as the error it raises. *)
Definition all_or {A} (check : A → option VerifyError) (l : list A) : result VerifyError unit :=
  foldr (λ x r, match check x with Some e => Err e | None => r end) (Ok tt) l.

Definition unless (b : bool) (e : VerifyError) : result VerifyError unit := if b then Err e else Ok tt.

Definition items_error (rel : bytes) (data : json) (e : bytes * json) : option VerifyError :=
  limit ← as_i64 e.2;
  let count := match (v ← jget data e.1; as_array v) with Some a => blen a | None => 0 end in
  if limit <? count
  then Some (bstr "Too many items in " ++ rel ++ bstr "." ++ e.1 ++ bstr ": " ++ dec count ++ bstr " > " ++ dec limit)
  else None.

(** The JSON of a declared data file, when it can be read. *)
Definition data_json (ctx : VerifyContext) (inner_path rel : bytes) : option json :=
  if negb (ends_with rel (bstr "data.json")) then None else
  let dir := match rsplit_once x2f inner_path with Some (d, _) => d ++ bstr "/" | None => [] end in
  bs ← read_file ctx (dir ++ rel); from_slice bs.

Definition check_items (ctx : VerifyContext) (inner_path : bytes) (max_items : btree bytes json) (rel : bytes) : result VerifyError unit :=
  match data_json ctx inner_path rel with
  | None => Ok tt
  | Some data => all_or (items_error rel data) max_items
  end.

(** What every content.json must satisfy. *)
Definition check_shape (inner_path : bytes) (content : json) (ctx : VerifyContext) : result VerifyError unit :=
  _ ← (match get_str content (bstr "address") with
       | Some addr => unless (negb (bool_decide (addr = xite_address ctx)))
           (bstr "Wrong xite address: " ++ addr ++ bstr " != " ++ xite_address ctx)
       | None => Ok tt end);
  _ ← (match get_str content (bstr "inner_path") with
       | Some ip => unless (negb (bool_decide (replace_byte x5c x2f ip = replace_byte x5c x2f inner_path))) (bstr "Wrong inner_path: " ++ ip)
       | None => Ok tt end);
  _ ← all_or (λ p, if is_valid_relative_path p then None else Some (bstr "Invalid relative path: " ++ p))
        (keys_of content (bstr "files") ++ keys_of content (bstr "files_optional") ++ keys_of content (bstr "files_merged"));
  all_or (λ p, if bool_decide (p ∈ keys_of content (bstr "files") ∨ p ∈ keys_of content (bstr "files_optional"))
               then Some (bstr "Merge file also declared as a hashed file: " ++ p) else None)
    (keys_of content (bstr "files_merged")).

(** What the rules of a non-root file require. *)
Definition check_include (inner_path : bytes) (content : json) (raw_len : Z) (ctx : VerifyContext) (rules : json) : result VerifyError unit :=
  let content_size := wrap_i64 (raw_len + sum_file_sizes content (bstr "files")) in
  let content_size_optional := sum_file_sizes content (bstr "files_optional") in
  _ ← (match get_i64 rules (bstr "max_size") with
       | Some max => unless (max <? content_size) (bstr "Include too large " ++ dec content_size ++ bstr "B > " ++ dec max ++ bstr "B")
       | None => Ok tt end);
  _ ← (match get_i64 rules (bstr "max_size_optional") with
       | Some max => unless (max <? content_size_optional)
           (bstr "Include optional files too large " ++ dec content_size_optional ++ bstr "B > " ++ dec max ++ bstr "B")
       | None => Ok tt end);
  _ ← (match get_str rules (bstr "files_allowed") with
       | Some pat => all_or (λ p, if regex_full_match pat p then None else Some (bstr "File not allowed: " ++ p)) (keys_of content (bstr "files"))
       | None => Ok tt end);
  _ ← (match get_str rules (bstr "files_allowed_optional") with
       | Some pat => all_or (λ p, if regex_full_match pat p then None else Some (bstr "Optional file not allowed: " ++ p)) (keys_of content (bstr "files_optional"))
       | None => Ok tt end);
  _ ← all_or (λ p, match get_object rules (bstr "merge_files") with
                   | Some a => if bool_decide (is_Some (bt_get a p)) then None else Some (bstr "Merge file not allowed: " ++ p)
                   | None => Some (bstr "Merge file not allowed: " ++ p)
                   end) (keys_of content (bstr "files_merged"));
  _ ← (match get_object rules (bstr "max_items") with
       | Some max_items => foldr (λ rel r, _ ← check_items ctx inner_path max_items rel; r) (Ok tt) (keys_of content (bstr "files"))
       | None => Ok tt end);
  unless (bool_decide (jget rules (bstr "includes_allowed") = Some (JBool false)) && negb (blen (keys_of content (bstr "includes")) =? 0))
    (bstr "Includes not allowed").

Definition verify_content_rules (inner_path : bytes) (content : json) (raw_len : Z) (ctx : VerifyContext) : result VerifyError unit :=
  _ ← check_shape inner_path content ctx;
  if bool_decide (inner_path = root_path) then
    unless (size_limit_bytes ctx <? raw_len)
      (bstr "Content too large " ++ dec raw_len ++ bstr " B > " ++ dec (size_limit_bytes ctx) ++ bstr " B, aborting task...")
  else match get_rules inner_path content ctx with
       | None => Err (bstr "No rules")
       | Some rules => check_include inner_path content raw_len ctx rules
       end.

(** ** The whole check *)

Definition number_or_zero (v : option json) : f64 := default (f64_of_Z 0) (v ← v; as_f64 v).

Definition is_archived (inner_path : bytes) (content : json) (ctx : VerifyContext) : bool :=
  match (d ← str_strip_suffix inner_path (bstr "/content.json"); rsplit_once x2f d) with
  | None => false
  | Some (_, dir) =>
    match (parent ← loaded_content ctx (parent_content_path inner_path); jget parent (bstr "user_contents")) with
    | None => false
    | Some uc =>
      let modified := number_or_zero (jget content (bstr "modified")) in
      f64_le modified (number_or_zero (jget uc (bstr "archived_before"))) ||
      f64_le modified (number_or_zero (a ← jget uc (bstr "archived"); jget a dir))
    end
  end.

(** Whether [address] signed [data], in either hash format. *)
Definition signed_by (signs : btree bytes json) (data address : bytes) : bool :=
  match (v ← bt_get signs address; as_str v) with
  | Some sig => verify data address sig || verify_keccak data address sig
  | None => false
  end.

(** The loop stops at the required count. *)
Fixpoint count_signs (signs : btree bytes json) (data : bytes) (required : Z) (signers : list bytes) (valid : Z) : Z :=
  match signers with
  | [] => valid
  | address :: signers =>
    let valid := if signed_by signs data address then valid + 1 else valid in
    if required <=? valid then valid else count_signs signs data required signers valid
  end.

Definition verify_content_file (inner_path : bytes) (content : json) (raw_len : Z) (ctx : VerifyContext) : result VerifyError unit :=
  match get_object content (bstr "signs") with
  | None => Err (bstr "Invalid old-style sign")
  | Some signs =>
    let signers := valid_signers inner_path content ctx in
    let root := bool_decide (inner_path = root_path) in
    _ ← unless (root && (1 <? blen signers) &&
                negb (verify (dec signs_required ++ bstr ":" ++ str_join (bstr ",") signers) (xite_address ctx)
                        (default [] (get_str content (bstr "signers_sign"))))) (bstr "Invalid signers_sign!");
    _ ← (if root then Ok tt else ok ← verify_cert inner_path content ctx; unless (negb ok) (bstr "Invalid cert!"));
    _ ← unless (negb root && is_archived inner_path content ctx) (bstr "This file is archived!");
    let valid := count_signs signs (signed_data float_to_string content) signs_required signers 0 in
    _ ← unless (valid <? signs_required) (bstr "Valid signs: " ++ dec valid ++ bstr "/" ++ dec signs_required);
    verify_content_rules inner_path content raw_len ctx
  end.

Definition is_single_owner_signed (content : json) (address : bytes) : bool :=
  (match get_array content (bstr "signers") with Some a => blen a =? 0 | None => true end) &&
  verify_signer float_to_string content address.
End verify.

(** ** Success of a chain of checks *)

Lemma bind_ok {E B} (r : result E unit) (k : result E B) b : (_ ← r; k) = Ok b ↔ r = Ok tt ∧ k = Ok b.
Proof. destruct r as [[]|e]; cbn; split; [auto|by intros [_ ?]|done|by intros [? _]]. Qed.

Lemma unless_ok b e : unless b e = Ok tt ↔ b = false.
Proof. by destruct b. Qed.

Lemma all_or_ok {A} (f : A → option bytes) l : all_or f l = Ok tt ↔ ∀ x, x ∈ l → f x = None.
Proof.
  induction l as [|x l IH]; cbn [all_or foldr]; [split; [intros _ x Hx; by apply elem_of_nil in Hx|done]|].
  fold (all_or f l). destruct (f x) as [e|] eqn:E.
  - split; [done|]. intros Hall. specialize (Hall x (list_elem_of_here _ _)). congruence.
  - rewrite IH. split; [intros Hall y [->|Hy]%elem_of_cons; auto|intros Hall y Hy; apply Hall; by right].
Qed.

Lemma over_none l n (e : bytes) : (if l <? n then Some e else None) = None ↔ n <= l.
Proof. destruct (Z.ltb_spec l n); split; (done || lia). Qed.

Lemma bool_decide_negb_false P `{Decision P} : negb (bool_decide P) = false ↔ P.
Proof. by rewrite negb_false_iff, bool_decide_eq_true. Qed.

Lemma opt_check_ok {A} (o : option A) (f : A → result bytes unit) :
  match o with Some a => f a | None => Ok tt end = Ok tt ↔ ∀ a, o = Some a → f a = Ok tt.
Proof. destruct o as [a|]; split; [by intros ? ? [= <-]|by intros H; apply H|done|done]. Qed.

Section verify_facts.
Context `{C : Crypto} (fts : Z → bytes) (re : bytes → bytes → option bool) (parse : bytes → option json).

(** ** What acceptance means *)

(** The declared fields that every content.json must get right. *)
Definition well_shaped (inner_path : bytes) (content : json) (ctx : VerifyContext) : Prop :=
  (∀ addr, get_str content (bstr "address") = Some addr → addr = xite_address ctx) ∧
  (∀ ip, get_str content (bstr "inner_path") = Some ip → replace_byte x5c x2f ip = replace_byte x5c x2f inner_path) ∧
  (∀ node p, node ∈ [bstr "files"; bstr "files_optional"; bstr "files_merged"] → p ∈ keys_of content node → is_valid_relative_path p = true) ∧
  (∀ p, p ∈ keys_of content (bstr "files_merged") →
    p ∉ keys_of content (bstr "files") ∧ p ∉ keys_of content (bstr "files_optional")).

(** The limits the rules of a non-root file set. *)
Definition within_rules (inner_path : bytes) (content : json) (raw_len : Z) (ctx : VerifyContext) (rules : json) : Prop :=
  (∀ max, get_i64 rules (bstr "max_size") = Some max → wrap_i64 (raw_len + sum_file_sizes content (bstr "files")) <= max) ∧
  (∀ max, get_i64 rules (bstr "max_size_optional") = Some max → sum_file_sizes content (bstr "files_optional") <= max) ∧
  (∀ pat p, get_str rules (bstr "files_allowed") = Some pat → p ∈ keys_of content (bstr "files") → regex_full_match re pat p = true) ∧
  (∀ pat p, get_str rules (bstr "files_allowed_optional") = Some pat → p ∈ keys_of content (bstr "files_optional") → regex_full_match re pat p = true) ∧
  (∀ p, p ∈ keys_of content (bstr "files_merged") → ∃ allowed v, get_object rules (bstr "merge_files") = Some allowed ∧ bt_get allowed p = Some v) ∧
  (∀ limits rel data key lim l, get_object rules (bstr "max_items") = Some limits → rel ∈ keys_of content (bstr "files") →
    data_json parse ctx inner_path rel = Some data → (key, lim) ∈ limits → as_i64 lim = Some l →
    match get_array data key with Some a => blen a <= l | None => 0 <= l end) ∧
  (jget rules (bstr "includes_allowed") = Some (JBool false) → keys_of content (bstr "includes") = []).

Definition acceptable (inner_path : bytes) (content : json) (raw_len : Z) (ctx : VerifyContext) : Prop :=
  (∃ signs a, get_object content (bstr "signs") = Some signs ∧ a ∈ valid_signers re inner_path content ctx ∧
    signed_by signs (signed_data fts content) a = true) ∧
  well_shaped inner_path content ctx ∧
  (inner_path = root_path → raw_len <= size_limit_bytes ctx ∧
    (1 < blen (valid_signers re inner_path content ctx) →
     verify (bstr "1:" ++ str_join (bstr ",") (valid_signers re inner_path content ctx)) (xite_address ctx)
       (default [] (get_str content (bstr "signers_sign"))) = true)) ∧
  (inner_path ≠ root_path → verify_cert re inner_path content ctx = Ok true ∧ is_archived inner_path content ctx = false ∧
    ∃ rules, get_rules re inner_path content ctx = Some rules ∧ within_rules inner_path content raw_len ctx rules).

Lemma check_shape_ok p c ctx : check_shape p c ctx = Ok tt ↔ well_shaped p c ctx.
Proof.
  unfold check_shape, well_shaped. rewrite !bind_ok, !opt_check_ok, !all_or_ok.
  setoid_rewrite unless_ok. setoid_rewrite bool_decide_negb_false.
  assert ((∀ x, x ∈ keys_of c (bstr "files") ++ keys_of c (bstr "files_optional") ++ keys_of c (bstr "files_merged") →
      (if is_valid_relative_path x then None else Some (bstr "Invalid relative path: " ++ x)) = None) ↔
    (∀ node q, node ∈ [bstr "files"; bstr "files_optional"; bstr "files_merged"] → q ∈ keys_of c node → is_valid_relative_path q = true)) as ->.
  { setoid_rewrite elem_of_app. setoid_rewrite elem_of_app. split.
    - intros Hall node q Hn Hq. assert (q ∈ keys_of c (bstr "files") ∨ q ∈ keys_of c (bstr "files_optional") ∨ q ∈ keys_of c (bstr "files_merged")) as Hin.
      { rewrite !elem_of_cons, elem_of_nil in Hn. destruct Hn as [->|[->|[->|[]]]]; auto. }
      specialize (Hall q Hin). by destruct (is_valid_relative_path q).
    - intros Hall x Hx. assert (is_valid_relative_path x = true) as ->; [|done].
      destruct Hx as [Hx|[Hx|Hx]]; eapply Hall; try exact Hx; rewrite !elem_of_cons; auto. }
  assert ((∀ x, x ∈ keys_of c (bstr "files_merged") →
      (if bool_decide (x ∈ keys_of c (bstr "files") ∨ x ∈ keys_of c (bstr "files_optional"))
       then Some (bstr "Merge file also declared as a hashed file: " ++ x) else None) = None) ↔
    (∀ q, q ∈ keys_of c (bstr "files_merged") → q ∉ keys_of c (bstr "files") ∧ q ∉ keys_of c (bstr "files_optional"))) as ->.
  { split; intros Hall x Hx; specialize (Hall x Hx); case_bool_decide; tauto || done. }
  done.
Qed.

Lemma check_items_ok ctx p limits rel : check_items parse ctx p limits rel = Ok tt ↔
  ∀ data key lim l, data_json parse ctx p rel = Some data → (key, lim) ∈ limits → as_i64 lim = Some l →
    match get_array data key with Some a => blen a <= l | None => 0 <= l end.
Proof.
  unfold check_items. destruct (data_json parse ctx p rel) as [data|]; [|done]. rewrite all_or_ok. unfold items_error. split.
  - intros Hall data' key lim l [= <-] Hin Hl. specialize (Hall _ Hin). cbn [fst snd] in Hall. rewrite Hl in Hall. cbn [mbind option_bind] in Hall.
    change (v ← jget data key; as_array v) with (get_array data key) in Hall. destruct (get_array data key); by apply over_none in Hall.
  - intros Hall [key lim] Hin. cbn [fst snd]. destruct (as_i64 lim) as [l|] eqn:El; [|done]. cbn [mbind option_bind].
    specialize (Hall _ _ _ _ eq_refl Hin El). change (v ← jget data key; as_array v) with (get_array data key).
    destruct (get_array data key); by apply over_none.
Qed.

Lemma check_include_ok p c n ctx rules : check_include re parse p c n ctx rules = Ok tt ↔ within_rules p c n ctx rules.
Proof.
  unfold check_include, within_rules. rewrite !bind_ok, !opt_check_ok. setoid_rewrite all_or_ok. setoid_rewrite unless_ok.
  setoid_rewrite Z.ltb_ge.
  assert (∀ pat (l : list bytes) (msg : bytes → bytes), (∀ x, x ∈ l → (if regex_full_match re pat x then None else Some (msg x)) = None) ↔
    ∀ x, x ∈ l → regex_full_match re pat x = true) as Hre.
  { intros pat l msg. split; intros Hall x Hx; specialize (Hall x Hx); by destruct (regex_full_match re pat x). }
  setoid_rewrite Hre.
  assert ((∀ x, x ∈ keys_of c (bstr "files_merged") → match get_object rules (bstr "merge_files") with
       | Some a => if bool_decide (is_Some (bt_get a x)) then None else Some (bstr "Merge file not allowed: " ++ x)
       | None => Some (bstr "Merge file not allowed: " ++ x) end = None) ↔
    ∀ q, q ∈ keys_of c (bstr "files_merged") → ∃ allowed v, get_object rules (bstr "merge_files") = Some allowed ∧ bt_get allowed q = Some v) as ->.
  { split; intros Hall x Hx; specialize (Hall x Hx).
    - destruct (get_object rules _) as [a|]; [|done]. case_bool_decide as Hs; [|done]. destruct Hs as [v Hv]. by exists a, v.
    - destruct Hall as (a & v & -> & Hv). rewrite bool_decide_true; [done|]. by exists v. }
  assert ((∀ a, get_object rules (bstr "max_items") = Some a → foldr (λ rel r, _ ← check_items parse ctx p a rel; r) (Ok tt) (keys_of c (bstr "files")) = Ok tt) ↔
    ∀ limits rel data key lim l, get_object rules (bstr "max_items") = Some limits → rel ∈ keys_of c (bstr "files") →
    data_json parse ctx p rel = Some data → (key, lim) ∈ limits → as_i64 lim = Some l →
    match get_array data key with Some a => blen a <= l | None => 0 <= l end) as ->.
  { assert (∀ a l, foldr (λ rel r, _ ← check_items parse ctx p a rel; r) (Ok tt) l = Ok tt ↔ ∀ rel, rel ∈ l → check_items parse ctx p a rel = Ok tt) as Hf.
    { intros a l. induction l as [|x l IH]; cbn [foldr]; [split; [intros _ y Hy; by apply elem_of_nil in Hy|done]|].
      rewrite bind_ok, IH. split; [intros [? ?] y [->|Hy]%elem_of_cons; auto|intros Hall; split; [apply Hall; left|intros y Hy; apply Hall; by right]]. }
    setoid_rewrite Hf. setoid_rewrite check_items_ok. split; [intros Hall limits rel data key lim l Ho Hin; by apply Hall|intros Hall a Ho rel Hin data key lim l; by apply Hall]. }
  assert (bool_decide (jget rules (bstr "includes_allowed") = Some (JBool false)) && negb (blen (keys_of c (bstr "includes")) =? 0) = false ↔
    (jget rules (bstr "includes_allowed") = Some (JBool false) → keys_of c (bstr "includes") = [])) as ->.
  { case_bool_decide as Hi; cbn [andb]; [|tauto]. rewrite negb_false_iff, Z.eqb_eq. unfold blen.
    split; [intros H _; by destruct (keys_of c (bstr "includes"))|intros H; by rewrite (H Hi)]. }
  naive_solver.
Qed.

Lemma count_signs_spec signs data l v : 0 <= v <= 1 →
  (count_signs signs data 1 l v <? 1) = false ↔ v = 1 ∨ ∃ a, a ∈ l ∧ signed_by signs data a = true.
Proof.
  revert v. induction l as [|a l IH]; intros v Hv; cbn [count_signs].
  - rewrite Z.ltb_ge. split; [left; lia|]. intros [?|(a & Ha & _)]; [lia|by apply elem_of_nil in Ha].
  - destruct (signed_by signs data a) eqn:E.
    + rewrite (proj2 (Z.leb_le 1 (v + 1))) by lia. rewrite Z.ltb_ge. split; [intros _; right; exists a; split; [left|done]|lia].
    + destruct (Z.leb_spec 1 v).
      * rewrite Z.ltb_ge. split; [left; lia|lia].
      * rewrite IH by lia. split; intros [?|(b & Hb & Hs)]; [by left|right; exists b; split; [by right|done]|by left|right].
        apply elem_of_cons in Hb as [->|Hb]; [congruence|by exists b].
Qed.

Lemma cert_bind_ok (r : result bytes bool) e : (ok ← r; unless (negb ok) e) = Ok tt ↔ r = Ok true.
Proof. destruct r as [[]|]; done. Qed.

(** The checks of the source, in its order, decide acceptability. *)
Lemma verify_content_file_iff p c n ctx :
  verify_content_file fts re parse p c n ctx = Ok tt ↔ acceptable p c n ctx.
Proof.
  unfold verify_content_file, acceptable. destruct (get_object c (bstr "signs")) as [signs|].
  2:{ split; [done|]. by intros [(? & ? & ? & _) _]. }
  rewrite !bind_ok, !unless_ok. change signs_required with 1. rewrite count_signs_spec by lia. unfold verify_content_rules.
  rewrite bind_ok, check_shape_ok.
  assert ((0 = 1 ∨ ∃ a, a ∈ valid_signers re p c ctx ∧ signed_by signs (signed_data fts c) a = true) ↔
    (∃ signs0 a, Some signs = Some signs0 ∧ a ∈ valid_signers re p c ctx ∧ signed_by signs0 (signed_data fts c) a = true)) as ->.
  { split; [intros [?|(a & ? & ?)]; [done|by exists signs, a]|]. intros (s & a & [= <-] & ? & ?). right. by exists a. }
  change (dec 1 ++ bstr ":") with (bstr "1:"). case_bool_decide as Hp; cbn [andb negb].
  - rewrite unless_ok, Z.ltb_ge.
    assert ((1 <? blen (valid_signers re p c ctx)) && negb (verify (bstr "1:" ++ str_join (bstr ",") (valid_signers re p c ctx)) (xite_address ctx)
      (default [] (get_str c (bstr "signers_sign")))) = false ↔
      (1 < blen (valid_signers re p c ctx) → verify (bstr "1:" ++ str_join (bstr ",") (valid_signers re p c ctx)) (xite_address ctx)
       (default [] (get_str c (bstr "signers_sign"))) = true)) as <-.
    { destruct (Z.ltb_spec 1 (blen (valid_signers re p c ctx))); cbn [andb]; [|split; [lia|done]].
      rewrite negb_false_iff. split; [auto|intros Hx; by apply Hx]. }
    tauto.
  - rewrite cert_bind_ok.
    assert ((match get_rules re p c ctx with Some rules => check_include re parse p c n ctx rules | None => Err (bstr "No rules") end) = Ok tt ↔
      ∃ rules, get_rules re p c ctx = Some rules ∧ within_rules p c n ctx rules) as ->.
    { destruct (get_rules re p c ctx) as [rules|]; [rewrite check_include_ok|].
      - split; [by exists rules|]. by intros (? & [= <-] & ?).
      - split; [done|]. by intros (? & ? & _). }
    tauto.
Qed.

(** ** Rules come from above, and from the owner *)

(** [user_content_rules] reads two fields of the file it governs. *)
Lemma user_rules_frame parent p c c' :
  get_str c (bstr "cert_user_id") = get_str c' (bstr "cert_user_id") →
  get_str c (bstr "cert_auth_type") = get_str c' (bstr "cert_auth_type") →
  user_content_rules re parent p c = user_content_rules re parent p c'.
Proof. intros H1 H2. unfold user_content_rules. by rewrite H1, H2. Qed.

Lemma rules_walk_frame parts p c c' ctx ctx' cuts :
  get_str c (bstr "cert_user_id") = get_str c' (bstr "cert_user_id") →
  get_str c (bstr "cert_auth_type") = get_str c' (bstr "cert_auth_type") →
  (∀ cut, (cut < cuts)%nat → loaded_content ctx (ancestor_path parts cut) = loaded_content ctx' (ancestor_path parts cut)) →
  rules_walk re parts p c ctx cuts = rules_walk re parts p c' ctx' cuts.
Proof.
  intros H1 H2. induction cuts as [|cut IH]; intros Hctx; cbn [rules_walk]; [done|].
  rewrite <- Hctx by lia. rewrite IH by (intros; apply Hctx; lia).
  destruct (loaded_content ctx _) as [parent|]; [|done]. destruct (get_object parent _); [done|].
  by rewrite (user_rules_frame parent p c c' H1 H2).
Qed.

Lemma count_byte_app c s t : count_byte c (s ++ t) = count_byte c s + count_byte c t.
Proof. unfold count_byte. by rewrite List.filter_app, blen_app. Qed.

Lemma count_byte_none c s : c ∉ s → count_byte c s = 0.
Proof.
  induction s as [|b s IH]; [done|]. intros [Hb Hs]%not_elem_of_cons. unfold count_byte in *. cbn [List.filter].
  rewrite bool_decide_false by congruence. by apply IH.
Qed.

Lemma count_byte_join c ps : Forall (λ p, c ∉ p) ps → count_byte c (str_join [c] ps) = sat_sub (blen ps) 1.
Proof.
  induction 1 as [|p ps Hp HF IH]; [done|]. destruct ps as [|q ps].
  - cbn [str_join]. by rewrite count_byte_none.
  - change (str_join [c] (p :: q :: ps)) with (p ++ [c] ++ str_join [c] (q :: ps)).
    rewrite !count_byte_app, IH, count_byte_none by done. unfold count_byte. cbn [List.filter].
    rewrite bool_decide_true by done. unfold sat_sub, blen. cbn [length]. lia.
Qed.

(** The file's own content.json is not among the places its rules come from. *)
Lemma ancestor_path_ne p cut :
  (cut < length (split_on x2f p) - 1)%nat → ancestor_path (split_on x2f p) cut ≠ p.
Proof.
  intros Hc Heq. assert (Forall (λ s, x2f ∉ s) (split_on x2f p)) as HF by (apply Forall_forall; intros s; apply split_on_no_sep).
  assert (count_byte x2f p = blen (split_on x2f p) - 1) as Hp.
  { rewrite <- (str_join_split x2f p) at 1. rewrite count_byte_join by done. unfold sat_sub, blen. lia. }
  assert (count_byte x2f (ancestor_path (split_on x2f p) cut) <= Z.of_nat cut) as Hle; [|rewrite Heq, Hp in Hle; unfold blen in Hle; lia].
  unfold ancestor_path. case_bool_decide as Hd; [change (count_byte x2f root_path) with 0; lia|]. rewrite count_byte_app.
  change (bstr "/") with [x2f] in *. rewrite count_byte_join by (by apply Forall_take).
  change (count_byte x2f (bstr "/content.json")) with 1. unfold sat_sub, blen. rewrite length_take.
  destruct cut; [done|lia].
Qed.

(** ** Who the rules let sign *)

(** The strings an owner lists under [signers] in a rule. *)
Definition lists_signer (rule : json) (s : bytes) : Prop :=
  ∃ m l, rule = JObj m ∧ (bstr "signers", JArr l) ∈ m ∧ JStr s ∈ l.

Definition arr (v : option json) : list json := default [] (v ← v; as_array v).

Lemma arr_merge val cur x : x ∈ arr (Some (merge_rule_value val cur)) → x ∈ arr (Some cur) ∨ x ∈ arr (Some val).
Proof.
  unfold arr. cbn [mbind option_bind]. destruct val, cur; cbn; try (case_match; cbn); auto; try (by intros ?%elem_of_nil); set_solver.
Qed.

Lemma bt_get_in {V} (m : btree bytes V) k v : bt_get m k = Some v → (k, v) ∈ m.
Proof.
  induction m as [|[k' v'] m IH]; cbn [bt_get]; [done|]. destruct (cmp k k') eqn:E; [|done|by intros ?%IH; right].
  apply cmp_eq_iff in E as ->. intros [= ->]. left.
Qed.

Lemma merge_entry_signers obj e x : x ∈ arr (bt_get (merge_entry obj e) (bstr "signers")) →
  x ∈ arr (bt_get obj (bstr "signers")) ∨ (e.1 = bstr "signers" ∧ x ∈ arr (Some e.2)).
Proof.
  unfold merge_entry. destruct (bt_get obj e.1) as [cur|] eqn:E; rewrite bt_get_insert; case_decide as Hk.
  - rewrite Hk, E. intros [?|?]%arr_merge; auto.
  - auto.
  - intros Hx. right. auto.
  - auto.
Qed.

Lemma merge_entries_signers extra : ∀ obj x, x ∈ arr (bt_get (foldl merge_entry obj extra) (bstr "signers")) →
  x ∈ arr (bt_get obj (bstr "signers")) ∨ ∃ v, (bstr "signers", v) ∈ extra ∧ x ∈ arr (Some v).
Proof.
  induction extra as [|[k v] extra IH]; intros obj x; cbn [foldl]; [auto|].
  intros [Hx|(w & Hw & Hx)]%IH; [|right; exists w; split; [by right|done]].
  apply merge_entry_signers in Hx as [?|[Hk Hx]]; [by left|right]. cbn [fst snd] in *. subst k. exists v. split; [left|done].
Qed.

Lemma arr_lists v s : JStr s ∈ arr (Some v) → ∃ l, v = JArr l ∧ JStr s ∈ l.
Proof. unfold arr. destruct v as [| | | | |l|]; cbn; try (by intros ?%elem_of_nil). intros Hs. by exists l. Qed.

Lemma permission_rules_signers urn prules : ∀ obj s,
  JStr s ∈ arr (bt_get (foldl (apply_permission_rule re urn) obj prules) (bstr "signers")) →
  JStr s ∈ arr (bt_get obj (bstr "signers")) ∨ ∃ pat rule, (pat, rule) ∈ prules ∧ regex_prefix_match re pat urn = true ∧ lists_signer rule s.
Proof.
  induction prules as [|[pat rule] prules IH]; intros obj s; cbn [foldl]; [auto|].
  intros [Hx|(q & r & Hin & Hr)]%IH; [|right; exists q, r; split; [by right|done]].
  unfold apply_permission_rule in Hx. cbn [fst snd] in Hx. destruct (regex_prefix_match re pat urn) eqn:Em; cbn [negb] in Hx; [|by left].
  destruct (as_object _) as [extra|] eqn:Eo; [|by left].
  apply merge_entries_signers in Hx as [?|(v & Hv & Hx)]; [by left|right]. apply arr_lists in Hx as (l & -> & Hs).
  exists pat, rule. split; [left|]. split; [done|]. exists extra, l. split; [|done].
  destruct rule; cbn in Eo; try done.
  - injection Eo as <-. exfalso. rewrite !elem_of_cons, elem_of_nil in Hv. by destruct Hv as [Hv|[Hv|[]]].
  - by injection Eo as <-.
Qed.

(** The owner's [permissions] entry for a user. *)
Definition permission_of (uc : json) (user cert_user_id : bytes) : option json :=
  p ← get_object uc (bstr "permissions");
  match bt_get p user with Some r => Some r | None => bt_get p cert_user_id end.

(** What an owner's content.json says about who may sign [inner_path]. *)
Definition owner_grants (parent : json) (parts : list bytes) (cut : nat) (inner_path : bytes) (content : json) (d : bytes) : Prop :=
  match get_object parent (bstr "includes") with
  | Some includes => ∃ rule l, bt_get includes (str_join (bstr "/") (drop cut parts)) = Some rule ∧
      get_array rule (bstr "signers") = Some l ∧ JStr d ∈ l
  | None => ∃ uc user, jget parent (bstr "user_contents") = Some uc ∧ user_dir_segment parent inner_path = Some user ∧
      let cert_user_id := default (bstr "n-a") (get_str content (bstr "cert_user_id")) in
      let urn := default (bstr "n-a") (get_str content (bstr "cert_auth_type")) ++ bstr "/" ++ cert_user_id in
      (d = user ∧ permission_of uc user cert_user_id ≠ Some (JBool false)) ∨
      (∃ rule, permission_of uc user cert_user_id = Some rule ∧ lists_signer rule d) ∨
      (∃ prules pat rule, get_object uc (bstr "permission_rules") = Some prules ∧ (pat, rule) ∈ prules ∧
         regex_prefix_match re pat urn = true ∧ lists_signer rule d)
  end.

Lemma elem_of_str_list s l : s ∈ str_list l ↔ ∃ k, l = Some k ∧ JStr s ∈ k.
Proof.
  unfold str_list. rewrite list_elem_of_omap. split.
  - intros (x & Hx & Hs). destruct x; try done. injection Hs as ->. destruct l as [k|]; [by exists k|by apply elem_of_nil in Hx].
  - intros (k & -> & Hs). by exists (JStr s).
Qed.

Lemma user_rules_signers parent p c rules l d :
  user_content_rules re parent p c = Some rules → get_array rules (bstr "signers") = Some l → JStr d ∈ l →
  ∃ uc user, jget parent (bstr "user_contents") = Some uc ∧ user_dir_segment parent p = Some user ∧
    let cert_user_id := default (bstr "n-a") (get_str c (bstr "cert_user_id")) in
    let urn := default (bstr "n-a") (get_str c (bstr "cert_auth_type")) ++ bstr "/" ++ cert_user_id in
    (d = user ∧ permission_of uc user cert_user_id ≠ Some (JBool false)) ∨
    (∃ rule, permission_of uc user cert_user_id = Some rule ∧ lists_signer rule d) ∨
    (∃ prules pat rule, get_object uc (bstr "permission_rules") = Some prules ∧ (pat, rule) ∈ prules ∧
       regex_prefix_match re pat urn = true ∧ lists_signer rule d).
Proof.
  unfold user_content_rules. destruct (jget parent (bstr "user_contents")) as [uc|]; [|done]. cbn [mbind option_bind].
  destruct (user_dir_segment parent p) as [user|]; [|done]. cbn [mbind option_bind].
  set (cuid := default (bstr "n-a") (get_str c (bstr "cert_user_id"))).
  set (urn := default (bstr "n-a") (get_str c (bstr "cert_auth_type")) ++ bstr "/" ++ cuid).
  fold (permission_of uc user cuid). set (rules0 := default (JObj []) (permission_of uc user cuid)).
  set (obj0 := match rules0 with JObj m => m | _ => [] end).
  set (obj1 := match get_object uc (bstr "permission_rules") with Some prules => foldl (apply_permission_rule re urn) obj0 prules | None => obj0 end).
  set (obj2 := match jget uc (bstr "cert_signers_pattern") with Some pat => bt_insert _ pat _ | None => _ end).
  intros E Hl Hd. apply (inj Some) in E as <-. exists uc, user. split_and!; [done..|]. cbv zeta. fold cuid urn.
  unfold get_array in Hl. cbn [jget] in Hl. rewrite !bt_get_insert in Hl.
  rewrite !decide_False, decide_True in Hl by (vm_compute; congruence). cbn [mbind option_bind as_array] in Hl. injection Hl as <-.
  assert (JStr d ∈ arr (bt_get obj2 (bstr "signers")) ∨ (d = user ∧ permission_of uc user cuid ≠ Some (JBool false))) as [Hx|Hx]; [..|by left].
  { unfold arr. case_bool_decide as Hb; [by left|]. apply elem_of_app in Hd as [Hd|Hd]; [by left|right].
    apply list_elem_of_singleton in Hd. injection Hd as ->. split; [done|]. intros Hf. apply Hb. unfold rules0. by rewrite Hf. }
  assert (JStr d ∈ arr (bt_get obj1 (bstr "signers"))) as Hx1.
  { revert Hx. unfold obj2. destruct (jget uc (bstr "cert_signers_pattern")); rewrite !bt_get_insert, !decide_False by (vm_compute; congruence); done. }
  right. assert (JStr d ∈ arr (bt_get obj0 (bstr "signers")) → ∃ rule, permission_of uc user cuid = Some rule ∧ lists_signer rule d) as H0.
  { unfold obj0, rules0. destruct (permission_of uc user cuid) as [rule|]; cbn [default from_option]; unfold Datatypes.id.
    - destruct rule as [| | | | | |m]; try (by intros ?%elem_of_nil). destruct (bt_get m (bstr "signers")) as [v|] eqn:Ev; [|by intros ?%elem_of_nil].
      intros (l & -> & Hs)%arr_lists. exists (JObj m). split; [done|]. exists m, l. by split_and!; [|apply bt_get_in|].
    - by intros ?%elem_of_nil. }
  unfold obj1 in Hx1. destruct (get_object uc (bstr "permission_rules")) as [prules|]; [|left; by apply H0].
  apply permission_rules_signers in Hx1 as [Hx1|(pat & rule & ? & ? & ?)]; [left; by apply H0|right; by exists prules, pat, rule].
Qed.

Lemma rules_walk_signers parts p c ctx cuts rules l d :
  rules_walk re parts p c ctx cuts = Some rules → get_array rules (bstr "signers") = Some l → JStr d ∈ l →
  ∃ cut parent, (cut < cuts)%nat ∧ loaded_content ctx (ancestor_path parts cut) = Some parent ∧ owner_grants parent parts cut p c d.
Proof.
  intros Hr Hl Hd. induction cuts as [|cut IH]; cbn [rules_walk] in Hr; [done|].
  destruct (loaded_content ctx (ancestor_path parts cut)) as [parent|] eqn:Ep.
  2:{ destruct (IH Hr) as (k & q & Hk & ?). exists k, q. split; [lia|done]. }
  destruct (get_object parent (bstr "includes")) as [includes|] eqn:Ei.
  { exists cut, parent. split_and!; [lia|done|]. unfold owner_grants. rewrite Ei. by exists rules, l. }
  destruct (jget parent (bstr "user_contents")) as [uc|] eqn:Eu.
  { exists cut, parent. split_and!; [lia|done|]. unfold owner_grants. rewrite Ei. by eapply user_rules_signers. }
  destruct (IH Hr) as (k & q & Hk & ?). exists k, q. split; [lia|done].
Qed.
End verify_facts.

Lemma elem_of_resolved_signers ctx l a : a ∈ resolved_signers ctx l ↔
  a = xite_address ctx ∨ ∃ d, d ∈ l ∧ (a = d ∨ (contains_byte x2e d = true ∧ a ∈ resolve_xid ctx d)).
Proof.
  unfold resolved_signers. set (r := l ++ _).
  assert (∀ a, a ∈ r ↔ ∃ d, d ∈ l ∧ (a = d ∨ (contains_byte x2e d = true ∧ a ∈ resolve_xid ctx d))) as Hr.
  { intros b. unfold r. rewrite elem_of_app. split.
    - intros [Hb|Hb]; [by exists b; auto|]. apply list_elem_of_In, in_concat in Hb as (k & Hk & Hb).
      apply in_map_iff in Hk as (d & <- & Hd). apply list_elem_of_In, elem_of_bfilter in Hd as [Hd Hc].
      apply list_elem_of_In in Hb. exists d. auto.
    - intros (d & Hd & [->|[Hc Hb]]); [by left|right]. apply list_elem_of_In, in_concat. exists (resolve_xid ctx d).
      split; [|by apply list_elem_of_In]. by apply in_map, list_elem_of_In, elem_of_bfilter. }
  case_bool_decide as Hx; [|rewrite elem_of_app, list_elem_of_singleton]; rewrite <- Hr; [|tauto].
  split; [by right|]. by intros [->|?].
Qed.
(** ** Relative paths *)

(** Walking a path's segments from a directory: [..] climbs, [.] and empty
    segments stay, anything else descends. The deepest directory first. *)
Definition resolve (base segments : list bytes) : list bytes :=
  foldl (λ dir s, if bool_decide (s = [] ∨ s = bstr ".") then dir
                  else if bool_decide (s = bstr "..") then tail dir else s :: dir) base segments.

Lemma resolve_descends base segments :
  Forall (λ s, s ≠ bstr ".." ∧ s ≠ bstr ".") segments →
  resolve base segments = rev (List.filter (λ s, negb (bool_decide (s = []))) segments) ++ base.
Proof.
  intros HF. revert base. induction HF as [|s segments [H1 H2] _ IH]; intros base; [done|].
  unfold resolve in *. cbn [foldl List.filter]. rewrite (bool_decide_false (s = bstr "..")) by done.
  destruct (decide (s = [])) as [Hs|Hs].
  - rewrite bool_decide_true by auto. rewrite (bool_decide_true (s = [])) by done. cbn [negb]. apply IH.
  - rewrite bool_decide_false by tauto. rewrite (bool_decide_false (s = [])) by done. cbn [negb].
    rewrite IH. cbn [rev]. by rewrite <- app_assoc.
Qed.

Lemma utf8_ascii c b : is_scalar c = true → b ∈ utf8 c → byte_val b < 128 → byte_val b = c.
Proof.
  intros Hc. assert (0 <= c < 1114112) as Hr by (unfold is_scalar in Hc; lia). unfold utf8.
  assert (∀ z, 128 <= z < 256 → byte_val (byte_of z) = z) as Hb by (intros z Hz; rewrite byte_val_of; apply Z.mod_small; lia).
  assert (0 <= c / 64 /\ 0 <= c / 4096 /\ 0 <= c / 262144) as (D1 & D2 & D3) by (split_and!; apply Z.div_pos; lia).
  destruct (Z.ltb_spec c 128).
  { intros ->%list_elem_of_singleton _. rewrite byte_val_of. apply Z.mod_small. lia. }
  assert (∀ z, 0 <= z mod 64 < 64) as Hm by (intros z; apply Z.mod_pos_bound; lia).
  pose proof (Hm c). pose proof (Hm (c / 64)). pose proof (Hm (c / 4096)).
  destruct (Z.ltb_spec c 2048).
  { assert (c / 64 < 32) by (apply Z.div_lt_upper_bound; lia).
    intros [->|[->|Hx%elem_of_nil]%elem_of_cons]%elem_of_cons; [| |done]; rewrite Hb by lia; lia. }
  destruct (Z.ltb_spec c 65536).
  { assert (c / 4096 < 16) by (apply Z.div_lt_upper_bound; lia).
    intros [->|[->|[->|Hx%elem_of_nil]%elem_of_cons]%elem_of_cons]%elem_of_cons; [| | |done]; rewrite Hb by lia; lia. }
  assert (c / 262144 < 5) by (apply Z.div_lt_upper_bound; lia).
  intros [->|[->|[->|[->|Hx%elem_of_nil]%elem_of_cons]%elem_of_cons]%elem_of_cons]%elem_of_cons; [| | | |done]; rewrite Hb by lia; lia.
Qed.

(** An ASCII byte of a string is one of its characters. *)
Lemma ascii_in_chars p b : is_str p = true → b ∈ p → byte_val b < 128 → byte_val b ∈ chars p.
Proof.
  intros [Hf Hall]%is_str_chars Hb Hlt. rewrite <- Hf in Hb. apply list_elem_of_In, in_flat_map in Hb as (c & Hc & Hin).
  apply list_elem_of_In in Hin. rewrite (utf8_ascii c b); [by apply list_elem_of_In| |done|done].
  rewrite Forall_forall in Hall. apply Hall. by apply list_elem_of_In.
Qed.

(** ** Sizes *)

Definition total (l : list Z) : Z := foldr Z.add 0 l.

Lemma wrap_i64_small x : i64_min <= x <= i64_max → wrap_i64 x = x.
Proof. unfold i64_min, i64_max, wrap_i64. intros Hx. rewrite Z.mod_small; lia. Qed.

Lemma total_nonneg l : Forall (λ s, 0 <= s) l → 0 <= total l.
Proof. induction 1; cbn [total foldr]; [done|]. unfold total in *. lia. Qed.

Lemma sum_wraps l : ∀ acc, 0 <= acc → Forall (λ s, 0 <= s) l → acc + total l <= i64_max →
  foldl (λ acc s, wrap_i64 (acc + s)) acc l = acc + total l.
Proof.
  induction l as [|s l IH]; intros acc Ha Hl Hs; cbn [foldl total foldr]; [lia|].
  apply Forall_cons in Hl as [Hs0 Hl]. pose proof (total_nonneg l Hl). change (total (s :: l)) with (s + total l) in Hs.
  unfold i64_max, i64_min in *. rewrite wrap_i64_small by (unfold i64_max, i64_min; lia). rewrite IH by (done || lia). unfold total. lia.
Qed.

Lemma file_sizes_nonneg c node : Forall (λ s, 0 <= s) (file_sizes c node).
Proof. apply Forall_forall. intros s [_ Hs]%elem_of_bfilter. by apply Z.leb_le. Qed.

(** ** Properties *)

(** C4: a content.json is accepted exactly when: one of its valid signers signed
    its canonical form (in either hash format); its declared address, path and
    file names are its own and safe, and no merge file is also hashed; for the
    root, the size limit holds and a signer list longer than the xite itself
    is signed by the xite; for any other file, rules were found, its
    certificate is accepted, it is not archived, and every limit of the rules
    holds. *)
Theorem verify_accepts_iff `{C : Crypto} fts re parse inner_path content raw_len ctx :
  verify_content_file fts re parse inner_path content raw_len ctx = Ok tt ↔
  acceptable fts re parse inner_path content raw_len ctx.
Proof. apply verify_content_file_iff. Qed.

(** C5: who may sign a file below the root is decided above it. A valid signer
    is the xite, or was granted (directly, or as an xID name that resolves to
    it) by a content.json of a strictly higher directory: by the include entry
    of the file, as the user the directory is named after unless the owner
    banned them, or in a permission entry the owner wrote. Nothing the file says
    about itself counts but its certificate name, and its own stored copy is
    never consulted. *)
Theorem signer_authority re p c ctx a :
  p ≠ root_path → a ∈ valid_signers re p c ctx →
  (a = xite_address ctx ∨ ∃ d cut parent, (a = d ∨ (contains_byte x2e d = true ∧ a ∈ resolve_xid ctx d)) ∧
     (cut < length (split_on x2f p) - 1)%nat ∧ loaded_content ctx (ancestor_path (split_on x2f p) cut) = Some parent ∧
     owner_grants re parent (split_on x2f p) cut p c d) ∧
  (∀ c' ctx', get_str c (bstr "cert_user_id") = get_str c' (bstr "cert_user_id") →
     get_str c (bstr "cert_auth_type") = get_str c' (bstr "cert_auth_type") →
     (∀ q, q ≠ p → loaded_content ctx q = loaded_content ctx' q) →
     get_rules re p c ctx = get_rules re p c' ctx').
Proof.
  intros Hp Ha. split.
  - unfold valid_signers in Ha. rewrite bool_decide_false in Ha by done.
    apply elem_of_resolved_signers in Ha. destruct Ha as [Ha|(d & Hd & Had)]; [by left|right].
    apply elem_of_str_list in Hd as (l & Hl & Hdl). unfold get_rules in Hl. rewrite bool_decide_false in Hl by done.
    destruct (rules_walk re (split_on x2f p) p c ctx (length (split_on x2f p) - 1)) as [rules|] eqn:Er; [|done]. cbn [mbind option_bind] in Hl.
    destruct (rules_walk_signers re (split_on x2f p) p c ctx _ rules l d Er Hl Hdl) as (cut & parent & Hc & Hpar & Hg).
    by exists d, cut, parent.
  - intros c' ctx' H1 H2 Hctx. unfold get_rules. rewrite !bool_decide_false by done.
    apply rules_walk_frame; [done|done|]. intros cut Hc. apply Hctx. by apply ancestor_path_ne.
Qed.

(** A declared file name that passes cannot leave its directory: walked
    from any directory it only descends, on a system that separates with
    slashes or with backslashes; it is relative and holds no control
    character, quote, wildcard or drive separator, and no segment is a
    reserved device name. *)
Theorem relative_path_safe (p : bytes) :
  is_str p = true → is_valid_relative_path p = true →
  (∀ base, resolve base (split_on x2f p) = rev (List.filter (λ s, negb (bool_decide (s = []))) (split_on x2f p)) ++ base) ∧
  p ≠ [] ∧ head p ≠ Some x2f ∧
  (∀ b, b ∈ p → 32 <= byte_val b ∧ byte_val b ≠ 127 ∧ b ∉ bstr "\:*?<>|" ∧ b ≠ x22) ∧
  (∀ s, s ∈ split_on x2f p → reserved_name s = false).
Proof.
  intros Hstr. unfold is_valid_relative_path. case_bool_decide as Hp; cbn [orb]; [done|].
  destruct (starts_with (bstr "/") p) eqn:Hs; [done|].
  destruct (existsb _ (split_on x2f p)) eqn:Hd; [done|]. destruct (existsb forbidden_char (chars p)) eqn:Hf; [done|].
  intros Hr%negb_true_iff.
  assert (∀ A (f : A → bool) l, existsb f l = false → ∀ x, x ∈ l → f x = false) as Hex.
  { intros A f l Hl x Hx. destruct (f x) eqn:E; [|done]. rewrite <- Hl. symmetry. apply existsb_exists. exists x.
    by rewrite <- list_elem_of_In. }
  split_and!; [|done| | |by apply Hex].
  - intros base. apply resolve_descends, Forall_forall. intros s Hin. apply (Hex _ _ _ Hd) in Hin.
    apply orb_false_iff in Hin as [H1 H2]. by rewrite bool_decide_eq_false in H1, H2.
  - destruct p as [|b p]; [done|]. cbn. intros [= ->]. unfold starts_with in Hs. cbn [length take] in Hs. destruct p; by vm_compute in Hs.
  - intros b Hb. destruct (Z.lt_ge_cases (byte_val b) 128) as [Hlt|Hge].
    + pose proof (Hex _ _ _ Hf _ (ascii_in_chars p b Hstr Hb Hlt)) as Hc. unfold forbidden_char, is_control in Hc.
      rewrite !orb_false_iff in Hc. destruct Hc as [[[C1 C2] C3] C4]. pose proof (byte_val_range b). split_and!; [lia|lia| |intros ->; by vm_compute in C4].
      intros Hin. rewrite <- C3 in C4. assert (existsb (Z.eqb (byte_val b)) (map byte_val (bstr "\:*?<>|")) = true) as E; [|congruence].
      apply existsb_exists. exists (byte_val b). split; [apply in_map; by apply list_elem_of_In|apply Z.eqb_refl].
    + split_and!; [lia|lia| |intros ->; by vm_compute in Hge].
      intros Hin. apply list_elem_of_In in Hin. cbn in Hin. repeat (destruct Hin as [<-|Hin]; [by vm_compute in Hge|]). done.
Qed.

Lemma relative_path_safe_witness :
  resolve [bstr "site"] (split_on x2f (bstr "js/..all.js")) = [bstr "..all.js"; bstr "js"; bstr "site"].
Proof.
  destruct (relative_path_safe (bstr "js/..all.js")) as [H _]; [vm_compute; reflexivity|vm_compute; reflexivity|].
  rewrite H. vm_compute. reflexivity.
Defined.

(** ** Concrete contexts *)

(** A xite whose root grants [users/] directories and one include with a size
    limit; patterns match nothing. *)
Definition sample_ctx : VerifyContext := {|
  xite_address := bstr "epix1owner";
  loaded_content p :=
    if bool_decide (p = root_path)
    then Some (JObj [(bstr "includes", JObj [(bstr "inc/content.json", JObj [(bstr "max_size", JInt 1000); (bstr "signers", JArr [JStr (bstr "epix1guest")])])])])
    else if bool_decide (p = bstr "users/content.json")
    then Some (JObj [(bstr "inner_path", JStr (bstr "users/content.json"));
                     (bstr "user_contents", JObj [(bstr "permissions", JObj [(bstr "alice.epix", JObj [])])])])
    else None;
  size_limit_bytes := 10000;
  resolve_xid n := if bool_decide (n = bstr "alice.epix") then [bstr "epix1alice"] else [];
  read_file _ := None
|}.

Definition no_regex : bytes → bytes → option bool := λ _ _, Some false.

Definition alice_file : json := JObj [(bstr "cert_user_id", JStr (bstr "alice.epix"))].

Lemma signer_authority_witness :
  bstr "epix1alice" = bstr "epix1owner" ∨ ∃ d cut parent,
    (bstr "epix1alice" = d ∨ (contains_byte x2e d = true ∧ bstr "epix1alice" ∈ resolve_xid sample_ctx d)) ∧
    (cut < 2)%nat ∧ loaded_content sample_ctx (ancestor_path [bstr "users"; bstr "alice.epix"; bstr "content.json"] cut) = Some parent ∧
    owner_grants no_regex parent [bstr "users"; bstr "alice.epix"; bstr "content.json"] cut
      (bstr "users/alice.epix/content.json") alice_file d.
Proof.
  assert (bool_decide (bstr "epix1alice" ∈ valid_signers no_regex (bstr "users/alice.epix/content.json") alice_file sample_ctx) = true) as Hin
    by (vm_compute; reflexivity).
  apply bool_decide_eq_true in Hin.
  assert (bstr "users/alice.epix/content.json" ≠ root_path) as Hne by (vm_compute; discriminate).
  exact (proj1 (signer_authority no_regex (bstr "users/alice.epix/content.json") alice_file sample_ctx (bstr "epix1alice") Hne Hin)).
Defined.

Definition huge_file : json := JObj [(bstr "size", JInt 9223372036854775807)].
Definition oversized : json := JObj [(bstr "files", JObj [(bstr "a.bin", huge_file); (bstr "b.bin", huge_file)])].

(** The size limit of an include is exact as long as the declared sizes
    fit in 64 bits; beyond that the sum wraps, and a content.json that
    declares two files of the largest size passes a limit of a thousand
    bytes. *)
Theorem size_limit_wraps re parse :
  (∀ content raw_len max, 0 <= raw_len → raw_len + total (file_sizes content (bstr "files")) <= i64_max →
    wrap_i64 (raw_len + sum_file_sizes content (bstr "files")) <= max ↔ raw_len + total (file_sizes content (bstr "files")) <= max) ∧
  (∀ rules, get_rules re (bstr "inc/content.json") oversized sample_ctx = Some rules → get_i64 rules (bstr "max_size") = Some 1000) ∧
  total (file_sizes oversized (bstr "files")) = 2 ^ 64 - 2 ∧
  verify_content_rules re parse (bstr "inc/content.json") oversized 300 sample_ctx = Ok tt.
Proof.
  split_and!.
  - intros content n max Hn Ht. pose proof (file_sizes_nonneg content (bstr "files")) as Hs. pose proof (total_nonneg _ Hs).
    unfold sum_file_sizes. rewrite sum_wraps by (done || lia). rewrite Z.add_0_l, wrap_i64_small by (unfold i64_min in *; lia). done.
  - intros rules Hr. vm_compute in Hr. injection Hr as <-. vm_compute. reflexivity.
  - vm_compute. reflexivity.
  - vm_compute. reflexivity.
Qed.
