(* ===== verification/Bundle.v ===== *)
(** * Small-file bundles ([crates/epix-blob/src/bundle.rs])

    The assignment of small files to bundles: carrying the previous
    membership forward, appending new files to the tail, repacking a
    fragmented xite, and building the bundle bytes with each member's
    extent. BLAKE3 is a parameter. Sizes are below [2^64]. *)
From S2P Require Import Prelude Ordered.
From Stdlib Require Import ZArith Lia.
From stdpp Require Import base list sorting strings.
#[local] Open Scope Z_scope.

Definition BUNDLE_FILE_MAX : Z := 128 * 1024.
Definition BUNDLE_TARGET : Z := 256 * 1024.

Record Bundle := mkBundle { bid : bytes; bbytes : bytes; bmembers : list bytes }.

(** [rmembers]: path to bundle index, offset and length. *)
Record BundleResult := mkResult { rbundles : list Bundle; rmembers : btree bytes (Z * (Z * Z)) }.

Abbreviation Files := (btree bytes bytes).
Abbreviation Memberships := (list (list bytes)).

Definition is_bundleable (size : Z) : bool := size <? BUNDLE_FILE_MAX.

Section assign.
Context (blake3 : bytes → bytes).

(** [files[path]]: only ever indexed with a path of the map ([plan_paths]). *)
Definition file_of (files : Files) (path : bytes) : bytes := default [] (bt_get files path).

Definition bundle_size (files : Files) (b : list bytes) : Z :=
  foldr Z.add 0 (map (λ p, blen (file_of files p)) b).

Definition carry (files : Files) (prev : Memberships) : Memberships :=
  List.filter (λ b, negb (bool_decide (b = []))) (map (List.filter (bt_contains files)) prev).

Definition new_files (files : Files) (memberships : Memberships) : list bytes :=
  List.filter (λ p, negb (bool_decide (p ∈ concat memberships))) (bt_keys files).

Definition place (files : Files) (memberships : Memberships) (path : bytes) : Memberships :=
  match last memberships with
  | Some tail =>
    if bundle_size files tail <? BUNDLE_TARGET then removelast memberships ++ [tail ++ [path]] else memberships ++ [[path]]
  | None => memberships ++ [[path]]
  end.

Definition fragmented (files : Files) (memberships : Memberships) : Z :=
  blen (List.filter (λ b, bundle_size files b <? BUNDLE_TARGET / 2) (removelast memberships)).

Definition needs_repack (files : Files) (memberships : Memberships) : bool :=
  let n := blen memberships in (1 <? n) && (Z.max (n / 4) 2 <? fragmented files memberships).

(** Finished bundles, the current one and its size. *)
Definition repack_step (st : Memberships * (list bytes * Z)) (file : bytes * bytes) : Memberships * (list bytes * Z) :=
  let '(out, (current, size)) := st in
  let '(out, current, size) :=
    if (BUNDLE_TARGET <=? size) && negb (bool_decide (current = [])) then (out ++ [current], [], 0) else (out, current, size) in
  (out, (current ++ [file.1], size + blen file.2)).

Definition repack (files : Files) : Memberships :=
  let '(out, (current, _)) := foldl repack_step ([], ([], 0)) files in
  if bool_decide (current = []) then out else out ++ [current].

Definition pack_file (files : Files) (idx : Z) (st : bytes * btree bytes (Z * (Z * Z))) (path : bytes) : bytes * btree bytes (Z * (Z * Z)) :=
  let content := file_of files path in
  (st.1 ++ content, bt_insert path (idx, (blen st.1, blen content)) st.2).

Fixpoint build_loop (files : Files) (idx : Z) (memberships : Memberships) (result : BundleResult) : BundleResult :=
  match memberships with
  | [] => result
  | members :: memberships =>
    let st := foldl (pack_file files idx) ([], rmembers result) members in
    build_loop files (idx + 1) memberships
      (mkResult (rbundles result ++ [mkBundle (blake3 st.1) st.1 members]) st.2)
  end.

Definition build (files : Files) (memberships : Memberships) : BundleResult :=
  build_loop files 0 memberships (mkResult [] []).

(** Steps 1 and 2: what is carried forward, then the new files. *)
Definition appended (files : Files) (prev : Memberships) : Memberships :=
  let memberships := carry files prev in foldl (place files) memberships (new_files files memberships).

(** The membership an assignment settles on. *)
Definition plan (files : Files) (prev : Memberships) : Memberships :=
  let memberships := appended files prev in
  if needs_repack files memberships then repack files else memberships.

Definition assign (files : Files) (prev : Memberships) : BundleResult := build files (plan files prev).

Definition memberships_of (r : BundleResult) : Memberships := map bmembers (rbundles r).
End assign.

(** ** Membership lists *)

Lemma concat_filter_nonempty {A} `{EqDecision A} (l : list (list A)) :
  concat (List.filter (λ b, negb (bool_decide (b = []))) l) = concat l.
Proof. induction l as [|b l IH]; [done|]. cbn. case_bool_decide; cbn; [by subst|by rewrite IH]. Qed.

Lemma concat_map_filter {A} (f : A → bool) l : concat (map (List.filter f) l) = List.filter f (concat l).
Proof. induction l as [|b l IH]; [done|]. cbn. by rewrite List.filter_app, IH. Qed.

Lemma removelast_last {A} (l : list A) x : last l = Some x → l = removelast l ++ [x].
Proof. intros [l' ->]%last_Some. by rewrite List.removelast_last. Qed.

Definition filled (ms : Memberships) : Prop := Forall (λ b, b ≠ []) ms.

Lemma carry_concat files prev : concat (carry files prev) = List.filter (bt_contains files) (concat prev).
Proof. unfold carry. by rewrite concat_filter_nonempty, concat_map_filter. Qed.

Lemma carry_filled files prev : filled (carry files prev).
Proof. apply Forall_forall. intros b [_ Hb]%elem_of_bfilter. by case_bool_decide. Qed.

Lemma place_concat files ms p : concat (place files ms p) = concat ms ++ [p].
Proof.
  unfold place. destruct (last ms) as [t|] eqn:E; [|by rewrite List.concat_app].
  case_match; [|by rewrite List.concat_app]. rewrite (removelast_last ms t E) at 2.
  rewrite !List.concat_app. cbn. by rewrite !app_nil_r, app_assoc.
Qed.

Lemma place_filled files ms p : filled ms → filled (place files ms p).
Proof.
  intros Hf. unfold place, filled. destruct (last ms) as [t|] eqn:E.
  - case_match; [|by apply Forall_app; split; [|repeat constructor]].
    rewrite (removelast_last ms t E) in Hf. apply Forall_app in Hf as [Hf _]. apply Forall_app. split; [done|].
    constructor; [|done]. by destruct t.
  - by apply Forall_app; split; [|repeat constructor].
Qed.

Lemma places_spec files l : ∀ ms, filled ms →
  concat (foldl (place files) ms l) = concat ms ++ l ∧ filled (foldl (place files) ms l).
Proof.
  induction l as [|p l IH]; intros ms Hf; cbn; [by rewrite app_nil_r|].
  destruct (IH (place files ms p)) as [-> ?]; [by apply place_filled|]. by rewrite place_concat, <- app_assoc.
Qed.

Lemma bundle_size_app files a b : bundle_size files (a ++ b) = bundle_size files a + bundle_size files b.
Proof.
  unfold bundle_size. rewrite map_app. induction (map _ a) as [|x l IH]; [done|]. cbn [app foldr]. rewrite IH. lia.
Qed.

Lemma bundle_size_nonneg files b : 0 <= bundle_size files b.
Proof. unfold bundle_size. induction b as [|p b IH]; cbn; [lia|]. pose proof (blen_nonneg (file_of files p)). lia. Qed.

(** A bundle that is closed: full, and not over by a whole file. *)
Definition full files (M : Z) (b : list bytes) : Prop := BUNDLE_TARGET <= bundle_size files b < BUNDLE_TARGET + M.

Lemma repack_loop files M rest : Forall (λ e, file_of files e.1 = e.2 ∧ blen e.2 <= M) rest → ∀ out current,
  Forall (full files M) out → bundle_size files current < BUNDLE_TARGET + M → ∃ out' current',
  foldl repack_step (out, (current, bundle_size files current)) rest = (out', (current', bundle_size files current')) ∧
  concat out' ++ current' = concat out ++ current ++ map fst rest ∧
  Forall (full files M) out' ∧ bundle_size files current' < BUNDLE_TARGET + M.
Proof.
  induction 1 as [|[p content] rest [Hp HM] _ IH]; intros out current Ho Hc; cbn [foldl map fst snd] in *.
  { exists out, current. by rewrite app_nil_r. }
  assert (∀ c, bundle_size files c + blen content = bundle_size files (c ++ [p])) as Hsz.
  { intros c. rewrite bundle_size_app. unfold bundle_size at 3. cbn. rewrite Hp. lia. }
  unfold repack_step at 2. destruct (Z.leb_spec BUNDLE_TARGET (bundle_size files current)); cbn [andb].
  - case_bool_decide as Hn; [subst; vm_compute in H; by destruct H|]. cbn [negb]. cbn [fst snd].
    replace (0 + blen content) with (bundle_size files ([] ++ [p])) by (rewrite <- Hsz; cbn; lia).
    destruct (IH (out ++ [current]) ([] ++ [p])) as (out' & c' & -> & Hcat & ?).
    + apply Forall_app. split; [done|]. by repeat constructor.
    + rewrite <- Hsz. unfold BUNDLE_TARGET. cbn. lia.
    + exists out', c'. split; [done|]. split; [|done]. rewrite Hcat, List.concat_app. cbn. by rewrite app_nil_r, <- !app_assoc.
  - cbn [fst snd]. rewrite Hsz. destruct (IH out (current ++ [p])) as (out' & c' & -> & Hcat & ?); [done|rewrite <- Hsz; lia|].
    exists out', c'. split; [done|]. split; [|done]. by rewrite Hcat, <- !app_assoc.
Qed.

Lemma repack_spec files M : bt_wf files → Forall (λ e, blen e.2 <= M) files → ∃ out current,
  repack files = out ++ (if bool_decide (current = []) then [] else [current]) ∧
  concat out ++ current = bt_keys files ∧ Forall (full files M) out ∧ bundle_size files current < BUNDLE_TARGET + Z.max 0 M.
Proof.
  intros Hwf HM. destruct (repack_loop files (Z.max 0 M) files) with (out := @nil (list bytes)) (current := @nil bytes)
    as (out & current & Hf & Hcat & Hfull & Hc); [|constructor|cbn; unfold BUNDLE_TARGET; lia|].
  { rewrite Forall_forall in HM |- *. intros [p content] Hin. cbn. split.
    - unfold file_of. by rewrite (proj2 (bt_get_elem files p content Hwf) Hin).
    - specialize (HM _ Hin). cbn in HM. lia. }
  exists out, current. cbn in Hf, Hcat. unfold repack. rewrite Hf. split_and!; [by case_bool_decide; rewrite ?app_nil_r|done| |done].
  destruct (Z.max_spec 0 M) as [[? Hm]|[? Hm]]; rewrite Hm in Hfull; [done|].
  eapply Forall_impl; [done|]. unfold full. intros b Hb. lia.
Qed.

Lemma repack_filled files : bt_wf files → concat (repack files) = bt_keys files ∧ filled (repack files).
Proof.
  intros Hwf. set (M := foldr Z.max 0 (map (λ e : bytes * bytes, blen e.2) files)).
  destruct (repack_spec files M Hwf) as (out & c & Hr & Hcat & Hfull & _).
  { unfold M. clear. induction files as [|e l IH]; constructor; cbn; [lia|]. eapply Forall_impl; [done|]. cbn. lia. }
  rewrite Hr. split.
  - rewrite <- Hcat, List.concat_app. case_bool_decide; [subst; by rewrite !app_nil_r|cbn; by rewrite app_nil_r].
  - apply Forall_app. split; [|case_bool_decide; by repeat constructor].
    eapply Forall_impl; [done|]. intros b Hb ->. unfold full, bundle_size, BUNDLE_TARGET in Hb. cbn in Hb. lia.
Qed.

Lemma plan_spec files prev : bt_wf files →
  filled (plan files prev) ∧ (∀ p, p ∈ concat (plan files prev) ↔ is_Some (bt_get files p)) ∧
  (NoDup (concat prev) → concat (plan files prev) ≡ₚ bt_keys files).
Proof.
  intros Hwf. unfold plan, appended. case_match.
  { destruct (repack_filled files Hwf) as [Hc Hf]. rewrite Hc. split_and!; [done| |done]. intros p. by apply elem_of_bt_keys. }
  destruct (places_spec files (new_files files (carry files prev)) (carry files prev)) as [Hc Hf]; [apply carry_filled|].
  rewrite Hc. split; [done|].
  assert (∀ p, p ∈ concat (carry files prev) ↔ p ∈ concat prev ∧ is_Some (bt_get files p)) as Hold.
  { intros p. by rewrite carry_concat, elem_of_bfilter, bt_contains_spec. }
  assert (∀ p, p ∈ new_files files (carry files prev) ↔ is_Some (bt_get files p) ∧ p ∉ concat (carry files prev)) as Hnew.
  { intros p. unfold new_files. by rewrite elem_of_bfilter, elem_of_bt_keys, negb_true_iff, bool_decide_eq_false. }
  assert (∀ p, p ∈ concat (carry files prev) ++ new_files files (carry files prev) ↔ is_Some (bt_get files p)) as Hin.
  { intros p. rewrite elem_of_app, Hnew, Hold. destruct (decide (p ∈ concat prev)); tauto. }
  split; [done|]. intros Hnd. apply NoDup_Permutation; [|by apply bt_keys_nodup|intros p; by rewrite Hin, elem_of_bt_keys].
  apply NoDup_app. split_and!.
  - rewrite carry_concat. by apply NoDup_bfilter.
  - intros p H1 [_ H2]%Hnew. done.
  - apply NoDup_bfilter. by apply bt_keys_nodup.
Qed.

(** ** Building *)

Definition body files (b : list bytes) : bytes := concat (map (file_of files) b).

Lemma blen_body files b : blen (body files b) = bundle_size files b.
Proof. unfold body, bundle_size. induction b as [|p b IH]; [done|]. cbn. by rewrite blen_app, IH. Qed.

(** An entry of the member map: where the bundle holds the file. *)
Definition located files (ms : Memberships) (p : bytes) (e : Z * (Z * Z)) : Prop :=
  ∃ pre post, index ms e.1 = Some (pre ++ p :: post) ∧ e.2 = (bundle_size files pre, blen (file_of files p)).

Lemma pack_spec files idx b : ∀ done ms placed, index ms idx = Some (done ++ b) →
  (∀ p e, bt_get placed p = Some e → located files ms p e) →
  let st := foldl (pack_file files idx) (body files done, placed) b in
  st.1 = body files (done ++ b) ∧ (∀ p e, bt_get st.2 p = Some e → located files ms p e) ∧
  (∀ p, is_Some (bt_get st.2 p) ↔ is_Some (bt_get placed p) ∨ p ∈ b).
Proof.
  induction b as [|p b IH]; intros done ms placed Hi Hl; cbn [foldl].
  { rewrite app_nil_r. split_and!; [done..|]. intros p. rewrite elem_of_nil. tauto. }
  assert (body files done ++ file_of files p = body files (done ++ [p])) as Hb.
  { unfold body. by rewrite map_app, List.concat_app; cbn; rewrite app_nil_r. }
  unfold pack_file at 2 4 6. cbn [fst snd]. rewrite Hb.
  destruct (IH (done ++ [p]) ms (bt_insert p (idx, (blen (body files done), blen (file_of files p))) placed)) as (H1 & H2 & H3).
  - by rewrite <- app_assoc.
  - intros q e. rewrite bt_get_insert. case_decide; [|apply Hl]. intros He. apply (inj Some) in He as <-. subst q.
    exists done, b. cbn [fst snd]. by rewrite blen_body.
  - rewrite <- app_assoc in H1. split_and!; [done|done|]. intros q. rewrite H3, bt_get_insert, elem_of_cons. case_decide; [naive_solver|].
    split; [intros [?|?]; tauto|intros [?|[?|?]]; tauto].
Qed.

Section build_facts.
Context (blake3 : bytes → bytes).
Definition bundle_of files (b : list bytes) : Bundle := mkBundle (blake3 (body files b)) (body files b) b.

Lemma build_loop_spec files rest : ∀ done res, rbundles res = map (bundle_of files) done →
  (∀ p e, bt_get (rmembers res) p = Some e → located files (done ++ rest) p e) →
  let r := build_loop blake3 files (blen done) rest res in
  rbundles r = map (bundle_of files) (done ++ rest) ∧
  (∀ p e, bt_get (rmembers r) p = Some e → located files (done ++ rest) p e) ∧
  (∀ p, is_Some (bt_get (rmembers r) p) ↔ is_Some (bt_get (rmembers res) p) ∨ p ∈ concat rest).
Proof.
  induction rest as [|b rest IH]; intros done res Hb Hm; cbn [build_loop].
  { rewrite app_nil_r. split_and!; [done|by rewrite app_nil_r in Hm|]. intros p. cbn. rewrite elem_of_nil. tauto. }
  destruct (pack_spec files (blen done) b [] (done ++ b :: rest) (rmembers res)) as (P1 & P2 & P3); [by apply index_app|done|].
  cbn [app] in P1. change (body files []) with (@nil byte) in *. rewrite P1.
  replace (blen done + 1) with (blen (done ++ [b])) by (rewrite blen_app; done).
  destruct (IH (done ++ [b]) (mkResult (rbundles res ++ [mkBundle (blake3 (body files b)) (body files b) b]) (foldl (pack_file files (blen done)) ([], rmembers res) b).2))
    as (R1 & R2 & R3); cbn [rbundles rmembers].
  - by rewrite Hb, map_app.
  - intros p e Hp. rewrite <- app_assoc. by apply P2.
  - rewrite <- app_assoc in R1, R2. split_and!; [done|done|]. intros p. rewrite R3, P3. cbn [concat rmembers]. rewrite elem_of_app. tauto.
Qed.

Lemma bundle_build_spec files ms :
  rbundles (build blake3 files ms) = map (bundle_of files) ms ∧
  (∀ p e, bt_get (rmembers (build blake3 files ms)) p = Some e → located files ms p e) ∧
  (∀ p, is_Some (bt_get (rmembers (build blake3 files ms)) p) ↔ p ∈ concat ms).
Proof.
  destruct (build_loop_spec files ms [] (mkResult [] [])) as (R1 & R2 & R3); [done|done|].
  cbn [app blen length] in *. split_and!; [done|done|]. intros p. rewrite R3. cbn. split; [by intros [[? ?]|?]|by right].
Qed.

Lemma memberships_of_build files ms : memberships_of (build blake3 files ms) = ms.
Proof.
  unfold memberships_of. rewrite (proj1 (bundle_build_spec files ms)). rewrite map_map. cbn. apply map_id.
Qed.
End build_facts.

(** ** Carrying forward again *)

Lemma bfilter_all {A} (f : A → bool) l : (∀ x, x ∈ l → f x = true) → List.filter f l = l.
Proof. intros Hl. apply bfilter_true, forallb_forall. intros x Hx. apply Hl. by apply list_elem_of_In. Qed.

Lemma bfilter_none {A} (f : A → bool) l : (∀ x, x ∈ l → f x = false) → List.filter f l = [].
Proof.
  intros Hl. induction l as [|x l IH]; [done|]. cbn. rewrite Hl by left. apply IH. intros y Hy. apply Hl. by right.
Qed.

Lemma carry_id files ms : filled ms → (∀ p, p ∈ concat ms → is_Some (bt_get files p)) → carry files ms = ms.
Proof.
  intros Hf Hin. unfold carry. replace (map (List.filter (bt_contains files)) ms) with ms.
  - apply bfilter_all. intros b Hb. unfold filled in Hf. rewrite Forall_forall in Hf. specialize (Hf b Hb). by rewrite bool_decide_false.
  - clear Hf. induction ms as [|b ms IH]; [done|]. cbn in *. rewrite bfilter_all, <- IH; [done| |].
    + intros p Hp. apply Hin, elem_of_app. by right.
    + intros p Hp. apply bt_contains_spec, Hin, elem_of_app. by left.
Qed.

Lemma repack_stays files : bt_wf files → needs_repack files (repack files) = false.
Proof.
  intros Hwf. set (M := foldr Z.max 0 (map (λ e : bytes * bytes, blen e.2) files)).
  destruct (repack_spec files M Hwf) as (out & c & Hr & _ & Hfull & _).
  { unfold M. clear. induction files as [|e l IH]; constructor; cbn; [lia|]. eapply Forall_impl; [done|]. cbn. lia. }
  unfold needs_repack. apply andb_false_iff. right. apply Z.ltb_ge. unfold fragmented.
  assert (List.filter (λ b, bundle_size files b <? BUNDLE_TARGET / 2) (removelast (repack files)) = []) as ->; [|change (blen (@nil (list bytes))) with 0; lia].
  assert (Forall (full files M) (removelast (repack files))) as Hl.
  { rewrite Hr. case_bool_decide; [|by rewrite List.removelast_last]. rewrite app_nil_r. clear -Hfull.
    induction Hfull as [|b l Hb Hl IH]; [constructor|]. cbn. destruct l; [constructor|by constructor]. }
  induction Hl as [|b l Hb _ IH]; [done|]. cbn [List.filter]. destruct (Z.ltb_spec (bundle_size files b) (BUNDLE_TARGET / 2)); [|done].
  unfold full in Hb. change (BUNDLE_TARGET / 2) with 131072 in *. unfold BUNDLE_TARGET in Hb. lia.
Qed.

Lemma plan_again files prev : bt_wf files → plan files (plan files prev) = plan files prev.
Proof.
  intros Hwf. destruct (plan_spec files prev Hwf) as (Hf & Hin & _).
  assert (appended files (plan files prev) = plan files prev) as Ha.
  { unfold appended. rewrite carry_id by (done || (intros p; apply Hin)).
    assert (new_files files (plan files prev) = []) as ->; [|done].
    unfold new_files. apply bfilter_none. intros p Hp. apply negb_false_iff, bool_decide_eq_true, Hin. by apply elem_of_bt_keys. }
  unfold plan at 1. rewrite Ha. assert (needs_repack files (plan files prev) = false) as ->; [|done].
  unfold plan. destruct (needs_repack files (appended files prev)) eqn:E; [by apply repack_stays|done].
Qed.

Lemma places_keep files l : ∀ pre t, ∃ extra more, foldl (place files) (pre ++ [t]) l = pre ++ (t ++ extra) :: more.
Proof.
  induction l as [|p l IH]; intros pre t; cbn [foldl]; [exists [], []; by rewrite app_nil_r|].
  unfold place at 2. rewrite last_snoc. case_match.
  - rewrite List.removelast_last. destruct (IH pre (t ++ [p])) as (extra & more & ->). exists (p :: extra), more. by rewrite <- app_assoc.
  - destruct (IH (pre ++ [t]) [p]) as (extra & more & ->). exists [], ((p :: extra) :: more). rewrite app_nil_r, <- app_assoc. done.
Qed.

Lemma carry_app files a b : carry files (a ++ b) = carry files a ++ carry files b.
Proof. unfold carry. by rewrite map_app, List.filter_app. Qed.

(** A bundle whose files all survive is kept, and only a tail grows. *)
Lemma appended_keeps files pre m post : m ≠ [] → (∀ p, p ∈ m → is_Some (bt_get files p)) →
  ∃ extra, m ++ extra ∈ appended files (pre ++ m :: post) ∧ (extra = [] ∨ ∀ q, q ∈ concat post → bt_get files q = None).
Proof.
  intros Hm Hin. unfold appended. set (l := new_files _ _). clearbody l.
  rewrite carry_app. change (m :: post) with ([m] ++ post). rewrite carry_app.
  rewrite (carry_id files [m]) by (repeat constructor; try done; cbn; rewrite app_nil_r; done).
  destruct (decide (carry files post = [])) as [Hp|Hp].
  - rewrite Hp, app_nil_r. destruct (places_keep files l (carry files pre) m) as (extra & more & ->).
    exists extra. split; [apply elem_of_app; right; left|right]. intros q Hq. apply (f_equal (concat (A := bytes))) in Hp. rewrite carry_concat in Hp. cbn in Hp.
    apply eq_None_not_Some. intros Hs. apply (not_elem_of_nil q). rewrite <- Hp. apply elem_of_bfilter. by rewrite bt_contains_spec.
  - destruct (exists_last Hp) as (post' & t & ->). rewrite (app_assoc [m]), app_assoc.
    destruct (places_keep files l (carry files pre ++ [m] ++ post') t) as (extra & more & ->).
    exists []. rewrite app_nil_r. split; [|by left]. apply elem_of_app; left. apply elem_of_app; right. left.
Qed.

Lemma body_ext files files' b : (∀ p, p ∈ b → bt_get files' p = bt_get files p) → body files' b = body files b.
Proof.
  intros Heq. unfold body. f_equal. apply map_ext_in. intros p Hp. unfold file_of. by rewrite Heq by (by apply list_elem_of_In).
Qed.

(** ** Sizes *)

Definition bounded files (M : Z) (ms : Memberships) : Prop := Forall (λ b, bundle_size files b < BUNDLE_TARGET + M) ms.

Lemma appended_bounded files M prev : 0 <= M → (∀ p, blen (file_of files p) <= M) →
  bounded files M (map (List.filter (bt_contains files)) prev) → bounded files M (appended files prev).
Proof.
  intros HM Hfile Hprev. unfold appended. set (l := new_files _ _). clearbody l.
  assert (bounded files M (carry files prev)) as Hc.
  { unfold bounded in *. rewrite Forall_forall in Hprev |- *. intros b [Hb _]%elem_of_bfilter. by apply Hprev. }
  revert Hc. generalize (carry files prev). induction l as [|p l IH]; intros ms Hms; cbn [foldl]; [done|]. apply IH.
  assert (bundle_size files [p] < BUNDLE_TARGET + M) as H1.
  { specialize (Hfile p). unfold bundle_size, BUNDLE_TARGET. cbn. lia. }
  unfold place, bounded in *. destruct (last ms) as [t|] eqn:E; [|by apply Forall_app; split; [|repeat constructor]].
  destruct (Z.ltb_spec (bundle_size files t) BUNDLE_TARGET); [|by apply Forall_app; split; [|repeat constructor]].
  rewrite (removelast_last ms t E) in Hms. apply Forall_app in Hms as [Hms _]. apply Forall_app. split; [done|]. constructor; [|constructor].
  rewrite bundle_size_app. specialize (Hfile p). unfold bundle_size at 2. cbn. lia.
Qed.

Lemma plan_bounded files M prev : bt_wf files → 0 <= M → Forall (λ e, blen e.2 <= M) files →
  bounded files M (map (List.filter (bt_contains files)) prev) → bounded files M (plan files prev).
Proof.
  intros Hwf HM Hall Hprev. unfold plan. case_match.
  - destruct (repack_spec files M Hwf Hall) as (out & c & -> & _ & Hfull & Hc). apply Forall_app. split.
    + eapply Forall_impl; [done|]. unfold full. intros b. lia.
    + case_bool_decide; repeat constructor. rewrite Z.max_r in Hc by done. done.
  - apply appended_bounded; [done| |done]. intros p. unfold file_of. destruct (bt_get files p) as [v|] eqn:E; [|cbn; unfold blen; cbn; lia].
    apply (bt_get_elem _ _ _ Hwf) in E. rewrite Forall_forall in Hall. exact (Hall _ E).
Qed.

(** ** Properties *)

(** An assignment packs every file exactly where its index says. The member
    map has an entry for each file and no other, and the bundle it names holds
    the file's bytes at that offset and length; a bundle is never empty, its
    bytes are its members' bytes in order and its id is their hash. When the
    previous membership names no path twice, no path is packed twice. *)
Theorem assign_correct blake3 files prev :
  bt_wf files →
  (∀ p, is_Some (bt_get (rmembers (assign blake3 files prev)) p) ↔ is_Some (bt_get files p)) ∧
  (∀ p content, bt_get files p = Some content → ∃ idx off b,
    bt_get (rmembers (assign blake3 files prev)) p = Some (idx, (off, blen content)) ∧
    index (rbundles (assign blake3 files prev)) idx = Some b ∧ p ∈ bmembers b ∧
    slice (bbytes b) off (off + blen content) = Some content) ∧
  (∀ b, b ∈ rbundles (assign blake3 files prev) →
    bmembers b ≠ [] ∧ bbytes b = concat (map (file_of files) (bmembers b)) ∧ bid b = blake3 (bbytes b)) ∧
  (NoDup (concat prev) → concat (memberships_of (assign blake3 files prev)) ≡ₚ bt_keys files).
Proof.
  intros Hwf. destruct (plan_spec files prev Hwf) as (Hf & Hin & Hnd). unfold assign.
  destruct (bundle_build_spec blake3 files (plan files prev)) as (B1 & B2 & B3). split_and!.
  - intros p. by rewrite B3.
  - intros p content Hp. destruct (bt_get (rmembers _) p) as [[idx [off len]]|] eqn:E.
    2:{ assert (is_Some (bt_get files p)) as Hs by done. apply Hin, B3 in Hs as [? ?]. congruence. }
    destruct (B2 p _ E) as (pre & post & Hi & He). cbn [fst snd] in Hi, He. apply pair_eq in He as [-> ->].
    assert (file_of files p = content) as Hc by (unfold file_of; by rewrite Hp). rewrite Hc.
    exists idx, (bundle_size files pre), (bundle_of blake3 files (pre ++ p :: post)). split_and!; [done| | |].
    + apply index_Some in Hi as [H0 Hi]. rewrite index_lookup by done. rewrite B1. by apply list_lookup_fmap_Some_2 with (f := bundle_of blake3 files) in Hi.
    + cbn. apply elem_of_app; right; left.
    + cbn. unfold body. rewrite map_app, List.concat_app. cbn. rewrite Hc. apply slice_app; fold (body files pre); rewrite blen_body; lia.
  - intros b Hb. rewrite B1 in Hb. apply list_elem_of_fmap in Hb as (m & -> & Hm). cbn. split_and!; [|done..].
    unfold filled in Hf. rewrite Forall_forall in Hf. by apply Hf.
  - intros Hn. rewrite memberships_of_build. by apply Hnd.
Qed.

(** Bundles are stable under edits. Assigning the same files again changes
    nothing. When the files change, a bundle none of whose members changed
    keeps its bytes as a prefix of a bundle of the new assignment, and is kept
    as it is unless every later bundle lost all its files, as long as the
    result is not so fragmented that a full repack runs. Packing stays bounded:
    with files of at most [M] bytes no bundle reaches the target plus [M]. *)
Theorem assign_stable blake3 files files' prev M :
  bt_wf files → bt_wf files' → 0 <= M →
  let r := assign blake3 files prev in
  assign blake3 files (memberships_of r) = r ∧
  (needs_repack files' (appended files' (memberships_of r)) = false →
   ∀ pre b post, rbundles r = pre ++ b :: post → (∀ p, p ∈ bmembers b → bt_get files' p = bt_get files p) →
     ∃ b' extra, b' ∈ rbundles (assign blake3 files' (memberships_of r)) ∧ bmembers b' = bmembers b ++ extra ∧
       bbytes b' = bbytes b ++ concat (map (file_of files') extra) ∧
       ((∃ c q, c ∈ post ∧ q ∈ bmembers c ∧ is_Some (bt_get files' q)) → b' = b)) ∧
  (Forall (λ e, blen e.2 <= M) files → bounded files M (map (List.filter (bt_contains files)) prev) →
   ∀ b, b ∈ rbundles r → blen (bbytes b) < BUNDLE_TARGET + M).
Proof.
  intros Hwf Hwf' HM r. subst r. unfold assign. rewrite memberships_of_build.
  destruct (plan_spec files prev Hwf) as (Hf & Hin & _). destruct (bundle_build_spec blake3 files (plan files prev)) as (B1 & _ & _).
  split_and!; [by rewrite plan_again| |].
  - intros Hno pre b post Hb Heq. rewrite B1 in Hb. apply fmap_app_inv in Hb as (mpre & mrest & -> & Hr & Hms).
    symmetry in Hr. apply fmap_cons_inv in Hr as (m & mpost & -> & -> & ->). cbn [bmembers bundle_of] in Heq.
    assert (m ≠ []) as Hne. { unfold filled in Hf. rewrite Hms, Forall_app, Forall_cons in Hf. apply Hf. }
    assert (∀ p, p ∈ m → is_Some (bt_get files' p)) as Hsome.
    { intros p Hp. rewrite Heq by done. apply Hin. rewrite Hms, List.concat_app. apply elem_of_app; right. cbn. apply elem_of_app. by left. }
    destruct (appended_keeps files' mpre m mpost Hne Hsome) as (extra & He & Hlast). rewrite <- Hms in He.
    exists (bundle_of blake3 files' (m ++ extra)), extra. split_and!.
    + destruct (bundle_build_spec blake3 files' (plan files' (plan files prev))) as (-> & _ & _). apply list_elem_of_fmap_2.
      unfold plan at 1. by rewrite Hno.
    + done.
    + cbn. unfold body at 1. rewrite map_app, List.concat_app. f_equal. by apply body_ext.
    + intros (c & q & Hc & Hq & Hs). destruct Hlast as [->|Hl].
      * rewrite app_nil_r. unfold bundle_of. by rewrite (body_ext files files' m Heq).
      * apply list_elem_of_fmap in Hc as (mc & -> & Hmc). rewrite (Hl q) in Hs; [by destruct Hs|].
        apply list_elem_of_In, in_concat. exists mc. by rewrite <- !list_elem_of_In.
  - intros Hall Hb b Hin'. rewrite B1 in Hin'. apply list_elem_of_fmap in Hin' as (m & -> & Hm). cbn [bbytes bundle_of]. rewrite blen_body.
    pose proof (plan_bounded files M prev Hwf HM Hall Hb) as Hp. unfold bounded in Hp. rewrite Forall_forall in Hp. by apply Hp.
Qed.

Definition small_files : Files := [(bstr "a.css", bstr "xx"); (bstr "b.js", bstr "yyy")].

Lemma assign_correct_witness :
  slice (bstr "yyyxx") 3 5 = Some (bstr "xx") ∧
  concat (memberships_of (assign (λ b, b) small_files [[bstr "b.js"]])) ≡ₚ [bstr "a.css"; bstr "b.js"].
Proof.
  destruct (assign_correct (λ b, b) small_files [[bstr "b.js"]]) as (_ & H & _ & Hp); [repeat constructor|].
  split; [|apply Hp; repeat constructor; by intros ?%elem_of_nil].
  destruct (H (bstr "a.css") (bstr "xx")) as (idx & off & b & Hm & Hb & _ & Hs); [vm_compute; reflexivity|].
  vm_compute in Hm. apply (inj Some) in Hm. apply pair_eq in Hm as [<- Hm]. apply pair_eq in Hm as [<- _].
  vm_compute in Hb. apply (inj Some) in Hb as <-. exact Hs.
Defined.

Lemma assign_stable_witness :
  assign (λ b, b) small_files (memberships_of (assign (λ b, b) small_files [])) = assign (λ b, b) small_files [] ∧
  ∀ b, b ∈ rbundles (assign (λ b, b) small_files []) → blen (bbytes b) < BUNDLE_TARGET + 3.
Proof.
  destruct (assign_stable (λ b, b) small_files [(bstr "b.js", bstr "yyy")] [] 3) as (H1 & _ & H3); [repeat constructor..|lia|].
  split; [exact H1|]. apply H3; [repeat constructor; vm_compute; discriminate|constructor].
Defined.
