(* ===== verification/Manifest.v ===== *)
(** * The EDX manifest fields ([crates/epix-blob/src/manifest.rs], [lib.rs])

    Object ids in hex, the per-file entries and the bundle table that signing
    folds into a content.json, the encrypted-shard entries, the memberships
    read back for the next signing, and the files merkle root. BLAKE3 is a
    parameter. *)
From S2P Require Import Prelude Ordered Json Canonical Bundle.
From Stdlib Require Import ZArith Lia Strings.Byte.
From stdpp Require Import base list sorting strings.
#[local] Open Scope Z_scope.

(** ** Object ids *)

Abbreviation ObjId := bytes.
Definition id_wf (i : ObjId) : Prop := length i = 32%nat.

(** [format!("{b:02x}")]. *)
Definition hex_byte (b : byte) : bytes := [hex_digit (byte_val b / 16); hex_digit (byte_val b mod 16)].
Definition to_hex (bs : bytes) : bytes := concat (map hex_byte bs).

(** [char::to_digit(16)] on a byte. *)
Definition hex_val (b : byte) : option Z :=
  let v := byte_val b in
  if (48 <=? v) && (v <=? 57) then Some (v - 48)
  else if (97 <=? v) && (v <=? 102) then Some (v - 87)
  else if (65 <=? v) && (v <=? 70) then Some (v - 55) else None.

(** [u8::from_str_radix] on a pair: a sign may lead. *)
Definition hex_pair (a b : byte) : option byte :=
  if bool_decide (a = x2b) then byte_of <$> hex_val b
  else x ← hex_val a; y ← hex_val b; Some (byte_of (x * 16 + y)).

(** The first [n] pairs of [s]. *)
Fixpoint hex_pairs (n : nat) (s : bytes) : option bytes :=
  match n, s with
  | O, _ => Some []
  | S n, a :: b :: s => x ← hex_pair a b; xs ← hex_pairs n s; Some (x :: xs)
  | _, _ => None
  end.

Definition from_hex (s : bytes) : option ObjId := if negb (blen s =? 64) then None else hex_pairs 32 s.

(** ** Reading a manifest *)

Definition EDX_VERSION : Z := 1.

Record EdxEntry := mkEntry { esize : Z; b3 : ObjId; ebundle : option (ObjId * Z) }.

Definition edx_version (content : json) : option Z := get_u64 content (bstr "edx").

Definition parse_entry (entry content : json) : option EdxEntry :=
  size ← get_u64 entry (bstr "size");
  b3 ← (s ← get_str entry (bstr "b3"); from_hex s);
  match jget entry (bstr "bundle") with
  | Some b =>
    s ← as_str b; id ← from_hex s;
    bundles ← jget content (bstr "bundles"); _ ← jget bundles s;
    off ← get_u64 entry (bstr "off");
    Some (mkEntry size b3 (Some (id, off)))
  | None => Some (mkEntry size b3 None)
  end.

Definition edx_entry (content : json) (inner_path : bytes) : option EdxEntry :=
  let find k := f ← jget content k; jget f inner_path in
  entry ← (match find (bstr "files") with Some e => Some e | None => find (bstr "files_optional") end);
  parse_entry entry content.

Record ShardChunk := mkShardChunk { plain_hash : bytes; cipher_addr : ObjId; len : Z; csize : Z }.
Record ShardEntry := mkShardEntry { ssize : Z; mode : Z; chunks : list ShardChunk }.

Definition edx_salt (content : json) : option bytes :=
  hex ← get_str content (bstr "edx_salt");
  if negb (blen hex mod 2 =? 0) then None else hex_pairs (length hex / 2) hex.

Definition shard_chunk (c : json) : option ShardChunk :=
  ph ← get_str c (bstr "ph"); plain_hash ← hex_pairs 32 ph;
  cipher_addr ← (ca ← get_str c (bstr "ca"); from_hex ca);
  len ← get_u64 c (bstr "len"); csize ← get_u64 c (bstr "cs");
  Some (mkShardChunk plain_hash cipher_addr (wrap32 len) (wrap32 csize)).

Definition edx_shard_entry (content : json) (inner_path : bytes) : option ShardEntry :=
  e ← (f ← jget content (bstr "files_shard"); jget f inner_path);
  size ← get_u64 e (bstr "size");
  let mode := default 0 (get_u64 e (bstr "mode")) mod 256 in
  arr ← get_array e (bstr "chunks");
  chunks ← mapM shard_chunk arr;
  Some (mkShardEntry size mode chunks).

Definition chunk_json (c : ShardChunk) : json :=
  JObj [(bstr "ca", JStr (to_hex (cipher_addr c))); (bstr "cs", JInt (csize c));
        (bstr "len", JInt (len c)); (bstr "ph", JStr (to_hex (plain_hash c)))].

(** [None] is the panic on a content.json (or its [files_shard]) that is not
    an object. *)
Definition set_shard_entry (content : json) (inner_path : bytes) (entry : ShardEntry) : option json :=
  obj ← as_object content;
  shards ← as_object (default (JObj []) (bt_get obj (bstr "files_shard")));
  let v := JObj [(bstr "chunks", JArr (map chunk_json (chunks entry))); (bstr "mode", JInt (mode entry)); (bstr "size", JInt (ssize entry))] in
  Some (JObj (bt_insert (bstr "files_shard") (JObj (bt_insert inner_path v shards)) obj)).

Definition bundles (content : json) : btree ObjId Z :=
  foldl (λ out e, match from_hex e.1, get_u64 e.2 (bstr "size") with
                  | Some id, Some size => bt_insert id size out
                  | _, _ => out end)
    [] (default [] (get_object content (bstr "bundles"))).

(** ** Memberships for the next signing *)

(** [map.keys().enumerate()] with each bundle's [seq], sorted. *)
Definition bundle_order (content : json) : list bytes :=
  let ordered := imap (λ i (e : bytes * json), (default (Z.of_nat i) (get_u64 e.2 (bstr "seq")), (Z.of_nat i, e.1)))
                   (default [] (get_object content (bstr "bundles"))) in
  map (λ t : Z * (Z * bytes), t.2.2) (Ordered.sort ordered).

(** The bundle reference of a file entry: [(bundle, (off, path))]. *)
Definition member_ref (e : bytes * json) : option (bytes * (Z * bytes)) :=
  bundle ← get_str e.2 (bstr "bundle"); off ← get_u64 e.2 (bstr "off"); Some (bundle, (off, e.1)).

Definition member_refs (content : json) : list (bytes * (Z * bytes)) :=
  concat (map (λ key, omap member_ref (default [] (get_object content key))) [bstr "files"; bstr "files_optional"]).

(** [by_bundle.entry(bundle).or_default().push((off, path))]. *)
Definition by_bundle (content : json) : btree bytes (list (Z * bytes)) :=
  foldl (λ m r, bt_upsert (λ l, l ++ [r.2]) r.1 [r.2] m) [] (member_refs content).

(** [filter_map]: each lookup removes the bundle it finds. *)
Fixpoint take_bundles (order : list bytes) (m : btree bytes (list (Z * bytes))) : list (list bytes) :=
  match order with
  | [] => []
  | b :: order =>
    match bt_get m b with
    | Some members => map snd (Ordered.sort members) :: take_bundles order (bt_remove b m)
    | None => take_bundles order m
    end
  end.

Definition prev_memberships (content : json) : list (list bytes) := take_bundles (bundle_order content) (by_bundle content).

Abbreviation Assignment := BundleResult.

(** ** The files merkle root *)

Section merkle.
Context (blake3 : bytes → bytes).

Definition leaf_bytes (e : bytes * (ObjId * Z)) : bytes := x00 :: le32 (blen e.1) ++ e.1 ++ e.2.1 ++ le64 e.2.2.
Definition leaf_hash (e : bytes * (ObjId * Z)) : bytes := blake3 (leaf_bytes e).

(** [level.chunks(2)]: an odd node is promoted. *)
Fixpoint next_level (level : list bytes) : list bytes :=
  match level with
  | l :: r :: level => blake3 (x01 :: l ++ r) :: next_level level
  | _ => level
  end.

Fixpoint merkle_loop (fuel : nat) (level : list bytes) : list bytes :=
  match fuel with
  | O => level
  | S fuel => if 1 <? blen level then merkle_loop fuel (next_level level) else level
  end.

(** Each round shortens a level of at least two, so its length is fuel
    enough ([merkle_loop_single]). *)
Definition files_merkle_root (entries : btree bytes (ObjId * Z)) : ObjId :=
  let level := map leaf_hash entries in
  if bool_decide (level = []) then repeat x00 32 else default [] (head (merkle_loop (length level) level)).

(** ** Signing *)

(** [assignment.bundles[idx].id]; the index is in range ([assign_correct]). *)
Definition bundle_id_at (a : Assignment) (idx : Z) : ObjId := default [] (bid <$> index (rbundles a) idx).

Definition apply_entry (a : Assignment) (path root : bytes) (e : btree bytes json) : btree bytes json :=
  let e := bt_insert (bstr "b3") (JStr (to_hex root)) e in
  match bt_get (rmembers a) path with
  | Some (idx, (off, _)) =>
    bt_insert (bstr "off") (JInt off) (bt_insert (bstr "bundle") (JStr (to_hex (bundle_id_at a idx))) e)
  | None => bt_remove (bstr "off") (bt_remove (bstr "bundle") e)
  end.

(** One file of [files] or [files_optional]: its new entry, and what it adds
    to the merkle set. *)
Definition apply_file (roots : btree bytes ObjId) (a : Assignment) (f : bytes * json) : (bytes * json) * option (bytes * (ObjId * Z)) :=
  match f.2, bt_get roots f.1 with
  | JObj e, Some root =>
    let size := default 0 (get_u64 f.2 (bstr "size")) in
    ((f.1, JObj (apply_entry a f.1 root e)), Some (f.1, (root, size)))
  | _, _ => (f, None)
  end.

Definition apply_files (roots : btree bytes ObjId) (a : Assignment) (st : btree bytes json * btree bytes (ObjId * Z)) (key : bytes) :
    btree bytes json * btree bytes (ObjId * Z) :=
  match bt_get st.1 key with
  | Some (JObj files) =>
    let done := map (apply_file roots a) files in
    (bt_insert key (JObj (map fst done)) st.1,
     foldl (λ m e, bt_insert e.1 e.2 m) st.2 (omap snd done))
  | _ => st
  end.

Definition bundles_json (a : Assignment) : btree bytes json :=
  foldl (λ m (e : Z * Bundle), bt_insert (to_hex (bid e.2)) (JObj [(bstr "seq", JInt e.1); (bstr "size", JInt (blen (bbytes e.2)))]) m)
    [] (imap (λ i b, (Z.of_nat i, b)) (rbundles a)).

Definition apply_edx (content : json) (roots : btree bytes ObjId) (a : Assignment) : option (json * ObjId) :=
  obj ← as_object content;
  let '(obj, merkle_entries) := foldl (apply_files roots a) (obj, []) [bstr "files"; bstr "files_optional"] in
  let obj := match bundles_json a with [] => bt_remove (bstr "bundles") obj | bj => bt_insert (bstr "bundles") (JObj bj) obj end in
  let root := files_merkle_root merkle_entries in
  let obj := bt_insert (bstr "files_merkle_root") (JStr (to_hex root)) obj in
  Some (JObj (bt_insert (bstr "edx") (JInt EDX_VERSION) obj), root).
End merkle.

(** ** Hex *)

Lemma hex_pair_byte b : hex_pair (hex_digit (byte_val b / 16)) (hex_digit (byte_val b mod 16)) = Some b.
Proof. by destruct b; vm_compute. Qed.

Lemma hex_pairs_to_hex bs rest : hex_pairs (length bs) (to_hex bs ++ rest) = Some bs.
Proof.
  induction bs as [|b bs IH]; [done|]. unfold to_hex in *. cbn [map concat length]. unfold hex_byte at 1. cbn [app hex_pairs].
  rewrite hex_pair_byte. cbn [mbind option_bind]. by rewrite IH.
Qed.

Lemma length_to_hex bs : length (to_hex bs) = (2 * length bs)%nat.
Proof. unfold to_hex. induction bs as [|b bs IH]; [done|]. cbn [map concat]. rewrite length_app, IH. cbn. lia. Qed.

Lemma from_to_hex i : id_wf i → from_hex (to_hex i) = Some i.
Proof.
  intros Hi. unfold from_hex, blen, id_wf in *. rewrite length_to_hex, Hi. cbn [negb Z.eqb].
  change (negb (Z.of_nat (2 * 32) =? 64)) with false. rewrite <- Hi at 1. rewrite <- (app_nil_r (to_hex i)). apply hex_pairs_to_hex.
Qed.

Lemma to_hex_inj i j : id_wf i → id_wf j → to_hex i = to_hex j → i = j.
Proof. intros Hi Hj H. apply (f_equal from_hex) in H. rewrite !from_to_hex in H by done. by injection H. Qed.

(** ** Merkle trees *)

Section merkle_facts.
Context (blake3 : bytes → bytes).

Inductive tree := Leaf (e : bytes * (ObjId * Z)) | Node (l r : tree).

Fixpoint thash (t : tree) : bytes :=
  match t with Leaf e => leaf_hash blake3 e | Node l r => blake3 (x01 :: thash l ++ thash r) end.
Fixpoint tleaves (t : tree) : list (bytes * (ObjId * Z)) :=
  match t with Leaf e => [e] | Node l r => tleaves l ++ tleaves r end.

Fixpoint next_trees (l : list tree) : list tree :=
  match l with a :: b :: l => Node a b :: next_trees l | _ => l end.

Lemma pairs_ind {A} (P : list A → Prop) : P [] → (∀ a, P [a]) → (∀ a b l, P l → P (a :: b :: l)) → ∀ l, P l.
Proof.
  intros H0 H1 H2. refine (fix go l := match l with [] => H0 | [a] => H1 a | a :: b :: l => H2 a b l (go l) end).
Qed.

Lemma next_trees_spec l :
  map thash (next_trees l) = next_level blake3 (map thash l) ∧ concat (map tleaves (next_trees l)) = concat (map tleaves l) ∧
  (length l <= 2 * length (next_trees l))%nat ∧ (length (next_trees l) <= length l)%nat ∧
  ((1 < length l)%nat → (length (next_trees l) < length l)%nat).
Proof.
  induction l as [|a|a b l (IH1 & IH2 & IH3 & IH4 & IH5)] using pairs_ind; cbn [next_trees map next_level concat length].
  - split_and!; (done || lia).
  - split_and!; (done || lia).
  - cbn [thash tleaves]. rewrite IH1, IH2, <- app_assoc. split_and!; (done || lia).
Qed.

Lemma merkle_loop_single fuel l : (length l <= fuel)%nat → l ≠ [] →
  ∃ t, merkle_loop blake3 fuel (map thash l) = [thash t] ∧ tleaves t = concat (map tleaves l).
Proof.
  revert l. induction fuel as [|fuel IH]; intros l Hl Hne; [destruct l; [done|cbn in Hl; lia]|].
  cbn [merkle_loop]. unfold blen. rewrite length_map. destruct (Z.ltb_spec 1 (Z.of_nat (length l))).
  - destruct (next_trees_spec l) as (H1 & H2 & H3 & H4 & H5). rewrite <- H1, <- H2.
    apply IH; [specialize (H5 ltac:(lia)); lia|]. intros H0. rewrite H0 in H3. cbn in H3. lia.
  - destruct l as [|t [|]]; [done| |cbn in H; lia]. exists t. cbn. by rewrite app_nil_r.
Qed.

Lemma root_tree entries : entries ≠ [] → ∃ t, files_merkle_root blake3 entries = thash t ∧ tleaves t = entries.
Proof.
  intros Hne. unfold files_merkle_root. rewrite bool_decide_false by (by destruct entries).
  assert (map (leaf_hash blake3) entries = map thash (map Leaf entries)) as ->. { rewrite map_map. by apply map_ext. }
  destruct (merkle_loop_single (length (map thash (map Leaf entries))) (map Leaf entries)) as (t & -> & Ht).
  - rewrite !length_map. done.
  - by destruct entries.
  - exists t. split; [done|]. rewrite Ht, map_map. clear. induction entries as [|e l IH]; [done|]. cbn in *. by rewrite IH.
Qed.

(** Two different inputs of the hash with one output. *)
Definition collision : Prop := ∃ x y, x ≠ y ∧ blake3 x = blake3 y.
Context (blake3_length : ∀ x, length (blake3 x) = 32%nat).

Definition entry_ok (e : bytes * (ObjId * Z)) : Prop := is_u32 (blen e.1) ∧ id_wf e.2.1 ∧ is_u64 e.2.2.

Lemma leaf_bytes_inj e e' : entry_ok e → entry_ok e' → leaf_bytes e = leaf_bytes e' → e = e'.
Proof.
  destruct e as [p [i s]], e' as [p' [i' s']]. intros (H1 & H2 & H3) (H1' & H2' & H3'). unfold leaf_bytes, id_wf in *. cbn [fst snd] in *.
  intros H. apply (f_equal (drop 1)) in H. cbn [drop] in H. split_prefix H. apply le32_inj in Hpre; [|done|done].
  apply app_inj_length in H as [-> H]; [|unfold blen in Hpre; lia]. apply app_inj_length in H as [-> H]; [|congruence].
  by apply le64_inj in H as ->.
Qed.

Lemma hash_eq x y : blake3 x = blake3 y → x = y ∨ collision.
Proof. intros H. destruct (decide (x = y)); [by left|right]. by exists x, y. Qed.

Lemma length_thash t : length (thash t) = 32%nat.
Proof. destruct t; apply blake3_length. Qed.

Lemma thash_inj t1 : ∀ t2, Forall entry_ok (tleaves t1) → Forall entry_ok (tleaves t2) →
  thash t1 = thash t2 → tleaves t1 = tleaves t2 ∨ collision.
Proof.
  induction t1 as [e|l IHl r IHr]; intros [e'|l' r'] H1 H2 H; cbn [thash tleaves] in *; apply hash_eq in H as [H|?]; try (by right).
  - left. inversion_clear H1. inversion_clear H2. f_equal. by apply leaf_bytes_inj.
  - injection H as H. apply app_inj_length in H as [Hl Hr]; [|by rewrite !length_thash].
    apply Forall_app in H1 as [H1 H1'], H2 as [H2 H2'].
    destruct (IHl _ H1 H2 Hl) as [->|?]; [|by right]. destruct (IHr _ H1' H2' Hr) as [->|?]; [by left|by right].
Qed.
End merkle_facts.

(** ** Reading back what signing wrote *)

Section apply.
Context (blake3 : bytes → bytes) (roots : btree bytes ObjId) (a : Assignment).

(** A file entry after signing. *)
Definition signed_entry (path : bytes) (v : json) : json := (apply_file roots a (path, v)).1.2.

Lemma apply_file_key f : (apply_file roots a f).1 = (f.1, signed_entry f.1 f.2).
Proof. unfold signed_entry, apply_file. destruct f as [p v]. cbn [fst snd]. destruct v; try done. by destruct (bt_get roots p). Qed.

Definition signed_files (files : btree bytes json) : btree bytes json := map (λ f, (f.1, signed_entry f.1 f.2)) files.

Lemma signed_files_map files : map fst (map (apply_file roots a) files) = signed_files files.
Proof. unfold signed_files. rewrite map_map. apply map_ext. apply apply_file_key. Qed.

Lemma signed_files_keys files : bt_keys (signed_files files) = bt_keys files.
Proof. unfold bt_keys, signed_files. induction files as [|f l IH]; [done|]. cbn in *. by rewrite IH. Qed.

Lemma bt_get_signed files p : bt_get (signed_files files) p = signed_entry p <$> bt_get files p.
Proof.
  unfold signed_files. induction files as [|[q v] l IH]; [done|]. cbn [map bt_get fst snd].
  destruct (cmp p q) eqn:E; [apply cmp_eq_iff in E as <-; done|done|done].
Qed.

(** [files] and [files_optional] keep their keys; other fields are the new ones. *)
Lemma apply_edx_shape obj c root : bt_wf obj → apply_edx blake3 (JObj obj) roots a = Some (c, root) →
  ∃ obj', c = JObj obj' ∧
    (∀ key, key ∈ [bstr "files"; bstr "files_optional"] → get_object c key = signed_files <$> get_object (JObj obj) key) ∧
    bt_get obj' (bstr "edx") = Some (JInt EDX_VERSION) ∧
    default [] (get_object c (bstr "bundles")) = bundles_json a.
Proof.
  intros Hwf. unfold apply_edx. cbn [as_object mbind option_bind foldl].
  destruct (apply_files roots a (apply_files roots a (obj, []) (bstr "files")) (bstr "files_optional")) as [obj2 entries] eqn:E.
  intros H. apply (inj Some), pair_eq in H as [<- _].
  assert (∀ st key key', bt_wf st.1 → bt_wf (apply_files roots a st key).1 ∧
    get_object (JObj (apply_files roots a st key).1) key' =
      if decide (key' = key) then signed_files <$> get_object (JObj st.1) key else get_object (JObj st.1) key') as Hstep.
  { intros st key key' Hst. unfold apply_files. unfold get_object. cbn [jget].
    destruct (bt_get st.1 key) as [[| | | | | |files]|] eqn:Ek; cbn [fst mbind option_bind as_object fmap option_fmap option_map];
      try (split; [done|]; case_decide; [subst key'; by rewrite Ek|done]).
    rewrite signed_files_map. split; [by apply bt_insert_wf|]. rewrite bt_get_insert. repeat case_decide; done || congruence. }
  destruct (Hstep (obj, []) (bstr "files") (bstr "files") Hwf) as [W1 _].
  destruct (Hstep _ (bstr "files_optional") (bstr "files") W1) as [W2 _]. rewrite E in W2. cbn [fst] in W2.
  set (obj3 := match bundles_json a with [] => bt_remove (bstr "bundles") obj2 | bj => bt_insert (bstr "bundles") (JObj bj) obj2 end).
  assert (∀ k, k ≠ bstr "bundles" → bt_get obj3 k = bt_get obj2 k) as H3.
  { intros k Hk. unfold obj3. destruct (bundles_json a); [rewrite bt_get_remove by done|rewrite bt_get_insert]; by rewrite decide_False. }
  eexists. split; [done|]. split_and!.
  - intros key Hkey. assert (key ≠ bstr "edx" ∧ key ≠ bstr "files_merkle_root" ∧ key ≠ bstr "bundles") as (N1 & N2 & N3).
    { rewrite !elem_of_cons, elem_of_nil in Hkey. destruct Hkey as [->|[->|[]]]; split_and!; vm_compute; discriminate. }
    unfold get_object at 1. cbn [jget]. rewrite !bt_get_insert, !decide_False, H3 by done. change (v ← bt_get obj2 key; as_object v) with (get_object (JObj obj2) key).
    destruct (Hstep (apply_files roots a (obj, []) (bstr "files")) (bstr "files_optional") key W1) as [_ S2]. rewrite E in S2. cbn [fst] in S2. rewrite S2.
    destruct (Hstep (obj, []) (bstr "files") key Hwf) as [_ S1]. destruct (Hstep (obj, []) (bstr "files") (bstr "files_optional") Hwf) as [_ S1'].
    rewrite !elem_of_cons, elem_of_nil in Hkey. destruct Hkey as [->|[->|[]]].
    + rewrite decide_False by (vm_compute; discriminate). rewrite S1. by rewrite decide_True.
    + rewrite decide_True by done. rewrite S1'. by rewrite decide_False by (vm_compute; discriminate).
  - rewrite bt_get_insert. by rewrite decide_True.
  - unfold get_object. cbn [jget]. rewrite !bt_get_insert, !decide_False by (vm_compute; discriminate). unfold obj3.
    destruct (bundles_json a) as [|e l]; [rewrite bt_get_remove by done|rewrite bt_get_insert]; rewrite decide_True by done; done.
Qed.
End apply.

(** ** Sorting by the first component *)

Lemma map_imap {A B C} (f : B → C) (g : nat → A → B) l : map f (imap g l) = imap (λ i x, f (g i x)) l.
Proof. exact (fmap_imap g f l). Qed.

Lemma imap_const {A B} (f : A → B) l : imap (λ _ x, f x) l = map f l.
Proof. induction l as [|x l IH]; [done|]. cbn. f_equal. exact IH. Qed.

Lemma sorted_fst_unique {B} (l k : list (Z * B)) : l ≡ₚ k →
  StronglySorted (λ x y, x.1 <= y.1) l → StronglySorted (λ x y, x.1 < y.1) k → l = k.
Proof.
  intros Hp Hl Hk. revert l Hp Hl. induction Hk as [|x k Hk IH Hx]; intros l Hp Hl; [by apply Permutation_nil_r in Hp|].
  destruct l as [|y l]; [by apply Permutation_nil_l in Hp|]. inversion Hl as [|? ? Hl' Hy]; subst.
  rewrite Forall_forall in Hx, Hy. assert (y = x) as ->.
  { assert (y ∈ x :: k) as [?|Hin]%elem_of_cons by (rewrite <- Hp; left); [done|].
    assert (x ∈ y :: l) as [?|Hin']%elem_of_cons by (rewrite Hp; left); [done|]. specialize (Hx y Hin). specialize (Hy x Hin'). lia. }
  f_equal. apply IH; [by apply (inj (cons x))|done].
Qed.

Lemma pair_ole_fst `{Ord B} (x y : Z * B) : ole x y → x.1 <= y.1.
Proof. unfold ole. cbn. unfold then_. destruct (Z.compare_spec x.1 y.1); [lia|lia|done]. Qed.

Lemma StronglySorted_map' {A B} (f : A → B) (R : A → A → Prop) (S : B → B → Prop) l :
  (∀ x y, R x y → S (f x) (f y)) → StronglySorted R l → StronglySorted S (map f l).
Proof.
  intros HRS. induction 1 as [|x l _ IH Hx]; cbn; constructor; [done|]. apply Forall_forall. rewrite Forall_forall in Hx.
  intros y Hy. apply list_elem_of_fmap in Hy as (z & -> & Hz). auto.
Qed.

Lemma sort_fst `{Ord B} (l k : list (Z * B)) : l ≡ₚ k → StronglySorted (λ x y, x.1 < y.1) k → Ordered.sort l = k.
Proof.
  intros Hp. apply sorted_fst_unique; [by rewrite sort_perm|].
  rewrite <- (map_id (Ordered.sort l)). apply (StronglySorted_map' id ole); [apply pair_ole_fst|apply sort_sorted].
Qed.

Lemma imap_fst_sorted {A B} (f : A → B) (l : list A) : StronglySorted (λ x y : Z * B, x.1 < y.1) (imap (λ i b, (Z.of_nat i, f b)) l).
Proof.
  assert (∀ k, StronglySorted (λ x y : Z * B, x.1 < y.1) (imap (λ i b, (Z.of_nat (k + i), f b)) l)) as H; [|exact (H 0%nat)].
  induction l as [|b l IH]; intros k; cbn [imap]; constructor.
  - rewrite (imap_ext _ (λ i b, (Z.of_nat (S k + i), f b))) by (intros; simpl; by rewrite Nat.add_succ_r). apply IH.
  - apply Forall_forall. intros x Hx. apply elem_of_lookup_imap in Hx as (i & c & -> & _). cbn. lia.
Qed.

(** ** The bundle table *)

Lemma length_bundle_ids blake3 files prev : (∀ x, length (blake3 x) = 32%nat) →
  Forall (λ b, id_wf (bid b)) (rbundles (assign blake3 files prev)).
Proof.
  intros Hl. unfold assign. destruct (bundle_build_spec blake3 files (plan files prev)) as (-> & _ & _).
  apply Forall_forall. intros b Hb. apply list_elem_of_fmap in Hb as (m & -> & _). apply Hl.
Qed.

Section table.
Context (a : Assignment) (Hids : Forall (λ b, id_wf (bid b)) (rbundles a)) (Hnd : NoDup (map bid (rbundles a))).
Context (Hseq : blen (rbundles a) <= u64_max).

Definition row (i : nat) (b : Bundle) : json := JObj [(bstr "seq", JInt (Z.of_nat i)); (bstr "size", JInt (blen (bbytes b)))].

Definition rows : list (bytes * json) := imap (λ i b, (to_hex (bid b), row i b)) (rbundles a).

Lemma bundles_json_rows : bundles_json a = foldl (λ m e, bt_insert e.1 e.2 m) [] rows.
Proof.
  unfold bundles_json, rows, row.
  assert (∀ l (k : nat) m, foldl (λ m (e : Z * Bundle), bt_insert (to_hex (bid e.2)) (JObj [(bstr "seq", JInt e.1); (bstr "size", JInt (blen (bbytes e.2)))]) m)
      m (imap (λ i b, (Z.of_nat (k + i), b)) l) =
    foldl (λ m e, bt_insert e.1 e.2 m) m (imap (λ i b, (to_hex (bid b), JObj [(bstr "seq", JInt (Z.of_nat (k + i))); (bstr "size", JInt (blen (bbytes b)))])) l)) as H.
  { induction l as [|b l IH]; intros k m; [done|]. cbn [imap foldl fst snd]. rewrite Nat.add_0_r.
    specialize (IH (S k)). rewrite (imap_ext _ (λ i b, (Z.of_nat (S k + i), b))) by (intros; simpl; by rewrite Nat.add_succ_r).
    rewrite IH. f_equal. apply imap_ext. intros. simpl. by rewrite Nat.add_succ_r. }
  exact (H (rbundles a) 0%nat []).
Qed.

Lemma row_keys : map fst rows = map (λ b, to_hex (bid b)) (rbundles a).
Proof. unfold rows. rewrite map_imap. exact (imap_const (λ b, to_hex (bid b)) (rbundles a)). Qed.

Lemma row_keys_nodup : NoDup (map fst rows).
Proof.
  rewrite row_keys, <- (map_map bid to_hex). apply NoDup_fmap_2_strong; [|done]. intros i j Hi Hj. apply to_hex_inj.
  - apply list_elem_of_fmap in Hi as (b & -> & Hb). rewrite Forall_forall in Hids. by apply Hids.
  - apply list_elem_of_fmap in Hj as (b & -> & Hb). rewrite Forall_forall in Hids. by apply Hids.
Qed.

Lemma inserts_spec {V} (l : list (bytes * V)) : ∀ m, bt_wf m → NoDup (map fst l) → (∀ e, e ∈ l → bt_get m e.1 = None) →
  bt_wf (foldl (λ m e, bt_insert e.1 e.2 m) m l) ∧ foldl (λ m e, bt_insert e.1 e.2 m) m l ≡ₚ m ++ l.
Proof.
  induction l as [|[k v] l IH]; intros m Hm Hnd' Hnone; cbn [foldl map fst snd] in *; [by rewrite app_nil_r|].
  apply NoDup_cons in Hnd' as [Hk Hl]. assert (bt_wf (bt_insert k v m)) as Hw by by apply bt_insert_wf.
  destruct (IH (bt_insert k v m) Hw Hl) as [W P].
  { intros e He. rewrite bt_get_insert, decide_False; [apply Hnone; by right|]. intros Heq. apply Hk. rewrite <- Heq. by apply list_elem_of_fmap_2. }
  split; [done|]. rewrite P. rewrite <- Permutation_middle. change ((k, v) :: m ++ l) with (((k, v) :: m) ++ l). apply Permutation_app_tail.
  apply NoDup_Permutation; [by apply NoDup_fmap_1 with fst, bt_keys_nodup| |].
  - apply NoDup_cons. split; [|by apply NoDup_fmap_1 with fst, bt_keys_nodup]. intros Hin. apply bt_get_elem in Hin; [|done].
    specialize (Hnone (k, v) (list_elem_of_here _ _)). cbn in Hnone. congruence.
  - intros [k' v']. rewrite <- bt_get_elem, bt_get_insert, elem_of_cons, <- bt_get_elem by done. case_decide.
    + subst k'. split; [intros H'; apply (inj Some) in H' as ->; by left|intros [H'|H']; [by apply pair_eq in H' as [_ ->]|]].
      specialize (Hnone (k, v) (list_elem_of_here _ _)). cbn in Hnone. congruence.
    + split; [by right|intros [H'|H']; [by apply pair_eq in H' as [-> _]|done]].
Qed.

Lemma bundles_json_perm : bt_wf (bundles_json a) ∧ bundles_json a ≡ₚ rows.
Proof. rewrite bundles_json_rows. apply (inserts_spec rows []); [apply bt_wf_nil|apply row_keys_nodup|done]. Qed.

Lemma row_seq i b : rbundles a !! i = Some b → get_u64 (row i b) (bstr "seq") = Some (Z.of_nat i).
Proof.
  intros Hi%lookup_lt_Some. change (as_u64 (JInt (Z.of_nat i)) = Some (Z.of_nat i)). unfold as_u64.
  rewrite (proj2 (Z.leb_le 0 (Z.of_nat i))), (proj2 (Z.leb_le _ u64_max)) by (unfold blen in Hseq; lia). done.
Qed.

(** Sorting the table by [seq] recovers the order of creation. *)
Lemma bundle_order_rows c : default [] (get_object c (bstr "bundles")) = bundles_json a →
  bundle_order c = map (λ b, to_hex (bid b)) (rbundles a).
Proof.
  intros Hc. unfold bundle_order. rewrite Hc. destruct bundles_json_perm as [_ Hp].
  set (T := imap (λ i (e : bytes * json), (default (Z.of_nat i) (get_u64 e.2 (bstr "seq")), (Z.of_nat i, e.1))) (bundles_json a)).
  set (key := λ t : Z * (Z * bytes), (t.1, t.2.2)).
  assert (map key T = map (λ e : bytes * json, (default 0 (get_u64 e.2 (bstr "seq")), e.1)) (bundles_json a)) as HT.
  { unfold T. rewrite map_imap, <- imap_const. apply imap_ext. intros i e Hi.
    assert (e ∈ rows) as He by (rewrite <- Hp; by eapply list_elem_of_lookup_2).
    apply elem_of_lookup_imap in He as (j & b & -> & Hj). unfold key. cbn [fst snd compose]. rewrite (row_seq j b Hj). done. }
  set (R := map (λ e : bytes * json, (default 0 (get_u64 e.2 (bstr "seq")), e.1)) rows).
  assert (R = imap (λ i b, (Z.of_nat i, to_hex (bid b))) (rbundles a)) as HR.
  { unfold R, rows. rewrite map_imap. apply imap_ext. intros i b Hi. cbn [fst snd]. by rewrite (row_seq i b). }
  assert (map key T ≡ₚ R) as HTR by (rewrite HT; by apply Permutation_map).
  assert (map key (Ordered.sort T) = R) as Hs.
  { apply (sorted_fst_unique (map key (Ordered.sort T)) R).
    - rewrite <- HTR. apply Permutation_map, sort_perm.
    - apply StronglySorted_map' with (R := ole); [|apply sort_sorted]. intros x y Hxy. by apply pair_ole_fst in Hxy.
    - rewrite HR. apply imap_fst_sorted. }
  transitivity (map snd (map key (Ordered.sort T))); [by rewrite map_map|]. rewrite Hs, HR. rewrite map_imap. exact (imap_const (λ b, to_hex (bid b)) (rbundles a)).
Qed.
End table.

(** ** Grouping by bundle *)

Definition refs_of (h : bytes) (refs : list (bytes * (Z * bytes))) : list (Z * bytes) :=
  map snd (List.filter (λ r, bool_decide (r.1 = h)) refs).

Lemma pushes_get refs h : ∀ m,
  bt_get (foldl (λ m (r : bytes * (Z * bytes)), bt_upsert (λ l, l ++ [r.2]) r.1 [r.2] m) m refs) h =
  match bt_get m h with
  | Some l => Some (l ++ refs_of h refs)
  | None => if bool_decide (refs_of h refs = []) then None else Some (refs_of h refs)
  end.
Proof.
  induction refs as [|[k x] refs IH]; intros m; cbn [foldl].
  { unfold refs_of. cbn. destruct (bt_get m h); [by rewrite app_nil_r|done]. }
  rewrite IH, bt_get_upsert. cbn [fst snd]. unfold refs_of. cbn [List.filter fst snd]. case_decide as Hk.
  - subst k. rewrite (bool_decide_true (h = h)) by done. cbn [map snd]. destruct (bt_get m h); [by rewrite <- app_assoc|done].
  - rewrite (bool_decide_false (k = h)) by (intros ->; done). done.
Qed.

Lemma pushes_wf refs : ∀ m, bt_wf m →
  bt_wf (foldl (λ m (r : bytes * (Z * bytes)), bt_upsert (λ l, l ++ [r.2]) r.1 [r.2] m) m refs).
Proof. induction refs as [|r refs IH]; intros m Hm; cbn [foldl]; [done|]. apply IH. by apply bt_upsert_wf. Qed.

Lemma omap_ext_in {A B} (f g : A → option B) (l : list A) : (∀ x, x ∈ l → f x = g x) → omap f l = omap g l.
Proof.
  induction l as [|x l IH]; intros Hfg; [done|].
  change (match f x with Some y => y :: omap f l | None => omap f l end = match g x with Some y => y :: omap g l | None => omap g l end).
  rewrite Hfg by left. rewrite IH; [done|]. intros y Hy. apply Hfg. by right.
Qed.

Lemma take_bundles_spec order : ∀ m, bt_wf m → NoDup order →
  take_bundles order m = omap (λ b, (λ l, map snd (Ordered.sort l)) <$> bt_get m b) order.
Proof.
  induction order as [|b order IH]; intros m Hm Hnd; [done|]. apply NoDup_cons in Hnd as [Hb Hnd]. cbn [take_bundles].
  change (omap ?f (b :: order)) with (match f b with Some y => y :: omap f order | None => omap f order end). cbn beta.
  destruct (bt_get m b) as [l|] eqn:E; cbn [fmap option_fmap option_map]; [|by apply IH].
  f_equal. rewrite IH by (done || by apply bt_remove_wf). apply omap_ext_in. intros b' Hb'.
  rewrite bt_get_remove by done. rewrite decide_False; [done|]. by intros ->.
Qed.

(** ** Extents of the members of a bundle *)

Fixpoint extents files (off : Z) (b : list bytes) : list (Z * bytes) :=
  match b with [] => [] | p :: b => (off, p) :: extents files (off + blen (file_of files p)) b end.

Lemma extents_snd files b : ∀ off, map snd (extents files off b) = b.
Proof. induction b as [|p b IH]; intros off; cbn; [done|]. by rewrite IH. Qed.

Lemma elem_of_extents files b : ∀ off x, x ∈ extents files off b ↔
  ∃ pre p post, b = pre ++ p :: post ∧ x = (off + bundle_size files pre, p).
Proof.
  induction b as [|q b IH]; intros off x; cbn [extents].
  { rewrite elem_of_nil. split; [done|]. intros ([|??] & ? & ? & [=] & _). }
  rewrite elem_of_cons, IH. split.
  - intros [->|(pre & p & post & -> & ->)].
    + exists [], q, b. split; [done|]. f_equal. unfold bundle_size. cbn. lia.
    + exists (q :: pre), p, post. split; [done|]. f_equal. change (q :: pre) with ([q] ++ pre). rewrite bundle_size_app.
      unfold bundle_size at 2. cbn. lia.
  - intros ([|q' pre] & p & post & Hb & ->).
    + left. injection Hb as -> ->. f_equal. unfold bundle_size. cbn. lia.
    + right. injection Hb as <- ->. exists pre, p, post. split; [done|]. f_equal. change (q :: pre) with ([q] ++ pre). rewrite bundle_size_app.
      unfold bundle_size at 1. cbn. lia.
Qed.

Lemma extents_sorted files b : (∀ p, p ∈ b → file_of files p ≠ []) → ∀ off,
  StronglySorted (λ x y : Z * bytes, x.1 < y.1) (extents files off b).
Proof.
  intros Hne. induction b as [|p b IH]; intros off; cbn [extents]; constructor.
  - apply IH. intros q Hq. apply Hne. by right.
  - apply Forall_forall. intros x (pre & q & post & -> & ->)%elem_of_extents. cbn.
    pose proof (bundle_size_nonneg files pre). pose proof (Hne p (list_elem_of_here _ _)).
    destruct (file_of files p); [done|]. rewrite blen_cons. pose proof (blen_nonneg l). lia.
Qed.

Lemma nodup_split {A} (l1 l2 l1' l2' : list A) x : NoDup (l1 ++ x :: l2) → l1 ++ x :: l2 = l1' ++ x :: l2' → l1 = l1'.
Proof.
  intros Hnd Heq. assert (x ∉ l1) as N1.
  { apply NoDup_app in Hnd as (_ & H & _). intros Hx. apply (H x Hx). left. }
  assert (x ∉ l1') as N2.
  { rewrite Heq in Hnd. apply NoDup_app in Hnd as (_ & H & _). intros Hx. apply (H x Hx). left. }
  clear Hnd. revert l1' N2 Heq. induction l1 as [|y l1 IH]; intros [|y' l1'] N2 Heq; [done| | |].
  - injection Heq as -> _. exfalso. apply N2. left.
  - injection Heq as -> _. exfalso. apply N1. left.
  - injection Heq as <- Heq. f_equal. apply IH; [by intros ?; apply N1; right|by intros ?; apply N2; right|done].
Qed.

Lemma NoDup_concat_lookup {A} (ls : list (list A)) i j l k x :
  NoDup (concat ls) → ls !! i = Some l → ls !! j = Some k → x ∈ l → x ∈ k → i = j.
Proof.
  revert i j. induction ls as [|l0 ls IH]; intros i j Hnd Hi Hj Hl Hk; [done|]. cbn in Hnd. apply NoDup_app in Hnd as (_ & Hd & Hnd).
  assert (∀ n m, ls !! n = Some m → ∀ y, y ∈ m → y ∈ concat ls) as Hc.
  { intros n m Hn y Hy. apply list_elem_of_In, in_concat. exists m. rewrite <- !list_elem_of_In. split; [|done]. by eapply list_elem_of_lookup_2. }
  destruct i as [|i], j as [|j]; cbn in Hi, Hj; [done| | |].
  - injection Hi as ->. exfalso. apply (Hd x Hl). by eapply Hc.
  - injection Hj as ->. exfalso. apply (Hd x Hk). by eapply Hc.
  - f_equal. by eapply IH.
Qed.

(** ** Signing again *)

Section resign.
Context (blake3 : bytes → bytes) (Hlen : ∀ x, length (blake3 x) = 32%nat).
Context (files : Files) (prev : Memberships) (roots : btree bytes ObjId) (obj : btree bytes json).

(** The file tables of the content.json. *)
Definition table_of (key : bytes) : btree bytes json := default [] (get_object (JObj obj) key).

(** The content.json lists every packed file once, with a root; other entries
    without a root carry no bundle reference; sizes fit their integers. *)
Record signable : Prop := {
  sg_obj : bt_wf obj;
  sg_files : bt_wf (table_of (bstr "files"));
  sg_optional : bt_wf (table_of (bstr "files_optional"));
  sg_packed : bt_wf files;
  sg_listed : ∀ p, is_Some (bt_get files p) → is_Some (bt_get roots p) ∧
    ((∃ e, bt_get (table_of (bstr "files")) p = Some (JObj e) ∧ bt_get (table_of (bstr "files_optional")) p = None) ∨
     (∃ e, bt_get (table_of (bstr "files_optional")) p = Some (JObj e) ∧ bt_get (table_of (bstr "files")) p = None));
  sg_stale : ∀ key p v, key ∈ [bstr "files"; bstr "files_optional"] → bt_get (table_of key) p = Some v →
    bt_get roots p = None → jget v (bstr "bundle") = None;
  sg_entry : ∀ key p e, bt_get (table_of key) p = Some (JObj e) → bt_wf e;
  sg_once : NoDup (concat prev);
  sg_sizes : Forall (λ b, blen (bbytes b) <= u64_max) (rbundles (assign blake3 files prev));
  sg_count : blen (rbundles (assign blake3 files prev)) <= u64_max
}.
Context (S : signable).
Abbreviation a := (assign blake3 files prev).
Abbreviation ms := (plan files prev).

Lemma assigned_bundles : rbundles a = map (bundle_of blake3 files) ms.
Proof. apply bundle_build_spec. Qed.

Lemma plan_nodup : NoDup (concat ms).
Proof. destruct (plan_spec files prev (sg_packed S)) as (_ & _ & Hp). rewrite (Hp (sg_once S)). apply bt_keys_nodup, S. Qed.

Lemma plan_nodup_at i m : ms !! i = Some m → NoDup m.
Proof.
  intros Hi. pose proof plan_nodup as Hnd. rewrite <- (take_drop_middle _ _ _ Hi), List.concat_app in Hnd. cbn in Hnd.
  apply NoDup_app in Hnd as (_ & _ & Hnd). by apply NoDup_app in Hnd as [? _].
Qed.

(** A member's index entry: its bundle and its offset there. *)
Lemma member_located p idx off len : bt_get (rmembers a) p = Some (idx, (off, len)) →
  0 <= idx ∧ (∃ b, rbundles a !! Z.to_nat idx = Some b ∧ bundle_id_at a idx = bid b) ∧ is_u64 off ∧
  ∃ pre post, ms !! Z.to_nat idx = Some (pre ++ p :: post) ∧ off = bundle_size files pre.
Proof.
  intros Hp. destruct (bundle_build_spec blake3 files ms) as (_ & B2 & _). destruct (B2 p _ Hp) as (pre & post & Hi & He). cbn [fst snd] in Hi, He.
  apply pair_eq in He as [-> _]. apply index_Some in Hi as [H0 Hi].
  assert (rbundles a !! Z.to_nat idx = Some (bundle_of blake3 files (pre ++ p :: post))) as Hb.
  { rewrite assigned_bundles. by apply list_lookup_fmap_Some_2 with (f := bundle_of blake3 files) in Hi. }
  split_and!; [done| | |by exists pre, post].
  - eexists. split; [exact Hb|]. unfold bundle_id_at. by rewrite index_lookup, Hb by done.
  - pose proof (sg_sizes S) as Hs. rewrite Forall_forall in Hs. specialize (Hs _ (list_elem_of_lookup_2 _ _ _ Hb)). cbn in Hs.
    rewrite blen_body, bundle_size_app in Hs. pose proof (bundle_size_nonneg files pre). pose proof (bundle_size_nonneg files (p :: post)).
    unfold is_u64. lia.
Qed.

Lemma signed_ref key p v : key ∈ [bstr "files"; bstr "files_optional"] → bt_get (table_of key) p = Some v →
  member_ref (p, signed_entry roots a p v) =
  match bt_get roots p, v, bt_get (rmembers a) p with
  | Some _, JObj _, Some (idx, (off, _)) => Some (to_hex (bundle_id_at a idx), (off, p))
  | _, _, _ => None
  end.
Proof.
  intros Hk Hv. unfold signed_entry, apply_file. cbn [fst snd]. destruct (bt_get roots p) as [root|] eqn:Er.
  2:{ assert (jget v (bstr "bundle") = None) as Hn by by eapply (sg_stale S). assert (member_ref (p, v) = None) as Hm.
      { unfold member_ref, get_str. cbn [fst snd]. by rewrite Hn. } destruct v; exact Hm. }
  destruct v as [| | | | | |e]; try done. cbn [fst snd]. unfold apply_entry, member_ref, get_str, get_u64.
  destruct (bt_get (rmembers a) p) as [[idx [off len]]|] eqn:Em; cbn [fst snd jget].
  - destruct (member_located p idx off len Em) as (_ & _ & Hoff & _). unfold is_u64 in Hoff.
    rewrite !bt_get_insert. rewrite (decide_False (P := bstr "bundle" = bstr "off")) by (vm_compute; discriminate). rewrite !decide_True by done.
    cbn [mbind option_bind as_str as_u64]. rewrite (proj2 (Z.leb_le 0 off)), (proj2 (Z.leb_le off u64_max)) by lia. done.
  - assert (bt_wf (bt_insert (bstr "b3") (JStr (to_hex root)) e)) as Hw by (apply bt_insert_wf; by eapply (sg_entry S)).
    rewrite (bt_get_remove _ (bstr "off") (bstr "off")) by by apply bt_remove_wf. rewrite decide_True by done.
    cbn [mbind option_bind]. by destruct (bt_get _ (bstr "bundle")) as [[]|].
Qed.

Context (c : json) (root : ObjId) (Hc : apply_edx blake3 (JObj obj) roots a = Some (c, root)).

Lemma signed_table key : key ∈ [bstr "files"; bstr "files_optional"] → default [] (get_object c key) = signed_files roots a (table_of key).
Proof.
  intros Hk. destruct (apply_edx_shape blake3 roots a obj c root (sg_obj S) Hc) as (obj' & _ & Hf & _). rewrite (Hf key Hk). unfold table_of.
  by destruct (get_object (JObj obj) key).
Qed.

Lemma sg_table key : key ∈ [bstr "files"; bstr "files_optional"] → bt_wf (table_of key).
Proof. rewrite !elem_of_cons, elem_of_nil. intros [->|[->|[]]]; apply S. Qed.

Definition refs_in (key : bytes) : list (bytes * (Z * bytes)) := omap member_ref (signed_files roots a (table_of key)).

Lemma member_refs_split : member_refs c = refs_in (bstr "files") ++ refs_in (bstr "files_optional").
Proof.
  unfold member_refs. cbn [map concat]. rewrite !signed_table by (rewrite !elem_of_cons; auto). by rewrite app_nil_r.
Qed.

Lemma elem_of_refs_in key r : key ∈ [bstr "files"; bstr "files_optional"] → r ∈ refs_in key ↔
  ∃ p e root idx off len, bt_get (table_of key) p = Some (JObj e) ∧ bt_get roots p = Some root ∧
    bt_get (rmembers a) p = Some (idx, (off, len)) ∧ r = (to_hex (bundle_id_at a idx), (off, p)).
Proof.
  intros Hk. unfold refs_in. rewrite list_elem_of_omap. split.
  - intros (f & Hf & Hr). apply list_elem_of_fmap in Hf as ([p v] & -> & Hin). cbn [fst snd] in Hr.
    apply bt_get_elem in Hin; [|by apply sg_table]. rewrite (signed_ref key p v Hk Hin) in Hr.
    destruct (bt_get roots p) as [rt|] eqn:Er; [|done]. destruct v as [| | | | | |e]; try done.
    destruct (bt_get (rmembers a) p) as [[idx [off len]]|] eqn:Em; [|done]. apply (inj Some) in Hr as <-. by exists p, e, rt, idx, off, len.
  - intros (p & e & rt & idx & off & len & Ht & Hr & Hm & ->). exists (p, signed_entry roots a p (JObj e)). split.
    + apply list_elem_of_fmap. exists (p, JObj e). split; [done|]. apply bt_get_elem; [by apply sg_table|done].
    + rewrite (signed_ref key p (JObj e) Hk Ht). by rewrite Hr, Hm.
Qed.

Lemma packed_member p e : bt_get (rmembers a) p = Some e → is_Some (bt_get files p).
Proof.
  intros He. destruct (bundle_build_spec blake3 files ms) as (_ & _ & B3). destruct (plan_spec files prev (sg_packed S)) as (_ & Hin & _).
  apply Hin, B3. by exists e.
Qed.

Lemma elem_of_member_refs r : r ∈ member_refs c ↔
  ∃ p idx off len, bt_get (rmembers a) p = Some (idx, (off, len)) ∧ r = (to_hex (bundle_id_at a idx), (off, p)).
Proof.
  rewrite member_refs_split, elem_of_app, !elem_of_refs_in by (rewrite !elem_of_cons; auto). split.
  - intros [(p & e & rt & idx & off & len & _ & _ & Hm & ->)|(p & e & rt & idx & off & len & _ & _ & Hm & ->)]; by exists p, idx, off, len.
  - intros (p & idx & off & len & Hm & ->). destruct (sg_listed S p (packed_member p _ Hm)) as ([rt Hr] & [(e & He & _)|(e & He & _)]).
    + left. by exists p, e, rt, idx, off, len.
    + right. by exists p, e, rt, idx, off, len.
Qed.

Lemma refs_in_nodup key : key ∈ [bstr "files"; bstr "files_optional"] → NoDup (refs_in key).
Proof.
  intros Hk. unfold refs_in. assert (NoDup (map fst (signed_files roots a (table_of key)))) as Hnd.
  { change (NoDup (bt_keys (signed_files roots a (table_of key)))). rewrite signed_files_keys. by apply bt_keys_nodup, sg_table. }
  induction (signed_files roots a (table_of key)) as [|[p v] l IH]; [constructor|]. cbn [map fst] in Hnd. apply NoDup_cons in Hnd as [Hp Hl].
  change (NoDup (match member_ref (p, v) with Some y => y :: omap member_ref l | None => omap member_ref l end)).
  destruct (member_ref (p, v)) as [r|] eqn:E; [|by apply IH]. apply NoDup_cons. split; [|by apply IH].
  intros ([p' v'] & Hin & Hr)%list_elem_of_omap. apply Hp. assert (∀ f r, member_ref f = Some r → r.2.2 = f.1) as H2.
  { intros [q w] r0. unfold member_ref. cbn [fst snd]. destruct (get_str w _); [|done]. cbn. destruct (get_u64 w _); [|done]. by intros [= <-]. }
  apply H2 in E. apply H2 in Hr. cbn [fst] in E, Hr. rewrite <- E, Hr. by apply (list_elem_of_fmap_2 fst _ (p', v')).
Qed.

Lemma member_refs_nodup : NoDup (member_refs c).
Proof.
  rewrite member_refs_split. apply NoDup_app. split_and!; [apply refs_in_nodup; rewrite !elem_of_cons; auto| |apply refs_in_nodup; rewrite !elem_of_cons; auto].
  intros r H1 H2. apply elem_of_refs_in in H1 as (p & e & rt & idx & off & len & Ht & _ & Hm & ->); [|rewrite !elem_of_cons; auto].
  apply elem_of_refs_in in H2 as (p' & e' & rt' & idx' & off' & len' & Ht' & _ & _ & Hr); [|rewrite !elem_of_cons; auto].
  apply pair_eq in Hr as [_ Hr]. apply pair_eq in Hr as [_ <-].
  destruct (sg_listed S p (packed_member p _ Hm)) as (_ & [(? & _ & Hn)|(? & _ & Hn)]); congruence.
Qed.

Context (Hids : NoDup (map bid (rbundles a))) (Hfilled : ∀ p, is_Some (bt_get files p) → file_of files p ≠ []).

Lemma refs_of_bundle i m : ms !! i = Some m → refs_of (to_hex (blake3 (body files m))) (member_refs c) ≡ₚ extents files 0 m.
Proof.
  intros Hi. assert (rbundles a !! i = Some (bundle_of blake3 files m)) as Hb.
  { rewrite assigned_bundles. by apply list_lookup_fmap_Some_2 with (f := bundle_of blake3 files) in Hi. }
  pose proof plan_nodup as Hnd. assert (∀ p, p ∈ m → is_Some (bt_get files p)) as Hm.
  { intros p Hp. destruct (plan_spec files prev (sg_packed S)) as (_ & Hin & _). apply Hin, list_elem_of_In, in_concat. exists m.
    rewrite <- !list_elem_of_In. split; [by eapply list_elem_of_lookup_2|done]. }
  assert (∀ p idx off len, bt_get (rmembers a) p = Some (idx, (off, len)) → to_hex (bundle_id_at a idx) = to_hex (blake3 (body files m)) → Z.to_nat idx = i) as Hidx.
  { intros p idx off len Hp Hh. destruct (member_located p idx off len Hp) as (H0 & (b & Hb' & Hid) & _). rewrite Hid in Hh.
    pose proof (length_bundle_ids blake3 files prev Hlen) as Hw. rewrite Forall_forall in Hw.
    apply to_hex_inj in Hh; [|apply Hw; by eapply list_elem_of_lookup_2|apply Hlen].
    eapply NoDup_lookup; [exact Hids| |].
    - by apply (list_lookup_fmap_Some_2 bid).
    - rewrite Hh. by apply (list_lookup_fmap_Some_2 bid) in Hb. }
  apply NoDup_Permutation.
  - unfold refs_of. assert (∀ r r', r ∈ member_refs c → r' ∈ member_refs c → r.2 = r'.2 → r = r') as Hinj.
    { intros r r' (p & idx & off & len & Hp & ->)%elem_of_member_refs (p' & idx' & off' & len' & Hp' & ->)%elem_of_member_refs Hr.
      cbn [snd] in Hr. apply pair_eq in Hr as [-> ->]. congruence. }
    apply NoDup_fmap_2_strong; [|by apply NoDup_bfilter, member_refs_nodup].
    intros r r' [Hr _]%elem_of_bfilter [Hr' _]%elem_of_bfilter. by apply Hinj.
  - apply (NoDup_fmap_1 snd). change (snd <$> extents files 0 m) with (map snd (extents files 0 m)). rewrite extents_snd.
    by eapply plan_nodup_at.
  - intros [off p]. unfold refs_of. rewrite list_elem_of_fmap. rewrite elem_of_extents. split.
    + intros ([h r] & Hr & [Hin Hh]%elem_of_bfilter). cbn [fst snd] in *. subst r. apply bool_decide_eq_true in Hh. subst h.
      apply elem_of_member_refs in Hin as (p' & idx & off' & len & Hp & Hr). apply pair_eq in Hr as [Hh Hr]. apply pair_eq in Hr as [-> ->].
      pose proof (Hidx p' idx off' len Hp (eq_sym Hh)) as Hn. destruct (member_located p' idx off' len Hp) as (_ & _ & _ & pre & post & Hl & ->).
      rewrite Hn, Hi in Hl. apply (inj Some) in Hl as ->. by exists pre, p', post.
    + intros (pre & p' & post & -> & Heq). apply pair_eq in Heq as [-> ->]. rewrite Z.add_0_l.
      destruct (bundle_build_spec blake3 files ms) as (_ & _ & B3). assert (is_Some (bt_get (rmembers a) p')) as [[idx [off len]] Hp].
      { apply B3, list_elem_of_In, in_concat. exists (pre ++ p' :: post). rewrite <- !list_elem_of_In. split; [by eapply list_elem_of_lookup_2|].
        apply elem_of_app; right; left. }
      destruct (member_located p' idx off len Hp) as (_ & (b & Hb' & Hid) & _ & pre' & post' & Hl & Hoff).
      assert (Z.to_nat idx = i) as Hn.
      { eapply (NoDup_concat_lookup ms); [exact Hnd|exact Hl|exact Hi|apply elem_of_app; right; left|apply elem_of_app; right; left]. }
      rewrite Hn, Hi in Hl. apply (inj Some) in Hl. assert (pre = pre') as <-.
      { eapply nodup_split; [|exact Hl]. by eapply plan_nodup_at. }
      exists (to_hex (blake3 (body files (pre ++ p' :: post))), (bundle_size files pre, p')). split; [done|]. apply elem_of_bfilter. cbn [fst].
      split; [|by apply bool_decide_eq_true]. apply elem_of_member_refs. exists p', idx, off, len. split; [done|]. rewrite Hoff. f_equal. f_equal.
      rewrite Hid. rewrite Hn, Hb in Hb'. by apply (inj Some) in Hb' as <-.
Qed.

Lemma prev_memberships_again : prev_memberships c = ms.
Proof.
  unfold prev_memberships. destruct (apply_edx_shape blake3 roots a obj c root (sg_obj S) Hc) as (obj' & _ & _ & _ & Ht).
  pose proof (length_bundle_ids blake3 files prev Hlen) as Hw.
  rewrite (bundle_order_rows a Hw Hids (sg_count S) c Ht). rewrite take_bundles_spec.
  - rewrite assigned_bundles, map_map. cbn [bid bundle_of].
    assert (∀ i m, ms !! i = Some m → (λ l, map snd (Ordered.sort l)) <$> bt_get (by_bundle c) (to_hex (blake3 (body files m))) = Some m) as Hget.
    { intros i m Hi. unfold by_bundle. rewrite pushes_get. cbn [bt_get]. pose proof (refs_of_bundle i m Hi) as Hp.
      destruct (plan_spec files prev (sg_packed S)) as (Hf & Hin & _). unfold filled in Hf. rewrite Forall_forall in Hf.
      pose proof (Hf m (list_elem_of_lookup_2 _ _ _ Hi)) as Hne. rewrite bool_decide_false.
      - cbn [fmap option_fmap option_map]. f_equal. rewrite (sort_fst _ _ Hp); [apply extents_snd|]. apply extents_sorted.
        intros p Hpm. apply Hfilled, Hin, list_elem_of_In, in_concat. exists m. rewrite <- !list_elem_of_In. split; [by eapply list_elem_of_lookup_2|done].
      - intros H0. rewrite H0 in Hp. apply Permutation_nil_l in Hp. by destruct m. }
    clear -Hget. induction ms as [|m l IH]; [done|]. cbn [map].
    change (omap ?f (?x :: ?l')) with (match f x with Some y => y :: omap f l' | None => omap f l' end). cbn beta.
    rewrite (Hget 0%nat m eq_refl). f_equal. apply IH. intros i. exact (Hget (Datatypes.S i)).
  - apply pushes_wf, bt_wf_nil.
  - rewrite <- (map_map bid to_hex). apply NoDup_fmap_2_strong; [|done]. intros i j Hi Hj. rewrite Forall_forall in Hw.
    apply list_elem_of_fmap in Hi as (b & -> & Hb), Hj as (b' & -> & Hb'). apply to_hex_inj; by apply Hw.
Qed.
End resign.

(** ** Entries and shards read back *)

Section entries.
Context (blake3 : bytes → bytes) (Hlen : ∀ x, length (blake3 x) = 32%nat).
Context (files : Files) (prev : Memberships) (roots : btree bytes ObjId) (obj : btree bytes json).
Context (S : signable blake3 files prev roots obj).
Abbreviation a := (assign blake3 files prev).
Context (c : json) (root : ObjId) (Hc : apply_edx blake3 (JObj obj) roots a = Some (c, root)).
Context (Hids : NoDup (map bid (rbundles a))).

Lemma jget_object v k t : get_object v k = Some t → jget v k = Some (JObj t).
Proof. unfold get_object. destruct (jget v k) as [[]|]; try done. cbn. by intros [= ->]. Qed.

Lemma declared_bundle i b : rbundles a !! i = Some b →
  ∃ t, jget c (bstr "bundles") = Some (JObj t) ∧ is_Some (bt_get t (to_hex (bid b))).
Proof.
  intros Hb. pose proof (length_bundle_ids blake3 files prev Hlen) as Hw.
  destruct (apply_edx_shape blake3 roots a obj c root (sg_obj _ _ _ _ _ S) Hc) as (obj' & _ & _ & _ & Ht).
  destruct (bundles_json_perm a Hw Hids) as [Wt Pt].
  assert ((to_hex (bid b), row i b) ∈ rows a) as Hin. { apply elem_of_lookup_imap. by exists i, b. }
  rewrite <- Pt in Hin. destruct (get_object c (bstr "bundles")) as [t|] eqn:E; cbn [from_option id] in Ht.
  - exists t. split; [by apply jget_object|]. rewrite Ht. apply bt_get_elem in Hin; [|done]. by exists (row i b).
  - rewrite <- Ht in Hin. by apply elem_of_nil in Hin.
Qed.

(** What signing says of a path, in [files] or, when [files] does not list it,
    in [files_optional]. *)
Definition listed (p : bytes) (e : btree bytes json) : Prop :=
  bt_get (table_of obj (bstr "files")) p = Some (JObj e) ∨
  bt_get (table_of obj (bstr "files")) p = None ∧ bt_get (table_of obj (bstr "files_optional")) p = Some (JObj e).

Definition found (key p : bytes) : option json := f ← jget c key; jget f p.

Lemma found_signed key p : key ∈ [bstr "files"; bstr "files_optional"] →
  (∀ e, bt_get (table_of obj key) p = Some (JObj e) → found key p = Some (signed_entry roots a p (JObj e))) ∧
  (bt_get (table_of obj key) p = None → found key p = None).
Proof.
  intros Hk. unfold found. destruct (apply_edx_shape blake3 roots a obj c root (sg_obj _ _ _ _ _ S) Hc) as (obj' & -> & Hf & _).
  specialize (Hf key Hk). unfold table_of. destruct (get_object (JObj obj) key) as [t|] eqn:E; cbn [from_option id fmap option_fmap option_map] in *.
  - apply jget_object in Hf. rewrite Hf. cbn [mbind option_bind jget]. rewrite bt_get_signed. split; [by intros e ->|by intros ->].
  - cbn [bt_get]. split; [done|]. intros _. unfold get_object in Hf. destruct (jget (JObj obj') key) as [[]|]; done.
Qed.

Lemma listed_wf p e : listed p e → bt_wf e.
Proof. intros [He|[_ He]]; by eapply (sg_entry _ _ _ _ _ S). Qed.

Lemma signed_entry_some p e rt : bt_get roots p = Some rt → signed_entry roots a p (JObj e) = JObj (apply_entry a p rt e).
Proof. intros Hr. unfold signed_entry, apply_file. cbn [fst snd]. by rewrite Hr. Qed.

Definition other_key (k : bytes) : Prop := k ≠ bstr "b3" ∧ k ≠ bstr "bundle" ∧ k ≠ bstr "off".

Lemma apply_entry_get p rt e : bt_wf e →
  (∀ k, other_key k → bt_get (apply_entry a p rt e) k = bt_get e k) ∧
  bt_get (apply_entry a p rt e) (bstr "b3") = Some (JStr (to_hex rt)) ∧
  match bt_get (rmembers a) p with
  | Some (idx, (off, _)) =>
    bt_get (apply_entry a p rt e) (bstr "bundle") = Some (JStr (to_hex (bundle_id_at a idx))) ∧
    bt_get (apply_entry a p rt e) (bstr "off") = Some (JInt off)
  | None => bt_get (apply_entry a p rt e) (bstr "bundle") = None
  end.
Proof.
  intros Hw. unfold apply_entry. destruct (bt_get (rmembers a) p) as [[idx [off l]]|].
  - split_and!.
    + intros k (K1 & K2 & K3). by rewrite !bt_get_insert, !decide_False.
    + rewrite !bt_get_insert. rewrite !decide_False by (vm_compute; discriminate). by rewrite decide_True.
    + rewrite !bt_get_insert. rewrite decide_False by (vm_compute; discriminate). by rewrite decide_True.
    + rewrite !bt_get_insert. by rewrite decide_True.
  - assert (bt_wf (bt_insert (bstr "b3") (JStr (to_hex rt)) e)) as Hw1 by by apply bt_insert_wf. split_and!.
    + intros k (K1 & K2 & K3). rewrite !bt_get_remove by (done || by apply bt_remove_wf). by rewrite !decide_False, bt_get_insert, decide_False.
    + rewrite !bt_get_remove by (done || by apply bt_remove_wf). rewrite !decide_False by (vm_compute; discriminate).
      rewrite bt_get_insert. by rewrite decide_True.
    + rewrite !bt_get_remove by (done || by apply bt_remove_wf). rewrite decide_False by (vm_compute; discriminate). by rewrite decide_True.
Qed.

Lemma entry_signed p e rt size : listed p e → bt_get roots p = Some rt → id_wf rt → get_u64 (JObj e) (bstr "size") = Some size →
  edx_entry c p = Some (mkEntry size rt ((λ m : Z * (Z * Z), (bundle_id_at a m.1, m.2.1)) <$> bt_get (rmembers a) p)).
Proof.
  intros Hl Hr Hi Hs. unfold edx_entry. fold (found (bstr "files") p) (found (bstr "files_optional") p).
  destruct (found_signed (bstr "files") p) as [F1 F2]; [rewrite !elem_of_cons; auto|].
  destruct (found_signed (bstr "files_optional") p) as [O1 _]; [rewrite !elem_of_cons; auto|].
  assert (match found (bstr "files") p with Some x => Some x | None => found (bstr "files_optional") p end = Some (JObj (apply_entry a p rt e))) as ->.
  { rewrite <- (signed_entry_some p e rt Hr). destruct Hl as [He|[Hn He]]; [by rewrite (F1 e He)|by rewrite F2, (O1 e He)]. }
  cbn [mbind option_bind]. destruct (apply_entry_get p rt e (listed_wf p e Hl)) as (G1 & G2 & G3).
  unfold parse_entry, get_u64, get_str in *. cbn [jget] in *. rewrite (G1 (bstr "size")) by (unfold other_key; split_and!; vm_compute; discriminate). rewrite Hs, G2.
  cbn [mbind option_bind as_str]. rewrite from_to_hex by done. cbn [mbind option_bind].
  destruct (bt_get (rmembers a) p) as [[idx [off l]]|] eqn:Em; [|by rewrite G3].
  destruct G3 as [-> ->]. destruct (member_located blake3 files prev roots obj S p idx off l Em) as (_ & (b & Hb & Hid) & Hoff & _).
  pose proof (length_bundle_ids blake3 files prev Hlen) as Hw. rewrite Forall_forall in Hw. specialize (Hw b (list_elem_of_lookup_2 _ _ _ Hb)).
  cbn [mbind option_bind as_str]. rewrite Hid, from_to_hex by done. cbn [mbind option_bind].
  destruct (declared_bundle _ b Hb) as (t & -> & [row Hrow]). cbn [mbind option_bind jget]. rewrite Hrow. cbn [mbind option_bind as_u64].
  unfold is_u64 in Hoff. rewrite (proj2 (Z.leb_le 0 off)), (proj2 (Z.leb_le off u64_max)) by lia. cbn. by rewrite Hid.
Qed.
End entries.

Definition chunk_wf (k : ShardChunk) : Prop :=
  id_wf (plain_hash k) ∧ id_wf (cipher_addr k) ∧ is_u32 (len k) ∧ is_u32 (csize k).

Lemma shard_chunk_json k : chunk_wf k → shard_chunk (chunk_json k) = Some k.
Proof.
  intros (H1 & H2 & H3 & H4). destruct k as [ph ca l cs]. cbn [plain_hash cipher_addr len csize] in *. unfold shard_chunk, chunk_json, get_str, get_u64.
  change (jget _ (bstr "ph")) with (Some (JStr (to_hex ph))). change (jget _ (bstr "ca")) with (Some (JStr (to_hex ca))).
  change (jget _ (bstr "len")) with (Some (JInt l)). change (jget _ (bstr "cs")) with (Some (JInt cs)).
  cbn [mbind option_bind as_str as_u64]. unfold id_wf in H1. rewrite <- H1 at 1. rewrite <- (app_nil_r (to_hex ph)), hex_pairs_to_hex.
  cbn [mbind option_bind]. rewrite from_to_hex by done. cbn [mbind option_bind]. unfold is_u32, u32_max, u64_max, wrap32 in *.
  rewrite !(proj2 (Z.leb_le _ _)) by lia. cbn [andb mbind option_bind]. by rewrite !Z.mod_small by lia.
Qed.

Lemma shard_chunks_json ks : Forall chunk_wf ks → mapM shard_chunk (map chunk_json ks) = Some ks.
Proof.
  induction 1 as [|k ks Hk _ IH]; [done|]. change (mapM shard_chunk (map chunk_json (k :: ks))) with
    (y ← shard_chunk (chunk_json k); l ← mapM shard_chunk (map chunk_json ks); Some (y :: l)).
  by rewrite shard_chunk_json, IH.
Qed.

(** ** The properties *)

(** The files merkle root binds the file set: two sets (paths, BLAKE3
    roots, sizes) with one root are equal, unless the hash has a collision or
    a preimage of 32 zero bytes. Leaves and inner nodes are told apart by
    their tag, a promoted odd node is not confused with a pair, and no path,
    root or size runs into its neighbour. *)
Theorem merkle_binds blake3 entries entries' :
  (∀ x, length (blake3 x) = 32%nat) → Forall entry_ok entries → Forall entry_ok entries' →
  files_merkle_root blake3 entries = files_merkle_root blake3 entries' →
  entries = entries' ∨ collision blake3 ∨ ∃ x, blake3 x = repeat x00 32.
Proof.
  intros Hl H1 H2 H.
  assert (∀ es, es ≠ [] → ∃ x, files_merkle_root blake3 es = blake3 x) as Himg.
  { intros es Hes. destruct (root_tree blake3 es Hes) as ([e|l r] & -> & _); by eexists. }
  destruct (decide (entries = [])) as [->|N1], (decide (entries' = [])) as [->|N2].
  - by left.
  - destruct (Himg entries' N2) as [x Hx]. right; right. exists x. by rewrite <- Hx, <- H.
  - destruct (Himg entries N1) as [x Hx]. right; right. exists x. by rewrite <- Hx, H.
  - destruct (root_tree blake3 entries N1) as (t & Ht & Hlt), (root_tree blake3 entries' N2) as (t' & Ht' & Hlt').
    rewrite Ht, Ht' in H. apply thash_inj in H as [H|H]; [left; congruence|by right; left|done|congruence|congruence].
Qed.


(** An encrypted file's shard entry survives the content.json: reading
    back what [set_shard_entry] wrote gives the same entry, the other files'
    entries stay, and so does every other field. *)
Theorem shard_roundtrip content path e content' :
  set_shard_entry content path e = Some content' →
  is_u64 (ssize e) → 0 <= mode e < 256 → Forall chunk_wf (chunks e) →
  edx_shard_entry content' path = Some e ∧
  (∀ path', path' ≠ path → edx_shard_entry content' path' = edx_shard_entry content path') ∧
  (∀ k, k ≠ bstr "files_shard" → jget content' k = jget content k).
Proof.
  unfold set_shard_entry. destruct content as [| | | | | |obj]; try done. cbn [as_object mbind option_bind].
  destruct (as_object (default (JObj []) (bt_get obj (bstr "files_shard")))) as [shards|] eqn:Es; [|done]. cbn [mbind option_bind].
  intros H Hs Hm Hk. apply (inj Some) in H as <-. split_and!.
  - unfold edx_shard_entry. cbn [jget]. rewrite bt_get_insert, decide_True by done. cbn [mbind option_bind jget].
    rewrite bt_get_insert, decide_True by done. cbn [mbind option_bind]. unfold get_u64, get_array.
    change (jget _ (bstr "size")) with (Some (JInt (ssize e))). change (jget _ (bstr "mode")) with (Some (JInt (mode e))).
    change (jget _ (bstr "chunks")) with (Some (JArr (map chunk_json (chunks e)))). cbn [mbind option_bind as_u64 as_array].
    unfold is_u64, u64_max in *. rewrite !(proj2 (Z.leb_le _ _)) by lia. cbn [andb mbind option_bind from_option id].
    rewrite shard_chunks_json by done. cbn [mbind option_bind]. rewrite Z.mod_small by done. by destruct e.
  - intros p' Hp. unfold edx_shard_entry. cbn [jget]. rewrite bt_get_insert, decide_True by done. cbn [mbind option_bind jget].
    rewrite bt_get_insert, decide_False by done. destruct (bt_get obj (bstr "files_shard")) as [v|]; cbn [from_option id] in Es.
    + destruct v; try done. by apply (inj Some) in Es as ->.
    + by apply (inj Some) in Es as <-.
  - intros k Hkey. cbn [jget]. by rewrite bt_get_insert, decide_False.
Qed.

(** ** Instances *)

(** A stand-in for BLAKE3: the first 32 bytes, padded. *)
Definition pad32 (b : bytes) : bytes := take 32 (b ++ repeat x00 32).

Lemma pad32_length b : length (pad32 b) = 32%nat.
Proof. unfold pad32. rewrite length_take, length_app, repeat_length. lia. Qed.

Definition size_entry (n : Z) : json := JObj [(bstr "size", JInt n)].

Lemma merkle_binds_witness :
  files_merkle_root pad32 [(bstr "a", (repeat x01 32, 5))] = files_merkle_root pad32 [(bstr "a", (repeat x01 32, 5))] ∧
  ([(bstr "a", (repeat x01 32, 5))] = [(bstr "a", (repeat x01 32, 5))] ∨ collision pad32 ∨ ∃ x, pad32 x = repeat x00 32).
Proof.
  split; [done|]. apply merkle_binds; [apply pad32_length|..|done];
    repeat constructor; vm_compute; discriminate.
Defined.

Definition small_content : btree bytes json :=
  [(bstr "files", JObj [(bstr "a.css", size_entry 2); (bstr "b.js", size_entry 3)])].
Definition small_roots : btree bytes ObjId := [(bstr "a.css", pad32 (bstr "xx")); (bstr "b.js", pad32 (bstr "yyy"))].

Lemma small_signable : signable pad32 small_files [[bstr "b.js"]] small_roots small_content.
Proof.
  assert (∀ p v, bt_get (table_of small_content (bstr "files")) p = Some v → p = bstr "a.css" ∧ v = size_entry 2 ∨ p = bstr "b.js" ∧ v = size_entry 3) as Hf.
  { intros p v Hp. change (table_of _ _) with [(bstr "a.css", size_entry 2); (bstr "b.js", size_entry 3)] in Hp.
    apply bt_get_elem in Hp; [|repeat constructor]. rewrite !elem_of_cons, elem_of_nil in Hp.
    destruct Hp as [Hp|[Hp|[]]]; apply pair_eq in Hp as [-> ->]; auto. }
  constructor; try (by repeat constructor).
  - intros p Hp. assert (p = bstr "a.css" ∨ p = bstr "b.js") as [->| ->].
    { destruct Hp as [x Hp]. unfold small_files in Hp. apply bt_get_elem in Hp; [|repeat constructor]. rewrite !elem_of_cons, elem_of_nil in Hp.
      destruct Hp as [Hp|[Hp|[]]]; apply pair_eq in Hp as [-> _]; auto. }
    + split; [by eexists|]. left. by eexists.
    + split; [by eexists|]. left. by eexists.
  - intros key p v Hk Hv Hr. rewrite !elem_of_cons, elem_of_nil in Hk. destruct Hk as [->|[->|[]]]; [|done].
    by apply Hf in Hv as [[-> ->]|[-> ->]].
  - intros key p e Hv. unfold table_of, get_object in Hv. cbn [jget small_content] in Hv.
    assert (bt_get (table_of small_content (bstr "files")) p = Some (JObj e)) as Hp.
    { unfold small_content in Hv. cbn [bt_get] in Hv. destruct (cmp key (bstr "files")) eqn:Ek; [by apply cmp_eq_iff in Ek as ->|done|done]. }
    apply Hf in Hp as [[_ Hp]|[_ Hp]]; injection Hp as ->; repeat constructor.
  - apply NoDup_ListNoDup. repeat constructor; auto.
Qed.


Definition two_chunks : ShardEntry :=
  mkShardEntry 300 1 [mkShardChunk (repeat x01 32) (repeat x0a 32) 200 216; mkShardChunk (repeat x02 32) (repeat xff 32) 100 116].

Lemma shard_roundtrip_witness :
  ∃ c, set_shard_entry (JObj small_content) (bstr "k.bin") two_chunks = Some c ∧ edx_shard_entry c (bstr "k.bin") = Some two_chunks.
Proof.
  eexists. split; [reflexivity|]. eapply (shard_roundtrip (JObj small_content) (bstr "k.bin") two_chunks); [reflexivity| | |].
  - vm_compute. split; discriminate.
  - vm_compute. split; [discriminate|reflexivity].
  - repeat constructor; vm_compute; discriminate.
Defined.

(** Two bundles with the same bytes have one id, so the manifest keeps one row
    for both and the next signing reads their members as one bundle, sorted by
    offset then path: signing the same files again mints a new bundle. *)
Theorem identical_bundles_merge :
  let files : Files := [(bstr "a", bstr "xx"); (bstr "b", bstr "xx")] in
  let a := assign pad32 files [[bstr "a"]; [bstr "b"]] in
  let content := JObj [(bstr "files", JObj [(bstr "a", size_entry 2); (bstr "b", size_entry 2)])] in
  ∃ c root, memberships_of a = [[bstr "a"]; [bstr "b"]] ∧
    apply_edx pad32 content [(bstr "a", pad32 (bstr "xx")); (bstr "b", pad32 (bstr "xx"))] a = Some (c, root) ∧
    prev_memberships c = [[bstr "a"; bstr "b"]] ∧
    map bbytes (rbundles a) = [bstr "xx"; bstr "xx"] ∧
    map bbytes (rbundles (assign pad32 files (prev_memberships c))) = [bstr "xxxx"].
Proof. eexists _, _. split_and!; [vm_compute; reflexivity|reflexivity|vm_compute; reflexivity..]. Qed.
