(* ===== verification/Wire.v ===== *)
(** * The EDX wire ([crates/epix-edx/src/msg.rs], [frame.rs])

    The message set, and frames on a byte stream: a little-endian u32 length and
    a postcard body, under a cap both sides enforce. The postcard codec is a
    third-party crate: the class [Postcard]. *)
From S2P Require Import Prelude Peer.
From Stdlib Require Import ZArith Lia Strings.Byte.
From stdpp Require Import base list strings.
#[local] Open Scope Z_scope.

(** ** Errors of the client and server paths: [std::io::Error] *)

Inductive ErrorKind :=
  | KNotFound | KPermissionDenied | KBrokenPipe | KInvalidInput | KInvalidData
  | KTimedOut | KInterrupted | KUnexpectedEof | KQuotaExceeded | KOther.

#[global] Instance ErrorKind_eq_dec : EqDecision ErrorKind.
Proof. solve_decision. Defined.

(** [retry_after] is the [RetryAfter] payload of a typed refusal, in
    milliseconds. *)
Record io_error := { kind : ErrorKind; text : bytes; retry_after : option Z }.
Definition io_err (k : ErrorKind) (t : bytes) : io_error := {| kind := k; text := t; retry_after := None |}.
Abbreviation io := (result io_error).

(** ** Messages *)

Definition NET_ID : bytes := bstr "epixnet-edx-1".

Definition SHARDS : Z := Z.shiftl 1 0.
Definition MESH : Z := Z.shiftl 1 1.
Definition CONTROL : Z := Z.shiftl 1 2.
Definition RETRY_AFTER : Z := Z.shiftl 1 3.

Record Hello := {
  h_net : bytes; h_node_pk : bytes; h_binding_sig : bytes; h_caps : Z; h_listen : list PeerAddr; h_version : bytes
}.

Record HelloAck := {
  a_net : bytes; a_node_pk : bytes; a_binding_sig : bytes; a_caps : Z; a_observed : option PeerAddr; a_version : bytes
}.

(** 32 bytes. *)
Abbreviation ObjId := bytes.
Abbreviation ByteRange := (Z * Z)%type.

(** [modified] of an update is an [f64], by its bits. *)
Inductive Req :=
  | ReqHello (hello : Hello)
  | GetSigned (xite inner_path : bytes)
  | ListSigned (xite : bytes) (since : Z)
  | GetRange (obj : ObjId) (size : Z) (ranges : list ByteRange) (deadline_ms : Z)
  | GetMany (objs : list ObjId)
  | GetBitfield (obj : ObjId)
  | HasXite (xite : bytes)
  | HaveRanges (obj : ObjId) (runs : list Z)
  | Update (xite inner_path signed : bytes) (inline : list (ObjId * bytes)) (modified : Z)
      (diffs : list (bytes * bytes)) (sender_peers : list bytes)
  | UpdatesSince (after : Z)
  | Pex (xite : bytes) (need : Z) (peers : list PeerAddr)
  | GetTrackers
  | Kad (payload : bytes)
  | Announce (payload : bytes)
  | HasShards (addrs : list ObjId).

Inductive Resp :=
  | RespHelloAck (ack : HelloAck)
  | Signed (body : bytes)
  | SignedList (entries : list (bytes * Z * Z))
  | RespBitfield (size : Z) (runs : list Z)
  | XiteSummary (signed_files newest_modified held_bytes : Z)
  | Many (items : list (ObjId * bytes))
  | RespOk
  | RespErr (code : Z) (msg : bytes)
  | Updates (updates : list (bytes * Z)) (head : Z)
  | RespPeers (peers : list PeerAddr)
  | Trackers (trackers : list bytes)
  | Payload (body : bytes)
  | ShardMask (bits : bytes)
  | Busy (retry_after_ms : Z).

Definition NOT_FOUND : Z := 404.
Definition BUSY : Z := 429.
Definition BAD_REQUEST : Z := 400.
Definition LIMIT : Z := 413.
Definition INTERNAL : Z := 500.
Definition UNSUPPORTED : Z := 501.

Inductive FrameBody :=
  | BReq (req : Req)
  | BResp (last : bool) (resp : Resp)
  | BData (last : bool) (payload : bytes)
  | Cancel
  | Ping
  | Pong.

Record Frame := { stream : Z; body : FrameBody }.
Definition frame (s : Z) (b : FrameBody) : Frame := {| stream := s; body := b |}.

(** ** The frame codec *)

Definition MAGIC : bytes := bstr "EDX1".
Definition MAX_FRAME_LEN : Z := 64 * 1024.
Definition FRAME_HARD_CAP : Z := MAX_FRAME_LEN + 4096.

Class Postcard := {
  to_stdvec : Frame → result bytes bytes;
  of_bytes : bytes → result bytes Frame;
  (** [postcard::experimental::serialized_size]. *)
  serialized_size : Req → option Z
}.

(** What postcard documents: decoding undoes encoding. *)
Class PostcardRoundtrip `{P : Postcard} := of_to_stdvec : ∀ f b, to_stdvec f = Ok b → of_bytes b = Ok f.

Section codec.
Context `{P : Postcard}.

(** [{got:02x?}] is a parameter of the message only. *)
Context (fmt_debug : bytes → bytes).

(** [read_exact] of [n] bytes from what the peer has sent before closing. *)
Definition read_exact (n : Z) (s : bytes) : io (bytes * bytes) :=
  if blen s <? n then Err (io_err KUnexpectedEof (bstr "early eof")) else Ok (take (Z.to_nat n) s, drop (Z.to_nat n) s).

Definition write_magic (out : bytes) : bytes := out ++ MAGIC.

Definition read_magic (s : bytes) : io bytes :=
  '(got, s) ← read_exact 4 s;
  if bool_decide (got = MAGIC) then Ok s
  else Err (io_err KInvalidData (bstr "not an EDX peer (got " ++ fmt_debug got ++ bstr ")")).

Definition encode (f : Frame) : io bytes :=
  b ← map_err (io_err KInvalidInput) (to_stdvec f);
  if FRAME_HARD_CAP <? blen b
  then Err (io_err KInvalidInput (bstr "frame of " ++ dec (blen b) ++ bstr " bytes exceeds cap " ++ dec FRAME_HARD_CAP))
  else Ok (le32 (wrap32 (blen b)) ++ b).

Definition write_frame (out : bytes) (f : Frame) : io bytes := b ← encode f; Ok (out ++ b).

Definition read_frame (s : bytes) : io (Frame * bytes) :=
  '(len_buf, s) ← read_exact 4 s;
  let len := le_val len_buf in
  if FRAME_HARD_CAP <? len
  then Err (io_err KInvalidData (bstr "peer claimed a " ++ dec len ++ bstr "-byte frame (cap " ++ dec FRAME_HARD_CAP ++ bstr ")"))
  else
    '(b, s) ← read_exact len s;
    f ← map_err (λ e, io_err KInvalidData (bstr "frame decode: " ++ e)) (of_bytes b);
    Ok (f, s).

(** A writer's successive frames, and a reader's successive reads of [n]. *)
Fixpoint write_frames (out : bytes) (fs : list Frame) : io bytes :=
  match fs with [] => Ok out | f :: fs => out ← write_frame out f; write_frames out fs end.

Fixpoint read_frames (n : nat) (s : bytes) : io (list Frame * bytes) :=
  match n with
  | O => Ok ([], s)
  | S n => '(f, s) ← read_frame s; '(fs, s) ← read_frames n s; Ok (f :: fs, s)
  end.
End codec.

(** ** Reading what was written *)

Lemma Ok_inj {E A} (x y : A) : Ok x = Ok y :> result E A → x = y.
Proof. by intros [=]. Qed.

Lemma encode_ok `{P : Postcard} f b : encode f = Ok b →
  ∃ p, to_stdvec f = Ok p ∧ blen p <= FRAME_HARD_CAP ∧ b = le32 (wrap32 (blen p)) ++ p.
Proof.
  unfold encode. destruct (to_stdvec f) as [p|e]; [|done]. cbn [map_err mbind result_bind].
  destruct (Z.ltb_spec FRAME_HARD_CAP (blen p)) as [|Hc]; [done|]. intros ?%Ok_inj. eauto.
Qed.

Section roundtrip.
Context `{R : PostcardRoundtrip}.

Lemma read_exact_app n a s : blen a = n → read_exact n (a ++ s) = Ok (a, s).
Proof.
  intros <-. unfold read_exact. rewrite blen_app. pose proof (blen_nonneg s).
  replace (blen a + blen s <? blen a) with false by lia.
  unfold blen at 1 2. rewrite Nat2Z.id. by rewrite take_app_length, drop_app_length.
Qed.

Lemma read_encode f b s : encode f = Ok b → read_frame (b ++ s) = Ok (f, s).
Proof.
  intros (p & E & Hc & ->)%encode_ok. pose proof (blen_nonneg p). unfold FRAME_HARD_CAP, MAX_FRAME_LEN in Hc.
  unfold read_frame. rewrite <- app_assoc, read_exact_app by apply blen_le_bytes. cbn [mbind result_bind].
  unfold wrap32. rewrite Z.mod_small by lia. rewrite le32_roundtrip by (unfold is_u32, u32_max; lia).
  rewrite (proj2 (Z.ltb_ge _ _)) by (unfold FRAME_HARD_CAP, MAX_FRAME_LEN; lia).
  rewrite read_exact_app by done. cbn. by rewrite (of_to_stdvec _ _ E).
Qed.

Lemma write_frames_app fs : ∀ out r, write_frames out fs = Ok r → ∃ s, r = out ++ s ∧ ∀ rest, read_frames (length fs) (s ++ rest) = Ok (fs, rest).
Proof.
  induction fs as [|f fs IH]; intros out r.
  - intros [= <-]. exists []. by rewrite app_nil_r.
  - cbn [write_frames]. unfold write_frame. destruct (encode f) as [b|e] eqn:E; [|done]. cbn.
    intros H. destruct (IH _ _ H) as (s & -> & Hs). exists (b ++ s). rewrite app_assoc. split; [done|].
    intros rest. cbn [length read_frames]. by rewrite <- app_assoc, (read_encode _ _ _ E); cbn; rewrite Hs.
Qed.
End roundtrip.

(** Framing loses nothing: whatever sequence of frames a writer put out,
    each within the cap (an oversized one is an error, never a truncated frame),
    a reader at the other end reads back exactly those frames and leaves the
    bytes behind them untouched. *)
Theorem frames_roundtrip `{R : PostcardRoundtrip} fs out r rest : write_frames out fs = Ok r →
  ∃ s, r = out ++ s ∧ read_frames (length fs) (s ++ rest) = Ok (fs, rest).
Proof. intros (s & -> & H)%write_frames_app. eauto. Qed.

(** ** A codec of some frames, for concrete instances of the laws *)

Definition toy_tag (b : FrameBody) : option (byte * bytes) :=
  match b with
  | Ping => Some ("001"%byte, [])
  | BData false p => Some ("002"%byte, p)
  | BData true p => Some ("003"%byte, p)
  | BReq GetTrackers => Some ("004"%byte, [])
  | BResp true RespOk => Some ("005"%byte, [])
  | Pong => Some ("006"%byte, [])
  | _ => None
  end.
Definition toy_body (t : byte) (p : bytes) : option FrameBody :=
  match t with
  | "001"%byte => Some Ping
  | "002"%byte => Some (BData false p)
  | "003"%byte => Some (BData true p)
  | "004"%byte => Some (BReq GetTrackers)
  | "005"%byte => Some (BResp true RespOk)
  | "006"%byte => Some Pong
  | _ => None
  end.

#[local] Instance toy_postcard : Postcard := {
  to_stdvec f :=
    match toy_tag (body f) with
    | Some (t, p) => if (0 <=? stream f) && (stream f <=? u64_max) then Ok (t :: le64 (stream f) ++ p) else Err []
    | None => Err []
    end;
  of_bytes b :=
    match b with
    | t :: b => match toy_body t (drop 8 b) with Some d => Ok (frame (le_val (take 8 b)) d) | None => Err [] end
    | [] => Err []
    end;
  serialized_size _ := Some 1
}.

#[local] Instance toy_postcard_roundtrip : PostcardRoundtrip (P := toy_postcard).
Proof.
  intros [s d] b. unfold to_stdvec, of_bytes, toy_postcard. cbn [stream body].
  destruct (toy_tag d) as [[t p]|] eqn:E; [|done]. destruct (_ && _) eqn:Hs; [|done]. intros <-%Ok_inj.
  pose proof (length_le_bytes 8 s) as L.
  rewrite drop_app_length', take_app_length' by done. rewrite le64_roundtrip by (unfold is_u64; lia).
  assert (toy_body t p = Some d) as ->; [|done].
  destruct d as [[]|[] []|[]| | |]; cbn in E; (discriminate E || (injection E as <- <-; done)).
Qed.

Lemma frames_roundtrip_witness : ∃ s, read_frames 2 (s ++ bstr "rest") = Ok ([frame 1 Ping; frame 2 (BData true (bstr "x"))], bstr "rest").
Proof.
  destruct (frames_roundtrip (R := toy_postcard_roundtrip) [frame 1 Ping; frame 2 (BData true (bstr "x"))]
    [] _ (bstr "rest") ltac:(vm_compute; reflexivity)) as (s & _ & H).
  exists s. exact H.
Defined.
