(* ===== verification/Conn.v ===== *)
(** * The multiplexed connection ([crates/epix-edx/src/conn.rs])

    One ordered byte stream carries many request streams: a writer task drains
    two lanes, a reader task routes each inbound frame by its stream id, waiters
    receive replies through bounded channels, and inbound requests are charged to
    a byte budget before they are queued.

    Each task and each caller is a sequence of steps on the shared state; a step
    that would await is not enabled ([None]). A reply in delivery is delivered in
    one step, as are a task's take of the budget and of the queue. The pacer of the
    bulk lane only says when a bulk frame may go: an input of the writer's step. *)
From Stdlib Require Import ZArith Lia Strings.Byte.
From stdpp Require Import base list gmap strings relations.
From S2P Require Import Prelude Ordered Peer Wire.
#[local] Open Scope Z_scope.

(** ** State *)

Definition LANE_CAP : Z := 256.
Definition STREAM_CAP : Z := 64.
Definition INCOMING_CAP : Z := 64.
Definition INBOUND_QUEUE_UNITS : Z := 1024.
Definition MAX_CANCELLED : Z := 4096.

(** A task of the connection: running, past its [closed.store(true)], or past
    waking the waiters. *)
Inductive task := Running | Marked | Stopped.
#[global] Instance task_eq_dec : EqDecision task.
Proof. solve_decision. Defined.

Inductive lane := Priority | Bulk.
#[global] Instance lane_eq_dec : EqDecision lane.
Proof. solve_decision. Defined.

Record Shared := {
  waiters : gset Z; cancelled : gset Z; closed : bool; queued_fetch : Z; queued_fetch_reqs : Z
}.

Record Incoming := { in_stream : Z; in_req : Req; in_budget : Z }.

(** [serving]: the budgets of requests the server side has taken and not yet
    dropped; [server]: whether it still receives. *)
Record Inbound := { queue : list Incoming; serving : list Z; budget : Z; server : bool }.

(** [channels]: the live receivers, with capacity and queued frames; [entering]:
    how many callers are between their check of [closed] and the registration of
    their waiter; [pending]: the requests and pings whose frame awaits lane room. *)
Record Conn := {
  next_stream : Z; shared : Shared; outbound : list Frame; bulk : list Frame;
  writer : task; reader : task; channels : gmap Z (Z * list FrameBody);
  pending : list (Z * FrameBody); entering : nat; inbound : Inbound; req_sent : Z; req_recv : Z
}.

Definition with_shared (f : Shared → Shared) (c : Conn) : Conn := {|
  next_stream := next_stream c; shared := f (shared c); outbound := outbound c; bulk := bulk c; writer := writer c; reader := reader c;
  channels := channels c; pending := pending c; entering := entering c; inbound := inbound c; req_sent := req_sent c; req_recv := req_recv c |}.
Definition with_lanes (hi lo : list Frame) (c : Conn) : Conn := {|
  next_stream := next_stream c; shared := shared c; outbound := hi; bulk := lo; writer := writer c; reader := reader c;
  channels := channels c; pending := pending c; entering := entering c; inbound := inbound c; req_sent := req_sent c; req_recv := req_recv c |}.
Definition with_tasks (w r : task) (c : Conn) : Conn := {|
  next_stream := next_stream c; shared := shared c; outbound := outbound c; bulk := bulk c; writer := w; reader := r;
  channels := channels c; pending := pending c; entering := entering c; inbound := inbound c; req_sent := req_sent c; req_recv := req_recv c |}.
Definition with_channels (f : gmap Z (Z * list FrameBody) → gmap Z (Z * list FrameBody)) (c : Conn) : Conn := {|
  next_stream := next_stream c; shared := shared c; outbound := outbound c; bulk := bulk c; writer := writer c; reader := reader c;
  channels := f (channels c); pending := pending c; entering := entering c; inbound := inbound c; req_sent := req_sent c; req_recv := req_recv c |}.
Definition with_pending (next : Z) (p : list (Z * FrameBody)) (c : Conn) : Conn := {|
  next_stream := next; shared := shared c; outbound := outbound c; bulk := bulk c; writer := writer c; reader := reader c;
  channels := channels c; pending := p; entering := entering c; inbound := inbound c; req_sent := req_sent c; req_recv := req_recv c |}.
Definition with_inbound (f : Inbound → Inbound) (c : Conn) : Conn := {|
  next_stream := next_stream c; shared := shared c; outbound := outbound c; bulk := bulk c; writer := writer c; reader := reader c;
  channels := channels c; pending := pending c; entering := entering c; inbound := f (inbound c); req_sent := req_sent c; req_recv := req_recv c |}.
Definition with_counts (sent recv : Z) (c : Conn) : Conn := {|
  next_stream := next_stream c; shared := shared c; outbound := outbound c; bulk := bulk c; writer := writer c; reader := reader c;
  channels := channels c; pending := pending c; entering := entering c; inbound := inbound c; req_sent := sent; req_recv := recv |}.

Definition with_entering (n : nat) (c : Conn) : Conn := {|
  next_stream := next_stream c; shared := shared c; outbound := outbound c; bulk := bulk c; writer := writer c; reader := reader c;
  channels := channels c; pending := pending c; entering := n; inbound := inbound c; req_sent := req_sent c; req_recv := req_recv c |}.

Definition set_waiters (f : gset Z → gset Z) (s : Shared) : Shared := {|
  waiters := f (waiters s); cancelled := cancelled s; closed := closed s; queued_fetch := queued_fetch s; queued_fetch_reqs := queued_fetch_reqs s |}.
Definition set_cancelled (f : gset Z → gset Z) (s : Shared) : Shared := {|
  waiters := waiters s; cancelled := f (cancelled s); closed := closed s; queued_fetch := queued_fetch s; queued_fetch_reqs := queued_fetch_reqs s |}.
Definition set_closed (s : Shared) : Shared := {|
  waiters := waiters s; cancelled := cancelled s; closed := true; queued_fetch := queued_fetch s; queued_fetch_reqs := queued_fetch_reqs s |}.
Definition set_fetch (bytes reqs : Z) (s : Shared) : Shared := {|
  waiters := waiters s; cancelled := cancelled s; closed := closed s; queued_fetch := bytes; queued_fetch_reqs := reqs |}.

(** [Conn::start]. *)
Definition start (dialer : bool) : Conn := {|
  next_stream := if dialer then 1 else 2;
  shared := {| waiters := ∅; cancelled := ∅; closed := false; queued_fetch := 0; queued_fetch_reqs := 0 |};
  outbound := []; bulk := []; writer := Running; reader := Running; channels := ∅; pending := []; entering := O;
  inbound := {| queue := []; serving := []; budget := INBOUND_QUEUE_UNITS; server := true |}; req_sent := 0; req_recv := 0
|}.

(** ** What is observed of a run *)

Inductive ev :=
  | Opened (s : Z)                       (** a stream id was allocated *)
  | Queued (l : lane) (f : Frame)        (** a frame entered a lane *)
  | Wrote (l : lane) (f : Frame)         (** a frame of a lane went on the wire *)
  | Saw (f : Frame)                      (** the reader took a frame off the wire *)
  | Handed (s : Z) (b : FrameBody).      (** a frame entered the channel of a stream *)

Definition closed_err : io_error := io_err KBrokenPipe (bstr "connection closed").

(** ** Requests *)

Definition alloc_stream (c : Conn) : Z * Conn := (next_stream c, with_pending (wrap64 (next_stream c + 2)) (pending c) c).

Definition forget_waiter (s : Z) (c : Conn) : Conn := with_shared (set_waiters (λ w, w ∖ {[ s ]})) c.
(** Dropping a [StreamRx], or the bare receiver after the waiter was removed. *)
Definition drop_stream (s : Z) (c : Conn) : Conn := with_channels (delete s) (forget_waiter s c).

(** [request_stream] and [ping] check the flag first. *)
Definition enter (c : Conn) : io () * Conn :=
  if closed (shared c) then (Err closed_err, c) else (Ok (), with_entering (S (entering c)) c).

(** Then they register the waiter of a channel (of capacity 64, or 1 for a
    ping) and await the lane. *)
Definition open_stream (cap : Z) (b : FrameBody) (c : Conn) : option (Z * Conn * list ev) :=
  match entering c with
  | O => None
  | S n =>
    let '(s, c) := alloc_stream (with_entering n c) in
    let c := with_shared (set_waiters (λ w, {[ s ]} ∪ w)) c in
    Some (s, with_channels <[s := (cap, [])]> (with_pending (next_stream c) (pending c ++ [(s, b)]) c), [Opened s])
  end.

Definition count_request (b : FrameBody) (c : Conn) : Conn :=
  with_counts (match b with BReq _ => wrap64 (req_sent c + 1) | _ => req_sent c end) (req_recv c) c.

Definition room (cap : Z) {A} (q : list A) : bool := blen q <? cap.

(** The rest of them: queue the frame, then check for a close that raced. *)
Definition push_stream (s : Z) (c : Conn) : option (io Z * Conn * list ev) :=
  match List.find (λ p, p.1 =? s) (pending c) with
  | None => None
  | Some (_, b) =>
    let settled := with_pending (next_stream c) (List.filter (λ p, negb (p.1 =? s)) (pending c)) c in
    if decide (writer c = Stopped) then Some (Err closed_err, drop_stream s settled, [])
    else if room LANE_CAP (outbound c) then
      let f := frame s b in
      let sent := with_lanes (outbound c ++ [f]) (bulk c) settled in
      if closed (shared c) then Some (Err closed_err, drop_stream s sent, [Queued Priority f])
      else Some (Ok s, count_request b sent, [Queued Priority f])
    else None
  end.

(** A caller that drops the future while it awaits the lane. A ping holds its
    [StreamRx] by then, whose drop removes the waiter; a request only its bare
    receiver. *)
Definition abandon (s : Z) (c : Conn) : option (() * Conn) :=
  match List.find (λ p, p.1 =? s) (pending c) with
  | None => None
  | Some (_, b) =>
    let settled := with_pending (next_stream c) (List.filter (λ p, negb (p.1 =? s)) (pending c)) c in
    let guard (w : gset Z) := match b with Ping => w ∖ {[ s ]} | _ => w end in
    Some ((), with_channels (delete s) (with_shared (set_waiters guard) settled))
  end.

(** [StreamRx::recv]: [Some None] is the end of the stream. *)
Definition recv (s : Z) (c : Conn) : option (option FrameBody * Conn) :=
  match channels c !! s with
  | Some (cap, b :: q) => Some (Some b, with_channels <[s := (cap, q)]> c)
  | Some (_, []) => if bool_decide (s ∈ waiters (shared c)) then None else Some (None, c)
  | None => None
  end.

(** ** Sending *)

(** [send], [respond] (on the priority lane), [send_bulk]: [None] while the lane
    is full; an error once the writer is gone. *)
Definition send (l : lane) (f : Frame) (c : Conn) : option (io () * Conn * list ev) :=
  if decide (writer c = Stopped) then Some (Err closed_err, c, [])
  else match l with
    | Priority => if room LANE_CAP (outbound c) then Some (Ok (), with_lanes (outbound c ++ [f]) (bulk c) c, [Queued l f]) else None
    | Bulk => if room LANE_CAP (bulk c) then Some (Ok (), with_lanes (outbound c) (bulk c ++ [f]) c, [Queued l f]) else None
    end.

Definition respond (s : Z) (r : Resp) : Conn → option (io () * Conn * list ev) := send Priority (frame s (BResp true r)).

(** [blocking_send_within]: poll the lane until it has room, is gone, or the
    deadline passes ([stalled]). *)
Definition blocking_send (l : lane) (f : Frame) (stalled : bool) (c : Conn) : option (io () * Conn * list ev) :=
  match send l f c with
  | Some r => Some r
  | None => if stalled then Some (Err (io_err KTimedOut (bstr "peer is not draining the outbound queue")), c, []) else None
  end.

(** [cancel] removes the waiter at once and then awaits the lane; [cancel_now]
    sends only if there is room. *)
Definition cancel_send (s : Z) : Conn → option (io () * Conn * list ev) := send Priority (frame s Cancel).
Definition cancel_now (s : Z) (c : Conn) : Conn * list ev :=
  let c := forget_waiter s c in
  match cancel_send s c with Some (_, c, e) => (c, e) | None => (c, []) end.

Definition take_cancelled (s : Z) (c : Conn) : bool * Conn :=
  (bool_decide (s ∈ cancelled (shared c)), with_shared (set_cancelled (λ k, k ∖ {[ s ]})) c).

Definition charge_fetch (n : Z) (c : Conn) : Conn :=
  with_shared (λ s, set_fetch (wrap64 (queued_fetch s + n)) (wrap64 (queued_fetch_reqs s + 1)) s) c.
(** [FetchCharge::drop]. *)
Definition refund_fetch (n : Z) (c : Conn) : Conn :=
  with_shared (λ s, set_fetch (wrap64 (queued_fetch s - n)) (wrap64 (queued_fetch_reqs s - 1)) s) c.
Definition queued_fetch_requests (c : Conn) : Z := Z.min (queued_fetch_reqs (shared c)) u32_max.

Definition shutdown (c : Conn) : Conn := with_shared set_closed c.

(** ** The writer *)

(** What a frame costs against the paced rate. *)
Definition wire_cost (f : Frame) : Z :=
  match body f with
  | BData _ p => blen p
  | BResp _ (Many items) => foldl (λ t (i : ObjId * bytes), sat_add64 t (blen i.2)) 0 items
  | _ => 0
  end.

(** The biased select: a priority frame first, a bulk frame only when the pacer
    is ready. *)
Definition next_frame (pacer_ready : bool) (c : Conn) : option (lane * Frame * Conn) :=
  match outbound c with
  | f :: hi => Some (Priority, f, with_lanes hi (bulk c) c)
  | [] =>
    match bulk c with
    | f :: lo => if pacer_ready then Some (Bulk, f, with_lanes [] lo c) else None
    | [] => None
    end
  end.

(** Both tasks end in two steps: mark the connection closed, then wake every
    waiter. *)
Definition writer_break (c : Conn) : Conn := with_tasks Marked (reader c) (with_shared set_closed c).
Definition reader_break (c : Conn) : Conn := with_tasks (writer c) Marked (with_shared set_closed c).
Definition wake_waiters (c : Conn) : Conn := with_shared (set_waiters (λ _, ∅)) c.
Definition writer_end (c : Conn) : Conn := with_tasks Stopped (reader c) (wake_waiters c).
Definition reader_end (c : Conn) : Conn := with_tasks (writer c) Stopped (wake_waiters c).

Section tasks.
Context `{P : Postcard}.

(** One turn of the writer: [wrote_ok] is whether the write met its deadline
    with no teardown; a frame that does not encode breaks the writer too. *)
Definition write_turn (pacer_ready wrote_ok : bool) (c : Conn) : option (Conn * list ev) :=
  if decide (writer c = Running) then
    '(l, f, c) ← next_frame pacer_ready c;
    if wrote_ok && is_ok (encode f) then Some (c, [Wrote l f]) else Some (writer_break c, [])
  else None.

(** ** The reader *)

Definition queue_units (r : Req) : Z := wrap32 (Z.min (default FRAME_HARD_CAP (serialized_size r) / 1024 + 1) INBOUND_QUEUE_UNITS).

Definition admit_request (s : Z) (r : Req) (c : Conn) : option Conn :=
  let units := queue_units r in
  let i := inbound c in
  if budget i <? units then None
  else if server i then
    if room INCOMING_CAP (queue i) then
      Some (with_inbound (λ i, {| queue := queue i ++ [{| in_stream := s; in_req := r; in_budget := units |}];
                                  serving := serving i; budget := budget i - units; server := true |}) c)
    else None
  else Some c.

Definition mark_cancelled (s : Z) (k : gset Z) : gset Z := {[ s ]} ∪ (if MAX_CANCELLED <? Z.of_nat (size k) then ∅ else k).

Definition is_last (b : FrameBody) : bool := match b with BResp true _ | BData true _ => true | _ => false end.

(** Into the channel of the waiter, if there is one; [None] while it is full. *)
Definition deliver (s : Z) (b : FrameBody) (drop_waiter : bool) (c : Conn) : option (Conn * list ev) :=
  if bool_decide (s ∈ waiters (shared c)) then
    let done := with_shared (set_waiters (λ w, if drop_waiter then w ∖ {[ s ]} else w)) in
    match channels c !! s with
    | Some (cap, q) => if room cap q then Some (done (with_channels <[s := (cap, q ++ [b])]> c), [Handed s b]) else None
    | None => Some (done c, [])
    end
  else Some (c, []).

Definition deliver_pong (s : Z) : Conn → option (Conn * list ev) := deliver s Pong true.
Definition deliver_response (s : Z) (b : FrameBody) : Conn → option (Conn * list ev) := deliver s b (is_last b).

(** [handles] says whether a handle is left, so that the reader's weak sender
    can be upgraded. *)
Definition route_frame (handles : bool) (f : Frame) (c : Conn) : option (Conn * list ev) :=
  let s := stream f in
  match body f with
  | BReq r => c ← admit_request s r (with_counts (req_sent c) (wrap64 (req_recv c + 1)) c); Some (c, [])
  | Cancel => Some (with_shared (set_cancelled (mark_cancelled s)) (forget_waiter s c), [])
  | Ping =>
    if handles then '(_, c, e) ← send Priority (frame s Pong) c; Some (c, e) else Some (c, [])
  | Pong => deliver_pong s c
  | b => deliver_response s b c
  end.

Definition read_turn (handles : bool) (f : Frame) (c : Conn) : option (Conn * list ev) :=
  if decide (reader c = Running) then '(c, e) ← route_frame handles f c; Some (c, Saw f :: e) else None.
End tasks.

(** ** The server side of the inbound queue *)

Definition take_incoming (c : Conn) : option (Incoming * Conn) :=
  match queue (inbound c) with
  | i :: q => Some (i, with_inbound (λ b, {| queue := q; serving := serving b ++ [in_budget i]; budget := budget b; server := server b |}) c)
  | [] => None
  end.

(** Dropping the [n]th request in hand refunds its units. *)
Definition drop_incoming (n : nat) (c : Conn) : option Conn :=
  units ← serving (inbound c) !! n;
  Some (with_inbound (λ b, {| queue := queue b; serving := delete n (serving b); budget := budget b + units; server := server b |}) c).

(** Dropping the receiver drops what is queued in it. *)
Definition drop_receiver (c : Conn) : Conn :=
  with_inbound (λ b, {| queue := []; serving := serving b; budget := budget b + foldr Z.add 0 (map in_budget (queue b)); server := false |}) c.

(** ** The pool *)

Section pool.
Context `{Countable K} {C : Type} (is_closed : C → bool).

Definition live (k : K) (conns : gmap K C) : option C * gmap K C :=
  match conns !! k with
  | Some c => if is_closed c then (None, delete k conns) else (Some c, conns)
  | None => (None, conns)
  end.

(** [connect] is the closure's outcome. *)
Definition get_or_connect {E} (k : K) (connect : result E C) (conns : gmap K C) : result E C * gmap K C :=
  match live k conns with
  | (Some c, conns) => (Ok c, conns)
  | (None, conns) => match connect with Ok c => (Ok c, <[k := c]> conns) | Err e => (Err e, conns) end
  end.
End pool.

(** ** Runs *)

(** What a caller or a task may do next. Callers send only replies by
    themselves: requests, pings and cancels go through their own steps. *)
Inductive act :=
  | AEnter | AOpen (cap : Z) (b : FrameBody) | APush (s : Z) | ARecv (s : Z) | ADrop (s : Z)
  | ASend (l : lane) (s : Z) (b : FrameBody) | AForget (s : Z) | ACancel (s : Z) | ACancelNow (s : Z) | ATakeCancelled (s : Z)
  | AAbandon (s : Z) | ACharge (n : Z) | ARefund (n : Z) | AShutdown
  | AWrite (pacer_ready wrote_ok : bool) | AWriterStop | AWriterEnd
  | ARead (handles : bool) | AReaderStop | AReaderEnd
  | ATake | ADropIncoming (n : nat) | ADropReceiver.

Definition is_reply (b : FrameBody) : bool := match b with BResp _ _ | BData _ _ => true | _ => false end.
Definition is_request (cap : Z) (b : FrameBody) : bool :=
  match b with BReq _ => cap =? STREAM_CAP | Ping => cap =? 1 | _ => false end.

Section run.
Context `{P : Postcard}.

Definition quiet {A} (o : option (A * Conn)) : option (Conn * list ev) := '(_, c) ← o; Some (c, []).
Definition sent {A} (o : option (A * Conn * list ev)) : option (Conn * list ev) := '(_, c, e) ← o; Some (c, e).

(** [from_peer] is the next frame on the wire, if any. *)
Definition act_step (from_peer : option Frame) (a : act) (c : Conn) : option (Conn * list ev) :=
  match a with
  | AEnter => quiet (Some (enter c))
  | AOpen cap b => if is_request cap b then sent (open_stream cap b c) else None
  | APush s => sent (push_stream s c)
  | ARecv s => quiet (recv s c)
  | ADrop s => if existsb (λ p, p.1 =? s) (pending c) then None else Some (drop_stream s c, [])
  | ASend l s b => if is_reply b then sent (send l (frame s b) c) else None
  | AForget s => Some (forget_waiter s c, [])
  | ACancel s => sent (cancel_send s c)
  | ACancelNow s => Some (cancel_now s c)
  | ATakeCancelled s => quiet (Some (take_cancelled s c))
  | AAbandon s => quiet (abandon s c)
  | ACharge n => Some (charge_fetch n c, [])
  | ARefund n => Some (refund_fetch n c, [])
  | AShutdown => Some (shutdown c, [])
  | AWrite ready ok => write_turn ready ok c
  | AWriterStop => if decide (writer c = Running) then Some (writer_break c, []) else None
  | AWriterEnd => if decide (writer c = Marked) then Some (writer_end c, []) else None
  | ARead handles => f ← from_peer; read_turn handles f c
  | AReaderStop => if decide (reader c = Running) then Some (reader_break c, []) else None
  | AReaderEnd => if decide (reader c = Marked) then Some (reader_end c, []) else None
  | ATake => quiet (take_incoming c)
  | ADropIncoming n => c ← drop_incoming n c; Some (c, [])
  | ADropReceiver => Some (drop_receiver c, [])
  end.

(** An endpoint facing any peer at all. *)
Inductive run (dialer : bool) : Conn → list ev → Prop :=
  | run_start : run dialer (start dialer) []
  | run_step c tr fp a c' e : run dialer c tr → act_step fp a c = Some (c', e) → run dialer c' (tr ++ e).
End run.

(** ** Reading a run *)

Definition opened (tr : list ev) : list Z := omap (λ e, match e with Opened s => Some s | _ => None end) tr.
Definition queued_on (l : lane) (tr : list ev) : list Frame :=
  omap (λ e, match e with Queued l' f => if decide (l' = l) then Some f else None | _ => None end) tr.
Definition wrote_on (l : lane) (tr : list ev) : list Frame :=
  omap (λ e, match e with Wrote l' f => if decide (l' = l) then Some f else None | _ => None end) tr.
Definition queued (tr : list ev) : list Frame := omap (λ e, match e with Queued _ f => Some f | _ => None end) tr.
Definition wrote (tr : list ev) : list Frame := omap (λ e, match e with Wrote _ f => Some f | _ => None end) tr.
Definition saw (tr : list ev) : list Frame := omap (λ e, match e with Saw f => Some f | _ => None end) tr.
Definition handed (s : Z) (tr : list ev) : list FrameBody :=
  omap (λ e, match e with Handed s' b => if decide (s' = s) then Some b else None | _ => None end) tr.
Definition is_answer (b : FrameBody) : bool := match b with BResp _ _ | BData _ _ | Pong => true | _ => false end.
(** What a list of frames says on stream [s]. *)
Definition answers (s : Z) (fs : list Frame) : list FrameBody := map body (List.filter (λ f, (stream f =? s) && is_answer (body f)) fs).

(** ** Invariants of one endpoint *)

(** Take a step apart into the cases of its code. *)
Ltac act_cases :=
  repeat match goal with
  | H : mbind _ _ = Some _ |- _ => apply bind_Some in H as (? & ? & ?)
  | H : Some _ = Some _ |- _ => apply (inj Some) in H
  | H : (_, _) = (_, _) |- _ => injection H; clear H; intros; subst
  | H : None = Some _ |- _ => discriminate H
  | H : match ?x with _ => _ end = Some _ |- _ => let E := fresh "E" in destruct x eqn:E
  | H : match ?x with _ => _ end = (_, _) |- _ => let E := fresh "E" in destruct x eqn:E
  end.

Ltac unfold_step H :=
  unfold act_step in H; cbn beta iota in H;
  unfold quiet, sent, enter, open_stream, push_stream, abandon, recv, cancel_now, cancel_send, take_cancelled,
    charge_fetch, refund_fetch, shutdown, write_turn, writer_break, reader_break, writer_end, reader_end, wake_waiters,
    read_turn, route_frame, send, admit_request, deliver_pong, deliver_response, deliver, take_incoming, drop_incoming, drop_receiver,
    alloc_stream, next_frame, count_request, drop_stream in H.

Definition base (dialer : bool) : Z := if dialer then 1 else 2.

Lemma opened_app t1 t2 : opened (t1 ++ t2) = opened t1 ++ opened t2.
Proof. apply omap_app. Qed.
Lemma handed_app s t1 t2 : handed s (t1 ++ t2) = handed s t1 ++ handed s t2.
Proof. apply omap_app. Qed.
Lemma saw_app t1 t2 : saw (t1 ++ t2) = saw t1 ++ saw t2.
Proof. apply omap_app. Qed.
Lemma wrote_app t1 t2 : wrote (t1 ++ t2) = wrote t1 ++ wrote t2.
Proof. apply omap_app. Qed.
Lemma queued_app t1 t2 : queued (t1 ++ t2) = queued t1 ++ queued t2.
Proof. apply omap_app. Qed.
Lemma wrote_on_app l t1 t2 : wrote_on l (t1 ++ t2) = wrote_on l t1 ++ wrote_on l t2.
Proof. apply omap_app. Qed.
Lemma queued_on_app l t1 t2 : queued_on l (t1 ++ t2) = queued_on l t1 ++ queued_on l t2.
Proof. apply omap_app. Qed.
Lemma answers_app s f1 f2 : answers s (f1 ++ f2) = answers s f1 ++ answers s f2.
Proof. unfold answers. by rewrite List.filter_app, map_app. Qed.

Section invariants.
Context `{P : Postcard}.

Lemma step_ids fp a c c' e : act_step fp a c = Some (c', e) →
  (opened e = [] ∧ next_stream c' = next_stream c) ∨
  (opened e = [next_stream c] ∧ next_stream c' = wrap64 (next_stream c + 2)).
Proof. intros H. destruct a; unfold_step H; act_cases; subst; cbn; auto. Qed.

(** Ids are handed out in order, never twice: two to a request, so 2^62 of them
    before the counter comes round. *)
Definition few (tr : list ev) : Prop := blen (opened tr) <= 2 ^ 62.

Definition ids_ok (dialer : bool) (c : Conn) (tr : list ev) : Prop :=
  next_stream c = base dialer + 2 * blen (opened tr) ∧
  opened tr = map (λ i, base dialer + 2 * Z.of_nat i) (seq 0 (length (opened tr))).

Lemma few_app t1 t2 : few (t1 ++ t2) → few t1.
Proof. unfold few. rewrite opened_app, blen_app. pose proof (blen_nonneg (opened t2)). lia. Qed.

Lemma run_ids d c tr : run d c tr → few tr → ids_ok d c tr.
Proof.
  induction 1 as [|c tr fp a c' e Hr IH Hs]; intros Hf.
  { split; [|done]. by destruct d. }
  destruct (IH (few_app _ _ Hf)) as [Hn Ho]. unfold ids_ok. unfold few in Hf. rewrite opened_app, blen_app in *.
  destruct (step_ids _ _ _ _ _ Hs) as [[-> ->]|[E ->]].
  { rewrite app_nil_r. split; [|done]. change (blen (@nil Z)) with 0. lia. }
  rewrite E in *. change (blen [next_stream c]) with 1 in *. split.
  - unfold wrap64. rewrite Z.mod_small; [lia|]. pose proof (blen_nonneg (opened tr)). destruct d; cbn [base] in *; lia.
  - rewrite length_app, seq_app, map_app. cbn. rewrite Ho at 1. rewrite Hn. done.
Qed.

Lemma ids_fresh d c tr : ids_ok d c tr → next_stream c ∉ opened tr ∧ NoDup (opened tr).
Proof.
  intros [Hn Ho]. split.
  - rewrite Hn, Ho. intros (i & Hi & Hin%elem_of_seq)%list_elem_of_fmap. unfold blen in Hi. rewrite length_map, length_seq in *. lia.
  - rewrite Ho. apply NoDup_fmap; [intros i j ?; lia|apply NoDup_seq].
Qed.

Definition unsent_ok (m : gmap Z (Z * list FrameBody)) (l : list (Z * FrameBody)) : Prop :=
  ∀ p, p ∈ l → is_Some (m !! p.1) ∧ ∃ cap, is_request cap p.2 = true.

(** Waiters, channels and unsent requests are of streams opened here; an unsent
    request still has its receiver. *)
Record reg_ok (c : Conn) (ids : list Z) : Prop := {
  reg_waiters : ∀ s, s ∈ waiters (shared c) → s ∈ ids;
  reg_channels : ∀ s, is_Some (channels c !! s) → s ∈ ids;
  reg_pending : unsent_ok (channels c) (pending c);
  reg_once : NoDup (map fst (pending c))
}.

Lemma settled_pending s (l : list (Z * FrameBody)) p : p ∈ List.filter (λ p, negb (p.1 =? s)) l ↔ p ∈ l ∧ p.1 ≠ s.
Proof. rewrite elem_of_bfilter, negb_true_iff, Z.eqb_neq. tauto. Qed.

Lemma settled_once s (l : list (Z * FrameBody)) : NoDup (map fst l) → NoDup (map fst (List.filter (λ p, negb (p.1 =? s)) l)).
Proof.
  induction l as [|p l IH]; [done|]. cbn. intros [Hn Hd]%NoDup_cons. destruct (negb _); [|auto]. cbn. apply NoDup_cons. split; [|auto].
  intros (q & Hq & [Hin _]%settled_pending)%list_elem_of_fmap. apply Hn. rewrite Hq. by apply list_elem_of_fmap_2.
Qed.

(** Membership in a set of waiters, or a map of channels, after an update. *)
Ltac member H :=
  repeat match type of H with
  | _ ∈ (if ?b then _ else _) => destruct b
  | _ ∈ (match ?b with _ => _ end) => destruct b
  | _ ∈ _ ∖ _ => apply elem_of_difference in H as [H _]
  | _ ∈ ∅ => by apply elem_of_empty in H
  | _ ∈ _ ∪ _ => apply elem_of_union in H as [->%elem_of_singleton|H]
  | is_Some (<[?k:=_]> _ !! ?s) => destruct (decide (k = s)) as [<-|]; [rewrite lookup_insert_eq in H|rewrite lookup_insert_ne in H by done]
  | is_Some (delete _ _ !! _) => let A := fresh in destruct H as [? [? A]%lookup_delete_Some]; apply mk_is_Some in A; rename A into H
  end.

Lemma unsent_insert k v m l : unsent_ok m l → unsent_ok (<[k := v]> m) l.
Proof. intros H p Hp. destruct (H p Hp) as [Hm Hr]. split; [|done]. by apply lookup_insert_is_Some'; right. Qed.
Lemma unsent_delete k m l : unsent_ok m l → (∀ p, p ∈ l → p.1 ≠ k) → unsent_ok (delete k m) l.
Proof. intros H Hk p Hp. destruct (H p Hp) as [Hm Hr]. split; [|done]. rewrite lookup_delete_ne; [done|]. intros E. by eapply Hk. Qed.
Lemma unsent_settle s m l : unsent_ok m l → unsent_ok m (List.filter (λ p, negb (p.1 =? s)) l).
Proof. intros H p [Hp _]%settled_pending. auto. Qed.
Lemma unsent_gone s m l : unsent_ok m l → unsent_ok (delete s m) (List.filter (λ p, negb (p.1 =? s)) l).
Proof. intros H. apply unsent_delete; [by apply unsent_settle|]. by intros p [_ Hp]%settled_pending. Qed.
#[local] Hint Resolve unsent_insert unsent_settle unsent_gone settled_once : core.

Lemma step_reg fp a c c' e ids : reg_ok c ids → next_stream c ∉ ids → act_step fp a c = Some (c', e) → reg_ok c' (ids ++ opened e).
Proof.
  intros [Hw Hc Hp Ho] Hfresh H.
  destruct a; unfold_step H; act_cases; subst; (split; cbn in *; rewrite ?app_nil_r; try by auto).
  all: try (intros s' Hs'; member Hs'; rewrite ?elem_of_app; eauto; fail).
  - intros s' Hs'; member Hs'; rewrite ?elem_of_app, list_elem_of_singleton; auto.
  - intros s' Hs'; member Hs'; rewrite ?elem_of_app, list_elem_of_singleton; auto.
  - intros p [Hin| ->%list_elem_of_singleton]%elem_of_app; [by apply (unsent_insert _ _ _ _ Hp)|]. cbn. split; [|eauto]. by rewrite lookup_insert_eq.
  - rewrite map_app. apply NoDup_app. split_and!; [done| |apply NoDup_singleton].
    intros s Hs ->%list_elem_of_singleton. apply list_elem_of_fmap in Hs as (q & Eq & Hq). cbn in Eq. destruct (Hp q Hq) as [Hm _]. rewrite <- Eq in Hm. auto.
  - apply unsent_delete; [done|]. intros p Hin Es. enough (existsb (λ q, q.1 =? s) (pending c) = true) by congruence.
    apply existsb_exists. exists p. split; [by apply list_elem_of_In|by apply Z.eqb_eq].
Qed.

(** *** Bounds *)

Record bounds_ok (c : Conn) : Prop := {
  b_lanes : blen (outbound c) <= LANE_CAP ∧ blen (bulk c) <= LANE_CAP;
  b_queue : blen (queue (inbound c)) <= INCOMING_CAP;
  b_cancelled : Z.of_nat (size (cancelled (shared c))) <= MAX_CANCELLED + 1;
  b_channels : ∀ s cap q, channels c !! s = Some (cap, q) → 1 <= cap <= STREAM_CAP ∧ blen q <= cap;
  b_units : Forall (λ i, in_budget i = queue_units (in_req i)) (queue (inbound c));
  b_serving : Forall (λ n, 0 <= n) (serving (inbound c));
  b_budget : 0 <= budget (inbound c) ∧
    budget (inbound c) + foldr Z.add 0 (map in_budget (queue (inbound c))) + foldr Z.add 0 (serving (inbound c)) = INBOUND_QUEUE_UNITS
}.

Lemma sum_app (a b : list Z) : foldr Z.add 0 (a ++ b) = foldr Z.add 0 a + foldr Z.add 0 b.
Proof. induction a as [|x a IH]; cbn; [done|]. rewrite IH. lia. Qed.

Lemma sum_delete (l : list Z) n x : l !! n = Some x → foldr Z.add 0 (delete n l) = foldr Z.add 0 l - x.
Proof.
  intros H. rewrite <- (take_drop_middle l n x H) at 2. rewrite delete_take_drop, !sum_app. cbn. lia.
Qed.

Lemma room_ok cap {A} (q : list A) x : room cap q = true → blen (q ++ [x]) <= cap.
Proof. unfold room. rewrite blen_app. change (blen [x]) with 1. intros ?%Z.ltb_lt. lia. Qed.

Lemma mark_cancelled_ok s k : Z.of_nat (size k) <= MAX_CANCELLED + 1 → Z.of_nat (size (mark_cancelled s k)) <= MAX_CANCELLED + 1.
Proof.
  intros Hk. unfold mark_cancelled. destruct (Z.ltb_spec MAX_CANCELLED (Z.of_nat (size k))).
  - rewrite union_empty_r_L, size_singleton. unfold MAX_CANCELLED. lia.
  - pose proof (size_union_alt {[ s ]} k). pose proof (subseteq_size (k ∖ {[ s ]}) k ltac:(set_solver)). rewrite size_singleton in *. lia.
Qed.

Lemma uncancelled_ok s (k : gset Z) n : Z.of_nat (size k) <= n → Z.of_nat (size (k ∖ {[ s ]})) <= n.
Proof. intros Hk. pose proof (subseteq_size (k ∖ {[ s ]}) k ltac:(set_solver)). lia. Qed.

Lemma tail_ok {A} cap (x : A) q : blen (x :: q) <= cap → blen q <= cap.
Proof. rewrite blen_cons. lia. Qed.

Lemma queue_units_nonneg r : 0 <= queue_units r.
Proof. unfold queue_units, wrap32. pose proof (Z.mod_pos_bound (Z.min (default FRAME_HARD_CAP (serialized_size r) / 1024 + 1) INBOUND_QUEUE_UNITS) (2 ^ 32)). lia. Qed.

Lemma units_nonneg q : Forall (λ i, in_budget i = queue_units (in_req i)) q → 0 <= foldr Z.add 0 (map in_budget q).
Proof. induction 1 as [|i q Hi _ IH]; cbn; [lia|]. pose proof (queue_units_nonneg (in_req i)). lia. Qed.

Lemma channel_pop (m : gmap Z (Z * list FrameBody)) k cap b q : m !! k = Some (cap, b :: q) →
  (∀ s cap q, m !! s = Some (cap, q) → 1 <= cap <= STREAM_CAP ∧ blen q <= cap) →
  ∀ s cap' q', <[k := (cap, q)]> m !! s = Some (cap', q') → 1 <= cap' <= STREAM_CAP ∧ blen q' <= cap'.
Proof.
  intros Hk H s cap' q'. destruct (decide (k = s)) as [<-|Hne]; [rewrite lookup_insert_eq; intros [= <- <-]|rewrite lookup_insert_ne by done; apply H].
  destruct (H _ _ _ Hk). eauto using tail_ok.
Qed.

Lemma channel_push (m : gmap Z (Z * list FrameBody)) k cap b q : m !! k = Some (cap, q) → room cap q = true →
  (∀ s cap q, m !! s = Some (cap, q) → 1 <= cap <= STREAM_CAP ∧ blen q <= cap) →
  ∀ s cap' q', <[k := (cap, q ++ [b])]> m !! s = Some (cap', q') → 1 <= cap' <= STREAM_CAP ∧ blen q' <= cap'.
Proof.
  intros Hk Hr H s cap' q'. destruct (decide (k = s)) as [<-|Hne]; [rewrite lookup_insert_eq; intros [= <- <-]|rewrite lookup_insert_ne by done; apply H].
  destruct (H _ _ _ Hk). eauto using room_ok.
Qed.

Lemma channel_new (m : gmap Z (Z * list FrameBody)) k cap b : is_request cap b = true →
  (∀ s cap q, m !! s = Some (cap, q) → 1 <= cap <= STREAM_CAP ∧ blen q <= cap) →
  ∀ s cap' q', <[k := (cap, [])]> m !! s = Some (cap', q') → 1 <= cap' <= STREAM_CAP ∧ blen q' <= cap'.
Proof.
  intros Hb H s cap' q'. destruct (decide (k = s)) as [<-|Hne]; [rewrite lookup_insert_eq; intros [= <- <-]|rewrite lookup_insert_ne by done; apply H].
  unfold STREAM_CAP in *. change (blen []) with 0. destruct b; cbn in Hb; try done; apply Z.eqb_eq in Hb; unfold STREAM_CAP in *; lia.
Qed.

Lemma channel_gone (m : gmap Z (Z * list FrameBody)) k :
  (∀ s cap q, m !! s = Some (cap, q) → 1 <= cap <= STREAM_CAP ∧ blen q <= cap) →
  ∀ s cap' q', delete k m !! s = Some (cap', q') → 1 <= cap' <= STREAM_CAP ∧ blen q' <= cap'.
Proof. intros H s cap' q' [_ Hs]%lookup_delete_Some. eauto. Qed.

Lemma step_bounds fp a c c' e : bounds_ok c → act_step fp a c = Some (c', e) → bounds_ok c'.
Proof.
  intros [[Hhi Hlo] Hq Hk Hc Hu Hs [Hb0 Hb]] H.
  destruct a; unfold_step H; act_cases; subst; (split; cbn in *; try by eauto using mark_cancelled_ok, uncancelled_ok, channel_pop, channel_push, channel_new, channel_gone, room_ok).
  all: try (split; eauto using room_ok, tail_ok; fail).
  - apply Forall_app. auto.
  - rewrite map_app, sum_app. cbn. apply Z.ltb_ge in E1. lia.
  - by eapply tail_ok.
  - by apply Forall_cons in Hu as [_ ?].
  - apply Forall_cons in Hu as [Hi _]. apply Forall_app. split; [done|]. constructor; [|done]. rewrite Hi. apply queue_units_nonneg.
  - rewrite sum_app. cbn in *. lia.
  - by apply Forall_delete.
  - match goal with Hn : _ !! n = Some _ |- _ => rewrite (sum_delete _ _ _ Hn); rewrite Forall_lookup in Hs; pose proof (Hs _ _ Hn) end.
    cbn in *. lia.
  - pose proof (units_nonneg _ Hu). lia.
Qed.

Lemma run_bounds d c tr : run d c tr → bounds_ok c.
Proof. induction 1; [by split; cbn; try lia; try done; destruct d|by eapply step_bounds]. Qed.

(** *** Lanes: first in, first out *)

Definition lane_of (l : lane) (c : Conn) : list Frame := match l with Priority => outbound c | Bulk => bulk c end.

Definition lane_ok (l : lane) (c : Conn) (tr : list ev) : Prop :=
  ∃ rest, queued_on l tr = wrote_on l tr ++ rest ∧ (writer c = Running → rest = lane_of l c).

Lemma step_lane fp a c c' e l tr : lane_ok l c tr → act_step fp a c = Some (c', e) → lane_ok l c' (tr ++ e).
Proof.
  intros (rest & Hq & Hr) H. unfold lane_ok. rewrite queued_on_app, wrote_on_app, Hq.
  destruct a; unfold_step H; act_cases; subst; destruct l; cbn in *; rewrite ?app_nil_r.
  all: rewrite ?(decide_True (P := Priority = Priority)), ?(decide_True (P := Bulk = Bulk)) by done.
  all: try (exists rest; split; [done|by auto]).
  all: try (eexists (rest ++ [_]); rewrite app_assoc; split; [reflexivity|intros Hw; by rewrite (Hr Hw)]).
  all: rewrite (Hr ltac:(assumption)); repeat match goal with E : outbound _ = _ |- _ => rewrite E | E : bulk _ = _ |- _ => rewrite E end.
  all: eexists; rewrite <- ?app_assoc; split; [reflexivity|done].
Qed.

Lemma run_lane d c tr l : run d c tr → lane_ok l c tr.
Proof. induction 1; [by exists []; destruct l|by eapply step_lane]. Qed.

(** *** Streams: what reaches a channel *)

Definition stream_ok (s : Z) (c : Conn) (tr : list ev) : Prop :=
  ∃ early late, answers s (saw tr) = early ++ handed s tr ++ late ∧
    (s ∉ opened tr → handed s tr = [] ∧ late = []) ∧
    (s ∈ waiters (shared c) ∧ is_Some (channels c !! s) → late = []).

Lemma answers_other s f : stream f ≠ s → answers s [f] = [].
Proof. intros H. unfold answers. cbn. by rewrite (proj2 (Z.eqb_neq _ _) H). Qed.
Lemma answers_silent s f : is_answer (body f) = false → answers s [f] = [].
Proof. intros H. unfold answers. cbn. by rewrite H, andb_false_r. Qed.
Lemma answers_own f : is_answer (body f) = true → answers (stream f) [f] = [body f].
Proof. intros H. unfold answers. cbn. by rewrite Z.eqb_refl, H. Qed.

Definition listening (s : Z) (c : Conn) : Prop := s ∈ waiters (shared c) ∧ is_Some (channels c !! s).

(** The steps that do not bring stream [s] an answer, and those that do: it is
    handed over exactly when the stream is listening. *)
Definition calm (s : Z) (c c' : Conn) (e : list ev) : Prop :=
  answers s (saw e) = [] ∧ handed s e = [] ∧ (listening s c' → listening s c ∨ s ∈ opened e).
Definition answered (s : Z) (c c' : Conn) (e : list ev) : Prop :=
  ∃ b, answers s (saw e) = [b] ∧ opened e = [] ∧ (listening s c' → listening s c) ∧
    (handed s e = [b] ∧ listening s c ∨ handed s e = [] ∧ ¬ listening s c).

Lemma listening_push s s' v c : is_Some (channels c !! s') → listening s (with_channels <[s' := v]> c) → listening s c.
Proof. intros Hs' [Hw Hc]. split; [done|]. cbn in Hc. by apply lookup_insert_is_Some' in Hc as [<-|]. Qed.
Lemma listening_less s f c : (∀ w, f w ⊆ w) → listening s (with_shared (set_waiters f) c) → listening s c.
Proof. intros Hf [Hw Hc]. split; [|done]. cbn in Hw. by apply Hf. Qed.

Lemma deliver_spec s t b d c c' e : is_answer b = true → deliver t b d c = Some (c', e) →
  (s = t → answered s c c' (Saw (frame t b) :: e)) ∧ (s ≠ t → calm s c c' (Saw (frame t b) :: e)).
Proof.
  intros Hb H.
  assert (Hl : ∀ w : gset Z, (if d then w ∖ {[ t ]} else w) ⊆ w) by (intros w; destruct d; set_solver).
  unfold deliver in H. case_bool_decide as Ht.
  - destruct (channels c !! t) as [[cap q]|] eqn:Ec; [destruct (room cap q) eqn:Er; [|done]|]; injection H as <- <-; split; intros Hst.
    + subst s. exists b. cbn. rewrite decide_True by done. split_and!; [by apply (answers_own (frame t b))|done| |left; by eauto using mk_is_Some].
      intros H. apply listening_less in H; [|done]. by apply listening_push in H; eauto.
    + split_and!; [by apply answers_other|cbn; by rewrite decide_False|]. intros H. left. apply listening_less in H; [|done].
      by apply listening_push in H; eauto.
    + subst s. exists b. split_and!; [by apply (answers_own (frame t b))|done|by apply listening_less|right]. split; [done|].
      intros [_ [? ?]]. congruence.
    + split_and!; [by apply answers_other|done|]. intros H. left. by apply listening_less in H.
  - injection H as <- <-. split; intros Hst.
    + subst s. exists b. split_and!; [by apply (answers_own (frame t b))|done|done|right]. split; [done|]. by intros [].
    + split_and!; [by apply answers_other|done|by left].
Qed.

Lemma step_stream s fp a c c' e : act_step fp a c = Some (c', e) → calm s c c' e ∨ answered s c c' e.
Proof.
  intros H. destruct a.
  all: try (left; unfold_step H; act_cases; subst; (split; [done|]); (split; [done|]); cbn; intros [Hw Hc]; cbn in *; member Hw; member Hc; unfold listening; eauto; fail).
  - left. unfold_step H; act_cases; subst. split; [done|]. split; [done|]. cbn. intros [Hw Hc]; cbn in *.
    destruct (decide (s = next_stream c)) as [->|Hne]; [right; by left|left]. rewrite lookup_insert_ne in Hc by done. split; [|done].
    apply elem_of_union in Hw as [->%elem_of_singleton|]; done.
  - cbn in H. apply bind_Some in H as (f & _ & H). unfold read_turn in H. destruct (decide _); [|done].
    apply bind_Some in H as ([c1 e1] & H & [= <- <-]). destruct f as [t b]. unfold route_frame in H; cbn in H.
    destruct (decide (s = t)) as [->|Hne].
    + destruct b; cbn in H.
      all: try (right; eapply (deliver_spec t t); [|exact H|]; done).
      all: left; unfold send, admit_request in H; act_cases; subst; (split; [by apply answers_silent|]); (split; [done|]); cbn; intros [Hw Hc]; cbn in *; member Hw; unfold listening; eauto.
    + destruct b; cbn in H.
      all: try (left; eapply (deliver_spec s t); [|exact H|]; done).
      all: left; unfold send, admit_request in H; act_cases; subst; (split; [by apply answers_other|]); (split; [done|]); cbn; intros [Hw Hc]; cbn in *; member Hw; unfold listening; eauto.
Qed.

Lemma run_reg d c tr : run d c tr → few tr → reg_ok c (opened tr).
Proof.
  induction 1 as [|c tr fp a c' e Hr IH Hs]; intros Hf.
  { split; cbn; [by intros s ?%elem_of_empty|intros s [v Hv]; by rewrite lookup_empty in Hv|by intros p ?%elem_of_nil|apply NoDup_nil_2]. }
  pose proof (few_app _ _ Hf) as Hf'. rewrite opened_app. eapply step_reg; [by apply IH| |done].
  by eapply ids_fresh, run_ids.
Qed.

Lemma run_stream s d c tr : run d c tr → few tr → stream_ok s c tr.
Proof.
  induction 1 as [|c tr fp a c' e Hr IH Hs]; intros Hf; [by exists [], []|]. pose proof (few_app _ _ Hf) as Hf'.
  destruct (IH Hf') as (early & late & Hans & Hno & Hw). destruct (run_reg _ _ _ Hr Hf') as [Hreg _ _ _].
  unfold stream_ok. rewrite saw_app, answers_app, handed_app, opened_app, Hans.
  destruct (step_stream s _ _ _ _ _ Hs) as [(-> & -> & Hl)|(b & -> & -> & Hl & [(-> & Hlc)|(-> & Hlc)])]; rewrite ?app_nil_r.
  - exists early, late. split; [done|]. split; [set_solver|]. intros [Hlc|Hin]%Hl; [auto|].
    apply Hno. destruct (step_ids _ _ _ _ _ Hs) as [[E _]|[E _]]; rewrite E in Hin; [by apply elem_of_nil in Hin|].
    apply list_elem_of_singleton in Hin as ->. by eapply ids_fresh, run_ids.
  - exists early, []. rewrite (Hw Hlc), !app_nil_r, <- app_assoc. split_and!; [done| |done].
    intros Hn. destruct Hn. by apply Hreg, Hlc.
  - destruct (decide (s ∈ opened tr)) as [Hin|Hn].
    + exists early, (late ++ [b]). rewrite <- !app_assoc. split_and!; [done|done|]. by intros ?%Hl.
    + destruct (Hno Hn) as [-> ->]. exists (early ++ [b]), []. by rewrite !app_nil_r.
Qed.

(** *** Teardown: nobody is left waiting *)

Definition woken (c : Conn) : Prop := (writer c = Stopped ∨ reader c = Stopped) ∧ writer c ≠ Marked ∧ reader c ≠ Marked.

Record tasks_ok (c : Conn) : Prop := {
  t_closed : writer c ≠ Running ∨ reader c ≠ Running → closed (shared c) = true;
  t_woken : woken c → ∀ s, listening s c → ∃ b, (s, b) ∈ pending c
}.

Lemma step_tasks fp a c c' e : tasks_ok c → act_step fp a c = Some (c', e) → tasks_ok c'.
Proof.
  intros [Hc Hw] H. destruct a; unfold_step H; act_cases; subst; split; cbn in *.
  all: try match goal with |- woken _ → _ => unfold woken in *; cbn in *; intros Hwk s' [Hwt Hch]; cbn in *; member Hwt; member Hch end.
  all: try (by auto).
  all: try (by right; congruence).
  all: try (by intuition congruence).
  all: try (by exfalso; assert (closed (shared c) = true) by (apply Hc; intuition congruence); congruence).
  all: try (by eexists; apply elem_of_app; right; left).
  all: try (by eapply Hw; [tauto|split; [done|by eapply mk_is_Some]]).
  all: destruct (Hw ltac:(tauto) s') as [b' Hb']; [by split|]; exists b'.
  all: first [exact Hb'|by apply elem_of_app; left|by apply settled_pending; split; cbn].
Qed.

Lemma run_tasks d c tr : run d c tr → tasks_ok c.
Proof. induction 1; [by split; [intros [|]|intros [[|] _]]|by eapply step_tasks]. Qed.
End invariants.

(** ** Two endpoints over one ordered stream *)

Definition other (l : lane) : lane := match l with Priority => Bulk | Bulk => Priority end.

(** The answers on the wire are those of one lane when the other carries none. *)
Lemma answers_wrote s l tr : answers s (wrote_on (other l) tr) = [] → answers s (wrote tr) = answers s (wrote_on l tr).
Proof.
  induction tr as [|e tr IH]; [done|]. change (e :: tr) with ([e] ++ tr).
  rewrite !wrote_app, !wrote_on_app, !answers_app. intros [He Ht]%app_nil. rewrite (IH Ht). f_equal.
  destruct e; try done. cbn in *. destruct l, l0; cbn in *; done.
Qed.

Definition is_question (b : FrameBody) : bool := match b with BReq _ | Ping => true | _ => false end.
Definition questions (fs : list Frame) : list Z := map stream (List.filter (λ f, is_question (body f)) fs).

Section net.
Context `{P : Postcard}.

(** An endpoint that answers what it was asked: the server takes the stream of
    each reply from the request it serves. *)
Definition honest (tr : list ev) (a : act) : Prop := match a with ASend _ s _ => s ∈ questions (saw tr) | _ => True end.

(** Each side reads, in order, what the other has written. *)
Definition next_read (mine theirs : list ev) : option Frame := wrote theirs !! length (saw mine).

(** Seen from one side, the dialer when [d]. *)
Inductive net (d : bool) : Conn → list ev → Conn → list ev → Prop :=
  | net_start : net d (start d) [] (start (negb d)) []
  | net_mine a c t c2 t2 c' e : net d c t c2 t2 → honest t a →
      act_step (next_read t t2) a c = Some (c', e) → net d c' (t ++ e) c2 t2
  | net_theirs a c t c2 t2 c' e : net d c t c2 t2 → honest t2 a →
      act_step (next_read t2 t) a c2 = Some (c', e) → net d c t c' (t2 ++ e).

Lemma net_sym d c t c2 t2 : net d c t c2 t2 → net (negb d) c2 t2 c t.
Proof.
  induction 1; [|by eapply net_theirs|by eapply net_mine]. pose proof (net_start (negb d)) as H. by rewrite negb_involutive in H.
Qed.

Lemma net_run d c t c2 t2 : net d c t c2 t2 → run d c t.
Proof. induction 1; eauto using run_start, run_step. Qed.

(** What is on the wire but not yet read. *)
Lemma step_reads fp a c c' e : act_step fp a c = Some (c', e) → saw e = [] ∨ ∃ f, fp = Some f ∧ saw e = [f].
Proof. intros H. destruct a; unfold_step H; act_cases; subst; cbn; eauto. Qed.

Lemma reads_prefix mine theirs e : (∃ r, wrote theirs = saw mine ++ r) →
  saw e = [] ∨ (∃ f, next_read mine theirs = Some f ∧ saw e = [f]) → ∃ r, wrote theirs = saw (mine ++ e) ++ r.
Proof.
  rewrite saw_app. intros [r Hr] [->|(f & Hf & ->)]; [rewrite app_nil_r; eauto|].
  unfold next_read in Hf. rewrite Hr, lookup_app_r, Nat.sub_diag in Hf by done. destruct r as [|g r]; [done|].
  cbn in Hf. apply (inj Some) in Hf as ->. exists r. by rewrite <- app_assoc.
Qed.

Lemma net_reads d c t c2 t2 : net d c t c2 t2 → ∃ r, wrote t2 = saw t ++ r.
Proof.
  induction 1 as [|a c t c2 t2 c' e _ IH _ H|a c t c2 t2 c' e _ [r Hr] _ H]; [by exists []|by eapply reads_prefix, step_reads|].
  rewrite wrote_app, Hr. eexists. by rewrite <- app_assoc.
Qed.

(** Only requests and pings are questions, and both were pending. *)
Lemma step_asked fp a c c' e f : unsent_ok (channels c) (pending c) → act_step fp a c = Some (c', e) →
  f ∈ queued e → is_question (body f) = true → is_Some (channels c !! stream f).
Proof.
  intros Hp H Hin Hq. destruct a; unfold_step H; act_cases; subst; cbn in Hin.
  all: try (by apply elem_of_nil in Hin).
  all: apply list_elem_of_singleton in Hin as ->; cbn in *; try discriminate Hq.
  all: try (by destruct b).
  all: match goal with E : List.find _ _ = Some _ |- _ => apply List.find_some in E as [Hin%list_elem_of_In Es%Z.eqb_eq] end.
  all: destruct (Hp _ Hin) as [? _]; cbn in *; by subst.
Qed.

Lemma run_asked d c tr f : run d c tr → few tr → f ∈ queued tr → is_question (body f) = true → stream f ∈ opened tr.
Proof.
  induction 1 as [|c tr fp a c' e Hr IH Hs]; intros Hf; [by intros ?%elem_of_nil|]. apply few_app in Hf.
  destruct (run_reg _ _ _ Hr Hf) as [_ Hc Hp _]. rewrite queued_app, opened_app, !elem_of_app. intros [Hin|Hin] Hq; [auto|].
  left. apply Hc. by eapply step_asked.
Qed.

(** Only what was queued is written, and only what was written is seen. *)
Lemma wrote_queued d c tr f : run d c tr → f ∈ wrote tr → f ∈ queued tr.
Proof.
  intros Hr (x & Hx & E)%list_elem_of_omap. destruct x as [| |l g| |]; try done. apply (inj Some) in E as ->.
  assert (f ∈ wrote_on l tr) as Hw by (apply list_elem_of_omap; eexists; split; [exact Hx|]; cbn; by rewrite decide_True).
  destruct (run_lane _ _ _ l Hr) as (r & Hq & _). assert (f ∈ queued_on l tr) as (y & Hy & E)%list_elem_of_omap by (rewrite Hq; apply elem_of_app; auto).
  destruct y; try done. destruct (decide _); [|done]. apply list_elem_of_omap. by eexists (Queued _ _).
Qed.

Lemma questions_seen d c t c2 t2 s : net d c t c2 t2 → few t → s ∈ questions (saw t2) → s ∈ opened t.
Proof.
  intros Hn Hf (f & -> & [Hin Hq]%elem_of_bfilter)%list_elem_of_fmap. pose proof (net_run _ _ _ _ _ Hn) as Hr.
  destruct (net_reads _ _ _ _ _ (net_sym _ _ _ _ _ Hn)) as [r Hw].
  eapply run_asked; [done|done| |done]. eapply wrote_queued; [done|]. rewrite Hw. apply elem_of_app; auto.
Qed.

(** What an honest endpoint says, it was asked. *)
Lemma step_answered fp a c c' e s tr : unsent_ok (channels c) (pending c) → honest tr a → act_step fp a c = Some (c', e) →
  answers s (queued e) ≠ [] → s ∈ questions (saw (tr ++ e)).
Proof.
  intros Hp Hh H Hne. unfold questions. rewrite saw_app, List.filter_app, map_app, elem_of_app. unfold answers in Hne.
  destruct a; unfold_step H; act_cases; subst; cbn in *; try done.
  all: rewrite ?andb_false_r in Hne; try (by destruct Hne).
  all: match type of Hne with context [?x =? ?y] => destruct (Z.eqb_spec x y) as [Es|]; [|by destruct Hne] end; cbn in Hne; rewrite <- ?Es.
  3-4: by left.
  3: right; match goal with E : body ?x = Ping |- _ => rewrite E end; cbn; set_solver.
  all: apply List.find_some in E as [Hin%list_elem_of_In _]; destruct (Hp _ Hin) as [_ [cap Hr]]; by destruct f.
Qed.

Lemma unasked d c t c2 t2 s : net d c t c2 t2 → few t → few t2 → s ∉ opened t → answers s (queued t2) = [].
Proof.
  intros Hn Hf Hf2 Hs. destruct (answers s (queued t2)) as [|b l] eqn:E; [done|]. destruct Hs.
  assert (s ∈ questions (saw t2)); [|by eapply questions_seen].
  assert (answers s (queued t2) ≠ []) as H by by rewrite E. clear E b l Hf.
  induction Hn as [| |a c t c2 t2 c' e Hn IH Hh H2]; [done|auto|].
  apply few_app in Hf2 as Hf2'. rewrite queued_app, answers_app in H.
  destruct (answers s (queued t2)) as [|b l]; cbn in H.
  - eapply step_answered; [|done|done|done]. by eapply run_reg, Hf2'; eapply net_run, net_sym.
  - unfold questions. rewrite saw_app, List.filter_app, map_app. apply elem_of_app; left. by apply IH.
Qed.

Lemma answers_nil s fs : answers s fs = [] ↔ ∀ f, f ∈ fs → stream f = s → is_answer (body f) = false.
Proof.
  unfold answers. induction fs as [|g fs IH]; cbn; [split; [by intros _ f ?%elem_of_nil|done]|]. setoid_rewrite elem_of_cons.
  destruct (Z.eqb_spec (stream g) s) as [Es|Es], (is_answer (body g)) eqn:Ea; cbn; rewrite ?IH; [|naive_solver..].
  split; [done|]. intros H. specialize (H g (or_introl eq_refl) Es). congruence.
Qed.

Lemma unseen d c t c2 t2 s : net d c t c2 t2 → few t → few t2 → s ∉ opened t → answers s (saw t) = [].
Proof.
  intros Hn Hf Hf2 Hs. pose proof (unasked _ _ _ _ _ _ Hn Hf Hf2 Hs) as Hq. rewrite answers_nil in *.
  intros f Hin. apply Hq. destruct (net_reads _ _ _ _ _ Hn) as [r Hw]. eapply wrote_queued; [by eapply net_run, net_sym|].
  rewrite Hw. apply elem_of_app; auto.
Qed.

Lemma net_stream d c t c2 t2 s : net d c t c2 t2 → few t → few t2 →
  ∃ late, answers s (saw t) = handed s t ++ late ∧ (listening s c → late = []).
Proof.
  induction 1 as [|a c t c2 t2 c' e Hn IH Hh Hs|a c t c2 t2 c' e Hn IH Hh Hs]; intros Hf Hf2; [by exists []| |eauto using few_app].
  apply few_app in Hf as Hf'. destruct (IH Hf' Hf2) as (late & Hans & Hw).
  rewrite saw_app, answers_app, handed_app.
  destruct (step_stream s _ _ _ _ _ Hs) as [(-> & -> & Hl)|(b & -> & He & Hl & [(-> & Hlc)|(-> & Hlc)])]; rewrite ?app_nil_r.
  - exists late. split; [done|]. intros [?|Hin]%Hl; [auto|]. pose proof (net_run _ _ _ _ _ Hn) as Hr.
    destruct (step_ids _ _ _ _ _ Hs) as [[E _]|[E _]]; rewrite E in Hin; [by apply elem_of_nil in Hin|].
    apply list_elem_of_singleton in Hin as ->. rewrite (unseen _ _ _ _ _ _ Hn) in Hans by (done || eapply ids_fresh, run_ids; done).
    by symmetry in Hans; apply app_nil in Hans as [_ ->].
  - exists []. by rewrite Hans, (Hw Hlc), !app_nil_r.
  - exists (late ++ [b]). rewrite Hans, app_assoc. split; [done|]. by intros ?%Hl.
Qed.

(** C15: The multiplexed connection refines one independent FIFO reply stream
    per request: between two endpoints that answer only what they were asked,
    under any interleaving of requests, cancels, replies on either lane, lane
    back-pressure, drops and teardowns, what a caller's channel has been handed
    on stream [s] is a prefix, in order and without loss, of what the peer
    queued for [s] on a lane, so long as the peer keeps the replies of [s] to
    that lane; and while the caller still listens, nothing is missing but what
    is still queued or on the wire. No other stream's frames, no frame of an
    earlier stream, and no duplicate ever reach it. *)
Theorem stream_fifo d c t c2 t2 s l : net d c t c2 t2 → few t → few t2 →
  answers s (queued_on (other l) t2) = [] →
  ∃ rest, answers s (queued_on l t2) = handed s t ++ rest ∧
    (listening s c → saw t = wrote t2 → lane_of l c2 = [] → writer c2 = Running → rest = []).
Proof.
  intros Hn Hf Hf2 Hl. destruct (net_stream _ _ _ _ _ s Hn Hf Hf2) as (late & Hans & Hlate).
  destruct (net_reads _ _ _ _ _ Hn) as [r Hw]. pose proof (net_run _ _ _ _ _ (net_sym _ _ _ _ _ Hn)) as Hr.
  destruct (run_lane _ _ _ l Hr) as (q & Hq & Hrun). destruct (run_lane _ _ _ (other l) Hr) as (q' & Hq' & _).
  rewrite Hq', answers_app in Hl. apply app_nil in Hl as [Hl _]. apply answers_wrote in Hl.
  rewrite Hq, answers_app, <- Hl, Hw, answers_app, Hans, <- !app_assoc. eexists; split; [reflexivity|].
  intros Hli Hsaw Hlane Hrunning. apply (f_equal length) in Hsaw as Hlen. rewrite length_app in Hlen.
  rewrite (Hlate Hli), (Hrun Hrunning), Hlane. by destruct r; [|cbn in Hlen; lia].
Qed.
End net.

(** ** Bounds *)

(** C17: Whatever the peer sends and in whatever order callers, handlers and
    tasks run, a connection's memory is bounded: at most 256 frames on each
    lane, 64 requests queued for the server, 4097 remembered cancels, and each
    reply channel within its capacity; and the byte budget is conserved: its
    1024 units are exactly what is free, queued and in the server's hands. *)
Theorem conn_bounded `{P : Postcard} d c tr : run d c tr → bounds_ok c.
Proof. apply run_bounds. Qed.

(** ** Teardown *)

(** Receive until the stream ends, [n] times at most. *)
Fixpoint recv_all (n : nat) (s : Z) (c : Conn) : option (list FrameBody) :=
  match n with
  | O => None
  | S n => '(b, c) ← recv s c; match b with Some b => (b ::.) <$> recv_all n s c | None => Some [] end
  end.

Lemma recv_all_S n s c : recv_all (S n) s c = '(b, c) ← recv s c; match b with Some b => (b ::.) <$> recv_all n s c | None => Some [] end.
Proof. done. Qed.

Lemma recv_all_queue s q : ∀ c cap, channels c !! s = Some (cap, q) → s ∉ waiters (shared c) →
  recv_all (S (length q)) s c = Some q.
Proof.
  induction q as [|b q IH]; intros c cap Hc Hs; cbn [length]; rewrite recv_all_S; unfold recv; rewrite Hc.
  - by rewrite bool_decide_eq_false_2.
  - cbn [mbind option_bind]. erewrite IH; [done| |done]. cbn. by rewrite lookup_insert_eq.
Qed.

Lemma find_pending s b (l : list (Z * FrameBody)) : NoDup (map fst l) → (s, b) ∈ l → List.find (λ p, p.1 =? s) l = Some (s, b).
Proof.
  induction l as [|[s' b'] l IH]; cbn; [by intros _ ?%elem_of_nil|]. intros [Hn Hd]%NoDup_cons [[= <- <-]|Hin]%elem_of_cons; [by rewrite Z.eqb_refl|].
  destruct (Z.eqb_spec s' s) as [->|]; [|auto]. destruct Hn. by apply (list_elem_of_fmap_2 fst) in Hin.
Qed.

(** C16: After a teardown nobody waits forever. Once the writer has ended (and
    the reader is not halfway through its own end), in every state the
    connection can reach: a new request is refused; a caller waiting for lane
    room gets an error and leaves nothing registered; and every other open reply
    stream yields what was already delivered to it, in order, and then ends,
    even if its request raced the teardown. *)
Theorem no_caller_waits `{P : Postcard} d c tr : run d c tr → few tr → writer c = Stopped → reader c ≠ Marked →
  enter c = (Err closed_err, c) ∧
  (∀ s b, (s, b) ∈ pending c →
    ∃ c', push_stream s c = Some (Err closed_err, c', []) ∧ s ∉ waiters (shared c') ∧ channels c' !! s = None) ∧
  (∀ s cap q, channels c !! s = Some (cap, q) → (∀ b, (s, b) ∉ pending c) → recv_all (S (length q)) s c = Some q).
Proof.
  intros Hr Hf Hw Hm. destruct (run_tasks _ _ _ Hr) as [Hc Hwoken]. destruct (run_reg _ _ _ Hr Hf) as [_ _ _ Ho]. split_and!.
  - unfold enter. rewrite Hc; [done|]. left. by rewrite Hw.
  - intros s b Hin. unfold push_stream. rewrite (find_pending _ b) by done. rewrite decide_True by done.
    eexists. split; [reflexivity|]. cbn. split; [set_solver|apply lookup_delete_eq].
  - intros s cap q Hch Hp. eapply recv_all_queue; [done|]. intros Hs.
    assert (woken c) as Hwk by (split; [by left|by rewrite Hw]).
    destruct (Hwoken Hwk s) as [b Hb]; [by split; [|rewrite Hch]|]. by eapply Hp.
Qed.

(** ** A request dropped while it awaits the lane *)

(** Its waiter stays registered, with nobody to receive and no frame sent; a
    ping's does not. *)
Lemma abandoned_request_leaks s r c : List.find (λ p, p.1 =? s) (pending c) = Some (s, BReq r) → s ∈ waiters (shared c) →
  ∃ c', abandon s c = Some ((), c') ∧ s ∈ waiters (shared c') ∧ channels c' !! s = None.
Proof. intros Hp Hs. unfold abandon. rewrite Hp. eexists. split; [reflexivity|]. cbn. split; [done|apply lookup_delete_eq]. Qed.
Lemma abandoned_ping_cleans s c : List.find (λ p, p.1 =? s) (pending c) = Some (s, Ping) →
  ∃ c', abandon s c = Some ((), c') ∧ s ∉ waiters (shared c') ∧ channels c' !! s = None.
Proof. intros Hp. unfold abandon. rewrite Hp. eexists. split; [reflexivity|]. cbn. split; [set_solver|apply lookup_delete_eq]. Qed.

(** ** Scripted runs *)

Section play.
Context `{P : Postcard}.

Definition honest_b (tr : list ev) (a : act) : bool := match a with ASend _ s _ => bool_decide (s ∈ questions (saw tr)) | _ => true end.

(** Steps of the dialer ([true]) and of the acceptor; a step that is not enabled
    is skipped. *)
Fixpoint play (sch : list (bool * act)) (c : Conn) (t : list ev) (c2 : Conn) (t2 : list ev) : Conn * list ev * Conn * list ev :=
  match sch with
  | [] => (c, t, c2, t2)
  | (true, a) :: sch =>
    if honest_b t a then
      match act_step (next_read t t2) a c with Some (c', e) => play sch c' (t ++ e) c2 t2 | None => play sch c t c2 t2 end
    else play sch c t c2 t2
  | (false, a) :: sch =>
    if honest_b t2 a then
      match act_step (next_read t2 t) a c2 with Some (c', e) => play sch c t c' (t2 ++ e) | None => play sch c t c2 t2 end
    else play sch c t c2 t2
  end.

Lemma honest_spec tr a : honest_b tr a = true → honest tr a.
Proof. destruct a; cbn; try done. apply bool_decide_eq_true_1. Qed.

Lemma play_net d sch : ∀ c t c2 t2, net d c t c2 t2 → let '(c, t, c2, t2) := play sch c t c2 t2 in net d c t c2 t2.
Proof.
  induction sch as [|[[] a] sch IH]; intros c t c2 t2 Hn; cbn; [done| |].
  - destruct (honest_b t a) eqn:Hh; [|by apply IH]. apply honest_spec in Hh.
    destruct (act_step _ a c) as [[c' e]|] eqn:E; apply IH; [by eapply net_mine|done].
  - destruct (honest_b t2 a) eqn:Hh; [|by apply IH]. apply honest_spec in Hh.
    destruct (act_step _ a c2) as [[c' e]|] eqn:E; apply IH; [by eapply net_theirs|done].
Qed.
End play.

(** A request and a ping answered across each other, the request's reply in two
    bulk frames of which one is still to be read. *)
Definition exchange : list (bool * act) :=
  [(true, AEnter); (true, AOpen 64 (BReq GetTrackers)); (true, AEnter); (true, AOpen 1 Ping); (true, APush 1); (true, APush 3);
   (true, AWrite true true); (true, AWrite true true); (false, ARead true); (false, ATake);
   (false, ASend Bulk 1 (BData false (bstr "a"))); (false, ARead true); (false, ASend Bulk 1 (BData true (bstr "b")));
   (false, AWrite true true); (false, AWrite true true); (false, ADropIncoming 0);
   (true, ARead true); (true, ARead true); (true, ARecv 3)].
(** Then the dialer is torn down with the second reply unread. *)
Definition teardown : list (bool * act) := [(true, AShutdown); (true, AWriterStop); (true, AReaderStop); (true, AWriterEnd); (true, AReaderEnd)].

#[local] Existing Instance toy_postcard.
Definition after (sch : list (bool * act)) : Conn * list ev * Conn * list ev := play sch (start true) [] (start false) [].

Lemma after_net sch : let '(c, t, c2, t2) := after sch in net true c t c2 t2.
Proof. apply play_net, net_start. Qed.

Lemma stream_fifo_witness : let '(c, t, c2, t2) := after exchange in
  handed 1 t = [BData false (bstr "a")] ∧ handed 3 t = [Pong] ∧
  ∃ rest, answers 1 (queued_on Bulk t2) = handed 1 t ++ rest ∧
    (listening 1 c → saw t = wrote t2 → lane_of Bulk c2 = [] → writer c2 = Running → rest = []).
Proof.
  pose proof (after_net exchange) as H. destruct (after exchange) as [[[c t] c2] t2] eqn:E. vm_compute in E.
  injection E as <- <- <- <-. split; [reflexivity|]. split; [reflexivity|].
  apply (stream_fifo true _ _ _ _ 1 Bulk H); [vm_compute; discriminate..|reflexivity].
Defined.

Lemma conn_bounded_witness : let '(c, t, _, _) := after exchange in bounds_ok c ∧ size (waiters (shared c)) = 1%nat.
Proof.
  pose proof (after_net exchange) as H. destruct (after exchange) as [[[c t] c2] t2] eqn:E. vm_compute in E.
  injection E as <- <- <- <-. split; [|reflexivity]. eapply (conn_bounded true), net_run, H.
Defined.

Lemma no_caller_waits_witness : let '(c, t, _, _) := after (exchange ++ teardown) in
  recv_all 2 1 c = Some [BData false (bstr "a")] ∧ enter c = (Err closed_err, c).
Proof.
  pose proof (after_net (exchange ++ teardown)) as H. destruct (after _) as [[[c t] c2] t2] eqn:E. vm_compute in E.
  injection E as <- <- <- <-.
  destruct (no_caller_waits true _ _ (net_run _ _ _ _ _ H) ltac:(vm_compute; discriminate) eq_refl ltac:(discriminate)) as (He & _ & Hr).
  split; [|exact He]. apply (Hr 1 64 [BData false (bstr "a")]); [vm_compute; reflexivity|]. intros b Hb. by apply elem_of_nil in Hb.
Defined.
