(* ===== verification/Handshake.v ===== *)
(** * The EDX handshake ([crates/epix-edx/src/noise.rs], [server.rs])

    Each side proves the identity key it names by signing the Noise handshake
    hash of the session, in its role; the acceptor answers nothing before a
    valid [Hello]. The Noise handshake itself is a third-party crate: its hash is
    an argument, absent on overlay links. *)
From Stdlib Require Import ZArith Lia Strings.Byte.
From stdpp Require Import base list strings.
From S2P Require Import Prelude Canonical Crypt Manifest Peer Wire.
#[local] Open Scope Z_scope.

Inductive Role := Initiator | Responder.
#[global] Instance Role_eq_dec : EqDecision Role.
Proof. solve_decision. Defined.

Definition tag (r : Role) : bytes := match r with Initiator => bstr "initiator" | Responder => bstr "responder" end.

Definition binding_payload (handshake_hash : bytes) (r : Role) : bytes :=
  bstr "epix-edx-binding-v2:" ++ tag r ++ bstr ":" ++ to_hex handshake_hash.

Record PeerIdentity := { node_pk : bytes; address : bytes; caps : Z; version : bytes }.

(** What of [ServeCtx] the handshake uses. *)
Record NodeCtx := { ctx_privatekey : bytes; ctx_version : bytes; ctx_caps : Z }.

Section handshake.
Context `{C : Crypto}.
(** [{:?}] of a string and of a response. *)
Context (debug_str : bytes → bytes) (debug_resp : Resp → bytes).

Definition sign_binding (handshake_hash privatekey : bytes) (r : Role) : io bytes :=
  map_err (io_err KInvalidInput) (sign (binding_payload handshake_hash r) privatekey).

Definition verify_binding (handshake_hash node_pk sig : bytes) (r : Role) : bool :=
  match pubkey_to_address node_pk with
  | Err _ => false
  | Ok address => is_str sig && verify (binding_payload handshake_hash r) address sig
  end.

Definition binding_sig (privatekey : bytes) (handshake_hash : option bytes) (r : Role) : io bytes :=
  match handshake_hash with Some h => sign_binding h privatekey r | None => Ok [] end.

Definition check_identity (net node_pk sig : bytes) (peer_caps : Z) (version : bytes) (handshake_hash : option bytes) (r : Role)
  : result bytes PeerIdentity :=
  if negb (bool_decide (net = NET_ID)) then Err (bstr "wrong net " ++ debug_str net) else
  address ← map_err (λ e, bstr "bad node_pk: " ++ e) (pubkey_to_address node_pk);
  let established := {| node_pk := node_pk; address := address; caps := peer_caps; version := version |} in
  match handshake_hash with
  | Some hash =>
    if negb (verify_binding hash node_pk sig r) then Err (bstr "channel binding failed for " ++ address) else Ok established
  | None => Ok established
  end.

Definition io_other (e : bytes) : io_error := io_err KOther e.

(** The dialer; [request] is what the connection answers. *)
Definition client_hello (ctx : NodeCtx) (listen : list PeerAddr) (handshake_hash : option bytes) (request : Req → io Resp) : io PeerIdentity :=
  pk ← map_err io_other (private_to_compressed_pubkey (ctx_privatekey ctx));
  sig ← binding_sig (ctx_privatekey ctx) handshake_hash Initiator;
  resp ← request (ReqHello {| h_net := NET_ID; h_node_pk := pk; h_binding_sig := sig; h_caps := ctx_caps ctx;
                              h_listen := listen; h_version := ctx_version ctx |});
  match resp with
  | RespHelloAck ack =>
    map_err (io_err KPermissionDenied)
      (check_identity (a_net ack) (a_node_pk ack) (a_binding_sig ack) (a_caps ack) (a_version ack) handshake_hash Responder)
  | RespErr code msg => Err (io_other (bstr "hello refused " ++ dec code ++ bstr ": " ++ msg))
  | other => Err (io_err KInvalidData (bstr "expected HelloAck, got " ++ debug_resp other))
  end.

(** The acceptor's gate. [first] is the first request, [None] when it does not
    come in time; [sent] whether the reply could be queued. The reply goes out
    on the request's stream. *)
Definition hello_gate (ctx : NodeCtx) (handshake_hash : option bytes) (first : option Req) (sent : bool)
  : option PeerIdentity * option Resp :=
  match first with
  | None => (None, None)
  | Some (ReqHello h) =>
    match check_identity (h_net h) (h_node_pk h) (h_binding_sig h) (h_caps h) (h_version h) handshake_hash Initiator with
    | Err e => (None, Some (RespErr BAD_REQUEST e))
    | Ok id =>
      match private_to_compressed_pubkey (ctx_privatekey ctx), binding_sig (ctx_privatekey ctx) handshake_hash Responder with
      | Ok pk, Ok sig =>
        let ack := RespHelloAck {| a_net := NET_ID; a_node_pk := pk; a_binding_sig := sig; a_caps := ctx_caps ctx;
                                   a_observed := None; a_version := ctx_version ctx |} in
        (if sent then Some id else None, Some ack)
      | _, _ => (None, None)
      end
    end
  | Some _ => (None, Some (RespErr BAD_REQUEST (bstr "hello first")))
  end.
End handshake.

(** ** What a signature is bound to *)

Lemma tag_hex_inj r r' x y : tag r ++ bstr ":" ++ x = tag r' ++ bstr ":" ++ y → r = r' ∧ x = y.
Proof. destruct r, r'; cbn; intros [=]; auto. Qed.

Lemma binding_payload_inj h h' r r' : id_wf h → id_wf h' → binding_payload h r = binding_payload h' r' → h = h' ∧ r = r'.
Proof. intros Hh Hh' H. apply (inj (app _)) in H. apply tag_hex_inj in H as [-> H]. split; [by apply to_hex_inj|done]. Qed.

(** Roles are told apart whatever the two hashes are. *)
Lemma binding_payload_role h h' : binding_payload h Initiator ≠ binding_payload h' Responder.
Proof. intros H. apply (inj (app _)) in H. by apply tag_hex_inj in H as [? _]. Qed.

Section proofs.
Context `{C : Crypto}.
Context (debug_str : bytes → bytes) (debug_resp : Resp → bytes).
Notation check := (check_identity debug_str).
Notation dial := (client_hello debug_str debug_resp).
Notation gate := (hello_gate debug_str).

(** What an accepted identity has proved. *)
Definition proved (id : PeerIdentity) (sig : bytes) (hash : option bytes) (r : Role) : Prop :=
  pubkey_to_address (node_pk id) = Ok (address id) ∧
  ∀ h, hash = Some h → get_sign_address_64 (binding_payload h r) sig = Ok (address id).

Lemma check_spec net pk sig cp v hash r id : check net pk sig cp v hash r = Ok id →
  net = NET_ID ∧ node_pk id = pk ∧ caps id = cp ∧ version id = v ∧ proved id sig hash r.
Proof.
  unfold check_identity. case_bool_decide as Hn; [|done]. cbn [negb].
  destruct (pubkey_to_address pk) as [a|e] eqn:Ea; [|done]. cbn [map_err mbind result_bind].
  destruct hash as [h|].
  - unfold verify_binding. rewrite Ea. destruct (is_str sig); cbn; [|done]. unfold verify.
    destruct (get_sign_address_64 _ sig) as [a'|] eqn:Es; [|done]. case_bool_decide; [|done]. cbn. subst a'.
    intros <-%Ok_inj. split_and!; try done. split; [done|]. by intros ? [= <-].
  - intros <-%Ok_inj. split_and!; try done.
Qed.

End proofs.

(** What is relied on beyond [CryptoLaws]: a compressed key decodes to its
    point. *)
Class KeyLaws `{C : Crypto} := compressed_law s : from_sec1 (compressed_pubkey s) = Ok (mul_base s).

(** A signature is a Rust string. *)
Definition signs_strings `{C : Crypto} (privatekey : bytes) : Prop := ∀ data sig, sign data privatekey = Ok sig → is_str sig = true.

Section complete.
Context `{C : Crypto} {L : CryptoLaws} {K : KeyLaws}.
Context (debug_str : bytes → bytes) (debug_resp : Resp → bytes).

(** An honest side's claims pass. *)
Lemma honest_check ctx hash r pk sig a :
  private_to_compressed_pubkey (ctx_privatekey ctx) = Ok pk → binding_sig (ctx_privatekey ctx) hash r = Ok sig →
  privatekey_to_address (ctx_privatekey ctx) = Ok a → signs_strings (ctx_privatekey ctx) →
  check_identity debug_str NET_ID pk sig (ctx_caps ctx) (ctx_version ctx) hash r =
    Ok {| node_pk := pk; address := a; caps := ctx_caps ctx; version := ctx_version ctx |}.
Proof.
  intros Hpk Hsig Ha Hstr. unfold check_identity. rewrite bool_decide_eq_true_2 by done. cbn [negb].
  assert (pubkey_to_address pk = Ok a) as Hp.
  { unfold private_to_compressed_pubkey, privatekey_to_address in *. destruct (priv_to_scalar _) as [s|]; [|done]. cbn in *.
    apply Ok_inj in Hpk as <-. unfold pubkey_to_address. by rewrite compressed_law. }
  rewrite Hp. cbn [map_err mbind result_bind]. destruct hash as [h|]; [|done].
  unfold binding_sig, sign_binding in Hsig. destruct (sign _ _) as [sg|] eqn:Es; [|done]. apply Ok_inj in Hsig as ->.
  apply Hstr in Es as Hu.
  unfold verify_binding. rewrite Hp, Hu. unfold verify, get_sign_address_64. apply recover_sign_digest in Es. rewrite Es, Ha.
  by rewrite bool_decide_eq_true_2.
Qed.

Definition identity_of (ctx : NodeCtx) (pk a : bytes) : PeerIdentity :=
  {| node_pk := pk; address := a; caps := ctx_caps ctx; version := ctx_version ctx |}.

(** Two honest nodes always come to know each other: for any keys that sign,
    with or without a session hash, the acceptor lets the dialer's [Hello] past
    its gate and the dialer accepts the acknowledgement, and each holds the
    other's key, address, capabilities and version. *)
Theorem handshake_completes a b listen hash pka pkb sa sb aa ab :
  private_to_compressed_pubkey (ctx_privatekey a) = Ok pka → binding_sig (ctx_privatekey a) hash Initiator = Ok sa →
  privatekey_to_address (ctx_privatekey a) = Ok aa → signs_strings (ctx_privatekey a) →
  private_to_compressed_pubkey (ctx_privatekey b) = Ok pkb → binding_sig (ctx_privatekey b) hash Responder = Ok sb →
  privatekey_to_address (ctx_privatekey b) = Ok ab → signs_strings (ctx_privatekey b) →
  ∃ hello ack, hello_gate debug_str b hash (Some (ReqHello hello)) true = (Some (identity_of a pka aa), Some ack) ∧
    ∀ request, request (ReqHello hello) = Ok ack → client_hello debug_str debug_resp a listen hash request = Ok (identity_of b pkb ab).
Proof.
  intros Hpa Hsa Haa Hta Hpb Hsb Hab Htb.
  pose proof (honest_check a hash Initiator pka sa aa Hpa Hsa Haa Hta) as Ha.
  pose proof (honest_check b hash Responder pkb sb ab Hpb Hsb Hab Htb) as Hb.
  eexists {| h_net := NET_ID; h_node_pk := pka; h_binding_sig := sa; h_caps := ctx_caps a; h_listen := listen; h_version := ctx_version a |}, _.
  split.
  - unfold hello_gate. cbn [h_net h_node_pk h_binding_sig h_caps h_version]. rewrite Ha, Hpb, Hsb. reflexivity.
  - intros request Hr. unfold client_hello. rewrite Hpa, Hsa. cbn [map_err mbind result_bind]. rewrite Hr.
    cbn [map_err mbind result_bind a_net a_node_pk a_binding_sig a_caps a_version]. by rewrite Hb.
Qed.
End complete.

#[local] Instance toy_key_laws : KeyLaws (C := toy_crypto).
Proof.
  intros s. change (@Ok bytes Z (toy_word (be_bytes 32 (s mod 256 ^ 32))) = Ok (s mod 256 ^ 32)). f_equal.
  rewrite <- (app_nil_r (be_bytes 32 _)), toy_word_bytes. by rewrite Z.mod_mod by done.
Qed.

Definition toy_ctx : NodeCtx := {| ctx_privatekey := toy_key; ctx_version := bstr "1"; ctx_caps := MESH |}.

Definition toy_pk : bytes := x02 :: repeat x01 32.
Definition toy_sig : bytes := x1b :: repeat x01 32 ++ repeat x00 32.

Lemma handshake_completes_witness : ∃ hello ack,
  hello_gate (C := toy_crypto) id toy_ctx (Some (repeat x05 32)) (Some (ReqHello hello)) true = (Some (identity_of toy_ctx toy_pk toy_addr), Some ack).
Proof.
  assert (signs_strings (C := toy_crypto) toy_key) as Hs by (intros d sg [= <-]; vm_compute; reflexivity).
  destruct (handshake_completes (C := toy_crypto) (L := toy_laws) (K := toy_key_laws) id (λ _, []) toy_ctx toy_ctx [] (Some (repeat x05 32))
    toy_pk toy_pk toy_sig toy_sig toy_addr toy_addr ltac:(vm_compute; reflexivity) ltac:(vm_compute; reflexivity) ltac:(vm_compute; reflexivity) Hs
    ltac:(vm_compute; reflexivity) ltac:(vm_compute; reflexivity) ltac:(vm_compute; reflexivity) Hs) as (hello & ack & H & _).
  exists hello, ack. exact H.
Defined.
