(* ===== verification/Server.v ===== *)
(** * The EDX server ([crates/epix-edx/src/server.rs])

    What each request is answered with: the batched replies, the byte stream of a
    range cut into data frames, and admission by the upload choker and by the
    serve queue. The loop that runs the handlers is in [Session].

    The object store is an interface ([Backend]); the site registry and the
    control plane are traits implemented elsewhere ([Provider], [Control]). A
    handler runs on an environment that says how each of its sends ends and when
    the peer cancels. The encode semaphore is never closed and the blocking tasks
    do not panic, so those two error arms are left out. *)
From Stdlib Require Import ZArith Lia Strings.Byte.
From stdpp Require Import base list gmap strings.
From S2P Require Import Prelude Ordered Bitfield Manifest Choke Peer Wire Conn Handshake.
#[local] Open Scope Z_scope.

Definition MAX_RANGES_PER_REQ : Z := 64.
Definition MAX_BYTES_PER_REQ : Z := Z.shiftl 64 20.
Definition MAX_MANY_ITEMS : Z := 256.
Definition MAX_MANY_ITEM_BYTES : Z := 64 * 1024.
Definition MAX_CONCURRENT_SERVES : nat := 8.
Definition ENCODE_QUEUE_RETRY_SECS : Z := 5.
Definition SERVE_SLOTS_RETRY_SECS : Z := 2.
Definition FIRST_PAINT_OBJECT_BYTES : Z := Z.shiftl 4 20.
Definition BATCH_BUDGET : Z := MAX_FRAME_LEN - 4096.
Definition MANY_ITEM_OVERHEAD : Z := 35.

(** ** What the server calls *)

(** The store: [be_encode] is the buffers the encoder hands its writer, in
    order, and what follows once they are all written. *)
Class Backend (S : Type) := {
  be_info : ObjId → S → io (option (Z * bool)) * S;
  be_bits : ObjId → S → io GroupBits.t * S;
  be_complete : ObjId → S → io bool * S;
  be_read : ObjId → Z → S → io bytes * S;
  be_encode : ObjId → list ByteRange → Z → S → list bytes * (S → io () * S)
}.

Abbreviation SignedEntry := (bytes * Z * Z)%type.

(** [SignedProvider]. *)
Record Provider := {
  get_signed : bytes → bytes → option bytes;
  list_signed : bytes → Z → list SignedEntry;
  xite_summary : bytes → option (Z * Z * Z);
  apply_update : bytes → bytes → bytes → list (ObjId * bytes) → Z → list (bytes * bytes) → list bytes → result bytes bool
}.

(** [ControlProvider]. *)
Record Control := {
  ctl_updates_since : Z → list (bytes * Z) * Z;
  ctl_pex : bytes → Z → list PeerAddr → PeerIdentity → list PeerAddr;
  ctl_trackers : list bytes;
  ctl_kad : bytes → PeerIdentity → result bytes bytes;
  ctl_announce : bytes → PeerIdentity → result bytes bytes
}.

(** [ServeCtx], with the clock and the foreground flag as read by the request. *)
Record ServeCtx := { provider : Provider; control : option Control; now : Z; foreground : bool }.

(** ** A handler's environment *)

(** [sends]: how the coming sends end (they succeed when it runs out);
    [cancels]: whether a [Cancel] came since the last look, per look;
    [slot]: whether the serve queue has room in time; [log]: the frames queued,
    on the request's stream, with their lane; [shut]: whether the handler tore
    the connection down; [credited]: what [on_served] was told. *)
Record Env (S : Type) := mkEnv {
  store : S; choker : option Choker; sends : list (io ()); cancels : list bool; slot : bool;
  log : list (lane * FrameBody); shut : bool; credited : list (ObjId * Z)
}.
Arguments mkEnv {_}. Arguments store {_}. Arguments choker {_}. Arguments sends {_}. Arguments cancels {_}.
Arguments slot {_}. Arguments log {_}. Arguments shut {_}. Arguments credited {_}.

Definition Srv (S A : Type) : Type := Env S → A * Env S.
#[global] Instance srv_ret S : MRet (Srv S) := λ A a e, (a, e).
#[global] Instance srv_bind S : MBind (Srv S) := λ A B f m e, let '(a, e) := m e in f a e.

Section env.
Context {S : Type}.

Definition with_store {A} (f : S → A * S) : Srv S A := λ e,
  let '(a, s) := f (store e) in (a, mkEnv s (choker e) (sends e) (cancels e) (slot e) (log e) (shut e) (credited e)).
Definition with_choker {A} (f : Choker → A * Choker) : Srv S (option A) := λ e,
  match choker e with
  | Some c => let '(a, c) := f c in (Some a, mkEnv (store e) (Some c) (sends e) (cancels e) (slot e) (log e) (shut e) (credited e))
  | None => (None, e)
  end.

(** Queue a frame of this request's stream: [Conn::send], [send_bulk] and their
    blocking forms. *)
Definition put (l : lane) (b : FrameBody) : Srv S (io ()) := λ e,
  let r := default (Ok ()) (head (sends e)) in
  (r, mkEnv (store e) (choker e) (tail (sends e)) (cancels e) (slot e) (if is_ok r then log e ++ [(l, b)] else log e) (shut e) (credited e)).

Definition respond (r : Resp) : Srv S () := _ ← put Priority (BResp true r); mret ().

(** [Conn::take_cancelled] of this stream. *)
Definition take_cancelled : Srv S bool := λ e,
  (default false (head (cancels e)), mkEnv (store e) (choker e) (sends e) (tail (cancels e)) (slot e) (log e) (shut e) (credited e)).

Definition shutdown : Srv S () := λ e, ((), mkEnv (store e) (choker e) (sends e) (cancels e) (slot e) (log e) true (credited e)).
Definition on_served (items : list (ObjId * Z)) : Srv S () := λ e,
  ((), mkEnv (store e) (choker e) (sends e) (cancels e) (slot e) (log e) (shut e) (credited e ++ items)).

(** [encode_queue_slot]. *)
Definition encode_queue_slot : Srv S bool := λ e, (slot e, e).
End env.

(** ** Refusals *)

Definition busy_resp (identity : PeerIdentity) (retry_after_secs : Z) (msg : bytes) : Resp :=
  if negb (Z.land (caps identity) RETRY_AFTER =? 0)
  then Busy (Z.min (sat_mul64 retry_after_secs 1000) u32_max)
  else RespErr BUSY msg.

Definition unsupported : Resp := RespErr UNSUPPORTED (bstr "control plane not served").

(** ** Batched replies *)

Section batches.
Context {S : Type}.

Fixpoint serve_signed_loop (fuel : nat) (rest : bytes) : Srv S () :=
  if BATCH_BUDGET <? blen rest then
    match fuel with
    | O => mret ()
    | Datatypes.S fuel =>
      cancelled ← take_cancelled;
      if cancelled : bool then mret () else
      r ← put Priority (BResp false (Signed (take (Z.to_nat BATCH_BUDGET) rest)));
      match r with Err _ => mret () | Ok _ => serve_signed_loop fuel (drop (Z.to_nat BATCH_BUDGET) rest) end
    end
  else respond (Signed rest).
Definition serve_signed (b : bytes) : Srv S () := serve_signed_loop (length b) b.

(** The loop the batched replies share: take the next item, flush the batch
    first when it would go over the budget. *)
Fixpoint pack {B A} (next : B → Srv S (option A)) (cost : A → Z) (flush : list A → Srv S (io ()))
    (todo : list B) (batch : list A) (n : Z) : Srv S (io (list A)) :=
  match todo with
  | [] => mret (Ok batch)
  | b :: todo =>
    item ← next b;
    match item with
    | None => pack next cost flush todo batch n
    | Some a =>
      if (BATCH_BUDGET <? n + cost a) && negb (bool_decide (batch = [])) then
        r ← flush batch;
        match r with Err e => mret (Err e) | Ok _ => pack next cost flush todo [a] (cost a) end
      else pack next cost flush todo (batch ++ [a]) (n + cost a)
    end
  end.

(** An item already at hand. *)
Definition given {A} (a : A) : Srv S (option A) := mret (Some a).

Definition signed_entry_cost (e : SignedEntry) : Z := blen e.1.1 + 24.
Definition serve_signed_list (entries : list SignedEntry) : Srv S () :=
  r ← pack given signed_entry_cost (λ es, put Priority (BResp false (SignedList es))) entries [] 0;
  match r with Err _ => mret () | Ok batch => respond (SignedList batch) end.

Definition update_cost (u : bytes * Z) : Z := blen u.1 + 16.
Definition serve_updates (updates : list (bytes * Z)) (head : Z) : Srv S () :=
  r ← pack given update_cost (λ us, put Priority (BResp false (Updates us 0))) updates [] 0;
  match r with Err _ => mret () | Ok batch => respond (Updates batch head) end.

Fixpoint fit_trackers (ts : list bytes) (n : Z) : list bytes :=
  match ts with
  | [] => []
  | t :: ts => let n := n + blen t + 8 in if BATCH_BUDGET <? n then [] else t :: fit_trackers ts n
  end.

(** [stalled_teardown]. *)
Definition stalled_teardown (e : io_error) : Srv S () := if decide (kind e = KTimedOut) then shutdown else mret ().

Definition many_cost (item : ObjId * bytes) : Z := blen item.2 + MANY_ITEM_OVERHEAD.
Definition sizes (items : list (ObjId * bytes)) : list (ObjId * Z) := map (λ i, (i.1, blen i.2)) items.

Definition send_many (l : lane) (last : bool) (items : list (ObjId * bytes)) : Srv S (io ()) :=
  r ← put l (BResp last (Many items));
  match r with
  | Err e => stalled_teardown e ;; mret (Err e)
  | Ok _ => on_served (sizes items) ;; mret (Ok ())
  end.
End batches.

(** ** [FrameSink]: a byte stream in data frames *)

Section sink.
Context {S : Type} (l : lane).

(** The buffer is given up once the peer is known not to have cancelled. *)
Definition sink_send (buf : bytes) (last : bool) : Srv S (io () * bytes) :=
  cancelled ← take_cancelled;
  if cancelled : bool then mret (Err (io_err KInterrupted (bstr "peer cancelled")), buf)
  else r ← put l (BData last buf); mret (r, []).

(** [Write::write]: all of the data or an error. *)
Fixpoint sink_write_loop (fuel : nat) (buf rest : bytes) : Srv S (io () * bytes) :=
  match rest, fuel with
  | [], _ | _, O => mret (Ok (), buf)
  | _, Datatypes.S fuel =>
    let n := Z.to_nat (Z.min (MAX_FRAME_LEN - blen buf) (blen rest)) in
    let buf := buf ++ take n rest in
    let rest := drop n rest in
    if blen buf =? MAX_FRAME_LEN then
      r ← sink_send buf false;
      match r with (Err e, buf) => mret (Err e, buf) | (Ok _, buf) => sink_write_loop fuel buf rest end
    else sink_write_loop fuel buf rest
  end.
(** A turn takes a byte or empties a full buffer. *)
Definition sink_write (buf data : bytes) : Srv S (io () * bytes) := sink_write_loop (Datatypes.S (length data)) buf data.

(** The standard library's [write_all] over it: an [Interrupted] write is tried
    again, with the same data. *)
Fixpoint write_all (fuel : nat) (buf data : bytes) : Srv S (io () * bytes) :=
  match data, fuel with
  | [], _ | _, O => mret (Ok (), buf)
  | _, Datatypes.S fuel =>
    r ← sink_write buf data;
    match r with
    | (Err e, buf) => if decide (kind e = KInterrupted) then write_all fuel buf data else mret (Err e, buf)
    | (Ok _, buf) => mret (Ok (), buf)
    end
  end.

(** Every retry spends a cancel or a send that failed; so many turns are
    enough. *)
Definition write_fuel (e : Env S) : nat := Datatypes.S (length (cancels e) + length (sends e)).

Fixpoint write_each (buf : bytes) (writes : list bytes) : Srv S (io () * bytes) :=
  match writes with
  | [] => mret (Ok (), buf)
  | d :: writes =>
    r ← (λ e, write_all (write_fuel e) buf d e);
    match r with (Err e, buf) => mret (Err e, buf) | (Ok _, buf) => write_each buf writes end
  end.
End sink.

(** ** Requests *)

Section serve.
Context {S : Type} `{B : Backend S}.
Context (hash_iter : gmap bytes PeerAccount → list (bytes * PeerAccount)).
Context (ctx : ServeCtx) (identity : PeerIdentity).

(** [Choker::decide] and [retry_after_secs], under one lock. *)
Definition consult (n : Z) (first_paint : bool) : Srv S (option (ServeDecision * Z)) :=
  with_choker (λ c,
    let '(d, c) := serve_decision hash_iter (node_pk identity) n first_paint (foreground ctx) (now ctx) c in
    ((d, retry_after_secs c d (now ctx)), c)).

(** *** [GetRange] *)

Definition range_total (ranges : list ByteRange) : Z := foldl sat_add64 0 (map (λ r, sat_sub r.2 r.1) ranges).

Definition range_charge (ranges : list ByteRange) : Z :=
  foldl sat_add64 0 (map (λ r : ByteRange, if r.1 <? r.2 then sat_mul64 (div_ceil r.2 GROUP_BYTES - r.1 / GROUP_BYTES) GROUP_BYTES else 0) ranges).

(** The encode and [FrameSink::finish]. *)
Definition stream_range (l : lane) (obj : ObjId) (ranges : list ByteRange) : Srv S (io ()) :=
  plan ← with_store (λ s, let '(ws, k) := be_encode obj ranges (now ctx) s in ((ws, k), s));
  let '(writes, rest) := plan in
  r ← write_each l [] writes;
  match r with
  | (Err e, _) => mret (Err e)
  | (Ok _, buf) =>
    r ← with_store rest;
    match r with
    | Err e => mret (Err e)
    | Ok _ => r ← sink_send l buf true; mret r.1
    end
  end.

(** Once admitted: the serve queue, the encode, and how it ended. *)
Definition serve_admitted (l : lane) (obj : ObjId) (ranges : list ByteRange) (charged : Z) : Srv S () :=
  queued ← encode_queue_slot;
  if negb queued then respond (busy_resp identity ENCODE_QUEUE_RETRY_SECS (bstr "serve queue full")) else
  res ← stream_range l obj ranges;
  match res with
  | Ok _ => on_served [(obj, charged)]
  | Err e =>
    match kind e with
    | KInterrupted | KBrokenPipe => mret ()
    | KTimedOut => shutdown
    | KNotFound => respond (RespErr NOT_FOUND (text e))
    | _ => respond (RespErr INTERNAL (text e))
    end
  end.

Definition serve_range (obj : ObjId) (ranges : list ByteRange) (deadline_ms : Z) : Srv S () :=
  if (MAX_RANGES_PER_REQ <? blen ranges) || (MAX_BYTES_PER_REQ <? range_total ranges)
  then respond (RespErr LIMIT (bstr "range caps exceeded"))
  else
    let charged := range_charge ranges in
    stat ← with_store (be_info obj);
    let obj_size := match stat with Ok (Some (size, _)) => Some size | _ => None end in
    let first_paint := default charged obj_size <=? FIRST_PAINT_OBJECT_BYTES in
    let l := if negb first_paint && (deadline_ms =? 0) then Bulk else Priority in
    d ← consult charged first_paint;
    match d with
    | Some ((Choked | Throttled), retry_secs) => respond (busy_resp identity retry_secs (bstr "choked"))
    | _ => serve_admitted l obj ranges charged
    end.

(** *** [GetMany] *)

Fixpoint many_servable (objs : list ObjId) : Srv S (list (ObjId * Z)) :=
  match objs with
  | [] => mret []
  | obj :: objs =>
    stat ← with_store (be_info obj);
    rest ← many_servable objs;
    mret (match stat with Ok (Some (size, true)) => if size <=? MAX_MANY_ITEM_BYTES then (obj, size) :: rest else rest | _ => rest end)
  end.

(** The admitted prefix, whether it drew past the free budget, and the hint of
    the refusal that cut it. *)
Fixpoint admit_loop (todo admitted : list (ObjId * Z)) (bulk : bool) : Srv S (list (ObjId * Z) * bool * option Z) :=
  match todo with
  | [] => mret (admitted, bulk, None)
  | item :: todo =>
    d ← consult item.2 true;
    match d with
    | Some (FirstPaint, _) => admit_loop todo (admitted ++ [item]) bulk
    | Some (Serve, _) => admit_loop todo (admitted ++ [item]) true
    | Some (_, retry) => mret (admitted, bulk, Some retry)
    | None => mret (admitted ++ item :: todo, bulk, None)
    end
  end.
Definition admit_many (servable : list (ObjId * Z)) : Srv S (list (ObjId * Z) * bool * option Z) := admit_loop servable [] false.

(** An item that does not read is left out. *)
Definition read_item (item : ObjId * Z) : Srv S (option (ObjId * bytes)) :=
  r ← with_store (be_read item.1 (now ctx));
  mret (match r with Ok b => Some (item.1, b) | Err _ => None end).

Definition read_and_frame_many (l : lane) (servable : list (ObjId * Z)) : Srv S () :=
  r ← pack read_item many_cost (send_many l false) servable [] 0;
  match r with Err _ => mret () | Ok batch => _ ← send_many l true batch; mret () end.

Definition serve_many (objs : list ObjId) : Srv S () :=
  if MAX_MANY_ITEMS <? blen objs then respond (RespErr LIMIT (bstr "too many items")) else
  servable ← many_servable objs;
  a ← admit_many servable;
  let '(admitted, bulk, refused_retry) := a in
  if bool_decide (admitted = []) && negb (bool_decide (servable = []))
  then respond (busy_resp identity (default 1 refused_retry) (bstr "choked"))
  else
    queued ← encode_queue_slot;
    if negb queued then respond (busy_resp identity ENCODE_QUEUE_RETRY_SECS (bstr "serve queue full"))
    else read_and_frame_many (if bulk : bool then Bulk else Priority) admitted.

(** *** The others *)

Definition serve_bitfield (obj : ObjId) : Srv S () :=
  stat ← with_store (be_info obj);
  match stat with
  | Err e => respond (RespErr INTERNAL (text e))
  | Ok None => respond (RespErr NOT_FOUND (to_hex obj))
  | Ok (Some (size, _)) =>
    b ← with_store (be_bits obj);
    match b with
    | Err e => respond (RespErr INTERNAL (text e))
    | Ok b => respond (RespBitfield size (GroupBits.to_wire b))
    end
  end.

Definition serve_get_signed (xite inner_path : bytes) : Srv S () :=
  match get_signed (provider ctx) xite inner_path with
  | Some b => serve_signed b
  | None => respond (RespErr NOT_FOUND (xite ++ bstr "/" ++ inner_path))
  end.

Definition serve_xite_summary (xite : bytes) : Srv S () :=
  respond match xite_summary (provider ctx) xite with
          | Some (signed_files, newest_modified, held_bytes) => XiteSummary signed_files newest_modified held_bytes
          | None => RespErr NOT_FOUND xite
          end.

Definition set_bit (i : Z) (bits : bytes) : bytes :=
  alter (λ b, byte_of (Z.lor (byte_val b) (Z.shiftl 1 (i mod 8)))) (Z.to_nat (i / 8)) bits.

Fixpoint shard_mask_loop (i : Z) (addrs : list ObjId) (bits : bytes) : Srv S bytes :=
  match addrs with
  | [] => mret bits
  | a :: addrs =>
    r ← with_store (be_complete a);
    shard_mask_loop (i + 1) addrs (match r with Ok true => set_bit i bits | _ => bits end)
  end.
Definition serve_shard_mask (addrs : list ObjId) : Srv S () :=
  bits ← shard_mask_loop 0 addrs (replicate (Z.to_nat (div_ceil (blen addrs) 8)) "000"%byte);
  respond (ShardMask bits).

Definition serve_updates_since (after : Z) : Srv S () :=
  match control ctx with
  | Some c => let '(updates, head) := ctl_updates_since c after in serve_updates updates head
  | None => respond unsupported
  end.

Definition serve_pex (xite : bytes) (need : Z) (peers : list PeerAddr) : Srv S () :=
  respond match control ctx with Some c => RespPeers (ctl_pex c xite need peers identity) | None => unsupported end.

Definition serve_trackers : Srv S () :=
  respond match control ctx with Some c => Trackers (fit_trackers (ctl_trackers c) 0) | None => unsupported end.

Definition payload_or_bad (r : result bytes bytes) : Resp := match r with Ok b => Payload b | Err e => RespErr BAD_REQUEST e end.
Definition serve_kad (payload : bytes) : Srv S () :=
  respond match control ctx with Some c => payload_or_bad (ctl_kad c payload identity) | None => unsupported end.
Definition serve_announce (payload : bytes) : Srv S () :=
  respond match control ctx with Some c => payload_or_bad (ctl_announce c payload identity) | None => unsupported end.

Definition handle (req : Req) : Srv S () :=
  match req with
  | ReqHello _ => respond (RespErr BAD_REQUEST (bstr "already hello'd"))
  | GetRange obj _ ranges deadline_ms => serve_range obj ranges deadline_ms
  | GetMany objs => serve_many objs
  | GetBitfield obj => serve_bitfield obj
  | GetSigned xite inner_path => serve_get_signed xite inner_path
  | ListSigned xite since => serve_signed_list (list_signed (provider ctx) xite since)
  | HasXite xite => serve_xite_summary xite
  | HaveRanges _ _ => mret ()
  | HasShards addrs => serve_shard_mask addrs
  | Update xite inner_path signed inline modified diffs sender_peers =>
    respond match apply_update (provider ctx) xite inner_path signed inline modified diffs sender_peers with
            | Ok _ => RespOk
            | Err e => RespErr BAD_REQUEST e
            end
  | UpdatesSince after => serve_updates_since after
  | Pex xite need peers => serve_pex xite need peers
  | GetTrackers => serve_trackers
  | Kad payload => serve_kad payload
  | Announce payload => serve_announce payload
  end.
End serve.

(** ** What a handler puts on the wire *)

Abbreviation Out := (lane * FrameBody)%type.

(** Every frame [m] queues satisfies [Q], whatever the environment does. *)
Definition sends_only {S A} (Q : Out → Prop) (m : Srv S A) : Prop := ∀ e, ∃ out, log (m e).2 = log e ++ out ∧ Forall Q out.

Section sends_only.
Context {S : Type} (Q : Out → Prop).

Lemma only_silent {A} (m : Srv S A) : (∀ e, log (m e).2 = log e) → sends_only Q m.
Proof. intros H e. exists []. by rewrite H, app_nil_r. Qed.
Lemma only_ret {A} (a : A) : sends_only Q (mret a : Srv S A).
Proof. by apply only_silent. Qed.
Lemma only_bind {A B} (m : Srv S A) (f : A → Srv S B) : sends_only Q m → (∀ a, sends_only Q (f a)) → sends_only Q (m ≫= f).
Proof.
  intros Hm Hf e. destruct (Hm e) as (o1 & E1 & H1). unfold mbind, srv_bind. destruct (m e) as [a e1]. cbn in E1.
  destruct (Hf a e1) as (o2 & E2 & H2). exists (o1 ++ o2). rewrite E2, E1, app_assoc. split; [done|by apply Forall_app].
Qed.
Lemma only_put l b : Q (l, b) → sends_only Q (put l b : Srv S _).
Proof.
  intros Hq e. cbn. destruct (is_ok _); [exists [(l, b)]|exists []]; rewrite ?app_nil_r; split; try done. by apply Forall_singleton.
Qed.
Lemma only_store {A} (f : S → A * S) : sends_only Q (with_store f).
Proof. apply only_silent. intros e. unfold with_store. by destruct (f _). Qed.
Lemma only_choker {A} (f : Choker → A * Choker) : sends_only Q (with_choker f : Srv S _).
Proof. apply only_silent. intros e. unfold with_choker. destruct (choker e); [by destruct (f _)|done]. Qed.
Lemma only_respond r : Q (Priority, BResp true r) → sends_only Q (respond r : Srv S ()).
Proof. intros H. apply only_bind; [by apply only_put|intros; apply only_ret]. Qed.
Lemma only_cancelled : sends_only Q (take_cancelled : Srv S _).
Proof. by apply only_silent. Qed.
Lemma only_shutdown : sends_only Q (shutdown : Srv S _).
Proof. by apply only_silent. Qed.
Lemma only_served items : sends_only Q (on_served items : Srv S _).
Proof. by apply only_silent. Qed.
Lemma only_slot : sends_only Q (encode_queue_slot : Srv S _).
Proof. by apply only_silent. Qed.
End sends_only.

Create HintDb srv.
#[export] Hint Resolve only_ret only_bind only_put only_store only_choker only_respond only_cancelled only_shutdown only_served only_slot : srv.

(** Follow a handler's code. *)
Ltac srv_walk :=
  repeat match goal with
  | |- sends_only _ (mbind _ _) => apply only_bind; [|intros]
  | |- sends_only _ (match ?x with _ => _ end) => destruct x
  | |- sends_only _ _ => first [apply only_ret|apply only_store|apply only_choker|apply only_cancelled|apply only_shutdown|apply only_served|apply only_slot|apply only_respond|apply only_put]
  end.

(** *** Batches *)

Definition weight {A} (cost : A → Z) (batch : list A) : Z := foldr (λ a n, cost a + n) 0 batch.

Lemma weight_app {A} (cost : A → Z) b1 b2 : weight cost (b1 ++ b2) = weight cost b1 + weight cost b2.
Proof. unfold weight. induction b1 as [|a b1 IH]; cbn; [done|]. rewrite IH. lia. Qed.

(** Within the budget, unless it is a single item. *)
Definition batch_ok {A} (cost : A → Z) (batch : list A) : Prop := weight cost batch <= BATCH_BUDGET ∨ ∃ a, batch = [a].

(** [pack] hands every item it could get to exactly one batch, in order, and
    never a batch over the budget. *)
Lemma pack_batches {S B A} (next : B → Srv S (option A)) (cost : A → Z) (flush : list A → Srv S (io ())) (F : list A → Out) (G : B → option A → Prop) :
  (∀ b e, log (next b e).2 = log e ∧ G b (next b e).1) →
  (∀ batch e, is_ok (flush batch e).1 = true ∧ log (flush batch e).2 = log e ++ [F batch] ∨
              is_ok (flush batch e).1 = false ∧ log (flush batch e).2 = log e) →
  ∀ todo batch n e, n = weight cost batch → batch_ok cost batch →
  ∃ flushed, log (pack next cost flush todo batch n e).2 = log e ++ map F flushed ∧ Forall (batch_ok cost) flushed ∧
    ∀ last, (pack next cost flush todo batch n e).1 = Ok last → batch_ok cost last ∧
      ∃ got, Forall2 G todo got ∧ concat flushed ++ last = batch ++ omap id got.
Proof.
  intros Hnext Hflush. induction todo as [|b todo IH]; intros batch n e Hn Hok.
  { exists []. cbn. rewrite app_nil_r. split_and!; [done|done|]. intros last [= <-]. split; [done|]. exists []. by rewrite app_nil_r. }
  cbn [pack]. unfold mbind, srv_bind. destruct (Hnext b e) as [Hl HG]. destruct (next b e) as [[a|] e1]; cbn in Hl, HG.
  - case_match eqn:Hover.
    + destruct (Hflush batch e1) as [[Hr Hf]|[Hr Hf]]; destruct (flush batch e1) as [[[]|x] e2]; try done; cbn in Hf.
      * destruct (IH [a] (cost a) e2) as (fl & Hlog & Hfl & Hlast); [cbn; lia|right; eauto|].
        exists (batch :: fl). cbn [map]. rewrite Hlog, Hf, Hl, <- app_assoc. split_and!; [done|by constructor|].
        intros last Hl'. destruct (Hlast last Hl') as (Hlok & got & Hgot & Hcat). split; [done|].
        exists (Some a :: got). split; [by constructor|]. cbn. by rewrite <- app_assoc, Hcat.
      * exists []. cbn. by rewrite Hf, Hl, app_nil_r.
    + destruct (IH (batch ++ [a]) (n + cost a) e1) as (fl & Hlog & Hfl & Hlast).
      { rewrite weight_app. cbn. lia. }
      { apply andb_false_iff in Hover as [Hle|Hnil]; [left; rewrite weight_app; cbn; lia|]. right.
        apply negb_false_iff, bool_decide_eq_true in Hnil as ->. by exists a. }
      exists fl. rewrite Hlog, Hl. split_and!; [done|done|].
      intros last Hl'. destruct (Hlast last Hl') as (Hlok & got & Hgot & Hcat). split; [done|].
      exists (Some a :: got). split; [by constructor|]. cbn. by rewrite Hcat, <- app_assoc.
  - destruct (IH batch n e1 Hn Hok) as (fl & Hlog & Hfl & Hlast). exists fl. rewrite Hlog, Hl. split_and!; [done|done|].
    intros last Hl'. destruct (Hlast last Hl') as (Hlok & got & Hgot & Hcat). split; [done|]. exists (None :: got). split; [by constructor|]. done.
Qed.

Lemma put_cases {S} l b (e : Env S) : is_ok (put l b e).1 = true ∧ log (put l b e).2 = log e ++ [(l, b)] ∨
  is_ok (put l b e).1 = false ∧ log (put l b e).2 = log e.
Proof. cbn. destruct (is_ok _); auto. Qed.

(** An environment in which every send succeeds and the peer does not cancel. *)
Definition quiet {S} (e : Env S) : Prop := sends e = [] ∧ cancels e = [].

Lemma pack_ok {S B A} (next : B → Srv S (option A)) (cost : A → Z) (flush : list A → Srv S (io ())) :
  (∀ b e, quiet e → quiet (next b e).2) → (∀ batch e, quiet e → is_ok (flush batch e).1 = true ∧ quiet (flush batch e).2) →
  ∀ todo batch n e, quiet e → is_ok (pack next cost flush todo batch n e).1 = true ∧ quiet (pack next cost flush todo batch n e).2.
Proof.
  intros Hnext Hflush. induction todo as [|b todo IH]; intros batch n e Hq; [done|].
  cbn [pack]. unfold mbind, srv_bind. pose proof (Hnext b e Hq) as Hq1. destruct (next b e) as [[a|] e1]; cbn in Hq1; [|by apply IH].
  case_match; [|by apply IH]. destruct (Hflush batch e1 Hq1) as [Hr Hq2]. destruct (flush batch e1) as [[[]|x] e2]; [|done]. by apply IH.
Qed.

(** The frames of a batched reply: some batches, in order, each but the last
    not terminal; and if a terminal frame went out, nothing is missing. *)
Definition batched {A} (mk : bool → list A → Resp) (cost : A → Z) (items : list A) (out : list Out) (complete : Prop) : Prop :=
  ∃ flushed, Forall (batch_ok cost) flushed ∧
    let sent := map (λ b, (Priority, BResp false (mk false b))) flushed in
    (out = sent ∧ ¬ complete ∨
     ∃ last, batch_ok cost last ∧ concat flushed ++ last = items ∧ out = sent ++ [(Priority, BResp true (mk true last))]).

Lemma respond_cases {S} r (e : Env S) : log (respond r e).2 = log e ++ [(Priority, BResp true r)] ∨
  log (respond r e).2 = log e ∧ ¬ quiet e.
Proof.
  unfold respond, mbind, srv_bind. destruct (put_cases Priority (BResp true r) e) as [[Hr Hl]|[Hr Hl]]; destruct (put _ _ e) as [a e1] eqn:E; cbn in *; [auto|].
  right. split; [done|]. intros [Hs _]. unfold put in E. rewrite Hs in E. by injection E as <- _.
Qed.

Lemma put_quiet {S} l b (e : Env S) : quiet e → is_ok (put l b e).1 = true ∧ quiet (put l b e).2.
Proof. intros [Hs Hc]. cbn. unfold quiet. cbn. by rewrite Hs. Qed.

Lemma Forall2_pure {A} (l : list A) got : Forall2 (λ b o, o = Some b) l got → omap id got = l.
Proof. induction 1 as [|b o l got -> _ IH]; [done|]. cbn. by rewrite IH. Qed.

Lemma batch_loop_spec {S A} (mk : bool → list A → Resp) (cost : A → Z) items (e : Env S) :
  let m : Srv S () :=
    r ← pack given cost (λ b, put Priority (BResp false (mk false b))) items [] 0;
    match r with Err _ => mret () | Ok batch => respond (mk true batch) end in
  ∃ out, log (m e).2 = log e ++ out ∧ batched mk cost items out (quiet e).
Proof.
  intros m. destruct (pack_batches (S := S) given cost (λ b, put Priority (BResp false (mk false b)))
    (λ b, (Priority, BResp false (mk false b))) (λ b o, o = Some b) (λ _ _, conj eq_refl eq_refl) (λ b e, put_cases _ _ e) items [] 0 e eq_refl ltac:(by left)) as (fl & Hlog & Hfl & Hlast).
  pose proof (pack_ok (S := S) given cost (λ b, put Priority (BResp false (mk false b))) (λ _ _ H, H) (λ b e, put_quiet _ _ e) items [] 0 e) as Hq.
  subst m. unfold mbind at 1, srv_bind at 1. destruct (pack _ _ _ items [] 0 e) as [[last|x] e1]; cbn in Hlog, Hlast, Hq.
  - destruct (Hlast last eq_refl) as (Hok & got & Hgot & Hcat). rewrite (Forall2_pure _ _ Hgot) in Hcat. cbn in Hcat.
    destruct (respond_cases (mk true last) e1) as [Hr|[Hr Hn]]; rewrite Hr, Hlog.
    + eexists. rewrite <- app_assoc. split; [reflexivity|]. exists fl. split; [done|]. right. eauto.
    + eexists. split; [reflexivity|]. exists fl. split; [done|]. left. split; [done|]. intros H. by apply Hn, Hq.
  - exists (map (λ b, (Priority, BResp false (mk false b))) fl). split; [done|]. exists fl. split; [done|]. left. split; [done|].
    intros H. by destruct (Hq H).
Qed.

Lemma signed_loop_spec {S} fuel : ∀ b (e : Env S), (length b <= fuel)%nat →
  ∃ out, log (serve_signed_loop fuel b e).2 = log e ++ out ∧ batched (λ _, Signed) (λ _, 1) b out (quiet e).
Proof.
  assert (Hw : ∀ b : bytes, weight (λ _, 1) b = blen b).
  { induction b as [|x b IH]; [done|]. rewrite blen_cons. unfold weight in *. cbn. rewrite IH. lia. }
  assert (Hn : ∀ e : Env S, ∃ out, log e = log e ++ out ∧ ∀ b, ¬ quiet e → batched (λ _, Signed) (λ _, 1) b out (quiet e)).
  { intros e. exists []. rewrite app_nil_r. split; [done|]. intros b Hq. exists []. split; [done|]. by left. }
  induction fuel as [|fuel IH]; intros b e Hf; cbn [serve_signed_loop]; destruct (Z.ltb_spec BATCH_BUDGET (blen b)) as [Hlt|Hge].
  - unfold blen, BATCH_BUDGET, MAX_FRAME_LEN in Hlt. lia.
  - destruct (respond_cases (Signed b) e) as [Hr|[Hr Hq]]; rewrite Hr; [|destruct (Hn e) as (o & ? & ?); eauto].
    eexists. split; [reflexivity|]. exists []. split; [done|]. right. exists b. split_and!; [left; by rewrite Hw|done|done].
  - unfold mbind, srv_bind. cbn [take_cancelled]. destruct (default false (head (cancels e))) eqn:Ec.
    { destruct (Hn e) as (o & Ho & Hb). exists o. split; [done|]. apply Hb. intros [_ H]. by rewrite H in Ec. }
    set (e1 := mkEnv _ _ _ _ _ _ _ _). assert (quiet e → quiet e1) as Hq1 by (intros [? H]; split; [done|]; cbn; by rewrite H).
    set (x := (Priority, BResp false (Signed (take (Z.to_nat BATCH_BUDGET) b)))).
    destruct (put_cases Priority (BResp false (Signed (take (Z.to_nat BATCH_BUDGET) b))) e1) as [[Hr Hl]|[Hr Hl]];
      pose proof (put_quiet Priority (BResp false (Signed (take (Z.to_nat BATCH_BUDGET) b))) e1) as Hq2;
      destruct (put _ _ e1) as [[[]|y] e2]; try done; cbn in Hl, Hq2.
    + destruct (IH (drop (Z.to_nat BATCH_BUDGET) b) e2) as (out & Hlog & fl & Hfl & Hcase).
      { rewrite length_drop. unfold blen, BATCH_BUDGET, MAX_FRAME_LEN in *. lia. }
      exists (x :: out). rewrite Hlog, Hl, <- app_assoc. split; [done|]. exists (take (Z.to_nat BATCH_BUDGET) b :: fl). split.
      { constructor; [|done]. left. rewrite Hw. unfold blen. rewrite length_take. unfold BATCH_BUDGET, MAX_FRAME_LEN. lia. }
      destruct Hcase as [[-> Hnq]|(last & Hok & Hcat & ->)]; [left; split; [done|]; intros H; by destruct (Hq2 (Hq1 H))|].
      right. exists last. split_and!; [done| |done]. cbn. by rewrite <- app_assoc, Hcat, take_drop.
    + destruct (Hn e) as (o & Ho & Hb). exists o. split; [change (log e2 = log e ++ o); by rewrite Hl|]. apply Hb. intros H. by destruct (Hq2 (Hq1 H)).
  - destruct (respond_cases (Signed b) e) as [Hr|[Hr Hq]]; rewrite Hr; [|destruct (Hn e) as (o & ? & ?); eauto].
    eexists. split; [reflexivity|]. exists []. split; [done|]. right. exists b. split_and!; [left; by rewrite Hw|done|done].
Qed.

(** *** Data frames *)

Definition data_frames (l : lane) (full : list bytes) : list Out := map (λ d, (l, BData false d)) full.

(** No send is reported as interrupted: [blocking_send] answers only
    [BrokenPipe] and [TimedOut]. *)
Definition plain {S} (e : Env S) : Prop := Forall (λ r : io (), ∀ x, r = Err x → kind x ≠ KInterrupted) (sends e).

(** What one stretch of writing does: full frames only; nothing lost when the
    peer did not cancel; and a failure spends a cancel or a failed send. *)
Definition wrote_data {S} (l : lane) (buf data : bytes) (e : Env S) (r : io () * bytes) (e' : Env S) : Prop :=
  ∃ full, log e' = log e ++ data_frames l full ∧ Forall (λ d, blen d = MAX_FRAME_LEN) full ∧ blen r.2 <= MAX_FRAME_LEN ∧
    (write_fuel e' <= write_fuel e)%nat ∧ (is_ok r.1 = false → (write_fuel e' < write_fuel e)%nat) ∧
    (cancels e = [] → cancels e' = []) ∧
    (is_ok r.1 = true → blen r.2 < MAX_FRAME_LEN ∧ (cancels e = [] → plain e → concat full ++ r.2 = buf ++ data)) ∧
    (sends e = [] → sends e' = [] ∧ ∀ x, r.1 = Err x → kind x = KInterrupted) ∧
    (plain e → plain e' ∧ ∀ x, r.1 = Err x → kind x = KInterrupted → cancels e ≠ []).

Lemma wrote_nothing {S} l (buf : bytes) (e : Env S) : blen buf < MAX_FRAME_LEN → wrote_data l buf [] e (Ok (), buf) e.
Proof. intros Hb. exists []. cbn. rewrite !app_nil_r. split_and!; try done; lia. Qed.

Lemma sink_send_spec {S} l buf last (e : Env S) : blen buf <= MAX_FRAME_LEN →
  let '(r, e') := sink_send l buf last e in
  cancels e' = tail (cancels e) ∧ (length (sends e') <= length (sends e))%nat ∧ (sends e = [] → sends e' = []) ∧ (plain e → plain e') ∧
  ((is_ok r.1 = true ∧ log e' = log e ++ [(l, BData last buf)] ∧ r.2 = []) ∨
   (∃ x, r.1 = Err x ∧ log e' = log e ∧ blen r.2 <= MAX_FRAME_LEN ∧ (write_fuel e' < write_fuel e)%nat ∧
      (sends e = [] → kind x = KInterrupted) ∧ (plain e → kind x = KInterrupted → cancels e ≠ []))).
Proof.
  intros Hb. unfold sink_send, mbind, srv_bind, write_fuel, plain. cbn [take_cancelled]. destruct (default false (head (cancels e))) eqn:Ec.
  - cbn. destruct (cancels e) as [|c cs]; [done|]. cbn. split_and!; [done|lia|done|done|]. right. eexists. split_and!; try done; lia.
  - cbn. assert (length (tail (cancels e)) <= length (cancels e))%nat by (destruct (cancels e); cbn; lia).
    destruct (sends e) as [|r ss] eqn:Es; cbn; [split_and!; [done|lia|done|done|by left]|].
    split_and!; [done|lia|done|by intros [_ ?]%Forall_cons|]. destruct r as [[]|x]; cbn; [by left|].
    right. exists x. split_and!; try done; [lia|]. intros [Hx _]%Forall_cons Hk. by destruct (Hx x eq_refl).
Qed.

Lemma sink_loop_spec {S} l fuel : ∀ buf rest (e : Env S), blen buf <= MAX_FRAME_LEN →
  (length rest < fuel)%nat ∨ blen buf < MAX_FRAME_LEN ∧ (length rest <= fuel)%nat →
  (rest = [] → blen buf < MAX_FRAME_LEN) →
  let '(r, e') := sink_write_loop l fuel buf rest e in wrote_data l buf rest e r e'.
Proof.
  induction fuel as [|fuel IH]; intros buf rest e Hb Hf Hne.
  { destruct rest as [|x rest]; [by apply wrote_nothing, Hne|]. cbn in Hf. lia. }
  destruct rest as [|x rest]; [by apply wrote_nothing, Hne|]. cbn [sink_write_loop].
  set (n := Z.to_nat (Z.min (MAX_FRAME_LEN - blen buf) (blen (x :: rest)))).
  remember (x :: rest) as data eqn:Ed. assert (0 < blen data) as Hdata by (subst data; rewrite blen_cons; pose proof (blen_nonneg rest); lia).
  assert (Hlen : blen (buf ++ take n data) = Z.min MAX_FRAME_LEN (blen buf + blen data)).
  { rewrite blen_app. unfold blen. rewrite length_take. unfold n, blen in *. lia. }
  assert (Hdrop : (length (drop n data) <= fuel)%nat).
  { rewrite length_drop. unfold n, blen in *. lia. }
  destruct (Z.eqb_spec (blen (buf ++ take n data)) MAX_FRAME_LEN) as [Efull|Enot].
  - unfold mbind, srv_bind. pose proof (sink_send_spec l (buf ++ take n data) false e ltac:(lia)) as Hs.
    destruct (sink_send l (buf ++ take n data) false e) as [[[[]|y] b1] e1]; destruct Hs as (Hc & Hsl & Hse & Hpl & [(Hr & Hl & Hb1)|(z & Hr & Hl & Hb1 & Hm & Hk & Hkp)]); cbn in *; try discriminate.
    + subst b1. pose proof (IH [] (drop n data) e1 ltac:(done) ltac:(right; cbn; split; [done|lia]) ltac:(done)) as H.
      destruct (sink_write_loop l fuel [] (drop n data) e1) as [r e2]. destruct H as (full & Hlog & Hfull & Hbr & Hm & Hmf & Hce & Hok & Hsend & Hplain).
      assert (write_fuel e1 <= write_fuel e)%nat as Hle by (unfold write_fuel; rewrite Hc; destruct (cancels e); cbn; lia).
      exists ((buf ++ take n data) :: full). cbn. rewrite Hlog, Hl, <- app_assoc.
      split_and!; [done|by constructor|done|lia|intros H; specialize (Hmf H); lia|intros H; by rewrite Hce; [|rewrite Hc, H]| |auto|].
      * intros H. destruct (Hok H) as [H1 H2]. split; [done|]. intros H0 Hp. rewrite <- !app_assoc, H2; [cbn; by rewrite take_drop|by rewrite Hc, H0|auto].
      * intros H. destruct (Hplain (Hpl H)) as [H1 H2]. split; [done|]. intros v Hv Hkv H0. apply (H2 v Hv Hkv). by rewrite Hc, H0.
    + injection Hr as <-. exists []. cbn. rewrite Hl, app_nil_r. split_and!; try done; [lia|intros H; by rewrite Hc, H| |].
      * intros H. split; [auto|]. intros v [= <-]. auto.
      * intros H. split; [auto|]. intros v [= <-]. auto.
  - pose proof (IH (buf ++ take n data) (drop n data) e ltac:(lia) ltac:(right; lia) ltac:(lia)) as H.
    destruct (sink_write_loop l fuel (buf ++ take n data) (drop n data) e) as [r e2]. destruct H as (full & Hlog & Hfull & Hbr & Hm & Hmf & Hce & Hok & Hsend & Hplain).
    exists full. split_and!; try done. intros H. destruct (Hok H) as [H1 H2]. split; [done|]. intros H0 Hp. by rewrite H2, <- app_assoc, take_drop.
Qed.

Lemma sink_write_spec {S} l buf data (e : Env S) : blen buf <= MAX_FRAME_LEN → (data = [] → blen buf < MAX_FRAME_LEN) →
  let '(r, e') := sink_write l buf data e in wrote_data l buf data e r e'.
Proof. intros Hb Hne. apply sink_loop_spec; [done|left; lia|done]. Qed.

(** A retry after an interrupted stretch. *)
Lemma wrote_again {S} l buf data (e e1 e2 : Env S) x b1 r :
  wrote_data l buf data e (Err x, b1) e1 → kind x = KInterrupted → wrote_data l b1 data e1 r e2 → wrote_data l buf data e r e2.
Proof.
  intros (f1 & L1 & F1 & B1 & M1 & N1 & C1 & O1 & S1 & P1) Hx (f2 & L2 & F2 & B2 & M2 & N2 & C2 & O2 & S2 & P2).
  exists (f1 ++ f2). unfold data_frames. rewrite L2, L1, map_app, app_assoc.
  split_and!; [done|by apply Forall_app|done|lia|intros H; specialize (N1 eq_refl); lia|auto| | |].
  - intros H. destruct (O2 H) as [H1 _]. split; [done|]. intros H0 Hp. by destruct (P1 Hp) as [_ []%(λ f, f x eq_refl Hx)].
  - intros H. by apply S2, S1.
  - intros H. destruct (P1 H) as [Hp1 Hc1]. destruct (P2 Hp1) as [Hp2 Hc2]. split; [done|]. intros v Hv Hkv. by apply (Hc1 x).
Qed.

(** [write_all] gives up only on a failed send. *)
Lemma write_all_spec {S} l data fuel : ∀ buf (e : Env S), blen buf <= MAX_FRAME_LEN → (data = [] → blen buf < MAX_FRAME_LEN) →
  (write_fuel e <= fuel)%nat →
  let '(r, e') := write_all l fuel buf data e in
  wrote_data l buf data e r e' ∧ (sends e = [] → is_ok r.1 = true) ∧ ∀ x, r.1 = Err x → kind x ≠ KInterrupted.
Proof.
  induction fuel as [|fuel IH]; intros buf e Hb Hne Hf; [unfold write_fuel in Hf; lia|]. destruct data as [|x data].
  { split; [|done]. by apply wrote_nothing, Hne. }
  cbn [write_all]. unfold mbind, srv_bind. pose proof (sink_write_spec l buf (x :: data) e Hb ltac:(done)) as Hw.
  destruct (sink_write l buf (x :: data) e) as [[[[]|y] b1] e1]; [by split_and!|].
  destruct (decide (kind y = KInterrupted)) as [Hk|Hk].
  - assert (write_fuel e1 < write_fuel e)%nat as Hm by (destruct Hw as (_ & _ & _ & _ & _ & Hm & _); by apply Hm).
    assert (blen b1 <= MAX_FRAME_LEN) as Hb1 by (by destruct Hw as (_ & _ & _ & Hb1 & _)).
    pose proof (IH b1 e1 Hb1 ltac:(done) ltac:(lia)) as H. destruct (write_all l fuel b1 (x :: data) e1) as [r e2].
    destruct H as (Hw2 & Hok2 & Hint2). split_and!; [by eapply wrote_again| |done]. intros Hs. apply Hok2.
    destruct Hw as (_ & _ & _ & _ & _ & _ & _ & _ & Hsend & _). by apply Hsend.
  - split_and!; [done| |by intros ? [= <-]]. intros Hs. destruct Hw as (_ & _ & _ & _ & _ & _ & _ & _ & Hsend & _).
    destruct (Hsend Hs) as [_ H]. by destruct (Hk (H y eq_refl)).
Qed.

(** The fuel is enough: more of it changes nothing. *)
Lemma write_all_fuel {S} l data fuel k : ∀ buf (e : Env S), blen buf <= MAX_FRAME_LEN → (write_fuel e <= fuel)%nat →
  write_all l (fuel + k) buf data e = write_all l fuel buf data e.
Proof.
  induction fuel as [|fuel IH]; intros buf e Hb Hf; [unfold write_fuel in Hf; lia|]. destruct data as [|x data]; [done|].
  cbn [write_all Nat.add]. unfold mbind, srv_bind. pose proof (sink_write_spec l buf (x :: data) e Hb ltac:(done)) as Hw.
  destruct (sink_write l buf (x :: data) e) as [[[[]|y] b1] e1]; [done|]. destruct (decide _); [|done].
  destruct Hw as (_ & _ & _ & Hb1 & _ & Hm & _). specialize (Hm eq_refl). apply IH; [done|lia].
Qed.

Lemma wrote_seq {S} l buf d ds (e e1 e2 : Env S) b1 r :
  wrote_data l buf d e (Ok (), b1) e1 → wrote_data l b1 ds e1 r e2 → wrote_data l buf (d ++ ds) e r e2.
Proof.
  intros (f1 & L1 & F1 & B1 & M1 & N1 & C1 & O1 & S1 & P1) (f2 & L2 & F2 & B2 & M2 & N2 & C2 & O2 & S2 & P2).
  destruct (O1 eq_refl) as [_ O1']. cbn in O1'. exists (f1 ++ f2). unfold data_frames. rewrite L2, L1, map_app, app_assoc.
  split_and!; [done|by apply Forall_app|done|lia|intros H; specialize (N2 H); lia|auto| | |].
  - intros H. destruct (O2 H) as [H1 H2]. split; [done|]. intros H0 Hp. destruct (P1 Hp) as [Hp1 _].
    rewrite concat_app, <- app_assoc, H2, app_assoc, O1', <- app_assoc by auto. done.
  - intros H. apply S2, S1, H.
  - intros H. destruct (P1 H) as [Hp1 _]. destruct (P2 Hp1) as [Hp2 Hc2]. split; [done|]. intros v Hv Hkv H0. apply (Hc2 v Hv Hkv). auto.
Qed.

Lemma wrote_err {S} l buf d ds (e e1 : Env S) x b1 : wrote_data l buf d e (Err x, b1) e1 → wrote_data l buf ds e (Err x, b1) e1.
Proof. intros (f1 & L1 & F1 & B1 & M1 & N1 & C1 & O1 & S1 & P1). exists f1. by split_and!. Qed.

Lemma write_each_spec {S} l writes : ∀ buf (e : Env S), blen buf < MAX_FRAME_LEN →
  let '(r, e') := write_each l buf writes e in
  wrote_data l buf (concat writes) e r e' ∧ (sends e = [] → is_ok r.1 = true) ∧ ∀ x, r.1 = Err x → kind x ≠ KInterrupted.
Proof.
  induction writes as [|d writes IH]; intros buf e Hb; [split; [by apply wrote_nothing|done]|].
  cbn [write_each concat]. unfold mbind, srv_bind.
  pose proof (write_all_spec l d (write_fuel e) buf e ltac:(lia) ltac:(done) ltac:(done)) as Hw.
  destruct (write_all l (write_fuel e) buf d e) as [[[[]|y] b1] e1]; destruct Hw as (Hw & Hok & Hint); [|split_and!; [by eapply wrote_err|done|done]].
  assert (blen b1 < MAX_FRAME_LEN) as Hb1 by (destruct Hw as (f0 & _ & _ & _ & _ & _ & _ & O & _); by apply O).
  pose proof (IH b1 e1 Hb1) as H. destruct (write_each l b1 writes e1) as [r e2]. destruct H as (Hw2 & Hok2 & Hint2).
  split_and!; [by eapply wrote_seq| |done]. intros Hs. apply Hok2. destruct Hw as (_ & _ & _ & _ & _ & _ & _ & _ & Hsend & _). by apply Hsend.
Qed.

Lemma with_store_log {S A} (f : S → A * S) (e : Env S) : let '(a, e') := with_store f e in
  a = (f (store e)).1 ∧ log e' = log e ∧ sends e' = sends e ∧ cancels e' = cancels e.
Proof. unfold with_store. by destruct (f (store e)). Qed.

Section range.
Context {S : Type} `{B : Backend S}.
Context (ctx : ServeCtx).

Lemma stream_range_spec l obj ranges (e : Env S) : let '(r, e') := stream_range ctx l obj ranges e in
  ∃ full out, log e' = log e ++ data_frames l full ++ out ∧ Forall (λ d, blen d = MAX_FRAME_LEN) full ∧
    ((∃ x, out = [] ∧ r = Err x) ∨ ∃ last, out = [(l, BData true last)] ∧ r = Ok () ∧ blen last < MAX_FRAME_LEN ∧
       (cancels e = [] → plain e → concat full ++ last = concat (be_encode obj ranges (now ctx) (store e)).1)).
Proof.
  unfold stream_range, mbind, srv_bind. set (g := λ s : S, let '(ws, k) := be_encode obj ranges (now ctx) s in (ws, k, s)).
  pose proof (with_store_log g e) as Hs. destruct (with_store g e) as [[ws k] e1] eqn:Eg. destruct Hs as (Hws & Hl1 & Hs1 & Hc1).
  assert (ws = (be_encode obj ranges (now ctx) (store e)).1) as -> by (unfold g in Hws; destruct (be_encode _ _ _ _); cbn in *; congruence).
  clear Hws Eg. set (ws := (be_encode obj ranges (now ctx) (store e)).1).
  pose proof (write_each_spec l ws [] e1 ltac:(done)) as Hw.
  destruct (write_each l [] ws e1) as [[[[]|x] buf] e2]; destruct Hw as ((full & L & F & B0 & _ & _ & C0 & O & _ & P0) & _ & _).
  2: { exists full, []. rewrite L, Hl1, app_nil_r. split_and!; [done|done|]. left. eauto. }
  destruct (O eq_refl) as [Hb Hcat]. cbn in Hb, Hcat, L.
  pose proof (with_store_log k e2) as Hk. destruct (with_store k e2) as [[[]|y] e3]; destruct Hk as (_ & Hl3 & Hs3 & Hc3).
  2: { exists full, []. rewrite Hl3, L, Hl1, app_nil_r. split_and!; [done|done|]. left. eauto. }
  pose proof (sink_send_spec l buf true e3 ltac:(lia)) as Hf. destruct (sink_send l buf true e3) as [[r b] e4].
  destruct Hf as (_ & _ & _ & _ & [(Hr & Hl4 & _)|(z & Hr & Hl4 & _)]); cbn in Hr, Hl4 |- *.
  - exists full, [(l, BData true buf)]. unfold mret, srv_ret. rewrite Hl4, Hl3, L, Hl1, app_assoc. split_and!; [done|done|]. right. exists buf.
    split_and!; [done|by destruct r as [[]|]|done|]. intros Hce Hp. rewrite Hcat; [done|by rewrite Hc1|]. unfold plain in *. by rewrite Hs1.
  - exists full, []. unfold mret, srv_ret. rewrite Hl4, Hl3, L, Hl1, app_nil_r. split_and!; [done|done|]. left. eauto.
Qed.

(** *** A peer's cancel *)

(** While sends succeed the encode runs to its end whatever the peer cancels:
    the interrupted write is tried again. *)
Lemma cancel_never_stops_encode l writes (e : Env S) : sends e = [] → is_ok (write_each l [] writes e).1.1 = true.
Proof. intros Hs. pose proof (write_each_spec l writes [] e ltac:(done)) as H. destruct (write_each l [] writes e) as [r e']. by apply H. Qed.
End range.

(** And the bytes put in the frame before the cancel go out twice. *)
Definition payload_bytes (out : list Out) : Z := foldr (λ o n, n + match o.2 with BData _ d => blen d | _ => 0 end) 0 out.
Definition cancelled_once : Env () := mkEnv () None [] [true] true [] false [].
Lemma cancelled_slice_repeats : let '(r, e) := write_each Bulk [] [replicate (Z.to_nat 70000) "a"%byte] cancelled_once in
  is_ok r.1 = true ∧ payload_bytes (log e) + blen r.2 = 135536.
Proof. vm_compute. split; reflexivity. Qed.

(** ** Frames within the cap *)

(** The most bytes postcard documents for a length prefix, and for the frames of
    a streamed reply: stream id, two tags and the [last] flag take 13. *)
Definition varint_max (n : Z) : Z := if n <? 2 ^ 7 then 1 else if n <? 2 ^ 14 then 2 else if n <? 2 ^ 21 then 3 else 10.
Definition prefixed (b : bytes) : Z := varint_max (blen b) + blen b.
Definition frame_room (b : FrameBody) : option Z :=
  match b with
  | BData _ p => Some (13 + prefixed p)
  | BResp _ (Signed b) => Some (13 + prefixed b)
  | BResp _ (SignedList es) => Some (13 + varint_max (blen es) + weight (λ e : SignedEntry, prefixed e.1.1 + 20) es)
  | BResp _ (Updates us _) => Some (13 + 10 + varint_max (blen us) + weight (λ u : bytes * Z, prefixed u.1 + 10) us)
  | BResp _ (Many items) => Some (13 + varint_max (blen items) + weight (λ i : ObjId * bytes, 32 + prefixed i.2) items)
  | BResp _ (Trackers ts) => Some (13 + varint_max (blen ts) + weight prefixed ts)
  | _ => None
  end.

Class PostcardSize `{P : Postcard} := size_bound : ∀ f p n, to_stdvec f = Ok p → frame_room (body f) = Some n → blen p <= n.

(** A frame the writer does not refuse. *)
Definition fits (o : Out) : Prop := ∃ n, frame_room o.2 = Some n ∧ n <= FRAME_HARD_CAP.

Lemma fits_encodes `{Z : PostcardSize} s o p : fits o → to_stdvec (frame s o.2) = Ok p → is_ok (encode (frame s o.2)) = true.
Proof.
  intros (n & Hn & Hle) Hp. unfold encode. rewrite Hp. cbn [map_err mbind result_bind].
  rewrite (proj2 (Z.ltb_ge _ _)); [done|]. pose proof (size_bound _ _ _ Hp Hn). lia.
Qed.

Lemma varint_max_le n : 1 <= varint_max n <= 10.
Proof. unfold varint_max. repeat case_match; lia. Qed.
Lemma prefixed_small b : blen b < 2 ^ 21 → prefixed b <= blen b + 3.
Proof. unfold prefixed, varint_max. intros. repeat case_match; lia. Qed.

Lemma weight_le {A} (f g : A → Z) l : Forall (λ a, f a <= g a) l → weight f l <= weight g l.
Proof. unfold weight. induction 1; cbn; lia. Qed.
Lemma weight_ok {A} (cost : A → Z) M l : BATCH_BUDGET <= M → batch_ok cost l → Forall (λ a, cost a <= M) l → weight cost l <= M.
Proof. intros HM [Hw|[a ->]] Hc; [lia|]. apply Forall_cons in Hc as [Hc _]. cbn. lia. Qed.

Section fits.
Context {S : Type} (R : Out → Prop).

Lemma pack_only {B A} (next : B → Srv S (option A)) (cost : A → Z) (flush : list A → Srv S (io ())) (I : B → Prop) (G : A → Prop) :
  (∀ b e, I b → log (next b e).2 = log e ∧ ∀ a, (next b e).1 = Some a → G a) →
  (∀ batch, batch_ok cost batch → Forall G batch → sends_only R (flush batch)) →
  ∀ todo batch n e, n = weight cost batch → Forall I todo → batch_ok cost batch → Forall G batch →
  ∃ out, log (pack next cost flush todo batch n e).2 = log e ++ out ∧ Forall R out ∧
    ∀ last, (pack next cost flush todo batch n e).1 = Ok last → batch_ok cost last ∧ Forall G last.
Proof.
  intros Hnext Hflush. induction todo as [|b todo IH]; intros batch n e Hn HI Hok HG.
  { exists []. cbn. rewrite app_nil_r. split_and!; [done|done|]. by intros last [= <-]. }
  apply Forall_cons in HI as [HIb HI]. cbn [pack]. unfold mbind, srv_bind. destruct (Hnext b e HIb) as [Hl Ha]. destruct (next b e) as [[a|] e1]; cbn in Hl, Ha.
  - specialize (Ha a eq_refl). case_match eqn:Hover.
    + destruct (Hflush batch Hok HG e1) as (o1 & Hf & Ho1). destruct (flush batch e1) as [[[]|x] e2]; cbn in Hf.
      * destruct (IH [a] (cost a) e2) as (o2 & Hlog & Ho2 & Hlast); [cbn; lia|done|right; eauto|by apply Forall_singleton|].
        exists (o1 ++ o2). rewrite Hlog, Hf, Hl, app_assoc. split_and!; [done|by apply Forall_app|done].
      * exists o1. cbn. rewrite Hf, Hl. by split_and!.
    + destruct (IH (batch ++ [a]) (n + cost a) e1) as (o2 & Hlog & Ho2 & Hlast).
      { rewrite weight_app. cbn. lia. }
      { done. }
      { apply andb_false_iff in Hover as [Hle|Hnil]; [left; rewrite weight_app; cbn; lia|]. right.
        apply negb_false_iff, bool_decide_eq_true in Hnil as ->. by exists a. }
      { apply Forall_app; split; [done|by apply Forall_singleton]. }
      exists o2. by rewrite Hlog, Hl.
  - destruct (IH batch n e1 Hn HI Hok HG) as (o2 & Hlog & Ho2 & Hlast). exists o2. by rewrite Hlog, Hl.
Qed.

Lemma packed_only {B A} (next : B → Srv S (option A)) (cost : A → Z) (flush : list A → Srv S (io ())) (I : B → Prop) (G : A → Prop) (fin : list A → Srv S ()) todo : Forall I todo →
  (∀ b e, I b → log (next b e).2 = log e ∧ ∀ a, (next b e).1 = Some a → G a) →
  (∀ batch, batch_ok cost batch → Forall G batch → sends_only R (flush batch)) →
  (∀ batch, batch_ok cost batch → Forall G batch → sends_only R (fin batch)) →
  sends_only R (r ← pack next cost flush todo [] 0; match r with Err _ => mret () | Ok batch => fin batch end).
Proof.
  intros HI Hn Hf Hfin e. destruct (pack_only next cost flush I G Hn Hf todo [] 0 e eq_refl HI ltac:(by left) ltac:(done)) as (o1 & L1 & F1 & Hlast).
  unfold mbind, srv_bind. destruct (pack _ _ _ todo [] 0 e) as [[last|x] e1]; cbn in L1, Hlast.
  - destruct (Hlast last eq_refl) as [Hok HG]. destruct (Hfin last Hok HG e1) as (o2 & L2 & F2).
    exists (o1 ++ o2). rewrite L2, L1, app_assoc. split; [done|by apply Forall_app].
  - exists o1. done.
Qed.
End fits.

Lemma fits_entries l last es : batch_ok signed_entry_cost es → Forall (λ e, signed_entry_cost e <= BATCH_BUDGET) es → fits (l, BResp last (SignedList es)).
Proof.
  intros Hok Hc. eexists. split; [reflexivity|]. pose proof (weight_ok _ _ _ (Z.le_refl _) Hok Hc) as Hw. pose proof (varint_max_le (blen es)).
  assert (weight (λ e : SignedEntry, prefixed e.1.1 + 20) es <= weight signed_entry_cost es).
  { apply weight_le. eapply Forall_impl; [exact Hc|]. intros e He. unfold signed_entry_cost, BATCH_BUDGET, MAX_FRAME_LEN in *.
    pose proof (prefixed_small e.1.1). cbn beta in *. lia. }
  unfold BATCH_BUDGET, FRAME_HARD_CAP, MAX_FRAME_LEN in *. lia.
Qed.

Lemma fits_updates l last us h : batch_ok update_cost us → Forall (λ u, update_cost u <= BATCH_BUDGET) us → fits (l, BResp last (Updates us h)).
Proof.
  intros Hok Hc. eexists. split; [reflexivity|]. pose proof (weight_ok _ _ _ (Z.le_refl _) Hok Hc) as Hw. pose proof (varint_max_le (blen us)).
  assert (weight (λ u : bytes * Z, prefixed u.1 + 10) us <= weight update_cost us).
  { apply weight_le. eapply Forall_impl; [exact Hc|]. intros e He. unfold update_cost, BATCH_BUDGET, MAX_FRAME_LEN in *.
    pose proof (prefixed_small e.1). cbn beta in *. lia. }
  unfold BATCH_BUDGET, FRAME_HARD_CAP, MAX_FRAME_LEN in *. lia.
Qed.

Definition item_fits (i : ObjId * bytes) : Prop := blen i.2 <= MAX_MANY_ITEM_BYTES.
Lemma fits_items l last items : batch_ok many_cost items → Forall item_fits items → fits (l, BResp last (Many items)).
Proof.
  intros Hok Hc. eexists. split; [reflexivity|]. pose proof (varint_max_le (blen items)).
  assert (weight many_cost items <= MAX_MANY_ITEM_BYTES + MANY_ITEM_OVERHEAD).
  { apply weight_ok; [done|done|]. eapply Forall_impl; [exact Hc|]. intros i Hi. unfold item_fits, many_cost in *. lia. }
  assert (weight (λ i : ObjId * bytes, 32 + prefixed i.2) items <= weight many_cost items).
  { apply weight_le. eapply Forall_impl; [exact Hc|]. intros i Hi. unfold item_fits, many_cost, MAX_MANY_ITEM_BYTES, MANY_ITEM_OVERHEAD in *.
    pose proof (prefixed_small i.2). lia. }
  unfold MAX_MANY_ITEM_BYTES, MANY_ITEM_OVERHEAD, FRAME_HARD_CAP, MAX_FRAME_LEN in *. lia.
Qed.

Lemma fit_trackers_weight ts n : n <= BATCH_BUDGET → weight (λ t, blen t + 8) (fit_trackers ts n) <= BATCH_BUDGET - n.
Proof.
  unfold weight. revert n. induction ts as [|t ts IH]; intros n Hn; cbn; [lia|].
  destruct (Z.ltb_spec BATCH_BUDGET (n + blen t + 8)); cbn; [lia|]. specialize (IH (n + blen t + 8) ltac:(lia)). lia.
Qed.
Lemma fits_trackers l last ts : fits (l, BResp last (Trackers (fit_trackers ts 0))).
Proof.
  eexists. split; [reflexivity|]. pose proof (varint_max_le (blen (fit_trackers ts 0))).
  pose proof (fit_trackers_weight ts 0 ltac:(done)) as Hw.
  assert (weight prefixed (fit_trackers ts 0) <= weight (λ t, blen t + 8) (fit_trackers ts 0)).
  { apply weight_le, Forall_forall. intros t Ht. assert (blen t <= BATCH_BUDGET); [|unfold BATCH_BUDGET, MAX_FRAME_LEN in *; pose proof (prefixed_small t); lia].
    clear -Ht Hw. unfold weight in *. induction (fit_trackers ts 0) as [|u us IH]; [by apply elem_of_nil in Ht|]. cbn in Hw. pose proof (blen_nonneg u).
    assert (∀ l : list bytes, 0 <= foldr (λ t n, blen t + 8 + n) 0 l) as Hp by (clear; intros l; induction l as [|v l IH]; cbn; [lia|pose proof (blen_nonneg v); lia]).
    pose proof (Hp us). apply elem_of_cons in Ht as [->|Ht]; [lia|]. apply IH; first [done|lia]. }
  unfold BATCH_BUDGET, FRAME_HARD_CAP, MAX_FRAME_LEN in *. lia.
Qed.

Lemma fits_signed l last b : blen b <= BATCH_BUDGET → fits (l, BResp last (Signed b)).
Proof.
  intros H. eexists. split; [reflexivity|]. unfold BATCH_BUDGET, FRAME_HARD_CAP, MAX_FRAME_LEN in *. pose proof (prefixed_small b). lia.
Qed.
Lemma fits_data l last d : blen d <= MAX_FRAME_LEN → fits (l, BData last d).
Proof. intros H. eexists. split; [reflexivity|]. unfold FRAME_HARD_CAP, MAX_FRAME_LEN in *. pose proof (prefixed_small d). lia. Qed.

(** A frame postcard encodes is one the writer takes. *)
Definition encodes `{P : Postcard} (o : Out) : Prop := ∀ s p, to_stdvec (frame s o.2) = Ok p → is_ok (encode (frame s o.2)) = true.

Section replies.
Context {S : Type} `{B : Backend S}.

Lemma only_impl {A} (Q R : Out → Prop) (m : Srv S A) : (∀ o, Q o → R o) → sends_only Q m → sends_only R m.
Proof. intros H Hm e. destruct (Hm e) as (out & L & F). exists out. split; [done|]. by eapply Forall_impl. Qed.

Lemma signed_fits fuel : ∀ b, (length b <= fuel)%nat → sends_only fits (serve_signed_loop (S := S) fuel b).
Proof.
  induction fuel as [|fuel IH]; intros b Hf; cbn [serve_signed_loop]; destruct (Z.ltb_spec BATCH_BUDGET (blen b)) as [Hlt|Hge].
  - apply only_ret.
  - apply only_respond. by apply fits_signed.
  - apply only_bind; [apply only_cancelled|]. intros []; [apply only_ret|]. apply only_bind.
    + apply only_put, fits_signed. unfold blen. rewrite length_take. unfold BATCH_BUDGET, MAX_FRAME_LEN. lia.
    + intros [[]|x]; [|apply only_ret]. apply IH. rewrite length_drop. unfold BATCH_BUDGET, MAX_FRAME_LEN. lia.
  - apply only_respond. by apply fits_signed.
Qed.

Lemma list_fits entries : Forall (λ e, signed_entry_cost e <= BATCH_BUDGET) entries → sends_only fits (serve_signed_list (S := S) entries).
Proof.
  intros H. apply (packed_only fits given signed_entry_cost _ _ (λ e, signed_entry_cost e <= BATCH_BUDGET) (λ batch, respond (SignedList batch)) entries H).
  - intros b e Hb. split; [done|]. by intros a [= <-].
  - intros batch Hok HG. by apply only_put, fits_entries.
  - intros batch Hok HG. by apply only_respond, fits_entries.
Qed.

Lemma updates_fits updates head : Forall (λ u, update_cost u <= BATCH_BUDGET) updates → sends_only fits (serve_updates (S := S) updates head).
Proof.
  intros H. apply (packed_only fits given update_cost _ _ (λ u, update_cost u <= BATCH_BUDGET) (λ batch, respond (Updates batch head)) updates H).
  - intros b e Hb. split; [done|]. by intros a [= <-].
  - intros batch Hok HG. by apply only_put, fits_updates.
  - intros batch Hok HG. by apply only_respond, fits_updates.
Qed.

Lemma send_many_only R l last items : R (l, BResp last (Many items)) → sends_only R (send_many (S := S) l last items).
Proof. intros H. unfold send_many, stalled_teardown. srv_walk; done. Qed.

Lemma many_fits ctx l servable : (∀ id now s b, (be_read id now s).1 = Ok b → blen b <= MAX_MANY_ITEM_BYTES) →
  sends_only fits (read_and_frame_many ctx l servable).
Proof.
  intros Hread. apply (packed_only fits (read_item ctx) many_cost _ (λ _, True) item_fits
    (λ batch, _ ← send_many l true batch; mret ()) servable); [by apply Forall_forall| | |].
  - intros [id size] e _. unfold read_item, mbind, srv_bind. pose proof (with_store_log (be_read id (now ctx)) e) as Hs. cbn [fst].
    destruct (with_store _ e) as [r e1]. destruct Hs as (-> & Hl & _). split; [by cbn|]. cbn.
    destruct (be_read id (now ctx) (store e)).1 eqn:E; [|done]. intros ? [= <-]. by eapply Hread.
  - intros batch Hok HG. by apply send_many_only, fits_items.
  - intros batch Hok HG. apply only_bind; [by apply send_many_only, fits_items|intros; apply only_ret].
Qed.

Lemma range_fits ctx l obj ranges : sends_only fits (stream_range ctx l obj ranges).
Proof.
  intros e. pose proof (stream_range_spec ctx l obj ranges e) as H. destruct (stream_range ctx l obj ranges e) as [r e'].
  destruct H as (full & out & L & F & H). exists (data_frames l full ++ out). split; [done|]. apply Forall_app. split.
  - unfold data_frames. apply Forall_map. eapply Forall_impl; [exact F|]. intros d Hd. apply fits_data. cbn in *. lia.
  - destruct H as [(x & -> & _)|(last & -> & _ & Hl & _)]; [done|]. apply Forall_singleton, fits_data. lia.
Qed.

End replies.

(** *** Replies that do not fit *)

(** Documented lower bounds: a run takes a byte, a payload its length. *)
Class PostcardFloor `{P : Postcard} := {
  runs_floor s l size runs p : to_stdvec (frame s (BResp l (RespBitfield size runs))) = Ok p → blen runs <= blen p;
  items_floor s l id b items p : to_stdvec (frame s (BResp l (Many ((id, b) :: items)))) = Ok p → blen b <= blen p
}.

Section breaks.
Context `{P : Postcard} {F : PostcardFloor}.

Lemma oversize_refused f p : to_stdvec f = Ok p → FRAME_HARD_CAP < blen p → is_ok (encode f) = false.
Proof. intros Hp Hlt. unfold encode. rewrite Hp. cbn [map_err mbind result_bind]. by rewrite (proj2 (Z.ltb_lt _ _)). Qed.

(** A frame the writer cannot encode ends the whole connection. *)
Lemma unencodable_breaks ready ok f hi c : writer c = Running → outbound c = f :: hi → is_ok (encode f) = false →
  ∃ c', write_turn ready ok c = Some (writer_break c', []).
Proof.
  intros Hw Ho He. unfold write_turn. rewrite decide_True by done. unfold next_frame. rewrite Ho. cbn [mbind option_bind].
  rewrite He, andb_false_r. eauto.
Qed.

Lemma fragmented_bitfield_refused s size runs : FRAME_HARD_CAP < blen runs →
  is_ok (encode (frame s (BResp true (RespBitfield size runs)))) = false.
Proof.
  intros H. destruct (to_stdvec (frame s (BResp true (RespBitfield size runs)))) as [p|] eqn:E; [|unfold encode; by rewrite E].
  apply (oversize_refused _ p E). pose proof (runs_floor _ _ _ _ _ E). lia.
Qed.

Lemma grown_item_refused s l id b items : FRAME_HARD_CAP < blen b → is_ok (encode (frame s (BResp l (Many ((id, b) :: items))))) = false.
Proof.
  intros H. destruct (to_stdvec (frame s (BResp l (Many ((id, b) :: items))))) as [p|] eqn:E; [|unfold encode; by rewrite E].
  apply (oversize_refused _ p E). pose proof (items_floor _ _ _ _ _ _ E). lia.
Qed.
End breaks.

(** Every other group of an object. *)
Definition every_other (n : nat) : GroupBits.t := GroupBits.mk (map (λ i, (2 * Z.of_nat i, 2 * Z.of_nat i + 1)) (seq 0 n)).

Lemma every_other_wf n : wf_from 0 (GroupBits.runs (every_other n)).
Proof.
  unfold every_other. cbn [GroupBits.runs].
  enough (∀ n k lo, lo <= 2 * Z.of_nat k → wf_from lo (map (λ i, (2 * Z.of_nat i, 2 * Z.of_nat i + 1)) (seq k n))) as H by (apply H; lia).
  clear n. induction n as [|n IH]; intros k lo Hlo; cbn [seq map wf_from]; [done|]. split_and!; [done|lia|]. apply IH. lia.
Qed.

(** Of 1.1 GiB, say. *)
Lemma every_other_large : FRAME_HARD_CAP < blen (GroupBits.to_wire (every_other (Z.to_nat 35000))).
Proof.
  unfold GroupBits.to_wire. pose proof (GroupBits.wire_pairs_length 0 (GroupBits.runs (every_other (Z.to_nat 35000)))) as H.
  unfold every_other in H at 2. cbn [GroupBits.runs] in H. rewrite length_map, length_seq in H.
  unfold blen, FRAME_HARD_CAP, MAX_FRAME_LEN. destruct (GroupBits.wire_pairs _ _) as [|x out]; [cbn in H; lia|].
  destruct (x =? 0); cbn [length] in *; lia.
Qed.

(** ** Every request is answered, once *)

(** A reply: one terminal frame, the last, and one lane for all of it, save
    that an error report goes ahead on the priority lane. *)
Definition closed_reply (out : list Out) : Prop :=
  ∃ init o, out = init ++ [o] ∧ Forall (λ o, is_last o.2 = false) init ∧ is_last o.2 = true ∧
    (Forall (λ x, x.1 = o.1) init ∨ ∃ code msg, o = (Priority, BResp true (RespErr code msg))).

Definition closes {S} (m : Srv S ()) : Prop := ∀ e, quiet e → ∃ out, log (m e).2 = log e ++ out ∧ closed_reply out.
Definition hushed {S A} (m : Srv S A) : Prop := ∀ e, quiet e → log (m e).2 = log e ∧ quiet (m e).2.

Section closes.
Context {S : Type}.

Lemma closes_after {A} (m : Srv S A) f : hushed m → (∀ a, closes (f a)) → closes (m ≫= f).
Proof.
  intros Hm Hf e Hq. destruct (Hm e Hq) as [Hl Hq']. unfold mbind, srv_bind. destruct (m e) as [a e1]. cbn in Hl, Hq'.
  destruct (Hf a e1 Hq') as (out & L & C). exists out. by rewrite L, Hl.
Qed.
Lemma hushed_bind {A A'} (m : Srv S A) (f : A → Srv S A') : hushed m → (∀ a, hushed (f a)) → hushed (m ≫= f).
Proof.
  intros Hm Hf e Hq. destruct (Hm e Hq) as [Hl Hq']. unfold mbind, srv_bind. destruct (m e) as [a e1]. cbn in Hl, Hq'.
  destruct (Hf a e1 Hq') as [L2 Q2]. by rewrite L2, Hl.
Qed.
Lemma hushed_ret {A} (a : A) : hushed (mret a : Srv S A).
Proof. done. Qed.
Lemma hushed_store {A} (f : S → A * S) : hushed (with_store f).
Proof. intros e [Hs Hc]. unfold with_store, quiet. by destruct (f _). Qed.
Lemma hushed_choker {A} (f : Choker → A * Choker) : hushed (with_choker f : Srv S _).
Proof. intros e [Hs Hc]. unfold with_choker, quiet. destruct (choker e); [by destruct (f _)|done]. Qed.
Lemma hushed_slot : hushed (encode_queue_slot : Srv S bool).
Proof. done. Qed.

Lemma closes_respond r : closes (respond r : Srv S ()).
Proof.
  intros e Hq. destruct (respond_cases r e) as [->|[_ Hn]]; [|by destruct Hn]. eexists. split; [reflexivity|].
  exists [], (Priority, BResp true r). split_and!; [done|done|done|by left].
Qed.

Lemma batched_closed {A} (mk : bool → list A → Resp) cost items out (Q : Prop) : Q → batched mk cost items out Q → closed_reply out.
Proof.
  intros HQ (fl & _ & [[_ H]|(last & _ & _ & ->)]); [done|]. eexists _, _. split_and!; [reflexivity| |done|left].
  all: apply Forall_map, Forall_forall; done.
Qed.

Lemma closes_signed b : closes (serve_signed (S := S) b).
Proof. intros e Hq. destruct (signed_loop_spec (length b) b e ltac:(done)) as (out & L & H). exists out. split; [done|]. exact (batched_closed _ _ _ _ _ Hq H). Qed.
Lemma closes_list es : closes (serve_signed_list (S := S) es).
Proof. intros e Hq. destruct (batch_loop_spec (S := S) (λ _, SignedList) signed_entry_cost es e) as (out & L & H). exists out. split; [exact L|]. exact (batched_closed _ _ _ _ _ Hq H). Qed.
Lemma closes_updates us h : closes (serve_updates (S := S) us h).
Proof.
  intros e Hq. destruct (batch_loop_spec (S := S) (λ last us, Updates us (if last : bool then h else 0)) update_cost us e) as (out & L & H).
  exists out. split; [exact L|]. exact (batched_closed _ _ _ _ _ Hq H).
Qed.

Lemma send_many_quiet l last items (e : Env S) : quiet e →
  let '(r, e') := send_many l last items e in r = Ok () ∧ log e' = log e ++ [(l, BResp last (Many items))] ∧ quiet e'.
Proof. intros [Hs Hc]. unfold send_many, mbind, srv_bind. cbn. unfold quiet. rewrite Hs. cbn. by rewrite ?Hs. Qed.
End closes.

Section answered.
Context {S : Type} `{B : Backend S}.
Context (hash_iter : gmap bytes PeerAccount → list (bytes * PeerAccount)) (ctx : ServeCtx) (identity : PeerIdentity).

Lemma closes_many l servable : closes (read_and_frame_many ctx l servable).
Proof.
  intros e Hq. unfold read_and_frame_many, mbind at 1, srv_bind at 1.
  assert (Hnext : ∀ i (e : Env S), log (read_item ctx i e).2 = log e ∧ (quiet e → quiet (read_item ctx i e).2)).
  { intros i e0. unfold read_item, mbind, srv_bind. pose proof (with_store_log (be_read i.1 (now ctx)) e0) as H.
    destruct (with_store _ e0) as [r e1]. destruct H as (_ & Hl & Hs & Hc). unfold quiet. cbn. by rewrite Hs, Hc. }
  destruct (pack_batches (S := S) (read_item ctx) many_cost (send_many l false) (λ b, (l, BResp false (Many b))) (λ _ _, True)
    ltac:(intros; split; [apply Hnext|done])) with (todo := servable) (batch := @nil (ObjId * bytes)) (n := 0) (e := e) as (fl & Hlog & _ & _); [|done|by left|].
  { intros batch e0. destruct (put_cases l (BResp false (Many batch)) e0) as [[Hr Hl]|[Hr Hl]]; unfold send_many, mbind, srv_bind;
      destruct (put l (BResp false (Many batch)) e0) as [[[]|x] e1]; cbn in *; try done; [by left|right]. unfold stalled_teardown. by destruct (decide _). }
  destruct (pack_ok (S := S) (read_item ctx) many_cost (send_many l false)) with (todo := servable) (batch := @nil (ObjId * bytes)) (n := 0) (e := e) as [Hok Hq1]; [intros; by apply Hnext| |done|].
  { intros batch e0 Hq0. pose proof (send_many_quiet l false batch e0 Hq0) as H. destruct (send_many l false batch e0). by destruct H as (-> & _ & ?). }
  destruct (pack _ _ _ servable [] 0 e) as [[last|x] e1]; [|done]. cbn in Hlog, Hq1.
  unfold mbind, srv_bind. pose proof (send_many_quiet l true last e1 Hq1) as H. destruct (send_many l true last e1) as [r e2]. destruct H as (_ & Hl2 & _).
  cbn. rewrite Hl2, Hlog, <- app_assoc. eexists. split; [reflexivity|]. eexists _, _. split_and!; [reflexivity| |done|left].
  all: apply Forall_map, Forall_forall; done.
Qed.

Lemma hushed_consult n fp : hushed (consult (S := S) hash_iter ctx identity n fp).
Proof. apply hushed_choker. Qed.
Lemma hushed_servable objs : hushed (many_servable objs).
Proof. induction objs as [|o objs IH]; cbn [many_servable]; [apply hushed_ret|]. apply hushed_bind; [apply hushed_store|intros]. apply hushed_bind; [done|intros; apply hushed_ret]. Qed.
Lemma hushed_admit todo : ∀ admitted bulk, hushed (admit_loop (S := S) hash_iter ctx identity todo admitted bulk).
Proof.
  induction todo as [|i todo IH]; intros; cbn [admit_loop]; [apply hushed_ret|]. apply hushed_bind; [apply hushed_consult|].
  intros [[[] ?]|]; try apply hushed_ret; apply IH.
Qed.
Lemma hushed_mask addrs : ∀ i bits, hushed (shard_mask_loop i addrs bits).
Proof. induction addrs as [|a addrs IH]; intros; cbn [shard_mask_loop]; [apply hushed_ret|]. apply hushed_bind; [apply hushed_store|intros; apply IH]. Qed.

(** The store's own errors are not those of a send. *)
Definition store_errors : Prop := ∀ id rs now s s' x, ((be_encode id rs now s).2 s').1 = Err x → kind x ∉ [KInterrupted; KBrokenPipe; KTimedOut].

(** A quiet stream only fails as its encode does. *)
Lemma stream_fails l obj ranges (e : Env S) : quiet e → let '(r, e') := stream_range ctx l obj ranges e in
  quiet e' ∧ ∀ x, r = Err x → ∃ s', ((be_encode obj ranges (now ctx) (store e)).2 s').1 = Err x.
Proof.
  intros Hq. unfold stream_range, mbind, srv_bind. set (g := λ s : S, let '(ws, k) := be_encode obj ranges (now ctx) s in (ws, k, s)).
  pose proof (with_store_log g e) as Hs. destruct (with_store g e) as [[ws k] e1] eqn:Eg. destruct Hs as (Hws & _ & Hs1 & Hc1).
  assert (Hk : (be_encode obj ranges (now ctx) (store e)).2 = k) by (unfold g in Hws; destruct (be_encode _ _ _ _); cbn in *; congruence).
  destruct Hq as [Hq1 Hq2]. rewrite Hq1 in Hs1. rewrite Hq2 in Hc1.
  pose proof (write_each_spec l ws [] e1 ltac:(done)) as Hw.
  destruct (write_each l [] ws e1) as [[[[]|x] buf] e2]; destruct Hw as ((full & _ & _ & B0 & _ & _ & C0 & O & S0 & _) & Hok & _);
    [|by specialize (Hok Hs1)]. destruct (S0 Hs1) as [Hs2 _]. specialize (C0 Hc1).
  pose proof (with_store_log k e2) as Hkk. destruct (with_store k e2) as [[[]|y] e3]; destruct Hkk as (Hy & _ & Hs3 & Hc3).
  2: { cbn. split; [split; congruence|]. intros ? [= <-]. exists (store e2). by rewrite Hk. }
  pose proof (sink_send_spec l buf true e3 ltac:(cbn in B0; lia)) as Hf. destruct (sink_send l buf true e3) as [[r b] e4].
  destruct Hf as (Hc4 & _ & Hs4 & _ & H). cbn. split; [split; [apply Hs4; congruence|by rewrite Hc4, Hc3, C0]|].
  destruct H as [(Hr & _)|(z & Hr & _ & _ & Hm & Hi & _)]; [cbn in Hr; by destruct r|].
  exfalso. unfold write_fuel in Hm. rewrite Hs3, Hs2, Hc3, C0 in Hm. cbn in Hm. lia.
Qed.

Lemma stream_quiet l obj ranges (e : Env S) : store_errors → quiet e → let '(r, e') := stream_range ctx l obj ranges e in
  quiet e' ∧ ∀ x, r = Err x → kind x ∉ [KInterrupted; KBrokenPipe; KTimedOut].
Proof.
  intros Hst Hq. pose proof (stream_fails l obj ranges e Hq) as H. destruct (stream_range ctx l obj ranges e) as [r e'].
  destruct H as [Hq' Hx]. split; [done|]. intros x Hr. destruct (Hx x Hr) as [s' Hs']. by eapply Hst.
Qed.

Lemma closes_admitted l obj ranges n : store_errors → closes (serve_admitted ctx identity l obj ranges n).
Proof.
  intros Hst. apply closes_after; [apply hushed_slot|]. intros []; cbn [negb]; [|apply closes_respond].
  intros e Hq. unfold mbind, srv_bind. pose proof (stream_range_spec ctx l obj ranges e) as Hsp. pose proof (stream_quiet l obj ranges e Hst Hq) as Hqq.
  destruct (stream_range ctx l obj ranges e) as [r e1]. destruct Hsp as (full & out & L & _ & Hc). destruct Hqq as [Hq1 Hx].
  destruct Hc as [(x & -> & ->)|(last & -> & -> & _)].
  - specialize (Hx x eq_refl). rewrite app_nil_r in L.
    assert (∃ code, (match kind x with KInterrupted | KBrokenPipe => mret () | KTimedOut => shutdown
      | KNotFound => respond (RespErr NOT_FOUND (text x)) | _ => respond (RespErr INTERNAL (text x)) end) = (respond (RespErr code (text x)) : Srv S ())) as [code ->].
    { destruct (kind x); eauto; exfalso; apply Hx; set_solver. }
    destruct (respond_cases (RespErr code (text x)) e1) as [->|[_ Hn]]; [|by destruct Hn]. rewrite L, <- app_assoc.
    eexists. split; [reflexivity|]. eexists _, _. split_and!; [reflexivity| |done|right; eauto]. apply Forall_map, Forall_forall. done.
  - cbn. rewrite L. eexists. split; [reflexivity|]. eexists _, _. split_and!; [reflexivity| |done|left]. all: apply Forall_map, Forall_forall; done.
Qed.

Lemma closes_range obj ranges d : store_errors → closes (serve_range hash_iter ctx identity obj ranges d).
Proof.
  intros Hst. unfold serve_range. destruct (_ || _); [apply closes_respond|]. apply closes_after; [apply hushed_store|intros stat].
  apply closes_after; [apply hushed_consult|]. intros [[[] ?]|]; try by apply closes_admitted. all: apply closes_respond.
Qed.

End answered.

(** ** Governance of uploads *)

Lemma sat_fold_mono (f g : ByteRange → Z) rs : (∀ r, r ∈ rs → f r <= g r) → ∀ a b, a <= b →
  foldl sat_add64 a (map f rs) <= foldl sat_add64 b (map g rs).
Proof.
  induction rs as [|r rs IH]; intros Hfg a b Hab; cbn; [done|]. apply IH; [intros; apply Hfg; by right|].
  specialize (Hfg r ltac:(by left)). unfold sat_add64. lia.
Qed.

(** The charge covers what is asked: whole groups, rounded outwards. *)
Lemma charge_covers ranges : Forall (λ r : ByteRange, is_u64 r.1 ∧ is_u64 r.2) ranges → range_total ranges <= range_charge ranges.
Proof.
  intros Hu. apply sat_fold_mono; [|done]. intros [s e] Hin. rewrite Forall_forall in Hu. destruct (Hu _ Hin) as [Hs He]. cbn in *.
  unfold sat_sub, sat_mul64, is_u64, u64_max in *. destruct (Z.ltb_spec s e) as [Hlt|]; [|lia].
  assert (GROUP_BYTES = 16384) as -> by reflexivity. unfold div_ceil.
  pose proof (Z.div_mod s 16384 ltac:(done)). pose proof (Z.mod_pos_bound s 16384 ltac:(lia)).
  pose proof (Z.div_mod (e + 16384 - 1) 16384 ltac:(done)). pose proof (Z.mod_pos_bound (e + 16384 - 1) 16384 ltac:(lia)). lia.
Qed.

Section governed.
Context {S : Type} `{B : Backend S}.
Context (hash_iter : gmap bytes PeerAccount → list (bytes * PeerAccount)) (ctx : ServeCtx) (identity : PeerIdentity).

Definition is_data (b : FrameBody) : bool := match b with BData _ _ => true | _ => false end.
Definition is_busy (b : FrameBody) : bool := match b with BResp _ (Busy _) => true | _ => false end.

(** No data, and a typed refusal only to a peer that advertised it. *)
Definition polite (o : Out) : Prop := is_data o.2 = false ∧ (is_busy o.2 = true → Z.land (caps identity) RETRY_AFTER ≠ 0).

Lemma polite_busy l b secs msg : polite (l, BResp b (busy_resp identity secs msg)).
Proof. split; [done|]. unfold busy_resp. destruct (Z.eqb_spec (Z.land (caps identity) RETRY_AFTER) 0); done. Qed.
Lemma polite_err l b c msg : polite (l, BResp b (RespErr c msg)).
Proof. done. Qed.

(** What the choker must have said for data of [n] bytes to go out. *)
Definition admitted (n : Z) (first_paint : bool) (c : Choker) : Prop :=
  (serve_decision hash_iter (node_pk identity) n first_paint (foreground ctx) (now ctx) c).1 ∈ [Serve; FirstPaint].

Definition first_paint_of (obj : ObjId) (charged : Z) (s : S) : bool :=
  default charged (match (be_info obj s).1 with Ok (Some (size, _)) => Some size | _ => None end) <=? FIRST_PAINT_OBJECT_BYTES.

(** Streaming credits nothing by itself. *)
Definition uncredited {A} (m : Srv S A) : Prop := ∀ e, credited (m e).2 = credited e.
Lemma uncredited_bind {A A'} (m : Srv S A) (f : A → Srv S A') : uncredited m → (∀ a, uncredited (f a)) → uncredited (m ≫= f).
Proof. intros Hm Hf e. unfold mbind, srv_bind. specialize (Hm e). destruct (m e) as [a e1]. cbn in Hm. by rewrite Hf, Hm. Qed.
Lemma uncredited_store {A} (f : S → A * S) : uncredited (with_store f).
Proof. intros e. unfold with_store. by destruct (f _). Qed.
Lemma uncredited_send l buf last : uncredited (sink_send l buf last).
Proof. apply uncredited_bind; [done|]. intros []; [done|]. by apply uncredited_bind. Qed.
Lemma uncredited_loop l fuel : ∀ buf rest, uncredited (sink_write_loop l fuel buf rest).
Proof.
  induction fuel as [|fuel IH]; intros buf [|x rest]; try done. cbn [sink_write_loop]. destruct (_ =? _); [|apply IH].
  apply uncredited_bind; [apply uncredited_send|]. intros [[[]|?] ?]; [apply IH|done].
Qed.
Lemma uncredited_write_all l data fuel : ∀ buf, uncredited (write_all l fuel buf data).
Proof.
  induction fuel as [|fuel IH]; intros buf; destruct data as [|x data]; try done. cbn [write_all].
  apply uncredited_bind; [apply uncredited_loop|]. intros [[[]|?] ?]; [done|]. destruct (decide _); [apply IH|done].
Qed.
Lemma uncredited_write_each l writes : ∀ buf, uncredited (write_each l buf writes).
Proof.
  induction writes as [|d writes IH]; intros buf; [done|]. cbn [write_each]. apply uncredited_bind; [intros e; apply uncredited_write_all|].
  intros [[[]|?] ?]; [apply IH|done].
Qed.
Lemma uncredited_stream l obj ranges : uncredited (stream_range ctx l obj ranges).
Proof.
  apply uncredited_bind; [apply uncredited_store|]. intros [ws k]. apply uncredited_bind; [apply uncredited_write_each|].
  intros [[[]|?] ?]; [|done]. apply uncredited_bind; [apply uncredited_store|]. intros [[]|?]; [|done].
  by apply uncredited_bind; [apply uncredited_send|].
Qed.

Lemma respond_only r (e : Env S) : credited (respond r e).2 = credited e ∧
  ∃ out, log (respond r e).2 = log e ++ out ∧ Forall (λ o, o = (Priority, BResp true r)) out.
Proof.
  split; [done|]. destruct (respond_cases r e) as [H|[H _]]; rewrite H; [eexists; split; [reflexivity|]; by apply Forall_singleton|].
  exists []. by rewrite app_nil_r.
Qed.

(** What serving a range may have done: refused it, or streamed it when it was
    right to. *)
Definition governed (obj : ObjId) (ranges : list ByteRange) (e e' : Env S) : Prop :=
  let charged := range_charge ranges in
  ∃ out, log e' = log e ++ out ∧
    (Forall polite out ∨
     blen ranges <= MAX_RANGES_PER_REQ ∧ range_total ranges <= MAX_BYTES_PER_REQ ∧ range_total ranges <= charged ∧
     slot e = true ∧ Forall (λ o, is_busy o.2 = false) out ∧
     (∀ c, choker e = Some c → admitted charged (first_paint_of obj charged (store e)) c)) ∧
    (credited e' = credited e ∨ credited e' = credited e ++ [(obj, charged)] ∧ ∃ init l last, out = init ++ [(l, BData true last)]).

Lemma governed_refusal obj ranges r (e e1 : Env S) : polite (Priority, BResp true r) → log e1 = log e → credited e1 = credited e →
  governed obj ranges e (respond r e1).2.
Proof.
  intros Hp Hl Hc. destruct (respond_only r e1) as [Hc' (out & Hl' & Hout)]. exists out. rewrite Hl', Hl, Hc', Hc. split_and!; [done| |by left].
  left. eapply Forall_impl; [exact Hout|]. by intros ? ->.
Qed.

Lemma governed_admitted l obj ranges (e e1 : Env S) : Forall (λ r : ByteRange, is_u64 r.1 ∧ is_u64 r.2) ranges →
  blen ranges <= MAX_RANGES_PER_REQ → range_total ranges <= MAX_BYTES_PER_REQ →
  (∀ c, choker e = Some c → admitted (range_charge ranges) (first_paint_of obj (range_charge ranges) (store e)) c) →
  log e1 = log e → credited e1 = credited e → slot e1 = slot e →
  governed obj ranges e (serve_admitted ctx identity l obj ranges (range_charge ranges) e1).2.
Proof.
  intros Hu Hn Ht Hadm Hl Hc Hs. unfold serve_admitted, mbind, srv_bind, encode_queue_slot. rewrite Hs. destruct (slot e) eqn:Hslot; cbn [negb].
  2: { apply governed_refusal; [apply polite_busy|done|done]. }
  pose proof (stream_range_spec ctx l obj ranges e1) as Hsp. pose proof (uncredited_stream l obj ranges e1) as Hcr.
  destruct (stream_range ctx l obj ranges e1) as [r e2]. cbn in Hcr. rewrite Hc in Hcr.
  destruct Hsp as (full & out & L & _ & Hcase). rewrite Hl in L. pose proof (charge_covers _ Hu) as Hcov.
  assert (Hfull : Forall (λ o : Out, is_busy o.2 = false) (data_frames l full)) by by apply Forall_map, Forall_forall.
  assert (Hend : ∀ (e' : Env S) out', log e' = log e ++ data_frames l full ++ out' → Forall (λ o : Out, is_busy o.2 = false) out' →
    (credited e' = credited e ∨ credited e' = credited e ++ [(obj, range_charge ranges)] ∧ ∃ last, out' = [(l, BData true last)]) → governed obj ranges e e').
  { intros e' out' HL HF HC. exists (data_frames l full ++ out'). split; [done|]. split; [right; split_and!; try done; by apply Forall_app|].
    destruct HC as [?|[? [last ->]]]; [by left|right; eauto]. }
  destruct Hcase as [(x & -> & ->)|(last & -> & -> & _)]; [|by apply (Hend _ [(l, BData true last)]); [done|by apply Forall_singleton|cbn; rewrite Hcr; eauto]].
  destruct (kind x); try (by apply (Hend _ []); [exact L|done|by left]).
  all: match goal with |- context [respond ?r ?v] => destruct (respond_only r v) as [HC (o & HL & HF)] end;
    apply (Hend _ o); [by rewrite HL, L, app_nil_r, app_assoc|eapply Forall_impl; [exact HF|]; by intros ? ->|left; congruence].
Qed.

End governed.

(** ** Instances *)

(** A store of one object, whose encoder hands over one buffer. *)
#[local] Instance one_object : Backend () := {
  be_info _ s := (Ok (Some (6, true)), s);
  be_bits _ s := (Ok GroupBits.new, s);
  be_complete _ s := (Ok true, s);
  be_read _ _ s := (Ok (bstr "object"), s);
  be_encode _ _ _ s := ([bstr "slice"], λ s, (Ok (), s))
}.

Definition open_ctx : ServeCtx := {|
  provider := {| get_signed _ _ := None; list_signed _ _ := []; xite_summary _ := None; apply_update _ _ _ _ _ _ _ := Ok true |};
  control := None; now := 7; foreground := false
|}.
Definition some_peer : PeerIdentity := {| node_pk := bstr "k"; address := []; caps := 0; version := [] |}.
Definition calm (c : option Choker) : Env () := mkEnv () c [] [] true [] false [].

#[local] Existing Instance toy_postcard.
#[local] Instance toy_size : PostcardSize.
Proof.
  intros [s d] p n. unfold to_stdvec, toy_postcard. cbn [stream body]. intros H Hn.
  assert (Hp : ∀ t q, toy_tag d = Some (t, q) → blen p = 9 + blen q).
  { intros t q Ht. rewrite Ht in H. destruct (_ && _); [|done]. apply Ok_inj in H as <-.
    rewrite blen_cons, blen_app, (blen_le_bytes 8). lia. }
  destruct d as [[]|[] []|[] q| | |]; try done. all: injection Hn as <-; rewrite (Hp _ q eq_refl); unfold prefixed; pose proof (varint_max_le (blen q)); lia.
Qed.



