(* ===== verification/Session.v ===== *)
(** * The accept and serve loops ([crates/epix-protocol/src/server.rs],
    [serve] in [crates/epix-edx/src/server.rs])

    A node's inbound side: the doorman that sheds connections past its cap and
    drops those that do not speak, the hello gate, and per connection the loop
    that takes requests one at a time, runs up to eight handlers and refuses the
    rest, around one upload choker that every connection registers with and every
    handler consults.

    A node is the links it has accepted, in any phase, and the choker; anything a
    link, a handler, a clock or a cancelled task may do next is a step. A handler
    is one step, taken when it ends: it takes the choker's lock at most once, so
    nothing it does depends on what happens between. *)
From Stdlib Require Import ZArith Lia Strings.Byte.
From stdpp Require Import base list gmap strings relations.
From S2P Require Import Prelude Ordered Bitfield Crypt Manifest Choke Peer Wire Conn Handshake Server.
#[local] Open Scope Z_scope.

Definition MAX_INBOUND : nat := 400.
Definition EDX_FIRST_BYTE : byte := "E"%byte.

(** ** What a handler does to the choker *)

(** More than a request within the caps is ever charged. *)
Definition MAX_CHARGE : Z := 2 ^ 27.

(** Ids, offsets and lengths are unsigned on the wire. *)
Definition req_wf (r : Req) : Prop :=
  match r with GetRange _ _ ranges _ => Forall (λ r : ByteRange, is_u64 r.1 ∧ is_u64 r.2) ranges | _ => True end.
#[global] Instance req_wf_dec r : Decision (req_wf r).
Proof. unfold req_wf, is_u64. destruct r; apply _. Defined.

Class BackendSizes (S : Type) `{B : Backend S} := size_unsigned id s n c : (be_info id s).1 = Ok (Some (n, c)) → 0 <= n.

Lemma charge_within (f g : ByteRange → Z) k rs : 0 <= k → Forall (λ r, f r <= g r + k) rs → ∀ a b c, 0 <= c → a <= b + c →
  foldl sat_add64 a (map f rs) <= foldl sat_add64 b (map g rs) + c + k * blen rs.
Proof.
  intros Hk. induction 1 as [|r rs Hr _ IH]; intros a b c Hc Ha; cbn [map foldl]; [unfold blen; cbn; lia|].
  rewrite blen_cons. specialize (IH (sat_add64 a (f r)) (sat_add64 b (g r)) (c + k) ltac:(lia)). unfold sat_add64 in *. lia.
Qed.

Lemma charge_nonneg (f : ByteRange → Z) rs : (∀ r, 0 <= f r) → ∀ a, 0 <= a → 0 <= foldl sat_add64 a (map f rs).
Proof. intros Hf. induction rs as [|r rs IH]; intros a Ha; cbn; [done|]. apply IH. specialize (Hf r). unfold sat_add64, u64_max. lia. Qed.

Lemma range_charge_bounds rs : Forall (λ r : ByteRange, is_u64 r.1 ∧ is_u64 r.2) rs → blen rs <= MAX_RANGES_PER_REQ → range_total rs <= MAX_BYTES_PER_REQ →
  0 <= range_charge rs <= MAX_CHARGE.
Proof.
  intros Hu Hn Ht. assert (GROUP_BYTES = 16384) as EG by done. split.
  - apply charge_nonneg; [|done]. intros [s e]. cbn. destruct (Z.ltb_spec s e); [|done]. unfold sat_mul64, u64_max, div_ceil. rewrite EG.
    pose proof (Z.div_le_mono s (e + 16384 - 1) 16384 ltac:(lia) ltac:(lia)). lia.
  - pose proof (charge_within (λ r : ByteRange, if r.1 <? r.2 then sat_mul64 (div_ceil r.2 GROUP_BYTES - r.1 / GROUP_BYTES) GROUP_BYTES else 0)
      (λ r, sat_sub r.2 r.1) 32768 rs ltac:(lia)) as H. unfold range_charge, range_total in *.
    assert (Hf : Forall (λ r : ByteRange, (if r.1 <? r.2 then sat_mul64 (div_ceil r.2 GROUP_BYTES - r.1 / GROUP_BYTES) GROUP_BYTES else 0) <= sat_sub r.2 r.1 + 32768) rs).
    { eapply Forall_impl; [exact Hu|]. intros [s e] [Hs He]. cbn in *. unfold sat_sub, sat_mul64, div_ceil, is_u64, u64_max in *. rewrite EG.
      destruct (Z.ltb_spec s e); [|lia]. pose proof (Z.div_mod s 16384 ltac:(lia)). pose proof (Z.mod_pos_bound s 16384 ltac:(lia)).
      pose proof (Z.div_mod (e + 16384 - 1) 16384 ltac:(lia)). pose proof (Z.mod_pos_bound (e + 16384 - 1) 16384 ltac:(lia)). lia. }
    specialize (H Hf 0 0 0 ltac:(lia) ltac:(lia)). unfold MAX_RANGES_PER_REQ in *. change MAX_BYTES_PER_REQ with 67108864 in *. change MAX_CHARGE with 134217728. lia.
Qed.

Section judge.
Context {S : Type} `{B : Backend S} `{SZ : !BackendSizes S}.
Context (hash_iter : gmap bytes PeerAccount → list (bytes * PeerAccount)) (ctx : ServeCtx) (identity : PeerIdentity).

(** One consultation. *)
Definition judged (c c' : Choker) : Prop := ∃ n first_paint, 0 <= n <= MAX_CHARGE ∧
  c' = (serve_decision hash_iter (node_pk identity) n first_paint (foreground ctx) (now ctx) c).2.

Definition choker_step (o o' : option Choker) : Prop :=
  match o, o' with Some c, Some c' => rtc judged c c' | None, None => True | _, _ => False end.
#[local] Instance choker_step_preorder : PreOrder choker_step.
Proof.
  split; [intros [c|]; [apply rtc_refl|done]|]. intros [a|] [b|] [c|]; cbn; try done. intros H1 H2. by etransitivity.
Qed.

Definition judges {A} (m : Srv S A) : Prop := ∀ e, choker_step (choker e) (choker (m e).2).

Lemma judges_bind {A A'} (m : Srv S A) (f : A → Srv S A') : judges m → (∀ a, judges (f a)) → judges (m ≫= f).
Proof. intros Hm Hf e. unfold mbind, srv_bind. specialize (Hm e). destruct (m e) as [a e1]. cbn in Hm. etransitivity; [exact Hm|apply Hf]. Qed.
Lemma judges_bind_ok {A A'} (m : Srv S A) (f : A → Srv S A') (P : A → Prop) : judges m → (∀ e, P (m e).1) → (∀ a, P a → judges (f a)) → judges (m ≫= f).
Proof.
  intros Hm HP Hf e. unfold mbind, srv_bind. specialize (Hm e). specialize (HP e). destruct (m e) as [a e1]. cbn in Hm, HP.
  etransitivity; [exact Hm|by apply Hf].
Qed.
Lemma judges_same {A} (m : Srv S A) : (∀ e, choker (m e).2 = choker e) → judges m.
Proof. intros H e. by rewrite H. Qed.
Lemma judges_ret {A} (a : A) : judges (mret a).
Proof. by apply judges_same. Qed.
Lemma judges_put l b : judges (put l b).
Proof. by apply judges_same. Qed.
Lemma judges_respond r : judges (respond r).
Proof. apply judges_bind; [apply judges_put|intros; apply judges_ret]. Qed.
Lemma judges_cancelled : judges take_cancelled.
Proof. by apply judges_same. Qed.
Lemma judges_shutdown : judges shutdown.
Proof. by apply judges_same. Qed.
Lemma judges_served items : judges (on_served items).
Proof. by apply judges_same. Qed.
Lemma judges_slot : judges encode_queue_slot.
Proof. by apply judges_same. Qed.
Lemma judges_store {A} (f : S → A * S) : judges (with_store f).
Proof. apply judges_same. intros e. unfold with_store. by destruct (f _). Qed.
End judge.

Create HintDb judge.
#[export] Hint Resolve judges_ret judges_put judges_respond judges_cancelled judges_shutdown judges_served judges_slot judges_store : judge.

(** Through a sequence of operations that do not consult by themselves. *)
Ltac judge :=
  repeat first
    [ solve [eauto with judge]
    | apply judges_bind; [|intros ?]
    | match goal with
      | |- judges _ _ _ (if ?b then _ else _) => destruct b
      | |- judges _ _ _ (match ?x with _ => _ end) => destruct x
      end ].

Section handlers.
Context {S : Type} `{B : Backend S} `{SZ : !BackendSizes S}.
Context (hash_iter : gmap bytes PeerAccount → list (bytes * PeerAccount)) (ctx : ServeCtx) (identity : PeerIdentity).
Notation judges := (judges (S := S) hash_iter ctx identity).

Lemma judges_consult n fp : 0 <= n <= MAX_CHARGE → judges (consult hash_iter ctx identity n fp).
Proof.
  intros Hn e. unfold consult, with_choker. destruct (choker e) as [c|] eqn:E; cbn; [|by rewrite E].
  destruct (serve_decision _ _ _ _ _ _ c) as [d c'] eqn:Ed. cbn. apply rtc_once. exists n, fp. split; [done|]. by rewrite Ed.
Qed.

Lemma judges_signed fuel : ∀ b, judges (serve_signed_loop fuel b).
Proof. induction fuel as [|fuel IH]; intros b; cbn [serve_signed_loop]; judge; auto. Qed.

Lemma judges_pack {D A} (next : D → Srv S (option A)) cost flush todo : (∀ b, judges (next b)) → (∀ batch, judges (flush batch)) →
  ∀ batch n, judges (pack next cost flush todo batch n).
Proof. intros Hn Hf. induction todo as [|b todo IH]; intros batch n; cbn [pack]; judge; auto. Qed.

Lemma judges_send_many l last items : judges (send_many l last items).
Proof. unfold send_many, stalled_teardown. judge. Qed.

Lemma judges_sink_send l buf last : judges (sink_send l buf last).
Proof. unfold sink_send. judge. Qed.
Lemma judges_write_loop l fuel : ∀ buf rest, judges (sink_write_loop l fuel buf rest).
Proof. induction fuel as [|fuel IH]; intros buf [|x rest]; cbn [sink_write_loop]; judge; auto using judges_sink_send. Qed.
Lemma judges_write_all l data fuel : ∀ buf, judges (write_all l fuel buf data).
Proof. induction fuel as [|fuel IH]; intros buf; destruct data as [|x data]; cbn [write_all]; judge; auto; apply judges_write_loop. Qed.
Lemma judges_write_each l writes : ∀ buf, judges (write_each l buf writes).
Proof. induction writes as [|w writes IH]; intros buf; cbn [write_each]; judge; auto. intros e. apply judges_write_all. Qed.
Lemma judges_stream l obj ranges : judges (stream_range ctx l obj ranges).
Proof. unfold stream_range. judge; auto using judges_write_each, judges_sink_send. Qed.
#[local] Hint Resolve judges_stream : judge.

Lemma judges_mask addrs : ∀ i bits, judges (shard_mask_loop i addrs bits).
Proof. induction addrs as [|a addrs IH]; intros i bits; cbn [shard_mask_loop]; judge; auto. Qed.

Lemma servable_sizes objs : ∀ e : Env S, Forall (λ i : ObjId * Z, 0 <= i.2 <= MAX_CHARGE) (many_servable objs e).1.
Proof.
  induction objs as [|o objs IH]; intros e; cbn [many_servable]; [constructor|]. unfold mbind, srv_bind, with_store.
  destruct (be_info o (store e)) as [stat s] eqn:E. specialize (IH (mkEnv s (choker e) (sends e) (cancels e) (slot e) (log e) (shut e) (credited e))).
  destruct (many_servable objs _) as [rest e1]. cbn in IH |- *. destruct stat as [[[n []]|]|]; try done. destruct (Z.leb_spec n MAX_MANY_ITEM_BYTES) as [Hn|]; [|done].
  constructor; [|done]. cbn. pose proof (size_unsigned o (store e) n true ltac:(by rewrite E)). unfold MAX_MANY_ITEM_BYTES in Hn. change MAX_CHARGE with 134217728. lia.
Qed.

Lemma judges_servable objs : judges (many_servable objs).
Proof. induction objs as [|o objs IH]; cbn [many_servable]; judge; auto. Qed.

Lemma judges_admit todo : Forall (λ i : ObjId * Z, 0 <= i.2 <= MAX_CHARGE) todo → ∀ adm bulk, judges (admit_loop hash_iter ctx identity todo adm bulk).
Proof.
  induction 1 as [|i todo Hi _ IH]; intros adm bulk; cbn [admit_loop]; [apply judges_ret|].
  apply judges_bind; [by apply judges_consult|]. intros [[[] ?]|]; judge; auto.
Qed.

Lemma judges_framed l servable : judges (read_and_frame_many ctx l servable).
Proof.
  apply judges_bind; [apply judges_pack; [intros; unfold read_item; judge|intros; apply judges_send_many]|].
  intros [batch|]; [|apply judges_ret]. apply judges_bind; [apply judges_send_many|intros; apply judges_ret].
Qed.

Lemma judges_many objs : judges (serve_many hash_iter ctx identity objs).
Proof.
  unfold serve_many. destruct (_ <? _); [apply judges_respond|].
  apply (judges_bind_ok _ _ _ _ _ (Forall (λ i : ObjId * Z, 0 <= i.2 <= MAX_CHARGE))); [apply judges_servable|apply servable_sizes|].
  intros sv Hsv. apply judges_bind; [by apply judges_admit|].
  intros [[adm bulk] rr]. destruct (_ && _); [apply judges_respond|]. apply judges_bind; [apply judges_slot|].
  intros []; [apply judges_framed|apply judges_respond].
Qed.

Lemma judges_range obj ranges d : Forall (λ r : ByteRange, is_u64 r.1 ∧ is_u64 r.2) ranges → judges (serve_range hash_iter ctx identity obj ranges d).
Proof.
  intros Hu. unfold serve_range. destruct (_ || _) eqn:E; [apply judges_respond|]. apply orb_false_iff in E as [Hn%Z.ltb_ge Ht%Z.ltb_ge].
  apply judges_bind; [apply judges_store|intros stat]. apply judges_bind; [by apply judges_consult, range_charge_bounds|]. intros dec.
  assert (∀ l, judges (serve_admitted ctx identity l obj ranges (range_charge ranges))) by (intros l; unfold serve_admitted; judge; auto using judges_stream).
  destruct dec as [[[] ?]|]; judge.
Qed.

Lemma judges_handle req : req_wf req → judges (handle hash_iter ctx identity req).
Proof.
  intros Hw. destruct req; cbn [handle]; try apply judges_respond; try apply judges_ret.
  - unfold serve_get_signed. destruct (get_signed _ _ _); [apply judges_signed|apply judges_respond].
  - apply judges_bind; [apply judges_pack; intros; [apply judges_ret|apply judges_put]|intros [?|]; [apply judges_respond|apply judges_ret]].
  - by apply judges_range.
  - apply judges_many.
  - unfold serve_bitfield. judge.
  - unfold serve_updates_since. destruct (control ctx); [|apply judges_respond]. destruct (ctl_updates_since _ _).
    apply judges_bind; [apply judges_pack; intros; [apply judges_ret|apply judges_put]|intros [?|]; [apply judges_respond|apply judges_ret]].
  - apply judges_bind; [apply judges_mask|intros; apply judges_respond].
Qed.
End handlers.

(** ** A node's links *)

Inductive phase := Peeking | Greeting | Serving (identity : PeerIdentity) | Ended.

(** [hash] is the Noise handshake hash, [permit] whether the link holds one of
    the accept loop's, [waiting] the request the loop has taken and holds while
    it awaits a serve permit, [tasks] the handlers running, each with a permit
    and its own copy of the identity. *)
Record Link := mkLink { hash : option bytes; phase_of : phase; permit : bool; waiting : option (Z * Req);
  tasks : list (PeerIdentity * Z * Req) }.

Record Node := mkNode { links : gmap Z Link; node_choker : option Choker }.

Inductive event :=
  | Shed                                                  (** past the cap, a connection was dropped *)
  | Greeted (k : Z) (id : PeerIdentity)
  | Taken (k s : Z) (r : Req)
  | Started (k s : Z) (r : Req)
  | Refused (k s : Z) (r : Resp)
  | Finished (k s : Z) (out : list Out).

Inductive node_act :=
  | Accept (k : Z) (tcp : bool)
  | Peek (k : Z) (first : option byte) (noise : option bytes)
  | Greet (k : Z) (first : option Req) (sent : bool) (at_ : Z)
  | Take (k s : Z) (r : Req)
  | StartTask (k : Z)
  | Refuse (k : Z)
  | Finish (k : Z) (n : nat)
  | EndLoop (k : Z) (at_ : Z)
  | Abort (k : Z) (at_ : Z)
  | Govern (o : op) (at_ : Z).

Definition tally (P : Link → bool) (m : gmap Z Link) : nat := size (filter (λ x : Z * Link, P x.2 = true) m).
Definition serving (l : Link) : option bytes := match phase_of l with Serving id => Some (node_pk id) | _ => None end.
Definition serves (pk : bytes) (l : Link) : bool := bool_decide (serving l = Some pk).

Section node.
Context {S : Type} `{B : Backend S} `{SZ : !BackendSizes S} `{C : Crypto}.
Context (hash_iter : gmap bytes PeerAccount → list (bytes * PeerAccount)) (hash_iter_perm : ∀ m, hash_iter m ≡ₚ map_to_list m).
Context (debug_str : bytes → bytes) (cap : Z) (node_ctx : NodeCtx).

Definition set_link (k : Z) (l : Link) (n : Node) : Node := mkNode (<[k := l]> (links n)) (node_choker n).
Definition tell (o : op) (at_ : Z) (n : Node) : Node := mkNode (links n) (Choke.run hash_iter o at_ <$> node_choker n).

(** [serve]: the reachability noted of a link. *)
Definition reach_of (l : Link) : Reach := match hash l with Some _ => Clearnet | None => Overlay end.

(** How a link ends: its permit is released, and the guard of a registered one
    tells the choker; its handlers run on. *)
Definition end_link (k : Z) (l : Link) (at_ : Z) (n : Node) : Node :=
  let n := set_link k (mkLink (hash l) Ended false None (tasks l)) n in
  match serving l with Some pk => tell (NoteDisconnected pk) at_ n | None => n end.

(** The listener takes a connection, with a permit, or sheds it; an overlay's are
    handed to the hook as they are. *)
Definition accept (k : Z) (tcp : bool) (n : Node) : option (Node * list event) :=
  if decide (links n !! k = None) then
    if tcp then
      if (tally permit (links n) <? MAX_INBOUND)%nat then Some (set_link k (mkLink None Peeking true None []) n, []) else Some (n, [Shed])
    else Some (set_link k (mkLink None Greeting false None []) n, [])
  else None.

(** Its first byte, [None] when it does not come in time, and how the Noise
    handshake over it ends. *)
Definition peek (k : Z) (first : option byte) (noise : option bytes) (n : Node) : option (Node * list event) :=
  l ← links n !! k;
  match phase_of l with
  | Peeking =>
    match noise with
    | Some h => if bool_decide (first = Some EDX_FIRST_BYTE) then Some (set_link k (mkLink (Some h) Greeting (permit l) None []) n, [])
                else Some (end_link k l 0 n, [])
    | None => Some (end_link k l 0 n, [])
    end
  | _ => None
  end.

(** The choker a handler finds is the node's. *)
Definition governed_by (c : option Choker) (e : Env S) : Env S :=
  mkEnv (store e) c (sends e) (cancels e) (slot e) [] (shut e) (credited e).

(** [ctx] and [env]: the context and the environment of a handler, should this
    step end one. *)
Definition node_step (ctx : ServeCtx) (env : Env S) (a : node_act) (n : Node) : option (Node * list event) :=
  match a with
  | Accept k tcp => accept k tcp n
  | Peek k first noise => peek k first noise n
  | Greet k first sent at_ =>
    l ← links n !! k;
    match phase_of l with
    | Greeting =>
      match (hello_gate debug_str node_ctx (hash l) first sent).1 with
      | Some id => Some (tell (NoteConnected (node_pk id) (reach_of l)) at_ (set_link k (mkLink (hash l) (Serving id) (permit l) None (tasks l)) n), [Greeted k id])
      | None => Some (end_link k l at_ n, [])
      end
    | _ => None
    end
  | Take k s r =>
    l ← links n !! k;
    match phase_of l, waiting l with
    | Serving _, None => if decide (req_wf r) then Some (set_link k (mkLink (hash l) (phase_of l) (permit l) (Some (s, r)) (tasks l)) n, [Taken k s r]) else None
    | _, _ => None
    end
  | StartTask k =>
    l ← links n !! k;
    match phase_of l, waiting l with
    | Serving id, Some (s, r) =>
      if (length (tasks l) <? MAX_CONCURRENT_SERVES)%nat
      then Some (set_link k (mkLink (hash l) (phase_of l) (permit l) None (tasks l ++ [(id, s, r)])) n, [Started k s r])
      else None
    | _, _ => None
    end
  | Refuse k =>
    l ← links n !! k;
    match phase_of l, waiting l with
    | Serving id, Some (s, r) =>
      if (MAX_CONCURRENT_SERVES <=? length (tasks l))%nat
      then Some (set_link k (mkLink (hash l) (phase_of l) (permit l) None (tasks l)) n, [Refused k s (busy_resp id SERVE_SLOTS_RETRY_SECS (bstr "serve slots busy"))])
      else None
    | _, _ => None
    end
  | Finish k i =>
    l ← links n !! k;
    '(id, s, r) ← tasks l !! i;
    let e := (handle hash_iter ctx id r (governed_by (node_choker n) env)).2 in
    Some (mkNode (<[k := mkLink (hash l) (phase_of l) (permit l) (waiting l) (delete i (tasks l))]> (links n)) (choker e), [Finished k s (log e)])
  | EndLoop k at_ =>
    l ← links n !! k;
    match phase_of l, waiting l with Serving _, None => Some (end_link k l at_ n, []) | _, _ => None end
  | Abort k at_ => l ← links n !! k; Some (end_link k l at_ n, [])
  | Govern o at_ => match o with NotePeer _ _ | CreditPeer _ _ | SetPaused _ => Some (tell o at_ n, []) | _ => None end
  end.

Definition boot (governed : bool) : Node := mkNode ∅ (if governed then Some (new cap) else None).

(** Fewer registered links than the choker's table has room for. *)
Definition spacious (n : Node) : Prop := (tally (λ l, bool_decide (is_Some (serving l))) (links n) < MAX_TRACKED_PEERS)%nat.

Inductive node_run (governed : bool) : Node → list event → Prop :=
  | node_boot : node_run governed (boot governed) []
  | node_next n tr ctx env a n' e : node_run governed n tr → spacious n → node_step ctx env a n = Some (n', e) → node_run governed n' (tr ++ e).

(** ** Counting links *)

Lemma tally_insert P m k l : tally P (<[k := l]> m) = (tally P (delete k m) + if P l then 1 else 0)%nat.
Proof.
  unfold tally. rewrite <- insert_delete_eq. destruct (P l) eqn:E.
  - rewrite map_filter_insert_True by done. rewrite map_size_insert_None; [lia|]. apply map_lookup_filter_None. left. by rewrite lookup_delete_eq.
  - rewrite map_filter_insert_False by (cbn; by rewrite E). rewrite delete_delete_eq. lia.
Qed.

Lemma tally_at P m k l : m !! k = Some l → tally P m = (tally P (delete k m) + if P l then 1 else 0)%nat.
Proof. intros Hl. rewrite <- tally_insert, insert_id by done. done. Qed.

Lemma tally_new P m k l : m !! k = None → tally P (<[k := l]> m) = (tally P m + if P l then 1 else 0)%nat.
Proof. intros Hl. rewrite tally_insert, delete_id by done. done. Qed.

Lemma tally_move P m k l l' : m !! k = Some l → (tally P (<[k := l']> m) + (if P l then 1 else 0) = tally P m + if P l' then 1 else 0)%nat.
Proof. intros Hl. rewrite tally_insert, (tally_at P m k l Hl). lia. Qed.

Lemma tally_pos P m : (0 < tally P m)%nat → ∃ k l, m !! k = Some l ∧ P l = true.
Proof.
  unfold tally. intros H. destruct (map_choose (filter (λ x : Z * Link, P x.2 = true) m)) as (k & l & Hl).
  - intros E. rewrite E, map_size_empty in H. lia.
  - apply map_lookup_filter_Some in Hl as [Hl HP]. eauto.
Qed.

(** ** What a step does to one link *)

Definition identified (id : PeerIdentity) (l : Link) : Prop := ∃ sig, proved id sig (hash l) Initiator.

Record link_ok (l : Link) : Prop := {
  lo_tasks : (length (tasks l) <= MAX_CONCURRENT_SERVES)%nat;
  lo_wf : Forall (λ t, req_wf t.2 ∧ identified t.1.1 l) (tasks l);
  lo_waiting : ∀ t, waiting l = Some t → req_wf t.2 ∧ is_Some (serving l);
  lo_served : ∀ id, phase_of l = Serving id → identified id l;
  lo_ungreeted : phase_of l = Peeking ∨ phase_of l = Greeting → tasks l = [] ∧ waiting l = None
}.

Lemma gate_identity h first sent id : (hello_gate debug_str node_ctx h first sent).1 = Some id → ∃ sig, proved id sig h Initiator.
Proof.
  unfold hello_gate. destruct first as [[]|]; try done. destruct (check_identity _ _ _ _ _ _ _ _) as [i|] eqn:E; [|done].
  destruct (private_to_compressed_pubkey (ctx_privatekey node_ctx)), (binding_sig (ctx_privatekey node_ctx) h Responder); try done. destruct sent; [|done]. cbn. intros [= ->].
  apply check_spec in E as (_ & _ & _ & _ & Hp). eauto.
Qed.

(** A step leaves every link as it was, or replaces one, or adds one. *)
Inductive changes (n n' : Node) : Prop :=
  | ch_none : links n' = links n → changes n n'
  | ch_link k l l' : links n !! k = Some l → links n' = <[k := l']> (links n) → link_ok l' → (permit l' = true → permit l = true) → changes n n'
  | ch_new k l' : links n !! k = None → links n' = <[k := l']> (links n) → link_ok l' →
      (permit l' = true → (tally permit (links n) < MAX_INBOUND)%nat) → changes n n'.

Lemma end_link_links k l at_ n : links (end_link k l at_ n) = <[k := mkLink (hash l) Ended false None (tasks l)]> (links n).
Proof. unfold end_link. by destruct (serving l). Qed.

Lemma end_link_ok l : link_ok l → link_ok (mkLink (hash l) Ended false None (tasks l)).
Proof. intros [H1 H2 H3 H4 H5]. split; cbn; try done. by intros [|]. Qed.

Lemma step_links ctx env a n n' e : (∀ k l, links n !! k = Some l → link_ok l) → node_step ctx env a n = Some (n', e) → changes n n'.
Proof.
  intros Hok H. assert (Hend : ∀ k l at_, links n !! k = Some l → changes n (end_link k l at_ n)).
  { intros k l at_ Hl. eapply ch_link; [exact Hl|apply end_link_links|apply end_link_ok; by eapply Hok|done]. }
  assert (Hnew : ∀ h ph p, (ph = Peeking ∨ ph = Greeting) → link_ok (mkLink h ph p None [])).
  { intros h ph p Hp. split; cbn; [unfold MAX_CONCURRENT_SERVES; lia|constructor|done|destruct Hp; congruence|done]. }
  destruct a as [k tcp|k first noise|k first sent at_|k s r|k|k|k i|k at_|k at_|o at_]; cbn [node_step] in H; unfold accept, peek in H.
  1: destruct (decide (links n !! k = None)) as [Hl|]; [|done].
  2-9: destruct (links n !! k) as [l|] eqn:Hl; cbn [mbind option_bind] in H; [|done]; pose proof (Hok k l Hl) as Hlk.
  - destruct tcp.
    + destruct (Nat.ltb_spec (tally permit (links n)) MAX_INBOUND); injection H as <- <-; [|by apply ch_none].
      eapply ch_new; [exact Hl|done|auto|done].
    + injection H as <- <-. eapply ch_new; [exact Hl|done|auto|done].
  - destruct (phase_of l) eqn:Ep; try done. destruct noise as [h|]; [|injection H as <- <-; by apply Hend].
    case_bool_decide; injection H as <- <-; [|by apply Hend]. eapply ch_link; [exact Hl|done|auto|done].
  - destruct (phase_of l) eqn:Ep; try done. destruct ((hello_gate _ _ _ _ _).1) as [id|] eqn:Eg; injection H as <- <-; [|by apply Hend].
    eapply ch_link; [exact Hl|done| |done]. destruct Hlk as [H1 H2 H3 H4 H5]. destruct (H5 (or_intror Ep)) as [E5 _]. rewrite E5.
    split; cbn; [unfold MAX_CONCURRENT_SERVES; lia|constructor|done| |by intros [|]]. intros id' [= <-]. by apply gate_identity in Eg.
  - destruct (phase_of l) eqn:Ep; try done. destruct (waiting l) eqn:Ew; [done|]. destruct (decide _); [|done]. injection H as <- <-.
    eapply ch_link; [exact Hl|done| |done]. destruct Hlk as [H1 H2 H3 H4 H5].
    split; cbn; [done|done| |intros id' Hid; apply H4; congruence|intros [|]; congruence]. intros t [= <-]. split; [done|]. unfold serving. cbn. eauto.
  - destruct (phase_of l) eqn:Ep; try done. destruct (waiting l) as [[s r]|] eqn:Ew; [|done]. destruct (Nat.ltb_spec (length (tasks l)) MAX_CONCURRENT_SERVES); [|done].
    injection H as <- <-. eapply ch_link; [exact Hl|done| |done]. destruct Hlk as [H1 H2 H3 H4 H5].
    split; cbn; [rewrite length_app; cbn; lia| |done|intros id' Hid; apply H4; congruence|intros [|]; congruence].
    apply Forall_app. split; [done|]. apply Forall_singleton. split; [apply (H3 _ Ew)|by apply H4].
  - destruct (phase_of l) eqn:Ep; try done. destruct (waiting l) as [[s r]|] eqn:Ew; [|done]. destruct (_ <=? _)%nat; [|done]. injection H as <- <-.
    eapply ch_link; [exact Hl|done| |done]. destruct Hlk as [H1 H2 H3 H4 H5].
    split; cbn; [done|done|done|intros id' Hid; apply H4; congruence|intros [|]; congruence].
  - destruct (tasks l !! i) as [[[id s] r]|] eqn:Et; [|done]. cbn in H. injection H as <- <-. eapply ch_link; [exact Hl|done| |done].
    destruct Hlk as [H1 H2 H3 H4 H5]. split; cbn; [|by apply Forall_delete|done|done|].
    + pose proof (length_delete (tasks l) i ltac:(by eexists)). lia.
    + intros Hp. destruct (H5 Hp) as [E5 E6]. by rewrite E5 in Et.
  - destruct (phase_of l) eqn:Ep; try done. destruct (waiting l); [done|]. injection H as <- <-. by apply Hend.
  - injection H as <- <-. by apply Hend.
  - destruct o; try done; injection H as <- <-; by apply ch_none.
Qed.

(** ** The choker's connections are the registered links *)

Context (Hcap : 0 <= cap ∧ cap + MAX_CHARGE <= u64_max).

Definition registered (pk : bytes) (n : Node) : Z := Z.of_nat (tally (serves pk) (links n)).
Definition choker_ok (n : Node) : Prop := ∀ c, node_choker n = Some c → ∃ h, Choke.reachable hash_iter cap c h ∧ ∀ pk, h pk = registered pk n.

Lemma size_of_list (l : list bytes) : (size (list_to_set l : gset bytes) <= length l)%nat.
Proof. induction l as [|x l IH]; cbn [list_to_set length]; [rewrite size_empty; lia|]. rewrite size_union_alt, size_singleton.
  pose proof (subseteq_size ((list_to_set l : gset bytes) ∖ {[x]}) (list_to_set l) ltac:(set_solver)). lia. Qed.

Lemma crowd c h n : Choke.reachable hash_iter cap c h → (∀ pk, h pk = registered pk n) → spacious n → (n_connected (peers c) < MAX_TRACKED_PEERS)%nat.
Proof.
  intros Hr Hh Hs. assert (Hc2 : 0 <= cap <= u64_max) by (unfold MAX_CHARGE in Hcap; lia).
  destruct (reachable_ok hash_iter cap hash_iter_perm Hc2 c h Hr) as [[_ Ht] _].
  set (live := filter (λ x : Z * Link, bool_decide (is_Some (serving x.2)) = true) (links n)).
  pose (pks := (λ x : Z * Link, default [] (serving x.2)) <$> map_to_list live).
  assert (length pks = tally (λ l, bool_decide (is_Some (serving l))) (links n)) as Hlen by (unfold pks; rewrite length_fmap; apply length_map_to_list).
  unfold n_connected. rewrite <- size_dom.
  pose proof (size_of_list pks). pose proof (subseteq_size (dom (filter (λ x : bytes * PeerAccount, 0 < conns x.2) (peers c))) (list_to_set pks)) as Hsub.
  unfold spacious in Hs. rewrite <- Hlen in Hs. enough (dom (filter (λ x : bytes * PeerAccount, 0 < conns x.2) (peers c)) ⊆ (list_to_set pks : gset bytes)) as E by (specialize (Hsub E); lia).
  intros pk (a & Ha)%elem_of_dom. apply map_lookup_filter_Some in Ha as [Ha Hpos]. cbn in Hpos. specialize (Ht pk). rewrite Ha in Ht. destruct Ht as [_ Hc].
  destruct (tally_pos (serves pk) (links n)) as (k & l & Hl & Hp); [rewrite Hh in Hc; unfold registered in Hc; lia|].
  unfold serves in Hp. apply bool_decide_eq_true in Hp. apply elem_of_list_to_set, list_elem_of_fmap. exists (k, l). cbn. rewrite Hp. split; [done|].
  apply elem_of_map_to_list, map_lookup_filter_Some. cbn. split; [done|]. rewrite Hp. by apply bool_decide_eq_true.
Qed.

Lemma choker_tell n n' o at_ : choker_ok n → spacious n → node_choker n' = Choke.run hash_iter o at_ <$> node_choker n →
  (∀ c h, Choke.reachable hash_iter cap c h → (∀ pk, h pk = registered pk n) → admissible cap c h o ∧ ∀ pk, delta o h pk = registered pk n') → choker_ok n'.
Proof.
  intros Hok Hs Hn Hadm c Hc. rewrite Hn in Hc. destruct (node_choker n) as [c0|] eqn:E; [|done]. injection Hc as <-.
  destruct (Hok c0 E) as (h & Hr & Hh). destruct (Hadm c0 h Hr Hh) as [Ha Hd]. exists (delta o h). split; [by constructor|done].
Qed.

Lemma choker_same n n' : choker_ok n → node_choker n' = node_choker n → (∀ pk, registered pk n' = registered pk n) → choker_ok n'.
Proof. intros Hok Hc Hr c E. rewrite Hc in E. destruct (Hok c E) as (h & H1 & H2). exists h. split; [done|]. intros pk. by rewrite Hr. Qed.

Lemma registered_move n n' k l l' pk : links n !! k = Some l → links n' = <[k := l']> (links n) →
  registered pk n' + (if serves pk l then 1 else 0) = registered pk n + (if serves pk l' then 1 else 0).
Proof. intros Hl Hn. unfold registered. rewrite Hn. pose proof (tally_move (serves pk) _ k l l' Hl). destruct (serves pk l), (serves pk l'); lia. Qed.

Lemma serves_new pk h ph p w t : (∀ id, ph ≠ Serving id) → serves pk (mkLink h ph p w t) = false.
Proof. intros H. unfold serves, serving. cbn. destruct ph; try done. by destruct (H identity). Qed.

Lemma end_choker k l at_ n : choker_ok n → spacious n → links n !! k = Some l → choker_ok (end_link k l at_ n).
Proof.
  intros Hok Hs Hl. assert (Hm : ∀ pk, registered pk (end_link k l at_ n) + (if serves pk l then 1 else 0) = registered pk n).
  { intros pk. pose proof (registered_move n (end_link k l at_ n) k l _ pk Hl (end_link_links _ _ _ _)) as H. rewrite serves_new in H by done. lia. }
  unfold serves in Hm. destruct (serving l) as [pk|] eqn:E.
  - apply (choker_tell n _ (NoteDisconnected pk) at_ Hok Hs); [unfold end_link; by rewrite E|]. intros c h Hr Hh.
    pose proof (Hm pk) as Hpk. rewrite bool_decide_eq_true_2 in Hpk by done. assert (0 <= registered pk (end_link k l at_ n)) by (unfold registered; lia).
    split; [split; [by apply (crowd c h n)|rewrite Hh; lia]|]. intros pk'. cbn. specialize (Hm pk'). rewrite Hh.
    destruct (decide (pk' = pk)) as [->|Hne]; [rewrite bool_decide_eq_true_2 in Hm by done|rewrite bool_decide_eq_false_2 in Hm by congruence]; lia.
  - apply (choker_same n); [done|unfold end_link; by rewrite E|]. intros pk'. specialize (Hm pk'). rewrite bool_decide_eq_false_2 in Hm by done. lia.
Qed.

(** A handler's consultations keep the counts. *)
Lemma judged_reachable ctx id c c' h n : (∀ pk, h pk = registered pk n) → spacious n → rtc (judged hash_iter ctx id) c c' →
  Choke.reachable hash_iter cap c h → Choke.reachable hash_iter cap c' h.
Proof.
  intros Hh Hs. induction 1 as [c|c c1 c' (q & fp & Hq & ->) _ IH]; intros Hr; [done|]. apply IH.
  apply (reachable_step hash_iter cap c h (Decide (node_pk id) q fp (foreground ctx)) (now ctx) Hr).
  split; [by apply (crowd c h n)|]. change MAX_CHARGE with 134217728 in *. change u64_max with 18446744073709551615 in *.
  assert (FIRST_PAINT_FREE_BYTES <= 18446744073575333887) by done. split_and!; lia.
Qed.

Lemma quiet_link n k l l' : links n !! k = Some l → serving l' = serving l → ∀ pk, registered pk (set_link k l' n) = registered pk n.
Proof.
  intros Hl Hs pk. pose proof (registered_move n (set_link k l' n) k l l' pk Hl eq_refl) as H. unfold serves in H. rewrite Hs in H. lia.
Qed.

Lemma step_choker ctx env a n n' e : choker_ok n → spacious n → (∀ k l, links n !! k = Some l → link_ok l) →
  node_step ctx env a n = Some (n', e) → choker_ok n'.
Proof.
  intros Hok Hs Hlk H.
  assert (Hset : ∀ k l l', links n !! k = Some l → serving l' = serving l → choker_ok (set_link k l' n)).
  { intros k l l' Hl Hsv. apply (choker_same n); [done|done|]. by apply (quiet_link n k l). }
  assert (Hadd : ∀ k ph p, links n !! k = None → (∀ id, ph ≠ Serving id) → choker_ok (set_link k (mkLink None ph p None []) n)).
  { intros k ph p Hl Hph. apply (choker_same n); [done|done|]. intros pk. unfold registered. cbn. rewrite tally_new by done. rewrite serves_new by done. f_equal. lia. }
  destruct a as [k tcp|k first noise|k first sent at_|k s r|k|k|k i|k at_|k at_|o at_]; cbn [node_step] in H; unfold accept, peek in H.
  1: destruct (decide (links n !! k = None)) as [Hl|]; [|done].
  2-9: destruct (links n !! k) as [l|] eqn:Hl; cbn [mbind option_bind] in H; [|done].
  - destruct tcp; [destruct (_ <? _)%nat|]; injection H as <- <-; auto.
  - destruct (phase_of l) eqn:Ep; try done. assert (serving l = None) as Hsl by (unfold serving; by rewrite Ep).
    destruct noise as [h|]; [case_bool_decide|]; injection H as <- <-; (by apply end_choker) || by eapply Hset.
  - destruct (phase_of l) eqn:Ep; try done. destruct ((hello_gate _ _ _ _ _).1) as [id|]; injection H as <- <-; [|by apply end_choker].
    match goal with |- choker_ok ?m => set (n' := m) end.
    assert (Hm : ∀ pk, registered pk n' = registered pk n + if bool_decide (node_pk id = pk) then 1 else 0).
    { intros pk. pose proof (registered_move n n' k l _ pk Hl eq_refl) as H. unfold serves, serving in H. rewrite Ep in H. cbn in H.
      rewrite (bool_decide_eq_false_2 (None = Some pk)) in H by done.
      assert (bool_decide (Some (node_pk id) = Some pk) = bool_decide (node_pk id = pk)) as Eb by (apply bool_decide_ext; split; congruence). rewrite Eb in H. lia. }
    apply (choker_tell n n' (NoteConnected (node_pk id) (reach_of l)) at_ Hok Hs eq_refl). intros c h Hr Hh. split; [split|].
    + by apply (crowd c h n).
    + cbn. rewrite Hh. assert (tally (serves (node_pk id)) (links n) <= tally (λ l, bool_decide (is_Some (serving l))) (links n))%nat.
      { apply map_subseteq_size. apply map_subseteq_spec. intros k' l' [Hl' Hp]%map_lookup_filter_Some. apply map_lookup_filter_Some. split; [done|]. cbn in *.
        unfold serves in Hp. apply bool_decide_eq_true in Hp. apply bool_decide_eq_true. by eexists. }
      unfold registered, spacious, MAX_TRACKED_PEERS, u32_max in *. lia.
    + intros pk. cbn. rewrite Hm, Hh. destruct (decide (pk = node_pk id)) as [->|Hne]; [by rewrite bool_decide_eq_true_2|rewrite bool_decide_eq_false_2 by congruence; lia].
  - destruct (phase_of l) eqn:Ep; try done. destruct (waiting l); [done|]. destruct (decide _); [|done]. injection H as <- <-. eapply Hset; [exact Hl|]. unfold serving. cbn. by rewrite Ep.
  - destruct (phase_of l) eqn:Ep; try done. destruct (waiting l) as [[s r]|]; [|done]. destruct (_ <? _)%nat; [|done]. injection H as <- <-. eapply Hset; [exact Hl|]. unfold serving. cbn. by rewrite Ep.
  - destruct (phase_of l) eqn:Ep; try done. destruct (waiting l) as [[s r]|]; [|done]. destruct (_ <=? _)%nat; [|done]. injection H as <- <-. eapply Hset; [exact Hl|]. unfold serving. cbn. by rewrite Ep.
  - destruct (tasks l !! i) as [[[id s] r]|] eqn:Et; [|done]. cbn in H. injection H as <- <-.
    assert (req_wf r) as Hwf.
    { destruct (Hlk k l Hl) as [_ H2 _ _ _]. rewrite Forall_forall in H2. destruct (H2 (id, s, r)) as [Hw _]; [by eapply list_elem_of_lookup_2|exact Hw]. }
    intros c' Hc'. cbn in Hc'. pose proof (judges_handle hash_iter ctx id r Hwf (governed_by (node_choker n) env)) as Hj. rewrite Hc' in Hj. cbn in Hj.
    destruct (node_choker n) as [c|] eqn:Ec; [|done]. cbn in Hj. destruct (Hok c Ec) as (h & Hr & Hh). exists h. split; [by eapply judged_reachable|].
    intros pk. rewrite Hh. symmetry. apply (quiet_link n k l _ Hl). done.
  - destruct (phase_of l) eqn:Ep; try done. destruct (waiting l); [done|]. injection H as <- <-. by apply end_choker.
  - injection H as <- <-. by apply end_choker.
  - assert (Ho : match o with NotePeer _ _ | CreditPeer _ _ | SetPaused _ => n' = tell o at_ n | _ => False end) by (destruct o; try done; by injection H as <- <-).
    apply (choker_tell n n' o at_ Hok Hs); [destruct o; try done; by subst|]. intros c h Hr Hh.
    split; [split; [by apply (crowd c h n)|by destruct o]|]. intros pk. destruct o; try done; subst n'; cbn; by rewrite Hh.
Qed.

(** ** Requests are settled in order *)

Definition taken (k : Z) (tr : list event) : list Z := omap (λ e, match e with Taken k' s _ => if decide (k' = k) then Some s else None | _ => None end) tr.
Definition settled (k : Z) (tr : list event) : list Z :=
  omap (λ e, match e with Started k' s _ | Refused k' s _ => if decide (k' = k) then Some s else None | _ => None end) tr.
Definition hand (l : Link) : list Z := match waiting l with Some (s, _) => [s] | None => [] end.
Definition in_hand (n : Node) (k : Z) : list Z := match links n !! k with Some l => hand l | None => [] end.

(** A live link has settled all it took but the request in hand; an ended one
    may have dropped that one. *)
Definition ordered (n : Node) (tr : list event) : Prop := ∀ k,
  taken k tr = settled k tr ++ in_hand n k ∨
  ∃ l s, links n !! k = Some l ∧ phase_of l = Ended ∧ taken k tr = settled k tr ++ [s].

Definition unheard (k : Z) (e : list event) : Prop := taken k e = [] ∧ settled k e = [].

Lemma taken_app k tr e : taken k (tr ++ e) = taken k tr ++ taken k e.
Proof. apply omap_app. Qed.
Lemma settled_app k tr e : settled k (tr ++ e) = settled k tr ++ settled k e.
Proof. apply omap_app. Qed.

Lemma ordered_elsewhere n n' tr e j : ordered n tr → links n' !! j = links n !! j → unheard j e →
  taken j (tr ++ e) = settled j (tr ++ e) ++ in_hand n' j ∨ ∃ l s, links n' !! j = Some l ∧ phase_of l = Ended ∧ taken j (tr ++ e) = settled j (tr ++ e) ++ [s].
Proof. intros Hord Hl [Ht Hs]. rewrite taken_app, settled_app, Ht, Hs, !app_nil_r. unfold in_hand. rewrite Hl. apply Hord. Qed.

(** A link that takes or settles a request settles them in order. *)
Lemma ordered_move n n' tr e k l l' : ordered n tr → links n !! k = Some l → links n' = <[k := l']> (links n) →
  (∀ j, j ≠ k → unheard j e) → hand l ++ taken k e = settled k e ++ hand l' → (phase_of l = Ended → phase_of l' = Ended ∧ unheard k e) → ordered n' (tr ++ e).
Proof.
  intros Hord Hl Hn Ho Hh He j. destruct (decide (j = k)) as [->|Hne].
  - unfold in_hand. rewrite Hn, lookup_insert_eq, taken_app, settled_app. destruct (Hord k) as [E|(l0 & s & Hl0 & Hp & E)].
    + left. rewrite E. unfold in_hand. rewrite Hl, <- !app_assoc. by rewrite Hh.
    + right. assert (l0 = l) as -> by congruence. destruct (He Hp) as (Hp' & -> & ->). exists l', s. by rewrite !app_nil_r.
  - apply (ordered_elsewhere n); [done| |by apply Ho]. rewrite Hn. by rewrite lookup_insert_ne.
Qed.

Lemma ordered_end n n' tr k l l' : ordered n tr → links n !! k = Some l → links n' = <[k := l']> (links n) → phase_of l' = Ended → waiting l' = None → ordered n' (tr ++ []).
Proof.
  intros Hord Hl Hn Hp Hw j. destruct (decide (j = k)) as [->|Hne]; [|by apply (ordered_elsewhere n); [done|rewrite Hn; by rewrite lookup_insert_ne|]].
  unfold in_hand, hand. rewrite Hn, lookup_insert_eq, Hw, app_nil_r. destruct (Hord k) as [E|(l0 & s & _ & _ & E)]; [|right; eauto].
  unfold in_hand, hand in E. rewrite Hl in E. destruct (waiting l) as [[s ?]|]; [right; eauto|by left].
Qed.

Lemma ordered_new n n' tr k l' : ordered n tr → links n !! k = None → links n' = <[k := l']> (links n) → waiting l' = None → ordered n' (tr ++ []).
Proof.
  intros Hord Hl Hn Hw j. destruct (decide (j = k)) as [->|Hne]; [|by apply (ordered_elsewhere n); [done|rewrite Hn; by rewrite lookup_insert_ne|]].
  left. unfold in_hand, hand. rewrite Hn, lookup_insert_eq, Hw, app_nil_r. destruct (Hord k) as [E|(l0 & s & E & _)]; [|congruence].
  unfold in_hand in E. by rewrite Hl in E.
Qed.

Lemma ordered_none n n' tr e : ordered n tr → links n' = links n → (∀ j, unheard j e) → ordered n' (tr ++ e).
Proof. intros Hord Hn He j. apply (ordered_elsewhere n); [done|by rewrite Hn|done]. Qed.

Lemma step_ordered ctx env a n tr n' e : ordered n tr → (∀ k l, links n !! k = Some l → link_ok l) →
  node_step ctx env a n = Some (n', e) → ordered n' (tr ++ e).
Proof.
  intros Hord Hlk H.
  assert (Hend : ∀ k l at_, links n !! k = Some l → ordered (end_link k l at_ n) (tr ++ [])) by (intros; eapply ordered_end; [done|done|apply end_link_links|done|done]).
  assert (Hother : ∀ k s (r : Req) (q : Resp) j, j ≠ k → unheard j [Taken k s r] ∧ unheard j [Started k s r] ∧ unheard j [Refused k s q]).
  { intros k s r q j Hne. unfold unheard, taken, settled. cbn [omap list_omap]. rewrite decide_False by done. done. }
  assert (Hself : ∀ k s (r : Req) (q : Resp), taken k [Taken k s r] = [s] ∧ settled k [Started k s r] = [s] ∧ settled k [Refused k s q] = [s]).
  { intros k s r q. unfold taken, settled. cbn [omap list_omap]. by rewrite decide_True. }
  destruct a as [k tcp|k first noise|k first sent at_|k s r|k|k|k i|k at_|k at_|o at_]; cbn [node_step] in H; unfold accept, peek in H.
  1: destruct (decide (links n !! k = None)) as [Hl|]; [|done].
  2-9: destruct (links n !! k) as [l|] eqn:Hl; cbn [mbind option_bind] in H; [|done]; pose proof (Hlk k l Hl) as Hk.
  - destruct tcp; [destruct (_ <? _)%nat|]; injection H as <- <-; [by eapply ordered_new|by apply (ordered_none n)|by eapply ordered_new].
  - destruct (phase_of l) eqn:Ep; try done. destruct (lo_ungreeted _ Hk (or_introl Ep)) as [_ Ew].
    destruct noise as [h|]; [case_bool_decide|]; injection H as <- <-; [|by apply Hend|by apply Hend].
    eapply ordered_move; [done|exact Hl|done|done|unfold hand; by rewrite Ew|congruence].
  - destruct (phase_of l) eqn:Ep; try done. destruct (lo_ungreeted _ Hk (or_intror Ep)) as [_ Ew].
    destruct ((hello_gate _ _ _ _ _).1) as [id|]; injection H as <- <-; [|by apply Hend].
    eapply ordered_move; [done|exact Hl|done|done|unfold hand; by rewrite Ew|congruence].
  - destruct (phase_of l) eqn:Ep; try done. destruct (waiting l) eqn:Ew; [done|]. destruct (decide _); [|done]. injection H as <- <-.
    eapply ordered_move; [done|exact Hl|done|intros j Hj; by apply (Hother k s r RespOk)| |congruence]. rewrite (proj1 (Hself k s r RespOk)). unfold hand. by rewrite Ew.
  - destruct (phase_of l) eqn:Ep; try done. destruct (waiting l) as [[s r]|] eqn:Ew; [|done]. destruct (_ <? _)%nat; [|done]. injection H as <- <-.
    eapply ordered_move; [done|exact Hl|done|intros j Hj; by apply (Hother k s r RespOk)| |congruence]. rewrite (proj1 (proj2 (Hself k s r RespOk))). unfold hand. by rewrite Ew.
  - destruct (phase_of l) eqn:Ep; try done. destruct (waiting l) as [[s r]|] eqn:Ew; [|done]. destruct (_ <=? _)%nat; [|done]. injection H as <- <-.
    eapply ordered_move; [done|exact Hl|done|intros j Hj; by apply (Hother k s r _ j)| |congruence]. rewrite (proj2 (proj2 (Hself k s r _))). unfold hand. by rewrite Ew.
  - destruct (tasks l !! i) as [[[id s] r]|] eqn:Et; [|done]. cbn in H. injection H as <- <-.
    eapply ordered_move; [done|exact Hl|done|done|unfold hand; cbn; by rewrite app_nil_r|done].
  - destruct (phase_of l) eqn:Ep; try done. destruct (waiting l); [done|]. injection H as <- <-. by apply Hend.
  - injection H as <- <-. by apply Hend.
  - assert (e = [] ∧ links n' = links n) as [-> Hn] by (destruct o; try done; by injection H as <- <-). by apply (ordered_none n).
Qed.

(** ** Every run *)

Record node_ok (n : Node) (tr : list event) : Prop := {
  no_links : ∀ k l, links n !! k = Some l → link_ok l;
  no_permits : (tally permit (links n) <= MAX_INBOUND)%nat;
  no_choker : choker_ok n;
  no_order : ordered n tr
}.

Lemma changes_ok n n' : changes n n' → (∀ k l, links n !! k = Some l → link_ok l) → (tally permit (links n) <= MAX_INBOUND)%nat →
  (∀ k l, links n' !! k = Some l → link_ok l) ∧ (tally permit (links n') <= MAX_INBOUND)%nat.
Proof.
  intros [Hn|k l l' Hl Hn Hok Hp|k l' Hl Hn Hok Hp] Hlk Ht; rewrite Hn; [done|split..|split].
  1,3: intros k' l0 [[<- <-]|[_ ?]]%lookup_insert_Some; [done|by eapply Hlk].
  - pose proof (tally_move permit _ k l l' Hl). destruct (permit l'); [rewrite (Hp eq_refl) in *|]; destruct (permit l); lia.
  - rewrite tally_new by done. destruct (permit l'); [specialize (Hp eq_refl)|]; lia.
Qed.

Lemma run_ok governed n tr : node_run governed n tr → node_ok n tr.
Proof.
  induction 1 as [|n tr ctx env a n' e _ [H1 H2 H3 H4] Hs H].
  - split; cbn; [by intros k l|unfold tally; rewrite map_filter_empty, map_size_empty; lia| |by left].
    intros c Hc. destruct governed; [|done]. injection Hc as <-. exists (λ _, 0). split; [constructor|]. intros pk. unfold registered, tally. cbn.
    by rewrite map_filter_empty, map_size_empty.
  - destruct (changes_ok n n' (step_links _ _ _ _ _ _ H1 H) H1 H2) as [H1' H2']. split; [done|done| |].
    + by apply (step_choker ctx env a n n' e).
    + by apply (step_ordered ctx env a n tr n' e).
Qed.

(** C22: The serve loop and its governor stay in step. Along any run of a node's
    inbound side, with connections accepted, shed, greeted, cancelled at any
    point or lost, handlers ending in any order and the clock doing what it
    likes: the accept loop holds at most 400 connections of its own; a link runs
    at most eight handlers, all of them for an identity its peer proved over that
    link's own channel, and nothing before; its requests are settled in the order
    they were taken, each exactly once, by a handler or a busy reply, save the one
    in hand when it ends; and the choker's connection count of every peer is
    exactly the number of its registered links, so that no cancelled or failed
    connection leaves a phantom competing for upload slots, and the choker is in
    a state its own guarantees cover. *)
Theorem serve_loop_sound governed n tr : node_run governed n tr →
  (tally permit (links n) <= MAX_INBOUND)%nat ∧
  (∀ k l, links n !! k = Some l → (length (tasks l) <= MAX_CONCURRENT_SERVES)%nat ∧
     (∀ id, phase_of l = Serving id ∨ (∃ s r, (id, s, r) ∈ tasks l) → identified id l)) ∧
  (∀ k l, links n !! k = Some l → (∃ rest, taken k tr = settled k tr ++ rest ∧ blen rest <= 1) ∧
     (phase_of l ≠ Ended → taken k tr = settled k tr ++ hand l)) ∧
  (∀ c, node_choker n = Some c → (∀ pk, default 0 (conns <$> peers c !! pk) = registered pk n) ∧
     (size (peers c) <= MAX_TRACKED_PEERS)%nat ∧ 0 <= second_bytes c <= cap).
Proof.
  intros Hrun. destruct (run_ok governed n tr Hrun) as [H1 H2 H3 H4]. split_and!; [done|..].
  - intros k l Hl. destruct (H1 k l Hl) as [L1 L2 _ L4 _]. split; [done|]. intros id [Hp|(s & r & Hin)]; [by apply L4|].
    rewrite Forall_forall in L2. by apply (L2 (id, s, r)).
  - intros k l Hl. assert (Hh : in_hand n k = hand l) by (unfold in_hand; by rewrite Hl). assert (Hlen : blen (hand l) <= 1) by (unfold hand, blen; destruct (waiting l) as [[??]|]; cbn; lia).
    destruct (H4 k) as [E|(l0 & s & Hl0 & He & E)]; rewrite ?Hh in E; [eauto|]. assert (l0 = l) as -> by congruence. split; [exists [s]; split; [done|unfold blen; cbn; lia]|done].
  - intros c Hc. destruct (H3 c Hc) as (h & Hr & Hh). assert (Hc2 : 0 <= cap <= u64_max) by (unfold MAX_CHARGE in Hcap; lia).
    destruct (reachable_ok hash_iter cap hash_iter_perm Hc2 c h Hr) as [[Hs Ht] (_ & _ & Hb)]. split_and!; [|done|apply Hb..].
    intros pk. rewrite <- Hh. specialize (Ht pk). destruct (peers c !! pk); cbn; [by destruct Ht|done].
Qed.
End node.

(** ** An instance *)

#[local] Existing Instance one_object.
#[local] Existing Instance toy_crypto.
#[local] Instance one_object_sizes : BackendSizes ().
Proof. intros id s n c. cbn. intros [= <- <-]. done. Qed.

(** A run played out, each step in a node with room. *)
Definition toy_step : ServeCtx → Env () → node_act → Node → option (Node * list event) := node_step (λ m, map_to_list m) id toy_ctx.
Definition play (a : node_act) (s : Node * list event) : option (Node * list event) :=
  if decide (spacious s.1) then '(n, e) ← toy_step open_ctx (calm None) a s.1; Some (n, s.2 ++ e) else None.

Definition toy_hello : Hello :=
  {| h_net := NET_ID; h_node_pk := toy_pk; h_binding_sig := toy_sig; h_caps := MESH; h_listen := []; h_version := bstr "1" |}.

(** A connection comes in, says hello over its channel, asks for a range and is
    being served, while a second one is refused for its first byte. *)
Definition toy_acts : list node_act :=
  [Accept 1 true; Accept 2 true; Peek 1 (Some EDX_FIRST_BYTE) (Some (repeat x05 32)); Greet 1 (Some (ReqHello toy_hello)) true 5;
   Peek 2 (Some x00) (Some []); Take 1 7 (GetRange (bstr "o") 6 [(0, 6)] 0); StartTask 1].
Definition toy_run : option (Node * list event) := foldl (λ s a, s ≫= play a) (Some (boot 1000 true, [])) toy_acts.

Lemma play_run acts : ∀ n tr n' tr', node_run (λ m, map_to_list m) id 1000 toy_ctx true n tr →
  foldl (λ s a, s ≫= play a) (Some (n, tr)) acts = Some (n', tr') → node_run (λ m, map_to_list m) id 1000 toy_ctx true n' tr'.
Proof.
  assert (foldl (λ s a, s ≫= play a) None acts = None) as Hnone by (induction acts; done). revert Hnone.
  induction acts as [|a acts IH]; intros Hnone n tr n' tr' Hrun; [by intros [= <- <-]|]. cbn [foldl mbind option_bind]. unfold play at 2. cbn [fst snd].
  assert (foldl (λ s a, s ≫= play a) None acts = None) as Hn by done.
  destruct (decide (spacious n)) as [Hs|]; [|by rewrite Hn]. destruct (toy_step open_ctx (calm None) a n) as [[n1 e1]|] eqn:E; cbn [mbind option_bind]; [|by rewrite Hn].
  apply IH; [done|]. by eapply node_next.
Qed.

Definition toy_link : Link :=
  mkLink (Some (repeat x05 32)) (Serving (identity_of toy_ctx toy_pk toy_addr)) true None [(identity_of toy_ctx toy_pk toy_addr, 7, GetRange (bstr "o") 6 [(0, 6)] 0)].

Lemma toy_facts : (s ← toy_run; links s.1 !! 1) = Some toy_link ∧ (s ← toy_run; Some (registered toy_pk s.1)) = Some 1 ∧
  (s ← toy_run; Some (tally permit (links s.1))) = Some 1%nat ∧ (s ← toy_run; Some (bool_decide (is_Some (node_choker s.1)))) = Some true ∧
  (s ← toy_run; Some (taken 1 s.2)) = Some [7].
Proof. vm_compute. auto. Qed.

Lemma serve_loop_sound_witness : ∃ n tr c, toy_run = Some (n, tr) ∧ links n !! 1 = Some toy_link ∧ node_choker n = Some c ∧
  identified (identity_of toy_ctx toy_pk toy_addr) toy_link ∧ default 0 (conns <$> peers c !! toy_pk) = 1 ∧ settled 1 tr = [7].
Proof.
  destruct toy_facts as (Hlink & Hreg & _ & Hsome & Htaken). destruct toy_run as [[n tr]|] eqn:Hr; [|done]. cbn [mbind option_bind fst snd] in Hlink, Hreg, Hsome, Htaken.
  pose proof (play_run toy_acts _ _ n tr (node_boot _ _ _ _ _) Hr) as Hrun.
  destruct (serve_loop_sound (λ m, map_to_list m) ltac:(done) id 1000 toy_ctx ltac:(unfold u64_max; change MAX_CHARGE with 134217728; lia) true n tr Hrun) as (_ & Hl & Ho & Hc).
  destruct (node_choker n) as [c|] eqn:Ec; [|done]. exists n, tr, c. split_and!; [reflexivity|exact Hlink|exact Ec| | |].
  - apply (proj2 (Hl 1 toy_link Hlink)). left. reflexivity.
  - rewrite (proj1 (Hc c eq_refl)). congruence.
  - destruct (Ho 1 toy_link Hlink) as [_ He]. specialize (He ltac:(discriminate)). change (hand toy_link) with (@nil Z) in He. rewrite app_nil_r in He. rewrite <- He. by apply (inj Some).
Defined.
