(* ===== verification/Client.v ===== *)
(** * The EDX client ([crates/epix-edx/src/fetch.rs])

    How replies are taken in: multi-frame bodies and lists put together again
    under the client's own caps, small objects verified and stored as they
    arrive, and the receive buffer of a byte range with its incremental commits.
    A reply stream is the list of frames its channel hands out, in order; the
    end of the list is the end of the stream. *)
From Stdlib Require Import ZArith Lia Strings.Byte.
From stdpp Require Import base list gmap strings.
From S2P Require Import Prelude Ordered Bitfield Peer Wire Conn Handshake Server.
#[local] Open Scope Z_scope.

Definition MAX_LIST_ENTRIES : Z := 100000.
Definition MAX_UPDATE_HINTS : Z := 100000.
Definition MAX_REPLY_FRAMES : Z := 4096.
Definition MAX_SIGNED_BYTES : Z := Z.shiftl 8 20.
Definition FLUSH_BYTES : Z := 256 * 1024.

Section client.
(** [{:?}] of a frame, a response and a duration in milliseconds. *)
Context (debug_body : FrameBody → bytes) (debug_resp : Resp → bytes) (debug_ms : Z → bytes).

Definition proto_err (msg : bytes) : io_error := io_err KInvalidData msg.

Definition remote_err (code : Z) (msg : bytes) : io_error :=
  let k := if code =? NOT_FOUND then KNotFound else if (code =? LIMIT) || (code =? BUSY) then KQuotaExceeded else KOther in
  io_err k (bstr "peer: " ++ dec code ++ bstr " " ++ msg).

Definition busy_err (retry_after_ms : Z) : io_error := {|
  kind := KQuotaExceeded; text := bstr "peer busy, retry after " ++ debug_ms retry_after_ms; retry_after := Some retry_after_ms |}.

(** ** Single replies *)

(** [Conn::request]. *)
Definition request (fs : list FrameBody) : io Resp :=
  match fs with
  | BResp _ resp :: _ => Ok resp
  | other :: _ => Err (io_err KInvalidData (bstr "expected Resp, got " ++ debug_body other))
  | [] => Err closed_err
  end.

Definition expect {A} (want : bytes) (pick : Resp → option A) (fs : list FrameBody) : io A :=
  resp ← request fs;
  match pick resp, resp with
  | Some a, _ => Ok a
  | None, RespErr code msg => Err (remote_err code msg)
  | None, Busy ms => Err (busy_err ms)
  | None, other => Err (proto_err (bstr "expected " ++ want ++ bstr ", got " ++ debug_resp other))
  end.

Definition push_update : list FrameBody → io () := expect (bstr "Ok") (λ r, match r with RespOk => Some () | _ => None end).
Definition fetch_pex : list FrameBody → io (list PeerAddr) := expect (bstr "Peers") (λ r, match r with RespPeers ps => Some ps | _ => None end).
Definition fetch_trackers : list FrameBody → io (list bytes) := expect (bstr "Trackers") (λ r, match r with Trackers ts => Some ts | _ => None end).
(** [kad] and [announce]. *)
Definition fetch_payload : list FrameBody → io bytes := expect (bstr "Payload") (λ r, match r with Payload b => Some b | _ => None end).

Definition fetch_bitfield (fs : list FrameBody) : io (Z * GroupBits.t) :=
  '(size, runs) ← expect (bstr "Bitfield") (λ r, match r with RespBitfield size runs => Some (size, runs) | _ => None end) fs;
  match GroupBits.from_wire runs with
  | Some b => Ok (size, b)
  | None => Err (proto_err (bstr "malformed bitfield runs"))
  end.

Definition mask_bit (bits : bytes) (i : nat) : bool :=
  match bits !! (i / 8)%nat with
  | Some b => negb (Z.land (byte_val b) (Z.shiftl 1 (Z.of_nat i mod 8)) =? 0)
  | None => false
  end.
Definition fetch_has_shards (addrs : list ObjId) (fs : list FrameBody) : io (list bool) :=
  bits ← expect (bstr "ShardMask") (λ r, match r with ShardMask bits => Some bits | _ => None end) fs;
  Ok (map (mask_bit bits) (seq 0 (length addrs))).

(** ** Replies in several frames *)

(** The loop the multi-frame decoders share: [pick] is the response they want,
    and the result carries the terminal one. *)
Fixpoint drain {A} (want closed : bytes) (limit : Z) (pick : Resp → option (list A)) (frames : Z) (out : list A) (fs : list FrameBody)
  : io (list A * Resp) :=
  match fs with
  | [] => Err (io_err KBrokenPipe closed)
  | BResp last resp :: fs =>
    match pick resp, resp with
    | Some items, _ =>
      let frames := frames + 1 in
      if (MAX_REPLY_FRAMES <? frames) || (limit <? blen out + blen items) then Err (proto_err (bstr "oversize " ++ want ++ bstr " reply"))
      else if last then Ok (out ++ items, resp) else drain want closed limit pick frames (out ++ items) fs
    | None, RespErr code msg => Err (remote_err code msg)
    | None, Busy ms => Err (busy_err ms)
    | None, other => Err (proto_err (bstr "expected " ++ want ++ bstr ", got " ++ debug_body (BResp last other)))
    end
  | other :: _ => Err (proto_err (bstr "expected " ++ want ++ bstr ", got " ++ debug_body other))
  end.

Definition pick_signed (r : Resp) : option bytes := match r with Signed b => Some b | _ => None end.
Definition fetch_signed (fs : list FrameBody) : io bytes :=
  '(out, _) ← drain (bstr "Signed") (bstr "connection closed mid-signed") MAX_SIGNED_BYTES pick_signed 0 [] fs; Ok out.

Definition pick_entries (r : Resp) : option (list SignedEntry) := match r with SignedList es => Some es | _ => None end.
Definition fetch_signed_list (fs : list FrameBody) : io (list SignedEntry) :=
  '(out, _) ← drain (bstr "SignedList") (bstr "connection closed mid-list") MAX_LIST_ENTRIES pick_entries 0 [] fs; Ok out.

Definition pick_updates (r : Resp) : option (list (bytes * Z)) := match r with Updates us _ => Some us | _ => None end.
(** The cursor comes from the terminal frame. *)
Definition updates_since (fs : list FrameBody) : io (list (bytes * Z) * Z) :=
  '(out, resp) ← drain (bstr "Updates") (bstr "connection closed mid-poll") MAX_UPDATE_HINTS pick_updates 0 [] fs;
  Ok (out, match resp with Updates _ head => head | _ => 0 end).
End client.

(** ** Taking a batched reply *)

Section drain.
Context {A : Type} (debug_body : FrameBody → bytes) (debug_ms : Z → bytes) (want closed : bytes) (limit : Z) (pick : Resp → option (list A)) (mk : bool → list A → Resp).
Context (Hpick : ∀ l xs, pick (mk l xs) = Some xs).
Notation drains := (drain debug_body debug_ms want closed limit pick).
Notation more := (map (λ b, BResp false (mk false b))).

(** Of some non-terminal batches, and then nothing or the terminal one, cut
    anywhere, only the whole is ever accepted. *)
Lemma drain_prefix fl tl : ∀ n acc fs x, fs `prefix_of` more fl ++ tl → drains n acc fs = Ok x →
  tl ≠ [] ∧ ∀ last, tl = [BResp true (mk true last)] → x = (acc ++ concat fl ++ last, mk true last).
Proof.
  induction fl as [|b fl IH]; intros n acc fs x [r Hr] H.
  - destruct fs as [|f fs]; [done|]. cbn in Hr. split; [by intros ->|]. intros last ->. injection Hr as <- Hr.
    cbn [drain] in H. rewrite Hpick in H. destruct (_ || _); [done|]. cbn. by apply Ok_inj in H as <-.
  - destruct fs as [|f fs]; [done|]. injection Hr as <- Hr. cbn [drain] in H. rewrite Hpick in H. destruct (_ || _); [done|].
    destruct (IH (n + 1) (acc ++ b) fs x) as [Hne Hl]; [by exists r|done|]. split; [done|]. intros last Hlast. rewrite (Hl last Hlast).
    cbn [concat]. by rewrite <- !app_assoc.
Qed.

Lemma drain_whole fl last : ∀ n acc, n + blen fl < MAX_REPLY_FRAMES → blen (acc ++ concat fl ++ last) <= limit →
  drains n acc (more fl ++ [BResp true (mk true last)]) = Ok (acc ++ concat fl ++ last, mk true last).
Proof.
  induction fl as [|b fl IH]; intros n acc Hn Hl; cbn [map app concat drain]; rewrite Hpick.
  - change (blen (@nil (list A))) with 0 in Hn. cbn [concat app] in Hl. rewrite blen_app in Hl.
    rewrite (proj2 (orb_false_iff _ _)) by (split; apply Z.ltb_ge; lia). done.
  - rewrite blen_cons in Hn. cbn [concat] in Hl. rewrite !blen_app in Hl. pose proof (blen_nonneg fl). pose proof (blen_nonneg (concat fl)). pose proof (blen_nonneg last).
    rewrite (proj2 (orb_false_iff _ _)) by (split; apply Z.ltb_ge; lia).
    rewrite IH; [by rewrite <- !app_assoc|lia|rewrite !blen_app; lia].
Qed.

(** Whatever comes, what is kept is bounded, and no frame past the cap is ever
    looked at. *)
Lemma drain_bounded fs : ∀ n acc x, blen acc <= limit → drains n acc fs = Ok x → blen x.1 <= limit.
Proof.
  induction fs as [|f fs IH]; intros n acc x Ha H; [done|]. cbn [drain] in H. destruct f as [|last r| | | |]; try done.
  destruct (pick r) as [items|]; [|by destruct r]. destruct (_ || _) eqn:E; [done|]. apply orb_false_iff in E as [_ E%Z.ltb_ge].
  rewrite <- blen_app in E. destruct last; [by apply Ok_inj in H as <-|by eapply IH].
Qed.

Lemma drain_frames k fs fs' : ∀ n acc, MAX_REPLY_FRAMES < n + Z.of_nat k → take k fs = take k fs' → drains n acc fs = drains n acc fs' ∨ n > MAX_REPLY_FRAMES.
Proof.
  revert fs fs'. induction k as [|k IH]; intros fs fs' n acc Hn Heq; [lia|].
  destruct fs as [|f fs], fs' as [|f' fs']; try done; [by left|]. injection Heq as <- Heq.
  cbn [drain]. destruct f as [|last r| | | |]; try by left. destruct (pick r) as [items|]; [|by left].
  destruct (Z.ltb_spec MAX_REPLY_FRAMES (n + 1)) as [|Hle]; cbn; [by left|]. destruct (_ <? _); [by left|]. destruct last; [by left|].
  destruct (IH fs fs' (n + 1) (acc ++ items)) as [H|H]; [lia|done|by left|lia].
Qed.
End drain.

Lemma drain_batched {A} debug_body debug_ms want closed limit pick mk cost (items : list A) (out : list Out) (C : Prop) fs x :
  (∀ l xs, pick (mk l xs) = Some xs) → batched mk cost items out C → fs `prefix_of` map snd out →
  drain debug_body debug_ms want closed limit pick 0 [] fs = Ok x → x.1 = items ∧ ∃ last, x.2 = mk true last.
Proof.
  intros Hpick (fl & _ & Hcase) Hfs H.
  assert (Hm : map snd (map (λ b : list A, (Priority, BResp false (mk false b))) fl) = map (λ b, BResp false (mk false b)) fl) by by rewrite map_map.
  destruct Hcase as [[-> _]|(last & _ & Hcat & ->)]; rewrite ?map_app, Hm in Hfs.
  - rewrite <- (app_nil_r (map _ fl)) in Hfs. by destruct (drain_prefix _ _ _ _ _ _ mk Hpick fl [] _ _ _ _ Hfs H) as [[] _].
  - destruct (drain_prefix _ _ _ _ _ _ mk Hpick fl _ _ _ _ _ Hfs H) as [_ Hl]. rewrite (Hl last eq_refl). cbn. rewrite Hcat. eauto.
Qed.

Lemma drain_complete {A} debug_body debug_ms want closed limit pick mk cost (items : list A) (out : list Out) (C : Prop) :
  (∀ l xs, pick (mk l xs) = Some xs) → batched mk cost items out C → C → blen out <= MAX_REPLY_FRAMES → blen items <= limit →
  ∃ last, drain debug_body debug_ms want closed limit pick 0 [] (map snd out) = Ok (items, mk true last).
Proof.
  intros Hpick (fl & _ & [[_ Hn]|(last & _ & <- & ->)]) HC Hn' Hl; [done|]. exists last. rewrite map_app, map_map. cbn [map snd].
  apply (drain_whole _ _ _ _ _ _ mk Hpick fl last 0 []); [|done]. rewrite blen_app in Hn'. unfold blen in *. rewrite length_map in Hn'. cbn in Hn'. lia.
Qed.

(** A signed body takes a frame per budget's worth. *)
Lemma signed_frames {S} fuel : ∀ b (e : Env S), ∃ out, log (serve_signed_loop fuel b e).2 = log e ++ out ∧ blen out <= 1 + blen b / BATCH_BUDGET.
Proof.
  assert (Hdiv : ∀ b : bytes, 0 <= blen b / BATCH_BUDGET) by (intros b; apply Z.div_pos; [apply blen_nonneg|done]).
  assert (Hr : ∀ b (e : Env S), ∃ out, log (respond (Signed b) e).2 = log e ++ out ∧ blen out <= 1 + blen b / BATCH_BUDGET).
  { intros b e. specialize (Hdiv b). destruct (respond_cases (Signed b) e) as [->|[-> _]];
      [eexists; split; [done|change (1 <= 1 + blen b / BATCH_BUDGET)]|exists []; rewrite app_nil_r; split; [done|change (0 <= 1 + blen b / BATCH_BUDGET)]]; lia. }
  assert (Hn : ∀ (b : bytes) (e e' : Env S), log e' = log e → ∃ out, log e' = log e ++ out ∧ blen out <= 1 + blen b / BATCH_BUDGET).
  { intros b e e' ->. exists []. rewrite app_nil_r. split; [done|]. specialize (Hdiv b). change (0 <= 1 + blen b / BATCH_BUDGET). lia. }
  induction fuel as [|fuel IH]; intros b e; cbn [serve_signed_loop]; destruct (Z.ltb_spec BATCH_BUDGET (blen b)) as [Hlt|]; auto.
  unfold mbind, srv_bind. cbn [take_cancelled]. destruct (default false (head (cancels e))); [by apply Hn|].
  set (e1 := mkEnv _ _ _ _ _ _ _ _). set (c := take _ b).
  destruct (put_cases Priority (BResp false (Signed c)) e1) as [[Hk Hl]|[Hk Hl]]; destruct (put _ _ e1) as [[[]|y] e2]; try done; cbn in Hl; [|by apply Hn].
  destruct (IH (drop (Z.to_nat BATCH_BUDGET) b) e2) as (out & -> & Hout). rewrite Hl, <- app_assoc. eexists. split; [reflexivity|].
  cbn. rewrite blen_cons. assert (blen (drop (Z.to_nat BATCH_BUDGET) b) = blen b + (-1) * BATCH_BUDGET) as E.
  { unfold blen in *. rewrite length_drop. unfold BATCH_BUDGET, MAX_FRAME_LEN in *. lia. }
  rewrite E, Z.div_add in Hout by done. lia.
Qed.

Section exact.
Context {S : Type} (debug_body : FrameBody → bytes) (debug_ms : Z → bytes).
Notation get_body := (fetch_signed debug_body debug_ms).
Notation get_list := (fetch_signed_list debug_body debug_ms).
Notation get_updates := (updates_since debug_body debug_ms).

(** C23: What the client accepts is what the server had. Server and client, end to
    end over any part of the stream that got through: a signed body, a signed
    list and an update poll either come out exactly as they were, with the
    cursor the server gave, or as an error; a reply cut short by a cancel, a
    failed send or a lost connection, at any frame, is never taken for the whole,
    so the cursor never moves past a hint that was not received. And when
    nothing fails and the reply is within the client's caps, it is accepted:
    always, for a body up to 8 MiB. *)
Theorem replies_exact (e : Env S) :
  (∀ b, ∃ out, log (serve_signed b e).2 = log e ++ out ∧
    (∀ fs got, fs `prefix_of` map snd out → get_body fs = Ok got → got = b) ∧
    (quiet e → blen b <= MAX_SIGNED_BYTES → get_body (map snd out) = Ok b)) ∧
  (∀ entries, ∃ out, log (serve_signed_list entries e).2 = log e ++ out ∧
    (∀ fs got, fs `prefix_of` map snd out → get_list fs = Ok got → got = entries) ∧
    (quiet e → blen out <= MAX_REPLY_FRAMES → blen entries <= MAX_LIST_ENTRIES → get_list (map snd out) = Ok entries)) ∧
  (∀ updates head, ∃ out, log (serve_updates updates head e).2 = log e ++ out ∧
    (∀ fs got, fs `prefix_of` map snd out → get_updates fs = Ok got → got = (updates, head)) ∧
    (quiet e → blen out <= MAX_REPLY_FRAMES → blen updates <= MAX_UPDATE_HINTS → get_updates (map snd out) = Ok (updates, head))).
Proof.
  split_and!.
  - intros b. destruct (signed_loop_spec (length b) b e ltac:(done)) as (out & L & Hb). exists out. split_and!; [done| |].
    + intros fs got Hfs H. unfold fetch_signed in H. destruct (drain _ _ _ _ _ _ 0 [] fs) as [[o r]|] eqn:E; [|done]. apply Ok_inj in H as <-.
      by destruct (drain_batched _ _ _ _ _ _ _ _ _ _ _ _ _ (λ _ _, eq_refl) Hb Hfs E) as [? _].
    + intros Hq Hl. destruct (signed_frames (length b) b e) as (out' & L' & Hn). unfold serve_signed in L. rewrite L in L'. apply app_inv_head in L' as <-.
      assert (blen out <= MAX_REPLY_FRAMES).
      { pose proof (Z.div_le_mono (blen b) MAX_SIGNED_BYTES BATCH_BUDGET ltac:(done) Hl) as Hd. change (MAX_SIGNED_BYTES / BATCH_BUDGET) with 136 in Hd. unfold MAX_REPLY_FRAMES. lia. }
      unfold fetch_signed. by destruct (drain_complete debug_body debug_ms (bstr "Signed") (bstr "connection closed mid-signed") MAX_SIGNED_BYTES pick_signed (λ _, Signed) _ _ _ _ (λ _ _, eq_refl) Hb Hq H Hl) as [last ->].
  - intros es. destruct (batch_loop_spec (S := S) (λ _, SignedList) signed_entry_cost es e) as (out & L & Hb). exists out. split_and!; [exact L| |].
    + intros fs got Hfs H. unfold fetch_signed_list in H. destruct (drain _ _ _ _ _ _ 0 [] fs) as [[o r]|] eqn:E; [|done]. apply Ok_inj in H as <-.
      by destruct (drain_batched _ _ _ _ _ _ _ _ _ _ _ _ _ (λ _ _, eq_refl) Hb Hfs E) as [? _].
    + intros Hq Hn Hl. unfold fetch_signed_list. by destruct (drain_complete debug_body debug_ms (bstr "SignedList") (bstr "connection closed mid-list") MAX_LIST_ENTRIES pick_entries (λ _, SignedList) _ _ _ _ (λ _ _, eq_refl) Hb Hq Hn Hl) as [last ->].
  - intros us h. destruct (batch_loop_spec (S := S) (λ last us, Updates us (if last : bool then h else 0)) update_cost us e) as (out & L & Hb). exists out. split_and!; [exact L| |].
    + intros fs got Hfs H. unfold updates_since in H. destruct (drain _ _ _ _ _ _ 0 [] fs) as [[o r]|] eqn:E; [|done]. apply Ok_inj in H as <-.
      destruct (drain_batched _ _ _ _ _ _ _ _ _ _ _ _ _ (λ _ _, eq_refl) Hb Hfs E) as [Hx [last Hr]]. cbn in *. by rewrite Hx, Hr.
    + intros Hq Hn Hl. unfold updates_since. by destruct (drain_complete debug_body debug_ms (bstr "Updates") (bstr "connection closed mid-poll") MAX_UPDATE_HINTS pick_updates (λ last us, Updates us (if last : bool then h else 0)) _ _ _ _ (λ _ _, eq_refl) Hb Hq Hn Hl) as [last ->].
Qed.
End exact.

(** ** Small objects *)

(** The client's store: [insert_bytes] in the plain namespace, and
    [write_slice_partial], which answers the payload bytes it holds verified. *)
Class ObjectSink (S : Type) := {
  os_insert : ObjId → bytes → Z → S → io () * S;
  os_write_partial : ObjId → list ByteRange → bytes → Z → S → io Z * S
}.

Section many.
Context {S : Type} `{K : ObjectSink S}.
Context (debug_body : FrameBody → bytes) (debug_ms : Z → bytes).

Definition over_budget : io_error := proto_err (bstr "peer sent more GetMany bytes than the request implies").

(** One frame's items: the bytes received so far, and the ids landed, in order,
    which the caller is told as they land. *)
Fixpoint store_many_items (want : list ObjId) (items : list (ObjId * bytes)) (now received cap : Z) (landed : list ObjId) (s : S)
  : io Z * list ObjId * S :=
  match items with
  | [] => (Ok received, landed, s)
  | (id, b) :: items =>
    let received := wrap64 (received + blen b) in
    if cap <? received then (Err over_budget, landed, s)
    else if bool_decide (id ∈ want) then
      let '(r, s) := os_insert id b now s in
      store_many_items want items now received cap (if is_ok r then landed ++ [id] else landed) s
    else store_many_items want items now received cap landed s
  end.

Definition stray (b : FrameBody) : io_error :=
  match b with
  | BResp _ (RespErr code msg) => remote_err code msg
  | BResp _ (Busy ms) => busy_err debug_ms ms
  | other => proto_err (bstr "unexpected frame " ++ debug_body other)
  end.

Fixpoint fetch_many_loop (objs : list ObjId) (now frames received cap : Z) (landed : list ObjId) (s : S) (fs : list FrameBody)
  : io () * list ObjId * S :=
  match fs with
  | [] => (Err (io_err KBrokenPipe (bstr "connection closed mid-batch")), landed, s)
  | BResp last (Many items) :: fs =>
    let frames := frames + 1 in
    if MAX_REPLY_FRAMES <? frames then (Err (proto_err (bstr "peer sent more GetMany frames than the request implies")), landed, s) else
    match store_many_items objs items now received cap landed s with
    | (Err e, landed, s) => (Err e, landed, s)
    | (Ok received, landed, s) => if last : bool then (Ok (), landed, s) else fetch_many_loop objs now frames received cap landed s fs
    end
  | other :: _ => (Err (stray other), landed, s)
  end.

(** The number inserted and the ids that did not come; what landed is reported
    either way, and [true] says that a cancel goes out. *)
Definition fetch_many (objs : list ObjId) (now : Z) (s : S) (fs : list FrameBody) : io (Z * list ObjId) * list ObjId * bool * S :=
  let cap := wrap64 (blen objs * MAX_MANY_ITEM_BYTES) in
  match fetch_many_loop objs now 0 0 cap [] s fs with
  | (Ok _, landed, s) => (Ok (blen landed, List.filter (λ o, negb (bool_decide (o ∈ landed))) objs), landed, false, s)
  | (Err e, landed, s) => (Err e, landed, true, s)
  end.

(** Some insertion of a wanted object succeeded. *)
Definition verified_in (now : Z) (id : ObjId) : Prop := ∃ b s, (os_insert id b now s).1 = Ok ().

(** The store moves only by insertions of wanted objects, of [n] bytes in all
    at most. *)
Inductive inserts (want : list ObjId) (now : Z) : Z → S → S → Prop :=
  | inserts_nil n s : 0 <= n → inserts want now n s s
  | inserts_cons n id b s s' : id ∈ want → blen b <= n → inserts want now (n - blen b) (os_insert id b now s).2 s' → inserts want now n s s'.

Lemma inserts_mono want now n m s s' : inserts want now n s s' → n <= m → inserts want now m s s'.
Proof. intros H. revert m. induction H as [n s Hn|n id b s s' Hid Hb _ IH]; intros m Hm; [constructor; lia|]. apply (inserts_cons _ _ _ id b); [done|lia|]. apply IH. lia. Qed.
Lemma inserts_app want now n m s1 s2 s3 : inserts want now n s1 s2 → inserts want now m s2 s3 → 0 <= m → inserts want now (n + m) s1 s3.
Proof.
  induction 1 as [n s Hn|n id b s s' Hid Hb _ IH]; intros H Hm; [apply (inserts_mono _ _ m); [done|lia]|].
  apply (inserts_cons _ _ _ id b); [done|lia|]. replace (n + m - blen b) with (n - blen b + m) by lia. auto.
Qed.

Definition small_items (items : list (ObjId * bytes)) : Prop := Forall (λ i : ObjId * bytes, blen i.2 <= FRAME_HARD_CAP) items.

Lemma store_items_spec want now cap items : ∀ received landed s, 0 <= received <= cap → cap + FRAME_HARD_CAP <= u64_max → small_items items →
  let '(r, landed', s') := store_many_items want items now received cap landed s in
  ∃ n, 0 <= n ∧ received + n <= cap ∧ inserts want now n s s' ∧
    (∃ more, landed' = landed ++ more ∧ Forall (λ id, id ∈ want ∧ verified_in now id) more) ∧
    ∀ got, r = Ok got → received + n <= got <= cap.
Proof.
  induction items as [|[id b] items IH]; intros received landed s Hr Hcap Hs; cbn [store_many_items].
  { exists 0. split_and!; try lia; [by constructor|exists []; by rewrite app_nil_r|]. intros ? [= <-]. lia. }
  apply Forall_cons in Hs as [Hb Hs]. cbn in Hb. pose proof (blen_nonneg b). unfold wrap64. rewrite Z.mod_small by (unfold u64_max in *; lia).
  destruct (Z.ltb_spec cap (received + blen b)) as [|Hle].
  { exists 0. split_and!; try lia; [by constructor|exists []; by rewrite app_nil_r|done]. }
  case_bool_decide as Hw; [destruct (os_insert id b now s) as [r1 s1] eqn:E|].
  - pose proof (IH (received + blen b) (if is_ok r1 then landed ++ [id] else landed) s1 ltac:(lia) Hcap Hs) as H1.
    destruct (store_many_items _ _ _ _ _ _ s1) as [[r l'] s'] eqn:E1. destruct H1 as (n & H0 & Hn & Hi & (more & -> & Hm) & Hg).
    exists (blen b + n). split_and!; try lia.
    + apply (inserts_cons _ _ _ id b); [done| |rewrite E]; [lia|]. by replace (blen b + n - blen b) with n by lia.
    + destruct r1 as [[]|x]; cbn; [|by exists more]. exists (id :: more). rewrite <- app_assoc. split; [done|]. constructor; [|done].
      split; [done|]. exists b, s. by rewrite E.
    + intros got Hgot. specialize (Hg got Hgot). lia.
  - pose proof (IH (received + blen b) landed s ltac:(lia) Hcap Hs) as H1.
    destruct (store_many_items _ _ _ _ _ _ s) as [[r l'] s'] eqn:E1. destruct H1 as (n & H0 & Hn & Hi & Hmore & Hg).
    exists n. split_and!; try done; try lia. intros got Hgot. specialize (Hg got Hgot). lia.
Qed.

Definition small_frame (b : FrameBody) : Prop := match b with BResp _ (Many items) => small_items items | _ => True end.

Lemma many_loop_spec objs now cap fs : ∀ frames received landed s, 0 <= received <= cap → cap + FRAME_HARD_CAP <= u64_max → Forall small_frame fs →
  let '(r, landed', s') := fetch_many_loop objs now frames received cap landed s fs in
  ∃ n, 0 <= n ∧ received + n <= cap ∧ inserts objs now n s s' ∧ ∃ more, landed' = landed ++ more ∧ Forall (λ id, id ∈ objs ∧ verified_in now id) more.
Proof.
  induction fs as [|f fs IH]; intros frames received landed s Hr Hcap Hs.
  { exists 0. split_and!; try lia; [by constructor|]. exists []. by rewrite app_nil_r. }
  apply Forall_cons in Hs as [Hf Hs]. cbn [fetch_many_loop].
  assert (Hstop : ∃ n, 0 <= n ∧ received + n <= cap ∧ inserts objs now n s s ∧ ∃ more, landed = landed ++ more ∧ Forall (λ id, id ∈ objs ∧ verified_in now id) more).
  { exists 0. split_and!; try lia; [by constructor|]. exists []. by rewrite app_nil_r. }
  destruct f as [|last []| | | |]; try exact Hstop. destruct (_ <? _); [exact Hstop|].
  pose proof (store_items_spec objs now cap items received landed s Hr Hcap Hf) as H1.
  destruct (store_many_items _ _ _ _ _ _ s) as [[[got|e] l1] s1]; destruct H1 as (n & H0 & Hn & Hi & (more & -> & Hm) & Hg).
  2: { exists n. split_and!; eauto. }
  specialize (Hg got eq_refl). destruct last; [exists n; split_and!; eauto|].
  pose proof (IH (frames + 1) got (landed ++ more) s1 ltac:(lia) Hcap Hs) as H2.
  destruct (fetch_many_loop _ _ _ _ _ _ s1 fs) as [[r l2] s2]. destruct H2 as (m & H3 & Hm2 & Hi2 & (more2 & -> & Hm3)).
  exists (n + m). split_and!; try lia; [by eapply inserts_app|]. exists (more ++ more2). rewrite app_assoc. split; [done|]. by apply Forall_app.
Qed.

(** The loop looks at one frame past the cap and no further. *)
Lemma many_loop_frames objs now cap k : ∀ fs fs' frames received landed s, take (Datatypes.S k) fs = take (Datatypes.S k) fs' → MAX_REPLY_FRAMES <= frames + Z.of_nat k →
  fetch_many_loop objs now frames received cap landed s fs = fetch_many_loop objs now frames received cap landed s fs'.
Proof.
  induction k as [|k IH]; intros [|f fs] [|f' fs'] frames received landed s Heq Hk; try done.
  - injection Heq as <-. cbn [fetch_many_loop]. destruct f as [|last []| | | |]; try done. rewrite (proj2 (Z.ltb_lt _ _)); [done|lia].
  - injection Heq as <- Heq. cbn [fetch_many_loop]. destruct f as [|last []| | | |]; try done. destruct (_ <? _); [done|].
    destruct (store_many_items _ _ _ _ _ _ s) as [[[got|e] l1] s1]; [|done]. destruct last; [done|]. apply IH; [done|lia].
Qed.

End many.

(** ** Byte ranges *)

(** The receive buffer: [pending] is the commit in flight, with what it will
    answer; [finished], in the steps below, says whether it has. *)
Record SliceSink := mkSink { buf : bytes; flushed : Z; pending : option (io Z) }.

(** What a frame's wait may give; the end of the list is the end of the
    stream. *)
Inductive arrival := Got (b : FrameBody) (finished : bool) | Silence.

Section ranges.
Context {S : Type} `{K : ObjectSink S}.
Context (debug_body : FrameBody → bytes) (debug_ms : Z → bytes).
Context (obj : ObjId) (ranges : list ByteRange) (now : Z).

Definition commit (b : bytes) (s : S) : io Z * S := os_write_partial obj ranges b now s.

(** [spawn_flush]. *)
Definition spawn_flush (terminal : bool) (k : SliceSink) (s : S) : io Z * SliceSink * S :=
  let '(r, s) := commit (buf k) s in
  (match r with
   | Err e => if negb terminal && bool_decide (kind e = KUnexpectedEof) then Ok 0 else Err e
   | Ok held => Ok held
   end, mkSink (buf k) (blen (buf k)) (pending k), s).

Definition reap (wait finished : bool) (k : SliceSink) : io () * SliceSink :=
  match pending k with
  | None => (Ok (), k)
  | Some r => if wait || finished then (match r with Ok _ => Ok () | Err e => Err e end, mkSink (buf k) (flushed k) None) else (Ok (), k)
  end.

Definition absorb (last : bool) (b : bytes) (cap : Z) (finished : bool) (k : SliceSink) (s : S) : io bool * SliceSink * S :=
  if bool_decide (b = []) && negb last then (Err (proto_err (bstr "peer sent an empty non-terminal data frame")), k, s)
  else if cap <? blen (buf k) + blen b then (Err (proto_err (bstr "peer sent more slice bytes than the request implies")), k, s)
  else
    let k := mkSink (buf k ++ b) (flushed k) (pending k) in
    if last then (Ok true, k, s) else
    match reap false finished k with
    | (Err e, k) => (Err e, k, s)
    | (Ok _, k) =>
      if bool_decide (pending k = None) && (FLUSH_BYTES <=? blen (buf k) - flushed k)
      then let '(r, k, s) := spawn_flush false k s in (Ok false, mkSink (buf k) (flushed k) (Some r), s)
      else (Ok false, k, s)
    end.

Fixpoint range_loop (cap : Z) (k : SliceSink) (s : S) (evs : list arrival) : io () * SliceSink * S :=
  match evs with
  | [] => (Err (io_err KBrokenPipe (bstr "connection closed mid-slice")), k, s)
  | Silence :: _ => (Err (io_err KTimedOut (bstr "peer stalled mid-slice")), k, s)
  | Got (BData last b) finished :: evs =>
    match absorb last b cap finished k s with
    | (Err e, k, s) => (Err e, k, s)
    | (Ok true, k, s) => (Ok (), k, s)
    | (Ok false, k, s) => range_loop cap k s evs
    end
  | Got other _ :: _ => (Err (stray debug_body debug_ms other), k, s)
  end.

Definition range_cap : Z :=
  let requested := foldl (λ n (r : ByteRange), wrap64 (n + wrap64 (r.2 - r.1))) 0 ranges in
  Z.min (wrap64 (wrap64 (requested + requested / 50) + Z.shiftl 1 20)) (MAX_BYTES_PER_REQ * 2).

(** [RangeGuard]: a fetch that ends early cancels the stream and commits what it
    had not committed. *)
Definition salvage (k : SliceSink) (s : S) : S := if flushed k <? blen (buf k) then (commit (buf k) s).2 else s.

(** The result, whether a cancel goes out, and the final buffer and store. *)
Definition fetch_ranges (evs : list arrival) (s : S) : io Z * bool * SliceSink * S :=
  match range_loop range_cap (mkSink [] 0 None) s evs with
  | (Err e, k, s) => (Err e, true, k, salvage k s)
  | (Ok _, k, s) =>
    match reap true true k with
    | (Err e, k) => (Err e, false, k, s)
    | (Ok _, k) => let '(r, k, s) := spawn_flush true k s in (r, false, k, s)
    end
  end.

(** *** What is committed *)

Definition commit_all (bufs : list bytes) (s : S) : S := foldl (λ s b, (commit b s).2) s bufs.

(** The data received: the payloads of the leading data frames. *)
Fixpoint received (evs : list arrival) : bytes :=
  match evs with Got (BData last b) _ :: evs => b ++ (if last : bool then [] else received evs) | _ => [] end.

(** A sink that has committed [bufs], prefixes of its buffer, the last of them
    of [flushed] bytes. *)
Record sink_ok (cap : Z) (bufs : list bytes) (k : SliceSink) : Prop := {
  k_cap : blen (buf k) <= cap;
  k_prefix : Forall (λ b, b `prefix_of` buf k) bufs;
  k_last : flushed k = default 0 (blen <$> last bufs) ∧ flushed k <= blen (buf k)
}.

Lemma sink_grow cap bufs k b : sink_ok cap bufs k → blen (buf k) + blen b <= cap → sink_ok cap bufs (mkSink (buf k ++ b) (flushed k) (pending k)).
Proof.
  intros [Hc Hp [Hl Hle]] Hb. split; cbn; [by rewrite blen_app| |split; [done|rewrite blen_app; pose proof (blen_nonneg b); lia]].
  eapply Forall_impl; [exact Hp|]. intros x Hx. by apply prefix_app_r.
Qed.
Lemma sink_reap cap bufs k w f : sink_ok cap bufs k → sink_ok cap bufs (reap w f k).2.
Proof. intros [Hc Hp Hl]. unfold reap. destruct (pending k); [destruct (_ || _)|]; by split. Qed.
Lemma sink_flush cap bufs k t s : sink_ok cap bufs k →
  let '(r, k', s') := spawn_flush t k s in sink_ok cap (bufs ++ [buf k]) k' ∧ s' = (commit (buf k) s).2 ∧ buf k' = buf k ∧ flushed k' = blen (buf k').
Proof.
  intros [Hc Hp Hl]. unfold spawn_flush. destruct (commit (buf k) s) as [r s']. split_and!; try done. split; [done| |].
  - apply Forall_app; split; [done|]. by apply Forall_singleton.
  - rewrite last_snoc. cbn. split; [done|lia].
Qed.

Lemma absorb_spec cap bufs last b finished k s : sink_ok cap bufs k →
  let '(r, k', s') := absorb last b cap finished k s in
  ∃ more, sink_ok cap (bufs ++ more) k' ∧ s' = commit_all more s ∧ (buf k' = buf k ∨ buf k' = buf k ++ b) ∧
    ∀ t, r = Ok t → t = last ∧ buf k' = buf k ++ b ∧ (last = false → b ≠ []).
Proof.
  intros Hk. unfold absorb. assert (Hno : ∃ more, sink_ok cap (bufs ++ more) k ∧ s = commit_all more s) by (exists []; by rewrite app_nil_r).
  destruct (bool_decide (b = []) && negb last) eqn:He; [destruct Hno as (m & ? & ?); exists m; split_and!; auto; done|].
  destruct (Z.ltb_spec cap (blen (buf k) + blen b)) as [|Hle]; [destruct Hno as (m & ? & ?); exists m; split_and!; auto; done|].
  pose proof (sink_grow cap bufs k b Hk ltac:(lia)) as Hg. set (k1 := mkSink _ _ _) in *.
  assert (Hb : last = false → b ≠ []) by (intros -> ->; done).
  destruct last; [exists []; rewrite app_nil_r; split_and!; auto; by intros t [= <-]|].
  pose proof (sink_reap cap bufs k1 false finished Hg) as Hr.
  assert (Hbuf : buf (reap false finished k1).2 = buf k ++ b) by (unfold reap; destruct (pending k1); [destruct (_ || _)|]; done).
  destruct (reap false finished k1) as [[[]|x] k2]; cbn in Hr, Hbuf; [|exists []; rewrite app_nil_r; split_and!; auto; done].
  destruct (bool_decide (pending k2 = None) && (FLUSH_BYTES <=? blen (buf k2) - flushed k2));
    [|exists []; rewrite app_nil_r; split_and!; auto; by intros t [= <-]].
  pose proof (sink_flush cap bufs k2 false s Hr) as Hf. destruct (spawn_flush false k2 s) as [[r k3] s3]. destruct Hf as ([Hc Hp Hl] & -> & Hb3 & _).
  exists [buf k2]. split_and!; [by split|done|right; cbn; congruence|]. intros t [= <-]. split_and!; auto. cbn. congruence.
Qed.

Lemma range_loop_spec cap evs : ∀ bufs k s, sink_ok cap bufs k →
  let '(r, k', s') := range_loop cap k s evs in
  ∃ more, sink_ok cap (bufs ++ more) k' ∧ s' = commit_all more s ∧ buf k' `prefix_of` buf k ++ received evs ∧
    (r = Ok () → buf k' = buf k ++ received evs).
Proof.
  induction evs as [|ev evs IH]; intros bufs k s Hk.
  { exists []. rewrite app_nil_r. split_and!; try done. cbn. by rewrite app_nil_r. }
  cbn [range_loop received]. assert (Hstop : ∀ tl, ∃ more, sink_ok cap (bufs ++ more) k ∧ s = commit_all more s ∧ buf k `prefix_of` buf k ++ tl).
  { intros tl. exists []. rewrite app_nil_r. split_and!; try done. by apply prefix_app_r. }
  destruct ev as [[req|la re|last b| | |] fin|]; try (destruct (Hstop []) as (m & ? & ? & ?); exists m; by split_and!).
  pose proof (absorb_spec cap bufs last b fin k s Hk) as Ha.
  destruct (absorb last b cap fin k s) as [[[t|x] k1] s1]; destruct Ha as (more & Hk1 & -> & Hb & Ht).
  - destruct (Ht t eq_refl) as (-> & Hbuf & _). destruct last.
    + exists more. rewrite Hbuf, app_nil_r. by split_and!.
    + pose proof (IH (bufs ++ more) k1 (commit_all more s) Hk1) as H. destruct (range_loop cap k1 _ evs) as [[r k2] s2].
      destruct H as (more2 & Hk2 & -> & Hp & Hr). exists (more ++ more2). rewrite Hbuf, <- app_assoc in Hp, Hr. rewrite app_assoc.
      split_and!; [done|by unfold commit_all; rewrite foldl_app|done|done].
  - exists more. split_and!; [done|done| |done]. destruct Hb as [->| ->]; [by apply prefix_app_r|]. rewrite app_assoc. by apply prefix_app_r.
Qed.

(** The buffer never outgrows the cap, and each frame but the last adds to it. *)
Lemma range_loop_ends cap evs : ∀ bufs k s, sink_ok cap bufs k → cap - blen (buf k) < Z.of_nat (length evs) → ∀ more,
  range_loop cap k s (evs ++ more) = range_loop cap k s evs.
Proof.
  induction evs as [|ev evs IH]; intros bufs k s Hk Hl more; [pose proof (k_cap _ _ _ Hk); cbn in Hl; lia|]. cbn [app range_loop].
  destruct ev as [[req|la re|last b| | |] fin|]; try done.
  pose proof (absorb_spec cap bufs last b fin k s Hk) as Ha.
  destruct (absorb last b cap fin k s) as [[[[]|x] k1] s1]; [done| |done]. destruct Ha as (bs & Hk1 & _ & _ & Ht).
  destruct (Ht false eq_refl) as (<- & Hb & Hne). apply (IH (bufs ++ bs)); [done|]. rewrite Hb, blen_app.
  assert (1 <= blen b) by (destruct b; [by specialize (Hne eq_refl)|unfold blen; cbn [length]; lia]).
  cbn [length] in Hl. lia.
Qed.

Lemma range_cap_bounds : 0 <= range_cap <= MAX_BYTES_PER_REQ * 2.
Proof.
  unfold range_cap. set (n := foldl _ _ _). unfold wrap64 at 1. pose proof (Z.mod_pos_bound (wrap64 (n + n / 50) + Z.shiftl 1 20) (2 ^ 64) ltac:(done)).
  assert (0 <= MAX_BYTES_PER_REQ * 2) by done. lia.
Qed.

Lemma commit_all_snoc bufs b s : commit_all (bufs ++ [b]) s = (commit b (commit_all bufs s)).2.
Proof. unfold commit_all. by rewrite foldl_app. Qed.

(** Salvaging commits whatever the sink had not. *)
Lemma salvage_spec cap bufs k s : sink_ok cap bufs k → ∃ more, salvage k (commit_all bufs s) = commit_all (bufs ++ more) s ∧
  Forall (λ b, b = buf k) more ∧ default [] (last (bufs ++ more)) = buf k.
Proof.
  intros [Hc Hp [Hl Hle]]. unfold salvage. destruct (Z.ltb_spec (flushed k) (blen (buf k))).
  - exists [buf k]. rewrite commit_all_snoc, last_snoc. split_and!; [done|by apply Forall_singleton|done].
  - exists []. rewrite app_nil_r. split_and!; try done. destruct (last bufs) as [b|] eqn:El; cbn in *.
    + rewrite Forall_forall in Hp. destruct (Hp b) as [tl Htl]; [by apply elem_of_list_lookup_2 in El || (apply last_Some in El as [? ->]; set_solver)|].
      rewrite Htl, blen_app in *. assert (tl = []) as ->; [|by rewrite app_nil_r]. destruct tl; [done|]. unfold blen in *. cbn [length] in *. lia.
    + destruct (buf k) eqn:E; [done|]. unfold blen in *. cbn [length] in *. lia.
Qed.

End ranges.

(** ** Instances *)

(** A store that takes any object whose id is its first byte, and answers the
    length of a slice. *)
#[local] Instance by_first_byte : ObjectSink (list bytes) := {
  os_insert id b _ s := if bool_decide (take 1 b = id) then (Ok (), s ++ [b]) else (Err (io_err KInvalidData []), s);
  os_write_partial _ _ b _ s := (Ok (blen b), s ++ [b])
}.


(** A fetch that ends, and one cut short. *)
Example fetch_two_ranges :
  fetch_ranges (λ _, []) (λ _, []) (bstr "a") [(0, 6)] 7 [Got (BData false (bstr "abc")) false; Got (BData true (bstr "def")) false] [] =
    (Ok 6, false, mkSink (bstr "abcdef") 6 None, [bstr "abcdef"]) ∧
  ∃ cut, fetch_ranges (λ _, []) (λ _, []) (bstr "a") [(0, 6)] 7 [Got (BData false (bstr "abc")) false; Silence] [] = (Err cut, true, mkSink (bstr "abc") 0 None, [bstr "abc"]).
Proof. split; [vm_compute; reflexivity|]. eexists. vm_compute. reflexivity. Qed.
