(* ===== verification/XiteFields.v ===== *)
(** * Availability fields and piece maps ([crates/epix-xite])

    The wire forms in which nodes tell each other what they hold: run-length
    piecefields of big files, hash-id fields of optional files, and the piece
    map with the Merkle root that a big file's manifest entry carries. SHA-512,
    hexadecimal and MessagePack are third-party crates and parameters. *)
From Stdlib Require Import ZArith Lia Strings.Byte Strings.String.
From stdpp Require Import base list sorting strings gmap.
From S2P Require Import Prelude Ordered Json Text Peer AddrText.
#[local] Open Scope Z_scope.

(** ** Piecefields ([piecefield.rs]) *)

Definition MAX_PIECES : Z := 8 * 1024 * 1024.
Definition u16_max : Z := 65535.

(** [Piecefield]: one flag per piece. *)
Abbreviation Piecefield := (list bool).

Definition all_present (n : nat) : Piecefield := repeat true n.
Definition pf_get (bits : Piecefield) (i : nat) : bool := default false (bits !! i).
Definition pf_set (bits : Piecefield) (i : nat) (present : bool) : Piecefield :=
  let bits := if decide (length bits <= i)%nat then bits ++ repeat false (i + 1 - length bits) else bits in
  <[i := present]> bits.
Definition count_present (bits : Piecefield) : Z := blen (List.filter (λ b, b) bits).

(** The run of [expected] flags at the front, and what follows. *)
Fixpoint span (expected : bool) (bits : list bool) : Z * list bool :=
  match bits with
  | b :: bits' => if eqb b expected then let '(n, rest) := span expected bits' in (n + 1, rest) else (0, bits)
  | [] => (0, [])
  end.

(** A run as 16-bit counts; a longer one is split by empty opposite runs.
    [count] steps are enough. *)
Fixpoint split_run (fuel : nat) (count : Z) : list Z :=
  match fuel with
  | O => [count]
  | S fuel => if u16_max <? count then u16_max :: 0 :: split_run fuel (count - u16_max) else [count]
  end.

(** The outer loop; every turn but the first consumes a flag. *)
Fixpoint pack_runs (fuel : nat) (expected : bool) (bits : list bool) : list Z :=
  match fuel, bits with
  | S fuel, _ :: _ =>
    let '(count, rest) := span expected bits in
    split_run (Z.to_nat (count / u16_max)) count ++ pack_runs fuel (negb expected) rest
  | _, _ => []
  end.

Definition pf_pack (bits : Piecefield) : bytes := concat (map (le_bytes 2) (pack_runs (S (length bits)) true bits)).

(** [chunks_exact(2)] as little-endian numbers. *)
Fixpoint u16_chunks (s : bytes) : list Z :=
  match s with
  | a :: b :: s => le_val [a; b] :: u16_chunks s
  | _ => []
  end.

Fixpoint unpack_runs (present : bool) (bits : list bool) (runs : list Z) : Piecefield :=
  match runs with
  | [] => bits
  | run :: runs => if MAX_PIECES <? blen bits + run then [] else unpack_runs (negb present) (bits ++ repeat present (Z.to_nat run)) runs
  end.

Definition pf_unpack (packed : bytes) : Piecefield := unpack_runs true [] (u16_chunks packed).

(** ** Hashfields ([hashfield.rs]) *)

(** [BTreeSet<u16>]: the ids in order. *)
Abbreviation Hashfield := (btree Z unit).

(** [str::get(0..4)] and [u16::from_str_radix(h, 16)]; a sign may lead. *)
Definition char_boundary (s : bytes) (i : nat) : bool :=
  match s !! i with Some b => negb ((128 <=? byte_val b) && (byte_val b <? 192)) | None => (length s =? i)%nat end.

Definition from_hex16 (h : bytes) : option Z :=
  let ds := match h with b :: (_ :: _) as t => if bool_decide (b = x2b) then t else h | _ => h end in
  ds ← mapM (to_digit 16) ds;
  match ds with [] => None | _ => Some (foldl (λ a d, a * 16 + d) 0 ds) end.

Definition hash_id (sha512_hex : bytes) : option Z :=
  if (4 <=? length sha512_hex)%nat && char_boundary sha512_hex 4 then from_hex16 (take 4 sha512_hex) else None.

Definition add_id (i : Z) (f : Hashfield) : bool * Hashfield := (negb (bt_contains f i), bt_insert i tt f).
Definition add_hash (h : bytes) (f : Hashfield) : bool * Hashfield := match hash_id h with Some i => add_id i f | None => (false, f) end.
Definition remove_hash (h : bytes) (f : Hashfield) : bool * Hashfield :=
  match hash_id h with Some i => (bt_contains f i, bt_remove i f) | None => (false, f) end.
Definition has_id (i : Z) (f : Hashfield) : bool := bt_contains f i.
Definition has_hash (h : bytes) (f : Hashfield) : bool := match hash_id h with Some i => has_id i f | None => false end.

Definition hf_to_bytes (f : Hashfield) : bytes := concat (map (le_bytes 2) (bt_keys f)).
Definition hf_from_bytes (raw : bytes) : Hashfield := foldl (λ f i, bt_insert i tt f) [] (u16_chunks raw).

(** ** Piece maps ([piecemap.rs]) *)

(** [rmpv::Value], as far as piece maps use it. *)
#[local] Unset Elimination Schemes.
Inductive mvalue :=
  | MStr (s : bytes) | MBin (b : bytes) | MInt (z : Z) | MArr (l : list mvalue) | MMap (l : list (mvalue * mvalue)) | MOther.
#[local] Set Elimination Schemes.

Definition as_mstr (v : mvalue) : option bytes := match v with MStr s => Some s | _ => None end.
Definition as_mmap (v : mvalue) : option (list (mvalue * mvalue)) := match v with MMap l => Some l | _ => None end.
Definition as_marr (v : mvalue) : option (list mvalue) := match v with MArr l => Some l | _ => None end.
(** [Value::as_slice]: binary, and text as its bytes. *)
Definition as_slice (v : mvalue) : option bytes := match v with MBin b => Some b | MStr s => Some s | _ => None end.

Definition map_get (m : list (mvalue * mvalue)) (key : bytes) : option mvalue :=
  snd <$> List.find (λ p, bool_decide (as_mstr p.1 = Some key)) m.

Record BigfileHash := { merkle_root_hex : bytes; bf_piece_size : Z; piece_hashes : list bytes }.

Section piecemap.
Context (sha512 : bytes → bytes) (hex_encode : bytes → bytes).
Context (mp_encode : mvalue → bytes) (mp_decode : bytes → option mvalue).

Definition piece_hash (piece : bytes) : bytes := take 32 (sha512 piece).

(** [data.chunks(n)], [n] at least one; a step per chunk. *)
Fixpoint chunks (fuel n : nat) (data : bytes) : list bytes :=
  match fuel, data with
  | S fuel, _ :: _ => take n data :: chunks fuel n (drop n data)
  | _, _ => []
  end.

(** One level up: adjacent pairs hashed together, a lone last one kept. *)
Fixpoint merkle_level (level : list bytes) : list bytes :=
  match level with
  | a :: b :: rest => piece_hash (a ++ b) :: merkle_level rest
  | _ => level
  end.

(** [while level.len() > 1]: every turn shortens the level. *)
Fixpoint merkle_up (fuel : nat) (level : list bytes) : list bytes :=
  match fuel with
  | O => level
  | S fuel => if (1 <? length level)%nat then merkle_up fuel (merkle_level level) else level
  end.

Definition merkle_root (level : list bytes) : bytes :=
  match level with
  | [] => hex_encode (piece_hash [])
  | _ => hex_encode (default [] (head (merkle_up (length level) level)))
  end.

Definition hash_bigfile (data : bytes) (piece_size : Z) : BigfileHash :=
  let piece_size := Z.max piece_size 1 in
  let hashes := map piece_hash (chunks (length data) (Z.to_nat piece_size) data) in
  let hashes := match hashes with [] => [piece_hash []] | _ => hashes end in
  {| merkle_root_hex := merkle_root hashes; bf_piece_size := piece_size; piece_hashes := hashes |}.

Definition piecemap_value (file_name : bytes) (h : BigfileHash) : mvalue :=
  let entry := MMap [(MStr (bstr "sha512_pieces"), MArr (map MBin h.(piece_hashes))); (MStr (bstr "piece_size"), MInt h.(bf_piece_size))] in
  MMap [(MStr file_name, entry)].

Definition build_piecemap (file_name : bytes) (h : BigfileHash) : bytes := mp_encode (piecemap_value file_name h).

Definition parse_piecemap (raw : bytes) (file_name : bytes) : option (list bytes) :=
  value ← mp_decode raw;
  root ← as_mmap value;
  entry ← map_get root file_name; entry ← as_mmap entry;
  pieces ← map_get entry (bstr "sha512_pieces"); pieces ← as_marr pieces;
  Some (omap (M := list) (λ p : mvalue, option_map hex_encode (as_slice p)) pieces).
End piecemap.

Example pack_ex : pf_pack [true; true; false; true] = concat (map (le_bytes 2) [2; 1; 1]).
Proof. reflexivity. Qed.
Example pack_ex2 : pf_pack [false; true; true] = concat (map (le_bytes 2) [0; 1; 2]).
Proof. reflexivity. Qed.

(** ** Piecefields: packing then unpacking *)

Lemma span_spec e bits : let '(n, rest) := span e bits in
  0 <= n ∧ bits = repeat e (Z.to_nat n) ++ rest ∧ (match rest with b :: _ => b = negb e | [] => True end) ∧ (∀ b l, bits = b :: l → b = e → 0 < n).
Proof.
  induction bits as [|b bits IH]; cbn [span]; [by split_and!|]. destruct (eqb b e) eqn:E.
  - apply eqb_prop in E as ->. destruct (span e bits) as [n rest]. destruct IH as (H1 & H2 & H3 & _). split_and!; [lia| |done|lia].
    replace (Z.to_nat (n + 1)) with (S (Z.to_nat n)) by lia. cbn. congruence.
  - apply eqb_false_iff in E. split_and!; [lia|done|by destruct b, e|]. intros ? ? [= <- <-]. congruence.
Qed.

Lemma repeat_add {A} (x : A) n m : repeat x n ++ repeat x m = repeat x (n + m).
Proof. induction n; cbn; congruence. Qed.

Lemma blen_repeat {A} (x : A) n : blen (repeat x n) = Z.of_nat n.
Proof. unfold blen. by rewrite repeat_length. Qed.

Lemma unpack_split_run fuel e acc c rs : 0 <= c <= u16_max * (Z.of_nat fuel + 1) → blen acc + c <= MAX_PIECES →
  unpack_runs e acc (split_run fuel c ++ rs) = unpack_runs (negb e) (acc ++ repeat e (Z.to_nat c)) rs.
Proof.
  revert acc c. induction fuel as [|fuel IH]; intros acc c Hc Hl; cbn [split_run].
  - cbn [app unpack_runs]. by replace (MAX_PIECES <? blen acc + c) with false by lia.
  - destruct (Z.ltb_spec u16_max c) as [H|H]; cbn [app unpack_runs].
    + unfold u16_max in *. replace (MAX_PIECES <? blen acc + 65535) with false by lia. rewrite blen_app, blen_repeat.
      rewrite (Z2Nat.id 65535) by done. replace (MAX_PIECES <? blen acc + 65535 + 0) with false by lia. change (Z.to_nat 0) with O. cbn [repeat]. rewrite app_nil_r.
      rewrite negb_involutive, IH by (rewrite ?blen_app, ?blen_repeat, ?(Z2Nat.id 65535) by done; lia). rewrite <- app_assoc, repeat_add, <- Z2Nat.inj_add by lia.
      by replace (65535 + (c - 65535)) with c by lia.
    + by replace (MAX_PIECES <? blen acc + c) with false by lia.
Qed.

Lemma split_run_u16 fuel c : 0 <= c <= u16_max * (Z.of_nat fuel + 1) → Forall is_u16 (split_run fuel c).
Proof.
  revert c. induction fuel as [|fuel IH]; intros c Hc; cbn [split_run]; unfold is_u16, u16_max in *.
  - constructor; [lia|constructor].
  - destruct (Z.ltb_spec 65535 c); repeat (constructor; [lia|]); [apply IH; lia|constructor].
Qed.

Lemma run_fuel c : 0 <= c → 0 <= c <= u16_max * (Z.of_nat (Z.to_nat (c / u16_max)) + 1).
Proof. unfold u16_max. intros Hc. pose proof (Z.div_pos c 65535 Hc ltac:(lia)). Z.div_mod_to_equations. lia. Qed.

(** The fuel a list of runs needs: one turn more when the first run is empty. *)
Definition turns (e : bool) (bits : list bool) : nat := length bits + (match bits with b :: _ => if eqb b e then 0 else 1 | [] => 0 end).

Lemma turns_rest e bits n rest : span e bits = (n, rest) → bits ≠ [] → (S (turns (negb e) rest) <= turns e bits)%nat.
Proof.
  intros Hs Hne. pose proof (span_spec e bits) as H. rewrite Hs in H. destruct H as (H0 & Hb & Hh & Hp).
  assert (turns (negb e) rest = length rest) as -> by (unfold turns; destruct rest as [|b r]; [done|]; subst b; by rewrite eqb_reflx, Nat.add_0_r).
  unfold turns. destruct bits as [|b l]; [done|]. destruct (eqb b e) eqn:E.
  - apply eqb_prop in E. specialize (Hp _ _ eq_refl E). apply (f_equal length) in Hb. rewrite length_app, repeat_length in Hb. lia.
  - apply (f_equal length) in Hb. rewrite length_app in Hb. lia.
Qed.

Lemma unpack_pack_runs fuel e acc bits : (turns e bits <= fuel)%nat → blen acc + blen bits <= MAX_PIECES →
  unpack_runs e acc (pack_runs fuel e bits) = acc ++ bits.
Proof.
  revert e acc bits. induction fuel as [|fuel IH]; intros e acc bits Hf Hl.
  { destruct bits; [by rewrite app_nil_r|]. unfold turns in Hf. cbn in Hf. lia. }
  destruct bits as [|b bits]; [by rewrite app_nil_r|]. cbn [pack_runs]. destruct (span e (b :: bits)) as [n rest] eqn:Es.
  pose proof (turns_rest _ _ _ _ Es ltac:(done)) as Ht. pose proof (span_spec e (b :: bits)) as H. rewrite Es in H. destruct H as (Hn & Hb & _).
  rewrite Hb in Hl |- *. rewrite blen_app, blen_repeat in Hl. pose proof (blen_nonneg rest).
  rewrite unpack_split_run by (apply run_fuel || idtac; lia). rewrite IH by (rewrite ?blen_app, ?blen_repeat; lia). by rewrite app_assoc.
Qed.

Lemma pack_runs_u16 fuel e bits : Forall is_u16 (pack_runs fuel e bits).
Proof.
  revert e bits. induction fuel as [|fuel IH]; intros e [|b bits]; try constructor. cbn [pack_runs].
  destruct (span e (b :: bits)) as [n rest] eqn:Es. pose proof (span_spec e (b :: bits)) as H. rewrite Es in H. destruct H as (Hn & _).
  apply Forall_app. split; [by apply split_run_u16, run_fuel|apply IH].
Qed.

Lemma u16_chunks_le l : Forall is_u16 l → u16_chunks (concat (map (le_bytes 2) l)) = l.
Proof.
  induction 1 as [|x l Hx _ IH]; [done|]. cbn [map concat]. change (le_bytes 2 x) with [byte_of (x mod 256); byte_of (x / 256 mod 256)] || idtac.
  pose proof (le16_roundtrip x Hx) as Hr. pose proof (length_le_bytes 2 x) as Hl. destruct (le_bytes 2 x) as [|a [|b [|]]]; try done.
  cbn [app u16_chunks]. by rewrite IH, Hr.
Qed.

Lemma unpack_runs_bound e acc rs : blen acc <= MAX_PIECES → Forall is_u16 rs → blen (unpack_runs e acc rs) <= MAX_PIECES.
Proof.
  intros Ha HF. revert e acc Ha. induction HF as [|r rs Hr _ IH]; intros e acc Ha; cbn [unpack_runs]; [done|].
  destruct (Z.ltb_spec MAX_PIECES (blen acc + r)); [by unfold MAX_PIECES; vm_compute|]. apply IH. rewrite blen_app, blen_repeat. unfold is_u16 in Hr. lia.
Qed.

Lemma u16_chunks_u16 s : Forall is_u16 (u16_chunks s).
Proof.
  enough (∀ n s, (length s <= n)%nat → Forall is_u16 (u16_chunks s)) as H by (by apply (H (length s))). clear s.
  intros n. induction n as [|n IH]; intros [|a [|b s]] Hl; try constructor; cbn in Hl; try lia; [by apply (le_val_u16 [a; b])|]. apply IH. lia.
Qed.

(** Piecefields survive the wire, and the wire cannot make one too large: a
    field of at most [MAX_PIECES] pieces unpacks to itself from its run lengths,
    whatever the runs (long ones split, an absent first piece, the empty field),
    and no bytes a peer sends unpack to more than [MAX_PIECES] pieces. *)
Theorem piecefield_roundtrip bits packed :
  (blen bits <= MAX_PIECES → pf_unpack (pf_pack bits) = bits) ∧ blen (pf_unpack packed) <= MAX_PIECES.
Proof.
  split.
  - intros Hl. unfold pf_unpack, pf_pack. rewrite u16_chunks_le by apply pack_runs_u16. apply unpack_pack_runs; [|done].
    unfold turns. destruct bits as [|b l]; [cbn; lia|]. destruct (eqb b true); lia.
  - apply unpack_runs_bound; [by vm_compute|apply u16_chunks_u16].
Qed.

Lemma piecefield_roundtrip_witness : pf_unpack (pf_pack [false; true; true]) = [false; true; true].
Proof. apply (proj1 (piecefield_roundtrip [false; true; true] [])). vm_compute. congruence. Defined.

(** ** Hashfields *)

Definition hf_wf (f : Hashfield) : Prop := bt_wf f ∧ Forall is_u16 (bt_keys f).

Lemma insert_all_spec (ks : list Z) (f : Hashfield) : bt_wf f → bt_wf (foldl (λ f i, bt_insert i tt f) f ks) ∧
  ∀ k, bt_get (foldl (λ f i, bt_insert i tt f) f ks) k = if decide (k ∈ ks) then Some tt else bt_get f k.
Proof.
  revert f. induction ks as [|x ks IH]; intros f Hf; cbn [foldl].
  { split; [done|]. intros k. rewrite decide_False; [done|apply not_elem_of_nil]. }
  destruct (IH (bt_insert x tt f) (bt_insert_wf _ _ _ Hf)) as [H1 H2]. split; [done|]. intros k. rewrite H2, bt_get_insert.
  destruct (decide (k ∈ ks)) as [Hk|Hk]; [by rewrite decide_True by (by right)|]. destruct (decide (k ∈ x :: ks)) as [Hx|Hx].
  - apply elem_of_cons in Hx as [->|?]; [|done]. by case_decide.
  - case_decide; [|done]. subst. destruct Hx. left.
Qed.

(** A hashfield reads back from its wire form, and whatever bytes come in, the
    field that is read holds each id once, in order, and is within 16 bits. *)
Lemma hashfield_roundtrip f raw : (hf_wf f → hf_from_bytes (hf_to_bytes f) = f) ∧ hf_wf (hf_from_bytes raw).
Proof.
  split.
  - intros [Hwf Hu]. unfold hf_from_bytes, hf_to_bytes. rewrite u16_chunks_le by done. destruct (insert_all_spec (bt_keys f) [] bt_wf_nil) as [H1 H2].
    apply bt_ext; [done|done|]. intros k. rewrite H2. case_decide as Hk.
    + apply elem_of_bt_keys in Hk as [[] Hk]; [|done]. done.
    + destruct (bt_get f k) as [[]|] eqn:E; [|done]. destruct Hk. apply elem_of_bt_keys; [done|by eexists].
  - unfold hf_from_bytes. destruct (insert_all_spec (u16_chunks raw) [] bt_wf_nil) as [H1 H2]. split; [done|].
    apply Forall_forall. intros k Hk. apply elem_of_bt_keys in Hk as [u Hk]; [|done]. rewrite H2 in Hk. case_decide as Hin; [|done].
    pose proof (u16_chunks_u16 raw) as HF. rewrite Forall_forall in HF. by apply HF.
Qed.

(** ** Piece maps *)

Section piecemap_facts.
Context (sha512 : bytes → bytes) (hex_encode : bytes → bytes).
Hypothesis sha512_length : ∀ x, length (sha512 x) = 64%nat.

Definition is_hash (h : bytes) : Prop := length h = 32%nat.
(** Two inputs with one truncated hash. *)
Definition piece_collision : Prop := ∃ x y, x ≠ y ∧ piece_hash sha512 x = piece_hash sha512 y.

Lemma piece_hash_length x : is_hash (piece_hash sha512 x).
Proof using sha512_length. unfold is_hash, piece_hash. rewrite length_take, sha512_length. lia. Qed.

Lemma merkle_level_hashes l : Forall is_hash l → Forall is_hash (merkle_level sha512 l).
Proof using sha512_length.
  enough (∀ n l, (length l <= n)%nat → Forall is_hash l → Forall is_hash (merkle_level sha512 l)) as H by (by apply (H (length l))). clear l.
  intros n. induction n as [|n IH]; intros [|a [|b l]] Hn Hl; try done; cbn in Hn; [lia|]. cbn [merkle_level].
  apply Forall_cons in Hl as [_ Hl]. apply Forall_cons in Hl as [_ Hl]. constructor; [apply piece_hash_length|apply IH; [lia|done]].
Qed.

Lemma length_merkle_level l k : length l = length k → length (merkle_level sha512 l) = length (merkle_level sha512 k).
Proof.
  enough (∀ n l k, (length l <= n)%nat → length l = length k → length (merkle_level sha512 l) = length (merkle_level sha512 k)) as H by (by apply (H (length l))).
  clear l k. intros n. induction n as [|n IH]; intros [|a [|b l]] [|a' [|b' k]] Hn Hl; try done; cbn in Hn, Hl; [lia|]. cbn. f_equal. apply IH; lia.
Qed.

Lemma merkle_level_shrinks l : (1 < length l)%nat → (length (merkle_level sha512 l) < length l)%nat ∧ merkle_level sha512 l ≠ [].
Proof.
  enough (∀ n l, (length l <= n)%nat → (length (merkle_level sha512 l) <= length l)%nat) as H.
  { destruct l as [|a [|b l]]; cbn; [lia..|]. intros _. specialize (H (length l) l ltac:(lia)). split; [lia|done]. }
  clear l. intros n. induction n as [|n IH]; intros [|a [|b l]] Hn; cbn in *; try lia. specialize (IH l ltac:(lia)). lia.
Qed.

Lemma merkle_level_inj l k : length l = length k → Forall is_hash l → Forall is_hash k →
  merkle_level sha512 l = merkle_level sha512 k → l = k ∨ piece_collision.
Proof.
  enough (∀ n l k, (length l <= n)%nat → length l = length k → Forall is_hash l → Forall is_hash k → merkle_level sha512 l = merkle_level sha512 k → l = k ∨ piece_collision)
    as H by (by apply (H (length l))). clear l k.
  intros n. induction n as [|n IH]; intros [|a [|b l]] [|a' [|b' k]] Hn Hl HFl HFk Heq; try done; try (by left); cbn in Hn, Hl; [lia|].
  cbn [merkle_level] in Heq. injection Heq as Hh Ht. apply Forall_cons in HFl as [Ha HFl]. apply Forall_cons in HFl as [_ HFl].
  apply Forall_cons in HFk as [Ha' HFk]. apply Forall_cons in HFk as [_ HFk].
  destruct (decide (a ++ b = a' ++ b')) as [E|E]; [|right; by eexists _, _]. apply app_inj_1 in E as [-> ->]; [|unfold is_hash in *; congruence].
  destruct (IH l k ltac:(lia) ltac:(lia) HFl HFk Ht) as [->|?]; [by left|by right].
Qed.

Lemma merkle_up_inj fuel l k : length l = length k → Forall is_hash l → Forall is_hash k →
  merkle_up sha512 fuel l = merkle_up sha512 fuel k → l = k ∨ piece_collision.
Proof using sha512_length.
  revert l k. induction fuel as [|fuel IH]; intros l k Hl HFl HFk; cbn [merkle_up]; [by left|]. rewrite <- Hl.
  destruct (1 <? length l)%nat; [|by left]. intros H. apply IH in H as [H|?]; [|by right|by apply length_merkle_level|by apply merkle_level_hashes..].
  by apply merkle_level_inj.
Qed.

(** The loop ends with a single node. *)
Lemma merkle_up_single fuel l : l ≠ [] → (length l <= fuel)%nat → length (merkle_up sha512 fuel l) = 1%nat.
Proof.
  revert l. induction fuel as [|fuel IH]; intros l Hne Hf; [destruct l; [done|cbn in Hf; lia]|]. cbn [merkle_up].
  destruct (Nat.ltb_spec 1 (length l)) as [H|H]; [|destruct l as [|? [|]]; cbn in *; [done|done|lia]].
  destruct (merkle_level_shrinks l H). apply IH; [done|lia].
Qed.

Lemma merkle_root_inj l k : (∀ x y, hex_encode x = hex_encode y → x = y) → l ≠ [] → k ≠ [] → length l = length k → Forall is_hash l → Forall is_hash k →
  merkle_root sha512 hex_encode l = merkle_root sha512 hex_encode k → l = k ∨ piece_collision.
Proof using sha512_length.
  intros Hhex Hl Hk Hlen HFl HFk. unfold merkle_root. destruct l as [|a l]; [done|]. destruct k as [|b k]; [done|]. intros H%Hhex. rewrite <- Hlen in H.
  pose proof (merkle_up_single (length (a :: l)) (a :: l) ltac:(done) ltac:(lia)) as H1.
  pose proof (merkle_up_single (length (a :: l)) (b :: k) ltac:(done) ltac:(lia)) as H2.
  eapply (merkle_up_inj (length (a :: l))); [done..|].
  destruct (merkle_up sha512 (length (a :: l)) (a :: l)) as [|x [|]]; try done.
  destruct (merkle_up sha512 (length (a :: l)) (b :: k)) as [|y [|]]; try done. cbn in H. congruence.
Qed.

(** ** Pieces *)

Lemma chunks_concat fuel n data : (1 <= n)%nat → (length data <= fuel)%nat → concat (chunks fuel n data) = data.
Proof.
  intros Hn. revert data. induction fuel as [|fuel IH]; intros [|b data] Hf; try done; [cbn in Hf; lia|]. cbn [chunks concat].
  rewrite IH; [apply take_drop|]. rewrite length_drop. cbn in *. lia.
Qed.

Lemma length_chunks fuel n d e : (1 <= n)%nat → length d = length e → length (chunks fuel n d) = length (chunks fuel n e).
Proof.
  intros Hn. revert d e. induction fuel as [|fuel IH]; intros [|b d] [|c e] Hl; try done. cbn [chunks length]. f_equal. apply IH. by rewrite !length_drop, Hl.
Qed.

Lemma map_hash_inj l k : length l = length k → map (piece_hash sha512) l = map (piece_hash sha512) k → l = k ∨ piece_collision.
Proof.
  revert k. induction l as [|a l IH]; intros [|b k] Hl; try done; [by left|]. intros [= Hh Ht]. destruct (decide (a = b)) as [->|Hne]; [|right; by eexists _, _].
  destruct (IH k ltac:(by injection Hl) Ht) as [->|?]; [by left|by right].
Qed.

Lemma hashes_ok l : Forall is_hash (map (piece_hash sha512) l).
Proof using sha512_length. induction l as [|a l IH]; constructor; [apply piece_hash_length|done]. Qed.

(** The hash list of an object, never empty. *)
Definition hash_list (n : nat) (data : bytes) : list bytes :=
  let hashes := map (piece_hash sha512) (chunks (length data) n data) in
  match hashes with [] => [piece_hash sha512 []] | _ => hashes end.

Lemma hash_list_pieces n data : (1 <= n)%nat →
  ∃ pieces, concat pieces = data ∧ pieces ≠ [] ∧ Forall (λ p, (length p <= n)%nat) pieces ∧ hash_list n data = map (piece_hash sha512) pieces.
Proof.
  intros Hn. unfold hash_list. cbv zeta. pose proof (chunks_concat (length data) n data Hn ltac:(lia)) as Hc.
  assert (∀ fuel d, Forall (λ p : bytes, (length p <= n)%nat) (chunks fuel n d)) as Hs.
  { intros fuel. induction fuel as [|fuel IH]; intros [|b d]; cbn [chunks]; constructor; [rewrite length_take; lia|apply IH]. }
  specialize (Hs (length data) data). destruct (chunks (length data) n data) as [|p ps].
  - exists [[]]. split_and!; [done|done|repeat constructor; cbn; lia|done].
  - exists (p :: ps). split_and!; done.
Qed.

Lemma hash_list_inj n d1 d2 : (1 <= n)%nat → length d1 = length d2 → hash_list n d1 = hash_list n d2 → d1 = d2 ∨ piece_collision.
Proof.
  intros Hn Hlen. unfold hash_list. cbv zeta. pose proof (length_chunks (length d1) n d1 d2 Hn Hlen) as Hlc. rewrite <- Hlen.
  pose proof (chunks_concat (length d1) n d1 Hn ltac:(lia)) as Hc1. pose proof (chunks_concat (length d1) n d2 Hn ltac:(lia)) as Hc2.
  destruct (chunks (length d1) n d1) as [|a l]; destruct (chunks (length d1) n d2) as [|b k]; try done; [left; cbn in Hc1, Hc2; congruence|].
  cbn [map]. intros H. apply (map_hash_inj (a :: l) (b :: k)) in H as [H|?]; [left; congruence|by right|done].
Qed.

Lemma length_hash_list n d1 d2 : (1 <= n)%nat → length d1 = length d2 → length (hash_list n d1) = length (hash_list n d2).
Proof.
  intros Hn Hlen. unfold hash_list. cbv zeta. pose proof (length_chunks (length d1) n d1 d2 Hn Hlen) as Hlc. rewrite <- Hlen.
  destruct (chunks (length d1) n d1); destruct (chunks (length d1) n d2); try done. cbn in *. by rewrite !length_map.
Qed.

Lemma hash_list_ok n d : Forall is_hash (hash_list n d) ∧ hash_list n d ≠ [].
Proof using sha512_length.
  unfold hash_list. cbv zeta. pose proof (hashes_ok (chunks (length d) n d)) as H. destruct (map _ _); [|done]. split; [|done]. constructor; [apply piece_hash_length|done].
Qed.
End piecemap_facts.

Lemma hash_bigfile_eq sha512 hex_encode d size : let n := Z.to_nat (Z.max size 1) in
  hash_bigfile sha512 hex_encode d size =
    {| merkle_root_hex := merkle_root sha512 hex_encode (hash_list sha512 n d); bf_piece_size := Z.max size 1; piece_hashes := hash_list sha512 n d |}.
Proof. reflexivity. Qed.

(** What a big file's root and piece map promise. Among data of one length cut at
    one piece size the Merkle root determines the data, unless it exhibits two
    inputs with one truncated SHA-512; and the piece map built from the hashing
    reads back as exactly the hex hashes of the file's pieces, in order, which is
    what each downloaded piece is checked against. *)
Theorem bigfile_binds (sha512 : bytes → bytes) (hex_encode : bytes → bytes) (mp_encode : mvalue → bytes) (mp_decode : bytes → option mvalue) name d1 d2 size :
  (∀ x, length (sha512 x) = 64%nat) → (∀ x y, hex_encode x = hex_encode y → x = y) → 
  let h1 := hash_bigfile sha512 hex_encode d1 size in
  mp_decode (mp_encode (piecemap_value name h1)) = Some (piecemap_value name h1) →
  (length d1 = length d2 → h1.(merkle_root_hex) = (hash_bigfile sha512 hex_encode d2 size).(merkle_root_hex) → d1 = d2 ∨ piece_collision sha512) ∧
  ∃ pieces, concat pieces = d1 ∧ pieces ≠ [] ∧ Forall (λ p, blen p <= Z.max size 1) pieces ∧
    parse_piecemap hex_encode mp_decode (build_piecemap mp_encode name h1) name = Some (map (λ p, hex_encode (piece_hash sha512 p)) pieces).
Proof.
  intros Hsha Hhex. cbv zeta. rewrite !hash_bigfile_eq. cbn [merkle_root_hex]. intros Hmp. set (n := Z.to_nat (Z.max size 1)) in *. assert (1 <= n)%nat as Hn by (unfold n; lia). split.
  - intros Hlen H. apply merkle_root_inj in H as [H|?]; [by eapply hash_list_inj|by right|done|done|by apply hash_list_ok|by apply hash_list_ok|by apply length_hash_list|by apply hash_list_ok|by apply hash_list_ok].
  - destruct (hash_list_pieces sha512 n d1 Hn) as (pieces & H1 & H2 & H3 & H4). exists pieces. split_and!; [done|done| |].
    + eapply Forall_impl; [exact H3|]. intros p Hp. cbv beta in Hp. unfold n in Hp. unfold blen. lia.
    + unfold parse_piecemap, build_piecemap. rewrite Hmp. unfold piecemap_value. cbn [mbind option_bind as_mmap bf_piece_size piece_hashes].
      unfold map_get. cbn [List.find fst as_mstr]. rewrite bool_decide_true by done. cbn [fmap option_fmap option_map snd mbind option_bind as_mmap List.find fst as_mstr].
      rewrite bool_decide_true by done. cbn [fmap option_fmap option_map snd mbind option_bind as_marr]. rewrite H4. f_equal.
      clear. induction pieces as [|p ps IH]; [done|]. cbn. by rewrite IH.
Qed.

Definition toy_sha512 (x : bytes) : bytes := take 64 (x ++ repeat x00 64).

Definition toy_hash : BigfileHash := hash_bigfile toy_sha512 (λ x, x) [x01; x02; x03] 2.

Lemma bigfile_binds_witness :
  ∃ pieces, concat pieces = [x01; x02; x03] ∧ pieces ≠ [] ∧ Forall (λ p, blen p <= 2) pieces ∧
    parse_piecemap (λ x, x) (λ _, Some (piecemap_value (bstr "f") toy_hash)) [] (bstr "f") = Some (map (piece_hash toy_sha512) pieces).
Proof.
  apply (bigfile_binds toy_sha512 (λ x, x) (λ _, []) (λ _, Some (piecemap_value (bstr "f") toy_hash)) (bstr "f") [x01; x02; x03] [] 2);
    [|intros x y H; exact H|reflexivity].
  intros x. unfold toy_sha512. rewrite length_take, length_app, repeat_length. lia.
Defined.
