(* ===== verification/Propagation.v ===== *)
(** * Store and forward of update hints ([crates/epix-propagation])

    The bounded log of recent update notifications, addressed by a sequence
    number, that a peer back from being offline reads from a cursor. The service
    wraps the store in a mutex; each call is one step. *)
From Stdlib Require Import ZArith Lia Strings.Byte Strings.String.
From stdpp Require Import base list sorting strings gmap.
From S2P Require Import Prelude Ordered.
#[local] Open Scope Z_scope.

Definition DEFAULT_CAPACITY : Z := 10000.

Record Notification := { xite : bytes; modified : Z }.
#[global] Instance Notification_eq_dec : EqDecision Notification.
Proof. solve_decision. Defined.

Record Stored := { seq_no : Z; s_xite : bytes; s_modified : Z }.

Record PropagationStore := { items : list Stored; next_seq : Z; cap : Z }.

Definition with_capacity (cap : Z) : PropagationStore := {| items := []; next_seq := 1; cap := Z.max cap 1 |}.
Definition store_new : PropagationStore := with_capacity DEFAULT_CAPACITY.

Definition notification (s : Stored) : Notification := {| xite := s.(s_xite); modified := s.(s_modified) |}.

(** [while self.items.len() > self.cap { self.items.pop_front(); }]: a step per
    item is fuel enough. *)
Fixpoint evict_front (cap : Z) (l : list Stored) : list Stored :=
  match l with
  | [] => []
  | _ :: l' => if cap <? blen l then evict_front cap l' else l
  end.

Definition record (x : bytes) (m : Z) (s : PropagationStore) : Z * PropagationStore :=
  match List.find (λ e, bool_decide (e.(s_xite) = x) && (e.(s_modified) =? m)) s.(items) with
  | Some existing => (existing.(seq_no), s)
  | None =>
    let n := s.(next_seq) in
    (n, {| items := evict_front s.(cap) (s.(items) ++ [{| seq_no := n; s_xite := x; s_modified := m |}]); next_seq := n + 1; cap := s.(cap) |})
  end.

Definition head (s : PropagationStore) : Z := sat_sub s.(next_seq) 1.

Definition since (after : Z) (s : PropagationStore) : list Notification * Z :=
  (map notification (List.filter (λ e, after <? e.(seq_no)) s.(items)), head s).

(** ** [PropagationService] *)

Definition updates_since (after : Z) (s : PropagationStore) : list Notification * Z := since after s.
Definition service_record (x : bytes) (m : Z) (s : PropagationStore) : option Z * PropagationStore :=
  if decide (x = []) then (None, s) else let '(n, s) := record x m s in (Some n, s).

Definition needs_sync (notifications : list Notification) (local : gmap bytes Z) : list Notification :=
  List.filter (λ n, match local !! n.(xite) with Some have => have <? n.(modified) | None => false end) notifications.

(** ** The log the store is a window of *)

(** Sequence numbers from [n] on. *)
Fixpoint number (n : Z) (l : list Notification) : list Stored :=
  match l with
  | [] => []
  | e :: l => {| seq_no := n; s_xite := e.(xite); s_modified := e.(modified) |} :: number (n + 1) l
  end.

(** What a window of [cap] keeps of a log. *)
Definition window (cap : Z) (log : list Notification) : list Notification := drop (Z.to_nat (blen log - cap)) log.

(** The store holds the end of [log]. *)
Definition store_of (cap : Z) (log : list Notification) : PropagationStore :=
  {| items := number (1 + Z.max 0 (blen log - cap)) (window cap log); next_seq := 1 + blen log; cap := cap |}.

Lemma length_number n l : length (number n l) = length l.
Proof. revert n. induction l; intros n; cbn; auto. Qed.

Lemma number_app n l k : number n (l ++ k) = number n l ++ number (n + blen l) k.
Proof. revert n. induction l as [|e l IH]; intros n; cbn; [unfold blen; cbn; by rewrite Z.add_0_r|]. rewrite IH, blen_cons. by replace (n + 1 + blen l) with (n + (1 + blen l)) by lia. Qed.

Lemma number_notification n l : map notification (number n l) = l.
Proof. revert n. induction l as [|[x m] l IH]; intros n; cbn; [done|]. by rewrite IH. Qed.

Lemma number_drop n l k : drop k (number n l) = number (n + Z.of_nat k) (drop k l).
Proof.
  revert n l. induction k as [|k IH]; intros n [|e l]; cbn [number drop]; [done|by rewrite Z.add_0_r|done|]. rewrite IH. f_equal. lia.
Qed.

Lemma filter_number n l after : List.filter (λ e, after <? e.(seq_no)) (number n l) = number (n + Z.max 0 (after + 1 - n)) (drop (Z.to_nat (after + 1 - n)) l).
Proof.
  revert n. induction l as [|e l IH]; intros n; cbn [number List.filter]; [by rewrite drop_nil|]. cbn [seq_no]. rewrite IH.
  destruct (Z.ltb_spec after n) as [H|H].
  - replace (Z.to_nat (after + 1 - n)) with O by lia. replace (Z.to_nat (after + 1 - (n + 1))) with O by lia.
    replace (n + Z.max 0 (after + 1 - n)) with n by lia. replace (n + 1 + Z.max 0 (after + 1 - (n + 1))) with (n + 1) by lia. done.
  - replace (Z.to_nat (after + 1 - n)) with (S (Z.to_nat (after + 1 - (n + 1)))) by lia. cbn [drop]. f_equal. lia.
Qed.

Lemma evict_front_drop cap l : 1 <= cap → evict_front cap l = drop (Z.to_nat (blen l - cap)) l.
Proof.
  intros Hc. induction l as [|e l IH]; [by rewrite drop_nil|]. cbn [evict_front]. rewrite blen_cons. destruct (Z.ltb_spec cap (1 + blen l)) as [H|H].
  - rewrite IH. replace (Z.to_nat (1 + blen l - cap)) with (S (Z.to_nat (blen l - cap))) by lia. done.
  - by replace (Z.to_nat (1 + blen l - cap)) with O by lia.
Qed.

Lemma blen_window cap log : 0 <= cap → blen (window cap log) = Z.min cap (blen log).
Proof. intros Hc. unfold window, blen. rewrite length_drop. lia. Qed.

(** Recording a hint the window does not hold. *)
Lemma store_of_snoc cap log e : 1 <= cap →
  evict_front cap (number (1 + Z.max 0 (blen log - cap)) (window cap log) ++ [{| seq_no := 1 + blen log; s_xite := e.(xite); s_modified := e.(modified) |}]) =
  number (1 + Z.max 0 (blen (log ++ [e]) - cap)) (window cap (log ++ [e])).
Proof.
  intros Hc. pose proof (blen_window cap log ltac:(lia)) as Hw. pose proof (blen_nonneg log) as H0.
  assert ([{| seq_no := 1 + blen log; s_xite := e.(xite); s_modified := e.(modified) |}] = number (1 + Z.max 0 (blen log - cap) + blen (window cap log)) [e]) as ->.
  { cbn. do 2 f_equal. lia. }
  rewrite <- number_app, evict_front_drop, number_drop by done.
  assert (∀ n l, blen (number n l) = blen l) as Hbn by (intros; unfold blen; by rewrite length_number).
  rewrite Hbn, blen_app, Hw. change (blen [e]) with 1.
  assert (blen (log ++ [e]) = blen log + 1) as Hl by (rewrite blen_app; done). unfold window. rewrite Hl.
  destruct (Z.leb_spec (blen log + 1) cap) as [Hle|Hle].
  - replace (Z.to_nat (Z.min cap (blen log) + 1 - cap)) with O by lia. replace (Z.to_nat (blen log - cap)) with O by lia.
    replace (Z.to_nat (blen log + 1 - cap)) with O by lia. cbn [drop]. f_equal. lia.
  - replace (Z.to_nat (Z.min cap (blen log) + 1 - cap)) with 1%nat by lia.
    assert (drop 1 (drop (Z.to_nat (blen log - cap)) log ++ [e]) = drop (Z.to_nat (blen log + 1 - cap)) (log ++ [e])) as ->.
    { rewrite <- drop_app_le by (unfold blen in *; lia). rewrite drop_drop. f_equal. lia. }
    f_equal. lia.
Qed.

(** ** Recording and reading against the log *)

Definition eqb_note (x : bytes) (m : Z) (e : Stored) : bool := bool_decide (e.(s_xite) = x) && (e.(s_modified) =? m).

Lemma find_number n l x m : match List.find (eqb_note x m) (number n l) with
  | Some e => e.(s_xite) = x ∧ e.(s_modified) = m ∧ n <= e.(seq_no) < n + blen l ∧ l !! Z.to_nat (e.(seq_no) - n) = Some {| xite := x; modified := m |}
  | None => {| xite := x; modified := m |} ∉ l end.
Proof.
  revert n. induction l as [|[y k] l IH]; intros n; cbn [number List.find]; [apply not_elem_of_nil|].
  destruct (eqb_note x m _) eqn:E.
  - apply andb_true_iff in E as [E1%bool_decide_eq_true E2%Z.eqb_eq]. cbn in E1, E2. subst y k. cbn. rewrite blen_cons, Z.sub_diag. pose proof (blen_nonneg l). split_and!; [done..|lia|lia|done].
  - specialize (IH (n + 1)). destruct (List.find (eqb_note x m) (number (n + 1) l)) as [e|].
    + destruct IH as (H1 & H2 & H3 & H4). rewrite blen_cons. split_and!; [done..|lia|lia|].
      replace (Z.to_nat (seq_no e - n)) with (S (Z.to_nat (seq_no e - (n + 1)))) by lia. done.
    + rewrite not_elem_of_cons. split; [|done]. intros [= -> ->]. unfold eqb_note in E. cbn in E. by rewrite bool_decide_true, Z.eqb_refl in E.
Qed.

(** The log after a report. *)
Definition log_record (cap : Z) (log : list Notification) (n : Notification) : list Notification :=
  if decide (n ∈ window cap log) then log else log ++ [n].

Lemma record_spec cap log n : 1 <= cap →
  let '(sq, s') := record n.(xite) n.(modified) (store_of cap log) in
  s' = store_of cap (log_record cap log n) ∧ 1 <= sq ∧ log_record cap log n !! Z.to_nat (sq - 1) = Some n.
Proof.
  intros Hc. destruct n as [x m]. cbn [xite modified]. unfold record, log_record. change (λ e, bool_decide (s_xite e = x) && (s_modified e =? m)) with (eqb_note x m).
  cbn [items store_of]. pose proof (find_number (1 + Z.max 0 (blen log - cap)) (window cap log) x m) as Hf.
  destruct (List.find _ _) as [e|].
  - destruct Hf as (_ & _ & Hr & Hl). assert ({| xite := x; modified := m |} ∈ window cap log) as Hin by (by apply list_elem_of_lookup_2 in Hl).
    rewrite decide_True by done. split; [done|]. split; [lia|]. unfold window in Hl. rewrite lookup_drop in Hl. rewrite <- Hl. f_equal. lia.
  - rewrite decide_False by done. pose proof (blen_nonneg log). split; [|split; [cbn; lia|cbn [next_seq store_of]]].
    + pose proof (store_of_snoc cap log {| xite := x; modified := m |} Hc) as E. cbn [xite modified] in E.
      unfold store_of. cbn. rewrite E, blen_app. change (blen [{| xite := x; modified := m |}]) with 1. f_equal. lia.
    + replace (1 + blen log - 1) with (blen log) by lia. unfold blen. rewrite Nat2Z.id. by apply list_lookup_middle.
Qed.

Lemma since_spec cap log after : 1 <= cap → 0 <= after → since after (store_of cap log) = (drop (Z.to_nat (Z.max after (blen log - cap))) log, blen log).
Proof.
  intros Hc Ha. unfold since, head, sat_sub. cbn [items next_seq store_of]. pose proof (blen_nonneg log). f_equal; [|lia].
  rewrite filter_number, number_notification. unfold window. rewrite drop_drop. f_equal. lia.
Qed.

(** ** Polling *)

Definition run_records (hs : list Notification) (s : PropagationStore) : PropagationStore :=
  foldl (λ s n, (record n.(xite) n.(modified) s).2) s hs.

Definition log_records (cap : Z) (hs : list Notification) (log : list Notification) : list Notification := foldl (log_record cap) log hs.

Lemma run_records_spec cap hs log : 1 <= cap → run_records hs (store_of cap log) = store_of cap (log_records cap hs log).
Proof.
  intros Hc. revert log. induction hs as [|n hs IH]; intros log; [done|]. change (log_records cap (n :: hs) log) with (log_records cap hs (log_record cap log n)).
  change (run_records (n :: hs) (store_of cap log)) with (run_records hs (record n.(xite) n.(modified) (store_of cap log)).2).
  pose proof (record_spec cap log n Hc) as H. destruct (record _ _ _) as [sq s']. destruct H as (-> & _). cbn [snd]. apply IH.
Qed.

(** Reports only append to the log, each from the reports, and each report is in
    what was appended or in the window the store started with. *)
Lemma log_records_spec cap hs log : 1 <= cap → ∃ new, log_records cap hs log = log ++ new ∧ (∀ n, n ∈ new → n ∈ hs) ∧
  (∀ n, n ∈ hs → n ∈ new ∨ n ∈ window cap log).
Proof.
  intros Hc. revert log. induction hs as [|h hs IH]; intros log.
  { exists []. split_and!; [by rewrite app_nil_r|done|intros n Hn; by apply elem_of_nil in Hn]. }
  change (log_records cap (h :: hs) log) with (log_records cap hs (log_record cap log h)). destruct (IH (log_record cap log h)) as (new & -> & H1 & H2).
  unfold log_record in *. case_decide as Hw.
  - exists new. split_and!; [done|intros n Hn; right; by apply H1|]. intros n [->|Hn]%elem_of_cons; [by right|by apply H2].
  - exists (h :: new). split_and!; [by rewrite <- app_assoc|intros n [->|Hn]%elem_of_cons; [left|right; by apply H1]|].
    intros n [->|Hn]%elem_of_cons; [left; left|]. destruct (H2 n Hn) as [Hn'|Hn']; [left; by right|].
    unfold window in Hn'. rewrite blen_app in Hn'. change (blen [h]) with 1 in Hn'. rewrite list_elem_of_lookup in Hn'. destruct Hn' as [i Hi].
    rewrite lookup_drop in Hi. destruct (decide (Z.to_nat (blen log + 1 - cap) + i < length log)%nat) as [Hlt|Hge].
    + right. rewrite lookup_app_l in Hi by done. apply list_elem_of_lookup. unfold window.
      exists (Z.to_nat (blen log + 1 - cap) + i - Z.to_nat (blen log - cap))%nat. rewrite lookup_drop. rewrite <- Hi. f_equal. lia.
    + left. rewrite lookup_app_r in Hi by lia. apply list_lookup_singleton_Some in Hi as [_ <-]. left.
Qed.

(** A peer back from being offline catches up from its cursor. Let it have
    read up to [head] when the store had taken the reports [hs1]; after any
    further reports [hs2], reading from that cursor yields only notifications
    among [hs2], as many as were newly stored but never more than the capacity,
    and the new head. If no more than the capacity were stored meanwhile, every
    report of [hs2] is in what it reads or was already held when it last read; and
    reading again from the new head yields nothing. *)
Theorem catch_up c hs1 hs2 :
  let s1 := run_records hs1 (with_capacity c) in
  let s2 := run_records hs2 s1 in
  let '(got, h) := since (head s1) s2 in
  h = head s2 ∧ head s1 <= head s2 ∧ blen got = Z.min (head s2 - head s1) (Z.max c 1) ∧ (∀ n, n ∈ got → n ∈ hs2) ∧
  (head s2 - head s1 <= Z.max c 1 → ∀ n, n ∈ hs2 → n ∈ got ∨ n ∈ (since 0 s1).1) ∧
  since h s2 = ([], h).
Proof.
  cbv zeta. assert (1 <= Z.max c 1) as Hk by lia.
  assert (with_capacity c = store_of (Z.max c 1) []) as -> by (unfold with_capacity, store_of, window; by rewrite drop_nil).
  generalize dependent (Z.max c 1). intros k Hk. rewrite !run_records_spec by done. set (log1 := log_records k hs1 []). clearbody log1.
  destruct (log_records_spec k hs2 log1 Hk) as (new & -> & Hnew & Hall). pose proof (blen_nonneg log1) as H1. pose proof (blen_nonneg new) as H2.
  assert (∀ l, head (store_of k l) = blen l) as Hh by (intros l; unfold head, sat_sub; cbn; pose proof (blen_nonneg l); lia).
  rewrite !Hh, !since_spec, blen_app by lia. split_and!; [done|lia| | | |].
  - unfold blen. rewrite length_drop, length_app. unfold blen in *. lia.
  - intros n Hn. apply Hnew. replace (Z.to_nat (Z.max (blen log1) (blen log1 + blen new - k))) with (length log1 + Z.to_nat (blen new - k))%nat in Hn by (unfold blen; lia).
    rewrite drop_app_add in Hn. rewrite <- (take_drop (Z.to_nat (blen new - k)) new). apply elem_of_app. by right.
  - intros Hle n Hn. rewrite (Z.max_l (blen log1)) by lia. unfold blen at 1. rewrite Nat2Z.id, drop_app_length.
    destruct (Hall n Hn) as [?|Hw]; [by left|right]. unfold window in Hw. cbn [fst]. replace (Z.to_nat (Z.max 0 (blen log1 - k))) with (Z.to_nat (blen log1 - k)) by lia. exact Hw.
  - rewrite since_spec, blen_app by lia. f_equal. apply drop_ge. rewrite length_app. unfold blen in *. lia.
Qed.

(** Of the hints a peer pulls, exactly those are synced that name a hosted
    xite at a newer version than the one held. *)
Lemma needs_sync_spec notifications local n :
  n ∈ needs_sync notifications local ↔ n ∈ notifications ∧ ∃ have, local !! n.(xite) = Some have ∧ have < n.(modified).
Proof.
  unfold needs_sync. rewrite elem_of_bfilter. split; intros [H1 H2]; (split; [done|]).
  - destruct (local !! xite n) as [have|]; [|done]. exists have. split; [done|lia].
  - destruct H2 as (have & -> & H). lia.
Qed.
