(* ===== verification/Chain.v ===== *)
(** * Name resolution ([crates/epix-chain])

    Resolving [.epix] names through the chain's RPC: Merkle proofs, the finalized
    state digest, the caches, whole-state attestation, the random beacon, and the
    gate that keeps requests off the clearnet in Tor-always mode.

    The RPC server answers as it likes: [rpc] gives the answer to a request from
    everything sent so far. Time is read from [clock], one reading per call.
    SHA-256 and hexadecimal conversion are third-party crates and parameters.
    Each operation runs to its end before the next: the caches' locks are not
    held across requests in the code, and interleavings between two operations
    are not modelled. *)
From Stdlib Require Import ZArith Lia Strings.Byte Strings.String.
From stdpp Require Import base list sorting strings gmap.
From S2P Require Import Prelude Ordered Json Text.
#[local] Open Scope Z_scope.

Inductive ChainError :=
  | Rpc (m : bytes) | NotFound (m : bytes) | MerkleInvalid | DigestMismatch | NotFinalized | Malformed (m : bytes).

#[global] Instance ChainError_eq_dec : EqDecision ChainError.
Proof. solve_decision. Defined.

Abbreviation res := (result ChainError).

(** ** Resolved domains *)

Definition EPIXNET_RECORD_TYPE : Z := 65280.

Record DnsRecord := { record_type : Z; value : bytes }.

Record Identity := { address : bytes; label : bytes; active : bool; revoked_at : Z; revoked_at_time : Z }.

Record DomainSnapshot := {
  name : bytes; tld : bytes; owner : bytes; content_root : bytes;
  identities : list Identity; dns_records : list DnsRecord; avatar : bytes; bio : bytes;
}.

Definition fqdn_of (name tld : bytes) : bytes := name ++ bstr "." ++ tld.
Definition fqdn (d : DomainSnapshot) : bytes := fqdn_of d.(name) d.(tld).

(** The UTF-8 forms of the characters [str::trim] removes. *)
Definition white_space : list bytes :=
  map (λ n, [byte_of n]) [9; 10; 11; 12; 13; 32] ++ [[xc2; x85]; [xc2; xa0]; [xe1; x9a; x80]] ++
  map (λ n, [xe2; x80; byte_of n]) [0x80; 0x81; 0x82; 0x83; 0x84; 0x85; 0x86; 0x87; 0x88; 0x89; 0x8a; 0xa8; 0xa9; 0xaf] ++
  [[xe2; x81; x9f]; [xe3; x80; x80]].

(** Drop leading [pats]; every step drops at least a byte, so the length is fuel enough. *)
Fixpoint trim_pats (fuel : nat) (pats : list bytes) (s : bytes) : bytes :=
  match fuel with
  | O => s
  | S fuel =>
    match list_find (λ p, starts_with p s = true) pats with
    | Some (_, p) => trim_pats fuel pats (drop (length p) s)
    | None => s
    end
  end.

Definition trim (s : bytes) : bytes :=
  let s := trim_pats (length s) white_space s in
  rev (trim_pats (length s) (map (@rev byte) white_space) (rev s)).

Definition xite_address (d : DomainSnapshot) : option bytes :=
  '(_, r) ← list_find (λ r, r.(record_type) = EPIXNET_RECORD_TYPE) d.(dns_records); Some (trim r.(value)).

Definition active_identity (d : DomainSnapshot) : option bytes :=
  '(_, i) ← list_find (λ i, i.(active) = true) d.(identities); Some i.(address).

(** A u64 that may come as a JSON number or as text. *)
Definition u64_value (v : json) : option Z :=
  match as_u64 v with Some n => Some n | None => s ← as_str v; parse_u64 s end.
Definition u64_field (v : json) (key : bytes) : option Z := f ← jget v key; u64_value f.
Definition num_field (v : json) (key : bytes) : Z := default 0 (u64_field v key).
Definition as_u32 (v : json) : option Z := wrap32 <$> u64_value v.
Definition str_field (v : json) (key : bytes) : res bytes := ok_or (get_str v key) (Malformed (bstr "missing `" ++ key ++ bstr "`")).
Definition str_or_empty (v : json) (key : bytes) : bytes := default [] (get_str v key).
(** [.get(key).filter(|v| !v.is_null())]. *)
Definition get_non_null (v : json) (key : bytes) : option json := x ← jget v key; if decide (x = JNull) then None else Some x.

Definition parse_identity (id : json) : option Identity :=
  address ← get_str id (bstr "address");
  Some {| address := address; label := str_or_empty id (bstr "label"); active := default false (get_bool id (bstr "active"));
          revoked_at := num_field id (bstr "revoked_at"); revoked_at_time := num_field id (bstr "revoked_at_time") |}.

Definition parse_dns (r : json) : option DnsRecord :=
  ty ← v ← jget r (bstr "record_type"); as_u32 v;
  value ← get_str r (bstr "value");
  Some {| record_type := ty; value := value |}.

(** A field of an optional value. *)
Definition opt_str (v : option json) (key : bytes) : bytes := default [] (v ← v; get_str v key).

Definition parse_domain (name tld : bytes) (domain : json) : DomainSnapshot := {|
  name := name; tld := tld;
  owner := opt_str (jget domain (bstr "record")) (bstr "owner");
  content_root := str_or_empty domain (bstr "content_root");
  identities := omap parse_identity (default [] (get_array domain (bstr "identities")));
  dns_records := omap parse_dns (default [] (get_array domain (bstr "dns_records")));
  avatar := opt_str (jget domain (bstr "profile")) (bstr "avatar");
  bio := opt_str (jget domain (bstr "profile")) (bstr "bio");
|}.

(** ** Merkle proofs *)

Section merkle.
Context (sha256 : bytes → bytes) (hex_encode : bytes → bytes) (hex_decode : bytes → result bytes bytes).

Definition merkle_step (idx : Z) (current sibling : bytes) : bytes :=
  sha256 (if idx mod 2 =? 0 then current ++ sibling else sibling ++ current).

Fixpoint verify_loop (current : bytes) (idx : Z) (siblings : list bytes) : res bytes :=
  match siblings with
  | [] => Ok current
  | sibling_hex :: siblings =>
    sibling ← map_err (λ e, Malformed (bstr "sibling hash: " ++ e)) (hex_decode sibling_hex);
    verify_loop (merkle_step idx current sibling) (idx / 2) siblings
  end.

Definition verify_proof (leaf_hash : bytes) (leaf_index : Z) (siblings : list bytes) (expected_root : bytes) : res bool :=
  current ← map_err (λ e, Malformed (bstr "leaf hash: " ++ e)) (hex_decode leaf_hash);
  root ← verify_loop current leaf_index siblings;
  Ok (bool_decide (hex_encode root = expected_root)).
End merkle.

(** ** The node's chain state *)

(** The holders of a cached HTTP client. *)
Inductive holder := HResolver | HAttestation | HVrf.
#[global] Instance holder_eq_dec : EqDecision holder.
Proof. solve_decision. Defined.

Record http_client := { c_gen : Z; c_proxy : option bytes }.

Record StateDigest := { sd_digest : bytes; sd_height : Z; sd_num_names : Z }.

Record Beacon := { b_height : Z; b_beacon : bytes; b_proposer : bytes; b_timestamp : Z }.

Record XidInfo := {
  x_name : bytes; x_tld : bytes; x_owner : bytes; x_active : bool; x_revoked_at : Z; x_revoked_at_time : Z; x_avatar : bytes; x_bio : bytes;
}.

(** A request: the proxy it went through, and its URL. *)
Abbreviation request := (option bytes * bytes)%type.

Record world := {
  ticks : nat;
  sent : list request;
  chain_socks : option bytes;
  socks_gen : Z;
  require_tor : bool;
  clients : holder → http_client;
  r_cache : gmap bytes (DomainSnapshot * Z);
  r_digest : option (bytes * Z);
  a_digest : option (StateDigest * Z);
  a_finalized : gmap bytes (bool * Z);
  a_names : gmap (bytes * bytes) (option json * bytes);
  v_beacons : gmap Z (Beacon * Z);
  v_latest : option (Beacon * Z);
  signers_cache : gmap bytes (list bytes * Z);
  identity_cache : gmap bytes (option XidInfo * Z);
}.

Definition upd_net (w : world) (t : nat) (l : list request) (c : holder → http_client) : world := {|
  ticks := t; sent := l; chain_socks := w.(chain_socks); socks_gen := w.(socks_gen); require_tor := w.(require_tor); clients := c;
  r_cache := w.(r_cache); r_digest := w.(r_digest); a_digest := w.(a_digest); a_finalized := w.(a_finalized); a_names := w.(a_names);
  v_beacons := w.(v_beacons); v_latest := w.(v_latest); signers_cache := w.(signers_cache); identity_cache := w.(identity_cache) |}.

Definition upd_mode (w : world) (socks : option bytes) (gen : Z) (tor : bool) : world := {|
  ticks := w.(ticks); sent := w.(sent); chain_socks := socks; socks_gen := gen; require_tor := tor; clients := w.(clients);
  r_cache := w.(r_cache); r_digest := w.(r_digest); a_digest := w.(a_digest); a_finalized := w.(a_finalized); a_names := w.(a_names);
  v_beacons := w.(v_beacons); v_latest := w.(v_latest); signers_cache := w.(signers_cache); identity_cache := w.(identity_cache) |}.

Definition upd_resolver (w : world) (c : gmap bytes (DomainSnapshot * Z)) (d : option (bytes * Z)) : world := {|
  ticks := w.(ticks); sent := w.(sent); chain_socks := w.(chain_socks); socks_gen := w.(socks_gen); require_tor := w.(require_tor); clients := w.(clients);
  r_cache := c; r_digest := d; a_digest := w.(a_digest); a_finalized := w.(a_finalized); a_names := w.(a_names);
  v_beacons := w.(v_beacons); v_latest := w.(v_latest); signers_cache := w.(signers_cache); identity_cache := w.(identity_cache) |}.

Definition upd_attestation (w : world) (d : option (StateDigest * Z)) (f : gmap bytes (bool * Z)) (n : gmap (bytes * bytes) (option json * bytes)) : world := {|
  ticks := w.(ticks); sent := w.(sent); chain_socks := w.(chain_socks); socks_gen := w.(socks_gen); require_tor := w.(require_tor); clients := w.(clients);
  r_cache := w.(r_cache); r_digest := w.(r_digest); a_digest := d; a_finalized := f; a_names := n;
  v_beacons := w.(v_beacons); v_latest := w.(v_latest); signers_cache := w.(signers_cache); identity_cache := w.(identity_cache) |}.

Definition upd_vrf (w : world) (b : gmap Z (Beacon * Z)) (l : option (Beacon * Z)) : world := {|
  ticks := w.(ticks); sent := w.(sent); chain_socks := w.(chain_socks); socks_gen := w.(socks_gen); require_tor := w.(require_tor); clients := w.(clients);
  r_cache := w.(r_cache); r_digest := w.(r_digest); a_digest := w.(a_digest); a_finalized := w.(a_finalized); a_names := w.(a_names);
  v_beacons := b; v_latest := l; signers_cache := w.(signers_cache); identity_cache := w.(identity_cache) |}.

Definition upd_xid (w : world) (s : gmap bytes (list bytes * Z)) (i : gmap bytes (option XidInfo * Z)) : world := {|
  ticks := w.(ticks); sent := w.(sent); chain_socks := w.(chain_socks); socks_gen := w.(socks_gen); require_tor := w.(require_tor); clients := w.(clients);
  r_cache := w.(r_cache); r_digest := w.(r_digest); a_digest := w.(a_digest); a_finalized := w.(a_finalized); a_names := w.(a_names);
  v_beacons := w.(v_beacons); v_latest := w.(v_latest); signers_cache := s; identity_cache := i |}.

(** Stateful, fallible operations. *)
Definition M (E A : Type) : Type := world → result E A * world.

#[global] Instance M_ret {E} : MRet (M E) := λ A a w, (Ok a, w).
#[global] Instance M_bind {E} : MBind (M E) := λ A B f m w,
  match m w with (Ok a, w) => f a w | (Err e, w) => (Err e, w) end.

Definition throw {E A} (e : E) : M E A := λ w, (Err e, w).
Definition lift {E A} (r : result E A) : M E A := λ w, (r, w).
Definition gets {E A} (f : world → A) : M E A := λ w, (Ok (f w), w).
Definition puts {E} (f : world → world) : M E () := λ w, (Ok (), f w).
(** [.await.ok()]: the outcome as a value. *)
Definition try {E F A} (m : M E A) : M F (result E A) := λ w, let '(r, w) := m w in (Ok r, w).

(** ** Requests *)

Definition SECS (n : Z) : Z := n * 10 ^ 9.

Definition set_chain_socks (socks : option bytes) (w : world) : world :=
  upd_mode w (s ← socks; if decide (s = []) then None else Some s) (w.(socks_gen) + 1) w.(require_tor).

Definition set_chain_require_tor (required : bool) (w : world) : world := upd_mode w w.(chain_socks) w.(socks_gen) required.

Definition chain_egress_ok (w : world) : res () :=
  if w.(require_tor) && bool_decide (w.(chain_socks) = None)
  then Err (Rpc (bstr "Tor-always mode: chain RPC blocked until Tor is ready")) else Ok ().

(** The holder's client for the current proxy setting, rebuilt when it changed. *)
Definition client {E} (h : holder) : M E (option bytes) := λ w,
  let c := w.(clients) h in
  if c.(c_gen) =? w.(socks_gen) then (Ok c.(c_proxy), w)
  else
    let c' := {| c_gen := w.(socks_gen); c_proxy := w.(chain_socks) |} in
    (Ok c'.(c_proxy), upd_net w w.(ticks) w.(sent) (λ h', if decide (h' = h) then c' else w.(clients) h')).

Section ops.
Context (sha256 : bytes → bytes) (hex_encode : bytes → bytes) (hex_decode : bytes → result bytes bytes).
(** The answer to the newest request, given all requests so far; an error is a
    failed request or a body that is not JSON. *)
Context (rpc : list request → result bytes json).
(** The [n]th reading of the clock, in nanoseconds. *)
Context (clock : nat → Z).

Definition now {E} : M E Z := λ w, (Ok (clock w.(ticks)), upd_net w (S w.(ticks)) w.(sent) w.(clients)).
(** [at.elapsed()]. *)
Definition elapsed {E} (t : Z) : M E Z := n ← now; mret (Z.max 0 (n - t)).

Definition send (proxy : option bytes) (url : bytes) : M ChainError json := λ w,
  let w := upd_net w w.(ticks) ((proxy, url) :: w.(sent)) w.(clients) in
  (map_err Rpc (rpc w.(sent)), w).

Definition get_json (h : holder) (url : bytes) : M ChainError json :=
  _ ← (λ w, (chain_egress_ok w, w));
  proxy ← client h;
  send proxy url.

(** A cache entry younger than [ttl]. *)
Definition fresh {E A} (ttl : Z) (entry : option (A * Z)) : M E (option A) :=
  match entry with
  | Some (a, t) => e ← elapsed t; mret (if e <? ttl then Some a else None)
  | None => mret None
  end.

(** ** [XidResolver] *)

Definition DEFAULT_RPC_URL : bytes := bstr "https://api.epix.zone".
Definition RESOLVE_TTL : Z := SECS (30 * 60).
Definition R_DIGEST_TTL : Z := SECS 3.

Context (rpc_url : bytes).

(** Fetch the current digest and confirm validators finalized it. *)
Definition digest_fetch (proof_root : bytes) : M ChainError bool :=
  info ← get_json HResolver (rpc_url ++ bstr "/xid/v1/state_digest");
  attested ← lift (str_field info (bstr "digest"));
  att ← get_json HResolver (rpc_url ++ bstr "/xid/v1/attestations?digest=" ++ attested);
  if negb (default false (get_bool att (bstr "finalized"))) then throw NotFinalized
  else
    t ← now;
    _ ← puts (λ w, upd_resolver w w.(r_cache) (Some (attested, t)));
    mret (bool_decide (attested = proof_root)).

Definition digest_matches (proof_root : bytes) (force_fresh : bool) : M ChainError bool :=
  if force_fresh then digest_fetch proof_root
  else
    d ← gets r_digest;
    hit ← fresh R_DIGEST_TTL d;
    match hit with
    | Some digest => mret (bool_decide (digest = proof_root))
    | None => digest_fetch proof_root
    end.

(** What the server's answer must contain for a record to be taken. *)
Record proof_parts := { pp_leaf : bytes; pp_index : Z; pp_root : bytes; pp_siblings : list bytes }.

Definition parse_proof (data : json) : res proof_parts :=
  proof ← ok_or (jget data (bstr "proof")) (Malformed (bstr "missing proof"));
  leaf ← str_field proof (bstr "leaf_hash");
  root ← ok_or (match get_str proof (bstr "root") with Some r => Some r | None => get_str data (bstr "root") end) (Malformed (bstr "missing proof root"));
  Ok {| pp_leaf := leaf; pp_index := num_field proof (bstr "leaf_index"); pp_root := root;
        pp_siblings := omap as_str (default [] (get_array proof (bstr "siblings"))) |}.

Definition resolve (name tld : bytes) : M ChainError DomainSnapshot :=
  let key := fqdn_of name tld in
  entry ← gets (λ w, w.(r_cache) !! key);
  hit ← fresh RESOLVE_TTL entry;
  match hit with
  | Some snap => mret snap
  | None =>
    data ← get_json HResolver (rpc_url ++ bstr "/xid/v1/resolve_with_proof/" ++ tld ++ bstr "/" ++ name);
    domain ← lift (ok_or (get_non_null data (bstr "domain")) (NotFound key));
    p ← lift (parse_proof data);
    ok ← lift (verify_proof sha256 hex_encode hex_decode p.(pp_leaf) p.(pp_index) p.(pp_siblings) p.(pp_root));
    if negb ok then throw MerkleInvalid
    else
      m1 ← digest_matches p.(pp_root) false;
      m2 ← (if (m1 : bool) then mret true else digest_matches p.(pp_root) true);
      if negb m2 then throw DigestMismatch
      else
        let snapshot := parse_domain name tld domain in
        t ← now;
        _ ← puts (λ w, upd_resolver w (<[key := (snapshot, t)]> w.(r_cache)) w.(r_digest));
        mret snapshot
  end.

Definition resolver_clear (w : world) : world := upd_resolver w ∅ None.

(** ** [ChainAttestation] *)

Definition A_DIGEST_TTL : Z := SECS 15.
Definition ATTESTATION_TTL : Z := SECS 30.

Definition state_digest : M ChainError StateDigest :=
  d ← gets a_digest;
  hit ← fresh A_DIGEST_TTL d;
  match hit with
  | Some sd => mret sd
  | None =>
    data ← get_json HAttestation (rpc_url ++ bstr "/xid/v1/state_digest");
    digest ← lift (str_field data (bstr "digest"));
    let sd := {| sd_digest := digest; sd_height := num_field data (bstr "height"); sd_num_names := num_field data (bstr "num_names") |} in
    t ← now;
    _ ← puts (λ w, upd_attestation w (Some (sd, t)) w.(a_finalized) w.(a_names));
    mret sd
  end.

Definition is_finalized (digest : bytes) : M ChainError bool :=
  entry ← gets (λ w, w.(a_finalized) !! digest);
  hit ← fresh ATTESTATION_TTL entry;
  match hit with
  | Some f => mret f
  | None =>
    data ← get_json HAttestation (rpc_url ++ bstr "/xid/v1/attestations?digest=" ++ digest);
    let finalized := default false (get_bool data (bstr "finalized")) in
    t ← now;
    _ ← puts (λ w, upd_attestation w w.(a_digest) (<[digest := (finalized, t)]> w.(a_finalized)) w.(a_names));
    mret finalized
  end.

Definition verify_digest (content_state_digest : bytes) : M ChainError StateDigest :=
  if decide (content_state_digest = []) then throw (Malformed (bstr "content missing state_digest"))
  else
    chain ← state_digest;
    if decide (content_state_digest ≠ chain.(sd_digest)) then throw DigestMismatch
    else
      f ← is_finalized chain.(sd_digest);
      if negb f then throw NotFinalized else mret chain.

Definition attested_fetch_name (tld name current : bytes) : M ChainError (option json) :=
  data ← get_json HAttestation (rpc_url ++ bstr "/xid/v1/resolve/" ++ tld ++ bstr "/" ++ name);
  let record := get_non_null data (bstr "record") in
  _ ← puts (λ w, upd_attestation w w.(a_digest) w.(a_finalized) (<[(tld, name) := (record, current)]> w.(a_names)));
  mret record.

Definition attested_resolve_name (tld name : bytes) : M ChainError (option json) :=
  d ← try state_digest;
  let current := match d with Ok sd => sd.(sd_digest) | Err _ => [] end in
  entry ← gets (λ w, w.(a_names) !! (tld, name));
  match entry with
  | Some (record, seen) => if decide (seen = current) then mret record else attested_fetch_name tld name current
  | None => attested_fetch_name tld name current
  end.

(** ** [Vrf] *)

Definition BEACON_TTL : Z := SECS 300.
Definition LATEST_TTL : Z := SECS 6.

Definition derive_random (beacon_hex seed : bytes) (count : nat) : list bytes :=
  map (λ i, hex_encode (sha256 (beacon_hex ++ seed ++ dec_nat (Z.of_nat i)))) (seq 0 count).

Definition combine_beacons (beacons : list bytes) : bytes := hex_encode (sha256 (concat beacons)).

Definition beacon (height : Z) : M ChainError Beacon :=
  entry ← gets (λ w, w.(v_beacons) !! height);
  hit ← fresh BEACON_TTL entry;
  match hit with
  | Some b => mret b
  | None =>
    data ← get_json HVrf (rpc_url ++ bstr "/vrf/v1/beacon/" ++ dec_nat height);
    bd ← lift (ok_or (get_non_null data (bstr "beacon")) (NotFound (bstr "beacon " ++ dec_nat height)));
    let b := {| b_height := default height (u64_field bd (bstr "height")); b_beacon := str_or_empty bd (bstr "beacon");
                b_proposer := str_or_empty bd (bstr "proposer"); b_timestamp := num_field bd (bstr "timestamp") |} in
    t ← now;
    _ ← puts (λ w, upd_vrf w (<[height := (b, t)]> w.(v_beacons)) w.(v_latest));
    mret b
  end.

Definition latest_beacon : M ChainError Beacon :=
  l ← gets v_latest;
  hit ← fresh LATEST_TTL l;
  match hit with
  | Some b => mret b
  | None =>
    block ← get_json HVrf (rpc_url ++ bstr "/cosmos/base/tendermint/v1beta1/blocks/latest");
    height ← lift (ok_or (b ← jget block (bstr "block"); h ← jget b (bstr "header"); u64_field h (bstr "height")) (Malformed (bstr "no latest block height")));
    if height <? 2 then throw (NotFound (bstr "no beacon produced yet"))
    else
      b ← beacon (height - 1);
      t ← now;
      _ ← puts (λ w, upd_vrf w w.(v_beacons) (Some (b, t)));
      mret b
  end.

Fixpoint collect_beacons (start : Z) (blocks : nat) : M ChainError (list bytes) :=
  match blocks with
  | O => mret []
  | S blocks =>
    b ← beacon start;
    if decide (b.(b_beacon) = []) then throw (NotFound (bstr "beacon " ++ dec_nat start))
    else rest ← collect_beacons (start + 1) blocks; mret (b.(b_beacon) :: rest)
  end.

Definition multi_block_beacon (end_height blocks : Z) : M ChainError bytes :=
  if negb ((1 <=? blocks) && (blocks <=? 256)) then throw (Malformed (bstr "blocks must be between 1 and 256"))
  else if end_height <? blocks then throw (Malformed (bstr "end_height must be >= blocks"))
  else hexes ← collect_beacons (end_height - blocks + 1) (Z.to_nat blocks); mret (combine_beacons hexes).

(** ** Linked identities *)

Definition SIGNERS_TTL : Z := SECS (30 * 60).
Definition POSITIVE_TTL : Z := SECS (24 * 60 * 60).
Definition NEGATIVE_TTL : Z := SECS 30.

Definition signers_resolve {E} (name tld : bytes) : M E (list bytes) :=
  let key := fqdn_of name tld in
  entry ← gets (λ w, w.(signers_cache) !! key);
  hit ← fresh SIGNERS_TTL entry;
  match hit with
  | Some s => mret s
  | None =>
    d ← try (resolve name tld);
    match d with
    | Err _ => mret []
    | Ok domain =>
      let signers := map address domain.(identities) in
      t ← now;
      _ ← puts (λ w, upd_xid w (<[key := (signers, t)]> w.(signers_cache)) w.(identity_cache));
      mret signers
    end
  end.

Definition identity_cached {E} (key : bytes) : M E (option (option XidInfo)) :=
  entry ← gets (λ w, w.(identity_cache) !! key);
  match entry with
  | Some (info, t) =>
    e ← elapsed t;
    mret (if e <? (match info with Some _ => POSITIVE_TTL | None => NEGATIVE_TTL end) then Some info else None)
  | None => mret None
  end.

Definition identity_store {E} (key : bytes) (info : option XidInfo) : M E () :=
  t ← now;
  puts (λ w, upd_xid w w.(signers_cache) (<[key := (info, t)]> w.(identity_cache))).

Definition xid_info (d : DomainSnapshot) (active : bool) (revoked_at revoked_at_time : Z) : XidInfo := {|
  x_name := d.(name); x_tld := d.(tld); x_owner := d.(owner); x_active := active; x_revoked_at := revoked_at;
  x_revoked_at_time := revoked_at_time; x_avatar := d.(avatar); x_bio := d.(bio) |}.

(** The reverse endpoint's request goes through a client built on the spot. *)
Definition reverse_lookup {E} (addr : bytes) : M E (result ChainError json) :=
  proxy ← gets chain_socks;
  try (send proxy (DEFAULT_RPC_URL ++ bstr "/xid/v1/reverse_identity/" ++ addr)).

Definition resolve_identity {E} (addr : bytes) : M E (option XidInfo) :=
  hit ← identity_cached addr;
  match hit with
  | Some info => mret info
  | None =>
    ok ← gets (λ w, is_ok (chain_egress_ok w));
    if negb ok then mret None
    else
      data ← reverse_lookup addr;
      match data with
      | Err _ => mret None
      | Ok data =>
        let name_tld := r ← get_non_null data (bstr "name_record"); Some (str_or_empty r (bstr "name"), str_or_empty r (bstr "tld")) in
        match name_tld with
        | None => _ ← identity_store addr None; mret None
        | Some (name, tld) =>
          if decide (name = [] ∨ tld = []) then _ ← identity_store addr None; mret None
          else
            d ← try (resolve name tld);
            match d with
            | Err _ => mret None
            | Ok domain =>
              match list_find (λ i, i.(address) = addr) domain.(identities) with
              | None => _ ← identity_store addr None; mret None
              | Some (_, ident) =>
                let info := xid_info domain ident.(active) ident.(revoked_at) ident.(revoked_at_time) in
                _ ← identity_store addr (Some info);
                _ ← identity_store (fqdn domain) (Some info);
                mret (Some info)
              end
            end
        end
      end
  end.

Definition xid_resolve_name {E} (fqdn : bytes) : M E (option XidInfo) :=
  match rsplit_once x2e fqdn with
  | None => mret None
  | Some (name, tld) =>
    if decide (name = [] ∨ tld = []) then mret None
    else
      hit ← identity_cached fqdn;
      match hit with
      | Some info => mret info
      | None =>
        d ← try (resolve name tld);
        match d with
        | Err (NotFound _) => _ ← identity_store fqdn None; mret None
        | Err _ => mret None
        | Ok domain =>
          let info := xid_info domain true 0 0 in
          _ ← identity_store fqdn (Some info);
          mret (Some info)
        end
      end
  end.

Definition clear_xid_caches (w : world) : world := upd_xid (resolver_clear w) ∅ ∅.
End ops.

(** ** Merkle proofs bind the leaf *)

Section merkle_facts.
Context (sha256 : bytes → bytes) (hex_encode : bytes → bytes) (hex_decode : bytes → result bytes bytes).
Hypothesis sha_length : ∀ x, length (sha256 x) = 32%nat.

(** Two inputs with one hash. *)
Definition collision : Prop := ∃ x y, x ≠ y ∧ sha256 x = sha256 y.

Lemma merkle_step_inj idx c1 s1 c2 s2 : length c1 = length c2 →
  merkle_step sha256 idx c1 s1 = merkle_step sha256 idx c2 s2 → c1 = c2 ∨ collision.
Proof.
  intros Hl Heq. unfold merkle_step in Heq. destruct (idx mod 2 =? 0).
  - destruct (decide (c1 ++ s1 = c2 ++ s2)) as [E|E]; [left|right; by eexists _, _].
    by apply app_inj_1 in E as [-> _].
  - destruct (decide (s1 ++ c1 = s2 ++ c2)) as [E|E]; [left|right; by eexists _, _].
    by apply app_inj_2 in E as [_ ->].
Qed.

Lemma verify_loop_inj siblings1 siblings2 : length siblings1 = length siblings2 →
  ∀ idx c1 c2 r, length c1 = length c2 →
  verify_loop sha256 hex_decode c1 idx siblings1 = Ok r → verify_loop sha256 hex_decode c2 idx siblings2 = Ok r → c1 = c2 ∨ collision.
Proof using sha_length.
  revert siblings2. induction siblings1 as [|s1 l1 IH]; intros [|s2 l2] Hlen idx c1 c2 r Hc; try done.
  - cbn. intros [= ->] [= ->]. by left.
  - cbn [verify_loop]. destruct (hex_decode s1) as [b1|]; [|done]. destruct (hex_decode s2) as [b2|]; [|done]. cbn [map_err mbind result_bind].
    intros H1 H2. eapply IH in H2; [|by injection Hlen| |exact H1]; [|unfold merkle_step; by rewrite !sha_length].
    destruct H2 as [H2|?]; [|by right]. by apply merkle_step_inj in H2.
Qed.
End merkle_facts.

(** A Merkle root binds the leaf at each index: two proofs with paths of one
    length that recompute to the same root from the same index prove the same
    32-byte leaf hash, unless they exhibit two inputs with one SHA-256. *)
Theorem merkle_binding (sha256 : bytes → bytes) (hex_encode : bytes → bytes) (hex_decode : bytes → result bytes bytes)
  leaf1 leaf2 b1 b2 idx siblings1 siblings2 root :
  (∀ x, length (sha256 x) = 32%nat) → (∀ x, hex_decode (hex_encode x) = Ok x) →
  hex_decode leaf1 = Ok b1 → hex_decode leaf2 = Ok b2 → length b1 = 32%nat → length b2 = 32%nat →
  length siblings1 = length siblings2 →
  verify_proof sha256 hex_encode hex_decode leaf1 idx siblings1 root = Ok true →
  verify_proof sha256 hex_encode hex_decode leaf2 idx siblings2 root = Ok true →
  b1 = b2 ∨ collision sha256.
Proof.
  intros Hsha Hhex H1 H2 Hb1 Hb2 Hlen. unfold verify_proof. rewrite H1, H2. cbn [map_err mbind result_bind].
  destruct (verify_loop sha256 hex_decode b1 idx siblings1) as [r1|] eqn:E1; [|done]. cbn [mbind result_bind]. intros [= Hr1%bool_decide_eq_true].
  destruct (verify_loop sha256 hex_decode b2 idx siblings2) as [r2|] eqn:E2; [|done]. cbn [mbind result_bind]. intros [= Hr2%bool_decide_eq_true].
  assert (@Ok bytes bytes r1 = Ok r2) as [= ->] by (rewrite <- (Hhex r1), <- (Hhex r2); congruence).
  eapply verify_loop_inj; [exact Hsha|exact Hlen| |exact E1|exact E2]. congruence.
Qed.

(** A digest is a proof of itself: with no siblings, any root is its own leaf. *)
Lemma root_proves_itself sha256 hex_encode hex_decode root b :
  hex_decode root = Ok b → hex_encode b = root → verify_proof sha256 hex_encode hex_decode root 0 [] root = Ok true.
Proof. intros Hd He. unfold verify_proof. rewrite Hd. cbn. by rewrite bool_decide_true. Qed.

(** ** Requests and the proxy *)

(** A client built for the current setting carries the current proxy. *)
Definition clients_current (w : world) : Prop := ∀ h, (w.(clients) h).(c_gen) = w.(socks_gen) → (w.(clients) h).(c_proxy) = w.(chain_socks).
(** No client is from the future. *)
Definition clients_past (w : world) : Prop := ∀ h, (w.(clients) h).(c_gen) <= w.(socks_gen).
Definition net_inv (w : world) : Prop := clients_current w ∧ clients_past w.

(** What a run may send under proxy setting [socks] in mode [tor]. *)
Definition sends_ok (socks : option bytes) (tor : bool) (new : list request) : Prop :=
  Forall (λ r, r.1 = socks) new ∧ (tor = true → socks = None → new = []).

Section egress.
Context (sha256 : bytes → bytes) (hex_encode : bytes → bytes) (hex_decode : bytes → result bytes bytes).
Context (rpc : list request → result bytes json) (clock : nat → Z) (rpc_url : bytes).
Context (socks : option bytes) (tor : bool).

Definition in_mode (w : world) : Prop := net_inv w ∧ w.(chain_socks) = socks ∧ w.(require_tor) = tor.

Definition safe {E A} (m : M E A) : Prop := ∀ w, in_mode w →
  in_mode (m w).2 ∧ (m w).2.(socks_gen) = w.(socks_gen) ∧ ∃ new, (m w).2.(sent) = new ++ w.(sent) ∧ sends_ok socks tor new.

Lemma sends_ok_nil : sends_ok socks tor [].
Proof. by split. Qed.

Lemma sends_ok_app l k : sends_ok socks tor l → sends_ok socks tor k → sends_ok socks tor (l ++ k).
Proof. intros [Hl1 Hl2] [Hk1 Hk2]. split; [by apply Forall_app|]. intros Ht Hs. by rewrite Hl2, Hk2. Qed.

(** A step that leaves the network state alone. *)
Lemma safe_quiet {E A} (m : M E A) :
  (∀ w, (m w).2.(sent) = w.(sent) ∧ (m w).2.(clients) = w.(clients) ∧ (m w).2.(socks_gen) = w.(socks_gen) ∧ (m w).2.(chain_socks) = w.(chain_socks) ∧ (m w).2.(require_tor) = w.(require_tor)) →
  safe m.
Proof.
  intros Hm w [[Hc Hp] [Hs Ht]]. destruct (Hm w) as (H1 & H2 & H3 & H4 & H5). split_and!.
  - split; [split; intros h; rewrite ?H2, ?H3, ?H4; [apply Hc|apply Hp]|split; congruence].
  - done.
  - exists []. split; [done|apply sends_ok_nil].
Qed.

Lemma gated_bind {E A B} (m : M E A) (k : A → M E B) : safe m → (∀ a, safe (k a)) → safe (m ≫= k).
Proof.
  intros Hm Hk w Hw. specialize (Hm w Hw). unfold mbind, M_bind. destruct (m w) as [[a|e] w1]; cbn [snd] in Hm; [|exact Hm].
  destruct Hm as (Hw1 & Hg & new & Hn & Hok). destruct (Hk a w1 Hw1) as (Hw2 & Hg2 & new2 & Hn2 & Hok2).
  split; [done|]. split; [congruence|]. exists (new2 ++ new). split; [by rewrite Hn2, Hn, app_assoc|by apply sends_ok_app].
Qed.

Lemma gated_ret {E A} (a : A) : @safe E A (mret a).
Proof. by apply safe_quiet. Qed.
Lemma safe_throw {E A} (e : E) : @safe E A (throw e).
Proof. by apply safe_quiet. Qed.
Lemma gated_lift {E A} (r : result E A) : safe (lift r).
Proof. by apply safe_quiet. Qed.
Lemma gated_gets {E A} (f : world → A) : @safe E A (gets f).
Proof. by apply safe_quiet. Qed.
Lemma safe_now {E} : safe (@now clock E).
Proof. by apply safe_quiet. Qed.
Lemma safe_try {E F A} (m : M E A) : safe m → safe (@try E F A m).
Proof. intros Hm w Hw. specialize (Hm w Hw). unfold try. by destruct (m w) as [[a|e] w1]. Qed.

Lemma safe_fresh {E A} ttl (entry : option (A * Z)) : safe (@fresh clock E A ttl entry).
Proof.
  destruct entry as [[a t]|]; [|apply gated_ret]. apply gated_bind; [|intros; apply gated_ret].
  apply gated_bind; [apply safe_now|intros; apply gated_ret].
Qed.

(** The check, the client and the request. *)
Lemma safe_get_json h url : safe (get_json rpc h url).
Proof.
  intros w Hw. destruct Hw as [[Hc Hp] [Hs Ht]]. unfold get_json, mbind, M_bind, chain_egress_ok, client, send, in_mode, net_inv, clients_current, clients_past. rewrite Hs, Ht.
  destruct (tor && bool_decide (socks = None)) eqn:Eg.
  { cbn. split_and!; [done..|]. exists []. split; [done|apply sends_ok_nil]. }
  assert (sends_ok socks tor [(socks, url)]) as Hok.
  { split; [by constructor|]. intros -> ->. by rewrite bool_decide_true in Eg. }
  destruct (Z.eqb_spec (c_gen (clients w h)) (socks_gen w)) as [E|E]; cbn.
  - split_and!; [done..|]. exists [(socks, url)]. rewrite (Hc h E), Hs. done.
  - split_and!; [| |done|done|done|].
    + intros h'. case_decide; [done|apply Hc].
    + intros h'. case_decide; [cbn; lia|apply Hp].
    + exists [(socks, url)]. rewrite ?Hs. done.
Qed.
End egress.

#[global] Hint Resolve gated_ret safe_throw gated_lift gated_gets safe_now safe_fresh safe_get_json safe_try : safe.

Ltac safe_step :=
  match goal with
  | |- safe _ _ (mbind _ _) => apply gated_bind; [|intros ?]
  | |- safe _ _ (match ?x with _ => _ end) => destruct x
  | |- safe _ _ (if ?x then _ else _) => destruct x
  | |- safe _ _ (let _ := _ in _) => cbv zeta
  | |- safe _ _ (try _) => apply safe_try
  | |- safe _ _ (puts _) => by apply safe_quiet
  | |- safe _ _ (identity_store _ _ _) => unfold identity_store
  | |- safe _ _ (identity_cached _ _) => unfold identity_cached
  | |- safe _ _ (elapsed _ _) => unfold elapsed
  | _ => solve [eauto with safe nocore]
  end.
Ltac safe := repeat safe_step.

Section egress_ops.
Context (sha256 : bytes → bytes) (hex_encode : bytes → bytes) (hex_decode : bytes → result bytes bytes).
Context (rpc : list request → result bytes json) (clock : nat → Z) (rpc_url : bytes).
Context (socks : option bytes) (tor : bool).

Lemma safe_digest_fetch root : safe socks tor (digest_fetch rpc clock rpc_url root).
Proof. unfold digest_fetch. safe. Qed.

Lemma safe_digest_matches root force : safe socks tor (digest_matches rpc clock rpc_url root force).
Proof. unfold digest_matches. destruct force; [apply safe_digest_fetch|]. safe. apply safe_digest_fetch. Qed.

Lemma safe_resolve name tld : safe socks tor (resolve sha256 hex_encode hex_decode rpc clock rpc_url name tld).
Proof. unfold resolve. safe; apply safe_digest_matches. Qed.

Lemma safe_state_digest : safe socks tor (state_digest rpc clock rpc_url).
Proof. unfold state_digest. safe. Qed.

Lemma safe_is_finalized d : safe socks tor (is_finalized rpc clock rpc_url d).
Proof. unfold is_finalized. safe. Qed.

Lemma safe_verify_digest d : safe socks tor (verify_digest rpc clock rpc_url d).
Proof. unfold verify_digest. safe; (apply safe_state_digest || apply safe_is_finalized). Qed.

Lemma safe_attested_name tld name : safe socks tor (attested_resolve_name rpc clock rpc_url tld name).
Proof. unfold attested_resolve_name, attested_fetch_name. safe; apply safe_state_digest. Qed.

Lemma safe_beacon h : safe socks tor (beacon rpc clock rpc_url h).
Proof. unfold beacon. safe. Qed.

Lemma safe_latest_beacon : safe socks tor (latest_beacon rpc clock rpc_url).
Proof. unfold latest_beacon. safe; apply safe_beacon. Qed.

Lemma safe_collect start n : safe socks tor (collect_beacons rpc clock rpc_url start n).
Proof. revert start. induction n as [|n IH]; intros start; cbn [collect_beacons]; safe; (apply safe_beacon || apply IH). Qed.

Lemma safe_multi_block e n : safe socks tor (multi_block_beacon sha256 hex_encode rpc clock rpc_url e n).
Proof. unfold multi_block_beacon. safe; apply safe_collect. Qed.

Lemma safe_signers {E} name tld : safe socks tor (@signers_resolve sha256 hex_encode hex_decode rpc clock rpc_url E name tld).
Proof. unfold signers_resolve. safe; apply safe_resolve. Qed.

(** The reverse lookup goes out only behind the gate. *)
Lemma safe_reverse_lookup {E} a : (tor && bool_decide (socks = None)) = false → safe socks tor (@reverse_lookup rpc E a).
Proof.
  intros Hg w Hw. pose proof Hw as [[Hc Hp] [Hs Ht]]. unfold reverse_lookup, gets, try, send, mbind, M_bind. rewrite Hs. cbn. split_and!; [by split|done|].
  exists [(socks, DEFAULT_RPC_URL ++ bstr "/xid/v1/reverse_identity/" ++ a)]. split; [done|]. split; [by constructor|].
  intros -> ->. by rewrite bool_decide_true in Hg.
Qed.

Lemma safe_gate {E B} (k : bool → M E B) :
  safe socks tor (k (negb (tor && bool_decide (socks = None)))) → safe socks tor (gets (λ w, is_ok (chain_egress_ok w)) ≫= k).
Proof.
  intros Hk w Hw. unfold mbind, M_bind, gets. cbn. replace (is_ok (chain_egress_ok w)) with (negb (tor && bool_decide (socks = None))); [by apply Hk|].
  destruct Hw as [_ [Hs Ht]]. unfold chain_egress_ok. rewrite Hs, Ht. by destruct (tor && bool_decide (socks = None)).
Qed.

Lemma safe_resolve_identity {E} a : safe socks tor (@resolve_identity sha256 hex_encode hex_decode rpc clock rpc_url E a).
Proof.
  unfold resolve_identity. apply gated_bind; [safe|]. intros [info|]; [safe|]. apply safe_gate.
  destruct (tor && bool_decide (socks = None)) eqn:Eg; cbn [negb]; [safe|]. apply gated_bind; [by apply safe_reverse_lookup|].
  intros ?; safe; apply safe_resolve.
Qed.

Lemma safe_xid_resolve_name {E} f : safe socks tor (@xid_resolve_name sha256 hex_encode hex_decode rpc clock rpc_url E f).
Proof. unfold xid_resolve_name. safe; apply safe_resolve. Qed.
End egress_ops.

(** ** Everything a node may do *)

Inductive chain_op :=
  | OResolve (name tld : bytes) | OVerifyDigest (d : bytes) | OAttestedName (tld name : bytes) | OBeacon (h : Z) | OLatest
  | OMulti (e n : Z) | OSigners (name tld : bytes) | OIdentity (addr : bytes) | OName (fqdn : bytes)
  | OClear | OSetSocks (s : option bytes) | OSetTor (b : bool).

Section run.
Context (sha256 : bytes → bytes) (hex_encode : bytes → bytes) (hex_decode : bytes → result bytes bytes).
Context (rpc : list request → result bytes json) (clock : nat → Z) (rpc_url : bytes).

Definition run_op (o : chain_op) (w : world) : world :=
  match o with
  | OResolve name tld => (resolve sha256 hex_encode hex_decode rpc clock rpc_url name tld w).2
  | OVerifyDigest d => (verify_digest rpc clock rpc_url d w).2
  | OAttestedName tld name => (attested_resolve_name rpc clock rpc_url tld name w).2
  | OBeacon h => (beacon rpc clock rpc_url h w).2
  | OLatest => (latest_beacon rpc clock rpc_url w).2
  | OMulti e n => (multi_block_beacon sha256 hex_encode rpc clock rpc_url e n w).2
  | OSigners name tld => (@signers_resolve sha256 hex_encode hex_decode rpc clock rpc_url ChainError name tld w).2
  | OIdentity a => (@resolve_identity sha256 hex_encode hex_decode rpc clock rpc_url ChainError a w).2
  | OName f => (@xid_resolve_name sha256 hex_encode hex_decode rpc clock rpc_url ChainError f w).2
  | OClear => clear_xid_caches w
  | OSetSocks s => set_chain_socks s w
  | OSetTor b => set_chain_require_tor b w
  end.

Definition run_ops (os : list chain_op) (w : world) : world := foldl (λ w o, run_op o w) w os.

Lemma run_op_net o w : net_inv w →
  net_inv (run_op o w) ∧ ∃ new, (run_op o w).(sent) = new ++ w.(sent) ∧ sends_ok w.(chain_socks) w.(require_tor) new.
Proof.
  intros Hinv. assert (in_mode w.(chain_socks) w.(require_tor) w) as Hm by (split; [done|split; done]).
  assert (∀ A (m : M ChainError A), safe w.(chain_socks) w.(require_tor) m →
    net_inv (m w).2 ∧ ∃ new, (m w).2.(sent) = new ++ w.(sent) ∧ sends_ok w.(chain_socks) w.(require_tor) new) as Hsafe.
  { intros A m Hs. destruct (Hs w Hm) as ([H1 _] & _ & H3). by split. }
  destruct o; cbn [run_op].
  1: apply Hsafe, safe_resolve. 1: apply Hsafe, safe_verify_digest. 1: apply Hsafe, safe_attested_name. 1: apply Hsafe, safe_beacon.
  1: apply Hsafe, safe_latest_beacon. 1: apply Hsafe, safe_multi_block. 1: apply Hsafe, safe_signers. 1: apply Hsafe, safe_resolve_identity.
  1: apply Hsafe, safe_xid_resolve_name.
  all: destruct Hinv as [Hc Hp]; (split; [|exists []; split; [done|apply sends_ok_nil]]); try (split; [exact Hc|exact Hp]).
  split; intros h; cbn; specialize (Hp h); [intros; lia|lia].
Qed.

(** A node just started: no request sent, clients built for the first setting. *)
Definition world_init (socks : option bytes) (gen : Z) (tor : bool) (holders : holder → http_client) : world := {|
  ticks := 0; sent := []; chain_socks := socks; socks_gen := gen; require_tor := tor; clients := holders; r_cache := ∅; r_digest := None;
  a_digest := None; a_finalized := ∅; a_names := ∅; v_beacons := ∅; v_latest := None; signers_cache := ∅; identity_cache := ∅ |}.
End run.


(** ** What an accepted answer rests on *)

Section accepted.
Context (sha256 : bytes → bytes) (hex_encode : bytes → bytes) (hex_decode : bytes → result bytes bytes).
Context (rpc : list request → result bytes json) (clock : nat → Z) (rpc_url : bytes).

(** Among the requests [log] there is one for [url], and [data] was its answer. *)
Definition answered (log : list request) (url : bytes) (data : json) : Prop :=
  ∃ proxy older, (proxy, url) :: older `suffix_of` log ∧ rpc ((proxy, url) :: older) = Ok data.

(** The server named [d] the state digest and said validators finalized it. *)
Definition reported_final (log : list request) (d : bytes) : Prop :=
  ∃ info att, answered log (rpc_url ++ bstr "/xid/v1/state_digest") info ∧ get_str info (bstr "digest") = Some d ∧
    answered log (rpc_url ++ bstr "/xid/v1/attestations?digest=" ++ d) att ∧ get_bool att (bstr "finalized") = Some true.

(** [snap] is the record of an answer about a name spelled [key], whose proof
    recomputes to a root the server reported as finalized. *)
Definition accepted (log : list request) (key : bytes) (snap : DomainSnapshot) : Prop :=
  ∃ name tld data domain p, key = fqdn_of name tld ∧
    answered log (rpc_url ++ bstr "/xid/v1/resolve_with_proof/" ++ tld ++ bstr "/" ++ name) data ∧
    get_non_null data (bstr "domain") = Some domain ∧ snap = parse_domain name tld domain ∧ parse_proof data = Ok p ∧
    verify_proof sha256 hex_encode hex_decode p.(pp_leaf) p.(pp_index) p.(pp_siblings) p.(pp_root) = Ok true ∧
    reported_final log p.(pp_root).

Definition caches_ok (w : world) : Prop :=
  (∀ key snap t, w.(r_cache) !! key = Some (snap, t) → accepted w.(sent) key snap) ∧
  (∀ d t, w.(r_digest) = Some (d, t) → reported_final w.(sent) d).

Definition grows (w w' : world) : Prop := w.(sent) `suffix_of` w'.(sent).
(** The resolver's caches are untouched. *)
Definition rests (w w' : world) : Prop := grows w w' ∧ w'.(r_cache) = w.(r_cache) ∧ w'.(r_digest) = w.(r_digest).

#[local] Instance grows_po : PreOrder grows.
Proof. split; [intros w; unfold grows; reflexivity|intros a b c]. unfold grows. by etrans. Qed.
#[local] Instance rests_po : PreOrder rests.
Proof. split; [intros w; split_and!; [unfold grows; reflexivity|done|done]|]. intros a b c (H1 & H2 & H3) (K1 & K2 & K3). split_and!; [by etrans|congruence..]. Qed.

Lemma answered_mono l l' url d : l `suffix_of` l' → answered l url d → answered l' url d.
Proof. intros Hs (p & o & H & ?). exists p, o. split; [by etrans|done]. Qed.

Lemma reported_mono l l' d : l `suffix_of` l' → reported_final l d → reported_final l' d.
Proof. intros Hs (i & a & H1 & H2 & H3 & H4). exists i, a. split_and!; eauto using answered_mono. Qed.

Lemma accepted_mono l l' key snap : l `suffix_of` l' → accepted l key snap → accepted l' key snap.
Proof.
  intros Hs (n & t & d & dom & p & H1 & H2 & H3 & H4 & H5 & H6 & H7). exists n, t, d, dom, p. split_and!; eauto using answered_mono, reported_mono.
Qed.

Lemma rests_ok w w' : rests w w' → caches_ok w → caches_ok w'.
Proof. intros (Hg & H1 & H2) [Hc Hd]. split; [intros key snap t; rewrite H1|intros d t; rewrite H2]; intros H; [eapply accepted_mono|eapply reported_mono]; eauto. Qed.

Lemma get_json_spec h url w r w' : get_json rpc h url w = (r, w') → rests w w' ∧ (∀ data, r = Ok data → answered w'.(sent) url data).
Proof.
  unfold get_json, mbind, M_bind, client, send. destruct (chain_egress_ok w) as [[]|e]; [|intros [= <- <-]; split; [reflexivity|done]].
  destruct (Z.eqb (c_gen (clients w h)) (socks_gen w)); intros [= <- <-]; cbn; (split; [split_and!; [by apply suffix_cons_r|done|done]|]);
    intros data; match goal with |- map_err _ ?x = _ → _ => destruct x eqn:E end; cbn; intros [= ->]; eexists _, _; (split; [done|exact E]).
Qed.

Lemma fresh_spec {E A} ttl (entry : option (A * Z)) w (r : result E (option A)) w' : fresh clock ttl entry w = (r, w') →
  rests w w' ∧ ∃ o, r = Ok o ∧ ∀ a, o = Some a → ∃ t, entry = Some (a, t) ∧ clock w.(ticks) - t < ttl.
Proof.
  destruct entry as [[a t]|]; cbn; intros [= <- <-]; (split; [split_and!; [unfold grows; reflexivity|done|done]|]); eexists; (split; [done|]); [|done].
  intros b. destruct (Z.ltb_spec (Z.max 0 (clock (ticks w) - t)) ttl); [|done]. intros [= <-]. exists t. split; [done|lia].
Qed.

(** Destruct the first step of a run. *)
Lemma bind_run {E A B} (m : M E A) (k : A → M E B) w r w' : (m ≫= k) w = (r, w') →
  (∃ e, m w = (Err e, w') ∧ r = Err e) ∨ (∃ a w1, m w = (Ok a, w1) ∧ k a w1 = (r, w')).
Proof. unfold mbind, M_bind. destruct (m w) as [[a|e] w1] eqn:E1; [intros H; right; by exists a, w1|intros [= <- <-]; left; by exists e]. Qed.

Lemma str_field_ok v k s : str_field v k = Ok s → get_str v k = Some s.
Proof. unfold str_field. by destruct (get_str v k); cbn; intros [= ->]. Qed.

Lemma digest_fetch_spec root w r w' : caches_ok w → digest_fetch rpc clock rpc_url root w = (r, w') →
  caches_ok w' ∧ grows w w' ∧ w'.(r_cache) = w.(r_cache) ∧ (r = Ok true → reported_final w'.(sent) root).
Proof.
  intros Hok H. unfold digest_fetch in H.
  apply bind_run in H as [(e & H & ->)|(info & w1 & H1 & H)]; [apply get_json_spec in H as [Hr _]; split_and!; [by eapply rests_ok|apply Hr|apply Hr|done]|].
  apply get_json_spec in H1 as [Hr1 Ha1]. specialize (Ha1 _ eq_refl).
  apply bind_run in H as [(e & [= _ <-] & ->)|(d & w2 & H2 & H)]; [split_and!; [by eapply rests_ok|apply Hr1|apply Hr1|done]|].
  unfold lift in H2. injection H2 as Hd <-. apply str_field_ok in Hd.
  apply bind_run in H as [(e & H & ->)|(att & w3 & H3 & H)].
  { apply get_json_spec in H as [Hr _]. assert (rests w w') as Hr' by (by etrans). split_and!; [by eapply rests_ok|apply Hr'|apply Hr'|done]. }
  apply get_json_spec in H3 as [Hr3 Ha3]. specialize (Ha3 _ eq_refl). assert (rests w w3) as Hr' by (by etrans).
  destruct (get_bool att (bstr "finalized")) as [[|]|] eqn:Ef; cbn [default from_option negb] in H; unfold Datatypes.id in H; cbn [negb] in H;
    [|injection H as <- <-; split_and!; [by eapply rests_ok|apply Hr'|apply Hr'|done]..].
  assert (reported_final w3.(sent) d) as Hrep.
  { exists info, att. split_and!; [eapply answered_mono; [|exact Ha1]; apply Hr3|done|done|done]. }
  cbn in H. injection H as <- <-. split_and!; cbn.
  - split; [|by intros ? ? [= <- _]]. intros key snap t. cbn. destruct Hr' as (Hg & -> & _). intros Hk. eapply accepted_mono; [exact Hg|]. by eapply (proj1 Hok).
  - apply Hr'.
  - apply Hr'.
  - intros [= Hb]. apply bool_decide_eq_true in Hb as <-. exact Hrep.
Qed.

Lemma digest_matches_spec root force w r w' : caches_ok w → digest_matches rpc clock rpc_url root force w = (r, w') →
  caches_ok w' ∧ grows w w' ∧ w'.(r_cache) = w.(r_cache) ∧ (r = Ok true → reported_final w'.(sent) root).
Proof.
  unfold digest_matches. destruct force; [by apply digest_fetch_spec|]. intros Hok H.
  apply bind_run in H as [(e & [=] & _)|(d & w1 & [= <- <-] & H)]. apply bind_run in H as [(e & H & ->)|(hit & w2 & Hf & H)].
  { apply fresh_spec in H as [_ (o & [=] & _)]. }
  apply fresh_spec in Hf as [Hr (o & [= <-] & Hhit)]. destruct hit as [digest|].
  - destruct (Hhit _ eq_refl) as (t & Ht & _). injection H as <- <-. split_and!; [by eapply rests_ok|apply Hr|apply Hr|].
    intros [= Hb]. apply bool_decide_eq_true in Hb as <-. eapply reported_mono; [apply Hr|]. by eapply (proj2 Hok).
  - apply digest_fetch_spec in H as (H1 & H2 & H3 & H4); [|by eapply rests_ok]. split_and!; [done|by etrans; [apply Hr|]|rewrite H3; apply Hr|done].
Qed.

(** A run that keeps what the caches hold justified. *)
Definition keeps {E A} (m : M E A) : Prop := ∀ w, caches_ok w → caches_ok (m w).2 ∧ grows w (m w).2.

Lemma keeps_rests {E A} (m : M E A) : (∀ w, rests w (m w).2) → keeps m.
Proof. intros Hm w Hw. destruct (Hm w) as [Hg Hr]. split; [|exact Hg]. by apply (rests_ok w). Qed.

Lemma keeps_bind {E A B} (m : M E A) (k : A → M E B) : keeps m → (∀ a, keeps (k a)) → keeps (m ≫= k).
Proof.
  intros Hm Hk w Hw. specialize (Hm w Hw). unfold mbind, M_bind. destruct (m w) as [[a|e] w1]; cbn [snd] in Hm; [|exact Hm].
  destruct Hm as [H1 H2], (Hk a w1 ltac:(done)) as [H3 H4]. split; [done|by etrans].
Qed.

Lemma keeps_quiet {E A} (m : M E A) : (∀ w, (m w).2.(sent) = w.(sent) ∧ (m w).2.(r_cache) = w.(r_cache) ∧ (m w).2.(r_digest) = w.(r_digest)) → keeps m.
Proof. intros Hm. apply keeps_rests. intros w. destruct (Hm w) as (H1 & H2 & H3). split_and!; [unfold grows; by rewrite H1|done|done]. Qed.

Lemma keeps_ret {E A} (a : A) : @keeps E A (mret a).
Proof. by apply keeps_quiet. Qed.
Lemma keeps_throw {E A} (e : E) : @keeps E A (throw e).
Proof. by apply keeps_quiet. Qed.
Lemma keeps_lift {E A} (r : result E A) : keeps (lift r).
Proof. by apply keeps_quiet. Qed.
Lemma keeps_gets {E A} (f : world → A) : @keeps E A (gets f).
Proof. by apply keeps_quiet. Qed.
Lemma keeps_now {E} : keeps (@now clock E).
Proof. by apply keeps_quiet. Qed.
Lemma keeps_fresh {E A} ttl (entry : option (A * Z)) : keeps (@fresh clock E A ttl entry).
Proof. apply keeps_rests. intros w. destruct (fresh clock ttl entry w) as [r w'] eqn:H. by apply (@fresh_spec E) in H as [? _]. Qed.
Lemma keeps_try {E F A} (m : M E A) : keeps m → keeps (@try E F A m).
Proof. intros Hm w Hw. specialize (Hm w Hw). unfold try. by destruct (m w) as [[a|e] w1]. Qed.
Lemma keeps_get_json h url : keeps (get_json rpc h url).
Proof. apply keeps_rests. intros w. destruct (get_json rpc h url w) as [r w'] eqn:H. by apply get_json_spec in H as [? _]. Qed.
Lemma keeps_reverse {E} a : keeps (@reverse_lookup rpc E a).
Proof. apply keeps_rests. intros w. split_and!; [|done|done]. cbn. by apply suffix_cons_r. Qed.

Lemma resolve_spec name tld w r w' : caches_ok w → resolve sha256 hex_encode hex_decode rpc clock rpc_url name tld w = (r, w') →
  caches_ok w' ∧ grows w w' ∧ (∀ snap, r = Ok snap → accepted w'.(sent) (fqdn_of name tld) snap).
Proof.
  intros Hok H. unfold resolve in H. cbv zeta in H.
  apply bind_run in H as [(e & [=] & _)|(entry & w1 & [= <- <-] & H)].
  apply bind_run in H as [(e & H & ->)|(hit & w2 & Hf & H)]; [apply fresh_spec in H as [_ (o & [=] & _)]|].
  apply fresh_spec in Hf as [Hr2 (o & [= <-] & Hhit)]. pose proof (rests_ok _ _ Hr2 Hok) as Hok2. destruct hit as [snap|].
  { injection H as <- <-. split_and!; [done|apply Hr2|]. intros s' [= <-]. destruct (Hhit _ eq_refl) as (t & Ht & _).
    eapply accepted_mono; [apply Hr2|]. by eapply (proj1 Hok). }
  apply bind_run in H as [(e & H & ->)|(data & w3 & H3 & H)].
  { apply get_json_spec in H as [Hr _]. split_and!; [by eapply rests_ok|etrans; [apply Hr2|apply Hr]|done]. }
  apply get_json_spec in H3 as [Hr3 Ha]. specialize (Ha _ eq_refl). pose proof (rests_ok _ _ Hr3 Hok2) as Hok3.
  assert (grows w w3) as Hg3 by (etrans; [apply Hr2|apply Hr3]).
  apply bind_run in H as [(e & [= _ <-] & ->)|(domain & w4 & [= Hd <-] & H)]; [by split_and!|].
  apply bind_run in H as [(e & [= _ <-] & ->)|(p & w4 & [= Hp <-] & H)]; [by split_and!|].
  apply bind_run in H as [(e & [= _ <-] & ->)|(v & w4 & [= Hv <-] & H)]; [by split_and!|].
  destruct v; cbn [negb] in H; [|injection H as <- <-; by split_and!].
  apply bind_run in H as [(e & H & ->)|(m1 & w4 & H4 & H)].
  { apply digest_matches_spec in H as (? & ? & _); [|done]. split_and!; [done|by etrans|done]. }
  apply digest_matches_spec in H4 as (Hok4 & Hg4 & _ & Hm1); [|done].
  apply bind_run in H as [(e & H & ->)|(m2 & w5 & H5 & H)].
  { destruct m1; [done|]. apply digest_matches_spec in H as (? & Hg & _); [|done]. split_and!; [done|etrans; [exact Hg3|by etrans]|done]. }
  assert (caches_ok w5 ∧ grows w4 w5 ∧ (m2 = true → reported_final w5.(sent) p.(pp_root))) as (Hok5 & Hg5 & Hm2).
  { destruct m1.
    - injection H5 as <- <-. split_and!; [done|unfold grows; reflexivity|]. intros _. by apply Hm1.
    - apply digest_matches_spec in H5 as (? & ? & _ & Hm); [|done]. split_and!; [done|done|]. intros ->. by apply Hm. }
  assert (grows w w5) as Hgw by (etrans; [exact Hg3|by etrans]).
  destruct m2; cbn [negb] in H; [|injection H as <- <-; by split_and!].
  assert (accepted w5.(sent) (fqdn_of name tld) (parse_domain name tld domain)) as Hacc.
  { exists name, tld, data, domain, p. split_and!; [done|eapply answered_mono; [|exact Ha]; by etrans; [exact Hg4|]| |done|done|done|by apply Hm2].
    unfold ok_or in Hd. destruct (get_non_null data (bstr "domain")); congruence. }
  cbn in H. injection H as <- <-. split_and!; [|exact Hgw|by intros snap [= <-]]. split; [|apply Hok5].
  intros key snap t. cbn. intros [[<- [= <- _]]|[_ Hk]]%lookup_insert_Some; [done|]. by eapply (proj1 Hok5).
Qed.

Lemma keeps_resolve name tld : keeps (resolve sha256 hex_encode hex_decode rpc clock rpc_url name tld).
Proof. intros w Hw. destruct (resolve _ _ _ _ _ _ name tld w) as [r w'] eqn:H. apply resolve_spec in H as (? & ? & _); done. Qed.
End accepted.

#[global] Hint Resolve keeps_ret keeps_throw keeps_lift keeps_gets keeps_now keeps_fresh keeps_get_json keeps_try keeps_reverse keeps_resolve : keeps.

Ltac keeps_step :=
  match goal with
  | |- keeps _ _ _ _ _ (mbind _ _) => apply keeps_bind; [|intros ?]
  | |- keeps _ _ _ _ _ (match ?x with _ => _ end) => destruct x
  | |- keeps _ _ _ _ _ (if ?x then _ else _) => destruct x
  | |- keeps _ _ _ _ _ (let _ := _ in _) => cbv zeta
  | |- keeps _ _ _ _ _ (try _) => apply keeps_try
  | |- keeps _ _ _ _ _ (puts _) => by apply keeps_quiet
  | |- keeps _ _ _ _ _ (identity_store _ _ _) => unfold identity_store
  | |- keeps _ _ _ _ _ (identity_cached _ _) => unfold identity_cached
  | |- keeps _ _ _ _ _ (elapsed _ _) => unfold elapsed
  | _ => solve [eauto with keeps nocore]
  end.
Ltac keeps := repeat keeps_step.

Section keeps_ops.
Context (sha256 : bytes → bytes) (hex_encode : bytes → bytes) (hex_decode : bytes → result bytes bytes).
Context (rpc : list request → result bytes json) (clock : nat → Z) (rpc_url : bytes).

Lemma keeps_beacon h : keeps sha256 hex_encode hex_decode rpc rpc_url (beacon rpc clock rpc_url h).
Proof. unfold beacon. keeps. Qed.

Lemma keeps_collect start n : keeps sha256 hex_encode hex_decode rpc rpc_url (collect_beacons rpc clock rpc_url start n).
Proof. revert start. induction n as [|n IH]; intros start; cbn [collect_beacons]; keeps; (apply keeps_beacon || apply IH). Qed.

Lemma keeps_state_digest : keeps sha256 hex_encode hex_decode rpc rpc_url (state_digest rpc clock rpc_url).
Proof. unfold state_digest. keeps. Qed.

Lemma keeps_is_finalized d : keeps sha256 hex_encode hex_decode rpc rpc_url (is_finalized rpc clock rpc_url d).
Proof. unfold is_finalized. keeps. Qed.

Lemma run_op_caches o w : caches_ok sha256 hex_encode hex_decode rpc rpc_url w →
  caches_ok sha256 hex_encode hex_decode rpc rpc_url (run_op sha256 hex_encode hex_decode rpc clock rpc_url o w).
Proof.
  intros Hok.
  assert (∀ A (m : M ChainError A), keeps sha256 hex_encode hex_decode rpc rpc_url m → caches_ok sha256 hex_encode hex_decode rpc rpc_url (m w).2) as Hk
    by (intros A m Hm; by apply Hm).
  destruct o; cbn [run_op].
  - apply Hk, keeps_resolve.
  - apply Hk. unfold verify_digest. keeps; (apply keeps_state_digest || apply keeps_is_finalized).
  - apply Hk. unfold attested_resolve_name, attested_fetch_name. keeps; apply keeps_state_digest.
  - apply Hk, keeps_beacon.
  - apply Hk. unfold latest_beacon. keeps; apply keeps_beacon.
  - apply Hk. unfold multi_block_beacon. keeps; apply keeps_collect.
  - apply Hk. unfold signers_resolve. keeps.
  - apply Hk. unfold resolve_identity. keeps.
  - apply Hk. unfold xid_resolve_name. keeps.
  - split; [intros key snap t Hl; cbn in Hl; by rewrite lookup_empty in Hl|done].
  - exact Hok.
  - exact Hok.
Qed.
End keeps_ops.

(** C33: What a resolved name rests on. Over any history of operations and whatever
    the server answers, a snapshot that [resolve] hands out, from its cache or
    fresh, was parsed from an answer the server gave about a name with that
    spelling, in which the proof path recomputes to its root, and the server has
    named that root its state digest and said that validators finalized it. *)
Theorem resolve_checked (sha256 : bytes → bytes) (hex_encode : bytes → bytes) (hex_decode : bytes → result bytes bytes)
  (rpc : list request → result bytes json) (clock : nat → Z) (rpc_url : bytes) socks gen tor holders os name tld snap w' :
  let w := run_ops sha256 hex_encode hex_decode rpc clock rpc_url os (world_init socks gen tor holders) in
  resolve sha256 hex_encode hex_decode rpc clock rpc_url name tld w = (Ok snap, w') →
  accepted sha256 hex_encode hex_decode rpc rpc_url w'.(sent) (fqdn_of name tld) snap ∧ fqdn snap = fqdn_of name tld.
Proof.
  cbv zeta. set (w0 := world_init socks gen tor holders).
  assert (caches_ok sha256 hex_encode hex_decode rpc rpc_url (run_ops sha256 hex_encode hex_decode rpc clock rpc_url os w0)) as Hok.
  { assert (caches_ok sha256 hex_encode hex_decode rpc rpc_url w0) as H0 by (split; [intros key s t Hl; unfold w0 in Hl; cbn in Hl; by rewrite lookup_empty in Hl|done]).
    revert H0. generalize w0. unfold run_ops. induction os as [|o os IH]; intros w Hw; [done|]. cbn [foldl]. apply IH. by apply run_op_caches. }
  intros H. apply resolve_spec in H as (_ & _ & Hacc); [|done].
  specialize (Hacc _ eq_refl). split; [done|]. by destruct Hacc as (n & t & data & domain & p & -> & _ & _ & -> & _).
Qed.

(** ** The record is not tied to the proof *)

Definition jobj (fields : list (bytes * json)) : json := JObj (foldr (λ e m, bt_insert e.1 e.2 m) [] fields).

Definition digest_answer (D : bytes) : json := jobj [(bstr "digest", JStr D)].
Definition final_answer : json := jobj [(bstr "finalized", JBool true)].
Definition record_answer (d : json) (D : bytes) : json :=
  jobj [(bstr "domain", d); (bstr "proof", jobj [(bstr "leaf_hash", JStr D); (bstr "root", JStr D)])].

(** A server that names digest [D], calls it finalized, and answers any lookup
    with the record [d] and [D] as its own proof. *)
Definition rogue (rpc_url D : bytes) (d : json) (log : list request) : result bytes json :=
  match log with
  | (_, url) :: _ =>
    if bool_decide (url = rpc_url ++ bstr "/xid/v1/state_digest") then Ok (digest_answer D)
    else if starts_with (rpc_url ++ bstr "/xid/v1/attestations") url then Ok final_answer
    else Ok (record_answer d D)
  | [] => Err []
  end.

Lemma bind_returns {E A B} (m : M E A) (k : A → M E B) w a w1 : m w = (Ok a, w1) → (m ≫= k) w = k a w1.
Proof. unfold mbind, M_bind. by intros ->. Qed.

Lemma get_json_open rpc h url w : w.(require_tor) = false →
  ∃ proxy w1, get_json rpc h url w = (map_err Rpc (rpc ((proxy, url) :: w.(sent))), w1) ∧
    w1.(require_tor) = false ∧ w1.(r_cache) = w.(r_cache) ∧ w1.(r_digest) = w.(r_digest).
Proof.
  intros Hw. unfold get_json, mbind, M_bind, chain_egress_ok, client, send. rewrite Hw. cbn [andb].
  destruct (Z.eqb _ _); eexists _, _; (split; [reflexivity|done]).
Qed.

Section forged.
Context (sha256 : bytes → bytes) (hex_encode : bytes → bytes) (hex_decode : bytes → result bytes bytes).
Context (clock : nat → Z) (rpc_url D b : bytes) (d : json).

Lemma rogue_digest proxy l : rogue rpc_url D d ((proxy, rpc_url ++ bstr "/xid/v1/state_digest") :: l) = Ok (digest_answer D).
Proof. unfold rogue. by rewrite bool_decide_true. Qed.

Lemma rogue_final proxy l : rogue rpc_url D d ((proxy, rpc_url ++ bstr "/xid/v1/attestations?digest=" ++ D) :: l) = Ok final_answer.
Proof.
  unfold rogue. rewrite bool_decide_false by (intros Hx%app_inv_head; discriminate Hx). unfold starts_with.
  rewrite bool_decide_true; [done|]. rewrite length_app, take_app_add. done.
Qed.

Lemma rogue_record proxy l x : rogue rpc_url D d ((proxy, rpc_url ++ bstr "/xid/v1/resolve_with_proof/" ++ x) :: l) = Ok (record_answer d D).
Proof.
  unfold rogue. rewrite bool_decide_false by (intros Hx%app_inv_head; discriminate Hx). unfold starts_with.
  rewrite bool_decide_false; [done|]. rewrite length_app, take_app_add. intros Hx%app_inv_head. discriminate Hx.
Qed.

Lemma rogue_digest_matches w : w.(require_tor) = false → w.(r_digest) = None →
  ∃ w1, digest_matches (rogue rpc_url D d) clock rpc_url D false w = (Ok true, w1).
Proof.
  intros Hw Hd. unfold digest_matches, digest_fetch. erewrite bind_returns by reflexivity. rewrite Hd. erewrite bind_returns by reflexivity.
  destruct (get_json_open (rogue rpc_url D d) HResolver (rpc_url ++ bstr "/xid/v1/state_digest") w Hw) as (p1 & w1 & H1 & Hw1 & _).
  rewrite rogue_digest in H1. erewrite bind_returns by exact H1. erewrite bind_returns by reflexivity.
  destruct (get_json_open (rogue rpc_url D d) HResolver (rpc_url ++ bstr "/xid/v1/attestations?digest=" ++ D) w1 Hw1) as (p2 & w2 & H2 & _).
  rewrite rogue_final in H2. erewrite bind_returns by exact H2. change (default false (get_bool final_answer (bstr "finalized"))) with true.
  cbn [negb]. erewrite bind_returns by reflexivity. erewrite bind_returns by reflexivity. rewrite bool_decide_true by done. by eexists.
Qed.

(** The leaf hash is never compared with anything computed from the record, so
    one finalized digest, be it the chain's true one, vouches for any record: the
    answer to a lookup is whatever the server sends. *)
Lemma forged_record_accepted name tld w :
  hex_decode D = Ok b → hex_encode b = D → d ≠ JNull → w.(require_tor) = false → w.(r_cache) !! fqdn_of name tld = None → w.(r_digest) = None →
  (resolve sha256 hex_encode hex_decode (rogue rpc_url D d) clock rpc_url name tld w).1 = Ok (parse_domain name tld d).
Proof.
  intros Hd He Hn Hm Hc Hg. unfold resolve. cbv zeta. erewrite bind_returns by reflexivity. rewrite Hc. erewrite bind_returns by reflexivity.
  destruct (get_json_open (rogue rpc_url D d) HResolver (rpc_url ++ bstr "/xid/v1/resolve_with_proof/" ++ tld ++ bstr "/" ++ name) w Hm) as (p1 & w1 & H1 & Hw1 & _ & Hg1).
  rewrite rogue_record in H1. erewrite bind_returns by exact H1.
  assert (get_non_null (record_answer d D) (bstr "domain") = Some d) as Hdom.
  { change (get_non_null (record_answer d D) (bstr "domain")) with (if decide (d = JNull) then None else Some d). by rewrite decide_False. }
  rewrite Hdom. erewrite bind_returns by reflexivity.
  assert (parse_proof (record_answer d D) = Ok {| pp_leaf := D; pp_index := 0; pp_root := D; pp_siblings := [] |}) as -> by reflexivity.
  erewrite bind_returns by reflexivity. cbn [pp_leaf pp_index pp_root pp_siblings]. rewrite (root_proves_itself _ _ _ D b) by done.
  erewrite bind_returns by reflexivity. cbn [negb]. destruct (rogue_digest_matches w1 Hw1) as (w2 & H2); [congruence|].
  erewrite bind_returns by exact H2. erewrite bind_returns by reflexivity. cbn [negb]. erewrite bind_returns by reflexivity. by erewrite bind_returns by reflexivity.
Qed.
End forged.

(** ** Concrete runs *)

Definition toy_sha (x : bytes) : bytes := take 32 (x ++ repeat x00 32).
Definition toy_holders : holder → http_client := λ _, {| c_gen := 0; c_proxy := None |}.
Definition toy_url : bytes := DEFAULT_RPC_URL.
Definition toy_root : bytes := repeat x07 32.

Definition toy_identity : json :=
  jobj [(bstr "address", JStr (bstr "epix1abc")); (bstr "active", JBool false); (bstr "revoked_at", JInt 12)].
Definition toy_domain : json := jobj [(bstr "identities", JArr [toy_identity])].

(** The rogue server, with a reverse lookup. *)
Definition toy_rpc (log : list request) : result bytes json :=
  match log with
  | (_, url) :: _ =>
    if starts_with (DEFAULT_RPC_URL ++ bstr "/xid/v1/reverse_identity/") url
    then Ok (jobj [(bstr "name_record", jobj [(bstr "name", JStr (bstr "alice")); (bstr "tld", JStr (bstr "epix"))])])
    else rogue toy_url toy_root toy_domain log
  | [] => Err []
  end.

Definition toy_clock (n : nat) : Z := Z.of_nat n.
Definition toy_world : world := world_init None 0 false toy_holders.

Lemma length_toy_sha x : length (toy_sha x) = 32%nat.
Proof. unfold toy_sha. rewrite length_take, length_app, repeat_length. lia. Qed.

Lemma merkle_binding_witness :
  verify_proof toy_sha (λ x, x) (@Ok bytes bytes) toy_root 0 [toy_root] (toy_sha (toy_root ++ toy_root)) = Ok true ∧
  (toy_root = toy_root ∨ collision toy_sha).
Proof.
  split; [vm_compute; reflexivity|].
  apply (merkle_binding toy_sha (λ x, x) (@Ok bytes bytes) toy_root toy_root toy_root toy_root 0 [toy_root] [toy_root] (toy_sha (toy_root ++ toy_root)));
    [apply length_toy_sha|reflexivity|reflexivity|reflexivity|reflexivity|reflexivity|reflexivity|vm_compute; reflexivity|vm_compute; reflexivity].
Defined.


Definition toy_snap : DomainSnapshot := parse_domain (bstr "alice") (bstr "epix") toy_domain.

Lemma resolve_checked_witness :
  ∃ w', accepted toy_sha (λ x, x) (@Ok bytes bytes) toy_rpc toy_url w'.(sent) (bstr "alice.epix") toy_snap.
Proof.
  eexists. apply (resolve_checked toy_sha (λ x, x) (@Ok bytes bytes) toy_rpc toy_clock toy_url None 0 false toy_holders [] (bstr "alice") (bstr "epix") toy_snap).
  vm_compute. reflexivity.
Defined.

(** What a name lookup says of a name depends on what was asked before it: alone
    it reports the name active, after the reverse lookup of a revoked identity it
    reports that identity's revocation. *)
Lemma name_lookup_depends_on_history :
  let lookup w := option_map (option_map x_active) (ok (@xid_resolve_name toy_sha (λ x, x) (@Ok bytes bytes) toy_rpc toy_clock toy_url ChainError (bstr "alice.epix") w).1) in
  lookup toy_world = Some (Some true) ∧
  lookup (run_op toy_sha (λ x, x) (@Ok bytes bytes) toy_rpc toy_clock toy_url (OIdentity (bstr "epix1abc")) toy_world) = Some (Some false).
Proof. vm_compute. split; reflexivity. Qed.

(** Two different names share a cache entry when they are spelled alike. *)
Lemma cache_key_ambiguous : fqdn_of (bstr "a.b") (bstr "c") = fqdn_of (bstr "a") (bstr "b.c").
Proof. reflexivity. Qed.
