(* ===== verification/Policy.v ===== *)
(** * Owner-declared order and distribution ([crates/epix-blob/src/policy.rs])

    The order policy of a content.json and the fetch tier of a path, the
    distribution rules with their longest-prefix resolution, and the plan of a
    background completion pass. *)
From S2P Require Import Prelude Ordered Json Canonical Text Search.
From Stdlib Require Import ZArith Lia Strings.Byte.
From stdpp Require Import base list sorting strings.
#[local] Open Scope Z_scope.

Inductive FeedOrder := NewestFirst | OldestFirst | PinnedFirst | Custom.

Definition FeedOrder_parse (s : bytes) : option FeedOrder :=
  if bool_decide (s = bstr "newest-first") then Some NewestFirst
  else if bool_decide (s = bstr "oldest-first") then Some OldestFirst
  else if bool_decide (s = bstr "pinned-first") then Some PinnedFirst
  else if bool_decide (s = bstr "custom") then Some Custom else None.

Definition newest_first (o : FeedOrder) : bool := match o with OldestFirst => false | _ => true end.

Record OrderPolicy := mkOrderPolicy { first_paint : list bytes; feed_order : option FeedOrder; prefetch : list bytes }.

Definition order_default : OrderPolicy := mkOrderPolicy [] None [].

Definition policy_list (p : json) (key : bytes) : list bytes :=
  match get_array p key with Some a => omap as_str a | None => [] end.

Definition order_from_content (content : json) : OrderPolicy :=
  match jget content (bstr "order_policy") with
  | None => order_default
  | Some p =>
    mkOrderPolicy (policy_list p (bstr "first_paint"))
      (s ← get_str p (bstr "feed_order"); FeedOrder_parse s) (policy_list p (bstr "prefetch"))
  end.

Definition is_first_paint (p : OrderPolicy) (inner_path : bytes) : bool := existsb (λ q, bool_decide (q = inner_path)) (first_paint p).
Definition is_prefetch (p : OrderPolicy) (inner_path : bytes) : bool := existsb (λ q, bool_decide (q = inner_path)) (prefetch p).

Definition order_is_empty (p : OrderPolicy) : bool :=
  bool_decide (first_paint p = []) && bool_decide (prefetch p = []) && match feed_order p with None => true | _ => false end.

(** [derive(Ord)]: the declaration order. *)
Inductive FetchTier := FirstPaint | Default | Prefetch.

Definition page_exts : list bytes :=
  map bstr ["html"; "htm"; "css"; "js"; "mjs"; "json"; "wasm"; "svg"; "png"; "jpg"; "jpeg"; "gif"; "webp"; "avif"; "ico"; "woff"; "woff2"; "ttf"; "otf"]%string.

Definition bulk_exts : list bytes :=
  map bstr ["mp4"; "webm"; "mkv"; "avi"; "mov"; "wmv"; "flv"; "m4v"; "mpg"; "mpeg"; "mp3"; "m4a"; "wav"; "flac"; "ogg"; "opus"; "oga"; "pdf"; "epub"; "mobi";
    "zip"; "rar"; "7z"; "gz"; "bz2"; "xz"; "tar"; "iso"; "img"; "dmg"; "exe"; "msi"; "apk"; "deb"; "rpm"; "bin"; "torrent"; "doc"; "docx"; "xls"; "xlsx";
    "ppt"; "pptx"; "odt"; "ods"; "odp"; "psd"; "swf"; "bak"]%string.

(** The lower-cased extension of the last segment, empty without a dot. *)
Definition ext_of (inner_path : bytes) : bytes :=
  default [] (name ← last (split_on x2f inner_path); e ← rsplit_once x2e name; Some (map to_ascii_lowercase e.2)).

Definition default_tier (inner_path : bytes) : FetchTier :=
  let ext := ext_of inner_path in
  if bool_decide (ext ∈ page_exts) then FirstPaint else if bool_decide (ext ∈ bulk_exts) then Prefetch else Default.

Definition tier (p : OrderPolicy) (inner_path : bytes) : FetchTier :=
  if is_first_paint p inner_path then FirstPaint
  else if is_prefetch p inner_path then Prefetch
  else if order_is_empty p then default_tier inner_path
  else Default.

(** ** Distribution *)

Inductive DistributionUnit := Package | FileRefs | FeedUnit.
Inductive Retention := RComplete | RPartial.

Definition unit_parse (s : bytes) : option DistributionUnit :=
  if bool_decide (s = bstr "package") then Some Package
  else if bool_decide (s = bstr "file-refs") then Some FileRefs
  else if bool_decide (s = bstr "feed") then Some FeedUnit else None.

Definition retention_parse (s : bytes) : option Retention :=
  if bool_decide (s = bstr "complete") then Some RComplete
  else if bool_decide (s = bstr "partial") then Some RPartial else None.

Record PathPolicy := mkPathPolicy { unit_ : DistributionUnit; retention : Retention }.

Record DistributionPolicy := mkDistribution { rules : list (bytes * PathPolicy); ddefault : option PathPolicy }.

Definition parse_policy (v : json) : option PathPolicy :=
  u ← (s ← get_str v (bstr "unit"); unit_parse s);
  r ← (s ← get_str v (bstr "retention"); retention_parse s);
  Some (mkPathPolicy u r).

(** The rules of [distribution.paths], in key order. *)
Definition parse_rules (d : json) : list (bytes * PathPolicy) :=
  match jget d (bstr "paths") with
  | Some (JObj paths) => omap (λ e : bytes * json, p ← parse_policy e.2; Some (e.1, p)) paths
  | _ => []
  end.

(** [b.0.len().cmp(&a.0.len())], a stable sort. *)
Definition longer_first (a b : bytes * PathPolicy) : comparison := (blen b.1 ?= blen a.1)%Z.

Definition distribution_from_content (content : json) : DistributionPolicy :=
  match jget content (bstr "distribution") with
  | None => mkDistribution [] None
  | Some d => mkDistribution (sort_by longer_first (parse_rules d)) (v ← jget d (bstr "default"); parse_policy v)
  end.

Definition complete_everything : DistributionPolicy := mkDistribution [] (Some (mkPathPolicy Package RComplete)).

Definition resolve (d : DistributionPolicy) (inner_path : bytes) : PathPolicy :=
  match List.find (λ r, starts_with r.1 inner_path) (rules d) with
  | Some r => r.2
  | None => default (mkPathPolicy Package RComplete) (ddefault d)
  end.

Definition wants_complete (d : DistributionPolicy) (inner_path : bytes) : bool :=
  match retention (resolve d inner_path) with RComplete => true | RPartial => false end.

Record CompletionPlan := mkPlan { paths : list bytes; plan_bytes : Z; needs_consent : bool }.

Definition plan_step (d : DistributionPolicy) (st : list bytes * Z) (m : bytes * Z) : list bytes * Z :=
  if wants_complete d m.1 then (st.1 ++ [m.1], sat_add64 st.2 m.2) else st.

Definition completion_plan (d : DistributionPolicy) (missing : list (bytes * Z)) (limit_bytes : Z) : CompletionPlan :=
  let st := foldl (plan_step d) ([], 0) missing in
  mkPlan (Ordered.sort st.1) st.2 (limit_bytes <? st.2).

(** ** Longest prefix *)

Lemma bfind_spec {A} (f : A → bool) l : match List.find f l with
  | Some x => ∃ pre post, l = pre ++ x :: post ∧ f x = true ∧ (∀ y, y ∈ pre → f y = false)
  | None => ∀ y, y ∈ l → f y = false end.
Proof.
  induction l as [|x l IH]; cbn; [by intros ? ?%elem_of_nil|]. destruct (f x) eqn:E.
  - exists [], l. split_and!; [done..|by intros ? ?%elem_of_nil].
  - destruct (List.find f l) as [z|].
    + destruct IH as (pre & post & -> & Hz & Hp). exists (x :: pre), post. split_and!; [done..|]. intros y [->|Hy]%elem_of_cons; auto.
    + intros y [->|Hy]%elem_of_cons; auto.
Qed.

Lemma longer_first_le a b : cle longer_first a b ↔ blen b.1 <= blen a.1.
Proof. unfold cle, longer_first. destruct (Z.compare_spec (blen b.1) (blen a.1)); split; intros; (done || lia). Qed.

Lemma longer_first_sorted l : StronglySorted (cle longer_first) (sort_by longer_first l).
Proof.
  apply sort_by_sorted.
  - intros a b. unfold longer_first. apply Z.compare_antisym.
  - intros a b c. rewrite !longer_first_le. lia.
Qed.

Lemma starts_with_unique p q s : starts_with p s = true → starts_with q s = true → blen p = blen q → p = q.
Proof. unfold starts_with, blen. intros H1%bool_decide_eq_true H2%bool_decide_eq_true Hl. apply Nat2Z.inj in Hl. congruence. Qed.

(** [content] declares a valid rule for [prefix]. *)
Definition declared (content : json) (prefix : bytes) (p : PathPolicy) : Prop :=
  ∃ d paths v, jget content (bstr "distribution") = Some d ∧ jget d (bstr "paths") = Some (JObj paths) ∧
    (prefix, v) ∈ paths ∧ parse_policy v = Some p.

Lemma elem_of_rules content prefix p : (prefix, p) ∈ rules (distribution_from_content content) ↔ declared content prefix p.
Proof.
  unfold distribution_from_content, declared. destruct (jget content (bstr "distribution")) as [d|] eqn:Ed; cbn [rules].
  2:{ split; [by intros ?%elem_of_nil|]. by intros (? & ? & ? & ? & _). }
  rewrite elem_of_sort_by. unfold parse_rules. destruct (jget d (bstr "paths")) as [v|] eqn:Ep.
  2:{ split; [by intros ?%elem_of_nil|]. intros (d' & paths & v & [= <-] & H & _). congruence. }
  split.
  - destruct v as [| | | | | |paths]; try by intros ?%elem_of_nil. intros ([k v] & Hin & He)%list_elem_of_omap. cbn [fst snd] in He.
    destruct (parse_policy v) as [q|] eqn:Eq; [|done]. cbn in He. injection He as -> ->. by exists d, paths, v.
  - intros (d' & paths & w & [= <-] & H & Hin & Hp). rewrite Ep in H. injection H as ->.
    apply list_elem_of_omap. exists (prefix, w). cbn [fst snd]. by rewrite Hp.
Qed.

(** No prefix is declared twice: objects have one value per key. *)
Definition declared_once (content : json) : Prop :=
  ∀ prefix p p', declared content prefix p → declared content prefix p' → p = p'.

Lemma resolve_longest content path prefix p : declared_once content → declared content prefix p → starts_with prefix path = true →
  (∀ q p', declared content q p' → starts_with q path = true → blen q <= blen prefix) →
  resolve (distribution_from_content content) path = p.
Proof.
  intros Honce Hd Hs Hmax. unfold resolve. pose proof (bfind_spec (λ r, starts_with r.1 path) (rules (distribution_from_content content))) as H.
  destruct (List.find _ _) as [[q p']|]; cbn [fst snd] in *.
  - destruct H as (pre & post & Hr & Hq & Hpre). assert (declared content q p') as Hdq by (apply elem_of_rules; rewrite Hr; apply elem_of_app; right; left).
    assert (q = prefix) as ->; [|by eapply Honce]. apply (starts_with_unique q prefix path); [done|done|].
    assert ((prefix, p) ∈ rules (distribution_from_content content)) as Hin by by apply elem_of_rules.
    rewrite Hr in Hin. apply elem_of_app in Hin as [Hin|Hin]; [specialize (Hpre _ Hin); cbn in Hpre; congruence|].
    pose proof (Hmax q p' Hdq Hq). assert (blen prefix <= blen q); [|lia].
    assert (StronglySorted (cle longer_first) (rules (distribution_from_content content))) as Hsort.
    { unfold distribution_from_content. destruct (jget content _); [apply longer_first_sorted|constructor]. }
    rewrite Hr in Hsort. apply StronglySorted_app_1_r in Hsort. apply StronglySorted_inv in Hsort as [_ Hall].
    apply elem_of_cons in Hin as [Hin|Hin]; [injection Hin as -> _; lia|]. rewrite Forall_forall in Hall. specialize (Hall _ Hin). by apply longer_first_le in Hall.
  - assert ((prefix, p) ∈ rules (distribution_from_content content)) as Hin by by apply elem_of_rules. specialize (H _ Hin). cbn in H. congruence.
Qed.

Lemma resolve_default content path : (∀ q p', declared content q p' → starts_with q path = false) →
  resolve (distribution_from_content content) path = default (mkPathPolicy Package RComplete) (ddefault (distribution_from_content content)).
Proof.
  intros Hno. unfold resolve. pose proof (bfind_spec (λ r, starts_with r.1 path) (rules (distribution_from_content content))) as H.
  destruct (List.find _ _) as [[q p']|]; [|done]. destruct H as (pre & post & Hr & Hq & _). cbn in Hq. rewrite (Hno q p') in Hq; [done|].
  apply elem_of_rules. rewrite Hr. apply elem_of_app; right; left.
Qed.

(** ** Completion *)

Definition wanted (d : DistributionPolicy) (missing : list (bytes * Z)) : list (bytes * Z) := List.filter (λ m, wants_complete d m.1) missing.
Definition total (ms : list (bytes * Z)) : Z := foldr Z.add 0 (map snd ms).

Lemma total_perm l k : l ≡ₚ k → total l = total k.
Proof. unfold total. induction 1; cbn; lia. Qed.

Lemma plan_loop d missing : Forall (λ m, 0 <= m.2) missing → ∀ ps b, 0 <= b <= u64_max →
  foldl (plan_step d) (ps, b) missing = (ps ++ map fst (wanted d missing), Z.min (b + total (wanted d missing)) u64_max).
Proof.
  induction 1 as [|[p n] ms Hn Hms IH]; intros ps b Hb; cbn [foldl].
  { unfold wanted, total. cbn. rewrite app_nil_r, Z.min_l by lia. f_equal. lia. }
  assert (0 <= total (wanted d ms)) as Ht.
  { clear -Hms. unfold total, wanted. induction Hms as [|m l H _ IH]; [done|]. cbn. destruct (wants_complete d m.1); cbn; lia. }
  cbn [snd] in Hn. unfold plan_step at 2. cbn [fst snd]. unfold wanted. cbn [List.filter fst]. fold (wanted d ms). destruct (wants_complete d p).
  - rewrite IH by (unfold sat_add64; lia). cbn [map fst snd]. rewrite <- app_assoc. f_equal. unfold sat_add64, total. cbn [foldr map snd]. fold (total (wanted d ms)). lia.
  - rewrite IH by done. done.
Qed.

(** The distribution policy of a content.json and the completion pass it
    plans. The longest declared prefix of a path decides its policy, whatever
    the order of the rules, and without one the declared default, or
    package/complete. The plan holds exactly the missing paths that resolve to
    complete retention, sorted, so that two nodes plan alike; its size is their
    total, saturating at [u64::MAX]; and it needs consent exactly when that
    exceeds the budget. *)
Theorem completion_plan_correct content missing limit :
  declared_once content → Forall (λ m, 0 <= m.2) missing → 0 <= limit →
  let d := distribution_from_content content in
  (∀ path prefix p, declared content prefix p → starts_with prefix path = true →
    (∀ q p', declared content q p' → starts_with q path = true → blen q <= blen prefix) → resolve d path = p) ∧
  (∀ path, (∀ q p', declared content q p' → starts_with q path = false) →
    resolve d path = default (mkPathPolicy Package RComplete) (ddefault d)) ∧
  let plan := completion_plan d missing limit in
  (∀ p, p ∈ paths plan ↔ ∃ n, (p, n) ∈ missing ∧ retention (resolve d p) = RComplete) ∧
  StronglySorted ole (paths plan) ∧
  plan_bytes plan = Z.min (total (wanted d missing)) u64_max ∧
  (needs_consent plan = true ↔ limit < total (wanted d missing) ∧ limit < u64_max) ∧
  (∀ missing', missing' ≡ₚ missing → completion_plan d missing' limit = plan).
Proof.
  intros Honce Hms Hlim d. split_and!.
  - intros path prefix p. by apply resolve_longest.
  - intros path. apply resolve_default.
  - assert (∀ ms, Forall (λ m : bytes * Z, 0 <= m.2) ms → completion_plan d ms limit =
      mkPlan (Ordered.sort (map fst (wanted d ms))) (Z.min (total (wanted d ms)) u64_max) (limit <? Z.min (total (wanted d ms)) u64_max)) as Hplan.
    { intros ms H. unfold completion_plan. rewrite plan_loop by (done || (unfold u64_max; lia)). cbn [fst snd app]. by rewrite Z.add_0_l. }
    cbv zeta. rewrite Hplan by done. cbn [paths plan_bytes needs_consent]. split_and!.
    + intros p. unfold Ordered.sort. rewrite elem_of_sort_by, list_elem_of_fmap. unfold wanted. split.
      * intros ([q n] & -> & [Hin Hw]%elem_of_bfilter). exists n. split; [done|]. unfold wants_complete in Hw. cbn [fst] in *. by destruct (retention _).
      * intros (n & Hin & Hr). exists (p, n). split; [done|]. apply elem_of_bfilter. split; [done|]. unfold wants_complete. cbn [fst]. by rewrite Hr.
    + apply sort_sorted.
    + done.
    + rewrite Z.ltb_lt. lia.
    + intros ms' Hp. rewrite Hplan by by rewrite Hp. assert (wanted d ms' ≡ₚ wanted d missing) as Hw by by apply filter_perm.
      rewrite (total_perm _ _ Hw).
      f_equal. apply sort_perm_eq. by apply Permutation_map.
Qed.

(** The distribution of a forum: a package shell, a feed, media by reference. *)
Definition forum : json :=
  let rule u r := JObj [(bstr "retention", JStr (bstr r)); (bstr "unit", JStr (bstr u))] in
  JObj [(bstr "distribution", JObj [(bstr "default", rule "package" "complete");
    (bstr "paths", JObj [(bstr "data/", rule "file-refs" "complete"); (bstr "data/feed/", rule "feed" "partial")])])]%string.

Lemma forum_declared q p : declared forum q p →
  q = bstr "data/" ∧ p = mkPathPolicy FileRefs RComplete ∨ q = bstr "data/feed/" ∧ p = mkPathPolicy FeedUnit RPartial.
Proof.
  intros (d & ps & v & Hd & Hp & Hin & Hv). apply (inj Some) in Hd as <-. apply (inj Some) in Hp. injection Hp as <-.
  rewrite !elem_of_cons, elem_of_nil in Hin. destruct Hin as [Hin|[Hin|[]]]; apply pair_eq in Hin as [-> ->]; vm_compute in Hv;
    apply (inj Some) in Hv as <-; auto.
Qed.

Lemma completion_plan_correct_witness :
  retention (resolve (distribution_from_content forum) (bstr "data/feed/1.json")) = RPartial ∧
  completion_plan (distribution_from_content forum) [(bstr "index.html", 20); (bstr "data/feed/1.json", 5); (bstr "data/a", 90)] 100 =
    completion_plan (distribution_from_content forum) [(bstr "data/a", 90); (bstr "index.html", 20); (bstr "data/feed/1.json", 5)] 100.
Proof.
  destruct (completion_plan_correct forum [(bstr "data/a", 90); (bstr "index.html", 20); (bstr "data/feed/1.json", 5)] 100) as (H1 & _ & _ & _ & _ & _ & H6).
  - intros q p p' [[-> ->]|[-> ->]]%forum_declared [[H ->]|[H ->]]%forum_declared; try done; by vm_compute in H.
  - repeat constructor; vm_compute; discriminate.
  - lia.
  - split; [|apply H6].
    + rewrite (H1 (bstr "data/feed/1.json") (bstr "data/feed/") (mkPathPolicy FeedUnit RPartial)); [done| |done|].
      * eexists _, _, _. split_and!; [reflexivity|reflexivity|right; left|reflexivity].
      * intros q p' [[-> _]|[-> _]]%forum_declared _; vm_compute; discriminate.
    + change [(bstr "data/a", 90); (bstr "index.html", 20); (bstr "data/feed/1.json", 5)] with
        ([(bstr "data/a", 90)] ++ [(bstr "index.html", 20); (bstr "data/feed/1.json", 5)]). symmetry. apply Permutation_cons_append.
Defined.
