(* ===== verification/Store.v ===== *)
(** * The object store ([crates/epix-blob/src/store.rs], [verified.rs])

    The content-addressed store on a disk that can lose power between any two
    writes: the index (objects, slabs, extern paths) is changed one
    transaction at a time, slab packfiles are appended to, sparse files and
    outboards are written in place, and a reopened store reconciles what it
    finds. Every operation is a computation over that disk ([M]); an append
    can fail half way, and the power can go at every effect.

    BLAKE3 and [bao_tree] are the class [Bao]. An open file is an inode, so
    that a decode that outlives the unlinking of its file is modelled. Slab
    numbers and sums of sizes are unbounded (u32 and u64 in the code). *)
From S2P Require Import Prelude Ordered Bitfield.
From Stdlib Require Import ZArith Lia Strings.Byte.
From stdpp Require Import base list sorting.
#[local] Open Scope Z_scope.

Abbreviation ObjId := bytes.

Inductive IoError := NotFound | InvalidData | InvalidInput | UnexpectedEof | OtherError.

(** ** Third-party hashing and verified streaming *)

Class Bao := {
  blake3 : bytes → bytes;
  (** The pre-order outboard of some bytes, and its size. *)
  bao_outboard : bytes → bytes;
  bao_outboard_size : Z → Z;
  (** [ChunkRanges]. *)
  chunk_set : Type;
  cr_empty : chunk_set;
  cr_of : range → chunk_set;
  cr_union : chunk_set → chunk_set → chunk_set;
  is_superset : chunk_set → chunk_set → bool;
  (** [decode_ranges] on an encoded stream, the root and size, the ranges and
      the old outboard: the leaf writes it makes, the new outboard, and how it
      ended. *)
  bao_decode : bytes → ObjId → Z → chunk_set → bytes → list (Z * bytes) * bytes * result IoError ();
  (** [encode_ranges_validated] of a data file and an outboard. *)
  bao_encode : bytes → bytes → ObjId → Z → chunk_set → result IoError bytes;
  (** [valid_ranges] of an outboard and a data file. *)
  bao_valid : bytes → bytes → ObjId → Z → chunk_set → result IoError chunk_set
}.

Module Verified.
Section verified.
Context `{Bao}.

Definition verify_whole (data : bytes) (root : ObjId) : bool := bool_decide (blake3 data = root).

Definition chunk_ranges (byte_ranges : list range) : chunk_set :=
  foldl (λ out r, if r.2 <=? r.1 then out else
    cr_union out (cr_of (r.1 / GROUP_BYTES * CHUNKS_PER_GROUP, div_ceil r.2 GROUP_BYTES * CHUNKS_PER_GROUP))) cr_empty byte_ranges.

Definition decode_slice_into (encoded : bytes) (root : ObjId) (size : Z) (byte_ranges : list range) (obao : bytes) :
    list (Z * bytes) * bytes * result IoError () :=
  bao_decode encoded root size (chunk_ranges byte_ranges) obao.

Definition encode_slice_from (data obao : bytes) (root : ObjId) (size : Z) (byte_ranges : list range) : result IoError bytes :=
  bao_encode data obao root size (chunk_ranges byte_ranges).

(** [encode_slice] of in-memory bytes and their own outboard. *)
Definition encode_slice (data : bytes) (byte_ranges : list range) : result IoError bytes :=
  bao_encode data (bao_outboard data) (blake3 data) (blen data) (chunk_ranges byte_ranges).

Definition valid_ranges (data obao : bytes) (root : ObjId) (size : Z) (within : chunk_set) : result IoError chunk_set :=
  bao_valid data obao root size within.
End verified.
End Verified.

(** ** Records *)

Inductive Ns := Plain | Shard.
Definition ns_to_u8 (ns : Ns) : Z := match ns with Plain => 0 | Shard => 1 end.
Definition u8_to_ns (v : Z) : Ns := if v =? 1 then Shard else Plain.

Definition SCHEMA_VERSION : Z := 1.
Definition MAX_OBJECT_BYTES : Z := Z.shiftl 64 30.
Definition MAX_RESERVED_BYTES : Z := 2 * MAX_OBJECT_BYTES.

Inductive Loc := Sparse | Slab (slab off : Z) | Extern.
#[global] Instance Loc_eq_dec : EqDecision Loc.
Proof. solve_decision. Defined.

Record ObjRecord := mkRecord {
  size : Z; ns : Z; loc : Loc; present : list Z; refcount : Z; last_access : Z
}.

(** One run of a persisted present set, over the bits, the cursor and the
    run's sense. *)
Definition local_run (st : GroupBits.t * Z * bool) (run : Z) : GroupBits.t * Z * bool :=
  let '(bits, cursor, present) := st in
  let end_ := sat_add64 cursor run in
  (if present && (0 <? run) then GroupBits.add bits (cursor, end_) else bits, end_, negb present).

Definition bits_from_local (wire : list Z) : GroupBits.t := (foldl local_run (GroupBits.new, 0, true) wire).1.1.

Definition bits (r : ObjRecord) : GroupBits.t :=
  match loc r with Slab _ _ | Extern => GroupBits.complete (size r) | Sparse => bits_from_local (present r) end.

Definition is_complete (r : ObjRecord) : bool :=
  match loc r with Slab _ _ | Extern => true | Sparse => GroupBits.is_complete (bits r) (size r) end.

Definition sat_mul_min (g n : Z) : Z := Z.min (sat_mul64 g GROUP_BYTES) n.

Definition held (r : ObjRecord) : Z :=
  match loc r with
  | Slab _ _ => size r
  | Extern => 0
  | Sparse => foldl (λ held g, sat_add64 held (sat_mul_min g.2 (size r) - sat_mul_min g.1 (size r))) 0 (GroupBits.ranges (bits r))
  end.

(** [TrackWrites::write_at]: the extents a decode has written. *)
Definition track (written : list range) (w : Z * bytes) : list range :=
  let n := blen w.2 in
  if n =? 0 then written
  else match last written with
       | Some l => if l.2 =? w.1 then removelast written ++ [(l.1, w.1 + n)] else written ++ [(w.1, w.1 + n)]
       | None => [(w.1, w.1 + n)]
       end.

Definition merge_extent (merged : list range) (r : range) : list range :=
  match last merged with
  | Some l => if r.1 <=? l.2 then removelast merged ++ [(l.1, Z.max l.2 r.2)] else merged ++ [r]
  | None => [r]
  end.

Definition extent_groups (size : Z) (bits : GroupBits.t) (r : range) : GroupBits.t :=
  let first := div_ceil r.1 GROUP_BYTES in
  let last := if size <=? r.2 then group_count size else r.2 / GROUP_BYTES in
  if first <? last then GroupBits.add bits (first, last) else bits.

Definition fully_covered_groups (written : list range) (size : Z) : GroupBits.t :=
  let merged := foldl merge_extent [] (sort_by (λ a b, (a.1 ?= b.1)%Z) written) in
  foldl (extent_groups size) GroupBits.new merged.

Record SlabMeta := mkSlab { slab_len : Z; dead : Z; sealed : bool }.
Definition fresh_slab : SlabMeta := mkSlab 0 0 false.

(** ** Paths *)

Inductive Component := RootDir | CurDir | ParentDir | PrefixOf (p : bytes) | Normal (s : bytes).
#[global] Instance Component_eq_dec : EqDecision Component.
Proof. solve_decision. Defined.

Abbreviation Path := (list Component).

Fixpoint path_strip (root path : Path) : option Path :=
  match root, path with
  | [], _ => Some path
  | c :: root, d :: path => if bool_decide (c = d) then path_strip root path else None
  | _, [] => None
  end.

Definition escapes (rel : Path) : bool := existsb (λ c, match c with ParentDir | RootDir | PrefixOf _ => true | _ => false end) rel.

Record StoreConfig := mkConfig { slab_seal_bytes : Z; compact_dead_num : Z; xite_root : option Path }.

Definition rel_of (cfg : StoreConfig) (path : Path) : result IoError Path :=
  match xite_root cfg with
  | None => Err InvalidInput
  | Some root =>
    match path_strip root path with
    | None => Err InvalidInput
    | Some rel => if escapes rel then Err InvalidInput else Ok rel
    end
  end.

(** ** Disk, memory, and computations *)

Record Index := mkIndex {
  schema : option Z; objects : btree ObjId ObjRecord; slabs : btree Z SlabMeta; externs : btree ObjId Path
}.

(** Sparse data files and outboards carry the inode they were created with;
    [tree] is the xite tree, which its user edits. *)
Record Disk := mkDisk {
  index_db : Index;
  slab_files : btree Z bytes;
  sparse_files : btree ObjId (Z * bytes);
  obao_files : btree ObjId (Z * bytes);
  tree : Path → option bytes;
  next_inode : Z
}.

Record Mem := mkMem { open_slab : Z * Z; sparse_writers : btree ObjId Z; evict_holds : btree ObjId Z }.

(** [power] is the number of disk effects before the power goes ([None]:
    never); [faults] says of each coming append after how many bytes it
    fails. *)
Record World := mkWorld { disk : Disk; mem : Mem; power : option nat; faults : list Z }.

Inductive outcome (A : Type) := Done (a : A) | Fail (e : IoError) | Crash.
Arguments Done {A} a. Arguments Fail {A} e. Arguments Crash {A}.

Definition M (A : Type) : Type := World → outcome A * World.

#[global] Instance M_ret : MRet M := λ A a w, (Done a, w).
#[global] Instance M_bind : MBind M := λ A B k m w,
  match m w with (Done a, w) => k a w | (Fail e, w) => (Fail e, w) | (Crash, w) => (Crash, w) end.

Definition raise {A} (e : IoError) : M A := λ w, (Fail e, w).
Definition gets {A} (f : World → A) : M A := λ w, (Done (f w), w).
Definition lift {A} (r : result IoError A) : M A := match r with Ok a => mret a | Err e => raise e end.
Definition some_or {A} (e : IoError) (o : option A) : M A := match o with Some a => mret a | None => raise e end.
Definition when (b : bool) (m : M unit) : M unit := if b then m else mret tt.

Definition catch {A} (m : M A) : M (result IoError A) := λ w,
  match m w with (Done a, w) => (Done (Ok a), w) | (Fail e, w) => (Done (Err e), w) | (Crash, w) => (Crash, w) end.

(** [for x in l { f(x)?; }] *)
Fixpoint for_each {A} (l : list A) (f : A → M unit) : M unit :=
  match l with [] => mret tt | x :: l => f x ;; for_each l f end.

Definition get_mem {A} (f : Mem → A) : M A := gets (λ w, f (mem w)).
Definition set_mem (f : Mem → Mem) : M unit := λ w, (Done tt, mkWorld (disk w) (f (mem w)) (power w) (faults w)).

Definition spend (p : option nat) : option nat := match p with Some (S n) => Some n | p => p end.

(** One disk effect. *)
Definition effect (f : Disk → Disk) : M unit := λ w,
  match power w with
  | Some O => (Crash, w)
  | p => (Done tt, mkWorld (f (disk w)) (mem w) (spend p) (faults w))
  end.

(** One index transaction: nothing is committed on an error. *)
Definition txn {A} (f : Index → result IoError (A * Index)) : M A := λ w,
  match f (index_db (disk w)) with
  | Err e => (Fail e, w)
  | Ok (a, ix) =>
    match power w with
    | Some O => (Crash, w)
    | p => let d := disk w in
      (Done a, mkWorld (mkDisk ix (slab_files d) (sparse_files d) (obao_files d) (tree d) (next_inode d)) (mem w) (spend p) (faults w))
    end
  end.

Definition get_index {A} (f : Index → A) : M A := gets (λ w, f (index_db (disk w))).

Definition set_slab_file (slab : Z) (f : bytes → bytes) (d : Disk) : Disk :=
  mkDisk (index_db d) (bt_insert slab (f (default [] (bt_get (slab_files d) slab))) (slab_files d)) (sparse_files d) (obao_files d) (tree d) (next_inode d).
Definition drop_slab_file (slab : Z) (d : Disk) : Disk :=
  mkDisk (index_db d) (bt_remove slab (slab_files d)) (sparse_files d) (obao_files d) (tree d) (next_inode d).
Definition with_sparse (f : btree ObjId (Z * bytes) → btree ObjId (Z * bytes)) (d : Disk) : Disk :=
  mkDisk (index_db d) (slab_files d) (f (sparse_files d)) (obao_files d) (tree d) (next_inode d).
Definition with_obao (f : btree ObjId (Z * bytes) → btree ObjId (Z * bytes)) (d : Disk) : Disk :=
  mkDisk (index_db d) (slab_files d) (sparse_files d) (f (obao_files d)) (tree d) (next_inode d).
(** The file of an id in a directory, created empty when it is missing. *)
Definition open_or_create (id : ObjId) (ino : Z) (files : btree ObjId (Z * bytes)) : Z * bytes :=
  default (ino, []) (bt_get files id).
Definition edit_file (id : ObjId) (ino : Z) (f : bytes → bytes) (files : btree ObjId (Z * bytes)) : btree ObjId (Z * bytes) :=
  let e := open_or_create id ino files in bt_insert id (e.1, f e.2) files.
Definition edit_sparse (id : ObjId) (f : bytes → bytes) (d : Disk) : Disk :=
  mkDisk (index_db d) (slab_files d) (edit_file id (next_inode d) f (sparse_files d)) (obao_files d) (tree d) (next_inode d + 1).
Definition edit_obao (id : ObjId) (f : bytes → bytes) (d : Disk) : Disk :=
  mkDisk (index_db d) (slab_files d) (sparse_files d) (edit_file id (next_inode d) f (obao_files d)) (tree d) (next_inode d + 1).

(** A write through an open file: lost once its inode is no longer at the
    path. *)
Definition via_inode (id : ObjId) (ino : Z) (f : bytes → bytes) (files : btree ObjId (Z * bytes)) : btree ObjId (Z * bytes) :=
  match bt_get files id with
  | Some e => if e.1 =? ino then bt_insert id (ino, f e.2) files else files
  | None => files
  end.

Definition with_tree (path : Path) (v : option bytes) (d : Disk) : Disk :=
  mkDisk (index_db d) (slab_files d) (sparse_files d) (obao_files d) (λ q, if decide (q = path) then v else tree d q) (next_inode d).

(** [write_all] on the slab opened for append, then [sync_data]: a failed or
    interrupted append leaves a prefix. *)
Definition append_slab (slab : Z) (bs : bytes) : M unit := λ w,
  let torn k := set_slab_file slab (λ f, f ++ take (Z.to_nat k) bs) (disk w) in
  match power w, faults w with
  | Some O, fs => (Crash, mkWorld (torn (default 0 (head fs))) (mem w) (power w) fs)
  | p, k :: fs =>
    if k <? blen bs then (Fail OtherError, mkWorld (torn k) (mem w) (spend p) fs)
    else (Done tt, mkWorld (set_slab_file slab (λ f, f ++ bs) (disk w)) (mem w) (spend p) fs)
  | p, [] => (Done tt, mkWorld (set_slab_file slab (λ f, f ++ bs) (disk w)) (mem w) (spend p) [])
  end.

(** [File::set_len]: truncate, or extend with zeros. *)
Definition resize (len : Z) (f : bytes) : bytes := take (Z.to_nat len) f ++ repeat x00 (Z.to_nat (len - blen f)).

(** [write_at]: the bytes at a position, zeros before it if the file is short. *)
Definition write_at (pos : Z) (buf : bytes) (f : bytes) : bytes :=
  let f := f ++ repeat x00 (Z.to_nat (pos - blen f)) in
  take (Z.to_nat pos) f ++ buf ++ drop (Z.to_nat (pos + blen buf)) f.

(** [read_exact_at]. *)
Definition read_exact_at (f : bytes) (off len : Z) : result IoError bytes := ok_or (slice f off (off + len)) UnexpectedEof.

(** ** The store's operations *)

Section store.
Context `{Bao} (cfg : StoreConfig).

Definition with_objects (f : btree ObjId ObjRecord → btree ObjId ObjRecord) (ix : Index) : Index :=
  mkIndex (schema ix) (f (objects ix)) (slabs ix) (externs ix).
Definition with_slabs (f : btree Z SlabMeta → btree Z SlabMeta) (ix : Index) : Index :=
  mkIndex (schema ix) (objects ix) (f (slabs ix)) (externs ix).
Definition with_externs (f : btree ObjId Path → btree ObjId Path) (ix : Index) : Index :=
  mkIndex (schema ix) (objects ix) (slabs ix) (f (externs ix)).

Definition get_record (id : ObjId) : M (option ObjRecord) := get_index (λ ix, bt_get (objects ix) id).

Definition required (id : ObjId) : M ObjRecord := r ← get_record id; some_or NotFound r.

Definition set_loc (l : Loc) (r : ObjRecord) : ObjRecord := mkRecord (size r) (ns r) l (present r) (refcount r) (last_access r).
Definition set_present (p : list Z) (r : ObjRecord) : ObjRecord := mkRecord (size r) (ns r) (loc r) p (refcount r) (last_access r).
Definition set_refcount (n : Z) (r : ObjRecord) : ObjRecord := mkRecord (size r) (ns r) (loc r) (present r) n (last_access r).
Definition stamp (now : Z) (r : ObjRecord) : ObjRecord :=
  mkRecord (size r) (ns r) (loc r) (present r) (refcount r) (Z.max (last_access r) now).

Definition update_record (id : ObjId) (f : ObjRecord → ObjRecord) : M ObjRecord :=
  txn (λ ix, match bt_get (objects ix) id with
             | Some r => Ok (f r, with_objects (bt_insert id (f r)) ix)
             | None => Err NotFound
             end).

Definition touch (id : ObjId) (now : Z) : M unit :=
  r ← catch (update_record id (stamp now));
  match r with Ok _ | Err NotFound => mret tt | Err e => raise e end.

Definition touch_if_older (id : ObjId) (rec : ObjRecord) (now : Z) : M unit := when (last_access rec <? now) (touch id now).

Definition contains (id : ObjId) : M bool := r ← get_record id; mret (bool_decide (is_Some r)).
Definition present_bits (id : ObjId) : M GroupBits.t := r ← get_record id; mret (match r with Some r => bits r | None => GroupBits.new end).
Definition object_complete (id : ObjId) : M bool := r ← get_record id; mret (match r with Some r => is_complete r | None => false end).
Definition is_extern_loc (l : Loc) : bool := match l with Extern => true | _ => false end.
Definition is_extern (id : ObjId) : M bool := r ← get_record id; mret (match r with Some r => is_extern_loc (loc r) | None => false end).
Definition info (id : ObjId) : M (option (Z * bool)) := r ← get_record id; mret ((λ r, (size r, is_complete r)) <$> r).

(** *** Extern paths *)

Definition extern_path (id : ObjId) : M Path :=
  root ← some_or InvalidInput (xite_root cfg);
  rel ← get_index (λ ix, bt_get (externs ix) id);
  rel ← some_or NotFound rel;
  mret (root ++ rel).

Definition read_tree (path : Path) : M bytes := f ← gets (λ w, tree (disk w) path); some_or NotFound f.
Definition read_sparse (id : ObjId) : M (Z * bytes) := f ← gets (λ w, bt_get (sparse_files (disk w)) id); some_or NotFound f.
Definition read_obao (id : ObjId) : M (Z * bytes) := f ← gets (λ w, bt_get (obao_files (disk w)) id); some_or NotFound f.

(** The data file of a record, read whole. *)
Definition read_data (id : ObjId) (rec : ObjRecord) : M bytes :=
  match loc rec with
  | Sparse => f ← read_sparse id; mret f.2
  | Extern => path ← extern_path id; read_tree path
  | Slab _ _ => raise InvalidInput
  end.

Definition read_slab (slab off size : Z) : M bytes :=
  f ← gets (λ w, bt_get (slab_files (disk w)) slab);
  f ← some_or NotFound f;
  lift (read_exact_at f off size).

(** *** Slab appends *)

Definition append_or_shrink (slab off : Z) (bs : bytes) : M unit :=
  r ← catch (append_slab slab bs);
  match r with
  | Ok _ => mret tt
  | Err e => effect (set_slab_file slab (resize off)) ;; raise e
  end.

Definition book_dead (slab n : Z) (slabs : btree Z SlabMeta) : btree Z SlabMeta :=
  match bt_get slabs slab with
  | Some m => bt_insert slab (mkSlab (slab_len m) (dead m + n) (sealed m)) slabs
  | None => slabs
  end.

(** The slab row after an append up to [new_len], and the slab to append to
    next. *)
Definition advance (slab new_len : Z) (book : Z → Z) (slabs : btree Z SlabMeta) : btree Z SlabMeta * (Z * Z) :=
  let m := default fresh_slab (bt_get slabs slab) in
  if slab_seal_bytes cfg <=? new_len then
    (bt_insert slab (mkSlab new_len (book (dead m)) true) (bt_insert (slab + 1) fresh_slab slabs), (slab + 1, 0))
  else (bt_insert slab (mkSlab new_len (book (dead m)) (sealed m)) slabs, (slab, new_len)).

Definition set_open (o : Z * Z) : M unit := set_mem (λ m, mkMem o (sparse_writers m) (evict_holds m)).

(** *** Compaction *)

Definition in_slab (victim : Z) (r : ObjRecord) : bool := match loc r with Slab s _ => s =? victim | _ => false end.

Definition relocate (id : ObjId) (was new : Loc) (objects : btree ObjId ObjRecord) : btree ObjId ObjRecord * bool :=
  match bt_get objects id with
  | Some cur => if bool_decide (loc cur = was) then (bt_insert id (set_loc new cur) objects, true) else (objects, false)
  | None => (objects, false)
  end.

Definition move_object (victim : Z) (id : ObjId) (off size : Z) : M unit :=
  bs ← read_slab victim off size;
  open ← get_mem open_slab;
  append_or_shrink open.1 open.2 bs ;;
  opened ← txn (λ ix,
    let '(objs, moved) := relocate id (Slab victim off) (Slab open.1 open.2) (objects ix) in
    let '(slabs', opened) := advance open.1 (open.2 + blen bs) (λ d, if moved : bool then d else sat_add64 d (blen bs)) (slabs ix) in
    Ok (opened, mkIndex (schema ix) objs slabs' (externs ix)));
  set_open opened.

Definition compact_slab (victim : Z) : M unit :=
  live ← get_index (λ ix, bt_filter (in_slab victim) (objects ix));
  for_each live (λ e, match loc e.2 with Slab _ off => move_object victim e.1 off (size e.2) | _ => mret tt end) ;;
  txn (λ ix, Ok (tt, with_slabs (bt_remove victim) ix)) ;;
  effect (drop_slab_file victim).

Definition worth_compacting (m : SlabMeta) : bool :=
  sealed m && (0 <? slab_len m) && (slab_len m * compact_dead_num cfg <=? dead m * 256).

Definition compact_if_worthwhile : M unit :=
  victims ← get_index (λ ix, bt_keys (bt_filter worth_compacting (slabs ix)));
  for_each victims compact_slab.

(** *** Deleting *)

Definition delete_row (id : ObjId) (rec : ObjRecord) (ix : Index) : Index :=
  mkIndex (schema ix) (bt_remove id (objects ix))
    (match loc rec with Slab s _ => book_dead s (size rec) (slabs ix) | _ => slabs ix end)
    (match loc rec with Extern => bt_remove id (externs ix) | _ => externs ix end).

Definition unlink_pair (id : ObjId) : M unit := effect (with_sparse (bt_remove id)) ;; effect (with_obao (bt_remove id)).

Definition delete_object (id : ObjId) (rec : ObjRecord) : M unit :=
  writers ← get_mem sparse_writers;
  if bt_contains writers id then mret tt else
  txn (λ ix, Ok (tt, delete_row id rec ix)) ;;
  match loc rec with
  | Sparse => unlink_pair id
  | Extern => effect (with_obao (bt_remove id))
  | Slab _ _ => mret tt
  end.

Definition remove (id : ObjId) : M unit :=
  r ← get_record id;
  match r with
  | None => mret tt
  | Some rec => delete_object id rec ;; compact_if_worthwhile
  end.

Definition evictable (rec : ObjRecord) : bool := (refcount rec =? 0) && negb (is_extern_loc (loc rec)).

Definition delete_if_unreferenced (id : ObjId) : M (option ObjRecord) :=
  m ← gets mem;
  if bt_contains (sparse_writers m) id || bt_contains (evict_holds m) id then mret None else
  deleted ← txn (λ ix, Ok (match bt_get (objects ix) id with
                           | Some rec => if evictable rec then (Some rec, delete_row id rec ix) else (None, ix)
                           | None => (None, ix)
                           end));
  match deleted with
  | Some rec => match loc rec with Sparse => unlink_pair id ;; mret deleted | _ => mret deleted end
  | None => mret None
  end.

(** *** Inserting whole objects *)

(** Whether an object that is to be stored whole is there already: [Some b] is
    the early return. An incomplete record is retired. *)
Definition already_here (id : ObjId) (now : Z) : M (option bool) :=
  r ← get_record id;
  match r with
  | None => mret None
  | Some rec =>
    if is_complete rec then touch_if_older id rec now ;; mret (Some false)
    else remove id ;; again ← get_record id;
      mret (match again with Some _ => Some false | None => None end)
  end.

Definition append_object (id : ObjId) (ns : Ns) (bs : bytes) (now : Z) : M bool :=
  open ← get_mem open_slab;
  append_or_shrink open.1 open.2 bs ;;
  opened ← txn (λ ix,
    let rec := mkRecord (blen bs) (ns_to_u8 ns) (Slab open.1 open.2) [] 0 now in
    let '(slabs', opened) := advance open.1 (open.2 + blen bs) (λ d, d) (slabs ix) in
    Ok (opened, mkIndex (schema ix) (bt_insert id rec (objects ix)) slabs' (externs ix)));
  set_open opened ;; mret true.

Definition insert_bytes (id : ObjId) (ns : Ns) (bs : bytes) (now : Z) : M bool :=
  if negb (Verified.verify_whole bs id) then raise InvalidData else
  here ← already_here id now;
  match here with Some b => mret b | None => append_object id ns bs now end.

(** *** Writers and holds *)

Definition count_up (id : ObjId) (m : btree ObjId Z) : btree ObjId Z := bt_upsert (λ n, n + 1) id 1 m.
Definition count_down (id : ObjId) (m : btree ObjId Z) : btree ObjId Z :=
  match bt_get m id with
  | Some n => if n - 1 =? 0 then bt_remove id m else bt_insert id (n - 1) m
  | None => m
  end.

Definition register (id : ObjId) : M unit := set_mem (λ m, mkMem (open_slab m) (count_up id (sparse_writers m)) (evict_holds m)).
Definition unregister (id : ObjId) : M unit := set_mem (λ m, mkMem (open_slab m) (count_down id (sparse_writers m)) (evict_holds m)).
Definition hold_eviction (id : ObjId) : M unit := set_mem (λ m, mkMem (open_slab m) (sparse_writers m) (count_up id (evict_holds m))).
Definition drop_hold (id : ObjId) : M unit := set_mem (λ m, mkMem (open_slab m) (sparse_writers m) (count_down id (evict_holds m))).

(** The guard of a writer: dropped on every way out. *)
Definition guarded {A} (id : ObjId) (m : M A) : M A :=
  r ← catch m; unregister id ;; lift r.

(** *** Extern objects *)

Definition commit_extern (id : ObjId) (ns : Ns) (size_ : Z) (rel : Path) (now : Z) : M bool :=
  prev ← txn (λ ix,
    let prev := bt_get (objects ix) id in
    let slabs' := match prev with
                  | Some p => match loc p with Slab s _ => book_dead s (size p) (slabs ix) | _ => slabs ix end
                  | None => slabs ix end in
    let rec := mkRecord size_ (ns_to_u8 ns) Extern (GroupBits.to_wire (GroupBits.complete size_))
                 (default 0 (refcount <$> prev)) (default now ((λ p, Z.max (last_access p) now) <$> prev)) in
    Ok (prev, mkIndex (schema ix) (bt_insert id rec (objects ix)) slabs' (bt_insert id rel (externs ix))));
  match loc <$> prev with
  | Some Sparse =>
    writers ← get_mem sparse_writers;
    when (negb (bt_contains writers id)) (effect (with_sparse (bt_remove id)))
  | _ => mret tt
  end ;; mret true.

Definition adopt_extern (id : ObjId) (ns : Ns) (path : Path) (now : Z) : M bool :=
  rel ← lift (rel_of cfg path);
  here ← already_here id now;
  match here with
  | Some b => mret b
  | None =>
    data ← read_tree path;
    if negb (bool_decide (blake3 data = id)) then raise InvalidData else
    effect (edit_obao id (λ _, bao_outboard data)) ;;
    commit_extern id ns (blen data) rel now
  end.

Definition reclaim_duplicate (id : ObjId) (path : Path) (now : Z) : M Z :=
  rel ← lift (rel_of cfg path);
  r ← get_record id;
  match r with
  | None => mret 0
  | Some rec =>
    match loc rec with
    | Sparse =>
      if negb (is_complete rec) then mret 0 else
      data ← read_tree path;
      if negb (blen data =? size rec) || negb (bool_decide (blake3 data = id)) then mret 0 else
      register id ;;
      guarded id (commit_extern id (u8_to_ns (ns rec)) (size rec) rel now ;;
                  effect (with_sparse (bt_remove id)) ;; mret (held rec))
    | _ => mret 0
    end
  end.

Definition retire_extern (id : ObjId) : M unit :=
  txn (λ ix, Ok (tt, mkIndex (schema ix) (bt_remove id (objects ix)) (slabs ix) (bt_remove id (externs ix)))) ;;
  effect (with_obao (bt_remove id)).

Definition all_chunks (size : Z) : chunk_set :=
  GroupBits.to_chunk_ranges_clamped cr_empty cr_of cr_union (GroupBits.complete size) size.

Definition extern_still_matches (id : ObjId) (rec : ObjRecord) : M bool :=
  path ← extern_path id;
  data ← read_tree path;
  if negb (blen data =? size rec) then mret false else
  ob ← read_obao id;
  valid ← lift (Verified.valid_ranges data ob.2 id (size rec) (all_chunks (size rec)));
  mret (is_superset valid (all_chunks (size rec))).

Definition materialize_from_extern (id : ObjId) (rec : ObjRecord) (dst : Path) : M unit :=
  cur ← extern_path id;
  present ← gets (λ w, bool_decide (is_Some (tree (disk w) cur)));
  fine ← (if bool_decide (cur = dst) then mret (if present : bool then Some false else None)
          else m ← catch (extern_still_matches id rec); mret (match m with Ok true => Some true | _ => None end));
  match fine with
  | Some false => mret tt
  | Some true =>
    data ← read_tree cur;
    effect (with_tree dst (Some data)) ;;
    if negb (blen data =? size rec) then effect (with_tree dst None) ;; raise OtherError else mret tt
  | None => retire_extern id ;; raise NotFound
  end.

(** Moving the sparse file to its path: a rename, or on another volume a copy
    and then the unlinking of the source. *)
Definition move_file (one_volume : bool) (id : ObjId) (rec : ObjRecord) (dst : Path) : M unit :=
  f ← read_sparse id;
  if one_volume then effect (λ d, with_sparse (bt_remove id) (with_tree dst (Some f.2) d))
  else
    effect (with_tree dst (Some f.2)) ;;
    if negb (blen f.2 =? size rec) then effect (with_tree dst None) ;; raise OtherError
    else effect (with_sparse (bt_remove id)).

Definition materialize (one_volume : bool) (id : ObjId) (dst : Path) (now : Z) : M unit :=
  rel ← lift (rel_of cfg dst);
  rec ← required id;
  match loc rec with
  | Extern => materialize_from_extern id rec dst
  | Slab _ _ => raise InvalidInput
  | Sparse =>
    if negb (is_complete rec) then raise InvalidInput else
    register id ;;
    guarded id (move_file one_volume id rec dst ;;
                commit_extern id (u8_to_ns (ns rec)) (size rec) rel now ;; mret tt)
  end.

(** *** Sparse objects *)

Definition ensure_len (len : Z) (f : bytes) : bytes := if blen f <? len then resize len f else f.

Definition ensure_sparse (id : ObjId) (ns : Ns) (size : Z) (now : Z) : M unit :=
  if MAX_OBJECT_BYTES <? size then raise InvalidInput else
  r ← get_record id;
  match r with
  | Some _ => mret tt
  | None =>
    effect (edit_sparse id (ensure_len size)) ;;
    effect (edit_obao id (ensure_len (bao_outboard_size size))) ;;
    txn (λ ix, Ok (tt, match bt_get (objects ix) id with
                       | Some _ => ix
                       | None => with_objects (bt_insert id (mkRecord size (ns_to_u8 ns) Sparse [] 0 now)) ix
                       end))
  end.

(** A decode under way: the object as its record said, the ranges asked for,
    and the inodes it opened. *)
Record Flight := mkFlight { f_id : ObjId; f_size : Z; f_ranges : list range; f_data : Z; f_obao : Z }.

Definition open_flight (id : ObjId) (byte_ranges : list range) : M Flight :=
  rec ← required id;
  match loc rec with
  | Sparse =>
    if existsb (λ r : range, size rec <? r.2) byte_ranges then raise InvalidInput else
    data ← read_sparse id;
    obao ← read_obao id;
    mret (mkFlight id (size rec) byte_ranges data.1 obao.1)
  | _ => raise InvalidInput
  end.

(** The head of both writers: the guard, then the checks. *)
Definition begin_write (id : ObjId) (byte_ranges : list range) : M Flight :=
  register id ;;
  r ← catch (open_flight id byte_ranges);
  match r with Ok f => mret f | Err e => unregister id ;; raise e end.

(** The decode itself: its leaf writes reach the data file one by one. *)
Definition decode_flight (f : Flight) (encoded : bytes) : M (list (Z * bytes) * result IoError ()) :=
  obao ← gets (λ w, default [] (snd <$> bt_get (obao_files (disk w)) (f_id f)));
  let '(writes, obao', ended) := Verified.decode_slice_into encoded (f_id f) (f_size f) (f_ranges f) obao in
  for_each writes (λ w, effect (with_sparse (via_inode (f_id f) (f_data f) (write_at w.1 w.2)))) ;;
  effect (with_obao (via_inode (f_id f) (f_obao f) (λ _, obao'))) ;;
  mret (writes, ended).

Definition add_groups (gs : list range) (now : Z) (cur : ObjRecord) : ObjRecord :=
  stamp now (set_present (GroupBits.to_wire (foldl GroupBits.add (bits cur) gs)) cur).

Definition end_write (f : Flight) (encoded : bytes) (now : Z) : M unit :=
  guarded (f_id f) (
    '(_, ended) ← decode_flight f encoded;
    match ended with
    | Err e => raise e
    | Ok _ =>
    update_record (f_id f) (add_groups (map groups_for_bytes (f_ranges f)) now) ;; mret tt
    end).

Definition write_slice (id : ObjId) (byte_ranges : list range) (encoded : bytes) (now : Z) : M unit :=
  f ← begin_write id byte_ranges; end_write f encoded now.

Definition group_bytes (size : Z) (r : range) : Z := Z.min (r.2 * GROUP_BYTES) size - r.1 * GROUP_BYTES.

Definition end_write_partial (f : Flight) (encoded : bytes) (now : Z) : M Z :=
  guarded (f_id f) (
    '(writes, ended) ← decode_flight f encoded;
    let landed := fully_covered_groups (foldl track [] writes) (f_size f) in
    let held := foldr Z.add 0 (map (group_bytes (f_size f)) (GroupBits.ranges landed)) in
    (if GroupBits.is_empty landed then mret tt
     else update_record (f_id f) (add_groups (GroupBits.ranges landed) now) ;; mret tt) ;;
    match ended with Err e => raise e | Ok _ => mret held end).

Definition write_slice_partial (id : ObjId) (byte_ranges : list range) (encoded : bytes) (now : Z) : M Z :=
  f ← begin_write id byte_ranges; end_write_partial f encoded now.

(** *** Reading *)

Definition encode_slice (id : ObjId) (byte_ranges : list range) (now : Z) : M bytes :=
  rec ← required id;
  if negb (forallb (λ r, GroupBits.contains_all (bits rec) (groups_for_bytes r)) byte_ranges) then raise NotFound else
  out ← match loc rec with
        | Slab slab off =>
          bs ← read_slab slab off (size rec);
          if negb (bool_decide (blake3 bs = id)) then raise InvalidData else lift (Verified.encode_slice bs byte_ranges)
        | _ =>
          data ← read_data id rec;
          ob ← read_obao id;
          lift (Verified.encode_slice_from data ob.2 id (size rec) byte_ranges)
        end;
  touch_if_older id rec now ;; mret out.

Definition read_verified_slab (id : ObjId) (slab off size : Z) : M bytes :=
  bs ← read_slab slab off size;
  if Verified.verify_whole bs id then mret bs else raise InvalidData.

Definition read_bytes (id : ObjId) (now : Z) : M bytes :=
  rec ← required id;
  if negb (is_complete rec) then raise NotFound else
  bs ← match loc rec with Slab slab off => read_verified_slab id slab off (size rec) | _ => read_data id rec end;
  touch_if_older id rec now ;; mret bs.

(** [buf[start..end]] of a whole slab object is in bounds ([end_ <= size]). *)
Definition read_range (id : ObjId) (start len now : Z) : M bytes :=
  rec ← required id;
  let end_ := Z.min (sat_add64 start len) (size rec) in
  if (size rec <=? start) || (end_ <=? start) then mret [] else
  bs ← match loc rec with
       | Slab slab off => bs ← read_verified_slab id slab off (size rec); lift (ok_or (slice bs start end_) OtherError)
       | _ =>
         if negb (GroupBits.contains_all (bits rec) (groups_for_bytes (start, end_))) then raise NotFound else
         data ← read_data id rec;
         lift (read_exact_at data start (end_ - start))
       end;
  touch_if_older id rec now ;; mret bs.

(** *** References and quota *)

Definition ref_delta (id : ObjId) (delta : Z) : M Z :=
  rec ← update_record id (λ cur, set_refcount (wrap32 (Z.max 0 (refcount cur + delta))) cur);
  mret (refcount rec).

Definition pin (id : ObjId) : M unit :=
  rec ← required id;
  if negb (refcount rec =? 0) then mret tt else
  update_record id (λ cur, if refcount cur =? 0 then set_refcount 1 cur else cur) ;; mret tt.

Definition total_held (objects : btree ObjId ObjRecord) : Z := foldl (λ t e, sat_add64 t (held e.2)) 0 objects.

Definition total_bytes : M Z := get_index (λ ix, total_held (objects ix)).
Definition ns_bytes (want : Ns) : M Z := get_index (λ ix, total_held (bt_filter (λ r, ns r =? ns_to_u8 want) (objects ix))).
Definition indexed_bytes : M Z := get_index (λ ix, foldr Z.add 0 (map size (bt_values (objects ix)))).

(** The bytes a sparse record has reserved and not received. *)
Definition unfilled (r : ObjRecord) : Z := match loc r with Sparse => sat_sub (size r) (held r) | _ => 0 end.

Definition reserving (objects : btree ObjId ObjRecord) : btree ObjId ObjRecord := bt_filter (λ r, negb (unfilled r =? 0)) objects.

Fixpoint reclaim_loop (candidates : list (Z * (ObjId * Z))) (reserved freed : Z) : M Z :=
  match candidates with
  | [] => mret freed
  | (_, (id, unfilled)) :: candidates =>
    if reserved <=? MAX_RESERVED_BYTES then mret freed else
    deleted ← delete_if_unreferenced id;
    match deleted with
    | Some rec => reclaim_loop candidates (sat_sub reserved unfilled) (sat_add64 freed (held rec))
    | None => reclaim_loop candidates reserved freed
    end
  end.

Definition enforce_reservation_bound : M Z :=
  rows ← get_index (λ ix, reserving (objects ix));
  let reserved := foldl (λ t e, sat_add64 t (unfilled e.2)) 0 rows in
  let candidates := map (λ e, (last_access e.2, (e.1, unfilled e.2))) (bt_filter (λ r, refcount r =? 0) rows) in
  if reserved <=? MAX_RESERVED_BYTES then mret 0 else reclaim_loop (Ordered.sort candidates) reserved 0.

Fixpoint evict_loop (candidates : list (Z * ObjId)) (bytes_needed freed : Z) : M Z :=
  match candidates with
  | [] => mret freed
  | (_, id) :: candidates =>
    if bytes_needed <=? freed then mret freed else
    deleted ← delete_if_unreferenced id;
    evict_loop candidates bytes_needed (match deleted with Some rec => freed + held rec | None => freed end)
  end.

Definition evict_lru (bytes_needed : Z) : M Z :=
  candidates ← get_index (λ ix, map (λ e, (last_access e.2, e.1)) (bt_filter evictable (objects ix)));
  freed ← evict_loop (Ordered.sort candidates) bytes_needed 0;
  compact_if_worthwhile ;; mret freed.

Definition enforce_quota (quota : Z) : M Z :=
  freed ← enforce_reservation_bound;
  total ← total_bytes;
  if quota <? total then more ← evict_lru (total - quota); mret (sat_add64 freed more) else mret freed.

(** *** Distrust *)

Definition one_group (g : Z) : GroupBits.t := GroupBits.add GroupBits.new (g, g + 1).

Definition chunks_of (b : GroupBits.t) (size : Z) : chunk_set := GroupBits.to_chunk_ranges_clamped cr_empty cr_of cr_union b size.

Definition groups_in (r : range) : list Z := map (λ i, r.1 + Z.of_nat i) (seq 0 (Z.to_nat (r.2 - r.1))).

Definition kept_groups (claimed : GroupBits.t) (valid : chunk_set) (size : Z) : GroupBits.t :=
  foldl (λ kept g, if is_superset valid (chunks_of (one_group g) size) then GroupBits.add kept (g, g + 1) else kept)
    GroupBits.new (concat (map groups_in (GroupBits.ranges claimed))).

Definition revalidate_slab (id : ObjId) (slab off size : Z) : M GroupBits.t :=
  r ← catch (read_slab slab off size);
  if match r with Ok bs => Verified.verify_whole bs id | Err _ => false end then mret (GroupBits.complete size) else
  gone ← catch (remove id);
  match gone with
  | Ok _ => mret GroupBits.new
  | Err e => r ← get_record id; match r with Some _ => raise e | None => mret GroupBits.new end
  end.

Definition revalidate_sparse (id : ObjId) (rec : ObjRecord) : M GroupBits.t :=
  let claimed := bits rec in
  if GroupBits.is_empty claimed then mret claimed else
  pair ← catch (ob ← read_obao id; data ← read_sparse id; mret (ob.2, data.2));
  match pair with
  | Err NotFound => remove id ;; mret GroupBits.new
  | Err e => raise e
  | Ok (ob, data) =>
    valid ← lift (Verified.valid_ranges data ob id (size rec) (chunks_of claimed (size rec)));
    let failed := GroupBits.added_in (kept_groups claimed valid (size rec)) claimed in
    updated ← update_record id (λ cur, set_present (GroupBits.to_wire (foldl GroupBits.remove (bits cur) (GroupBits.ranges failed))) cur);
    mret (bits updated)
  end.

Definition revalidate (id : ObjId) : M GroupBits.t :=
  rec ← required id;
  match loc rec with
  | Extern =>
    m ← catch (extern_still_matches id rec);
    match m with Ok true => mret (GroupBits.complete (size rec)) | _ => retire_extern id ;; mret GroupBits.new end
  | Slab slab off => revalidate_slab id slab off (size rec)
  | Sparse => revalidate_sparse id rec
  end.

(** *** Opening *)

(** The highest slab number, plus one. *)
Definition next_slab (slabs : btree Z SlabMeta) : Z := default 0 ((λ e, e.1 + 1) <$> last slabs).

(** [newest_open]: the last slab that is not sealed. *)
Definition newest_open (slabs : btree Z SlabMeta) : option (Z * Z) :=
  (λ e : Z * SlabMeta, (e.1, slab_len e.2)) <$> last (bt_filter (λ m, negb (sealed m)) slabs).

Definition init_index (ix : Index) : result IoError ((list (Z * Z) * (Z * Z)) * Index) :=
  let lens := map (λ e, (e.1, slab_len e.2)) (slabs ix) in
  if match schema ix with Some v => negb (v =? SCHEMA_VERSION) | None => false end then Err InvalidData else
  let schema' := default SCHEMA_VERSION (schema ix) in
  match newest_open (slabs ix) with
  | Some open => Ok ((lens, open), mkIndex (Some schema') (objects ix) (slabs ix) (externs ix))
  | None =>
    let next := next_slab (slabs ix) in
    Ok ((lens, (next, 0)), mkIndex (Some schema') (objects ix) (bt_insert next fresh_slab (slabs ix)) (externs ix))
  end.

(** Shrinks an over-long slab file; reports whether the open slab is short. *)
Fixpoint reconcile (open : Z) (lens : list (Z * Z)) (damaged : bool) : M bool :=
  match lens with
  | [] => mret damaged
  | (slab, len) :: lens =>
    actual ← gets (λ w, blen (default [] (bt_get (slab_files (disk w)) slab)));
    if len <? actual then effect (set_slab_file slab (resize len)) ;; reconcile open lens damaged
    else reconcile open lens (if (actual <? len) && (slab =? open) then true else damaged)
  end.

Definition seal_damaged (open : Z) (ix : Index) : result IoError ((Z * Z) * Index) :=
  let m := default fresh_slab (bt_get (slabs ix) open) in
  let slabs1 := bt_insert open (mkSlab (slab_len m) (dead m) true) (slabs ix) in
  let fresh := next_slab slabs1 in
  Ok ((fresh, 0), with_slabs (λ _, bt_insert fresh fresh_slab slabs1) ix).

Definition open_with : M unit :=
  '(lens, open) ← txn init_index;
  damaged ← reconcile open.1 lens false;
  open ← (if damaged : bool then txn (seal_damaged open.1) else mret open);
  set_mem (λ _, mkMem open [] []).
End store.
