(* ===== verification/StoreInv.v ===== *)
(** * The store's invariant ([crates/epix-blob/src/store.rs])

    What holds of the disk at every moment, even between two writes of an
    operation, and of the memory between operations; that every operation
    keeps it, on every path and at every point where the power can go; and
    that reopening restores it. *)
From Stdlib Require Import ZArith Lia Strings.Byte.
From stdpp Require Import base list sorting.
From S2P Require Import Prelude Ordered Bitfield Store.
#[local] Open Scope Z_scope.

(** ** Present sets *)

Definition groups_below (n : Z) (b : GroupBits.t) : Prop := ∀ g, GroupBits.mem b g → 0 <= g < n.

Lemma wire_pairs_local lo c acc rs : Forall (λ r, r.2 < lo) acc → 0 <= c → c <= lo → wf_from lo rs →
  Forall (λ r : range, r.2 <= u64_max) rs →
  ∃ c', foldl local_run (GroupBits.mk acc, c, false) (GroupBits.wire_pairs c rs) = (GroupBits.mk (acc ++ rs), c', false).
Proof.
  revert lo c acc. induction rs as [|[s e] rs IH]; intros lo c acc Hacc H0 Hc Hwf Hb.
  { exists c. by rewrite app_nil_r. }
  destruct Hwf as (H1 & H2 & Hwf). apply Forall_cons in Hb as [He Hb]. cbn [snd] in He.
  cbn [GroupBits.wire_pairs foldl]. unfold local_run at 2 3. cbn [andb negb].
  assert (sat_add64 c (s - c) = s) as -> by (unfold sat_add64; lia).
  assert (sat_add64 s (e - s) = e) as -> by (unfold sat_add64; lia).
  rewrite (proj2 (Z.ltb_lt 0 (e - s))) by lia.
  assert (GroupBits.add (GroupBits.mk acc) (s, e) = GroupBits.mk (acc ++ [(s, e)])) as ->.
  { unfold GroupBits.add. cbn [fst snd GroupBits.runs]. rewrite (proj2 (Z.leb_gt e s)) by lia.
    destruct (last acc) as [t|] eqn:El; [|done]. apply last_Some_elem_of in El. rewrite Forall_forall in Hacc. specialize (Hacc t El).
    rewrite (proj2 (Z.eqb_neq s t.2)), (proj2 (Z.ltb_lt t.2 s)) by lia. done. }
  destruct (IH (e + 1) e (acc ++ [(s, e)])) as [c' ->]; [|lia|lia|done|done|].
  - apply Forall_app. split; [|by repeat constructor; cbn; lia]. eapply Forall_impl; [exact Hacc|]. cbn. lia.
  - exists c'. by rewrite <- app_assoc.
Qed.

Lemma groups_below_runs n b : GroupBits.wf b → groups_below n b → Forall (λ r : range, r.2 <= n) (GroupBits.runs b).
Proof.
  destruct b as [rs]. unfold GroupBits.wf, groups_below, GroupBits.mem. cbn [GroupBits.runs]. generalize 0 at 1.
  induction rs as [|[s e] rs IH]; intros lo Hwf Hb; constructor; destruct Hwf as (H1 & H2 & Hwf).
  - cbn. assert (e - 1 < n); [|lia]. apply Hb. apply has_cons. left. lia.
  - apply (IH (e + 1)); [done|]. intros g Hg. apply Hb. apply has_cons. by right.
Qed.

(** A present set survives its record. *)
Lemma bits_from_to_wire n b : GroupBits.wf b → groups_below n b → n <= u64_max → bits_from_local (GroupBits.to_wire b) = b.
Proof.
  intros Hwf Hb Hn. pose proof (groups_below_runs n b Hwf Hb) as Hr. destruct b as [rs]. unfold GroupBits.wf in Hwf. cbn [GroupBits.runs] in *.
  unfold bits_from_local, GroupBits.to_wire. cbn [GroupBits.runs]. destruct rs as [|[s e] rs]; [done|].
  assert (Forall (λ r : range, r.2 <= u64_max) ((s, e) :: rs)) as Hu by (eapply Forall_impl; [exact Hr|]; cbn; lia).
  destruct (wire_pairs_local 0 0 [] ((s, e) :: rs)) as [c' Hc]; [constructor|lia|lia|done|done|].
  cbn [GroupBits.wire_pairs]. cbn [GroupBits.wire_pairs app] in Hc. change (GroupBits.mk []) with GroupBits.new in Hc.
  destruct (Z.eqb_spec (s - 0) 0) as [Hs|Hs].
  - rewrite Hs in Hc. change (foldl local_run (GroupBits.new, 0, false) (0 :: ?l)) with (foldl local_run (GroupBits.new, 0, true) l) in Hc. by rewrite Hc.
  - change (foldl local_run (GroupBits.new, 0, true) (0 :: ?l)) with (foldl local_run (GroupBits.new, 0, false) l). by rewrite Hc.
Qed.

Lemma adds_spec rs : ∀ b, GroupBits.wf b → Forall (λ r : range, 0 <= r.1) rs →
  GroupBits.wf (foldl GroupBits.add b rs) ∧ ∀ g, GroupBits.mem (foldl GroupBits.add b rs) g ↔ GroupBits.mem b g ∨ has rs g.
Proof.
  induction rs as [|r rs IH]; intros b Hwf Hr; cbn [foldl].
  { split; [done|]. intros g. rewrite has_nil. tauto. }
  apply Forall_cons in Hr as [H0 Hr]. destruct (GroupBits.add_spec b r Hwf H0) as [W1 M1]. destruct (IH _ W1 Hr) as [W2 M2].
  split; [done|]. intros g. rewrite M2, M1. destruct r as [s e]. rewrite has_cons. unfold in_range. cbn. tauto.
Qed.

Lemma removes_spec rs : ∀ b, GroupBits.wf b →
  GroupBits.wf (foldl GroupBits.remove b rs) ∧ ∀ g, GroupBits.mem (foldl GroupBits.remove b rs) g ↔ GroupBits.mem b g ∧ ¬ has rs g.
Proof.
  induction rs as [|r rs IH]; intros b Hwf; cbn [foldl].
  { split; [done|]. intros g. rewrite has_nil. tauto. }
  destruct (GroupBits.remove_spec b r Hwf) as [W1 M1]. destruct (IH _ W1) as [W2 M2].
  split; [done|]. intros g. rewrite M2, M1. destruct r as [s e]. rewrite has_cons. unfold in_range. cbn. tauto.
Qed.

(** ** Sums over a map *)

Definition bt_sum {K V} (f : V → Z) (m : btree K V) : Z := foldr (λ e t, f e.2 + t) 0 m.

Lemma bt_sum_perm {K V} (f : V → Z) (m m' : btree K V) : m ≡ₚ m' → bt_sum f m = bt_sum f m'.
Proof. unfold bt_sum. induction 1; cbn; lia. Qed.

Section sums.
Context {K V : Type} `{Ord K} (f : V → Z).
Implicit Types m : btree K V.

Lemma bt_remove_absent m k : bt_wf m → bt_get m k = None → bt_remove k m = m.
Proof.
  intros Hwf Hk. apply bt_ext; [by apply bt_remove_wf|done|]. intros k'. rewrite bt_get_remove by done. case_decide; congruence.
Qed.

Lemma bt_remove_perm m k v : bt_wf m → bt_get m k = Some v → m ≡ₚ (k, v) :: bt_remove k m.
Proof.
  induction m as [|[k0 v0] m IH]; [done|]. intros [Hk Hm]%bt_wf_cons Hget. cbn [bt_get bt_remove] in *. destruct (cmp k k0) eqn:E.
  - apply cmp_eq_iff in E as ->. by apply (inj Some) in Hget as ->.
  - done.
  - rewrite (IH Hm Hget) at 1. by rewrite Permutation_swap.
Qed.

Lemma bt_sum_remove m k : bt_wf m → bt_sum f (bt_remove k m) = bt_sum f m - default 0 (f <$> bt_get m k).
Proof.
  intros Hwf. destruct (bt_get m k) as [v|] eqn:E; cbn.
  - rewrite (bt_sum_perm f m _ (bt_remove_perm m k v Hwf E)). unfold bt_sum. cbn. lia.
  - rewrite bt_remove_absent by done. lia.
Qed.

Lemma bt_remove_insert m k v : bt_wf m → bt_remove k (bt_insert k v m) = bt_remove k m.
Proof.
  intros Hwf. apply bt_ext; [by apply bt_remove_wf, bt_insert_wf|by apply bt_remove_wf|]. intros k'.
  rewrite !bt_get_remove, bt_get_insert by (done || by apply bt_insert_wf). by case_decide.
Qed.

Lemma bt_sum_insert m k v : bt_wf m → bt_sum f (bt_insert k v m) = bt_sum f m - default 0 (f <$> bt_get m k) + f v.
Proof.
  intros Hwf. pose proof (bt_sum_remove (bt_insert k v m) k (bt_insert_wf m k v Hwf)) as Hr.
  rewrite bt_remove_insert, bt_sum_remove, bt_get_insert, decide_True in Hr by done. cbn in Hr. lia.
Qed.
End sums.

(** ** Bytes *)

Definition agree (f d : bytes) (lo hi : Z) : Prop := ∀ x, lo <= x < hi → f !! Z.to_nat x = d !! Z.to_nat x.

Lemma blen_write_at pos buf f : 0 <= pos → blen (write_at pos buf f) = Z.max (blen f) (pos + blen buf).
Proof.
  intros Hp. unfold write_at, blen. rewrite !length_app, length_take, length_drop, !length_app, !repeat_length. lia.
Qed.

Lemma write_at_lookup pos buf f x : 0 <= pos → 0 <= x < blen f ∨ pos <= x < pos + blen buf →
  write_at pos buf f !! Z.to_nat x = if (pos <=? x) && (x <? pos + blen buf) then buf !! Z.to_nat (x - pos) else f !! Z.to_nat x.
Proof.
  intros Hp Hx. unfold write_at. set (z := repeat x00 (Z.to_nat (pos - blen f))).
  assert (length (f ++ z) = Z.to_nat (Z.max (blen f) pos)) as Hl by (unfold z, blen; rewrite length_app, repeat_length; lia).
  destruct (Z.leb_spec pos x); cbn [andb].
  - rewrite lookup_app_r by (rewrite length_take; lia). rewrite length_take, Hl.
    replace (Z.to_nat x - Z.to_nat pos `min` Z.to_nat (Z.max (blen f) pos))%nat with (Z.to_nat (x - pos)) by lia.
    destruct (Z.ltb_spec x (pos + blen buf)).
    + rewrite lookup_app_l by (unfold blen in *; lia). done.
    + rewrite lookup_app_r by (unfold blen in *; lia). rewrite lookup_drop. rewrite lookup_app_l by (unfold blen in *; lia).
      f_equal. unfold blen in *. lia.
  - rewrite lookup_app_l by (rewrite length_take, Hl; lia). rewrite lookup_take_lt by lia.
    rewrite lookup_app_l by (unfold blen in *; lia). done.
Qed.

Lemma slice_lookup {A} (l b : list A) lo hi x : slice l lo hi = Some b → lo <= x < hi → b !! Z.to_nat (x - lo) = l !! Z.to_nat x.
Proof.
  unfold slice. destruct (Z.leb_spec 0 lo), (Z.leb_spec lo hi), (Z.leb_spec hi (blen l)); try done. intros [= <-] Hx. cbn.
  rewrite lookup_take_lt by lia. rewrite lookup_drop. f_equal. lia.
Qed.

Lemma slice_app_l {A} (l r : list A) lo hi b : slice l lo hi = Some b → slice (l ++ r) lo hi = Some b.
Proof.
  unfold slice. rewrite blen_app. pose proof (blen_nonneg r).
  destruct (Z.leb_spec 0 lo), (Z.leb_spec lo hi), (Z.leb_spec hi (blen l)); try done. intros [= <-].
  rewrite (proj2 (Z.leb_le hi (blen l + blen r))) by lia. cbn. f_equal.
  rewrite drop_app_le by (unfold blen in *; lia). apply take_app_le. rewrite length_drop. unfold blen in *. lia.
Qed.

Lemma slice_is_Some {A} (l : list A) lo hi : 0 <= lo → lo <= hi → hi <= blen l → is_Some (slice l lo hi).
Proof. intros. unfold slice. rewrite !(proj2 (Z.leb_le _ _)) by done. by eexists. Qed.

Lemma slice_take {A} (l : list A) lo hi n b : slice l lo hi = Some b → hi <= n → slice (take (Z.to_nat n) l) lo hi = Some b.
Proof.
  intros Hs Hn. assert (0 <= lo ∧ lo <= hi ∧ hi <= blen l) as (H0 & H1 & H2).
  { unfold slice in Hs. destruct (Z.leb_spec 0 lo), (Z.leb_spec lo hi), (Z.leb_spec hi (blen l)); done. }
  destruct (slice_is_Some (take (Z.to_nat n) l) lo hi) as [c Hc]; [done|done|unfold blen in *; rewrite length_take; lia|].
  rewrite Hc. f_equal. rewrite <- (take_drop (Z.to_nat n) l) in Hs. apply (slice_app_l _ (drop (Z.to_nat n) l)) in Hc. congruence.
Qed.

Lemma resize_take len f : 0 <= len → len <= blen f → resize len f = take (Z.to_nat len) f.
Proof. intros. unfold resize. replace (Z.to_nat (len - blen f)) with 0%nat by lia. cbn. by rewrite app_nil_r. Qed.

Lemma blen_resize len f : 0 <= len → blen (resize len f) = len.
Proof. intros. unfold resize, blen. rewrite length_app, length_take, repeat_length. lia. Qed.

(** ** What the verified layer promises *)

Definition CHUNK : Z := 1024.

Section inv.
Context `{B : Bao}.

(** The content an id and a size name. *)
Definition authentic (id : ObjId) (size : Z) (d : bytes) : Prop := blake3 d = id ∧ blen d = size.

Class BaoLaws := {
  chunk_has : chunk_set → Z → Prop;
  cr_empty_has : ∀ c, chunk_has cr_empty c ↔ False;
  cr_of_has : ∀ r c, chunk_has (cr_of r) c ↔ in_range r c;
  cr_union_has : ∀ x y c, chunk_has (cr_union x y) c ↔ chunk_has x c ∨ chunk_has y c;
  superset_has : ∀ x y, is_superset x y = true ↔ ∀ c, chunk_has y c → chunk_has x c;
  (** A leaf is written only after it verified. *)
  decode_verified : ∀ enc id size cr ob pos buf, (pos, buf) ∈ (bao_decode enc id size cr ob).1.1 →
    0 <= pos ∧ pos + blen buf <= size ∧ ∀ d, authentic id size d → slice d pos (pos + blen buf) = Some buf;
  (** A decode that succeeds wrote every chunk asked for. *)
  decode_complete : ∀ enc id size cr ob, (bao_decode enc id size cr ob).2 = Ok () →
    ∀ c x, chunk_has cr c → 0 <= x → c * CHUNK <= x < (c + 1) * CHUNK → x < size →
    ∃ pos buf, (pos, buf) ∈ (bao_decode enc id size cr ob).1.1 ∧ pos <= x < pos + blen buf;
  (** A chunk that validates holds the content's bytes. *)
  valid_sound : ∀ data ob id size within v, bao_valid data ob id size within = Ok v →
    ∀ c, chunk_has v c → ∀ d, authentic id size d → ∀ x, c * CHUNK <= x < (c + 1) * CHUNK → x < size →
    data !! Z.to_nat x = d !! Z.to_nat x;
  (** What a validated encode sends is the encoding of the content. *)
  encode_sound : ∀ data ob id size cr out, bao_encode data ob id size cr = Ok out →
    ∀ d, authentic id size d → bao_encode d (bao_outboard d) id size cr = Ok out
}.

(** ** The disk's invariant *)

Definition live (n : Z) : btree ObjId ObjRecord → Z := bt_sum (λ r, if in_slab n r then size r else 0).

Definition slab_bytes (files : btree Z bytes) (n : Z) : bytes := default [] (bt_get files n).

Record slabs_ok (slabs : btree Z SlabMeta) (files : btree Z bytes) : Prop := {
  so_wf : bt_wf slabs;
  so_files_wf : bt_wf files;
  so_row : ∀ n m, bt_get slabs n = Some m → 0 <= n ∧ 0 <= slab_len m <= blen (slab_bytes files n);
  so_newest : ∀ n m n', bt_get slabs n = Some m → sealed m = false → is_Some (bt_get slabs n') → n' <= n;
  so_bound : ∀ n, is_Some (bt_get files n) → ∃ n', is_Some (bt_get slabs n') ∧ n <= n'
}.

Definition sparse_ok (sparse : btree ObjId (Z * bytes)) (id : ObjId) (r : ObjRecord) : Prop :=
  size r <= MAX_OBJECT_BYTES ∧ GroupBits.wf (bits r) ∧ groups_below (group_count (size r)) (bits r) ∧
  ∀ ino f, bt_get sparse id = Some (ino, f) → size r <= blen f ∧
    ∀ d, authentic id (size r) d → ∀ g, GroupBits.mem (bits r) g → agree f d (g * GROUP_BYTES) (Z.min ((g + 1) * GROUP_BYTES) (size r)).

Definition slab_ok (slabs : btree Z SlabMeta) (files : btree Z bytes) (id : ObjId) (size n off : Z) : Prop :=
  ∃ m b, bt_get slabs n = Some m ∧ 0 <= off ∧ off + size <= slab_len m ∧
    slice (slab_bytes files n) off (off + size) = Some b ∧ blake3 b = id.

Definition obj_ok (slabs : btree Z SlabMeta) (files : btree Z bytes) (sparse : btree ObjId (Z * bytes)) (id : ObjId) (r : ObjRecord) : Prop :=
  0 <= size r ∧
  match loc r with Slab n off => slab_ok slabs files id (size r) n off | Sparse => sparse_ok sparse id r | Extern => True end.

Record tables_ok (slabs : btree Z SlabMeta) (files : btree Z bytes) (objects : btree ObjId ObjRecord)
    (sparse obao : btree ObjId (Z * bytes)) (externs : btree ObjId Path) : Prop := {
  ok_slabs : slabs_ok slabs files;
  ok_objects : bt_wf objects;
  ok_sparse : bt_wf sparse;
  ok_obao : bt_wf obao;
  ok_externs : bt_wf externs;
  ok_obj : ∀ id r, bt_get objects id = Some r → obj_ok slabs files sparse id r;
  ok_account : ∀ n m, bt_get slabs n = Some m → dead m + live n objects <= slab_len m;
  ok_extern : ∀ id, is_Some (bt_get externs id) ↔ loc <$> bt_get objects id = Some Extern
}.

Definition dinv (d : Disk) : Prop :=
  tables_ok (slabs (index_db d)) (slab_files d) (objects (index_db d)) (sparse_files d) (obao_files d) (externs (index_db d)).

Definition counts_ok (m : btree ObjId Z) : Prop := bt_wf m ∧ ∀ id n, bt_get m id = Some n → 0 < n.

(** The open slab: the newest one, whose file ends where its row says. *)
Definition open_ok (slabs : btree Z SlabMeta) (files : btree Z bytes) (open : Z * Z) : Prop :=
  ∃ m, bt_get slabs open.1 = Some m ∧ sealed m = false ∧ slab_len m = open.2 ∧ blen (slab_bytes files open.1) = open.2.

Record minv (w : World) : Prop := {
  mi_open : open_ok (slabs (index_db (disk w))) (slab_files (disk w)) (open_slab (mem w));
  mi_writers : counts_ok (sparse_writers (mem w));
  mi_holds : counts_ok (evict_holds (mem w))
}.

Definition inv (w : World) : Prop := dinv (disk w) ∧ minv w.

(** ** Table transitions *)

Section tables.
Context (slabs0 : btree Z SlabMeta) (files : btree Z bytes) (objs : btree ObjId ObjRecord) (sparse obao : btree ObjId (Z * bytes)) (ext : btree ObjId Path).
Context (I : tables_ok slabs0 files objs sparse obao ext).

(** Rewriting a record in place. *)
Lemma tables_record id r r' : bt_get objs id = Some r → loc r' = loc r → size r' = size r →
  (loc r = Sparse → sparse_ok sparse id r') → tables_ok slabs0 files (bt_insert id r' objs) sparse obao ext.
Proof using I.
  intros Hr Hl Hs Hsp. destruct I as [I1 I2 I3 I4 I5 I6 I7 I8]. constructor; try done.
  - by apply bt_insert_wf.
  - intros id' r0. rewrite bt_get_insert. case_decide; [|apply I6]. subst id'. intros H. apply (inj Some) in H as <-.
    pose proof (I6 id r Hr) as [P1 P2]. split; [by rewrite Hs|]. rewrite Hl, Hs. destruct (loc r); auto.
  - intros n m Hm. pose proof (I7 n m Hm) as H7. revert H7. unfold live. rewrite bt_sum_insert, Hr by done. cbn. unfold in_slab. rewrite Hl, Hs. lia.
  - intros id'. rewrite I8, bt_get_insert. case_decide; [|done]. subst id'. rewrite Hr. cbn. by rewrite Hl.
Qed.

Lemma book_dead_get s n k : bt_get (book_dead s n slabs0) k =
  if decide (k = s) then (λ m, mkSlab (slab_len m) (dead m + n) (sealed m)) <$> bt_get slabs0 s else bt_get slabs0 k.
Proof.
  unfold book_dead. destruct (bt_get slabs0 s) eqn:E.
  - rewrite bt_get_insert. repeat case_decide; done || congruence.
  - case_decide; [by subst|done].
Qed.

Lemma book_dead_ok s n : slabs_ok (book_dead s n slabs0) files.
Proof using I.
  destruct (ok_slabs _ _ _ _ _ _ I) as [S1 S2 S3 S4 S5].
  assert (∀ k, is_Some (bt_get (book_dead s n slabs0) k) ↔ is_Some (bt_get slabs0 k)) as Hk.
  { intros k. rewrite book_dead_get. case_decide; [subst|done]. by rewrite fmap_is_Some. }
  constructor; [| done | | | ].
  - unfold book_dead. destruct (bt_get slabs0 s); [by apply bt_insert_wf|done].
  - intros k m. rewrite book_dead_get. case_decide; [subst|apply S3]. intros (m0 & H0 & ->)%fmap_Some. cbn. by apply S3.
  - intros k m k'. rewrite book_dead_get, Hk. case_decide; [subst|by apply S4]. intros (m0 & H0 & ->)%fmap_Some. cbn. by apply S4.
  - intros k Hf. destruct (S5 k Hf) as (k' & Hk' & Hle). exists k'. by rewrite Hk.
Qed.

Lemma slab_ok_dead s n id sz k off : slab_ok slabs0 files id sz k off → slab_ok (book_dead s n slabs0) files id sz k off.
Proof.
  intros (m & b & Hm & H0 & Hl & Hs & Hb). unfold slab_ok. rewrite book_dead_get. case_decide; [subst; rewrite Hm|].
  - eexists _, b. split; [done|]. cbn. done.
  - by exists m, b.
Qed.

Definition books (r : ObjRecord) : btree Z SlabMeta := match loc r with Slab s _ => book_dead s (size r) slabs0 | _ => slabs0 end.

Lemma books_get r k : bt_get (books r) k = (λ m, mkSlab (slab_len m) (dead m + if in_slab k r then size r else 0) (sealed m)) <$> bt_get slabs0 k.
Proof.
  unfold books, in_slab. destruct (loc r) as [|s off|].
  - destruct (bt_get slabs0 k) as [[]|]; cbn; [by rewrite Z.add_0_r|done].
  - rewrite book_dead_get. case_decide as D; [subst; by rewrite Z.eqb_refl|]. rewrite (proj2 (Z.eqb_neq s k)) by congruence.
    destruct (bt_get slabs0 k) as [[]|]; cbn; [by rewrite Z.add_0_r|done].
  - destruct (bt_get slabs0 k) as [[]|]; cbn; [by rewrite Z.add_0_r|done].
Qed.

Lemma books_ok r : slabs_ok (books r) files.
Proof using I. unfold books. destruct (loc r); [apply I|apply book_dead_ok|apply I]. Qed.

Lemma obj_ok_books r id r0 : obj_ok slabs0 files sparse id r0 → obj_ok (books r) files sparse id r0.
Proof.
  intros [H1 H2]. split; [done|]. destruct (loc r0); try done. unfold books. destruct (loc r); [done|by apply slab_ok_dead|done].
Qed.

(** Dropping a record, its slab range booked as dead. *)
Lemma tables_delete id r : bt_get objs id = Some r →
  tables_ok (books r) files (bt_remove id objs) sparse obao (match loc r with Extern => bt_remove id ext | _ => ext end).
Proof using I.
  intros Hr. pose proof I as [I1 I2 I3 I4 I5 I6 I7 I8]. constructor; try done.
  - apply books_ok.
  - by apply bt_remove_wf.
  - destruct (loc r); [done|done|by apply bt_remove_wf].
  - intros id' r0. rewrite bt_get_remove by done. case_decide; [done|]. intros H0. by apply obj_ok_books, I6.
  - intros n m. rewrite books_get. intros (m0 & H0 & ->)%fmap_Some. cbn. pose proof (I7 n m0 H0) as H7. revert H7. unfold live. rewrite bt_sum_remove, Hr by done. cbn. lia.
  - intros id'. rewrite bt_get_remove by done. pose proof (I8 id') as E'. case_decide as D.
    + subst id'. rewrite Hr in E'. cbn in E'. destruct (loc r); [| |rewrite bt_get_remove, decide_True by done; split; [by intros [? ?]|done]];
        (split; [intros Hs; apply E' in Hs; done|done]).
    + destruct (loc r); [done|done|]. rewrite bt_get_remove, decide_False by done. done.
Qed.

(** The record of an object becomes extern. *)
Lemma tables_extern id r p rel : (∀ r0, bt_get objs id = Some r0 → p = Some r0) → (bt_get objs id = None → p = None) → loc r = Extern → 0 <= size r →
  tables_ok (match p with Some p => books p | None => slabs0 end) files (bt_insert id r objs) sparse obao (bt_insert id rel ext).
Proof using I.
  intros Hp1 Hp2 Hl Hs. pose proof I as [I1 I2 I3 I4 I5 I6 I7 I8].
  assert (p = bt_get objs id) as -> by (destruct (bt_get objs id); auto). constructor; try done.
  - destruct (bt_get objs id); [apply books_ok|done].
  - by apply bt_insert_wf.
  - by apply bt_insert_wf.
  - intros id' r0. rewrite bt_get_insert. case_decide.
    + intros H0. apply (inj Some) in H0 as <-. split; [done|]. by rewrite Hl.
    + intros H0. destruct (bt_get objs id); [apply obj_ok_books|]; by apply I6.
  - intros n m Hm. unfold live. rewrite bt_sum_insert by done. assert (in_slab n r = false) as Hf by (unfold in_slab; by rewrite Hl).
    cbn beta. rewrite Hf. destruct (bt_get objs id) as [r0|] eqn:E; cbn.
    + rewrite books_get in Hm. apply fmap_Some in Hm as (m0 & Hm0 & ->). cbn. pose proof (I7 n m0 Hm0) as H7. revert H7. unfold live. lia.
    + pose proof (I7 n m Hm) as H7. revert H7. unfold live. lia.
  - intros id'. rewrite !bt_get_insert. case_decide as D; [cbn; rewrite Hl; split; [done|by eexists]|apply I8].
Qed.
End tables.


(** Slab files change only beyond what their rows cover. *)
Lemma tables_files slabs0 files files' objs sparse obao ext :
  tables_ok slabs0 files objs sparse obao ext → bt_wf files' →
  (∀ n m, bt_get slabs0 n = Some m → slab_len m <= blen (slab_bytes files' n) ∧
    ∀ lo hi b, hi <= slab_len m → slice (slab_bytes files n) lo hi = Some b → slice (slab_bytes files' n) lo hi = Some b) →
  (∀ n, is_Some (bt_get files' n) → is_Some (bt_get files n) ∨ is_Some (bt_get slabs0 n)) →
  tables_ok slabs0 files' objs sparse obao ext.
Proof.
  intros [[S1 S2 S3 S4 S5] I2 I3 I4 I5 I6 I7 I8] Hwf Hrow Hb. constructor; try done.
  - constructor; try done.
    + intros n m Hm. destruct (S3 n m Hm) as [? [? ?]]. destruct (Hrow n m Hm). split_and!; done.
    + intros n [Hn|Hn]%Hb; [by apply S5|]. exists n. split; [done|lia].
  - intros id r Hr. destruct (I6 id r Hr) as [H1 H2]. split; [done|]. destruct (loc r); try done.
    destruct H2 as (m & b & Hm & H0 & Hl & Hs & Hid). exists m, b. split_and!; try done. eapply (Hrow _ _ Hm); [|exact Hs]. done.
Qed.

Lemma tables_append slabs0 files objs sparse obao ext n bs :
  tables_ok slabs0 files objs sparse obao ext → is_Some (bt_get slabs0 n) →
  tables_ok slabs0 (bt_insert n (slab_bytes files n ++ bs) files) objs sparse obao ext.
Proof.
  intros I Hn. eapply tables_files; [exact I|apply bt_insert_wf, I| |].
  - intros k m Hm. destruct (so_row _ _ (ok_slabs _ _ _ _ _ _ I) k m Hm) as [_ Hl]. unfold slab_bytes at 1 4. rewrite !bt_get_insert.
    case_decide; [subst k; cbn [from_option id]|split; [apply Hl|done]]. split; [rewrite blen_app; pose proof (blen_nonneg bs); lia|].
    intros lo hi b _. apply slice_app_l.
  - intros k. rewrite bt_get_insert. case_decide; [subst; by right|by left].
Qed.

Lemma tables_shrink slabs0 files objs sparse obao ext n m :
  tables_ok slabs0 files objs sparse obao ext → bt_get slabs0 n = Some m →
  tables_ok slabs0 (bt_insert n (resize (slab_len m) (slab_bytes files n)) files) objs sparse obao ext.
Proof.
  intros I Hn. destruct (so_row _ _ (ok_slabs _ _ _ _ _ _ I) n m Hn) as [_ Hl].
  eapply tables_files; [exact I|apply bt_insert_wf, I| |].
  - intros k m' Hm. destruct (so_row _ _ (ok_slabs _ _ _ _ _ _ I) k m' Hm) as [_ Hl']. unfold slab_bytes at 1 4. rewrite !bt_get_insert.
    case_decide; [subst k; cbn [from_option id]|split; [apply Hl'|done]]. assert (m' = m) as -> by congruence.
    split; [rewrite blen_resize; lia|]. intros lo hi b Hhi Hs. rewrite resize_take by lia. by eapply slice_take.
  - intros k. rewrite bt_get_insert. case_decide; [subst; right; by eexists|by left].
Qed.

(** Sparse files change so that every present group keeps its bytes. *)
Lemma tables_sparse slabs0 files objs sparse sparse' obao obao' ext :
  tables_ok slabs0 files objs sparse obao ext → bt_wf sparse' → bt_wf obao' →
  (∀ id r, bt_get objs id = Some r → loc r = Sparse → sparse_ok sparse id r → sparse_ok sparse' id r) →
  tables_ok slabs0 files objs sparse' obao' ext.
Proof.
  intros [I1 I2 I3 I4 I5 I6 I7 I8] Hwf Hwf' Hs. constructor; try done.
  intros id r Hr. destruct (I6 id r Hr) as [H1 H2]. split; [done|]. destruct (loc r) eqn:E; auto.
Qed.

Lemma sparse_ok_removed sparse id r k : bt_wf sparse → sparse_ok sparse id r → sparse_ok (bt_remove k sparse) id r.
Proof.
  intros Hwf (H1 & H2 & H3 & H4). split_and!; try done. intros ino f. rewrite bt_get_remove by done. case_decide; [done|]. apply H4.
Qed.

Section land.
Context (cfg : StoreConfig).
Context (slabs0 : btree Z SlabMeta) (files : btree Z bytes) (objs : btree ObjId ObjRecord) (sparse obao : btree ObjId (Z * bytes)) (ext : btree ObjId Path).
Context (I : tables_ok slabs0 files objs sparse obao ext).
Context (o : Z * Z) (m : SlabMeta) (Ho : bt_get slabs0 o.1 = Some m) (Hm : sealed m = false) (Hlen : slab_len m = o.2).
Context (bs : bytes) (Hbs : slice (slab_bytes files o.1) o.2 (o.2 + blen bs) = Some bs).

Lemma newest_bound n : is_Some (bt_get slabs0 n) → n <= o.1.
Proof using I Ho Hm. intros Hn. by eapply (so_newest _ _ (ok_slabs _ _ _ _ _ _ I)). Qed.

Lemma slab_end : o.2 + blen bs <= blen (slab_bytes files o.1).
Proof using Hbs.
  unfold slice in Hbs. destruct (Z.leb_spec 0 o.2), (Z.leb_spec o.2 (o.2 + blen bs)), (Z.leb_spec (o.2 + blen bs) (blen (slab_bytes files o.1))); done.
Qed.

Abbreviation adv := (advance cfg o.1 (o.2 + blen bs) (λ d, d) slabs0).

Lemma advance_get n : bt_get adv.1 n =
  if decide (n = o.1) then Some (mkSlab (o.2 + blen bs) (dead m) (slab_seal_bytes cfg <=? o.2 + blen bs))
  else if decide (n = o.1 + 1) then (if slab_seal_bytes cfg <=? o.2 + blen bs then Some fresh_slab else None)
  else bt_get slabs0 n.
Proof using I Ho Hm.
  unfold advance. rewrite Ho. cbn [from_option id]. assert (bt_get slabs0 (o.1 + 1) = None) as Hnone.
  { destruct (bt_get slabs0 (o.1 + 1)) eqn:E; [|done]. assert (o.1 + 1 <= o.1) by (apply newest_bound; by eexists). lia. }
  destruct (slab_seal_bytes cfg <=? o.2 + blen bs); cbn [fst]; rewrite !bt_get_insert, ?Hm;
    repeat case_decide; try done; try lia. by subst.
Qed.

Lemma advance_old n m' : bt_get slabs0 n = Some m' → ∃ m'', bt_get adv.1 n = Some m'' ∧ slab_len m' <= slab_len m'' ∧ dead m'' = dead m' ∧
  slab_len m'' = slab_len m' + (if decide (n = o.1) then blen bs else 0).
Proof using I Ho Hm Hlen.
  intros Hn. rewrite advance_get. case_decide as D.
  - subst n. assert (m' = m) as -> by congruence. eexists. split; [done|]. cbn. pose proof (blen_nonneg bs). lia.
  - case_decide as D'.
    + subst n. assert (o.1 + 1 <= o.1) by (apply newest_bound; by eexists). lia.
    + exists m'. split; [done|]. lia.
Qed.

Lemma advance_slabs : slabs_ok adv.1 files.
Proof using I Ho Hm Hlen Hbs.
  pose proof (ok_slabs _ _ _ _ _ _ I) as [S1 S2 S3 S4 S5]. pose proof slab_end as Hend. pose proof (blen_nonneg bs) as H0.
  destruct (S3 _ _ Ho) as [Ho0 Hl]. constructor; [|done| | |].
  - unfold advance. destruct (_ <=? _); cbn [fst]; auto using bt_insert_wf.
  - intros n m'. rewrite advance_get. repeat case_decide; subst.
    + intros [= <-]. cbn. split; [done|lia].
    + destruct (_ <=? _); [|done]. intros [= <-]. cbn. split; [lia|]. pose proof (blen_nonneg (slab_bytes files (o.1 + 1))). lia.
    + apply S3.
  - assert (∀ n', is_Some (bt_get adv.1 n') → n' <= if slab_seal_bytes cfg <=? o.2 + blen bs then o.1 + 1 else o.1) as Hmax.
    { intros n'. rewrite advance_get. repeat case_decide; subst.
      - intros _. destruct (_ <=? _); lia.
      - destruct (_ <=? _); [lia|by intros [? ?]].
      - intros Hn'%newest_bound. destruct (_ <=? _); lia. }
    intros n m' n' Hn Hs Hn'. apply Hmax in Hn'. rewrite advance_get in Hn. repeat case_decide; subst.
    + apply (inj Some) in Hn as <-. cbn in Hs. by rewrite Hs in Hn'.
    + destruct (_ <=? _); [lia|done].
    + assert (is_Some (bt_get slabs0 n)) as Hi by by eexists. pose proof (newest_bound n Hi).
      assert (o.1 <= n) by (eapply S4; [done|done|by eexists]). lia.
  - intros n Hn. destruct (S5 n Hn) as (n' & [m' Hn'] & Hle). destruct (advance_old n' m' Hn') as (m'' & Hm'' & _). exists n'. split; [by eexists|done].
Qed.

Lemma advance_open : blen (slab_bytes files o.1) = o.2 + blen bs → open_ok adv.1 files adv.2.
Proof using I Ho Hm.
  intros He. assert (adv.2 = if slab_seal_bytes cfg <=? o.2 + blen bs then (o.1 + 1, 0) else (o.1, o.2 + blen bs)) as ->.
  { unfold advance. by destruct (_ <=? _). }
  unfold open_ok. destruct (slab_seal_bytes cfg <=? o.2 + blen bs) eqn:E; cbn [fst snd]; rewrite advance_get.
  - rewrite decide_False, decide_True, E by lia. exists fresh_slab. split_and!; [done..|].
    unfold slab_bytes. destruct (bt_get files (o.1 + 1)) eqn:Ef; [|done].
    destruct (so_bound _ _ (ok_slabs _ _ _ _ _ _ I) (o.1 + 1)) as (n' & Hn' & Hle); [by eexists|]. apply newest_bound in Hn'. lia.
  - rewrite decide_True, E by done. eexists. by split_and!.
Qed.

(** Landing an object at the end of the open slab: a new one, or one that
    leaves another slab. *)
Lemma tables_land id r : blake3 bs = id → loc r = Slab o.1 o.2 → size r = blen bs →
  (∀ r0, bt_get objs id = Some r0 → ∃ n off, loc r0 = Slab n off ∧ n ≠ o.1) →
  tables_ok adv.1 files (bt_insert id r objs) sparse obao ext.
Proof using I Ho Hm Hlen Hbs.
  intros Hid Hl Hs Hold. pose proof I as [I1 I2 I3 I4 I5 I6 I7 I8]. pose proof (blen_nonneg bs) as H0.
  destruct (so_row _ _ I1 _ _ Ho) as [Ho0 Hlm]. constructor; try done.
  - apply advance_slabs.
  - by apply bt_insert_wf.
  - intros id' r'. rewrite bt_get_insert. case_decide as D.
    + subst id'. intros H. apply (inj Some) in H as <-. split; [lia|]. rewrite Hl, Hs.
      destruct (advance_old _ _ Ho) as (m' & Hm' & _ & _ & Hl'). exists m', bs. rewrite decide_True in Hl' by done. split_and!; try done; lia.
    + intros Hr'. destruct (I6 id' r' Hr') as [P1 P2]. split; [done|]. destruct (loc r') as [|n off|]; try done.
      destruct P2 as (m' & b & Hm' & Q1 & Q2 & Q3 & Q4). destruct (advance_old _ _ Hm') as (m'' & Hm'' & Hle & _). exists m'', b. split_and!; try done. lia.
  - intros n m'. unfold live. rewrite bt_sum_insert by done. cbn beta. assert (in_slab n r = (o.1 =? n)) as -> by (unfold in_slab; by rewrite Hl).
    intros Hn. rewrite advance_get in Hn.
    assert (default 0 ((λ r0, if in_slab n r0 then size r0 else 0) <$> bt_get objs id) >= 0 ∧
      (n = o.1 → default 0 ((λ r0, if in_slab n r0 then size r0 else 0) <$> bt_get objs id) = 0)) as [Hd Hd'].
    { destruct (bt_get objs id) as [r0|] eqn:E; cbn; [|done]. destruct (I6 id r0 E) as [Hs0 _]. destruct (Hold r0 eq_refl) as (k & off & Hk & Hne).
      unfold in_slab. rewrite Hk. destruct (Z.eqb_spec k n); split; intros; subst; (done || lia). }
    cbn beta iota. rewrite Hs. repeat case_decide; subst.
    + apply (inj Some) in Hn as <-. cbn. pose proof (I7 _ _ Ho) as H7. revert H7. unfold live. rewrite Z.eqb_refl. rewrite Hd' by done. lia.
    + destruct (_ <=? _); [|done]. apply (inj Some) in Hn as <-. cbn. rewrite (proj2 (Z.eqb_neq o.1 (o.1 + 1))) by lia.
      assert (bt_sum (λ r0, if in_slab (o.1 + 1) r0 then size r0 else 0) objs <= 0); [|lia].
      assert (∀ e, e ∈ objs → in_slab (o.1 + 1) e.2 = false) as Hno.
      { intros [k r0] Hin. apply bt_get_elem in Hin; [|done]. destruct (I6 k r0 Hin) as [_ P2]. unfold in_slab. cbn.
        destruct (loc r0) as [|n off|]; try done. destruct P2 as (m' & b & Hm' & _).
        assert (n <= o.1) by (apply newest_bound; by eexists). apply Z.eqb_neq. lia. }
      clear -Hno. unfold bt_sum. induction objs as [|e l IH]; [done|]. cbn. rewrite Hno by left. assert (∀ e0, e0 ∈ l → in_slab (o.1 + 1) e0.2 = false) by (intros; apply Hno; by right). specialize (IH H). lia.
    + pose proof (I7 _ _ Hn) as H7. revert H7. unfold live. rewrite (proj2 (Z.eqb_neq o.1 n)) by congruence. lia.
  - intros id'. rewrite I8, bt_get_insert. case_decide as D; [|done]. subst id'. cbn. rewrite Hl. destruct (bt_get objs id) as [r0|] eqn:E; [|done].
    destruct (Hold r0 eq_refl) as (k & off & Hk & _). cbn. by rewrite Hk.
Qed.
End land.

#[global] Instance Ok_inj {E A} : Inj (=) (=) (@Ok E A).
Proof. by intros a b [= ->]. Qed.

(** ** Computations

    [wp m Φ C w]: from [w], [m] ends with [Φ], or loses power on a disk
    that satisfies [C]. *)

Definition wp {A} (m : M A) (Φ : result IoError A → World → Prop) (C : Disk → Prop) (w : World) : Prop :=
  match m w with (Done a, w') => Φ (Ok a) w' | (Fail e, w') => Φ (Err e) w' | (Crash, w') => C (disk w') end.

Definition on_ok {A} (Φ : A → World → Prop) (E : IoError → World → Prop) : result IoError A → World → Prop :=
  λ r, match r with Ok a => Φ a | Err e => E e end.

Lemma wp_bind {A T} (m : M A) (k : A → M T) Φ C w :
  wp m (on_ok (λ a, wp (k a) Φ C) (λ e, Φ (Err e))) C w → wp (m ≫= k) Φ C w.
Proof. unfold wp, mbind, M_bind. destruct (m w) as [[a|e|] w']; done. Qed.

Lemma wp_mono {A} (m : M A) (Φ Ψ : result IoError A → World → Prop) (C D : Disk → Prop) w :
  (∀ r w', Φ r w' → Ψ r w') → (∀ d, C d → D d) → wp m Φ C w → wp m Ψ D w.
Proof. intros H1 H2. unfold wp. destruct (m w) as [[a|e|] w']; auto. Qed.

Lemma wp_catch {A} (m : M A) Φ C w : wp m (λ r, Φ (Ok r)) C w → wp (catch m) Φ C w.
Proof. unfold wp, catch. by destruct (m w) as [[a|e|] w']. Qed.

(** Everything but the disk and the power. *)
Lemma wp_effect f (Φ : result IoError unit → World → Prop) C w : C (disk w) →
  (∀ p, Φ (Ok tt) (mkWorld (f (disk w)) (mem w) p (faults w))) → wp (effect f) Φ C w.
Proof. intros H1 H2. unfold wp, effect. by destruct (power w) as [[|n]|]. Qed.

Definition with_index (ix : Index) (d : Disk) : Disk := mkDisk ix (slab_files d) (sparse_files d) (obao_files d) (tree d) (next_inode d).

Lemma wp_txn {A} (f : Index → result IoError (A * Index)) (Φ : result IoError A → World → Prop) C w : C (disk w) →
  match f (index_db (disk w)) with
  | Err e => Φ (Err e) w
  | Ok (a, ix) => ∀ p, Φ (Ok a) (mkWorld (with_index ix (disk w)) (mem w) p (faults w))
  end → wp (txn f) Φ C w.
Proof. intros H1 H2. unfold wp, txn. destruct (f _) as [[a ix]|e]; [|done]. by destruct (power w) as [[|n]|]. Qed.

(** A slab file after an append that stopped anywhere. *)
Lemma wp_append n bs (Φ : result IoError unit → World → Prop) (C : Disk → Prop) w :
  (∀ k, C (set_slab_file n (λ f, f ++ take k bs) (disk w))) →
  (∀ k p fs e, Φ (Err e) (mkWorld (set_slab_file n (λ f, f ++ take k bs) (disk w)) (mem w) p fs)) →
  (∀ p fs, Φ (Ok tt) (mkWorld (set_slab_file n (λ f, f ++ bs) (disk w)) (mem w) p fs)) →
  wp (append_slab n bs) Φ C w.
Proof.
  intros H1 H2 H3. unfold wp, append_slab. destruct (power w) as [[|p]|]; [apply H1| |]; (destruct (faults w) as [|k fs]; [apply H3|]; destruct (k <? blen bs); [apply H2|apply H3]).
Qed.

(** ** Frames

    What an operation leaves alone: the guards, and the objects a writer is
    registered for (all but those of [X]): their record stays, with its size,
    and stays on the file it was on. *)

Definition protected (id : ObjId) (d d' : Disk) : Prop :=
  ∀ r, bt_get (objects (index_db d)) id = Some r → ∃ r', bt_get (objects (index_db d')) id = Some r' ∧ size r' = size r ∧
    (loc r' = Sparse → loc r = Sparse ∧ ∀ e', bt_get (sparse_files d') id = Some e' →
      ∃ e, bt_get (sparse_files d) id = Some e ∧ e.1 = e'.1).

Record frame (X : ObjId → Prop) (w w' : World) : Prop := {
  fr_writers : sparse_writers (mem w') = sparse_writers (mem w);
  fr_holds : evict_holds (mem w') = evict_holds (mem w);
  fr_open : (open_slab (mem w)).1 <= (open_slab (mem w')).1;
  fr_protect : ∀ id, ¬ X id → bt_contains (sparse_writers (mem w)) id = true → protected id (disk w) (disk w')
}.

Lemma protected_refl id d : protected id d d.
Proof. intros r Hr. exists r. split_and!; try done. intros Hl. split; [done|]. intros e He. by exists e. Qed.

Lemma protected_trans id d1 d2 d3 : protected id d1 d2 → protected id d2 d3 → protected id d1 d3.
Proof.
  intros H1 H2 r Hr. destruct (H1 r Hr) as (r' & Hr' & Hs & Hl). destruct (H2 r' Hr') as (r'' & Hr'' & Hs' & Hl').
  exists r''. split_and!; [done|congruence|]. intros Hsp. apply Hl' in Hsp as [Hsp He]. apply Hl in Hsp as [Hsp He'].
  split; [done|]. intros e'' Hf. destruct (He _ Hf) as (e' & Hf' & Hi). destruct (He' _ Hf') as (e & Hf'' & Hi'). exists e. split; [done|congruence].
Qed.

Lemma protected_same id d d' : bt_get (objects (index_db d')) id = bt_get (objects (index_db d)) id →
  bt_get (sparse_files d') id = bt_get (sparse_files d) id → protected id d d'.
Proof. intros H1 H2 r Hr. exists r. rewrite H1, H2. split_and!; try done. intros Hl. split; [done|]. intros e He. by exists e. Qed.

Lemma frame_refl X w : frame X w w.
Proof. constructor; [done|done|lia|]. intros. apply protected_refl. Qed.

Lemma frame_trans X w1 w2 w3 : frame X w1 w2 → frame X w2 w3 → frame X w1 w3.
Proof.
  intros [F1 F2 F3 F4] [G1 G2 G3 G4]. constructor; [congruence|congruence|lia|]. intros id Hx Hw. eapply protected_trans; [by apply F4|].
  apply G4; [done|]. by rewrite F1.
Qed.

Lemma frame_weaken (X Y : ObjId → Prop) w w' : (∀ id, X id → Y id) → frame X w w' → frame Y w w'.
Proof. intros Hxy [F1 F2 F3 F4]. constructor; try done. intros id Hy. apply F4. intros Hx. by apply Hy, Hxy. Qed.

(** No exceptions. *)
Abbreviation nobody := (λ _ : ObjId, False).

#[global] Instance frame_preorder X : PreOrder (frame X).
Proof. split; [intros w; apply frame_refl|intros w1 w2 w3; apply frame_trans]. Qed.

(** ** Safe computations

    [safe R m]: [m] keeps the invariant, relates its start to its end by [R],
    and leaves the disk's invariant when the power goes. *)

Definition good {A} (R : relation World) (w : World) : result IoError A → World → Prop := λ _ w', inv w' ∧ R w w'.

Definition safe_if {A} (P : World → Prop) (R : relation World) (m : M A) : Prop := ∀ w, inv w → P w → wp m (good R w) dinv w.
Definition safe {A} (R : relation World) (m : M A) : Prop := ∀ w, inv w → wp m (good R w) dinv w.

Section safe.
Context (R : relation World) `{!PreOrder R}.

Lemma safe_bind {A T} (m : M A) (k : A → M T) : safe R m → (∀ a, safe R (k a)) → safe R (m ≫= k).
Proof using Type*.
  intros Hm Hk w Hw. apply wp_bind. eapply wp_mono; [|done|by apply Hm]. intros [a|e] w1 [H1 F1]; cbn; [|by split].
  eapply wp_mono; [|done|by apply Hk]. intros r w2 [H2 F2]. split; [done|by etransitivity].
Qed.

(** Continue from a computation whose outcome is known better. *)
Lemma wp_then {A T} (m : M A) (k : A → M T) w w0 (Φ : A → World → Prop) : R w0 w →
  wp m (on_ok (λ a w', inv w' ∧ R w w' ∧ Φ a w') (λ _ w', inv w' ∧ R w w')) dinv w →
  (∀ a w', inv w' → R w0 w' → Φ a w' → wp (k a) (good R w') dinv w') → wp (m ≫= k) (good R w0) dinv w.
Proof using Type*.
  intros F0 Hm Hk. apply wp_bind. eapply wp_mono; [|done|exact Hm]. intros [a|e] w1; cbn.
  - intros (H1 & F1 & HP). eapply wp_mono; [|done|apply Hk; [done|by etransitivity|done]]. intros r w2 [H2 F2]. split; [done|].
    etransitivity; [|exact F2]. by etransitivity.
  - intros [H1 F1]. split; [done|by etransitivity].
Qed.

Lemma safe_if_bind {A T} (P : World → Prop) (m : M A) (k : A → M T) (Q : A → World → Prop) :
  (∀ w, inv w → P w → wp m (on_ok (λ a w', inv w' ∧ R w w' ∧ Q a w') (λ _ w', inv w' ∧ R w w')) dinv w) →
  (∀ a, safe_if (Q a) R (k a)) → safe_if P R (m ≫= k).
Proof using Type*.
  intros Hm Hk w Hw HP. eapply wp_then; [reflexivity|by apply Hm|]. intros a w' Hw' F HQ. by apply Hk.
Qed.

(** Reading the world changes nothing and tells what it holds. *)
Lemma safe_if_gets {A T} (P : World → Prop) (f : World → A) (k : A → M T) :
  (∀ a, safe_if (λ w, P w ∧ f w = a) R (k a)) → safe_if P R (gets f ≫= k).
Proof using Type*. intros Hk w Hw HP. exact (Hk (f w) w Hw (conj HP eq_refl)). Qed.

Lemma safe_if_lift {A T} (P : World → Prop) (r : result IoError A) (k : A → M T) :
  (∀ a, r = Ok a → safe_if P R (k a)) → safe_if P R (lift r ≫= k).
Proof using Type*. intros Hk w Hw HP. destruct r as [a|e]; [exact (Hk a eq_refl w Hw HP)|]. by split. Qed.

Lemma safe_if_some_or {A T} (P : World → Prop) e (o : option A) (k : A → M T) :
  (∀ a, o = Some a → safe_if P R (k a)) → safe_if P R (some_or e o ≫= k).
Proof using Type*. intros Hk w Hw HP. destruct o as [a|]; [exact (Hk a eq_refl w Hw HP)|]. by split. Qed.

Lemma safe_if_safe {A} P (m : M A) : safe R m → safe_if P R m.
Proof using Type*. intros Hm w Hw _. by apply Hm. Qed.

Lemma safe_if_true {A} (m : M A) : safe_if (λ _, True) R m → safe R m.
Proof using Type*. intros Hm w Hw. by apply Hm. Qed.

Lemma safe_if_weaken {A} (P Q : World → Prop) (m : M A) : (∀ w, inv w → P w → Q w) → safe_if Q R m → safe_if P R m.
Proof using Type*. intros HPQ Hm w Hw HP. apply Hm; auto. Qed.

Lemma safe_ret {A} (a : A) : safe R (mret a).
Proof using Type*. intros w Hw. by split. Qed.

Lemma safe_raise {A} e : safe R (raise e : M A).
Proof using Type*. intros w Hw. by split. Qed.

Lemma safe_gets {A} (f : World → A) : safe R (gets f).
Proof using Type*. intros w Hw. by split. Qed.

Lemma safe_lift {A} (r : result IoError A) : safe R (lift r).
Proof using Type*. destruct r; [apply safe_ret|apply safe_raise]. Qed.

Lemma safe_some_or {A} e (o : option A) : safe R (some_or e o).
Proof using Type*. destruct o; [apply safe_ret|apply safe_raise]. Qed.

Lemma safe_when b m : safe R m → safe R (when b m).
Proof using Type*. intros Hm. destruct b; [done|apply safe_ret]. Qed.

Lemma safe_catch {A} (m : M A) : safe R m → safe R (catch m).
Proof using Type*. intros Hm w Hw. apply wp_catch. eapply wp_mono; [|done|by apply Hm]. done. Qed.

Lemma safe_if_catch {A} P (m : M A) : safe_if P R m → safe_if P R (catch m).
Proof using Type*. intros Hm w Hw HP. apply wp_catch. eapply wp_mono; [|done|by apply Hm]. done. Qed.

Lemma safe_for_each {A} (l : list A) f : (∀ a, a ∈ l → safe R (f a)) → safe R (for_each l f).
Proof using Type*.
  induction l as [|a l IH]; intros Hf; [apply safe_ret|]. cbn. apply safe_bind; [apply Hf; left|]. intros _. apply IH. intros b Hb. apply Hf. by right.
Qed.
End safe.

Lemma safe_mono {A} (R S : relation World) (m : M A) : (∀ w w', R w w' → S w w') → safe R m → safe S m.
Proof. intros Hrs Hm w Hw. eapply wp_mono; [|done|by apply Hm]. intros r w' [H1 H2]. split; [done|by apply Hrs]. Qed.

Lemma safe_frame {A} X (m : M A) : safe (frame nobody) m → safe (frame X) m.
Proof. apply safe_mono. intros w w'. by apply frame_weaken. Qed.

(** One change of the disk. *)
Lemma inv_disk w d' p fs : inv w → dinv d' → open_ok (slabs (index_db d')) (slab_files d') (open_slab (mem w)) → inv (mkWorld d' (mem w) p fs).
Proof. intros [_ [M1 M2 M3]] Hd Ho. by split; [|constructor]. Qed.

Lemma frame_disk X w d' p fs : (∀ id, ¬ X id → bt_contains (sparse_writers (mem w)) id = true → protected id (disk w) d') → frame X w (mkWorld d' (mem w) p fs).
Proof. intros H. constructor; [done|done|apply Z.le_refl|done]. Qed.

Definition disk_step (X : ObjId → Prop) (w : World) (d' : Disk) : Prop :=
  dinv d' ∧ open_ok (slabs (index_db d')) (slab_files d') (open_slab (mem w)) ∧
  ∀ id, ¬ X id → bt_contains (sparse_writers (mem w)) id = true → protected id (disk w) d'.

Lemma disk_step_good {A} X w d' p fs (r : result IoError A) : inv w → disk_step X w d' → good (frame X) w r (mkWorld d' (mem w) p fs).
Proof. intros Hw (H1 & H2 & H3). split; [by apply inv_disk|by apply frame_disk]. Qed.

Lemma safe_effect X P f : (∀ w, inv w → P w → disk_step X w (f (disk w))) → safe_if P (frame X) (effect f).
Proof. intros Hf w Hw HP. apply wp_effect; [apply Hw|]. intros p. apply disk_step_good; auto. Qed.

Lemma safe_txn {A} X P (f : Index → result IoError (A * Index)) :
  (∀ w a ix, inv w → P w → f (index_db (disk w)) = Ok (a, ix) → disk_step X w (with_index ix (disk w))) → safe_if P (frame X) (txn f).
Proof.
  intros Hf w Hw HP. apply wp_txn; [apply Hw|]. specialize (Hf w). destruct (f _) as [[a ix]|e]; [|by split; [|apply frame_refl]].
  intros p. apply disk_step_good; eauto.
Qed.

(** Reading rules. *)
Section reading.
Context {T : Type} (Φ : result IoError T → World → Prop) (C : Disk → Prop) (w : World).

Lemma wp_ret (a : T) : Φ (Ok a) w → wp (mret a) Φ C w.
Proof. done. Qed.
Lemma wp_raise e : Φ (Err e) w → wp (raise e : M T) Φ C w.
Proof. done. Qed.
Lemma wp_ret_bind {A} (a : A) (k : A → M T) : wp (k a) Φ C w → wp (mret a ≫= k) Φ C w.
Proof. done. Qed.
Lemma wp_gets {A} (f : World → A) (k : A → M T) : wp (k (f w)) Φ C w → wp (gets f ≫= k) Φ C w.
Proof. done. Qed.
Lemma wp_get_mem {A} (f : Mem → A) (k : A → M T) : wp (k (f (mem w))) Φ C w → wp (get_mem f ≫= k) Φ C w.
Proof. done. Qed.
Lemma wp_get_index {A} (f : Index → A) (k : A → M T) : wp (k (f (index_db (disk w)))) Φ C w → wp (get_index f ≫= k) Φ C w.
Proof. done. Qed.
Lemma wp_get_record id (k : option ObjRecord → M T) : wp (k (bt_get (objects (index_db (disk w))) id)) Φ C w → wp (get_record id ≫= k) Φ C w.
Proof. done. Qed.

Definition option_wp {A} (e : IoError) (o : option A) (k : A → M T) : Prop :=
  match o with Some a => wp (k a) Φ C w | None => Φ (Err e) w end.

Lemma wp_some_or {A} e (o : option A) (k : A → M T) : option_wp e o k → wp (some_or e o ≫= k) Φ C w.
Proof. by destruct o. Qed.
Lemma wp_lift {A} (r : result IoError A) (k : A → M T) :
  match r with Ok a => wp (k a) Φ C w | Err e => Φ (Err e) w end → wp (lift r ≫= k) Φ C w.
Proof. by destruct r. Qed.
Lemma wp_required id (k : ObjRecord → M T) : option_wp NotFound (bt_get (objects (index_db (disk w))) id) k → wp (required id ≫= k) Φ C w.
Proof. unfold wp, required, mbind, M_bind, get_record, get_index, gets, option_wp. by destruct (bt_get _ _). Qed.
Lemma wp_read_tree path (k : bytes → M T) : option_wp NotFound (tree (disk w) path) k → wp (read_tree path ≫= k) Φ C w.
Proof. unfold wp, read_tree, mbind, M_bind, gets, option_wp. by destruct (tree _ _). Qed.
Lemma wp_read_sparse id (k : Z * bytes → M T) : option_wp NotFound (bt_get (sparse_files (disk w)) id) k → wp (read_sparse id ≫= k) Φ C w.
Proof. unfold wp, read_sparse, mbind, M_bind, gets, option_wp. by destruct (bt_get _ _). Qed.
Lemma wp_read_obao id (k : Z * bytes → M T) : option_wp NotFound (bt_get (obao_files (disk w)) id) k → wp (read_obao id ≫= k) Φ C w.
Proof. unfold wp, read_obao, mbind, M_bind, gets, option_wp. by destruct (bt_get _ _). Qed.
Lemma wp_assoc {A D} (m : M A) (k : A → M D) (h : D → M T) : wp (m ≫= λ a, k a ≫= h) Φ C w → wp ((m ≫= k) ≫= h) Φ C w.
Proof. unfold wp, mbind, M_bind. by destruct (m w) as [[a|e|] w']. Qed.
Lemma wp_catch_bind {A} (m : M A) (k : result IoError A → M T) :
  wp m (λ r, wp (k r) Φ C) C w → wp (catch m ≫= k) Φ C w.
Proof. unfold wp, mbind, M_bind, catch. by destruct (m w) as [[a|e|] w']. Qed.
End reading.

(** Continue a safe computation with another. *)
Lemma wp_safe_then {A T} (R : relation World) `{!PreOrder R} (m : M A) (k : A → M T) w0 w : R w0 w → wp m (good R w) dinv w →
  (∀ a w', inv w' → R w0 w' → wp (k a) (good R w0) dinv w') → wp (m ≫= k) (good R w0) dinv w.
Proof.
  intros H0 Hm Hk. apply wp_bind. eapply wp_mono; [|done|exact Hm]. intros [a|e] w' [H1 H2]; cbn.
  - apply Hk; [done|by etransitivity].
  - split; [done|by etransitivity].
Qed.

Lemma good_trans {A} (R : relation World) `{!PreOrder R} w0 w1 (r : result IoError A) w2 : R w0 w1 → good R w1 r w2 → good R w0 r w2.
Proof. intros H [H1 H2]. split; [done|by etransitivity]. Qed.

(** ** Slab appends *)

(** Objects keep their records, except that a slab object may move to another
    slab; files outside the slabs are as they were. *)
Definition relocated (w w' : World) : Prop :=
  let d := disk w in let d' := disk w' in
  (sparse_files d' = sparse_files d ∧ obao_files d' = obao_files d ∧ tree d' = tree d ∧
   externs (index_db d') = externs (index_db d)) ∧
  ∀ id, match bt_get (objects (index_db d)) id with
        | Some r => ∃ r', bt_get (objects (index_db d')) id = Some r' ∧
            (r' = r ∨ ∃ n off n' off', loc r = Slab n off ∧ r' = set_loc (Slab n' off') r)
        | None => bt_get (objects (index_db d')) id = None
        end.

Lemma relocated_refl w : relocated w w.
Proof. split; [done|]. intros id. destruct (bt_get _ id) as [r|]; [|done]. exists r. auto. Qed.

Lemma relocated_trans w1 w2 w3 : relocated w1 w2 → relocated w2 w3 → relocated w1 w3.
Proof.
  intros [(A1 & A2 & A3 & A4) HA] [(B1 & B2 & B3 & B4) HB]. split; [by split_and!; etransitivity|]. intros id. specialize (HA id). specialize (HB id).
  destruct (bt_get (objects (index_db (disk w1))) id) as [r|].
  - destruct HA as (r2 & Hr2 & E2). rewrite Hr2 in HB. destruct HB as (r3 & Hr3 & E3). exists r3. split; [done|].
    destruct E2 as [->|(n & off & n' & off' & Hl & ->)]; [done|]. right. destruct E3 as [->|(m & o & m' & o' & Hl' & ->)].
    + by exists n, off, n', off'.
    + by exists n, off, m', o'.
  - by rewrite HA in HB.
Qed.

(** Frame and relocation together. *)
Definition compacting (w w' : World) : Prop := frame nobody w w' ∧ relocated w w'.
#[global] Instance compacting_preorder : PreOrder compacting.
Proof.
  split; [intros w; split; [done|apply relocated_refl]|]. intros w1 w2 w3 [A1 A2] [B1 B2]. split; [by etransitivity|by eapply relocated_trans].
Qed.

Lemma relocated_same w w' : disk w' = disk w ∨ (∃ files', disk w' = mkDisk (index_db (disk w)) files' (sparse_files (disk w)) (obao_files (disk w)) (tree (disk w)) (next_inode (disk w))) → relocated w w'.
Proof.
  intros [E|[f E]]; unfold relocated; rewrite E; (split; [done|]); intros id; cbn; (destruct (bt_get _ id) as [r|]; [|done]); exists r; auto.
Qed.


Lemma slab_bytes_append n bs (files : btree Z bytes) : slab_bytes (bt_insert n (slab_bytes files n ++ bs) files) n = slab_bytes files n ++ bs.
Proof. unfold slab_bytes at 1. rewrite bt_get_insert. by rewrite decide_True. Qed.

Lemma open_append (slabs0 : btree Z SlabMeta) files o bs m : bt_get slabs0 o.1 = Some m → blen (slab_bytes files o.1) = o.2 →
  slice (slab_bytes (bt_insert o.1 (slab_bytes files o.1 ++ bs) files) o.1) o.2 (o.2 + blen bs) = Some bs.
Proof.
  intros Hm Hl. rewrite slab_bytes_append. rewrite <- (app_nil_r bs) at 1. apply slice_app; [done|]. by rewrite Hl.
Qed.

Lemma dinv_append d n bs : dinv d → is_Some (bt_get (slabs (index_db d)) n) → dinv (set_slab_file n (λ f, f ++ bs) d).
Proof. intros Hd Hn. exact (tables_append _ _ _ _ _ _ n bs Hd Hn). Qed.

Lemma append_spec o bs w : inv w → o = open_slab (mem w) →
  wp (append_or_shrink o.1 o.2 bs)
    (on_ok (λ _ w', mem w' = mem w ∧ disk w' = set_slab_file o.1 (λ f, f ++ bs) (disk w)) (λ _ w', inv w' ∧ compacting w w')) dinv w.
Proof.
  intros [Hd Hm] ->. destruct (mi_open _ Hm) as (m & H1 & H2 & H3 & H4). unfold append_or_shrink. apply wp_bind, wp_catch, wp_append.
  - intros k. apply dinv_append; [done|by eexists].
  - intros k p fs e. cbn. apply wp_bind. apply wp_effect.
    { cbn. apply dinv_append; [done|by eexists]. }
    intros p'. cbn. set (n := (open_slab (mem w)).1). set (f0 := slab_bytes (slab_files (disk w)) n).
    assert (dinv (set_slab_file n (resize (open_slab (mem w)).2) (set_slab_file n (λ f, f ++ take k bs) (disk w)))) as Hd'.
    { pose proof (dinv_append (disk w) n (take k bs) Hd (mk_is_Some _ _ H1)) as Ha. rewrite <- H3.
      exact (tables_shrink _ _ _ _ _ _ n m Ha H1). }
    destruct (disk_step_good (A := unit) nobody w (set_slab_file n (resize (open_slab (mem w)).2) (set_slab_file n (λ f, f ++ take k bs) (disk w))) p' fs (Err e)) as [G1 G2]; [by split| |].
    2:{ split; [exact G1|split; [exact G2|]]. apply relocated_same. right. by eexists. }
    split_and!; [done| |].
    + exists m. split_and!; [exact H1|done|done|]. cbn. unfold slab_bytes. rewrite bt_get_insert, decide_True by done. cbn [from_option id].
      apply blen_resize. destruct (so_row _ _ (ok_slabs _ _ _ _ _ _ Hd) _ _ H1). lia.
    + intros id _ _. by apply protected_same.
  - intros p fs. done.
Qed.

(** The world after an object landed at the end of the open slab. *)
Definition landed cfg (id : ObjId) (r : ObjRecord) (bs : bytes) (w w' : World) : Prop :=
  let o := open_slab (mem w) in let d := disk w in let ix := index_db d in
  let adv := advance cfg o.1 (o.2 + blen bs) (λ d, d) (slabs ix) in
  disk w' = mkDisk (mkIndex (schema ix) (bt_insert id r (objects ix)) adv.1 (externs ix))
              (bt_insert o.1 (slab_bytes (slab_files d) o.1 ++ bs) (slab_files d)) (sparse_files d) (obao_files d) (tree d) (next_inode d) ∧
  mem w' = mkMem adv.2 (sparse_writers (mem w)) (evict_holds (mem w)).

Lemma land_spec cfg w id r bs f : inv w → let o := open_slab (mem w) in let ix := index_db (disk w) in
  blake3 bs = id → loc r = Slab o.1 o.2 → size r = blen bs →
  (∀ r0, bt_get (objects ix) id = Some r0 → size r0 = size r ∧ ∃ n off, loc r0 = Slab n off ∧ n ≠ o.1) →
  f ix = Ok ((advance cfg o.1 (o.2 + blen bs) (λ d, d) (slabs ix)).2,
             mkIndex (schema ix) (bt_insert id r (objects ix)) (advance cfg o.1 (o.2 + blen bs) (λ d, d) (slabs ix)).1 (externs ix)) →
  wp (append_or_shrink o.1 o.2 bs ;; opened ← txn f; set_open opened)
    (on_ok (λ _ w', inv w' ∧ frame nobody w w' ∧ landed cfg id r bs w w') (λ _ w', inv w' ∧ compacting w w')) dinv w.
Proof.
  intros Hw o ix Hid Hl Hs Hold Hf. apply wp_bind. eapply wp_mono; [|done|by apply append_spec]. intros [[]|e] w1; cbn [on_ok]; [|done].
  intros [Em Ed]. destruct Hw as [Hd Hm]. destruct (mi_open _ Hm) as (m & H1 & H2 & H3 & H4). fold o in H1, H3, H4.
  pose proof (dinv_append (disk w) o.1 bs Hd (mk_is_Some _ _ H1)) as Ha.
  assert (index_db (disk w1) = ix) as Eix by (by rewrite Ed).
  apply wp_bind. apply wp_txn; [by rewrite Ed|]. rewrite Eix, Hf. intros p. cbn.
  set (files' := bt_insert o.1 (slab_bytes (slab_files (disk w)) o.1 ++ bs) (slab_files (disk w))).
  pose proof (open_append _ _ o bs m H1 H4) as Hslice.
  assert (blen (slab_bytes files' o.1) = o.2 + blen bs) as Hbl by (unfold files'; rewrite slab_bytes_append, blen_app, H4; done).
  pose proof (tables_land cfg _ files' _ _ _ _ Ha o m H1 H2 H3 bs Hslice id r Hid Hl Hs (λ r0 H0, proj2 (Hold r0 H0))) as Ht.
  pose proof (advance_open cfg _ files' _ _ _ _ Ha o m H1 H2 bs Hbl) as Ho.
  rewrite Em, Ed. cbn. split_and!.
  - split; [exact Ht|]. destruct Hm. by constructor.
  - constructor; [done|done| |].
    + cbn. fold o. unfold advance. destruct (_ <=? _); cbn; lia.
    + intros id' _ _ r0 Hr0. cbn. fold ix in Hr0. destruct (decide (id' = id)) as [->|Hne].
      * destruct (Hold r0 Hr0) as [Hsz _]. exists r. rewrite bt_get_insert, decide_True by done. split_and!; [done|done|]. by rewrite Hl.
      * exists r0. rewrite bt_get_insert, decide_False by done. split_and!; [done|done|]. intros Hl0. split; [done|]. intros e0 He0. by exists e0.
  - done.
Qed.

(** ** Record updates *)

(** An update that only touches bookkeeping. *)
Definition bookkeeping (f : ObjRecord → ObjRecord) : Prop := ∀ r, loc (f r) = loc r ∧ size (f r) = size r ∧ present (f r) = present r.

Lemma disk_step_record w id r r' : inv w → bt_get (objects (index_db (disk w))) id = Some r → loc r' = loc r → size r' = size r →
  (loc r = Sparse → sparse_ok (sparse_files (disk w)) id r') →
  disk_step nobody w (with_index (with_objects (bt_insert id r') (index_db (disk w))) (disk w)).
Proof.
  intros [Hd Hm] Hr Hl Hs Hsp. split_and!.
  - by eapply tables_record.
  - apply Hm.
  - intros id' _ _ r0 Hr0. cbn. rewrite bt_get_insert. case_decide as D.
    + subst id'. assert (r0 = r) as -> by congruence. exists r'. split_and!; [done|done|]. rewrite Hl. intros Hsl. split; [done|]. intros e He. by exists e.
    + exists r0. split_and!; [done|done|]. intros Hsl. split; [done|]. intros e He. by exists e.
Qed.

Lemma sparse_ok_present sparse id r r' : present r' = present r → size r' = size r → loc r' = loc r → sparse_ok sparse id r → sparse_ok sparse id r'.
Proof.
  intros Hp Hs Hl. unfold sparse_ok. assert (bits r' = bits r) as -> by (unfold bits; by rewrite Hl, Hs, Hp). by rewrite Hs.
Qed.

Lemma sparse_ok_of w id r : inv w → bt_get (objects (index_db (disk w))) id = Some r → loc r = Sparse → sparse_ok (sparse_files (disk w)) id r.
Proof. intros [Hd _] Hr Hl. destruct (ok_obj _ _ _ _ _ _ Hd id r Hr) as [_ H]. by rewrite Hl in H. Qed.

Lemma update_spec id f w : inv w → (∀ r, bt_get (objects (index_db (disk w))) id = Some r →
    loc (f r) = loc r ∧ size (f r) = size r ∧ (loc r = Sparse → sparse_ok (sparse_files (disk w)) id (f r))) →
  wp (update_record id f) (on_ok (λ r' w', inv w' ∧ frame nobody w w' ∧
      ∃ r, bt_get (objects (index_db (disk w))) id = Some r ∧ r' = f r ∧ mem w' = mem w ∧
        disk w' = with_index (with_objects (bt_insert id r') (index_db (disk w))) (disk w))
    (λ e w', inv w' ∧ frame nobody w w' ∧ w' = w ∧ e = NotFound ∧ bt_get (objects (index_db (disk w))) id = None)) dinv w.
Proof.
  intros Hw Hf. unfold update_record. apply wp_txn; [apply Hw|]. destruct (bt_get _ id) as [r|] eqn:E.
  - intros p. destruct (Hf r eq_refl) as (H1 & H2 & H3).
    destruct (disk_step_good (A := ObjRecord) nobody w _ p (faults w) (Ok (f r)) Hw (disk_step_record w id r (f r) Hw E H1 H2 H3)) as [G1 G2].
    cbn. split_and!; [exact G1|exact G2|]. exists r. by split_and!.
  - by split_and!.
Qed.

Lemma safe_update id f : bookkeeping f → safe (frame nobody) (update_record id f).
Proof.
  intros Hb w Hw. eapply wp_mono; [|done|apply update_spec; [done|]].
  - intros [r|e] w'; cbn; [by intros (H1 & H2 & _)|by intros (H1 & H2 & _)].
  - intros r Hr. destruct (Hb r) as (H1 & H2 & H3). split_and!; [done|done|]. intros Hl. eapply sparse_ok_present; [done|done|done|by apply sparse_ok_of].
Qed.

Lemma safe_touch id now : safe (frame nobody) (touch id now).
Proof.
  apply safe_bind; [apply _|by apply safe_catch, safe_update; [apply _|]|]. intros [r|[]]; (apply safe_ret || apply safe_raise); apply _.
Qed.

Lemma safe_touch_if_older id rec now : safe (frame nobody) (touch_if_older id rec now).
Proof. apply safe_when, safe_touch. apply _. Qed.

(** ** Compaction *)

(** Reading a slab object that the index lists. *)
Lemma read_slab_spec w id n off r : inv w → bt_get (objects (index_db (disk w))) id = Some r → loc r = Slab n off →
  wp (read_slab n off (size r)) (on_ok (λ b w', w' = w ∧ blake3 b = id ∧ blen b = size r) (λ _ w', w' = w)) dinv w.
Proof.
  intros [Hd _] Hr Hl. destruct (ok_obj _ _ _ _ _ _ Hd id r Hr) as [H0 H1]. rewrite Hl in H1.
  destruct H1 as (m & b & Hm & Q1 & Q2 & Q3 & Q4). unfold wp, read_slab, mbind, M_bind, gets, slab_bytes in *.
  destruct (bt_get (slab_files (disk w)) n) as [f|]; cbn [some_or mret M_ret raise]; [|done]. cbn in Q3. unfold read_exact_at. rewrite Q3. cbn.
  split_and!; [done|done|]. apply blen_slice in Q3. lia.
Qed.

(** What is still to move out of [victim]. *)
Record moving (victim : Z) (l : btree ObjId ObjRecord) (w : World) : Prop := {
  mv_open : victim < (open_slab (mem w)).1;
  mv_all : ∀ id r, bt_get (objects (index_db (disk w))) id = Some r → in_slab victim r = true → (id, r) ∈ l;
  mv_live : ∀ id r, (id, r) ∈ l → bt_get (objects (index_db (disk w))) id = Some r ∧ in_slab victim r = true;
  mv_nodup : NoDup (map fst l)
}.

Lemma in_slab_loc victim r : in_slab victim r = true → ∃ off, loc r = Slab victim off.
Proof. unfold in_slab. destruct (loc r) as [|n off|]; try done. intros ->%Z.eqb_eq. by exists off. Qed.

Section compact.
Context (cfg : StoreConfig).

Lemma move_spec victim id r off l w : inv w → loc r = Slab victim off → moving victim ((id, r) :: l) w →
  wp (move_object cfg victim id off (size r)) (on_ok (λ _ w', inv w' ∧ compacting w w' ∧ moving victim l w') (λ _ w', inv w' ∧ compacting w w')) dinv w.
Proof.
  intros Hw Hl [V1 V2 V3 V4]. destruct (V3 id r (list_elem_of_here _ _)) as [Hr _]. unfold move_object. apply wp_bind.
  eapply wp_mono; [|done|exact (read_slab_spec w id victim off r Hw Hr Hl)]. intros [bs|e] w1; cbn [on_ok]; [|by intros ->].
  intros (-> & Hid & Hbl). set (o := open_slab (mem w)).
  pose proof (land_spec cfg w id (set_loc (Slab o.1 o.2) r) bs (λ ix,
    let '(objs, moved) := relocate id (Slab victim off) (Slab o.1 o.2) (objects ix) in
    let '(slabs', opened) := advance cfg o.1 (o.2 + blen bs) (λ d, if moved : bool then d else sat_add64 d (blen bs)) (slabs ix) in
    Ok (opened, mkIndex (schema ix) objs slabs' (externs ix))) Hw Hid eq_refl (eq_sym Hbl)) as Hland.
  fold o in Hland. change (wp (append_or_shrink o.1 o.2 bs ;; opened ← txn (λ ix,
    let '(objs, moved) := relocate id (Slab victim off) (Slab o.1 o.2) (objects ix) in
    let '(slabs', opened) := advance cfg o.1 (o.2 + blen bs) (λ d, if moved : bool then d else sat_add64 d (blen bs)) (slabs ix) in
    Ok (opened, mkIndex (schema ix) objs slabs' (externs ix))); set_open opened)
    (on_ok (λ _ w', inv w' ∧ compacting w w' ∧ moving victim l w') (λ _ w', inv w' ∧ compacting w w')) dinv w).
  eapply wp_mono; [|done|apply Hland].
  - intros [[]|e] w2; cbn [on_ok].
    + intros (Hw2 & F2 & Hd2 & Hm2). assert (relocated w w2) as Hrel.
      { split; [by rewrite Hd2|]. intros id'. rewrite Hd2. cbn. rewrite bt_get_insert. case_decide as D.
        - subst id'. rewrite Hr. eexists. split; [done|]. right. by exists victim, off, o.1, o.2.
        - destruct (bt_get _ id') as [r'|]; [|done]. exists r'. auto. }
      split_and!; [done|by split|]. cbn in V4. apply NoDup_cons in V4 as [V4 V5]. constructor; [| | |done].
      * eapply Z.lt_le_trans; [exact V1|apply F2].
      * intros id' r' Hr' Hin. rewrite Hd2 in Hr'. cbn in Hr'. rewrite bt_get_insert in Hr'. case_decide as D.
        -- apply (inj Some) in Hr' as <-. unfold in_slab in Hin. cbn in Hin. apply Z.eqb_eq in Hin. unfold o in Hin. lia.
        -- specialize (V2 id' r' Hr' Hin). apply elem_of_cons in V2 as [V2|V2]; [by apply pair_eq in V2 as [-> _]|done].
      * intros id' r' Hin. destruct (V3 id' r') as [Hr' Hs']; [by right|]. split; [|done]. rewrite Hd2. cbn. rewrite bt_get_insert, decide_False; [done|].
        intros ->. apply V4. apply list_elem_of_fmap. by exists (id, r').
    + done.
  - intros r0 Hr0. assert (r0 = r) as -> by congruence. split; [done|]. exists victim, off. split; [done|]. unfold o. lia.
  - unfold relocate. rewrite Hr. rewrite bool_decide_true by done. by destruct (advance _ _ _ _ _).
Qed.

Lemma move_all_spec victim l : ∀ w, inv w → moving victim l w →
  wp (for_each l (λ e, match loc e.2 with Slab _ off => move_object cfg victim e.1 off (size e.2) | _ => mret tt end))
    (on_ok (λ _ w', inv w' ∧ compacting w w' ∧ moving victim [] w') (λ _ w', inv w' ∧ compacting w w')) dinv w.
Proof.
  induction l as [|[id r] l IH]; intros w Hw Hmv; [by split_and!|]. cbn [for_each].
  destruct (mv_live _ _ _ Hmv id r (list_elem_of_here _ _)) as [Hr Hs]. apply in_slab_loc in Hs as [off Hl]. cbn [fst snd]. rewrite Hl.
  apply wp_bind. eapply wp_mono; [|done|by apply (move_spec victim id r off l)]. intros [[]|e] w1; cbn [on_ok]; [|done].
  intros (Hw1 & C1 & Hmv1). eapply wp_mono; [|done|by apply IH]. intros [[]|e] w2; cbn.
  - intros (Hw2 & C2 & Hmv2). split_and!; [done|by etransitivity|done].
  - intros (Hw2 & C2). split; [done|by etransitivity].
Qed.

Lemma tables_drop_row slabs0 files objs sparse obao ext victim o :
  tables_ok slabs0 files objs sparse obao ext → (∀ id r, bt_get objs id = Some r → in_slab victim r = false) →
  is_Some (bt_get slabs0 o) → victim < o → tables_ok (bt_remove victim slabs0) files objs sparse obao ext.
Proof.
  intros [[S1 S2 S3 S4 S5] I2 I3 I4 I5 I6 I7 I8] Hno Ho Hlt. constructor; try done.
  - constructor; [by apply bt_remove_wf|done| | |].
    + intros n m. rewrite bt_get_remove by done. case_decide; [done|]. apply S3.
    + intros n m n'. rewrite !bt_get_remove by done. repeat case_decide; try done; [|by intros _ _ [? ?]..]. apply S4.
    + intros n Hn. destruct (S5 n Hn) as (n' & Hn' & Hle). destruct (decide (n' = victim)) as [->|Hne].
      * exists o. rewrite bt_get_remove by done. rewrite decide_False by lia. split; [done|lia].
      * exists n'. rewrite bt_get_remove by done. by rewrite decide_False.
  - intros id r Hr. destruct (I6 id r Hr) as [H1 H2]. split; [done|]. destruct (loc r) as [|n off|] eqn:El; try done.
    destruct H2 as (m & b & Hm & Q). exists m, b. rewrite bt_get_remove by done. rewrite decide_False; [done|]. intros ->.
    specialize (Hno id r Hr). unfold in_slab in Hno. rewrite El, Z.eqb_refl in Hno. done.
  - intros n m. rewrite bt_get_remove by done. case_decide; [done|]. apply I7.
Qed.

Lemma tables_drop_file slabs0 files objs sparse obao ext victim :
  tables_ok slabs0 files objs sparse obao ext → bt_get slabs0 victim = None → tables_ok slabs0 (bt_remove victim files) objs sparse obao ext.
Proof.
  intros I Hno. pose proof (so_files_wf _ _ (ok_slabs _ _ _ _ _ _ I)) as Hwf. eapply tables_files; [exact I|by apply bt_remove_wf| |].
  - intros n m Hn. destruct (so_row _ _ (ok_slabs _ _ _ _ _ _ I) n m Hn) as [_ Hl]. unfold slab_bytes at 1 3. rewrite bt_get_remove by done.
    rewrite decide_False by congruence. split; [apply Hl|done].
  - intros n. rewrite bt_get_remove by done. case_decide; [by intros [? ?]|by left].
Qed.

Lemma open_ok_drop slabs0 files victim open : bt_wf slabs0 → victim ≠ open.1 → open_ok slabs0 files open → open_ok (bt_remove victim slabs0) files open.
Proof. intros Hwf Hne (m & H1 & H2 & H3). exists m. rewrite bt_get_remove by done. by rewrite decide_False. Qed.

Definition dropped (victim : Z) (w' : World) : Prop :=
  bt_get (slabs (index_db (disk w'))) victim = None ∧ bt_get (slab_files (disk w')) victim = None.

Lemma drop_slab_spec victim w : inv w → moving victim [] w →
  wp (txn (λ ix, Ok (tt, with_slabs (bt_remove victim) ix)) ;; effect (drop_slab_file victim))
    (on_ok (λ _ w', inv w' ∧ compacting w w' ∧ dropped victim w') (λ _ w', inv w' ∧ compacting w w')) dinv w.
Proof.
  intros [Hd Hm] [V1 V2 V3 V4]. pose proof (mi_open _ Hm) as (m & H1 & H2 & H3 & H4). set (o := open_slab (mem w)) in *.
  pose proof (so_wf _ _ (ok_slabs _ _ _ _ _ _ Hd)) as Hwf. pose proof (so_files_wf _ _ (ok_slabs _ _ _ _ _ _ Hd)) as Hwf'.
  assert (dinv (with_index (with_slabs (bt_remove victim) (index_db (disk w))) (disk w))) as Hd1.
  { eapply tables_drop_row; [exact Hd| |by eexists|exact V1]. intros id r Hr. destruct (in_slab victim r) eqn:E; [|done]. by apply (V2 id r Hr), elem_of_nil in E. }
  assert (open_ok (bt_remove victim (slabs (index_db (disk w)))) (slab_files (disk w)) o) as Ho1.
  { apply open_ok_drop; [done|lia|by exists m]. }
  apply wp_bind, wp_txn; [done|]. intros p. cbn. apply wp_effect; [done|]. intros p'. cbn. split_and!.
  - apply (inv_disk w); [by split| |].
    + eapply tables_drop_file; [exact Hd1|]. cbn. rewrite bt_get_remove by done. by rewrite decide_True.
    + cbn. destruct Ho1 as (m' & Q1 & Q2 & Q3 & Q4). exists m'. split_and!; [done..|]. etransitivity; [|exact Q4]. unfold slab_bytes. cbn.
      rewrite bt_get_remove by done. rewrite decide_False; [done|]. fold o. lia.
  - split.
    + apply frame_disk. intros id _ _. by apply protected_same.
    + split; [done|]. intros id. cbn. destruct (bt_get _ id) as [r|]; [|done]. exists r. auto.
  - split; cbn; rewrite bt_get_remove by done; by rewrite decide_True.
Qed.

Lemma compact_slab_spec victim w : inv w → victim < (open_slab (mem w)).1 →
  wp (compact_slab cfg victim) (on_ok (λ _ w', inv w' ∧ compacting w w' ∧ dropped victim w') (λ _ w', inv w' ∧ compacting w w')) dinv w.
Proof.
  intros Hw Hlt. unfold compact_slab. set (live0 := bt_filter (in_slab victim) (objects (index_db (disk w)))).
  pose proof (ok_objects _ _ _ _ _ _ (proj1 Hw)) as Hwf.
  change (wp (for_each live0 (λ e, match loc e.2 with Slab _ off => move_object cfg victim e.1 off (size e.2) | _ => mret tt end) ;;
    (txn (λ ix, Ok (tt, with_slabs (bt_remove victim) ix)) ;; effect (drop_slab_file victim)))
    (on_ok (λ _ w', inv w' ∧ compacting w w' ∧ dropped victim w') (λ _ w', inv w' ∧ compacting w w')) dinv w).
  apply wp_bind. eapply wp_mono; [|done|apply (move_all_spec victim live0 w Hw)].
  - intros [[]|e] w1; cbn [on_ok]; [|done]. intros (Hw1 & C1 & Hmv). eapply wp_mono; [|done|by apply drop_slab_spec].
    intros [[]|e] w2; cbn; [intros (? & ? & ?); split_and!; try done|intros (? & ?); split; [done|]]; by etransitivity.
  - constructor; [done| | |].
    + intros id r Hr Hs. apply elem_of_bfilter. split; [by apply bt_get_elem|done].
    + intros id r [Hin Hs]%elem_of_bfilter. split; [by apply bt_get_elem|done].
    + apply bt_keys_nodup. by apply bt_filter_wf.
Qed.

Lemma worth_below_open w n m : inv w → bt_get (slabs (index_db (disk w))) n = Some m → sealed m = true → n < (open_slab (mem w)).1.
Proof.
  intros [Hd Hm] Hn Hs. destruct (mi_open _ Hm) as (m' & H1 & H2 & _). pose proof (so_newest _ _ (ok_slabs _ _ _ _ _ _ Hd) _ _ n H1 H2 ltac:(by eexists)).
  assert (n ≠ (open_slab (mem w)).1) by (intros ->; congruence). lia.
Qed.

Lemma safe_compact : safe compacting (compact_if_worthwhile cfg).
Proof.
  intros w Hw. unfold compact_if_worthwhile. set (victims := bt_keys (bt_filter (worth_compacting cfg) (slabs (index_db (disk w))))).
  change (wp (for_each victims (compact_slab cfg)) (good compacting w) dinv w).
  assert (Forall (λ n, n < (open_slab (mem w)).1) victims) as Hv.
  { apply Forall_forall. intros n Hn. apply list_elem_of_fmap in Hn as ([k m] & -> & [Hin Hwc]%elem_of_bfilter).
    apply bt_get_elem in Hin; [|apply Hw]. eapply worth_below_open; [done|done|]. unfold worth_compacting in Hwc. cbn in Hwc. by destruct (sealed m). }
  clearbody victims. revert w Hw Hv. induction victims as [|n l IH]; intros w Hw Hv; [by split|]. apply Forall_cons in Hv as [Hn Hl].
  cbn [for_each]. apply wp_bind. eapply wp_mono; [|done|by apply compact_slab_spec]. intros [[]|e] w1; cbn [on_ok]; [|done].
  intros (Hw1 & C1 & _). eapply wp_mono; [|done|apply IH; [done|]].
  - intros r w2 [Hw2 C2]. split; [done|by etransitivity].
  - eapply Forall_impl; [exact Hl|]. cbn. intros k Hk. eapply Z.lt_le_trans; [exact Hk|apply C1].
Qed.
End compact.

(** ** Deleting *)

(** Objects keep their records or move between slabs, except those dropped
    under [D]; the xite tree is as it was, and so are the sparse files of the
    objects that stay. *)
Definition shrunk (D : ObjId → ObjRecord → Prop) (w w' : World) : Prop :=
  tree (disk w') = tree (disk w) ∧ ∀ id,
    match bt_get (objects (index_db (disk w))) id with
    | Some r => (∃ r', bt_get (objects (index_db (disk w'))) id = Some r' ∧
          (r' = r ∨ ∃ n off n' off', loc r = Slab n off ∧ r' = set_loc (Slab n' off') r) ∧
          bt_get (sparse_files (disk w')) id = bt_get (sparse_files (disk w)) id) ∨
        bt_get (objects (index_db (disk w'))) id = None ∧ D id r
    | None => bt_get (objects (index_db (disk w'))) id = None
    end.

(** [D] does not look at where a slab object is. *)
Definition loc_blind (D : ObjId → ObjRecord → Prop) : Prop :=
  ∀ id r n off n' off', loc r = Slab n off → D id (set_loc (Slab n' off') r) → D id r.

Lemma shrunk_refl D w : shrunk D w w.
Proof. split; [done|]. intros id. destruct (bt_get (objects _) id) as [r|]; [|done]. left. exists r. auto. Qed.

Lemma shrunk_trans D w1 w2 w3 : loc_blind D → shrunk D w1 w2 → shrunk D w2 w3 → shrunk D w1 w3.
Proof.
  intros HD [A1 HA] [B1 HB]. split; [congruence|]. intros id. specialize (HA id). specialize (HB id).
  destruct (bt_get (objects (index_db (disk w1))) id) as [r|]; [|by rewrite HA in HB].
  destruct HA as [(r2 & Hr2 & E2 & S2)|[Hn2 HD2]]; [|right; rewrite Hn2 in HB; done]. rewrite Hr2 in HB.
  destruct HB as [(r3 & Hr3 & E3 & S3)|[Hn3 HD3]].
  - left. exists r3. split_and!; [done| |congruence]. destruct E2 as [->|(n & off & n' & off' & Hl & ->)]; [done|]. right.
    destruct E3 as [->|(m & o & m' & o' & Hl' & ->)]; [by exists n, off, n', off'|by exists n, off, m', o'].
  - right. split; [done|]. destruct E2 as [->|(n & off & n' & off' & Hl & ->)]; [done|]. by eapply HD.
Qed.

Lemma relocated_shrunk D w w' : relocated w w' → shrunk D w w'.
Proof.
  intros [(S & _ & T & _) H]. split; [done|]. intros id. specialize (H id). destruct (bt_get _ id) as [r|]; [|done].
  destruct H as (r' & Hr' & E). left. exists r'. by rewrite S.
Qed.

Definition dropping (D : ObjId → ObjRecord → Prop) (w w' : World) : Prop := frame nobody w w' ∧ shrunk D w w'.

Lemma dropping_preorder D : loc_blind D → PreOrder (dropping D).
Proof.
  intros HD. split; [intros w; split; [done|apply shrunk_refl]|]. intros w1 w2 w3 [A1 A2] [B1 B2]. split; [by etransitivity|by eapply shrunk_trans].
Qed.

Lemma compacting_dropping D w w' : compacting w w' → dropping D w w'.
Proof. intros [F H]. split; [done|by apply relocated_shrunk]. Qed.

(** The world after an object's record and files went. *)
Definition deleted (id : ObjId) (w w' : World) : Prop :=
  objects (index_db (disk w')) = bt_remove id (objects (index_db (disk w))) ∧ mem w' = mem w ∧ tree (disk w') = tree (disk w) ∧
  ∀ id', id' ≠ id → bt_get (sparse_files (disk w')) id' = bt_get (sparse_files (disk w)) id'.

Lemma deleted_shrunk (D : ObjId → ObjRecord → Prop) id r w w' : inv w → bt_get (objects (index_db (disk w))) id = Some r → D id r → deleted id w w' → shrunk D w w'.
Proof.
  intros Hw Hr HD (H1 & H2 & H3 & H4). split; [done|]. intros id'. rewrite H1, bt_get_remove by apply Hw. case_decide as E.
  - subst id'. rewrite Hr. by right.
  - destruct (bt_get _ id') as [r'|]; [|done]. left. exists r'. split_and!; [done|by left|by apply H4].
Qed.

Lemma open_ok_books r slabs0 files open : open_ok slabs0 files open → open_ok (books slabs0 r) files open.
Proof. intros (m & H1 & H2 & H3 & H4). unfold open_ok. rewrite books_get, H1. eexists. by split_and!. Qed.

Lemma delete_row_step id r w : inv w → bt_get (objects (index_db (disk w))) id = Some r →
  bt_contains (sparse_writers (mem w)) id = false → disk_step nobody w (with_index (delete_row id r (index_db (disk w))) (disk w)).
Proof.
  intros [Hd Hm] Hr Hno. split_and!.
  - exact (tables_delete _ _ _ _ _ _ Hd id r Hr).
  - cbn. apply (open_ok_books r), Hm.
  - intros id' _ Hw r0 Hr0. cbn. rewrite bt_get_remove by apply Hd. rewrite decide_False by congruence. exists r0. split_and!; try done.
    intros Hl. split; [done|]. intros e He. by exists e.
Qed.

(** Unlinking files of an object that has no sparse record and no writer. *)
Lemma unlink_step w id sparse' obao' : inv w → sparse' = bt_remove id (sparse_files (disk w)) ∨ sparse' = sparse_files (disk w) → bt_wf obao' →
  bt_contains (sparse_writers (mem w)) id = false ∨ sparse' = sparse_files (disk w) →
  disk_step nobody w (mkDisk (index_db (disk w)) (slab_files (disk w)) sparse' obao' (tree (disk w)) (next_inode (disk w))).
Proof.
  intros [Hd Hm] Hs Ho Hno. split_and!.
  - eapply tables_sparse; [exact Hd| |done|].
    + destruct Hs as [->| ->]; [apply bt_remove_wf|]; apply Hd.
    + intros id' r Hr Hl. destruct Hs as [->| ->]; [|done]. apply sparse_ok_removed, Hd.
  - apply Hm.
  - intros id' _ Hw. apply protected_same; [done|]. cbn. destruct Hs as [->| ->]; [|done]. destruct Hno as [Hno|Hno]; [|by rewrite Hno].
    rewrite bt_get_remove by apply Hd. rewrite decide_False; [done|congruence].
Qed.

Lemma bt_contains_none {V} (m : btree ObjId V) id : bt_contains m id = false ↔ bt_get m id = None.
Proof. unfold bt_contains. rewrite bool_decide_eq_false. destruct (bt_get m id); split; intros Hc; try done. by destruct Hc. Qed.

Lemma unlink_pair_spec id w : inv w → bt_contains (sparse_writers (mem w)) id = false →
  wp (unlink_pair id) (λ r w', r = Ok tt ∧ inv w' ∧ frame nobody w w' ∧ mem w' = mem w ∧ index_db (disk w') = index_db (disk w) ∧ tree (disk w') = tree (disk w) ∧
    sparse_files (disk w') = bt_remove id (sparse_files (disk w))) dinv w.
Proof.
  intros Hw Hno. unfold unlink_pair. apply wp_bind, wp_effect; [apply Hw|]. intros p. cbn.
  destruct (disk_step_good (A := unit) nobody w _ p (faults w) (Ok tt) Hw
    (unlink_step w id (bt_remove id (sparse_files (disk w))) (obao_files (disk w)) Hw (or_introl eq_refl) (ok_obao _ _ _ _ _ _ (proj1 Hw)) (or_introl Hno))) as [G1 G2].
  apply wp_effect; [apply G1|]. intros p'. cbn.
  destruct (disk_step_good (A := unit) nobody _ _ p' (faults w) (Ok tt) G1
    (unlink_step _ id _ (bt_remove id (obao_files (disk w))) G1 (or_intror eq_refl) (bt_remove_wf _ _ (ok_obao _ _ _ _ _ _ (proj1 Hw))) (or_intror eq_refl))) as [G3 G4].
  split; [done|]. split; [exact G3|]. split; [etransitivity; [exact G2|exact G4]|]. done.
Qed.

(** Dropping the record and then the files it left. *)
Lemma delete_files_spec id r w : inv w → bt_get (objects (index_db (disk w))) id = Some r → bt_contains (sparse_writers (mem w)) id = false →
  ∀ p (k : M unit), k = unlink_pair id ∨ k = effect (with_obao (bt_remove id)) ∨ k = mret tt →
  wp k (λ r w', r = Ok tt ∧ inv w' ∧ frame nobody w w' ∧ deleted id w w') dinv
    (mkWorld (with_index (delete_row id r (index_db (disk w))) (disk w)) (mem w) p (faults w)).
Proof.
  intros Hw Hr Hno p k Hk. destruct (disk_step_good (A := unit) nobody w _ p (faults w) (Ok tt) Hw (delete_row_step id r w Hw Hr Hno)) as [G1 G2].
  destruct Hk as [->|[->| ->]].
  - eapply wp_mono; [|done|by apply unlink_pair_spec]. intros r' w' (Q0 & Q1 & Q2 & Q3 & Q4 & Q5 & Q6). split; [done|]. split; [done|]. split; [by etransitivity|].
    unfold deleted. split_and!; [by rewrite Q4|done|done|]. intros id' Hne. rewrite Q6. cbn. rewrite bt_get_remove by apply Hw. by rewrite decide_False.
  - apply wp_effect; [apply G1|]. intros p'. cbn.
    destruct (disk_step_good (A := unit) nobody _ _ p' (faults w) (Ok tt) G1
      (unlink_step _ id (sparse_files (disk w)) (bt_remove id (obao_files (disk w))) G1 (or_intror eq_refl) (bt_remove_wf _ _ (ok_obao _ _ _ _ _ _ (proj1 Hw))) (or_intror eq_refl))) as [G3 G4].
    split; [done|]. split; [exact G3|]. split; [etransitivity; [exact G2|exact G4]|]. done.
  - done.
Qed.

Lemma delete_object_spec id r w : inv w → bt_get (objects (index_db (disk w))) id = Some r →
  wp (delete_object id r) (λ _ w', inv w' ∧ frame nobody w w' ∧
    (if bt_contains (sparse_writers (mem w)) id then w' = w else deleted id w w')) dinv w.
Proof.
  intros Hw Hr. unfold delete_object.
  change (wp (if bt_contains (sparse_writers (mem w)) id then mret tt else
    txn (λ ix, Ok (tt, delete_row id r ix)) ;; match loc r with Sparse => unlink_pair id | Extern => effect (with_obao (bt_remove id)) | Slab _ _ => mret tt end)
    (λ _ w', inv w' ∧ frame nobody w w' ∧ (if bt_contains (sparse_writers (mem w)) id then w' = w else deleted id w w')) dinv w).
  destruct (bt_contains (sparse_writers (mem w)) id) eqn:Hno; [by split_and!|].
  apply wp_bind, wp_txn; [apply Hw|]. intros p. cbn [on_ok]. eapply wp_mono; [|done|apply (delete_files_spec id r); [done..|]].
  - by intros r' w' (_ & ?).
  - destruct (loc r); auto.
Qed.

(** [remove] drops that object, if no writer is on it. *)
Lemma store_remove_spec cfg id w : inv w →
  wp (remove cfg id) (λ _ w', inv w' ∧ dropping (λ id' _, id' = id) w w' ∧
    (bt_contains (sparse_writers (mem w)) id = false → bt_get (objects (index_db (disk w'))) id = None)) dinv w.
Proof.
  intros Hw. unfold remove. change (wp (match bt_get (objects (index_db (disk w))) id with None => mret tt | Some rec => delete_object id rec ;; compact_if_worthwhile cfg end)
    (λ _ w', inv w' ∧ dropping (λ id' _, id' = id) w w' ∧ (bt_contains (sparse_writers (mem w)) id = false → bt_get (objects (index_db (disk w'))) id = None)) dinv w).
  destruct (bt_get _ id) as [r|] eqn:E.
  2:{ split_and!; [done|split; [done|apply shrunk_refl]|done]. }
  assert (∀ w1, frame nobody w w1 → (if bt_contains (sparse_writers (mem w)) id then w1 = w else deleted id w w1) →
    dropping (λ id' _, id' = id) w w1 ∧ (bt_contains (sparse_writers (mem w)) id = false → bt_get (objects (index_db (disk w1))) id = None)) as Hdel.
  { intros w1 F1 H1. destruct (bt_contains _ _) eqn:Hno.
    - subst w1. split; [|done]. split; [done|apply shrunk_refl].
    - split; [split; [done|by eapply deleted_shrunk]|]. intros _. destruct H1 as (-> & _). rewrite bt_get_remove by apply Hw. by rewrite decide_True. }
  apply wp_bind. eapply wp_mono; [|done|by apply delete_object_spec]. intros [[]|e] w1 (Hw1 & F1 & H1); cbn [on_ok].
  - destruct (Hdel w1 F1 H1) as [D1 N1]. eapply wp_mono; [|done|by apply safe_compact]. intros r' w2 [Hw2 C2]. split_and!; [done| |].
    + destruct (dropping_preorder (λ id' _, id' = id)) as [_ T]; [by intros ? ? ? ? ? ? ? ->|]. eapply T; [exact D1|by apply compacting_dropping].
    + intros Hno. destruct C2 as [_ [_ C2]]. specialize (C2 id). rewrite N1 in C2 by done. done.
  - destruct (Hdel w1 F1 H1). by split_and!.
Qed.

Lemma safe_remove cfg id : safe (frame nobody) (remove cfg id).
Proof. intros w Hw. eapply wp_mono; [|done|by apply store_remove_spec]. intros r w' (H1 & [H2 _] & _). by split. Qed.

(** ** Eviction's delete *)

Definition guarded_id (w : World) (id : ObjId) : bool := bt_contains (sparse_writers (mem w)) id || bt_contains (evict_holds (mem w)) id.

Lemma delete_if_unreferenced_spec id w : inv w →
  wp (delete_if_unreferenced id) (λ r w', inv w' ∧ frame nobody w w' ∧
    match r with
    | Ok (Some rec) => bt_get (objects (index_db (disk w))) id = Some rec ∧ evictable rec = true ∧ guarded_id w id = false ∧ deleted id w w'
    | Ok None => disk w' = disk w ∧ mem w' = mem w ∧ (guarded_id w id = true ∨ ∀ rec, bt_get (objects (index_db (disk w))) id = Some rec → evictable rec = false)
    | Err _ => False
    end) dinv w.
Proof.
  intros Hw. unfold delete_if_unreferenced.
  set (Φ := λ (r : result IoError (option ObjRecord)) w', inv w' ∧ frame nobody w w' ∧
    match r with
    | Ok (Some rec) => bt_get (objects (index_db (disk w))) id = Some rec ∧ evictable rec = true ∧ guarded_id w id = false ∧ deleted id w w'
    | Ok None => disk w' = disk w ∧ mem w' = mem w ∧ (guarded_id w id = true ∨ ∀ rec, bt_get (objects (index_db (disk w))) id = Some rec → evictable rec = false)
    | Err _ => False
    end).
  change (wp (if guarded_id w id then mret None else
    deleted ← txn (λ ix, Ok (match bt_get (objects ix) id with
                           | Some rec => if evictable rec then (Some rec, delete_row id rec ix) else (None, ix)
                           | None => (None, ix)
                           end));
    match deleted with
    | Some rec => match loc rec with Sparse => unlink_pair id ;; mret deleted | _ => mret deleted end
    | None => mret None
    end) Φ dinv w).
  destruct (guarded_id w id) eqn:Eg; [by split_and!; auto|]. apply wp_bind, wp_txn; [apply Hw|].
  destruct (bt_get _ id) as [rec|] eqn:Er; [destruct (evictable rec) eqn:Ee|].
  - intros p. cbn [on_ok]. assert (bt_contains (sparse_writers (mem w)) id = false) as Hno by (unfold guarded_id in Eg; by apply orb_false_iff in Eg as [? _]).
    set (w1 := mkWorld (with_index (delete_row id rec (index_db (disk w))) (disk w)) (mem w) p (faults w)).
    assert (∀ w', inv w' ∧ frame nobody w w' ∧ deleted id w w' → Φ (Ok (Some rec)) w') as HΦ by (intros w' (? & ? & ?); by split_and!).
    destruct (loc rec).
    + apply wp_bind. eapply wp_mono; [|done|apply (delete_files_spec id rec w Hw Er Hno p (unlink_pair id)); auto].
      intros r' w' [-> H']; cbn [on_ok]. by apply HΦ.
    + apply HΦ. exact (proj2 (delete_files_spec id rec w Hw Er Hno p (mret tt) (or_intror (or_intror eq_refl)))).
    + apply HΦ. exact (proj2 (delete_files_spec id rec w Hw Er Hno p (mret tt) (or_intror (or_intror eq_refl)))).
  - intros p. cbn. split_and!; try done.
    + destruct Hw as [? [? ? ?]]. by split.
    + constructor; [done|done|apply Z.le_refl|]. intros. by apply protected_same.
    + cbn. by destruct (disk w).
    + right. intros rec' [= <-]. done.
  - intros p. cbn. split_and!; try done.
    + destruct Hw as [? [? ? ?]]. by split.
    + constructor; [done|done|apply Z.le_refl|]. intros. by apply protected_same.
    + cbn. by destruct (disk w).
    + by right.
Qed.

(** ** Inserting *)

Lemma already_here_spec cfg id now w : inv w →
  wp (already_here cfg id now) (on_ok (λ a w', inv w' ∧ frame nobody w w' ∧ (a = None → bt_get (objects (index_db (disk w'))) id = None) ∧ a ≠ Some true)
    (λ _ w', inv w' ∧ frame nobody w w')) dinv w.
Proof.
  intros Hw. unfold already_here.
  set (Φ := on_ok (λ a w', inv w' ∧ frame nobody w w' ∧ (a = None → bt_get (objects (index_db (disk w'))) id = None) ∧ a ≠ Some true) (λ _ w', inv w' ∧ frame nobody w w')).
  change (wp (match bt_get (objects (index_db (disk w))) id with
    | None => mret None
    | Some rec => if is_complete rec then touch_if_older id rec now ;; mret (Some false)
      else remove cfg id ;; again ← get_record id; mret (match again with Some _ => Some false | None => None end) end) Φ dinv w).
  destruct (bt_get _ id) as [rec|] eqn:E; [|by split_and!]. destruct (is_complete rec).
  - apply wp_bind. eapply wp_mono; [|done|by apply safe_touch_if_older]. intros [[]|e] w1 [H1 F1]; cbn; [by split_and!|by split].
  - apply wp_bind. eapply wp_mono; [|done|by apply safe_remove]. intros [[]|e] w1 [H1 F1]; cbn [on_ok]; [|by split].
    change (wp (mret (match bt_get (objects (index_db (disk w1))) id with Some _ => Some false | None => None end)) Φ dinv w1).
    split_and!; [done|done| |]; by destruct (bt_get (objects (index_db (disk w1))) id).
Qed.

Definition slab_record (ns : Ns) (o : Z * Z) (bs : bytes) (now : Z) : ObjRecord := mkRecord (blen bs) (ns_to_u8 ns) (Slab o.1 o.2) [] 0 now.

Lemma append_object_spec cfg id ns bs now w : inv w → blake3 bs = id → bt_get (objects (index_db (disk w))) id = None →
  wp (append_object cfg id ns bs now) (on_ok (λ b w', inv w' ∧ frame nobody w w' ∧ b = true ∧ landed cfg id (slab_record ns (open_slab (mem w)) bs now) bs w w')
    (λ _ w', inv w' ∧ compacting w w')) dinv w.
Proof.
  intros Hw Hid Hnone. set (o := open_slab (mem w)). set (r := slab_record ns o bs now).
  set (f := λ ix : Index,
    let rec := mkRecord (blen bs) (ns_to_u8 ns) (Slab o.1 o.2) [] 0 now in
    let '(slabs', opened) := advance cfg o.1 (o.2 + blen bs) (λ d, d) (slabs ix) in
    Ok (E := IoError) (opened, mkIndex (schema ix) (bt_insert id rec (objects ix)) slabs' (externs ix))).
  assert (append_object cfg id ns bs now w = ((append_or_shrink o.1 o.2 bs ;; opened ← txn f; set_open opened) ;; mret true) w) as Heq.
  { unfold append_object, mbind, M_bind, get_mem, gets. fold o. destruct (append_or_shrink o.1 o.2 bs w) as [[[]|e|] w1]; try done.
    fold f. by destruct (txn f w1) as [[p|e|] w2]. }
  unfold wp at 1. rewrite Heq. change (wp ((append_or_shrink o.1 o.2 bs ;; opened ← txn f; set_open opened) ;; mret true)
    (on_ok (λ b w', inv w' ∧ frame nobody w w' ∧ b = true ∧ landed cfg id r bs w w') (λ _ w', inv w' ∧ compacting w w')) dinv w).
  apply wp_bind. eapply wp_mono; [|done|apply (land_spec cfg w id r bs f Hw Hid)].
  - intros [[]|e] w1; cbn [on_ok]; [|done]. intros (H1 & H2 & H3). by split_and!.
  - done.
  - done.
  - intros r0 Hr0. congruence.
  - unfold f. fold o. by destruct (advance _ _ _ _ _).
Qed.

Lemma safe_insert cfg id ns bs now : safe (frame nobody) (insert_bytes cfg id ns bs now).
Proof.
  intros w Hw. unfold insert_bytes. unfold Verified.verify_whole. case_bool_decide as Hid; cbn [negb]; [|by split].
  apply wp_bind. eapply wp_mono; [|done|by apply already_here_spec]. intros [[b|]|e] w1; cbn [on_ok]; [|intros (H1 & F1 & Hn & _)|by intros [? ?]].
  - intros (H1 & F1 & _). by split.
  - eapply wp_mono; [|done|by apply append_object_spec; auto]. intros [b|e] w2; cbn.
    + intros (H2 & F2 & _). split; [done|by etransitivity].
    + intros (H2 & F2 & _). split; [done|by etransitivity].
Qed.

(** ** Guards *)

Lemma counts_up id m : counts_ok m → counts_ok (count_up id m).
Proof.
  intros [Hwf Hp]. split; [by apply bt_upsert_wf|]. intros k n. unfold count_up. rewrite bt_get_upsert. case_decide; [|apply Hp].
  intros Hn. apply (inj Some) in Hn as <-. destruct (bt_get m id) eqn:E; [apply Hp in E; lia|lia].
Qed.

Lemma counts_down id m : counts_ok m → counts_ok (count_down id m).
Proof.
  intros [Hwf Hp]. unfold count_down. destruct (bt_get m id) as [n|] eqn:E; [|done]. pose proof (Hp _ _ E). destruct (Z.eqb_spec (n - 1) 0).
  - split; [by apply bt_remove_wf|]. intros k v. rewrite bt_get_remove by done. case_decide; [done|]. apply Hp.
  - split; [by apply bt_insert_wf|]. intros k v. rewrite bt_get_insert. case_decide; [|apply Hp]. intros Hn. apply (inj Some) in Hn as <-. lia.
Qed.

Lemma counts_up_down id m : counts_ok m → count_down id (count_up id m) = m.
Proof.
  intros Hc. pose proof Hc as [Hwf Hp]. pose proof (counts_up id m Hc) as Hu. apply bt_ext; [apply (counts_down id _ Hu)|done|].
  intros k. unfold count_down. unfold count_up at 1. rewrite bt_get_upsert. rewrite decide_True by done.
  destruct (bt_get m id) as [n|] eqn:E.
  - pose proof (Hp _ _ E). replace (n + 1 - 1) with n by lia. destruct (Z.eqb_spec n 0); [lia|]. rewrite bt_get_insert. unfold count_up. rewrite bt_get_upsert.
    case_decide as D; [by subst|done].
  - cbn [Z.sub Z.eqb]. change (1 - 1 =? 0) with true. cbn iota. rewrite bt_get_remove by apply Hu. unfold count_up. rewrite bt_get_upsert.
    case_decide as D; [by subst|done].
Qed.

Lemma contains_count_up id id' m : bt_contains m id' = true → bt_contains (count_up id m) id' = true.
Proof. unfold count_up. rewrite !bt_contains_spec, bt_get_upsert. case_decide; [by eexists|done]. Qed.

Definition registered (id : ObjId) (w : World) : World :=
  mkWorld (disk w) (mkMem (open_slab (mem w)) (count_up id (sparse_writers (mem w))) (evict_holds (mem w))) (power w) (faults w).
Definition unregistered (id : ObjId) (w : World) : World :=
  mkWorld (disk w) (mkMem (open_slab (mem w)) (count_down id (sparse_writers (mem w))) (evict_holds (mem w))) (power w) (faults w).

Lemma inv_registered id w : inv w → inv (registered id w).
Proof. intros [Hd [M1 M2 M3]]. split; [done|]. constructor; [done|by apply counts_up|done]. Qed.
Lemma inv_unregistered id w : inv w → inv (unregistered id w).
Proof. intros [Hd [M1 M2 M3]]. split; [done|]. constructor; [done|by apply counts_down|done]. Qed.

Lemma wp_guarded {A} id (m : M A) Φ C w : wp m (λ r w', Φ r (unregistered id w')) C w → wp (guarded id m) Φ C w.
Proof. unfold wp, guarded, mbind, M_bind, catch, unregister, set_mem, lift. by destruct (m w) as [[a|e|] w']. Qed.

(** A body run between a guard and its drop. *)
Lemma safe_guard {A} X id (m : M A) w : inv w → wp m (good (frame X) (registered id w)) dinv (registered id w) →
  wp (register id ;; guarded id m) (good (frame X) w) dinv w.
Proof.
  intros Hw Hm. change (wp (guarded id m) (good (frame X) w) dinv (registered id w)). apply wp_guarded. eapply wp_mono; [|done|exact Hm].
  intros r w' [Hw' [F1 F2 F3 F4]]. split; [by apply inv_unregistered|]. constructor; cbn in *.
  - rewrite F1. apply counts_up_down, Hw.
  - done.
  - done.
  - intros id' Hx Hc. apply F4; [done|by apply contains_count_up].
Qed.

(** ** Extern objects *)

Lemma disk_step_frame_same X w d' : inv w → index_db d' = index_db (disk w) → slab_files d' = slab_files (disk w) →
  sparse_files d' = sparse_files (disk w) → bt_wf (obao_files d') → disk_step X w d'.
Proof.
  intros [Hd Hm] E1 E2 E3 Ho. split_and!.
  - unfold dinv. rewrite E1, E2, E3. eapply tables_sparse; [exact Hd|apply Hd|done|done].
  - rewrite E1, E2. apply Hm.
  - intros id _ _. apply protected_same; [by rewrite E1|by rewrite E3].
Qed.

Lemma edit_file_wf id ino f files : bt_wf files → bt_wf (edit_file id ino f files).
Proof. apply bt_insert_wf. Qed.

Lemma commit_extern_spec id ns sz rel now w : inv w → 0 <= sz →
  (∀ r, bt_get (objects (index_db (disk w))) id = Some r → bt_contains (sparse_writers (mem w)) id = true → size r = sz) →
  wp (commit_extern id ns sz rel now) (λ _ w', inv w' ∧ frame nobody w w' ∧
     loc <$> bt_get (objects (index_db (disk w'))) id = Some Extern) dinv w.
Proof.
  intros Hw Hsz Hold. unfold commit_extern. apply wp_bind, wp_txn; [apply Hw|].
  set (prev := bt_get (objects (index_db (disk w))) id).
  set (rec := mkRecord sz (ns_to_u8 ns) Extern (GroupBits.to_wire (GroupBits.complete sz)) (default 0 (refcount <$> prev)) (default now ((λ p, Z.max (last_access p) now) <$> prev))).
  intros p. cbn [on_ok].
  assert (disk_step nobody w (with_index (mkIndex (schema (index_db (disk w))) (bt_insert id rec (objects (index_db (disk w))))
     (match prev with Some p => books (slabs (index_db (disk w))) p | None => slabs (index_db (disk w)) end) (bt_insert id rel (externs (index_db (disk w))))) (disk w))) as Hstep.
  { destruct Hw as [Hd Hm]. split_and!.
    - eapply tables_extern; [exact Hd|done|done|done|done].
    - cbn. destruct prev; [apply open_ok_books|]; apply Hm.
    - intros id' _ Hc r0 Hr0. cbn. rewrite bt_get_insert. case_decide as D.
      + subst id'. exists rec. split_and!; [done| |done]. cbn. symmetry. by apply Hold.
      + exists r0. split_and!; try done. intros Hl. split; [done|]. intros e He. by exists e. }
  destruct (disk_step_good (A := unit) nobody w _ p (faults w) (Ok tt) Hw Hstep) as [G1 G2].
  match goal with |- wp _ _ _ ?w0 => set (w1 := w0) end.
  assert (inv w1 ∧ frame nobody w w1 ∧ loc <$> bt_get (objects (index_db (disk w1))) id = Some Extern) as (I1 & F1 & L1).
  { split_and!; [exact G1|exact G2|]. cbn. rewrite bt_get_insert. by rewrite decide_True. }
  clearbody w1. apply wp_bind. destruct (loc <$> prev) as [[]|]; [|exact (conj I1 (conj F1 L1))..].
  change (wp (when (negb (bt_contains (sparse_writers (mem w1)) id)) (effect (with_sparse (bt_remove id))))
    (on_ok (λ a, wp (mret true) (λ _ w', inv w' ∧ frame nobody w w' ∧ loc <$> bt_get (objects (index_db (disk w'))) id = Some Extern) dinv)
      (λ e w', inv w' ∧ frame nobody w w' ∧ loc <$> bt_get (objects (index_db (disk w'))) id = Some Extern)) dinv w1).
  destruct (bt_contains (sparse_writers (mem w1)) id) eqn:Hc; cbn [negb when]; [exact (conj I1 (conj F1 L1))|]. apply wp_effect; [apply I1|]. intros p'. cbn [on_ok].
  destruct (disk_step_good (A := unit) nobody w1 _ p' (faults w1) (Ok tt) I1
    (unlink_step w1 id (bt_remove id (sparse_files (disk w1))) (obao_files (disk w1)) I1 (or_introl eq_refl) (ok_obao _ _ _ _ _ _ (proj1 I1)) (or_introl Hc))) as [G3 G4].
  split; [exact G3|]. split; [etransitivity; [exact F1|exact G4]|done].
Qed.

Lemma safe_read_tree R `{!PreOrder R} path : safe R (read_tree path).
Proof. apply safe_bind; [done|apply safe_gets; done|]. intros. by apply safe_some_or. Qed.
Lemma safe_extern_path cfg R `{!PreOrder R} id : safe R (extern_path cfg id).
Proof.
  unfold extern_path. apply safe_bind; [done|by apply safe_some_or|]. intros. apply safe_bind; [done|by apply safe_gets|]. intros.
  apply safe_bind; [done|by apply safe_some_or|]. intros. by apply safe_ret.
Qed.

Lemma size_nonneg w id r : inv w → bt_get (objects (index_db (disk w))) id = Some r → 0 <= size r.
Proof. intros [Hd _] Hr. by destruct (ok_obj _ _ _ _ _ _ Hd id r Hr). Qed.

Lemma safe_adopt cfg id ns path now : safe (frame nobody) (adopt_extern cfg id ns path now).
Proof.
  intros w Hw. unfold adopt_extern. apply wp_lift. destruct (rel_of cfg path) as [rel|e]; [|by split].
  apply wp_bind. eapply wp_mono; [|done|by apply already_here_spec]. intros [[b|]|e] w1; cbn [on_ok]; [by intros (? & ? & _)| |by intros [? ?]].
  intros (H1 & F1 & Hn & _). specialize (Hn eq_refl). apply wp_read_tree. destruct (tree (disk w1) path) as [data|]; [|by split].
  cbn [option_wp]. destruct (negb _); [by split|]. apply wp_bind, wp_effect; [apply H1|]. intros p. cbn [on_ok].
  destruct (disk_step_good (A := unit) nobody w1 (edit_obao id (λ _, bao_outboard data) (disk w1)) p (faults w1) (Ok tt) H1) as [G1 G2].
  { apply disk_step_frame_same; [done..|]. apply edit_file_wf, H1. }
  eapply wp_mono; [|done|apply commit_extern_spec; [exact G1|apply blen_nonneg|]].
  - intros r w2 (H2 & F2 & _). split; [done|]. etransitivity; [exact F1|]. by etransitivity.
  - cbn. intros r Hr. congruence.
Qed.

(** The sparse file of an object with an extern record goes. *)
Lemma unlink_extern_step w id : inv w → loc <$> bt_get (objects (index_db (disk w))) id = Some Extern →
  disk_step nobody w (with_sparse (bt_remove id) (disk w)).
Proof.
  intros [Hd Hm] Hl. split_and!.
  - eapply tables_sparse; [exact Hd|apply bt_remove_wf, Hd|apply Hd|]. intros id' r _ _. apply sparse_ok_removed, Hd.
  - apply Hm.
  - intros id' _ _ r Hr. exists r. split_and!; [done|done|]. intros Hs. split; [done|]. cbn. rewrite bt_get_remove by apply Hd. case_decide as D.
    + subst id'. rewrite Hr in Hl. cbn in Hl. congruence.
    + intros e He. by exists e.
Qed.

Lemma safe_reclaim cfg id path now : safe (frame nobody) (reclaim_duplicate cfg id path now).
Proof.
  intros w Hw. unfold reclaim_duplicate. apply wp_lift. destruct (rel_of cfg path) as [rel|e]; [|by split].
  apply wp_get_record. destruct (bt_get (objects (index_db (disk w))) id) as [rec|] eqn:Er; [|by split].
  destruct (loc rec); [|by split..]. destruct (negb (is_complete rec)); [by split|]. apply wp_read_tree.
  destruct (tree (disk w) path) as [data|]; [|by split]. cbn [option_wp]. destruct (_ || _); [by split|].
  apply safe_guard; [done|]. pose proof (inv_registered id w Hw) as Hw1. apply wp_bind.
  eapply wp_mono; [|done|apply commit_extern_spec; [exact Hw1|by eapply size_nonneg|]].
  - intros [b|e] w2 (H2 & F2 & L2); cbn [on_ok]; [|by split]. apply wp_bind, wp_effect; [apply H2|]. intros p. cbn [on_ok]. apply wp_ret.
    apply (good_trans (frame nobody) _ w2); [done|]. apply disk_step_good; [done|by apply unlink_extern_step].
  - cbn. intros r Hr _. congruence.
Qed.

(** An extern record goes, its file stays. *)
Lemma safe_retire id : safe_if (λ w, loc <$> bt_get (objects (index_db (disk w))) id = Some Extern) (frame (λ i, i = id)) (retire_extern id).
Proof.
  intros w Hw Hl. destruct (bt_get (objects (index_db (disk w))) id) as [r|] eqn:Er; [|done]. cbn in Hl. unfold retire_extern.
  set (ix := mkIndex (schema (index_db (disk w))) (bt_remove id (objects (index_db (disk w)))) (slabs (index_db (disk w))) (bt_remove id (externs (index_db (disk w))))).
  assert (disk_step (λ i, i = id) w (with_index ix (disk w))) as Hs.
  { destruct Hw as [Hd Hm]. split_and!.
    - pose proof (tables_delete _ _ _ _ _ _ Hd id r Er) as Ht. apply (inj Some) in Hl. unfold books in Ht. rewrite Hl in Ht. exact Ht.
    - apply Hm.
    - intros id' Hne _ r0 Hr0. exists r0. cbn. rewrite bt_get_remove by apply Hd. rewrite decide_False by done. split_and!; try done.
      intros Hsp. split; [done|]. intros e He. by exists e. }
  apply wp_bind, wp_txn; [apply Hw|]. intros p. cbn [on_ok].
  destruct (disk_step_good (A := unit) (λ i, i = id) w _ p (faults w) (Ok tt) Hw Hs) as [G1 G2].
  apply wp_effect; [apply G1|]. intros p'. eapply good_trans; [apply _|exact G2|]. apply disk_step_good; [exact G1|].
  apply disk_step_frame_same; [exact G1|done..|]. cbn. apply bt_remove_wf, Hw.
Qed.

Lemma safe_matches cfg R `{!PreOrder R} id rec : safe R (extern_still_matches cfg id rec).
Proof.
  apply safe_bind; [done|by apply safe_extern_path|]. intros path. apply safe_bind; [done|by apply safe_read_tree|]. intros data.
  destruct (negb _); [by apply safe_ret|]. apply safe_bind; [done|apply safe_bind; [done|by apply safe_gets|intros; by apply safe_some_or]|]. intros ob.
  apply safe_bind; [done|by apply safe_lift|]. intros v. by apply safe_ret.
Qed.

Lemma matches_pure cfg id rec w : (extern_still_matches cfg id rec w).2 = w ∧ ∀ w', extern_still_matches cfg id rec w ≠ (Crash, w').
Proof.
  unfold extern_still_matches, extern_path, read_tree, read_obao, mbind, M_bind, gets, get_index, some_or, lift.
  destruct (xite_root cfg) as [root|]; [|done]. cbn. destruct (bt_get (externs _) id) as [rel|]; [|done]. cbn.
  destruct (tree (disk w) _) as [data|]; [|done]. cbn. destruct (negb _); [done|]. destruct (bt_get (obao_files _) id) as [ob|]; [|done]. cbn.
  by destruct (Verified.valid_ranges _ _ _ _ _).
Qed.

Lemma tree_step X w path v : inv w → disk_step X w (with_tree path v (disk w)).
Proof. intros Hw. apply disk_step_frame_same; [done..|]. apply Hw. Qed.

Lemma wp_step_good {A} X w0 w f (k : unit → M A) : inv w → frame X w0 w → disk_step X w (f (disk w)) →
  (∀ w', inv w' → frame X w0 w' → disk w' = f (disk w) → mem w' = mem w → wp (k tt) (good (frame X) w0) dinv w') →
  wp (effect f ≫= k) (good (frame X) w0) dinv w.
Proof.
  intros Hw F Hs Hk. apply wp_bind, wp_effect; [apply Hw|]. intros p. cbn [on_ok].
  destruct (disk_step_good (A := unit) X w _ p (faults w) (Ok tt) Hw Hs) as [G1 G2]. apply Hk; [done|by etransitivity|done|done].
Qed.

Lemma safe_materialize_extern cfg id rec dst :
  safe_if (λ w, loc <$> bt_get (objects (index_db (disk w))) id = Some Extern) (frame (λ i, i = id)) (materialize_from_extern cfg id rec dst).
Proof.
  intros w Hw Hl. unfold materialize_from_extern. apply wp_bind.
  assert (∀ (e : IoError), good (A := unit) (frame (λ i, i = id)) w (Err e) w) as Herr by (intros; by split).
  eapply wp_mono with (Φ := λ r w', w' = w) (C := dinv); [|done|].
  2:{ unfold wp, extern_path, mbind, M_bind, get_index, gets, some_or. destruct (xite_root cfg); [|done]. cbn. by destruct (bt_get (externs (index_db (disk w))) id). }
  intros [cur|e] w' ->; cbn [on_ok]; [|apply Herr]. apply wp_gets. apply wp_bind.
  eapply wp_mono with (Φ := λ r w', w' = w) (C := dinv); [|done|].
  2:{ case_bool_decide; [done|]. pose proof (matches_pure cfg id rec w) as [H1 H2]. unfold wp, mbind, M_bind, catch.
      destruct (extern_still_matches cfg id rec w) as [[b|e|] w']; cbn in *; [done|done|by destruct (H2 w')]. }
  intros [[[]|]|e] w' ->; cbn [on_ok]; [|by split| |apply Herr].
  - apply wp_read_tree. destruct (tree (disk w) cur) as [data|]; [|apply Herr]. cbn [option_wp]. eapply wp_step_good; [done|done|by apply tree_step|].
    intros w1 H1 F1 _ _. destruct (negb _); [|by split]. eapply wp_step_good; [done|done|by apply tree_step|]. intros w2 H2 F2 _ _. by split.
  - apply wp_bind. eapply wp_mono; [|done|by apply safe_retire]. intros [[]|e] w1 [H1 F1]; by split.
Qed.

Lemma move_file_spec one_volume id rec dst w : inv w → bt_get (objects (index_db (disk w))) id = Some rec →
  wp (move_file one_volume id rec dst) (λ _ w', inv w' ∧ frame nobody w w' ∧ index_db (disk w') = index_db (disk w)) dinv w.
Proof.
  intros Hw Hr. unfold move_file. apply wp_read_sparse. destruct (bt_get (sparse_files (disk w)) id) as [f|]; [|by split_and!]. cbn [option_wp].
  assert (∀ w1 t, inv w1 → index_db (disk w1) = index_db (disk w) →
    disk_step nobody w1 (mkDisk (index_db (disk w1)) (slab_files (disk w1)) (bt_remove id (sparse_files (disk w1))) (obao_files (disk w1)) t (next_inode (disk w1)))) as Hun.
  { intros w1 t [Hd Hm] E. split_and!.
    - eapply tables_sparse; [exact Hd|apply bt_remove_wf, Hd|apply Hd|]. intros id' r _ _. apply sparse_ok_removed, Hd.
    - apply Hm.
    - intros id' _ _ r Hr'. exists r. split_and!; [done|done|]. intros Hs. split; [done|]. cbn. rewrite bt_get_remove by apply Hd. case_decide; [done|].
      intros e He. by exists e. }
  destruct one_volume.
  - apply wp_effect; [apply Hw|]. intros p. destruct (disk_step_good (A := unit) nobody w _ p (faults w) (Ok tt) Hw (Hun w (tree (with_tree dst (Some f.2) (disk w))) Hw eq_refl)) as [G1 G2].
    by split_and!.
  - apply wp_bind, wp_effect; [apply Hw|]. intros p. cbn [on_ok].
    destruct (disk_step_good (A := unit) nobody w _ p (faults w) (Ok tt) Hw (tree_step nobody w dst (Some f.2) Hw)) as [G1 G2].
    destruct (negb _).
    + apply wp_bind, wp_effect; [apply G1|]. intros p'. cbn [on_ok]. apply wp_raise.
      destruct (disk_step_good (A := unit) nobody _ _ p' (faults w) (Ok tt) G1 (tree_step nobody _ dst None G1)) as [G3 G4]. split_and!; [exact G3|by etransitivity|done].
    + apply wp_effect; [apply G1|]. intros p'.
      destruct (disk_step_good (A := unit) nobody _ _ p' (faults w) (Ok tt) G1 (Hun _ (tree (with_tree dst (Some f.2) (disk w))) G1 eq_refl)) as [G3 G4]. split_and!; [exact G3|etransitivity; [exact G2|exact G4]|done].
Qed.

Lemma safe_materialize cfg one_volume id dst now : safe (frame (λ i, i = id)) (materialize cfg one_volume id dst now).
Proof.
  intros w Hw. unfold materialize. apply wp_lift. destruct (rel_of cfg dst) as [rel|e]; [|by split].
  apply wp_required. destruct (bt_get (objects (index_db (disk w))) id) as [rec|] eqn:Er; [|by split]. cbn [option_wp].
  destruct (loc rec) eqn:El; [|by split|apply safe_materialize_extern; [done|by rewrite Er; cbn; rewrite El]].
  destruct (negb (is_complete rec)); [by split|]. apply safe_guard; [done|]. pose proof (inv_registered id w Hw) as Hw1.
  apply wp_bind. eapply wp_mono; [|done|by apply move_file_spec]. intros [[]|e] w2 (H2 & F2 & E2); cbn [on_ok]; [|split; [done|by eapply frame_weaken; [|exact F2]]].
  apply wp_bind. eapply wp_mono; [|done|apply commit_extern_spec; [exact H2|exact (size_nonneg w id rec Hw Er)|]].
  - intros [b|e] w3 (H3 & F3 & _); cbn [on_ok]; (split; [done|]); (eapply frame_weaken; [|by etransitivity]); done.
  - rewrite E2. cbn. intros r Hr _. congruence.
Qed.

(** ** Sparse objects *)

Lemma blen_ensure_len n f : 0 <= n → n <= blen (ensure_len n f).
Proof. intros Hn. unfold ensure_len. destruct (Z.ltb_spec (blen f) n); [rewrite blen_resize; lia|lia]. Qed.

Lemma bits_empty sz ns_ rc la : bits (mkRecord sz ns_ Sparse [] rc la) = GroupBits.new.
Proof. done. Qed.

Lemma safe_ensure_sparse id ns sz now : 0 <= sz → safe (frame nobody) (ensure_sparse id ns sz now).
Proof.
  intros Hsz w Hw. unfold ensure_sparse. destruct (Z.ltb_spec MAX_OBJECT_BYTES sz); [by split|]. apply wp_get_record.
  destruct (bt_get (objects (index_db (disk w))) id) as [r|] eqn:Er; [by split|].
  assert (∀ w1 d', inv w1 → index_db d' = index_db (disk w1) → slab_files d' = slab_files (disk w1) → bt_get (objects (index_db (disk w1))) id = None →
    (∀ id', id' ≠ id → bt_get (sparse_files d') id' = bt_get (sparse_files (disk w1)) id') → bt_wf (sparse_files d') → bt_wf (obao_files d') → disk_step nobody w1 d') as Hstep.
  { intros w1 d' [Hd Hm] E1 E2 En E3 W1 W2. split_and!.
    - unfold dinv. rewrite E1, E2. eapply tables_sparse; [exact Hd|done|done|]. intros id' r Hr _ (S1 & S2 & S3 & S4). split_and!; try done.
      intros ino f. rewrite E3 by congruence. apply S4.
    - rewrite E1, E2. apply Hm.
    - intros id' _ _ r Hr. assert (id' ≠ id) by congruence. exists r. rewrite E1. split_and!; try done. intros Hs. split; [done|].
      intros e. rewrite E3 by done. intros He. by exists e. }
  apply wp_bind, wp_effect; [apply Hw|]. intros p. cbn [on_ok].
  destruct (disk_step_good (A := unit) nobody w (edit_sparse id (ensure_len sz) (disk w)) p (faults w) (Ok tt) Hw) as [G1 F1].
  { apply Hstep; try done; [|by apply edit_file_wf, Hw|apply Hw]. intros id' Hne. cbn. unfold edit_file. by rewrite bt_get_insert, decide_False. }
  apply wp_bind, wp_effect; [apply G1|]. intros p'. cbn [on_ok].
  match goal with |- context [mkWorld ?d (mem ?w1) p' ?fs] => destruct (disk_step_good (A := unit) nobody _ d p' fs (Ok tt) G1) as [G2 F2] end.
  { apply Hstep; try done; [exact (ok_sparse _ _ _ _ _ _ (proj1 G1))|apply edit_file_wf; exact (ok_obao _ _ _ _ _ _ (proj1 G1))]. }
  eapply wp_mono; [|done|apply safe_txn with (X := nobody) (P := λ w2, bt_get (objects (index_db (disk w2))) id = None ∧
    ∃ e, bt_get (sparse_files (disk w2)) id = Some e ∧ sz <= blen e.2)].
  - intros r w3 G3. eapply good_trans; [apply _| |exact G3]. etransitivity; [exact F1|exact F2].
  - intros w2 a ix [Hd Hm] (En & e & He & Hle). rewrite En. intros Hix. apply (inj Ok), pair_eq in Hix as [_ <-]. cbn. split_and!.
    + pose proof Hd as [I1 I2 I3 I4 I5 I6 I7 I8]. constructor; try done.
      * by apply bt_insert_wf.
      * intros id' r. cbn. rewrite bt_get_insert. case_decide; [subst id'|apply I6]. intros Hr. apply (inj Some) in Hr as <-. split; [done|]. cbn.
        unfold sparse_ok. rewrite bits_empty. cbn [size]. split_and!; [done|done|by intros g Hg%has_nil|].
        intros ino f Hf. rewrite He in Hf. apply (inj Some) in Hf as ->. split; [exact Hle|]. intros d _ g Hg. by apply has_nil in Hg.
      * intros n m Hm'. change (dead m + live n (bt_insert id (mkRecord sz (ns_to_u8 ns) Sparse [] 0 now) (objects (index_db (disk w2)))) <= slab_len m).
        unfold live. rewrite bt_sum_insert, En by done. cbn. pose proof (I7 n m Hm') as H7. revert H7. unfold live. lia.
      * intros id'. cbn. rewrite bt_get_insert. rewrite I8. case_decide; [subst id'; rewrite En; done|done].
    + apply Hm.
    + intros id' _ _ r Hr. assert (id' ≠ id) by congruence. exists r. cbn. rewrite bt_get_insert, decide_False by done. split_and!; try done.
      intros Hs. split; [done|]. intros e' He'. by exists e'.
  - exact G2.
  - split; [exact Er|]. cbn. unfold edit_file. rewrite bt_get_insert, decide_True by done. eexists. split; [done|]. by apply blen_ensure_len.
Qed.

(** ** References, pins and holds *)

Lemma safe_ref_delta id n : safe (frame nobody) (ref_delta id n).
Proof. apply safe_bind; [apply _|by apply safe_update|]. intros. (apply safe_ret; apply _). Qed.

Lemma safe_pin id : safe (frame nobody) (pin id).
Proof.
  intros w Hw. unfold pin. apply wp_required. destruct (bt_get (objects _) id) as [r|]; [|by split]. cbn [option_wp]. destruct (negb _); [by split|].
  assert (safe (frame nobody) (update_record id (λ cur, if refcount cur =? 0 then set_refcount 1 cur else cur) ;; mret tt)) as Hs; [|by apply Hs].
  apply safe_bind; [apply _|apply safe_update|intros; (apply safe_ret; apply _)]. intros r'. by destruct (refcount r' =? 0).
Qed.

(** ** Eviction *)

(** Only unreferenced objects go that nothing guards and that are not the
    user's own files. *)
Definition evicting (w w' : World) : Prop := dropping (λ id r, evictable r = true ∧ guarded_id w id = false) w w'.

Lemma guarded_frame X w w' id : frame X w w' → guarded_id w' id = guarded_id w id.
Proof. intros [F1 F2 _ _]. unfold guarded_id. by rewrite F1, F2. Qed.

#[global] Instance evicting_preorder : PreOrder evicting.
Proof.
  split; [intros w; split; [done|apply shrunk_refl]|]. intros w1 w2 w3 [A1 A2] [B1 B2]. split; [by etransitivity|].
  eapply shrunk_trans; [|exact A2|].
  - intros id r n off n' off' Hl [H1 H2]. split; [|done]. unfold evictable in *. cbn in H1. by rewrite Hl.
  - destruct B2 as [B2 B3]. split; [done|]. intros id. specialize (B3 id). rewrite (guarded_frame _ _ _ _ A1) in B3. exact B3.
Qed.

Lemma safe_delete_if id : safe evicting (delete_if_unreferenced id).
Proof.
  intros w Hw. eapply wp_mono; [|done|by apply delete_if_unreferenced_spec]. intros [[rec|]|e] w' (H1 & F1 & HQ); [| |done].
  - destruct HQ as (Q1 & Q2 & Q3 & Q4). split; [done|]. split; [done|]. eapply deleted_shrunk; [done|exact Q1|done|done].
  - destruct HQ as (Q1 & Q2 & _). split; [done|]. split; [done|]. unfold shrunk. rewrite Q1. apply shrunk_refl.
Qed.

Lemma safe_reclaim_loop l : ∀ reserved freed, safe evicting (reclaim_loop l reserved freed).
Proof.
  induction l as [|[la [id u]] l IH]; intros reserved freed; cbn [reclaim_loop]; [(apply safe_ret; apply _)|]. destruct (_ <=? _); [(apply safe_ret; apply _)|].
  apply safe_bind; [apply _|apply safe_delete_if|]. intros [rec|]; apply IH.
Qed.

Lemma safe_evict_loop l : ∀ needed freed, safe evicting (evict_loop l needed freed).
Proof.
  induction l as [|[la id] l IH]; intros needed freed; cbn [evict_loop]; [(apply safe_ret; apply _)|]. destruct (_ <=? _); [(apply safe_ret; apply _)|].
  apply safe_bind; [apply _|apply safe_delete_if|]. intros a; apply IH.
Qed.

Lemma safe_evict_lru cfg n : safe evicting (evict_lru cfg n).
Proof.
  apply safe_bind; [apply _|(apply safe_gets; apply _)|]. intros c. apply safe_bind; [apply _|apply safe_evict_loop|]. intros f.
  apply safe_bind; [apply _| |intros; (apply safe_ret; apply _)]. eapply safe_mono; [|apply safe_compact]. intros w w'. apply compacting_dropping.
Qed.

Lemma safe_enforce_quota cfg q : safe evicting (enforce_quota cfg q).
Proof.
  apply safe_bind; [apply _| |].
  - apply safe_bind; [apply _|(apply safe_gets; apply _)|]. intros rows. cbv zeta. destruct (_ <=? _); [(apply safe_ret; apply _)|apply safe_reclaim_loop].
  - intros freed. apply safe_bind; [apply _|(apply safe_gets; apply _)|]. intros total. destruct (_ <? _); [|(apply safe_ret; apply _)].
    apply safe_bind; [apply _|apply safe_evict_lru|]. intros. (apply safe_ret; apply _).
Qed.

(** ** Revalidation *)

Lemma set_present_bits r b n : loc r = Sparse → GroupBits.wf b → groups_below n b → n <= u64_max → bits (set_present (GroupBits.to_wire b) r) = b.
Proof. intros Hl Hwf Hb Hn. unfold bits. cbn. rewrite Hl. by eapply bits_from_to_wire. Qed.

Lemma group_count_u64 n : n <= MAX_OBJECT_BYTES → group_count n <= u64_max.
Proof.
  intros H. unfold group_count, div_ceil, GROUP_BYTES. transitivity ((MAX_OBJECT_BYTES + 16384 - 1) / 16384); [|vm_compute; discriminate].
  apply Z.div_le_mono; lia.
Qed.

(** A smaller present set is as true as the larger one. *)
Lemma sparse_ok_subset sparse id r r' b : loc r = Sparse → loc r' = Sparse → size r' = size r → bits r' = b → GroupBits.wf b →
  (∀ g, GroupBits.mem b g → GroupBits.mem (bits r) g) → sparse_ok sparse id r → sparse_ok sparse id r'.
Proof.
  intros Hl Hl' Hs <- Hwf Hsub (S1 & S2 & S3 & S4). rewrite <- Hs in *. split_and!; [done|done|by intros g Hg; apply S3, Hsub|].
  intros ino f Hf. destruct (S4 ino f Hf) as [Q1 Q2]. split; [done|]. intros d Hd g Hg. apply Q2; [done|by apply Hsub].
Qed.

Lemma safe_revalidate_sparse cfg id rec : safe (frame nobody) (revalidate_sparse cfg id rec).
Proof.
  unfold revalidate_sparse. destruct (GroupBits.is_empty _); [(apply safe_ret; apply _)|]. apply safe_bind; [apply _| |].
  - apply safe_catch; [apply _|]. apply safe_bind; [apply _| |intros ob; apply safe_bind; [apply _| |intros; (apply safe_ret; apply _)]];
      (apply safe_bind; [apply _|(apply safe_gets; apply _)|]; intros; (apply safe_some_or; apply _)).
  - intros [[ob data]|e].
    2:{ destruct e; try ((apply safe_raise; apply _)). apply safe_bind; [apply _|apply safe_remove|]. intros. (apply safe_ret; apply _). }
    apply safe_bind; [apply _|(apply safe_lift; apply _)|]. intros valid. set (failed := GroupBits.added_in _ _).
    apply safe_bind; [apply _| |intros; (apply safe_ret; apply _)]. intros w Hw.
    eapply wp_mono; [|done|apply update_spec; [done|]].
    + intros [r|e] w'; cbn; by intros (H1 & H2 & _).
    + intros r Hr. split_and!; [done|done|]. intros Hl. pose proof (sparse_ok_of w id r Hw Hr Hl) as Hs. pose proof Hs as (S1 & S2 & S3 & _).
      destruct (removes_spec (GroupBits.ranges failed) (bits r) S2) as [W M]. eapply sparse_ok_subset; [exact Hl|exact Hl|done| |exact W| |exact Hs].
      * apply (set_present_bits r _ (group_count (size r))); [done|done| |by apply group_count_u64]. intros g Hg. apply S3. by apply M in Hg as [? _].
      * intros g Hg. by apply M in Hg as [? _].
Qed.

Lemma safe_read_slab n off sz : safe (frame nobody) (read_slab n off sz).
Proof. apply safe_bind; [apply _|(apply safe_gets; apply _)|]. intros f. apply safe_bind; [apply _|(apply safe_some_or; apply _)|]. intros. (apply safe_lift; apply _). Qed.

Lemma safe_revalidate cfg id : safe (frame (λ i, i = id)) (revalidate cfg id).
Proof.
  intros w Hw. unfold revalidate. apply wp_required. destruct (bt_get (objects (index_db (disk w))) id) as [rec|] eqn:Er; [|by split]. cbn [option_wp].
  destruct (loc rec) eqn:El.
  - by apply safe_frame, Hw; apply safe_revalidate_sparse.
  - apply safe_frame; [|done]. apply safe_bind; [apply _|apply safe_catch, safe_read_slab; apply _|]. intros r. destruct (match r with Ok bs => _ | Err _ => false end); [(apply safe_ret; apply _)|].
    apply safe_bind; [apply _|apply safe_catch, safe_remove; apply _|]. intros [u|e]; [(apply safe_ret; apply _)|]. apply safe_bind; [apply _|(apply safe_gets; apply _)|].
    intros [r'|]; [(apply safe_raise; apply _)|(apply safe_ret; apply _)].
  - apply wp_catch_bind. pose proof (matches_pure cfg id rec w) as [H1 H2]. unfold wp. destruct (extern_still_matches cfg id rec w) as [[b|e|] w'] eqn:Ew; cbn in H1; [subst w'..|by destruct (H2 w')].
    + destruct b; [by split|]. apply (wp_safe_then (frame (λ i, i = id)) (retire_extern id) _ w w); [done|apply safe_retire; [done|rewrite Er; cbn; by rewrite El]|]. intros. by split.
    + apply (wp_safe_then (frame (λ i, i = id)) (retire_extern id) _ w w); [done|apply safe_retire; [done|rewrite Er; cbn; by rewrite El]|]. intros. by split.
Qed.
End inv.
