(* ===== verification/StoreFlight.v ===== *)
(** * Verified writes in flight ([crates/epix-blob/src/store.rs])

    A verified write is a decode of a hostile stream between a [begin_write]
    and an [end_write] or [end_write_partial]; other operations run between
    them. Its leaves keep the sparse file true to the content, and what it is
    credited with at the end is exactly what its leaves covered. *)
From Stdlib Require Import ZArith Lia Strings.Byte.
From stdpp Require Import base list sorting strings relations.
From S2P Require Import Prelude Ordered Bitfield Store StoreInv.
#[local] Open Scope Z_scope.

Abbreviation nobody := (λ _ : ObjId, False).

(** ** Extents of a decode *)

Definition covered (es : list range) (x : Z) : Prop := Exists (λ e, e.1 <= x < e.2) es.

Lemma covered_app es es' x : covered (es ++ es') x ↔ covered es x ∨ covered es' x.
Proof. apply Exists_app. Qed.

Lemma covered_cons e es x : covered (e :: es) x ↔ e.1 <= x < e.2 ∨ covered es x.
Proof. apply Exists_cons. Qed.

Lemma covered_nil x : ¬ covered [] x.
Proof. by intros Hx%Exists_nil. Qed.

Lemma covered_one e x : covered [e] x ↔ e.1 <= x < e.2.
Proof. rewrite covered_cons. split; [by intros [?|?%covered_nil]|by left]. Qed.

Lemma track_covered written w x : covered (track written w) x → covered written x ∨ w.1 <= x < w.1 + blen w.2.
Proof.
  unfold track. destruct (Z.eqb_spec (blen w.2) 0); [by left|]. destruct (last written) as [l|] eqn:El.
  - apply last_Some in El as [l' ->]. destruct (Z.eqb_spec l.2 w.1) as [He|].
    + rewrite List.removelast_last, !covered_app, !covered_one. cbn. intros [?|?]; [tauto|]. destruct (decide (x < l.2)); [left; right; lia|right; lia].
    + rewrite covered_app, covered_one. cbn. tauto.
  - rewrite covered_one. cbn. tauto.
Qed.

Lemma tracks_covered writes : ∀ written x, covered (foldl track written writes) x →
  covered written x ∨ ∃ w, w ∈ writes ∧ w.1 <= x < w.1 + blen w.2.
Proof.
  induction writes as [|w l IH]; intros written x Hx; cbn [foldl] in Hx; [by left|]. apply IH in Hx as [Hx|(w' & Hin & Hw)].
  - apply track_covered in Hx as [Hx|Hx]; [by left|right]. exists w. split; [left|done].
  - right. exists w'. split; [by right|done].
Qed.

Lemma track_nonneg written w : Forall (λ e : range, 0 <= e.1) written → 0 <= w.1 → Forall (λ e : range, 0 <= e.1) (track written w).
Proof.
  intros Hf Hw. unfold track. destruct (_ =? 0); [done|]. destruct (last written) as [l|] eqn:El; [|by repeat constructor].
  apply last_Some in El as [l' ->]. apply Forall_app in Hf as [Hf Hl]. apply Forall_cons in Hl as [Hl _].
  destruct (_ =? _); [rewrite List.removelast_last|]; repeat (apply Forall_app; split); try done; repeat constructor; done.
Qed.

Lemma tracks_nonneg writes : ∀ written, Forall (λ e : range, 0 <= e.1) written → Forall (λ w : Z * bytes, 0 <= w.1) writes →
  Forall (λ e : range, 0 <= e.1) (foldl track written writes).
Proof.
  induction writes as [|w l IH]; intros written Hf Hw; cbn [foldl]; [done|]. apply Forall_cons in Hw as [Hw Hl]. apply IH; [by apply track_nonneg|done].
Qed.

(** Merging sorted extents changes nothing but their number. *)
Lemma merge_covered merged r x : covered (merge_extent merged r) x → covered merged x ∨ r.1 <= x < r.2.
Proof.
  unfold merge_extent. destruct (last merged) as [l|] eqn:El.
  - apply last_Some in El as [l' ->]. destruct (Z.leb_spec r.1 l.2).
    + rewrite List.removelast_last, !covered_app, !covered_one. cbn. intros [?|?]; [tauto|]. destruct (decide (x < l.2)); [left; right; lia|right; lia].
    + rewrite covered_app, covered_one. tauto.
  - rewrite covered_one. tauto.
Qed.

Lemma merges_covered rs : ∀ merged x, covered (foldl merge_extent merged rs) x → covered merged x ∨ covered rs x.
Proof.
  induction rs as [|r rs IH]; intros merged x Hx; cbn [foldl] in Hx; [by left|]. apply IH in Hx as [Hx|Hx].
  - rewrite covered_cons. apply merge_covered in Hx as [Hx|Hx]; tauto.
  - rewrite covered_cons. tauto.
Qed.

Lemma merge_nonneg merged r : Forall (λ e : range, 0 <= e.1) merged → 0 <= r.1 → Forall (λ e : range, 0 <= e.1) (merge_extent merged r).
Proof.
  intros Hf Hr. unfold merge_extent. destruct (last merged) as [l|] eqn:El; [|by repeat constructor].
  apply last_Some in El as [l' ->]. apply Forall_app in Hf as [Hf Hl]. apply Forall_cons in Hl as [Hl _].
  destruct (_ <=? _); [rewrite List.removelast_last|]; repeat (apply Forall_app; split); try done; repeat constructor; done.
Qed.

Lemma merges_nonneg rs : ∀ merged, Forall (λ e : range, 0 <= e.1) merged → Forall (λ e : range, 0 <= e.1) rs → Forall (λ e : range, 0 <= e.1) (foldl merge_extent merged rs).
Proof.
  induction rs as [|r rs IH]; intros merged Hf Hr; cbn [foldl]; [done|]. apply Forall_cons in Hr as [Hr Hl]. apply IH; [by apply merge_nonneg|done].
Qed.

(** Merged extents are apart, so that a run of covered bytes lies within one
    of them. *)
Definition apart : list range → Prop := StronglySorted (λ a b : range, a.2 < b.1).

Lemma apart_last merged l : apart (merged ++ [l]) ↔ apart merged ∧ Forall (λ e : range, e.2 < l.1) merged.
Proof.
  unfold apart. induction merged as [|e m IH]; cbn.
  - split; [intros _; split; constructor|]. intros _. apply SSorted_cons; constructor.
  - split.
    + intros [Hs Hf]%StronglySorted_inv. apply IH in Hs as [Hs Hl]. apply Forall_app in Hf as [Hf Hf']. apply Forall_cons in Hf' as [Hf' _]. split; constructor; done.
    + intros [[Hs Hf]%StronglySorted_inv [He Hl]%Forall_cons]. constructor; [by apply IH|]. apply Forall_app. split; [done|]. by apply Forall_singleton.
Qed.

Definition merge_inv (merged : list range) (lo : Z) : Prop := apart merged ∧ Forall (λ e : range, e.1 <= e.2 ∧ e.1 <= lo) merged.

Lemma merge_inv_step merged r : r.1 <= r.2 → merge_inv merged r.1 → merge_inv (merge_extent merged r) r.1 ∧
  ∀ x, covered merged x ∨ r.1 <= x < r.2 → covered (merge_extent merged r) x.
Proof.
  intros Hr [Ha Hf]. unfold merge_extent. destruct (last merged) as [l|] eqn:El.
  - apply last_Some in El as [m ->]. apply Forall_app in Hf as [Hf [Hl _]%Forall_cons]. apply apart_last in Ha as [Ha Hal]. destruct (Z.leb_spec r.1 l.2).
    + rewrite List.removelast_last. split; [split; [by apply apart_last|apply Forall_app; split; [done|apply Forall_singleton; cbn; lia]]|].
      intros x. rewrite !covered_app, !covered_one. cbn. intros [[?|?]|?]; [by left|right; lia|right; lia].
    + split; [split|].
      * apply apart_last. split; [by apply apart_last|]. apply Forall_app. split; [|by apply Forall_singleton]. eapply Forall_impl; [exact Hal|]. cbn. lia.
      * apply Forall_app. split; [by apply Forall_app; split; [|apply Forall_singleton]|]. apply Forall_singleton. lia.
      * intros x. rewrite !covered_app, !covered_one. tauto.
  - apply last_None in El as ->. split; [split; [by repeat constructor|apply Forall_singleton; lia]|]. intros x [Hx|Hx]; [by apply covered_nil in Hx|by apply covered_one].
Qed.

Lemma sort_fst_sorted (es : list range) : StronglySorted (λ a b : range, a.1 <= b.1) (sort_by (λ a b : range, a.1 ?= b.1) es).
Proof.
  apply (sort_by_sorted (λ a b : range, a.1 ?= b.1)); [intros; apply Z.compare_antisym|]. intros a b c. apply Z.le_trans.
Qed.

Lemma merges_apart rs : ∀ merged lo, merge_inv merged lo → Forall (λ r : range, r.1 <= r.2 ∧ lo <= r.1) rs → StronglySorted (λ a b : range, a.1 <= b.1) rs →
  apart (foldl merge_extent merged rs) ∧ ∀ x, covered merged x ∨ covered rs x → covered (foldl merge_extent merged rs) x.
Proof.
  induction rs as [|r rs IH]; intros merged lo Hm Hr Hs; cbn [foldl].
  { split; [apply Hm|]. intros x [?|Hx]; [done|by apply covered_nil in Hx]. }
  apply Forall_cons in Hr as [[Hr Hlo] Hrs]. apply StronglySorted_inv in Hs as [Hs Hf].
  assert (merge_inv merged r.1) as Hm1. { destruct Hm as [Ha Hg]. split; [done|]. eapply Forall_impl; [exact Hg|]. cbn. lia. }
  destruct (merge_inv_step merged r Hr Hm1) as [Hm2 Hc]. destruct (IH _ r.1 Hm2) as [Ha Hc']; [|done|].
  - rewrite Forall_forall in Hrs, Hf |- *. intros e He. specialize (Hrs e He). specialize (Hf e He). cbn in *. lia.
  - split; [done|]. intros x Hx. apply Hc'. rewrite covered_cons in Hx. destruct Hx as [?|[?|?]]; [left; apply Hc; by left|left; apply Hc; by right|by right].
Qed.

Lemma apart_within es lo hi : apart es → lo < hi → (∀ x, lo <= x < hi → covered es x) → ∃ e, e ∈ es ∧ e.1 <= lo ∧ hi <= e.2.
Proof.
  intros Ha Hlt. induction es as [|e es IH]; intros Hc; [by destruct (covered_nil lo); apply Hc; lia|].
  apply StronglySorted_inv in Ha as [Ha Hf]. rewrite Forall_forall in Hf.
  assert (∀ x, covered es x → e.2 < x) as Hgt. { intros x (e' & He' & Hx)%Exists_exists. specialize (Hf e' He'). cbn in Hf. lia. }
  setoid_rewrite covered_cons in Hc. destruct (Hc lo ltac:(lia)) as [Hlo|Hlo].
  - exists e. split; [by left|]. split; [lia|]. destruct (decide (hi <= e.2)) as [|Hn]; [done|]. destruct (Hc e.2 ltac:(lia)) as [?|?%Hgt]; lia.
  - apply Hgt in Hlo. destruct IH as (e' & He' & Hx); [done| |exists e'; split; [by right|done]]. intros x Hx. destruct (Hc x Hx); [lia|done].
Qed.

Lemma track_covers written w : Forall (λ e : range, e.1 <= e.2) written →
  Forall (λ e : range, e.1 <= e.2) (track written w) ∧ ∀ x, covered written x ∨ w.1 <= x < w.1 + blen w.2 → covered (track written w) x.
Proof.
  intros Hf. unfold track. pose proof (blen_nonneg w.2). destruct (Z.eqb_spec (blen w.2) 0); [split; [done|intros x [?|?]; [done|lia]]|].
  destruct (last written) as [l|] eqn:El.
  - apply last_Some in El as [l' ->]. pose proof Hf as [Hf' [Hl _]%Forall_cons]%Forall_app. destruct (Z.eqb_spec l.2 w.1) as [He|].
    + rewrite List.removelast_last. split; [apply Forall_app; split; [done|apply Forall_singleton; cbn; lia]|]. intros x. rewrite !covered_app, !covered_one. cbn.
      intros [[?|?]|?]; [by left|right; lia|right; lia].
    + split; [apply Forall_app; split; [done|apply Forall_singleton; cbn; lia]|]. intros x. rewrite !covered_app, !covered_one. cbn. tauto.
  - apply last_None in El as ->. split; [apply Forall_singleton; cbn; lia|]. intros x. rewrite covered_one. cbn. intros [Hx|?]; [by apply covered_nil in Hx|done].
Qed.

Lemma tracks_cover writes : ∀ written, Forall (λ e : range, e.1 <= e.2) written →
  Forall (λ e : range, e.1 <= e.2) (foldl track written writes) ∧
  ∀ x, covered written x ∨ (∃ w, w ∈ writes ∧ w.1 <= x < w.1 + blen w.2) → covered (foldl track written writes) x.
Proof.
  induction writes as [|w l IH]; intros written Hf; cbn [foldl].
  { split; [done|]. intros x [?|(w & Hw & _)]; [done|by apply elem_of_nil in Hw]. }
  destruct (track_covers written w Hf) as [Hf' Hc]. destruct (IH _ Hf') as [Hf'' Hc']. split; [done|]. intros x Hx. apply Hc'.
  destruct Hx as [?|(w' & [->|Hw']%elem_of_cons & Hx)]; [left; apply Hc; by left|left; apply Hc; by right|right; by exists w'].
Qed.

(** A group within an extent: all its bytes below the size are in it. *)
Definition group_within (size g : Z) (r : range) : Prop :=
  0 <= g < group_count size ∧ ∀ x, g * GROUP_BYTES <= x < (g + 1) * GROUP_BYTES → x < size → r.1 <= x < r.2.

Lemma div_ceil_le a b g : 0 < b → div_ceil a b <= g ↔ a <= g * b.
Proof.
  intros Hb. unfold div_ceil. pose proof (Z.div_mod (a + b - 1) b ltac:(lia)). pose proof (Z.mod_pos_bound (a + b - 1) b ltac:(lia)). split; nia.
Qed.

Lemma extent_groups_spec size b r : GroupBits.wf b → 0 <= r.1 → 0 <= size → r.2 <= size →
  GroupBits.wf (extent_groups size b r) ∧ ∀ g, GroupBits.mem (extent_groups size b r) g ↔ GroupBits.mem b g ∨ group_within size g r.
Proof.
  intros Hwf Hr Hs Hle. unfold extent_groups.
  set (first := div_ceil r.1 GROUP_BYTES). set (last_ := if size <=? r.2 then group_count size else r.2 / GROUP_BYTES).
  assert (0 < GROUP_BYTES) as HG by done.
  assert (0 <= first) as Hf0 by (unfold first, div_ceil; apply Z.div_pos; lia).
  assert (∀ g, group_within size g r ↔ first <= g < last_) as Hin.
  { intros g. unfold group_within, first. rewrite div_ceil_le by done. unfold last_, group_count.
    assert (∀ g, g < div_ceil size GROUP_BYTES ↔ g * GROUP_BYTES < size) as Hgc by (intros g'; pose proof (div_ceil_le size GROUP_BYTES g' HG); lia).
    rewrite Hgc. destruct (Z.leb_spec size r.2).
    - rewrite Hgc. split.
      + intros ([G0 G1] & H2). split; [|done]. destruct (H2 (g * GROUP_BYTES)); lia.
      + intros [G1 G2]. split; [nia|]. intros x Hx Hxs. lia.
    - pose proof (Z.div_mod r.2 GROUP_BYTES ltac:(lia)). pose proof (Z.mod_pos_bound r.2 GROUP_BYTES HG). split.
      + intros ([G0 G1] & H2). assert (r.1 <= g * GROUP_BYTES) by (destruct (H2 (g * GROUP_BYTES)); lia). split; [done|].
        assert ((g + 1) * GROUP_BYTES <= r.2); [|nia].
        destruct (decide ((g + 1) * GROUP_BYTES <= r.2)); [done|]. destruct (H2 (Z.max r.2 (g * GROUP_BYTES))); nia.
      + intros [G1 G2]. split; [nia|]. intros x Hx Hxs. nia. }
  destruct (Z.ltb_spec first last_).
  - destruct (GroupBits.add_spec b (first, last_) Hwf Hf0) as [W M]. split; [done|]. intros g. by rewrite M, Hin.
  - split; [done|]. intros g. rewrite Hin. split; [by left|]. intros [?|?]; [done|lia].
Qed.

Lemma extents_groups_spec size rs : 0 <= size → ∀ b, GroupBits.wf b → Forall (λ e : range, 0 <= e.1) rs → Forall (λ e : range, e.2 <= size) rs →
  GroupBits.wf (foldl (extent_groups size) b rs) ∧
  ∀ g, GroupBits.mem (foldl (extent_groups size) b rs) g ↔ GroupBits.mem b g ∨ Exists (group_within size g) rs.
Proof.
  intros Hs. induction rs as [|r rs IH]; intros b Hwf H0 H1; cbn [foldl].
  { split; [done|]. intros g. rewrite Exists_nil. tauto. }
  apply Forall_cons in H0 as [H0 H0'], H1 as [H1 H1']. destruct (extent_groups_spec size b r Hwf H0 Hs H1) as [W M].
  destruct (IH _ W H0' H1') as [W' M']. split; [done|]. intros g. rewrite M', M, Exists_cons. tauto.
Qed.

Lemma merge_bounded n merged r : Forall (λ e : range, e.2 <= n) merged → r.2 <= n → Forall (λ e : range, e.2 <= n) (merge_extent merged r).
Proof.
  intros Hf Hr. unfold merge_extent. destruct (last merged) as [l|] eqn:El; [|by repeat constructor].
  apply last_Some in El as [l' ->]. apply Forall_app in Hf as [Hf Hl]. apply Forall_cons in Hl as [Hl _].
  destruct (_ <=? _); [rewrite List.removelast_last|]; repeat (apply Forall_app; split); try done; repeat constructor; cbn; lia.
Qed.

Lemma merges_bounded n rs : ∀ merged, Forall (λ e : range, e.2 <= n) merged → Forall (λ e : range, e.2 <= n) rs → Forall (λ e : range, e.2 <= n) (foldl merge_extent merged rs).
Proof.
  induction rs as [|r rs IH]; intros merged Hf Hr; cbn [foldl]; [done|]. apply Forall_cons in Hr as [Hr Hl]. apply IH; [by apply merge_bounded|done].
Qed.

Lemma track_bounded n written w : Forall (λ e : range, e.2 <= n) written → w.1 + blen w.2 <= n → Forall (λ e : range, e.2 <= n) (track written w).
Proof.
  intros Hf Hw. unfold track. destruct (_ =? 0); [done|]. destruct (last written) as [l|] eqn:El; [|by repeat constructor].
  apply last_Some in El as [l' ->]. apply Forall_app in Hf as [Hf Hl]. apply Forall_cons in Hl as [Hl _].
  destruct (_ =? _); [rewrite List.removelast_last|]; repeat (apply Forall_app; split); try done; repeat constructor; done.
Qed.

Lemma tracks_bounded n writes : ∀ written, Forall (λ e : range, e.2 <= n) written → Forall (λ w : Z * bytes, w.1 + blen w.2 <= n) writes →
  Forall (λ e : range, e.2 <= n) (foldl track written writes).
Proof.
  induction writes as [|w l IH]; intros written Hf Hw; cbn [foldl]; [done|]. apply Forall_cons in Hw as [Hw Hl]. apply IH; [by apply track_bounded|done].
Qed.

(** The groups a decode is credited with: those written whole. *)
Definition written_whole (writes : list (Z * bytes)) (size g : Z) : Prop :=
  0 <= g < group_count size ∧ ∀ x, g * GROUP_BYTES <= x < (g + 1) * GROUP_BYTES → x < size → ∃ w, w ∈ writes ∧ w.1 <= x < w.1 + blen w.2.

Lemma group_start size g : g < group_count size → g * GROUP_BYTES < size.
Proof. intros Hg. unfold group_count in Hg. pose proof (div_ceil_le size GROUP_BYTES g ltac:(done)). lia. Qed.

Lemma landed_spec size writes : 0 <= size → Forall (λ w : Z * bytes, 0 <= w.1 ∧ w.1 + blen w.2 <= size) writes →
  let landed := fully_covered_groups (foldl track [] writes) size in
  GroupBits.wf landed ∧ ∀ g, GroupBits.mem landed g ↔ written_whole writes size g.
Proof.
  intros Hs Hw. cbv zeta. unfold fully_covered_groups. set (es := foldl track [] writes).
  assert (Forall (λ e : range, 0 <= e.1) es) as H0 by (apply tracks_nonneg; [constructor|eapply Forall_impl; [exact Hw|]; cbn; tauto]).
  assert (Forall (λ e : range, e.2 <= size) es) as H1 by (apply tracks_bounded; [constructor|eapply Forall_impl; [exact Hw|]; cbn; tauto]).
  destruct (tracks_cover writes [] (Forall_nil_2 _)) as [H2 Hcov]. fold es in H2, Hcov.
  set (ss := sort_by (λ a b : range, a.1 ?= b.1) es).
  assert (ss ≡ₚ es) as Hp by apply sort_by_perm.
  assert (StronglySorted (λ a b : range, a.1 <= b.1) ss) as Hsort by apply sort_fst_sorted.
  destruct (merges_apart ss [] 0) as [Hap Hmc]; [by split; [constructor|]| |done|].
  { rewrite Hp. rewrite Forall_forall in H0, H2 |- *. auto. }
  destruct (extents_groups_spec size (foldl merge_extent [] ss) Hs GroupBits.new GroupBits.wf_new) as [W M].
  - apply merges_nonneg; [constructor|by rewrite Hp].
  - apply merges_bounded; [constructor|by rewrite Hp].
  - split; [exact W|]. intros g. rewrite M. split.
    + intros [Hg|Hg]; [by apply has_nil in Hg|]. apply Exists_exists in Hg as (r & Hr & Hg & Hx). split; [done|].
      intros x Hx1 Hx2. assert (covered (foldl merge_extent [] ss) x) as Hc. { apply Exists_exists. exists r. split; [done|by apply Hx]. }
      apply merges_covered in Hc as [Hc|Hc]; [by apply covered_nil in Hc|]. unfold covered in Hc. rewrite Hp in Hc.
      apply tracks_covered in Hc as [Hc|Hc]; [by apply covered_nil in Hc|done].
    + intros [Hg Hx]. right. pose proof (group_start size g ltac:(lia)). destruct (apart_within _ (g * GROUP_BYTES) (Z.min ((g + 1) * GROUP_BYTES) size) Hap) as (e & He & Hlo & Hhi).
      * unfold GROUP_BYTES in *. lia.
      * intros x Hxr. apply Hmc. right. unfold covered. rewrite Hp. apply Hcov. right. apply Hx; lia.
      * apply Exists_exists. exists e. split; [done|]. split; [done|]. intros x Hx1 Hx2. lia.
Qed.

(** ** Decodes in flight *)

Section run.
Context `{B : Bao} `{L : !BaoLaws}.

(** What stays true of a decode under way while other operations run. *)
Definition flight_ok (w : World) (f : Flight) : Prop :=
  bt_contains (sparse_writers (mem w)) (f_id f) = true ∧
  Forall (λ r : range, 0 <= r.1 ∧ r.2 <= f_size f) (f_ranges f) ∧
  ∃ r, bt_get (objects (index_db (disk w))) (f_id f) = Some r ∧ size r = f_size f ∧
    (loc r = Sparse → ∀ e, bt_get (sparse_files (disk w)) (f_id f) = Some e → e.1 = f_data f).

Lemma flight_protected w w' f : flight_ok w f → protected (f_id f) (disk w) (disk w') →
  bt_contains (sparse_writers (mem w')) (f_id f) = true → flight_ok w' f.
Proof.
  intros (H1 & H2 & r & Hr & Hs & Hi) Hp Hc. split_and!; [done|done|]. destruct (Hp r Hr) as (r' & Hr' & Hs' & Hl').
  exists r'. split_and!; [done|congruence|]. intros Hl e' He'. destruct (Hl' Hl) as [Hl0 He0]. destruct (He0 e' He') as (e & He & <-). by apply Hi.
Qed.

Lemma flight_frame X w w' f : ¬ X (f_id f) → frame X w w' → flight_ok w f → flight_ok w' f.
Proof.
  intros HX [F1 _ _ F4] Hf. pose proof Hf as [Hc _]. eapply flight_protected; [done|by apply F4|by rewrite F1].
Qed.

Lemma agree_write_at pos buf f d lo hi : 0 <= pos → 0 <= lo → hi <= blen f → slice d pos (pos + blen buf) = Some buf →
  agree f d lo hi → agree (write_at pos buf f) d lo hi.
Proof.
  intros Hp Hlo Hhi Hs Ha x Hx. rewrite write_at_lookup by lia. destruct (Z.leb_spec pos x), (Z.ltb_spec x (pos + blen buf)); cbn; try by apply Ha.
  by apply (slice_lookup d buf pos (pos + blen buf)).
Qed.

Lemma agree_written pos buf f d : 0 <= pos → slice d pos (pos + blen buf) = Some buf → agree (write_at pos buf f) d pos (pos + blen buf).
Proof.
  intros Hp Hs x Hx. rewrite write_at_lookup by lia. rewrite (proj2 (Z.leb_le pos x)), (proj2 (Z.ltb_lt x _)) by lia. cbn.
  by apply (slice_lookup d buf pos (pos + blen buf)).
Qed.

(** A verified leaf of the decode. *)
Definition leaf_ok (f : Flight) (w : Z * bytes) : Prop :=
  0 <= w.1 ∧ w.1 + blen w.2 <= f_size f ∧ ∀ d, authentic (f_id f) (f_size f) d → slice d w.1 (w.1 + blen w.2) = Some w.2.

Lemma via_inode_get id ino f files k : bt_get (via_inode id ino f files) k =
  if decide (k = id) then (λ e, if e.1 =? ino then (e.1, f e.2) else e) <$> bt_get files id else bt_get files k.
Proof.
  unfold via_inode. destruct (bt_get files id) as [e|] eqn:E.
  - destruct (Z.eqb_spec e.1 ino) as [<-|].
    + rewrite bt_get_insert. cbn. rewrite Z.eqb_refl. repeat case_decide; done || congruence.
    + cbn. rewrite (proj2 (Z.eqb_neq _ _)) by done. case_decide; [by subst|done].
  - case_decide; [by subst|done].
Qed.

Lemma via_inode_wf id ino f files : bt_wf files → bt_wf (via_inode id ino f files).
Proof. intros Hwf. unfold via_inode. destruct (bt_get _ _) as [e|]; [|done]. destruct (_ =? _); [by apply bt_insert_wf|done]. Qed.

(** One leaf reaches the file. *)
Lemma leaf_step w f lf : inv w → flight_ok w f → leaf_ok f lf →
  disk_step nobody w (with_sparse (via_inode (f_id f) (f_data f) (write_at lf.1 lf.2)) (disk w)).
Proof.
  intros [Hd Hm] (Hc & Hrs & r & Hr & Hsz & Hi) (L1 & L2 & L3). split_and!.
  - eapply tables_sparse; [exact Hd|apply via_inode_wf, Hd|apply Hd|]. intros id' r' Hr' Hl' (S1 & S2 & S3 & S4). cbn in Hr'. split_and!; try done.
    intros ino g. cbn. rewrite via_inode_get. case_decide as D; [subst id'|apply S4]. assert (r' = r) as -> by congruence.
    intros ([ino0 g0] & He & Heq)%fmap_Some. cbn in Heq. pose proof (Hi Hl' _ He) as Hino. cbn in Hino. subst ino0.
    rewrite Z.eqb_refl in Heq. apply pair_eq in Heq as [-> ->]. destruct (S4 _ _ He) as [Q1 Q2]. split.
    + rewrite blen_write_at by done. lia.
    + intros d Hau j Hj. pose proof (proj1 (S3 j Hj)). apply agree_write_at; [done|unfold GROUP_BYTES in *; lia|lia| |by apply Q2].
      apply L3. by rewrite <- Hsz.
  - apply Hm.
  - intros id' _ _ r' Hr'. exists r'. split_and!; try done. intros Hl'. split; [done|]. intros e'. cbn. rewrite via_inode_get.
    case_decide; [subst id'|by eauto]. intros (e & He & ->)%fmap_Some. exists e. split; [done|]. by destruct (e.1 =? f_data f).
Qed.

(** What the leaves written so far have put in the file. *)
Definition holds_leaves (f : Flight) (leaves : list (Z * bytes)) (w : World) : Prop :=
  ∀ r, bt_get (objects (index_db (disk w))) (f_id f) = Some r → loc r = Sparse → ∀ e, bt_get (sparse_files (disk w)) (f_id f) = Some e →
    f_size f <= blen e.2 ∧ ∀ d, authentic (f_id f) (f_size f) d → ∀ lf, lf ∈ leaves → agree e.2 d lf.1 (lf.1 + blen lf.2).

Lemma leaves_spec f done_ l : ∀ w, inv w → flight_ok w f → Forall (leaf_ok f) done_ → Forall (leaf_ok f) l → holds_leaves f done_ w →
  wp (for_each l (λ w, effect (with_sparse (via_inode (f_id f) (f_data f) (write_at w.1 w.2)))))
    (on_ok (λ _ w', inv w' ∧ frame nobody w w' ∧ index_db (disk w') = index_db (disk w) ∧ mem w' = mem w ∧ flight_ok w' f ∧ holds_leaves f (done_ ++ l) w') (λ _ _, False)) dinv w.
Proof.
  revert done_. induction l as [|lf l IH]; intros done_ w Hw Hf Hd Hl Hh; cbn [for_each].
  { rewrite app_nil_r. by split_and!. }
  apply Forall_cons in Hl as [Hlf Hl]. apply wp_bind, wp_effect; [apply Hw|]. intros p. cbn [on_ok].
  pose proof (leaf_step w f lf Hw Hf Hlf) as Hstep. destruct (disk_step_good (A := unit) nobody w _ p (faults w) (Ok tt) Hw Hstep) as [G1 G2].
  match goal with |- wp _ _ _ ?w1 => set (w1' := w1) end. pose proof (flight_frame nobody w w1' f (λ H, H) G2 Hf) as Hf1.
  eapply wp_mono; [| |apply (IH (done_ ++ [lf])); [exact G1|exact Hf1|apply Forall_app; split; [done|by apply Forall_singleton]|done|]]; [|done|].
  - intros [[]|e] w2; cbn [on_ok]; [|done]. intros (I2 & F2 & E2 & M2 & Hf2 & H2). rewrite <- app_assoc in H2.
    split_and!; [done|by etransitivity|by rewrite E2|by rewrite M2|done|done].
  - intros r Hr Hsp e He. cbn in Hr, He. rewrite via_inode_get, decide_True in He by done. apply fmap_Some in He as (e0 & He0 & ->).
    destruct (Hh r Hr Hsp e0 He0) as [Q1 Q2]. destruct Hf as (_ & _ & r0 & Hr0 & Hs0 & Hi0). assert (r0 = r) as -> by congruence.
    rewrite (Hi0 Hsp e0 He0), Z.eqb_refl. cbn. destruct Hlf as (L1 & L2 & L3). split; [rewrite blen_write_at by done; lia|].
    intros d Hau lf' [Hin|Hin]%elem_of_app.
    + rewrite Forall_forall in Hd. destruct (Hd lf' Hin) as (D1 & D2 & _). apply agree_write_at; [done|done|lia|by apply L3|by apply Q2].
    + apply list_elem_of_singleton in Hin as ->. apply agree_written; [done|by apply L3].
Qed.

Lemma holds_none w f : inv w → flight_ok w f → holds_leaves f [] w.
Proof.
  intros Hw (_ & _ & r & Hr & Hs & _) r' Hr' Hl [ino g] He. assert (r' = r) as -> by congruence.
  destruct (sparse_ok_of w _ _ Hw Hr Hl) as (_ & _ & _ & S4). destruct (S4 _ _ He) as [Q _]. cbn. split; [lia|]. intros d _ lf Hin. by apply elem_of_nil in Hin.
Qed.

(** The decode of a stream that may be hostile. *)
Lemma decode_spec f enc w : inv w → flight_ok w f →
  wp (decode_flight f enc) (on_ok (λ out w', inv w' ∧ frame nobody w w' ∧ mem w' = mem w ∧ index_db (disk w') = index_db (disk w) ∧ flight_ok w' f ∧
      Forall (leaf_ok f) out.1 ∧ holds_leaves f out.1 w' ∧
      (out.2 = Ok () → ∀ c x, chunk_has (Verified.chunk_ranges (f_ranges f)) c → 0 <= x → c * CHUNK <= x < (c + 1) * CHUNK → x < f_size f →
         ∃ lf, lf ∈ out.1 ∧ lf.1 <= x < lf.1 + blen lf.2)) (λ _ _, False)) dinv w.
Proof.
  intros Hw Hf. unfold decode_flight. apply wp_gets. set (ob := default [] _). unfold Verified.decode_slice_into.
  pose proof (decode_verified enc (f_id f) (f_size f) (Verified.chunk_ranges (f_ranges f)) ob) as Hv.
  pose proof (decode_complete enc (f_id f) (f_size f) (Verified.chunk_ranges (f_ranges f)) ob) as Hcomp.
  destruct (bao_decode _ _ _ _ ob) as [[writes ob'] ok]. cbn in Hv, Hcomp.
  assert (Forall (leaf_ok f) writes) as Hl by (apply Forall_forall; intros [p b] Hin; exact (Hv p b Hin)).
  apply wp_bind. eapply wp_mono; [| |apply (leaves_spec f [] writes w Hw Hf (Forall_nil_2 _) Hl (holds_none w f Hw Hf))]; [|done].
  intros [[]|e] w1; cbn [on_ok]; [|done]. intros (I1 & F1 & E1 & M1 & Hf1 & H1). cbn [app] in H1.
  apply wp_bind, wp_effect; [apply I1|]. intros p. cbn [on_ok].
  destruct (disk_step_good (A := unit) nobody w1 (with_obao (via_inode (f_id f) (f_obao f) (λ _, ob')) (disk w1)) p (faults w1) (Ok tt) I1) as [G1 G2].
  { apply disk_step_frame_same; try done. apply via_inode_wf, I1. }
  split_and!; [exact G1|etransitivity; [exact F1|exact G2]|done|done|apply (flight_frame nobody w1 _ f (λ H, H) G2 Hf1)|done|done|]. cbn. intros Hok c x Hc Hx0 Hx Hs.
  destruct (Hcomp Hok c x Hc Hx0 Hx Hs) as (pos & buf & Hin & Hp). by exists (pos, buf).
Qed.

(** The record after groups were added: true, if the file holds them. *)
Lemma add_groups_bits gs now r : loc r = Sparse → GroupBits.wf (bits r) → groups_below (group_count (size r)) (bits r) → size r <= MAX_OBJECT_BYTES →
  Forall (λ g : range, 0 <= g.1) gs → (∀ g, has gs g → g < group_count (size r)) →
  bits (add_groups gs now r) = foldl GroupBits.add (bits r) gs.
Proof.
  intros Hl Hwf Hb Hs H0 Hlt. destruct (adds_spec gs (bits r) Hwf H0) as [W M]. unfold add_groups.
  change (bits (stamp now ?r)) with (bits r). apply (set_present_bits r _ (group_count (size r))); [done|done| |by apply group_count_u64].
  intros g Hg. apply M in Hg as [Hg|Hg]; [by apply Hb|]. split; [|by apply Hlt].
  unfold has in Hg. apply Exists_exists in Hg as (rg & Hin & [Hr _]). rewrite Forall_forall in H0. specialize (H0 rg Hin). cbn in H0. lia.
Qed.

(** Crediting a decode: every credited group was written whole by verified
    leaves. *)
Lemma credit_spec f leaves gs now w : inv w → flight_ok w f → Forall (leaf_ok f) leaves → holds_leaves f leaves w →
  Forall (λ g : range, 0 <= g.1) gs → (∀ g, has gs g → written_whole leaves (f_size f) g) →
  wp (update_record (f_id f) (add_groups gs now)) (on_ok (λ _ w', inv w' ∧ frame nobody w w' ∧ mem w' = mem w ∧
      ∃ r, bt_get (objects (index_db (disk w))) (f_id f) = Some r ∧
        disk w' = with_index (with_objects (bt_insert (f_id f) (add_groups gs now r)) (index_db (disk w))) (disk w) ∧
        (loc r = Sparse → ∀ g, GroupBits.mem (bits (add_groups gs now r)) g ↔ GroupBits.mem (bits r) g ∨ has gs g)) (λ _ _, False)) dinv w.
Proof.
  intros Hw Hf Hl Hh H0 Hg. pose proof Hf as (_ & _ & r & Hr & Hsz & _).
  assert (loc r = Sparse → bits (add_groups gs now r) = foldl GroupBits.add (bits r) gs ∧ sparse_ok (sparse_files (disk w)) (f_id f) (add_groups gs now r) ∧
     ∀ g, GroupBits.mem (bits (add_groups gs now r)) g ↔ GroupBits.mem (bits r) g ∨ has gs g) as Hsp.
  { intros Hloc. pose proof (sparse_ok_of w _ r Hw Hr Hloc) as (S1 & S2 & S3 & S4). destruct (adds_spec gs (bits r) S2 H0) as [W M].
    assert (bits (add_groups gs now r) = foldl GroupBits.add (bits r) gs) as Hb.
    { apply add_groups_bits; try done. intros g Hin. rewrite Hsz. by apply (Hg g Hin). }
    rewrite <- Hb in W, M. split; [done|]. split; [|exact M]. split_and!; [done|done| |].
    - intros g Hin. apply M in Hin as [Hin|Hin]; [by apply S3|]. cbn. rewrite Hsz. by apply (Hg g Hin).
    - intros ino file He. destruct (S4 ino file He) as [Q1 Q2]. split; [done|]. cbn. intros d Hau g Hin x Hx. apply M in Hin as [Hin|Hin]; [by apply (Q2 d Hau g Hin)|].
      destruct (Hg g Hin) as [_ Hcov]. rewrite Hsz in *. destruct (Hcov x) as (lf & Hlf & Hxl); [lia|lia|]. destruct (Hh r Hr Hloc _ He) as [_ Ha].
      by apply (Ha d Hau lf Hlf). }
  eapply wp_mono; [|done|apply update_spec; [done|]].
  - intros [r'|e] w'; cbn [on_ok].
    + intros (I1 & F1 & r0 & Hr0 & -> & Hm & Hd). assert (r0 = r) as -> by congruence. split_and!; [done|done|done|]. exists r.
      split_and!; [done|done|]. intros Hloc. by apply Hsp.
    + intros (_ & _ & _ & _ & Hn). congruence.
  - intros r0 Hr0. assert (r0 = r) as -> by congruence. split_and!; [done|done|]. intros Hloc. by apply Hsp.
Qed.

Lemma chunk_ranges_has rs : ∀ c, chunk_has (Verified.chunk_ranges rs) c ↔ Exists (λ r : range, r.1 < r.2 ∧
  r.1 / GROUP_BYTES * CHUNKS_PER_GROUP <= c < div_ceil r.2 GROUP_BYTES * CHUNKS_PER_GROUP) rs.
Proof.
  intros c. unfold Verified.chunk_ranges. transitivity (chunk_has cr_empty c ∨ Exists (λ r : range, r.1 < r.2 ∧
    r.1 / GROUP_BYTES * CHUNKS_PER_GROUP <= c < div_ceil r.2 GROUP_BYTES * CHUNKS_PER_GROUP) rs); [|rewrite cr_empty_has; tauto].
  generalize cr_empty. induction rs as [|r rs IH]; intros s; cbn [foldl].
  - rewrite Exists_nil. tauto.
  - rewrite IH, Exists_cons. destruct (Z.leb_spec r.2 r.1).
    + split; [tauto|]. intros [?|[[? _]|?]]; [by left|lia|by right].
    + rewrite cr_union_has, cr_of_has. unfold in_range. cbn. tauto.
Qed.

(** A group asked for is decoded whole. *)
Lemma asked_whole f leaves g : Forall (λ r : range, 0 <= r.1 ∧ r.2 <= f_size f) (f_ranges f) →
  (∀ c x, chunk_has (Verified.chunk_ranges (f_ranges f)) c → 0 <= x → c * CHUNK <= x < (c + 1) * CHUNK → x < f_size f → ∃ lf, lf ∈ leaves ∧ lf.1 <= x < lf.1 + blen lf.2) →
  has (map groups_for_bytes (f_ranges f)) g → written_whole leaves (f_size f) g.
Proof.
  intros Hrs Hc Hg. unfold has in Hg. apply Exists_exists in Hg as (gr & Hin & Hg). apply list_elem_of_In, List.in_map_iff in Hin as (r & <- & Hin%list_elem_of_In).
  rewrite Forall_forall in Hrs. destruct (Hrs r Hin) as [H0 Hle]. unfold groups_for_bytes in Hg. destruct (Z.leb_spec r.2 r.1); [unfold in_range in Hg; cbn in Hg; lia|].
  unfold in_range in Hg. cbn in Hg. assert (0 <= r.1 / GROUP_BYTES) by (apply Z.div_pos; [lia|done]).
  assert (g < group_count (f_size f)) as Hgc.
  { pose proof (div_ceil_le r.2 GROUP_BYTES g ltac:(done)). pose proof (div_ceil_le (f_size f) GROUP_BYTES g ltac:(done)). unfold group_count. lia. }
  split; [lia|]. intros x Hx Hs. apply (Hc (x / CHUNK) x).
  - apply chunk_ranges_has, Exists_exists. exists r. split; [done|]. split; [done|].
    assert (CHUNKS_PER_GROUP = 16 ∧ GROUP_BYTES = 16384 ∧ CHUNK = 1024) as (E1 & E2 & E3) by done. rewrite E1, E2, E3 in *.
    pose proof (Z.div_mod x 1024 ltac:(lia)). pose proof (Z.mod_pos_bound x 1024 ltac:(lia)). lia.
  - assert (GROUP_BYTES = 16384) by done. lia.
  - assert (CHUNK = 1024) as E3 by done. rewrite E3. pose proof (Z.div_mod x 1024 ltac:(lia)). pose proof (Z.mod_pos_bound x 1024 ltac:(lia)). lia.
  - done.
Qed.

Lemma groups_for_bytes_nonneg f : Forall (λ r : range, 0 <= r.1 ∧ r.2 <= f_size f) (f_ranges f) → Forall (λ g : range, 0 <= g.1) (map groups_for_bytes (f_ranges f)).
Proof.
  rewrite !Forall_forall. intros Hf g Hin. apply list_elem_of_In, List.in_map_iff in Hin as (r & <- & Hin%list_elem_of_In). destruct (Hf r Hin) as [H0 _].
  unfold groups_for_bytes. destruct (_ <=? _); cbn; [lia|]. by apply Z.div_pos.
Qed.

(** How a decode ends: its guard goes, and the record gains groups. *)
Definition write_ended (f : Flight) (gained : Z → Prop) (w w' : World) : Prop :=
  ∃ w1, inv w1 ∧ frame nobody w w1 ∧ w' = unregistered (f_id f) w1 ∧
  ∀ id, match bt_get (objects (index_db (disk w))) id with
        | Some r => ∃ r', bt_get (objects (index_db (disk w'))) id = Some r' ∧ loc r' = loc r ∧ size r' = size r ∧
            (id ≠ f_id f → r' = r) ∧ (id = f_id f → loc r = Sparse → ∀ g, GroupBits.mem (bits r') g ↔ GroupBits.mem (bits r) g ∨ gained g)
        | None => bt_get (objects (index_db (disk w'))) id = None
        end.

Lemma write_ended_inv f gained w w' : write_ended f gained w w' → inv w'.
Proof. intros (w1 & H1 & _ & -> & _). by apply inv_unregistered. Qed.

Lemma ended_same f w w1 : inv w1 → frame nobody w w1 → index_db (disk w1) = index_db (disk w) → write_ended f (λ _, False) w (unregistered (f_id f) w1).
Proof.
  intros Hw F E. exists w1. split_and!; try done. intros id. cbn. rewrite E. destruct (bt_get _ id) as [r|]; [|done]. exists r. split_and!; try done. tauto.
Qed.

Lemma ended_credit f gained gs now w w1 w2 r : inv w2 → frame nobody w w2 → index_db (disk w1) = index_db (disk w) →
  bt_get (objects (index_db (disk w1))) (f_id f) = Some r →
  disk w2 = with_index (with_objects (bt_insert (f_id f) (add_groups gs now r)) (index_db (disk w1))) (disk w1) →
  (loc r = Sparse → ∀ g, GroupBits.mem (bits (add_groups gs now r)) g ↔ GroupBits.mem (bits r) g ∨ gained g) →
  write_ended f gained w (unregistered (f_id f) w2).
Proof.
  intros Hw F E Hr Hd Hg. exists w2. split_and!; try done. intros id. cbn. rewrite Hd. cbn. rewrite <- E, bt_get_insert. case_decide as D.
  - subst id. rewrite Hr. eexists. split_and!; [done|done|done|done|]. intros _. exact Hg.
  - destruct (bt_get _ id) as [r0|]; [|done]. exists r0. by split_and!.
Qed.

Lemma end_write_spec f enc now w : inv w → flight_ok w f →
  wp (end_write f enc now) (λ r w', write_ended f (match r with Ok _ => has (map groups_for_bytes (f_ranges f)) | Err _ => λ _, False end) w w') dinv w.
Proof.
  intros Hw Hf. unfold end_write. apply wp_guarded, wp_bind. eapply wp_mono; [|done|by apply decode_spec]. intros [[leaves ok]|e] w1; cbn [on_ok]; [|done].
  intros (I1 & F1 & M1 & E1 & Hf1 & Hl & Hh & Hc). cbn in Hc. destruct ok as [[]|]; [|by apply ended_same]. pose proof Hf1 as (_ & Hrs & _).
  apply wp_bind. eapply wp_mono; [|done|apply (credit_spec f leaves); [done|done|done|done|by apply groups_for_bytes_nonneg|]].
  - intros [r'|e] w2; cbn [on_ok]; [|done]. intros (I2 & F2 & M2 & r & Hr & Hd & Hg). eapply ended_credit; [done|etransitivity; [exact F1|exact F2]|exact E1|exact Hr|exact Hd|exact Hg].
  - intros g Hg. apply asked_whole; [done|by apply Hc|done].
Qed.

Lemma wf_from_nonneg rs : ∀ lo, 0 <= lo → wf_from lo rs → Forall (λ r : range, 0 <= r.1) rs.
Proof.
  induction rs as [|[s e] rs IH]; intros lo H0 Hwf; constructor; destruct Hwf as (H1 & H2 & Hwf); [cbn; lia|]. apply (IH (e + 1)); [lia|done].
Qed.

(** What a partial decode was worth: the bytes of its whole groups, and on a
    success every group asked for is one of them. *)
Lemma end_write_partial_spec f enc now w : inv w → flight_ok w f →
  let asked leaves := ∀ g, has (map groups_for_bytes (f_ranges f)) g → written_whole leaves (f_size f) g in
  wp (end_write_partial f enc now) (λ r w', ∃ leaves, Forall (leaf_ok f) leaves ∧ write_ended f (written_whole leaves (f_size f)) w w' ∧
    match r with Ok held => held = foldr Z.add 0 (map (group_bytes (f_size f)) (GroupBits.ranges (fully_covered_groups (foldl track [] leaves) (f_size f)))) ∧ asked leaves | Err _ => True end) dinv w.
Proof.
  intros Hw Hf asked. unfold end_write_partial. apply wp_guarded, wp_bind. eapply wp_mono; [|done|by apply decode_spec]. intros [[leaves ok]|e] w1; cbn [on_ok]; [|done].
  intros (I1 & F1 & M1 & E1 & Hf1 & Hl & Hh & Hc). cbn in Hl, Hh, Hc. cbv zeta. pose proof Hf1 as (_ & Hrs & r0 & Hr0 & Hs0 & _).
  assert (ok = Ok () → asked leaves) as Hask by (intros E g; apply asked_whole; [done|by apply Hc]).
  assert (0 <= f_size f) as Hsz by (rewrite <- Hs0; by eapply size_nonneg).
  destruct (landed_spec (f_size f) leaves Hsz) as [W M]. { eapply Forall_impl; [exact Hl|]. intros lf (? & ? & _). by split. }
  set (landed := fully_covered_groups _ _) in *.
  set (held := foldr Z.add 0 (map (group_bytes (f_size f)) (GroupBits.ranges landed))).
  assert (∀ w2, write_ended f (written_whole leaves (f_size f)) w (unregistered (f_id f) w2) →
    wp (match ok with Err e => raise e | Ok _ => mret held end) (λ r w', ∃ leaves, Forall (leaf_ok f) leaves ∧
     write_ended f (written_whole leaves (f_size f)) w (unregistered (f_id f) w') ∧
     match r with Ok held => held = foldr Z.add 0 (map (group_bytes (f_size f)) (GroupBits.ranges (fully_covered_groups (foldl track [] leaves) (f_size f)))) ∧ asked leaves | Err _ => True end) dinv w2) as Hlast.
  { intros w2 H2. destruct ok as [[]|]; exists leaves; split_and!; auto; done. }
  destruct (GroupBits.is_empty landed) eqn:Em.
  - apply wp_ret_bind, Hlast. destruct (ended_same f w w1 I1 F1 E1) as (w2 & H1 & H2 & H3 & H4). exists w2. split_and!; try done.
    assert (∀ g, ¬ written_whole leaves (f_size f) g) as Hno.
    { intros g Hg. apply M in Hg. unfold GroupBits.is_empty in Em. unfold GroupBits.mem in Hg. destruct (GroupBits.runs landed); [by apply has_nil in Hg|done]. }
    intros id. specialize (H4 id). destruct (bt_get _ id) as [r|]; [|done]. destruct H4 as (r' & ? & ? & ? & ? & Hg). exists r'. split_and!; try done.
    intros Hid Hloc g. rewrite (Hg Hid Hloc). pose proof (Hno g). tauto.
  - apply wp_assoc, wp_bind. eapply wp_mono; [|done|apply (credit_spec f leaves); [done|done|done|done| |]].
    + intros [r'|e] w2; cbn [on_ok]; [|done]. intros (I2 & F2 & M2 & r & Hr & Hd & Hg). apply wp_ret_bind, Hlast.
      eapply ended_credit; [done|etransitivity; [exact F1|exact F2]|exact E1|exact Hr|exact Hd|]. intros Hloc g. rewrite (Hg Hloc). by rewrite <- M.
    + by apply (wf_from_nonneg _ 0).
    + intros g Hg. by apply M.
Qed.

Lemma open_flight_pure id rs w : (open_flight id rs w).2 = w ∧ ∀ w', open_flight id rs w ≠ (Crash, w').
Proof.
  unfold open_flight, required, get_record, get_index, gets, read_sparse, read_obao, some_or, mbind, M_bind.
  destruct (bt_get (objects _) id) as [r|]; [|by split]. cbn. destruct (loc r); try by split. destruct (existsb _ _); [by split|].
  destruct (bt_get (sparse_files _) id); [|by split]. cbn. destruct (bt_get (obao_files _) id); by split.
Qed.

Lemma begin_write_spec id rs w : inv w → Forall (λ r : range, 0 <= r.1) rs →
  wp (begin_write id rs) (on_ok (λ f w', w' = registered id w ∧ f_id f = id ∧ f_ranges f = rs ∧ flight_ok w' f) (λ _ w', w' = w)) dinv w.
Proof.
  intros Hw Hrs. unfold begin_write. change (wp (r ← catch (open_flight id rs); match r with Ok f => mret f | Err e => unregister id ;; raise e end)
    (on_ok (λ f w', w' = registered id w ∧ f_id f = id ∧ f_ranges f = rs ∧ flight_ok w' f) (λ _ w', w' = w)) dinv (registered id w)).
  apply wp_catch_bind. pose proof (open_flight_pure id rs (registered id w)) as [H1 H2]. unfold wp at 1.
  destruct (open_flight id rs (registered id w)) as [[f|e|] w'] eqn:E; cbn in H1; [subst w'|subst w'|by destruct (H2 w')].
  - cbn. unfold open_flight, required, get_record, get_index, gets, read_sparse, read_obao, some_or, mbind, M_bind in E. cbn in E.
    destruct (bt_get (objects _) id) as [r|] eqn:Er; [|done]. cbn in E. destruct (loc r) eqn:El; try done. destruct (existsb _ _) eqn:Ex; [done|].
    destruct (bt_get (sparse_files _) id) as [[ino file]|] eqn:Es; [|done]. cbn in E. destruct (bt_get (obao_files _) id) as [ob|]; [|done]. cbn in E.
    assert (f = mkFlight id (size r) rs ino ob.1) as -> by (by inversion E). split_and!; [done|done|done|]. split_and!.
    + unfold registered. cbn. apply bt_contains_spec. unfold count_up. rewrite bt_get_upsert, decide_True by done. by eexists.
    + rewrite Forall_forall in Hrs |- *. intros rg Hin. split; [by apply Hrs|]. cbn. destruct (Z.ltb_spec (size r) rg.2) as [Hlt|]; [|done].
      assert (existsb (λ r0 : range, size r <? r0.2) rs = true) as Hex; [|congruence]. apply existsb_exists. exists rg. split; [by apply list_elem_of_In|by apply Z.ltb_lt].
    + exists r. cbn. split_and!; [done|done|]. intros _ e0 He0. cbn in Es. rewrite Es in He0. by apply (inj Some) in He0 as <-.
  - change (unregistered id (registered id w) = w). unfold unregistered, registered. cbn. destruct Hw as [_ [_ Hc _]]. rewrite counts_up_down by done. by destruct w as [d [? ? ?] ? ?].
Qed.


End run.
