(* ===== verification/StoreRun.v ===== *)
(** * Runs of the store ([crates/epix-blob/src/store.rs])

    Opening a disk the store left behind, histories of operations with decodes
    in flight and power cuts between and inside them, and what follows for
    every reachable state: the invariant, authentic reads, atomic inserts,
    lossless compaction. *)
From Stdlib Require Import ZArith Lia Strings.Byte.
From stdpp Require Import base list sorting strings relations.
From S2P Require Import Prelude Ordered Bitfield Store StoreInv StoreFlight.
#[local] Open Scope Z_scope.

Abbreviation nobody := (λ _ : ObjId, False).

Section run.
Context `{B : Bao} `{L : !BaoLaws}.

(** ** Opening the store *)

Lemma bt_last {V} (m : btree Z V) e : bt_wf m → last m = Some e → bt_get m e.1 = Some e.2 ∧ ∀ k, is_Some (bt_get m k) → k <= e.1.
Proof.
  intros Hwf Hl. assert (e ∈ m) as Hin by (by apply last_Some_elem_of). split; [by apply bt_get_elem; [|destruct e]|]. intros k [v Hv%bt_get_elem]; [|done].
  apply last_Some in Hl as [m' ->]. apply elem_of_app in Hv as [Hv|Hv%list_elem_of_singleton]; [|subst; cbn; lia].
  clear Hin. induction m' as [|[k0 v0] m' IH]; [by apply elem_of_nil in Hv|]. apply bt_wf_cons in Hwf as [Hf Hwf]. apply elem_of_cons in Hv as [[= -> ->]|Hv]; [|by apply IH].
  rewrite Forall_forall in Hf. specialize (Hf e). assert (olt k0 e.1) as Hlt by (apply Hf, elem_of_app; right; by left). by apply Z.lt_le_incl.
Qed.

Lemma last_none {V} (m : btree Z V) k : last m = None → bt_get m k = None.
Proof. by intros ->%last_None. Qed.

(** The slab numbers in use are below the next one. *)
Lemma next_slab_above slabs n : bt_wf slabs → is_Some (bt_get slabs n) → n < next_slab slabs.
Proof.
  intros Hwf Hn. unfold next_slab. destruct (last slabs) as [e|] eqn:E; cbn.
  - destruct (bt_last slabs e Hwf E) as [_ Hle]. specialize (Hle n Hn). lia.
  - rewrite (last_none slabs n E) in Hn. by destruct Hn.
Qed.

Lemma next_slab_nonneg (slabs : btree Z SlabMeta) files : slabs_ok slabs files → 0 <= next_slab slabs.
Proof.
  intros Hs. unfold next_slab. destruct (last slabs) as [e|] eqn:E; cbn; [|done]. destruct (bt_last slabs e (so_wf _ _ Hs) E) as [He _].
  destruct (so_row _ _ Hs _ _ He). lia.
Qed.

Lemma newest_open_spec slabs files o : slabs_ok slabs files → newest_open slabs = Some o →
  ∃ m, bt_get slabs o.1 = Some m ∧ sealed m = false ∧ slab_len m = o.2.
Proof.
  intros Hs. unfold newest_open. intros ([n m] & Hl & ->)%fmap_Some. pose proof (bt_filter_wf (λ m, negb (sealed m)) slabs (so_wf _ _ Hs)) as Hwf.
  destruct (bt_last _ _ Hwf Hl) as [Hg _]. cbn in Hg |- *. rewrite bt_get_filter in Hg by apply Hs. destruct (bt_get slabs n) as [m'|]; [|done].
  destruct (sealed m') eqn:E; cbn in Hg; [done|]. apply (inj Some) in Hg as <-. by exists m'.
Qed.

Lemma newest_none slabs files n m : slabs_ok slabs files → newest_open slabs = None → bt_get slabs n = Some m → sealed m = true.
Proof.
  intros Hs. unfold newest_open. intros Hl%fmap_None Hn. pose proof (last_none _ n Hl) as Hf. rewrite bt_get_filter, Hn in Hf by apply Hs. by destruct (sealed m).
Qed.

(** A new last slab, when every other is sealed. *)
Lemma tables_new_slab slabs files objs sparse obao ext : tables_ok slabs files objs sparse obao ext →
  (∀ n m, bt_get slabs n = Some m → sealed m = true) → tables_ok (bt_insert (next_slab slabs) fresh_slab slabs) files objs sparse obao ext.
Proof.
  intros I Hseal. pose proof I as [I1 I2 I3 I4 I5 I6 I7 I8]. pose proof I1 as [S1 S2 S3 S4 S5].
  assert (∀ n, is_Some (bt_get slabs n) → n < next_slab slabs) as Hlt by (intros; by apply next_slab_above).
  assert (∀ n m, bt_get slabs n = Some m → bt_get (bt_insert (next_slab slabs) fresh_slab slabs) n = Some m) as Hold.
  { intros n m Hn. assert (n < next_slab slabs) by (apply Hlt; by eexists). rewrite bt_get_insert, decide_False by lia. done. }
  constructor; try done.
  - constructor; [by apply bt_insert_wf|done| | |].
    + intros n m. rewrite bt_get_insert. case_decide; [|apply S3]. subst n. intros [= <-]. cbn. pose proof (next_slab_nonneg _ _ I1). pose proof (blen_nonneg (slab_bytes files (next_slab slabs))). lia.
    + intros n m n'. rewrite !bt_get_insert. case_decide as D.
      * subst n. intros _ _. case_decide; [lia|]. intros Hn'. specialize (Hlt n' Hn'). lia.
      * intros Hn Hs. rewrite (Hseal n m Hn) in Hs. done.
    + intros n Hn. destruct (S5 n Hn) as (n' & [m Hm] & Hle). exists n'. split; [|done]. exists m. by apply Hold.
  - intros id r Hr. destruct (I6 id r Hr) as [P1 P2]. split; [done|]. destruct (loc r) as [|n off|]; try done. destruct P2 as (m & b & Hm & Hrest). exists m, b. split; [by apply Hold|done].
  - intros n m. rewrite bt_get_insert. case_decide as D; [|apply I7]. subst n. intros [= <-]. cbn. unfold live.
    assert (bt_sum (λ r0, if in_slab (next_slab slabs) r0 then size r0 else 0) objs = 0) as ->; [|lia].
    assert (∀ e, e ∈ objs → in_slab (next_slab slabs) e.2 = false) as Hno.
    { intros [k r0] Hin. apply bt_get_elem in Hin; [|done]. destruct (I6 k r0 Hin) as [_ P2]. unfold in_slab. cbn.
      destruct (loc r0) as [|n off|]; try done. destruct P2 as (m' & b & Hm' & _). assert (n < next_slab slabs) by (apply Hlt; by eexists). apply Z.eqb_neq. lia. }
    clear -Hno. unfold bt_sum. induction objs as [|e l IH]; [done|]. cbn. rewrite Hno by left. rewrite IH; [done|]. intros; apply Hno; by right.
Qed.

Lemma new_slab_empty slabs files : slabs_ok slabs files → slab_bytes files (next_slab slabs) = [].
Proof.
  intros Hs. unfold slab_bytes. destruct (bt_get files (next_slab slabs)) eqn:E; [|done]. destruct (so_bound _ _ Hs (next_slab slabs)) as (n' & Hn' & Hle); [by eexists|].
  apply next_slab_above in Hn'; [lia|apply Hs].
Qed.

(** What opening leaves as it was. *)
Definition same_content (d d' : Disk) : Prop :=
  objects (index_db d') = objects (index_db d) ∧ externs (index_db d') = externs (index_db d) ∧
  sparse_files d' = sparse_files d ∧ obao_files d' = obao_files d ∧ tree d' = tree d.

(** Slab files keep what the rows of [s] cover. *)
Definition files_kept (s : btree Z SlabMeta) (d d' : Disk) : Prop :=
  ∀ n m, bt_get s n = Some m → (is_Some (bt_get (slab_files d) n) → is_Some (bt_get (slab_files d') n)) ∧
    ∀ lo hi b, hi <= slab_len m → slice (slab_bytes (slab_files d) n) lo hi = Some b → slice (slab_bytes (slab_files d') n) lo hi = Some b.

Lemma files_kept_trans s d1 d2 d3 : files_kept s d1 d2 → files_kept s d2 d3 → files_kept s d1 d3.
Proof. intros H1 H2 n m Hm. destruct (H1 n m Hm) as [A1 A2], (H2 n m Hm) as [B1 B2]. split; [auto|]. intros lo hi b Hh Hs. by apply B2, A2. Qed.

(** [lens] are rows of the index. *)
Definition rows_of (slabs : btree Z SlabMeta) (lens : list (Z * Z)) : Prop :=
  Forall (λ e : Z * Z, ∃ m, bt_get slabs e.1 = Some m ∧ slab_len m = e.2) lens.

(** The file of a slab ends where its row says. *)
Definition exact (d : Disk) (n : Z) : Prop := ∃ m, bt_get (slabs (index_db d)) n = Some m ∧ blen (slab_bytes (slab_files d) n) = slab_len m.

Lemma reconcile_spec open lens : ∀ damaged w, dinv (disk w) → rows_of (slabs (index_db (disk w))) lens →
  wp (reconcile open lens damaged) (on_ok (λ b w', b = damaged ∧ dinv (disk w') ∧ same_content (disk w) (disk w') ∧ index_db (disk w') = index_db (disk w) ∧
      (∀ n, exact (disk w) n → exact (disk w') n) ∧ (∀ e, e ∈ lens → exact (disk w') e.1) ∧ files_kept (slabs (index_db (disk w))) (disk w) (disk w')) (λ _ _, False)) dinv w.
Proof.
  induction lens as [|[n len] lens IH]; intros damaged w Hd Hr.
  { cbn. split_and!; try done. intros e He. by apply elem_of_nil in He. }
  assert (files_kept (slabs (index_db (disk w))) (disk w) (disk w)) as Hrefl by done.
  apply Forall_cons in Hr as [(m & Hm & Hlen) Hr]. cbn in Hm, Hlen. cbn [reconcile]. apply wp_gets.
  change (default [] (bt_get (slab_files (disk w)) n)) with (slab_bytes (slab_files (disk w)) n).
  pose proof (so_row _ _ (ok_slabs _ _ _ _ _ _ Hd) n m Hm) as [_ Hle]. destruct (Z.ltb_spec len (blen (slab_bytes (slab_files (disk w)) n))) as [Hlt|Hge].
  - apply wp_bind, wp_effect; [done|]. intros p. cbn [on_ok].
    set (d1 := set_slab_file n (resize len) (disk w)).
    assert (dinv d1) as Hd1. { subst len. by apply tables_shrink. }
    assert (∀ k, slab_bytes (slab_files d1) k = if decide (k = n) then resize len (slab_bytes (slab_files (disk w)) n) else slab_bytes (slab_files (disk w)) k) as Hb.
    { intros k. unfold slab_bytes, d1. cbn. rewrite bt_get_insert. repeat case_decide; done || congruence. }
    assert (exact d1 n) as He. { exists m. split; [done|]. rewrite Hb, decide_True, blen_resize by (done || lia). done. }
    assert (∀ k, exact (disk w) k → exact d1 k) as Hk.
    { intros k (mk & Hmk & Hbk). destruct (decide (k = n)) as [->|Hne]; [done|]. exists mk. split; [done|]. rewrite Hb, decide_False by done. done. }
    assert (files_kept (slabs (index_db (disk w))) (disk w) d1) as Hkeep.
    { intros k mk Hmk. split.
      - unfold d1. cbn. rewrite bt_get_insert. intros Hsome. case_decide; [by eexists|done].
      - intros lo hi b Hhi Hs. rewrite Hb. case_decide as D; [|done]. subst k. assert (mk = m) as -> by congruence. rewrite resize_take by lia. eapply slice_take; [exact Hs|lia]. }
    eapply wp_mono; [|done|apply IH; [exact Hd1|exact Hr]]. intros [b|e] w2; cbn [on_ok]; [|done]. intros (-> & Hd2 & Hs2 & Ei2 & Hx2 & Hy2 & Hk2). cbn in Hx2.
    split_and!; [done|done|exact Hs2|exact Ei2|auto| |].
    + intros e [->|He']%elem_of_cons; [|auto]. apply Hx2. exact He.
    + eapply files_kept_trans; [exact Hkeep|exact Hk2].
  - rewrite (proj2 (Z.ltb_ge _ len)) by lia. cbn [andb]. eapply wp_mono; [|done|apply IH; [exact Hd|exact Hr]]. intros [b|e] w2; cbn [on_ok]; [|done].
    intros (-> & Hd2 & Hs2 & Ei2 & Hx2 & Hy2 & Hk2). split_and!; try done. intros e [->|He']%elem_of_cons; [|auto]. apply Hx2. exists m. split; [done|]. cbn. lia.
Qed.

Lemma init_spec d lens open ix : dinv d → init_index (index_db d) = Ok ((lens, open), ix) →
  dinv (with_index ix d) ∧ same_content d (with_index ix d) ∧ rows_of (slabs ix) lens ∧
  (∃ m, bt_get (slabs ix) open.1 = Some m ∧ sealed m = false ∧ slab_len m = open.2) ∧
  (exact (with_index ix d) open.1 ∨ ∃ e, e ∈ lens ∧ e.1 = open.1) ∧
  ∀ n m, bt_get (slabs (index_db d)) n = Some m → bt_get (slabs ix) n = Some m.
Proof.
  intros Hd. unfold init_index. destruct (match schema _ with Some v => _ | None => false end); [done|].
  assert (∀ ix', (∀ n m, bt_get (slabs (index_db d)) n = Some m → bt_get (slabs ix') n = Some m) →
    rows_of (slabs ix') (map (λ e : Z * SlabMeta, (e.1, slab_len e.2)) (slabs (index_db d)))) as Hrows.
  { intros ix' Hix. apply Forall_forall. intros e ([n m] & -> & Hin)%list_elem_of_fmap. cbn. exists m. split; [|done]. apply Hix. by apply bt_get_elem; [apply Hd|]. }
  destruct (newest_open _) as [o|] eqn:En; intros [= <- <- <-].
  - destruct (newest_open_spec _ _ o (ok_slabs _ _ _ _ _ _ Hd) En) as (m & Hm & Hs & Hl). split_and!; [exact Hd|done|by apply Hrows|by exists m| |done]. right.
    exists (o.1, slab_len m). split; [|done]. apply list_elem_of_fmap. exists (o.1, m). split; [done|]. by apply bt_get_elem; [apply Hd|].
  - pose proof (ok_slabs _ _ _ _ _ _ Hd) as Hs.
    assert (∀ n m, bt_get (slabs (index_db d)) n = Some m → bt_get (bt_insert (next_slab (slabs (index_db d))) fresh_slab (slabs (index_db d))) n = Some m) as Hold.
    { intros n m Hn. assert (n < next_slab (slabs (index_db d))) by (apply next_slab_above; [apply Hs|by eexists]). rewrite bt_get_insert, decide_False by lia. done. }
    split_and!.
    + apply tables_new_slab; [exact Hd|]. intros n m. by eapply newest_none.
    + done.
    + by apply Hrows.
    + cbn. rewrite bt_get_insert, decide_True by done. by exists fresh_slab.
    + left. exists fresh_slab. cbn. rewrite bt_get_insert, decide_True by done. split; [done|]. change (blen (slab_bytes (slab_files d) (next_slab (slabs (index_db d)))) = 0). by rewrite (new_slab_empty _ _ Hs).
    + exact Hold.
Qed.

Lemma counts_nil : counts_ok [].
Proof. split; [constructor|done]. Qed.

(** Opening any disk the store left behind restores the invariant and keeps
    every object. *)
Lemma open_spec w : dinv (disk w) →
  wp open_with (on_ok (λ _ w', inv w' ∧ same_content (disk w) (disk w') ∧ files_kept (slabs (index_db (disk w))) (disk w) (disk w') ∧ sparse_writers (mem w') = [] ∧ evict_holds (mem w') = [])
    (λ e w', e = InvalidData ∧ w' = w ∧ (default SCHEMA_VERSION (schema (index_db (disk w))) ≠ SCHEMA_VERSION))) dinv w.
Proof.
  intros Hd. unfold open_with. apply wp_bind, wp_txn; [done|]. destruct (init_index (index_db (disk w))) as [[[lens open] ix]|e] eqn:Ei.
  - intros p. cbn [on_ok]. destruct (init_spec _ _ _ _ Hd Ei) as (Hd1 & Hs1 & Hr & (m & Hm & Hse & Hl) & Hx & Hold).
    apply wp_bind. eapply wp_mono; [|done|apply reconcile_spec; [exact Hd1|exact Hr]]. intros [b|e] w2; cbn [on_ok]; [|done].
    intros (-> & Hd2 & Hs2 & Ei2 & Hx2 & Hy2 & Hk2). cbn in Ei2. apply wp_ret_bind.
    assert (exact (disk w2) open.1) as (m2 & Hm2 & Hb2). { destruct Hx as [Hx|(e & He & <-)]; [by apply Hx2|by apply Hy2]. }
    rewrite Ei2 in Hm2. cbn in Hm2. assert (m2 = m) as -> by congruence. cbn. split_and!.
    + split; [exact Hd2|]. constructor; cbn; [|apply counts_nil|apply counts_nil]. exists m. rewrite Ei2. cbn. split_and!; [done|done|done|congruence].
    + destruct Hs1 as (A1 & A2 & A3 & A4 & A5), Hs2 as (B1 & B2 & B3 & B4 & B5). cbn in *. split_and!; congruence.
    + intros n m' Hm'. exact (Hk2 n m' (Hold n m' Hm')).
    + done.
    + done.
  - cbn. unfold init_index in Ei. destruct (newest_open (slabs (index_db (disk w)))); destruct (schema (index_db (disk w))) as [v|]; cbn in Ei |- *;
      [destruct (v =? SCHEMA_VERSION) eqn:Ev| |destruct (v =? SCHEMA_VERSION) eqn:Ev|]; cbn in Ei; try done; apply Z.eqb_neq in Ev; split_and!; congruence.
Qed.

(** ** Histories

    The store's operations in any order, with decodes in flight between them,
    the user editing the xite tree, and the power going at any effect of any
    operation; after a cut the decodes are lost and the store is opened
    again. *)

Inductive Op :=
  | OpInsert (id : ObjId) (ns : Ns) (bs : bytes) (now : Z) | OpEnsure (id : ObjId) (ns : Ns) (size now : Z)
  | OpAdopt (id : ObjId) (ns : Ns) (path : Path) (now : Z) | OpReclaim (id : ObjId) (path : Path) (now : Z)
  | OpMaterialize (one_volume : bool) (id : ObjId) (dst : Path) (now : Z) | OpRevalidate (id : ObjId)
  | OpRemove (id : ObjId) | OpRefDelta (id : ObjId) (delta : Z) | OpPin (id : ObjId)
  | OpTouch (id : ObjId) (now : Z) | OpQuota (quota : Z) | OpEvict (needed : Z) | OpCompact
  | OpHold (id : ObjId) | OpDropHold (id : ObjId)
  | OpRead (id : ObjId) (start len now : Z) | OpReadAll (id : ObjId) (now : Z) | OpEncode (id : ObjId) (ranges : list range) (now : Z).

Definition run_op (cfg : StoreConfig) (o : Op) : M unit :=
  match o with
  | OpInsert id ns bs now => insert_bytes cfg id ns bs now ;; mret tt
  | OpEnsure id ns size now => ensure_sparse id ns size now
  | OpAdopt id ns path now => adopt_extern cfg id ns path now ;; mret tt
  | OpReclaim id path now => reclaim_duplicate cfg id path now ;; mret tt
  | OpMaterialize v id dst now => materialize cfg v id dst now
  | OpRevalidate id => revalidate cfg id ;; mret tt
  | OpRemove id => remove cfg id
  | OpRefDelta id d => ref_delta id d ;; mret tt
  | OpPin id => pin id
  | OpTouch id now => touch id now
  | OpQuota q => enforce_quota cfg q ;; mret tt
  | OpEvict n => evict_lru cfg n ;; mret tt
  | OpCompact => compact_if_worthwhile cfg
  | OpHold id => hold_eviction id
  | OpDropHold id => drop_hold id
  | OpRead id start len now => read_range cfg id start len now ;; mret tt
  | OpReadAll id now => read_bytes cfg id now ;; mret tt
  | OpEncode id ranges now => encode_slice cfg id ranges now ;; mret tt
  end.

(** Sizes are unsigned. *)
Definition op_wf (o : Op) : Prop := match o with OpEnsure _ _ size _ => 0 <= size | _ => True end.

(** The objects an operation may drop the record of while a decode into them
    is under way. *)
Definition op_retires (o : Op) (id : ObjId) : Prop := match o with OpMaterialize _ i _ _ | OpRevalidate i => id = i | _ => False end.

(** The power supply and the faults of the disk are the environment's. *)
Definition powered (w : World) (p : option nat) (fs : list Z) : World := mkWorld (disk w) (mem w) p fs.

Inductive finish := Whole | Partial.
Definition end_flight (k : finish) (f : Flight) (enc : bytes) (now : Z) : M unit :=
  match k with Whole => end_write f enc now | Partial => end_write_partial f enc now ;; mret tt end.

Definition completes {A} (m : M A) (w w' : World) : Prop := (∃ a, m w = (Done a, w')) ∨ ∃ e, m w = (Fail e, w').
Definition cuts {A} (m : M A) (w w' : World) : Prop := m w = (Crash, w').

(** A store that is on, with its decodes in flight, or a disk without power. *)
Inductive state := On (w : World) (fs : list Flight) | Off (d : Disk).

Inductive step (cfg : StoreConfig) : state → state → Prop :=
  | step_op w fs w' o p q : op_wf o → (∀ f, f ∈ fs → ¬ op_retires o (f_id f)) →
      completes (run_op cfg o) (powered w p q) w' → step cfg (On w fs) (On w' fs)
  | step_begin w fs w' id rs f : Forall (λ r : range, 0 <= r.1) rs → begin_write id rs w = (Done f, w') → step cfg (On w fs) (On w' (f :: fs))
  | step_end w fs gs w' f k enc now p q : fs ≡ₚ f :: gs → completes (end_flight k f enc now) (powered w p q) w' → step cfg (On w fs) (On w' gs)
  | step_edit w fs path v : step cfg (On w fs) (On (mkWorld (with_tree path v (disk w)) (mem w) (power w) (faults w)) fs)
  | step_off w fs : step cfg (On w fs) (Off (disk w))
  | step_cut_op w fs w' o p q : op_wf o → (∀ f, f ∈ fs → ¬ op_retires o (f_id f)) → cuts (run_op cfg o) (powered w p q) w' → step cfg (On w fs) (Off (disk w'))
  | step_cut_end w fs w' f k enc now p q : f ∈ fs → cuts (end_flight k f enc now) (powered w p q) w' → step cfg (On w fs) (Off (disk w'))
  | step_edit_off d path v : step cfg (Off d) (Off (with_tree path v d))
  | step_open w w' : open_with w = (Done tt, w') → step cfg (Off (disk w)) (On w' [])
  | step_cut_open w w' : cuts open_with w w' → step cfg (Off (disk w)) (Off (disk w')).

Definition flights_of (id : ObjId) (fs : list Flight) : Z := blen (filter (λ f, f_id f = id) fs).

Definition state_ok (s : state) : Prop :=
  match s with
  | Off d => dinv d
  | On w fs => inv w ∧ Forall (flight_ok w) fs ∧ ∀ id, default 0 (bt_get (sparse_writers (mem w)) id) = flights_of id fs
  end.

(** What decodes in flight need of the other operations. *)
Definition keeps (X : ObjId → Prop) (w w' : World) : Prop :=
  sparse_writers (mem w') = sparse_writers (mem w) ∧
  ∀ id, ¬ X id → bt_contains (sparse_writers (mem w)) id = true → protected id (disk w) (disk w').

Lemma frame_keeps X w w' : frame X w w' → keeps X w w'.
Proof. by intros [F1 _ _ F4]. Qed.

Lemma keeps_flights X w w' fs : keeps X w w' → (∀ f, f ∈ fs → ¬ X (f_id f)) → Forall (flight_ok w) fs → Forall (flight_ok w') fs.
Proof.
  intros [K1 K2] Hx. rewrite !Forall_forall. intros Hf f Hin. pose proof (Hf f Hin) as Hok. pose proof Hok as [Hc _].
  eapply flight_protected; [done|apply K2; [by apply Hx|done]|by rewrite K1].
Qed.

(** *** Reads leave the invariant alone *)

Lemma safe_required R `{!PreOrder R} id : safe R (required id).
Proof. apply safe_bind; [apply _|apply safe_gets; apply _|intros; apply safe_some_or; apply _]. Qed.
Lemma safe_read_sparse R `{!PreOrder R} id : safe R (read_sparse id).
Proof. apply safe_bind; [apply _|apply safe_gets; apply _|intros; apply safe_some_or; apply _]. Qed.
Lemma safe_read_obao R `{!PreOrder R} id : safe R (read_obao id).
Proof. apply safe_bind; [apply _|apply safe_gets; apply _|intros; apply safe_some_or; apply _]. Qed.

Lemma safe_read_data cfg R `{!PreOrder R} id rec : safe R (read_data cfg id rec).
Proof.
  unfold read_data. destruct (loc rec).
  - apply safe_bind; [apply _|apply safe_read_sparse; apply _|intros; apply safe_ret; apply _].
  - apply safe_raise; apply _.
  - apply safe_bind; [apply _|apply safe_extern_path; apply _|intros; apply safe_read_tree; apply _].
Qed.

Ltac safe_tac :=
  repeat first
    [ apply safe_required; apply _ | apply safe_read_slab | apply safe_read_data; apply _ | apply safe_read_obao; apply _
    | apply safe_touch_if_older | apply safe_lift; apply _ | apply safe_ret; apply _ | apply safe_raise; apply _
    | match goal with |- safe _ (if ?b then _ else _) => destruct b | |- safe _ (match ?l with Sparse => _ | Slab _ _ => _ | Extern => _ end) => destruct l end
    | apply safe_bind; [apply _| |intros] ].

Lemma safe_read_verified id n off sz : safe (frame nobody) (read_verified_slab id n off sz).
Proof. unfold read_verified_slab. safe_tac. Qed.

Lemma safe_read_range cfg id start len now : safe (frame nobody) (read_range cfg id start len now).
Proof. unfold read_range. safe_tac. Qed.

Lemma safe_read_bytes cfg id now : safe (frame nobody) (read_bytes cfg id now).
Proof. unfold read_bytes. safe_tac. Qed.

Lemma safe_encode cfg id rs now : safe (frame nobody) (encode_slice cfg id rs now).
Proof. unfold encode_slice. safe_tac. Qed.

(** *** Every operation *)

Lemma safe_drop {A} R `{!PreOrder R} (m : M A) : safe R m → safe R (m ;; mret tt).
Proof. intros Hm. apply safe_bind; [apply _|done|intros; apply safe_ret; apply _]. Qed.

Lemma evicting_frame w w' : evicting w w' → frame nobody w w'.
Proof. by intros [? _]. Qed.
Lemma compacting_frame w w' : compacting w w' → frame nobody w w'.
Proof. by intros [? _]. Qed.

Lemma hold_ok (f : btree ObjId Z → btree ObjId Z) w : inv w → (∀ m, counts_ok m → counts_ok (f m)) →
  let w' := mkWorld (disk w) (mkMem (open_slab (mem w)) (sparse_writers (mem w)) (f (evict_holds (mem w)))) (power w) (faults w) in
  inv w' ∧ keeps nobody w w'.
Proof.
  intros [Hd [M1 M2 M3]] Hf. split; [split; [done|constructor; [done|done|by apply Hf]]|]. split; [done|]. intros. apply protected_refl.
Qed.

Lemma op_ok cfg o w : inv w → op_wf o → wp (run_op cfg o) (λ _ w', inv w' ∧ keeps (op_retires o) w w') dinv w.
Proof.
  intros Hw Ho. assert (∀ m : M unit, safe (frame (op_retires o)) m → wp m (λ _ w', inv w' ∧ keeps (op_retires o) w w') dinv w) as Hs.
  { intros m Hm. eapply wp_mono; [|done|by apply Hm]. intros r w' [H1 H2]. split; [done|by apply frame_keeps]. }
  destruct o; cbn [run_op];
    [..|exact (hold_ok (count_up id) w Hw (counts_up id))|exact (hold_ok (count_down id) w Hw (counts_down id))| | | ]; apply Hs; try (apply safe_drop; [apply _|]).
  - apply safe_insert.
  - by apply safe_ensure_sparse.
  - apply safe_adopt.
  - apply safe_reclaim.
  - apply safe_materialize.
  - apply safe_revalidate.
  - apply safe_remove.
  - apply safe_ref_delta.
  - apply safe_pin.
  - apply safe_touch.
  - eapply safe_mono; [apply evicting_frame|apply safe_enforce_quota].
  - eapply safe_mono; [apply evicting_frame|apply safe_evict_lru].
  - eapply safe_mono; [apply compacting_frame|apply safe_compact].
  - apply safe_read_range.
  - apply safe_read_bytes.
  - apply safe_encode.
Qed.

Lemma end_flight_spec k f enc now w : inv w → flight_ok w f → wp (end_flight k f enc now) (λ _ w', ∃ gained, write_ended f gained w w') dinv w.
Proof.
  intros Hw Hf. destruct k; cbn.
  - eapply wp_mono; [|done|by apply end_write_spec]. intros r w' H. eexists; exact H.
  - apply wp_bind. eapply wp_mono; [|done|by apply end_write_partial_spec]. intros [h|e] w' (leaves & _ & H & _); eexists; exact H.
Qed.

(** *** The guards count the decodes *)

Lemma flights_of_cons id f fs : flights_of id (f :: fs) = (if decide (f_id f = id) then 1 else 0) + flights_of id fs.
Proof. unfold flights_of, blen. cbn. unfold filter, list_filter. cbn. case_decide; cbn [length]; lia. Qed.

Lemma flights_of_perm id fs gs : fs ≡ₚ gs → flights_of id fs = flights_of id gs.
Proof. intros Hp. unfold flights_of, blen. by rewrite Hp. Qed.

Lemma count_up_default id k m : default 0 (bt_get (count_up id m) k) = (if decide (id = k) then 1 else 0) + default 0 (bt_get m k).
Proof.
  unfold count_up. rewrite bt_get_upsert. repeat case_decide; try congruence; [|lia]. subst k. destruct (bt_get m id); cbn; lia.
Qed.

Lemma count_down_default id k m : counts_ok m → is_Some (bt_get m id) →
  default 0 (bt_get m k) = (if decide (id = k) then 1 else 0) + default 0 (bt_get (count_down id m) k).
Proof.
  intros [Hwf Hp] [n Hn]. unfold count_down. rewrite Hn. destruct (Z.eqb_spec (n - 1) 0).
  - rewrite bt_get_remove by done. repeat case_decide; try congruence; [subst; rewrite Hn; cbn; lia|lia].
  - rewrite bt_get_insert. repeat case_decide; try congruence; [subst; rewrite Hn; cbn; lia|lia].
Qed.

Lemma contains_default id m : counts_ok m → bt_contains m id = true ↔ 0 < default 0 (bt_get m id).
Proof.
  intros [_ Hp]. rewrite bt_contains_spec. destruct (bt_get m id) as [n|] eqn:E; cbn.
  - pose proof (Hp _ _ E). split; [done|by eexists].
  - split; [by intros [? ?]|lia].
Qed.

Lemma flights_of_in f fs : f ∈ fs → 0 < flights_of (f_id f) fs.
Proof.
  induction fs as [|g fs IH]; [by intros ?%elem_of_nil|]. rewrite flights_of_cons. intros [->|Hin]%elem_of_cons.
  - rewrite decide_True by done. unfold flights_of, blen. lia.
  - apply IH in Hin. case_decide; lia.
Qed.

Lemma end_step_ok w fs gs f gained w' : state_ok (On w fs) → fs ≡ₚ f :: gs → write_ended f gained w w' → state_ok (On w' gs).
Proof.
  intros (Hw & Hfs & Hc) Hp (w1 & I1 & F1 & -> & _). rewrite Hp in Hfs. apply Forall_cons in Hfs as [Hf Hgs].
  pose proof (mi_writers _ (proj2 I1)) as Hc1. pose proof (fr_writers _ _ _ F1) as Ew.
  assert (is_Some (bt_get (sparse_writers (mem w1)) (f_id f))) as Hsome. { rewrite Ew. apply bt_contains_spec, Hf. }
  assert (∀ id, default 0 (bt_get (count_down (f_id f) (sparse_writers (mem w1))) id) = flights_of id gs) as Hcnt.
  { intros id. pose proof (count_down_default (f_id f) id _ Hc1 Hsome) as Hd. rewrite Ew in Hd at 1. rewrite Hc, (flights_of_perm id _ _ Hp), flights_of_cons in Hd. lia. }
  split_and!; [by apply inv_unregistered| |exact Hcnt]. rewrite Forall_forall in Hgs |- *. intros g Hg.
  pose proof (flight_frame nobody w w1 g (λ H, H) F1 (Hgs g Hg)) as (_ & G2 & G3). split_and!; [|done|exact G3]. cbn.
  apply contains_default; [by apply counts_down|]. rewrite Hcnt. by apply flights_of_in.
Qed.

Lemma wp_completes {A} (m : M A) Φ C w w' : wp m Φ C w → completes m w w' → ∃ r, Φ r w'.
Proof. unfold wp. intros Hm [[a E]|[e E]]; rewrite E in Hm; by eexists. Qed.

Lemma wp_cuts {A} (m : M A) Φ C w w' : wp m Φ C w → cuts m w w' → C (disk w').
Proof. unfold wp, cuts. intros Hm E. by rewrite E in Hm. Qed.

Lemma inv_powered w p q : inv w → inv (powered w p q).
Proof. by intros [? [? ? ?]]. Qed.

Lemma dinv_tree d path v : dinv d → dinv (with_tree path v d).
Proof. done. Qed.

Lemma run_step_ok cfg s s' : step cfg s s' → state_ok s → state_ok s'.
Proof.
  intros [w fs w' o p q Ho Hno Hc|w fs w' id rs f Hrs Hb|w fs gs w' f k enc now p q Hp Hc|w fs path v|w fs|w fs w' o p q Ho Hno Hc|w fs w' f k enc now p q Hin Hc
    |d path v|w w' Hop|w w' Hc] Hs.
  - destruct Hs as (Hw & Hfs & Hcnt). destruct (wp_completes _ _ _ _ _ (op_ok cfg o _ (inv_powered w p q Hw) Ho) Hc) as (r & H1 & H2).
    split_and!; [done|by eapply (keeps_flights (op_retires o) (powered w p q))|]. intros id. by rewrite (proj1 H2), Hcnt.
  - destruct Hs as (Hw & Hfs & Hcnt). pose proof (begin_write_spec id rs w Hw Hrs) as Hspec. unfold wp in Hspec. rewrite Hb in Hspec.
    destruct Hspec as (-> & Hid & _ & Hf). split_and!; [by apply inv_registered| |].
    + apply Forall_cons. split; [done|]. rewrite Forall_forall in Hfs |- *. intros g Hg. destruct (Hfs g Hg) as (G1 & G2 & G3). split_and!; [by apply contains_count_up|done|done].
    + intros k. cbn [registered mem sparse_writers]. rewrite count_up_default, flights_of_cons, Hcnt, Hid. done.
  - pose proof Hs as (Hw & Hfs & Hcnt). rewrite Hp in Hfs. apply Forall_cons in Hfs as [Hf _].
    destruct (wp_completes _ _ _ _ _ (end_flight_spec k f enc now (powered w p q) (inv_powered w p q Hw) Hf) Hc) as (r & gained & He).
    eapply end_step_ok; [|exact Hp|exact He]. destruct Hs as (_ & Hfs & _). split_and!; [by apply inv_powered|exact Hfs|exact Hcnt].
  - destruct Hs as ([Hd [? ? ?]] & Hfs & Hcnt). split_and!; [by split|exact Hfs|exact Hcnt].
  - apply Hs.
  - destruct Hs as (Hw & _). exact (wp_cuts _ _ _ _ _ (op_ok cfg o _ (inv_powered w p q Hw) Ho) Hc).
  - destruct Hs as (Hw & Hfs & _). rewrite Forall_forall in Hfs. exact (wp_cuts _ _ _ _ _ (end_flight_spec k f enc now (powered w p q) (inv_powered w p q Hw) (Hfs f Hin)) Hc).
  - exact Hs.
  - pose proof (open_spec w Hs) as Ho. unfold wp in Ho. rewrite Hop in Ho. destruct Ho as (H1 & _ & _ & H2 & _). split_and!; [done|done|]. intros id. by rewrite H2.
  - exact (wp_cuts _ _ _ _ _ (open_spec w Hs) Hc).
Qed.

(** An empty directory. *)
Definition blank (tree : Path → option bytes) : Disk := mkDisk (mkIndex None [] [] []) [] [] [] tree 0.

Lemma blank_ok tree : dinv (blank tree).
Proof.
  constructor; cbn; try done; try apply SSorted_nil.
  constructor; try done; [apply SSorted_nil..|]. by intros n [? ?].
Qed.

Definition reachable (cfg : StoreConfig) (s : state) : Prop := ∃ tree, rtc (step cfg) (Off (blank tree)) s.

Lemma state_reachable cfg s : reachable cfg s → state_ok s.
Proof.
  intros [tree Hr]. assert (state_ok (Off (blank tree))) as H0 by apply blank_ok. induction Hr as [|s1 s2 s3 Hst _ IH]; [done|]. by apply IH, (run_step_ok cfg s1).
Qed.

(** ** What reads return *)

(** The one content an id and a size name: no two byte strings collide on it. *)
Definition content (id : ObjId) (size : Z) (d : bytes) : Prop := authentic id size d ∧ ∀ b, authentic id size b → b = d.

Definition True_ (_ : Disk) : Prop := True.

Lemma touch_out id rec now (Φ : World → Prop) w : inv w → (∀ w', inv w' → Φ w') → wp (touch_if_older id rec now) (λ _, Φ) True_ w.
Proof. intros Hw HΦ. eapply wp_mono; [| |by apply safe_touch_if_older]; [|done]. intros r w' [H _]. by apply HΦ. Qed.

(** Ends a read: the stamp, then the bytes. *)
Lemma touch_ret {T} id rec now (a : T) (Ψ : T → Prop) w : inv w → Ψ a →
  wp (touch_if_older id rec now ;; mret a) (on_ok (λ a _, Ψ a) (λ _ _, True)) True_ w.
Proof. intros Hw Ha. apply wp_bind. eapply wp_mono; [| |by apply (touch_out id rec now (λ _, True))]; [|done]. by intros [u|e] w' _. Qed.

Lemma verified_slab_spec w id r n off d : inv w → bt_get (objects (index_db (disk w))) id = Some r → loc r = Slab n off → content id (size r) d →
  wp (read_verified_slab id n off (size r)) (on_ok (λ b w', w' = w ∧ b = d) (λ _ _, True)) True_ w.
Proof.
  intros Hw Hr Hl [_ Hd]. unfold read_verified_slab. apply wp_bind. eapply wp_mono; [| |by apply (read_slab_spec w id n off r)]; [|done].
  intros [b|e] w'; cbn [on_ok]; [|done]. intros (-> & Hb & Hs). destruct (Verified.verify_whole b id); [|done]. cbn. split; [done|]. by apply Hd.
Qed.

Lemma slice_agree f d lo hi b : 0 <= lo → hi <= blen d → agree f d lo hi → slice f lo hi = Some b → slice d lo hi = Some b.
Proof.
  intros H0 Hhi Ha Hs. assert (lo <= hi) as Hle. { unfold slice in Hs. destruct (Z.leb_spec 0 lo), (Z.leb_spec lo hi), (Z.leb_spec hi (blen f)); try done. }
  destruct (slice_is_Some d lo hi H0 Hle Hhi) as [c Hc]. rewrite Hc. f_equal. apply list_eq. intros i.
  pose proof (blen_slice _ _ _ _ Hs) as Lb. pose proof (blen_slice _ _ _ _ Hc) as Lc. destruct (decide (Z.of_nat i < hi - lo)) as [Hi|Hi].
  - pose proof (slice_lookup f b lo hi (lo + Z.of_nat i) Hs ltac:(lia)) as Eb. pose proof (slice_lookup d c lo hi (lo + Z.of_nat i) Hc ltac:(lia)) as Ec.
    replace (Z.to_nat (lo + Z.of_nat i - lo)) with i in Eb, Ec by lia. rewrite Eb, Ec. symmetry. apply Ha. lia.
  - unfold blen in *. rewrite !lookup_ge_None_2 by lia. done.
Qed.

Lemma present_agree w id r ino f d lo hi : inv w → bt_get (objects (index_db (disk w))) id = Some r → loc r = Sparse →
  bt_get (sparse_files (disk w)) id = Some (ino, f) → authentic id (size r) d → 0 <= lo → hi <= size r →
  GroupBits.contains_all (bits r) (groups_for_bytes (lo, hi)) = true → agree f d lo hi.
Proof.
  intros Hw Hr Hl Hf Hd H0 Hhi Hc x Hx. destruct (sparse_ok_of w id r Hw Hr Hl) as (_ & S2 & _ & S4). destruct (S4 ino f Hf) as [_ Ha].
  assert (GroupBits.mem (bits r) (x / GROUP_BYTES)) as Hg.
  { apply (proj1 (GroupBits.contains_all_spec _ _ S2) Hc). apply GroupBits.groups_for_bytes_spec; [done|]. exists x. split; [exact Hx|done]. }
  apply (Ha d Hd _ Hg). pose proof (Z.div_mod x GROUP_BYTES ltac:(done)). pose proof (Z.mod_pos_bound x GROUP_BYTES ltac:(done)). lia.
Qed.

Lemma read_range_spec cfg w id r d start len now : inv w → bt_get (objects (index_db (disk w))) id = Some r → loc r ≠ Extern → content id (size r) d →
  0 <= start → 0 <= len →
  wp (read_range cfg id start len now) (on_ok (λ bs _, let end_ := Z.min (sat_add64 start len) (size r) in
    if (size r <=? start) || (end_ <=? start) then bs = [] else slice d start end_ = Some bs) (λ _ _, True)) True_ w.
Proof.
  intros Hw Hr Hl Hd H0 H1. unfold read_range. apply wp_required. rewrite Hr. cbn [option_wp]. set (end_ := Z.min _ _).
  destruct (_ || _) eqn:Eo; [done|]. apply orb_false_iff in Eo as [E1%Z.leb_gt E2%Z.leb_gt]. destruct (loc r) as [|n off|] eqn:El; [| |done].
  - destruct (GroupBits.contains_all _ _) eqn:Ec; cbn [negb]; [|done]. unfold read_data. rewrite El. apply wp_assoc, wp_assoc, wp_read_sparse.
    destruct (bt_get (sparse_files (disk w)) id) as [[ino f]|] eqn:Ef; cbn [option_wp]; [|done]. apply wp_ret_bind. unfold read_exact_at.
    replace (start + (end_ - start)) with end_ by lia. cbn. destruct (slice f start end_) as [b|] eqn:Es; cbn; [|done]. apply wp_ret_bind, touch_ret; [done|].
    eapply slice_agree; [done| | |exact Es].
    + destruct Hd as [[_ Hs] _]. unfold end_. lia.
    + eapply present_agree; [done|done|done|exact Ef|apply Hd|done|unfold end_; lia|done].
  - apply wp_assoc, wp_bind. eapply wp_mono; [| |by apply (verified_slab_spec w id r n off d)]; [|done]. intros [b|e] w'; cbn [on_ok]; [|done]. intros [-> ->].
    destruct (slice d start end_) as [b|]; cbn; [|done]. apply wp_ret_bind, touch_ret; done.
Qed.

(** A complete sparse object agrees with its content everywhere. *)
Lemma complete_agree w id r ino f d : inv w → bt_get (objects (index_db (disk w))) id = Some r → loc r = Sparse → is_complete r = true →
  bt_get (sparse_files (disk w)) id = Some (ino, f) → authentic id (size r) d → take (length d) f = d.
Proof.
  intros Hw Hr Hl Hc Hf Hd. pose proof (size_nonneg w id r Hw Hr) as H0. pose proof (sparse_ok_of w id r Hw Hr Hl) as (_ & S2 & _ & S4). destruct (S4 ino f Hf) as [Hlen _].
  assert (agree f d 0 (size r)) as Ha.
  { intros x Hx. apply (present_agree w id r ino f d 0 (size r)); try done. apply GroupBits.contains_all_spec; [done|].
    unfold is_complete in Hc. rewrite Hl in Hc. apply (proj1 (GroupBits.is_complete_spec _ _ S2 H0)) in Hc. intros g Hg.
    assert (0 <= g < group_count (size r)) as Hgr.
    { unfold groups_for_bytes, in_range in Hg. cbn in Hg. destruct (Z.leb_spec (size r) 0); [cbn in Hg; lia|]. cbn in Hg. unfold group_count. change (0 / GROUP_BYTES) with 0 in Hg. lia. }
    destruct Hc as [Hz|Hz]; [lia|]. rewrite Hz. by apply (proj2 (GroupBits.complete_spec (size r) H0)). }
  destruct Hd as [_ Hd]. apply list_eq. intros i. destruct (decide (i < length d)%nat).
  - rewrite lookup_take_lt by done. rewrite <- (Nat2Z.id i). apply Ha. unfold blen in *. lia.
  - rewrite !lookup_ge_None_2; [done|lia|rewrite length_take; lia].
Qed.

Lemma read_bytes_spec cfg w id r d now : inv w → bt_get (objects (index_db (disk w))) id = Some r → loc r ≠ Extern → content id (size r) d →
  wp (read_bytes cfg id now) (on_ok (λ bs _, take (length d) bs = d ∧
    (bs = d ∨ loc r = Sparse ∧ ∃ ino, bt_get (sparse_files (disk w)) id = Some (ino, bs))) (λ _ _, True)) True_ w.
Proof.
  intros Hw Hr Hl Hd. unfold read_bytes. apply wp_required. rewrite Hr. cbn [option_wp]. destruct (is_complete r) eqn:Ec; cbn [negb]; [|done]. destruct (loc r) as [|n off|] eqn:El; [| |done].
  - unfold read_data. rewrite El. apply wp_assoc, wp_read_sparse. destruct (bt_get (sparse_files (disk w)) id) as [[ino f]|] eqn:Ef; cbn [option_wp]; [|done].
    apply wp_ret_bind, (touch_ret _ _ _ _ (λ bs, take (length d) bs = d ∧ _)); [done|]. cbn. split; [by eapply complete_agree; [..|apply Hd]|]. right. split; [done|]. by exists ino.
  - apply wp_bind. eapply wp_mono; [| |by apply (verified_slab_spec w id r n off d)]; [|done]. intros [b|e] w'; cbn [on_ok]; [|done]. intros [-> ->].
    apply (touch_ret _ _ _ _ (λ bs, take (length d) bs = d ∧ _)); [done|]. split; [by rewrite firstn_all|by left].
Qed.

Lemma encode_spec cfg w id r d rs now : inv w → bt_get (objects (index_db (disk w))) id = Some r → content id (size r) d →
  wp (encode_slice cfg id rs now) (on_ok (λ out _, Verified.encode_slice d rs = Ok out) (λ _ _, True)) True_ w.
Proof.
  intros Hw Hr Hd. unfold encode_slice. apply wp_required. rewrite Hr. cbn [option_wp]. destruct (negb _); [done|].
  assert (∀ data ob, wp (out ← lift (Verified.encode_slice_from data ob id (size r) rs); touch_if_older id r now ;; mret out)
    (on_ok (λ out _, Verified.encode_slice d rs = Ok out) (λ _ _, True)) True_ w) as Henc.
  { intros data ob. apply wp_lift. destruct (Verified.encode_slice_from data ob id (size r) rs) as [out|] eqn:Eo; cbn; [|done].
    apply (touch_ret _ _ _ _ (λ out, Verified.encode_slice d rs = Ok out)); [done|]. destruct Hd as [[Hb Hs] _]. unfold Verified.encode_slice. rewrite Hb, Hs.
    eapply encode_sound; [exact Eo|by split]. }
  assert (wp (out ← (data ← read_data cfg id r; ob ← read_obao id; lift (Verified.encode_slice_from data ob.2 id (size r) rs)); touch_if_older id r now ;; mret out)
    (on_ok (λ out _, Verified.encode_slice d rs = Ok out) (λ _ _, True)) True_ w) as Hfile.
  { apply wp_assoc. assert ((read_data cfg id r w).2 = w ∧ ∀ w', read_data cfg id r w ≠ (Crash, w')) as [P1 P2].
    { unfold read_data, extern_path, read_tree, read_sparse, get_index, gets, some_or, mbind, M_bind. destruct (loc r); [| by split|].
      - by destruct (bt_get (sparse_files _) id).
      - destruct (xite_root cfg); [|by split]. cbn. destruct (bt_get (externs _) id); [|by split]. cbn. by destruct (tree _ _). }
    apply wp_bind. unfold wp at 1. destruct (read_data cfg id r w) as [[data|e|] w'] eqn:Edata; cbn in P1; [subst w'|done|by destruct (P2 w')].
    cbn [on_ok]. apply wp_assoc, wp_read_obao. destruct (bt_get (obao_files (disk w)) id) as [ob|]; cbn [option_wp]; [|done]. apply Henc. }
  destruct (loc r) as [|n off|] eqn:El; [exact Hfile| |exact Hfile].
  apply wp_assoc, wp_bind. eapply wp_mono; [| |by apply (read_slab_spec w id n off r)]; [|done]. intros [b|e] w'; cbn [on_ok]; [|done]. intros (-> & Hb & Hs).
  destruct (negb _); [done|]. apply wp_lift. assert (b = d) as -> by (by apply Hd). destruct (Verified.encode_slice d rs) as [out|] eqn:Eo; cbn; [|done].
  by apply (touch_ret _ _ _ _ (λ out', Ok out = Ok out')).
Qed.



(** ** What no failure undoes

    [always P m]: however [m] ends, done, failed or cut short, it relates the
    index it leaves to the one it found. *)

Definition always {A} (P : relation Index) (m : M A) : Prop := ∀ w, P (index_db (disk w)) (index_db (disk (m w).2)).

Section always.
Context (P : relation Index) `{!PreOrder P}.

Lemma always_bind {A T} (m : M A) (k : A → M T) : always P m → (∀ a, always P (k a)) → always P (m ≫= k).
Proof using Type*.
  intros Hm Hk w. specialize (Hm w). unfold mbind, M_bind. destruct (m w) as [[a|e|] w1]; cbn in Hm |- *; [|done|done]. etransitivity; [exact Hm|apply Hk].
Qed.
Lemma always_same {A} (m : M A) : (∀ w, (m w).2 = w) → always P m.
Proof using Type*. intros Hm w. by rewrite Hm. Qed.
Lemma always_ret {A} (a : A) : always P (mret a). Proof using Type*. by apply always_same. Qed.
Lemma always_raise {A} e : always P (raise e : M A). Proof using Type*. by apply always_same. Qed.
Lemma always_gets {A} (f : World → A) : always P (gets f). Proof using Type*. by apply always_same. Qed.
Lemma always_lift {A} (r : result IoError A) : always P (lift r). Proof using Type*. apply always_same. by destruct r. Qed.
Lemma always_some_or {A} e (o : option A) : always P (some_or e o). Proof using Type*. apply always_same. by destruct o. Qed.
Lemma always_set_mem f : always P (set_mem f). Proof using Type*. by intros w. Qed.
Lemma always_catch {A} (m : M A) : always P m → always P (catch m).
Proof using Type*. intros Hm w. specialize (Hm w). unfold catch. by destruct (m w) as [[a|e|] w1]. Qed.
Lemma always_when b m : always P m → always P (when b m).
Proof using Type*. intros Hm. destruct b; [done|apply always_ret]. Qed.
Lemma always_effect f : (∀ d, index_db (f d) = index_db d) → always P (effect f).
Proof using Type*. intros Hf w. unfold effect. destruct (power w) as [[|n]|]; cbn; by rewrite ?Hf. Qed.
Lemma always_append n bs : always P (append_slab n bs).
Proof using Type*. intros w. unfold append_slab. destruct (power w) as [[|p]|]; [done| |]; (destruct (faults w) as [|k fs]; [done|]; by destruct (k <? blen bs)). Qed.
Lemma always_txn {A} (f : Index → result IoError (A * Index)) : (∀ ix a ix', f ix = Ok (a, ix') → P ix ix') → always P (txn f).
Proof using Type*.
  intros Hf w. unfold txn. specialize (Hf (index_db (disk w))). destruct (f (index_db (disk w))) as [[a ix]|e]; [|done].
  destruct (power w) as [[|n]|]; cbn; eauto. reflexivity.
Qed.
Lemma always_for_each {A} (l : list A) f : (∀ a, always P (f a)) → always P (for_each l f).
Proof using Type*. intros Hf. induction l as [|a l IH]; [apply always_ret|]. apply always_bind; [apply Hf|done]. Qed.
End always.

Ltac always_tac :=
  repeat first
    [ apply always_ret; apply _ | apply always_raise; apply _ | apply always_gets; apply _ | apply always_lift; apply _ | apply always_some_or; apply _
    | apply always_set_mem; apply _ | apply always_append; apply _ | apply always_effect; [apply _|done]
    | apply always_catch; [apply _|] | apply always_for_each; [apply _|intros]
    | match goal with |- always _ (if ?b then _ else _) => destruct b | |- always _ (match ?o with _ => _ end) => destruct o end
    | apply always_bind; [apply _| |intros] ].

(** Objects outside [D] keep their records, but for their place in the slabs. *)
Definition kept (D : ObjId → Prop) (ix ix' : Index) : Prop :=
  bt_wf (objects ix) → bt_wf (objects ix') ∧ ∀ id, ¬ D id →
    match bt_get (objects ix) id with
    | Some r => ∃ r', bt_get (objects ix') id = Some r' ∧ (r' = r ∨ ∃ n off n' off', loc r = Slab n off ∧ r' = set_loc (Slab n' off') r)
    | None => bt_get (objects ix') id = None
    end.

Lemma kept_refl D ix : kept D ix ix.
Proof. intros Hwf. split; [done|]. intros id _. destruct (bt_get _ id) as [r|]; [|done]. exists r. auto. Qed.

#[global] Instance kept_preorder D : PreOrder (kept D).
Proof.
  split; [intros ix; apply kept_refl|]. intros x y z Hxy Hyz Hwf. destruct (Hxy Hwf) as [Hwy H1]. destruct (Hyz Hwy) as [Hwz H2]. split; [done|].
  intros id Hid. specialize (H1 id Hid). specialize (H2 id Hid). destruct (bt_get (objects x) id) as [r|]; [|by rewrite H1 in H2].
  destruct H1 as (r1 & Hr1 & E1). rewrite Hr1 in H2. destruct H2 as (r2 & Hr2 & E2). exists r2. split; [done|].
  destruct E1 as [->|(n & off & n' & off' & Hl & ->)]; [done|]. right. destruct E2 as [->|(m & o & m' & o' & Hl' & ->)]; [by exists n, off, n', off'|by exists n, off, m', o'].
Qed.

Lemma kept_objects D ix ix' : objects ix' = objects ix → kept D ix ix'.
Proof. intros E Hwf. rewrite E. by apply kept_refl. Qed.

Lemma kept_insert (D : ObjId → Prop) id r ix ix' : D id → objects ix' = bt_insert id r (objects ix) → kept D ix ix'.
Proof.
  intros HD E Hwf. rewrite E. split; [by apply bt_insert_wf|]. intros id' Hid'. rewrite bt_get_insert, decide_False by congruence.
  destruct (bt_get _ id') as [r'|]; [|done]. exists r'. auto.
Qed.

Lemma kept_remove (D : ObjId → Prop) id ix ix' : D id → objects ix' = bt_remove id (objects ix) → kept D ix ix'.
Proof.
  intros HD E Hwf. rewrite E. split; [by apply bt_remove_wf|]. intros id' Hid'. rewrite bt_get_remove, decide_False by (done || congruence).
  destruct (bt_get _ id') as [r'|]; [|done]. exists r'. auto.
Qed.

Lemma kept_relocate D id n off n' off' ix ix' : objects ix' = (relocate id (Slab n off) (Slab n' off') (objects ix)).1 → kept D ix ix'.
Proof.
  intros E Hwf. rewrite E. unfold relocate. destruct (bt_get (objects ix) id) as [cur|] eqn:Ec; [|exact (kept_refl D ix Hwf)].
  case_bool_decide as Hl; [|exact (kept_refl D ix Hwf)]. cbn. split; [by apply bt_insert_wf|]. intros id' _. rewrite bt_get_insert. case_decide as Di.
  - subst id'. rewrite Ec. eexists. split; [done|]. right. by exists n, off, n', off'.
  - destruct (bt_get _ id') as [r'|]; [|done]. exists r'. auto.
Qed.

Section lossless.
Context (cfg : StoreConfig) (D : ObjId → Prop).

Lemma always_append_or_shrink n off bs : always (kept D) (append_or_shrink n off bs).
Proof. unfold append_or_shrink. always_tac. Qed.

Lemma always_read_slab n off sz : always (kept D) (read_slab n off sz).
Proof. unfold read_slab. always_tac. Qed.

Lemma always_compact_slab victim : always (kept D) (compact_slab cfg victim).
Proof.
  unfold compact_slab. apply always_bind; [apply _|apply always_gets; apply _|intros live0]. apply always_bind; [apply _| |intros _].
  - apply always_for_each; [apply _|]. intros e. destruct (loc e.2) as [|n off|]; [apply always_ret; apply _| |apply always_ret; apply _].
    unfold move_object. apply always_bind; [apply _|apply always_read_slab|intros b]. apply always_bind; [apply _|apply always_gets; apply _|intros open].
    apply always_bind; [apply _|apply always_append_or_shrink|intros _]. apply always_bind; [apply _| |intros opened; apply always_set_mem; apply _].
    apply always_txn; [apply _|]. intros ix a ix'. destruct (relocate _ _ _ _) as [objs moved] eqn:Er. destruct (advance _ _ _ _ _) as [s o]. intros [= _ <-].
    eapply kept_relocate. rewrite Er. done.
  - apply always_bind; [apply _| |intros _; apply always_effect; [apply _|done]]. apply always_txn; [apply _|]. intros ix a ix' [= _ <-]. by apply kept_objects.
Qed.

Lemma always_compact : always (kept D) (compact_if_worthwhile cfg).
Proof. unfold compact_if_worthwhile. apply always_bind; [apply _|apply always_gets; apply _|]. intros victims. apply always_for_each; [apply _|]. apply always_compact_slab. Qed.

Lemma always_remove id : D id → always (kept D) (remove cfg id).
Proof.
  intros HD. unfold remove. apply always_bind; [apply _|apply always_gets; apply _|intros [rec|]; [|apply always_ret; apply _]].
  apply always_bind; [apply _| |intros _; apply always_compact]. unfold delete_object. apply always_bind; [apply _|apply always_gets; apply _|intros ws].
  destruct (bt_contains ws id); [apply always_ret; apply _|]. apply always_bind; [apply _| |intros _].
  - apply always_txn; [apply _|]. intros ix a ix' [= _ <-]. by eapply kept_remove.
  - unfold unlink_pair. always_tac.
Qed.

Lemma always_update id f : D id → always (kept D) (update_record id f).
Proof.
  intros HD. apply always_txn; [apply _|]. intros ix a ix'. destruct (bt_get (objects ix) id) as [r|]; [|done]. intros [= _ <-]. by eapply kept_insert.
Qed.

Lemma always_touch_if_older id rec now : D id → always (kept D) (touch_if_older id rec now).
Proof.
  intros HD. apply always_when; [apply _|]. unfold touch. apply always_bind; [apply _|apply always_catch, always_update; [apply _|done]|].
  intros [r|[]]; (apply always_ret || apply always_raise); apply _.
Qed.

Lemma always_insert id ns bs now : D id → always (kept D) (insert_bytes cfg id ns bs now).
Proof.
  intros HD. unfold insert_bytes. destruct (negb _); [apply always_raise; apply _|]. apply always_bind; [apply _| |].
  - unfold already_here. apply always_bind; [apply _|apply always_gets; apply _|intros [rec|]; [|apply always_ret; apply _]].
    destruct (is_complete rec).
    + apply always_bind; [apply _|by apply always_touch_if_older|intros; apply always_ret; apply _].
    + apply always_bind; [apply _|by apply always_remove|intros _]. apply always_bind; [apply _|apply always_gets; apply _|intros; apply always_ret; apply _].
  - intros [b|]; [apply always_ret; apply _|]. unfold append_object. apply always_bind; [apply _|apply always_gets; apply _|intros open].
    apply always_bind; [apply _|apply always_append_or_shrink|intros _]. apply always_bind; [apply _| |intros opened; apply always_bind; [apply _|apply always_set_mem; apply _|intros _; apply always_ret; apply _]].
    apply always_txn; [apply _|]. intros ix a ix'. destruct (advance _ _ _ _ _) as [s o]. intros [= _ <-]. by eapply kept_insert.
Qed.
End lossless.

(** ** A whole object, stored *)

(** The index and the slab files hold exactly these bytes for an id. *)
Definition stored (id : ObjId) (bs : bytes) (d : Disk) : Prop :=
  ∃ r n off m, bt_get (objects (index_db d)) id = Some r ∧ loc r = Slab n off ∧ size r = blen bs ∧
    bt_get (slabs (index_db d)) n = Some m ∧ off + blen bs <= slab_len m ∧
    is_Some (bt_get (slab_files d) n) ∧ slice (slab_bytes (slab_files d) n) off (off + blen bs) = Some bs.

Lemma landed_stored cfg id ns bs now w w' : inv w → inv w' → landed cfg id (slab_record ns (open_slab (mem w)) bs now) bs w w' → stored id bs (disk w').
Proof.
  intros [Hd Hm] [Hd' _] [Ed Em]. destruct (mi_open _ Hm) as (m & H1 & H2 & H3 & H4). set (o := open_slab (mem w)) in *.
  assert (bt_get (objects (index_db (disk w'))) id = Some (slab_record ns o bs now)) as Hr by (rewrite Ed; cbn; rewrite bt_get_insert, decide_True by done; done).
  pose proof (ok_obj _ _ _ _ _ _ Hd' id _ Hr) as [_ (m' & b & Hm' & _ & Hl & _)]. exists (slab_record ns o bs now), o.1, o.2, m'.
  split_and!; [done|done|done|done|exact Hl| |].
  - rewrite Ed. cbn. rewrite bt_get_insert, decide_True by done. by eexists.
  - rewrite Ed. cbn [disk slab_files]. rewrite slab_bytes_append. rewrite <- (app_nil_r (_ ++ bs)), <- app_assoc. apply slice_app; lia.
Qed.

Lemma insert_spec cfg id ns bs now w : inv w →
  wp (insert_bytes cfg id ns bs now) (on_ok (λ b w', inv w' ∧ blake3 bs = id ∧ (b = true → stored id bs (disk w'))) (λ _ w', inv w')) dinv w.
Proof.
  intros Hw. unfold insert_bytes. unfold Verified.verify_whole. case_bool_decide as Hid; cbn [negb]; [|done].
  apply wp_bind. eapply wp_mono; [|done|by apply already_here_spec]. intros [[b|]|e] w1; cbn [on_ok]; [|intros (H1 & F1 & Hn & _)|by intros [? ?]].
  - intros (H1 & F1 & _ & Hb). split_and!; [done|done|]. intros ->. done.
  - eapply wp_mono; [|done|by apply append_object_spec; auto]. intros [b|e] w2; cbn [on_ok].
    + intros (H2 & _ & _ & Hl). split_and!; [done|done|]. intros _. exact (landed_stored cfg id ns bs now w1 w2 H1 H2 Hl).
    + by intros [? _].
Qed.

(** The store opened again over a disk. *)
Definition reopened (d : Disk) (w : World) : Prop := ∃ w0, disk w0 = d ∧ open_with w0 = (Done tt, w).

Lemma reopened_spec d w : dinv d → reopened d w → inv w ∧ same_content d (disk w) ∧ files_kept (slabs (index_db d)) d (disk w).
Proof. intros Hd (w0 & <- & E). pose proof (open_spec w0 Hd) as Ho. unfold wp in Ho. rewrite E in Ho. by destruct Ho as (? & ? & ? & _). Qed.

Lemma stored_read cfg id bs d w now : blake3 bs = id → dinv d → stored id bs d → reopened d w → power w = None → ∃ w', read_bytes cfg id now w = (Done bs, w').
Proof.
  intros Hid Hd (r & n & off & m & Hr & Hl & Hs & Hm & Hle & Hf & Hsl) Hre Hp. destruct (reopened_spec d w Hd Hre) as (Hw & (So & _) & Hk).
  destruct (Hk n m Hm) as [Hk1 Hk2]. destruct (Hk1 Hf) as [file Hfile]. specialize (Hk2 off (off + blen bs) bs Hle Hsl). unfold slab_bytes in Hk2. rewrite Hfile in Hk2. cbn in Hk2.
  unfold read_bytes, required, get_record, get_index, gets, some_or, mbind, M_bind. rewrite So, Hr. cbn. unfold is_complete. rewrite Hl. cbn.
  unfold read_verified_slab, read_slab, gets, some_or, mbind, M_bind. rewrite Hfile. cbn. unfold read_exact_at. rewrite Hs, Hk2. cbn.
  unfold Verified.verify_whole. rewrite bool_decide_eq_true_2 by done. cbn. unfold touch_if_older, when. destruct (_ <? _); [|by eexists].
  unfold touch, catch, update_record, txn, mbind, M_bind. rewrite So, Hr, Hp. cbn. by eexists.
Qed.


(** C13: Compacting a slab loses nothing. However it ends, and wherever in it
    the power goes, every object keeps its record, at most at another place,
    and the disk is one on which every record is backed by its bytes; when it
    completes, the slab's row and its file are gone. *)
Theorem compaction_lossless cfg victim w : inv w → victim < (open_slab (mem w)).1 → let out := compact_slab cfg victim w in
  dinv (disk out.2) ∧ kept (λ _, False) (index_db (disk w)) (index_db (disk out.2)) ∧
  (out.1 = Done tt → inv out.2 ∧ bt_get (slabs (index_db (disk out.2))) victim = None ∧ bt_get (slab_files (disk out.2)) victim = None).
Proof.
  intros Hw Hlt out. pose proof (compact_slab_spec cfg victim w Hw Hlt) as Hs. pose proof (always_compact_slab cfg (λ _, False) victim w) as Ha. fold out in Ha.
  unfold wp in Hs. fold out in Hs. destruct out as [[[]|e|] w'] eqn:E; cbn in *.
  - destruct Hs as (Hw' & _ & Hdr). split_and!; [apply Hw'|done|]. intros _. split; [done|]. exact Hdr.
  - split_and!; [apply Hs|done|done].
  - split_and!; [done|done|done].
Qed.
End run.
