(* ===== verification/StoreQuota.v ===== *)
(** * Eviction and the quota ([crates/epix-blob/src/store.rs])

    What [evict_lru] and [enforce_quota] free, what they may take, and in
    which order. *)
From Stdlib Require Import ZArith Lia Strings.Byte.
From stdpp Require Import base list sorting strings relations.
From S2P Require Import Prelude Ordered Bitfield Store StoreInv StoreFlight StoreRun.
#[local] Open Scope Z_scope.

Section quota.
Context `{B : Bao} `{L : !BaoLaws}.

(** ** What the objects hold *)

Abbreviation objs w := (objects (index_db (disk w))).
Definition holding (w : World) : Z := bt_sum held (objs w).

Lemma sat_fold_nonneg {A} (f : A → Z) l : (∀ a, a ∈ l → 0 <= f a) → ∀ t, 0 <= t → 0 <= foldl (λ t a, sat_add64 t (f a)) t l.
Proof.
  induction l as [|a l IH]; intros Hf t Ht; cbn; [done|]. apply IH; [intros; apply Hf; by right|]. specialize (Hf a ltac:(by left)). unfold sat_add64, u64_max. lia.
Qed.

Lemma sat_fold {A} (f : A → Z) l : (∀ a, a ∈ l → 0 <= f a) → ∀ t, 0 <= t <= u64_max →
  foldl (λ t a, sat_add64 t (f a)) t l = Z.min u64_max (t + foldr (λ a t, f a + t) 0 l).
Proof.
  induction l as [|a l IH]; intros Hf t Ht; cbn; [lia|]. assert (0 <= f a) by (apply Hf; by left).
  assert (0 <= foldr (λ a t, f a + t) 0 l) by (clear -Hf; induction l as [|b l IH]; cbn; [done|]; pose proof (Hf b ltac:(right; by left)); specialize (IH ltac:(intros c Hc; apply Hf; apply elem_of_cons in Hc as [->|?]; [by left|right; by right])); lia).
  rewrite IH; [|intros; apply Hf; by right|unfold sat_add64, u64_max in *; lia]. unfold sat_add64. lia.
Qed.

Lemma wf_from_ordered rs : ∀ lo, wf_from lo rs → Forall (λ r : range, lo <= r.1 ∧ r.1 <= r.2) rs.
Proof.
  induction rs as [|[s e] rs IH]; intros lo Hwf; constructor; destruct Hwf as (H1 & H2 & Hwf); cbn; [lia|]. eapply Forall_impl; [exact (IH _ Hwf)|]. cbn. lia.
Qed.

Lemma held_nonneg w id r : inv w → bt_get (objs w) id = Some r → 0 <= held r.
Proof.
  intros Hw Hr. pose proof (size_nonneg w id r Hw Hr) as H0. unfold held. destruct (loc r) eqn:El; [|done|done].
  destruct (sparse_ok_of w id r Hw Hr El) as (_ & Hwf & _). apply sat_fold_nonneg; [|done]. intros g Hg. apply wf_from_ordered in Hwf. rewrite Forall_forall in Hwf.
  specialize (Hwf g Hg). cbn in Hwf. unfold sat_mul_min, sat_mul64, GROUP_BYTES, u64_max. lia.
Qed.

Lemma total_held_spec w : inv w → total_held (objs w) = Z.min u64_max (holding w) ∧ 0 <= holding w.
Proof.
  intros Hw. assert (∀ e, e ∈ objs w → 0 <= held e.2) as Hn.
  { intros [k r] Hin. apply (held_nonneg w k r Hw). apply bt_get_elem; [apply Hw|done]. }
  unfold total_held, holding, bt_sum. split.
  - rewrite (sat_fold (λ e : ObjId * ObjRecord, held e.2)); [|done|unfold u64_max; lia]. by rewrite Z.add_0_l.
  - revert Hn. generalize (objs w). intros l Hn. induction l as [|e l IH]; cbn; [done|]. pose proof (Hn e ltac:(by left)). specialize (IH ltac:(intros; apply Hn; by right)). lia.
Qed.

Lemma bt_sum_same (f : ObjRecord → Z) (m m' : btree ObjId ObjRecord) : bt_wf m → bt_wf m' → (∀ k, f <$> bt_get m k = f <$> bt_get m' k) → bt_sum f m = bt_sum f m'.
Proof.
  intros H1 H2 H. assert (bt_map f m = bt_map f m') as E.
  { apply bt_ext; [by apply bt_map_wf|by apply bt_map_wf|]. intros k. by rewrite !bt_get_map. }
  assert (∀ l : btree ObjId ObjRecord, bt_sum f l = bt_sum (λ x, x) (bt_map f l)) as Hs.
  { unfold bt_sum, bt_map. intros l. induction l as [|e l IH]; cbn; [done|]. by rewrite IH. }
  by rewrite !Hs, E.
Qed.

Lemma relocated_holding w w' : inv w → inv w' → relocated w w' → holding w' = holding w.
Proof.
  intros Hw Hw' [_ H]. apply bt_sum_same; [apply Hw'|apply Hw|]. intros k. specialize (H k). destruct (bt_get (objs w) k) as [r|].
  - destruct H as (r' & -> & [->|(n & off & n' & off' & Hl & ->)]); [done|]. cbn. f_equal. unfold held, set_loc. cbn. by rewrite Hl.
  - by rewrite H.
Qed.

(** ** The eviction loop *)

(** An id that eviction cannot take any more. *)
Definition spent (w : World) (id : ObjId) : Prop := ∀ r, bt_get (objs w) id = Some r → evictable r = true → guarded_id w id = true.

Lemma evictable_moved n off n' off' r : loc r = Slab n off → evictable (set_loc (Slab n' off') r) = evictable r.
Proof. intros Hl. unfold evictable. cbn. by rewrite Hl. Qed.

Lemma spent_evicting w w' id : evicting w w' → spent w id → spent w' id.
Proof.
  intros [F [_ H]] Hs r' Hr' He. rewrite (guarded_frame _ _ _ id F). specialize (H id). destruct (bt_get (objs w) id) as [r|] eqn:Er.
  - destruct H as [(r0 & Hr0 & E & _)|[Hn _]]; [|congruence]. assert (r0 = r') as -> by congruence. apply (Hs r Er).
    destruct E as [->|(n & off & n' & off' & Hl & ->)]; [done|]. by rewrite (evictable_moved n off n' off' r Hl) in He.
  - congruence.
Qed.

(** What freeing so many bytes means. *)
Definition freed_by (w w' : World) (n : Z) : Prop := holding w' = holding w - n ∧ 0 <= n.

Lemma delete_freed id w : inv w →
  wp (delete_if_unreferenced id) (λ r w', inv w' ∧ evicting w w' ∧ spent w' id ∧ (∀ id', id' ≠ id → bt_get (objs w') id' = bt_get (objs w) id') ∧
    match r with Ok (Some rec) => freed_by w w' (held rec) | Ok None => holding w' = holding w | Err _ => False end) dinv w.
Proof.
  intros Hw. eapply wp_mono; [|done|by apply delete_if_unreferenced_spec]. intros [[rec|]|e] w' (H1 & F1 & HQ); [| |done].
  - destruct HQ as (Q1 & Q2 & Q3 & Q4). pose proof Q4 as (Eo & _). split_and!; [done| | | |split].
    + split; [done|]. eapply deleted_shrunk; [done|exact Q1|done|done].
    + intros r Hr. rewrite Eo, bt_get_remove, decide_True in Hr by (done || apply Hw). done.
    + intros id' Hne. rewrite Eo, bt_get_remove, decide_False by (done || apply Hw). done.
    + unfold holding. rewrite Eo, bt_sum_remove, Q1 by apply Hw. done.
    + exact (held_nonneg w id rec Hw Q1).
  - destruct HQ as (Q1 & Q2 & Q3). split_and!; [done| | |by rewrite Q1|unfold holding; by rewrite Q1].
    + split; [done|]. unfold shrunk. rewrite Q1. apply shrunk_refl.
    + intros r Hr He. unfold guarded_id. rewrite Q2. rewrite Q1 in Hr. destruct Q3 as [Hg|Hn]; [done|]. by rewrite (Hn r Hr) in He.
Qed.

(** The loop takes a prefix of the candidates and stops once it has freed
    enough. *)
Definition took (l : list (Z * ObjId)) (needed : Z) (w w' : World) (out : Z) : Prop :=
  ∃ pre post, l = pre ++ post ∧ (∀ e, e ∈ pre → spent w' e.2) ∧ (post = [] ∨ needed <= out) ∧
    ∀ id, is_Some (bt_get (objs w) id) → bt_get (objs w') id = None → id ∈ map snd pre.

Lemma evicting_loop_spec l needed : ∀ freed w, inv w →
  wp (evict_loop l needed freed) (on_ok (λ out w', inv w' ∧ evicting w w' ∧ freed_by w w' (out - freed) ∧ took l needed w w' out) (λ _ _, False)) dinv w.
Proof.
  induction l as [|[la id] l IH]; intros freed w Hw; cbn [evict_loop].
  { split_and!; [done|done|split; [lia|lia]|]. exists [], []. split_and!; [done|by intros e ?%elem_of_nil|by left|]. intros id [r Hr]. congruence. }
  destruct (Z.leb_spec needed freed).
  { split_and!; [done|done|split; [lia|lia]|]. exists [], ((la, id) :: l). split_and!; [done|by intros e ?%elem_of_nil|by right|]. intros id' [r Hr]. congruence. }
  apply wp_bind. eapply wp_mono; [|done|by apply delete_freed]. intros [deleted|e] w1; cbn [on_ok]; [|by intros (_ & _ & _ & _ & ?)]. intros (I1 & E1 & S1 & O1 & HQ).
  eapply wp_mono; [|done|by apply IH]. intros [out|e] w2; cbn [on_ok]; [|done]. intros (I2 & E2 & [D2 N2] & (pre & post & -> & Hpre & Hpost & Hgone)).
  split_and!; [done|by etransitivity| |].
  - destruct deleted as [rec|]; [destruct HQ as [D1 N1]|]; split; lia.
  - exists ((la, id) :: pre), post. split_and!; [done| |done|].
    + intros e [->|He]%elem_of_cons; [by eapply spent_evicting|by apply Hpre].
    + intros id' Hid' Hn. cbn. destruct (decide (id' = id)) as [->|Hne]; [left|right]. apply Hgone; [|done]. by rewrite O1.
Qed.

(** Nothing is left that eviction may take. *)
Definition nothing_left (w : World) : Prop := ∀ id, spent w id.

(** What went had not been used later than anything that could have gone and
    stayed. *)
Definition oldest_first (w w' : World) : Prop :=
  ∀ id r id' r', bt_get (objs w) id = Some r → bt_get (objs w') id = None →
    bt_get (objs w) id' = Some r' → evictable r' = true → guarded_id w id' = false → is_Some (bt_get (objs w') id') → last_access r <= last_access r'.

Lemma evict_lru_spec cfg needed w : inv w →
  wp (evict_lru cfg needed) (λ r w', inv w' ∧ evicting w w' ∧ ∃ freed, freed_by w w' freed ∧ (nothing_left w' ∨ needed <= freed) ∧ oldest_first w w' ∧
    match r with Ok out => out = freed | Err _ => True end) dinv w.
Proof.
  intros Hw. unfold evict_lru. apply wp_get_index. set (cands := map _ _). set (l := Ordered.sort cands).
  assert (∀ id r, bt_get (objs w) id = Some r → evictable r = true → (last_access r, id) ∈ l) as Hin.
  { intros id r Hr He. unfold l. rewrite sort_perm. apply list_elem_of_fmap. exists (id, r). split; [done|]. apply elem_of_bfilter. split; [|done]. by apply bt_get_elem; [apply Hw|]. }
  assert (∀ la id, (la, id) ∈ l → ∃ r, bt_get (objs w) id = Some r ∧ la = last_access r) as Hof.
  { intros la id Hl. unfold l in Hl. rewrite sort_perm in Hl. apply list_elem_of_fmap in Hl as ([k r] & [= -> ->] & [Hk _]%elem_of_bfilter). exists r. split; [|done]. by apply bt_get_elem; [apply Hw|]. }
  apply wp_bind. eapply wp_mono; [|done|by apply evicting_loop_spec]. intros [out|e] w1; cbn [on_ok]; [|done].
  intros (I1 & E1 & D1 & (pre & post & Hl & Hpre & Hpost & Hgone)). rewrite Z.sub_0_r in D1.
  assert (∀ w2, inv w2 → compacting w1 w2 → inv w2 ∧ evicting w w2 ∧ freed_by w w2 out ∧ (nothing_left w2 ∨ needed <= out) ∧ oldest_first w w2) as Hend.
  { intros w2 I2 C2. assert (evicting w1 w2) as E2 by (by apply compacting_dropping). assert (evicting w w2) as E3 by (by etransitivity).
    split_and!; [done|done| | |].
    - destruct D1 as [D1 N1]. split; [|done]. rewrite (relocated_holding w1 w2); [done|done|done|apply C2].
    - destruct Hpost as [->|?]; [left|by right]. rewrite app_nil_r in Hl. intros id. apply (spent_evicting w1 w2); [done|]. intros r Hr He.
      pose proof (proj2 (proj2 E1) id) as Hid. destruct (bt_get (objs w) id) as [r0|] eqn:E0; [|congruence]. destruct Hid as [(r1 & Hr1 & Er & _)|[? _]]; [|congruence].
      assert (r1 = r) as -> by congruence. assert (evictable r0 = true) as He0 by (destruct Er as [->|(n & off & n' & off' & Hloc & ->)]; [done|by rewrite (evictable_moved n off n' off' r0 Hloc) in He]).
      pose proof (Hin id r0 E0 He0) as Hi. rewrite Hl in Hi. exact (Hpre _ Hi r Hr He).
    - intros id r id' r' Hr Hn Hr' He' Hg' Hstay. pose proof (proj2 (proj2 C2)) as Hrel.
      assert (bt_get (objs w1) id = None) as Hn1. { specialize (Hrel id). destruct (bt_get (objs w1) id); [|done]. destruct Hrel as (? & ? & _). congruence. }
      pose proof (Hgone id ltac:(by eexists) Hn1) as Hid. apply list_elem_of_fmap in Hid as ([la k] & -> & Hid). cbn in Hr.
      destruct (Hof la k) as (rk & Hrk & ->); [rewrite Hl; apply elem_of_app; by left|]. assert (rk = r) as -> by (cbn in Hrk; congruence).
      assert ((last_access r', id') ∈ post) as Hpo.
      { pose proof (Hin id' r' Hr' He') as Hi. rewrite Hl in Hi. apply elem_of_app in Hi as [Hi|Hi]; [|done]. exfalso.
        pose proof (spent_evicting w1 w2 id' E2 (Hpre _ Hi)) as Hsp. destruct Hstay as [r2 Hr2]. pose proof (proj2 (proj2 E3) id') as Hid'. rewrite Hr' in Hid'.
        destruct Hid' as [(r3 & Hr3 & Er & _)|[? _]]; [|congruence]. assert (r3 = r2) as -> by congruence.
        assert (evictable r2 = true) as He2 by (destruct Er as [->|(n & off & n' & off' & Hloc & ->)]; [done|by rewrite (evictable_moved n off n' off' r' Hloc)]).
        pose proof (Hsp r2 Hr2 He2) as Hg. rewrite (guarded_frame _ _ _ id' (proj1 E3)) in Hg. congruence. }
      pose proof (sort_sorted cands) as Hsort. fold l in Hsort. rewrite Hl in Hsort.
      pose proof (StronglySorted_app_1_elem_of _ _ _ (last_access r, k) (last_access r', id') Hsort Hid Hpo) as Hle.
      apply ole_spec in Hle as [Hle|[= ? ?]]; [|lia]. unfold olt in Hle. cbn in Hle. destruct (Z.compare_spec (last_access r) (last_access r')); [lia|lia|done]. }
  apply wp_bind. eapply wp_mono; [|done|by apply safe_compact]. intros [[]|e] w2 [I2 C2]; cbn [on_ok]; destruct (Hend w2 I2 C2) as (? & ? & ? & ? & ?).
  - split_and!; [done|done|]. by exists out.
  - split_and!; [done|done|]. by exists out.
Qed.

Lemma reclaim_loop_spec l : ∀ reserved freed w, inv w → 0 <= freed → freed + holding w <= u64_max →
  wp (reclaim_loop l reserved freed) (on_ok (λ out w', inv w' ∧ evicting w w' ∧ freed_by w w' (out - freed)) (λ _ _, False)) dinv w.
Proof.
  induction l as [|[la [id u]] l IH]; intros reserved freed w Hw H0 Hb; cbn [reclaim_loop]; [split_and!; [done|done|split; lia]|].
  destruct (_ <=? _); [split_and!; [done|done|split; lia]|].
  apply wp_bind. eapply wp_mono; [|done|by apply delete_freed]. intros [[rec|]|e] w1; cbn [on_ok]; [| |by intros (_ & _ & _ & _ & ?)]; intros (I1 & E1 & S1 & O1 & HQ).
  - destruct HQ as [D1 N1]. pose proof (proj2 (total_held_spec w1 I1)) as H1. assert (sat_add64 freed (held rec) = freed + held rec) as Hs by (unfold sat_add64; lia).
    rewrite Hs. eapply wp_mono; [|done|apply IH; [done|lia|lia]]. intros [out|e] w2; cbn [on_ok]; [|done]. intros (I2 & E2 & [D2 N2]). split_and!; [done|by etransitivity|split; lia].
  - eapply wp_mono; [|done|apply IH; [done|lia|lia]]. intros [out|e] w2; cbn [on_ok]; [|done]. intros (I2 & E2 & [D2 N2]). split_and!; [done|by etransitivity|split; lia].
Qed.

(** C14: Enforcing a quota. The only objects that go are unreferenced, not the
    user's own files, and neither being written nor held; every other object
    keeps its record (one in a slab may be moved by compaction) and its sparse
    file. The count returned is what the objects held less by. Afterwards
    what is held is within the quota, unless nothing is left that may go. When
    it fails (compaction met an input or output error) the same holds of what
    it did take, and wherever the power goes the disk is one the store
    opens. *)
Theorem quota_enforced cfg quota w : inv w → 0 <= quota → holding w <= u64_max → let out := enforce_quota cfg quota w in
  dinv (disk out.2) ∧
  (out.1 ≠ Crash → inv out.2 ∧ evicting w out.2 ∧ (holding out.2 <= quota ∨ nothing_left out.2)) ∧
  ∀ freed, out.1 = Done freed → holding out.2 = holding w - freed.
Proof.
  intros Hw Hq Hb out.
  assert (wp (enforce_quota cfg quota) (λ r w', inv w' ∧ evicting w w' ∧ (holding w' <= quota ∨ nothing_left w') ∧
    match r with Ok freed => holding w' = holding w - freed | Err _ => True end) dinv w) as Hs.
  { unfold enforce_quota, enforce_reservation_bound. apply wp_assoc, wp_get_index. set (rows := reserving _). set (reserved := foldl _ 0 rows).
    assert (wp (if reserved <=? MAX_RESERVED_BYTES then mret 0 else reclaim_loop (Ordered.sort (map (λ e, (last_access e.2, (e.1, unfilled e.2))) (bt_filter (λ r, refcount r =? 0) rows))) reserved 0)
      (on_ok (λ out w', inv w' ∧ evicting w w' ∧ freed_by w w' out) (λ _ _, False)) dinv w) as Hfirst.
    { destruct (_ <=? _); [split_and!; [done|done|split; lia]|]. eapply wp_mono; [|done|apply reclaim_loop_spec; [done|done|lia]]. intros [o|e] w1; cbn [on_ok]; [|done]. by rewrite Z.sub_0_r. }
    apply wp_bind. eapply wp_mono; [|done|exact Hfirst]. intros [freed|e] w1; cbn [on_ok]; [|done]. intros (I1 & E1 & [D1 N1]).
    destruct (total_held_spec w1 I1) as [T1 H1]. apply wp_get_index. rewrite T1. assert (Z.min u64_max (holding w1) = holding w1) as -> by lia.
    destruct (Z.ltb_spec quota (holding w1)); [|by split_and!; [| |left|]]. apply wp_bind. eapply wp_mono; [|done|by apply evict_lru_spec].
    intros r w2 (I2 & E2 & more & [D2 N2] & Hn & _ & Hr). pose proof (proj2 (total_held_spec w2 I2)) as H2.
    assert (holding w2 <= quota ∨ nothing_left w2) as Hqn by (destruct Hn; [by right|left; lia]).
    assert (evicting w w2) as E3 by (by etransitivity). destruct r as [m|e]; cbn [on_ok].
    - subst m. split_and!; [done|done|done|]. cbn. unfold sat_add64. lia.
    - by split_and!. }
  unfold wp in Hs. fold out in Hs. destruct out as [[freed|e|] w'] eqn:E; cbn in *.
  - destruct Hs as (I & Ev & H & D). split_and!; [apply I|done|]. intros f [= ->]. done.
  - destruct Hs as (I & Ev & H & _). split_and!; [apply I|done|done].
  - split_and!; [done|done|done].
Qed.

(** Evicting least-recently-used objects: enough is freed or nothing is
    left that may go, and nothing that went had been used later than anything
    that could have gone in its place and stayed. *)
Theorem eviction_lru cfg needed w : inv w → let out := evict_lru cfg needed w in out.1 ≠ Crash →
  inv out.2 ∧ evicting w out.2 ∧ oldest_first w out.2 ∧
  ∃ freed, holding out.2 = holding w - freed ∧ (nothing_left out.2 ∨ needed <= freed) ∧ ∀ n, out.1 = Done n → n = freed.
Proof.
  intros Hw out Hc. pose proof (evict_lru_spec cfg needed w Hw) as Hs. unfold wp in Hs. fold out in Hs. destruct out as [[n|e|] w']; cbn in *; [| |done];
    destruct Hs as (I & E & freed & [D N] & Hn & Ho & Hr); split_and!; try done; exists freed; split_and!; try done. intros m [= ->]. done.
Qed.
End quota.
