(* ===== verification/StoreCheck.v ===== *)
(** * Concrete runs of the store ([crates/epix-blob/src/store.rs])

    A verified layer small enough to run (an object's id is its content, an
    encoded slice is the whole object), the store's theorems applied to runs
    over it, and the runs behind the findings. *)
From Stdlib Require Import ZArith Lia Strings.Byte.
From stdpp Require Import base gmap list sorting strings relations.
From S2P Require Import Prelude Ordered Bitfield Store StoreInv StoreFlight StoreRun StoreQuota.
#[local] Open Scope Z_scope.

Definition span (r : range) : gset Z := list_to_set (seqZ r.1 (r.2 - r.1)).

#[export] Instance toy : Bao := {
  blake3 b := b; bao_outboard _ := []; bao_outboard_size _ := 0;
  chunk_set := gset Z; cr_empty := ∅; cr_of := span; cr_union := (∪); is_superset a b := bool_decide (b ⊆ a);
  bao_decode enc root size cr obao :=
    if bool_decide (enc = root) && (blen enc =? size) then ([(0, enc)], obao, Ok ()) else ([], obao, Err (if bool_decide (enc `prefix_of` root) then UnexpectedEof else InvalidData));
  bao_encode data obao root size cr := if bool_decide (data = root) then Ok data else Err InvalidData;
  bao_valid data obao root size within := Ok (if bool_decide (data = root) then within else ∅)
}.

#[export] Instance toy_laws : BaoLaws.
Proof.
  refine {| chunk_has (s : @chunk_set toy) c := c ∈ (s : gset Z) |}.
  - intros c. cbn. set_solver.
  - intros [s e] c. cbn. unfold span, in_range. rewrite elem_of_list_to_set, elem_of_seqZ. cbn. lia.
  - intros x y c. cbn. set_solver.
  - intros x y. cbn. rewrite bool_decide_eq_true. set_solver.
  - intros enc id size cr ob pos buf. cbn. case_bool_decide as E; cbn; [|by intros ?%elem_of_nil]. destruct (Z.eqb_spec (blen enc) size) as [E2|]; cbn; [|by intros ?%elem_of_nil].
    intros [= -> ->]%list_elem_of_singleton. split_and!; [done|lia|]. intros d [Hd _]. cbn in Hd. subst. rewrite <- (app_nil_r id) at 1. by apply slice_app0.
  - intros enc id size cr ob. cbn. case_bool_decide as E; cbn; [|done]. destruct (Z.eqb_spec (blen enc) size) as [E2|]; cbn; [|done].
    intros _ c x _ H0 _ Hx. exists 0, enc. split; [by apply list_elem_of_singleton|lia].
  - intros data ob id size within v. cbn. intros [= <-] c. case_bool_decide as E; [|by intros ?%not_elem_of_empty]. intros _ d [Hd _] x _ _. cbn in Hd. by subst.
  - intros data ob id size cr out. cbn. case_bool_decide as E; [|done]. intros [= <-] d [Hd _]. cbn in Hd. subst. by rewrite bool_decide_eq_true_2.
Defined.

(** Slabs are sealed at eight bytes; the xite tree is [/d]. *)
Definition cfg8 : StoreConfig := mkConfig 8 128 (Some [RootDir; Normal (bstr "d")]).
Definition empty_world : World := mkWorld (blank (λ _, None)) (mkMem (0, 0) [] []) None [].
Definition opened : World := (open_with empty_world).2.

Definition after {A} (m : M A) (w : World) : World := (m w).2.
Definition cut (n : nat) (w : World) : World := powered w (Some n) [].
Definition back (w : World) : World := after open_with (powered w None []).

(** ** Reaching concrete states *)

Lemma opened_reachable : reachable cfg8 (On opened []).
Proof. exists (λ _, None). eapply rtc_once. apply (step_open cfg8 empty_world opened). vm_compute. reflexivity. Qed.

Lemma reach_step cfg s s' : reachable cfg s → step cfg s s' → reachable cfg s'.
Proof. intros [t Ht] Hs. exists t. by eapply rtc_r. Qed.

Lemma reach_op cfg o w w' : reachable cfg (On w []) → op_wf o → run_op cfg o (powered w (power w) (faults w)) = (Done tt, w') → reachable cfg (On w' []).
Proof. intros Hr Ho E. eapply reach_step; [exact Hr|]. eapply step_op; [exact Ho|by intros f ?%elem_of_nil|left; by eexists]. Qed.

Lemma reach_inv cfg w fs : reachable cfg (On w fs) → inv w.
Proof. intros Hr. exact (proj1 (state_reachable _ _ Hr)). Qed.

Definition abc : ObjId := bstr "abcdefgh".
Definition xyz : ObjId := bstr "xyz".

(** Two objects in slabs; the first one seals its slab. *)
Definition two_objects : World := after (run_op cfg8 (OpInsert xyz Plain xyz 2)) (after (run_op cfg8 (OpInsert abc Plain abc 1)) opened).

Lemma two_reachable : reachable cfg8 (On two_objects []).
Proof.
  apply (reach_op cfg8 (OpInsert xyz Plain xyz 2) (after (run_op cfg8 (OpInsert abc Plain abc 1)) opened)); [|done|vm_compute; reflexivity].
  apply (reach_op cfg8 (OpInsert abc Plain abc 1) opened); [apply opened_reachable|done|vm_compute; reflexivity].
Qed.

Lemma abc_content : content abc 8 abc.
Proof. split; [by split|]. intros b [Hb _]. exact Hb. Qed.




(** An object leaves the sealed slab when the slab is compacted. *)
Lemma compaction_lossless_witness : (compact_slab cfg8 0 two_objects).1 = Done tt ∧ bt_get (slab_files (disk (compact_slab cfg8 0 two_objects).2)) 0 = None.
Proof.
  assert ((compact_slab cfg8 0 two_objects).1 = Done tt) as E by (vm_compute; reflexivity). split; [exact E|].
  destruct (compaction_lossless cfg8 0 two_objects (reach_inv _ _ _ two_reachable) ltac:(vm_compute; reflexivity)) as (_ & _ & H). apply (H E).
Defined.

Lemma quota_enforced_witness : (enforce_quota cfg8 8 two_objects).1 = Done 8 ∧ holding (enforce_quota cfg8 8 two_objects).2 = 3.
Proof.
  assert ((enforce_quota cfg8 8 two_objects).1 = Done 8) as E by (vm_compute; reflexivity). split; [exact E|].
  destruct (quota_enforced cfg8 8 two_objects (reach_inv _ _ _ two_reachable) ltac:(lia) ltac:(vm_compute; discriminate)) as (_ & _ & H).
  rewrite (H 8 E). vm_compute. reflexivity.
Defined.

Lemma eviction_lru_witness : (evict_lru cfg8 1 two_objects).1 = Done 8 ∧ oldest_first two_objects (evict_lru cfg8 1 two_objects).2.
Proof.
  assert ((evict_lru cfg8 1 two_objects).1 = Done 8) as E by (vm_compute; reflexivity). split; [exact E|].
  assert ((evict_lru cfg8 1 two_objects).1 ≠ Crash) as Hc by (rewrite E; discriminate).
  exact (proj1 (proj2 (proj2 (eviction_lru cfg8 1 two_objects (reach_inv _ _ _ two_reachable) Hc)))).
Defined.

(** ** A write in flight *)

Definition writing : World := after (begin_write abc [(0, 8)]) (after (run_op cfg8 (OpEnsure abc Plain 8 1)) opened).
Definition flight0 : Flight := mkFlight abc 8 [(0, 8)] 0 1.

Lemma writing_reachable : reachable cfg8 (On writing [flight0]).
Proof.
  eapply reach_step; [apply (reach_op cfg8 (OpEnsure abc Plain 8 1) opened (after (run_op cfg8 (OpEnsure abc Plain 8 1)) opened))|].
  - apply opened_reachable.
  - cbn. lia.
  - vm_compute. reflexivity.
  - apply (step_begin cfg8 _ [] writing abc [(0, 8)] flight0); [by repeat constructor|]. vm_compute. reflexivity.
Qed.


(** ** Findings *)

(** A cut between the two halves of a delete leaves the sparse file; made
    again with a smaller size, the object keeps the longer file, and once it
    is complete [read_bytes] returns more than the object. *)
Definition orphaned : World := back (after (remove cfg8 abc) (cut 1 (after (ensure_sparse abc Plain 20 1) opened))).
Definition remade : World := after (write_slice abc [(0, 8)] abc 3) (after (ensure_sparse abc Plain 8 2) orphaned).

Lemma stale_tail_read : bt_get (objects (index_db (disk orphaned))) abc = None ∧ (read_bytes cfg8 abc 4 remade).1 = Done (abc ++ repeat x00 12).
Proof. split; vm_compute; reflexivity. Qed.

(** An adopted file is edited: [read_range] returns the edit. *)
Definition doc_path : Path := [RootDir; Normal (bstr "d"); Normal (bstr "f")].
Definition user_writes (v : option bytes) (w : World) : World := mkWorld (with_tree doc_path v (disk w)) (mem w) (power w) (faults w).
Definition adopted : World := after (adopt_extern cfg8 abc Plain doc_path 1) (user_writes (Some abc) opened).

Lemma edited_extern_read : (read_range cfg8 abc 0 8 2 (user_writes (Some (bstr "ABCDEFGH")) adopted)).1 = Done (bstr "ABCDEFGH").
Proof. vm_compute. reflexivity. Qed.

(** A decode that outlives its record: the object turns extern, the user's
    file goes, [revalidate] retires the record though the decode is
    registered, the object is made again over a new file, and the decode ends
    by marking groups present that this file does not hold. *)
Definition complete_twice : World :=
  after (reclaim_duplicate cfg8 abc doc_path 4)
    (user_writes (Some abc) (after (begin_write abc [(0, 8)]) (after (write_slice abc [(0, 8)] abc 3) (after (ensure_sparse abc Plain 8 2) opened)))).
Definition renewed : World := after (ensure_sparse abc Plain 8 6) (after (revalidate cfg8 abc) (user_writes None complete_twice)).

Lemma retired_under_decode : bt_contains (sparse_writers (mem complete_twice)) abc = true ∧
  (read_bytes cfg8 abc 8 (after (end_write flight0 abc 7) renewed)).1 = Done (repeat x00 8).
Proof. split; vm_compute; reflexivity. Qed.
