(* ===== verification/Transfer.v ===== *)
(** * Transfers between two stores

    The object store of [crates/epix-blob/src/store.rs] as what the EDX server
    encodes from and the EDX client commits to: the instances of the two
    interfaces, and a byte range end to end, from the store of one node through
    its server, the frames on the wire and the client's receive buffer into the
    store of another.

    Both nodes run: the power stays on. The errors' texts and the buffers the
    encoder hands its writer are parameters. *)
From Stdlib Require Import ZArith Lia Strings.Byte.
From stdpp Require Import base list gmap strings.
From S2P Require Import Prelude Ordered Bitfield Peer Wire Conn Handshake Server Client Store StoreInv StoreFlight StoreRun StoreCheck.
#[local] Open Scope Z_scope.

(** ** The store behind the interfaces *)

Definition kind_of (e : IoError) : ErrorKind :=
  match e with
  | NotFound => KNotFound | InvalidData => KInvalidData | InvalidInput => KInvalidInput
  | UnexpectedEof => KUnexpectedEof | OtherError => KOther
  end.

Section node.
Context `{B : Bao} (cfg : StoreConfig) (wording : IoError → bytes).
(** The buffers of an encode, in order. *)
Context (pieces : ObjId → list ByteRange → Z → World → list bytes).

Definition io_of (e : IoError) : io_error := io_err (kind_of e) (wording e).

(** The last case is the power going, which ends the process. *)
Definition to_io {A} (o : outcome A) : io A :=
  match o with Done a => Ok a | Fail e => Err (io_of e) | Crash => Err (io_err KOther []) end.
Definition call {A} (m : M A) (w : World) : io A * World := let '(o, w) := m w in (to_io o, w).
Definition unit_of {A} (r : io A) : io () := match r with Ok _ => Ok () | Err e => Err e end.

Definition store_backend : Backend World := {|
  be_info id := call (info id);
  be_bits id := call (present_bits id);
  be_complete id := call (object_complete id);
  be_read id now := call (read_bytes cfg id now);
  be_encode id rs now w :=
    (pieces id rs now w, λ w', (unit_of (to_io (Store.encode_slice cfg id rs now w).1), (Store.encode_slice cfg id rs now w').2))
|}.

Definition store_sink : ObjectSink World := {|
  os_insert id b now w := let '(r, w) := call (insert_bytes cfg id Plain b now) w in (unit_of r, w);
  os_write_partial id rs b now := call (write_slice_partial id rs b now)
|}.

(** What the encoder wrote is the slice, once it succeeded. *)
Class Pieces := pieces_whole id rs now w out w' : Store.encode_slice cfg id rs now w = (Done out, w') → concat (pieces id rs now w) = out.

(** A store never reports an interrupted, closed or stalled send. *)
Lemma store_backend_errors : store_errors (B := store_backend).
Proof.
  intros id rs now s s' x. cbn. destruct (Store.encode_slice cfg id rs now s).1 as [a|[]|]; cbn; intros [= <-]; set_solver.
Qed.
End node.

(** ** A commit on a running node *)

Section commits.
Context `{B : Bao} `{L : !BaoLaws}.

(** What bao documents of a stream: the encoding of the content decodes, and a
    prefix of it runs out. *)
Class BaoStream := decode_stream : ∀ d id size cr ob enc p, authentic id size d → bao_encode d (bao_outboard d) id size cr = Ok enc →
  p `prefix_of` enc → (bao_decode p id size cr ob).2 = if decide (p = enc) then Ok () else Err UnexpectedEof.

Definition files_stay (d d' : Disk) : Prop := ∀ id,
  (is_Some (bt_get (sparse_files d) id) → is_Some (bt_get (sparse_files d') id)) ∧ (is_Some (bt_get (obao_files d) id) → is_Some (bt_get (obao_files d') id)).
#[local] Instance files_stay_preorder : PreOrder files_stay.
Proof. split; [intros d id; tauto|]. intros d1 d2 d3 H1 H2 id. destruct (H1 id), (H2 id). tauto. Qed.

Lemma via_inode_stays id ino f files k : is_Some (bt_get files k) → is_Some (bt_get (via_inode id ino f files) k).
Proof. intros H. rewrite via_inode_get. case_decide as E; [subst; by apply fmap_is_Some|done]. Qed.

Lemma leaves_run f l : ∀ w, power w = None →
  ∃ w', for_each l (λ lf, effect (with_sparse (via_inode (f_id f) (f_data f) (write_at lf.1 lf.2)))) w = (Done tt, w') ∧
    power w' = None ∧ index_db (disk w') = index_db (disk w) ∧ files_stay (disk w) (disk w').
Proof.
  induction l as [|lf l IH]; intros w Hp; cbn [for_each]; [by exists w|]. unfold mbind, M_bind, effect at 1. rewrite Hp. cbn [spend].
  match goal with |- context [for_each l _ ?w1] => destruct (IH w1 eq_refl) as (w' & -> & Hp' & Hi & Hf) end.
  exists w'. split_and!; [done|done|done|]. etransitivity; [|exact Hf]. intros id. cbn. split; [apply via_inode_stays|done].
Qed.

(** How the decode of a stream ends, whatever it holds. *)
Definition decode_of (f : Flight) (enc : bytes) (w : World) : list (Z * bytes) * bytes * result IoError () :=
  Verified.decode_slice_into enc (f_id f) (f_size f) (f_ranges f) (default [] (snd <$> bt_get (obao_files (disk w)) (f_id f))).

Lemma decode_run f enc w : power w = None → ∃ w', decode_flight f enc w = (Done ((decode_of f enc w).1.1, (decode_of f enc w).2), w') ∧
  power w' = None ∧ index_db (disk w') = index_db (disk w) ∧ files_stay (disk w) (disk w').
Proof.
  intros Hp. unfold decode_flight, gets, mbind, M_bind. fold (decode_of f enc w). destruct (decode_of f enc w) as [[writes ob] ended].
  destruct (leaves_run f writes w Hp) as (w1 & -> & Hp1 & Hi & Hf). unfold effect. rewrite Hp1. cbn.
  eexists. split_and!; [done|done|done|]. etransitivity; [exact Hf|]. intros id. cbn. split; [done|apply via_inode_stays].
Qed.

Lemma end_partial_run f enc now w : power w = None → is_Some (bt_get (objects (index_db (disk w))) (f_id f)) →
  ∃ w' held, end_write_partial f enc now w = (match (decode_of f enc w).2 with Ok _ => Done held | Err e => Fail e end, w') ∧
    power w' = None ∧ files_stay (disk w) (disk w').
Proof.
  intros Hp [r Hr]. unfold end_write_partial, guarded, catch, mbind, M_bind. destruct (decode_run f enc w Hp) as (w1 & -> & Hp1 & Hi & Hf).
  destruct (decode_of f enc w) as [[writes ob] ended]. cbn [fst snd]. rewrite <- Hi in Hr.
  set (gs := fully_covered_groups _ _). set (held := foldr Z.add 0 _).
  destruct (GroupBits.is_empty gs).
  - destruct ended as [[]|x]; cbn; eexists _, held; by split_and!.
  - unfold update_record, txn. rewrite Hr, Hp1. destruct ended as [[]|x]; cbn; eexists _, held; by split_and!.
Qed.

(** A place an object is being fetched to. *)
Definition landing (id : ObjId) (size_ : Z) (w : World) : Prop := inv w ∧ power w = None ∧
  (∃ r, bt_get (objects (index_db (disk w))) id = Some r ∧ loc r = Sparse ∧ size r = size_) ∧
  is_Some (bt_get (sparse_files (disk w)) id) ∧ is_Some (bt_get (obao_files (disk w)) id).

(** The groups a store holds of an object. *)
Definition holds (id : ObjId) (w : World) (g : Z) : Prop := ∃ r, bt_get (objects (index_db (disk w))) id = Some r ∧ GroupBits.mem (bits r) g.

Definition within (size_ : Z) (rs : list ByteRange) : Prop := Forall (λ r : ByteRange, 0 <= r.1 ∧ r.2 <= size_) rs.
Definition asked (rs : list ByteRange) (g : Z) : Prop := has (map groups_for_bytes rs) g.

Lemma begin_run id size_ rs w : landing id size_ w → within size_ rs →
  ∃ f, begin_write id rs w = (Done f, registered id w) ∧ f_size f = size_.
Proof.
  intros (_ & _ & (r & Hr & Hl & Hs) & [[ino file] Hf] & [ob Hob]) Hrs.
  unfold begin_write, catch, open_flight, required, get_record, get_index, gets, read_sparse, read_obao, some_or, register, set_mem, mbind, M_bind.
  cbn. rewrite Hr. cbn. rewrite Hl. destruct (existsb (λ r0 : ByteRange, size r <? r0.2) rs) eqn:Ex.
  - apply existsb_exists in Ex as (x & Hx%list_elem_of_In & Hlt%Z.ltb_lt). unfold within in Hrs. rewrite Forall_forall in Hrs. destruct (Hrs x Hx). lia.
  - cbn. rewrite Hf. cbn. rewrite Hob. cbn. eexists. split; [done|]. done.
Qed.

(** Committing a prefix of an honest slice: what was held stays, the place stays
    one to fetch to, and the whole slice lands every group asked for. *)
Lemma commit_honest `{K : !BaoStream} id size_ rs d enc p now w : landing id size_ w → within size_ rs → authentic id size_ d →
  Verified.encode_slice d rs = Ok enc → p `prefix_of` enc →
  let '(o, w') := write_slice_partial id rs p now w in
  landing id size_ w' ∧ (∀ g, holds id w g → holds id w' g) ∧
  if decide (p = enc) then (∃ n, o = Done n) ∧ ∀ g, asked rs g → holds id w' g else o = Fail UnexpectedEof.
Proof.
  intros Hland Hrs Hd He Hp. pose proof Hland as (Hw & Hpow & (r & Hr & Hl & Hs) & Hsf & Hof).
  pose proof (begin_write_spec id rs w Hw ltac:(eapply Forall_impl; [exact Hrs|]; cbn; tauto)) as Hb. destruct (begin_run id size_ rs w Hland Hrs) as (f & Ef & Hsz).
  unfold write_slice_partial, mbind, M_bind. rewrite Ef. unfold wp in Hb. rewrite Ef in Hb. destruct Hb as (_ & Hid & Hfr & Hok).
  assert (Hw1 : inv (registered id w)) by by apply inv_registered.
  destruct (end_partial_run f p now (registered id w)) as (w' & n & Eo & Hp' & Hst); [done|by rewrite Hid; eexists|].
  pose proof (end_write_partial_spec f p now (registered id w) Hw1 Hok) as Hspec. unfold wp in Hspec. rewrite Eo in Hspec |- *.
  assert (Hdec : (decode_of f p (registered id w)).2 = if decide (p = enc) then Ok () else Err UnexpectedEof).
  { unfold decode_of, Verified.decode_slice_into. rewrite Hid, Hsz, Hfr. apply (decode_stream d); [done| |done].
    unfold Verified.encode_slice in He. destruct Hd as [-> ->] in He. exact He. }
  rewrite Hdec in Hspec |- *.
  assert (Hend : ∃ leaves, write_ended f (written_whole leaves (f_size f)) (registered id w) w' ∧
    (p = enc → ∀ g, asked rs g → written_whole leaves (f_size f) g)).
  { destruct (decide (p = enc)); destruct Hspec as (leaves & _ & H & Ha); exists leaves; (split; [done|]); [|done].
    intros _ g Hg. apply (proj2 Ha). by rewrite Hfr. }
  clear Hspec. destruct Hend as (leaves & Hend & Hall). pose proof (write_ended_inv _ _ _ _ Hend) as Hw'.
  destruct Hend as (_ & _ & _ & _ & Hrec). specialize (Hrec id). cbn in Hrec. rewrite Hr in Hrec. destruct Hrec as (r' & Hr' & Hl' & Hs' & _ & Hg). specialize (Hg (eq_sym Hid) Hl).
  split_and!.
  - split_and!; [done|done|exists r'; split_and!; congruence| |]; by apply Hst.
  - intros g (r0 & Hr0 & Hm). assert (r0 = r) as -> by congruence. exists r'. split; [done|]. apply Hg. by left.
  - destruct (decide (p = enc)); [|done]. split; [by eexists|]. intros g Ha. exists r'. split; [done|]. apply Hg. right. by apply Hall.
Qed.
End commits.

(** ** A range, end to end *)

Section fetch.
Context `{B : Bao} `{L : !BaoLaws} `{K : !BaoStream}.
Context (cfg : StoreConfig) (wording : IoError → bytes) (debug_body : FrameBody → bytes) (debug_ms : Z → bytes).
Context (obj : ObjId) (ranges : list ByteRange) (now size_ : Z) (d enc : bytes).
Context (Hrs : within size_ ranges) (Hd : authentic obj size_ d) (He : Verified.encode_slice d ranges = Ok enc).
#[local] Existing Instance store_sink.
#[local] Instance the_sink : ObjectSink World := store_sink cfg wording.

(** What stays true of the receiver while honest frames come in. *)
Definition receiving (w0 w : World) (k : SliceSink) : Prop :=
  landing obj size_ w ∧ (∀ g, holds obj w0 g → holds obj w g) ∧ buf k `prefix_of` enc ∧ ∀ e, pending k ≠ Some (Err e).

Lemma flush_honest w0 t k w : receiving w0 w k → (t = true → buf k = enc) →
  let '(r, k', w') := spawn_flush obj ranges now t k w in
  (∃ n, r = Ok n) ∧ buf k' = buf k ∧ receiving w0 w' k' ∧ (buf k = enc → ∀ g, asked ranges g → holds obj w' g).
Proof.
  intros (Hl & Hm & Hp & Hc) Ht. unfold spawn_flush, commit. cbn [os_write_partial the_sink store_sink]. unfold call.
  pose proof (commit_honest obj size_ ranges d enc (buf k) now w Hl Hrs Hd He Hp) as H.
  destruct (write_slice_partial obj ranges (buf k) now w) as [o w']. destruct H as (Hl' & Hm' & H).
  destruct (decide (buf k = enc)) as [E|E].
  - destruct H as [[n ->] Ha]. cbn. split_and!; [by eexists|done|split_and!; auto|done].
  - rewrite H. cbn. destruct t; [by specialize (Ht eq_refl)|]. cbn. rewrite bool_decide_eq_true_2 by done.
    split_and!; [by eexists|done|split_and!; auto|done].
Qed.

Lemma reap_honest w0 w k wait fin : receiving w0 w k → ∃ k2, reap wait fin k = (Ok (), k2) ∧ buf k2 = buf k ∧ receiving w0 w k2.
Proof.
  intros Hk. pose proof Hk as (? & ? & ? & Hc). unfold reap. destruct (pending k) as [[n|e]|]; [|by destruct (Hc e)|by exists k].
  destruct (wait || fin); [eexists; by split_and!|by exists k].
Qed.

Lemma absorb_honest w0 cap last b fin k w : receiving w0 w k → buf k ++ b `prefix_of` enc → (last = false → b ≠ []) → blen enc <= cap →
  let '(r, k', w') := absorb obj ranges now last b cap fin k w in r = Ok last ∧ buf k' = buf k ++ b ∧ receiving w0 w' k'.
Proof.
  intros Hk Hb Hne Hcap. unfold absorb.
  replace (bool_decide (b = []) && negb last) with false by (destruct last; cbn; [by rewrite andb_false_r|rewrite bool_decide_eq_false_2 by auto; done]).
  assert (blen (buf k) + blen b <= cap) as Hle. { rewrite <- blen_app. destruct Hb as [tl ->]. rewrite blen_app in Hcap. pose proof (blen_nonneg tl). lia. }
  rewrite (proj2 (Z.ltb_ge _ _)) by done. set (k1 := mkSink _ _ _).
  assert (Hk1 : receiving w0 w k1) by (destruct Hk as (? & ? & _ & ?); by split_and!).
  destruct last; [done|]. destruct (reap_honest w0 w k1 false fin Hk1) as (k2 & -> & Hb2 & Hk2). destruct (bool_decide (pending k2 = None) && (FLUSH_BYTES <=? blen (buf k2) - flushed k2)); [|done].
  pose proof (flush_honest w0 false k2 w Hk2 ltac:(done)) as Hf. destruct (spawn_flush obj ranges now false k2 w) as [[r k3] w3].
  destruct Hf as ([n ->] & Hb3 & (? & ? & Hp3 & _) & _). split_and!; [done|cbn; by rewrite Hb3, Hb2|]. by split_and!.
Qed.

Definition delivers : list arrival → list FrameBody → Prop := Forall2 (λ ev b, ∃ finished, ev = Got b finished).

Lemma loop_honest w0 cap full last : Forall (λ b, b ≠ []) full → blen enc <= cap → ∀ evs k w,
  receiving w0 w k → buf k ++ concat full ++ last = enc → delivers evs (map (BData false) full ++ [BData true last]) →
  let '(r, k', w') := range_loop debug_body debug_ms obj ranges now cap k w evs in r = Ok () ∧ buf k' = enc ∧ receiving w0 w' k'.
Proof.
  intros Hfull Hcap. induction Hfull as [|b full Hb Hfull IH]; intros evs k w Hk Hcat Hev; cbn [map app concat] in *.
  - apply Forall2_cons_inv_r in Hev as (ev & evs' & [fin ->] & _ & ->). cbn [range_loop].
    pose proof (absorb_honest w0 cap true last fin k w Hk ltac:(by rewrite Hcat) ltac:(done) Hcap) as H.
    destruct (absorb obj ranges now true last cap fin k w) as [[r k'] w']. destruct H as (-> & Hb & Hk'). by rewrite Hcat in Hb.
  - apply Forall2_cons_inv_r in Hev as (ev & evs' & [fin ->] & Hev & ->). cbn [range_loop].
    pose proof (absorb_honest w0 cap false b fin k w Hk ltac:(rewrite <- Hcat; exists (concat full ++ last); by rewrite <- !app_assoc) ltac:(done) Hcap) as H.
    destruct (absorb obj ranges now false b cap fin k w) as [[r k'] w']. destruct H as (-> & Hb' & Hk'). apply IH; [done| |done].
    rewrite Hb', <- Hcat. by rewrite <- !app_assoc.
Qed.

(** The client's half: honest frames leave every group asked for on the disk. *)
Lemma fetch_honest full last evs w : Forall (λ b, b ≠ []) full → concat full ++ last = enc → blen enc <= range_cap ranges → landing obj size_ w →
  delivers evs (map (BData false) full ++ [BData true last]) →
  ∃ n k w', fetch_ranges debug_body debug_ms obj ranges now evs w = (Ok n, false, k, w') ∧ landing obj size_ w' ∧
    (∀ g, holds obj w g → holds obj w' g) ∧ ∀ g, asked ranges g → holds obj w' g.
Proof.
  intros Hfull Hcat Hcap Hl Hev. unfold fetch_ranges.
  assert (Hk : receiving w w (mkSink [] 0 None)) by (split_and!; [done|done|apply prefix_nil|done]).
  pose proof (loop_honest w _ full last Hfull Hcap evs _ w Hk Hcat Hev) as H. destruct (range_loop _ _ _ _ _ _ _ _ _) as [[r k1] w1].
  destruct H as (-> & Hb & Hk1). destruct (reap_honest w w1 k1 true true Hk1) as (k2 & -> & Hb2 & Hk2). rewrite Hb in Hb2. pose proof (flush_honest w true k2 w1 Hk2 ltac:(done)) as Hf.
  destruct (spawn_flush obj ranges now true k2 w1) as [[r k3] w3]. destruct Hf as ([n ->] & _ & (? & ? & _) & Ha).
  exists n, k3, w3. split_and!; auto.
Qed.
End fetch.

Section transfer.
Context `{B : Bao} `{L : !BaoLaws} `{K : !BaoStream}.
Context (cfg : StoreConfig) (wording : IoError → bytes) (pieces : ObjId → list ByteRange → Z → World → list bytes).
Context (whole : Pieces cfg pieces) (debug_body : FrameBody → bytes) (debug_ms : Z → bytes).

(** The server's half: what a quiet encode queues. *)
Lemma serve_honest (ctx : ServeCtx) l obj ranges (e : Env World) enc w1 : Server.quiet e →
  Store.encode_slice cfg obj ranges (Server.now ctx) (Server.store e) = (Done enc, w1) →
  let '(res, e') := stream_range (B := store_backend cfg wording pieces) ctx l obj ranges e in
  res = Ok () ∧ ∃ full last, Server.log e' = Server.log e ++ data_frames l full ++ [(l, BData true last)] ∧ concat full ++ last = enc ∧ Forall (λ b, b ≠ []) full.
Proof.
  intros Hq E. pose proof (stream_fails (B := store_backend cfg wording pieces) ctx l obj ranges e Hq) as Hf.
  pose proof (stream_range_spec (B := store_backend cfg wording pieces) ctx l obj ranges e) as H.
  destruct (stream_range _ _ _ _ _) as [res e']. destruct Hf as [_ Hf]. destruct H as (full & out & L0 & Hfull & [(x & _ & ->)|(last & -> & -> & _ & Hcat)]).
  - exfalso. destruct (Hf x eq_refl) as [s' Hs']. cbn in Hs'. by rewrite E in Hs'.
  - split; [done|]. exists full, last. destruct Hq as [Hs Hc]. split_and!; [done| |].
    + rewrite Hcat; [|done|unfold plain; rewrite Hs; constructor]. cbn. by apply (whole _ _ _ _ _ w1).
    + eapply Forall_impl; [exact Hfull|]. intros b Hb ->. discriminate Hb.
Qed.

(** C26: A byte range crosses from one store to another. From any state the
    serving node's store can reach and any state of the fetching node's that has
    a place for the object: when the server can encode the ranges asked for and
    nothing is cancelled, the frames it queues are all the client needs. Taken in
    order, with commits of the received prefix finishing whenever they do, they
    end the fetch with a success, never a spurious verification error from a
    prefix that stops inside a chunk; every group asked for is then held,
    verified, by the fetching store, which kept what it held and is still
    consistent. *)
Theorem range_transfers (ctx : ServeCtx) l obj ranges (e : Env World) fs r d enc w1 wc now :
  reachable cfg (On (Server.store e) fs) → bt_get (objects (index_db (disk (Server.store e)))) obj = Some r → content obj (size r) d →
  Server.quiet e → Store.encode_slice cfg obj ranges (Server.now ctx) (Server.store e) = (Done enc, w1) →
  landing obj (size r) wc → within (size r) ranges → blen enc <= range_cap ranges →
  let '(res, e') := stream_range (B := store_backend cfg wording pieces) ctx l obj ranges e in
  res = Ok () ∧ ∃ out, Server.log e' = Server.log e ++ out ∧ ∀ evs, delivers evs (map snd out) →
    ∃ n k wc', fetch_ranges (K := store_sink cfg wording) debug_body debug_ms obj ranges now evs wc = (Ok n, false, k, wc') ∧
      landing obj (size r) wc' ∧ (∀ g, holds obj wc g → holds obj wc' g) ∧ ∀ g, asked ranges g → holds obj wc' g.
Proof.
  intros Hreach Hr Hd Hq E Hland Hrs Hcap. pose proof (serve_honest ctx l obj ranges e enc w1 Hq E) as H.
  destruct (stream_range _ _ _ _ _) as [res e']. destruct H as (-> & full & last & Hlog & Hcat & Hne). split; [done|].
  pose proof (encode_spec cfg (Server.store e) obj r d ranges (Server.now ctx) (proj1 (state_reachable _ _ Hreach)) Hr Hd) as Henc. unfold wp in Henc. rewrite E in Henc.
  exists (data_frames l full ++ [(l, BData true last)]). split; [done|]. intros evs Hev.
  unfold data_frames in Hev. rewrite map_app, map_map in Hev. cbn in Hev.
  by apply (fetch_honest cfg wording debug_body debug_ms obj ranges now (size r) d enc Hrs (proj1 Hd) Henc full last evs wc).
Qed.
End transfer.

(** ** Instances *)

#[local] Instance toy_stream : BaoStream.
Proof.
  intros d id size_ cr ob enc p [Hd Hs]. cbn in *. subst id. rewrite bool_decide_eq_true_2 by done. intros [= <-] Hp.
  destruct (decide (p = d)) as [->|Hne]; [rewrite bool_decide_eq_true_2 by done; by rewrite (proj2 (Z.eqb_eq _ _))|].
  rewrite bool_decide_eq_false_2 by done. cbn. by rewrite bool_decide_eq_true_2.
Qed.

(** The encoder of one buffer. *)
Definition one_piece (id : ObjId) (rs : list ByteRange) (now : Z) (w : World) : list bytes :=
  match (Store.encode_slice cfg8 id rs now w).1 with Done b => [b] | _ => [] end.
Lemma one_piece_whole : Pieces cfg8 one_piece.
Proof. intros id rs now w out w' E. unfold one_piece. rewrite E. apply app_nil_r. Qed.

Definition waiting : World := after (run_op cfg8 (OpEnsure abc Plain 8 1)) opened.
Lemma waiting_landing : landing abc 8 waiting.
Proof.
  split; [|split_and!; [vm_compute; reflexivity|eexists; split_and!; vm_compute; reflexivity|by eexists; vm_compute|by eexists; vm_compute]].
  apply (reach_inv cfg8 _ []). apply (reach_op cfg8 (OpEnsure abc Plain 8 1) opened); [apply opened_reachable|cbn; lia|vm_compute; reflexivity].
Qed.

Lemma range_transfers_witness :
  let e := mkEnv two_objects None [] [] true [] false [] in
  ∃ n k wc', fetch_ranges (K := store_sink cfg8 (λ _, [])) (λ _, []) (λ _, []) abc [(0, 8)] 5 [Got (BData true abc) false] waiting = (Ok n, false, k, wc') ∧ holds abc wc' 0.
Proof.
  intros e.
  pose proof (range_transfers cfg8 (λ _, []) one_piece one_piece_whole (λ _, []) (λ _, []) open_ctx Bulk abc [(0, 8)] e [] (mkRecord 8 0 (Slab 0 0) [] 0 1) abc abc
    (Store.encode_slice cfg8 abc [(0, 8)] 7 two_objects).2 waiting 5 two_reachable eq_refl abc_content ltac:(by split) ltac:(vm_compute; reflexivity)
    waiting_landing ltac:(apply Forall_singleton; cbn; lia) ltac:(vm_compute; discriminate)) as H.
  destruct (stream_range open_ctx Bulk abc [(0, 8)] e) as [res e'] eqn:Es. vm_compute in Es. injection Es as <- <-.
  destruct H as (_ & out & Ho & H). cbn in Ho. subst out.
  destruct (H [Got (BData true abc) false]) as (n & k & wc' & Hf & _ & _ & Ha); [constructor; [by eexists|constructor]|].
  exists n, k, wc'. split; [exact Hf|]. apply Ha. vm_compute. by left.
Defined.
