(* ===== verification/Pretty.v ===== *)
(** * The form of a content.json on disk ([dumps_content] in
    [crates/epix-content/src/canonical.rs])

    The indented dump and the two compaction passes over its text. The passes are
    regular expressions run over the whole text, strings included; what is shown
    is that they only ever delete white space between tokens, so that what is
    stored reads back as what was signed. *)
From Stdlib Require Import ZArith Lia Strings.Byte.
From stdpp Require Import base list strings sets.
From S2P Require Import Prelude Ordered Json Text Canonical.
#[local] Open Scope Z_scope.

Definition spaces (n : nat) : bytes := repeat x20 n.
Definition nl : byte := x0a.

Section pretty.
Context (float_to_string : Z → bytes).

(** Items on lines of their own, separated by commas. *)
Fixpoint lines (level : nat) (l : list bytes) : bytes :=
  match l with
  | [] => []
  | x :: l => nl :: spaces level ++ x ++ match l with [] => [] | _ => bstr "," ++ lines level l end
  end.

Fixpoint write_value_indented (v : json) (level : nat) : bytes :=
  match v with
  | JArr ((_ :: _) as items) =>
    bstr "[" ++ lines level (map (λ x, write_value_indented x (S level)) items) ++ nl :: spaces (level - 1) ++ bstr "]"
  | JObj ((_ :: _) as m) =>
    let entries := sort_by (λ p q, cmp p.1 q.1) (map (λ p, (p.1, write_value_indented p.2 (S level))) m) in
    bstr "{" ++ lines level (map (λ p, write_py_string p.1 ++ bstr ": " ++ p.2) entries) ++ nl :: spaces (level - 1) ++ bstr "}"
  | other => write_value float_to_string other
  end.

(** ** The passes *)

Inductive pattern := DICT | LIST | TRAIL | INNER_WS.

(** [captures_iter]: the text between matches, and each match with its group. *)
Inductive piece := Between (s : bytes) | Match (whole group : bytes).
Definition piece_text (x : piece) : bytes := match x with Between s => s | Match w _ => w end.

(** [[, ]{0,2}\n]. *)
Definition tail_shape (t : bytes) : Prop := ∃ u, t = u ++ [nl] ∧ (length u <= 2)%nat ∧ Forall (λ c, c = x2c ∨ c = x20) u.

(** What a match of each pattern is; [rest] is the text after it. *)
Definition shape (p : pattern) (whole group rest : bytes) : Prop :=
  match p with
  | DICT => ∃ b t, group = nl :: b ∧ (10 <= length b)%nat ∧ Forall (λ c, c ≠ x2c ∧ c ≠ x5b ∧ c ≠ x7b) b ∧
      whole = bstr "{" ++ group ++ bstr "}" ++ t ∧ tail_shape t
  | LIST => ∃ t, (2 <= length group)%nat ∧ Forall (λ c, c ≠ x5b ∧ c ≠ x7b) group ∧ whole = bstr "[" ++ group ++ bstr "]" ++ t ∧ tail_shape t
  | TRAIL => ∃ n, whole = spaces (S n) ∧ (rest = [] ∨ head rest = Some nl)
  | INNER_WS => ∃ n, whole = nl :: spaces n
  end.

(** The [regex] crate: the matches it finds are matches, and cover the text with
    what lies between. *)
Class Regexes := {
  matches : pattern → bytes → list piece;
  matches_cover p s : concat (map piece_text (matches p s)) = s;
  matches_sound p s l w g r : matches p s = l ++ Match w g :: r → shape p w g (concat (map piece_text r))
}.
Context `{R : Regexes}.

(** [Regex::replace_all]. *)
Definition replace_all (p : pattern) (f : bytes → bytes → bytes) (s : bytes) : bytes :=
  concat (map (λ x, match x with Between s => s | Match w g => f w g end) (matches p s)).

(** [str::replace]. *)
Fixpoint str_replace (fuel : nat) (s from to_ : bytes) : bytes :=
  match fuel, s with
  | S fuel, c :: s' =>
    if starts_with from s then to_ ++ str_replace fuel (drop (length from) s) from to_ else c :: str_replace fuel s' from to_
  | _, _ => s
  end.

(** [str::trim] of a text without longer white space. *)
Definition is_space (c : byte) : bool := existsb (λ b, bool_decide (b = c)) [x20; x0a; x09; x0b; x0c; x0d].
Fixpoint trim_left (s : bytes) : bytes := match s with c :: s' => if is_space c then trim_left s' else s | [] => [] end.
Definition trim (s : bytes) : bytes := rev (trim_left (rev (trim_left s))).

Definition compact_python_style (content : bytes) : bytes :=
  let content := replace_all DICT (λ whole body, str_replace (length whole) whole body (trim body)) content in
  let content := replace_all LIST (λ whole body, str_replace (length whole) whole body (replace_all INNER_WS (λ _ _, []) body)) content in
  replace_all TRAIL (λ _ _, []) content.

Definition dumps_content (v : json) : bytes := compact_python_style (write_value_indented v 1).
End pretty.

(** ** White space between tokens *)

(** Outside a string, in one, after a backslash in one. *)
Inductive place := Out | Str | Esc.

Definition move (q : place) (c : byte) : place :=
  match q with
  | Out => if bool_decide (c = x22) then Str else Out
  | Str => if bool_decide (c = x22) then Out else if bool_decide (c = x5c) then Esc else Str
  | Esc => Str
  end.
#[global] Arguments move : simpl never.
#[global] Arguments is_space : simpl never.
Definition run (q : place) (s : bytes) : place := foldl move q s.

(** Raw newlines only occur between tokens; and the text ends there. *)
Fixpoint nl_out (q : place) (s : bytes) : Prop :=
  match s with [] => True | c :: s => (c = nl → q = Out) ∧ nl_out (move q c) s end.
Definition clean (q : place) (s : bytes) : Prop := nl_out q s ∧ run q s = Out.

(** [s'] is [s] less some white space between tokens. *)
Inductive thins : place → bytes → bytes → Prop :=
  | thins_nil q : thins q [] []
  | thins_keep q c s s' : thins (move q c) s s' → thins q (c :: s) (c :: s')
  | thins_drop c s s' : is_space c = true → thins Out s s' → thins Out (c :: s) s'.

(** What is left of a text without it. *)
Fixpoint bare (q : place) (s : bytes) : bytes :=
  match s with
  | [] => []
  | c :: s => match q with Out => if is_space c then bare Out s else c :: bare (move Out c) s | _ => c :: bare (move q c) s end
  end.

Definition structural (c : byte) : bool := existsb (λ b, bool_decide (b = c)) (bstr "[]{},:").

(** No two words are held apart by white space alone: [w] after a word, [g] after
    white space. *)
Fixpoint apart (q : place) (w g : bool) (s : bytes) : option (place * (bool * bool)) :=
  match s with
  | [] => Some (q, (w, g))
  | c :: s =>
    match q with
    | Out =>
      if is_space c then apart Out w true s
      else if bool_decide (c = x22) then apart Str false false s
      else if structural c then apart Out false false s
      else if w && g then None else apart Out true false s
    | _ => apart (move q c) false false s
    end
  end.
#[global] Arguments structural : simpl never.
Definition tight (s : bytes) : Prop := is_Some (apart Out false false s).

Lemma move_space c : is_space c = true → ∀ q, q = Out → move q c = Out.
Proof. intros H q ->. unfold move. rewrite bool_decide_eq_false_2; [done|]. by intros ->. Qed.

Lemma run_app q s t : run q (s ++ t) = run (run q s) t.
Proof. apply foldl_app. Qed.

Lemma nl_out_app q s t : nl_out q (s ++ t) ↔ nl_out q s ∧ nl_out (run q s) t.
Proof. revert q. induction s as [|c s IH]; intros q; cbn; [tauto|]. rewrite IH. tauto. Qed.

(** Without a quote, a text that ends outside strings began there. *)
Lemma run_back u : x22 ∉ u → ∀ q, run q u = Out → q = Out.
Proof.
  induction u as [|c u IH]; intros Hq q H; [done|]. cbn in H. apply not_elem_of_cons in Hq as [Hc Hq]. apply IH in H; [|done]. unfold move in H. destruct q; [done| |done].
  rewrite bool_decide_eq_false_2 in H by done. by case_bool_decide.
Qed.

Lemma thins_refl q s : thins q s s.
Proof. revert q. induction s as [|c s IH]; intros q; constructor. apply IH. Qed.

Lemma thins_run q s s' : thins q s s' → run q s' = run q s.
Proof. induction 1 as [| |c s s' Hc _ IH]; [done..|]. rewrite IH. cbn. by rewrite move_space. Qed.

Lemma thins_app q s s' t t' : thins q s s' → thins (run q s) t t' → thins q (s ++ t) (s' ++ t').
Proof. intros H Ht. induction H as [| |c s s' Hc _ IH]; [done|constructor; auto|]. cbn in Ht. rewrite move_space in Ht by done. cbn. constructor; auto. Qed.

Lemma thins_trans q s1 s2 s3 : thins q s1 s2 → thins q s2 s3 → thins q s1 s3.
Proof.
  intros H. revert s3. induction H as [| q c s s' H IH|c s s' Hc H IH]; intros s3 H2; [done| |apply thins_drop; auto].
  inversion H2 as [|? ? ? ? H3|? ? ? Hc H3]; subst; [apply thins_keep; auto|]. apply thins_drop; [done|]. rewrite move_space in IH by done. by apply IH.
Qed.

(** White space between tokens may go. *)
Lemma thins_spaces w t t' : Forall (λ c, is_space c = true) w → thins Out t t' → thins Out (w ++ t) t'.
Proof. induction 1; intros Ht; [done|]. cbn. constructor; auto. Qed.

Lemma thins_nl_out q s s' : thins q s s' → nl_out q s → nl_out q s'.
Proof.
  induction 1 as [| |c s s' Hc _ IH]; cbn; [done|tauto|]. rewrite move_space by done. tauto.
Qed.

Lemma thins_clean q s s' : thins q s s' → clean q s → clean q s'.
Proof. intros H [H1 H2]. split; [by eapply thins_nl_out|by rewrite (thins_run _ _ _ H)]. Qed.

Lemma thins_bare q s s' : thins q s s' → bare q s' = bare q s.
Proof.
  induction 1 as [|q c s s' H IH|c s s' Hc _ IH]; [done| |cbn; by rewrite Hc]. cbn. destruct q; [|by rewrite IH..]. destruct (is_space c) eqn:Hc; [|by rewrite IH].
  by rewrite move_space in IH.
Qed.

Lemma apart_thins q s s' : thins q s s' → ∀ w g g', (g' = true → g = true) → is_Some (apart q w g s) → is_Some (apart q w g' s').
Proof.
  induction 1 as [|q c s s' H IH|c s s' Hc _ IH]; intros w g g' Hg Hs; [done| |].
  - cbn in *. destruct q; [|by apply (IH false false false)..]. destruct (is_space c) eqn:Hc; [rewrite move_space in IH by done; by apply (IH w true true)|].
    unfold move in IH. destruct (bool_decide (c = x22)); [by apply (IH false false false)|]. destruct (structural c); [by apply (IH false false false)|]. destruct (w && g) eqn:E; [by destruct Hs|].
    assert (w && g' = false) as -> by (destruct w, g, g'; try done; by specialize (Hg eq_refl)). by apply (IH true false false).
  - cbn in Hs. rewrite Hc in Hs. by apply (IH w true g').
Qed.

Lemma thins_tight s s' : thins Out s s' → tight s → tight s'.
Proof. intros H Ht. by apply (apart_thins _ _ _ H false false). Qed.

(** ** Replacing matches *)

Lemma trim_left_split s : ∃ w, s = w ++ trim_left s ∧ Forall (λ c, is_space c = true) w.
Proof.
  induction s as [|c s (w & E & Hw)]; cbn; [by exists []|]. destruct (is_space c) eqn:Hc; [|by exists []]. exists (c :: w). split; [cbn; congruence|by constructor].
Qed.

Lemma trim_split s : ∃ w1 w2, s = w1 ++ trim s ++ w2 ∧ Forall (λ c, is_space c = true) w1 ∧ Forall (λ c, is_space c = true) w2.
Proof.
  destruct (trim_left_split s) as (w1 & E1 & H1), (trim_left_split (rev (trim_left s))) as (w2 & E2 & H2). exists w1, (rev w2). split_and!; [|done|by apply Forall_rev].
  unfold trim. rewrite <- rev_app_distr, <- E2, rev_involutive. done.
Qed.

Lemma spaces_space n : Forall (λ c, is_space c = true) (spaces n).
Proof. induction n; by constructor. Qed.

Lemma no_quote w : Forall (λ c, is_space c = true) w → x22 ∉ w.
Proof. intros H Hin. rewrite Forall_forall in H. by specialize (H _ Hin). Qed.

Lemma trim_thins s : run Out s = Out → thins Out s (trim s).
Proof.
  intros Hs. destruct (trim_split s) as (w1 & w2 & E & H1 & H2). set (core := trim s) in *. rewrite E in Hs |- *.
  assert (run Out w1 = Out) as Hw1 by (clear -H1; induction H1; cbn; [done|]; by rewrite move_space).
  rewrite run_app, Hw1, run_app in Hs. apply run_back in Hs; [|by apply no_quote]. apply thins_spaces; [done|].
  rewrite <- (app_nil_r core) at 2. apply thins_app; [apply thins_refl|]. rewrite Hs. rewrite <- (app_nil_r w2). apply thins_spaces; [done|constructor].
Qed.

Section replace.
Context `{R : Regexes}.
Abbreviation text l := (concat (map piece_text l)).

Lemma replace_all_thins p f s : clean Out s →
  (∀ q w g rest, shape p w g rest → clean q (w ++ rest) → thins q w (f w g)) → thins Out s (replace_all p f s).
Proof.
  intros Hs Hf. unfold replace_all. pose proof (matches_cover p s) as Hcov. rewrite <- Hcov in Hs at 1. rewrite <- Hcov at 1.
  assert (∀ r l, matches p s = l ++ r → clean (run Out (text l)) (text r) →
    thins (run Out (text l)) (text r) (concat (map (λ x, match x with Between s => s | Match w g => f w g end) r))) as Hall; [|by apply (Hall _ [])].
  induction r as [|x r IH]; intros l E Hc; [constructor|]. cbn [map concat] in *.
  assert (clean (run Out (text (l ++ [x]))) (text r)) as Hc'.
  { destruct Hc as [Hc1 Hc2]. rewrite map_app, concat_app, run_app. cbn. rewrite app_nil_r. rewrite nl_out_app in Hc1. rewrite run_app in Hc2. by destruct Hc1. }
  assert (run Out (text (l ++ [x])) = run (run Out (text l)) (piece_text x)) as Er by (rewrite map_app, concat_app, run_app; cbn; by rewrite app_nil_r).
  apply thins_app; [|rewrite <- Er; apply IH; [by rewrite <- app_assoc|done]].
  destruct x as [b|w g]; [apply thins_refl|]. apply (Hf _ w g (text r)); [by eapply matches_sound|done].
Qed.

Lemma starts_with_app p s : starts_with p (p ++ s) = true.
Proof. unfold starts_with. by rewrite take_app_length, bool_decide_eq_true_2. Qed.

Lemma starts_with_true p s : starts_with p s = true → s = p ++ drop (length p) s.
Proof. unfold starts_with. intros H%bool_decide_eq_true. rewrite <- H at 1. by rewrite take_drop. Qed.

Lemma str_replace_short fuel s from to_ : (length s < length from)%nat → str_replace fuel s from to_ = s.
Proof.
  revert s. induction fuel as [|fuel IH]; intros [|c s] H; cbn; try done. cbn in H. destruct (starts_with from (c :: s)) eqn:E.
  - apply starts_with_true in E. apply (f_equal length) in E. rewrite length_app in E. cbn in E. lia.
  - rewrite IH by lia. done.
Qed.

Lemma str_replace_thins from to_ : (∀ q, nl_out q from → thins q from to_) → ∀ fuel q s, nl_out q s → thins q s (str_replace fuel s from to_).
Proof.
  intros Hf fuel. induction fuel as [|fuel IH]; intros q s Hs; [apply thins_refl|]. destruct s as [|c s]; [constructor|]. cbn [str_replace].
  destruct (starts_with from (c :: s)) eqn:E; [|constructor; apply IH; by destruct Hs]. apply starts_with_true in E. rewrite E in Hs. apply nl_out_app in Hs as [H1 H2].
  rewrite E at 1. apply thins_app; [by apply Hf|by apply IH].
Qed.

(** The newline that ends a tail is outside strings, so what precedes it is. *)
Lemma before_tail q c t rest : c ≠ x22 → tail_shape t → nl_out q (c :: t ++ rest) → q = Out.
Proof.
  intros Hc (u & -> & _ & Hu) H. rewrite <- app_assoc in H. change (c :: u ++ [nl] ++ rest) with ((c :: u) ++ nl :: rest) in H. apply nl_out_app in H as [_ [H _]].
  apply (run_back (c :: u)); [|by apply H]. apply not_elem_of_cons. split; [congruence|]. intros Hin. rewrite Forall_forall in Hu. by destruct (Hu _ Hin).
Qed.

Lemma dict_thins q w g rest : shape DICT w g rest → clean q (w ++ rest) → thins q w (str_replace (length w) w g (trim g)).
Proof.
  intros (b & t & -> & Hlen & Hb & -> & Ht) [Hc _]. assert (blen t <= 3) as Htl by (destruct Ht as (u & -> & ? & _); unfold blen; rewrite length_app; cbn; lia).
  rewrite <- !app_assoc in Hc. change (bstr "{" ++ (nl :: b) ++ bstr "}" ++ t ++ rest) with (x7b :: (nl :: b) ++ x7d :: t ++ rest) in Hc. destruct Hc as [_ Hc].
  apply nl_out_app in Hc as [Hc1 Hc2]. assert (move q x7b = Out) as Hq by (by apply Hc1). apply before_tail in Hc2; [|done|done]. rewrite Hq in Hc2.
  change (bstr "{" ++ (nl :: b) ++ bstr "}" ++ t) with (x7b :: (nl :: b) ++ x7d :: t). cbn [length str_replace].
  assert (starts_with (nl :: b) (x7b :: (nl :: b) ++ x7d :: t) = false) as -> by (by apply bool_decide_eq_false).
  apply thins_keep. rewrite Hq. cbn [app length str_replace]. change (nl :: b ++ x7d :: t) with ((nl :: b) ++ x7d :: t). rewrite starts_with_app.
  change (drop (S (length b))) with (@drop byte (length (nl :: b))). rewrite drop_app_length, str_replace_short by (unfold blen in Htl; cbn; lia). apply thins_app; [by apply trim_thins|apply thins_refl].
Qed.

Lemma inner_thins q s : nl_out q s → thins q s (replace_all INNER_WS (λ _ _, []) s).
Proof.
  intros Hs. unfold replace_all. pose proof (matches_cover INNER_WS s) as Hcov. rewrite <- Hcov in Hs at 1. rewrite <- Hcov at 1.
  assert (∀ r l, matches INNER_WS s = l ++ r → nl_out (run q (text l)) (text r) →
    thins (run q (text l)) (text r) (concat (map (λ x, match x with Between s => s | Match w g => [] end) r))) as Hall; [|by apply (Hall _ [])].
  induction r as [|x r IH]; intros l E Hc; [constructor|]. cbn [map concat] in *. apply nl_out_app in Hc as [Hc1 Hc2].
  assert (run q (text (l ++ [x])) = run (run q (text l)) (piece_text x)) as Er by (rewrite map_app, concat_app, run_app; cbn; by rewrite app_nil_r).
  apply thins_app; [|rewrite <- Er; apply IH; [by rewrite <- app_assoc|by rewrite Er]]. destruct x as [b|w g]; [apply thins_refl|].
  destruct (matches_sound _ _ _ _ _ _ E) as [n ->]. cbn in Hc1. destruct Hc1 as [-> _]; [|done]. rewrite <- (app_nil_r (piece_text _)). apply thins_spaces; [|constructor].
  constructor; [done|apply spaces_space].
Qed.

Lemma list_thins q w g rest : shape LIST w g rest → clean q (w ++ rest) → thins q w (str_replace (length w) w g (replace_all INNER_WS (λ _ _, []) g)).
Proof.
  intros _ [Hc _]. apply nl_out_app in Hc as [Hc _]. apply str_replace_thins; [|done]. intros q'. apply inner_thins.
Qed.

Lemma trail_thins q w g rest : shape TRAIL w g rest → clean q (w ++ rest) → thins q w [].
Proof.
  intros (n & -> & Hrest) [Hc Hr]. assert (run q (spaces (S n)) = Out) as H.
  { destruct Hrest as [->|Hh]; [by rewrite app_nil_r in Hr|]. destruct rest as [|c rest]; [done|]. injection Hh as ->. apply nl_out_app in Hc as [_ [Hc _]]. by apply Hc. }
  apply run_back in H as ->; [|apply no_quote, spaces_space]. rewrite <- (app_nil_r (spaces (S n))). apply thins_spaces; [apply spaces_space|constructor].
Qed.

(** The passes only take white space from between tokens. *)
Lemma compact_thins s : clean Out s → thins Out s (compact_python_style s).
Proof.
  intros Hs. unfold compact_python_style.
  assert (thins Out s (replace_all DICT (λ whole body, str_replace (length whole) whole body (trim body)) s)) as H1 by (apply replace_all_thins; [done|apply dict_thins]).
  set (s1 := replace_all DICT _ s) in *. assert (clean Out s1) as Hs1 by (by eapply thins_clean).
  assert (thins Out s1 (replace_all LIST (λ whole body, str_replace (length whole) whole body (replace_all INNER_WS (λ _ _, []) body)) s1)) as H2 by (apply replace_all_thins; [done|apply list_thins]).
  set (s2 := replace_all LIST _ s1) in *. assert (clean Out s2) as Hs2 by (by eapply thins_clean).
  eapply thins_trans; [exact H1|]. eapply thins_trans; [exact H2|]. apply replace_all_thins; [done|]. intros. by eapply trail_thins.
Qed.
End replace.

(** ** The two dumps *)

(** A text of whole tokens, from outside strings and not after a word. *)
Definition whole_tokens (s : bytes) : Prop := clean Out s ∧ ∀ g, ∃ w g', apart Out false g s = Some (Out, (w, g')).

Lemma apart_app s t : ∀ q w g, apart q w g (s ++ t) = match apart q w g s with Some (q, (w, g)) => apart q w g t | None => None end.
Proof.
  induction s as [|c s IH]; intros q w g; [done|]. cbn. destruct q; [|by rewrite IH..]. destruct (is_space c); [by rewrite IH|]. case_bool_decide; [by rewrite IH|].
  destruct (structural c); [by rewrite IH|]. destruct (w && g); [done|]. by rewrite IH.
Qed.

Lemma bare_app s t : ∀ q, bare q (s ++ t) = bare q s ++ bare (run q s) t.
Proof.
  induction s as [|c s IH]; intros q; [done|]. cbn. destruct q; [|by rewrite IH..]. destruct (is_space c) eqn:Hc; [rewrite IH; by rewrite move_space|by rewrite IH].
Qed.

(** After any word, with or without white space, [s] goes on afresh. *)
Definition resumes (s : bytes) : Prop := clean Out s ∧ ∀ w g, ∃ g', apart Out w g s = Some (Out, (false, g')).

Lemma whole_app s t : whole_tokens s → resumes t → whole_tokens (s ++ t).
Proof.
  intros [[H1 H1'] H2] [[H3 H3'] H4]. split; [split; [rewrite nl_out_app; by rewrite H1'|by rewrite run_app, H1']|]. intros g. rewrite apart_app.
  destruct (H2 g) as (w & g' & ->), (H4 w g') as (g'' & ->). eauto.
Qed.
Lemma resumes_app s t : resumes s → whole_tokens t → whole_tokens (s ++ t).
Proof.
  intros [[H1 H1'] H2] [[H3 H3'] H4]. split; [split; [rewrite nl_out_app; by rewrite H1'|by rewrite run_app, H1']|]. intros g. rewrite apart_app.
  destruct (H2 false g) as (g' & ->). apply H4.
Qed.
Lemma resumes_resumes s t : resumes s → resumes t → resumes (s ++ t).
Proof.
  intros [[H1 H1'] H2] [[H3 H3'] H4]. split; [split; [rewrite nl_out_app; by rewrite H1'|by rewrite run_app, H1']|]. intros w g. rewrite apart_app.
  destruct (H2 w g) as (g' & ->). apply H4.
Qed.

(** White space, a separator or bracket, white space. *)
Lemma resumes_sep w1 c w2 : Forall (λ c, is_space c = true) w1 → structural c = true → Forall (λ c, is_space c = true) w2 → resumes (w1 ++ c :: w2).
Proof.
  intros H1 Hc H2. assert (c ≠ x22 ∧ c ≠ nl ∧ is_space c = false) as (Hq & Hn & Hs) by (by destruct c).
  assert (∀ w, Forall (λ c, is_space c = true) w → clean Out w) as Hcl by (clear; induction 1 as [|c w Hc Hw [IH1 IH2]]; split; try done; cbn; rewrite move_space by done; auto).
  assert (move Out c = Out) as Hm by (unfold move; by rewrite bool_decide_eq_false_2). split.
  - split; [rewrite nl_out_app; split; [apply Hcl; done|]; rewrite (proj2 (Hcl w1 H1)); cbn; rewrite Hm; split; [done|apply Hcl; done]|].
    rewrite run_app, (proj2 (Hcl w1 H1)). cbn. rewrite Hm. apply Hcl. done.
  - intros w g. rewrite apart_app. assert (∀ u, Forall (λ c, is_space c = true) u → ∀ w g, ∃ g', apart Out w g u = Some (Out, (w, g'))) as Hsp.
    { clear. induction 1 as [|c u Hc _ IH]; intros w g; cbn; [eauto|]. rewrite Hc. apply IH. }
    destruct (Hsp w1 H1 w g) as (g' & ->). cbn. rewrite Hs, bool_decide_eq_false_2 by done. rewrite Hc. apply Hsp. done.
Qed.

(** From any point, after a word or not. *)
Definition anywhere (s : bytes) : Prop := clean Out s ∧ ∀ w g, ∃ w' g', apart Out w g s = Some (Out, (w', g')).

Lemma resumes_anywhere s t : resumes s → whole_tokens t → anywhere (s ++ t).
Proof.
  intros [[H1 H1'] H2] [[H3 H3'] H4]. split; [split; [rewrite nl_out_app; by rewrite H1'|by rewrite run_app, H1']|]. intros w g. rewrite apart_app.
  destruct (H2 w g) as (g' & ->). apply H4.
Qed.
Lemma whole_anywhere s t : whole_tokens s → anywhere t → whole_tokens (s ++ t).
Proof.
  intros [[H1 H1'] H2] [[H3 H3'] H4]. split; [split; [rewrite nl_out_app; by rewrite H1'|by rewrite run_app, H1']|]. intros g. rewrite apart_app.
  destruct (H2 g) as (w & g' & ->). apply H4.
Qed.
Lemma resumes_whole s : resumes s → whole_tokens s.
Proof. intros [H1 H2]. split; [done|]. intros g. destruct (H2 false g) as (g' & ->). eauto. Qed.

(** ** Strings and words *)

(** A piece of the inside of a string. *)
Definition inside (x : bytes) : Prop := ∀ rest w g, run Str (x ++ rest) = run Str rest ∧ (nl_out Str rest → nl_out Str (x ++ rest)) ∧
  bare Str (x ++ rest) = x ++ bare Str rest ∧ ∃ w' g', apart Str w g (x ++ rest) = apart Str w' g' rest.

Lemma inside_app x y : inside x → inside y → inside (x ++ y).
Proof.
  intros Hx Hy rest w g. rewrite <- app_assoc. destruct (Hx (y ++ rest) w g) as (A1 & A2 & A3 & w1 & g1 & A4), (Hy rest w1 g1) as (B1 & B2 & B3 & w2 & g2 & B4).
  rewrite A1, A3, B3, A4, B4, <- app_assoc. split_and!; eauto.
Qed.
Lemma inside_nil : inside [].
Proof. intros rest w g. split_and!; eauto. Qed.

(** Neither a quote, a backslash nor a newline. *)
Definition ordinary (c : byte) : Prop := c ≠ x22 ∧ c ≠ x5c ∧ c ≠ nl.
#[global] Instance ordinary_dec c : Decision (ordinary c).
Proof. unfold ordinary. apply _. Defined.

Lemma inside_ordinary c : ordinary c → inside [c].
Proof.
  intros (H1 & H2 & H3) rest w g. assert (move Str c = Str) as Hm by (unfold move; by rewrite !bool_decide_eq_false_2).
  cbn. rewrite !Hm. split_and!; try done; eauto.
Qed.
Lemma inside_escape c : c ≠ nl → inside [x5c; c].
Proof. intros H rest w g. cbn. change (move Str x5c) with Esc. change (move Esc c) with Str. split_and!; try done; eauto. Qed.

Lemma hex_ordinary n : ordinary (hex_digit (n mod 16)).
Proof.
  pose proof (Z.mod_pos_bound n 16 ltac:(lia)). assert (byte_val (hex_digit (n mod 16)) = if n mod 16 <? 10 then 48 + n mod 16 else 87 + n mod 16) as Hv.
  { unfold hex_digit. rewrite byte_val_of, Z.mod_small; [done|]. destruct (Z.ltb_spec (n mod 16) 10); lia. }
  destruct (Z.ltb_spec (n mod 16) 10); split_and!; intros E; rewrite E in Hv; cbn in Hv; change (byte_val nl) with 10 in *; unfold byte_val in Hv; cbn in Hv; lia.
Qed.

Lemma inside_hex4 v : inside (bstr "\u" ++ hex4 v).
Proof.
  apply (inside_app [x5c; x75]); [by apply inside_escape|]. unfold hex4.
  apply (inside_app [_]); [apply inside_ordinary, hex_ordinary|]. apply (inside_app [_]); [apply inside_ordinary, hex_ordinary|].
  apply (inside_app [_]); [apply inside_ordinary, hex_ordinary|]. apply inside_ordinary, hex_ordinary.
Qed.

Lemma inside_char c : inside (write_py_char c).
Proof.
  unfold write_py_char. destruct (Z.eqb_spec c 34); [by apply inside_escape|]. destruct (Z.eqb_spec c 92); [by apply inside_escape|]. destruct (Z.eqb_spec c 10); [by apply inside_escape|].
  destruct (Z.eqb_spec c 13); [by apply inside_escape|]. destruct (Z.eqb_spec c 9); [by apply inside_escape|]. destruct (Z.eqb_spec c 8); [by apply inside_escape|].
  destruct (Z.eqb_spec c 12); [by apply inside_escape|]. destruct ((c <? 32) || (126 <? c)) eqn:E.
  - destruct (65535 <? c); [|apply inside_hex4]. cbn zeta. apply (inside_app (_ ++ hex4 _) (_ ++ hex4 _)) || (rewrite app_assoc; apply inside_app; apply inside_hex4).
  - apply orb_false_iff in E as [H1%Z.ltb_ge H2%Z.ltb_ge]. unfold utf8. assert (c <? 128 = true) as -> by (apply Z.ltb_lt; lia). apply inside_ordinary.
    assert (byte_val (byte_of c) = c) as Hv by (rewrite byte_val_of, Z.mod_small; lia).
    split_and!; intros Eb; rewrite Eb in Hv; change (byte_val nl) with 10 in Hv; change (byte_val x22) with 34 in Hv; change (byte_val x5c) with 92 in Hv; lia.
Qed.

Lemma py_string_whole s : whole_tokens (write_py_string s) ∧ bare Out (write_py_string s) = write_py_string s.
Proof.
  unfold write_py_string. set (x := flat_map write_py_char (chars s)). assert (inside x) as Hx.
  { subst x. induction (chars s) as [|c cs IH]; [apply inside_nil|]. apply inside_app; [apply inside_char|done]. }
  change ([x22] ++ x ++ [x22]) with (x22 :: x ++ [x22]). destruct (Hx [x22] false false) as (H1 & H2 & H3 & w & g & H4). split; [split; [split|]|].
  - cbn [nl_out]. split; [done|]. change (move Out x22) with Str. apply H2. done.
  - change (run Str (x ++ [x22]) = Out). by rewrite H1.
  - intros g0. exists false, false. cbn [apart]. change (is_space x22) with false. cbn match. rewrite bool_decide_eq_true_2 by done. by rewrite H4.
  - cbn [bare]. change (is_space x22) with false. cbn match. change (move Out x22) with Str. by rewrite H3.
Qed.

(** A byte of a number or a literal. *)
Definition word_byte (c : byte) : Prop := c ≠ x22 ∧ is_space c = false ∧ structural c = false.
#[global] Instance word_byte_dec c : Decision (word_byte c).
Proof. unfold word_byte. apply _. Defined.

Lemma word_whole x : Forall word_byte x → whole_tokens x ∧ bare Out x = x.
Proof.
  intros Hx. assert (clean Out x ∧ bare Out x = x ∧ ∀ w, ∃ w', apart Out w false x = Some (Out, (w', false))) as ((H1 & H1') & H2 & H3).
  { induction Hx as [|c x (Hq & Hs & Hst) Hx ((IH1 & IH1') & IH2 & IH3)]; [split_and!; try done; eauto|]. assert (move Out c = Out) as Hm by (unfold move; by rewrite bool_decide_eq_false_2).
    split; [split; cbn; rewrite Hm; [split; done|done]|]. cbn. rewrite Hs, Hm, IH2. split; [done|]. intros w. rewrite bool_decide_eq_false_2, Hst, andb_false_r by done. apply IH3. }
  split; [split; [done|]|done]. intros g. destruct x as [|c x]; [by exists false, g|]. destruct (H3 false) as (w' & E). exists w', false. rewrite <- E. cbn.
  inversion Hx as [|? ? (Hq & Hs & Hst) _]; subst. rewrite Hs, Hst. done.
Qed.

Lemma word_digits n : Forall word_byte (dec n).
Proof.
  assert (∀ b, is_digit b = true → word_byte b) as Hd by (intros b; destruct b; try done; intros _; split_and!; done).
  assert (∀ fuel z, 0 <= z → Forall word_byte (dec_rev fuel z)) as Hrev.
  { induction fuel as [|fuel IH]; intros z Hz; [constructor|]. cbn [dec_rev]. constructor; [apply Hd, byte_of_digit|]. destruct (z <? 10); [constructor|]. apply IH. by apply Z.div_pos. }
  assert (∀ z, 0 <= z → Forall word_byte (dec_nat z)) as Hn by (intros z Hz; unfold dec_nat; apply Forall_rev; by apply Hrev).
  unfold dec. destruct (Z.ltb_spec n 0); [constructor; [by split_and!|]; apply Hn; lia|]. by apply Hn.
Qed.

(** A sort by key does not look at the values. *)
Lemma sort_values {K V W} `{Ord K} (f : V → W) (l : list (K * V)) :
  sort_by (λ p q : K * W, cmp p.1 q.1) (map (λ p, (p.1, f p.2)) l) = map (λ p, (p.1, f p.2)) (sort_by (λ p q : K * V, cmp p.1 q.1) l).
Proof.
  induction l as [|x l IH]; [done|]. cbn [map sort_by foldr]. unfold sort_by in IH |- *. cbn [foldr]. rewrite IH.
  generalize (foldr (sort_insert (λ p q : K * V, cmp p.1 q.1)) [] l). induction l0 as [|y l0 IH0]; [done|]. cbn. destruct (cmp x.1 y.1); cbn; [done|done|by rewrite IH0].
Qed.

Section values.
Context (float_to_string : Z → bytes) (float_word : ∀ f, Forall word_byte (float_to_string f)).
Abbreviation dump := (write_value float_to_string).
Abbreviation indented := (write_value_indented float_to_string).

(** Two texts of whole tokens that differ in white space alone. *)
Definition same_tokens (s t : bytes) : Prop := whole_tokens s ∧ whole_tokens t ∧ bare Out s = bare Out t.

Lemma same_refl s : whole_tokens s → same_tokens s s.
Proof. done. Qed.

Lemma bare_whole s t : whole_tokens s → bare Out (s ++ t) = bare Out s ++ bare Out t.
Proof. intros [[_ H] _]. by rewrite bare_app, H. Qed.

Lemma bare_spaces n t : bare Out (spaces n ++ t) = bare Out t.
Proof. induction n as [|n IH]; [done|]. cbn. apply IH. Qed.

(** Items on lines and items on one line. *)
Lemma lines_same level c l k : structural c = true → is_space c = false → Forall2 same_tokens l k → l ≠ [] →
  anywhere (c :: lines level l) ∧ whole_tokens (join k) ∧ bare Out (lines level l) = bare Out (join k).
Proof.
  intros Hc Hsp H. revert c Hc Hsp. induction H as [|x y l k (Hx & Hy & Hxy) H IH]; intros c Hc Hsp Hne; [done|]. clear Hne. cbn [lines join].
  assert (resumes (c :: nl :: spaces level)) as Hr by (apply (resumes_sep [] c (nl :: spaces level)); [constructor|done|constructor; [done|apply spaces_space]]).
  destruct H as [|x' y' l k Hxy' H].
  - rewrite !app_nil_r. split; [apply (resumes_anywhere (c :: nl :: spaces level)); done|]. split; [done|]. cbn. by rewrite bare_spaces.
  - destruct (IH x2c eq_refl eq_refl ltac:(done)) as (IH1 & IH2 & IH3). split_and!.
    + apply (resumes_anywhere (c :: nl :: spaces level)); [done|]. by apply whole_anywhere.
    + apply whole_anywhere; [done|]. apply resumes_anywhere; [|done]. apply (resumes_sep [] x2c [x20]); [constructor|done|by repeat constructor].
    + transitivity (bare Out (spaces level ++ x ++ bstr "," ++ lines level (x' :: l))); [done|]. rewrite bare_spaces, (bare_whole x), (bare_whole y), Hxy by done. f_equal. transitivity (x2c :: bare Out (lines level (x' :: l))); [done|]. by rewrite IH3.
Qed.

Lemma bracket_same level o c l k : structural o = true → is_space o = false → structural c = true → is_space c = false → o ≠ x22 → c ≠ x22 → Forall2 same_tokens l k → l ≠ [] →
  same_tokens (o :: lines level l ++ nl :: spaces (level - 1) ++ [c]) (o :: join k ++ [c]).
Proof.
  intros Ho Hos Hc Hcs Hoq Hcq H Hne. destruct (lines_same level o l k Ho Hos H Hne) as (H1 & H2 & H3).
  assert (resumes (nl :: spaces (level - 1) ++ [c])) as Hend by (apply (resumes_sep (nl :: spaces (level - 1)) c []); [constructor; [done|apply spaces_space]|done|constructor]).
  assert (whole_tokens (o :: lines level l)) as Hw by (destruct H1 as [H1 H1']; split; [done|]; intros g; apply H1').
  assert (resumes [o]) as Hro by (apply (resumes_sep [] o []); [constructor|done|constructor]).
  assert (resumes [c]) as Hrc by (apply (resumes_sep [] c []); [constructor|done|constructor]).
  assert (∀ o t, o ≠ x22 → is_space o = false → bare Out (o :: t) = o :: bare Out t) as Hb.
  { intros b t Hq Hs. cbn. rewrite Hs. unfold move. by rewrite bool_decide_eq_false_2. }
  split; [apply (whole_app (o :: lines level l)); done|]. split; [apply (resumes_app [o]); [done|]; by apply whole_app|].
  change (o :: lines level l ++ nl :: spaces (level - 1) ++ [c]) with ((o :: lines level l) ++ nl :: spaces (level - 1) ++ [c]).
  rewrite (bare_whole (o :: lines level l)) by done. rewrite (Hb o (lines level l)), (Hb o (join k ++ [c])) by done. rewrite H3, (bare_whole (join k)) by done. cbn [app]. f_equal. f_equal. cbn. by rewrite bare_spaces.
Qed.

Lemma items_same l : Forall (λ v, ∀ level, same_tokens (indented v level) (dump v)) l →
  ∀ level, Forall2 same_tokens (map (λ x, indented x level) l) (map dump l).
Proof. induction 1 as [|v l Hv _ IH]; intros level; [constructor|]. cbn [map]. constructor; [apply Hv|apply IH]. Qed.

Lemma entries_same m : Forall (λ p : bytes * json, ∀ level, same_tokens (indented p.2 level) (dump p.2)) m →
  ∀ level, Forall2 same_tokens (map (λ p, write_py_string p.1 ++ bstr ": " ++ indented p.2 level) m) (map (λ p, write_py_string p.1 ++ bstr ": " ++ dump p.2) m).
Proof.
  induction 1 as [|[k v] m Hv _ IH]; intros level; constructor; [|by apply IH]. cbn [fst snd] in *. destruct (py_string_whole k) as [Hk _], (Hv level) as (H1 & H2 & H3).
  assert (anywhere (bstr ": " ++ indented v level) ∧ anywhere (bstr ": " ++ dump v)) as [Ha Hb].
  { split; apply resumes_anywhere; try done; apply (resumes_sep [] x3a [x20]); [constructor|done|by repeat constructor|constructor|done|by repeat constructor]. }
  split; [by apply whole_anywhere|]. split; [by apply whole_anywhere|]. rewrite !(bare_whole (write_py_string k)) by done. f_equal.
  change (bare Out (bstr ": " ++ ?t)) with (x3a :: bare Out t). by rewrite H3.
Qed.

Lemma value_same v : ∀ level, same_tokens (indented v level) (dump v).
Proof.
  induction v as [| b | z | f | s | l IH | m IH] using json_ind; intros level; cbn [write_value_indented write_value].
  - apply same_refl, word_whole. by repeat constructor.
  - apply same_refl. destruct b; apply word_whole; by repeat constructor.
  - apply same_refl, word_whole, word_digits.
  - apply same_refl, word_whole, float_word.
  - apply same_refl, py_string_whole.
  - destruct l as [|x l]; [apply same_refl, resumes_whole, (resumes_resumes [x5b] [x5d]); apply (resumes_sep [] _ []); [constructor|done|constructor..]|].
    apply (bracket_same level x5b x5d); try done. by apply items_same.
  - destruct m as [|e m]; [apply same_refl, resumes_whole, (resumes_resumes [x7b] [x7d]); apply (resumes_sep [] _ []); [constructor|done|constructor..]|].
    cbv zeta. rewrite (sort_values (λ v, indented v (S level))), (sort_values dump), !map_map. cbn [fst snd].
    assert (Forall (λ p, ∀ level, same_tokens (indented p.2 level) (dump p.2)) (sort_by (λ p q : bytes * json, cmp p.1 q.1) (e :: m))) as HF by (by rewrite sort_by_perm).
    assert (sort_by (λ p q : bytes * json, cmp p.1 q.1) (e :: m) ≠ []) as Hne by (intros E; pose proof (length_sort_by (λ p q : bytes * json, cmp p.1 q.1) (e :: m)) as Hl; rewrite E in Hl; done).
    apply (bracket_same level x7b x7d); try done; [by apply entries_same|]. intros E. apply Hne. by apply map_eq_nil in E.
Qed.

Lemma dumps_same `{R : Regexes} v :
  let stored := dumps_content float_to_string v in let signed := dumps_sorted float_to_string v in
  bare Out stored = bare Out signed ∧ clean Out stored ∧ clean Out signed ∧ tight stored ∧ tight signed.
Proof.
  cbv zeta. destruct (value_same v 1) as ([H1 H1'] & [H2 H2'] & H3). unfold dumps_content, dumps_sorted. pose proof (compact_thins _ H1) as Ht.
  assert (tight (indented v 1) ∧ tight (dump v)) as [T1 T2] by (unfold tight; destruct (H1' false) as (? & ? & ->), (H2' false) as (? & ? & ->); eauto).
  split_and!; [by rewrite (thins_bare _ _ _ Ht)|by eapply thins_clean|done|by eapply thins_tight|done].
Qed.

(** C30: What is stored is what was signed. The form of a content.json on disk and
    the text its signature covers differ in white space between tokens alone,
    whatever matches the two compaction passes find: the passes run over string
    literals too, and a bracket inside a string can start a match, but nothing
    inside a string is ever touched and no two words run together. *)
Theorem dumps_content_faithful `{R : Regexes} v :
  let stored := dumps_content float_to_string v in let signed := dumps_sorted float_to_string v in
  bare Out stored = bare Out signed ∧ clean Out stored ∧ clean Out signed ∧ tight stored ∧ tight signed.
Proof. apply dumps_same. Qed.
End values.

(** ** A matcher for the four patterns *)

(** [[, ]{0,2}\n] at the front: the longest first. *)
Definition sep_byte (c : byte) : bool := bool_decide (c = x2c ∨ c = x20).
Definition tail_at (s : bytes) : option (bytes * bytes) :=
  match s with
  | a :: b :: n :: r => if sep_byte a && sep_byte b && bool_decide (n = nl) then Some ([a; b; n], r) else
                        if sep_byte a && bool_decide (b = nl) then Some ([a; b], n :: r) else if bool_decide (a = nl) then Some ([a], b :: n :: r) else None
  | [a; b] => if sep_byte a && bool_decide (b = nl) then Some ([a; b], []) else if bool_decide (a = nl) then Some ([a], [b]) else None
  | [a] => if bool_decide (a = nl) then Some ([a], []) else None
  | [] => None
  end.

(** The shortest body of at least [k] allowed bytes before [close] and a tail. *)
Fixpoint body_at (allowed : byte → bool) (close : byte) (k : nat) (s : bytes) : option (bytes * (bytes * bytes)) :=
  match s with
  | [] => None
  | c :: s' =>
    match (if bool_decide (c = close) && bool_decide (k = 0%nat) then tail_at s' else None) with
    | Some x => Some ([], x)
    | None => if allowed c then '(b, x) ← body_at allowed close (k - 1) s'; Some (c :: b, x) else None
    end
  end.

Definition not_in (l : bytes) (c : byte) : bool := bool_decide (c ∉ l).
Fixpoint take_spaces (s : bytes) : nat := match s with c :: s => if bool_decide (c = x20) then S (take_spaces s) else 0%nat | [] => 0%nat end.

(** A match at the front: the whole, its group and what follows. *)
Definition match_at (p : pattern) (s : bytes) : option (bytes * bytes * bytes) :=
  match p, s with
  | DICT, o :: n :: s => if bool_decide (o = x7b) && bool_decide (n = nl)
      then '(b, (t, r)) ← body_at (not_in [x2c; x5b; x7b]) x7d 10 s; Some (x7b :: (nl :: b) ++ x7d :: t, nl :: b, r) else None
  | LIST, o :: s => if bool_decide (o = x5b)
      then '(b, (t, r)) ← body_at (not_in [x5b; x7b]) x5d 2 s; Some (x5b :: b ++ x5d :: t, b, r) else None
  | TRAIL, _ => let n := take_spaces s in let r := drop n s in
      if bool_decide (n = 0%nat) then None else if bool_decide (r = [] ∨ head r = Some nl) then Some (spaces n, [], r) else None
  | INNER_WS, n :: s => if bool_decide (n = nl) then let k := take_spaces s in Some (nl :: spaces k, [], drop k s) else None
  | _, _ => None
  end.

(** From left to right, without overlap; [acc] is the text since the last match. *)
Fixpoint scan (p : pattern) (fuel : nat) (acc s : bytes) : list piece :=
  match fuel, s with
  | S fuel, c :: s' =>
    match match_at p s with
    | Some (w, g, r) => Between (rev acc) :: Match w g :: scan p fuel [] r
    | None => scan p fuel (c :: acc) s'
    end
  | _, _ => [Between (rev acc ++ s)]
  end.

Lemma tail_at_sound s t r : tail_at s = Some (t, r) → s = t ++ r ∧ tail_shape t.
Proof.
  assert (∀ c, sep_byte c = true → c = x2c ∨ c = x20) as Hsep by (intros c; apply bool_decide_eq_true).
  assert (∀ a b r', sep_byte a && bool_decide (b = nl) = true → (a :: b :: r') = [a; b] ++ r' ∧ tail_shape [a; b]) as H2.
  { intros a b r' [Ha%Hsep ->%bool_decide_eq_true]%andb_true_iff. split; [done|]. exists [a]. split_and!; [done|cbn; lia|constructor; [done|constructor]]. }
  assert (∀ a (r' : bytes), bool_decide (a = nl) = true → (a :: r') = [a] ++ r' ∧ tail_shape [a]) as H1.
  { intros a r' ->%bool_decide_eq_true. split; [done|]. exists []. split_and!; [done|cbn; lia|constructor]. }
  intros H. destruct s as [|a [|b [|n s]]]; cbn [tail_at] in H; [done|..].
  - destruct (bool_decide (a = nl)) eqn:E; [|done]. injection H as <- <-. by apply H1.
  - destruct (sep_byte a && bool_decide (b = nl)) eqn:E; [injection H as <- <-; by apply H2|]. destruct (bool_decide (a = nl)) eqn:E'; [|done]. injection H as <- <-. by apply H1.
  - destruct (sep_byte a && sep_byte b && bool_decide (n = nl)) eqn:E.
    { injection H as <- <-. apply andb_true_iff in E as [[Ha%Hsep Hb%Hsep]%andb_true_iff ->%bool_decide_eq_true]. split; [done|]. exists [a; b]. split_and!; [done|cbn; lia|constructor; [done|constructor; [done|constructor]]]. }
    destruct (sep_byte a && bool_decide (b = nl)) eqn:E2; [injection H as <- <-; by apply H2|]. destruct (bool_decide (a = nl)) eqn:E3; [|done]. injection H as <- <-. by apply H1.
Qed.

Lemma body_at_sound allowed close s : ∀ k b t r, body_at allowed close k s = Some (b, (t, r)) →
  s = b ++ close :: t ++ r ∧ (k <= length b)%nat ∧ Forall (λ c, allowed c = true) b ∧ tail_shape t.
Proof.
  induction s as [|c s IH]; intros k b t r H; [done|]. cbn [body_at] in H.
  destruct (bool_decide (c = close) && bool_decide (k = 0%nat)) eqn:E.
  - apply andb_true_iff in E as [->%bool_decide_eq_true ->%bool_decide_eq_true]. destruct (tail_at s) as [[t' r']|] eqn:Et.
    + injection H as <- <- <-. destruct (tail_at_sound _ _ _ Et) as [-> ?]. split_and!; [done|cbn; lia|constructor|done].
    + destruct (allowed close) eqn:Ha; [|done]. destruct (body_at allowed close _ s) as [[b' [t' r']]|] eqn:Eb; [|done]. injection H as <- <- <-.
      destruct (IH _ _ _ _ Eb) as (-> & ? & ? & ?). split_and!; [done|cbn; lia|by constructor|done].
  - destruct (allowed c) eqn:Ha; [|done]. destruct (body_at allowed close _ s) as [[b' [t' r']]|] eqn:Eb; [|done]. injection H as <- <- <-.
    destruct (IH _ _ _ _ Eb) as (-> & ? & ? & ?). split_and!; [done|cbn; lia|by constructor|done].
Qed.

Lemma take_spaces_split s : s = spaces (take_spaces s) ++ drop (take_spaces s) s.
Proof. induction s as [|c s IH]; [done|]. cbn. case_bool_decide; [subst; cbn; f_equal; exact IH|done]. Qed.

Lemma match_at_sound p s w g r : match_at p s = Some (w, g, r) → s = w ++ r ∧ shape p w g r.
Proof.
  destruct p; cbn [match_at].
  - destruct s as [|o [|n s]]; [done..|]. destruct (_ && _) eqn:E; [|done]. apply andb_true_iff in E as [->%bool_decide_eq_true ->%bool_decide_eq_true].
    destruct (body_at _ _ _ s) as [[b [t r']]|] eqn:Eb; [|done]. cbn. intros [= <- <- <-]. destruct (body_at_sound _ _ _ _ _ _ _ Eb) as (-> & Hl & Hb & Ht).
    split; [cbn; by rewrite <- app_assoc|]. exists b, t. split_and!; [done|done| |done|done]. eapply Forall_impl; [exact Hb|]. intros c Hc%bool_decide_eq_true. set_solver.
  - destruct s as [|o s]; [done|]. destruct (bool_decide (o = x5b)) eqn:E; [|done]. apply bool_decide_eq_true in E as ->.
    destruct (body_at _ _ _ s) as [[b [t r']]|] eqn:Eb; [|done]. cbn. intros [= <- <- <-]. destruct (body_at_sound _ _ _ _ _ _ _ Eb) as (-> & Hl & Hb & Ht).
    split; [cbn; by rewrite <- app_assoc|]. exists t. split_and!; [done| |done|done]. eapply Forall_impl; [exact Hb|]. intros c Hc%bool_decide_eq_true. set_solver.
  - cbv zeta. case_bool_decide as Hn; [done|]. case_bool_decide as Hr; [|done]. intros [= <- <- <-]. split; [apply take_spaces_split|].
    destruct (take_spaces s) as [|n]; [done|]. by exists n.
  - destruct s as [|n s]; [done|]. case_bool_decide as Hn; [|done]. intros [= <- <- <-]. subst n. split; [cbn; f_equal; apply take_spaces_split|]. by eexists.
Qed.

Lemma scan_cover p fuel : ∀ acc s, concat (map piece_text (scan p fuel acc s)) = rev acc ++ s.
Proof.
  induction fuel as [|fuel IH]; intros acc s; cbn; [by rewrite app_nil_r|]. destruct s as [|c s]; [cbn; by rewrite app_nil_r|].
  destruct (match_at p (c :: s)) as [[[w g] r]|] eqn:E; [|rewrite IH; cbn; by rewrite <- app_assoc]. destruct (match_at_sound _ _ _ _ _ E) as [-> _]. cbn. by rewrite IH.
Qed.

Lemma scan_sound p fuel : ∀ acc s l w g r, scan p fuel acc s = l ++ Match w g :: r → shape p w g (concat (map piece_text r)).
Proof.
  assert (∀ b l w g r, [Between b] = l ++ Match w g :: r → False) as Hone by (intros b [|x [|]] w g r; done).
  induction fuel as [|fuel IH]; intros acc s l w g r H; cbn in H; [by apply Hone in H|]. destruct s as [|c s]; [by apply Hone in H|].
  destruct (match_at p (c :: s)) as [[[w' g'] r']|] eqn:E; [|by eapply IH]. destruct l as [|x [|y l]]; [done| |injection H as _ _ H; by eapply IH].
  injection H as _ <- <- <-. rewrite scan_cover. by apply match_at_sound in E as [_ E].
Qed.

#[local] Instance scanner : Regexes := {
  matches p s := scan p (S (length s)) [] s;
  matches_cover p s := scan_cover p _ [] s;
  matches_sound p s l w g r := scan_sound p _ [] s l w g r
}.

Definition quoted (s : bytes) : bytes := x22 :: s ++ [x22].
(** A bracket in a string of a flat list, and a dictionary of one entry. *)
Definition sample : json := JObj [
  (bstr "ignore", JArr [JStr (bstr "a[b"); JInt 12]);
  (bstr "signs", JObj [(bstr "epix1abcdef", JStr (bstr "sig}")) ])].

Example dumps_sample : dumps_content (λ _, []) sample =
  bstr "{" ++ [nl] ++ bstr " " ++ quoted (bstr "ignore") ++ bstr ": [" ++ [nl] ++ bstr "  " ++ quoted (bstr "a[b") ++ bstr ",12]," ++ [nl] ++
  bstr " " ++ quoted (bstr "signs") ++ bstr ": {" ++ quoted (bstr "epix1abcdef") ++ bstr ": " ++ quoted (bstr "sig}") ++ bstr "}" ++ [nl] ++ bstr "}".
Proof. vm_compute. reflexivity. Qed.

Lemma half_word (f : Z) : Forall word_byte (bstr "0.5").
Proof. apply Forall_forall. intros c Hc. change (c ∈ [x30; x2e; x35]) in Hc. rewrite !elem_of_cons in Hc. destruct Hc as [->|[->|[->|Hc%not_elem_of_nil]]]; [done..|]. done. Qed.

Lemma dumps_content_faithful_witness :
  bare Out (dumps_content (λ _, bstr "0.5") sample) = bare Out (dumps_sorted (λ _, bstr "0.5") sample) ∧ tight (dumps_content (λ _, bstr "0.5") sample).
Proof.
  destruct (dumps_content_faithful (λ _, bstr "0.5") half_word sample) as (H1 & _ & _ & H2 & _). split; [exact H1|exact H2].
Defined.
