(* ===== verification/Files.v ===== *)
(** * A xite's files on disk ([crates/epix-xite/src/storage.rs])

    A file system as a map from absolute paths to directories and files, in the
    part a xite's storage uses of it, and the operations of [XiteStorage] over
    it. Any system call may be refused, and a write may be refused halfway; a
    file that was written but not synced holds anything after a power cut.
    Paths are Unix paths, and there are no links below a xite's root. *)
From Stdlib Require Import ZArith Lia Strings.Byte.
From stdpp Require Import base list gmap strings.
From S2P Require Import Prelude Ordered Text Canonical Manifest.
#[local] Open Scope Z_scope.

(** ** Errors ([crates/epix-core/src/error.rs]) *)

(** What the system says: no such file or directory, a file where a directory is
    meant or the other way round, a name it cannot take, or anything else. *)
Inductive OsError := Missing | WrongKind | BadName | Refused.

Inductive CoreError :=
  | CoreInvalidAddress (m : bytes) | CoreCrypt (m : bytes) | CoreInvalidPeer (m : bytes) | CoreProtocol (m : bytes) | CoreDb (m : bytes)
  | CoreNotFound (m : bytes) | CoreIo (e : OsError) | CoreJson (m : bytes) | CoreOther (m : bytes).

(** ** The file system *)

(** The names from the top. *)
Abbreviation fpath := (list bytes).

(** [mtime] in nanoseconds. *)
Inductive node := Dir | File (content : bytes) (synced : bool) (mtime : Z).
#[global] Instance node_eq_dec : EqDecision node.
Proof. solve_decision. Defined.
Abbreviation Tree := (gmap fpath node).

(** [fates]: of the coming system calls, [Some n] one that is refused after doing
    [n] units of its work; they go through when the list runs out. [past]: the
    trees there have been, latest first, the present one excluded. *)
Record Disk := mkDisk { tree : Tree; fates : list (option nat); time : Z; past : list Tree }.

Definition Fs (A : Type) : Type := Disk → result CoreError A * Disk.
#[global] Instance fs_ret : MRet Fs := λ A a d, (Ok a, d).
#[global] Instance fs_bind : MBind Fs := λ A B f m d, match m d with (Ok a, d) => f a d | (Err e, d) => (Err e, d) end.
Definition fails {A} (e : CoreError) : Fs A := λ d, (Err e, d).
(** [m.ok()]. *)
Definition attempt {A} (m : Fs A) : Fs (option A) := λ d, match m d with (Ok a, d) => (Ok (Some a), d) | (Err _, d) => (Ok None, d) end.
Definition lift {A} (r : result CoreError A) : Fs A := λ d, (r, d).

Definition the_tree : Fs Tree := λ d, (Ok (tree d), d).
Definition set_tree (t : Tree) : Fs () := λ d, (Ok (), mkDisk t (fates d) (time d) (tree d :: past d)).
Definition clock : Fs Z := λ d, (Ok (time d), d).
(** How the next system call goes. *)
Definition fate : Fs (option nat) := λ d,
  match fates d with [] => (Ok None, d) | f :: fs => (Ok f, mkDisk (tree d) fs (time d) (past d)) end.

Lemma run_val {A B} (m : Fs A) (f : A → Fs B) d a d1 : m d = (Ok a, d1) → (m ≫= f) d = f a d1.
Proof. unfold mbind, fs_bind. by intros ->. Qed.
Lemma run_err {A B} (m : Fs A) (f : A → Fs B) d e d1 : m d = (Err e, d1) → (m ≫= f) d = (Err e, d1).
Proof. unfold mbind, fs_bind. by intros ->. Qed.

(** ** Paths *)

Inductive component := RootDir | CurDir | ParentDir | Normal (name : bytes).
#[global] Instance component_eq_dec : EqDecision component.
Proof. solve_decision. Defined.

Definition segment (s : bytes) : option component :=
  if bool_decide (s = [] ∨ s = bstr ".") then None else if bool_decide (s = bstr "..") then Some ParentDir else Some (Normal s).

(** [Path::components]. *)
Definition components (s : bytes) : list component :=
  (if starts_with (bstr "/") s then [RootDir] else if bool_decide (head (split_on x2f s) = Some (bstr ".")) then [CurDir] else []) ++
  omap segment (split_on x2f s).

Definition name_of (c : component) : option bytes := match c with Normal n => Some n | _ => None end.

(** A [PathBuf] below a root: [trailing] when it ends in a separator or a dot,
    so that it can only be a directory; [nul] when it holds a NUL, so that no
    system call takes it. *)
Record PathBuf := mkPath { names : fpath; trailing : bool; nul : bool }.

Definition parent_of (p : PathBuf) : option PathBuf :=
  match names p with [] => None | _ => Some (mkPath (removelast (names p)) false (nul p)) end.
Definition file_name (p : PathBuf) : option bytes := last (names p).
Definition join_name (p : PathBuf) (n : bytes) : PathBuf := mkPath (names p ++ [n]) false (nul p || contains_byte x00 n).

(** ** System calls *)

Definition refuse {A} : Fs A := fails (CoreIo Refused).
Definition usable (p : PathBuf) : Fs fpath := if nul p then fails (CoreIo BadName) else mret (names p).
(** A path that is to be a file. *)
Definition as_file (p : PathBuf) : Fs fpath := q ← usable p; if trailing p then fails (CoreIo WrongKind) else mret q.

Definition parent_is_dir (t : Tree) (q : fpath) : bool := bool_decide (q ≠ [] ∧ t !! removelast q = Some Dir).

(** [std::fs::metadata]. *)
Definition metadata (p : PathBuf) : Fs node :=
  f ← fate; match f with Some _ => refuse | None =>
    q ← usable p; t ← the_tree;
    match t !! q with
    | None => fails (CoreIo Missing)
    | Some Dir => mret Dir
    | Some n => if trailing p then fails (CoreIo WrongKind) else mret n
    end
  end.

(** [Path::is_file] and [Path::is_dir]: an error is a no. *)
Definition is_file (p : PathBuf) : Fs bool := m ← attempt (metadata p); mret (match m with Some (File _ _ _) => true | _ => false end).
Definition is_dir (p : PathBuf) : Fs bool := m ← attempt (metadata p); mret (match m with Some Dir => true | _ => false end).

(** [std::fs::read]. *)
Definition fs_read (p : PathBuf) : Fs bytes :=
  f ← fate; match f with Some _ => refuse | None =>
    q ← as_file p; t ← the_tree;
    match t !! q with Some (File b _ _) => mret b | Some Dir => fails (CoreIo WrongKind) | None => fails (CoreIo Missing) end
  end.

(** [File::create], or opening to write and truncate. *)
Definition fs_create (p : PathBuf) : Fs fpath :=
  f ← fate; match f with Some _ => refuse | None =>
    q ← as_file p; t ← the_tree; now ← clock;
    if negb (parent_is_dir t q) then fails (CoreIo Missing) else
    match t !! q with
    | Some Dir => fails (CoreIo WrongKind)
    | _ => _ ← set_tree (<[q := File [] false now]> t); mret q
    end
  end.

(** [write_all] to a file just opened. *)
Definition fs_write_all (q : fpath) (b : bytes) : Fs () :=
  f ← fate; t ← the_tree; now ← clock;
  match f with
  | Some n => _ ← set_tree (<[q := File (take n b) false now]> t); refuse
  | None => set_tree (<[q := File b false now]> t)
  end.

(** [File::sync_all]. *)
Definition fs_sync (q : fpath) : Fs () :=
  f ← fate; match f with Some _ => refuse | None =>
    t ← the_tree;
    match t !! q with Some (File b _ m) => set_tree (<[q := File b true m]> t) | _ => mret () end
  end.

(** [std::fs::write]. *)
Definition fs_write (p : PathBuf) (b : bytes) : Fs () := q ← fs_create p; fs_write_all q b.

(** [std::fs::rename] of a file. *)
Definition fs_rename (a b : PathBuf) : Fs () :=
  f ← fate; match f with Some _ => refuse | None =>
    qa ← as_file a; qb ← as_file b; t ← the_tree;
    if negb (parent_is_dir t qb) then fails (CoreIo Missing) else
    match t !! qa, t !! qb with
    | Some (File x s m), Some Dir => fails (CoreIo WrongKind)
    | Some (File x s m), _ => set_tree (<[qb := File x s m]> (delete qa t))
    | _, _ => fails (CoreIo Missing)
    end
  end.

Definition fs_remove_file (p : PathBuf) : Fs () :=
  f ← fate; match f with Some _ => refuse | None =>
    q ← as_file p; t ← the_tree;
    match t !! q with Some (File _ _ _) => set_tree (delete q t) | Some Dir => fails (CoreIo WrongKind) | None => fails (CoreIo Missing) end
  end.

(** The names directly in [q]. *)
Definition child_of (q : fpath) (e : fpath * node) : option bytes :=
  if decide (removelast e.1 = q ∧ e.1 ≠ []) then last e.1 else None.
Definition children (t : Tree) (q : fpath) : list bytes := omap (child_of q) (map_to_list t).

Definition fs_remove_dir (p : PathBuf) : Fs () :=
  f ← fate; match f with Some _ => refuse | None =>
    q ← usable p; t ← the_tree;
    match t !! q, children t q with
    | Some Dir, [] => if decide (q = []) then refuse else set_tree (delete q t)
    | Some Dir, _ => refuse
    | _, _ => fails (CoreIo Missing)
    end
  end.

(** [create_dir_all]: the directories of [q] from the top, as far as [upto]. *)
Fixpoint make_dirs (q : fpath) (upto : nat) (t : Tree) : option Tree :=
  match upto with
  | O => Some t
  | S n =>
    t ← make_dirs q n t;
    match t !! take (S n) q with
    | None => Some (<[take (S n) q := Dir]> t)
    | Some Dir => Some t
    | Some (File _ _ _) => None
    end
  end.

Definition create_dir_all (p : PathBuf) : Fs () :=
  f ← fate; q ← usable p; t ← the_tree;
  let n := match f with Some n => (n `min` length q)%nat | None => length q end in
  match make_dirs q n t with
  | None => fails (CoreIo WrongKind)
  | Some t => _ ← set_tree t; match f with Some _ => refuse | None => mret () end
  end.

(** ** [XiteStorage] *)

Section storage.
(** The xite's directory. *)
Context (root : fpath).
(** The order [read_dir] gives, and [to_string_lossy]. *)
Context (dir_order : list bytes → list bytes) (lossy : bytes → bytes).

Definition unsafe (inner_path : bytes) : CoreError := CoreOther (bstr "unsafe inner_path: " ++ inner_path).

(** [root.join(inner_path)]: it ends in a separator or a dot when its last segment
    is no name. *)
Definition joined (inner_path : bytes) : PathBuf :=
  mkPath (root ++ omap name_of (components inner_path))
    (bool_decide ((s ← last (split_on x2f inner_path); segment s) = None)) (contains_byte x00 inner_path).

Definition safe_component (c : component) : bool := match c with Normal _ | CurDir => true | _ => false end.

Definition storage_path (inner_path : bytes) : result CoreError PathBuf :=
  if forallb safe_component (components inner_path) then Ok (joined inner_path) else Err (unsafe inner_path).

Definition exists_ (inner_path : bytes) : Fs bool :=
  match storage_path inner_path with Ok p => is_file p | Err _ => mret false end.

Definition read (inner_path : bytes) : Fs bytes := p ← lift (storage_path inner_path); fs_read p.

Definition write (inner_path : bytes) (b : bytes) : Fs () :=
  p ← lift (storage_path inner_path);
  _ ← match parent_of p with Some d => create_dir_all d | None => mret () end;
  fs_write p b.

(** The rename and its retries; the sync of the directory is best effort. *)
Fixpoint rename_tries (n : nat) (tmp p : PathBuf) : Fs (option CoreError) := λ d,
  match n with
  | O => (Ok None, d)
  | S n =>
    match fs_rename tmp p d with
    | (Ok _, d) => let '(_, d) := fate d in (Ok None, d)
    | (Err e, d) => match n with O => (Ok (Some e), d) | _ => rename_tries n tmp p d end
    end
  end.

Definition replace_in_place (p : PathBuf) (b : bytes) : Fs () := q ← fs_create p; _ ← fs_write_all q b; fs_sync q.

Definition write_atomic (inner_path : bytes) (b : bytes) : Fs () :=
  p ← lift (storage_path inner_path);
  parent ← match parent_of p with Some d => mret d | None => fails (CoreOther (bstr "no parent dir: " ++ inner_path)) end;
  _ ← create_dir_all parent;
  let tmp := join_name parent (default (bstr "content.json") (file_name p) ++ bstr ".epixtmp") in
  q ← fs_create tmp;
  _ ← fs_write_all q b;
  _ ← fs_sync q;
  e ← rename_tries 4 tmp p;
  match e with
  | None => mret ()
  | Some e =>
    r ← attempt (replace_in_place p b);
    match r with
    | Some _ => _ ← attempt (fs_remove_file tmp); mret ()
    | None => fails e
    end
  end.

(** [delete]'s loop; [n] bounds the parents there are. *)
Fixpoint prune_empty (n : nat) (dir : option PathBuf) : Fs () :=
  match n, dir with
  | S n, Some d =>
    if bool_decide (names d = root) then mret () else
    r ← attempt (fs_remove_dir d);
    match r with None => mret () | Some _ => prune_empty n (parent_of d) end
  | _, _ => mret ()
  end.

Definition delete_file (inner_path : bytes) : Fs () :=
  p ← lift (storage_path inner_path);
  _ ← fs_remove_file p;
  prune_empty (length (names p)) (parent_of p).

Definition present_at_size (inner_path : bytes) (size : Z) : Fs bool :=
  match storage_path inner_path with
  | Err _ => mret false
  | Ok p => m ← attempt (metadata p); mret (match m with Some (File b _ _) => blen b =? size | _ => false end)
  end.

(** [list_files]: the stack's top first. A directory that cannot be read is passed
    over. *)
Definition inner_name (q : fpath) : bytes := replace_byte x5c x2f (lossy (str_join (bstr "/") (drop (length root) q))).

Fixpoint list_dir (t : Tree) (dir : fpath) (ns : list bytes) (stack : list fpath) (out : list bytes) : list fpath * list bytes :=
  match ns with
  | [] => (stack, out)
  | n :: ns =>
    match t !! (dir ++ [n]) with
    | Some Dir => list_dir t dir ns ((dir ++ [n]) :: stack) out
    | _ => list_dir t dir ns stack (out ++ [inner_name (dir ++ [n])])
    end
  end.

Fixpoint list_loop (fuel : nat) (stack : list fpath) (out : list bytes) : Fs (list bytes) :=
  match fuel, stack with
  | S fuel, dir :: stack =>
    f ← fate; t ← the_tree;
    match f, t !! dir with
    | None, Some Dir => let '(stack, out) := list_dir t dir (dir_order (children t dir)) stack out in list_loop fuel stack out
    | _, _ => list_loop fuel stack out
    end
  | _, _ => mret out
  end.

Definition list_files : Fs (list bytes) := t ← the_tree; list_loop (S (size t)) [root] [].

Section hashes.
(** [Sha512::digest]. *)
Context (sha512 : bytes → bytes).

Definition hash_bytes (b : bytes) : bytes := to_hex (take 32 (sha512 b)).
Definition verify_file (inner_path expected : bytes) : Fs bool :=
  r ← attempt (read inner_path); mret (match r with Some b => bool_decide (hash_bytes b = expected) | None => false end).
End hashes.
End storage.

Create HintDb follows.

(** ** Histories *)

Definition history (d : Disk) : list Tree := tree d :: past d.

(** Every tree a call goes through is related to the one it found. *)
Definition follows (R : Tree → Tree → Prop) {A} (m : Fs A) : Prop :=
  ∀ d, ∃ ts, history (m d).2 = ts ++ history d ∧ Forall (R (tree d)) ts.

Section follows.
Context (R : Tree → Tree → Prop) `{!PreOrder R}.

Lemma follows_now {A} (m : Fs A) d : follows R m → R (tree d) (tree (m d).2).
Proof.
  intros H. destruct (H d) as (ts & Hh & HF). unfold history in Hh. destruct ts as [|t ts]; cbn in Hh; [injection Hh as -> _; reflexivity|].
  injection Hh as -> _. by inversion HF.
Qed.

Lemma follows_quiet {A} (m : Fs A) : (∀ d, history (m d).2 = history d) → follows R m.
Proof. intros H d. exists []. rewrite H. split; [done|constructor]. Qed.

Lemma follows_bind_ok {A B} (P : A → Prop) (m : Fs A) (f : A → Fs B) : follows R m → (∀ d a, (m d).1 = Ok a → P a) → (∀ a, P a → follows R (f a)) → follows R (m ≫= f).
Proof.
  intros Hm HP Hf d. unfold mbind, fs_bind. pose proof (follows_now m d Hm) as Hn. specialize (Hm d). specialize (HP d). destruct (m d) as [[a|e] d1]; [|done]. cbn in Hm, Hn, HP.
  destruct Hm as (ts & H1 & H2), (Hf a (HP a eq_refl) d1) as (ts' & H1' & H2'). exists (ts' ++ ts). rewrite H1', H1, app_assoc. split; [done|].
  apply Forall_app. split; [|done]. eapply Forall_impl; [exact H2'|]. cbn. intros t Ht. by etransitivity.
Qed.

Lemma follows_bind {A B} (m : Fs A) (f : A → Fs B) : follows R m → (∀ a, follows R (f a)) → follows R (m ≫= f).
Proof. intros Hm Hf. by apply (follows_bind_ok (λ _, True)). Qed.

Lemma follows_attempt {A} (m : Fs A) : follows R m → follows R (attempt m).
Proof. intros Hm d. specialize (Hm d). unfold attempt. by destruct (m d) as [[]]. Qed.

Lemma follows_ret {A} (a : A) : follows R (mret a).
Proof. by apply follows_quiet. Qed.
Lemma follows_fails {A} e : follows R (fails (A := A) e).
Proof. by apply follows_quiet. Qed.
Lemma follows_lift {A} (r : result CoreError A) : follows R (lift r).
Proof. by apply follows_quiet. Qed.
Lemma follows_clock : follows R clock.
Proof. by apply follows_quiet. Qed.
Lemma follows_fate : follows R fate.
Proof. apply follows_quiet. intros d. unfold fate. by destruct (fates d). Qed.

Lemma follows_lifted {A B} (r : result CoreError A) (f : A → Fs B) : (∀ a, r = Ok a → follows R (f a)) → follows R (lift r ≫= f).
Proof. intros H. apply (follows_bind_ok (λ a, r = Ok a)); [apply follows_lift|by intros|done]. Qed.

Lemma follows_bound {A B} (a : A) (f : A → Fs B) : follows R (f a) → follows R (mret a ≫= f).
Proof. done. Qed.
End follows.

#[export] Hint Resolve follows_ret follows_fails follows_lift follows_clock follows_fate follows_attempt : follows.

(** The steps of a call that leave the tree alone. *)
Ltac follows :=
  repeat first
    [ solve [eauto with follows]
    | refine (follows_bind _ _ _ _ _); [|intros ?]
    | match goal with
      | |- follows _ (if ?b then _ else _) => destruct b
      | |- follows _ (match ?x with _ => _ end) => destruct x
      end ].

(** ** What a system call changes *)

(** One fate is spent, and a call that changes the tree changes it once. *)
Definition called (d d' : Disk) : Prop := fates d' = tail (fates d) ∧ time d' = time d.
Definition idle (d d' : Disk) : Prop := called d d' ∧ history d' = history d.
Definition moved (t : Tree) (d d' : Disk) : Prop := called d d' ∧ history d' = t :: history d.

Lemma fate_spec d : ∃ f d', fate d = (Ok f, d') ∧ f = default None (head (fates d)) ∧ idle d d'.
Proof. unfold fate. destruct (fates d) as [|f fs] eqn:E; eexists _, _; (split; [done|]); (split; [done|]); unfold idle, called; rewrite ?E; done. Qed.

Lemma idle_now d d' : idle d d' → tree d' = tree d ∧ past d' = past d.
Proof. intros [_ [= H1 H2]]. done. Qed.
Lemma moved_now t d d' : moved t d d' → tree d' = t ∧ past d' = history d.
Proof. intros [_ [= H1 H2]]. done. Qed.

Lemma idle_time d d' : idle d d' → time d' = time d.
Proof. by intros [[_ ?] _]. Qed.
Lemma moved_intro t d d1 d' : idle d d1 → fates d' = fates d1 → time d' = time d1 → tree d' = t → past d' = history d → moved t d d'.
Proof. intros [[H1 H2] H3] Hf Ht <- Hp. unfold moved, called, history. rewrite Hf, Ht, Hp, H1, H2. done. Qed.

(** The tree was set after an idle start. *)
Ltac set_tree_moved :=
  match goal with
  | Hd : idle ?d ?d1 |- moved _ ?d _ =>
    apply (moved_intro _ d d1); [exact Hd|done|done|cbn; pose proof (idle_time _ _ Hd); congruence|unfold history in *; cbn; destruct (idle_now _ _ Hd); congruence]
  end.

(** Runs the fate of a call. *)
Ltac run_fate d :=
  let f := fresh "f" in let d1 := fresh "d1" in let Hf := fresh "Hf" in let Hd := fresh "Hd" in let E := fresh "E" in
  destruct (fate_spec d) as (f & d1 & E & Hf & Hd); unfold mbind at 1, fs_bind at 1; rewrite E; clear E;
  destruct (idle_now _ _ Hd) as [? ?].

Lemma metadata_spec p d : ∃ r d', metadata p d = (r, d') ∧ idle d d' ∧
  match r with Ok n => tree d !! names p = Some n ∧ nul p = false ∧ (n = Dir ∨ trailing p = false) | Err _ => True end.
Proof.
  unfold metadata. run_fate d. destruct f; [by eexists _, _|]. unfold usable, mbind, fs_bind, the_tree. destruct (nul p); cbn; [by eexists _, _|].
  replace (tree d1) with (tree d). destruct (tree d !! names p) as [[|b s m]|] eqn:E; [by eauto 10| |by eexists _, _]. destruct (trailing p); by eauto 10.
Qed.

Lemma fs_read_spec p d : ∃ r d', fs_read p d = (r, d') ∧ idle d d' ∧
  match r with
  | Ok b => nul p = false ∧ trailing p = false ∧ ∃ s m, tree d !! names p = Some (File b s m)
  | Err _ => head (fates d) = Some None ∨ fates d = [] → nul p = true ∨ trailing p = true ∨ ∀ b s m, tree d !! names p ≠ Some (File b s m)
  end.
Proof.
  unfold fs_read. run_fate d. destruct f as [n|]; [eexists _, _; split; [done|]; split; [done|]; intros [H1|H1]; rewrite H1 in Hf; done|].
  unfold as_file, usable, mbind, fs_bind, the_tree. destruct (nul p); cbn; [eexists _, _; split; [done|]; by auto|].
  destruct (trailing p); cbn; [eexists _, _; split; [done|]; by auto|]. replace (tree d1) with (tree d).
  destruct (tree d !! names p) as [[|b s m]|] eqn:E; eexists _, _; (split; [done|]); (split; [done|]); eauto.
Qed.

Lemma fs_create_spec p d : ∃ r d', fs_create p d = (r, d') ∧
  match r with
  | Ok q => q = names p ∧ parent_is_dir (tree d) q = true ∧ tree d !! q ≠ Some Dir ∧ nul p = false ∧ trailing p = false ∧
      moved (<[q := File [] false (time d)]> (tree d)) d d'
  | Err _ => idle d d'
  end.
Proof.
  unfold fs_create. run_fate d. destruct f; [by eexists _, _|].
  unfold as_file, usable, mbind, fs_bind, the_tree, clock. destruct (nul p); cbn; [by eexists _, _|]. destruct (trailing p); cbn; [by eexists _, _|].
  replace (tree d1) with (tree d). destruct (parent_is_dir (tree d) (names p)) eqn:Ep; [|by eexists _, _]. cbn.
  destruct (tree d !! names p) as [[|b s m]|] eqn:E; [by eexists _, _|..]; eexists _, _; (split; [done|]);
    (split_and!; [congruence..|set_tree_moved]).
Qed.

Lemma fs_write_all_spec q b d : ∃ r d' b', fs_write_all q b d = (r, d') ∧ moved (<[q := File b' false (time d)]> (tree d)) d d' ∧ (r = Ok () → b' = b).
Proof.
  unfold fs_write_all. run_fate d. unfold mbind, fs_bind, the_tree, clock. 
  destruct f as [n|]; [eexists _, _, (take n b)|eexists _, _, b]; (split; [done|]); (split; [set_tree_moved|done]).
Qed.

Lemma fs_sync_spec q d b s m : tree d !! q = Some (File b s m) → ∃ r d', fs_sync q d = (r, d') ∧
  match r with Ok _ => moved (<[q := File b true m]> (tree d)) d d' | Err _ => idle d d' end.
Proof.
  intros Hq. unfold fs_sync. run_fate d. destruct f; [by eexists _, _|]. unfold mbind, fs_bind, the_tree. rewrite H, Hq.
  eexists _, _. split; [done|]. cbn. set_tree_moved.
Qed.

Lemma fs_rename_spec a b d : ∃ r d', fs_rename a b d = (r, d') ∧
  match r with
  | Ok _ => ∃ x s m, tree d !! names a = Some (File x s m) ∧ moved (<[names b := File x s m]> (delete (names a) (tree d))) d d'
  | Err _ => idle d d' ∧ ((∃ n, head (fates d) = Some (Some n)) ∨ nul a || trailing a || nul b || trailing b = true ∨
      parent_is_dir (tree d) (names b) = false ∨ tree d !! names b = Some Dir ∨ ∀ x s m, tree d !! names a ≠ Some (File x s m))
  end.
Proof.
  unfold fs_rename. run_fate d. destruct f as [n|].
  { eexists _, _. split; [done|]. split; [done|]. left. exists n. destruct (fates d); [done|]. cbn in *. congruence. }
  unfold as_file, usable, mbind, fs_bind, the_tree.
  destruct (nul a); cbn; [eexists _, _; split; [done|]; split; [done|]; right; left; by rewrite ?orb_true_r|]. destruct (trailing a); cbn; [eexists _, _; split; [done|]; split; [done|]; right; left; by rewrite ?orb_true_r|].
  destruct (nul b); cbn; [eexists _, _; split; [done|]; split; [done|]; right; left; by rewrite ?orb_true_r|]. destruct (trailing b); cbn; [eexists _, _; split; [done|]; split; [done|]; right; left; by rewrite ?orb_true_r|].
  rewrite H. destruct (parent_is_dir (tree d) (names b)) eqn:Ep; cbn; [|eexists _, _; split; [done|]; split; [done|]; by auto].
  destruct (tree d !! names a) as [[|x s m]|] eqn:Ea; [eexists _, _; split; [done|]; split; [done|]; right; right; right; right; congruence| |eexists _, _; split; [done|]; split; [done|]; right; right; right; right; congruence].
  destruct (tree d !! names b) as [[|]|] eqn:Eb; [eexists _, _; split; [done|]; split; [done|]; by auto|..]; eexists _, _; (split; [done|]); exists x, s, m; (split; [done|]);
    set_tree_moved.
Qed.

Lemma fs_remove_file_spec p d : ∃ r d', fs_remove_file p d = (r, d') ∧
  match r with Ok _ => ∃ x s m, tree d !! names p = Some (File x s m) ∧ moved (delete (names p) (tree d)) d d' | Err _ => idle d d' end.
Proof.
  unfold fs_remove_file. run_fate d. destruct f; [by eexists _, _|]. unfold as_file, usable, mbind, fs_bind, the_tree.
  destruct (nul p); cbn; [by eexists _, _|]. destruct (trailing p); cbn; [by eexists _, _|]. rewrite H.
  destruct (tree d !! names p) as [[|x s m]|] eqn:E; [by eexists _, _| |by eexists _, _]. eexists _, _. split; [done|]. exists x, s, m. split; [done|].
  set_tree_moved.
Qed.

Lemma fs_remove_dir_spec p d : ∃ r d', fs_remove_dir p d = (r, d') ∧
  match r with
  | Ok _ => tree d !! names p = Some Dir ∧ children (tree d) (names p) = [] ∧ moved (delete (names p) (tree d)) d d'
  | Err _ => idle d d'
  end.
Proof.
  unfold fs_remove_dir. run_fate d. destruct f; [by eexists _, _|]. unfold usable, mbind, fs_bind, the_tree. destruct (nul p); cbn; [by eexists _, _|]. rewrite H.
  destruct (tree d !! names p) as [[|x s m]|] eqn:E; [|by eexists _, _..]. destruct (children (tree d) (names p)) eqn:Ec; [|by eexists _, _].
  case_decide; [by eexists _, _|]. eexists _, _. split; [done|]. split_and!; [done|done|]. set_tree_moved.
Qed.

(** Making directories only adds them, above or at [q]. *)
Lemma make_dirs_spec q n t t' : make_dirs q n t = Some t' → (n <= length q)%nat → (n <> 0%nat → t' !! take n q = Some Dir) ∧
  ∀ k, t' !! k = t !! k ∨ (t !! k = None ∧ t' !! k = Some Dir ∧ k `prefix_of` q).
Proof.
  revert t'. induction n as [|n IH]; intros t' H Hn; cbn [make_dirs] in H; [injection H as ->; split; [done|by left]|].
  destruct (make_dirs q n t) as [t1|] eqn:E; [|done]. cbn [mbind option_bind] in H. destruct (IH t1 eq_refl ltac:(lia)) as [_ Hk].
  assert (Hpre : take (S n) q `prefix_of` q) by (exists (drop (S n) q); by rewrite take_drop).
  destruct (t1 !! take (S n) q) as [[|]|] eqn:E1; [|done|]; injection H as <-; [split; [done|exact Hk]|].
  split; [intros _; by rewrite lookup_insert_eq|]. intros k. destruct (decide (k = take (S n) q)) as [->|Hne]; [|by rewrite lookup_insert_ne by done].
  rewrite lookup_insert_eq. right. destruct (Hk (take (S n) q)) as [H|(H1 & H2 & _)]; [|congruence]. split_and!; try done. congruence.
Qed.

Lemma create_dir_all_spec p d : ∃ r d', create_dir_all p d = (r, d') ∧
  (idle d d' ∧ r ≠ Ok () ∨ ∃ t, moved t d d' ∧ (r = Ok () → names p ≠ [] → t !! names p = Some Dir) ∧
    ∀ k, t !! k = tree d !! k ∨ (tree d !! k = None ∧ t !! k = Some Dir ∧ k `prefix_of` names p)).
Proof.
  unfold create_dir_all. run_fate d. unfold usable, mbind, fs_bind, the_tree. destruct (nul p); cbn; [eexists _, _; split; [done|]; left; (split; [done|discriminate])|]. rewrite H.
  remember (match f with Some k => k `min` length (names p) | None => length (names p) end)%nat as n eqn:En. assert (n <= length (names p))%nat as Hn by (rewrite En; destruct f; lia).
  destruct (make_dirs (names p) n (tree d)) as [t|] eqn:E; [|eexists _, _; split; [done|]; left; (split; [done|discriminate])]. destruct (make_dirs_spec _ _ _ _ E Hn) as [H1 H2].
  destruct f; eexists _, _; (split; [done|]); right; exists t; (split_and!; [set_tree_moved| |exact H2]); [discriminate|].
  intros _ Hne. rewrite En, take_ge in H1 by lia. apply H1. by destruct (names p).
Qed.

Lemma follows_call (R : Tree → Tree → Prop) {A} (m : Fs A) :
  (∀ d, idle d (m d).2 ∨ ∃ t, moved t d (m d).2 ∧ R (tree d) t) → follows R m.
Proof.
  intros H d. destruct (H d) as [[_ Hi]|(t & [_ Hm] & HR)]; [exists []; by rewrite Hi|exists [t]; rewrite Hm; split; [done|]; by constructor].
Qed.

(** ** Confinement *)

(** Nothing changes outside [Q], but for directories made where [D] allows. *)
Definition kept (Q D : fpath → Prop) (t t' : Tree) : Prop :=
  ∀ q, Q q ∨ t' !! q = t !! q ∨ (t !! q = None ∧ t' !! q = Some Dir ∧ D q).

#[global] Instance kept_preorder (Q D : fpath → Prop) : PreOrder (kept Q D).
Proof.
  split; [by right; left|]. intros t1 t2 t3 H1 H2 q. destruct (H1 q) as [?|[E1|(E1 & E2 & ?)]], (H2 q) as [?|[E3|(E3 & E4 & ?)]]; auto; try congruence.
  - right. left. congruence.
  - right. right. split_and!; congruence.
  - right. right. split_and!; congruence.
Qed.

Lemma kept_put (Q D : fpath → Prop) (t : Tree) q n : Q q → kept Q D t (<[q := n]> t).
Proof. intros H k. destruct (decide (k = q)) as [->|]; [by left|]. right. left. by rewrite lookup_insert_ne. Qed.
Lemma kept_delete (Q D : fpath → Prop) (t : Tree) q : Q q → kept Q D t (delete q t).
Proof. intros H k. destruct (decide (k = q)) as [->|]; [by left|]. right. left. by rewrite lookup_delete_ne. Qed.

Section kept.
Context (Q D : fpath → Prop).

Lemma kept_metadata p : follows (kept Q D) (metadata p).
Proof. apply follows_call. intros d. destruct (metadata_spec p d) as (r & d' & -> & Hi & _). by left. Qed.
Lemma kept_read p : follows (kept Q D) (fs_read p).
Proof. apply follows_call. intros d. destruct (fs_read_spec p d) as (r & d' & -> & Hi & _). by left. Qed.
Lemma kept_create p : Q (names p) → follows (kept Q D) (fs_create p).
Proof.
  intros HQ. apply follows_call. intros d. destruct (fs_create_spec p d) as (r & d' & -> & H). destruct r; [|by left].
  destruct H as (-> & _ & _ & _ & _ & H). right. eexists. split; [exact H|]. by apply kept_put.
Qed.
Lemma kept_write_all q b : Q q → follows (kept Q D) (fs_write_all q b).
Proof.
  intros HQ. apply follows_call. intros d. destruct (fs_write_all_spec q b d) as (r & d' & b' & -> & H & _). right. eexists. split; [exact H|]. by apply kept_put.
Qed.
Lemma kept_sync q : Q q → follows (kept Q D) (fs_sync q).
Proof.
  intros HQ. apply follows_call. intros d. destruct (tree d !! q) as [[|b s m]|] eqn:E.
  2: { destruct (fs_sync_spec q d b s m E) as (r & d' & -> & H). destruct r; [|by left]. right. eexists. split; [exact H|]. by apply kept_put. }
  all: unfold fs_sync; run_fate d; left; destruct f; [done|]; unfold mbind, fs_bind, the_tree; by rewrite H, E.
Qed.
Lemma kept_rename a b : Q (names a) → Q (names b) → follows (kept Q D) (fs_rename a b).
Proof.
  intros Ha Hb. apply follows_call. intros d. destruct (fs_rename_spec a b d) as (r & d' & -> & H). destruct r; [|left; by destruct H].
  destruct H as (x & s & m & _ & H). right. eexists. split; [exact H|]. transitivity (delete (names a) (tree d)); [by apply kept_delete|by apply kept_put].
Qed.
Lemma kept_remove_file p : Q (names p) → follows (kept Q D) (fs_remove_file p).
Proof.
  intros HQ. apply follows_call. intros d. destruct (fs_remove_file_spec p d) as (r & d' & -> & H). destruct r; [|by left].
  destruct H as (x & s & m & _ & H). right. eexists. split; [exact H|]. by apply kept_delete.
Qed.
Lemma kept_remove_dir p : Q (names p) → follows (kept Q D) (fs_remove_dir p).
Proof.
  intros HQ. apply follows_call. intros d. destruct (fs_remove_dir_spec p d) as (r & d' & -> & H). destruct r; [|by left].
  destruct H as (_ & _ & H). right. eexists. split; [exact H|]. by apply kept_delete.
Qed.
Lemma kept_dirs p : (∀ k, k `prefix_of` names p → Q k ∨ D k) → follows (kept Q D) (create_dir_all p).
Proof.
  intros HD. apply follows_call. intros d. destruct (create_dir_all_spec p d) as (r & d' & -> & [[H _]|(t & H & _ & Hk)]); [by left|].
  right. eexists. split; [exact H|]. intros k. destruct (Hk k) as [E|(E1 & E2 & Hp)]; [auto|]. destruct (HD k Hp); auto 6.
Qed.
End kept.

#[export] Hint Resolve kept_metadata kept_read kept_create kept_write_all kept_sync kept_rename kept_remove_file kept_remove_dir kept_dirs : follows.

Lemma parent_names p d : parent_of p = Some d → names d = removelast (names p) ∧ trailing d = false ∧ nul d = nul p.
Proof. unfold parent_of. destruct (names p); [done|]. by intros [= <-]. Qed.

Section confined.
Context (root : fpath).

Definition below (q : fpath) : Prop := root `prefix_of` q ∧ q ≠ root.
Definition above (q : fpath) : Prop := q `prefix_of` root.
(** What an operation may change: what is below the root, and the directories down
    to it, if they were missing. *)
Abbreviation confined := (kept below above).

Lemma joined_below inner : root `prefix_of` names (joined root inner).
Proof. by exists (omap name_of (components inner)). Qed.

Lemma path_names inner p : storage_path root inner = Ok p → p = joined root inner.
Proof. unfold storage_path. destruct (forallb _ _); [|done]. by intros [= ->]. Qed.

(** The parents of a path below the root are below it, or the root, or above. *)
Lemma prefix_cases (q k : fpath) : root `prefix_of` q → k `prefix_of` q → below k ∨ above k.
Proof.
  intros Hr Hk. destruct (decide (above k)); [by right|]. left. destruct (prefix_weak_total _ _ _ Hr Hk); [|done]. split; [done|]. by intros ->.
Qed.

Lemma created q p d : (fs_create p d).1 = Ok q → q = names p.
Proof. destruct (fs_create_spec p d) as (r & d' & -> & H). cbn. intros ->. by destruct H. Qed.

Lemma create_bind {B} R `{!PreOrder R} p (f : fpath → Fs B) : follows R (fs_create p) → follows R (f (names p)) → follows R (fs_create p ≫= f).
Proof. intros H1 H2. apply (follows_bind_ok _ (λ q, q = names p)); [done|intros d q; apply created|by intros ? ->]. Qed.

Section writes.
Context (Q D : fpath → Prop).

(** Every directory down to [p] may be made. *)
Definition reaches (p : PathBuf) : Prop := ∀ k, k `prefix_of` names p → Q k ∨ D k.

Lemma parent_dirs p d : reaches p → parent_of p = Some d → follows (kept Q D) (create_dir_all d).
Proof.
  intros Hr Hp. apply kept_dirs. intros k Hk. apply Hr. etransitivity; [exact Hk|].
  unfold parent_of in Hp. destruct (names p) as [|x l] eqn:E; [done|]. injection Hp as <-. cbn [names].
  exists [List.last (x :: l) []]. by apply app_removelast_last.
Qed.

Lemma parents_follow p : reaches p → follows (kept Q D) (match parent_of p with Some d => create_dir_all d | None => mret () end).
Proof. intros Hr. destruct (parent_of p) as [d|] eqn:E; [by eapply parent_dirs|follows]. Qed.

Lemma replace_kept p b : Q (names p) → follows (kept Q D) (replace_in_place p b).
Proof. intros Hb. refine (create_bind _ _ _ _ _); [by apply kept_create|]. refine (follows_bind _ _ _ _ _); [by apply kept_write_all|intros; by apply kept_sync]. Qed.

Lemma write_kept inner b : Q (names (joined root inner)) → reaches (joined root inner) → follows (kept Q D) (write root inner b).
Proof.
  intros Hb Hr. refine (follows_lifted _ _ _ _). intros p ->%path_names. refine (follows_bind _ _ _ _ _); [by apply parents_follow|]. intros _.
  refine (create_bind _ _ _ _ _); [by apply kept_create|by apply kept_write_all].
Qed.

Lemma rename_tries_eq n tmp p : ∀ d, rename_tries (S n) tmp p d =
  match fs_rename tmp p d with
  | (Ok _, d) => (fate ≫= λ _, mret None : Fs _) d
  | (Err e, d) => match n with O => (mret (Some e) : Fs _) d | _ => rename_tries n tmp p d end
  end.
Proof. intros d. cbn [rename_tries]. destruct (fs_rename tmp p d) as [[] d1]; [|by destruct n]. unfold mbind, fs_bind. destruct (fate_spec d1) as (f & d2 & -> & _). done. Qed.

Lemma rename_tries_kept n tmp p : Q (names tmp) → Q (names p) → follows (kept Q D) (rename_tries n tmp p).
Proof.
  intros Ht Hp. induction n as [|n IH]; [by apply follows_quiet|]. intros d. rewrite rename_tries_eq.
  pose proof (follows_now (kept Q D) (fs_rename tmp p) d (kept_rename Q D tmp p Ht Hp)) as Hn. destruct (kept_rename Q D tmp p Ht Hp d) as (ts & E & HF).
  destruct (fs_rename tmp p d) as [r d1]. cbn in E, Hn. assert (∀ B (m : Fs B), follows (kept Q D) m → ∃ ts', history (m d1).2 = ts' ++ history d ∧ Forall (kept Q D (tree d)) ts') as Hnext.
  { intros B m Hm. destruct (Hm d1) as (ts' & E' & HF'). exists (ts' ++ ts). rewrite E', E, app_assoc. split; [done|]. apply Forall_app. split; [|done].
    eapply Forall_impl; [exact HF'|]. cbn. intros t Hk. by etransitivity. }
  destruct r; [apply Hnext; follows|]. destruct n; apply Hnext; [follows|done].
Qed.

Lemma write_atomic_kept inner b : Q (names (joined root inner)) → reaches (joined root inner) →
  (∀ d, parent_of (joined root inner) = Some d → Q (names (join_name d (default (bstr "content.json") (file_name (joined root inner)) ++ bstr ".epixtmp")))) →
  follows (kept Q D) (write_atomic root inner b).
Proof.
  intros Hb Hr Htmp. refine (follows_lifted _ _ _ _). intros p ->%path_names. destruct (parent_of (joined root inner)) as [parent|] eqn:Ep; [|by apply follows_quiet].
  refine (follows_bound _ _ _ _). refine (follows_bind _ _ _ _ _); [by eapply parent_dirs|]. intros _.
  specialize (Htmp parent eq_refl). set (tmp := join_name parent _) in *.
  refine (create_bind _ _ _ _ _); [by apply kept_create|]. refine (follows_bind _ _ _ _ _); [by apply kept_write_all|]. intros _.
  refine (follows_bind _ _ _ _ _); [by apply kept_sync|]. intros _. refine (follows_bind _ _ _ _ _); [by apply rename_tries_kept|]. intros [e|]; [|follows].
  refine (follows_bind _ _ _ _ _); [by apply follows_attempt, replace_kept|]. intros [|]; [|follows].
  refine (follows_bind _ _ _ _ _); [by apply follows_attempt, kept_remove_file|]. intros _. follows.
Qed.
End writes.

Lemma confined_reaches inner : reaches below above (joined root inner).
Proof. intros k Hk. apply (prefix_cases (names (joined root inner))); [apply joined_below|done]. Qed.

Lemma write_confined inner b : below (names (joined root inner)) → follows confined (write root inner b).
Proof. intros Hb. apply write_kept; [done|apply confined_reaches]. Qed.

Lemma below_snoc q : below q → ∃ rel n, q = root ++ rel ++ [n] ∧ removelast q = root ++ rel.
Proof.
  intros [(rel & ->) Hne]. destruct rel as [|n rel _] using rev_ind; [by rewrite app_nil_r in Hne|]. exists rel, n. split; [done|]. by rewrite app_assoc, removelast_last.
Qed.

Lemma join_below p d n : below (names p) → parent_of p = Some d → below (names (join_name d n)).
Proof.
  intros Hb Hp%parent_names. destruct (below_snoc _ Hb) as (rel & y & _ & Hr). unfold join_name. cbn [names]. rewrite (proj1 Hp), Hr.
  split; [exists (rel ++ [n]); by rewrite app_assoc|]. intros H. apply (f_equal length) in H. rewrite !length_app in H. cbn in H. lia.
Qed.

Lemma write_atomic_confined inner b : below (names (joined root inner)) → follows confined (write_atomic root inner b).
Proof. intros Hb. apply write_atomic_kept; [done|apply confined_reaches|]. intros d Hd. by eapply join_below. Qed.

Lemma prune_confined n : ∀ p, match p with Some p => root `prefix_of` names p | None => True end → follows confined (prune_empty root n p).
Proof.
  induction n as [|n IH]; intros p Hp; [by apply follows_quiet|]. destruct p as [p|]; [|by apply follows_quiet]. cbn [prune_empty].
  case_bool_decide as Hn; [follows|]. refine (follows_bind _ _ _ _ _); [by apply follows_attempt, kept_remove_dir|]. intros [|]; [|follows]. apply IH.
  destruct (parent_of p) as [d|] eqn:Ed; [|done]. rewrite (proj1 (parent_names _ _ Ed)). destruct (below_snoc (names p)) as (rel & y & _ & ->); [done|by exists rel].
Qed.

Lemma delete_confined inner : below (names (joined root inner)) → follows confined (delete_file root inner).
Proof.
  intros Hb. refine (follows_lifted _ _ _ _). intros p ->%path_names. refine (follows_bind _ _ _ _ _); [by apply kept_remove_file|]. intros _.
  apply prune_confined. destruct (parent_of _) as [d|] eqn:Ed; [|done]. rewrite (proj1 (parent_names _ _ Ed)). destruct (below_snoc _ Hb) as (rel & y & _ & ->). by exists rel.
Qed.
End confined.

(** ** The atomic commit *)

Section commit.
Context (root : fpath) (inner b : bytes) (d0 : Disk).
Abbreviation p := (joined root inner).
Abbreviation q := (names p).
Context (Hbelow : below root q) (Htrail : trailing p = false) (Hnul : nul p = false).

Definition dir_path : PathBuf := mkPath (removelast q) false false.
Definition temp : PathBuf := join_name dir_path (default (bstr "content.json") (file_name p) ++ bstr ".epixtmp").
(** The target holds what it held before the call, or the new bytes, synced. *)
Definition settled (t : Tree) : Prop := t !! q = tree d0 !! q ∨ ∃ m, t !! q = Some (File b true m).
(** One of the four renames is not refused. *)
Definition renames_once (n : nat) (d : Disk) : Prop := ∃ i, (i < n)%nat ∧ ∀ k, fates d !! i ≠ Some (Some k).

Lemma q_snoc : q = removelast q ++ [default [] (file_name p)] ∧ q ≠ [].
Proof.
  destruct (below_snoc root q Hbelow) as (rel & n & E & Er). assert (q = (root ++ rel) ++ [n]) as E' by (by rewrite E, app_assoc). split; [|rewrite E'; by destruct (root ++ rel)].
  rewrite Er. unfold file_name. rewrite E' at 2. by rewrite last_snoc.
Qed.

Lemma parent_dir_path : parent_of p = Some dir_path.
Proof. destruct q_snoc as [_ Hne]. unfold parent_of, dir_path. rewrite Hnul. by destruct q. Qed.

Lemma temp_names : names temp = removelast q ++ [default (bstr "content.json") (file_name p) ++ bstr ".epixtmp"] ∧ removelast (names temp) = removelast q ∧ names temp ≠ q.
Proof.
  split; [done|]. change (names temp) with (removelast q ++ [default (bstr "content.json") (file_name p) ++ bstr ".epixtmp"]). rewrite removelast_last. split; [done|].
  destruct q_snoc as [E _]. rewrite E at 2. intros H. apply app_inj_tail in H as [_ H]. unfold file_name in H. rewrite E, last_snoc in H. cbn in H.
  apply (f_equal length) in H. rewrite length_app in H. cbn in H. lia.
Qed.

Lemma rename_tries_cases n m d : tree d !! names temp = Some (File b true m) → tree d !! q ≠ Some Dir → parent_is_dir (tree d) q = true → nul temp = false →
  ∃ r d', rename_tries (Datatypes.S n) temp p d = (Ok r, d') ∧
  match r with
  | None => tree d' = <[q := File b true m]> (delete (names temp) (tree d)) ∧ history d' = tree d' :: history d
  | Some _ => history d' = history d ∧ ¬ renames_once (Datatypes.S n) d
  end.
Proof.
  intros Ht Hq Hpar Hnt. revert d Ht Hq Hpar. induction n as [|n IH]; intros d Ht Hq Hpar; rewrite rename_tries_eq; destruct (fs_rename_spec temp p d) as (r & d1 & -> & H); destruct r.
  1,3: destruct H as (x & s & m' & E & _ & Hm); rewrite Ht in E; injection E as <- <- <-; unfold mbind, fs_bind; destruct (fate_spec d1) as (f & d2 & -> & _ & [_ Hi]);
    (eexists _, _; split; [done|]); injection Hm as Hm1 Hm2; injection Hi as Hi1 Hi2; unfold history; rewrite Hi1, Hi2, Hm1, Hm2; done.
  - destruct H as [[_ Hh] Hwhy]. eexists _, _. split; [done|]. split; [done|]. intros (i & Hi & Hn). assert (i = 0%nat) as -> by lia.
    destruct Hwhy as [[k Hk]|[Hb|[?|[?|Hno]]]]; [by destruct (fates d); [|injection Hk as ->; by apply (Hn k)]| |congruence|done|by apply (Hno b true m)].
    rewrite Hnt, Hnul, Htrail in Hb. done.
  - destruct H as [[[Hf _] Hh] Hwhy]. injection Hh as Hh1 Hh2. destruct (IH d1) as (r & d' & E & Hr); [by rewrite Hh1..|]. exists r, d'. split; [exact E|].
    unfold history in *. rewrite Hh1, Hh2 in Hr. destruct r; [|done]. destruct Hr as [Hr1 Hr2]. split; [done|]. intros (i & Hi & Hn). destruct i as [|i].
    + destruct Hwhy as [[k Hk]|[Hb|[?|[?|Hno]]]]; [by destruct (fates d); [|injection Hk as ->; by apply (Hn k)]| |congruence|done|by apply (Hno b true m)].
      rewrite Hnt, Hnul, Htrail in Hb. done.
    + apply Hr2. exists i. split; [lia|]. intros k. rewrite Hf. specialize (Hn k). destruct (fates d); [by destruct i|done].
Qed.

(** Before the rename: nothing has happened to the target. *)
Definition staged (n : nat) (d : Disk) : Prop :=
  fates d = drop n (fates d0) ∧ tree d !! q = tree d0 !! q ∧ ∃ ts, history d = ts ++ history d0 ∧ Forall (λ t, t !! q = tree d0 !! q) ts.

Lemma tail_drop {A} n (l : list A) : tail (drop n l) = drop (Datatypes.S n) l.
Proof. revert l. induction n as [|n IH]; intros [|x l]; try done. apply IH. Qed.

Lemma staged_idle n d d' : staged n d → idle d d' → staged (Datatypes.S n) d'.
Proof.
  intros (Hf & Hq & ts & Hh & HF) [[Hf' _] Hi]. unfold staged. rewrite Hf', Hi, Hf. split; [apply tail_drop|split; [by injection Hi as -> _|eauto]].
Qed.

Lemma staged_moved n d d' t : staged n d → moved t d d' → t !! q = tree d !! q → staged (Datatypes.S n) d'.
Proof.
  intros (Hf & Hq & ts & Hh & HF) [[Hf' _] Hi] Ht. unfold staged. rewrite Hf', Hi, Hf. split; [apply tail_drop|]. injection Hi as -> _. split; [congruence|].
  exists (t :: ts). rewrite Hh. split; [done|]. constructor; [congruence|done].
Qed.

(** What is left to show of the last phase. *)
Definition committed (x : result CoreError () * Disk) : Prop :=
  (x.1 = Ok () → ∃ m, tree x.2 !! q = Some (File b true m)) ∧
  (renames_once 4 (mkDisk ∅ (drop 4 (fates d0)) 0 []) → ∃ ts, history x.2 = ts ++ history d0 ∧ Forall settled ts ∧
     (x.1 = Ok () → tree x.2 !! names temp = None)).

Lemma staged_failed n d e : staged n d → committed (Err e, d).
Proof.
  intros (_ & _ & ts & Hh & HF). split; [done|]. intros _. exists ts. split; [done|]. split; [|done]. eapply Forall_impl; [exact HF|]. intros t Ht. by left.
Qed.

Lemma replace_spec d : ∃ r d', attempt (replace_in_place p b) d = (Ok r, d') ∧
  match r with Some _ => ∃ m, tree d' !! q = Some (File b true m) | None => True end.
Proof.
  unfold attempt, replace_in_place, mbind, fs_bind. destruct (fs_create_spec p d) as (r & d1 & -> & H1). destruct r as [q1|]; [|by eexists _, _].
  destruct H1 as (-> & _). destruct (fs_write_all_spec q b d1) as (r & d2 & b' & -> & H2 & Hb). destruct r as [[]|]; [|by eexists _, _]. rewrite (Hb eq_refl) in H2.
  destruct (fs_sync_spec q d2 b false (time d1)) as (r & d3 & -> & H3); [rewrite (proj1 (moved_now _ _ _ H2)); apply lookup_insert_eq|].
  destruct r as [[]|]; [|by eexists _, _]. eexists _, _. split; [done|]. exists (time d1). rewrite (proj1 (moved_now _ _ _ H3)). apply lookup_insert_eq.
Qed.

Lemma commit_steps : tree d0 !! q ≠ Some Dir → storage_path root inner = Ok p → committed (write_atomic root inner b d0).
Proof.
  intros Hq0 Hpath. assert (staged 0 d0) as S0 by (split; [done|]; split; [done|]; by exists []).
  unfold write_atomic. rewrite Hpath, (run_val (lift (Ok p)) _ d0 p d0 eq_refl), parent_dir_path, (run_val (mret dir_path) _ d0 dir_path d0 eq_refl).
  destruct (create_dir_all_spec dir_path d0) as (r & d1 & E1 & H1).
  assert (staged 1 d1) as S1.
  { destruct H1 as [[H1 _]|(t & H1 & _ & Hk)]; [by eapply staged_idle|]. eapply staged_moved; [exact S0|exact H1|]. destruct (Hk q) as [?|(_ & _ & Hp)]; [done|].
    destruct q_snoc as [E _]. apply prefix_length in Hp. rewrite E in Hp at 1. rewrite length_app in Hp. cbn in Hp. lia. }
  destruct r as [[]|e]; [|rewrite (run_err _ _ _ _ _ E1); by eapply staged_failed]. rewrite (run_val _ _ _ _ _ E1). clear E1 H1.
  fold temp. destruct (fs_create_spec temp d1) as (r & d2 & E2 & H2). destruct r as [q'|e]; [|rewrite (run_err _ _ _ _ _ E2); eapply staged_failed; by eapply staged_idle]. rewrite (run_val _ _ _ _ _ E2). destruct H2 as (-> & Hpar & _ & Hnt & _ & H2).
  destruct temp_names as (_ & Hrm & Hne). assert (staged 2 d2) as S2 by (eapply staged_moved; [exact S1|exact H2|by rewrite lookup_insert_ne]).
  destruct (fs_write_all_spec (names temp) b d2) as (r & d3 & b' & E3 & H3 & Hb).
  assert (staged 3 d3) as S3 by (eapply staged_moved; [exact S2|exact H3|by rewrite lookup_insert_ne]).
  destruct r as [[]|e]; [|rewrite (run_err _ _ _ _ _ E3); by eapply staged_failed]. rewrite (run_val _ _ _ _ _ E3), (Hb eq_refl) in *. clear Hb E3 E2.
  assert (tree d3 !! names temp = Some (File b false (time d2))) as Ht3 by (rewrite (proj1 (moved_now _ _ _ H3)); apply lookup_insert_eq).
  destruct (fs_sync_spec (names temp) d3 b false (time d2) Ht3) as (r & d4 & E4 & H4).
  destruct r as [[]|e]; [|rewrite (run_err _ _ _ _ _ E4); eapply staged_failed; by eapply staged_idle]. rewrite (run_val _ _ _ _ _ E4).
  assert (staged 4 d4) as S4 by (eapply staged_moved; [exact S3|exact H4|by rewrite lookup_insert_ne]).
  assert (tree d4 !! names temp = Some (File b true (time d2))) as Ht4 by (rewrite (proj1 (moved_now _ _ _ H4)); apply lookup_insert_eq).
  assert (tree d4 !! q ≠ Some Dir) as Hq4 by (by rewrite (proj1 (proj2 S4))).
  assert (parent_is_dir (tree d4) q = true) as Hpar4.
  { unfold parent_is_dir in *. apply bool_decide_eq_true in Hpar as [_ Hpar]. rewrite Hrm in Hpar. apply bool_decide_eq_true. split; [apply q_snoc|].
    assert (names temp ≠ removelast q) as Hd by (intros E; apply (f_equal length) in E; destruct temp_names as [En _]; rewrite En, length_app in E; cbn in E; lia).
    rewrite (proj1 (moved_now _ _ _ H4)), lookup_insert_ne by done. rewrite (proj1 (moved_now _ _ _ H3)), lookup_insert_ne by done. by rewrite (proj1 (moved_now _ _ _ H2)), lookup_insert_ne. }
  destruct (rename_tries_cases 3 (time d2) d4 Ht4 Hq4 Hpar4 Hnt) as (r & d5 & E5 & H5). rewrite (run_val _ _ _ _ _ E5).
  destruct S4 as (Sf & Sq & ts & Sh & SF). destruct r as [e|].
  - destruct H5 as [H5 Hnot]. destruct (replace_spec d5) as (r & d6 & E6 & H6). rewrite (run_val _ _ _ _ _ E6).
    assert (∀ r' d', (r' = Ok () → ∃ m, tree d' !! q = Some (File b true m)) → committed (r', d')) as Hgo.
    { intros r' d' Hr'. split; [done|]. intros Honce. destruct Hnot. destruct Honce as (i & Hi & Hn). exists i. split; [done|]. intros k. rewrite Sf. apply Hn. }
    destruct r; [|by apply Hgo]. apply Hgo. intros _. destruct H6 as [m6 H6]. exists m6. unfold mbind, fs_bind, attempt.
    destruct (fs_remove_file_spec temp d6) as (r & d7 & -> & H7). destruct r; cbn.
    + destruct H7 as (x & s & m & _ & H7). rewrite (proj1 (moved_now _ _ _ H7)). by rewrite lookup_delete_ne.
    + by rewrite (proj1 (idle_now _ _ H7)).
  - destruct H5 as [H5 H5h]. change (committed (Ok (), d5)). split; cbn [fst snd].
    + intros _. exists (time d2). rewrite H5. apply lookup_insert_eq.
    + intros _. exists (tree d5 :: ts). rewrite H5h, Sh. split; [done|]. split.
      * constructor; [right; exists (time d2); rewrite H5; apply lookup_insert_eq|]. eapply Forall_impl; [exact SF|]. intros t Ht. by left.
      * intros _. rewrite H5, lookup_insert_ne, lookup_delete_eq by done. done.
Qed.
End commit.

(** What is found after a power cut: a file that was not synced holds anything. *)
Definition reboot (t t' : Tree) : Prop := ∀ q,
  match t !! q with
  | Some (File b true m) => t' !! q = Some (File b true m)
  | Some (File _ false _) => ∃ b m, t' !! q = Some (File b true m)
  | x => t' !! q = x
  end.

(** A path of names alone, as the system takes it. *)
Definition file_path (root : fpath) (inner : bytes) : Prop :=
  storage_path root inner = Ok (joined root inner) ∧ below root (names (joined root inner)) ∧
  trailing (joined root inner) = false ∧ nul (joined root inner) = false.


(** ** Every path stays below its root *)

(** A name that walks nowhere. *)
Definition plain (n : bytes) : Prop := n ≠ [] ∧ n ≠ bstr "." ∧ n ≠ bstr ".." ∧ x2f ∉ n.

Lemma components_plain s : Forall plain (omap name_of (components s)).
Proof.
  apply Forall_forall. intros n Hn. unfold components in Hn. rewrite omap_app in Hn. apply elem_of_app in Hn as [Hn|Hn].
  { destruct (starts_with _ _); [|case_bool_decide]; by apply not_elem_of_nil in Hn. }
  apply list_elem_of_omap in Hn as (c & Hc & Hn). apply list_elem_of_omap in Hc as (x & Hx & Hs). unfold segment in Hs.
  case_bool_decide as H1; [done|]. case_bool_decide as H2; injection Hs as <-; [done|]. injection Hn as <-. split_and!; try tauto. by apply (split_on_no_sep x2f s).
Qed.

Lemma unsafe_refused root s : bstr ".." ∈ split_on x2f s ∨ starts_with (bstr "/") s = true → storage_path root s = Err (unsafe s).
Proof.
  intros H. unfold storage_path. assert (forallb safe_component (components s) = false) as ->; [|done]. apply not_true_is_false. intros Hall. rewrite forallb_forall in Hall.
  destruct H as [H|H].
  - assert (safe_component ParentDir = true) as Hx; [|done]. apply Hall. unfold components. apply in_or_app. right. apply list_elem_of_In, list_elem_of_omap. by exists (bstr "..").
  - assert (safe_component RootDir = true) as Hx; [|done]. apply Hall. unfold components. rewrite H. by left.
Qed.


(** ** The listing *)

(** Every entry lies in a directory. *)
Definition tree_wf (t : Tree) : Prop := ∀ q n, t !! q = Some n → q ≠ [] → t !! removelast q = Some Dir.

Lemma child_of_spec q e n : child_of q e = Some n ↔ e.1 = q ++ [n].
Proof.
  unfold child_of. case_decide as H.
  - destruct H as [<- Hne]. rewrite last_Some. split.
    + intros [l E]. rewrite E, removelast_last in *. done.
    + intros E. exists (removelast e.1). done.
  - split; [done|]. intros E. destruct H. rewrite E, removelast_last. split; [done|]. by destruct q.
Qed.

Lemma elem_of_children t q n : n ∈ children t q ↔ is_Some (t !! (q ++ [n])).
Proof.
  unfold children. rewrite list_elem_of_omap. split.
  - intros ([k x] & Hin & H%child_of_spec). cbn in H. subst k. apply elem_of_map_to_list in Hin. eauto.
  - intros [x Hx]. exists (q ++ [n], x). rewrite elem_of_map_to_list, child_of_spec. done.
Qed.

Lemma children_nodup t q : NoDup (children t q).
Proof.
  unfold children. pose proof (NoDup_fst_map_to_list t) as H. induction (map_to_list t) as [|e l IH]; cbn; [constructor|].
  cbn in H. apply NoDup_cons in H as [He H]. destruct (child_of q e) as [n|] eqn:E; [|by apply IH]. constructor; [|by apply IH].
  rewrite list_elem_of_omap. intros (e' & Hin & E'). apply child_of_spec in E, E'. apply He. rewrite E, <- E'. by apply list_elem_of_fmap_2.
Qed.

(** A walk over the directories below [start] that lists the files whose last name
    [keep] wants, by [name]. *)
Section walk.
Context (start : fpath) (name : fpath → bytes) (keep : bytes → bool) (dir_order : list bytes → list bytes) (order_perm : ∀ l, dir_order l ≡ₚ l).

Definition is_dir_at (t : Tree) (q : fpath) : bool := bool_decide (t !! q = Some Dir).
Definition wanted (t : Tree) (q : fpath) : bool := negb (is_dir_at t q) && keep (default [] (last q)).

(** What the walk keeps: [V] has been read, [stack] waits. *)
Record walking (t : Tree) (V stack : list fpath) (out : list bytes) : Prop := {
  w_nodup : NoDup (V ++ stack);
  w_dirs : ∀ x, x ∈ V ++ stack → t !! x = Some Dir ∧ start `prefix_of` x ∧ (x = start ∨ removelast x ∈ V);
  w_root : start ∈ V ++ stack;
  w_dir : ∀ x n, x ∈ V → t !! (x ++ [n]) = Some Dir → x ++ [n] ∈ V ++ stack;
  w_file : ∀ x n b s m, x ∈ V → t !! (x ++ [n]) = Some (File b s m) → keep n = true → name (x ++ [n]) ∈ out;
  w_out : ∀ s, s ∈ out → ∃ q b y m, below start q ∧ t !! q = Some (File b y m) ∧ keep (default [] (last q)) = true ∧ s = name q
}.

Lemma walking_start t : t !! start = Some Dir → walking t [] [start] [].
Proof.
  intros H. split; [apply NoDup_singleton| |by left|by intros ? ? ?%not_elem_of_nil|by intros ? ? ? ? ? ?%not_elem_of_nil|by intros ? ?%not_elem_of_nil].
  intros x ->%list_elem_of_singleton. split_and!; [done|done|by left].
Qed.

Lemma walking_step t V dir stack out : walking t V (dir :: stack) out →
  walking t (V ++ [dir]) (rev (List.filter (is_dir_at t) (map (λ n, dir ++ [n]) (dir_order (children t dir)))) ++ stack)
    (out ++ map name (List.filter (wanted t) (map (λ n, dir ++ [n]) (dir_order (children t dir))))).
Proof.
  intros [Hn Hd Hr Hdir Hf Ho]. destruct (Hd dir ltac:(set_solver)) as (Hdd & Hstart & _).
  set (ns := dir_order (children t dir)). set (new := List.filter (is_dir_at t) (map (λ n, dir ++ [n]) ns)).
  assert (∀ n, n ∈ ns ↔ is_Some (t !! (dir ++ [n]))) as Hns by (intros n; unfold ns; rewrite order_perm; apply elem_of_children).
  assert (Hnew : ∀ x, x ∈ new ↔ ∃ n, x = dir ++ [n] ∧ t !! x = Some Dir).
  { intros x. unfold new. rewrite elem_of_bfilter. unfold is_dir_at. rewrite bool_decide_eq_true. rewrite (list_elem_of_fmap (λ n, dir ++ [n]) ns x). split.
    - intros [(n & -> & _) Hx]. eauto.
    - intros (n & -> & Hx). split; [|done]. exists n. split; [done|]. apply Hns. eauto. }
  assert (Hfresh : ∀ x, x ∈ new → x ∉ V ++ dir :: stack).
  { intros x (n & -> & Hx)%Hnew Hin. destruct (Hd _ Hin) as (_ & _ & [E|E]).
    - destruct Hstart as (rel & E'). rewrite E' in E. apply (f_equal length) in E. rewrite !length_app in E. cbn in E. lia.
    - rewrite removelast_last in E. apply NoDup_app in Hn as (_ & Hn & _). apply (Hn dir); [done|left]. }
  assert (Hin : ∀ x, x ∈ (V ++ [dir]) ++ rev new ++ stack ↔ x ∈ V ++ dir :: stack ∨ x ∈ new).
  { intros x. assert (x ∈ rev new ↔ x ∈ new) as Hrev by (by rewrite <- Permutation_rev). rewrite !elem_of_app, Hrev, list_elem_of_singleton, elem_of_cons. tauto. }
  split.
  - assert ((V ++ [dir]) ++ rev new ++ stack ≡ₚ (V ++ dir :: stack) ++ new) as -> by (rewrite <- Permutation_rev, <- !app_assoc; apply Permutation_app_head; cbn; rewrite (Permutation_app_comm stack new); done).
    apply NoDup_app. split_and!; [done|intros x Hx Hx'; by apply (Hfresh x)|]. apply NoDup_bfilter, NoDup_fmap_2_strong; [intros ? ? _ _ E; by apply app_inj_tail in E as [_ ?]|].
    unfold ns. rewrite order_perm. apply children_nodup.
  - intros x [H|H]%Hin.
    + destruct (Hd x H) as (H1 & H2 & [H3|H3]); split_and!; auto. right. set_solver.
    + apply Hnew in H as (n & -> & Hx). split_and!; [done|by apply prefix_app_r|]. right. rewrite removelast_last. set_solver.
  - apply Hin. by left.
  - intros x n [Hx|Hx]%elem_of_app Hxn; apply Hin; [left; by apply Hdir|]. apply list_elem_of_singleton in Hx as ->. right. apply Hnew. eauto.
  - intros x n b s m [Hx|Hx]%elem_of_app Hxn Hk; apply elem_of_app; [left; by eapply Hf|]. apply list_elem_of_singleton in Hx as ->. right.
    apply (list_elem_of_fmap name). exists (dir ++ [n]). split; [done|]. apply elem_of_bfilter. split; [|unfold wanted, is_dir_at; by rewrite Hxn, last_snoc].
    apply (list_elem_of_fmap (λ n, dir ++ [n])). exists n. split; [done|]. apply Hns. eauto.
  - intros s [Hs|Hs]%elem_of_app; [by apply Ho|]. apply (list_elem_of_fmap name) in Hs as (q & -> & Hq). apply elem_of_bfilter in Hq as [Hq [Hnd Hk]%andb_true_iff].
    apply (list_elem_of_fmap (λ n, dir ++ [n])) in Hq as (n & -> & Hn'). apply Hns in Hn' as [x Hx]. unfold is_dir_at in Hnd. rewrite Hx in Hnd. destruct x as [|b y m]; [done|].
    exists (dir ++ [n]), b, y, m. split_and!; [split; [by apply prefix_app_r|]|done|done|done]. intros E. destruct Hstart as (rel & E'). rewrite E' in E. apply (f_equal length) in E.
    rewrite !length_app in E. cbn in E. lia.
Qed.

Lemma walking_size t V stack out : walking t V stack out → (length V + length stack <= size t)%nat.
Proof.
  intros [Hn Hd _ _ _ _]. rewrite <- length_app, <- length_map_to_list, <- (length_fmap fst). apply submseteq_length, NoDup_submseteq; [done|].
  intros x Hx. destruct (Hd x Hx) as [H _]. apply list_elem_of_fmap. exists (x, Dir). split; [done|]. by apply elem_of_map_to_list.
Qed.

(** A finished walk has seen everything. *)
Lemma walked_all t V out : tree_wf t → walking t V [] out → ∀ n q b s m, length q = n → below start q → t !! q = Some (File b s m) → keep (default [] (last q)) = true → name q ∈ out.
Proof.
  intros Hwf [Hn Hd Hr Hdir Hf Ho]. rewrite app_nil_r in *. assert (∀ n q, length q = n → start `prefix_of` q → t !! q = Some Dir → q ∈ V) as Hall.
  { induction n as [|n IH]; intros q Hl Hp Hq; (destruct (decide (q = start)) as [->|Hne]; [done|]); destruct (below_snoc start q) as (rel & x & E & Er); try done;
      [apply (f_equal length) in E; rewrite !length_app in E; cbn in E; lia|].
    assert (q = removelast q ++ [x]) as E' by (by rewrite Er, <- app_assoc). rewrite E'.
    specialize (Hdir (removelast q) x). rewrite <- E' in Hdir |- *. apply Hdir; [|done]. apply IH; [|by rewrite Er; exists rel|].
    - rewrite E', length_app in Hl. cbn in Hl. lia.
    - eapply Hwf; [exact Hq|]. rewrite E. by destruct start, rel. }
  intros _ q b s m _ [Hp Hne] Hq Hk. destruct (below_snoc start q) as (rel & x & E & Er); [done|]. assert (q = removelast q ++ [x]) as E' by (by rewrite Er, <- app_assoc).
  rewrite E' in Hk. rewrite last_snoc in Hk. rewrite E'. apply (Hf _ _ b s m); [|by rewrite <- E'|done]. apply (Hall (length (removelast q))); [done|by rewrite Er; exists rel|]. eapply Hwf; [exact Hq|]. rewrite E. by destruct start, rel.
Qed.
End walk.

Section listing.
Context (root : fpath) (dir_order : list bytes → list bytes) (lossy : bytes → bytes) (order_perm : ∀ l, dir_order l ≡ₚ l).
Abbreviation inner_name := (inner_name root lossy).

Lemma list_dir_spec t dir ns : ∀ stack out, list_dir root lossy t dir ns stack out =
  (rev (List.filter (is_dir_at t) (map (λ n, dir ++ [n]) ns)) ++ stack, out ++ map inner_name (List.filter (wanted (λ _, true) t) (map (λ n, dir ++ [n]) ns))).
Proof.
  induction ns as [|n ns IH]; intros stack out; cbn [list_dir map List.filter rev app]; [by rewrite app_nil_r|]. unfold wanted at 1. rewrite andb_true_r.
  assert (is_dir_at t (dir ++ [n]) = match t !! (dir ++ [n]) with Some Dir => true | _ => false end) as -> by (unfold is_dir_at; by destruct (t !! (dir ++ [n])) as [[]|]).
  destruct (t !! (dir ++ [n])) as [[|b s m]|]; cbn [negb rev map]; rewrite IH; by rewrite <- app_assoc.
Qed.

Lemma list_loop_spec d fuel : ∀ V stack out, fates d = [] → walking root inner_name (λ _, true) (tree d) V stack out → (size (tree d) < fuel + length V)%nat →
  ∃ V' out', list_loop root dir_order lossy fuel stack out d = (Ok out', d) ∧ walking root inner_name (λ _, true) (tree d) V' [] out'.
Proof.
  induction fuel as [|fuel IH]; intros V stack out Hf Hw Hfuel; [pose proof (walking_size _ _ _ _ _ _ _ Hw); lia|].
  destruct stack as [|dir stack]; [by exists V, out|]. cbn [list_loop]. unfold mbind at 1, fs_bind at 1, fate. rewrite Hf. unfold mbind, fs_bind, the_tree.
  destruct (w_dirs _ _ _ _ _ _ _ Hw dir ltac:(set_solver)) as [-> _]. rewrite list_dir_spec. apply (IH (V ++ [dir])); [done|by apply (walking_step root inner_name (λ _, true))|rewrite length_app; cbn; lia].
Qed.

(** [q] is a file the listing should name. *)
Definition stored (t : Tree) (q : fpath) : Prop := below root q ∧ ∃ b s m, t !! q = Some (File b s m).

Lemma list_files_spec d : fates d = [] → tree_wf (tree d) → tree d !! root = Some Dir →
  ∃ l, list_files root dir_order lossy d = (Ok l, d) ∧ ∀ s, s ∈ l ↔ ∃ q, stored (tree d) q ∧ s = inner_name q.
Proof.
  intros Hf Hwf Hroot. destruct (list_loop_spec d (Datatypes.S (size (tree d))) [] [root] []) as (V & l & E & Hw); [done|by apply walking_start|cbn; lia|].
  exists l. split; [exact E|]. intros s. split.
  - intros (q & b & y & m & Hb & Hq & _ & ->)%(w_out _ _ _ _ _ _ _ Hw). exists q. split; [|done]. split; [done|]. eauto.
  - intros (q & (Hb & b & y & m & Hq) & ->). by eapply (walked_all _ _ _ _ V l Hwf Hw).
Qed.

(** A name the listing gives back as it is. *)
Definition portable (n : bytes) : Prop := plain n ∧ x5c ∉ n ∧ x00 ∉ n.

Lemma components_join rel : rel ≠ [] → Forall plain rel → components (str_join (bstr "/") rel) = map Normal rel.
Proof.
  intros Hne Hp. assert (split_on x2f (str_join (bstr "/") rel) = rel) as Hsp.
  { apply (split_str_join x2f); [done|]. eapply Forall_impl; [exact Hp|]. by intros n (_ & _ & _ & ?). }
  unfold components. rewrite Hsp. destruct rel as [|n rel]; [done|]. assert (plain n) as (Hn1 & Hn2 & _ & Hn4) by (by inversion Hp).
  assert (starts_with (bstr "/") (str_join (bstr "/") (n :: rel)) = false) as ->.
  { apply bool_decide_eq_false. destruct n as [|c n]; [done|]. intros H. assert (c = x2f) as ->; [|by apply Hn4; left]. destruct rel; cbn in H; congruence. }
  rewrite bool_decide_eq_false_2 by (intros H; by injection H). cbn [app]. clear Hsp Hne Hn1 Hn2 Hn4. induction Hp as [|x l (H1 & H2 & H3 & _) _ IH]; [done|]. cbn. unfold segment at 1.
  rewrite bool_decide_eq_false_2 by (by intros [?|?]). rewrite bool_decide_eq_false_2 by done. by rewrite IH.
Qed.

Lemma in_join c rel : c ∈ str_join (bstr "/") rel → c = x2f ∨ ∃ n, n ∈ rel ∧ c ∈ n.
Proof.
  induction rel as [|n rel IH]; [by intros ?%not_elem_of_nil|]. destruct rel as [|r rel]; [intros H; right; exists n; split; [left|done]|].
  change (str_join (bstr "/") (n :: r :: rel)) with (n ++ bstr "/" ++ str_join (bstr "/") (r :: rel)). intros [H|[H|H]%elem_of_app]%elem_of_app.
  - right. exists n. split; [left|done].
  - left. by apply list_elem_of_singleton in H.
  - destruct (IH H) as [?|(m & ? & ?)]; [by left|]. right. exists m. split; [by right|done].
Qed.

Context (lossy_str : ∀ s, is_str s = true → lossy s = s).

Lemma inner_name_path rel : rel ≠ [] → Forall portable rel → is_str (str_join (bstr "/") rel) = true →
  inner_name (root ++ rel) = str_join (bstr "/") rel ∧ storage_path root (inner_name (root ++ rel)) = Ok (mkPath (root ++ rel) false false).
Proof.
  intros Hne Hp Hs. assert (Forall plain rel) as Hpl by (eapply Forall_impl; [exact Hp|by intros ? []]).
  assert (inner_name (root ++ rel) = str_join (bstr "/") rel) as E.
  { unfold Files.inner_name. rewrite drop_app_length, lossy_str by done. unfold replace_byte. rewrite <- (map_id (str_join (bstr "/") rel)) at 2. apply map_ext_in. intros c Hc%list_elem_of_In.
    rewrite bool_decide_eq_false_2; [done|]. intros ->. destruct (in_join _ _ Hc) as [?|(n & Hn & Hb)]; [done|]. rewrite Forall_forall in Hp. by destruct (Hp n Hn) as (_ & ? & _). }
  split; [done|]. rewrite E. unfold storage_path, joined. rewrite components_join by done.
  assert (forallb safe_component (map Normal rel) = true) as -> by (apply forallb_forall; intros c (n & <- & _)%in_map_iff; done).
  assert (omap name_of (map Normal rel) = rel) as -> by (clear; induction rel as [|n rel IH]; [done|]; cbn; by rewrite IH).
  rewrite (split_str_join x2f) by (first [done|eapply Forall_impl; [exact Hpl|]; by intros n (_ & _ & _ & ?)]). f_equal. f_equal.
  - apply bool_decide_eq_false. destruct rel as [|n rel _] using rev_ind; [done|]. rewrite last_snoc. cbn. apply Forall_app in Hpl as [_ [Hn _]%Forall_cons]. unfold segment.
    destruct Hn as (H1 & H2 & H3 & _). rewrite bool_decide_eq_false_2 by (by intros [?|?]). by rewrite bool_decide_eq_false_2.
  - unfold contains_byte. apply not_true_is_false. intros (c & Hc & Hb)%existsb_exists. apply bool_decide_eq_true in Hb as ->. apply list_elem_of_In in Hc.
    destruct (in_join _ _ Hc) as [?|(n & Hn & Hb)]; [done|]. rewrite Forall_forall in Hp. by destruct (Hp n Hn) as (_ & _ & ?).
Qed.
End listing.

(** A name with a backslash is listed as a path that does not lead back to it. *)
Definition windows_name : bytes := "a"%byte :: x5c :: [ "b"%byte ].
Definition backslash_tree : Tree := <[[bstr "x"; windows_name] := File (bstr "v") true 0]> {[ [bstr "x"] := Dir; [] := Dir ]}.

Example backslash_lost :
  let d := mkDisk backslash_tree [] 0 [] in
  (list_files [bstr "x"] (λ l, l) (λ s, s) d).1 = Ok [bstr "a/b"] ∧ (read [bstr "x"] (bstr "a/b") d).1 = Err (CoreIo Missing).
Proof. split; vm_compute; reflexivity. Qed.

(** ** Instances *)

Definition old_site : Disk :=
  mkDisk (<[[bstr "x"; bstr "content.json"] := File (bstr "old") true 5]> {[ [bstr "x"] := Dir; [] := Dir ]}) [None; None; None; None; Some 0%nat] 9 [].

Lemma site_path : file_path [bstr "x"] (bstr "content.json").
Proof. split_and!; try (vm_compute; reflexivity). split; [exists [bstr "content.json"]; reflexivity|discriminate]. Qed.

Definition committing : result CoreError () * Disk := write_atomic [bstr "x"] (bstr "content.json") (bstr "new") old_site.
Lemma committing_runs : committing.1 = Ok () ∧ length (history committing.2) = 6%nat.
Proof. vm_compute. done. Qed.

