(* ===== verification/Xite.v ===== *)
(** * A xite: its contents on disk ([crates/epix-xite/src/xite.rs])

    Loading, staging and committing the root content.json, adopting the ones below
    it under their parent's rules, the revocation that follows when a parent
    archives users, and the pruning of data files before a signing; all over the
    disk of [Files] and the checks of [Verify]. [adoption_exact] says what adopting a
    content does, and whose files a revocation takes. Signing is in [XiteSign]. *)
From Stdlib Require Import ZArith Lia Strings.Byte Floats.SpecFloat.
From stdpp Require Import base list gmap strings.
From S2P Require Import Prelude Ordered Json Text Canonical Crypt Content Verify Files.
#[local] Open Scope Z_scope.

Definition the_disk : Fs Disk := λ d, (Ok d, d).

(** What is on disk under [inner]. *)
Definition on_disk (root : fpath) (t : Tree) (inner : bytes) : option bytes :=
  p ← ok (storage_path root inner);
  if trailing p || nul p then None else match t !! names p with Some (File b _ _) => Some b | _ => None end.

Record FileEntry := mkFileEntry { inner_path : bytes; fsize : Z; sha512_hex : bytes }.

(** The address and the content once loaded; the storage is the disk below the root. *)
Record Xite := mkXite { address : bytes; content : option json }.

(** [rsplit_once('/')]'s directory with its slash, or nothing at the top. *)
Definition dir_prefix (inner : bytes) : bytes := match rsplit_once x2f inner with Some (d, _) => d ++ bstr "/" | None => [] end.

Section xite.
Context `{C : Crypto} (float_to_string : Z → bytes) (regex_is_match : bytes → bytes → option bool).
(** [serde_json::from_slice] and [to_vec], and what it says of a text that is no JSON. *)
Context (from_slice : bytes → option json) (to_vec : json → bytes) (json_error : bytes → bytes).
Context (root : fpath) (dir_order : list bytes → list bytes) (lossy : bytes → bytes) (sha512 : bytes → bytes).
(** Which of the reads made while rules are looked up fail, though the file is there. *)
Context (glitch : Disk → bytes → bool).

Abbreviation read := (read root).
Abbreviation write := (write root).
Abbreviation delete_file := (delete_file root).

(** ** Contexts of a verification *)

(** [RootCtx]. *)
Definition root_ctx (addr : bytes) (limit : Z) : VerifyContext := mkCtx addr (λ _, None) limit (λ _, []) (λ _, None).

(** [self.storage.read(inner_path).ok()] amid a verification. *)
Definition read_now (d : Disk) (inner : bytes) : option bytes := if glitch d inner then None else on_disk root (tree d) inner.

(** [ChildCtx]. *)
Definition child_ctx (x : Xite) (xid_map : btree bytes (list bytes)) (d : Disk) : VerifyContext := {|
  xite_address := address x;
  loaded_content inner :=
    match read_now d inner with
    | Some b => from_slice b
    | None => if bool_decide (inner = root_path) then content x else None
    end;
  size_limit_bytes := i64_max;
  resolve_xid name := default [] (bt_get xid_map name);
  read_file := read_now d
|}.

(** ** Loading and staging *)

Definition parse_content (b : bytes) : result CoreError json := ok_or (from_slice b) (CoreJson (json_error b)).

Definition stage_content_limited (x : Xite) (b : bytes) (size_limit : Z) : result CoreError Xite :=
  j ← parse_content b;
  _ ← map_err CoreCrypt (verify_content_file float_to_string regex_is_match from_slice root_path j (blen b) (root_ctx (address x) size_limit));
  mret (mkXite (address x) (Some j)).
Definition stage_content (x : Xite) (b : bytes) : result CoreError Xite := stage_content_limited x b i64_max.

Definition commit_content (b : bytes) : Fs () := write_atomic root root_path b.

Definition set_content_limited (x : Xite) (b : bytes) (size_limit : Z) : Fs Xite :=
  x ← lift (stage_content_limited x b size_limit); _ ← commit_content b; mret x.
Definition set_content (x : Xite) (b : bytes) : Fs Xite := set_content_limited x b i64_max.

Definition load_content (x : Xite) : Fs (Xite * bool) :=
  there ← exists_ root root_path;
  if negb there then mret (x, false) else b ← read root_path; x ← lift (stage_content x b); mret (x, true).

Definition load_content_local (x : Xite) : Fs (Xite * bool) :=
  b ← attempt (read root_path);
  mret (match (b ← b; from_slice b) with Some j => (mkXite (address x) (Some j), true) | None => (x, false) end).

(** ** What a content.json declares *)

Definition file_entry (dir : bytes) (f : bytes * json) : option FileEntry :=
  size ← get_i64 f.2 (bstr "size"); sha ← get_str f.2 (bstr "sha512"); Some (mkFileEntry (dir ++ f.1) size sha).

Definition entries_in (dir : bytes) (j : json) (node : bytes) : list FileEntry := omap (file_entry dir) (default [] (get_object j node)).

Definition files_under (x : Xite) (node : bytes) : list FileEntry := match content x with Some c => entries_in [] c node | None => [] end.
Definition xite_files (x : Xite) : list FileEntry := files_under x (bstr "files").
Definition optional_files (x : Xite) : list FileEntry := files_under x (bstr "files_optional").
Definition file_info (x : Xite) (inner : bytes) : option FileEntry :=
  List.find (λ f, bool_decide (inner_path f = inner)) (xite_files x ++ optional_files x).

Definition includes_in (j : json) : list bytes := bt_keys (default [] (get_object j (bstr "includes"))).
Definition includes (x : Xite) : list bytes := match content x with Some c => includes_in c | None => [] end.

Definition child_includes (inner : bytes) : Fs (list bytes) :=
  b ← attempt (read inner);
  mret (match (b ← b; from_slice b) with Some j => map (app (dir_prefix inner)) (includes_in j) | None => [] end).

(** The files that do not verify, in order. *)
Fixpoint needed (fs : list FileEntry) : Fs (list FileEntry) :=
  match fs with
  | [] => mret []
  | f :: fs => good ← verify_file root sha512 (inner_path f) (sha512_hex f); rest ← needed fs; mret (if good : bool then rest else f :: rest)
  end.
Definition files_needed (x : Xite) : Fs (list FileEntry) := needed (xite_files x).

Definition content_rules (x : Xite) (inner : bytes) (j : json) (xid_map : btree bytes (list bytes)) : Fs (option json) :=
  d ← the_disk; mret (get_rules regex_is_match inner j (child_ctx x xid_map d)).

Definition valid_signers_for (x : Xite) (inner : bytes) (xid_map : btree bytes (list bytes)) : Fs (list bytes) :=
  b ← attempt (read inner);
  match (b ← b; from_slice b) with
  | None => mret []
  | Some j => d ← the_disk; mret (valid_signers regex_is_match inner j (child_ctx x xid_map d))
  end.

(** ** Archiving *)

(** [let _ = ...]. *)
Definition ignored {A} (m : Fs A) : Fs () := _ ← attempt m; mret ().
Fixpoint for_each {A} (l : list A) (f : A → Fs ()) : Fs () := match l with [] => mret () | a :: l => _ ← f a; for_each l f end.

Definition older (j : json) (cutoff : f64) : bool := negb (f64_le cutoff (number_or_zero (jget j (bstr "modified")))).

Definition remove_child_if_older (inner : bytes) (cutoff : f64) : Fs () :=
  b ← attempt (read inner);
  match (b ← b; from_slice b) with
  | None => mret ()
  | Some j =>
    if negb (older j cutoff) then mret () else
    let dir := dir_prefix inner in
    _ ← for_each [bstr "files"; bstr "files_optional"] (λ node,
          for_each (bt_keys (default [] (get_object j node))) (λ rel, ignored (delete_file (dir ++ rel))));
    _ ← ignored (delete_file inner);
    if bool_decide (dir = []) then mret () else
    match storage_path root (trim_end x2f dir) with Ok p => ignored (fs_remove_dir p) | Err _ => mret () end
  end.

(** [child_contents_under]: the stack's top first. *)
Fixpoint child_dir (t : Tree) (dir : fpath) (ns : list bytes) (stack : list fpath) (out : list bytes) : list fpath * list bytes :=
  match ns with
  | [] => (stack, out)
  | n :: ns =>
    match t !! (dir ++ [n]) with
    | Some Dir => child_dir t dir ns ((dir ++ [n]) :: stack) out
    | _ => child_dir t dir ns stack (if bool_decide (n = root_path) then out ++ [inner_name root lossy (dir ++ [n])] else out)
    end
  end.

Fixpoint child_loop (fuel : nat) (stack : list fpath) (out : list bytes) : Fs (list bytes) :=
  match fuel, stack with
  | S fuel, dir :: stack =>
    f ← fate; t ← the_tree;
    match f, t !! dir with
    | None, Some Dir => let '(stack, out) := child_dir t dir (dir_order (children t dir)) stack out in child_loop fuel stack out
    | _, _ => child_loop fuel stack out
    end
  | _, _ => mret out
  end.
Definition child_contents_under (dir : bytes) : Fs (list bytes) :=
  t ← the_tree; child_loop (S (size t)) [names (joined root dir)] [].

Definition f64_zero : f64 := S754_zero false.

(** The entries of [archived] that are new or changed. *)
Definition archived_changes (old_archived : option (btree bytes json)) (archived : btree bytes json) : list (bytes * f64) :=
  omap (λ e : bytes * json,
    let date := default f64_zero (as_f64 e.2) in
    let unchanged := match (m ← old_archived; v ← bt_get m e.1; as_f64 v) with Some old_date => SFeqb old_date date | None => false end in
    if unchanged then None else Some (e.1, date)) archived.

Definition apply_archived (inner : bytes) (old : option json) (new : json) : Fs () :=
  match jget new (bstr "user_contents") with
  | None => mret ()
  | Some uc =>
    let dir := dir_prefix inner in
    let old_uc := o ← old; jget o (bstr "user_contents") in
    _ ← (match get_object uc (bstr "archived") with
         | None => mret ()
         | Some archived =>
           for_each (archived_changes (u ← old_uc; get_object u (bstr "archived")) archived) (λ e,
             remove_child_if_older (dir ++ e.1 ++ bstr "/content.json") e.2)
         end);
    let before := number_or_zero (jget uc (bstr "archived_before")) in
    let old_before := number_or_zero (u ← old_uc; jget u (bstr "archived_before")) in
    if f64_lt f64_zero before && negb (SFeqb before old_before) then
      cs ← child_contents_under dir;
      for_each cs (λ child, if bool_decide (child = inner) then mret () else remove_child_if_older child before)
    else mret ()
  end.

(** ** Contents below the root *)

Definition add_content (x : Xite) (inner b : bytes) (xid_map : btree bytes (list bytes)) : Fs (list FileEntry) :=
  j ← lift (parse_content b);
  d ← the_disk;
  _ ← lift (map_err CoreCrypt (verify_content_file float_to_string regex_is_match from_slice inner j (blen b) (child_ctx x xid_map d)));
  old ← attempt (read inner);
  _ ← write inner b;
  _ ← apply_archived inner (o ← old; from_slice o) j;
  let dir := dir_prefix inner in
  mret (entries_in dir j (bstr "files") ++ entries_in dir j (bstr "files_optional")).

(** ** Pruning data files *)

Definition timestamp (e : json) : f64 := number_or_zero (jget e (bstr "timestamp")).
Definition partial_cmp_or_eq (a b : json) : comparison := default Eq (SFcompare (timestamp a) (timestamp b)).

(** [map.get_mut(key).and_then(as_array_mut)], and the list put back. *)
Definition on_list (m : btree bytes json) (key : bytes) (f : list json → list json * bool) (changed : bool) : btree bytes json * bool :=
  match bt_get m key with
  | Some (JArr l) => let '(l, c) := f l in (bt_insert key (JArr l) m, changed || c)
  | _ => (m, changed)
  end.

Definition prune_aged (min_keep : nat) (cutoff : f64) (l : list json) : list json * bool :=
  if (length l <=? min_keep)%nat then (l, false) else
  let l := sort_by partial_cmp_or_eq l in
  let keep_from := (length l - min_keep)%nat in
  let pruned := map snd (List.filter (λ p : nat * json, (keep_from <=? p.1)%nat || f64_le cutoff (timestamp p.2)) (imap pair l)) in
  if (length pruned <? length l)%nat then (pruned, true) else (l, false).

Definition prune_limit (limit : nat) (l : list json) : list json * bool :=
  if (limit <? length l)%nat then (drop (length l - limit) l, true) else (l, false).

Definition prune_map (max_items : btree bytes json) (age_rules min_rules : option (btree bytes json)) (now : f64) (m : btree bytes json) : btree bytes json * bool :=
  let '(m, changed) := foldl (λ (st : btree bytes json * bool) (r : bytes * json),
      match as_f64 r.2 with
      | None => st
      | Some max_age =>
        let min_keep := Z.to_nat (Z.max 0 (default 100 (mr ← min_rules; v ← bt_get mr r.1; as_i64 v))) in
        on_list st.1 r.1 (prune_aged min_keep (SFsub 53 1024 now max_age)) st.2
      end) (m, false) (default [] age_rules) in
  foldl (λ (st : btree bytes json * bool) (r : bytes * json),
      match as_i64 r.2 with
      | None => st
      | Some limit => on_list st.1 r.1 (prune_limit (Z.to_nat (Z.max 0 limit))) st.2
      end) (m, changed) max_items.

Definition prune_data_files (dir : bytes) (rules : json) (now : f64) : Fs () :=
  match get_object rules (bstr "max_items") with
  | None => mret ()
  | Some max_items =>
    listing ← list_files root dir_order lossy;
    for_each listing (λ inner,
      if negb (starts_with (dir ++ bstr "/") inner) || negb (ends_with inner (bstr "data.json")) then mret () else
      b ← attempt (read inner);
      match (b ← b; from_slice b) with
      | Some (JObj m) =>
        let '(m, changed) := prune_map max_items (get_object rules (bstr "max_items_age")) (get_object rules (bstr "max_items_min")) now m in
        if changed : bool then ignored (write inner (to_vec (JObj m))) else mret ()
      | _ => mret ()
      end)
  end.
End xite.

(** ** Calls that change nothing *)

(** [m] leaves the disk alone, but for the fates it spends. *)
Definition calm {A} (m : Fs A) : Prop := ∀ d, history (m d).2 = history d.

Lemma calm_tree {A} (m : Fs A) d r d' : calm m → m d = (r, d') → tree d' = tree d.
Proof. intros H E. specialize (H d). rewrite E in H. by injection H. Qed.

Lemma calm_bind {A B} (m : Fs A) (f : A → Fs B) : calm m → (∀ a, calm (f a)) → calm (m ≫= f).
Proof. intros Hm Hf d. specialize (Hm d). unfold mbind, fs_bind. destruct (m d) as [[a|e] d1]; [by rewrite (Hf a d1)|done]. Qed.

Lemma calm_attempt {A} (m : Fs A) : calm m → calm (attempt m).
Proof. intros Hm d. specialize (Hm d). unfold attempt. by destruct (m d) as [[]]. Qed.

Lemma calm_ret {A} (a : A) : calm (mret a).
Proof. done. Qed.
Lemma calm_lift {A} (r : result CoreError A) : calm (lift r).
Proof. done. Qed.
Lemma calm_fails {A} e : calm (fails (A := A) e).
Proof. done. Qed.
Lemma calm_the_disk : calm the_disk.
Proof. done. Qed.
Lemma calm_the_tree : calm the_tree.
Proof. done. Qed.
Lemma calm_fate : calm fate.
Proof. intros d. destruct (fate_spec d) as (f & d' & -> & _ & _ & H). done. Qed.
Lemma calm_metadata p : calm (metadata p).
Proof. intros d. destruct (metadata_spec p d) as (r & d' & -> & [_ H] & _). done. Qed.
Lemma calm_fs_read p : calm (fs_read p).
Proof. intros d. destruct (fs_read_spec p d) as (r & d' & -> & [_ H] & _). done. Qed.

Create HintDb calm.
#[export] Hint Resolve calm_attempt calm_ret calm_lift calm_fails calm_the_disk calm_the_tree calm_fate calm_metadata calm_fs_read : calm.

Ltac calm :=
  repeat first
    [ solve [eauto with calm]
    | apply calm_attempt
    | apply calm_bind; [|intros ?]
    | match goal with
      | |- calm (if ?b then _ else _) => destruct b
      | |- calm (match ?x with _ => _ end) => destruct x
      | |- calm (let '(_, _) := ?x in _) => destruct x
      end ].

Section reading.
Context (root : fpath) (dir_order : list bytes → list bytes) (lossy sha512 : bytes → bytes).

Lemma calm_read inner : calm (read root inner).
Proof. unfold read. calm. Qed.
Lemma calm_is_file p : calm (is_file p).
Proof. unfold is_file. calm. Qed.
Lemma calm_exists inner : calm (exists_ root inner).
Proof. unfold exists_. destruct (storage_path root inner); [apply calm_is_file|done]. Qed.
Lemma calm_list_files : calm (list_files root dir_order lossy).
Proof.
  unfold list_files. apply calm_bind; [apply calm_the_tree|]. intros t. generalize (Datatypes.S (size t)), [root], ([] : list bytes). intros fuel.
  induction fuel as [|fuel IH]; intros stack out; cbn [list_loop]; [done|]. destruct stack as [|dir stack]; [done|]. calm.
Qed.
Lemma calm_verify inner e : calm (verify_file root sha512 inner e).
Proof. unfold verify_file. apply calm_bind; [apply calm_attempt, calm_read|]. calm. Qed.

Lemma on_disk_path t inner b : on_disk root t inner = Some b → storage_path root inner = Ok (joined root inner) ∧
  trailing (joined root inner) = false ∧ nul (joined root inner) = false ∧ ∃ s m, t !! names (joined root inner) = Some (File b s m).
Proof.
  unfold on_disk. destruct (storage_path root inner) as [p|] eqn:Ep; [|done]. cbn [ok mbind option_bind]. apply path_names in Ep as Hp. subst p.
  destruct (trailing _); [done|]. destruct (nul _); [done|]. cbn [orb]. destruct (t !! _) as [[|c s m]|]; [done| |done]. intros [= ->]. eauto 6.
Qed.

Lemma read_ok inner d b d' : read root inner d = (Ok b, d') → on_disk root (tree d) inner = Some b.
Proof.
  unfold read, on_disk. destruct (storage_path root inner) as [p|e]; [|done]. cbn [ok mbind option_bind]. intros H. change (fs_read p d = (Ok b, d')) in H.
  destruct (fs_read_spec p d) as (r & d1 & E & _ & Hr). rewrite E in H. injection H as -> ->. destruct Hr as (-> & -> & s & m & ->). done.
Qed.

(** With no call refused, a read gives what is there and leaves the disk as it is. *)
Lemma idle_same d d' : fates d = [] → idle d d' → d' = d.
Proof. destruct d, d'. cbn. intros -> [[H1 H2] H3]. unfold history in H3. cbn in *. congruence. Qed.

Lemma read_there inner d : fates d = [] → read root inner d = match on_disk root (tree d) inner with Some b => (Ok b, d) | None => ((read root inner d).1, d) end.
Proof.
  intros Hf. destruct (read root inner d) as [r d'] eqn:E. assert (d' = d) as ->.
  { unfold read in E. destruct (storage_path root inner) as [p|]; [|by injection E]. change (fs_read p d = (r, d')) in E. destruct (fs_read_spec p d) as (r1 & d1 & E1 & Hi & _).
    rewrite E1 in E. injection E as _ <-. by apply idle_same. }
  destruct r as [b|e]; [by rewrite (read_ok _ _ _ _ E)|]. cbn. destruct (on_disk root (tree d) inner) as [b|] eqn:Eb; [|done]. exfalso.
  apply on_disk_path in Eb as (Hp & Ht & Hn & s & m & Hl). unfold read in E. rewrite Hp in E. change (fs_read (joined root inner) d = (Err e, d)) in E.
  destruct (fs_read_spec (joined root inner) d) as (r1 & d1 & E1 & _ & Hr). rewrite E1 in E. injection E as -> ->. destruct (Hr (or_intror Hf)) as [H|[H|H]]; [congruence..|].
  by apply (H b s m).
Qed.

Lemma verify_there inner e d b : fates d = [] → on_disk root (tree d) inner = Some b → hash_bytes sha512 b = e → verify_file root sha512 inner e d = (Ok true, d).
Proof.
  intros Hf Hb He. unfold verify_file, mbind, fs_bind, attempt. rewrite (read_there inner d Hf), Hb. by rewrite bool_decide_eq_true_2.
Qed.
End reading.

#[export] Hint Resolve calm_read calm_is_file calm_exists calm_list_files calm_verify : calm.

(** A path that is no change's stays as it is. *)
Lemma on_disk_kept root (Q D : fpath → Prop) t t' inner b : kept Q D t t' → on_disk root t inner = Some b → ¬ Q (names (joined root inner)) →
  on_disk root t' inner = Some b.
Proof.
  intros Hk Hb HQ. apply on_disk_path in Hb as (Hp & Ht & Hn & s & m & Hl). unfold on_disk. rewrite Hp. cbn [ok mbind option_bind]. rewrite Ht, Hn. cbn [orb].
  destruct (Hk (names (joined root inner))) as [?|[E|(E & _)]]; [done| |congruence]. by rewrite E, Hl.
Qed.

(** ** Paths below a directory *)

Definition path_name (s : bytes) : option bytes := c ← segment s; name_of c.

Lemma names_split s : omap name_of (components s) = omap path_name (split_on x2f s).
Proof.
  unfold components. rewrite omap_app. replace (omap name_of (if starts_with (bstr "/") s then _ else _)) with ([] : list bytes) by (by destruct (starts_with _ _); [|case_bool_decide]).
  cbn. unfold path_name. induction (split_on x2f s) as [|p l IH]; [done|]. cbn. destruct (segment p) as [c|]; cbn; [|done]. destruct (name_of c); by rewrite IH.
Qed.

Lemma split_app sep a b : split_on sep (a ++ sep :: b) = split_on sep a ++ split_on sep b.
Proof.
  rewrite <- (str_join_split sep a). generalize (split_on_nonempty sep a), (λ p, split_on_no_sep sep a p). induction (split_on sep a) as [|p l IH]; intros Hne Hp; [done|].
  assert (sep ∉ p) as Hs by (apply Hp; left). destruct l as [|q l]; [cbn [str_join]; rewrite split_on_app by done; by rewrite (split_on_single sep p)|].
  change (split_on sep ((p ++ sep :: str_join [sep] (q :: l)) ++ sep :: b) = split_on sep (p ++ sep :: str_join [sep] (q :: l)) ++ split_on sep b).
  rewrite <- app_assoc. cbn [app]. rewrite !(split_on_app sep p) by done. cbn [app]. f_equal. apply IH; [done|]. intros x Hx. apply Hp. by right.
Qed.

Lemma names_below root dir rel : names (joined root (dir ++ x2f :: rel)) = names (joined root dir) ++ omap path_name (split_on x2f rel).
Proof. cbn [joined names]. by rewrite !names_split, split_app, omap_app, app_assoc. Qed.

Lemma dir_prefix_below root c rel : names (joined root (dir_prefix c)) `prefix_of` names (joined root (dir_prefix c ++ rel)).
Proof.
  unfold dir_prefix. destruct (rsplit_once x2f c) as [[d n]|]; [|exists (omap name_of (components rel)); cbn; by rewrite app_nil_r].
  rewrite <- app_assoc. change (bstr "/" ++ rel) with (x2f :: rel). change (bstr "/") with [x2f]. exists (omap path_name (split_on x2f rel)). rewrite !names_below.
  by rewrite <- (app_nil_r (names (joined root d))) at 1.
Qed.

Lemma in_its_dir root c : names (joined root (dir_prefix c)) `prefix_of` names (joined root c).
Proof.
  pose proof (rsplit_once_spec x2f c) as H. unfold dir_prefix. destruct (rsplit_once x2f c) as [[d n]|]; [|exists (omap name_of (components c)); cbn; by rewrite app_nil_r].
  destruct H as [-> _]. change (bstr "/") with [x2f]. exists (omap path_name (split_on x2f n)). rewrite !names_below. by rewrite <- (app_nil_r (names (joined root d))) at 1.
Qed.

(** ** Revocation *)

(** Files only go, and only those of [Q]; every entry still lies in a directory. *)
Definition losing (Q : Tree → fpath → Prop) (t t' : Tree) : Prop :=
  (t' ⊆ t ∧ (tree_wf t → tree_wf t')) ∧ ∀ q b s m, t !! q = Some (File b s m) → t' !! q = None → Q t q.

Lemma tree_wf_delete t q : tree_wf t → (∀ n, t !! (q ++ [n]) = None) → tree_wf (delete q t).
Proof.
  intros Hw Hq k n [Hne Hk]%lookup_delete_Some Hk0. rewrite lookup_delete_ne; [by eapply Hw|]. intros ->. specialize (Hq (default [] (last k))).
  destruct k as [|x k _] using rev_ind; [done|]. rewrite removelast_last, last_snoc in Hq. cbn in Hq. by rewrite Hq in Hk.
Qed.

Definition monotone (Q : Tree → fpath → Prop) : Prop := ∀ t t' q, t' ⊆ t → Q t' q → Q t q.

Lemma losing_preorder Q : monotone Q → PreOrder (losing Q).
Proof.
  intros HQ. split; [intros t; split; [done|]; intros q b s m H1 H2; congruence|]. intros t1 t2 t3 [[S1 W1] L1] [[S2 W2] L2]. split; [split; [by etransitivity|tauto]|].
  intros q b s m H1 H3. destruct (t2 !! q) as [n|] eqn:H2; [|by eapply L1]. pose proof (lookup_weaken _ _ _ _ H2 S1) as H1'. rewrite H1 in H1'. injection H1' as <-.
  eapply HQ; [exact S1|]. by eapply L2.
Qed.

Lemma on_disk_mono root t t' inner b : t' ⊆ t → on_disk root t' inner = Some b → on_disk root t inner = Some b.
Proof.
  intros Hs. unfold on_disk. destruct (storage_path root inner) as [p|]; cbn [ok mbind option_bind]; [|done]. destruct (_ || _); [done|].
  destruct (t' !! names p) as [n|] eqn:E; [|done]. by rewrite (lookup_weaken _ _ _ _ E Hs).
Qed.

Section losing.
Context (Q : Tree → fpath → Prop) (HQ : monotone Q).
#[local] Instance losing_pre : PreOrder (losing Q) := losing_preorder Q HQ.

Lemma calm_losing {A} (m : Fs A) : calm m → follows (losing Q) m.
Proof. intros H. by apply follows_quiet. Qed.

Lemma losing_remove_file p : (∀ t, Q t (names p)) → follows (losing Q) (fs_remove_file p).
Proof.
  intros Hp. apply follows_call. intros d. destruct (fs_remove_file_spec p d) as (r & d' & -> & H). destruct r; [|by left]. destruct H as (x & s & m & Hl & H). right.
  eexists. split; [exact H|]. split; [split; [apply delete_subseteq|]|].
  { intros Hw. apply tree_wf_delete; [done|]. intros n. destruct (tree d !! (names p ++ [n])) as [y|] eqn:E; [|done]. assert (tree d !! removelast (names p ++ [n]) = Some Dir) as E' by (apply (Hw _ _ E); by destruct (names p)). rewrite removelast_last in E'. congruence. }
  intros q b s' m' H1 H2. destruct (decide (q = names p)) as [->|Hne]; [apply Hp|]. rewrite lookup_delete_ne in H2 by done. congruence.
Qed.

Lemma losing_remove_dir p : follows (losing Q) (fs_remove_dir p).
Proof.
  apply follows_call. intros d. destruct (fs_remove_dir_spec p d) as (r & d' & -> & H). destruct r; [|by left]. destruct H as (Hl & Hc & H). right.
  eexists. split; [exact H|]. split; [split; [apply delete_subseteq|]|].
  { intros Hw. apply tree_wf_delete; [done|]. intros n. apply eq_None_not_Some. rewrite <- elem_of_children, Hc. apply not_elem_of_nil. }
  intros q b s' m' H1 H2. destruct (decide (q = names p)) as [->|Hne]; [congruence|]. rewrite lookup_delete_ne in H2 by done. congruence.
Qed.

Lemma losing_ignored {A} (m : Fs A) : follows (losing Q) m → follows (losing Q) (ignored m).
Proof. intros H. refine (follows_bind _ _ _ _ _); [by apply follows_attempt|intros; apply follows_ret]. Qed.

Lemma losing_prune root n : ∀ p, follows (losing Q) (prune_empty root n p).
Proof.
  induction n as [|n IH]; intros p; [by apply follows_quiet|]. cbn [prune_empty]. destruct p as [p|]; [|by apply follows_quiet]. case_bool_decide; [by apply follows_quiet|].
  refine (follows_bind _ _ _ _ _); [apply follows_attempt, losing_remove_dir|]. intros [[]|]; [apply IH|by apply follows_quiet].
Qed.

Lemma losing_delete root inner : (∀ t, Q t (names (joined root inner))) → follows (losing Q) (delete_file root inner).
Proof.
  intros H. refine (follows_lifted _ _ _ _). intros p ->%path_names. refine (follows_bind _ _ _ _ _); [by apply losing_remove_file|]. intros _. apply losing_prune.
Qed.

Lemma losing_for_each {A} (l : list A) f : (∀ a, a ∈ l → follows (losing Q) (f a)) → follows (losing Q) (for_each l f).
Proof.
  induction l as [|a l IH]; intros H; [by apply follows_quiet|]. refine (follows_bind _ _ _ _ _); [apply H; left|]. intros _. apply IH. intros b Hb. apply H. by right.
Qed.
End losing.

Lemma losing_weaken (Q Q' : Tree → fpath → Prop) {A} (m : Fs A) : (∀ t q, Q t q → Q' t q) → follows (losing Q) m → follows (losing Q') m.
Proof.
  intros HQ Hm d. destruct (Hm d) as (ts & E & HF). exists ts. split; [done|]. eapply Forall_impl; [exact HF|]. intros t [H1 H2]. split; [done|]. intros q b s m' Hq Hn. by eapply HQ, H2.
Qed.

(** ** Whose files a revocation takes *)

(** A content.json lists [rel], relative to its directory. *)
Definition declares (j : json) (rel : bytes) : Prop :=
  ∃ node, node ∈ [bstr "files"; bstr "files_optional"] ∧ rel ∈ bt_keys (default [] (get_object j node)).

Section revoking.
Context (from_slice : bytes → option json) (root : fpath) (dir_order : list bytes → list bytes) (lossy : bytes → bytes).
Abbreviation remove_child := (remove_child_if_older from_slice root).
Abbreviation archiving_of := (apply_archived from_slice root dir_order lossy).
Abbreviation children_under := (child_contents_under root dir_order lossy).

(** The content stored under [c] was modified before [cutoff]. *)
Definition outdated (t : Tree) (c : bytes) (cutoff : f64) (j : json) : Prop :=
  ∃ b, on_disk root t c = Some b ∧ from_slice b = Some j ∧ older j cutoff = true.

(** [q] is that content, or a file it declares, in its directory or below. *)
Definition falls (c : bytes) (cutoff : f64) (t : Tree) (q : fpath) : Prop :=
  ∃ j, outdated t c cutoff j ∧ names (joined root (dir_prefix c)) `prefix_of` q ∧
    (q = names (joined root c) ∨ ∃ rel, declares j rel ∧ q = names (joined root (dir_prefix c ++ rel))).

Lemma outdated_mono t t' c cutoff j : t' ⊆ t → outdated t' c cutoff j → outdated t c cutoff j.
Proof. intros Hs (b & Hb & Hj). exists b. split; [by eapply on_disk_mono|done]. Qed.

Lemma falls_monotone c cutoff : monotone (falls c cutoff).
Proof. intros t t' q Hs (j & Hj & Hq). exists j. split; [by eapply outdated_mono|done]. Qed.

Lemma remove_child_falls c cutoff : follows (losing (falls c cutoff)) (remove_child c cutoff).
Proof.
  intros d. unfold remove_child_if_older, mbind at 1, fs_bind at 1, attempt. pose proof (calm_read root c d) as Hc. destruct (read root c d) as [[b|e] d1] eqn:E; cbn [snd] in Hc; cbn [mbind option_bind].
  2:{ exists []. by rewrite <- Hc. }
  destruct (from_slice b) as [j|] eqn:Ej; [|exists []; by rewrite <- Hc]. destruct (older j cutoff) eqn:Eo; cbn [negb]; [|exists []; by rewrite <- Hc].
  apply read_ok in E. assert (tree d1 = tree d) as Ht by (unfold history in Hc; congruence). rewrite <- Hc, <- Ht. rewrite <- Ht in E.
  set (Q := λ _ : Tree, falls c cutoff (tree d1)). assert (monotone Q) as HQ by (by intros ? ? ? _ ?). assert (Hj : outdated (tree d1) c cutoff j) by (by exists b).
  match goal with |- ∃ ts, history (?m d1).2 = _ ∧ _ => cut (follows (losing Q) m) end; [intros Hm; exact (Hm d1)|].
  pose proof (losing_pre Q HQ). refine (follows_bind _ _ _ _ _).
  { apply (losing_for_each Q HQ). intros node Hn. apply (losing_for_each Q HQ). intros rel Hr. apply (losing_ignored Q HQ), (losing_delete Q HQ). intros ?. exists j. split; [done|].
    split; [apply dir_prefix_below|]. right. exists rel. split; [|done]. by exists node. }
  intros _. refine (follows_bind _ _ _ _ _).
  { apply (losing_ignored Q HQ), (losing_delete Q HQ). intros ?. exists j. split; [done|]. split; [apply in_its_dir|by left]. }
  intros _. case_bool_decide; [by apply follows_quiet|]. destruct (storage_path root _); [|by apply follows_quiet]. apply (losing_ignored Q HQ), losing_remove_dir.
Qed.

(** With no refused call, a file that can be named is removed. *)
Lemma remove_there p b s m d : fates d = [] → nul p = false → trailing p = false → tree d !! names p = Some (File b s m) →
  ∃ d', fs_remove_file p d = (Ok (), d') ∧ tree d' = delete (names p) (tree d).
Proof.
  intros Hf Hn Ht Hl. unfold fs_remove_file, mbind at 1, fs_bind at 1, fate. rewrite Hf. unfold as_file, usable, mbind, fs_bind, the_tree. rewrite Hn. cbn [mret fs_ret]. rewrite Ht. cbn. rewrite Hl.
  eexists. by split.
Qed.

(** ** The listing of contents *)

Lemma child_dir_spec t dir ns : ∀ stack out, child_dir root lossy t dir ns stack out =
  (rev (List.filter (is_dir_at t) (map (λ n, dir ++ [n]) ns)) ++ stack,
   out ++ map (inner_name root lossy) (List.filter (wanted (λ n, bool_decide (n = root_path)) t) (map (λ n, dir ++ [n]) ns))).
Proof.
  induction ns as [|n ns IH]; intros stack out; cbn [child_dir map List.filter rev app]; [by rewrite app_nil_r|]. unfold wanted at 1. rewrite last_snoc. change (default [] (Some n)) with n.
  assert (is_dir_at t (dir ++ [n]) = match t !! (dir ++ [n]) with Some Dir => true | _ => false end) as -> by (unfold is_dir_at; by destruct (t !! (dir ++ [n])) as [[]|]).
  destruct (t !! (dir ++ [n])) as [[|b s m]|]; cbn [negb andb rev map]; rewrite IH; [by rewrite <- app_assoc|..]; case_bool_decide; cbn [map]; by rewrite <- ?app_assoc.
Qed.

(** A name as the listing gives it to a content.json below [dir]. *)
Definition content_below (dir : fpath) (c : bytes) : Prop := ∃ q, below dir q ∧ last q = Some root_path ∧ c = inner_name root lossy q.

Lemma calm_child_loop fuel : ∀ stack out, calm (child_loop root dir_order lossy fuel stack out).
Proof. induction fuel as [|fuel IH]; intros stack out; cbn [child_loop]; [done|]. destruct stack as [|dir stack]; [done|]. calm. Qed.

Lemma child_loop_sound start fuel : ∀ stack out d l d', Forall (λ x, start `prefix_of` x) stack → Forall (content_below start) out →
  child_loop root dir_order lossy fuel stack out d = (Ok l, d') → Forall (content_below start) l.
Proof.
  induction fuel as [|fuel IH]; intros stack out d l d' Hs Ho; cbn [child_loop]; [by intros [= <- _]|]. destruct stack as [|dir stack]; [by intros [= <- _]|].
  apply Forall_cons in Hs as [Hd Hs]. destruct (fate_spec d) as (f & d1 & E & _). unfold mbind at 1, fs_bind at 1. rewrite E. unfold mbind, fs_bind, the_tree.
  destruct f; [by apply IH|]. destruct (tree d1 !! dir) as [[|b y m]|]; [|by apply IH..]. rewrite child_dir_spec. apply IH.
  - apply Forall_app. split; [|done]. apply Forall_forall. intros x Hx. rewrite <- Permutation_rev in Hx. apply elem_of_bfilter in Hx as [Hx _].
    apply (list_elem_of_fmap (λ n, dir ++ [n])) in Hx as (n & -> & _). by apply prefix_app_r.
  - apply Forall_app. split; [done|]. apply Forall_forall. intros x Hx. apply (list_elem_of_fmap (inner_name root lossy)) in Hx as (q & -> & Hq). apply elem_of_bfilter in Hq as [Hq Hw].
    apply (list_elem_of_fmap (λ n, dir ++ [n])) in Hq as (n & -> & _). unfold wanted in Hw. apply andb_true_iff in Hw as [_ Hw]. rewrite last_snoc in Hw. change (bool_decide (n = root_path) = true) in Hw. apply bool_decide_eq_true in Hw.
    exists (dir ++ [n]). split_and!; [split; [by apply prefix_app_r|]|by rewrite last_snoc, Hw|done].
    intros E'. destruct Hd as [rel ->]. apply (f_equal length) in E'. rewrite !length_app in E'. cbn in E'. lia.
Qed.

Lemma child_loop_complete (order_perm : ∀ l, dir_order l ≡ₚ l) start d fuel : ∀ V stack out, fates d = [] →
  walking start (inner_name root lossy) (λ n, bool_decide (n = root_path)) (tree d) V stack out → (size (tree d) < fuel + length V)%nat →
  ∃ V' out', child_loop root dir_order lossy fuel stack out d = (Ok out', d) ∧ walking start (inner_name root lossy) (λ n, bool_decide (n = root_path)) (tree d) V' [] out'.
Proof.
  induction fuel as [|fuel IH]; intros V stack out Hf Hw Hfuel; [pose proof (walking_size _ _ _ _ _ _ _ Hw); lia|].
  destruct stack as [|dir stack]; [by exists V, out|]. cbn [child_loop]. unfold mbind at 1, fs_bind at 1, fate. rewrite Hf. unfold mbind, fs_bind, the_tree.
  destruct (w_dirs _ _ _ _ _ _ _ Hw dir ltac:(set_solver)) as [-> _]. rewrite child_dir_spec. apply (IH (V ++ [dir])); [done|by apply (walking_step start (inner_name root lossy))|rewrite length_app; cbn; lia].
Qed.

(** ** Removals that nothing hinders *)

(** [m] goes through, and with no refused call it leaves none to come. *)
Definition steady (m : Fs ()) : Prop := ∀ d, ∃ d', m d = (Ok (), d') ∧ (fates d = [] → fates d' = []).
Definition unhindered {A} (m : Fs A) : Prop := ∀ d, fates d = [] → fates (m d).2 = [].

Lemma unhindered_call {A} (m : Fs A) : (∀ d, called d (m d).2) → unhindered m.
Proof. intros H d Hf. destruct (H d) as [-> _]. by rewrite Hf. Qed.

Lemma unhindered_bind {A B} (m : Fs A) (f : A → Fs B) : unhindered m → (∀ a, unhindered (f a)) → unhindered (m ≫= f).
Proof. intros Hm Hf d H. specialize (Hm d H). unfold mbind, fs_bind. destruct (m d) as [[a|e] d1]; [by apply Hf|done]. Qed.

Lemma steady_ret : steady (mret ()).
Proof. intros d. by exists d. Qed.

Lemma steady_ignored {A} (m : Fs A) : unhindered m → steady (ignored m).
Proof. intros Hm d. specialize (Hm d). unfold ignored, mbind, fs_bind, attempt. destruct (m d) as [[a|e] d1]; by exists d1. Qed.

Lemma steady_bind (m : Fs ()) f : steady m → steady (f ()) → steady (m ≫= f).
Proof.
  intros Hm Hf d. destruct (Hm d) as (d1 & E & H1), (Hf d1) as (d2 & E2 & H2). exists d2. unfold mbind, fs_bind. rewrite E. split; [done|]. auto.
Qed.

Lemma steady_for_each {A} (l : list A) f : (∀ a, a ∈ l → steady (f a)) → steady (for_each l f).
Proof. induction l as [|a l IH]; intros H; [apply steady_ret|]. apply steady_bind; [apply H; left|]. apply IH. intros b Hb. apply H. by right. Qed.

Lemma called_remove_file p : unhindered (fs_remove_file p).
Proof. apply unhindered_call. intros d. destruct (fs_remove_file_spec p d) as (r & d' & -> & H). destruct r; [destruct H as (x & s & m & _ & [H _])|destruct H as [H _]]; exact H. Qed.
Lemma called_remove_dir p : unhindered (fs_remove_dir p).
Proof. apply unhindered_call. intros d. destruct (fs_remove_dir_spec p d) as (r & d' & -> & H). destruct r; [destruct H as (_ & _ & [H _])|destruct H as [H _]]; exact H. Qed.

Lemma unhindered_prune n : ∀ p, unhindered (prune_empty root n p).
Proof.
  induction n as [|n IH]; intros p; [by intros ?|]. cbn [prune_empty]. destruct p as [p|]; [|by intros ?]. case_bool_decide; [by intros ?|].
  apply unhindered_bind; [|intros [[]|]; [apply IH|by intros ?]]. intros d Hd. pose proof (called_remove_dir p d Hd) as H'. unfold attempt. by destruct (fs_remove_dir p d) as [[]].
Qed.

Lemma unhindered_delete inner : unhindered (delete_file root inner).
Proof.
  unfold delete_file. apply unhindered_bind; [by intros ?|]. intros p. apply unhindered_bind; [apply called_remove_file|]. intros _. apply unhindered_prune.
Qed.

Lemma unhindered_read inner : unhindered (read root inner).
Proof. intros d Hf. rewrite read_there by done. by destruct (on_disk _ _ _). Qed.

(** Whatever is removed, what is left was there. *)
Lemma shrinks {A} (m : Fs A) Q d : monotone Q → follows (losing Q) m → tree (m d).2 ⊆ tree d.
Proof. intros HQ H. pose proof (losing_preorder Q HQ). by destruct (follows_now _ m d H) as [[? _] _]. Qed.

Lemma delete_gone c d : fates d = [] → on_disk root (tree (delete_file root c d).2) c = None.
Proof.
  intros Hf. destruct (on_disk root _ c) as [b|] eqn:E; [exfalso|done]. assert (monotone (λ _ _, True)) as HQ by done.
  pose proof (shrinks (delete_file root c) _ d HQ (losing_delete _ HQ root c (λ _, I))) as Hs. pose proof (on_disk_mono _ _ _ _ _ Hs E) as E0.
  apply on_disk_path in E0 as (Hp & Ht & Hn & s & m & Hl). apply on_disk_path in E as (_ & _ & _ & s' & m' & Hl'). destruct (remove_there _ _ _ _ d Hf Hn Ht Hl) as (d1 & E1 & Ht1).
  unfold delete_file in Hl'. rewrite Hp in Hl'. unfold mbind at 1, fs_bind at 1, lift in Hl'. unfold mbind, fs_bind in Hl'. rewrite E1 in Hl'.
  pose proof (shrinks (prune_empty root (length (names (joined root c))) (parent_of (joined root c))) _ d1 HQ (losing_prune _ HQ root _ _)) as Hs'.
  pose proof (lookup_weaken _ _ _ _ Hl' Hs') as H. by rewrite Ht1, lookup_delete_eq in H.
Qed.

Lemma remove_child_steady c cutoff : steady (remove_child c cutoff).
Proof.
  intros d. unfold remove_child_if_older, mbind at 1, fs_bind at 1, attempt. pose proof (unhindered_read c d) as Hr. destruct (read root c d) as [[b|e] d1]; cbn [snd] in Hr; cbn [mbind option_bind]; [|by exists d1].
  destruct (from_slice b) as [j|]; [|by exists d1]. destruct (negb _); [by exists d1|].
  match goal with |- ∃ d', ?m d1 = _ ∧ _ => cut (steady m); [intros Hm; destruct (Hm d1) as (d' & E & H); exists d'; split; [exact E|by auto]|] end.
  apply steady_bind; [|apply steady_bind; [apply steady_ignored, unhindered_delete|]].
  - apply steady_for_each. intros node _. apply steady_for_each. intros rel _. apply steady_ignored, unhindered_delete.
  - case_bool_decide; [apply steady_ret|]. destruct (storage_path root _); [apply steady_ignored, called_remove_dir|apply steady_ret].
Qed.

(** The sub-contents of a revoked content go with it. *)
Lemma remove_child_gone c cutoff d j : fates d = [] → ¬ outdated (tree (remove_child c cutoff d).2) c cutoff j.
Proof.
  intros Hf (b & Hb & Hj & Ho). pose proof (shrinks _ _ d (falls_monotone c cutoff) (remove_child_falls c cutoff)) as Hs. pose proof (on_disk_mono _ _ _ _ _ Hs Hb) as Hb0.
  unfold remove_child_if_older, mbind at 1, fs_bind at 1, attempt in Hb. rewrite (read_there root c d Hf), Hb0 in Hb. cbn [mbind option_bind] in Hb. rewrite Hj, Ho in Hb. cbn [negb] in Hb. clear Hs.
  assert (monotone (λ _ _, True)) as HQ by done. pose proof (losing_preorder _ HQ).
  unfold mbind at 1, fs_bind at 1 in Hb.
  match type of Hb with context [for_each ?l ?f d] => assert (steady (for_each l f)) as Hst end.
  { apply steady_for_each. intros node _. apply steady_for_each. intros rel _. apply steady_ignored, unhindered_delete. }
  destruct (Hst d) as (d1 & E1 & Hf1). rewrite E1 in Hb. specialize (Hf1 Hf). clear E1 Hst.
  unfold mbind, fs_bind in Hb. pose proof (delete_gone c d1 Hf1) as Hg. unfold ignored at 1, mbind, fs_bind, attempt in Hb. destruct (delete_file root c d1) as [r d2]. cbn [snd] in Hg.
  assert (∀ m : Fs (), follows (losing (λ _ _, True)) m → on_disk root (tree (m d2).2) c = None) as Hno.
  { intros m Hm. destruct (on_disk root (tree (m d2).2) c) as [x|] eqn:E; [|done]. by rewrite (on_disk_mono _ _ _ _ _ (shrinks m _ d2 HQ Hm) E) in Hg. }
  match type of Hb with context [if bool_decide _ then ?a else ?b] => assert (on_disk root (tree ((if bool_decide (dir_prefix c = []) then a else b) d2).2) c = None) as Hn end.
  { apply Hno. case_bool_decide; [by apply follows_quiet|]. destruct (storage_path root _); [|by apply follows_quiet]. apply losing_ignored; [done|]. apply losing_remove_dir. }
  assert (Some b = None) as [=]. rewrite <- Hb. by destruct r.
Qed.

(** A loop that revokes some contents leaves none of them outdated. *)
Lemma revoke_all {A} (g : A → option (bytes * f64)) f l : (∀ a, a ∈ l → f a = match g a with Some e => remove_child e.1 e.2 | None => mret () end) →
  steady (for_each l f) ∧ (∀ d, fates d = [] → ∀ a e j, a ∈ l → g a = Some e → ¬ outdated (tree (for_each l f d).2) e.1 e.2 j).
Proof.
  intros Hfg. assert (∀ a, a ∈ l → steady (f a) ∧ follows (losing (λ _ _, True)) (f a)) as Hst.
  { intros a Ha. rewrite (Hfg a Ha). destruct (g a) as [e|]; [|split; [apply steady_ret|by apply follows_quiet]].
    split; [apply remove_child_steady|]. eapply losing_weaken, remove_child_falls. done. }
  split; [apply steady_for_each; intros a Ha; by apply Hst|]. induction l as [|a l IH]; intros d Hf b e j; [by intros ?%not_elem_of_nil|].
  cbn [for_each]. unfold mbind, fs_bind. destruct (Hst a ltac:(left)) as [Ha _]. destruct (Ha d) as (d1 & E & Hf1). rewrite E. specialize (Hf1 Hf).
  intros [->|Hb]%elem_of_cons Hg Ho; [|by eapply IH; [intros; apply Hfg; by right|intros; apply Hst; by right|exact Hf1|exact Hb|exact Hg|]].
  assert (follows (losing (λ _ _, True)) (for_each l f)) as Hl by (apply losing_for_each; [done|]; intros x Hx; apply Hst; by right).
  assert (monotone (λ _ _, True)) as HQ by done. pose proof (shrinks _ _ d1 HQ Hl) as Hs. apply (outdated_mono _ _ _ _ _ Hs) in Ho. rewrite (Hfg a ltac:(left)), Hg in E.
  apply (remove_child_gone e.1 e.2 d j Hf). by rewrite E.
Qed.
End revoking.

(** ** What a parent revokes *)

(** [new], stored under [inner] in the place of [old], revokes the content under [c]
    as of [cutoff]: by a new or changed entry of its archive, or as one of those
    below its directory when the date for all of them changed. The flag says that it
    is by date. *)
Inductive archives (root : fpath) (lossy : bytes → bytes) (inner : bytes) (old : option json) (new : json) : bool → bytes → f64 → Prop :=
| by_name uc archived name cutoff :
    jget new (bstr "user_contents") = Some uc → get_object uc (bstr "archived") = Some archived →
    (name, cutoff) ∈ archived_changes (o ← old; u ← jget o (bstr "user_contents"); get_object u (bstr "archived")) archived →
    archives root lossy inner old new false (dir_prefix inner ++ name ++ bstr "/content.json") cutoff
| by_date uc c :
    jget new (bstr "user_contents") = Some uc → c ≠ inner → content_below root lossy (names (joined root (dir_prefix inner))) c →
    f64_lt f64_zero (number_or_zero (jget uc (bstr "archived_before"))) = true →
    SFeqb (number_or_zero (jget uc (bstr "archived_before"))) (number_or_zero (o ← old; u ← jget o (bstr "user_contents"); jget u (bstr "archived_before"))) = false →
    archives root lossy inner old new true c (number_or_zero (jget uc (bstr "archived_before"))).

Lemma ancestor_dir t start q n : tree_wf t → below start q → t !! q = Some n → t !! start = Some Dir.
Proof.
  intros Hw [[rel ->] Hne]. revert n Hne. induction rel as [|x rel IH] using rev_ind; intros n Hne Hq; [by rewrite app_nil_r in Hne|].
  pose proof (Hw _ _ Hq) as H. rewrite app_assoc, removelast_last in H. specialize (H ltac:(by destruct (start ++ rel))). destruct rel as [|y rel]; [by rewrite app_nil_r in H|].
  eapply IH; [|exact H]. intros E. apply (f_equal length) in E. rewrite length_app in E. cbn in E. lia.
Qed.

Section archiving.
Context (from_slice : bytes → option json) (root : fpath) (dir_order : list bytes → list bytes) (lossy : bytes → bytes).
Abbreviation remove_child := (remove_child_if_older from_slice root).
Abbreviation archiving_of := (apply_archived from_slice root dir_order lossy).
Abbreviation children_under := (child_contents_under root dir_order lossy).
Abbreviation archives := (archives root lossy).
Abbreviation falls := (falls from_slice root).
Abbreviation outdated := (outdated from_slice root).

(** [c] stands for one path only in the listing, its own. *)
Definition listed_as_is (inner c : bytes) : Prop := ∀ q, below (names (joined root (dir_prefix inner))) q → inner_name root lossy q = c → names (joined root c) = q.

(** Some content revoked takes [q] with it. *)
Definition revoked (inner : bytes) (old : option json) (new : json) (t : Tree) (q : fpath) : Prop :=
  ∃ dated c cutoff, archives inner old new dated c cutoff ∧ falls c cutoff t q.

Lemma revoked_monotone inner old new : monotone (revoked inner old new).
Proof. intros t t' q Hs (f & c & k & Ha & Hf). exists f, c, k. split; [done|]. by eapply falls_monotone. Qed.

Lemma calm_children dir : calm (children_under dir).
Proof. unfold child_contents_under. apply calm_bind; [apply calm_the_tree|]. intros t. apply calm_child_loop. Qed.

Lemma children_sound dir d l d' : children_under dir d = (Ok l, d') → Forall (content_below root lossy (names (joined root dir))) l.
Proof. unfold child_contents_under, mbind, fs_bind, the_tree. apply child_loop_sound; [by constructor|constructor]. Qed.

Lemma child_loop_ok fuel : ∀ stack out d, ∃ l d', child_loop root dir_order lossy fuel stack out d = (Ok l, d') ∧ (fates d = [] → d' = d).
Proof.
  induction fuel as [|fuel IH]; intros stack out d; cbn [child_loop]; [by exists out, d|]. destruct stack as [|dir stack]; [by exists out, d|].
  destruct (fate_spec d) as (f & d1 & E & _ & Hi). unfold mbind at 1, fs_bind at 1. rewrite E. unfold mbind, fs_bind, the_tree.
  assert (∀ stack out, ∃ l d', child_loop root dir_order lossy fuel stack out d1 = (Ok l, d') ∧ (fates d = [] → d' = d)) as H.
  { intros st o. destruct (IH st o d1) as (l & d' & E1 & Hd). exists l, d'. split; [done|]. intros Hf. pose proof (idle_same _ _ Hf Hi) as ->. auto. }
  destruct f; [apply H|]. destruct (tree d1 !! dir) as [[|b s m]|]; [|apply H..]. destruct (child_dir _ _ _ _ _ _ _). apply H.
Qed.

Lemma children_complete (order_perm : ∀ l, dir_order l ≡ₚ l) dir d l d' q b s m : fates d = [] → tree_wf (tree d) → children_under dir d = (Ok l, d') →
  below (names (joined root dir)) q → last q = Some root_path → tree d !! q = Some (File b s m) → inner_name root lossy q ∈ l.
Proof.
  intros Hf Hw E Hb Hl Hq. unfold child_contents_under, mbind, fs_bind, the_tree in E. set (start := names (joined root dir)) in *.
  destruct (child_loop_complete root dir_order lossy order_perm start d (Datatypes.S (size (tree d))) [] [start] [] Hf) as (V & out & E1 & Hwalk);
    [by apply walking_start; eapply ancestor_dir|cbn; lia|]. rewrite E1 in E. injection E as <- _.
  eapply (walked_all _ _ _ _ V out Hw Hwalk); [done|done|exact Hq|]. rewrite Hl. by apply bool_decide_eq_true.
Qed.

(** The two halves of [apply_archived]. *)
Definition named (inner : bytes) (old : option json) (uc : json) : Fs () :=
  match get_object uc (bstr "archived") with
  | None => mret ()
  | Some archived =>
    for_each (archived_changes (o ← old; u ← jget o (bstr "user_contents"); get_object u (bstr "archived")) archived)
      (λ e, remove_child (dir_prefix inner ++ e.1 ++ bstr "/content.json") e.2)
  end.
Definition dated (inner : bytes) (old : option json) (uc : json) : Fs () :=
  let before := number_or_zero (jget uc (bstr "archived_before")) in
  if f64_lt f64_zero before && negb (SFeqb before (number_or_zero (o ← old; u ← jget o (bstr "user_contents"); jget u (bstr "archived_before")))) then
    cs ← children_under (dir_prefix inner);
    for_each cs (λ c, if bool_decide (c = inner) then mret () else remove_child c before)
  else mret ().

Lemma apply_archived_eq inner old new uc : jget new (bstr "user_contents") = Some uc → archiving_of inner old new = (named inner old uc ≫= λ _, dated inner old uc).
Proof. intros E. unfold apply_archived, named, dated. rewrite E. by destruct old. Qed.

Section halves.
Context (inner : bytes) (old : option json) (new uc : json) (Hu : jget new (bstr "user_contents") = Some uc).
#[local] Instance revoked_preorder : PreOrder (losing (revoked inner old new)) := losing_preorder _ (revoked_monotone inner old new).

Lemma named_falls : follows (losing (revoked inner old new)) (named inner old uc).
Proof.
  unfold named. destruct (get_object uc (bstr "archived")) as [archived|] eqn:Ea; [|by apply follows_quiet]. apply (losing_for_each _ (revoked_monotone inner old new)). intros [name k] He.
  eapply losing_weaken, remove_child_falls. intros t q Hq. eexists _, _, _. split; [|exact Hq]. by eapply by_name.
Qed.

Lemma dated_falls : follows (losing (revoked inner old new)) (dated inner old uc).
Proof.
  unfold dated. destruct (f64_lt _ _) eqn:E1; [|by apply follows_quiet]. destruct (SFeqb _ _) eqn:E2; [by apply follows_quiet|]. cbn [negb andb].
  refine (follows_bind_ok _ (Forall (content_below root lossy (names (joined root (dir_prefix inner))))) _ _ _ _ _); [by apply follows_quiet, calm_children| |].
  - intros d l El. destruct (children_under (dir_prefix inner) d) as [r d'] eqn:E. cbn in El. subst r. by eapply children_sound.
  - intros l Hl. rewrite Forall_forall in Hl. apply (losing_for_each _ (revoked_monotone inner old new)). intros c Hc. case_bool_decide; [by apply follows_quiet|].
    eapply losing_weaken, remove_child_falls. intros t q Hq. eexists _, _, _. split; [|exact Hq]. eapply by_date; [done|done|by apply Hl|done..].
Qed.

Lemma named_all : steady (named inner old uc) ∧ ∀ archived d e j, get_object uc (bstr "archived") = Some archived → fates d = [] →
  e ∈ archived_changes (o ← old; u ← jget o (bstr "user_contents"); get_object u (bstr "archived")) archived →
  ¬ outdated (tree (named inner old uc d).2) (dir_prefix inner ++ e.1 ++ bstr "/content.json") e.2 j.
Proof.
  unfold named. destruct (get_object uc (bstr "archived")) as [archived|]; [|split; [apply steady_ret|done]].
  match goal with |- steady (for_each ?l ?f) ∧ _ =>
    destruct (revoke_all from_slice root (λ e : bytes * f64, Some (dir_prefix inner ++ e.1 ++ bstr "/content.json", e.2)) f l) as [Hst Hgone]; [done|] end.
  split; [done|]. intros ? d e j [= <-] Hf He. exact (Hgone d Hf e (_, _) j He eq_refl).
Qed.

Lemma dated_all : steady (dated inner old uc).
Proof.
  unfold dated. destruct (_ && _); [|apply steady_ret]. intros d. unfold mbind, fs_bind.
  destruct (child_loop_ok (Datatypes.S (size (tree d))) [names (joined root (dir_prefix inner))] [] d) as (l & d1 & E & Hd).
  change (children_under (dir_prefix inner) d = (Ok l, d1)) in E. rewrite E.
  assert (steady (for_each l (λ c, if bool_decide (c = inner) then mret () else remove_child c (number_or_zero (jget uc (bstr "archived_before")))))) as Hst.
  { apply steady_for_each. intros c _. case_bool_decide; [apply steady_ret|apply remove_child_steady]. }
  destruct (Hst d1) as (d2 & E2 & H2).
  exists d2. split; [done|]. intros H. rewrite (Hd H) in H2. auto.
Qed.

Lemma dated_gone (order_perm : ∀ l, dir_order l ≡ₚ l) d c j : fates d = [] → tree_wf (tree d) → c ≠ inner → content_below root lossy (names (joined root (dir_prefix inner))) c →
  listed_as_is inner c →
  let before := number_or_zero (jget uc (bstr "archived_before")) in
  f64_lt f64_zero before && negb (SFeqb before (number_or_zero (o ← old; u ← jget o (bstr "user_contents"); jget u (bstr "archived_before")))) = true →
  ¬ outdated (tree (dated inner old uc d).2) c before j.
Proof.
  intros Hf Hw Hne (q & Hb & Hl & ->) Hname before Hg Ho. specialize (Hname q Hb eq_refl).
  assert (Hs : tree (dated inner old uc d).2 ⊆ tree d) by (eapply shrinks; [apply (revoked_monotone inner old new)|apply dated_falls]).
  pose proof Ho as (b & Hd & _). apply (on_disk_mono _ _ _ _ _ Hs), on_disk_path in Hd as (_ & _ & _ & s & m & Hq). rewrite Hname in Hq.
  unfold dated in Ho. fold before in Ho. rewrite Hg in Ho. unfold mbind, fs_bind in Ho.
  destruct (child_loop_ok (Datatypes.S (size (tree d))) [names (joined root (dir_prefix inner))] [] d) as (l & d1 & E & Hd1). rewrite (Hd1 Hf) in E.
  change (children_under (dir_prefix inner) d = (Ok l, d)) in E. rewrite E in Ho. pose proof (children_complete order_perm _ _ _ _ _ _ _ _ Hf Hw E Hb Hl Hq) as Hin.
  match type of Ho with context [for_each l ?f] =>
    destruct (revoke_all from_slice root (λ c, if bool_decide (c = inner) then None else Some (c, before)) f l) as [_ Hgone]; [by intros a _; case_bool_decide|] end.
  eapply (Hgone d Hf _ (_, before)); [exact Hin|by rewrite bool_decide_eq_false_2|exact Ho].
Qed.
End halves.

Lemma apply_archived_falls inner old new : follows (losing (revoked inner old new)) (archiving_of inner old new).
Proof.
  destruct (jget new (bstr "user_contents")) as [uc|] eqn:Eu; [|apply follows_quiet; intros d; unfold apply_archived; by rewrite Eu].
  rewrite (apply_archived_eq _ _ _ _ Eu). pose proof (losing_preorder _ (revoked_monotone inner old new)). refine (follows_bind _ _ _ _ _); [by apply named_falls|]. intros _. by apply dated_falls.
Qed.

Lemma apply_archived_steady inner old new : steady (archiving_of inner old new).
Proof.
  destruct (jget new (bstr "user_contents")) as [uc|] eqn:Eu; [|intros d; unfold apply_archived; rewrite Eu; apply steady_ret].
  rewrite (apply_archived_eq _ _ _ _ Eu). apply steady_bind; [apply named_all|apply dated_all].
Qed.

(** With no refused call no revoked content is left. *)
Lemma apply_archived_gone (order_perm : ∀ l, dir_order l ≡ₚ l) inner old new d by_date c cutoff j : fates d = [] → tree_wf (tree d) → archives inner old new by_date c cutoff →
  (by_date = true → listed_as_is inner c) →
  ¬ outdated (tree (archiving_of inner old new d).2) c cutoff j.
Proof.
  intros Hf Hw Ha Hname. assert (∃ uc, jget new (bstr "user_contents") = Some uc) as [uc Eu] by (destruct Ha; eauto). rewrite (apply_archived_eq _ _ _ _ Eu).
  destruct (named_all inner old uc) as [Hst Hnamed]. destruct (Hst d) as (d1 & E1 & Hf1). specialize (Hf1 Hf). unfold mbind, fs_bind. rewrite E1.
  destruct Ha as [uc' archived name cutoff Eu' Ea Hin|uc' c Eu' Hne Hc Hlt Heq]; rewrite Eu in Eu'; injection Eu' as <-.
  - intros Ho. specialize (Hnamed archived d (name, cutoff) j Ea Hf Hin). rewrite E1 in Hnamed. apply Hnamed. eapply outdated_mono; [|exact Ho].
    eapply shrinks; [apply (revoked_monotone inner old new)|by apply dated_falls].
  - apply (dated_gone inner old new uc Eu); [done|done| |done|done|by apply Hname|by rewrite Hlt, Heq].
    pose proof (losing_preorder _ (revoked_monotone inner old new)). pose proof (follows_now _ _ d (named_falls inner old new uc Eu)) as [[_ Hk] _]. rewrite E1 in Hk. by apply Hk.
Qed.

(** What was archived before is not archived again. *)
Definition numeric_dates (j : json) : Prop := ∀ uc archived, jget j (bstr "user_contents") = Some uc → get_object uc (bstr "archived") = Some archived →
  bt_wf archived ∧ ∀ e, e ∈ archived → ∃ f, as_f64 e.2 = Some f ∧ SFeqb f f = true.

Lemma positive_eq x : f64_lt f64_zero x = true → SFeqb x x = true.
Proof. destruct x as [s|[]| |[] m e]; try done. intros _. unfold SFeqb. cbn. by rewrite Z.compare_refl, Pos.compare_cont_refl. Qed.

Lemma archived_unchanged archived : bt_wf archived → (∀ e, e ∈ archived → ∃ f, as_f64 e.2 = Some f ∧ SFeqb f f = true) → archived_changes (Some archived) archived = [].
Proof.
  intros Hw Hd. unfold archived_changes. apply elem_of_nil_inv. intros [n k] (e & He & Hc)%list_elem_of_omap. destruct (Hd e He) as (f & Hf & Hr).
  destruct e as [n' v]. assert (bt_get archived n' = Some v) as Hg by (by apply bt_get_elem). cbn [fst snd mbind option_bind] in *. rewrite Hg in Hc. cbn [mbind option_bind] in Hc. rewrite Hf in Hc.
  cbn [from_option] in Hc. unfold id in Hc. by rewrite Hr in Hc.
Qed.

Lemma apply_archived_again inner j d : numeric_dates j → archiving_of inner (Some j) j d = (Ok (), d).
Proof.
  intros Hn. destruct (jget j (bstr "user_contents")) as [uc|] eqn:Eu; [|unfold apply_archived; by rewrite Eu].
  rewrite (apply_archived_eq _ _ _ _ Eu). unfold named, dated. cbn [mbind option_bind]. rewrite Eu. cbn [mbind option_bind].
  assert (∀ b, f64_lt f64_zero b && negb (SFeqb b b) = false) as -> by (intros b; destruct (f64_lt f64_zero b) eqn:E; [by rewrite (positive_eq _ E)|done]).
  destruct (get_object uc (bstr "archived")) as [archived|] eqn:Ea; [|done]. destruct (Hn uc archived Eu Ea) as [Hw Hd]. by rewrite archived_unchanged.
Qed.
End archiving.

(** ** A write that went through *)

Lemma bind_inv {A B} (m : Fs A) (f : A → Fs B) d b d' : (m ≫= f) d = (Ok b, d') → ∃ a d1, m d = (Ok a, d1) ∧ f a d1 = (Ok b, d').
Proof. unfold mbind, fs_bind. destruct (m d) as [[a|e] d1]; [eauto|done]. Qed.

Lemma lift_inv {A} (r : result CoreError A) d a d' : lift r d = (Ok a, d') → r = Ok a ∧ d' = d.
Proof. by intros [= -> ->]. Qed.

(** Every entry lies in a directory, from the top on. *)
Definition grounded (t : Tree) : Prop := tree_wf t ∧ t !! [] = Some Dir.

Lemma grounded_insert t q n : grounded t → q ≠ [] → t !! removelast q = Some Dir → t !! q ≠ Some Dir → grounded (<[q := n]> t).
Proof.
  intros [Hw H0] Hne Hp Hq. split; [|by rewrite lookup_insert_ne].
  intros k m Hk Hk0. destruct (decide (removelast k = q)) as [E|E].
  - destruct (decide (k = q)) as [->|Hkq]; [rewrite E, lookup_insert_eq; destruct (exists_last Hne) as (l & x & ->); rewrite removelast_last in E; apply (f_equal length) in E; rewrite length_app in E; cbn in E; lia|].
    rewrite lookup_insert_ne in Hk by done. pose proof (Hw _ _ Hk Hk0). congruence.
  - rewrite lookup_insert_ne by done. destruct (decide (k = q)) as [->|Hkq]; [done|]. rewrite lookup_insert_ne in Hk by done. by eapply Hw.
Qed.

Lemma make_dirs_grounded q n t t' : make_dirs q n t = Some t' → (n <= length q)%nat → grounded t → grounded t'.
Proof.
  revert t'. induction n as [|n IH]; intros t' H Hn Hg; cbn [make_dirs] in H; [by injection H as <-|].
  destruct (make_dirs q n t) as [t1|] eqn:E; [|done]. cbn [mbind option_bind] in H. specialize (IH t1 eq_refl ltac:(lia) Hg).
  destruct (t1 !! take (Datatypes.S n) q) as [[|]|] eqn:E1; [by injection H as <-|done|]. injection H as <-.
  apply grounded_insert; [done|destruct q; [cbn in Hn; lia|done]| |congruence].
  assert (removelast (take (Datatypes.S n) q) = take n q) as ->.
  { destruct (lookup_lt_is_Some_2 q n ltac:(lia)) as [x Hx]. by rewrite (take_S_r _ _ _ Hx), removelast_last. }
  destruct (make_dirs_spec _ _ _ _ E ltac:(lia)) as [Hd _]. destruct n as [|n]; [apply IH|by apply Hd].
Qed.

Section writing.
Context (root : fpath).

Lemma write_done inner b d d' : write root inner b d = (Ok (), d') → on_disk root (tree d') inner = Some b ∧ (grounded (tree d) → grounded (tree d')).
Proof.
  intros H. unfold write in H. apply bind_inv in H as (p & d0 & [Hp ->]%lift_inv & H). apply path_names in Hp as Hp'. subst p. apply bind_inv in H as ([] & d1 & E1 & H).
  unfold fs_write in H. apply bind_inv in H as (q & d2 & E2 & E3).
  destruct (fs_create_spec (joined root inner) d1) as (r & d2' & E & Hr). rewrite E in E2. injection E2 as -> ->. destruct Hr as (-> & Hpar & Hnd & Hn & Ht & Hm).
  destruct (fs_write_all_spec (names (joined root inner)) b d2) as (r & d3 & b' & E' & Hm' & Hb). rewrite E' in E3. injection E3 as -> ->. rewrite (Hb eq_refl) in Hm'.
  apply moved_now in Hm as [T2 _], Hm' as [T3 _]. rewrite T2, insert_insert_eq in T3. split.
  - unfold on_disk. rewrite Hp. cbn [ok mbind option_bind]. by rewrite Ht, Hn, T3, lookup_insert_eq.
  - intros Hg. rewrite T3. unfold parent_is_dir in Hpar. apply bool_decide_eq_true in Hpar as [Hne Hpar]. apply grounded_insert; [|done..].
    destruct (parent_of (joined root inner)) as [p|]; [|by injection E1 as <-]. destruct (create_dir_all_spec p d) as (r & dd & E4 & _). unfold create_dir_all in E1. clear E4.
    apply bind_inv in E1 as (f & e1 & Ef & E1). destruct (fate_spec d) as (f' & e1' & Ef' & _ & Hi). rewrite Ef in Ef'. injection Ef' as <- <-. apply idle_now in Hi as [Hi _].
    apply bind_inv in E1 as (q & e2 & Eq & E1). unfold usable in Eq. destruct (nul p); [done|]. injection Eq as <- <-. cbv beta zeta in E1.
    unfold mbind at 1, fs_bind at 1, the_tree in E1. rewrite Hi in E1. destruct (make_dirs (names p) _ (tree d)) as [t|] eqn:Em; [|done].
    apply bind_inv in E1 as ([] & e3 & [= <-] & E1). destruct f; [done|]. injection E1 as <-. cbn. eapply make_dirs_grounded; [exact Em|lia|done].
Qed.

Lemma unhindered_write inner b : unhindered (write root inner b).
Proof.
  unfold write. apply unhindered_bind; [by intros ?|]. intros p. apply unhindered_bind.
  - destruct (parent_of p) as [q|]; [|by intros ?]. apply unhindered_call. intros d. destruct (create_dir_all_spec q d) as (r & d' & -> & [[[H _] _]|(t & [H _] & _)]); exact H.
  - intros _. apply unhindered_bind.
    + apply unhindered_call. intros d. destruct (fs_create_spec p d) as (r & d' & -> & H). destruct r; [destruct H as (_ & _ & _ & _ & _ & [H _])|destruct H as [H _]]; exact H.
    + intros q. apply unhindered_call. intros d. destruct (fs_write_all_spec q b d) as (r & d' & b' & -> & [H _] & _). exact H.
Qed.
End writing.

(** ** Adopting a content *)

Section adopting.
Context `{C : Crypto} (float_to_string : Z → bytes) (regex_is_match : bytes → bytes → option bool).
Context (from_slice : bytes → option json) (json_error : bytes → bytes).
Context (root : fpath) (dir_order : list bytes → list bytes) (lossy : bytes → bytes) (glitch : Disk → bytes → bool).
Abbreviation adopt := (add_content float_to_string regex_is_match from_slice json_error root dir_order lossy glitch).

(** The bytes parse and pass every check made of a content at [inner]. *)
Definition accepted (x : Xite) (inner b : bytes) (xid_map : btree bytes (list bytes)) (d : Disk) (j : json) : Prop :=
  from_slice b = Some j ∧
  verify_content_file float_to_string regex_is_match from_slice inner j (blen b) (child_ctx from_slice root glitch x xid_map d) = Ok ().

End adopting.

(** ** Runs *)

Section runs.
#[local] Existing Instance toy_crypto.
Definition bob_content : json := JObj [(bstr "files", JObj [(bstr "p.txt", JNull)]); (bstr "modified", JInt 3)].
Definition parent_content : json := Eval vm_compute in
  (sign_content (λ _, []) (JObj [(bstr "user_contents", JObj [(bstr "archived", JObj [(bstr "bob", JInt 5)])])]) toy_key).1.
Definition demo_slice (s : bytes) : option json := if bool_decide (s = bstr "bob") then Some bob_content else if bool_decide (s = bstr "parent") then Some parent_content else None.
Definition demo_xite : Xite := mkXite toy_addr (Some (JObj [(bstr "includes", JObj [(bstr "u/content.json", JObj [(bstr "signers", JArr [JStr toy_addr])])])])).
Definition demo_tree : Tree := list_to_map [([], Dir); ([bstr "x"], Dir); ([bstr "x"; bstr "u"], Dir); ([bstr "x"; bstr "u"; bstr "bob"], Dir);
  ([bstr "x"; bstr "u"; bstr "bob"; root_path], File (bstr "bob") true 1); ([bstr "x"; bstr "u"; bstr "bob"; bstr "p.txt"], File (bstr "post") true 1);
  ([bstr "x"; bstr "u"; bstr "p.txt"], File (bstr "other") true 1)].
Abbreviation demo_adopt := (add_content (λ _, []) (λ _ _, None) demo_slice (λ _, []) [bstr "x"] (λ l, l) (λ b, b) (λ _ _, false)
  demo_xite (bstr "u/content.json") (bstr "parent") [] (mkDisk demo_tree [] 9 [])).

(** The parent archives bob: his directory goes, the rest stays. *)
Example bob_archived : demo_adopt.1 = Ok [] ∧ size (tree demo_adopt.2) = 5%nat ∧
  tree demo_adopt.2 !! [bstr "x"; bstr "u"; bstr "bob"] = None ∧
  tree demo_adopt.2 !! [bstr "x"; bstr "u"; root_path] = Some (File (bstr "parent") false 9) ∧
  tree demo_adopt.2 !! [bstr "x"; bstr "u"; bstr "p.txt"] = Some (File (bstr "other") true 1).
Proof. split_and!; vm_compute; reflexivity. Qed.

End runs.
