(* ===== verification/XiteSign.v ===== *)
(** * Signing a xite ([crates/epix-xite/src/xite.rs])

    The signing of the root content.json: listing and hashing the files with the
    stat cache, the optional and merged files declared before, encrypted shards,
    bundles and the manifest stamp, signature and commit; and the signing of one
    below it, which goes through the verification a peer would do. *)
From Stdlib Require Import ZArith Lia Strings.Byte Floats.SpecFloat.
From stdpp Require Import base list gmap strings sets.
From S2P Require Import Prelude Ordered Json Text Canonical Crypt Content Verify SelfEnc Bundle Manifest Pretty Files Xite.
#[local] Open Scope Z_scope.

Definition SIGN_CACHE : bytes := bstr ".sign-cache.json".

Record CachedHash := mkCached { csize : Z; mtime_ns : Z; csha512 : bytes; cb3 : bytes }.
(** A [HashMap]: its order does not matter to what is read from it. *)
Abbreviation SignCache := (btree bytes CachedHash).

Record SignOpts := mkOpts { full : bool; keep_missing_optional : bool }.

(** A compiled pattern; [None] where the match itself fails. *)
Abbreviation Regex := (bytes → option bool).

(** [f64::fract] is zero, and the whole number as an [i64]. *)
Definition f64_whole (x : f64) : option Z :=
  let clamp z := Z.max i64_min (Z.min z i64_max) in
  let signed (s : bool) z := if s then - z else z in
  match x with
  | S754_zero _ => Some 0
  | S754_finite s m e =>
    if 0 <=? e then Some (clamp (signed s (Z.pos m * 2 ^ e)))
    else if Z.pos m mod 2 ^ (- e) =? 0 then Some (clamp (signed s (Z.pos m / 2 ^ (- e)))) else None
  | _ => None
  end.

Definition is_finite (x : f64) : bool := match x with S754_zero _ | S754_finite _ _ _ => true | _ => false end.

(** The [modified] field; [bits] are those of the [f64] passed in. *)
Definition modified_json (bits : Z) : json :=
  match f64_whole (f64_of_bits bits) with
  | Some z => JInt z
  | None => if is_finite (f64_of_bits bits) then JFloat bits else JNull
  end.

Section sign.
Context `{C : Crypto} (float_to_string : Z → bytes) `{R : Regexes} (regex_is_match : bytes → bytes → option bool).
(** [fancy_regex::Regex::new]. *)
Context (fancy_new : bytes → option Regex).
Context (from_slice : bytes → option json) (to_vec : json → bytes) (json_error : bytes → bytes).
(** The cache's own form. *)
Context (cache_to_vec : SignCache → bytes) (cache_from_slice : bytes → option SignCache).
Context (root : fpath) (dir_order : list bytes → list bytes) (lossy : bytes → bytes).
Context (sha512 blake3 : bytes → bytes) (derive_key : bytes → bytes → Hash) (seal : Hash → bytes → bytes → bytes).
Context (glitch : Disk → bytes → bool).

Abbreviation read := (Files.read root).
Abbreviation list_files := (list_files root dir_order lossy).

(** ** Hashing *)

Definition stat_size_mtime (inner : bytes) : Fs (option (Z * Z)) :=
  match storage_path root inner with
  | Err _ => mret None
  | Ok p => m ← attempt (metadata p); mret (match m with Some (File b _ t) => Some (blen b, if t <? 0 then 0 else wrap_i64 t) | _ => None end)
  end.

Definition reuse_cached (rel : bytes) (stat : option (Z * Z)) (is_optional : bool) (cache : option SignCache) : option CachedHash :=
  s ← stat;
  if negb is_optional && is_bundleable s.1 then None else
  c ← (c ← cache; bt_get c rel);
  if (csize c =? s.1) && (mtime_ns c =? s.2) then Some c else None.

(** [json!({ "size": .., "sha512": .., "b3": .. })]. *)
Definition entry_json (size : Z) (sha b3 : bytes) : json := JObj [(bstr "b3", JStr b3); (bstr "sha512", JStr sha); (bstr "size", JInt size)].

Definition hash_entry (rel b : bytes) (stat : option (Z * Z)) (fresh : SignCache) : json * SignCache :=
  let sha := hash_bytes sha512 b in let b3 := to_hex (blake3 b) in
  (entry_json (blen b) sha b3,
   match stat with
   | Some s => if s.1 =? blen b then bt_insert rel (mkCached s.1 s.2 sha b3) fresh else fresh
   | None => fresh
   end).

Definition skip_hashing (rel : bytes) : bool :=
  let base := match rsplit_once x2f rel with Some (_, b) => b | None => rel end in
  starts_with (bstr ".") base || ends_with rel (bstr "-old") || ends_with rel (bstr "-new").

Definition path_pattern (pat : option json) : option Regex :=
  pat ← (v ← pat; as_str v); if bool_decide (pat = []) then None else fancy_new (bstr "^(?:" ++ pat ++ bstr ")").
Definition pattern_matches (re : option Regex) (rel : bytes) : bool := match re with Some re => default false (re rel) | None => false end.

Definition unit_file_class (rel : bytes) (nested_dirs : list bytes) (declared_optional declared_merged : btree bytes json)
    (ignore optional : option Regex) : option bool :=
  if bool_decide (rel = root_path) || ends_with rel (bstr "/content.json") then None
  else if skip_hashing rel || pattern_matches ignore rel then None
  else if bt_contains declared_merged rel then None
  else if existsb (λ d, starts_with d rel) nested_dirs then None
  else let is_optional := pattern_matches optional rel in
       if negb is_optional && bt_contains declared_optional rel then None else Some is_optional.

(** What a unit hashes to so far: [files], [files_optional], the bytes of the
    files to bundle, the new cache. *)
Record Hashed := mkHashed { h_files : btree bytes json; h_optional : btree bytes json; h_bytes : btree bytes bytes; h_cache : SignCache }.

Definition add_entry (is_optional : bool) (rel : bytes) (entry : json) (st : Hashed) : Hashed :=
  if is_optional then mkHashed (h_files st) (bt_insert rel entry (h_optional st)) (h_bytes st) (h_cache st)
  else mkHashed (bt_insert rel entry (h_files st)) (h_optional st) (h_bytes st) (h_cache st).

Definition cached_json (c : CachedHash) : json := entry_json (csize c) (csha512 c) (cb3 c).

Definition hash_file (inner rel : bytes) (is_optional : bool) (cache : option SignCache) (st : Hashed) : Fs Hashed :=
  stat ← stat_size_mtime inner;
  match reuse_cached rel stat is_optional cache with
  | Some hit => mret (add_entry is_optional rel (cached_json hit) (mkHashed (h_files st) (h_optional st) (h_bytes st) (bt_insert rel hit (h_cache st))))
  | None =>
    b ← read inner;
    let '(entry, fresh) := hash_entry rel b stat (h_cache st) in
    let hashed := if negb is_optional && is_bundleable (blen b) then bt_insert rel b (h_bytes st) else h_bytes st in
    mret (add_entry is_optional rel entry (mkHashed (h_files st) (h_optional st) hashed fresh))
  end.

Fixpoint hash_loop (prefix : bytes) (class : bytes → option bool) (cache : option SignCache) (listing : list bytes) (st : Hashed) : Fs Hashed :=
  match listing with
  | [] => mret st
  | inner :: listing =>
    match (rel ← str_strip_prefix prefix inner; o ← class rel; Some (rel, o)) with
    | None => hash_loop prefix class cache listing st
    | Some (rel, is_optional) => st ← hash_file inner rel is_optional cache st; hash_loop prefix class cache listing st
    end
  end.

(** The directories with a content.json of their own. *)
Definition nested_dirs_of (prefix : bytes) (listing : list bytes) : list bytes :=
  omap (λ f, rel ← str_strip_prefix prefix f;
             if ends_with rel (bstr "/content.json") then Some (take (length rel - length root_path) rel) else None) listing.

Definition hash_unit_files (dir : bytes) (declared_optional declared_merged : btree bytes json) (ignore optional : option Regex)
    (cache : option SignCache) : Fs Hashed :=
  let prefix := if bool_decide (dir = []) then [] else dir ++ bstr "/" in
  listing ← list_files;
  hash_loop prefix (λ rel, unit_file_class rel (nested_dirs_of prefix listing) declared_optional declared_merged ignore optional)
    cache listing (mkHashed [] [] [] []).

Definition load_sign_cache (full : bool) : Fs SignCache :=
  if full then mret [] else b ← attempt (read SIGN_CACHE); mret (default [] (b ← b; cache_from_slice b)).

Definition merge_files_optional (m files_optional declared_optional : btree bytes json) : btree bytes json :=
  let merged := foldl (λ m (e : bytes * json), bt_or_insert e.1 e.2 m) files_optional declared_optional in
  match merged with [] => m | _ => bt_insert (bstr "files_optional") (JObj merged) m end.

(** [retain]: the entries whose file is there. *)
Fixpoint retain_present (m : btree bytes json) : Fs (btree bytes json) :=
  match m with
  | [] => mret []
  | e :: m => there ← exists_ root e.1; m ← retain_present m; mret (if there : bool then e :: m else m)
  end.

(** ** Shards *)

(** [ensure_edx_salt]; [rnd] are the 32 bytes of [new_seed]. *)
Definition ensure_edx_salt (rnd : bytes) (c : json) : json * bytes :=
  match edx_salt c with
  | Some salt => (c, salt)
  | None =>
    let hex := to_hex rnd in
    (match c with JObj m => JObj (bt_insert (bstr "edx_salt") (JStr hex) m) | c => c end, default [] (hex_pairs (length hex / 2) hex))
  end.

Definition without (c : json) (k : bytes) : json := match c with JObj m => JObj (bt_remove k m) | c => c end.

(** [content.get_mut(key).as_object_mut().remove(path)]. *)
Definition without_path (c : json) (key path : bytes) : json :=
  match c with
  | JObj m => match bt_get m key with Some (JObj f) => JObj (bt_insert key (JObj (bt_remove path f)) m) | _ => c end
  | c => c
  end.

Definition shard_paths (c : json) (shard : option Regex) : list (bytes * bytes) :=
  concat (map (λ key, map (pair key) (List.filter (pattern_matches shard) (bt_keys (default [] (get_object c key)))))
    [bstr "files"; bstr "files_optional"]).

Definition shard_entry_of (b salt : bytes) : ShardEntry :=
  let enc := encrypt_convergent blake3 derive_key seal b salt in
  mkShardEntry (blen b) 0
    (zip_with (λ (c : ChunkRef) (s : Hash * bytes), mkShardChunk (SelfEnc.plain_hash c) (SelfEnc.cipher_addr c) (clen c) (wrap32 (blen s.2)))
       (SelfEnc.chunks enc) (SelfEnc.shards enc)).

Definition shard_missing (path : bytes) : CoreError :=
  CoreProtocol (path ++ bstr " matches the shard pattern but is not on disk, so it cannot be encrypted; fetch it or drop it from files_optional before signing").

(** The content is an object with no [files_shard] of another kind: [set_shard_entry]
    does not panic. *)
Fixpoint encrypt_paths (salt : bytes) (paths : list (bytes * bytes)) (c : json) : Fs json :=
  match paths with
  | [] => mret c
  | (key, path) :: paths =>
    b ← attempt (read path);
    match b with
    | None => fails (shard_missing path)
    | Some b => encrypt_paths salt paths (without_path (default c (set_shard_entry c path (shard_entry_of b salt))) key path)
    end
  end.

Definition encrypt_shard_files (rnd : bytes) (c : json) (shard : option Regex) : Fs json :=
  match shard with
  | None => mret c
  | Some _ =>
    let '(c, salt) := ensure_edx_salt rnd c in
    let c := without c (bstr "files_shard") in
    c ← encrypt_paths salt (shard_paths c shard) c;
    mret (match get_object c (bstr "files_optional") with Some [] => without c (bstr "files_optional") | _ => c end)
  end.

(** ** The manifest *)

Definition edx_file_roots (c : json) : btree bytes ObjId :=
  foldl (λ roots key,
    foldl (λ roots (e : bytes * json), match (s ← get_str e.2 (bstr "b3"); from_hex s) with Some id => bt_insert e.1 id roots | None => roots end)
      roots (default [] (get_object c key))) [] [bstr "files"; bstr "files_optional"].

(** The files of [files], in order. *)
Fixpoint bundle_inputs_loop (entries : btree bytes json) (hashed : btree bytes bytes) (out : btree bytes bytes) : Fs (btree bytes bytes) :=
  match entries with
  | [] => mret out
  | (path, e) :: entries =>
    if negb (is_bundleable (default 0 (get_u64 e (bstr "size")))) then bundle_inputs_loop entries hashed out else
    b ← (match bt_get hashed path with Some b => mret b | None => read path end);
    bundle_inputs_loop entries (bt_remove path hashed) (bt_insert path b out)
  end.
Definition edx_bundle_inputs (c : json) (hashed : btree bytes bytes) : Fs (btree bytes bytes) :=
  match get_object c (bstr "files") with None => mret [] | Some entries => bundle_inputs_loop entries hashed [] end.

Definition stamp_edx_manifest (x : Xite) (c : json) (hashed : btree bytes bytes) : Fs json :=
  let prev_bundles := match content x with Some c => prev_memberships c | None => [] end in
  let roots := edx_file_roots c in
  bundleable ← edx_bundle_inputs c hashed;
  mret (match apply_edx blake3 c roots (assign blake3 bundleable prev_bundles) with Some (c, _) => c | None => c end).

(** ** Signing *)

Definition sign_error (e : Content.Error) : CoreError := match e with ECrypt m => CoreCrypt m | EProtocol m => CoreProtocol m end.

Definition stamp (x : Xite) (inner : bytes) (modified : Z) (m : btree bytes json) : btree bytes json :=
  bt_insert (bstr "inner_path") (JStr inner) (bt_insert (bstr "address") (JStr (address x)) (bt_insert (bstr "modified") (modified_json modified) m)).

Definition declared (c : json) (key : bytes) : btree bytes json := default [] (get_object c key).

Definition sign_opts (rnd : bytes) (x : Xite) (privatekey : bytes) (modified : Z) (opts : SignOpts) : Fs Xite :=
  signer ← lift (map_err (λ _, CoreCrypt (bstr "that is not a valid private key")) (privatekey_to_address privatekey));
  if negb (bool_decide (signer = address x)) then
    fails (CoreCrypt (bstr "private key address " ++ signer ++ bstr " does not own xite " ++ address x)) else
  let c := default (JObj []) (content x) in
  declared_optional ← (if keep_missing_optional opts then mret (declared c (bstr "files_optional")) else retain_present (declared c (bstr "files_optional")));
  sign_cache ← load_sign_cache (full opts);
  h ← hash_unit_files [] declared_optional (declared c (bstr "files_merged")) (path_pattern (jget c (bstr "ignore")))
        (path_pattern (jget c (bstr "optional"))) (Some sign_cache);
  _ ← ignored (Files.write root SIGN_CACHE (cache_to_vec (h_cache h)));
  m ← lift (ok_or (as_object c) (CoreProtocol (bstr "content.json is not a JSON object")));
  let m := bt_insert (bstr "files") (JObj (h_files h)) m in
  let m := merge_files_optional m (h_optional h) declared_optional in
  let m := stamp x root_path modified m in
  let m := if bt_contains m (bstr "signs_required") then m else bt_insert (bstr "signs_required") (JInt 1) m in
  c1 ← encrypt_shard_files rnd (JObj m) (path_pattern (jget c (bstr "shard")));
  c2 ← stamp_edx_manifest x c1 (h_bytes h);
  let '(c3, r) := sign_content float_to_string c2 privatekey in
  _ ← lift (map_err sign_error r);
  _ ← write_atomic root root_path (dumps_content float_to_string c3);
  mret (mkXite (address x) (Some c3)).
Definition sign (rnd : bytes) (x : Xite) (privatekey : bytes) (modified : Z) : Fs Xite := sign_opts rnd x privatekey modified (mkOpts false false).

(** Cert fields are filled in where they are missing; merge files are united. *)
Definition apply_extend (m extend : btree bytes json) : btree bytes json :=
  foldl (λ m (e : bytes * json),
    if bool_decide (e.1 = bstr "files_merged") then
      let m := bt_or_insert (bstr "files_merged") (JObj []) m in
      match bt_get m (bstr "files_merged"), e.2 with
      | Some (JObj dst), JObj src => bt_insert (bstr "files_merged") (JObj (foldl (λ d (s : bytes * json), bt_or_insert s.1 s.2 d) dst src)) m
      | _, _ => m
      end
    else match bt_get m e.1 with None | Some JNull => bt_insert e.1 e.2 m | Some _ => m end) m extend.

Definition sign_child (x : Xite) (inner privatekey : bytes) (modified : Z) (extend : btree bytes json) (xid_map : btree bytes (list bytes)) : Fs json :=
  match rsplit_once x2f inner with
  | None => fails (CoreProtocol (bstr "not a child content.json: " ++ inner))
  | Some (dir, name) =>
    if negb (bool_decide (name = root_path)) then fails (CoreProtocol (bstr "can only sign content.json files: " ++ inner)) else
    b ← attempt (read inner);
    c ← (match b with Some b => lift (parse_content from_slice json_error b) | None => mret (JObj []) end);
    m ← lift (ok_or (as_object c) (CoreProtocol (bstr "content.json is not a JSON object")));
    let m := apply_extend m extend in
    d ← the_disk;
    _ ← (match get_rules regex_is_match inner (JObj m) (child_ctx from_slice root glitch x xid_map d) with
         | Some rules => prune_data_files from_slice to_vec root dir_order lossy dir rules (f64_of_bits modified)
         | None => mret () end);
    let declared_optional := declared (JObj m) (bstr "files_optional") in
    h ← hash_unit_files dir declared_optional (declared (JObj m) (bstr "files_merged")) (path_pattern (bt_get m (bstr "ignore")))
          (path_pattern (bt_get m (bstr "optional"))) None;
    let m := bt_insert (bstr "files") (JObj (h_files h)) m in
    let m := merge_files_optional m (h_optional h) declared_optional in
    let m := stamp x inner modified m in
    let '(c1, r) := sign_content float_to_string (JObj m) privatekey in
    _ ← lift (map_err sign_error r);
    _ ← add_content float_to_string regex_is_match from_slice json_error root dir_order lossy glitch x inner (dumps_content float_to_string c1) xid_map;
    mret c1
  end.
End sign.

(** ** Names *)

Lemma find_last {A} (l : list A) x : last l = Some x → l = removelast l ++ [x].
Proof. induction l as [|a [|b l] IH]; [done|by intros [= ->]|]. intros H. cbn [removelast app]. f_equal. by apply IH. Qed.

(** A path to a file ends in the last segment of its text. *)
Lemma file_base root rel : storage_path root rel = Ok (joined root rel) → trailing (joined root rel) = false →
  ∃ n l, last (split_on x2f rel) = Some n ∧ names (joined root rel) = root ++ l ++ [n].
Proof.
  intros Hp Ht. cbn in Ht. apply bool_decide_eq_false in Ht. destruct (last (split_on x2f rel)) as [n|] eqn:El; [|done]. cbn [mbind option_bind] in Ht.
  unfold storage_path in Hp. destruct (forallb safe_component (components rel)) eqn:Hs; [|done]. rewrite forallb_forall in Hs.
  assert (segment n = Some (Normal n)) as En.
  { destruct (segment n) as [c|] eqn:En; [|done]. assert (safe_component c = true) as Hc.
    { apply Hs. unfold components. apply in_or_app. right. apply list_elem_of_In, list_elem_of_omap. exists n. split; [|done]. rewrite (find_last _ _ El). apply elem_of_app. by right; left. }
    unfold segment in En. case_bool_decide; [done|]. case_bool_decide; injection En as <-; done. }
  exists n. unfold joined. cbn [names]. unfold components. rewrite omap_app, (find_last _ _ El), omap_app, omap_app. cbn [omap list_omap]. rewrite En. cbn [omap list_omap name_of].
  eexists (_ ++ _). split; [done|]. rewrite <- app_assoc. done.
Qed.

(** What is hashed is named neither as a content.json nor as a hidden file. *)
Lemma classed_base rel n nested opt merged ignore optional o : last (split_on x2f rel) = Some n →
  unit_file_class rel nested opt merged ignore optional = Some o → n ≠ root_path ∧ starts_with (bstr ".") n = false.
Proof.
  intros El Hc. unfold unit_file_class in Hc. destruct (bool_decide (rel = root_path)) eqn:E1; [done|]. apply bool_decide_eq_false in E1.
  destruct (ends_with rel (bstr "/content.json")) eqn:E2; [done|]. cbn [orb] in Hc. destruct (skip_hashing rel) eqn:E3; [done|]. clear Hc.
  unfold skip_hashing in E3. apply orb_false_iff in E3 as [E3 _]. apply orb_false_iff in E3 as [E3 _].
  pose proof (str_join_split x2f rel) as Hj. rewrite (find_last _ _ El) in Hj. unfold rsplit_once in E3. rewrite (find_last _ _ El), rev_app_distr in E3. cbn [rev app] in E3.
  destruct (decide (removelast (split_on x2f rel) = [])) as [Hr|Hr]; [rewrite Hr in *; cbn in *; split; congruence|].
  split; [|destruct (rev (removelast (split_on x2f rel))) eqn:Er; [|done]; by apply (f_equal (@rev _)) in Er; rewrite rev_involutive in Er].
  intros ->. rewrite str_join_snoc in Hj by done. change (x2f :: root_path) with (bstr "/content.json") in Hj.
  assert (ends_with rel (bstr "/content.json") = true) as H; [|congruence]. apply bool_decide_eq_true. unfold str_strip_suffix. rewrite <- Hj, length_app, Nat.add_sub, drop_app_length, bool_decide_eq_true_2 by done. eauto.
Qed.

Lemma single_name root n : segment n = Some (Normal n) → x2f ∉ n → names (joined root n) = root ++ [n].
Proof.
  intros Hs Hn. unfold joined. cbn [names]. unfold components. rewrite (split_on_single x2f n Hn). cbn [omap list_omap head]. rewrite Hs.
  assert (starts_with (bstr "/") n = false) as ->. { apply bool_decide_eq_false. destruct n as [|c n]; [done|]. intros [= ->]. apply Hn. left. }
  rewrite bool_decide_eq_false_2; [done|]. intros [= ->]. by vm_compute in Hs.
Qed.

Lemma content_name root : names (joined root root_path) = root ++ [root_path].
Proof. apply single_name; [done|]. vm_compute. by repeat (apply not_elem_of_cons; split; [done|]); apply not_elem_of_nil. Qed.
Lemma cache_name root : names (joined root SIGN_CACHE) = root ++ [SIGN_CACHE].
Proof. apply single_name; [done|]. vm_compute. by repeat (apply not_elem_of_cons; split; [done|]); apply not_elem_of_nil. Qed.

(** ** Hashing *)

Definition stat_time (m : Z) : Z := if m <? 0 then 0 else wrap_i64 m.

Section hashing.
Context (root : fpath) (sha512 blake3 : bytes → bytes).

Definition entry_of (b : bytes) : json := entry_json (blen b) (hash_bytes sha512 b) (to_hex (blake3 b)).

(** Where the stat of a file is the one remembered, so are its hashes. *)
Definition honest (t : Tree) (prefix : bytes) (cache : SignCache) : Prop :=
  ∀ rel c b s m, bt_get cache rel = Some c → on_disk root t (prefix ++ rel) = Some b → t !! names (joined root (prefix ++ rel)) = Some (File b s m) →
    csize c = blen b → mtime_ns c = stat_time m → csha512 c = hash_bytes sha512 b ∧ cb3 c = to_hex (blake3 b).

(** What has been hashed so far is right. *)
Record hashed_ok (t : Tree) (prefix : bytes) (class : bytes → option bool) (st : Hashed) : Prop := {
  ho_files rel e : bt_get (h_files st) rel = Some e → class rel = Some false ∧ ∃ b, on_disk root t (prefix ++ rel) = Some b ∧ e = entry_of b;
  ho_optional rel e : bt_get (h_optional st) rel = Some e → class rel = Some true ∧ ∃ b, on_disk root t (prefix ++ rel) = Some b ∧ e = entry_of b;
  ho_bytes rel b : bt_get (h_bytes st) rel = Some b → on_disk root t (prefix ++ rel) = Some b;
  ho_cache : honest t prefix (h_cache st);
  ho_wf : bt_wf (h_files st) ∧ bt_wf (h_optional st)
}.

Lemma stat_ok inner d s d' : stat_size_mtime root inner d = (Ok (Some s), d') →
  ∃ b y m, tree d !! names (joined root inner) = Some (File b y m) ∧ s = (blen b, stat_time m) ∧ on_disk root (tree d) inner = Some b.
Proof.
  unfold stat_size_mtime. destruct (storage_path root inner) as [p|e] eqn:Ep; [|done]. apply path_names in Ep as Hp. subst p. unfold mbind, fs_bind, attempt.
  destruct (metadata_spec (joined root inner) d) as (r & d1 & -> & _ & Hr). destruct r as [[|b y m]|e]; [done| |done]. intros [= <- _].
  destruct Hr as (Hl & Hn & [?|Ht]); [done|]. exists b, y, m. split_and!; [done|done|]. unfold on_disk. rewrite Ep. cbn [ok mbind option_bind]. by rewrite Ht, Hn, Hl.
Qed.

Lemma calm_stat inner : calm (stat_size_mtime root inner).
Proof. unfold stat_size_mtime. destruct (storage_path root inner); [|done]. calm. Qed.

Lemma calm_hash_file inner rel o cache st : calm (hash_file root sha512 blake3 inner rel o cache st).
Proof.
  apply calm_bind; [apply calm_stat|]. intros s. destruct (reuse_cached rel s o cache); [done|]. apply calm_bind; [apply calm_read|]. intros b. by destruct (hash_entry _ _ _ _ _ _).
Qed.

Lemma calm_hash_loop prefix class cache listing : ∀ st, calm (hash_loop root sha512 blake3 prefix class cache listing st).
Proof.
  induction listing as [|inner listing IH]; intros st; [done|]. cbn [hash_loop]. destruct (rel ← _; _) as [[rel o]|]; [|done].
  apply calm_bind; [apply calm_hash_file|done].
Qed.

Lemma reuse_ok rel s o cache c : reuse_cached rel s o cache = Some c → ∃ s' cs, s = Some s' ∧ cache = Some cs ∧ bt_get cs rel = Some c ∧ csize c = s'.1 ∧ mtime_ns c = s'.2.
Proof.
  unfold reuse_cached. destruct s as [s|]; [|done]. cbn [mbind option_bind]. destruct (negb o && is_bundleable s.1); [done|]. destruct cache as [cs|]; [|done]. cbn [mbind option_bind].
  destruct (bt_get cs rel) as [c'|] eqn:E; [|done]. cbn [mbind option_bind]. destruct (_ =? _) eqn:E1; [|done]. destruct (mtime_ns c' =? s.2) eqn:E2; [|done]. intros [= <-].
  apply Z.eqb_eq in E1, E2. eauto 8.
Qed.

Lemma honest_insert t prefix cache rel c b s m : honest t prefix cache → t !! names (joined root (prefix ++ rel)) = Some (File b s m) →
  csha512 c = hash_bytes sha512 b → cb3 c = to_hex (blake3 b) → honest t prefix (bt_insert rel c cache).
Proof.
  intros Hh Hl H1 H2 rel' c' b' s' m'. rewrite bt_get_insert. case_decide as E; [subst rel'|apply Hh]. intros [= <-] _ Hl' _ _. rewrite Hl in Hl'. injection Hl' as <- <- <-. done.
Qed.

Lemma add_entry_ok t prefix class st o rel b : hashed_ok t prefix class st → class rel = Some o → on_disk root t (prefix ++ rel) = Some b →
  hashed_ok t prefix class (add_entry o rel (entry_of b) st).
Proof.
  intros [H1 H2 H3 H4 [H5 H6]] Hc Hb. destruct o; (split; cbn [h_files h_optional h_bytes h_cache add_entry]; [| |done|done|split; auto using bt_insert_wf]); try done;
    intros rel' e; rewrite bt_get_insert; case_decide as E; try (apply H1); try (apply H2); subst rel'; intros [= <-]; eauto.
Qed.

Lemma hash_file_ok t prefix class cache rel o st d st' d' : hashed_ok t prefix class st → tree d = t → class rel = Some o → (∀ cs, cache = Some cs → honest t prefix cs) →
  hash_file root sha512 blake3 (prefix ++ rel) rel o cache st d = (Ok st', d') → hashed_ok t prefix class st'.
Proof.
  intros Hst Ht Hc Hh. unfold hash_file. unfold mbind at 1, fs_bind at 1. pose proof (calm_stat (prefix ++ rel)) as Hcs.
  destruct (stat_size_mtime root (prefix ++ rel) d) as [[stat|e] d1] eqn:Es; [|done]. pose proof (calm_tree _ _ _ _ Hcs Es) as Ht1. rewrite Ht in Ht1.
  destruct (reuse_cached rel stat o cache) as [hit|] eqn:Er.
  - intros [= <- _]. apply reuse_ok in Er as (s & cs & -> & -> & Hg & Hz & Hm). apply stat_ok in Es as (b & y & m & Hl & -> & Hb). rewrite Ht in Hl, Hb. cbn [fst snd] in Hz, Hm.
    destruct (Hh cs eq_refl rel hit b y m Hg Hb Hl Hz Hm) as [E1 E2].
    assert (cached_json hit = entry_of b) as -> by (unfold cached_json, entry_of; by rewrite Hz, E1, E2). apply add_entry_ok; [|done|done].
    destruct Hst as [H1 H2 H3 H4 H5]. split; try done. by eapply honest_insert.
  - unfold mbind, fs_bind. destruct (read root (prefix ++ rel) d1) as [[b|e] d2] eqn:Ed; [|done]. apply read_ok in Ed as Hb. rewrite Ht1 in Hb.
    destruct (hash_entry sha512 blake3 rel b stat (h_cache st)) as [entry fresh] eqn:Ee. intros [= <- _]. injection Ee as <- Ef. apply add_entry_ok; [|done|done].
    destruct Hst as [H1 H2 H3 H4 H5]. split; try done; cbn [h_bytes h_cache].
    + intros rel' b'. destruct (negb o && is_bundleable (blen b)); [|apply H3]. rewrite bt_get_insert. case_decide as E; [subst rel'; by intros [= <-]|apply H3].
    + rewrite <- Ef. destruct stat as [s|]; [|done]. destruct (_ =? _); [|done]. apply on_disk_path in Hb as (_ & _ & _ & y & m & Hl). by eapply honest_insert.
Qed.

Lemma strip_prefix_spec prefix inner rel : str_strip_prefix prefix inner = Some rel ↔ inner = prefix ++ rel.
Proof.
  unfold str_strip_prefix. split; [case_bool_decide as E; [|done]; intros [= <-]; rewrite <- E at 1; by rewrite take_drop|].
  intros ->. by rewrite take_app_length, drop_app_length, bool_decide_eq_true_2.
Qed.

Lemma hash_loop_ok t prefix class cache listing : (∀ cs, cache = Some cs → honest t prefix cs) → ∀ st d st' d', hashed_ok t prefix class st → tree d = t →
  hash_loop root sha512 blake3 prefix class cache listing st d = (Ok st', d') → hashed_ok t prefix class st'.
Proof.
  intros Hh. induction listing as [|inner listing IH]; intros st d st' d' Hst Ht; [by intros [= <- _]|]. cbn [hash_loop].
  destruct (str_strip_prefix prefix inner) as [rel|] eqn:Ep; cbn [mbind option_bind]; [|by apply IH]. destruct (class rel) as [o|] eqn:Ec; cbn [mbind option_bind]; [|by apply IH].
  apply strip_prefix_spec in Ep as ->.
  unfold mbind, fs_bind. destruct (hash_file root sha512 blake3 (prefix ++ rel) rel o cache st d) as [[st1|e] d1] eqn:Ef; [|done]. intros H.
  eapply (IH st1); [by eapply hash_file_ok| |exact H]. rewrite <- Ht. eapply calm_tree; [apply calm_hash_file|exact Ef].
Qed.

(** Exactly the files of a class are hashed. *)
Lemma hash_file_keys inner rel o cache st d st' d' : hash_file root sha512 blake3 inner rel o cache st d = (Ok st', d') →
  ∃ e, h_files st' = if o then h_files st else bt_insert rel e (h_files st).
Proof.
  unfold hash_file, mbind, fs_bind. destruct (stat_size_mtime root inner d) as [[s|]d1]; [|done]. destruct (reuse_cached rel s o cache) as [c|].
  - intros [= <- _]. exists (cached_json c). by destruct o.
  - destruct (read root inner d1) as [[b|] d2]; [|done]. destruct (hash_entry _ _ _ _ _ _) as [e fresh]. intros [= <- _]. exists e. by destruct o.
Qed.

Lemma hash_loop_keys prefix class cache listing : ∀ st d st' d', hash_loop root sha512 blake3 prefix class cache listing st d = (Ok st', d') →
  ∀ rel, is_Some (bt_get (h_files st') rel) ↔ is_Some (bt_get (h_files st) rel) ∨ (prefix ++ rel ∈ listing ∧ class rel = Some false).
Proof.
  induction listing as [|inner listing IH]; intros st d st' d'; [intros [= <- _] rel; split; [by left|intros [?|[?%not_elem_of_nil _]]; done]|]. cbn [hash_loop].
  destruct (rel ← str_strip_prefix prefix inner; o ← class rel; Some (rel, o)) as [[r o]|] eqn:Ec.
  - destruct (str_strip_prefix prefix inner) as [r'|] eqn:Ep; [|done]. cbn [mbind option_bind] in Ec. destruct (class r') as [o'|] eqn:Ek; [|done]. injection Ec as -> ->.
    apply strip_prefix_spec in Ep as ->. unfold mbind, fs_bind. destruct (hash_file _ _ _ (prefix ++ r) r o cache st d) as [[st1|] d1] eqn:Ef; [|done]. intros H rel. rewrite (IH _ _ _ _ H).
    apply hash_file_keys in Ef as (e & ->). rewrite elem_of_cons. destruct o; [split; [tauto|]; intros [?|[[E|?] ?]]; [tauto| |tauto]; apply app_inv_head in E as ->; congruence|].
    rewrite bt_get_insert. case_decide as E; [subst rel; split; eauto|]. split; [tauto|]. intros [?|[[E'|?] ?]]; [tauto| |tauto]. by apply app_inv_head in E'.
  - intros H rel. rewrite (IH _ _ _ _ H), elem_of_cons. split; [tauto|]. intros [?|[[<-|?] Hc]]; [tauto| |tauto]. exfalso.
    rewrite (proj2 (strip_prefix_spec prefix (prefix ++ rel) rel) eq_refl) in Ec. cbn [mbind option_bind] in Ec. by rewrite Hc in Ec.
Qed.

Lemma hash_unit_ok dir_order lossy dir opt merged ignore optional cache d h d' :
  let prefix := if bool_decide (dir = []) then [] else dir ++ bstr "/" in
  (∀ cs, cache = Some cs → honest (tree d) prefix cs) →
  hash_unit_files root dir_order lossy sha512 blake3 dir opt merged ignore optional cache d = (Ok h, d') →
  tree d' = tree d ∧ ∃ listing d1, list_files root dir_order lossy d = (Ok listing, d1) ∧
    let class rel := unit_file_class rel (nested_dirs_of prefix listing) opt merged ignore optional in
    hashed_ok (tree d) prefix class h ∧ ∀ rel, is_Some (bt_get (h_files h) rel) ↔ prefix ++ rel ∈ listing ∧ class rel = Some false.
Proof.
  cbv zeta. intros Hh. unfold hash_unit_files. set (prefix := if bool_decide (dir = []) then _ else _) in *. unfold mbind, fs_bind.
  destruct (list_files root dir_order lossy d) as [[listing|e] d1] eqn:El; [|done]. pose proof (calm_tree _ _ _ _ (calm_list_files root dir_order lossy) El) as Ht.
  set (class := λ rel, unit_file_class rel _ opt merged ignore optional). intros H. pose proof (calm_tree _ _ _ _ (calm_hash_loop prefix class cache listing _) H) as Ht'.
  split; [congruence|]. exists listing, d1. split; [done|]. cbv zeta. split; [|intros rel; rewrite (hash_loop_keys _ _ _ _ _ _ _ _ H); cbn; split; [by intros [[? ?]|?]|by right]]. eapply (hash_loop_ok (tree d) prefix class cache listing Hh); [|exact Ht|exact H].
  split; cbn; try done. split; constructor.
Qed.
End hashing.

(** ** The content on its way *)

(** The two tables of files. *)
Definition tables : list bytes := [bstr "files"; bstr "files_optional"].

Record content_wf (c : json) : Prop := {
  cw_obj : ∃ m, c = JObj m ∧ bt_wf m;
  cw_tables key : key ∈ tables → bt_wf (declared c key)
}.

Lemma declared_jget c c' k : jget c' k = jget c k → declared c' k = declared c k.
Proof. unfold declared, get_object. by intros ->. Qed.

Lemma jget_insert k v m k' : jget (JObj (bt_insert k v m)) k' = if decide (k' = k) then Some v else jget (JObj m) k'.
Proof. cbn [jget]. rewrite bt_get_insert. by repeat case_decide. Qed.

Lemma jget_without c k k' : content_wf c → jget (without c k) k' = if decide (k' = k) then None else jget c k'.
Proof. intros [(m & -> & Hm) _]. cbn. rewrite bt_get_remove by done. by repeat case_decide. Qed.

(** Entries may leave the tables, and shards and their salt come in. *)
Record thinned (c c' : json) : Prop := {
  th_wf : content_wf c';
  th_same k : k ∉ [bstr "files"; bstr "files_optional"; bstr "files_shard"; bstr "edx_salt"] → jget c' k = jget c k;
  th_files key p e : key ∈ tables → bt_get (declared c' key) p = Some e → bt_get (declared c key) p = Some e
}.

Lemma thinned_refl c : content_wf c → thinned c c.
Proof. by split. Qed.
Lemma thinned_trans c1 c2 c3 : thinned c1 c2 → thinned c2 c3 → thinned c1 c3.
Proof. intros [H1 H2 H3] [K1 K2 K3]. split; [done|intros k Hk; by rewrite K2, H2|auto]. Qed.

Lemma other_insert c m k v : c = JObj m → content_wf c → k ∉ tables → content_wf (JObj (bt_insert k v m)) ∧ ∀ k', k' ≠ k → jget (JObj (bt_insert k v m)) k' = jget c k'.
Proof.
  intros -> [(m' & [= <-] & Hm) Ht] Hk. assert (∀ k', k' ≠ k → jget (JObj (bt_insert k v m)) k' = jget (JObj m) k') as Hg.
  { intros k' Hne. rewrite jget_insert. by rewrite decide_False. }
  split; [|done]. split; [eexists; split; [done|by apply bt_insert_wf]|]. intros key Hkey. rewrite (declared_jget (JObj m)); [by apply Ht|]. apply Hg. by intros ->.
Qed.

Lemma other_remove c k : content_wf c → content_wf (without c k).
Proof.
  intros Hc. pose proof Hc as [(m & -> & Hm) Ht]. split; [eexists; split; [done|by apply bt_remove_wf]|]. intros key Hkey.
  destruct (decide (key = k)) as [->|Hne]; [|rewrite (declared_jget (JObj m)); [by apply Ht|]; rewrite jget_without by done; by rewrite decide_False].
  unfold declared, get_object. rewrite jget_without by done. rewrite decide_True by done. constructor.
Qed.

Lemma not_table k : k = bstr "files_shard" ∨ k = bstr "edx_salt" → k ∉ tables.
Proof. intros [->| ->]; vm_compute; by repeat (apply not_elem_of_cons; split; [done|]); apply not_elem_of_nil. Qed.

Lemma without_thinned c k : content_wf c → k = bstr "files_shard" ∨ k = bstr "files_optional" → thinned c (without c k).
Proof.
  intros Hc Hk. split; [by apply other_remove| |].
  - intros k' Hk'. rewrite jget_without by done. rewrite decide_False; [done|]. intros ->. apply Hk'. set_solver.
  - intros key p e Hkey. unfold declared, get_object. rewrite jget_without by done. case_decide; done.
Qed.

Lemma salt_thinned rnd c : content_wf c → thinned c (ensure_edx_salt rnd c).1.
Proof.
  intros Hc. unfold ensure_edx_salt. destruct (edx_salt c); [by apply thinned_refl|]. cbn [fst]. pose proof Hc as [(m & -> & _) _].
  destruct (other_insert _ m (bstr "edx_salt") (JStr (to_hex rnd)) eq_refl Hc (not_table _ (or_intror eq_refl))) as [Hw Hg]. split; [done| |].
  - intros k Hk. apply Hg. intros ->. apply Hk. set_solver.
  - intros key p e Hkey. rewrite (declared_jget (JObj m)); [done|]. apply Hg. intros ->. by apply (not_table (bstr "edx_salt")); [right|].
Qed.

Lemma salt_same rnd c k : k ≠ bstr "edx_salt" → jget (ensure_edx_salt rnd c).1 k = jget c k.
Proof. intros Hk. unfold ensure_edx_salt. destruct (edx_salt c); [done|]. destruct c; try done. cbn [fst]. rewrite jget_insert. by rewrite decide_False. Qed.

Lemma set_shard_thinned c path e c' : content_wf c → set_shard_entry c path e = Some c' → thinned c c'.
Proof.
  intros Hc. pose proof Hc as [(m & -> & _) _]. unfold set_shard_entry. cbn [as_object mbind option_bind]. destruct (as_object _) as [sh|]; [|done]. cbn [mbind option_bind]. intros [= <-].
  destruct (other_insert _ m (bstr "files_shard") (JObj (bt_insert path (JObj [(bstr "chunks", JArr (map chunk_json (chunks e))); (bstr "mode", JInt (mode e)); (bstr "size", JInt (ssize e))]) sh)) eq_refl Hc (not_table _ (or_introl eq_refl))) as [Hw Hg]. split; [done| |].
  - intros k Hk. apply Hg. intros ->. apply Hk. set_solver.
  - intros key p v Hkey. rewrite (declared_jget (JObj m)); [done|]. apply Hg. intros ->. by apply (not_table (bstr "files_shard")); [left|].
Qed.

Lemma set_shard_same c path e c' k : set_shard_entry c path e = Some c' → k ∈ tables → jget c' k = jget c k.
Proof.
  unfold set_shard_entry. destruct c as [| | | | | |m]; try done. cbn [as_object mbind option_bind]. destruct (as_object _) as [sh|]; [|done]. cbn [mbind option_bind]. intros [= <-] Hk.
  rewrite jget_insert, decide_False; [done|]. intros ->. by apply (not_table (bstr "files_shard")); [left|].
Qed.

Lemma without_path_thinned c key path : content_wf c → key ∈ tables → thinned c (without_path c key path) ∧ bt_get (declared (without_path c key path) key) path = None ∧
  ∀ k, k ≠ key → jget (without_path c key path) k = jget c k.
Proof.
  intros Hc Hkey. pose proof Hc as [(m & -> & Hm) Ht]. unfold without_path. specialize (Ht key Hkey) as Hf. unfold declared, get_object in Hf. cbn [jget] in Hf.
  destruct (bt_get m key) as [v|] eqn:E; [|split_and!; [by apply thinned_refl|unfold declared, get_object; cbn [jget]; by rewrite E|done]].
  destruct v as [| | | | | |f]; try (split_and!; [by apply thinned_refl|unfold declared, get_object; cbn [jget]; by rewrite E|done]). cbn [mbind option_bind as_object default from_option id] in Hf.
  assert (∀ k, k ≠ key → jget (JObj (bt_insert key (JObj (bt_remove path f)) m)) k = jget (JObj m) k) as Hg by (intros k Hne; rewrite jget_insert; by rewrite decide_False).
  assert (declared (JObj (bt_insert key (JObj (bt_remove path f)) m)) key = bt_remove path f) as Hd by (unfold declared, get_object; rewrite jget_insert; by rewrite decide_True).
  assert (declared (JObj m) key = f) as Hd0 by (unfold declared, get_object; cbn [jget]; by rewrite E).
  split_and!; [split| |done].
  - split; [eexists; split; [done|by apply bt_insert_wf]|]. intros k Hk. destruct (decide (k = key)) as [->|Hne]; [rewrite Hd; by apply bt_remove_wf|]. rewrite (declared_jget (JObj m)); [by apply Ht|by apply Hg].
  - intros k Hk. apply Hg. intros ->. apply Hk. unfold tables in Hkey. set_solver.
  - intros k p e Hk. destruct (decide (k = key)) as [->|Hne]; [|rewrite (declared_jget (JObj m)); [done|by apply Hg]]. rewrite Hd, Hd0, bt_get_remove by done. by case_decide.
  - rewrite Hd, bt_get_remove by done. by rewrite decide_True.
Qed.

Section shards.
Context (root : fpath) (blake3 : bytes → bytes) (derive_key : bytes → bytes → Hash) (seal : Hash → bytes → bytes → bytes).

Lemma encrypt_paths_thinned salt paths : Forall (λ p, p.1 ∈ tables) paths → ∀ c d c' d', content_wf c →
  encrypt_paths root blake3 derive_key seal salt paths c d = (Ok c', d') → thinned c c' ∧ ∀ p, p ∈ paths → bt_get (declared c' p.1) p.2 = None.
Proof.
  induction 1 as [|[key path] paths Hk _ IH]; intros c d c' d' Hc; cbn [encrypt_paths]; [intros [= <- _]; split; [by apply thinned_refl|by intros p ?%not_elem_of_nil]|].
  unfold mbind, fs_bind, attempt. destruct (read root path d) as [[b|e] d1]; [|done]. set (c1 := default c (set_shard_entry c path _)).
  assert (thinned c c1) as H1. { unfold c1. destruct (set_shard_entry c path _) eqn:E; [by eapply set_shard_thinned|by apply thinned_refl]. }
  destruct (without_path_thinned c1 key path (th_wf _ _ H1) Hk) as (H2 & Hgone & _). intros H. destruct (IH _ _ _ _ (th_wf _ _ H2) H) as [H3 Hall].
  split; [by eapply thinned_trans, thinned_trans|]. intros p [->|Hp]%elem_of_cons; [|by apply Hall]. cbn [fst snd] in *.
  destruct (bt_get (declared c' key) path) as [e|] eqn:E; [|done]. by rewrite (th_files _ _ H3 key path e Hk E) in Hgone.
Qed.

(** Only what is encrypted leaves. *)
Lemma without_path_other c key path k p : key ∈ tables → content_wf c → p ≠ path → k ∈ tables → bt_get (declared (without_path c key path) k) p = bt_get (declared c k) p.
Proof.
  intros Hkey Hc Hne Hk. destruct (without_path_thinned c key path Hc Hkey) as (_ & _ & Hg). destruct (decide (k = key)) as [->|Hd]; [|by rewrite (declared_jget c); [|apply Hg]].
  pose proof Hc as [(m & -> & Hm) Ht]. specialize (Ht key Hkey). unfold declared, get_object, without_path in *. cbn [jget] in *. destruct (bt_get m key) as [v|] eqn:E; [|cbn [jget]; by rewrite E].
  destruct v as [| | | | | |f]; try (cbn [jget]; by rewrite E). rewrite jget_insert, decide_True by done. cbn [mbind option_bind as_object default from_option id] in *. rewrite bt_get_remove by done. by case_decide.
Qed.

Lemma encrypt_paths_keeps salt paths : Forall (λ p, p.1 ∈ tables) paths → ∀ c d c' d', content_wf c →
  encrypt_paths root blake3 derive_key seal salt paths c d = (Ok c', d') → ∀ k p, k ∈ tables → p ∉ map snd paths → bt_get (declared c' k) p = bt_get (declared c k) p.
Proof.
  induction 1 as [|[key path] paths Hkey _ IH]; intros c d c' d' Hc; cbn [encrypt_paths]; [by intros [= <- _]|].
  unfold mbind, fs_bind, attempt. destruct (read root path d) as [[b|e] d1]; [|done]. set (c1 := default c (set_shard_entry c path _)).
  assert (content_wf c1 ∧ ∀ k, k ∈ tables → declared c1 k = declared c k) as [H1 H1'].
  { unfold c1. destruct (set_shard_entry c path _) as [c1'|] eqn:E; [|done]. split; [by eapply set_shard_thinned|]. intros k Hk. apply declared_jget. by eapply set_shard_same. }
  intros H k p Hk Hp. cbn [map snd] in Hp. apply not_elem_of_cons in Hp as [Hne Hp]. destruct (without_path_thinned c1 key path H1 Hkey) as (H2 & _ & _).
  rewrite (IH _ _ _ _ (th_wf _ _ H2) H k p Hk Hp). rewrite without_path_other by done. by rewrite H1'.
Qed.

Lemma calm_encrypt_paths salt paths : ∀ c, calm (encrypt_paths root blake3 derive_key seal salt paths c).
Proof. induction paths as [|[key path] paths IH]; intros c; [done|]. cbn [encrypt_paths]. apply calm_bind; [apply calm_attempt, calm_read|]. by intros [b|]. Qed.

Lemma elem_of_shard_paths c re key p : key ∈ tables → content_wf c → (key, p) ∈ shard_paths c re ↔ is_Some (bt_get (declared c key) p) ∧ pattern_matches re p = true.
Proof.
  intros Hkey Hc. unfold shard_paths. cbn [map concat]. rewrite app_nil_r, elem_of_app.
  assert (∀ k, (key, p) ∈ map (pair k) (List.filter (pattern_matches re) (bt_keys (default [] (get_object c k)))) ↔ k = key ∧ p ∈ bt_keys (declared c k) ∧ pattern_matches re p = true) as Hin.
  { intros k. rewrite (list_elem_of_fmap (pair k)). split; [intros (q & [= -> ->] & Hq); rewrite elem_of_bfilter in Hq; naive_solver|].
    intros (-> & H1 & H2). exists p. split; [done|]. by apply elem_of_bfilter. }
  rewrite !Hin. rewrite <- (elem_of_bt_keys (declared c key) p) by (by apply (cw_tables _ Hc)). unfold tables in Hkey. rewrite !elem_of_cons, elem_of_nil in Hkey.
  destruct Hkey as [->|[->|[]]]; split; [intros [?|(H & _)]; [tauto|by vm_compute in H]|tauto|intros [(H & _)|?]; [by vm_compute in H|tauto]|tauto].
Qed.

Lemma encrypt_thinned rnd re c d c' d' : content_wf c → encrypt_shard_files root blake3 derive_key seal rnd c re d = (Ok c', d') →
  tree d' = tree d ∧ thinned c c' ∧
  ∀ key p, key ∈ tables → bt_get (declared c' key) p = if pattern_matches re p then None else bt_get (declared c key) p.
Proof.
  intros Hc. unfold encrypt_shard_files. destruct re as [re|]; [|intros [= <- <-]; split_and!; [done|by apply thinned_refl|done]].
  pose proof (salt_thinned rnd c Hc) as H1. pose proof (λ k, salt_same rnd c k) as Hsalt. destruct (ensure_edx_salt rnd c) as [c1 salt]. cbn [fst] in H1, Hsalt.
  assert (thinned c (without c1 (bstr "files_shard"))) as H2 by (eapply thinned_trans; [exact H1|apply without_thinned; [by apply H1|by left]]).
  set (c2 := without c1 (bstr "files_shard")) in *. unfold mbind, fs_bind. destruct (encrypt_paths _ _ _ _ salt (shard_paths c2 (Some re)) c2 d) as [[c3|e] d1] eqn:E; [|done].
  intros [= <- <-]. split; [by eapply calm_tree; [apply calm_encrypt_paths|exact E]|].
  assert (Forall (λ p, p.1 ∈ tables) (shard_paths c2 (Some re))) as HF.
  { apply Forall_forall. intros [k p]. unfold shard_paths. cbn [map concat]. rewrite app_nil_r, elem_of_app. rewrite (list_elem_of_fmap (pair (bstr "files"))), (list_elem_of_fmap (pair (bstr "files_optional"))).
    unfold tables. intros [(? & [= -> _] & _)|(? & [= -> _] & _)]; set_solver. }
  destruct (encrypt_paths_thinned salt _ HF c2 d c3 d1 (th_wf _ _ H2) E) as [H3 Hgone].
  assert (thinned c3 (match get_object c3 (bstr "files_optional") with Some [] => without c3 (bstr "files_optional") | _ => c3 end)) as H4.
  { destruct (get_object c3 (bstr "files_optional")) as [[|]|]; [apply without_thinned; [by apply H3|by right]|apply thinned_refl, H3..]. }
  split; [by eapply thinned_trans, thinned_trans|]. intros key p Hkey.
  assert (∀ k q, k ∈ tables → bt_get (declared (match get_object c3 (bstr "files_optional") with Some [] => without c3 (bstr "files_optional") | _ => c3 end) k) q = bt_get (declared c3 k) q) as ->.
  { intros k q Hk. destruct (get_object c3 (bstr "files_optional")) as [[|]|] eqn:Eo; [|done..]. unfold declared at 1, get_object. rewrite jget_without by apply H3.
    case_decide as Ek; [subst k; unfold declared; by rewrite Eo|done]. }
  2: done.
  destruct (pattern_matches (Some re) p) eqn:Em.
  - destruct (bt_get (declared c3 key) p) as [v|] eqn:Ev; [|done]. pose proof (th_files _ _ H3 key p v Hkey Ev) as Ev2.
    specialize (Hgone (key, p)). cbn [fst snd] in Hgone. rewrite Hgone in Ev; [done|]. apply elem_of_shard_paths; [done|apply H2|]. by rewrite Ev2.
  - rewrite (encrypt_paths_keeps salt _ HF c2 d c3 d1 (th_wf _ _ H2) E key p Hkey).
    + assert (∀ k, k ∈ tables → jget c2 k = jget c k) as Hsame.
      { intros k Hk. unfold c2. rewrite jget_without by apply H1. rewrite decide_False by (intros ->; by apply (not_table (bstr "files_shard")); [left|]).
        apply Hsalt. intros ->. by apply (not_table (bstr "edx_salt")); [right|]. }
      by rewrite (declared_jget c) by auto.
    + intros ([k q] & -> & Hin)%list_elem_of_fmap. cbn [snd] in *. rewrite Forall_forall in HF. specialize (HF _ Hin). apply elem_of_shard_paths in Hin as [_ Hm]; [congruence|done|apply H2].
Qed.
End shards.

(** ** The stamp *)

(** The roots come from the entries. *)
Definition root_of (e : json) : option ObjId := s ← get_str e (bstr "b3"); from_hex s.

Lemma roots_fold t : bt_wf t → ∀ acc p,
  bt_get (foldl (λ roots (e : bytes * json), match root_of e.2 with Some id => bt_insert e.1 id roots | None => roots end) acc t) p =
  match (e ← bt_get t p; root_of e) with Some id => Some id | None => bt_get acc p end.
Proof.
  induction t as [|[k v] t IH]; intros Hw acc p; [done|]. apply bt_wf_cons in Hw as [Hlt Hw]. cbn [foldl fst snd bt_get]. rewrite IH by done.
  assert (∀ q, bt_get (match root_of v with Some id => bt_insert k id acc | None => acc end) q = match (if decide (q = k) then root_of v else None) with Some id => Some id | None => bt_get acc q end) as Hacc.
  { intros q. destruct (root_of v) as [id|]; [|by case_decide]. rewrite bt_get_insert. by repeat case_decide. }
  rewrite Hacc. destruct (cmp p k) eqn:E.
  - apply cmp_eq_iff in E as ->. rewrite (bt_get_lt k t Hlt). cbn [mbind option_bind]. by rewrite decide_True.
  - rewrite decide_False by (intros ->; by rewrite cmp_refl in E). assert (bt_get t p = None) as ->; [|done].
    apply bt_get_lt. eapply Forall_impl; [exact Hlt|]. intros q Hq. cbn in *. by transitivity k.
  - rewrite decide_False by (intros ->; by rewrite cmp_refl in E). done.
Qed.

Lemma roots_of_file c p e : content_wf c → bt_get (declared c (bstr "files")) p = Some e → bt_get (declared c (bstr "files_optional")) p = None →
  bt_get (edx_file_roots c) p = root_of e.
Proof.
  intros Hc He Ho. unfold edx_file_roots. cbn [foldl]. fold (declared c (bstr "files")) (declared c (bstr "files_optional")).
  etransitivity; [apply (roots_fold (declared c (bstr "files_optional"))); apply (cw_tables _ Hc); set_solver|]. rewrite Ho. cbn [mbind option_bind].
  etransitivity; [apply (roots_fold (declared c (bstr "files"))); apply (cw_tables _ Hc); set_solver|]. rewrite He. cbn [mbind option_bind]. by destruct (root_of e).
Qed.

Section stamps.
Context (root : fpath) (blake3 : bytes → bytes).

(** The fields signing writes. *)
Definition stamped : list bytes := tables ++ [bstr "bundles"; bstr "files_merkle_root"; bstr "edx"].

Lemma apply_edx_keeps c roots a : content_wf c → ∃ c' r, apply_edx blake3 c roots a = Some (c', r) ∧ content_wf c' ∧
  (∀ k, k ∉ stamped → jget c' k = jget c k) ∧ (∀ key, key ∈ tables → declared c' key = signed_files roots a (declared c key)).
Proof.
  intros Hc. pose proof Hc as [(m & -> & Hm) Ht]. destruct (apply_edx blake3 (JObj m) roots a) as [[c' r]|] eqn:E.
  2: { unfold apply_edx in E. cbn [as_object mbind option_bind] in E. by destruct (foldl _ _ _). }
  exists c', r. split; [done|]. destruct (apply_edx_shape blake3 roots a m c' r Hm E) as (m' & -> & Htab & _).
  assert (∀ key, key ∈ tables → declared (JObj m') key = signed_files roots a (declared (JObj m) key)) as Hd.
  { intros key Hk. unfold declared. rewrite (Htab key Hk). by destruct (get_object (JObj m) key). }
  unfold apply_edx in E. cbn [as_object mbind option_bind foldl] in E.
  assert (∀ st key, bt_wf st.1 → bt_wf (apply_files roots a st key).1 ∧ ∀ k, k ≠ key → bt_get (apply_files roots a st key).1 k = bt_get st.1 k) as Hstep.
  { intros st key Hst. unfold apply_files. destruct (bt_get st.1 key) as [[]|]; try done. cbn [fst]. split; [by apply bt_insert_wf|]. intros k Hne. rewrite bt_get_insert. by case_decide. }
  destruct (Hstep (m, []) (bstr "files") Hm) as [W1 G1]. destruct (Hstep _ (bstr "files_optional") W1) as [W2 G2].
  destruct (apply_files roots a (apply_files roots a (m, []) (bstr "files")) (bstr "files_optional")) as [m2 entries]. cbn [fst] in *.
  injection E as <- _. set (m3 := match bundles_json a with [] => _ | _ => _ end) in *.
  assert (bt_wf m3 ∧ ∀ k, k ≠ bstr "bundles" → bt_get m3 k = bt_get m2 k) as [W3 G3].
  { unfold m3. destruct (bundles_json a); (split; [auto using bt_insert_wf, bt_remove_wf|intros k Hne]); [rewrite bt_get_remove by done|rewrite bt_get_insert]; by case_decide. }
  split_and!; [split| |done].
  - eexists. split; [done|]. auto using bt_insert_wf.
  - intros key Hk. rewrite Hd by done. unfold bt_wf. rewrite signed_files_keys. by apply Ht.
  - intros k Hk. unfold stamped, tables in Hk. cbn [jget]. rewrite !bt_get_insert. rewrite !decide_False by (intros ->; apply Hk; set_solver).
    rewrite G3, G2, G1 by (intros ->; apply Hk; set_solver). done.
Qed.

Lemma calm_inputs entries : ∀ hashed out, calm (bundle_inputs_loop root entries hashed out).
Proof.
  induction entries as [|[p e] l IH]; intros hashed out; [done|]. cbn [bundle_inputs_loop]. destruct (negb _); [done|].
  apply calm_bind; [destruct (bt_get hashed p); [done|apply calm_read]|done].
Qed.

Lemma stamp_spec x c h d c' d' : content_wf c → stamp_edx_manifest root blake3 x c h d = (Ok c', d') → tree d' = tree d ∧ content_wf c' ∧
  (∀ k, k ∉ stamped → jget c' k = jget c k) ∧ ∃ a, ∀ key, key ∈ tables → declared c' key = signed_files (edx_file_roots c) a (declared c key).
Proof.
  intros Hc. unfold stamp_edx_manifest, mbind, fs_bind. destruct (edx_bundle_inputs root c h d) as [[files|e] d1] eqn:E; [|done]. intros [= <- <-].
  destruct (apply_edx_keeps c (edx_file_roots c) (assign blake3 files match content x with Some c => prev_memberships c | None => [] end) Hc) as (c1 & r & -> & Hw & Hk & Ht).
  split_and!; [|done|done|by eexists]. eapply calm_tree; [|exact E]. unfold edx_bundle_inputs. destruct (get_object c (bstr "files")); [apply calm_inputs|done].
Qed.

Context (sha512 : bytes → bytes).

(** What a signed entry says of the bytes [b]. *)
Definition attests (e : json) (b : bytes) : Prop :=
  jget e (bstr "size") = Some (JInt (blen b)) ∧ jget e (bstr "sha512") = Some (JStr (hash_bytes sha512 b)) ∧ jget e (bstr "b3") = Some (JStr (to_hex (blake3 b))).

Lemma entry_attests b : attests (entry_of sha512 blake3 b) b.
Proof. done. Qed.

Lemma signed_attests roots a p b : id_wf (blake3 b) → bt_get roots p = root_of (entry_of sha512 blake3 b) → attests (signed_entry roots a p (entry_of sha512 blake3 b)) b.
Proof.
  intros Hid Hr. assert (root_of (entry_of sha512 blake3 b) = Some (blake3 b)) as Er by (by apply from_to_hex). rewrite Er in Hr.
  unfold signed_entry, apply_file, entry_of, entry_json. cbn [fst snd]. rewrite Hr. cbn [fst snd]. unfold apply_entry.
  destruct (bt_get (rmembers a) p) as [[idx [off len]]|]; unfold attests; rewrite ?jget_insert; by vm_compute.
Qed.
End stamps.

(** ** Signing and committing *)

Section publish.
Context `{C : Crypto} `{L : !CryptoLaws} (float_to_string : Z → bytes) (float_word : ∀ f, Forall word_byte (float_to_string f)) `{R : Regexes}.
Context (regex_is_match : bytes → bytes → option bool) (fancy_new : bytes → option Regex).
Context (from_slice : bytes → option json) (json_error : bytes → bytes).
Context (cache_to_vec : SignCache → bytes) (cache_from_slice : bytes → option SignCache).
Context (root : fpath) (dir_order : list bytes → list bytes) (lossy : bytes → bytes).
Context (sha512 blake3 : bytes → bytes) (derive_key : bytes → bytes → Hash) (seal : Hash → bytes → bytes → bytes).

Abbreviation sign_opts := (sign_opts float_to_string fancy_new cache_to_vec cache_from_slice root dir_order lossy sha512 blake3 derive_key seal).

(** Where a commit of the root content.json is prepared. *)
Definition commit_temp : fpath := root ++ [bstr "content.json.epixtmp"].

Definition cache_target (q : fpath) : Prop := q = root ++ [SIGN_CACHE].
Definition commit_target (q : fpath) : Prop := q = root ++ [root_path] ∨ q = commit_temp.
Abbreviation down_to_root := (above root).

Lemma child_reaches Q inner n : names (joined root inner) = root ++ [n] → Q (root ++ [n]) → reaches Q down_to_root (joined root inner).
Proof.
  intros E HQ k Hk. rewrite E in Hk. destruct (decide (k = root ++ [n])) as [->|Hne]; [by left|]. right. destruct Hk as (l & Hl).
  destruct l as [|y l _] using rev_ind; [rewrite app_nil_r in Hl; congruence|]. rewrite app_assoc in Hl. apply app_inj_tail in Hl as [-> _]. by exists l.
Qed.

Lemma cache_write_kept b : follows (kept cache_target down_to_root) (Files.write root SIGN_CACHE b).
Proof. apply write_kept; [apply cache_name|]. by eapply child_reaches; [apply cache_name|]. Qed.

Lemma commit_kept b : follows (kept commit_target down_to_root) (write_atomic root root_path b).
Proof.
  apply write_atomic_kept; [left; apply content_name|eapply child_reaches; [apply content_name|by left]|]. intros d Hd%parent_names. right.
  assert (file_name (joined root root_path) = Some root_path) as -> by (unfold file_name; rewrite content_name; apply last_snoc).
  unfold join_name. cbn [names]. destruct Hd as (-> & _ & _). rewrite content_name, List.removelast_last. done.
Qed.

Lemma content_committed b d d' : tree d !! (root ++ [root_path]) ≠ Some Dir → write_atomic root root_path b d = (Ok (), d') →
  on_disk root (tree d') root_path = Some b.
Proof.
  intros Hd E. rewrite <- content_name in Hd. assert (Hp : storage_path root root_path = Ok (joined root root_path)) by done.
  assert (below root (names (joined root root_path))) as Hb.
  { rewrite content_name. split; [by exists [root_path]|]. intros H. apply (f_equal length) in H. rewrite length_app in H. cbn in H. lia. }
  destruct (commit_steps root root_path b d Hb eq_refl eq_refl Hd Hp) as [H _]. rewrite E in H. destruct (H eq_refl) as (m & Hm). cbn [snd] in Hm.
  unfold on_disk. rewrite Hp. cbn [ok mbind option_bind]. by rewrite Hm.
Qed.

(** ** Putting the content together *)

(** The optional files declared before that count. *)
Definition kept_optional (t : Tree) (opts : SignOpts) (m : btree bytes json) : btree bytes json :=
  if keep_missing_optional opts then m else List.filter (λ e : bytes * json, bool_decide (is_Some (on_disk root t e.1))) m.

Lemma exists_there inner d : fates d = [] → exists_ root inner d = (Ok (bool_decide (is_Some (on_disk root (tree d) inner))), d).
Proof.
  intros Hf. unfold exists_, on_disk. destruct (storage_path root inner) as [p|e]; cbn [ok mbind option_bind]; [|done].
  unfold is_file, mbind, fs_bind, attempt. unfold metadata, mbind, fs_bind, fate, usable, the_tree. rewrite Hf. destruct (nul p); [by rewrite orb_true_r|]. cbn.
  destruct (tree d !! names p) as [[|b s m]|]; destruct (trailing p); done.
Qed.

Lemma retain_there m d : fates d = [] → retain_present root m d = (Ok (List.filter (λ e : bytes * json, bool_decide (is_Some (on_disk root (tree d) e.1))) m), d).
Proof.
  intros Hf. induction m as [|[k v] m IH]; [done|]. cbn [retain_present List.filter fst]. unfold mbind, fs_bind in *. rewrite exists_there by done. rewrite IH. by case_bool_decide.
Qed.

Lemma calm_retain m : calm (retain_present root m).
Proof. induction m as [|e m IH]; [done|]. cbn [retain_present]. apply calm_bind; [apply calm_exists|]. intros b. apply calm_bind; [done|]. done. Qed.

Lemma retain_wf m : ∀ d m' d', bt_wf m → retain_present root m d = (Ok m', d') → bt_wf m' ∧ ∀ e, e ∈ m' → e ∈ m.
Proof.
  induction m as [|[k v] m IH]; intros d m' d' Hw; [by intros [= <- _]|]. apply bt_wf_cons in Hw as [Hlt Hw]. cbn [retain_present]. unfold mbind, fs_bind.
  destruct (exists_ root (k, v).1 d) as [[b|] d1]; [|done]. destruct (retain_present root m d1) as [[m1|] d2] eqn:E; [|done]. intros [= <- _]. destruct (IH _ _ _ Hw E) as [H1 H2].
  destruct b; [|split; [done|]; intros e He; right; auto]. split; [|intros e [->|He]%elem_of_cons; [left|right; auto]].
  apply bt_wf_cons. split; [|done]. rewrite Forall_forall in *. auto.
Qed.

Lemma merged_spec dopt : bt_wf dopt → ∀ ho, bt_wf ho → let merged := foldl (λ m (e : bytes * json), bt_or_insert e.1 e.2 m) ho dopt in
  bt_wf merged ∧ ∀ p, is_Some (bt_get merged p) ↔ is_Some (bt_get ho p) ∨ is_Some (bt_get dopt p).
Proof.
  intros Hd. induction dopt as [|[k v] l IH]; intros ho Hh; cbv zeta; [split; [done|]; intros p; split; [by left|by intros [?|[? [=]]]]|].
  apply bt_wf_cons in Hd as [Hlt Hd]. cbn [foldl fst snd]. destruct (IH Hd (bt_or_insert k v ho) (bt_or_insert_wf _ _ _ Hh)) as [H1 H2]. split; [done|]. intros p. rewrite H2, bt_get_or_insert.
  cbn [bt_get]. destruct (cmp p k) eqn:E.
  - apply cmp_eq_iff in E as ->. rewrite decide_True by done. destruct (bt_get ho k); split; eauto.
  - assert (p ≠ k) by (intros ->; by rewrite cmp_refl in E). rewrite decide_False by done. assert (bt_get l p = None) as ->; [|destruct (bt_get ho p); tauto].
    apply bt_get_lt. eapply Forall_impl; [exact Hlt|]. intros q Hq. cbn in *. by transitivity k.
  - assert (p ≠ k) by (intros ->; by rewrite cmp_refl in E). rewrite decide_False by done. destruct (bt_get ho p); tauto.
Qed.

(** The object that goes to encryption. *)
Definition assembled (x : Xite) (modified : Z) (h : Hashed) (dopt m : btree bytes json) : btree bytes json :=
  let m := stamp x root_path modified (merge_files_optional (bt_insert (bstr "files") (JObj (h_files h)) m) (h_optional h) dopt) in
  if bt_contains m (bstr "signs_required") then m else bt_insert (bstr "signs_required") (JInt 1) m.

Lemma not_tables k : k ∉ tables → k ≠ bstr "files" ∧ k ≠ bstr "files_optional".
Proof. intros Hk. split; intros ->; apply Hk; unfold tables; set_solver. Qed.

Lemma merge_optional_spec h dopt m : content_wf (JObj m) → bt_wf (h_files h) → bt_wf (h_optional h) → bt_wf dopt →
  let c := JObj (merge_files_optional (bt_insert (bstr "files") (JObj (h_files h)) m) (h_optional h) dopt) in
  content_wf c ∧ (∀ k, k ∉ tables → jget c k = jget (JObj m) k) ∧ declared c (bstr "files") = h_files h ∧
  ∀ p, is_Some (bt_get (declared c (bstr "files_optional")) p) → is_Some (bt_get (h_optional h) p) ∨ is_Some (bt_get (declared (JObj m) (bstr "files_optional")) p) ∨ is_Some (bt_get dopt p).
Proof.
  intros Hc Hf Ho Hd. cbv zeta. destruct (merged_spec dopt Hd (h_optional h) Ho) as [Hm1 Hm2]. pose proof Hc as [(m' & [= <-] & Hm) Ht].
  assert (bt_wf (bt_insert (bstr "files") (JObj (h_files h)) m)) as W1 by by apply bt_insert_wf.
  set (m1 := bt_insert (bstr "files") (JObj (h_files h)) m) in *.
  assert (∀ k, k ≠ bstr "files" → jget (JObj m1) k = jget (JObj m) k) as K1 by (intros k Hk; unfold m1; rewrite jget_insert; by rewrite decide_False).
  assert (declared (JObj m1) (bstr "files") = h_files h) as F1 by (unfold declared, get_object, m1; rewrite jget_insert; by rewrite decide_True).
  unfold merge_files_optional. destruct (foldl _ _ dopt) as [|e l] eqn:E.
  - assert (declared (JObj m1) (bstr "files_optional") = declared (JObj m) (bstr "files_optional")) as O1 by (apply declared_jget, K1; by vm_compute).
    split_and!; [split; [by eexists|]|intros k Hk; apply K1; by apply not_tables|done|intros p; rewrite O1; tauto].
    unfold tables. intros key [->|[->|[]%elem_of_nil]%elem_of_cons]%elem_of_cons; [by rewrite F1|rewrite O1; apply Ht; unfold tables; set_solver].
  - assert (∀ k, k ≠ bstr "files_optional" → jget (JObj (bt_insert (bstr "files_optional") (JObj (e :: l)) m1)) k = jget (JObj m1) k) as K2 by (intros k Hk; rewrite jget_insert; by rewrite decide_False).
    assert (declared (JObj (bt_insert (bstr "files_optional") (JObj (e :: l)) m1)) (bstr "files_optional") = e :: l) as O2 by (unfold declared, get_object; rewrite jget_insert; by rewrite decide_True).
    assert (declared (JObj (bt_insert (bstr "files_optional") (JObj (e :: l)) m1)) (bstr "files") = h_files h) as F2 by (rewrite (declared_jget (JObj m1)); [done|apply K2; by vm_compute]).
    split_and!; [split; [eexists; split; [done|by apply bt_insert_wf]|]|intros k [H1 H2]%not_tables; by rewrite K2, K1|done|intros p; rewrite O2, Hm2; tauto].
    unfold tables. intros key [->|[->|[]%elem_of_nil]%elem_of_cons]%elem_of_cons; [by rewrite F2|by rewrite O2].
Qed.

Lemma other_field k v m : k ∉ tables → content_wf (JObj m) →
  content_wf (JObj (bt_insert k v m)) ∧ ∀ key, key ∈ tables → declared (JObj (bt_insert k v m)) key = declared (JObj m) key.
Proof.
  intros Hk Hm. destruct (other_insert (JObj m) m k v eq_refl Hm Hk) as [H1 H2]. split; [done|]. intros key Hkey. apply declared_jget, H2. by intros ->.
Qed.

Lemma stamp_fields x inner modified m : content_wf (JObj m) → let c := JObj (stamp x inner modified m) in
  content_wf c ∧ (∀ key, key ∈ tables → declared c key = declared (JObj m) key) ∧
  jget c (bstr "address") = Some (JStr (address x)) ∧ jget c (bstr "inner_path") = Some (JStr inner).
Proof.
  intros Hm. cbv zeta. unfold stamp. generalize (modified_json modified). intros v.
  destruct (other_field (bstr "modified") v m ltac:(unfold tables; set_solver) Hm) as [C3 D3].
  destruct (other_field (bstr "address") (JStr (address x)) _ ltac:(unfold tables; set_solver) C3) as [C4 D4].
  destruct (other_field (bstr "inner_path") (JStr inner) _ ltac:(unfold tables; set_solver) C4) as [C5 D5].
  split_and!; [done|intros key Hkey; by rewrite D5, D4, D3| |].
  - rewrite !jget_insert, decide_False by done. by rewrite decide_True.
  - rewrite jget_insert. by rewrite decide_True.
Qed.

Lemma assembled_spec x modified h dopt m : content_wf (JObj m) → bt_wf (h_files h) → bt_wf (h_optional h) → bt_wf dopt →
  let c := JObj (assembled x modified h dopt m) in
  content_wf c ∧ declared c (bstr "files") = h_files h ∧
  (∀ p, is_Some (bt_get (declared c (bstr "files_optional")) p) → is_Some (bt_get (h_optional h) p) ∨ is_Some (bt_get (declared (JObj m) (bstr "files_optional")) p) ∨ is_Some (bt_get dopt p)) ∧
  jget c (bstr "address") = Some (JStr (address x)) ∧ jget c (bstr "inner_path") = Some (JStr root_path).
Proof.
  intros Hc Hf Ho Hd. cbv zeta. destruct (merge_optional_spec h dopt m Hc Hf Ho Hd) as (C2 & _ & F2 & O2). unfold assembled.
  destruct (stamp_fields x root_path modified _ C2) as (C5 & D5 & J1 & J2). set (m5 := stamp _ _ _ _) in *. clearbody m5.
  assert (bstr "files" ∈ tables ∧ bstr "files_optional" ∈ tables) as [T1 T2] by (unfold tables; set_solver).
  rewrite <- (D5 _ T1) in F2. setoid_rewrite <- (D5 _ T2) in O2. destruct (bt_contains m5 (bstr "signs_required")); [done|].
  destruct (other_field (bstr "signs_required") (JInt 1) m5 ltac:(unfold tables; set_solver) C5) as [C6 D6].
  rewrite (D6 _ T1), (D6 _ T2), !jget_insert, !decide_False by done. done.
Qed.

(** What is signed, given what was hashed. *)
Lemma signed_spec t x modified h dopt m class rnd shard hb d1 d2 d3 c1 c2 c3 sk sig :
  content_wf (JObj m) → bt_wf dopt → hashed_ok root sha512 blake3 t [] class h →
  encrypt_shard_files root blake3 derive_key seal rnd (JObj (assembled x modified h dopt m)) shard d1 = (Ok c1, d2) →
  stamp_edx_manifest root blake3 x c1 hb d2 = (Ok c2, d3) → sign_content float_to_string c2 sk = (c3, Ok sig) →
  tree d3 = tree d1 ∧ is_object c2 ∧ jget c3 (bstr "address") = Some (JStr (address x)) ∧ jget c3 (bstr "inner_path") = Some (JStr root_path) ∧
  (∀ key p, key ∈ tables → pattern_matches shard p = true → bt_get (declared c3 key) p = None) ∧
  bt_wf (declared c3 (bstr "files")) ∧ content_wf c1 ∧
  (∀ p, is_Some (bt_get (declared c1 (bstr "files_optional")) p) →
    is_Some (bt_get (h_optional h) p) ∨ is_Some (bt_get (declared (JObj m) (bstr "files_optional")) p) ∨ is_Some (bt_get dopt p)) ∧
  ∃ a, ∀ p, bt_get (declared c3 (bstr "files")) p = signed_entry (edx_file_roots c1) a p <$> bt_get (declared c1 (bstr "files")) p ∧
    bt_get (declared c1 (bstr "files")) p = if pattern_matches shard p then None else bt_get (h_files h) p.
Proof.
  intros Hc Hd Hh He Hs Hg. destruct (assembled_spec x modified h dopt m Hc) as (C1 & F1 & O1 & J1 & J2); [apply Hh|apply Hh|done|].
  destruct (encrypt_thinned root blake3 derive_key seal rnd shard _ _ _ _ C1 He) as (T1 & Hth & Hp).
  destruct (stamp_spec root blake3 x c1 hb d2 c2 d3 (th_wf _ _ Hth) Hs) as (T2 & C2 & K2 & a & Ht).
  assert (is_object c2) as Ho by apply C2. destruct (sign_verify_content float_to_string c2 sk c3 sig [] Ho Hg) as (addr & _ & _ & _ & _ & _ & K3).
  assert (∀ key, key ∈ tables → declared c3 key = declared c2 key) as D3 by (intros key Hkey; apply declared_jget, K3; intros ->; by vm_compute in Hkey; set_solver).
  assert (bstr "files" ∈ tables ∧ bstr "files_optional" ∈ tables) as [T1' T2'] by (unfold tables; set_solver).
  assert (∀ k, k ∈ [bstr "address"; bstr "inner_path"] → jget c3 k = jget (JObj (assembled x modified h dopt m)) k) as Hj.
  { intros k Hk. assert (k ∉ stamped ∧ k ∉ [bstr "files"; bstr "files_optional"; bstr "files_shard"; bstr "edx_salt"] ∧ k ≠ bstr "sign" ∧ k ≠ bstr "signs") as (N1 & N2 & N3 & N4).
    { rewrite !elem_of_cons, elem_of_nil in Hk. destruct Hk as [->|[->|[]]]; by vm_compute; set_solver. }
    rewrite K3, K2 by done. by apply (th_same _ _ Hth). }
  split_and!; [congruence|done|by rewrite Hj by set_solver|by rewrite Hj by set_solver| | | | |].
  - intros key p Hkey Hm. rewrite D3, Ht, bt_get_signed, Hp by done. by rewrite Hm.
  - rewrite D3 by done. by apply C2.
  - apply Hth.
  - intros p [v Hv]. apply O1. exists v. by apply (th_files _ _ Hth).
  - exists a. intros p. rewrite D3, Ht, bt_get_signed by done. split; [done|]. by rewrite Hp, F1.
Qed.

(** ** What a peer makes of it *)

(** What is asked of a root content.json besides the owner's signature: names a
    peer can store, merge files that are not hashed too, a size within its limit,
    and signers, where there are others, that the owner vouches for. *)
Definition peer_ready (c : json) (addr : bytes) (len limit : Z) : Prop :=
  (∀ node p, node ∈ [bstr "files"; bstr "files_optional"; bstr "files_merged"] → p ∈ keys_of c node → is_valid_relative_path p = true) ∧
  (∀ p, p ∈ keys_of c (bstr "files_merged") → p ∉ keys_of c (bstr "files") ∧ p ∉ keys_of c (bstr "files_optional")) ∧
  len <= limit ∧
  (let signers := root_signers c (root_ctx addr limit) in
   1 < blen signers → verify (bstr "1:" ++ str_join (bstr ",") signers) addr (default [] (get_str c (bstr "signers_sign"))) = true).

Lemma owner_accepted c sk c' sig addr len limit : is_object c → sign_content float_to_string c sk = (c', Ok sig) → privatekey_to_address sk = Ok addr →
  jget c' (bstr "address") = Some (JStr addr) → jget c' (bstr "inner_path") = Some (JStr root_path) →
  acceptable float_to_string regex_is_match from_slice root_path c' len (root_ctx addr limit) ↔ peer_ready c' addr len limit.
Proof.
  intros Ho Hs Ha J1 J2. destruct (sign_verify_content float_to_string c sk c' sig addr Ho Hs) as (addr' & Ha' & Hv & _). rewrite Ha in Ha'. injection Ha' as <-.
  rewrite bool_decide_eq_true_2 in Hv by done.
  unfold acceptable, well_shaped. unfold get_str at 1 2. rewrite J1, J2. cbn [mbind option_bind as_str].
  unfold valid_signers. rewrite bool_decide_eq_true_2 by done.
  assert (∃ signs a, get_object c' (bstr "signs") = Some signs ∧ a ∈ root_signers c' (root_ctx addr limit) ∧ signed_by signs (signed_data float_to_string c') a = true) as Hsig.
  { destruct (sign_content_ok float_to_string c sk c' sig Ho Hs) as (m & addr' & -> & Ha' & _ & ->). rewrite Ha in Ha'. injection Ha' as <-.
    exists [(addr, JStr sig)], addr. split_and!.
    - unfold get_object. rewrite jget_insert. by rewrite decide_True.
    - unfold root_signers, resolved_signers. cbn [xite_address root_ctx]. case_bool_decide as Hin; [done|]. apply elem_of_app. right. by left.
    - unfold verify_signer in Hv. rewrite jget_insert, decide_True in Hv by done. cbn [mbind option_bind jget] in Hv. unfold signed_by. destruct (v ← bt_get [(addr, JStr sig)] addr; as_str v); [by rewrite Hv|done]. }
  unfold peer_ready. cbn [xite_address size_limit_bytes root_ctx]. split.
  - intros (_ & (_ & _ & H1 & H2) & H3 & _). destruct (H3 eq_refl). done.
  - intros (H1 & H2 & H3 & H4). split_and!; [done|by intros ? [= <-]|by intros ? [= <-]|done|done|done|done].
Qed.

(** What the parser makes of a text that is that of a value but for white space. *)
Context (storable : json → Prop).
Context (reads_back : ∀ s v, storable v → bare Out s = bare Out (dumps_sorted float_to_string v) → clean Out s → tight s → from_slice s = Some v).

Lemma stage_signed c sk c' sig addr y limit : is_object c → sign_content float_to_string c sk = (c', Ok sig) → privatekey_to_address sk = Ok addr →
  jget c' (bstr "address") = Some (JStr addr) → jget c' (bstr "inner_path") = Some (JStr root_path) → address y = addr → storable c' →
  let text := dumps_content float_to_string c' in
  stage_content_limited float_to_string regex_is_match from_slice json_error y text limit = Ok (mkXite (address y) (Some c')) ↔ peer_ready c' addr (blen text) limit.
Proof.
  intros Ho Hs Ha J1 J2 Hy Hst. cbv zeta. set (text := dumps_content float_to_string c'). destruct (dumps_same float_to_string float_word c') as (B1 & B2 & _ & B3 & _). fold text in B1, B2, B3.
  rewrite <- (owner_accepted c sk c' sig addr _ limit Ho Hs Ha J1 J2), <- verify_content_file_iff. unfold stage_content_limited, parse_content. rewrite (reads_back text c' Hst B1 B2 B3), Hy.
  cbn [ok_or mbind result_bind]. destruct (verify_content_file _ _ _ _ _ _ _) as [[]|e]; done.
Qed.
(** ** The whole *)

Definition shard_of (x : Xite) : option Regex := path_pattern fancy_new (jget (default (JObj []) (content x)) (bstr "shard")).

Lemma list_same d : fates d = [] → (list_files root dir_order lossy d).2 = d.
Proof.
  intros Hf. unfold list_files, mbind, fs_bind, the_tree. generalize (Datatypes.S (size (tree d))), [root], ([] : list bytes). intros fuel.
  induction fuel as [|fuel IH]; intros stack out; [done|]. destruct stack as [|dir stack]; [done|]. cbn [list_loop]. unfold mbind, fs_bind, fate, the_tree. rewrite Hf.
  destruct (tree d !! dir) as [[]|]; try apply IH. destruct (list_dir _ _ _ _ _ _ _). apply IH.
Qed.

(** The class of a path of the root's unit. *)
Definition root_class (t : Tree) (x : Xite) (opts : SignOpts) (listing : list bytes) (p : bytes) : option bool :=
  let c := default (JObj []) (content x) in
  unit_file_class p (nested_dirs_of [] listing) (kept_optional t opts (declared c (bstr "files_optional"))) (declared c (bstr "files_merged"))
    (path_pattern fancy_new (jget c (bstr "ignore"))) (path_pattern fancy_new (jget c (bstr "optional"))).

Lemma wf_content c : json_wf c → ∀ m, as_object c = Some m → c = JObj m ∧ content_wf (JObj m).
Proof.
  intros Hw m Hm. destruct c; try done. injection Hm as ->. split; [done|]. inversion Hw as [| | | | | |? H1 H2]; subst. split; [by eexists|].
  intros key _. unfold declared, get_object. cbn [jget]. destruct (bt_get m key) as [v|] eqn:E; [|constructor]. rewrite Forall_forall in H2.
  apply bt_get_elem in E; [|done]. specialize (H2 _ E). cbn in H2. destruct v; cbn; try constructor. by inversion H2.
Qed.

(** The parts of a signing that went through. *)
Lemma sign_opts_inv rnd x sk modified opts d x' d' :
  (∀ c, content x = Some c → json_wf c) →
  (∀ b cs, full opts = false → on_disk root (tree d) SIGN_CACHE = Some b → cache_from_slice b = Some cs → honest root sha512 blake3 (tree d) [] cs) →
  sign_opts rnd x sk modified opts d = (Ok x', d') →
  ∃ dopt h listing dh dl m c1 c2 c3 sig d1 d2 d3,
    let class p := unit_file_class p (nested_dirs_of [] listing) dopt (declared (JObj m) (bstr "files_merged")) (path_pattern fancy_new (jget (JObj m) (bstr "ignore")))
      (path_pattern fancy_new (jget (JObj m) (bstr "optional"))) in
    privatekey_to_address sk = Ok (address x) ∧ default (JObj []) (content x) = JObj m ∧ content_wf (JObj m) ∧ bt_wf dopt ∧
    (fates d = [] → dopt = kept_optional (tree d) opts (declared (JObj m) (bstr "files_optional")) ∧ list_files root dir_order lossy d = (Ok listing, d)) ∧
    list_files root dir_order lossy dh = (Ok listing, dl) ∧
    hashed_ok root sha512 blake3 (tree d) [] class h ∧ (∀ p, is_Some (bt_get (h_files h) p) ↔ p ∈ listing ∧ class p = Some false) ∧
    encrypt_shard_files root blake3 derive_key seal rnd (JObj (assembled x modified h dopt m)) (shard_of x) d1 = (Ok c1, d2) ∧
    stamp_edx_manifest root blake3 x c1 (h_bytes h) d2 = (Ok c2, d3) ∧ sign_content float_to_string c2 sk = (c3, Ok sig) ∧
    kept cache_target down_to_root (tree d) (tree d1) ∧ tree d3 = tree d1 ∧
    write_atomic root root_path (dumps_content float_to_string c3) d3 = (Ok (), d') ∧ x' = mkXite (address x) (Some c3).
Proof.
  intros Hwf Hcache H. unfold XiteSign.sign_opts in H. apply bind_inv in H as (signer & d0 & E0 & H). apply lift_inv in E0 as [E0 ->].
  destruct (privatekey_to_address sk) as [a|] eqn:Ha; [|done]. injection E0 as ->. destruct (bool_decide (signer = address x)) eqn:Es; [|done]. apply bool_decide_eq_true in Es as ->. cbn [negb] in H.
  set (c := default (JObj []) (content x)) in *. assert (json_wf c) as Hc. { unfold c. destruct (content x) as [c'|]; [by apply Hwf|]. cbn. constructor; constructor. }
  apply bind_inv in H as (dopt & da & E1 & H). apply bind_inv in H as (cs & db & E2 & H). apply bind_inv in H as (h & dc & E3 & H). apply bind_inv in H as ([] & d1 & E4 & H).
  apply bind_inv in H as (m & d1' & E5 & H). apply lift_inv in E5 as [E5 ->]. destruct (as_object c) as [m'|] eqn:Em; [|done]. injection E5 as ->.
  apply bind_inv in H as (c1 & d2 & E6 & H). apply bind_inv in H as (c2 & d3 & E7 & H). destruct (sign_content float_to_string c2 sk) as [c3 r] eqn:E8.
  apply bind_inv in H as (sig & d3' & E9 & H). apply lift_inv in E9 as [E9 ->]. destruct r as [sig'|]; [|done]. clear E9.
  apply bind_inv in H as ([] & d4 & E10 & H). injection H as <- <-.
  destruct (wf_content c Hc m Em) as [Ec Cm]. rewrite Ec in *.
  assert (tree da = tree d ∧ bt_wf dopt ∧ (fates d = [] → dopt = kept_optional (tree d) opts (declared (JObj m) (bstr "files_optional")) ∧ da = d)) as (Ta & Wd & Ea).
  { unfold kept_optional. destruct (keep_missing_optional opts); [injection E1 as <- <-; split_and!; [done|apply Cm; unfold tables; set_solver|done]|].
    split; [by eapply calm_tree; [apply calm_retain|exact E1]|]. split; [eapply retain_wf; [|exact E1]; apply Cm; unfold tables; set_solver|].
    intros Hf. rewrite retain_there in E1 by done. injection E1 as <- <-. done. }
  assert (tree db = tree d ∧ honest root sha512 blake3 (tree d) [] cs ∧ (fates d = [] → db = d)) as (Tb & Hh & Eb).
  { unfold load_sign_cache in E2. destruct (full opts); [injection E2 as <- <-; split_and!; [done|by intros ? ? ? ? ? ?|by intros Hf; apply Ea]|].
    unfold mbind, fs_bind, attempt in E2. destruct (Files.read root SIGN_CACHE da) as [[b|e] db'] eqn:Er.
    - injection E2 as <- <-. assert (tree db' = tree da) as T by (eapply calm_tree; [apply calm_read|exact Er]). apply read_ok in Er as Hb. rewrite Ta in Hb. split_and!; [congruence| |].
      + cbn [mbind option_bind]. destruct (cache_from_slice b) as [cs|] eqn:Eb; [by apply (Hcache b)|by intros ? ? ? ? ? ?].
      + intros Hf. destruct (Ea Hf) as [_ ->]. rewrite read_there in Er by done. destruct (on_disk root (tree d) SIGN_CACHE); by injection Er.
    - injection E2 as <- <-. assert (tree db' = tree da) as T by (eapply calm_tree; [apply calm_read|exact Er]). split_and!; [congruence|by intros ? ? ? ? ? ?|].
      intros Hf. destruct (Ea Hf) as [_ ->]. rewrite read_there in Er by done. destruct (on_disk root (tree d) SIGN_CACHE); by injection Er. }
  destruct (hash_unit_ok root sha512 blake3 dir_order lossy [] dopt (declared (JObj m) (bstr "files_merged")) (path_pattern fancy_new (jget (JObj m) (bstr "ignore")))
    (path_pattern fancy_new (jget (JObj m) (bstr "optional"))) (Some cs) db h dc) as (Tc & listing & dl & El & Hok & Hkeys); [intros ? [= <-]; by rewrite Tb|exact E3|].
  exists dopt, h, listing, db, dl, m, c1, c2, c3, sig', d1, d2, d3. cbv zeta. rewrite Tb in Hok.
  destruct (assembled_spec x modified h dopt m Cm) as (C1 & _); [apply Hok|apply Hok|done|].
  destruct (encrypt_thinned root blake3 derive_key seal rnd _ _ _ _ _ C1 E6) as (T2 & Hth & _).
  destruct (stamp_spec root blake3 x c1 _ d2 c2 d3 (th_wf _ _ Hth) E7) as (T3 & _).
  split_and!; try done.
  - intros Hf. destruct (Ea Hf) as [-> _]. split; [done|]. rewrite (Eb Hf) in El. destruct (list_files root dir_order lossy d) as [r dx] eqn:Ex. injection El as -> ->.
    pose proof (list_same d Hf) as Hs. rewrite Ex in Hs. by rewrite <- Hs.
  - unfold shard_of. fold c. by rewrite Ec.
  - assert (follows (kept cache_target down_to_root) (ignored (Files.write root SIGN_CACHE (cache_to_vec (h_cache h))))) as Hw.
    { refine (follows_bind _ _ _ _ _); [apply follows_attempt, cache_write_kept|]. intros _. follows. }
    apply (follows_now _ _ dc) in Hw. rewrite E4 in Hw. cbn in Hw. by rewrite Tc, Tb in Hw.
  - congruence.
Qed.

Lemma kept_path_here t inner b : on_disk root t inner = Some b → names (joined root inner) ≠ root ++ [SIGN_CACHE] → names (joined root inner) ≠ root ++ [root_path] → names (joined root inner) ≠ commit_temp →
  ∀ t1 t2, kept cache_target down_to_root t t1 → kept commit_target down_to_root t1 t2 → on_disk root t2 inner = Some b.
Proof.
  intros Hb H1 H2 H3 t1 t2 K1 K2. eapply on_disk_kept; [exact K2| |by intros [?|?]]. by eapply on_disk_kept.
Qed.

Lemma class_not_declared p nested opt merged ignore optional : unit_file_class p nested opt merged ignore optional = Some false → bt_get opt p = None.
Proof.
  unfold unit_file_class. destruct (_ || _); [done|]. destruct (_ || _); [done|]. destruct (bt_contains merged p); [done|]. destruct (existsb _ _); [done|].
  destruct (pattern_matches optional p); cbn; [done|]. unfold bt_contains. case_bool_decide as H; [done|]. intros _. destruct (bt_get opt p); [by destruct H|done].
Qed.

Lemma kept_optional_get t opts m p b : bt_wf m → on_disk root t p = Some b → bt_get (kept_optional t opts m) p = bt_get m p.
Proof.
  intros Hw Hb. unfold kept_optional. destruct (keep_missing_optional opts); [done|]. induction m as [|[k v] m IH]; [done|]. apply bt_wf_cons in Hw as [Hlt Hw]. cbn [List.filter fst].
  case_bool_decide as Hk; cbn [bt_get]; [destruct (cmp p k); [done|done|by apply IH]|]. destruct (cmp p k) eqn:E; [|rewrite IH by done|by apply IH].
  - apply cmp_eq_iff in E as ->. destruct Hk. by exists b.
  - apply bt_get_lt. eapply Forall_impl; [exact Hlt|]. intros q Hq. cbn in *. by transitivity k.
Qed.

Lemma signed_keeps roots a p b : jget (signed_entry roots a p (entry_of sha512 blake3 b)) (bstr "size") = Some (JInt (blen b)) ∧
  jget (signed_entry roots a p (entry_of sha512 blake3 b)) (bstr "sha512") = Some (JStr (hash_bytes sha512 b)).
Proof.
  unfold signed_entry, apply_file, entry_of, entry_json. cbn [fst snd]. destruct (bt_get roots p) as [r|]; [|done]. cbn [fst snd]. unfold apply_entry.
  destruct (bt_get (rmembers a) p) as [[idx [off len]]|]; rewrite ?jget_insert; by vm_compute.
Qed.

Lemma needed_none d fs : fates d = [] → Forall (λ f, ∃ b, on_disk root (tree d) (inner_path f) = Some b ∧ hash_bytes sha512 b = sha512_hex f) fs → needed root sha512 fs d = (Ok [], d).
Proof.
  intros Hf. induction 1 as [|f fs (b & H1 & H2) _ IH]; [done|]. cbn [needed]. unfold mbind, fs_bind. rewrite (verify_there root sha512 _ _ _ b Hf H1 H2). cbn beta iota. by rewrite IH.
Qed.

(** What is hashed lies apart from what signing writes. *)
Lemma hashed_apart t p b nested opt merged ignore optional o : unit_file_class p nested opt merged ignore optional = Some o → on_disk root t p = Some b →
  (∀ b s m, t !! commit_temp ≠ Some (File b s m)) → names (joined root p) ≠ root ++ [SIGN_CACHE] ∧ names (joined root p) ≠ root ++ [root_path] ∧ names (joined root p) ≠ commit_temp.
Proof.
  intros Hc Hb Ht. apply on_disk_path in Hb as (Hp & Htr & _ & s & m & Hl). destruct (file_base root p Hp Htr) as (n & l & Hn & E). destruct (classed_base p n _ _ _ _ _ _ Hn Hc) as [H1 H2].
  split_and!.
  - rewrite E. intros H. apply app_inv_head, app_singleton in H as [[-> [= ->]]|[_ ?]]; [by vm_compute in H2|done].
  - rewrite E. intros H. apply app_inv_head, app_singleton in H as [[-> [= ->]]|[_ ?]]; done.
  - intros H. rewrite H in Hl. by apply Ht in Hl.
Qed.

End publish.

(** ** Runs *)

Definition demo_root : fpath := [bstr "x"].
Definition demo_b3 (b : bytes) : bytes := pad32 b.
Definition demo_disk (extra : Tree) : Disk :=
  mkDisk (extra ∪ <[[bstr "x"; bstr "a.txt"] := File (bstr "hello") true 7]> {[ [bstr "x"] := Dir; [] := Dir ]}) [] 9 [].
Abbreviation demo_sign x d := (sign_opts (C := toy_crypto) (λ _, bstr "0.5") (R := scanner) (λ _, None) (λ _, []) (λ _, None) demo_root (λ l, l) (λ b, b) (λ b, b) demo_b3 (λ a b, pad32 (a ++ b)) (λ _ _ p, p)
    [] x toy_key 0 (mkOpts false false) d).
Definition demo_needed (r : result CoreError Xite * Disk) : option (list bytes) :=
  match r with (Ok x, d) => match (files_needed demo_root (λ b, b) x d).1 with Ok l => Some (map inner_path l) | Err _ => None end | _ => None end.
Definition demo_optional (r : result CoreError Xite * Disk) : list bytes :=
  match r with (Ok x, _) => bt_keys (declared (default JNull (content x)) (bstr "files_optional")) | _ => [] end.

Example plain_sign : demo_needed (demo_sign (mkXite toy_addr None) (demo_disk ∅)) = Some [].
Proof. vm_compute. reflexivity. Qed.

(** A commit cut off before its rename leaves its temporary file. The next signing
    takes it for a file of the xite, lists it, and then renames it away: a file is
    asked for that nobody can have. *)
Definition leftover : Tree := {[ commit_temp demo_root := File (bstr "torn") true 5 ]}.
Example leftover_signed : demo_needed (demo_sign (mkXite toy_addr None) (demo_disk leftover)) = Some [bstr "content.json.epixtmp"].
Proof. vm_compute. reflexivity. Qed.

(** An optional file that is gone leaves the manifest with the next signing, unless
    it was the last one there was: then the table stays as it is. *)
Definition old_entry : json := entry_json 3 (bstr "00") (bstr "00").
Definition with_optional (names : list bytes) : Xite := mkXite toy_addr (Some (JObj [(bstr "files_optional", JObj (map (λ n, (n, old_entry)) names))])).
Definition still_there : Tree := {[ [bstr "x"; bstr "b.bin"] := File (bstr "b") true 7 ]}.
Example last_optional_stays :
  demo_optional (demo_sign (with_optional [bstr "b.bin"; bstr "gone.bin"]) (demo_disk still_there)) = [bstr "b.bin"] ∧
  demo_optional (demo_sign (with_optional [bstr "gone.bin"]) (demo_disk ∅)) = [bstr "gone.bin"].
Proof. vm_compute. split; reflexivity. Qed.

Abbreviation demo_run := (demo_sign (mkXite toy_addr None) (demo_disk ∅)).
Definition demo_content : json := match demo_run.1 with Ok x => default JNull (content x) | _ => JNull end.
Definition demo_parse (s : bytes) : option json :=
  if decide (bare Out s = bare Out (dumps_sorted (λ _, bstr "0.5") demo_content)) then Some demo_content else None.

Lemma demo_signed : demo_run = (Ok (mkXite toy_addr (Some demo_content)), demo_run.2).
Proof. rewrite (surjective_pairing demo_run) at 1. apply pair_eq. split; [vm_compute; reflexivity|done]. Qed.
Lemma demo_entry : bt_get (declared demo_content (bstr "files")) (bstr "a.txt") = Some (JObj [(bstr "b3", JStr (to_hex (demo_b3 (bstr "hello"))));
  (bstr "bundle", JStr (to_hex (demo_b3 (bstr "hello")))); (bstr "off", JInt 0); (bstr "sha512", JStr (to_hex (bstr "hello"))); (bstr "size", JInt 5)]).
Proof. vm_compute. reflexivity. Qed.

Lemma demo_reads : ∀ s v, v = demo_content → bare Out s = bare Out (dumps_sorted (λ _, bstr "0.5") v) → clean Out s → tight s → demo_parse s = Some v.
Proof. intros s v -> Hb _ _. unfold demo_parse. by rewrite decide_True. Qed.

